(* ===== verification/_CoqProject ===== *)
-Q . S2P
Prelude.v
SortedLists.v
Coding.v
Comparator.v
Status.v
Crc32c.v
Bloom.v
Snappy.v
SnappyUncompress.v
SnappyCompress.v
SnappyBound.v
Logging.v
Env.v
FileName.v
MemEnv.v
EnvFiles.v
LogFile.v
DbFormat.v
Random.v
Arena.v
SkipList.v
WriteBatch.v
Iterator.v
MemTable.v
WriteQueue.v
BlockBuilder.v
Block.v
Format.v
FilterBlock.v
TwoLevelIterator.v
TableBuilder.v
Table.v
Merger.v
DbIter.v
VersionEdit.v
Builder.v
Version.v
VersionRead.v
VersionBuilder.v
VersionSet.v
Manifest.v
Compaction.v
CompactionDrop.v
CompactionInstall.v
DList.v
Snapshot.v
DbState.v
DbFiles.v
DbWrite.v
DbCommit.v
DbRoom.v
DbRead.v
DbView.v
DbIterView.v
DbCompact.v
DbRecover.v
Cache.v
CacheTable.v
CacheRefines.v
CacheShards.v
CacheLedger.v
TableCache.v
TableCacheView.v
