(* ===== verification/Prelude.v ===== *)
(** * Verification of the native storage engine of WorldToPE

    WorldToPE is an Android application. The Java code calls a native library,
    [src/app/src/main/jni/], that consists of LevelDB 1.18 ([leveldb-1.18/]),
    Snappy 1.1.0 ([snappy-1.1.0/]) and a JNI layer ([com_litl_leveldb_*.cc],
    [leveldbjni.cc]). This development is about the native library; paths
    below are relative to [leveldb-1.18/] unless they start with [snappy].

    ** How the program works

    A write goes through a write batch to the log file and to the memtable, a
    skip list of encoded entries; memtables are written to sorted table files
    (blocks of prefix-compressed entries, compressed with Snappy, each with a
    checksum, an index block, Bloom filters), which compactions merge; the set
    of live files is a version, kept in a descriptor log (the MANIFEST);
    iterators merge all sources and hide what is deleted or newer than the
    snapshot that is read.

    ** Files and what they model

    Shared:
    - [Prelude]: bytes ([Byte.byte]), machine words ([Z] with [wrap w]), slices
      as byte lists with integer sizes, the loop combinator, shared lemmas and
      tactics. [size_t] is 32 bits wide, as on both ABIs that are built
      (armeabi-v7a, x86); where plain [char] is read as a number its
      signedness is a parameter, since it differs between them.
    - [SortedLists]: lists in strict order, filters that cut them, indices.

    Utilities:
    - [Coding] (util/coding.cc, .h): fixed-width integers, varints,
      length-prefixed slices.
    - [Comparator] (include/leveldb/comparator.h, slice.h, util/comparator.cc):
      the comparator interface as a class of operations with a class of laws,
      and the bytewise comparator.
    - [Status] (util/status.cc): the status buffer.
    - [Crc32c] (util/crc32c.cc, .h): the checksum with its tables.
    - [Bloom] (util/hash.cc, util/bloom.cc, include/leveldb/filter_policy.h):
      the hash, filter policies as a class, the Bloom filter.
    - [Snappy] (snappy.cc, snappy-internal.h, snappy-sinksource.cc): the
      decompressor, its two writers and its memory accesses: every load from
      the input, the output or the scratch buffer and every store to the latter
      two is checked; [SnappyUncompress]: the format as a reference decoder,
      memory safety and correctness; [SnappyCompress]: the compressor and the round trip;
      [SnappyBound]: the size of the output.
    - [Logging] (util/logging.cc): numbers and strings in text.
    - [Env] (include/leveldb/env.h, util/env.cc): files as classes over a
      state monad, with their laws; [FileName] (db/filename.cc): names of
      database files; [MemEnv] (helpers/memenv/memenv.cc): the in-memory
      environment on a heap of reference-counted files.
    - [EnvFiles]: what an environment is in which no operation fails,
      [ReliableEnv], a map from names to contents with open handles; the
      in-memory environment is one.
    - [Random] (util/random.h), [Arena] (util/arena.cc): what the skip list
      uses.
    - [DList] (the linked lists of util/cache.cc and db/snapshot.h), [Cache],
      [CacheTable], [CacheRefines], [CacheShards] (util/cache.cc): the hash
      table, the LRU lists and the sharded cache, and their specification as a
      list of entries.

    The memory side of a database:
    - [LogFile] (db/log_format.h, log_writer.cc, log_reader.cc): log records.
    - [DbFormat] (db/dbformat.cc, .h): internal keys and lookup keys.
    - [SkipList] (db/skiplist.h): the skip list, one store at a time.
    - [WriteBatch] (db/write_batch.cc): batches; [MemTable] (db/memtable.cc):
      entries in the skip list, lookups, insertion of batches.

    Tables:
    - [Iterator] (include/leveldb/iterator.h, table/iterator.cc,
      iterator_wrapper.h): the interface and its laws.
    - [BlockBuilder], [Block] (table/block_builder.cc, block.cc): blocks, with
      the format [Layout] between the two; [Format] (table/format.cc): block
      handles, footer, checked blocks; [FilterBlock] (table/filter_block.cc);
      [TwoLevelIterator] (table/two_level_iterator.cc); [TableBuilder] and
      [Table] (table/table_builder.cc, table.cc).
    - [Merger] (table/merger.cc): the merging iterator; [DbIter]
      (db/db_iter.cc): the iterator users see, with [user_view], the view that
      a snapshot has of a list of internal entries.

    Versions:
    - [VersionEdit] (db/version_edit.cc): changes of the set of live files.
    - [Version] and [VersionRead] (class [Version] of db/version_set.cc):
      searches and lookups; the invariant of the levels, [version_ok], and that
      reads see the newest entries.
    - [VersionBuilder] ([VersionSet::Builder]), [VersionSet] and [Manifest]
      (class [VersionSet]): edits applied, the list of live versions, writing
      and recovering the MANIFEST under any failure of the file system.
    - [Compaction], [CompactionDrop], [CompactionInstall] (class [Compaction],
      the choice of files in db/version_set.cc, the drop rule and the installed
      edit of db/db_impl.cc).
    - [Snapshot] (db/snapshot.h): the list of snapshots.

    The database (db/db_impl.cc, .h):
    - [Builder] (db/builder.cc): a table file from an iterator, with the table
      cache (db/table_cache.h) as an interface.
    - [CacheLedger]: what every operation of the LRU cache does to the entries it
      owns, and that each is deleted once; [TableCache] (db/table_cache.cc): open
      tables in the LRU cache; [TableCacheView]: the lookups of a version through
      it, down to the blocks in the files.
    - [DbState]: the members of [DBImpl] as a record, the monad [DB] of this
      record and the state of the environment, construction, options, [NewDB],
      scheduling; [DbFiles]: [DeleteObsoleteFiles] keeps what is needed.
    - [WriteQueue]: the queue of writers and the batch for a group of them;
      [DbWrite]: [Write], [MakeRoomForWrite]; [DbCommit]: what the writer at the
      front does is one record of the log and the same writes in the memtable;
      [DbRoom]: it gets there.
    - [DbRead]: [Get], [NewIterator], snapshots, properties; [DbView] and
      [DbIterView]: they answer from the view of the memtables and the current
      version together.
    - [DbCompact]: [CompactMemTable], [DoCompactionWork], the background thread,
      manual compactions; [DbRecover]: [RecoverLogFile], [Recover], [DB::Open],
      [DestroyDB].

    Each file opens with what its definitions correspond to. Definitions keep
    the names of the source; the loops carry a bound on the number of turns
    ([fuel]) and the theorems show that the bound given is enough: bounds are
    lengths of what a loop consumes (bytes, files, entries of an iterator), or
    a fuel argument with a theorem that some fuel gives the result.

    ** What the theorems show

    - Formats: what is written is read back (integers, numbers in text, batches,
      log records after a crash, blocks, footers, tables, filters, edits,
      MANIFEST, Snappy), and readers stay inside their buffers on any bytes, or
      an example shows where they do not.
    - Structures: the arena hands out disjoint memory, the skip list is a sorted
      list also for readers beside a writer, memtables answer at every
      snapshot.
    - Iterators: every iterator of the engine refines a position in a sorted
      list ([IteratorLaws]); the layers compose up to the user's view.
    - Versions: edits mean what the builder makes of them, an edit is installed
      exactly if it was made durable, lookups give the newest entry. The choice of
      a compaction's inputs is closed, but for a user key that is split over two
      files of a level; if no such key and no new file is beside the inputs, an
      installed compaction changes no view of a live snapshot. Both conditions
      are needed: examples in [CompactionInstall] show what is lost without.
    - The database: a group of writes is committed as one, a writer that waits
      for room gets on if the other threads do, reads and iterators see the view
      of their sequence number while other threads run, files that are needed
      are not deleted, a table is built completely or removed, and the table cache
      is not visible in what is read.

    ** Interfaces

    The virtual interfaces of the source are classes of operations, what is
    promised about them classes of laws: [ComparatorLaws], [FilterPolicyLaws],
    [WritableFileLaws], [SequentialFileLaws], [TableFileLaws], [OrderLaws] (the
    comparator of the skip list), [BlockAllocatorLaws] ([operator new[]]),
    [IteratorLaws], [TableReads] and [TableIterators] (what a version needs of
    the tables), [ReliableEnv] and [DbEnvLaws] (environments without failures),
    [EvictLaws] (the table cache), [RandomLaws] (files that are opened for
    reading). The clients are proved against the laws, and
    the implementations in the sources are instances.

    ** Concurrency

    Code that runs under a mutex is one transition; where the source is written
    for readers without a lock (the skip list) its stores are single steps and
    the readers' loads interleave with them. An operation of the database lets
    the other threads run, [others], wherever it releases the mutex or waits,
    before and behind what it does without the mutex, which is one step. Its
    theorems say what they rely on of [others]. Addresses of memtables, writers
    and versions are names that are not in use; condition variables have no
    state, so that a wait is a turn of the other threads.

    ** Assertions

    [Android.mk] compiles LevelDB with -DNDEBUG, so its assertions are not a
    part of the program. Where a theorem needs what an assertion says, it is a
    hypothesis or is proved; [VersionEdit.asserted_EncodeTo] is the encoder with
    the assertion on its keys.

    ** Not modelled

    The Java application and the JNI layer (handles passed between two
    languages), the C binding (db/c.cc: one call each), the POSIX environment,
    the ports and the loggers (system calls), the tools, benchmarks and tests.
    The repairer (db/repair.cc) and the messages to the info log are left out.
    What the block cache of the options answers is an argument of the readers.
    The section of a read without the mutex is one step, in which an iterator over
    a memtable is made over the list as it is then: what is added later is newer
    than the read and hidden from it.
*)
From stdpp Require Export base tactics option list numbers.
From Stdlib Require Export ZArith Lia.
From Stdlib Require Import Init.Byte Strings.Byte.
From Stdlib Require Strings.String.
Export Strings.String.StringSyntax.

#[global] Open Scope Z_scope.

(** ** Bytes *)

Abbreviation byte := (Byte.byte).
Abbreviation bytes := (list Byte.byte).

(** [u8 b] is the value of [static_cast<unsigned char>(b)]. *)
Definition u8 (b : byte) : Z := Z.of_N (Byte.to_N b).

(** [b8 z] is the byte stored by an assignment of an integer to an
    [unsigned char] (or to a [char]) lvalue: only the low 8 bits survive. *)
Definition b8 (z : Z) : byte :=
  match Byte.of_N (Z.to_N (z mod 256)) with
  | Some b => b
  | None => x00
  end.

(** [char_val is_signed b] is the value of a plain [char] read as an integer;
    whether [char] is signed depends on the ABI (signed on x86, unsigned on
    armeabi-v7a), so the definitions that read one take it as an argument. *)
Definition char_val (is_signed : bool) (b : byte) : Z :=
  if is_signed then (if decide (u8 b < 128) then u8 b else u8 b - 256) else u8 b.

(** String literals of the source. *)
Definition str (s : String.string) : bytes := String.list_byte_of_string s.
Arguments str _%_string_scope.

(** Machine integers: unsigned arithmetic wraps modulo a power of two. *)
Definition wrap (w z : Z) : Z := z mod 2 ^ w.
Abbreviation u32 := (wrap 32).
Abbreviation u64 := (wrap 64).

(** Width of [size_t]: both ABIs of Application.mk are 32-bit. *)
Abbreviation size_w := 32.
Abbreviation usize := (wrap size_w).

(** Conversion to a signed integer of [w] bits. *)
Definition swrap (w z : Z) : Z := if decide (wrap w z < 2 ^ (w - 1)) then wrap w z else wrap w z - 2 ^ w.

Definition in_w (w z : Z) : Prop := 0 ≤ z < 2 ^ w.

#[export] Instance in_w_dec w z : Decision (in_w w z).
Proof. unfold in_w. apply _. Defined.

(** ** Slices: length, prefix and suffix with integer sizes *)

Definition zlen {A} (s : list A) : Z := Z.of_nat (length s).
Definition ztake {A} (n : Z) (s : list A) : list A := take (Z.to_nat n) s.
Definition zdrop {A} (n : Z) (s : list A) : list A := drop (Z.to_nat n) s.
Definition zget (s : bytes) (i : Z) : byte := nth (Z.to_nat i) s x00.

#[export] Instance byte_eq_dec : EqDecision byte := Byte.byte_eq_dec.

Create HintDb ldb discriminated.
Create Rewrite HintDb zlen.

(** ** Loops *)

(** [while (cond) body] with a bound on the number of iterations; the models
    give a bound that is enough and the theorems do not depend on a larger one. *)
Fixpoint while_loop {S} (fuel : nat) (cond : S → bool) (body : S → S) (s : S) : S :=
  match fuel with
  | O => s
  | Datatypes.S fuel => if cond s then while_loop fuel cond body (body s) else s
  end.

(** An invariant with a measure: the loop ends with the condition false. *)
Lemma while_loop_inv {S} (I : S → Prop) (m : S → Z) fuel cond body (s : S) :
  I s → m s ≤ Z.of_nat fuel →
  (∀ s, I s → cond s = true → 0 < m s ∧ I (body s) ∧ m (body s) ≤ m s - 1) →
  (∀ s, I s → 0 ≤ m s) →
  I (while_loop fuel cond body s) ∧ cond (while_loop fuel cond body s) = false.
Proof.
  intros HI Hm Hbody Hpos. revert s HI Hm.
  induction fuel as [|fuel IH]; intros s HI Hm; cbn [while_loop].
  - split; [done|]. destruct (cond s) eqn:E; [|done].
    destruct (Hbody s HI E) as [? _]. lia.
  - destruct (cond s) eqn:E; [|done].
    destruct (Hbody s HI E) as (? & ? & ?). apply IH; [done|lia].
Qed.

(** ** Lemmas on bytes and machine integers *)

Lemma u8_range b : 0 ≤ u8 b < 256.
Proof.
  unfold u8. pose proof (Byte.to_N_bounded b). split; [apply N2Z.is_nonneg | lia].
Qed.

Lemma u8_inj a b : u8 a = u8 b → a = b.
Proof.
  unfold u8. intros H%N2Z.inj.
  assert (Some a = Some b) as [= ->]; [|done].
  rewrite <- (Byte.of_to_N a), <- (Byte.of_to_N b). by rewrite H.
Qed.

Lemma u8_b8 z : u8 (b8 z) = z mod 256.
Proof.
  unfold u8, b8. pose proof (Z.mod_pos_bound z 256 eq_refl) as [H1 H2].
  destruct (Byte.of_N (Z.to_N (z mod 256))) eqn:E.
  - apply Byte.to_of_N in E. rewrite E. by rewrite Z2N.id.
  - apply Byte.of_N_None_iff in E. lia.
Qed.

Lemma b8_u8 b : b8 (u8 b) = b.
Proof. apply u8_inj. rewrite u8_b8. apply Z.mod_small, u8_range. Qed.

Lemma b8_mod z : b8 (z mod 256) = b8 z.
Proof. apply u8_inj. rewrite !u8_b8. apply Z.mod_mod. lia. Qed.

Lemma wrap_range w z : 0 ≤ w → in_w w (wrap w z).
Proof. intros. apply Z.mod_pos_bound. by apply Z.pow_pos_nonneg. Qed.

Lemma wrap_small w z : in_w w z → wrap w z = z.
Proof. apply Z.mod_small. Qed.

Lemma wrap_wrap w z : wrap w (wrap w z) = wrap w z.
Proof. apply Z.mod_mod_divide. done. Qed.

Lemma lor_shiftl_add a b n :
  0 ≤ n → 0 ≤ a < 2 ^ n → Z.lor a (Z.shiftl b n) = a + b * 2 ^ n.
Proof.
  intros Hn Ha. rewrite <- Z.shiftl_mul_pow2 by done.
  rewrite Z.add_nocarry_lxor, Z.lxor_lor; [done|..];
    (apply Z.bits_inj'; intros i Hi;
     rewrite Z.land_spec, Z.bits_0, Z.shiftl_spec by done;
     destruct (decide (i < n));
     [ rewrite (Z.testbit_neg_r b) by lia; apply andb_false_r
     | rewrite <- (Z.mod_small a (2 ^ n)), Z.mod_pow2_bits_high by lia; done ]).
Qed.

Lemma land_ones_mod a n : 0 ≤ n → Z.land a (2 ^ n - 1) = a mod 2 ^ n.
Proof. intros. rewrite <- Z.land_ones, Z.ones_equiv by done. f_equal. Qed.

Lemma land_127 a : Z.land a 127 = a mod 128.
Proof. exact (land_ones_mod a 7 ltac:(lia)). Qed.

Lemma land_255 a : Z.land a 255 = a mod 256.
Proof. exact (land_ones_mod a 8 ltac:(lia)). Qed.

Lemma land_128_lt a : 0 ≤ a < 128 → Z.land a 128 = 0.
Proof.
  intros. apply Z.bits_inj'. intros i Hi. rewrite Z.land_spec, Z.bits_0.
  destruct (decide (i < 7)).
  - replace (Z.testbit 128 i) with false; [apply andb_false_r|].
    symmetry. apply (Z.pow2_bits_false 7). lia.
  - rewrite <- (Z.mod_small a (2 ^ 7)), Z.mod_pow2_bits_high by lia. done.
Qed.

Lemma lor_128 a : 0 ≤ a < 128 → Z.lor a 128 = a + 128.
Proof. intros. exact (lor_shiftl_add a 1 7 ltac:(lia) ltac:(lia)). Qed.

Lemma lor_128_mod v : Z.lor v 128 mod 256 = v mod 128 + 128.
Proof.
  rewrite <- land_255, Z.land_lor_distr_l, land_255.
  change (Z.land 128 255) with 128.
  replace (v mod 256) with (Z.lor (v mod 128) (Z.land v 128)).
  - rewrite <- Z.lor_assoc. rewrite <- (lor_128 (v mod 128)) by (apply Z.mod_pos_bound; lia).
    f_equal. apply Z.bits_inj'. intros i Hi. rewrite Z.lor_spec, Z.land_spec.
    destruct (Z.testbit v i), (Z.testbit 128 i); done.
  - rewrite <- land_127, <- land_255, <- Z.land_lor_distr_r. done.
Qed.

Lemma land_128_ge a : 0 ≤ a < 128 → Z.land (a + 128) 128 = 128.
Proof.
  intros. rewrite <- lor_128 by done. rewrite Z.land_lor_distr_l.
  rewrite land_128_lt by done. done.
Qed.

Lemma shiftr_div a n : 0 ≤ n → Z.shiftr a n = a / 2 ^ n.
Proof. apply Z.shiftr_div_pow2. Qed.

Lemma in_w_lor w a b : 0 ≤ w → in_w w a → in_w w b → in_w w (Z.lor a b).
Proof.
  intros Hw [Ha Ha'] [Hb Hb'].
  assert (Z.lor a b = Z.lor a b mod 2 ^ w) as ->; [|by apply wrap_range].
  rewrite <- Z.land_ones by done. rewrite Z.land_lor_distr_l, !Z.land_ones by done.
  by rewrite !Z.mod_small.
Qed.

Lemma in_w_lxor w a b : 0 ≤ w → in_w w a → in_w w b → in_w w (Z.lxor a b).
Proof.
  intros Hw Ha Hb.
  assert (Z.lxor a b = Z.lxor a b mod 2 ^ w) as ->; [|by apply wrap_range].
  rewrite <- Z.land_ones by done.
  apply Z.bits_inj'. intros i Hi. rewrite Z.land_spec, Z.lxor_spec.
  destruct (decide (i < w)).
  - rewrite Z.ones_spec_low by lia. by rewrite andb_true_r.
  - rewrite <- (Z.mod_small a (2 ^ w)), <- (Z.mod_small b (2 ^ w)) by done.
    rewrite !Z.mod_pow2_bits_high by lia. done.
Qed.

Lemma shiftl_mul a n : 0 ≤ n → Z.shiftl a n = a * 2 ^ n.
Proof. apply Z.shiftl_mul_pow2. Qed.

(** ** Lemmas on slices *)

Lemma zlen_nonneg {A} (s : list A) : 0 ≤ zlen s.
Proof. unfold zlen. lia. Qed.

Lemma zlen_app {A} (s t : list A) : zlen (s ++ t) = zlen s + zlen t.
Proof. unfold zlen. rewrite length_app. lia. Qed.

Lemma zlen_cons {A} (x : A) s : zlen (x :: s) = 1 + zlen s.
Proof. unfold zlen. cbn [length]. lia. Qed.

Lemma zlen_nil {A} : zlen (@nil A) = 0.
Proof. done. Qed.

Lemma zlen_zero {A} (s : list A) : zlen s = 0 → s = [].
Proof. destruct s; [done|]. unfold zlen. cbn. lia. Qed.

Lemma zlen_ztake {A} n (s : list A) : 0 ≤ n ≤ zlen s → zlen (ztake n s) = n.
Proof. unfold zlen, ztake. intros. rewrite length_take. lia. Qed.

Lemma zlen_zdrop {A} n (s : list A) : 0 ≤ n ≤ zlen s → zlen (zdrop n s) = zlen s - n.
Proof. unfold zlen, zdrop. intros. rewrite length_drop. lia. Qed.

Lemma ztake_zdrop {A} n (s : list A) : ztake n s ++ zdrop n s = s.
Proof. apply take_drop. Qed.

Lemma ztake_app {A} (s t : list A) : ztake (zlen s) (s ++ t) = s.
Proof. unfold ztake, zlen. rewrite Nat2Z.id. apply take_app_length. Qed.

Lemma zdrop_app {A} (s t : list A) : zdrop (zlen s) (s ++ t) = t.
Proof. unfold zdrop, zlen. rewrite Nat2Z.id. apply drop_app_length. Qed.

Lemma ztake_app_n {A} n (s t : list A) : n = zlen s → ztake n (s ++ t) = s.
Proof. intros ->. apply ztake_app. Qed.

Lemma zdrop_app_n {A} n (s t : list A) : n = zlen s → zdrop n (s ++ t) = t.
Proof. intros ->. apply zdrop_app. Qed.

Lemma ztake_0 {A} (s : list A) : ztake 0 s = [].
Proof. done. Qed.

Lemma zdrop_0 {A} (s : list A) : zdrop 0 s = s.
Proof. done. Qed.

Lemma ztake_ge {A} n (s : list A) : zlen s ≤ n → ztake n s = s.
Proof. unfold zlen, ztake. intros. apply take_ge. lia. Qed.

Lemma zdrop_zdrop {A} m n (s : list A) :
  0 ≤ m → 0 ≤ n → zdrop m (zdrop n s) = zdrop (n + m) s.
Proof. intros. unfold zdrop. rewrite drop_drop. f_equal. lia. Qed.

Lemma zdrop_ge {A} n (s : list A) : zlen s ≤ n → zdrop n s = [].
Proof. unfold zlen, zdrop. intros. apply drop_ge. lia. Qed.

Lemma zdrop_app_le {A} n (s t : list A) :
  0 ≤ n ≤ zlen s → zdrop n (s ++ t) = zdrop n s ++ t.
Proof. unfold zlen, zdrop. intros. apply drop_app_le. lia. Qed.

Lemma ztake_app_le {A} n (s t : list A) : n ≤ zlen s → ztake n (s ++ t) = ztake n s.
Proof. unfold zlen, ztake. intros. apply take_app_le. lia. Qed.

Lemma ztake_app_ge {A} n (s t : list A) :
  zlen s ≤ n → ztake n (s ++ t) = s ++ ztake (n - zlen s) t.
Proof.
  unfold zlen, ztake. intros. rewrite take_app_ge by lia. do 2 f_equal. lia.
Qed.

Lemma zdrop_app_ge {A} n (s t : list A) :
  zlen s ≤ n → zdrop n (s ++ t) = zdrop (n - zlen s) t.
Proof. unfold zlen, zdrop. intros. rewrite drop_app_ge by lia. f_equal. lia. Qed.

Lemma ztake_ztake {A} m n (s : list A) : 0 ≤ m ≤ n → ztake m (ztake n s) = ztake m s.
Proof. intros. unfold ztake. rewrite take_take. f_equal. lia. Qed.

(** ** Bytes of a slice by index *)

Lemma ztake_zdrop_comm {A} m n (l : list A) :
  0 ≤ m → 0 ≤ n → ztake n (zdrop m l) = zdrop m (ztake (m + n) l).
Proof.
  intros. unfold ztake, zdrop. rewrite take_drop_commute. do 2 f_equal. lia.
Qed.

Lemma zlen_fmap {A B} (g : A → B) (l : list A) : zlen (g <$> l) = zlen l.
Proof. unfold zlen. by rewrite length_fmap. Qed.

Lemma ztake_fmap {A B} (g : A → B) n (l : list A) : ztake n (g <$> l) = g <$> ztake n l.
Proof. unfold ztake. by rewrite fmap_take. Qed.

Lemma zdrop_fmap {A B} (g : A → B) n (l : list A) : zdrop n (g <$> l) = g <$> zdrop n l.
Proof. unfold zdrop. by rewrite fmap_drop. Qed.

Lemma ztake_add {A} m n (l : list A) :
  0 ≤ m → 0 ≤ n → ztake (m + n) l = ztake m l ++ ztake n (zdrop m l).
Proof.
  intros. unfold ztake, zdrop.
  replace (Z.to_nat (m + n)) with (Z.to_nat m + Z.to_nat n)%nat by lia. by rewrite take_take_drop.
Qed.

Lemma zlen_replicate {A} n (x : A) : 0 ≤ n → zlen (replicate (Z.to_nat n) x) = n.
Proof. intros. unfold zlen. rewrite length_replicate. lia. Qed.

Lemma zget_app_l s t i : 0 ≤ i < zlen s → zget (s ++ t) i = zget s i.
Proof. unfold zget, zlen. intros. apply app_nth1. lia. Qed.

Lemma zget_app_r s t i : zlen s ≤ i → zget (s ++ t) i = zget t (i - zlen s).
Proof. unfold zget, zlen. intros. rewrite app_nth2 by lia. f_equal. lia. Qed.

Lemma zget_ztake n s i : 0 ≤ i < n → zget (ztake n s) i = zget s i.
Proof.
  unfold zget, ztake. intros. rewrite !nth_lookup. rewrite lookup_take_lt by lia. done.
Qed.

Lemma zget_zdrop n s i : 0 ≤ n → 0 ≤ i → zget (zdrop n s) i = zget s (n + i).
Proof.
  unfold zget, zdrop. intros. rewrite !nth_lookup, lookup_drop. do 2 f_equal. lia.
Qed.

Lemma zget_ext (s t : bytes) :
  zlen s = zlen t → (∀ i, 0 ≤ i < zlen s → zget s i = zget t i) → s = t.
Proof.
  unfold zlen, zget. intros Hl Hi. apply (nth_ext _ _ Byte.x00 Byte.x00); [lia|].
  intros n Hn. specialize (Hi (Z.of_nat n)). rewrite Nat2Z.id in Hi. apply Hi. lia.
Qed.

Lemma zget_0_cons c s : zget (c :: s) 0 = c.
Proof. done. Qed.

#[export] Hint Resolve u8_range zlen_nonneg : ldb.
#[export] Hint Rewrite @zlen_app @zlen_cons @zlen_nil : zlen.

(** [zsolve] normalises the lengths in the goal and in the context, adds that
    they are non-negative and calls [lia]. *)
Ltac zlen_facts :=
  repeat match goal with
  | |- context [zlen ?s] =>
      lazymatch goal with
      | _ : 0 ≤ zlen s |- _ => fail
      | _ => pose proof (zlen_nonneg s)
      end
  | _ : context [zlen ?s] |- _ =>
      lazymatch goal with
      | _ : 0 ≤ zlen s |- _ => fail
      | _ => pose proof (zlen_nonneg s)
      end
  end.

Ltac zsolve := autorewrite with zlen in *; zlen_facts; try lia.

(** [splits] splits conjunctions that are visible as such: unlike [split_and!]
    it does not look through definitions such as [in_w]. *)
Ltac splits := repeat match goal with |- _ ∧ _ => split end.

(** [pow_const] replaces the powers of two with constant exponents by numerals. *)
Ltac is_num n :=
  lazymatch n with
  | Z0 => idtac
  | Zpos ?p => is_pos p
  end
with is_pos p :=
  lazymatch p with
  | xH => idtac
  | xO ?q => is_pos q
  | xI ?q => is_pos q
  end.

Ltac pow_const :=
  repeat match goal with
  | |- context [Z.pow 2 ?n] =>
      is_num n; let v := eval vm_compute in (Z.pow 2 n) in change (Z.pow 2 n) with v
  | H : context [Z.pow 2 ?n] |- _ =>
      is_num n; let v := eval vm_compute in (Z.pow 2 n) in change (Z.pow 2 n) with v in H
  end.

(** [word_solve] proves linear facts on machine words: it unfolds the range
    predicate, evaluates the powers and expands divisions and remainders. *)
Ltac word_solve := unfold in_w in *; pow_const; Z.div_mod_to_equations; lia.

(** [decide_now] closes a closed decidable goal by evaluating its decision. *)
Ltac decide_now := apply (bool_decide_unpack _); vm_compute; exact I.
