(* ===== verification/SortedLists.v ===== *)
(** Lists in strict order: filters that cut them, sublists, indices.  The skip
    list, the blocks and the iterators all keep their entries in such lists. *)
From Stdlib Require Import Sorting.Sorted.
From S2P Require Import Prelude.

Lemma elem_of_concat {A} (x : A) ls : x ∈ concat ls ↔ ∃ l, x ∈ l ∧ l ∈ ls.
Proof.
  induction ls as [|l ls IH]; cbn [concat].
  - split; [by intros ?%elem_of_nil|by intros (? & _ & ?%elem_of_nil)].
  - rewrite elem_of_app, IH. split.
    + intros [?|(l' & ? & ?)]; [exists l|exists l']; (split; [done|]); [by left|by right].
    + intros (l' & Hx & [->|?]%elem_of_cons); [by left|right; by exists l'].
Qed.

Lemma Forall2_elem {A B} (P : A → B → Prop) l k :
  Forall2 P l k → Forall2 (λ x y, P x y ∧ y ∈ k) l k.
Proof.
  induction 1 as [|x y l k Hxy _ IH]; constructor; [by split; [|left]|].
  eapply list.Forall2_impl; [exact IH|]. intros ?? [??]. split; [done|by right].
Qed.

(** Filters by a stronger predicate. *)
Lemma filter_length_le {A} (P Q : A → Prop) `{!∀ x, Decision (P x), !∀ x, Decision (Q x)} l :
  (∀ x, x ∈ l → P x → Q x) → (length (filter P l) ≤ length (filter Q l))%nat.
Proof.
  induction l as [|y l IH]; intros Hi; [done|]. rewrite !filter_cons.
  assert (length (filter P l) ≤ length (filter Q l))%nat by (apply IH; intros; apply Hi; [by right|done]).
  pose proof (Hi y ltac:(by left)). repeat case_decide; cbn; lia || tauto.
Qed.

Lemma filter_length_lt {A} (P Q : A → Prop) `{!∀ x, Decision (P x), !∀ x, Decision (Q x)} l a :
  a ∈ l → Q a → ¬ P a → (∀ x, x ∈ l → P x → Q x) → (length (filter P l) < length (filter Q l))%nat.
Proof.
  intros (l1 & l2 & ->)%list_elem_of_split HQ HP Hi.
  rewrite !list.filter_app, !filter_cons, (decide_False (P := P a)), (decide_True (P := Q a)) by done.
  rewrite !length_app. cbn [length].
  assert (length (filter P l1) ≤ length (filter Q l1))%nat
    by (apply filter_length_le; intros; apply Hi; [apply elem_of_app; by left|done]).
  assert (length (filter P l2) ≤ length (filter Q l2))%nat
    by (apply filter_length_le; intros; apply Hi; [apply elem_of_app; right; by right|done]).
  lia.
Qed.

Section Sorted.
Context {A : Type} (R : A → A → Prop).

Lemma filter_all (P : A → Prop) `{!∀ x, Decision (P x)} l : Forall P l → filter P l = l.
Proof.
  induction 1 as [|x l Hx _ IH]; [done|]. rewrite filter_cons, decide_True by done. by f_equal.
Qed.

Lemma filter_none (P : A → Prop) `{!∀ x, Decision (P x)} l :
  Forall (λ x, ¬ P x) l → filter P l = [].
Proof. induction 1 as [|x l Hx _ IH]; [done|]. by rewrite filter_cons, decide_False by done. Qed.

Lemma sublist_filter_mono (P : A → Prop) `{!∀ x, Decision (P x)} l l' :
  l `sublist_of` l' → filter P l `sublist_of` filter P l'.
Proof.
  induction 1 as [|x l l' _ IH|x l l' _ IH]; [done|..]; rewrite !filter_cons; case_decide; try done.
  - by apply sublist_skip.
  - by apply sublist_cons.
Qed.

Lemma sorted_filter_app (P : A → Prop) `{!∀ x, Decision (P x)} l :
  StronglySorted R l → (∀ x y, R x y → P y → P x) →
  l = filter P l ++ filter (λ x, ¬ P x) l.
Proof.
  intros Hs HP. induction Hs as [|x l Hs IH Hx]; [done|].
  rewrite !filter_cons. destruct (decide (P x)) as [Hp|Hn].
  - rewrite decide_False by tauto. cbn. by rewrite <- IH.
  - rewrite decide_True by done. rewrite filter_none, filter_all; [done|..];
      (eapply Forall_impl; [|exact Hx]); cbn; eauto.
Qed.

Lemma sorted_sublist l l' : StronglySorted R l → l' `sublist_of` l → StronglySorted R l'.
Proof.
  intros Hs Hsub. revert l' Hsub. induction Hs as [|x l Hs IH Hx]; intros l' Hsub.
  - apply sublist_nil_r in Hsub as ->. constructor.
  - apply sublist_cons_r in Hsub as [?|(l'' & -> & ?)]; [by apply IH|].
    constructor; [by apply IH|]. rewrite list.Forall_forall in Hx |- *. intros y Hy. apply Hx.
    by eapply elem_of_sublist.
Qed.

Lemma sorted_app l1 l2 :
  StronglySorted R (l1 ++ l2) ↔
  StronglySorted R l1 ∧ StronglySorted R l2 ∧ ∀ x y, x ∈ l1 → y ∈ l2 → R x y.
Proof.
  induction l1 as [|x l1 IH]; cbn.
  - split; [intros; splits; [constructor|done|intros ?? []%not_elem_of_nil]|tauto].
  - split.
    + intros [[? [? Hf]]%IH Hx]%StronglySorted_inv. apply list.Forall_app in Hx as [Hx1 Hx2].
      splits; [by constructor|done|]. intros a b [->|Ha]%elem_of_cons Hb; [|by apply Hf].
      rewrite list.Forall_forall in Hx2. by apply Hx2.
    + intros ([H1 Hx]%StronglySorted_inv & H2 & Hf). constructor.
      * apply IH. splits; [done..|]. intros. apply Hf; [by right|done].
      * apply list.Forall_app; split; [done|]. apply list.Forall_forall. intros. apply Hf; [by left|done].
Qed.

Lemma sorted_by_index l :
  (∀ i j x y, (i < j)%nat → l !! i = Some x → l !! j = Some y → R x y) → StronglySorted R l.
Proof.
  induction l as [|x l IH]; intros Hl; constructor.
  - apply IH. intros i j a b ???. apply (Hl (S i) (S j)); [lia|done..].
  - apply list.Forall_forall. intros y [j Hj]%list_elem_of_lookup. by apply (Hl 0%nat (S j)); [lia|..].
Qed.

Lemma sorted_index l i j x y :
  StronglySorted R l → (i < j)%nat → l !! i = Some x → l !! j = Some y → R x y.
Proof.
  intros Hs. revert i j. induction Hs as [|a l _ IH Ha]; intros [|i] [|j] Hij Hx Hy; try (done || lia).
  - cbn in *. simplify_eq. rewrite list.Forall_forall in Ha. apply Ha. by eapply list_elem_of_lookup_2.
  - apply (IH i j); [lia|done..].
Qed.

(** The index at which a predicate ends that holds for a prefix. *)
Lemma filter_cut (P : A → Prop) `{!∀ x, Decision (P x)} l i :
  (∀ j x, (j < i)%nat → l !! j = Some x → P x) → (∀ j x, (i ≤ j)%nat → l !! j = Some x → ¬ P x) →
  (i ≤ length l)%nat → length (filter P l) = i.
Proof.
  intros H1 H2 Hi. rewrite <- (take_drop i l), list.filter_app.
  rewrite filter_all, filter_none, app_nil_r, length_take; [lia|..];
    apply list.Forall_forall; intros x [j Hj]%list_elem_of_lookup.
  - rewrite lookup_drop in Hj. apply (H2 (i + j)%nat); [lia|done].
  - pose proof (lookup_lt_Some _ _ _ Hj) as Hlt. rewrite length_take in Hlt.
    rewrite lookup_take_lt in Hj by lia. by apply (H1 j); [lia|].
Qed.
End Sorted.

Lemma sorted_impl {A} (R R' : A → A → Prop) l :
  (∀ x y, R x y → R' x y) → StronglySorted R l → StronglySorted R' l.
Proof.
  intros Hi. induction 1 as [|x l _ IH Hx]; constructor; [done|].
  eapply Forall_impl; [|exact Hx]. apply Hi.
Qed.

Lemma filter_ext_elem {A} (P Q : A → Prop) `{!∀ x, Decision (P x)} `{!∀ x, Decision (Q x)} (l : list A) :
  (∀ x, x ∈ l → P x ↔ Q x) → filter P l = filter Q l.
Proof.
  induction l as [|x l IH]; intros HPQ; [done|].
  rewrite !filter_cons, IH by (intros y Hy; apply HPQ; by right).
  pose proof (HPQ x ltac:(by left)). repeat case_decide; tauto.
Qed.

Lemma filter_fmap {A B} (h : A → B) (P : B → Prop) `{!∀ x, Decision (P x)} (l : list A) :
  filter P (h <$> l) = h <$> filter (λ x, P (h x)) l.
Proof.
  induction l as [|x l IH]; [done|]. cbn [fmap list_fmap]. rewrite !filter_cons.
  case_decide; cbn [fmap list_fmap]; by rewrite <- IH.
Qed.
