(* ===== verification/Coding.v ===== *)
(** Endian-neutral encoding: fixed-width little-endian integers, varints and
    length-prefixed slices.

    Models [util/coding.cc] and the inline functions of [util/coding.h].  A
    [Slice] is the list of its bytes; a pair of pointers [p, limit] is the list
    of the bytes between them, and a returned pointer is the list of the bytes
    from it to [limit] ([None] for NULL).  A [Get] function that advances its
    input therefore returns the value with the remaining input. *)
From S2P Require Import Prelude.

(** ** Fixed-width integers *)

(** The portable branch of [EncodeFixed32]; [memcpy] on a little-endian
    machine stores the same bytes. *)
Definition EncodeFixed32 (value : Z) : bytes :=
  [b8 (Z.land value 255);
   b8 (Z.land (Z.shiftr value 8) 255);
   b8 (Z.land (Z.shiftr value 16) 255);
   b8 (Z.land (Z.shiftr value 24) 255)].

Definition EncodeFixed64 (value : Z) : bytes :=
  [b8 (Z.land value 255);
   b8 (Z.land (Z.shiftr value 8) 255);
   b8 (Z.land (Z.shiftr value 16) 255);
   b8 (Z.land (Z.shiftr value 24) 255);
   b8 (Z.land (Z.shiftr value 32) 255);
   b8 (Z.land (Z.shiftr value 40) 255);
   b8 (Z.land (Z.shiftr value 48) 255);
   b8 (Z.land (Z.shiftr value 56) 255)].

Definition PutFixed32 (dst : bytes) (value : Z) : bytes := dst ++ EncodeFixed32 value.
Definition PutFixed64 (dst : bytes) (value : Z) : bytes := dst ++ EncodeFixed64 value.

(** [ptr[i]] past the end of the list reads a zero byte: every caller checks
    the length before decoding. *)
Definition DecodeFixed32 (ptr : bytes) : Z :=
  Z.lor (Z.lor (Z.lor (u8 (zget ptr 0))
    (Z.shiftl (u8 (zget ptr 1)) 8))
    (Z.shiftl (u8 (zget ptr 2)) 16))
    (Z.shiftl (u8 (zget ptr 3)) 24).

Definition DecodeFixed64 (ptr : bytes) : Z :=
  let lo := DecodeFixed32 ptr in
  let hi := DecodeFixed32 (zdrop 4 ptr) in
  Z.lor (u64 (Z.shiftl hi 32)) lo.

(** ** Varints *)

(** The cascade of [EncodeVarint32]; each store truncates to a byte. *)
Definition EncodeVarint32 (v : Z) : bytes :=
  let B := 128 in
  if decide (v < Z.shiftl 1 7) then
    [b8 v]
  else if decide (v < Z.shiftl 1 14) then
    [b8 (Z.lor v B); b8 (Z.shiftr v 7)]
  else if decide (v < Z.shiftl 1 21) then
    [b8 (Z.lor v B); b8 (Z.lor (Z.shiftr v 7) B); b8 (Z.shiftr v 14)]
  else if decide (v < Z.shiftl 1 28) then
    [b8 (Z.lor v B); b8 (Z.lor (Z.shiftr v 7) B); b8 (Z.lor (Z.shiftr v 14) B);
     b8 (Z.shiftr v 21)]
  else
    [b8 (Z.lor v B); b8 (Z.lor (Z.shiftr v 7) B); b8 (Z.lor (Z.shiftr v 14) B);
     b8 (Z.lor (Z.shiftr v 21) B); b8 (Z.shiftr v 28)].

Definition PutVarint32 (dst : bytes) (v : Z) : bytes := dst ++ EncodeVarint32 v.

(** The [while (v >= B)] loop; [fuel] bounds the number of iterations. *)
Fixpoint EncodeVarint64_loop (fuel : nat) (v : Z) : bytes :=
  match fuel with
  | O => []
  | S fuel =>
      if decide (128 ≤ v) then
        b8 (Z.lor (Z.land v 127) 128) :: EncodeVarint64_loop fuel (Z.shiftr v 7)
      else [b8 v]
  end.

(** Ten iterations are enough for 64 bits ([char buf[10]] in the source). *)
Definition EncodeVarint64 (v : Z) : bytes := EncodeVarint64_loop 10 v.

Definition PutVarint64 (dst : bytes) (v : Z) : bytes := dst ++ EncodeVarint64 v.

Definition PutLengthPrefixedSlice (dst value : bytes) : bytes :=
  PutVarint32 dst (u32 (zlen value)) ++ value.

Fixpoint VarintLength_loop (fuel : nat) (v len : Z) : Z :=
  match fuel with
  | O => len
  | S fuel => if decide (128 ≤ v) then VarintLength_loop fuel (Z.shiftr v 7) (len + 1) else len
  end.

Definition VarintLength (v : Z) : Z := VarintLength_loop 10 v 1.

(** The decoding loop shared by [GetVarint32PtrFallback] ([w] = 32, the last
    shift is 28) and [GetVarint64Ptr] ([w] = 64, the last shift is 63):
    [for (shift = 0; shift <= last && p < limit; shift += 7)]. *)
Fixpoint GetVarint_loop (w last : Z) (shift result : Z) (p : bytes) : option (Z * bytes) :=
  match p with
  | [] => None
  | c :: p' =>
      if decide (shift ≤ last) then
        let byte := u8 c in
        if decide (Z.land byte 128 ≠ 0) then
          GetVarint_loop w last (shift + 7)
            (Z.lor result (wrap w (Z.shiftl (Z.land byte 127) shift))) p'
        else Some (Z.lor result (wrap w (Z.shiftl byte shift)), p')
      else None
  end.

Definition GetVarint32PtrFallback (p : bytes) : option (Z * bytes) :=
  GetVarint_loop 32 28 0 0 p.

Definition GetVarint32Ptr (p : bytes) : option (Z * bytes) :=
  match p with
  | c :: p' =>
      let result := u8 c in
      if decide (Z.land result 128 = 0) then Some (result, p')
      else GetVarint32PtrFallback p
  | [] => GetVarint32PtrFallback p
  end.

Definition GetVarint32 (input : bytes) : option (Z * bytes) := GetVarint32Ptr input.

Definition GetVarint64Ptr (p : bytes) : option (Z * bytes) :=
  GetVarint_loop 64 63 0 0 p.

Definition GetVarint64 (input : bytes) : option (Z * bytes) := GetVarint64Ptr input.

(** [const char* GetLengthPrefixedSlice(p, limit, result)]: the slice and the
    pointer after it. It has no caller in the program; [p + len] is compared
    with [limit] as if pointers did not wrap. *)
Definition GetLengthPrefixedSlicePtr (p : bytes) : option (bytes * bytes) :=
  match GetVarint32Ptr p with
  | None => None
  | Some (len, p) =>
      if decide (len > zlen p) then None else Some (ztake len p, zdrop len p)
  end.

(** [bool GetLengthPrefixedSlice(Slice* input, Slice* result)]. On failure the
    source may have consumed the length: the second component is the input as
    the call leaves it. *)
Definition GetLengthPrefixedSlice (input : bytes) : option bytes * bytes :=
  match GetVarint32 input with
  | Some (len, input') =>
      if decide (len ≤ zlen input') then (Some (ztake len input'), zdrop len input')
      else (None, input')
  | None => (None, input)
  end.

(** ** Fixed-width round trips *)

Lemma DecodeFixed32_app s t :
  zlen s = 4 → DecodeFixed32 (s ++ t) = DecodeFixed32 s.
Proof.
  unfold zlen. destruct s as [|a [|b [|c [|d [|? ?]]]]]; cbn [length]; try lia.
  done.
Qed.

Lemma DecodeFixed32_sum a b c d t :
  DecodeFixed32 (a :: b :: c :: d :: t)
  = u8 a + u8 b * 2 ^ 8 + u8 c * 2 ^ 16 + u8 d * 2 ^ 24.
Proof.
  unfold DecodeFixed32.
  change (zget (a :: b :: c :: d :: t) 0) with a.
  change (zget (a :: b :: c :: d :: t) 1) with b.
  change (zget (a :: b :: c :: d :: t) 2) with c.
  change (zget (a :: b :: c :: d :: t) 3) with d.
  pose proof (u8_range a). pose proof (u8_range b).
  pose proof (u8_range c). pose proof (u8_range d).
  rewrite (lor_shiftl_add (u8 a)) by lia.
  rewrite (lor_shiftl_add (u8 a + _)) by lia.
  rewrite (lor_shiftl_add (u8 a + _ + _)) by lia. done.
Qed.

Lemma DecodeFixed32_EncodeFixed32 v t :
  in_w 32 v → DecodeFixed32 (EncodeFixed32 v ++ t) = v.
Proof.
  intros Hv. unfold EncodeFixed32. cbn [app]. rewrite DecodeFixed32_sum.
  rewrite !u8_b8, !land_255, !shiftr_div, !Z.mod_mod by lia.
  word_solve.
Qed.

Lemma DecodeFixed32_range s : in_w 32 (DecodeFixed32 s).
Proof.
  assert (∃ a b c d, DecodeFixed32 s = DecodeFixed32 [a; b; c; d]) as (a & b & c & d & ->).
  { by exists (zget s 0), (zget s 1), (zget s 2), (zget s 3). }
  rewrite DecodeFixed32_sum.
  pose proof (u8_range a). pose proof (u8_range b).
  pose proof (u8_range c). pose proof (u8_range d). word_solve.
Qed.

Lemma EncodeFixed64_split v :
  in_w 64 v → EncodeFixed64 v = EncodeFixed32 (v mod 2 ^ 32) ++ EncodeFixed32 (v / 2 ^ 32).
Proof.
  intros Hv. unfold EncodeFixed64, EncodeFixed32. cbn [app].
  rewrite !land_255, !shiftr_div by lia. repeat apply (f_equal2 cons); try apply (f_equal b8); try done; word_solve.
Qed.

Lemma DecodeFixed64_EncodeFixed64 v t :
  in_w 64 v → DecodeFixed64 (EncodeFixed64 v ++ t) = v.
Proof.
  intros Hv. unfold DecodeFixed64. rewrite EncodeFixed64_split by done.
  rewrite <- app_assoc. rewrite DecodeFixed32_EncodeFixed32 by word_solve.
  rewrite zdrop_app_n by done. rewrite DecodeFixed32_EncodeFixed32 by word_solve.
  rewrite Z.shiftl_mul_pow2, (wrap_small 64) by word_solve.
  rewrite Z.lor_comm, <- Z.shiftl_mul_pow2 by lia.
  rewrite lor_shiftl_add; word_solve.
Qed.

Lemma DecodeFixed64_eq s : DecodeFixed64 s = DecodeFixed32 s + DecodeFixed32 (zdrop 4 s) * 2 ^ 32.
Proof.
  unfold DecodeFixed64. pose proof (DecodeFixed32_range s). pose proof (DecodeFixed32_range (zdrop 4 s)).
  rewrite Z.lor_comm, wrap_small by (rewrite Z.shiftl_mul_pow2; word_solve).
  apply lor_shiftl_add; [lia|done].
Qed.

Lemma DecodeFixed64_range s : in_w 64 (DecodeFixed64 s).
Proof.
  rewrite DecodeFixed64_eq. pose proof (DecodeFixed32_range s). pose proof (DecodeFixed32_range (zdrop 4 s)).
  word_solve.
Qed.

Lemma EncodeFixed32_DecodeFixed32 s : zlen s = 4 → EncodeFixed32 (DecodeFixed32 s) = s.
Proof.
  unfold zlen. destruct s as [|a [|b [|c [|d [|? ?]]]]]; cbn [length]; try lia. intros _.
  rewrite DecodeFixed32_sum. unfold EncodeFixed32. rewrite !land_255, !shiftr_div, !b8_mod by lia.
  pose proof (u8_range a). pose proof (u8_range b). pose proof (u8_range c). pose proof (u8_range d).
  repeat apply (f_equal2 cons); try done; apply u8_inj; rewrite u8_b8; word_solve.
Qed.

Lemma EncodeFixed64_DecodeFixed64 s : zlen s = 8 → EncodeFixed64 (DecodeFixed64 s) = s.
Proof.
  intros Hs. rewrite EncodeFixed64_split by apply DecodeFixed64_range. rewrite DecodeFixed64_eq.
  rewrite <- (ztake_zdrop 4 s) at 5.
  assert (DecodeFixed32 s = DecodeFixed32 (ztake 4 s)) as ->.
  { rewrite <- (ztake_zdrop 4 s) at 1. apply DecodeFixed32_app. apply zlen_ztake. lia. }
  pose proof (DecodeFixed32_range (ztake 4 s)). pose proof (DecodeFixed32_range (zdrop 4 s)).
  rewrite Z.mod_add, Z.div_add by lia. rewrite Z.mod_small, Z.div_small by done.
  rewrite Z.add_0_l. f_equal; apply EncodeFixed32_DecodeFixed32; [apply zlen_ztake|rewrite zlen_zdrop]; lia.
Qed.

Lemma zlen_EncodeFixed32 v : zlen (EncodeFixed32 v) = 4.
Proof. done. Qed.

Lemma zlen_EncodeFixed64 v : zlen (EncodeFixed64 v) = 8.
Proof. done. Qed.

#[export] Hint Rewrite zlen_EncodeFixed32 zlen_EncodeFixed64 : zlen.

(** An array of 32-bit integers, as blocks and filter blocks end in. *)
Definition fixed32_array (l : list Z) : bytes := concat (EncodeFixed32 <$> l).

Lemma fixed32_array_app l l' : fixed32_array (l ++ l') = fixed32_array l ++ fixed32_array l'.
Proof. unfold fixed32_array. by rewrite fmap_app, concat_app. Qed.

Lemma zlen_fixed32_array l : zlen (fixed32_array l) = 4 * zlen l.
Proof.
  unfold fixed32_array. induction l as [|x l IH]; [done|].
  cbn [fmap list_fmap concat]. rewrite zlen_app, zlen_cons, IH, zlen_EncodeFixed32. lia.
Qed.

Lemma fixed32_array_lookup l i x rest :
  l !! i = Some x → in_w 32 x →
  DecodeFixed32 (zdrop (4 * Z.of_nat i) (fixed32_array l ++ rest)) = x.
Proof.
  intros Hi Hx. rewrite <- (take_drop_middle _ _ _ Hi), fixed32_array_app, <- app_assoc.
  rewrite zdrop_app_n.
  - unfold fixed32_array. cbn [fmap list_fmap concat]. rewrite <- app_assoc. by apply DecodeFixed32_EncodeFixed32.
  - rewrite zlen_fixed32_array. apply lookup_lt_Some in Hi. unfold zlen. rewrite length_take. lia.
Qed.

Lemma foldl_PutFixed32 buf l : foldl PutFixed32 buf l = buf ++ fixed32_array l.
Proof.
  revert buf. induction l as [|x l IH]; intros buf; cbn [foldl]; [by rewrite app_nil_r|].
  rewrite IH. unfold PutFixed32. by rewrite <- app_assoc.
Qed.

(** ** Varint round trips *)

Lemma varint_byte_more v :
  u8 (b8 (Z.lor (Z.land v 127) 128)) = v mod 128 + 128.
Proof.
  rewrite u8_b8, lor_128_mod, land_127. rewrite Z.mod_mod by lia. done.
Qed.

Lemma b8_lor_128 v : b8 (Z.lor v 128) = b8 (Z.lor (Z.land v 127) 128).
Proof. apply u8_inj. rewrite varint_byte_more, u8_b8, lor_128_mod. done. Qed.

Lemma u8_b8_small v : 0 ≤ v < 256 → u8 (b8 v) = v.
Proof. intros. rewrite u8_b8. by apply Z.mod_small. Qed.

Lemma EncodeVarint64_loop_more f v :
  128 ≤ v →
  EncodeVarint64_loop (S f) v
  = b8 (Z.lor (Z.land v 127) 128) :: EncodeVarint64_loop f (Z.shiftr v 7).
Proof. intros. cbn [EncodeVarint64_loop]. by rewrite decide_True. Qed.

Lemma EncodeVarint64_loop_last f v :
  v < 128 → EncodeVarint64_loop (S f) v = [b8 v].
Proof. intros. cbn [EncodeVarint64_loop]. rewrite decide_False by lia. done. Qed.

(** Enough fuel for [v] makes the fuel irrelevant. *)
Lemma EncodeVarint64_loop_fuel f f' v :
  (0 < f ≤ f')%nat → 0 ≤ v < 2 ^ (7 * Z.of_nat f) →
  EncodeVarint64_loop f' v = EncodeVarint64_loop f v.
Proof.
  revert f' v. induction f as [|f IH]; intros f' v Hf Hv; [lia|].
  destruct f' as [|f']; [lia|].
  destruct (decide (128 ≤ v)).
  - rewrite !EncodeVarint64_loop_more by done. f_equal.
    destruct f as [|f]; [change (2 ^ (7 * Z.of_nat 1)) with 128 in Hv; lia|].
    apply IH; [lia|]. rewrite shiftr_div by lia.
    replace (7 * Z.of_nat (S (S f))) with (7 + 7 * Z.of_nat (S f)) in Hv by lia.
    rewrite Z.pow_add_r in Hv by lia.
    split; [apply Z.div_pos; lia | apply Z.div_lt_upper_bound; lia].
  - rewrite !EncodeVarint64_loop_last by lia. done.
Qed.

Lemma EncodeVarint32_64 v : in_w 32 v → EncodeVarint32 v = EncodeVarint64 v.
Proof.
  intros Hv. unfold EncodeVarint32, EncodeVarint64.
  rewrite (b8_lor_128 v), (b8_lor_128 (v ≫ 7)), (b8_lor_128 (v ≫ 14)), (b8_lor_128 (v ≫ 21)).
  change (Z.shiftl 1 7) with (2 ^ 7). change (Z.shiftl 1 14) with (2 ^ 14).
  change (Z.shiftl 1 21) with (2 ^ 21). change (Z.shiftl 1 28) with (2 ^ 28).
  repeat case_decide;
    repeat (rewrite EncodeVarint64_loop_more by (rewrite ?shiftr_div by lia; word_solve);
            rewrite ?Z.shiftr_shiftr by lia; cbn [Z.add Pos.add Pos.succ]);
    rewrite EncodeVarint64_loop_last by (rewrite ?shiftr_div by lia; word_solve); done.
Qed.

Lemma GetVarint_loop_step w last shift result c p :
  shift ≤ last → 128 ≤ u8 c →
  GetVarint_loop w last shift result (c :: p)
  = GetVarint_loop w last (shift + 7)
      (Z.lor result (wrap w (Z.shiftl (u8 c - 128) shift))) p.
Proof.
  intros Hs Hc. cbn [GetVarint_loop]. rewrite decide_True by done.
  pose proof (u8_range c).
  rewrite decide_True.
  - do 4 f_equal. rewrite land_127. word_solve.
  - replace (u8 c) with (u8 c - 128 + 128) by lia. rewrite land_128_ge by lia. done.
Qed.

Lemma GetVarint_loop_stop w last shift result c p :
  shift ≤ last → u8 c < 128 →
  GetVarint_loop w last shift result (c :: p)
  = Some (Z.lor result (wrap w (Z.shiftl (u8 c) shift)), p).
Proof.
  intros Hs Hc. cbn [GetVarint_loop]. rewrite decide_True by done.
  pose proof (u8_range c). rewrite decide_False; [done|].
  rewrite land_128_lt by lia. auto.
Qed.

Lemma wrap_shiftl_small w v shift :
  0 ≤ shift → 0 ≤ v → v * 2 ^ shift < 2 ^ w → wrap w (Z.shiftl v shift) = Z.shiftl v shift.
Proof.
  intros. apply wrap_small. rewrite Z.shiftl_mul_pow2 by done.
  unfold in_w. split; [|done]. apply Z.mul_nonneg_nonneg; [done|].
  apply Z.pow_nonneg. lia.
Qed.

Lemma GetVarint_loop_EncodeVarint64 w last fuel v shift result rest :
  0 ≤ shift → 0 ≤ result < 2 ^ shift → 0 ≤ v < 2 ^ (7 * Z.of_nat fuel) →
  v * 2 ^ shift < 2 ^ w → shift + 7 * (Z.of_nat fuel - 1) ≤ last → (0 < fuel)%nat →
  GetVarint_loop w last shift result (EncodeVarint64_loop fuel v ++ rest)
  = Some (result + v * 2 ^ shift, rest).
Proof.
  revert v shift result. induction fuel as [|fuel IH];
    intros v shift result Hs Hr Hv Hw Hl Hf; [lia|].
  assert (0 < 2 ^ shift) by (apply Z.pow_pos_nonneg; lia).
  destruct (decide (128 ≤ v)) as [Hm|Hm].
  - rewrite EncodeVarint64_loop_more by done. cbn [app].
    destruct fuel as [|fuel]; [change (2 ^ (7 * Z.of_nat 1)) with 128 in Hv; lia|].
    rewrite GetVarint_loop_step; rewrite ?varint_byte_more;
      [|lia|pose proof (Z.mod_pos_bound v 128); lia].
    replace (v mod 128 + 128 - 128) with (v mod 128) by lia.
    pose proof (Z.mod_pos_bound v 128 eq_refl). pose proof (Z.div_mod v 128).
    assert (0 ≤ v / 128) by (apply Z.div_pos; lia).
    rewrite wrap_shiftl_small by nia. rewrite lor_shiftl_add by lia.
    assert (2 ^ (shift + 7) = 2 ^ shift * 128) as Hp by (rewrite Z.pow_add_r; lia).
    rewrite shiftr_div by lia. change (2 ^ 7) with 128.
    rewrite IH; [do 2 f_equal|..]; rewrite ?Hp; try lia; try nia.
    replace (7 * Z.of_nat (S (S fuel))) with (7 + 7 * Z.of_nat (S fuel)) in Hv by lia.
    rewrite Z.pow_add_r in Hv by lia.
    split; [done|]. apply Z.div_lt_upper_bound; lia.
  - rewrite EncodeVarint64_loop_last by lia. cbn [app].
    rewrite GetVarint_loop_stop; rewrite ?u8_b8_small by lia; [|lia..].
    rewrite wrap_shiftl_small by lia. rewrite lor_shiftl_add by lia. done.
Qed.

Lemma GetVarint32Ptr_fallback p : GetVarint32Ptr p = GetVarint32PtrFallback p.
Proof.
  unfold GetVarint32Ptr, GetVarint32PtrFallback. destruct p as [|c p]; [done|].
  case_decide as Hc; [|done]. cbn [GetVarint_loop].
  rewrite decide_True by lia. rewrite decide_False by auto.
  rewrite Z.lor_0_l, Z.shiftl_0_r, wrap_small; [done|].
  pose proof (u8_range c). word_solve.
Qed.

Lemma EncodeVarint64_5 v : 0 ≤ v < 2 ^ 35 → EncodeVarint64 v = EncodeVarint64_loop 5 v.
Proof. intros. apply EncodeVarint64_loop_fuel; [lia|done]. Qed.

Lemma GetVarint32_EncodeVarint32 v rest :
  in_w 32 v → GetVarint32 (EncodeVarint32 v ++ rest) = Some (v, rest).
Proof.
  intros Hv. unfold GetVarint32. rewrite GetVarint32Ptr_fallback.
  rewrite EncodeVarint32_64, EncodeVarint64_5 by word_solve.
  unfold GetVarint32PtrFallback.
  rewrite GetVarint_loop_EncodeVarint64; [do 2 f_equal|..]; word_solve.
Qed.

Lemma GetVarint64_EncodeVarint64 v rest :
  in_w 64 v → GetVarint64 (EncodeVarint64 v ++ rest) = Some (v, rest).
Proof.
  intros Hv. unfold GetVarint64, GetVarint64Ptr, EncodeVarint64.
  rewrite GetVarint_loop_EncodeVarint64; [do 2 f_equal|..]; try word_solve.
Qed.

(** ** Lengths of the encodings *)

Lemma VarintLength_loop_zlen fuel v len :
  (0 < fuel)%nat → 0 ≤ v < 2 ^ (7 * Z.of_nat fuel) →
  VarintLength_loop fuel v len = len - 1 + zlen (EncodeVarint64_loop fuel v).
Proof.
  revert v len. induction fuel as [|fuel IH]; intros v len Hf Hv; [lia|].
  destruct (decide (128 ≤ v)).
  - rewrite EncodeVarint64_loop_more by done. cbn [VarintLength_loop].
    rewrite decide_True by done.
    destruct fuel as [|fuel]; [change (2 ^ (7 * Z.of_nat 1)) with 128 in Hv; lia|].
    rewrite IH; [zsolve|lia|]. rewrite shiftr_div by lia.
    replace (7 * Z.of_nat (S (S fuel))) with (7 + 7 * Z.of_nat (S fuel)) in Hv by lia.
    rewrite Z.pow_add_r in Hv by lia.
    split; [apply Z.div_pos; lia | apply Z.div_lt_upper_bound; lia].
  - rewrite EncodeVarint64_loop_last by lia. cbn [VarintLength_loop].
    rewrite decide_False by lia. zsolve.
Qed.

Lemma EncodeVarint64_loop_length fuel v : zlen (EncodeVarint64_loop fuel v) ≤ Z.of_nat fuel.
Proof.
  revert v. induction fuel as [|fuel IH]; intros v; [done|].
  cbn [EncodeVarint64_loop]. case_decide; [|zsolve].
  specialize (IH (Z.shiftr v 7)). zsolve.
Qed.

Lemma EncodeVarint64_bounds v : 1 ≤ zlen (EncodeVarint64 v) ≤ 10.
Proof.
  split; [|apply (EncodeVarint64_loop_length 10)].
  unfold EncodeVarint64. remember 9%nat as f. cbn [EncodeVarint64_loop]. case_decide; zsolve.
Qed.

Lemma EncodeVarint32_bounds v : 1 ≤ zlen (EncodeVarint32 v) ≤ 5.
Proof. unfold EncodeVarint32. repeat case_decide; zsolve. Qed.

Lemma zlen_EncodeVarint64 v : in_w 64 v → zlen (EncodeVarint64 v) = VarintLength v.
Proof.
  intros. unfold VarintLength, EncodeVarint64. rewrite VarintLength_loop_zlen; [lia|lia|].
  word_solve.
Qed.

(** ** What a successful decoding says about its input *)

Lemma GetVarint_loop_suffix w last shift result p v q :
  GetVarint_loop w last shift result p = Some (v, q) →
  ∃ e, p = e ++ q ∧ 1 ≤ zlen e ∧ 7 * zlen e ≤ last - shift + 7.
Proof.
  revert shift result. induction p as [|c p IH]; intros shift result; [done|].
  cbn [GetVarint_loop]. do 2 (case_decide; [|try done]).
  - intros (e & -> & ? & ?)%IH. exists (c :: e). split_and!; [done|zsolve..].
  - intros [= _ ->]. exists [c]. split_and!; [done|zsolve..].
Qed.

Lemma GetVarint_loop_range w last shift result p v q :
  0 ≤ w → in_w w result →
  GetVarint_loop w last shift result p = Some (v, q) → in_w w v.
Proof.
  intros Hw. revert shift result. induction p as [|c p IH]; intros shift result Hr; [done|].
  cbn [GetVarint_loop]. do 2 (case_decide; [|try done]).
  - apply IH. apply in_w_lor; [done|done|by apply wrap_range].
  - intros [= <- _]. apply in_w_lor; [done|done|by apply wrap_range].
Qed.

Lemma GetVarint32_Some p v q :
  GetVarint32 p = Some (v, q) → in_w 32 v ∧ ∃ e, p = e ++ q ∧ 1 ≤ zlen e ≤ 5.
Proof.
  unfold GetVarint32. rewrite GetVarint32Ptr_fallback. intros H. split.
  - apply GetVarint_loop_range in H; [done|lia|word_solve].
  - apply GetVarint_loop_suffix in H as (e & -> & ? & ?). exists e. split; [done|lia].
Qed.

Lemma GetVarint64_Some p v q :
  GetVarint64 p = Some (v, q) → in_w 64 v ∧ ∃ e, p = e ++ q ∧ 1 ≤ zlen e ≤ 10.
Proof.
  unfold GetVarint64, GetVarint64Ptr. intros H. split.
  - apply GetVarint_loop_range in H; [done|lia|word_solve].
  - apply GetVarint_loop_suffix in H as (e & -> & ? & ?). exists e. split; [done|lia].
Qed.

(** ** Length-prefixed slices *)

Lemma GetLengthPrefixedSlice_enc value rest :
  in_w 32 (zlen value) →
  GetLengthPrefixedSlice (PutLengthPrefixedSlice [] value ++ rest) = (Some value, rest).
Proof.
  intros Hv. unfold GetLengthPrefixedSlice, PutLengthPrefixedSlice, PutVarint32.
  cbn [app]. rewrite wrap_small, <- app_assoc, GetVarint32_EncodeVarint32 by done.
  rewrite decide_True by zsolve. by rewrite ztake_app, zdrop_app.
Qed.

Lemma PutLengthPrefixedSlice_app dst value :
  PutLengthPrefixedSlice dst value = dst ++ PutLengthPrefixedSlice [] value.
Proof. unfold PutLengthPrefixedSlice, PutVarint32. by rewrite <- app_assoc. Qed.

Lemma GetLengthPrefixedSlice_Some input s rest :
  GetLengthPrefixedSlice input = (Some s, rest) →
  in_w 32 (zlen s) ∧ ∃ e, input = e ++ s ++ rest ∧ 1 ≤ zlen e ≤ 5.
Proof.
  unfold GetLengthPrefixedSlice. destruct (GetVarint32 input) as [[len q]|] eqn:E; [|done].
  apply GetVarint32_Some in E as [Hl (e & -> & He)].
  case_decide as Hq; [|done]. intros [= <- <-].
  rewrite zlen_ztake by word_solve. split; [done|].
  exists e. by rewrite ztake_zdrop.
Qed.

Lemma GetLengthPrefixedSlicePtr_eq p :
  GetLengthPrefixedSlicePtr p
  = match GetLengthPrefixedSlice p with
    | (Some s, rest) => Some (s, rest)
    | (None, _) => None
    end.
Proof.
  unfold GetLengthPrefixedSlicePtr, GetLengthPrefixedSlice, GetVarint32.
  destruct (GetVarint32Ptr p) as [[len q]|]; [|done].
  destruct (decide (len > zlen q)), (decide (len ≤ zlen q)); done || lia.
Qed.

#[export] Hint Resolve EncodeVarint32_bounds EncodeVarint64_bounds : ldb.

(** ** Properties *)

(** C7: every 64-bit value survives the varint encoding, whatever follows it
    in the buffer; the encoding has the length [VarintLength] announces and
    fits the ten-byte buffer of [PutVarint64].  For a 32-bit value the unrolled
    [EncodeVarint32] writes the same bytes as the loop, fits its five-byte
    buffer and is read back by [GetVarint32]. *)
Theorem varint_roundtrip v rest :
  in_w 64 v →
  GetVarint64 (PutVarint64 [] v ++ rest) = Some (v, rest) ∧
  zlen (PutVarint64 [] v) = VarintLength v ∧ 1 ≤ VarintLength v ≤ 10 ∧
  (v < 2 ^ 32 →
   PutVarint32 [] v = PutVarint64 [] v ∧ VarintLength v ≤ 5 ∧
   GetVarint32 (PutVarint32 [] v ++ rest) = Some (v, rest)).
Proof.
  intros Hv. unfold PutVarint64, PutVarint32. cbn [app].
  rewrite <- zlen_EncodeVarint64 by done.
  split_and!; [by apply GetVarint64_EncodeVarint64|done|apply EncodeVarint64_bounds..|].
  intros H32. assert (in_w 32 v) by word_solve.
  rewrite <- EncodeVarint32_64 by done.
  split_and!; [done|apply EncodeVarint32_bounds|by apply GetVarint32_EncodeVarint32].
Qed.

Lemma varint_roundtrip_witness :
  GetVarint64 (PutVarint64 [] 300 ++ [b8 0]) = Some (300, [b8 0]).
Proof. exact (proj1 (varint_roundtrip 300 [b8 0] ltac:(decide_now))). Defined.

(** Decoding is total and safe on arbitrary bytes: [GetVarint32] and
    [GetVarint64] either fail or return a value of their width, having consumed
    between one and five (ten) bytes of the input, and
    [GetLengthPrefixedSlice] either fails or returns a slice that lies inside
    the input, followed by exactly the bytes it leaves. *)
Theorem decode_safe input :
  match GetVarint32 input with
  | Some (v, q) => in_w 32 v ∧ ∃ e, input = e ++ q ∧ 1 ≤ zlen e ≤ 5
  | None => True
  end ∧
  match GetVarint64 input with
  | Some (v, q) => in_w 64 v ∧ ∃ e, input = e ++ q ∧ 1 ≤ zlen e ≤ 10
  | None => True
  end ∧
  match GetLengthPrefixedSlice input with
  | (Some s, q) => in_w 32 (zlen s) ∧ ∃ e, input = e ++ s ++ q ∧ 1 ≤ zlen e ≤ 5
  | (None, q) => ∃ e, input = e ++ q
  end.
Proof.
  split_and!.
  - destruct (GetVarint32 input) as [[v q]|] eqn:E; [by apply GetVarint32_Some|done].
  - destruct (GetVarint64 input) as [[v q]|] eqn:E; [by apply GetVarint64_Some|done].
  - destruct (GetLengthPrefixedSlice input) as [[s|] q] eqn:E;
      [by apply GetLengthPrefixedSlice_Some|].
    unfold GetLengthPrefixedSlice in E.
    destruct (GetVarint32 input) as [[v q']|] eqn:E2; simplify_eq; [|by exists []].
    apply GetVarint32_Some in E2 as [_ (e & -> & _)]. case_decide; simplify_eq. by exists e.
Qed.
