(* ===== verification/Comparator.v ===== *)
(** Orders on slices: [Slice::compare] of [include/leveldb/slice.h], the
    [Comparator] interface of [include/leveldb/comparator.h] and the bytewise
    comparator of [util/comparator.cc].

    [Comparator] is a type class with the operations of the C++ interface and
    [ComparatorLaws] the contract its comments document; the components that
    are parameterised by a comparator are verified against these two. *)
From S2P Require Import Prelude.

(** ** Comparing slices *)

(** [memcmp(a, b, n)]: the C standard fixes the sign of the result, that of the
    difference of the first two bytes that differ, read as unsigned. *)
Fixpoint memcmp (a b : bytes) (n : nat) : Z :=
  match n, a, b with
  | S n, x :: a, y :: b => if decide (x = y) then memcmp a b n else u8 x - u8 y
  | _, _, _ => 0
  end.

Definition Slice_compare (a b : bytes) : Z :=
  let min_len := if decide (zlen a < zlen b) then zlen a else zlen b in
  let r := memcmp a b (Z.to_nat min_len) in
  if decide (r = 0) then
    if decide (zlen a < zlen b) then -1
    else if decide (zlen a > zlen b) then 1 else r
  else r.

Definition Slice_starts_with (s x : bytes) : bool :=
  bool_decide (zlen x ≤ zlen s) && bool_decide (memcmp s x (length x) = 0).

Definition Slice_eq (x y : bytes) : bool :=
  bool_decide (zlen x = zlen y) && bool_decide (memcmp x y (length x) = 0).

(** ** The interface *)

Class Comparator := {
  Compare : bytes → bytes → Z;
  ComparatorName : bytes;
  FindShortestSeparator : bytes → bytes → bytes;
  FindShortSuccessor : bytes → bytes;
}.

(** [V] is the set of keys the comparator is used on: every string for a
    comparator of user keys, the strings long enough to hold a trailer for the
    comparator of internal keys. [Separator_refl] is not in the comments of the
    interface but the engine relies on it: a separator of two equal keys must
    not be larger than them. *)
Class ComparatorLaws (C : Comparator) (V : bytes → Prop) : Prop := {
  Compare_eq a b : V a → V b → Compare a b = 0 ↔ a = b;
  Compare_flip a b : V a → V b → Compare a b < 0 ↔ 0 < Compare b a;
  Compare_trans a b c : V a → V b → V c → Compare a b < 0 → Compare b c < 0 → Compare a c < 0;
  Separator_valid start limit : V start → V limit → V (FindShortestSeparator start limit);
  Separator_ge start limit :
    V start → V limit → Compare start (FindShortestSeparator start limit) ≤ 0;
  Separator_lt start limit :
    V start → V limit → Compare start limit < 0 → Compare (FindShortestSeparator start limit) limit < 0;
  Separator_refl key : V key → Compare (FindShortestSeparator key key) key ≤ 0;
  Successor_valid key : V key → V (FindShortSuccessor key);
  Successor_ge key : V key → Compare key (FindShortSuccessor key) ≤ 0;
}.

(** "Short" separators: they are not longer than the keys they replace. *)
Class ShortSeparators (C : Comparator) : Prop := {
  Separator_short a b : zlen (FindShortestSeparator a b) ≤ zlen a;
  Successor_short a : zlen (FindShortSuccessor a) ≤ zlen a;
}.

(** ** The bytewise comparator *)

(** The [while] loop that advances [diff_index] over the common prefix. *)
Fixpoint diff_index_loop (start limit : bytes) : nat :=
  match start, limit with
  | x :: start, y :: limit => if decide (x = y) then S (diff_index_loop start limit) else 0
  | _, _ => 0
  end%nat.

Definition Bytewise_FindShortestSeparator (start limit : bytes) : bytes :=
  let min_length := Nat.min (length start) (length limit) in
  let diff_index := diff_index_loop start limit in
  if decide (min_length ≤ diff_index)%nat then start
  else
    let diff_byte := u8 (nth diff_index start Byte.x00) in
    if decide (diff_byte < 255 ∧ diff_byte + 1 < u8 (nth diff_index limit Byte.x00)) then
      take diff_index start ++ [b8 (diff_byte + 1)]
    else start.

(** The [for] loop over the bytes of [key]; a run of 0xff is left alone. *)
Fixpoint Bytewise_FindShortSuccessor (key : bytes) : bytes :=
  match key with
  | [] => []
  | c :: key =>
      let byte := u8 c in
      if decide (byte ≠ 255) then [b8 (byte + 1)]
      else c :: Bytewise_FindShortSuccessor key
  end.

(** "leveldb.BytewiseComparator" *)
Definition Bytewise_Name : bytes :=
  b8 <$> [108; 101; 118; 101; 108; 100; 98; 46; 66; 121; 116; 101; 119; 105; 115; 101;
          67; 111; 109; 112; 97; 114; 97; 116; 111; 114].

#[export] Instance BytewiseComparator : Comparator := {
  Compare := Slice_compare;
  ComparatorName := Bytewise_Name;
  FindShortestSeparator := Bytewise_FindShortestSeparator;
  FindShortSuccessor := Bytewise_FindShortSuccessor;
}.

(** ** The order is the lexicographic one *)

Fixpoint lex (a b : bytes) : Z :=
  match a, b with
  | [], [] => 0
  | [], _ :: _ => -1
  | _ :: _, [] => 1
  | x :: a, y :: b => if decide (x = y) then lex a b else u8 x - u8 y
  end.

Lemma u8_sub_ne x y : x ≠ y → u8 x - u8 y ≠ 0.
Proof. intros Hne Heq. apply Hne, u8_inj. lia. Qed.

Lemma memcmp_cons x y a b n :
  memcmp (x :: a) (y :: b) (S n) = if decide (x = y) then memcmp a b n else u8 x - u8 y.
Proof. done. Qed.

Lemma Slice_compare_lex a b : Slice_compare a b = lex a b.
Proof.
  revert b. induction a as [|x a IH]; intros [|y b]; try done.
  unfold Slice_compare in *. cbn [lex]. rewrite !zlen_cons.
  replace (Z.to_nat _)
    with (S (Z.to_nat (if decide (zlen a < zlen b) then zlen a else zlen b)))
    by (repeat case_decide; zsolve).
  rewrite memcmp_cons. specialize (IH b).
  destruct (decide (x = y)) as [->|Hne].
  - rewrite <- IH. repeat case_decide; lia.
  - rewrite decide_False by (by apply u8_sub_ne). done.
Qed.

Lemma lex_eq a b : lex a b = 0 ↔ a = b.
Proof.
  revert b. induction a as [|x a IH]; intros [|y b]; cbn; try done.
  case_decide as Hxy.
  - subst. rewrite IH. naive_solver.
  - pose proof (u8_sub_ne x y Hxy). naive_solver.
Qed.

Lemma lex_flip a b : lex a b < 0 ↔ 0 < lex b a.
Proof.
  revert b. induction a as [|x a IH]; intros [|y b]; cbn; try lia.
  destruct (decide (x = y)), (decide (y = x)); try congruence; [apply IH|lia].
Qed.

Lemma lex_trans a b c : lex a b < 0 → lex b c < 0 → lex a c < 0.
Proof.
  revert b c. induction a as [|x a IH]; intros [|y b] [|z c]; cbn; try lia.
  destruct (decide (x = y)), (decide (y = z)), (decide (x = z)); subst; try congruence; try lia.
  apply IH.
Qed.

Lemma lex_app_l p a b : lex (p ++ a) (p ++ b) = lex a b.
Proof. induction p as [|x p IH]; cbn; [done|]. by rewrite decide_True. Qed.

(** What the scan for the common prefix finds. *)
Lemma diff_index_spec start limit :
  let d := diff_index_loop start limit in
  (d ≤ Nat.min (length start) (length limit))%nat ∧
  take d start = take d limit ∧
  ((d < Nat.min (length start) (length limit))%nat →
   ∃ x s y l, start = take d start ++ x :: s ∧ limit = take d start ++ y :: l ∧ x ≠ y).
Proof.
  cbn zeta. revert limit. induction start as [|x s IH]; intros [|y l]; cbn; try (split_and!; done || lia).
  case_decide as Hxy.
  - subst. destruct (IH l) as (H1 & H2 & H3). cbn. split_and!; [lia|congruence|].
    intros Hlt. destruct H3 as (x' & s' & y' & l' & Hs & Hl & Hne); [lia|].
    exists x', s', y', l'. split_and!; congruence.
  - split_and!; [lia|done|]. intros _. by exists x, s, y, l.
Qed.

Lemma nth_middle_take {A} (p : list A) x s d : nth (length p) (p ++ x :: s) d = x.
Proof. rewrite app_nth2 by lia. by rewrite Nat.sub_diag. Qed.

(** The separator is either the start key or a shorter key strictly between. *)
Lemma Bytewise_separator_cases start limit :
  Bytewise_FindShortestSeparator start limit = start ∨
  ∃ p x s y l, start = p ++ x :: s ∧ limit = p ++ y :: l ∧ u8 x + 1 < u8 y ∧
    Bytewise_FindShortestSeparator start limit = p ++ [b8 (u8 x + 1)].
Proof.
  unfold Bytewise_FindShortestSeparator.
  destruct (diff_index_spec start limit) as (Hle & Htake & Hdiff).
  case_decide as Hmin; [by left|].
  destruct Hdiff as (x & s & y & l & Hs & Hl & Hne); [lia|].
  set (d := diff_index_loop start limit) in *. set (p := take d start) in *.
  assert (length p = d) as Hp by (subst p; rewrite length_take; lia).
  replace (nth d start Byte.x00) with x by (rewrite Hs, <- Hp; symmetry; apply nth_middle_take).
  replace (nth d limit Byte.x00) with y by (rewrite Hl, <- Hp; symmetry; apply nth_middle_take).
  case_decide as Hc; [right|by left].
  exists p, x, s, y, l. naive_solver.
Qed.

Lemma Bytewise_separator_ge start limit :
  lex start (Bytewise_FindShortestSeparator start limit) ≤ 0.
Proof.
  destruct (Bytewise_separator_cases start limit) as [->|(p & x & s & y & l & -> & -> & Hlt & ->)].
  - by rewrite (proj2 (lex_eq start start) eq_refl).
  - rewrite lex_app_l. cbn. pose proof (u8_range x). pose proof (u8_range y).
    rewrite u8_b8, Z.mod_small by lia.
    case_decide as Hx; [|lia]. apply (f_equal u8) in Hx.
    rewrite u8_b8, Z.mod_small in Hx by lia. lia.
Qed.

Lemma Bytewise_separator_lt start limit :
  lex start limit < 0 → lex (Bytewise_FindShortestSeparator start limit) limit < 0.
Proof.
  destruct (Bytewise_separator_cases start limit) as [->|(p & x & s & y & l & -> & -> & Hlt & ->)];
    [done|intros _].
  rewrite lex_app_l. cbn. pose proof (u8_range x). pose proof (u8_range y).
  rewrite u8_b8, Z.mod_small by lia.
  case_decide as Hx; [|lia]. apply (f_equal u8) in Hx.
  rewrite u8_b8, Z.mod_small in Hx by lia. lia.
Qed.

Lemma Bytewise_successor_ge key : lex key (Bytewise_FindShortSuccessor key) ≤ 0.
Proof.
  induction key as [|c key IH]; cbn; [done|]. case_decide as Hc; cbn.
  - pose proof (u8_range c). rewrite u8_b8, Z.mod_small by lia.
    case_decide as Hx; [|lia]. apply (f_equal u8) in Hx.
    rewrite u8_b8, Z.mod_small in Hx by lia. lia.
  - by rewrite decide_True.
Qed.

Lemma Bytewise_separator_short start limit :
  zlen (Bytewise_FindShortestSeparator start limit) ≤ zlen start.
Proof.
  destruct (Bytewise_separator_cases start limit) as [->|(p & x & s & y & l & -> & _ & _ & ->)]; [done|].
  rewrite !zlen_app, !zlen_cons, zlen_nil. zlen_facts. lia.
Qed.

Lemma Bytewise_successor_short key : zlen (Bytewise_FindShortSuccessor key) ≤ zlen key.
Proof.
  induction key as [|c key IH]; cbn [Bytewise_FindShortSuccessor]; [done|].
  case_decide; rewrite !zlen_cons; [|lia]. rewrite zlen_nil. zlen_facts. lia.
Qed.

Definition any_key (_ : bytes) : Prop := True.

#[export] Instance BytewiseComparator_short : ShortSeparators BytewiseComparator.
Proof. split; [apply Bytewise_separator_short|apply Bytewise_successor_short]. Qed.

#[export] Instance BytewiseComparator_laws : ComparatorLaws BytewiseComparator any_key.
Proof.
  split; unfold any_key; cbn [Compare BytewiseComparator FindShortestSeparator FindShortSuccessor];
    intros; rewrite ?Slice_compare_lex in *; eauto using lex_eq, lex_flip, lex_trans,
      Bytewise_separator_ge, Bytewise_separator_lt, Bytewise_successor_ge.
  destruct (Bytewise_separator_cases key key) as [->|(p & x & s & y & l & E & El & Hlt & _)].
  - by rewrite (proj2 (lex_eq key key) eq_refl).
  - rewrite E in El. apply app_inv_head in El as [= ->]. lia.
Qed.

(** ** Consequences of the laws *)

Section Laws.
Context {C : Comparator} {V : bytes → Prop} {CL : ComparatorLaws C V}.

Lemma Compare_refl a : V a → Compare a a = 0.
Proof. intros. by apply Compare_eq. Qed.

Lemma Compare_sgn_flip a b : V a → V b → Compare a b ≤ 0 ↔ 0 ≤ Compare b a.
Proof.
  intros Ha Hb.
  pose proof (Compare_flip a b Ha Hb). pose proof (Compare_flip b a Hb Ha).
  pose proof (Compare_eq a b Ha Hb). pose proof (Compare_eq b a Hb Ha).
  assert (Compare a b = 0 ↔ Compare b a = 0) by naive_solver. lia.
Qed.

Lemma Compare_le_trans a b c :
  V a → V b → V c → Compare a b ≤ 0 → Compare b c ≤ 0 → Compare a c ≤ 0.
Proof.
  intros Ha Hb Hc H1 H2. destruct (decide (Compare a b = 0)) as [->%Compare_eq|]; [done..|].
  destruct (decide (Compare b c = 0)) as [<-%Compare_eq|]; [done..|].
  assert (Compare a c < 0); [|lia]. apply (Compare_trans a b c); done || lia.
Qed.

Lemma Compare_lt_le_trans a b c :
  V a → V b → V c → Compare a b < 0 → Compare b c ≤ 0 → Compare a c < 0.
Proof.
  intros Ha Hb Hc H1 H2. destruct (decide (Compare b c = 0)) as [<-%Compare_eq|]; [done..|].
  apply (Compare_trans a b c); done || lia.
Qed.

Lemma Compare_le_lt_trans a b c :
  V a → V b → V c → Compare a b ≤ 0 → Compare b c < 0 → Compare a c < 0.
Proof.
  intros Ha Hb Hc H1 H2. destruct (decide (Compare a b = 0)) as [->%Compare_eq|]; [done..|].
  apply (Compare_trans a b c); done || lia.
Qed.

Lemma Compare_nlt a b : V a → V b → ¬ Compare a b < 0 ↔ Compare b a ≤ 0.
Proof. intros Ha Hb. pose proof (Compare_sgn_flip b a Hb Ha). lia. Qed.

Lemma Compare_antisym a b : V a → V b → Compare a b ≤ 0 → Compare b a ≤ 0 → a = b.
Proof.
  intros Ha Hb H1 H2. apply Compare_eq; [done..|].
  pose proof (Compare_sgn_flip a b Ha Hb). pose proof (Compare_sgn_flip b a Hb Ha). lia.
Qed.
End Laws.

(** ** Equality and prefixes *)

Lemma Slice_eq_spec a b : Slice_eq a b = bool_decide (a = b).
Proof.
  unfold Slice_eq, zlen. revert b. induction a as [|x a IH]; intros [|y b]; try done.
  specialize (IH b). cbn [length memcmp].
  destruct (decide (x = y)) as [->|Hne].
  - rewrite (bool_decide_ext (y :: a = y :: b) (a = b)) by naive_solver.
    rewrite <- IH. f_equal. apply bool_decide_ext. lia.
  - rewrite (bool_decide_false (u8 x - u8 y = 0)) by (by apply u8_sub_ne).
    rewrite andb_false_r. symmetry. apply bool_decide_false. naive_solver.
Qed.

Lemma Slice_starts_with_app p s : Slice_starts_with (p ++ s) p = true.
Proof.
  unfold Slice_starts_with. rewrite bool_decide_true by zsolve. apply bool_decide_true.
  induction p as [|x p IH]; [by destruct s|]. cbn. by rewrite decide_True.
Qed.

Lemma Slice_starts_with_spec s p : Slice_starts_with s p = true ↔ ∃ t, s = p ++ t.
Proof.
  split; [|intros [t ->]; apply Slice_starts_with_app].
  unfold Slice_starts_with, zlen. revert s. induction p as [|x p IH]; intros s H; [by exists s|].
  destruct s as [|y s]; [done|]. apply andb_prop in H as [H1 H2].
  apply bool_decide_eq_true in H1, H2. cbn [length memcmp] in *.
  destruct (decide (y = x)) as [->|Hne]; [|by apply u8_sub_ne in Hne].
  destruct (IH s) as [t ->]; [|by exists t].
  apply andb_true_intro. split; apply bool_decide_eq_true; [lia|done].
Qed.

(** The bytewise comparator meets the contract of [Comparator]: a total
    order whose zero is equality, a separator that lies in [start, limit) and
    is never longer than [start], and a successor that is not smaller than the
    key. *)
Theorem BytewiseComparator_correct a b c :
  (Slice_compare a b = 0 ↔ a = b) ∧
  (Slice_compare a b < 0 ↔ 0 < Slice_compare b a) ∧
  (Slice_compare a b < 0 → Slice_compare b c < 0 → Slice_compare a c < 0) ∧
  (Slice_compare a b < 0 →
     let s := Bytewise_FindShortestSeparator a b in
     Slice_compare a s ≤ 0 ∧ Slice_compare s b < 0 ∧ (length s ≤ length a)%nat) ∧
  Slice_compare a (Bytewise_FindShortSuccessor a) ≤ 0 ∧
  (Slice_eq a b = bool_decide (a = b)).
Proof.
  rewrite !Slice_compare_lex. cbn zeta. rewrite !Slice_compare_lex.
  split_and!; [apply lex_eq|apply lex_flip|apply lex_trans| |apply Bytewise_successor_ge|].
  - intros Hlt. split_and!; [apply Bytewise_separator_ge|by apply Bytewise_separator_lt|].
    destruct (Bytewise_separator_cases a b) as [Heq|(p & x & t & y & l & Ha & _ & _ & Heq)];
      rewrite Heq; [done|]. rewrite Ha, !length_app. cbn. lia.
  - apply Slice_eq_spec.
Qed.
