(* ===== verification/Status.v ===== *)
(** [Status], the result type of the engine's operations: [util/status.cc] and
    [include/leveldb/status.h].

    A status is the contents of [state_]: [None] for NULL (success), otherwise
    the buffer with the message length in four bytes, the code in one byte and
    the message. *)
From S2P Require Import Prelude Coding.

Definition Status := option bytes.

(** [enum Code] *)
Inductive Code := kOk | kNotFound | kCorruption | kNotSupported | kInvalidArgument | kIOError.

#[export] Instance Code_eq_dec : EqDecision Code.
Proof. solve_decision. Defined.

Definition Code_to_Z (c : Code) : Z :=
  match c with
  | kOk => 0 | kNotFound => 1 | kCorruption => 2
  | kNotSupported => 3 | kInvalidArgument => 4 | kIOError => 5
  end.

(** [static_cast<Code>(state_[4])]; a value outside the enumeration is [None]. *)
Definition Code_of_Z (z : Z) : option Code :=
  if decide (z = 0) then Some kOk
  else if decide (z = 1) then Some kNotFound
  else if decide (z = 2) then Some kCorruption
  else if decide (z = 3) then Some kNotSupported
  else if decide (z = 4) then Some kInvalidArgument
  else if decide (z = 5) then Some kIOError
  else None.

(** The constructor [Status(code, msg, msg2)]. *)
Definition mkStatus (code : Code) (msg msg2 : bytes) : Status :=
  let len1 := u32 (zlen msg) in
  let len2 := u32 (zlen msg2) in
  let size := u32 (len1 + (if decide (len2 ≠ 0) then 2 + len2 else 0)) in
  Some (EncodeFixed32 size ++ [b8 (Code_to_Z code)] ++ ztake len1 msg ++
        (if decide (len2 ≠ 0) then str ": " ++ ztake len2 msg2 else [])).

Definition Status_OK : Status := None.
Definition NotFound (msg msg2 : bytes) : Status := mkStatus kNotFound msg msg2.
Definition Corruption (msg msg2 : bytes) : Status := mkStatus kCorruption msg msg2.
Definition NotSupported (msg msg2 : bytes) : Status := mkStatus kNotSupported msg msg2.
Definition InvalidArgument (msg msg2 : bytes) : Status := mkStatus kInvalidArgument msg msg2.
Definition IOError (msg msg2 : bytes) : Status := mkStatus kIOError msg msg2.

(** [CopyState], used by the copy constructor and [operator=]: [size + 5]
    bytes of the source buffer. *)
Definition CopyState (state : bytes) : bytes :=
  let size := DecodeFixed32 state in ztake (size + 5) state.

Definition Status_copy (s : Status) : Status :=
  match s with None => None | Some state => Some (CopyState state) end.

Definition code (s : Status) : option Code :=
  match s with None => Some kOk | Some state => Code_of_Z (u8 (zget state 4)) end.

Definition ok (s : Status) : bool := match s with None => true | Some _ => false end.
Definition IsNotFound (s : Status) : bool := bool_decide (code s = Some kNotFound).
Definition IsCorruption (s : Status) : bool := bool_decide (code s = Some kCorruption).
Definition IsIOError (s : Status) : bool := bool_decide (code s = Some kIOError).

(** [ToString]; the [default] branch prints the raw code in decimal, which
    [unknown] stands for. *)
Definition Status_ToString (unknown : Z → bytes) (s : Status) : bytes :=
  match s with
  | None => str "OK"
  | Some state =>
      let type :=
        match code s with
        | Some kOk => str "OK"
        | Some kNotFound => str "NotFound: "
        | Some kCorruption => str "Corruption: "
        | Some kNotSupported => str "Not implemented: "
        | Some kInvalidArgument => str "Invalid argument: "
        | Some kIOError => str "IO error: "
        | None => str "Unknown code(" ++ unknown (u8 (zget state 4)) ++ str "): "
        end in
      let length := DecodeFixed32 state in
      type ++ ztake length (zdrop 5 state)
  end.

(** ** The buffer built by the constructor *)

(** Message lengths for which the 32-bit size computation does not wrap. *)
Definition msg_ok (msg msg2 : bytes) : Prop := zlen msg + zlen msg2 + 2 < 2 ^ 32.

Definition full_msg (msg msg2 : bytes) : bytes :=
  if decide (msg2 = []) then msg else msg ++ str ": " ++ msg2.

Lemma mkStatus_eq c msg msg2 :
  msg_ok msg msg2 →
  mkStatus c msg msg2
  = Some (EncodeFixed32 (zlen (full_msg msg msg2)) ++ [b8 (Code_to_Z c)] ++ full_msg msg msg2).
Proof.
  intros Hm. unfold msg_ok in Hm. unfold mkStatus, full_msg.
  pose proof (zlen_nonneg msg). pose proof (zlen_nonneg msg2).
  rewrite !(wrap_small 32 (zlen _)) by word_solve.
  rewrite (ztake_ge (zlen msg) msg), (ztake_ge (zlen msg2) msg2) by lia.
  destruct (decide (msg2 = [])) as [->|Hne].
  - rewrite !decide_False by (rewrite zlen_nil; lia).
    rewrite wrap_small by word_solve. rewrite Z.add_0_r. by rewrite app_nil_r.
  - assert (zlen msg2 ≠ 0) by (intros ?%zlen_zero; done).
    rewrite !decide_True by done. rewrite wrap_small by word_solve.
    do 2 f_equal. f_equal. rewrite !zlen_app. change (zlen (str ": ")) with 2. lia.
Qed.

Lemma code_mkStatus c msg msg2 : code (mkStatus c msg msg2) = Some c.
Proof. unfold code, mkStatus. by destruct c. Qed.

Lemma mkStatus_not_ok c msg msg2 : ok (mkStatus c msg msg2) = false.
Proof. done. Qed.

Lemma IsCorruption_Corruption msg msg2 : IsCorruption (Corruption msg msg2) = true.
Proof. done. Qed.

Lemma IsNotFound_NotFound msg msg2 : IsNotFound (NotFound msg msg2) = true.
Proof. done. Qed.

#[export] Hint Resolve mkStatus_not_ok IsCorruption_Corruption IsNotFound_NotFound : ldb.

(** An error status keeps its code and both messages: the predicates see
    the code it was built with, [ToString] prints the code's prefix and the
    messages joined by a colon, and a copy made by [CopyState] (the copy
    constructor and the assignment operator) is the same status. *)
Theorem Status_mk_correct c msg msg2 unknown :
  msg_ok msg msg2 →
  let s := mkStatus c msg msg2 in
  ok s = false ∧ code s = Some c ∧ Status_copy s = s ∧
  IsNotFound s = bool_decide (c = kNotFound) ∧
  IsCorruption s = bool_decide (c = kCorruption) ∧
  IsIOError s = bool_decide (c = kIOError) ∧
  (c = kNotFound → Status_ToString unknown s = str "NotFound: " ++ full_msg msg msg2) ∧
  (c = kCorruption → Status_ToString unknown s = str "Corruption: " ++ full_msg msg msg2) ∧
  (c = kIOError → Status_ToString unknown s = str "IO error: " ++ full_msg msg msg2).
Proof.
  intros Hm s. subst s.
  assert (in_w 32 (zlen (full_msg msg msg2))) as Hlen.
  { unfold msg_ok, full_msg in *. case_decide; zsolve.
    - word_solve.
    - change (zlen (str ": ")) with 2 in *. word_solve. }
  pose proof (code_mkStatus c msg msg2) as Hc.
  assert (∀ t, (let '(state) := match mkStatus c msg msg2 with Some x => x | None => [] end in
     t ++ ztake (DecodeFixed32 state) (zdrop 5 state)) = t ++ full_msg msg msg2) as Hstr.
  { intros t. rewrite mkStatus_eq by done. cbn zeta iota.
    rewrite DecodeFixed32_EncodeFixed32 by done. f_equal.
    rewrite app_assoc, zdrop_app_n by done. apply ztake_ge. done. }
  rewrite mkStatus_eq in * by done.
  split_and!; try (unfold IsNotFound, IsCorruption, IsIOError; rewrite Hc;
    by destruct c); try done.
  - cbn [Status_copy]. unfold CopyState. rewrite DecodeFixed32_EncodeFixed32 by done.
    rewrite ztake_ge; [done|]. rewrite !zlen_app. change (zlen [_]) with 1. zsolve.
  - intros ->. apply (Hstr (str "NotFound: ")).
  - intros ->. apply (Hstr (str "Corruption: ")).
  - intros ->. apply (Hstr (str "IO error: ")).
Qed.

Lemma Status_mk_correct_witness :
  IsCorruption (mkStatus kCorruption (str "bad record") []) = true.
Proof.
  exact (proj1 (proj2 (proj2 (proj2 (proj2
    (Status_mk_correct kCorruption (str "bad record") [] (λ _, []) ltac:(unfold msg_ok; decide_now))))))).
Defined.
