(* ===== verification/Bloom.v ===== *)
(** The hash function of [util/hash.cc], the [FilterPolicy] interface of
    [include/leveldb/filter_policy.h] and the Bloom filter of [util/bloom.cc]. *)
From S2P Require Import Prelude Coding.

(** ** Hash *)

(** The [while (data + 4 <= limit)] loop; returns the remaining bytes. *)
Fixpoint Hash_loop (fuel : nat) (h : Z) (data : bytes) : Z * bytes :=
  match fuel with
  | O => (h, data)
  | S fuel =>
      if decide (4 ≤ zlen data) then
        let m := 0xc6a4a793 in
        let w := DecodeFixed32 data in
        let h := u32 (h + w) in
        let h := u32 (h * m) in
        let h := Z.lxor h (Z.shiftr h 16) in
        Hash_loop fuel h (zdrop 4 data)
      else (h, data)
  end.

Definition Hash (data : bytes) (seed : Z) : Z :=
  let m := 0xc6a4a793 in
  let r := 24 in
  let n := zlen data in
  let h := Z.lxor seed (usize (n * m)) in
  let '(h, data) := Hash_loop (length data) h data in
  let finish h := let h := u32 (h * m) in Z.lxor h (Z.shiftr h r) in
  match data with
  | [a; b; c] =>
      finish (u32 (u32 (u32 (h + Z.shiftl (u8 c) 16) + Z.shiftl (u8 b) 8) + u8 a))
  | [a; b] => finish (u32 (u32 (h + Z.shiftl (u8 b) 8) + u8 a))
  | [a] => finish (u32 (h + u8 a))
  | _ => h
  end.

(** ** The interface *)

(** [filter_dom keys] is the set of key lists for which the policy promises
    that no key is lost. *)
Class FilterPolicy := {
  FilterName : bytes;
  CreateFilter : list bytes → bytes → bytes;
  KeyMayMatch : bytes → bytes → bool;
}.

Class FilterPolicyLaws (P : FilterPolicy) (filter_dom : list bytes → Prop) : Prop := {
  CreateFilter_app keys dst : CreateFilter keys dst = dst ++ CreateFilter keys [];
  CreateFilter_match keys key :
    filter_dom keys → key ∈ keys → KeyMayMatch key (CreateFilter keys []) = true;
}.

(** ** The Bloom filter *)

Definition BloomHash (key : bytes) : Z := Hash key 0xbc9f1d34.

Record BloomFilterPolicy := { bits_per_key_ : Z; k_ : Z }.

(** The constructor. [bits_per_key * 0.69] is truncated; the product is exact
    enough because the result is capped at 30, long before the first multiple
    of 100 for which the rounding of 0.69 could matter. *)
Definition mkBloomFilterPolicy (bits_per_key : Z) : BloomFilterPolicy :=
  let k := bits_per_key * 69 / 100 in
  let k := if decide (k < 1) then 1 else k in
  let k := if decide (k > 30) then 30 else k in
  {| bits_per_key_ := bits_per_key; k_ := k |}.

(** [array[bitpos/8] |= (1 << (bitpos % 8))] *)
Definition set_bit (array : bytes) (bitpos : Z) : bytes :=
  let i := Z.to_nat (bitpos / 8) in
  <[i := b8 (Z.lor (u8 (nth i array Byte.x00)) (Z.shiftl 1 (bitpos mod 8)))]> array.

(** [(array[bitpos/8] & (1 << (bitpos % 8))) != 0] *)
Definition test_bit (array : bytes) (bitpos : Z) : bool :=
  bool_decide
    (Z.land (u8 (nth (Z.to_nat (bitpos / 8)) array Byte.x00)) (Z.shiftl 1 (bitpos mod 8)) ≠ 0).

Definition rotate_delta (h : Z) : Z := Z.lor (Z.shiftr h 17) (u32 (Z.shiftl h 15)).

(** The inner loop of [CreateFilter]. *)
Fixpoint add_probes (j : nat) (bits h delta : Z) (array : bytes) : bytes :=
  match j with
  | O => array
  | S j =>
      let bitpos := h mod bits in
      add_probes j bits (u32 (h + delta)) delta (set_bit array bitpos)
  end.

Definition add_key (k bits : Z) (array key : bytes) : bytes :=
  let h := BloomHash key in
  let delta := rotate_delta h in
  add_probes (Z.to_nat k) bits h delta array.

(** The size of the filter in bytes, for [n] keys. *)
Definition filter_bytes (p : BloomFilterPolicy) (n : Z) : Z :=
  let bits := usize (n * bits_per_key_ p) in
  let bits := if decide (bits < 64) then 64 else bits in
  usize (bits + 7) / 8.

Definition Bloom_CreateFilter (p : BloomFilterPolicy) (keys : list bytes) (dst : bytes) : bytes :=
  let bytes := filter_bytes p (zlen keys) in
  let bits := bytes * 8 in
  let array := replicate (Z.to_nat bytes) Byte.x00 in
  dst ++ fold_left (add_key (k_ p) bits) keys array ++ [b8 (k_ p)].

Fixpoint match_probes (j : nat) (bits h delta : Z) (array : bytes) : bool :=
  match j with
  | O => true
  | S j =>
      let bitpos := h mod bits in
      if test_bit array bitpos then match_probes j bits (u32 (h + delta)) delta array
      else false
  end.

(** [char_signed] is the signedness of [char], which [array[len-1]] reads. *)
Definition Bloom_KeyMayMatch (char_signed : bool) (key bloom_filter : bytes) : bool :=
  let len := zlen bloom_filter in
  if decide (len < 2) then false
  else
    let bits := (len - 1) * 8 in
    let k := usize (char_val char_signed (zget bloom_filter (len - 1))) in
    if decide (k > 30) then true
    else
      let h := BloomHash key in
      let delta := rotate_delta h in
      match_probes (Z.to_nat k) bits h delta bloom_filter.

(** ** Bits once set stay set *)

Definition bit_on (array : bytes) (pos : Z) : Prop := test_bit array pos = true.

Lemma length_set_bit array pos : length (set_bit array pos) = length array.
Proof. apply length_insert. Qed.

Lemma land_pow2_testbit a i : 0 ≤ i → Z.land a (Z.shiftl 1 i) ≠ 0 ↔ Z.testbit a i = true.
Proof.
  intros Hi. rewrite Z.shiftl_1_l. split.
  - intros Hne. destruct (Z.testbit a i) eqn:E; [done|]. destruct Hne.
    apply Z.bits_inj'. intros j Hj. rewrite Z.land_spec, Z.bits_0.
    destruct (decide (j = i)) as [->|]; [by rewrite E|].
    rewrite (Z.pow2_bits_false i j) by lia. apply andb_false_r.
  - intros Hb H0. apply (f_equal (λ z, Z.testbit z i)) in H0.
    rewrite Z.land_spec, Z.bits_0, Hb, Z.pow2_bits_true in H0 by lia. done.
Qed.

Lemma nth_insert_ne (array : bytes) i j b d :
  i ≠ j → nth j (<[i := b]> array) d = nth j array d.
Proof.
  intros Hne. rewrite !nth_lookup. by rewrite list_lookup_insert_ne.
Qed.

Lemma nth_insert_eq (array : bytes) i b d :
  (i < length array)%nat → nth i (<[i := b]> array) d = b.
Proof. intros. rewrite nth_lookup. by rewrite list_lookup_insert_eq. Qed.

Lemma testbit_set array pos i :
  0 ≤ pos < 8 * zlen array → 0 ≤ i < 8 →
  Z.testbit (u8 (nth (Z.to_nat (pos / 8)) (set_bit array pos) Byte.x00)) i
  = Z.testbit (u8 (nth (Z.to_nat (pos / 8)) array Byte.x00)) i || bool_decide (i = pos mod 8).
Proof.
  intros Hp Hi. unfold set_bit.
  rewrite nth_insert_eq by (unfold zlen in Hp; apply Nat2Z.inj_lt; word_solve).
  rewrite u8_b8. change 256 with (2 ^ 8). rewrite Z.mod_pow2_bits_low by lia.
  rewrite Z.lor_spec, Z.shiftl_1_l. f_equal.
  assert (0 ≤ pos mod 8) by (apply Z.mod_pos_bound; lia).
  case_bool_decide as He.
  - subst. by rewrite Z.pow2_bits_true.
  - rewrite Z.pow2_bits_false by lia. done.
Qed.

Lemma test_bit_on array pos :
  bit_on array pos ↔
  Z.testbit (u8 (nth (Z.to_nat (pos / 8)) array Byte.x00)) (pos mod 8) = true.
Proof.
  unfold bit_on, test_bit. rewrite bool_decide_eq_true. apply land_pow2_testbit.
  apply Z.mod_pos_bound. lia.
Qed.

Lemma set_bit_on array pos : 0 ≤ pos < 8 * zlen array → bit_on (set_bit array pos) pos.
Proof.
  intros. apply test_bit_on. rewrite testbit_set by (done || (apply Z.mod_pos_bound; lia)).
  by rewrite bool_decide_true, orb_true_r.
Qed.

Lemma set_bit_mono array pos q :
  0 ≤ pos < 8 * zlen array → 0 ≤ q → bit_on array q → bit_on (set_bit array pos) q.
Proof.
  intros Hp Hq. rewrite !test_bit_on.
  destruct (decide (Z.to_nat (pos / 8) = Z.to_nat (q / 8))) as [Heq|Hne].
  - rewrite <- Heq, testbit_set by (done || (apply Z.mod_pos_bound; lia)).
    intros ->. done.
  - unfold set_bit. rewrite nth_insert_ne by done. done.
Qed.

(** ** The probes of an added key are all found *)

Lemma zlen_set_bit array pos : zlen (set_bit array pos) = zlen array.
Proof. unfold zlen. by rewrite length_set_bit. Qed.

Lemma add_probes_spec j bits h delta array :
  0 < bits → bits = 8 * zlen array →
  zlen (add_probes j bits h delta array) = zlen array ∧
  (∀ q, 0 ≤ q → bit_on array q → bit_on (add_probes j bits h delta array) q) ∧
  match_probes j bits h delta (add_probes j bits h delta array) = true.
Proof.
  revert h array. induction j as [|j IH]; intros h array Hb Hz; [done|].
  cbn [add_probes match_probes].
  pose proof (Z.mod_pos_bound h bits Hb) as Hm.
  destruct (IH (u32 (h + delta)) (set_bit array (h mod bits))) as (Hl & Hmono & Hmatch);
    [done|by rewrite zlen_set_bit|]. rewrite zlen_set_bit in Hl.
  splits; [done| |].
  - intros q Hq Hon. apply Hmono; [done|]. apply set_bit_mono; [lia|done|done].
  - assert (bit_on (add_probes j bits (u32 (h + delta)) delta (set_bit array (h mod bits)))
              (h mod bits)) as Hon.
    { apply Hmono; [lia|]. apply set_bit_on. lia. }
    unfold bit_on in Hon. rewrite Hon. exact Hmatch.
Qed.

Lemma match_probes_mono j bits h delta a a' :
  0 < bits → (∀ q, 0 ≤ q → bit_on a q → bit_on a' q) →
  match_probes j bits h delta a = true → match_probes j bits h delta a' = true.
Proof.
  revert h. induction j as [|j IH]; intros h Hb Hmono; [done|]. cbn [match_probes].
  destruct (test_bit a (h mod bits)) eqn:E; [|done].
  specialize (Hmono (h mod bits)) as Hm. unfold bit_on in Hm.
  rewrite Hm; [by apply IH|apply Z.mod_pos_bound; lia|done].
Qed.

Definition key_matches (k bits : Z) (array key : bytes) : Prop :=
  match_probes (Z.to_nat k) bits (BloomHash key) (rotate_delta (BloomHash key)) array = true.

Lemma add_keys_spec k bits keys array :
  0 < bits → bits = 8 * zlen array →
  zlen (fold_left (add_key k bits) keys array) = zlen array ∧
  (∀ q, 0 ≤ q → bit_on array q → bit_on (fold_left (add_key k bits) keys array) q) ∧
  (∀ key, key ∈ keys → key_matches k bits (fold_left (add_key k bits) keys array) key).
Proof.
  revert array. induction keys as [|key keys IH]; intros array Hb Hz; cbn [fold_left].
  { splits; [done|done|]. intros key Hk. by apply not_elem_of_nil in Hk. }
  destruct (add_probes_spec (Z.to_nat k) bits (BloomHash key) (rotate_delta (BloomHash key)) array)
    as (Hl & Hmono & Hmatch); [done|done|].
  destruct (IH (add_key k bits array key)) as (Hl' & Hmono' & Hmatch');
    [done|unfold add_key; by rewrite Hl|].
  splits.
  - rewrite Hl'. exact Hl.
  - intros q Hq Hon. apply Hmono', Hmono; done.
  - intros key' [->|Hin]%elem_of_cons; [|by apply Hmatch'].
    unfold key_matches. apply (match_probes_mono _ _ _ _ _ _ Hb Hmono'). exact Hmatch.
Qed.

(** Bits of the array are read the same through the trailing probe count. *)
Lemma test_bit_app array s pos :
  0 ≤ pos < 8 * zlen array → test_bit (array ++ s) pos = test_bit array pos.
Proof.
  intros. unfold test_bit. rewrite app_nth1; [done|].
  unfold zlen in *. apply Nat2Z.inj_lt. word_solve.
Qed.

Lemma match_probes_app j bits h delta array s :
  0 < bits → bits = 8 * zlen array →
  match_probes j bits h delta (array ++ s) = match_probes j bits h delta array.
Proof.
  intros Hb Hz. revert h. induction j as [|j IH]; intros h; cbn [match_probes]; [done|].
  pose proof (Z.mod_pos_bound h bits Hb).
  rewrite test_bit_app by lia. by rewrite IH.
Qed.

(** ** The instance *)

(** The policies and key counts for which the size computation does not wrap
    to an empty array. *)
Definition bloom_dom (p : BloomFilterPolicy) (keys : list bytes) : Prop :=
  usize (zlen keys * bits_per_key_ p) + 7 < 2 ^ size_w.

#[export] Instance bloom_dom_dec p keys : Decision (bloom_dom p keys).
Proof. unfold bloom_dom. apply _. Defined.

(** "leveldb.BuiltinBloomFilter2" *)
Definition Bloom_Name : bytes := str "leveldb.BuiltinBloomFilter2".

Definition NewBloomFilterPolicy (char_signed : bool) (bits_per_key : Z) : FilterPolicy := {|
  FilterName := Bloom_Name;
  CreateFilter := Bloom_CreateFilter (mkBloomFilterPolicy bits_per_key);
  KeyMayMatch := Bloom_KeyMayMatch char_signed;
|}.

Lemma k_range bpk : 1 ≤ k_ (mkBloomFilterPolicy bpk) ≤ 30.
Proof. cbn. repeat case_decide; lia. Qed.

Lemma filter_bytes_pos p keys : bloom_dom p keys → 8 ≤ filter_bytes p (zlen keys).
Proof.
  unfold bloom_dom, filter_bytes. set (b := usize _).
  assert (in_w 32 b) by (apply wrap_range; lia).
  intros. case_decide; rewrite wrap_small; word_solve.
Qed.

Lemma char_val_small char_signed b : u8 b < 128 → char_val char_signed b = u8 b.
Proof. intros. unfold char_val. destruct char_signed; [|done]. by rewrite decide_True. Qed.

Lemma zget_last s b : zget (s ++ [b]) (zlen (s ++ [b]) - 1) = b.
Proof.
  unfold zget. rewrite app_nth2; unfold zlen; rewrite length_app; cbn [length]; [|lia].
  by replace (_ - _)%nat with 0%nat by lia.
Qed.

#[export] Instance NewBloomFilterPolicy_laws char_signed bpk :
  FilterPolicyLaws (NewBloomFilterPolicy char_signed bpk) (bloom_dom (mkBloomFilterPolicy bpk)).
Proof.
  split; cbn [CreateFilter KeyMayMatch NewBloomFilterPolicy]; [done|].
  intros keys key Hdom Hin. set (p := mkBloomFilterPolicy bpk) in *.
  pose proof (filter_bytes_pos p keys Hdom) as Hpos. pose proof (k_range bpk) as Hk.
  fold p in Hk. unfold Bloom_CreateFilter, Bloom_KeyMayMatch. cbn [app].
  set (nb := filter_bytes p (zlen keys)) in *.
  set (array := replicate (Z.to_nat nb) Byte.x00).
  assert (zlen array = nb) as Hlen by (apply zlen_replicate; lia).
  destruct (add_keys_spec (k_ p) (nb * 8) keys array) as (Hl & _ & Hmatch); [lia|lia|].
  set (a := fold_left _ keys array) in *.
  assert (zlen (a ++ [b8 (k_ p)]) = nb + 1) as Hz by zsolve.
  rewrite zget_last. rewrite decide_False by lia.
  rewrite char_val_small by (rewrite u8_b8_small; lia).
  rewrite u8_b8_small, wrap_small by word_solve. rewrite decide_False by lia.
  rewrite Hz. replace ((nb + 1 - 1) * 8) with (nb * 8) by lia.
  rewrite match_probes_app by lia. by apply Hmatch.
Qed.

Lemma zlen_add_probes j bits h delta array : zlen (add_probes j bits h delta array) = zlen array.
Proof. revert h array. induction j as [|j IH]; intros h array; [done|]. cbn. by rewrite IH, zlen_set_bit. Qed.

Lemma zlen_add_keys k bits keys array : zlen (fold_left (add_key k bits) keys array) = zlen array.
Proof.
  revert array. induction keys as [|key keys IH]; intros array; [done|]. cbn. rewrite IH. apply zlen_add_probes.
Qed.

(** A filter takes a number of bytes that is proportional to its keys. *)
Lemma zlen_Bloom_CreateFilter bpk keys :
  0 ≤ bpk → keys ≠ [] → zlen (Bloom_CreateFilter (mkBloomFilterPolicy bpk) keys []) ≤ (bpk + 10) * zlen keys.
Proof.
  intros Hb Hne. assert (1 ≤ zlen keys) as Hk by (destruct keys; [done|rewrite zlen_cons; zlen_facts; lia]).
  unfold Bloom_CreateFilter. cbn [app]. rewrite zlen_app, zlen_add_keys.
  assert (0 ≤ filter_bytes (mkBloomFilterPolicy bpk) (zlen keys) ≤ bpk * zlen keys + 9) as Hf.
  { unfold filter_bytes. change (bits_per_key_ _) with bpk.
    assert (0 ≤ usize (zlen keys * bpk) ≤ zlen keys * bpk) as Hu.
    { split; [apply wrap_range; lia|]. apply Z.mod_le; [nia|done]. }
    set (b := if decide _ then _ else _). assert (0 ≤ b ≤ zlen keys * bpk + 64) as Hb' by (unfold b; case_decide; lia).
    assert (0 ≤ usize (b + 7) ≤ b + 7) as Hu2.
    { split; [apply wrap_range; lia|]. apply Z.mod_le; [lia|done]. }
    clearbody b. Z.div_mod_to_equations. nia. }
  rewrite zlen_replicate by lia. change (zlen [_]) with 1. nia.
Qed.

(** C6: the Bloom filter has no false negatives, on either ABI: a key the
    filter was built from always matches it; and the filter is appended to the
    destination string as [filter_bytes] bytes of bits and the probe count. *)
Theorem Bloom_no_false_negative char_signed bpk keys dst :
  let p := mkBloomFilterPolicy bpk in
  bloom_dom p keys →
  ∃ f, Bloom_CreateFilter p keys dst = dst ++ f ∧ zlen f = filter_bytes p (zlen keys) + 1 ∧
    ∀ key, key ∈ keys → Bloom_KeyMayMatch char_signed key f = true.
Proof.
  intros p Hdom. exists (Bloom_CreateFilter p keys []).
  pose proof (NewBloomFilterPolicy_laws char_signed bpk) as HL.
  splits; [done| |].
  - pose proof (filter_bytes_pos p keys Hdom) as Hpos. unfold Bloom_CreateFilter.
    cbn [app]. rewrite zlen_app. change (zlen [_]) with 1. f_equal.
    rewrite <- (zlen_replicate (filter_bytes p (zlen keys)) Byte.x00) at 3 by lia.
    apply add_keys_spec; rewrite ?zlen_replicate by lia; lia.
  - intros key Hin. exact (CreateFilter_match (FilterPolicyLaws := HL) keys key Hdom Hin).
Qed.

Lemma Bloom_no_false_negative_witness :
  ∃ f, Bloom_CreateFilter (mkBloomFilterPolicy 10) [str "a"; str "level"] [] = [] ++ f ∧
    zlen f = 9 ∧
    ∀ key, key ∈ [str "a"; str "level"] → Bloom_KeyMayMatch true key f = true.
Proof.
  exact (Bloom_no_false_negative true 10 [str "a"; str "level"] [] ltac:(decide_now)).
Defined.
