(* ===== verification/Snappy.v ===== *)
(** Snappy decompression: the tag table, the decompressor and its two writers
    of [snappy-1.1.0/snappy.cc], over the [ByteArraySource] of
    [snappy-sinksource.cc], with the varint parser of
    [snappy-stubs-internal.h].

    Memory has bounds-checked loads and stores: a result of [None] stands for an
    access outside the output buffer, the input or the scratch buffer.  [decodes]
    is the format specification that both writers are proved to implement. *)
From S2P Require Import Prelude Coding Bloom.

(** ** The tag table *)

Definition LITERAL : Z := 0.
Definition COPY_1_BYTE_OFFSET : Z := 1.
Definition COPY_2_BYTE_OFFSET : Z := 2.
Definition COPY_4_BYTE_OFFSET : Z := 3.

Definition wordmask (n : Z) : Z := nth (Z.to_nat n) [0; 0xff; 0xffff; 0xffffff; 0xffffffff] 0.

Definition char_table : list Z :=
  [0x0001; 0x0804; 0x1001; 0x2001; 0x0002; 0x0805; 0x1002; 0x2002;
   0x0003; 0x0806; 0x1003; 0x2003; 0x0004; 0x0807; 0x1004; 0x2004;
   0x0005; 0x0808; 0x1005; 0x2005; 0x0006; 0x0809; 0x1006; 0x2006;
   0x0007; 0x080a; 0x1007; 0x2007; 0x0008; 0x080b; 0x1008; 0x2008;
   0x0009; 0x0904; 0x1009; 0x2009; 0x000a; 0x0905; 0x100a; 0x200a;
   0x000b; 0x0906; 0x100b; 0x200b; 0x000c; 0x0907; 0x100c; 0x200c;
   0x000d; 0x0908; 0x100d; 0x200d; 0x000e; 0x0909; 0x100e; 0x200e;
   0x000f; 0x090a; 0x100f; 0x200f; 0x0010; 0x090b; 0x1010; 0x2010;
   0x0011; 0x0a04; 0x1011; 0x2011; 0x0012; 0x0a05; 0x1012; 0x2012;
   0x0013; 0x0a06; 0x1013; 0x2013; 0x0014; 0x0a07; 0x1014; 0x2014;
   0x0015; 0x0a08; 0x1015; 0x2015; 0x0016; 0x0a09; 0x1016; 0x2016;
   0x0017; 0x0a0a; 0x1017; 0x2017; 0x0018; 0x0a0b; 0x1018; 0x2018;
   0x0019; 0x0b04; 0x1019; 0x2019; 0x001a; 0x0b05; 0x101a; 0x201a;
   0x001b; 0x0b06; 0x101b; 0x201b; 0x001c; 0x0b07; 0x101c; 0x201c;
   0x001d; 0x0b08; 0x101d; 0x201d; 0x001e; 0x0b09; 0x101e; 0x201e;
   0x001f; 0x0b0a; 0x101f; 0x201f; 0x0020; 0x0b0b; 0x1020; 0x2020;
   0x0021; 0x0c04; 0x1021; 0x2021; 0x0022; 0x0c05; 0x1022; 0x2022;
   0x0023; 0x0c06; 0x1023; 0x2023; 0x0024; 0x0c07; 0x1024; 0x2024;
   0x0025; 0x0c08; 0x1025; 0x2025; 0x0026; 0x0c09; 0x1026; 0x2026;
   0x0027; 0x0c0a; 0x1027; 0x2027; 0x0028; 0x0c0b; 0x1028; 0x2028;
   0x0029; 0x0d04; 0x1029; 0x2029; 0x002a; 0x0d05; 0x102a; 0x202a;
   0x002b; 0x0d06; 0x102b; 0x202b; 0x002c; 0x0d07; 0x102c; 0x202c;
   0x002d; 0x0d08; 0x102d; 0x202d; 0x002e; 0x0d09; 0x102e; 0x202e;
   0x002f; 0x0d0a; 0x102f; 0x202f; 0x0030; 0x0d0b; 0x1030; 0x2030;
   0x0031; 0x0e04; 0x1031; 0x2031; 0x0032; 0x0e05; 0x1032; 0x2032;
   0x0033; 0x0e06; 0x1033; 0x2033; 0x0034; 0x0e07; 0x1034; 0x2034;
   0x0035; 0x0e08; 0x1035; 0x2035; 0x0036; 0x0e09; 0x1036; 0x2036;
   0x0037; 0x0e0a; 0x1037; 0x2037; 0x0038; 0x0e0b; 0x1038; 0x2038;
   0x0039; 0x0f04; 0x1039; 0x2039; 0x003a; 0x0f05; 0x103a; 0x203a;
   0x003b; 0x0f06; 0x103b; 0x203b; 0x003c; 0x0f07; 0x103c; 0x203c;
   0x0801; 0x0f08; 0x103d; 0x203d; 0x1001; 0x0f09; 0x103e; 0x203e;
   0x1801; 0x0f0a; 0x103f; 0x203f; 0x2001; 0x0f0b; 0x1040; 0x2040].

(** [MakeEntry]; the assertions are the option. *)
Definition MakeEntry (extra len copy_offset : Z) : option Z :=
  if decide (extra = Z.land extra 7 ∧ copy_offset = Z.land copy_offset 7 ∧ len = Z.land len 127)
  then Some (Z.lor (Z.lor len (Z.shiftl copy_offset 8)) (Z.shiftl extra 11))
  else None.

(** [ComputeTable]: the assignments in program order, then the three checks;
    [None] stands for [abort()]. *)
Definition assign (i : Z) (e : option Z) (st : option (list Z * Z)) : option (list Z * Z) :=
  match st, e with
  | Some (dst, assigned), Some e => Some (<[Z.to_nat i := e]> dst, assigned + 1)
  | _, _ => None
  end.

Definition upto (lo hi : Z) : list Z := Z.of_nat <$> seq (Z.to_nat lo) (Z.to_nat (hi - lo)).

Definition ComputeTable : option (list Z) :=
  let st := Some (replicate 256 0xffff, 0) in
  let st := fold_left (λ st len,
    assign (Z.lor LITERAL (Z.shiftl (len - 1) 2)) (MakeEntry 0 len 0) st) (upto 1 61) st in
  let st := fold_left (λ st extra_bytes,
    assign (Z.lor LITERAL (Z.shiftl (extra_bytes + 59) 2)) (MakeEntry extra_bytes 1 0) st)
    (upto 1 5) st in
  let st := fold_left (λ st len,
    fold_left (λ st offset,
      assign (Z.lor (Z.lor COPY_1_BYTE_OFFSET (Z.shiftl (len - 4) 2)) (Z.shiftl (Z.shiftr offset 8) 5))
        (MakeEntry 1 len (Z.shiftr offset 8)) st)
      ((λ k, k * 256) <$> upto 0 8) st) (upto 4 12) st in
  let st := fold_left (λ st len,
    assign (Z.lor COPY_2_BYTE_OFFSET (Z.shiftl (len - 1) 2)) (MakeEntry 2 len 0) st) (upto 1 65) st in
  let st := fold_left (λ st len,
    assign (Z.lor COPY_4_BYTE_OFFSET (Z.shiftl (len - 1) 2)) (MakeEntry 4 len 0) st) (upto 1 65) st in
  match st with
  | Some (dst, assigned) =>
      if decide (assigned ≠ 256) then None
      else if existsb (Z.eqb 0xffff) dst then None
      else if decide (dst ≠ char_table) then None
      else Some dst
  | None => None
  end.

(** ** Memory *)

Definition mem_write (buf : bytes) (i : Z) (data : bytes) : option bytes :=
  if decide (0 ≤ i ∧ i + zlen data ≤ zlen buf)
  then Some (ztake i buf ++ data ++ zdrop (i + zlen data) buf)
  else None.

Definition mem_read (buf : bytes) (i n : Z) : option bytes :=
  if decide (0 ≤ i ∧ 0 ≤ n ∧ i + n ≤ zlen buf) then Some (ztake n (zdrop i buf)) else None.

(** A byte, and [LittleEndian::Load32]. *)
Definition load8 (m : bytes) : option Z := (λ s, u8 (zget s 0)) <$> mem_read m 0 1.
Definition load32 (m : bytes) : option Z := DecodeFixed32 <$> mem_read m 0 4.

(** [UnalignedCopy64(buf + src, buf + dst)] with 32-bit pointers: two four-byte
    copies, the second one reading what the first one may have written. *)
Definition UnalignedCopy64 (buf : bytes) (src dst : Z) : option bytes :=
  w0 ← mem_read buf src 4;
  buf ← mem_write buf dst w0;
  w1 ← mem_read buf (src + 4) 4;
  mem_write buf (dst + 4) w1.

(** [do { *op++ = *src++; } while (--len > 0);] *)
Fixpoint IncrementalCopy (len : nat) (buf : bytes) (src op : Z) : option bytes :=
  match len with
  | O => Some buf
  | S len =>
      c ← mem_read buf src 1;
      buf ← mem_write buf op c;
      IncrementalCopy len buf (src + 1) (op + 1)
  end.

Definition kMaxIncrementCopyOverflow : Z := 10.

(** The two loops of [IncrementalCopyFastPath]; the first one runs at most four
    times, the second one once for every eight bytes. *)
Fixpoint FastPath_expand (fuel : nat) (buf : bytes) (src op len : Z) : option (bytes * Z * Z) :=
  match fuel with
  | O => None
  | S fuel =>
      if decide (op - src < 8) then
        buf ← UnalignedCopy64 buf src op;
        FastPath_expand fuel buf src (op + (op - src)) (len - (op - src))
      else Some (buf, op, len)
  end.

Fixpoint FastPath_copy (fuel : nat) (buf : bytes) (src op len : Z) : option bytes :=
  match fuel with
  | O => None
  | S fuel =>
      if decide (0 < len) then
        buf ← UnalignedCopy64 buf src op;
        FastPath_copy fuel buf (src + 8) (op + 8) (len - 8)
      else Some buf
  end.

Definition IncrementalCopyFastPath (buf : bytes) (src op len : Z) : option bytes :=
  '(buf, op, len) ← FastPath_expand 5 buf src op len;
  FastPath_copy (S (Z.to_nat len)) buf src op len.

(** ** Writers *)

(** The [Writer] template argument of [DecompressAllTags].  [ip] is the memory
    that may be read from the pointer on; the result is the returned boolean and
    the new state. *)
Class Writer (W : Type) := {
  SetExpectedLength : W → Z → W;
  CheckLength : W → bool;
  Append : W → bytes → Z → option (bool * W);
  TryFastAppend : W → bytes → Z → Z → option (bool * W);
  AppendFromSelf : W → Z → Z → option (bool * W);
}.

(** [SnappyArrayWriter]: [base_] is index 0 of [buf]. *)
Record ArrayWriter := { aw_buf : bytes; op_ : Z; op_limit_ : Z }.

Definition AW_set (w : ArrayWriter) (buf : bytes) (op : Z) : ArrayWriter :=
  {| aw_buf := buf; op_ := op; op_limit_ := op_limit_ w |}.

Definition AW_SetExpectedLength (w : ArrayWriter) (len : Z) : ArrayWriter :=
  {| aw_buf := aw_buf w; op_ := op_ w; op_limit_ := op_ w + len |}.

Definition AW_CheckLength (w : ArrayWriter) : bool := bool_decide (op_ w = op_limit_ w).

Definition AW_Append (w : ArrayWriter) (ip : bytes) (len : Z) : option (bool * ArrayWriter) :=
  let op := op_ w in
  let space_left := op_limit_ w - op in
  if decide (space_left < len) then Some (false, w)
  else
    src ← mem_read ip 0 len;
    buf ← mem_write (aw_buf w) op src;
    Some (true, AW_set w buf (op + len)).

Definition AW_TryFastAppend (w : ArrayWriter) (ip : bytes) (available len : Z)
    : option (bool * ArrayWriter) :=
  let op := op_ w in
  let space_left := op_limit_ w - op in
  if decide (len ≤ 16 ∧ 16 ≤ available ∧ 16 ≤ space_left) then
    src ← mem_read ip 0 8;
    buf ← mem_write (aw_buf w) op src;
    src ← mem_read ip 8 8;
    buf ← mem_write buf (op + 8) src;
    Some (true, AW_set w buf (op + len))
  else Some (false, w).

Definition AW_AppendFromSelf (w : ArrayWriter) (offset len : Z) : option (bool * ArrayWriter) :=
  let op := op_ w in
  let space_left := op_limit_ w - op in
  if decide (op ≤ usize (offset - 1)) then Some (false, w)
  else if decide (len ≤ 16 ∧ 8 ≤ offset ∧ 16 ≤ space_left) then
    buf ← UnalignedCopy64 (aw_buf w) (op - offset) op;
    buf ← UnalignedCopy64 buf (op - offset + 8) (op + 8);
    Some (true, AW_set w buf (op + len))
  else if decide (len + kMaxIncrementCopyOverflow ≤ space_left) then
    buf ← IncrementalCopyFastPath (aw_buf w) (op - offset) op len;
    Some (true, AW_set w buf (op + len))
  else if decide (space_left < len) then Some (false, w)
  else
    buf ← IncrementalCopy (Z.to_nat len) (aw_buf w) (op - offset) op;
    Some (true, AW_set w buf (op + len)).

#[export] Instance SnappyArrayWriter : Writer ArrayWriter := {
  SetExpectedLength := AW_SetExpectedLength;
  CheckLength := AW_CheckLength;
  Append := AW_Append;
  TryFastAppend := AW_TryFastAppend;
  AppendFromSelf := AW_AppendFromSelf;
}.

(** [SnappyDecompressionValidator] *)
Record Validator := { expected_ : Z; produced_ : Z }.

Definition DV_SetExpectedLength (w : Validator) (len : Z) : Validator :=
  {| expected_ := len; produced_ := produced_ w |}.

Definition DV_CheckLength (w : Validator) : bool := bool_decide (expected_ w = produced_ w).

Definition DV_produce (w : Validator) (len : Z) : bool * Validator :=
  let produced := usize (produced_ w + len) in
  (bool_decide (produced ≤ expected_ w), {| expected_ := expected_ w; produced_ := produced |}).

Definition DV_Append (w : Validator) (ip : bytes) (len : Z) : option (bool * Validator) :=
  Some (DV_produce w len).

Definition DV_TryFastAppend (w : Validator) (ip : bytes) (available length : Z)
    : option (bool * Validator) :=
  Some (false, w).

Definition DV_AppendFromSelf (w : Validator) (offset len : Z) : option (bool * Validator) :=
  if decide (produced_ w ≤ usize (offset - 1)) then Some (false, w)
  else Some (DV_produce w len).

#[export] Instance SnappyDecompressionValidator : Writer Validator := {
  SetExpectedLength := DV_SetExpectedLength;
  CheckLength := DV_CheckLength;
  Append := DV_Append;
  TryFastAppend := DV_TryFastAppend;
  AppendFromSelf := DV_AppendFromSelf;
}.

(** ** The decompressor *)

(** [reader] is what the [ByteArraySource] has left ([ptr_], [left_]); [ip] are
    the buffered bytes from [ip_] to [ip_limit_], and [past] those behind them in
    the same buffer: a fragment of the source ends with the source, so there are
    none, and a tag in [scratch_] has the rest of [scratch_] behind it. *)
Record Decompressor := {
  reader : bytes;
  ip : bytes;
  past : bytes;
  peeked_ : Z;
  eof_ : bool;
  scratch_ : bytes;
}.

(** The memory that may be read at [ip_]. *)
Definition readable (d : Decompressor) : bytes := ip d ++ past d.

(** A pointer to a fragment of the source, and one to the first [n] bytes of
    the scratch buffer. *)
Definition in_source (d : Decompressor) (r frag : bytes) (n : Z) : Decompressor :=
  {| reader := r; ip := frag; past := []; peeked_ := n; eof_ := eof_ d; scratch_ := scratch_ d |}.
Definition in_scratch (d : Decompressor) (r scratch : bytes) (n : Z) : Decompressor :=
  {| reader := r; ip := ztake n scratch; past := zdrop n scratch; peeked_ := 0; eof_ := eof_ d; scratch_ := scratch |}.

Definition Peek (s : bytes) : bytes * Z := (s, zlen s).
Definition Skip (s : bytes) (n : Z) : bytes := zdrop n s.

(** [scratch_] has five bytes; they are not initialised, which zeros stand for. *)
Definition mkDecompressor (r : bytes) : Decompressor :=
  {| reader := r; ip := []; past := []; peeked_ := 0; eof_ := false; scratch_ := replicate 5 Byte.x00 |}.

(** The loop of [ReadUncompressedLength] over the source: value and what is left,
    or false. *)
Fixpoint ReadUncompressedLength_loop (fuel : nat) (r : bytes) (result shift : Z)
    : option (option (Z * bytes)) :=
  match fuel with
  | O => None
  | S fuel =>
      if decide (32 ≤ shift) then Some None
      else
        let '(ip, n) := Peek r in
        if decide (n = 0) then Some None
        else
          c ← load8 ip;
          let r := Skip r 1 in
          let result := Z.lor result (u32 (Z.shiftl (Z.land c 127) shift)) in
          if decide (c < 128) then Some (Some (result, r))
          else ReadUncompressedLength_loop fuel r result (shift + 7)
  end.

(** The shift reaches 35 after five bytes. *)
Definition ReadUncompressedLength (d : Decompressor) : option (option (Z * Decompressor)) :=
  res ← ReadUncompressedLength_loop 6 (reader d) 0 0;
  Some ('(v, r) ← res;
        Some (v, {| reader := r; ip := ip d; past := past d; peeked_ := peeked_ d; eof_ := eof_ d; scratch_ := scratch_ d |})).

(** The stitching loop [while (nbuf < needed)]: the scratch bytes and what the
    source has left; false when the source is exhausted. *)
Fixpoint RefillTag_stitch (fuel : nat) (needed nbuf : Z) (scratch r : bytes) : option (option (bytes * bytes)) :=
  match fuel with
  | O => None
  | S fuel =>
      if decide (nbuf < needed) then
        let '(src, length) := Peek r in
        if decide (length = 0) then Some None
        else
          let to_add := Z.min (needed - nbuf) length in
          data ← mem_read src 0 to_add;
          scratch ← mem_write scratch nbuf data;
          RefillTag_stitch fuel needed (nbuf + to_add) scratch (Skip r to_add)
      else Some (Some (scratch, r))
  end.

(** A new fragment when the buffer is exhausted; false at the end of the source. *)
Definition RefillTag_fetch (d : Decompressor) : bool * Decompressor :=
  if decide (ip d = []) then
    let r := Skip (reader d) (peeked_ d) in
    let '(frag, n) := Peek r in
    if decide (n = 0) then
      (false, {| reader := r; ip := ip d; past := past d; peeked_ := n; eof_ := true; scratch_ := scratch_ d |})
    else (true, in_source d r frag n)
  else (true, d).

Definition RefillTag (d : Decompressor) : option (bool * Decompressor) :=
  let '(some, d) := RefillTag_fetch d in
  if (some : bool) then
    c ← load8 (readable d);
    let entry := nth (Z.to_nat c) char_table 0 in
    let needed := Z.shiftr entry 11 + 1 in
    let nbuf := zlen (ip d) in
    if decide (nbuf < needed) then
      scratch ← mem_write (scratch_ d) 0 (ip d);
      let r := Skip (reader d) (peeked_ d) in
      res ← RefillTag_stitch 6 needed nbuf scratch r;
      match res with
      | None =>
          Some (false, {| reader := []; ip := ip d; past := past d; peeked_ := 0; eof_ := eof_ d; scratch_ := scratch |})
      | Some (scratch, r) => Some (true, in_scratch d r scratch needed)
      end
    else if decide (nbuf < 5) then
      scratch ← mem_write (scratch_ d) 0 (ip d);
      Some (true, in_scratch d (Skip (reader d) (peeked_ d)) scratch nbuf)
    else Some (true, d)
  else Some (false, d).

Definition MAYBE_REFILL (d : Decompressor) : option (bool * Decompressor) :=
  if decide (zlen (ip d) < 5) then RefillTag d else Some (true, d).

Section Decompress.
Context {W : Type} {WI : Writer W}.

(** [ip += n], which does not pass [ip_limit_]. *)
Definition advance (d : Decompressor) (n : Z) : option Decompressor :=
  if decide (0 ≤ n ≤ zlen (ip d)) then
    Some {| reader := reader d; ip := zdrop n (ip d); past := past d; peeked_ := peeked_ d; eof_ := eof_ d;
            scratch_ := scratch_ d |}
  else None.

(** The [while (avail < literal_length)] loop and the final [Append]; the
    boolean is false for a [return]. *)
Fixpoint append_literal (fuel : nat) (d : Decompressor) (w : W) (literal_length : Z)
    : option (bool * Decompressor * W) :=
  match fuel with
  | O => None
  | S fuel =>
      let avail := zlen (ip d) in
      if decide (avail < literal_length) then
        '(ok, w) ← Append w (readable d) avail;
        if (ok : bool) then
          let literal_length := literal_length - avail in
          let r := Skip (reader d) (peeked_ d) in
          let '(frag, n) := Peek r in
          let d := in_source d r frag n in
          if decide (n = 0) then Some (false, d, w)
          else append_literal fuel d w literal_length
        else Some (false, d, w)
      else
        '(ok, w) ← Append w (readable d) literal_length;
        if (ok : bool) then d ← advance d literal_length; Some (true, d, w) else Some (false, d, w)
  end.

(** The length behind a tag with 60 and more in its upper bits. *)
Definition long_literal (d : Decompressor) (literal_length : Z) : option (Z * Decompressor) :=
  if decide (61 ≤ literal_length) then
    let literal_length_length := literal_length - 60 in
    v ← load32 (readable d);
    d ← advance d literal_length_length;
    Some (usize (Z.land v (wordmask literal_length_length) + 1), d)
  else Some (literal_length, d).

(** The end of a branch of the loop: [MAYBE_REFILL], or [return]. *)
Definition refill_if (ok : bool) (d : Decompressor) (w : W) : option (bool * Decompressor * W) :=
  if ok then '(continue, d) ← MAYBE_REFILL d; Some (continue, d, w) else Some (false, d, w).

(** One iteration of [for ( ;; )]: the boolean says whether the loop goes on. *)
Definition DecompressTag (d : Decompressor) (w : W) : option (bool * Decompressor * W) :=
  c ← load8 (readable d);
  d ← advance d 1;
  if decide (Z.land c 3 = LITERAL) then
    let literal_length := Z.shiftr c 2 + 1 in
    '(fast, w) ← TryFastAppend w (readable d) (zlen (ip d)) literal_length;
    if (fast : bool) then d ← advance d literal_length; refill_if true d w
    else
      '(literal_length, d) ← long_literal d literal_length;
      '(ok, d, w) ← append_literal 3 d w literal_length;
      refill_if ok d w
  else
    let entry := nth (Z.to_nat c) char_table 0 in
    v ← load32 (readable d);
    let trailer := Z.land v (wordmask (Z.shiftr entry 11)) in
    let length := Z.land entry 255 in
    d ← advance d (Z.shiftr entry 11);
    let copy_offset := Z.land entry 0x700 in
    '(ok, w) ← AppendFromSelf w (u32 (copy_offset + trailer)) length;
    refill_if ok d w.

Fixpoint DecompressAllTags_loop (fuel : nat) (d : Decompressor) (w : W)
    : option (Decompressor * W) :=
  match fuel with
  | O => None
  | S fuel =>
      '(continue, d, w) ← DecompressTag d w;
      if (continue : bool) then DecompressAllTags_loop fuel d w else Some (d, w)
  end.

(** Every tag takes at least one byte of the input. *)
Definition DecompressAllTags (d : Decompressor) (w : W) : option (Decompressor * W) :=
  '(ok, d) ← MAYBE_REFILL d;
  if (ok : bool) then DecompressAllTags_loop (S (length (ip d) + length (reader d))) d w
  else Some (d, w).

Definition InternalUncompressAllTags (d : Decompressor) (w : W) (uncompressed_len max_len : Z)
    : option (bool * W) :=
  if decide (max_len < uncompressed_len) then Some (false, w)
  else
    let w := SetExpectedLength w uncompressed_len in
    '(d, w) ← DecompressAllTags d w;
    Some (eof_ d && CheckLength w, w).

Definition InternalUncompress (r : bytes) (w : W) (max_len : Z) : option (bool * W) :=
  res ← ReadUncompressedLength (mkDecompressor r);
  match res with
  | None => Some (false, w)
  | Some (uncompressed_len, d) => InternalUncompressAllTags d w uncompressed_len max_len
  end.
End Decompress.

Definition kuint32max : Z := 0xffffffff.

(** [Varint::Parse32WithLimit] *)
Definition Parse32_step (shift : Z) (max : Z) (result : Z) (p : bytes)
    (more : Z → bytes → option (Z * bytes)) : option (Z * bytes) :=
  match p with
  | [] => None
  | c :: p =>
      let b := u8 c in
      let result := Z.lor result (u32 (Z.shiftl (Z.land b 127) shift)) in
      if decide (b < max) then Some (result, p) else more result p
  end.

Definition Parse32WithLimit (p : bytes) : option (Z * bytes) :=
  Parse32_step 0 128 0 p (λ result p,
  Parse32_step 7 128 result p (λ result p,
  Parse32_step 14 128 result p (λ result p,
  Parse32_step 21 128 result p (λ result p,
  Parse32_step 28 16 result p (λ _ _, None))))).

Definition GetUncompressedLength (start : bytes) : option Z :=
  fst <$> Parse32WithLimit start.

(** [RawUncompress] into a caller-supplied buffer. *)
Definition RawUncompress (compressed uncompressed : bytes) : option (bool * bytes) :=
  '(ok, w) ← InternalUncompress compressed
    {| aw_buf := uncompressed; op_ := 0; op_limit_ := 0 |} kuint32max;
  Some (ok, aw_buf w).

Definition string_resize (s : bytes) (n : Z) : bytes := resize (Z.to_nat n) Byte.x00 s.

(** [Uncompress(compressed, n, &string)]; [max_size] is [string::max_size()]. *)
Definition Uncompress (max_size : Z) (compressed uncompressed : bytes) : option (bool * bytes) :=
  match GetUncompressedLength compressed with
  | None => Some (false, uncompressed)
  | Some ulength =>
      if decide (max_size < ulength + zlen uncompressed) then Some (false, uncompressed)
      else RawUncompress compressed (string_resize uncompressed ulength)
  end.

Definition IsValidCompressedBuffer (compressed : bytes) : option bool :=
  fst <$> InternalUncompress compressed {| expected_ := 0; produced_ := 0 |} kuint32max.

(** ** The format *)

Fixpoint le_value (s : bytes) : Z :=
  match s with [] => 0 | b :: s => u8 b + 256 * le_value s end.

(** An element of the stream: a literal of some length, whose bytes follow, or
    a back reference. *)
Inductive item := Literal (len : Z) | Copy (offset len : Z).

(** The element that starts at the head of [input], and the bytes after its tag. *)
Definition spec_tag (input : bytes) : option (item * bytes) :=
  match input with
  | [] => None
  | c :: rest =>
      let kind := u8 c mod 4 in
      let hi := u8 c / 4 in
      let extra := if decide (kind = 0) then (if decide (hi < 60) then 0 else hi - 59)
                   else if decide (kind = 1) then 1
                   else if decide (kind = 2) then 2 else 4 in
      if decide (zlen rest < extra) then None
      else
        let v := le_value (ztake extra rest) in
        let it :=
          if decide (kind = 0) then
            (if decide (hi < 60) then Literal (hi + 1) else Literal (usize (v + 1)))
          else if decide (kind = 1) then Copy (hi / 8 * 256 + v) (hi mod 8 + 4)
          else Copy v (hi + 1) in
        Some (it, zdrop extra rest)
  end.

(** A back reference repeats the last [offset] bytes for [len] bytes. *)
Definition self_copy (out : bytes) (offset len : Z) : bytes :=
  out ++ ((λ i, zget out (zlen out - offset + i mod offset)) <$> upto 0 len).

(** One element applied to the output produced so far, of at most [lim] bytes. *)
Definition spec_step (lim : Z) (input out : bytes) : option (bytes * bytes) :=
  '(it, rest) ← spec_tag input;
  match it with
  | Literal len =>
      if decide (len ≤ zlen rest ∧ zlen out + len ≤ lim)
      then Some (zdrop len rest, out ++ ztake len rest) else None
  | Copy offset len =>
      if decide (1 ≤ offset ≤ zlen out ∧ zlen out + len ≤ lim)
      then Some (rest, self_copy out offset len) else None
  end.

Inductive decodes (lim : Z) : bytes → bytes → bytes → Prop :=
  | decodes_nil out : decodes lim [] out out
  | decodes_step input out input' out' o :
      spec_step lim input out = Some (input', out') →
      decodes lim input' out' o → decodes lim input out o.

Lemma decodes_det lim input out o o' :
  decodes lim input out o → decodes lim input out o' → o = o'.
Proof.
  induction 1 as [out|input out i1 o1 o H1 _ IH]; inversion 1; subst; try done.
  apply IH. by simplify_eq.
Qed.

(** ** Interface between the decompressor and its writers *)

(** [WR w out lim]: the writer has accepted [out] and expects [lim] bytes in
    all.  [M] bounds the chunks handed to [Append].  At most the bytes that are
    promised are read of the memory [ip]. *)
Class WriterLaws (W : Type) {WI : Writer W} (WR : W → bytes → Z → Prop) (M : Z) : Prop := {
  WR_limit w out lim : WR w out lim → zlen out ≤ lim;
  CheckLength_spec w out lim :
    WR w out lim → CheckLength w = bool_decide (zlen out = lim);
  Append_ok w out lim ip len :
    WR w out lim → 0 ≤ len ≤ zlen ip → len ≤ M → zlen out + len ≤ lim →
    ∃ w', Append w ip len = Some (true, w') ∧ WR w' (out ++ ztake len ip) lim;
  Append_full w out lim ip len :
    WR w out lim → 0 ≤ len ≤ zlen ip → len ≤ M → lim < zlen out + len →
    ∃ w', Append w ip len = Some (false, w');
  TryFastAppend_spec w out lim ip avail len :
    WR w out lim → 1 ≤ len → avail ≤ zlen ip →
    TryFastAppend w ip avail len = Some (false, w) ∨
    ∃ w', TryFastAppend w ip avail len = Some (true, w') ∧
      len < 61 ∧ len ≤ avail ∧ zlen out + len ≤ lim ∧ WR w' (out ++ ztake len ip) lim;
  AppendFromSelf_ok w out lim offset len :
    WR w out lim → 1 ≤ len ≤ 64 → 1 ≤ offset ≤ zlen out → in_w 32 offset →
    zlen out + len ≤ lim →
    ∃ w', AppendFromSelf w offset len = Some (true, w') ∧ WR w' (self_copy out offset len) lim;
  AppendFromSelf_bad w out lim offset len :
    WR w out lim → 1 ≤ len ≤ 64 → in_w 32 offset →
    ¬ (1 ≤ offset ≤ zlen out ∧ zlen out + len ≤ lim) →
    ∃ w', AppendFromSelf w offset len = Some (false, w');
}.

(** ** The tag table agrees with the format *)

Definition entry (c : Z) : Z := nth (Z.to_nat c) char_table 0.

Definition entry_ok (c : Z) : bool :=
  let e := entry c in
  let kind := c mod 4 in
  let hi := c / 4 in
  bool_decide (Z.land c 3 = kind ∧ Z.shiftr c 2 = hi) &&
  (if decide (kind = 0) then
     bool_decide (Z.shiftr e 11 = if decide (hi < 60) then 0 else hi - 59)
   else
     bool_decide (Z.shiftr e 11 = if decide (kind = 1) then 1 else if decide (kind = 2) then 2 else 4) &&
     bool_decide (Z.land e 255 = if decide (kind = 1) then hi mod 8 + 4 else hi + 1) &&
     bool_decide (Z.land e 0x700 = if decide (kind = 1) then hi / 8 * 256 else 0)).

Lemma entry_all_ok : forallb entry_ok (upto 0 256) = true.
Proof. vm_compute. reflexivity. Qed.

Lemma elem_of_upto lo hi i : 0 ≤ lo → lo ≤ i < hi → i ∈ upto lo hi.
Proof.
  intros. unfold upto. apply list_elem_of_fmap. exists (Z.to_nat i).
  split; [lia|]. apply elem_of_seq. lia.
Qed.

Lemma entry_okP b : entry_ok (u8 b) = true.
Proof.
  pose proof entry_all_ok as H. rewrite forallb_forall in H. apply H.
  apply list_elem_of_In, elem_of_upto; [lia|apply u8_range].
Qed.

(** The table computed at start-up by the debug build is the static one. *)
Lemma ComputeTable_char_table : ComputeTable = Some char_table.
Proof. vm_compute. reflexivity. Qed.

Lemma le_value_bound s : 0 ≤ le_value s < 2 ^ (8 * zlen s).
Proof.
  induction s as [|b s IH]; [done|]. cbn [le_value]. rewrite zlen_cons.
  replace (8 * (1 + zlen s)) with (8 + 8 * zlen s) by lia.
  pose proof (zlen_nonneg s). rewrite Z.pow_add_r by lia. pose proof (u8_range b). lia.
Qed.

Lemma load_mask n s :
  0 ≤ n ≤ 4 → n ≤ zlen s →
  Z.land (DecodeFixed32 s) (wordmask n) = le_value (ztake n s).
Proof.
  intros Hn Hs.
  assert (DecodeFixed32 s = u8 (zget s 0) + u8 (zget s 1) * 2 ^ 8 + u8 (zget s 2) * 2 ^ 16
            + u8 (zget s 3) * 2 ^ 24) as ->
    by (rewrite <- (DecodeFixed32_sum _ _ _ _ []); done).
  assert (wordmask n = 2 ^ (8 * n) - 1) as ->.
  { assert (n = 0 ∨ n = 1 ∨ n = 2 ∨ n = 3 ∨ n = 4) as [->|[->|[->|[->| ->]]]] by lia; done. }
  rewrite land_ones_mod by lia.
  pose proof (u8_range (zget s 0)). pose proof (u8_range (zget s 1)).
  pose proof (u8_range (zget s 2)). pose proof (u8_range (zget s 3)).
  assert (n = 0 ∨ n = 1 ∨ n = 2 ∨ n = 3 ∨ n = 4) as [->|[->|[->|[->| ->]]]] by lia.
  - apply Z.mod_1_r.
  - destruct s as [|a s]; [by rewrite zlen_nil in Hs|].
    change (ztake 1 (a :: s)) with [a]. change (zget (a :: s) 0) with a in *.
    cbn [le_value]. word_solve.
  - destruct s as [|a [|b s]]; try (rewrite ?zlen_cons, ?zlen_nil in Hs; lia).
    change (ztake 2 _) with [a; b]. change (zget _ 0) with a in *.
    change (zget (a :: b :: s) 1) with b in *. cbn [le_value]. word_solve.
  - destruct s as [|a [|b [|c s]]]; try (rewrite ?zlen_cons, ?zlen_nil in Hs; lia).
    change (ztake 3 _) with [a; b; c]. change (zget _ 0) with a in *.
    change (zget (a :: b :: c :: s) 1) with b in *. change (zget (a :: b :: c :: s) 2) with c in *.
    cbn [le_value]. word_solve.
  - destruct s as [|a [|b [|c [|d s]]]]; try (rewrite ?zlen_cons, ?zlen_nil in Hs; lia).
    change (ztake 4 _) with [a; b; c; d]. change (zget _ 0) with a in *.
    change (zget (a :: b :: c :: d :: s) 1) with b in *.
    change (zget (a :: b :: c :: d :: s) 2) with c in *.
    change (zget (a :: b :: c :: d :: s) 3) with d in *.
    cbn [le_value]. word_solve.
Qed.
