(* ===== verification/SnappyUncompress.v ===== *)
(** Correctness of Snappy decompression: both writers satisfy the writer
    interface (in particular the array writer never leaves its buffer), and the
    decompressor driven by any such writer implements [decodes]. *)
From S2P Require Import Prelude Coding Bloom Snappy.

(** [lim] bytes of output for a compressed stream with its length prefix. *)
Definition spec_uncompress (compressed o : bytes) : Prop :=
  ∃ lim rest, ReadUncompressedLength_loop 6 compressed 0 0 = Some (Some (lim, rest)) ∧
    decodes lim rest [] o ∧ zlen o = lim.

(** ** Memory *)

Lemma mem_write_spec buf i data :
  0 ≤ i → i + zlen data ≤ zlen buf →
  ∃ buf', mem_write buf i data = Some buf' ∧ zlen buf' = zlen buf ∧
    ∀ j, 0 ≤ j → zget buf' j = if decide (i ≤ j < i + zlen data) then zget data (j - i)
                               else zget buf j.
Proof.
  intros Hi Hd. unfold mem_write. rewrite decide_True by done. eexists. split; [done|].
  pose proof (zlen_nonneg data) as Hn.
  assert (zlen (ztake i buf) = i) as Ht by (apply zlen_ztake; lia).
  assert (zlen (zdrop (i + zlen data) buf) = zlen buf - (i + zlen data)) as Hz
    by (apply zlen_zdrop; lia).
  split; [rewrite !zlen_app; lia|]. intros j Hj.
  destruct (decide (j < i)).
  - rewrite decide_False by lia. rewrite zget_app_l by lia. apply zget_ztake. lia.
  - rewrite zget_app_r by lia. rewrite Ht. case_decide.
    + apply zget_app_l. lia.
    + rewrite zget_app_r by lia. rewrite zget_zdrop by lia. f_equal. lia.
Qed.

Lemma mem_read_spec buf i n :
  0 ≤ i → 0 ≤ n → i + n ≤ zlen buf →
  ∃ s, mem_read buf i n = Some s ∧ zlen s = n ∧ ∀ j, 0 ≤ j < n → zget s j = zget buf (i + j).
Proof.
  intros Hi Hn Hz. unfold mem_read. rewrite decide_True by lia. eexists. split; [done|].
  split.
  - apply zlen_ztake. rewrite zlen_zdrop; lia.
  - intros j Hj. rewrite zget_ztake by lia. by rewrite zget_zdrop by lia.
Qed.

Lemma mem_read_app i n s t :
  0 ≤ i → 0 ≤ n → i + n ≤ zlen s → mem_read (s ++ t) i n = Some (ztake n (zdrop i s)).
Proof.
  intros. unfold mem_read. pose proof (zlen_nonneg t). rewrite decide_True by (rewrite zlen_app; lia).
  rewrite zdrop_app_le by lia. by rewrite ztake_app_le by (rewrite zlen_zdrop; lia).
Qed.

Lemma mem_read_0 n s : 0 ≤ n ≤ zlen s → mem_read s 0 n = Some (ztake n s).
Proof. intros. unfold mem_read. rewrite decide_True by lia. by rewrite zdrop_0. Qed.

Lemma load8_cons c s : load8 (c :: s) = Some (u8 c).
Proof.
  unfold load8. pose proof (zlen_nonneg s). rewrite mem_read_0 by (rewrite zlen_cons; lia). done.
Qed.

(** A load of four bytes of which [n] belong to a tag. *)
Lemma load32_mask n s t :
  0 ≤ n ≤ 4 → n ≤ zlen s → 4 ≤ zlen (s ++ t) →
  ∃ v, load32 (s ++ t) = Some v ∧ Z.land v (wordmask n) = le_value (ztake n s).
Proof.
  intros Hn Hs H4. unfold load32. rewrite mem_read_0 by lia. eexists. split; [done|].
  rewrite load_mask by (rewrite ?zlen_ztake; lia). f_equal.
  unfold ztake at 1 2. rewrite take_take, Nat.min_l by lia. fold (ztake n (s ++ t)). by rewrite ztake_app_le by lia.
Qed.

(** The bytes that precede the destination by the copy distance are copied. *)
Lemma UnalignedCopy64_spec buf src dst :
  0 ≤ src < dst → dst + 8 ≤ zlen buf →
  ∃ buf', UnalignedCopy64 buf src dst = Some buf' ∧ zlen buf' = zlen buf ∧
    ∀ j, 0 ≤ j →
      (j < dst → zget buf' j = zget buf j) ∧
      (dst ≤ j < dst + 8 → j - (dst - src) < dst → zget buf' j = zget buf (j - (dst - src))).
Proof.
  intros Hs Hd. unfold UnalignedCopy64.
  destruct (mem_read_spec buf src 4) as (w0 & -> & Hw0 & Hg0); [lia..|]. cbn [mbind option_bind].
  destruct (mem_write_spec buf dst w0) as (b1 & -> & Hb1 & Hg1); [lia..|]. cbn [mbind option_bind].
  destruct (mem_read_spec b1 (src + 4) 4) as (w1 & -> & Hw1 & Hg2); [lia..|]. cbn [mbind option_bind].
  destruct (mem_write_spec b1 (dst + 4) w1) as (b2 & -> & Hb2 & Hg3); [lia..|].
  exists b2. split; [done|]. split; [lia|]. intros j Hj. rewrite Hw1, Hw0 in *. split.
  - intros. rewrite Hg3, decide_False by lia. rewrite Hg1, decide_False by lia. done.
  - intros Hr Hlt. rewrite Hg3 by lia. case_decide.
    + rewrite Hg2 by lia. rewrite Hg1, decide_False by lia. f_equal. lia.
    + rewrite Hg1 by lia. rewrite decide_True by lia. rewrite Hg0 by lia. f_equal. lia.
Qed.

(** ** Copies with overlap *)

Lemma zlen_upto n : 0 ≤ n → zlen (upto 0 n) = n.
Proof. intros. unfold upto, zlen. rewrite length_fmap, length_seq. lia. Qed.

Lemma zlen_self_copy out offset len : 0 ≤ len → zlen (self_copy out offset len) = zlen out + len.
Proof. intros. unfold self_copy. by rewrite zlen_app, zlen_fmap, zlen_upto. Qed.

Lemma zget_fmap_upto (f : Z → byte) n i :
  0 ≤ i < n → zget (f <$> upto 0 n) i = f i.
Proof.
  intros. unfold zget, upto. rewrite nth_lookup, !list_lookup_fmap, lookup_seq_lt by lia.
  cbn. f_equal. lia.
Qed.

(** The byte a periodic extension of [out] has at position [j]. *)
Definition target (out : bytes) (offset j : Z) : byte :=
  if decide (j < zlen out - offset) then zget out j
  else zget out (zlen out - offset + (j - zlen out) mod offset).

Lemma zget_self_copy out offset len j :
  1 ≤ offset ≤ zlen out → 0 ≤ j < zlen out + len →
  zget (self_copy out offset len) j = target out offset j.
Proof.
  intros Ho Hj. unfold self_copy, target. destruct (decide (j < zlen out)).
  - rewrite zget_app_l by lia. case_decide; [done|]. f_equal.
    rewrite <- (Z.mod_unique (j - zlen out) offset (-1) (j - zlen out + offset)); lia.
  - rewrite zget_app_r by lia. rewrite decide_False by lia.
    apply (zget_fmap_upto (λ i, zget out (zlen out - offset + i mod offset))). lia.
Qed.

Lemma target_old out offset j :
  1 ≤ offset ≤ zlen out → 0 ≤ j < zlen out → target out offset j = zget out j.
Proof.
  intros. rewrite <- (zget_self_copy out offset 0) by lia.
  unfold self_copy. by rewrite zget_app_l by lia.
Qed.

Lemma target_period out offset j m :
  1 ≤ offset → zlen out - offset ≤ j - m * offset → 0 ≤ m →
  target out offset (j - m * offset) = target out offset j.
Proof.
  intros. unfold target. rewrite !decide_False by nia. do 2 f_equal.
  replace (j - m * offset - zlen out) with (j - zlen out + (- m) * offset) by lia.
  apply Z_mod_plus_full.
Qed.

Section Copy.
Variables (out : bytes) (offset : Z) (n : Z).
Hypothesis Hoff : 1 ≤ offset ≤ zlen out.

(** The first [upto] bytes of the buffer of [n] bytes are as they should be. *)
Definition good (buf : bytes) (upto : Z) : Prop :=
  zlen buf = n ∧ ∀ j, 0 ≤ j < upto → zget buf j = target out offset j.

Lemma good_copy8 buf src op m :
  good buf op → op - src = m * offset → 1 ≤ m → zlen out - offset ≤ src → op + 8 ≤ n →
  ∃ buf', UnalignedCopy64 buf src op = Some buf' ∧ good buf' (Z.min (op + 8) (op + (op - src))).
Proof.
  intros [Hz Hg] Hm Hm1 Hsrc Hn.
  assert (0 < op - src) by nia.
  destruct (UnalignedCopy64_spec buf src op) as (buf' & -> & Hz' & Hg'); [lia|lia|].
  exists buf'. split; [done|]. split; [lia|]. intros j Hj.
  destruct (Hg' j) as [H1 H2]; [lia|]. destruct (decide (j < op)).
  - rewrite H1 by done. apply Hg. lia.
  - rewrite H2 by lia. rewrite Hg by lia. rewrite Hm. apply target_period; lia.
Qed.

(** While the distance is below eight the destination has moved by at most
    three bytes, whence the ten bytes of slack. *)
Lemma expand_slack k : offset * 2 ^ k < 8 → 0 ≤ k → offset * 2 ^ k - offset ≤ 3.
Proof.
  intros H8 Hk. destruct (decide (k = 0)) as [->|]; [lia|].
  destruct (decide (k = 1)) as [->|]; [lia|]. destruct (decide (k = 2)) as [->|]; [lia|].
  replace k with (3 + (k - 3)) in H8 by lia. rewrite Z.pow_add_r in H8 by lia.
  assert (1 ≤ 2 ^ (k - 3)) by (apply (Z.pow_le_mono_r 2 0); lia). nia.
Qed.

Lemma FastPath_expand_spec fuel buf op len k :
  good buf op → op - (zlen out - offset) = offset * 2 ^ k → 0 ≤ k →
  zlen out + 11 ≤ n → 3 ≤ k + Z.of_nat fuel - 1 → (1 ≤ fuel)%nat →
  ∃ buf' op' len' m', FastPath_expand fuel buf (zlen out - offset) op len = Some (buf', op', len') ∧
    good buf' op' ∧ op' + len' = op + len ∧
    op' - (zlen out - offset) = m' * offset ∧ 1 ≤ m' ∧ 8 ≤ op' - (zlen out - offset).
Proof.
  revert buf op len k. induction fuel as [|fuel IH];
    intros buf op len k Hg Hk Hk0 Hn Hf Hf1; [lia|].
  assert (1 ≤ 2 ^ k) by (apply (Z.pow_le_mono_r 2 0); lia).
  cbn [FastPath_expand]. case_decide as H8.
  - pose proof (expand_slack k) as Hsl.
    destruct (good_copy8 buf (zlen out - offset) op (2 ^ k)) as (b & -> & Hb);
      [done|lia|done|lia|lia|]. cbn [mbind option_bind].
    rewrite Z.min_r in Hb by lia.
    destruct fuel as [|fuel].
    { replace k with (3 + (k - 3)) in Hk by lia. rewrite Z.pow_add_r in Hk by lia.
      assert (1 ≤ 2 ^ (k - 3)) by (apply (Z.pow_le_mono_r 2 0); lia). nia. }
    destruct (IH b (op + (op - (zlen out - offset))) (len - (op - (zlen out - offset))) (k + 1))
      as (b' & op' & len' & m' & E & ? & ? & ? & ? & ?); [done| |lia|lia|lia|lia|].
    + rewrite Z.pow_add_r by lia. lia.
    + exists b', op', len', m'. splits; try done; lia.
  - exists buf, op, len, (2 ^ k). splits; try done; lia.
Qed.

Lemma FastPath_copy_spec fuel buf src op len m :
  good buf op → op - src = m * offset → 1 ≤ m → 8 ≤ op - src → zlen out - offset ≤ src →
  op + len + 7 ≤ n → len ≤ 8 * (Z.of_nat fuel - 1) → (1 ≤ fuel)%nat →
  ∃ buf', FastPath_copy fuel buf src op len = Some buf' ∧ good buf' (op + len).
Proof.
  revert buf src op len. induction fuel as [|fuel IH];
    intros buf src op len Hg Hm Hm1 H8 Hsrc Hn Hf Hf1; [lia|].
  cbn [FastPath_copy]. case_decide as Hl.
  - destruct (good_copy8 buf src op m) as (b & -> & Hb); [done|done|done|lia|lia|].
    cbn [mbind option_bind]. rewrite Z.min_l in Hb by lia.
    destruct (IH b (src + 8) (op + 8) (len - 8)) as (b' & E & Hb'); [done|lia..|].
    exists b'. split; [done|]. by replace (op + len) with (op + 8 + (len - 8)) by lia.
  - exists buf. split; [done|]. destruct Hg as [Hz Hg]. split; [done|]. intros. apply Hg. lia.
Qed.

Lemma IncrementalCopyFastPath_spec buf len :
  good buf (zlen out) → 1 ≤ len → zlen out + len + kMaxIncrementCopyOverflow ≤ n →
  ∃ buf', IncrementalCopyFastPath buf (zlen out - offset) (zlen out) len = Some buf' ∧
    good buf' (zlen out + len).
Proof.
  unfold kMaxIncrementCopyOverflow. intros Hg Hl Hn. unfold IncrementalCopyFastPath.
  destruct (FastPath_expand_spec 5 buf (zlen out) len 0)
    as (b & op' & len' & m' & -> & Hb & Hsum & Hm & Hm1 & H8); [done|lia..|].
  cbn [mbind option_bind].
  destruct (FastPath_copy_spec (S (Z.to_nat len')) b (zlen out - offset) op' len' m')
    as (b' & E & Hb'); [done|lia..|].
  exists b'. split; [done|]. by rewrite <- Hsum.
Qed.

Lemma IncrementalCopy_spec len buf op :
  good buf op → zlen out ≤ op → op + Z.of_nat len ≤ n →
  ∃ buf', IncrementalCopy len buf (op - offset) op = Some buf' ∧ good buf' (op + Z.of_nat len).
Proof.
  revert buf op. induction len as [|len IH]; intros buf op Hg Hop Hn.
  { exists buf. split; [done|]. by rewrite Z.add_0_r. }
  pose proof Hg as [Hz Hb]. cbn [IncrementalCopy].
  destruct (mem_read_spec buf (op - offset) 1) as (c & -> & Hc & Hgc); [lia..|].
  cbn [mbind option_bind].
  destruct (mem_write_spec buf op c) as (b & -> & Hzb & Hgb); [lia..|]. cbn [mbind option_bind].
  replace (op - offset + 1) with (op + 1 - offset) by lia.
  destruct (IH b (op + 1)) as (b' & E & Hb'); [|lia|lia|].
  - split; [lia|]. intros j Hj. rewrite Hgb by lia. case_decide.
    + replace j with op by lia. rewrite Hgc by lia. rewrite Hb by lia.
      replace (op - offset + (op - op)) with (op - 1 * offset) by lia.
      apply target_period; lia.
    + apply Hb. lia.
  - exists b'. split; [done|]. by replace (op + Z.of_nat (S len)) with (op + 1 + Z.of_nat len) by lia.
Qed.

Lemma good_self_copy buf len :
  good buf (zlen out + len) → 0 ≤ len → zlen out + len ≤ n →
  ztake (zlen out + len) buf = self_copy out offset len.
Proof.
  intros [Hz Hg] Hl Hn.
  assert (zlen (ztake (zlen out + len) buf) = zlen out + len) as Hzt by (apply zlen_ztake; lia).
  apply zget_ext; [by rewrite zlen_self_copy|].
  intros i Hi. rewrite zget_ztake by lia. rewrite zget_self_copy by lia. apply Hg. lia.
Qed.

Lemma good_init buf :
  zlen buf = n → ztake (zlen out) buf = out → good buf (zlen out).
Proof.
  intros Hz Ht. split; [done|]. intros j Hj. rewrite target_old by lia.
  rewrite <- (zget_ztake (zlen out) buf) by done. by rewrite Ht.
Qed.
End Copy.

(** ** The array writer *)

(** The buffer of [N] bytes holds the output so far and has room for the
    expected length. *)
Definition AW_inv (N : Z) (w : ArrayWriter) (out : bytes) (lim : Z) : Prop :=
  op_ w = zlen out ∧ op_limit_ w = lim ∧ zlen out ≤ lim ∧ (lim ≤ zlen (aw_buf w) ∧ zlen (aw_buf w) = N) ∧
  lim < 2 ^ 32 ∧ ztake (zlen out) (aw_buf w) = out.

Section ArrayWriter.
Context {N : Z}.
#[local] Abbreviation AW_inv := (AW_inv N).

Lemma AW_set_inv w out lim buf out' :
  AW_inv w out lim → zlen out' ≤ lim → zlen buf = zlen (aw_buf w) →
  ztake (zlen out') buf = out' → AW_inv (AW_set w buf (zlen out')) out' lim.
Proof. intros (H1 & H2 & H3 & [H4 HN] & H5 & H6) Hl Hz Ht. unfold AW_inv, SnappyUncompress.AW_inv; cbn. splits; lia || done. Qed.

Lemma write_extend buf out data buf' :
  ztake (zlen out) buf = out → zlen out + zlen data ≤ zlen buf →
  zlen buf' = zlen buf →
  (∀ j, 0 ≤ j < zlen out → zget buf' j = zget buf j) →
  (∀ j, zlen out ≤ j < zlen out + zlen data → zget buf' j = zget data (j - zlen out)) →
  ztake (zlen out + zlen data) buf' = out ++ data.
Proof.
  intros Ht Hz Hz' Hold Hnew. pose proof (zlen_nonneg out). pose proof (zlen_nonneg data).
  assert (zlen (ztake (zlen out + zlen data) buf') = zlen out + zlen data)
    by (apply zlen_ztake; lia).
  apply zget_ext; [rewrite zlen_app; lia|]. intros i Hi. rewrite zget_ztake by lia.
  destruct (decide (i < zlen out)).
  - rewrite Hold, zget_app_l by lia. rewrite <- (zget_ztake (zlen out) buf) by lia. by rewrite Ht.
  - rewrite Hnew, zget_app_r by lia. done.
Qed.

Lemma AW_write w out lim data :
  AW_inv w out lim → zlen out + zlen data ≤ lim →
  ∃ buf, mem_write (aw_buf w) (op_ w) data = Some buf ∧
    AW_inv (AW_set w buf (op_ w + zlen data)) (out ++ data) lim.
Proof.
  intros Hw Hl. pose proof Hw as (Hop & Hlim & H3 & H4 & H5 & Ht).
  pose proof (zlen_nonneg out).
  destruct (mem_write_spec (aw_buf w) (op_ w) data) as (buf & -> & Hz & Hg); [lia..|].
  exists buf. split; [done|]. rewrite Hop, <- zlen_app.
  apply (AW_set_inv w out); [done|rewrite zlen_app; lia|done|].
  rewrite zlen_app. apply (write_extend (aw_buf w)); [done|lia|done|..].
  - intros j Hj. rewrite Hg, decide_False by lia. done.
  - intros j Hj. rewrite Hg, decide_True by lia. f_equal. lia.
Qed.

Lemma AW_TryFastAppend_spec w out lim ip avail len :
  AW_inv w out lim → 1 ≤ len → avail ≤ zlen ip →
  AW_TryFastAppend w ip avail len = Some (false, w) ∨
  ∃ w', AW_TryFastAppend w ip avail len = Some (true, w') ∧
    len < 61 ∧ len ≤ avail ∧ zlen out + len ≤ lim ∧ AW_inv w' (out ++ ztake len ip) lim.
Proof.
  intros Hw Hl1 Hav. pose proof Hw as (Hop & Hlim & H3 & H4 & H5 & Ht). pose proof (zlen_nonneg out).
  unfold AW_TryFastAppend. case_decide as Hc; [right|by left].
  assert (zlen (ztake len ip) = len) as Hzl by (apply zlen_ztake; lia).
  destruct (mem_read_spec ip 0 8) as (s1 & -> & Hz8 & Hr1); [lia..|]. cbn [mbind option_bind].
  destruct (mem_write_spec (aw_buf w) (op_ w) s1) as (b1 & -> & Hz1 & Hg1); [lia..|].
  cbn [mbind option_bind].
  destruct (mem_read_spec ip 8 8) as (s2 & -> & Hz16 & Hr2); [lia..|]. cbn [mbind option_bind].
  destruct (mem_write_spec b1 (op_ w + 8) s2) as (b2 & -> & Hz2 & Hg2); [lia..|].
  cbn [mbind option_bind]. eexists. split; [done|]. splits; [lia..|].
  replace (op_ w + len) with (zlen (out ++ ztake len ip)) by (rewrite zlen_app; lia).
  apply (AW_set_inv w out); [done|rewrite zlen_app; lia|lia|].
  rewrite zlen_app. apply (write_extend (aw_buf w)); [done|lia|lia|..].
  - intros j Hj. rewrite Hg2, decide_False by lia. rewrite Hg1, decide_False by lia. done.
  - intros j Hj. rewrite Hg2 by lia. rewrite Hz16. rewrite (zget_ztake len) by lia. case_decide.
    + rewrite Hr2 by lia. f_equal. lia.
    + rewrite Hg1, decide_True by lia. rewrite Hr1 by lia. f_equal. lia.
Qed.

Lemma usize_pred_cmp op offset :
  0 ≤ op < 2 ^ 32 → in_w 32 offset → op ≤ usize (offset - 1) ↔ ¬ (1 ≤ offset ≤ op).
Proof.
  intros Hop Ho. unfold wrap. destruct (decide (offset = 0)) as [->|].
  - change ((0 - 1) mod 2 ^ size_w) with (2 ^ 32 - 1). lia.
  - rewrite Z.mod_small by word_solve. word_solve.
Qed.

Lemma AW_AppendFromSelf_ok w out lim offset len :
  AW_inv w out lim → 1 ≤ len ≤ 64 → 1 ≤ offset ≤ zlen out → in_w 32 offset →
  zlen out + len ≤ lim →
  ∃ w', AW_AppendFromSelf w offset len = Some (true, w') ∧ AW_inv w' (self_copy out offset len) lim.
Proof.
  intros Hw Hl Ho Hw32 Hlim'. pose proof Hw as (Hop & Hlim & H3 & H4 & H5 & Ht).
  assert (∀ buf, good out offset (zlen (aw_buf w)) buf (zlen out + len) →
    AW_inv (AW_set w buf (op_ w + len)) (self_copy out offset len) lim) as Hfin.
  { intros buf Hg. pose proof Hg as [Hz _]. rewrite Hop, <- (zlen_self_copy out offset) by lia.
    apply (AW_set_inv w out); [done|rewrite zlen_self_copy; lia|done|].
    rewrite zlen_self_copy by lia. apply (good_self_copy _ _ (zlen (aw_buf w))); [done|done|lia|lia]. }
  assert (good out offset (zlen (aw_buf w)) (aw_buf w) (zlen out)) as Hg0 by by apply good_init.
  unfold AW_AppendFromSelf. rewrite decide_False by (rewrite usize_pred_cmp by (done || lia); lia).
  rewrite Hop. case_decide as Hc1.
  - destruct (good_copy8 out offset (zlen (aw_buf w)) Ho (aw_buf w) (zlen out - offset) (zlen out) 1)
      as (b1 & -> & Hg1); [done|lia..|]. cbn [mbind option_bind]. rewrite Z.min_l in Hg1 by lia.
    destruct (good_copy8 out offset (zlen (aw_buf w)) Ho b1 (zlen out - offset + 8) (zlen out + 8) 1)
      as (b2 & -> & Hg2); [done|lia..|]. cbn [mbind option_bind]. rewrite Z.min_l in Hg2 by lia.
    eexists. split; [done|]. rewrite <- Hop. apply Hfin. destruct Hg2 as [Hz Hg2].
    split; [done|]. intros j Hj. apply Hg2. lia.
  - case_decide as Hc2.
    + destruct (IncrementalCopyFastPath_spec out offset (zlen (aw_buf w)) Ho (aw_buf w) len)
        as (b & -> & Hg); [done|lia|lia|]. cbn [mbind option_bind].
      eexists. split; [done|]. rewrite <- Hop. by apply Hfin.
    + rewrite decide_False by lia.
      destruct (IncrementalCopy_spec out offset (zlen (aw_buf w)) Ho (Z.to_nat len) (aw_buf w) (zlen out))
        as (b & -> & Hg); [done|lia|lia|]. cbn [mbind option_bind].
      eexists. split; [done|]. rewrite <- Hop. apply Hfin. by rewrite Z2Nat.id in Hg by lia.
Qed.

Lemma AW_AppendFromSelf_bad w out lim offset len :
  AW_inv w out lim → 1 ≤ len ≤ 64 → in_w 32 offset →
  ¬ (1 ≤ offset ≤ zlen out ∧ zlen out + len ≤ lim) →
  ∃ w', AW_AppendFromSelf w offset len = Some (false, w').
Proof.
  intros Hw Hl Hw32 Hbad. pose proof Hw as (Hop & Hlim & H3 & H4 & H5 & Ht).
  pose proof (zlen_nonneg out). unfold AW_AppendFromSelf. rewrite Hop, Hlim.
  case_decide as Hc; [by eexists|]. rewrite usize_pred_cmp in Hc by (done || lia).
  assert (lim < zlen out + len) by lia. destruct (decide (len ≤ 16 ∧ _)); [lia|].
  unfold kMaxIncrementCopyOverflow. rewrite decide_False, decide_True by lia. by eexists.
Qed.

#[export] Instance SnappyArrayWriter_laws M : WriterLaws ArrayWriter AW_inv M.
Proof.
  split; cbn [Append TryFastAppend AppendFromSelf CheckLength SnappyArrayWriter].
  - by intros w out lim (? & ? & ? & _).
  - intros w out lim (Ho & Hl & _). unfold AW_CheckLength. by rewrite Ho, Hl.
  - intros w out lim ip len Hw Hl HM Hlim. pose proof Hw as (Hop & Hlim' & _).
    unfold AW_Append. rewrite decide_False by lia.
    assert (zlen (ztake len ip) = len) as Hzl by (apply zlen_ztake; lia).
    rewrite mem_read_0 by lia. cbn [mbind option_bind].
    destruct (AW_write w out lim (ztake len ip) Hw) as (buf & -> & Hi); [lia|].
    cbn [mbind option_bind]. rewrite Hzl in Hi. by eexists.
  - intros w out lim ip len Hw Hl HM Hlim. pose proof Hw as (Hop & Hlim' & _).
    unfold AW_Append. rewrite decide_True by lia. by eexists.
  - apply AW_TryFastAppend_spec.
  - apply AW_AppendFromSelf_ok.
  - apply AW_AppendFromSelf_bad.
Qed.

End ArrayWriter.

(** ** The validator *)

(** Its counter does not wrap while the expected length leaves room for one
    more chunk. *)
Definition DV_inv (M : Z) (w : Validator) (out : bytes) (lim : Z) : Prop :=
  expected_ w = lim ∧ produced_ w = zlen out ∧ zlen out ≤ lim ∧ 64 ≤ M ∧ lim + M < 2 ^ 32.

Lemma DV_produce_spec M w out lim len out' :
  DV_inv M w out lim → 0 ≤ len ≤ M → zlen out' = zlen out + len →
  if decide (zlen out + len ≤ lim)
  then fst (DV_produce w len) = true ∧ DV_inv M (snd (DV_produce w len)) out' lim
  else fst (DV_produce w len) = false.
Proof.
  intros (He & Hp & Hl & HM & HL) Hlen Hz. pose proof (zlen_nonneg out).
  unfold DV_produce, DV_inv. cbn [fst snd expected_ produced_].
  rewrite He, Hp, wrap_small by word_solve. case_decide.
  - splits; try done; try lia. by apply bool_decide_true.
  - by apply bool_decide_false.
Qed.

#[export] Instance SnappyDecompressionValidator_laws M : WriterLaws Validator (DV_inv M) M.
Proof.
  split; cbn [Append TryFastAppend AppendFromSelf CheckLength SnappyDecompressionValidator].
  - by intros w out lim (? & ? & ? & _).
  - intros w out lim (He & Hp & _). unfold DV_CheckLength. rewrite He, Hp.
    apply bool_decide_ext. lia.
  - intros w out lim ip len Hw Hl HM Hlim. unfold DV_Append.
    pose proof (DV_produce_spec M w out lim len (out ++ ztake len ip) Hw) as Hd.
    rewrite decide_True in Hd by done. destruct (DV_produce w len) as [b w']; cbn [fst snd] in Hd.
    destruct Hd as [-> Hi]; [lia|rewrite zlen_app, zlen_ztake; lia|]. by eexists.
  - intros w out lim ip len Hw Hl HM Hlim. unfold DV_Append.
    pose proof (DV_produce_spec M w out lim len (out ++ ztake len ip) Hw) as Hd.
    rewrite decide_False in Hd by lia. destruct (DV_produce w len) as [b w']; cbn [fst snd] in Hd.
    rewrite Hd; [by eexists|lia|rewrite zlen_app, zlen_ztake; lia].
  - intros. by left.
  - intros w out lim offset len Hw Hl Ho Hw32 Hlim. pose proof Hw as (He & Hp & Hle & HM & HL).
    unfold DV_AppendFromSelf. rewrite Hp, decide_False by (rewrite usize_pred_cmp; word_solve).
    pose proof (DV_produce_spec M w out lim len (self_copy out offset len) Hw) as Hd.
    rewrite decide_True in Hd by done. destruct (DV_produce w len) as [b w']; cbn [fst snd] in Hd.
    destruct Hd as [-> Hi]; [lia|rewrite zlen_self_copy; lia|]. by eexists.
  - intros w out lim offset len Hw Hl Hw32 Hbad. pose proof Hw as (He & Hp & Hle & HM & HL).
    pose proof (zlen_nonneg out).
    unfold DV_AppendFromSelf. case_decide as Hc; [by eexists|].
    rewrite Hp, usize_pred_cmp in Hc by word_solve.
    pose proof (DV_produce_spec M w out lim len (self_copy out offset len) Hw) as Hd.
    rewrite decide_False in Hd by lia. destruct (DV_produce w len) as [b w']; cbn [fst snd] in Hd.
    rewrite Hd; [by eexists|lia|rewrite zlen_self_copy; lia].
Qed.

(** ** Refilling *)

(** The input the decompressor has not consumed yet. *)
Definition rem (d : Decompressor) : bytes := ip d ++ zdrop (peeked_ d) (reader d).

Definition needed (c : Z) : Z := Z.shiftr (entry c) 11 + 1.

(** The next tag and its trailer are in the buffer, and the four bytes behind
    the tag can be read. *)
Definition ready (d : Decompressor) : Prop :=
  ip d ≠ [] ∧ needed (u8 (zget (ip d) 0)) ≤ zlen (ip d) ∧ 5 ≤ zlen (readable d).

(** What stays as it is. *)
Definition settled (d : Decompressor) : Prop := eof_ d = false ∧ zlen (scratch_ d) = 5.

Lemma needed_range b : 1 ≤ needed (u8 b) ≤ 5.
Proof.
  pose proof (entry_okP b) as H. unfold entry_ok in H. pose proof (u8_range b).
  unfold needed. apply andb_prop in H as [_ H]. case_decide.
  - apply bool_decide_eq_true in H. rewrite H. case_decide; [lia|]. word_solve.
  - rewrite !andb_true_iff, !bool_decide_eq_true in H. destruct H as [[-> _] _].
    repeat case_decide; lia.
Qed.

Lemma zlen_readable d : zlen (ip d) ≤ zlen (readable d).
Proof. unfold readable. rewrite zlen_app. pose proof (zlen_nonneg (past d)). lia. Qed.

Lemma ztake_readable n d : n ≤ zlen (ip d) → ztake n (readable d) = ztake n (ip d).
Proof. intros. unfold readable. by rewrite ztake_app_le. Qed.

Lemma load8_readable d : ip d ≠ [] → load8 (readable d) = Some (u8 (zget (ip d) 0)).
Proof. unfold readable. destruct (ip d) as [|c i]; [done|]. intros _. cbn [app]. by rewrite load8_cons, zget_0_cons. Qed.

(** A store behind the first bytes of a buffer. *)
Lemma mem_write_take buf i data :
  0 ≤ i → i + zlen data ≤ zlen buf →
  ∃ buf', mem_write buf i data = Some buf' ∧ zlen buf' = zlen buf ∧ ztake (i + zlen data) buf' = ztake i buf ++ data.
Proof.
  intros Hi Hd. pose proof (zlen_nonneg data). destruct (mem_write_spec buf i data Hi Hd) as (buf' & E & Hz & _). exists buf'.
  split; [done|]. split; [done|]. unfold mem_write in E. rewrite decide_True in E by done. injection E as <-.
  rewrite app_assoc. apply ztake_app_n. rewrite zlen_app, zlen_ztake; lia.
Qed.

Lemma stitch_spec need nbuf scratch r :
  need ≤ 5 → 0 ≤ nbuf < need → zlen scratch = 5 →
  if decide (nbuf + zlen r < need) then RefillTag_stitch 6 need nbuf scratch r = Some None
  else ∃ scratch', RefillTag_stitch 6 need nbuf scratch r = Some (Some (scratch', zdrop (need - nbuf) r)) ∧
    zlen scratch' = 5 ∧ ztake need scratch' = ztake nbuf scratch ++ ztake (need - nbuf) r.
Proof.
  intros Hn Hs H5. pose proof (zlen_nonneg r). remember 5%nat as f eqn:Ef. cbn [RefillTag_stitch].
  rewrite (decide_True (P := nbuf < need)) by lia. unfold Peek, Skip.
  destruct (decide (zlen r = 0)) as [Hr|Hr]; [by rewrite decide_True by lia|].
  assert (∃ n, n = Z.min (need - nbuf) (zlen r)) as [n En] by by eexists. rewrite <- En, mem_read_0 by lia. cbn [mbind option_bind].
  assert (zlen (ztake n r) = n) as Hzn by (apply zlen_ztake; lia).
  destruct (mem_write_take scratch nbuf (ztake n r)) as (b & -> & Hb & Ht); [lia..|]. cbn [mbind option_bind].
  subst f. remember 4%nat as f eqn:Ef. cbn [RefillTag_stitch]. unfold Peek. destruct (decide (nbuf + zlen r < need)) as [Hc|Hc].
  - rewrite (decide_True (P := nbuf + n < need)) by lia. rewrite (zdrop_ge n) by lia. by rewrite decide_True by done.
  - rewrite (decide_False (P := nbuf + n < need)) by lia. assert (n = need - nbuf) as -> by lia.
    exists b. split; [done|]. split; [lia|]. rewrite Hzn in Ht. by replace (nbuf + (need - nbuf)) with need in Ht by lia.
Qed.

(** Moving the pointer to the scratch buffer. *)
Lemma in_scratch_ok d r scratch n rest :
  0 ≤ n ≤ 5 → zlen scratch = 5 → eof_ d = false → ztake n scratch ++ r = rest → ztake n scratch ≠ [] →
  needed (u8 (zget (ztake n scratch) 0)) ≤ n →
  let d' := in_scratch d r scratch n in rem d' = rest ∧ ready d' ∧ settled d'.
Proof.
  intros Hn H5 He Hr Hne Hneed. cbv zeta. unfold rem, ready, settled, readable. cbn [in_scratch ip past reader peeked_ eof_ scratch_].
  rewrite zdrop_0, ztake_zdrop. splits; try done; try lia. by rewrite zlen_ztake by lia.
Qed.

(** The part of [RefillTag] after the buffer is known to be non-empty. *)
Lemma RefillTag_nonempty d :
  ip d ≠ [] → settled d →
  if decide (zlen (rem d) < needed (u8 (zget (ip d) 0)))
  then ∃ d', RefillTag d = Some (false, d') ∧ eof_ d' = false
  else ∃ d', RefillTag d = Some (true, d') ∧ rem d' = rem d ∧ ready d' ∧ settled d'.
Proof.
  intros Hne [Heof H5]. pose proof (needed_range (zget (ip d) 0)) as Hnr.
  unfold RefillTag, RefillTag_fetch. rewrite (decide_False (P := ip d = [])) by done.
  rewrite load8_readable by done. cbn [mbind option_bind]. cbn zeta. fold (entry (u8 (zget (ip d) 0))).
  fold (needed (u8 (zget (ip d) 0))). set (tail := zdrop (peeked_ d) (reader d)).
  assert (zlen (rem d) = zlen (ip d) + zlen tail) as -> by (unfold rem; by rewrite zlen_app).
  assert (0 < zlen (ip d)).
  { pose proof (zlen_nonneg (ip d)). destruct (decide (zlen (ip d) = 0)) as [?%zlen_zero|]; done || lia. }
  pose proof (zlen_nonneg tail). unfold Skip. fold tail.
  assert (∀ b c, zget b 0 = zget (ip d) 0 → needed (u8 (zget (ip d) 0)) ≤ c → needed (u8 (zget b 0)) ≤ c) as Hsame by by intros b c ->.
  destruct (decide (zlen (ip d) < 5)) as [Hlt5|Hge5].
  2: { rewrite decide_False, decide_False by lia. exists d.
       splits; [done..|split; [done|split; [lia|pose proof (zlen_readable d); lia]]|done]. }
  destruct (mem_write_take (scratch_ d) 0 (ip d)) as (b & -> & Hb & Ht); [lia..|].
  change (ztake 0 (scratch_ d)) with (@nil Byte.byte) in Ht. rewrite Z.add_0_l, app_nil_l in Ht. cbn [mbind option_bind].
  destruct (decide (zlen (ip d) < needed (u8 (zget (ip d) 0)))) as [Hlt|Hge].
  - pose proof (stitch_spec (needed (u8 (zget (ip d) 0))) (zlen (ip d)) b tail ltac:(lia) ltac:(lia) ltac:(lia)) as HS.
    case_decide as Hc.
    + rewrite HS. cbn [mbind option_bind]. by eexists.
    + destruct HS as (b' & -> & Hb' & Ht'). cbn [mbind option_bind]. eexists. split; [done|]. rewrite Ht in Ht'.
      apply in_scratch_ok; [lia|lia|done| | |].
      * rewrite Ht', <- app_assoc, ztake_zdrop. done.
      * rewrite Ht'. by destruct (ip d).
      * apply Hsame; [|done]. rewrite Ht'. by apply zget_app_l; lia.
  - rewrite (decide_False (P := _ + _ < _)) by lia.
    eexists. split; [done|]. apply in_scratch_ok; rewrite ?Ht; [lia|lia|done|done|done|lia].
Qed.

Definition refetched (d : Decompressor) : Decompressor :=
  let r := zdrop (peeked_ d) (reader d) in in_source d r r (zlen r).

Lemma rem_refetched d : ip d = [] → rem (refetched d) = rem d.
Proof.
  intros Hip. unfold rem. rewrite Hip. cbn [ip reader peeked_ refetched in_source].
  rewrite (zdrop_ge (zlen _)) by lia. by rewrite app_nil_r.
Qed.

Lemma RefillTag_refetched d :
  ip d = [] → rem d ≠ [] → RefillTag d = RefillTag (refetched d).
Proof.
  intros Hip Hne. unfold rem in Hne. rewrite Hip in Hne. cbn [app] in Hne.
  assert (RefillTag_fetch d = (true, refetched d)) as E.
  { unfold RefillTag_fetch. rewrite Hip, decide_True by done. unfold Peek, Skip. by rewrite decide_False by (by intros ?%zlen_zero). }
  assert (RefillTag_fetch (refetched d) = (true, refetched d)) as E' by (unfold RefillTag_fetch; by rewrite decide_False).
  unfold RefillTag. by rewrite E, E'.
Qed.

Lemma MAYBE_REFILL_spec d :
  settled d →
  match rem d with
  | [] => ∃ d', MAYBE_REFILL d = Some (false, d') ∧ eof_ d' = true
  | c :: _ =>
      if decide (zlen (rem d) < needed (u8 c))
      then ∃ d', MAYBE_REFILL d = Some (false, d') ∧ eof_ d' = false
      else ∃ d', MAYBE_REFILL d = Some (true, d') ∧ rem d' = rem d ∧ ready d' ∧ settled d'
  end.
Proof.
  intros Hst. unfold MAYBE_REFILL. destruct (decide (ip d = [])) as [Hip|Hip].
  - rewrite Hip. rewrite decide_True by done.
    destruct (rem d) as [|c r] eqn:Er.
    + unfold rem in Er. rewrite Hip in Er. cbn [app] in Er.
      unfold RefillTag, RefillTag_fetch. rewrite Hip, decide_True by done. unfold Skip, Peek. rewrite Er. by eexists.
    + rewrite RefillTag_refetched by (done || by rewrite Er).
      assert (ip (refetched d) = rem d) as Hr by (unfold rem; by rewrite Hip).
      pose proof (RefillTag_nonempty (refetched d)) as H.
      rewrite rem_refetched, Hr, Er, zget_0_cons in H by done. by apply H.
  - destruct (ip d) as [|c i] eqn:Ei; [done|].
    assert (rem d = c :: (i ++ zdrop (peeked_ d) (reader d))) as Hr by (unfold rem; by rewrite Ei).
    rewrite Hr, <- Hr. destruct (decide (zlen (c :: i) < 5)) as [H5|H5].
    + pose proof (RefillTag_nonempty d) as H. rewrite Ei, zget_0_cons in H. by apply H.
    + rewrite <- Ei in H5. pose proof (needed_range c).
      rewrite decide_False by (unfold rem; rewrite zlen_app;
        pose proof (zlen_nonneg (zdrop (peeked_ d) (reader d))); lia).
      eexists. split; [done|]. splits; [done| |done]. pose proof (zlen_readable d).
      split; [by rewrite Ei|]. rewrite Ei, zget_0_cons, <- Ei. lia.
Qed.

(** ** One tag *)

Section Tag.
Context {W : Type} {WI : Writer W} {WR : W → bytes → Z → Prop} {M : Z}
  {WL : WriterLaws W WR M}.

Lemma advance_ok d n :
  0 ≤ n ≤ zlen (ip d) →
  ∃ d', advance d n = Some d' ∧ ip d' = zdrop n (ip d) ∧ readable d' = zdrop n (readable d) ∧ rem d' = zdrop n (rem d) ∧
    (settled d → settled d').
Proof.
  intros Hn. unfold advance. rewrite decide_True by done. eexists. split; [done|].
  unfold readable, rem, settled. cbn [ip past reader peeked_ eof_ scratch_]. by rewrite !zdrop_app_le by lia.
Qed.

Lemma append_literal_short f d w out lim len :
  WR w out lim → zlen (ip d) ≤ M → 0 ≤ len ≤ zlen (ip d) → settled d →
  if decide (zlen out + len ≤ lim)
  then ∃ d' w', append_literal (S f) d w len = Some (true, d', w') ∧ rem d' = zdrop len (rem d) ∧ settled d' ∧
         WR w' (out ++ ztake len (ip d)) lim
  else ∃ w', append_literal (S f) d w len = Some (false, d, w').
Proof.
  intros Hw HM Hl Hst. pose proof (zlen_readable d). cbn [append_literal].
  rewrite (decide_False (P := zlen (ip d) < len)) by lia. case_decide.
  - destruct (Append_ok (WriterLaws := WL) w out lim (readable d) len) as (w' & -> & Hw'); [done|lia..|].
    cbn [mbind option_bind]. destruct (advance_ok d len Hl) as (d' & -> & _ & _ & Hr & Hst'). cbn [mbind option_bind].
    rewrite ztake_readable in Hw' by lia. exists d', w'. splits; [done|done|by apply Hst'|done].
  - destruct (Append_full (WriterLaws := WL) w out lim (readable d) len) as (w' & ->); [done|lia..|].
    cbn [mbind option_bind]. by eexists.
Qed.

Lemma append_literal_spec d w out lim len :
  WR w out lim → zlen (rem d) ≤ M → 0 ≤ len → settled d →
  if decide (len ≤ zlen (rem d) ∧ zlen out + len ≤ lim)
  then ∃ d' w', append_literal 3 d w len = Some (true, d', w') ∧
         rem d' = zdrop len (rem d) ∧ settled d' ∧ WR w' (out ++ ztake len (rem d)) lim
  else ∃ d' w', append_literal 3 d w len = Some (false, d', w') ∧ eof_ d' = false.
Proof.
  intros Hw HM Hl Hst. pose proof Hst as [Heof H5]. set (r := zdrop (peeked_ d) (reader d)).
  assert (zlen (rem d) = zlen (ip d) + zlen r) as Hz by (unfold rem; by rewrite zlen_app).
  pose proof (zlen_nonneg r). pose proof (zlen_nonneg (ip d)). pose proof (zlen_readable d).
  destruct (decide (zlen (ip d) < len)) as [Hlong|Hshort].
  2: { pose proof (append_literal_short 2 d w out lim len Hw ltac:(lia) ltac:(lia) Hst) as HS.
       destruct (decide (zlen out + len ≤ lim)).
       - rewrite (decide_True (P := len ≤ zlen (rem d) ∧ _)) by lia. destruct HS as (d' & w' & E & Hr & Hs' & Hw').
         exists d', w'. splits; [done..|].
         unfold rem. by rewrite ztake_app_le by lia.
       - rewrite (decide_False (P := len ≤ zlen (rem d) ∧ _)) by lia. destruct HS as (w' & E). by exists d, w'. }
  remember 2%nat as f eqn:Ef. cbn [append_literal]. rewrite (decide_True (P := zlen (ip d) < len)) by done.
  unfold Skip, Peek. fold r.
  destruct (decide (zlen out + zlen (ip d) ≤ lim)) as [Hfit|Hfull].
  2: { destruct (Append_full (WriterLaws := WL) w out lim (readable d) (zlen (ip d))) as (w' & ->);
         [done|lia..|].
       rewrite (decide_False (P := len ≤ zlen (rem d) ∧ _)) by lia. cbn [mbind option_bind]. by eexists _, _. }
  destruct (Append_ok (WriterLaws := WL) w out lim (readable d) (zlen (ip d))) as (w1 & -> & Hw1);
    [done|lia..|]. cbn [mbind option_bind]. rewrite ztake_readable, ztake_ge in Hw1 by lia.
  set (d1 := in_source d r r (zlen r)).
  destruct (decide (zlen r = 0)); [rewrite (decide_False (P := len ≤ zlen (rem d) ∧ _)) by lia; by eexists _, _|].
  destruct (decide (zlen r < len - zlen (ip d))) as [Hlong2|Hshort2].
  - rewrite (decide_False (P := len ≤ zlen (rem d) ∧ _)) by lia. subst f. remember 1%nat as f eqn:Ef. cbn [append_literal].
    change (ip d1) with r. change (reader d1) with r. change (peeked_ d1) with (zlen r).
    assert (readable d1 = r) as -> by apply app_nil_r.
    rewrite (decide_True (P := zlen r < _)) by done. unfold Skip, Peek.
    rewrite (zdrop_ge (zlen r)) by lia.
    destruct (decide (zlen (out ++ ip d) + zlen r ≤ lim)).
    + destruct (Append_ok (WriterLaws := WL) w1 (out ++ ip d) lim r (zlen r)) as (w2 & -> & _);
        [done|lia..|]. cbn [mbind option_bind]. rewrite (decide_True (P := zlen [] = 0)) by done.
      by eexists _, _.
    + destruct (Append_full (WriterLaws := WL) w1 (out ++ ip d) lim r (zlen r)) as (w2 & ->);
        [done|lia..|]. cbn [mbind option_bind]. by eexists _, _.
  - subst f. pose proof (append_literal_short 1 d1 w1 (out ++ ip d) lim (len - zlen (ip d)) Hw1) as HS.
    change (ip d1) with r in HS. rewrite zlen_app in HS.
    specialize (HS ltac:(lia) ltac:(lia) ltac:(done)).
    destruct (decide (zlen out + len ≤ lim)).
    + rewrite decide_True in HS by lia. rewrite (decide_True (P := len ≤ zlen (rem d) ∧ _)) by lia. destruct HS as (d2 & w2 & E & Hr & Hs2 & Hw2).
      exists d2, w2. splits; [done| |done|].
      * rewrite Hr. unfold rem at 1.
        cbn [ip reader peeked_ d1 in_source]. rewrite (zdrop_ge (zlen r)), app_nil_r by lia.
        unfold rem. fold r. by rewrite zdrop_app_ge by lia.
      * unfold rem. fold r. rewrite ztake_app_ge by lia. by rewrite app_assoc.
    + rewrite decide_False in HS by lia. rewrite (decide_False (P := len ≤ zlen (rem d) ∧ _)) by lia. destruct HS as (w2 & E).
      by eexists _, w2.
Qed.

(** What the table says about the tag [c], with [v] the value of its trailer. *)
Definition item_of (c v : Z) : item :=
  let kind := c mod 4 in
  let hi := c / 4 in
  if decide (kind = 0) then (if decide (hi < 60) then Literal (hi + 1) else Literal (usize (v + 1)))
  else if decide (kind = 1) then Copy (hi / 8 * 256 + v) (hi mod 8 + 4)
  else Copy v (hi + 1).

Lemma needed_extra b :
  needed (u8 b) - 1
  = if decide (u8 b mod 4 = 0) then (if decide (u8 b / 4 < 60) then 0 else u8 b / 4 - 59)
    else if decide (u8 b mod 4 = 1) then 1 else if decide (u8 b mod 4 = 2) then 2 else 4.
Proof.
  pose proof (entry_okP b) as H. unfold entry_ok in H. apply andb_prop in H as [_ H].
  unfold needed. case_decide.
  - apply bool_decide_eq_true in H. lia.
  - rewrite !andb_true_iff, !bool_decide_eq_true in H. destruct H as [[H _] _]. lia.
Qed.

Lemma spec_tag_eq c rest :
  spec_tag (c :: rest)
  = if decide (zlen (c :: rest) < needed (u8 c)) then None
    else Some (item_of (u8 c) (le_value (ztake (needed (u8 c) - 1) rest)),
               zdrop (needed (u8 c) - 1) rest).
Proof.
  unfold spec_tag, item_of. cbn zeta. rewrite <- needed_extra. rewrite zlen_cons.
  destruct (decide (zlen rest < _)), (decide (1 + zlen rest < _)); done || lia.
Qed.

Lemma in_w_le_value n s : 0 ≤ n ≤ 4 → n ≤ zlen s → in_w 32 (le_value (ztake n s)).
Proof.
  intros Hn Hs. pose proof (le_value_bound (ztake n s)) as [H1 H2].
  rewrite zlen_ztake in H2 by lia. split; [done|].
  eapply Z.lt_le_trans; [done|]. apply Z.pow_le_mono_r; lia.
Qed.

Lemma copy_fields b v :
  u8 b mod 4 ≠ 0 → 0 ≤ v < 2 ^ (8 * (needed (u8 b) - 1)) → in_w 32 v →
  ∃ offset len, item_of (u8 b) v = Copy offset len ∧ Z.land (entry (u8 b)) 255 = len ∧
    u32 (Z.land (entry (u8 b)) 0x700 + v) = offset ∧ 1 ≤ len ≤ 64 ∧ in_w 32 offset.
Proof.
  intros Hk Hv Hw. pose proof (entry_okP b) as H. unfold entry_ok in H. apply andb_prop in H as [_ H].
  rewrite decide_False, !andb_true_iff, !bool_decide_eq_true in H by done.
  destruct H as [[_ Hlen] Hoff]. rewrite Hlen, Hoff. rewrite needed_extra in Hv.
  rewrite (decide_False (P := u8 b mod 4 = 0)) in Hv by done.
  unfold item_of. rewrite (decide_False (P := u8 b mod 4 = 0)) by done.
  pose proof (u8_range b).
  destruct (decide (u8 b mod 4 = 1)); eexists _, _; (split; [done|split; [done|]]);
    rewrite wrap_small; splits; try done; word_solve.
Qed.

(** The rest of the branch for literals. *)
Lemma literal_spec d w out lim len :
  WR w out lim → zlen (rem d) ≤ M → 0 ≤ len → settled d →
  if decide (len ≤ zlen (rem d) ∧ zlen out + len ≤ lim)
  then ∃ d' w', ('(ok, d, w) ← append_literal 3 d w len; refill_if ok d w) = refill_if true d' w' ∧
    rem d' = zdrop len (rem d) ∧ settled d' ∧ WR w' (out ++ ztake len (rem d)) lim
  else ∃ d' w', ('(ok, d, w) ← append_literal 3 d w len; refill_if ok d w) = Some (false, d', w') ∧ eof_ d' = false.
Proof.
  intros Hw HM Hl Hst. pose proof (append_literal_spec d w out lim len Hw HM Hl Hst) as HA. case_decide.
  - destruct HA as (d' & w' & -> & HA). cbn [mbind option_bind]. by exists d', w'.
  - destruct HA as (d' & w' & -> & HA). cbn [mbind option_bind]. by exists d', w'.
Qed.

(** The fields of a tag in the table. *)
Lemma char_table_fields c :
  Z.land (u8 c) 3 = u8 c mod 4 ∧ Z.shiftr (u8 c) 2 = u8 c / 4 ∧ Z.shiftr (nth (Z.to_nat (u8 c)) char_table 0) 11 = needed (u8 c) - 1.
Proof.
  pose proof (entry_okP c) as Hok. unfold entry_ok in Hok. apply andb_prop in Hok as [Hok _].
  apply bool_decide_eq_true in Hok as [? ?]. splits; [done..|]. unfold needed, entry. lia.
Qed.

(** What is left behind a tag: the rest of the buffer and of the source. *)
Lemma DecompressTag_spec d w out lim :
  WR w out lim → zlen (rem d) ≤ M → ready d → settled d →
  match spec_step lim (rem d) out with
  | Some (rem', out') => ∃ d1 w', DecompressTag d w = refill_if true d1 w' ∧ rem d1 = rem' ∧ settled d1 ∧ WR w' out' lim
  | None => ∃ d1 w', DecompressTag d w = Some (false, d1, w') ∧ eof_ d1 = false
  end.
Proof.
  intros Hw HM (Hne & Hready & H5) Hst. unfold DecompressTag. rewrite load8_readable by done. cbn [mbind option_bind].
  destruct (advance_ok d 1) as (d1 & -> & Hip1 & Hrd1 & Hrem1 & Hst1).
  { destruct (ip d); [done|]. rewrite zlen_cons. pose proof (zlen_nonneg l). lia. }
  cbn [mbind option_bind]. specialize (Hst1 Hst). assert (4 ≤ zlen (readable d1)) as H4 by (rewrite Hrd1, zlen_zdrop; lia).
  destruct (ip d) as [|c i] eqn:Ei; [done|]. rewrite zget_0_cons in *. change (zdrop 1 (c :: i)) with i in Hip1.
  assert (rem d = c :: rem d1) as Hrem by (rewrite Hrem1; unfold rem; by rewrite Ei).
  assert (zlen i ≤ zlen (rem d1)) as Hi1 by (unfold rem; rewrite Hip1, zlen_app; pose proof (zlen_nonneg (zdrop (peeked_ d1) (reader d1))); lia).
  pose proof (needed_range c) as Hnr. rewrite zlen_cons in Hready. rewrite Hrem, zlen_cons in HM. pose proof (zlen_nonneg i) as Hil.
  unfold spec_step. rewrite Hrem, spec_tag_eq. rewrite decide_False by (rewrite zlen_cons; lia). cbn [mbind option_bind].
  assert (ztake (needed (u8 c) - 1) (rem d1) = ztake (needed (u8 c) - 1) i) as Htr by (unfold rem; rewrite Hip1, ztake_app_le by lia; done).
  rewrite Htr. set (v := le_value (ztake (needed (u8 c) - 1) i)).
  assert (in_w 32 v) as Hv by (apply in_w_le_value; lia).
  assert (∃ x, load32 (readable d1) = Some x ∧ Z.land x (wordmask (needed (u8 c) - 1)) = v) as (x & Ex & Hx).
  { unfold readable. rewrite Hip1. apply load32_mask; [lia|lia|]. by rewrite <- Hip1. }
  destruct (char_table_fields c) as (-> & -> & ->). unfold LITERAL.
  destruct (advance_ok d1 (needed (u8 c) - 1)) as (d2 & E2 & Hip2 & _ & Hrem2 & Hst2); [rewrite Hip1; lia|]. specialize (Hst2 Hst1).
  destruct (decide (u8 c mod 4 = 0)) as [Hk0|Hk].
  2: { fold (entry (u8 c)). destruct (copy_fields c v Hk) as (offset & len & -> & -> & Hoff & Hlen & How); [|done|].
       { pose proof (le_value_bound (ztake (needed (u8 c) - 1) i)) as Hb.
         rewrite zlen_ztake in Hb by lia. exact Hb. }
       rewrite Ex. cbn [mbind option_bind]. rewrite E2. cbn [mbind option_bind]. rewrite Hx, Hoff.
       destruct (decide (1 ≤ offset ≤ zlen out ∧ zlen out + len ≤ lim)) as [[Ho Hl]|Hbad].
       - destruct (AppendFromSelf_ok (WriterLaws := WL) w out lim offset len) as (w' & -> & Hw');
           [done|lia|lia|done|lia|]. cbn [mbind option_bind]. by exists d2, w'.
       - destruct (AppendFromSelf_bad (WriterLaws := WL) w out lim offset len) as (w' & ->);
           [done|lia|done|done|]. cbn [mbind option_bind]. exists d2, w'. split; [done|apply Hst2]. }
  pose proof (needed_extra c) as Hextra. rewrite decide_True in Hextra by done.
  unfold item_of. rewrite (decide_True (P := u8 c mod 4 = 0)) by done. pose proof (u8_range c). pose proof (zlen_readable d1).
  destruct (TryFastAppend_spec (WriterLaws := WL) w out lim (readable d1) (zlen (ip d1)) (u8 c / 4 + 1) Hw)
    as [-> | (w' & -> & H61 & Hli & Hlo & Hw')]; [word_solve|done|..]; cbn [mbind option_bind].
  2: { rewrite decide_True in Hextra by lia. rewrite (decide_True (P := u8 c / 4 < 60)) by lia.
       rewrite Hip1 in Hli. replace (needed (u8 c) - 1) with 0 by lia. rewrite zdrop_0. rewrite decide_True by lia.
       destruct (advance_ok d1 (u8 c / 4 + 1)) as (d3 & -> & _ & _ & Hrem3 & Hst3); [rewrite Hip1; word_solve|].
       cbn [mbind option_bind]. exists d3, w'. splits; [done..|by apply Hst3|].
       rewrite ztake_readable in Hw' by (rewrite Hip1; lia). unfold rem. by rewrite ztake_app_le by (rewrite Hip1; lia). }
  unfold long_literal. destruct (decide (u8 c / 4 < 60)) as [H60|H60].
  - rewrite (decide_False (P := 61 ≤ _)) by lia. cbn [mbind option_bind]. rewrite Hextra, zdrop_0.
    pose proof (literal_spec d1 w out lim (u8 c / 4 + 1) Hw ltac:(lia) ltac:(word_solve) Hst1) as HL. by case_decide.
  - rewrite (decide_True (P := 61 ≤ _)) by lia. replace (u8 c / 4 + 1 - 60) with (needed (u8 c) - 1) by lia.
    rewrite Ex. cbn [mbind option_bind]. rewrite E2. cbn [mbind option_bind]. rewrite Hx, <- Hrem2.
    pose proof (wrap_range 32 (v + 1)) as Hr. unfold in_w in Hr.
    pose proof (literal_spec d2 w out lim (usize (v + 1)) Hw) as HL.
    rewrite Hrem2 in HL at 1. rewrite zlen_zdrop in HL by lia. specialize (HL ltac:(lia) ltac:(lia) Hst2). by case_decide.
Qed.
End Tag.

(** ** The whole stream *)

Lemma spec_tag_shorter input it rest : spec_tag input = Some (it, rest) → zlen rest < zlen input.
Proof.
  destruct input as [|c r]; [done|]. rewrite spec_tag_eq. case_decide as H; [done|].
  intros [_ <-]%Some_inj%pair_equal_spec. pose proof (needed_range c). rewrite zlen_cons in *.
  rewrite zlen_zdrop; lia.
Qed.

Lemma spec_step_shorter lim input out input' out' :
  spec_step lim input out = Some (input', out') → zlen input' < zlen input.
Proof.
  unfold spec_step. destruct (spec_tag input) as [[it rest]|] eqn:E; [|done].
  apply spec_tag_shorter in E. cbn [mbind option_bind]. pose proof (zlen_nonneg rest).
  destruct it as [len|offset len]; case_decide as Hc; intros [= <- _]; [|done].
  destruct (decide (0 ≤ len)); [rewrite zlen_zdrop; lia|].
  unfold zdrop. replace (Z.to_nat len) with 0%nat by lia. done.
Qed.

(** What a run from [input] with output [out] may end in. *)
Definition outcome {W} (WR : W → bytes → Z → Prop) (lim : Z) (input out : bytes)
    (eof : bool) (w' : W) : Prop :=
  (∃ o, decodes lim input out o ∧ eof = true ∧ WR w' o lim) ∨
  ((∀ o, ¬ decodes lim input out o) ∧ eof = false).

Lemma no_decodes lim input out : input ≠ [] → spec_step lim input out = None →
  ∀ o, ¬ decodes lim input out o.
Proof. intros Hne Hs o. inversion 1; subst; congruence. Qed.

Lemma outcome_step {W} (WR : W → bytes → Z → Prop) lim input out input' out' eof w' :
  input ≠ [] → spec_step lim input out = Some (input', out') →
  outcome WR lim input' out' eof w' → outcome WR lim input out eof w'.
Proof.
  intros Hne Hs [(o & Hd & He & Hw)|[Hno He]].
  - left. exists o. split; [|done]. by eapply decodes_step.
  - right. split; [|done]. intros o. inversion 1; subst; [done|].
    simplify_eq. by eapply Hno.
Qed.

Section Stream.
Context {W : Type} {WI : Writer W} {WR : W → bytes → Z → Prop} {M : Z}
  {WL : WriterLaws W WR M}.

Lemma refill_outcome d w out lim :
  settled d → WR w out lim →
  ∃ ok d', MAYBE_REFILL d = Some (ok, d') ∧
    if (ok : bool) then rem d' = rem d ∧ ready d' ∧ settled d'
    else outcome WR lim (rem d) out (eof_ d') w.
Proof.
  intros He Hw. pose proof (MAYBE_REFILL_spec d He) as H.
  destruct (rem d) as [|c r] eqn:Er.
  - destruct H as (d' & -> & He'). eexists _, _. split; [done|]. left.
    exists out. split; [constructor|done].
  - case_decide as Hn.
    + destruct H as (d' & -> & He'). eexists _, _. split; [done|]. right. split; [|done].
      apply no_decodes; [done|]. unfold spec_step. by rewrite spec_tag_eq, decide_True.
    + destruct H as (d' & -> & Hr). eexists _, _. split; [done|]. exact Hr.
Qed.

Lemma DecompressAllTags_loop_spec fuel d w out lim :
  WR w out lim → zlen (rem d) ≤ M → ready d → settled d →
  zlen (rem d) < Z.of_nat fuel →
  ∃ d' w', DecompressAllTags_loop fuel d w = Some (d', w') ∧
    outcome WR lim (rem d) out (eof_ d') w'.
Proof.
  revert d w out. induction fuel as [|fuel IH]; intros d w out Hw HM Hready He Hf.
  { pose proof (zlen_nonneg (rem d)). lia. }
  assert (rem d ≠ []) as Hne.
  { destruct Hready as [Hne _]. unfold rem. destruct (ip d); done. }
  cbn [DecompressAllTags_loop].
  pose proof (DecompressTag_spec d w out lim Hw HM Hready He) as H.
  destruct (spec_step lim (rem d) out) as [[rem' out']|] eqn:Es.
  - destruct H as (d1 & w1 & -> & Hr & He1 & Hw1). unfold refill_if.
    pose proof (spec_step_shorter _ _ _ _ _ Es) as Hsh.
    destruct (refill_outcome d1 w1 out' lim He1 Hw1) as ([] & d2 & -> & H2); cbn [mbind option_bind].
    + destruct H2 as (Hr2 & Hready2 & He2).
      destruct (IH d2 w1 out') as (d' & w' & -> & Ho); [done|rewrite Hr2, Hr; lia|done|done|
        rewrite Hr2, Hr; lia|].
      eexists _, _. split; [done|]. rewrite Hr2, Hr in Ho. by eapply outcome_step.
    + eexists _, _. split; [done|]. rewrite Hr in H2. by eapply outcome_step.
  - destruct H as (d1 & w1 & -> & He1). cbn [mbind option_bind].
    eexists _, _. split; [done|]. right. split; [|done]. by apply no_decodes.
Qed.

Lemma zlen_rem_le d : zlen (rem d) ≤ Z.of_nat (length (ip d) + length (reader d)).
Proof.
  unfold rem. rewrite zlen_app. unfold zlen, zdrop. rewrite length_drop. lia.
Qed.

Lemma DecompressAllTags_spec d w out lim :
  WR w out lim → zlen (rem d) ≤ M → settled d →
  ∃ d' w', DecompressAllTags d w = Some (d', w') ∧ outcome WR lim (rem d) out (eof_ d') w'.
Proof.
  intros Hw HM He. unfold DecompressAllTags.
  destruct (refill_outcome d w out lim He Hw) as ([] & d1 & -> & H1); cbn [mbind option_bind].
  - destruct H1 as (Hr & Hready & He1). rewrite <- Hr in *. pose proof (zlen_rem_le d1).
    apply DecompressAllTags_loop_spec; try done. lia.
  - by eexists _, _.
Qed.

(** The boolean of [InternalUncompress] says whether the stream decodes to
    exactly the announced number of bytes, and then the writer holds them. *)
Lemma InternalUncompress_spec r w0 lim rest :
  ReadUncompressedLength_loop 6 r 0 0 = Some (Some (lim, rest)) → lim ≤ kuint32max →
  WR (SetExpectedLength w0 lim) [] lim → zlen rest ≤ M →
  ∃ ok w', InternalUncompress r w0 kuint32max = Some (ok, w') ∧
    (ok = true → ∃ o, decodes lim rest [] o ∧ zlen o = lim ∧ WR w' o lim) ∧
    (∀ o, decodes lim rest [] o → zlen o = lim → ok = true).
Proof.
  intros Hr Hlim Hw HM. unfold InternalUncompress, ReadUncompressedLength.
  cbn [reader mkDecompressor]. rewrite Hr. cbn [mbind option_bind].
  unfold InternalUncompressAllTags. rewrite decide_False by lia.
  set (d := {| reader := rest; ip := _; past := _; peeked_ := _; eof_ := _; scratch_ := _ |}).
  destruct (DecompressAllTags_spec d _ [] lim Hw) as (d' & w' & -> & Ho); [done|done|].
  cbn [mbind option_bind]. change (rem d) with rest in Ho. eexists _, _. split; [done|].
  destruct Ho as [(o & Hd & -> & Hw')|[Hno ->]].
  - rewrite (CheckLength_spec (WriterLaws := WL) _ _ _ Hw'). cbn [andb]. split.
    + intros Hz%bool_decide_eq_true. by exists o.
    + intros o' Hd' Hz. rewrite (decodes_det _ _ _ _ _ Hd Hd'). by apply bool_decide_true.
  - split; [done|]. intros o Hd. by destruct (Hno o).
Qed.
End Stream.

(** ** The length prefix *)

Lemma ReadUncompressedLength_loop_range fuel r result shift v rest :
  in_w 32 result → ReadUncompressedLength_loop fuel r result shift = Some (Some (v, rest)) →
  in_w 32 v ∧ zlen rest ≤ zlen r.
Proof.
  revert r result shift. induction fuel as [|fuel IH]; intros r result shift Hr; [done|].
  cbn [ReadUncompressedLength_loop]. case_decide; [done|]. unfold Peek.
  case_decide as Hz; [done|]. destruct r as [|c r]; [done|]. rewrite load8_cons. cbn [mbind option_bind].
  unfold Skip. change (zdrop 1 (c :: r)) with r. rewrite zlen_cons.
  assert (in_w 32 (Z.lor result (u32 (Z.shiftl (Z.land (u8 c) 127) shift)))).
  { apply in_w_lor; [lia|done|by apply wrap_range]. }
  case_decide.
  - intros [= <- <-]. split; [done|lia].
  - intros E. apply IH in E as [? ?]; [|done]. split; [done|lia].
Qed.

Lemma Parse32WithLimit_Read p v rest :
  Parse32WithLimit p = Some (v, rest) → ReadUncompressedLength_loop 6 p 0 0 = Some (Some (v, rest)).
Proof.
  assert (∀ (c : byte) q, zlen (c :: q) ≠ 0) as Hne by (intros c q; rewrite zlen_cons; pose proof (zlen_nonneg q); lia).
  unfold Parse32WithLimit, Parse32_step.
  do 4 (destruct p as [|? p]; [done|]; cbn [ReadUncompressedLength_loop];
    rewrite (decide_False (P := 32 ≤ _)) by lia; unfold Peek; rewrite (decide_False (P := zlen _ = 0)) by apply Hne;
    rewrite load8_cons; cbn [mbind option_bind]; change (Skip (?c :: ?q) 1) with q;
    destruct (decide (u8 _ < 128)); [by intros [= <- <-]|]).
  destruct p as [|c p]; [done|]; cbn [ReadUncompressedLength_loop];
    rewrite (decide_False (P := 32 ≤ _)) by lia; unfold Peek; rewrite (decide_False (P := zlen _ = 0)) by apply Hne.
  rewrite load8_cons. cbn [mbind option_bind]. change (Skip (c :: p) 1) with p.
  destruct (decide (u8 c < 16)); [|done]. rewrite (decide_True (P := u8 c < 128)) by lia. by intros [= <- <-].
Qed.

Lemma AW_init buf n :
  zlen buf = n → in_w 32 n →
  AW_inv n (AW_SetExpectedLength {| aw_buf := buf; op_ := 0; op_limit_ := 0 |} n) [] n.
Proof.
  intros Hz [Hn Hn']. unfold AW_inv. cbn [AW_SetExpectedLength aw_buf op_ op_limit_].
  change (zlen []) with 0. splits; done || lia.
Qed.

Lemma DV_init M n :
  64 ≤ M → in_w 32 n → n + M < 2 ^ 32 →
  DV_inv M (DV_SetExpectedLength {| expected_ := 0; produced_ := 0 |} n) [] n.
Proof.
  intros HM [Hn Hn'] Hlt. unfold DV_inv. cbn [DV_SetExpectedLength expected_ produced_].
  change (zlen []) with 0. splits; done || lia.
Qed.

(** ** Properties *)

(** The decompressor, with an output buffer of the announced size. *)
Lemma RawUncompress_spec compressed n buf :
  GetUncompressedLength compressed = Some n → zlen buf = n →
  ∃ ok out, RawUncompress compressed buf = Some (ok, out) ∧
    (ok = true → zlen out = n ∧ spec_uncompress compressed out) ∧
    (∀ o, spec_uncompress compressed o → ok = true ∧ out = o).
Proof.
  unfold GetUncompressedLength. intros Ep Hz.
  destruct (Parse32WithLimit compressed) as [[n' rest]|] eqn:E; [|done]. injection Ep as <-.
  apply Parse32WithLimit_Read in E. rename E into Ep.
  destruct (ReadUncompressedLength_loop_range 6 compressed 0 0 n' rest ltac:(decide_now) Ep) as [Hn _].
  unfold RawUncompress.
  edestruct (InternalUncompress_spec (WR := AW_inv n') (M := zlen rest) compressed
    {| aw_buf := buf; op_ := 0; op_limit_ := 0 |} n' rest) as (ok & w' & -> & H1 & H2);
    [done|unfold kuint32max; word_solve|by apply AW_init|lia|].
  cbn [mbind option_bind]. eexists _, _. split; [done|].
  assert (∀ o, AW_inv n' w' o n' → zlen o = n' → aw_buf w' = o) as Hfin.
  { intros o (_ & _ & _ & [_ HN] & _ & Ht) Ho. rewrite ztake_ge in Ht by lia. done. }
  split.
  - intros Hok. destruct (H1 Hok) as (o & Hd & Ho & Hw). rewrite (Hfin o Hw Ho).
    split; [done|]. by exists n', rest.
  - intros o (lim & rest' & E & Hd & Ho). rewrite Ep in E. injection E as <- <-. specialize (H2 o Hd Ho). split; [done|].
    destruct (H1 H2) as (o' & Hd' & Ho' & Hw). rewrite (Hfin o' Hw Ho').
    by apply (decodes_det _ _ _ _ _ Hd' Hd).
Qed.

Lemma GetUncompressedLength_nonneg compressed n : GetUncompressedLength compressed = Some n → 0 ≤ n.
Proof.
  unfold GetUncompressedLength. destruct (Parse32WithLimit compressed) as [[n' rest]|] eqn:E; [|done].
  intros [= <-]. apply Parse32WithLimit_Read in E.
  apply (ReadUncompressedLength_loop_range 6 compressed 0 0 n' rest ltac:(decide_now) E).
Qed.

Lemma Uncompress_spec max_size compressed uncompressed :
  match GetUncompressedLength compressed with
  | None => Uncompress max_size compressed uncompressed = Some (false, uncompressed)
  | Some n =>
      if decide (max_size < n + zlen uncompressed)
      then Uncompress max_size compressed uncompressed = Some (false, uncompressed)
      else ∃ ok out, Uncompress max_size compressed uncompressed = Some (ok, out) ∧
        (ok = true → zlen out = n ∧ spec_uncompress compressed out) ∧
        (∀ o, spec_uncompress compressed o → ok = true ∧ out = o)
  end.
Proof.
  unfold Uncompress. destruct (GetUncompressedLength compressed) as [n|] eqn:Ep; [|done].
  case_decide; [done|]. apply RawUncompress_spec; [done|].
  apply GetUncompressedLength_nonneg in Ep.
  unfold string_resize, zlen. rewrite length_resize. by apply Z2Nat.id.
Qed.

(** C1: [snappy::Uncompress] is memory-safe and implements the format.  On any
    input bytes whatsoever it ends without a store outside the output or the
    scratch buffer and without a load outside them or behind the end of the
    input, as the loads of four bytes at a tag would be if the last bytes were
    not moved to the scratch buffer; it succeeds exactly when the stream decodes,
    according to [decodes], to the announced number of bytes, and then the output
    string is exactly that decoding. *)
Theorem Uncompress_correct max_size compressed uncompressed :
  match GetUncompressedLength compressed with
  | None => Uncompress max_size compressed uncompressed = Some (false, uncompressed)
  | Some n =>
      if decide (max_size < n + zlen uncompressed)
      then Uncompress max_size compressed uncompressed = Some (false, uncompressed)
      else ∃ ok out, Uncompress max_size compressed uncompressed = Some (ok, out) ∧
        (ok = true → zlen out = n ∧ spec_uncompress compressed out) ∧
        (∀ o, spec_uncompress compressed o → ok = true ∧ out = o)
  end.
Proof. apply Uncompress_spec. Qed.

(** [IsValidCompressedBuffer], which produces no output, accepts exactly the
    streams that decode: as long as the announced length leaves room in 32 bits
    for one more chunk of input, its wrapping counter makes no difference. *)
Theorem IsValidCompressedBuffer_correct compressed lim rest :
  ReadUncompressedLength_loop 6 compressed 0 0 = Some (Some (lim, rest)) →
  lim + Z.max 64 (zlen compressed) < 2 ^ 32 →
  ∃ ok, IsValidCompressedBuffer compressed = Some ok ∧
    (ok = true ↔ ∃ o, spec_uncompress compressed o).
Proof.
  intros Hr Hlim.
  destruct (ReadUncompressedLength_loop_range 6 compressed 0 0 lim rest ltac:(decide_now) Hr) as [Hn Hz].
  unfold IsValidCompressedBuffer.
  edestruct (InternalUncompress_spec (WR := DV_inv (Z.max 64 (zlen compressed)))
    (M := Z.max 64 (zlen compressed)) compressed {| expected_ := 0; produced_ := 0 |} lim rest)
    as (ok & w' & -> & H1 & H2);
    [done|unfold kuint32max; word_solve|apply DV_init; [lia|done|done]|lia|].
  exists ok. split; [done|]. split.
  - intros Hok. destruct (H1 Hok) as (o & Hd & Ho & _). by exists o, lim, rest.
  - intros (o & lim' & rest' & E & Hd & Ho). rewrite Hr in E. injection E as <- <-. by apply (H2 o).
Qed.

Lemma IsValidCompressedBuffer_correct_witness :
  ∃ ok, IsValidCompressedBuffer (b8 <$> [5; 0; 97; 13; 1]) = Some ok ∧
    (ok = true ↔ ∃ o, spec_uncompress (b8 <$> [5; 0; 97; 13; 1]) o).
Proof.
  apply (IsValidCompressedBuffer_correct (b8 <$> [5; 0; 97; 13; 1]) 5 (b8 <$> [0; 97; 13; 1]));
    [vm_compute; reflexivity|decide_now].
Defined.
