(* ===== verification/SnappyCompress.v ===== *)
(** Snappy compression: [Compress], [CompressFragment] and the emitters of
    [snappy-1.1.0/snappy.cc], with [FindMatchLength] of [snappy-internal.h] (the
    version for 32-bit targets) and the bit and varint helpers of
    [snappy-stubs-internal.h].

    Input pointers are indices into the fragment; the output pointer is the list
    of the bytes emitted so far.  The fast path of [EmitLiteral] copies up to
    fifteen bytes beyond the literal; those are overwritten by the next emission
    and are not part of that list. *)
From S2P Require Import Prelude Coding Bloom Snappy SnappyUncompress.

Definition load32 (s : bytes) (p : Z) : Z := DecodeFixed32 (zdrop p s).

Definition HashBytes (bytes : Z) (shift : Z) : Z :=
  let kMul := 0x1e35a7bd in Z.shiftr (u32 (bytes * kMul)) shift.

Definition Hash (s : bytes) (p : Z) (shift : Z) : Z := HashBytes (load32 s p) shift.

(** ** Emitters *)

(** [while (n > 0) { *op++ = n & 0xff; n >>= 8; count++; }] *)
Fixpoint emit_length (fuel : nat) (n : Z) (bs : bytes) (count : Z) : bytes * Z :=
  match fuel with
  | O => (bs, count)
  | S fuel =>
      if decide (0 < n) then
        emit_length fuel (Z.shiftr n 8) (bs ++ [b8 (Z.land n 255)]) (count + 1)
      else (bs, count)
  end.

(** An [int] has at most four significant bytes. *)
Definition EmitLiteral (op literal : bytes) (len : Z) : bytes :=
  let n := len - 1 in
  if decide (n < 60) then
    op ++ [b8 (Z.lor LITERAL (Z.shiftl n 2))] ++ ztake len literal
  else
    let '(bs, count) := emit_length 5 n [] 0 in
    op ++ [b8 (Z.lor LITERAL (Z.shiftl (59 + count) 2))] ++ bs ++ ztake len literal.

Definition EmitCopyLessThan64 (op : bytes) (offset len : Z) : bytes :=
  if decide (len < 12 ∧ offset < 2048) then
    let len_minus_4 := len - 4 in
    op ++ [b8 (COPY_1_BYTE_OFFSET + Z.shiftl len_minus_4 2 + Z.shiftl (Z.shiftr offset 8) 5);
           b8 (Z.land offset 255)]
  else
    op ++ [b8 (COPY_2_BYTE_OFFSET + Z.shiftl (len - 1) 2); b8 offset; b8 (Z.shiftr offset 8)].

(** [while (len >= 68)] *)
Fixpoint EmitCopy_loop (fuel : nat) (op : bytes) (offset len : Z) : bytes * Z :=
  match fuel with
  | O => (op, len)
  | S fuel =>
      if decide (68 ≤ len) then EmitCopy_loop fuel (EmitCopyLessThan64 op offset 64) offset (len - 64)
      else (op, len)
  end.

Definition EmitCopy (op : bytes) (offset len : Z) : bytes :=
  let '(op, len) := EmitCopy_loop (Z.to_nat len) op offset len in
  let '(op, len) :=
    if decide (64 < len) then (EmitCopyLessThan64 op offset 60, len - 60) else (op, len) in
  EmitCopyLessThan64 op offset len.

(** ** Bits and matches *)

(** [Bits::Log2Floor] and [Bits::FindLSBSetNonZero], the portable versions. *)
Definition Log2Floor (n : Z) : Z :=
  if decide (n = 0) then -1
  else
    snd (fold_left (λ '(value, log) i,
      let shift := Z.shiftl 1 i in
      let x := Z.shiftr value shift in
      if decide (x ≠ 0) then (x, log + shift) else (value, log)) [4; 3; 2; 1; 0] (n, 0)).

Definition FindLSBSetNonZero (n : Z) : Z :=
  snd (fold_left (λ '(n, rc) shift,
    let x := u32 (Z.shiftl n shift) in
    if decide (x ≠ 0) then (x, rc - shift) else (n, rc)) [16; 8; 4; 2; 1] (n, 31)).

(** The two loops of [FindMatchLength(s1, s2, s2_limit)]: [s] holds both
    pointers, [s2_limit] is the end of [s]. *)
Fixpoint match_words (fuel : nat) (s : bytes) (s1 s2 limit matched : Z) : Z * Z :=
  match fuel with
  | O => (s2, matched)
  | S fuel =>
      if decide (s2 ≤ limit - 4 ∧ load32 s s2 = load32 s (s1 + matched)) then
        match_words fuel s s1 (s2 + 4) limit (matched + 4)
      else (s2, matched)
  end.

Fixpoint match_bytes (fuel : nat) (s : bytes) (s1 s2 limit matched : Z) : Z :=
  match fuel with
  | O => matched
  | S fuel =>
      if decide (s2 < limit ∧ zget s (s1 + matched) = zget s s2) then
        match_bytes fuel s s1 (s2 + 1) limit (matched + 1)
      else matched
  end.

Definition FindMatchLength (s : bytes) (s1 s2 limit : Z) : Z :=
  let fuel := length s in
  let '(s2, matched) := match_words fuel s s1 s2 limit 0 in
  if decide (s2 ≤ limit - 4) then
    let x := Z.lxor (load32 s s2) (load32 s (s1 + matched)) in
    let matching_bits := FindLSBSetNonZero x in
    matched + Z.shiftr matching_bits 3
  else match_bytes fuel s s1 s2 limit matched.

(** ** One fragment *)

Definition kBlockSize : Z := 65536.
Definition kMaxHashTableSize : Z := 16384.

Fixpoint htsize_loop (fuel : nat) (htsize input_size : Z) : Z :=
  match fuel with
  | O => htsize
  | S fuel =>
      if decide (htsize < kMaxHashTableSize ∧ htsize < input_size)
      then htsize_loop fuel (Z.shiftl htsize 1) input_size else htsize
  end.

(** [GetHashTable]: the table size and a cleared table; from 256 to 16384 takes
    six doublings. *)
Definition GetHashTable (input_size : Z) : Z * list Z :=
  let htsize := htsize_loop 7 256 input_size in
  (htsize, replicate (Z.to_nat htsize) 0).

Definition tget (table : list Z) (h : Z) : Z := nth (Z.to_nat h) table 0.

(** A [uint16] entry. *)
Definition tset (table : list Z) (h v : Z) : list Z := <[Z.to_nat h := wrap 16 v]> table.

Section Fragment.
Variables (input : bytes) (shift : Z).
Let ip_end : Z := zlen input.
Let kInputMarginBytes : Z := 15.
Let ip_limit : Z := ip_end - kInputMarginBytes.

(** Step 1, the [do ... while] that scans for a four-byte match: [inl] is
    [goto emit_remainder], [inr] the match, its candidate and the table. [None]
    would be a loop that outlives its bound. *)
Fixpoint scan (fuel : nat) (next_ip next_hash skip : Z) (table : list Z)
    : option (unit + Z * Z * list Z) :=
  match fuel with
  | O => None
  | S fuel =>
      let ip := next_ip in
      let hash := next_hash in
      let bytes_between_hash_lookups := Z.shiftr skip 5 in
      let skip := u32 (skip + 1) in
      let next_ip := ip + bytes_between_hash_lookups in
      if decide (next_ip > ip_limit) then Some (inl ())
      else
        let next_hash := Hash input next_ip shift in
        let candidate := tget table hash in
        let table := tset table hash ip in
        if decide (load32 input ip ≠ load32 input candidate)
        then scan fuel next_ip next_hash skip table
        else Some (inr (ip, candidate, table))
  end.

(** Step 3, the [do ... while] that emits copies: [inl] is [goto
    emit_remainder] with the output and [next_emit], [inr] falls through to the
    next literal. *)
Fixpoint copies (fuel : nat) (ip candidate : Z) (table : list Z) (op : bytes)
    : option (bytes * Z + bytes * Z * list Z) :=
  match fuel with
  | O => None
  | S fuel =>
      let base := ip in
      let matched := 4 + FindMatchLength input (candidate + 4) (ip + 4) ip_end in
      let ip := ip + matched in
      let offset := base - candidate in
      let op := EmitCopy op offset matched in
      let insert_tail := ip - 1 in
      let next_emit := ip in
      if decide (ip_limit ≤ ip) then Some (inl (op, next_emit))
      else
        let prev_hash := HashBytes (load32 input insert_tail) shift in
        let table := tset table prev_hash (ip - 1) in
        let cur_hash := HashBytes (load32 input (insert_tail + 1)) shift in
        let candidate := tget table cur_hash in
        let candidate_bytes := load32 input candidate in
        let table := tset table cur_hash ip in
        if decide (load32 input (insert_tail + 1) = candidate_bytes)
        then copies fuel ip candidate table op
        else Some (inr (op, ip, table))
  end.

(** The main [for] loop, entered with [ip] one past [next_emit]. *)
Fixpoint fragment_loop (fuel : nat) (ip next_hash next_emit : Z) (table : list Z) (op : bytes)
    : option (bytes * Z) :=
  match fuel with
  | O => None
  | S fuel =>
      match scan (S (length input)) ip next_hash 32 table with
      | None => None
      | Some (inl _) => Some (op, next_emit)
      | Some (inr (ip, candidate, table)) =>
          let op := EmitLiteral op (zdrop next_emit input) (ip - next_emit) in
          match copies (S (length input)) ip candidate table op with
          | None => None
          | Some (inl r) => Some r
          | Some (inr (op, ip, table)) =>
              let next_hash := HashBytes (load32 input (ip - 1 + 2)) shift in
              fragment_loop fuel (ip + 1) next_hash ip table op
          end
      end
  end.

End Fragment.

Definition CompressFragment (input op : bytes) (table : list Z) (table_size : Z) : option bytes :=
  let shift := 32 - Log2Floor table_size in
  let kInputMarginBytes := 15 in
  '(op, next_emit) ←
    (if decide (kInputMarginBytes ≤ zlen input)
     then fragment_loop input shift (S (length input)) 1 (Hash input 1 shift) 0 table op
     else Some (op, 0));
  if decide (next_emit < zlen input)
  then Some (EmitLiteral op (zdrop next_emit input) (zlen input - next_emit))
  else Some op.

(** [Varint::Encode32] is the unrolled encoder of [util/coding.cc]. *)
Definition Encode32 (v : Z) : bytes := EncodeVarint32 v.

(** The [while (N > 0)] loop over a [ByteArraySource], whose [Peek] returns
    everything that is left, so that the scratch buffer is never used. *)
Fixpoint Compress_loop (fuel : nat) (reader writer : bytes) (N : Z) : option bytes :=
  match fuel with
  | O => None
  | S fuel =>
      if decide (0 < N) then
        let '(fragment, fragment_size) := Peek reader in
        let num_to_read := Z.min N kBlockSize in
        let '(table_size, table) := GetHashTable num_to_read in
        writer ← CompressFragment (ztake num_to_read fragment) writer table table_size;
        Compress_loop fuel (Skip reader num_to_read) writer (N - num_to_read)
      else Some writer
  end.

Definition Compress (reader writer : bytes) : option bytes :=
  let N := zlen reader in
  let writer := writer ++ Encode32 N in
  Compress_loop (S (length reader)) reader writer N.

(** [RawCompress] and [Compress(input, length, &string)]: the compressed bytes. *)
Definition RawCompress (input : bytes) : option bytes := Compress input [].

(** ** Emitted bytes decode *)

(** [emits lim chunk out out']: reading [chunk] takes the decoder from [out] to
    [out'], whatever follows. *)
Definition emits (lim : Z) (chunk out out' : bytes) : Prop :=
  ∀ rest o, decodes lim rest out' o → decodes lim (chunk ++ rest) out o.

(** [enc lim hdr op out]: after the header the bytes [op] decode to [out]. *)
Definition enc (lim : Z) (hdr op out : bytes) : Prop :=
  ∃ chunk, op = hdr ++ chunk ∧ emits lim chunk [] out.

Lemma enc_init lim hdr : enc lim hdr hdr [].
Proof. exists []. split; [by rewrite app_nil_r|]. by intros rest o. Qed.

Lemma enc_extend lim hdr op out chunk out' :
  enc lim hdr op out → emits lim chunk out out' → enc lim hdr (op ++ chunk) out'.
Proof.
  intros (c & -> & Hc) He. exists (c ++ chunk). split; [by rewrite app_assoc|].
  intros rest o Hd. rewrite <- app_assoc. apply Hc, He, Hd.
Qed.

Lemma emits_step lim chunk out out' :
  (∀ rest, spec_step lim (chunk ++ rest) out = Some (rest, out')) → emits lim chunk out out'.
Proof. intros Hs rest o Hd. eapply decodes_step; [apply Hs|done]. Qed.

Lemma emits_item lim c e out it out' :
  needed (u8 c) - 1 = zlen e →
  item_of (u8 c) (le_value e) = it →
  match it with
  | Literal len => False
  | Copy offset len => 1 ≤ offset ≤ zlen out ∧ zlen out + len ≤ lim ∧ out' = self_copy out offset len
  end → emits lim (c :: e) out out'.
Proof.
  intros Hn Hit Hc. apply emits_step. intros rest. unfold spec_step. cbn [app].
  rewrite spec_tag_eq. rewrite decide_False by (rewrite zlen_cons, zlen_app; pose proof (zlen_nonneg rest); lia).
  cbn [mbind option_bind]. rewrite ztake_app_n, zdrop_app_n, Hit by done.
  destruct it as [|offset len]; [done|]. destruct Hc as (Ho & Hl & ->).
  by rewrite decide_True.
Qed.

Lemma emits_literal lim c e out len lit :
  needed (u8 c) - 1 = zlen e → item_of (u8 c) (le_value e) = Literal len →
  zlen lit = len → zlen out + len ≤ lim → emits lim (c :: e ++ lit) out (out ++ lit).
Proof.
  intros Hn Hit Hz Hl. apply emits_step. intros rest. unfold spec_step. cbn [app].
  rewrite spec_tag_eq. rewrite <- app_assoc.
  rewrite decide_False by (rewrite zlen_cons, zlen_app; pose proof (zlen_nonneg (lit ++ rest)); lia).
  cbn [mbind option_bind]. rewrite ztake_app_n, zdrop_app_n, Hit by done.
  rewrite decide_True by (rewrite zlen_app; pose proof (zlen_nonneg rest); lia).
  by rewrite ztake_app_n, zdrop_app_n.
Qed.

Lemma emit_length_spec fuel k n bs count :
  0 ≤ n < 256 ^ Z.of_nat k → (k ≤ fuel)%nat →
  ∃ e, emit_length fuel n bs count = (bs ++ e, count + zlen e) ∧ le_value e = n ∧
    zlen e ≤ Z.of_nat k ∧ (0 < n → 1 ≤ zlen e).
Proof.
  revert k n bs count. induction fuel as [|fuel IH]; intros k n bs count Hn Hk.
  { replace k with 0%nat in * by lia. cbn in Hn. exists []. cbn [emit_length le_value].
    rewrite app_nil_r, zlen_nil. splits; [f_equal; lia|lia|lia|lia]. }
  cbn [emit_length]. case_decide as Hp.
  2: { exists []. rewrite app_nil_r, zlen_nil. cbn [le_value]. splits; [f_equal; lia|lia|lia|lia]. }
  destruct k as [|k]; [cbn in Hn; lia|].
  rewrite Nat2Z.inj_succ, Z.pow_succ_r in Hn by lia.
  rewrite shiftr_div by lia. change (2 ^ 8) with 256.
  destruct (IH k (n / 256) (bs ++ [b8 (Z.land n 255)]) (count + 1)) as (e & -> & He & Hl & _); [|lia|].
  { split; [apply Z.div_pos; lia|apply Z.div_lt_upper_bound; lia]. }
  exists (b8 (Z.land n 255) :: e). rewrite <- app_assoc. cbn [app].
  rewrite zlen_cons. pose proof (zlen_nonneg e). splits.
  - f_equal. lia.
  - cbn [le_value]. rewrite u8_b8, land_255, Z.mod_mod, He by lia. word_solve.
  - lia.
  - lia.
Qed.

(** The tag bytes: [needed] and [item_of] on the bytes the emitters write. *)
Lemma tag_fields c kind hi :
  0 ≤ kind < 4 → 0 ≤ hi < 64 → c = kind + 4 * hi →
  u8 (b8 c) = c ∧ c mod 4 = kind ∧ c / 4 = hi.
Proof. intros. rewrite u8_b8. word_solve. Qed.

Lemma needed_fields c kind hi :
  0 ≤ kind < 4 → 0 ≤ hi < 64 → c = kind + 4 * hi →
  needed (u8 (b8 c)) - 1
  = if decide (kind = 0) then (if decide (hi < 60) then 0 else hi - 59)
    else if decide (kind = 1) then 1 else if decide (kind = 2) then 2 else 4.
Proof.
  intros Hk Hh Hc. rewrite needed_extra.
  destruct (tag_fields c kind hi Hk Hh Hc) as (-> & -> & ->). done.
Qed.

Lemma item_fields c kind hi v :
  0 ≤ kind < 4 → 0 ≤ hi < 64 → c = kind + 4 * hi →
  item_of (u8 (b8 c)) v
  = if decide (kind = 0) then (if decide (hi < 60) then Literal (hi + 1) else Literal (usize (v + 1)))
    else if decide (kind = 1) then Copy (hi / 8 * 256 + v) (hi mod 8 + 4)
    else Copy v (hi + 1).
Proof.
  intros Hk Hh Hc. unfold item_of.
  destruct (tag_fields c kind hi Hk Hh Hc) as (-> & -> & ->). done.
Qed.

Lemma EmitLiteral_enc lim hdr op out literal len :
  enc lim hdr op out → 1 ≤ len ≤ zlen literal → len < 2 ^ 32 → zlen out + len ≤ lim →
  enc lim hdr (EmitLiteral op literal len) (out ++ ztake len literal).
Proof.
  intros He Hl H32 Hlim. unfold EmitLiteral.
  assert (zlen (ztake len literal) = len) as Hz by (apply zlen_ztake; lia).
  change (Z.lor LITERAL ?x) with x. rewrite shiftl_mul by lia. change (2 ^ 2) with 4.
  case_decide as H60.
  - apply (enc_extend _ _ _ out); [done|].
    apply (emits_literal lim (b8 ((len - 1) * 4)) [] out len); [| |done|done].
    + rewrite (needed_fields _ 0 (len - 1)) by lia. rewrite !decide_True by lia. done.
    + rewrite (item_fields _ 0 (len - 1)) by lia. rewrite !decide_True by lia. f_equal. lia.
  - destruct (emit_length_spec 5 4 (len - 1) [] 0) as (e & -> & Hv & He4 & He1);
      [change (256 ^ Z.of_nat 4) with (2 ^ 32); lia|lia|]. cbn [app].
    specialize (He1 ltac:(lia)). change (Z.lor LITERAL ?x) with x.
    rewrite shiftl_mul by lia. change (2 ^ 2) with 4.
    apply (enc_extend _ _ _ out); [done|].
    apply (emits_literal lim (b8 ((59 + (0 + zlen e)) * 4)) e out len); [| |done|done].
    + rewrite (needed_fields _ 0 (59 + zlen e)) by lia.
      rewrite decide_True, decide_False by lia. lia.
    + rewrite (item_fields _ 0 (59 + zlen e)) by lia.
      rewrite decide_True, decide_False by lia. f_equal. rewrite Hv, wrap_small; [lia|]. word_solve.
Qed.

Lemma EmitCopyLessThan64_enc lim hdr op out offset len :
  enc lim hdr op out → 4 ≤ len ≤ 64 → 1 ≤ offset ≤ zlen out → offset < 65536 →
  zlen out + len ≤ lim →
  enc lim hdr (EmitCopyLessThan64 op offset len) (self_copy out offset len).
Proof.
  intros He Hl Ho H16 Hlim. unfold EmitCopyLessThan64, COPY_1_BYTE_OFFSET, COPY_2_BYTE_OFFSET.
  rewrite !shiftl_mul, !shiftr_div by lia. change (2 ^ 2) with 4. change (2 ^ 5) with 32.
  change (2 ^ 8) with 256.
  case_decide as Hc; (apply (enc_extend _ _ _ out); [done|]).
  - apply (emits_item lim _ _ _ (Copy offset len)).
    + rewrite (needed_fields _ 1 ((len - 4) + (offset / 256) * 8)) by word_solve. done.
    + rewrite (item_fields _ 1 ((len - 4) + (offset / 256) * 8)) by word_solve.
      rewrite decide_False, decide_True by lia. cbn [le_value].
      rewrite u8_b8, land_255, Z.mod_mod by lia. f_equal; word_solve.
    + done.
  - apply (emits_item lim _ _ _ (Copy offset len)).
    + rewrite (needed_fields _ 2 (len - 1)) by lia. done.
    + rewrite (item_fields _ 2 (len - 1)) by lia.
      rewrite !decide_False by lia. cbn [le_value]. rewrite !u8_b8. f_equal; word_solve.
    + done.
Qed.

(** ** Copies of the input *)

(** [input] repeats at [p], for [len] bytes, what it has [offset] bytes before. *)
Definition repeats (input : bytes) (offset p len : Z) : Prop :=
  ∀ i, 0 ≤ i < len → zget input (p - offset + i) = zget input (p + i).

Lemma repeats_mod input offset p len i :
  repeats input offset p len → 1 ≤ offset → 0 ≤ i < len →
  zget input (p - offset + i mod offset) = zget input (p + i).
Proof.
  intros Hr Ho. revert i. apply (well_founded_induction (Z.lt_wf 0) (λ i, 0 ≤ i < len → _)).
  intros i IH Hi. destruct (decide (i < offset)).
  - rewrite Z.mod_small by lia. apply Hr. lia.
  - rewrite <- Hr by lia. replace (p - offset + i) with (p + (i - offset)) by lia.
    rewrite <- (IH (i - offset)) by lia. do 2 f_equal.
    replace i with (i - offset + 1 * offset) at 1 by lia. apply Z_mod_plus_full.
Qed.

Lemma self_copy_input base input offset p len :
  1 ≤ offset ≤ p → 0 ≤ len → p + len ≤ zlen input → repeats input offset p len →
  self_copy (base ++ ztake p input) offset len = base ++ ztake (p + len) input.
Proof.
  intros Ho Hl Hp Hr. pose proof (zlen_nonneg base).
  assert (zlen (base ++ ztake p input) = zlen base + p) as Hz by (rewrite zlen_app, zlen_ztake; lia).
  apply zget_ext.
  { rewrite zlen_self_copy, Hz, zlen_app, zlen_ztake by lia. lia. }
  rewrite zlen_self_copy, Hz by lia. intros j Hj. rewrite zget_self_copy by lia.
  destruct (decide (j < zlen base + p)) as [Hlt|Hge].
  - rewrite target_old by lia. destruct (decide (j < zlen base)).
    + by rewrite !zget_app_l by lia.
    + rewrite !zget_app_r by lia. by rewrite !zget_ztake by lia.
  - unfold target. rewrite decide_False by lia. rewrite Hz.
    set (i := j - (zlen base + p)). pose proof (Z.mod_pos_bound i offset).
    rewrite !zget_app_r by lia. rewrite !zget_ztake by lia.
    replace (zlen base + p - offset + i mod offset - zlen base) with (p - offset + i mod offset) by lia.
    rewrite (repeats_mod input offset p len) by (done || lia). f_equal. lia.
Qed.

Lemma repeats_shift input offset p len k :
  repeats input offset p len → 0 ≤ k → repeats input offset (p + k) (len - k).
Proof.
  intros Hr Hk i Hi. replace (p + k - offset + i) with (p - offset + (k + i)) by lia.
  rewrite Hr by lia. f_equal. lia.
Qed.

Section EmitCopy.
Variables (lim : Z) (hdr base input : bytes).
Hypothesis Hlim : zlen base + zlen input ≤ lim.

(** The output bytes [op] encode the input up to position [p]. *)
Definition encoded (op : bytes) (p : Z) : Prop :=
  0 ≤ p ≤ zlen input ∧ enc lim hdr op (base ++ ztake p input).

Lemma encoded_copy op p offset len k :
  encoded op p → 4 ≤ k ≤ 64 → k ≤ len → 1 ≤ offset ≤ p → offset < 65536 →
  p + len ≤ zlen input → repeats input offset p len →
  encoded (EmitCopyLessThan64 op offset k) (p + k).
Proof.
  intros [Hp He] Hk Hkl Ho H16 Hz Hr. split; [lia|].
  rewrite <- (self_copy_input base input offset p k); [|lia|lia|lia|].
  - apply EmitCopyLessThan64_enc; [done|lia| |done|]; rewrite zlen_app, zlen_ztake; try lia.
    pose proof (zlen_nonneg base). lia.
  - intros i Hi. apply Hr. lia.
Qed.

Lemma EmitCopy_loop_encoded fuel op p offset len :
  encoded op p → 4 ≤ len → len ≤ Z.of_nat fuel → 1 ≤ offset ≤ p → offset < 65536 →
  p + len ≤ zlen input → repeats input offset p len →
  ∃ op' k, EmitCopy_loop fuel op offset len = (op', len - k) ∧ 0 ≤ k ∧ 4 ≤ len - k < 68 ∧
    encoded op' (p + k).
Proof.
  revert op p len. induction fuel as [|fuel IH]; intros op p len He Hl Hf Ho H16 Hz Hr; [lia|].
  cbn [EmitCopy_loop]. case_decide as H68.
  - destruct (IH (EmitCopyLessThan64 op offset 64) (p + 64) (len - 64))
      as (op' & k & -> & Hk & Hk' & He'); [|lia|lia|lia|done|lia|by apply repeats_shift|].
    + apply (encoded_copy op p offset len); done || lia.
    + exists op', (64 + k). splits; [f_equal; lia|lia|lia|lia|].
      by replace (p + (64 + k)) with (p + 64 + k) by lia.
  - exists op, 0. splits; [f_equal; lia|lia|lia|lia|]. by replace (p + 0) with p by lia.
Qed.

Lemma EmitCopy_encoded op p offset len :
  encoded op p → 4 ≤ len → 1 ≤ offset ≤ p → offset < 65536 →
  p + len ≤ zlen input → repeats input offset p len →
  encoded (EmitCopy op offset len) (p + len).
Proof.
  intros He Hl Ho H16 Hz Hr. unfold EmitCopy.
  destruct (EmitCopy_loop_encoded (Z.to_nat len) op p offset len)
    as (op1 & k & -> & Hk & Hk' & He1); [done|lia|lia|done|done|done|done|].
  assert (repeats input offset (p + k) (len - k)) as Hr1 by by apply repeats_shift.
  case_decide as H64.
  - assert (encoded (EmitCopyLessThan64 op1 offset 60) (p + k + 60)) as He2.
    { apply (encoded_copy _ _ _ (len - k)); done || lia. }
    replace (p + len) with (p + k + 60 + (len - k - 60)) by lia.
    apply (encoded_copy _ _ _ (len - k - 60)); try done; try lia. by apply repeats_shift.
  - replace (p + len) with (p + k + (len - k)) by lia.
    apply (encoded_copy _ _ _ (len - k)); done || lia.
Qed.
End EmitCopy.

(** ** Matches *)

Lemma load32_sum s p :
  load32 s p = u8 (zget (zdrop p s) 0) + u8 (zget (zdrop p s) 1) * 2 ^ 8
               + u8 (zget (zdrop p s) 2) * 2 ^ 16 + u8 (zget (zdrop p s) 3) * 2 ^ 24.
Proof. unfold load32. by rewrite <- (DecodeFixed32_sum _ _ _ _ []). Qed.

Lemma load32_range s p : in_w 32 (load32 s p).
Proof. apply DecodeFixed32_range. Qed.

(** Words that agree modulo [256 ^ k] agree on their first [k] bytes. *)
Lemma load32_bytes s p q k :
  0 ≤ p → 0 ≤ q → 0 ≤ k ≤ 4 →
  load32 s p mod 2 ^ (8 * k) = load32 s q mod 2 ^ (8 * k) →
  ∀ i, 0 ≤ i < k → zget s (p + i) = zget s (q + i).
Proof.
  intros Hp Hq Hk Heq i Hi. rewrite !load32_sum in Heq. apply u8_inj.
  rewrite !zget_zdrop in Heq by lia.
  pose proof (u8_range (zget s (p + 0))). pose proof (u8_range (zget s (p + 1))).
  pose proof (u8_range (zget s (p + 2))). pose proof (u8_range (zget s (p + 3))).
  pose proof (u8_range (zget s (q + 0))). pose proof (u8_range (zget s (q + 1))).
  pose proof (u8_range (zget s (q + 2))). pose proof (u8_range (zget s (q + 3))).
  assert (i = 0 ∨ i = 1 ∨ i = 2 ∨ i = 3) as [->|[->|[->| ->]]] by lia;
    assert (k = 1 ∨ k = 2 ∨ k = 3 ∨ k = 4) as [->|[->|[->| ->]]] by lia; try lia;
    cbn [Z.mul Pos.mul] in Heq; word_solve.
Qed.

Lemma load32_eq_bytes s p q :
  0 ≤ p → 0 ≤ q → load32 s p = load32 s q →
  ∀ i, 0 ≤ i < 4 → zget s (p + i) = zget s (q + i).
Proof. intros Hp Hq Heq. apply load32_bytes; [done|done|lia|]. by rewrite Heq. Qed.

(** The binary search finds a position below which every bit is zero. *)
Lemma FindLSB_step n0 s :
  ∀ n rc shift, n = u32 (Z.shiftl n0 (31 - rc)) → rc ≤ 31 → 0 ≤ shift → s = 2 * shift →
  u32 (Z.shiftl n0 (31 - rc + s)) = 0 →
  let x := u32 (Z.shiftl n shift) in
  let '(n', rc') := if decide (x ≠ 0) then (x, rc - shift) else (n, rc) in
  n' = u32 (Z.shiftl n0 (31 - rc')) ∧ rc' ≤ 31 ∧ u32 (Z.shiftl n0 (31 - rc' + shift)) = 0 ∧
  rc - shift ≤ rc'.
Proof.
  intros n rc shift -> Hrc Hs -> H0. cbn zeta.
  assert (u32 (Z.shiftl (u32 (Z.shiftl n0 (31 - rc))) shift) = u32 (Z.shiftl n0 (31 - rc + shift))) as ->.
  { unfold wrap. rewrite !shiftl_mul, Z.mul_mod_idemp_l, <- Z.mul_assoc, <- Z.pow_add_r by lia. done. }
  case_decide as Hx.
  - replace (31 - (rc - shift)) with (31 - rc + shift) by lia.
    splits; [done|lia| |lia]. by replace (31 - rc + shift + shift) with (31 - rc + 2 * shift) by lia.
  - splits; [done|lia| |lia]. destruct (decide (u32 (Z.shiftl n0 (31 - rc + shift)) = 0)); done.
Qed.

Lemma FindLSBSetNonZero_spec n :
  in_w 32 n → 0 ≤ FindLSBSetNonZero n ≤ 31 ∧ n mod 2 ^ FindLSBSetNonZero n = 0.
Proof.
  intros Hn. unfold FindLSBSetNonZero. cbn [fold_left].
  assert (n = u32 (Z.shiftl n (31 - 31))) as H by (cbn; by rewrite Z.shiftl_0_r, wrap_small).
  assert (u32 (Z.shiftl n (31 - 31 + 32)) = 0) as H0.
  { unfold wrap. rewrite shiftl_mul by lia. change (31 - 31 + 32) with 32. apply Z.mod_mul. lia. }
  pose proof (FindLSB_step n 32 n 31 16 H ltac:(lia) ltac:(lia) eq_refl H0) as S1. cbn zeta in S1.
  destruct (if decide (u32 (Z.shiftl n 16) ≠ 0) then _ else _) as [n1 r1]. destruct S1 as (E1 & L1 & Z1 & B1).
  pose proof (FindLSB_step n 16 n1 r1 8 E1 L1 ltac:(lia) eq_refl Z1) as S2. cbn zeta in S2.
  destruct (if decide (u32 (Z.shiftl n1 8) ≠ 0) then _ else _) as [n2 r2]. destruct S2 as (E2 & L2 & Z2 & B2).
  pose proof (FindLSB_step n 8 n2 r2 4 E2 L2 ltac:(lia) eq_refl Z2) as S3. cbn zeta in S3.
  destruct (if decide (u32 (Z.shiftl n2 4) ≠ 0) then _ else _) as [n3 r3]. destruct S3 as (E3 & L3 & Z3 & B3).
  pose proof (FindLSB_step n 4 n3 r3 2 E3 L3 ltac:(lia) eq_refl Z3) as S4. cbn zeta in S4.
  destruct (if decide (u32 (Z.shiftl n3 2) ≠ 0) then _ else _) as [n4 r4]. destruct S4 as (E4 & L4 & Z4 & B4).
  pose proof (FindLSB_step n 2 n4 r4 1 E4 L4 ltac:(lia) eq_refl Z4) as S5. cbn zeta in S5.
  destruct (if decide (u32 (Z.shiftl n4 1) ≠ 0) then _ else _) as [n5 r5]. destruct S5 as (E5 & L5 & Z5 & B5).
  cbn [snd]. split; [lia|].
  unfold wrap in Z5. rewrite shiftl_mul in Z5 by lia.
  replace (2 ^ 32) with (2 ^ r5 * 2 ^ (31 - r5 + 1)) in Z5 by (rewrite <- Z.pow_add_r by lia; f_equal; lia).
  rewrite Z.mul_mod_distr_r in Z5 by lia.
  assert (0 < 2 ^ (31 - r5 + 1)) by (apply Z.pow_pos_nonneg; lia). nia.
Qed.

Lemma lxor_mod_pow2 a b n :
  0 ≤ n → Z.lxor a b mod 2 ^ n = 0 → a mod 2 ^ n = b mod 2 ^ n.
Proof.
  intros Hn H. apply Z.bits_inj'. intros i Hi.
  destruct (decide (i < n)).
  - rewrite !Z.mod_pow2_bits_low by lia.
    apply (f_equal (λ z, Z.testbit z i)) in H.
    rewrite Z.mod_pow2_bits_low, Z.lxor_spec, Z.bits_0 in H by lia.
    by apply xorb_eq in H.
  - by rewrite !Z.mod_pow2_bits_high by lia.
Qed.

(** [matched] bytes agree at [s1] and [s2]. *)
Definition agree (s : bytes) (s1 s2 matched : Z) : Prop :=
  ∀ i, 0 ≤ i < matched → zget s (s1 + i) = zget s (s2 + i).

Lemma agree_extend s s1 s2 m k :
  agree s s1 s2 m → agree s (s1 + m) (s2 + m) k → agree s s1 s2 (m + k).
Proof.
  intros H1 H2 i Hi. destruct (decide (i < m)); [apply H1; lia|].
  specialize (H2 (i - m) ltac:(lia)).
  by replace (s1 + i) with (s1 + m + (i - m)) by lia; replace (s2 + i) with (s2 + m + (i - m)) by lia.
Qed.

Lemma match_words_spec fuel s s1 s2 limit m :
  0 ≤ s1 → 0 ≤ s2 → 0 ≤ m → agree s s1 s2 m → s2 + m ≤ limit → limit - (s2 + m) < 4 * Z.of_nat fuel →
  ∃ m', match_words fuel s s1 (s2 + m) limit m = (s2 + m', m') ∧ m ≤ m' ∧ agree s s1 s2 m' ∧
    s2 + m' ≤ limit ∧ (s2 + m' ≤ limit - 4 → load32 s (s2 + m') ≠ load32 s (s1 + m')).
Proof.
  intros Hs1 Hs2. revert m. induction fuel as [|fuel IH]; intros m Hm Ha Hl Hf.
  { exists m. splits; try done; lia. }
  cbn [match_words]. case_decide as Hc.
  - destruct Hc as [Hc1 Hc2].
    destruct (IH (m + 4)) as (m' & E & ? & ? & ? & ?); [lia| |lia|lia|].
    + apply agree_extend; [done|]. intros i Hi. symmetry. by apply load32_eq_bytes; try lia.
    + exists m'. rewrite <- Z.add_assoc. splits; try done; lia.
  - exists m. splits; try done. intros ? ?. by apply Hc.
Qed.

Lemma match_bytes_spec fuel s s1 s2 limit m :
  0 ≤ m → agree s s1 s2 m → s2 + m ≤ limit →
  let m' := match_bytes fuel s s1 (s2 + m) limit m in
  m ≤ m' ∧ agree s s1 s2 m' ∧ s2 + m' ≤ limit.
Proof.
  revert m. induction fuel as [|fuel IH]; intros m Hm Ha Hl; cbn [match_bytes].
  { splits; done || lia. }
  case_decide as Hc; [|splits; done || lia]. destruct Hc as [Hc1 Hc2].
  rewrite <- Z.add_assoc. destruct (IH (m + 1)) as (? & ? & ?); [lia| |lia|].
  - apply agree_extend; [done|]. intros i Hi. by replace i with 0 by lia; rewrite !Z.add_0_r.
  - splits; done || lia.
Qed.

(** [FindMatchLength] returns a common length that stays inside the input. *)
Lemma FindMatchLength_spec s s1 s2 :
  0 ≤ s1 → 0 ≤ s2 ≤ zlen s →
  let m := FindMatchLength s s1 s2 (zlen s) in
  0 ≤ m ∧ s2 + m ≤ zlen s ∧ agree s s1 s2 m.
Proof.
  intros Hs1 Hs2. cbn zeta. unfold FindMatchLength.
  destruct (decide (s2 = zlen s)) as [->|Hne].
  { assert (match_words (length s) s s1 (zlen s) (zlen s) 0 = (zlen s, 0)) as ->.
    { destruct (length s); [done|]. cbn [match_words]. by rewrite decide_False by lia. }
    rewrite decide_False by lia.
    destruct (match_bytes_spec (length s) s s1 (zlen s) (zlen s) 0) as (H1 & H2 & H3);
      [lia|intros i Hi; lia|lia|]. rewrite Z.add_0_r in *. done. }
  destruct (match_words_spec (length s) s s1 s2 (zlen s) 0) as (m & E & Hm & Ha & Hl & Hd);
    [done|lia|lia|intros i Hi; lia|lia|unfold zlen in *; lia|].
  rewrite Z.add_0_r in E. rewrite E. case_decide as H4.
  - set (x := Z.lxor _ _).
    destruct (FindLSBSetNonZero_spec x) as [Hr Hx].
    { apply in_w_lxor; [lia|apply load32_range..]. }
    set (t := FindLSBSetNonZero x) in *. rewrite shiftr_div by lia. change (2 ^ 3) with 8.
    assert (0 ≤ t / 8 ≤ 3) by word_solve.
    splits; [lia|lia|]. apply agree_extend; [done|]. intros i Hi. symmetry.
    apply (load32_bytes s _ _ (t / 8)); [lia..| |lia].
    apply lxor_mod_pow2; [lia|]. fold x.
    replace (2 ^ t) with (2 ^ (8 * (t / 8)) * 2 ^ (t - 8 * (t / 8))) in Hx
      by (rewrite <- Z.pow_add_r by word_solve; f_equal; lia).
    apply Z.mod_divide; [apply Z.pow_nonzero; lia|]. apply Z.mod_divide in Hx;
      [|apply Z.neq_mul_0; split; apply Z.pow_nonzero; word_solve].
    apply (Z.divide_trans _ _ _ ltac:(apply Z.divide_factor_l) Hx).
  - destruct (match_bytes_spec (length s) s s1 s2 (zlen s) m) as (H1 & H2 & H3); [lia|done|lia|].
    splits; done || lia.
Qed.

(** ** The hash table *)

(** Every entry is a position below [b]. *)
Definition table_lt (table : list Z) (b : Z) : Prop := ∀ h, 0 ≤ tget table h < b.

Lemma table_lt_mono table b b' : table_lt table b → b ≤ b' → table_lt table b'.
Proof. intros H Hb h. specialize (H h). lia. Qed.

Lemma table_lt_tset table b h v :
  table_lt table b → 0 ≤ v < b → b ≤ 65536 → table_lt (tset table h v) b.
Proof.
  intros H Hv Hb h'. unfold tget, tset. rewrite nth_lookup.
  destruct (decide (Z.to_nat h = Z.to_nat h')) as [->|Hne].
  - destruct (decide (Z.to_nat h' < length table)%nat).
    + rewrite list_lookup_insert_eq by done. cbn. rewrite wrap_small; [done|].
      unfold in_w. change (2 ^ 16) with 65536. lia.
    + rewrite list_insert_ge by lia. rewrite <- nth_lookup. apply (H h').
  - rewrite list_lookup_insert_ne by done. rewrite <- nth_lookup. apply (H h').
Qed.

Lemma table_lt_init n : table_lt (replicate n 0) 1.
Proof.
  intros h. unfold tget. rewrite nth_lookup.
  destruct (replicate n 0 !! Z.to_nat h) eqn:E; [|cbn; lia].
  apply lookup_replicate in E as [-> _]. cbn. lia.
Qed.

(** ** The fragment *)

Section FragmentProof.
Variables (lim : Z) (hdr base input : bytes) (shift : Z).
Hypothesis Hlim : zlen base + zlen input ≤ lim.
Hypothesis Hblock : zlen input ≤ kBlockSize.

Abbreviation encoded := (encoded lim hdr base input).

Lemma scan_spec fuel next_ip next_hash skip table :
  1 ≤ next_ip → 32 ≤ skip → skip + Z.of_nat fuel < 2 ^ 32 → table_lt table next_ip →
  zlen input - next_ip < Z.of_nat fuel → (1 ≤ fuel)%nat →
  ∃ r, scan input shift fuel next_ip next_hash skip table = Some r ∧
    match r with
    | inl _ => True
    | inr (ip, candidate, table') =>
        next_ip ≤ ip < zlen input - 15 ∧ 0 ≤ candidate < ip ∧
        load32 input ip = load32 input candidate ∧ table_lt table' (ip + 1)
    end.
Proof.
  unfold kBlockSize in Hblock.
  revert next_ip next_hash skip table.
  induction fuel as [|fuel IH]; intros next_ip next_hash skip table Hip Hsk Hskf Ht Hf Hf1; [lia|].
  cbn [scan].
  assert (1 ≤ Z.shiftr skip 5) as Hb.
  { rewrite shiftr_div by lia. change (2 ^ 5) with 32. word_solve. }
  case_decide as Hlimit; [by eexists|].
  assert (table_lt (tset table next_hash next_ip) (next_ip + 1)) as Ht'.
  { apply table_lt_tset; [apply (table_lt_mono _ next_ip); [done|lia]|lia|lia]. }
  case_decide as Hne.
  - rewrite wrap_small by (unfold in_w; lia).
    destruct (IH (next_ip + Z.shiftr skip 5) (Hash input (next_ip + Z.shiftr skip 5) shift)
      (skip + 1) (tset table next_hash next_ip)) as (r & -> & Hr); [lia|lia|lia| |lia|lia|].
    + apply (table_lt_mono _ (next_ip + 1)); [done|lia].
    + eexists. split; [done|]. destruct r as [|[[ip candidate] table']]; [done|].
      destruct Hr as (? & ? & ? & ?). splits; done || lia.
  - eexists. split; [done|]. pose proof (Ht next_hash).
    destruct (decide (load32 input next_ip = load32 input (tget table next_hash))); [|done].
    splits; done || lia.
Qed.

Lemma table_entries table b h : table_lt table b → 0 ≤ tget table h < b.
Proof. intros H. apply H. Qed.

Lemma copies_spec fuel ip candidate table op :
  encoded op ip → ip < zlen input - 15 → 0 ≤ candidate < ip →
  load32 input ip = load32 input candidate → table_lt table (ip + 1) →
  zlen input - ip < Z.of_nat fuel →
  ∃ r, copies input shift fuel ip candidate table op = Some r ∧
    match r with
    | inl (op', next_emit) => encoded op' next_emit
    | inr (op', ip', table') =>
        encoded op' ip' ∧ ip < ip' < zlen input - 15 ∧ table_lt table' (ip' + 1)
    end.
Proof.
  unfold kBlockSize in Hblock.
  revert ip candidate table op.
  induction fuel as [|fuel IH]; intros ip candidate table op He Hip Hc Heq Ht Hf; [lia|].
  cbn [copies].
  destruct (FindMatchLength_spec input (candidate + 4) (ip + 4)) as (Hm0 & Hm1 & Hagree); [lia|lia|].
  change kBlockSize with 65536 in Hblock.
  remember (4 + FindMatchLength input (candidate + 4) (ip + 4) (zlen input)) as matched eqn:Em.
  assert (repeats input (ip - candidate) ip matched) as Hr.
  { intros i Hi. replace (ip - (ip - candidate) + i) with (candidate + i) by lia.
    apply (agree_extend input candidate ip 4 (matched - 4)); [..|lia].
    - intros j Hj. symmetry. by apply load32_eq_bytes; try lia.
    - intros j Hj. apply Hagree. lia. }
  assert (encoded (EmitCopy op (ip - candidate) matched) (ip + matched)) as He'.
  { apply EmitCopy_encoded; try done; lia. }
  case_decide as Hlimit; [eexists; split; [done|exact He']|].
  assert (ip + matched ≤ zlen input) as Hin by lia.
  remember (ip + matched) as ip' eqn:Eip.
  assert (table_lt (tset table (HashBytes (load32 input (ip' - 1)) shift) (ip' - 1)) ip') as Ht1.
  { apply table_lt_tset; [|lia|lia]. apply (table_lt_mono _ (ip + 1)); [done|lia]. }
  replace (ip' - 1 + 1) with ip' by lia.
  set (t1 := tset table _ _) in *. set (cur := HashBytes (load32 input ip') shift).
  assert (table_lt (tset t1 cur ip') (ip' + 1)) as Ht2.
  { apply table_lt_tset; [|lia|lia]. apply (table_lt_mono _ ip'); [done|lia]. }
  pose proof (table_entries t1 ip' cur Ht1) as Hcand.
  case_decide as Hagain.
  - destruct (IH ip' (tget t1 cur) (tset t1 cur ip') (EmitCopy op (ip - candidate) matched))
      as (r & -> & Hr'); [done|lia|lia|done|done|lia|].
    eexists. split; [done|]. destruct r as [[op' ne]|[[op' ip2] t2]]; [done|].
    destruct Hr' as (? & ? & ?). splits; done || lia.
  - eexists. split; [done|]. cbn beta iota. splits; done || lia.
Qed.

Lemma encoded_literal op p q :
  encoded op p → p < q ≤ zlen input → encoded (EmitLiteral op (zdrop p input) (q - p)) q.
Proof.
  intros [Hp He] Hq. split; [lia|]. unfold kBlockSize in Hblock.
  assert (zlen (zdrop p input) = zlen input - p) as Hz by (apply zlen_zdrop; lia).
  replace (base ++ ztake q input) with ((base ++ ztake p input) ++ ztake (q - p) (zdrop p input)).
  - apply EmitLiteral_enc; [done|lia|lia|]. rewrite zlen_app, zlen_ztake by lia. lia.
  - rewrite <- app_assoc. f_equal. unfold ztake, zdrop.
    replace (Z.to_nat q) with (Z.to_nat p + Z.to_nat (q - p))%nat by lia. by rewrite take_take_drop.
Qed.

Lemma fragment_loop_spec fuel ip next_hash next_emit table op :
  encoded op next_emit → next_emit < ip → table_lt table ip →
  zlen input - ip < Z.of_nat fuel → (1 ≤ fuel)%nat →
  ∃ op' ne, fragment_loop input shift fuel ip next_hash next_emit table op = Some (op', ne) ∧
    encoded op' ne.
Proof.
  pose proof Hblock as Hbl. unfold kBlockSize in Hbl.
  revert ip next_hash next_emit table op.
  induction fuel as [|fuel IH]; intros ip next_hash next_emit table op He Hip Ht Hf Hf1; [lia|].
  cbn [fragment_loop]. pose proof He as [Hne _].
  destruct (scan_spec (S (length input)) ip next_hash 32 table)
    as (r & -> & Hr); [lia|lia|unfold zlen in *; lia|done|unfold zlen in *; lia|lia|].
  destruct r as [|[[ip1 candidate] t1]]; [by eexists _, _|].
  destruct Hr as (Hip1 & Hc & Heq & Ht1).
  destruct (copies_spec (S (length input)) ip1 candidate t1
      (EmitLiteral op (zdrop next_emit input) (ip1 - next_emit))) as (r & -> & Hr);
    [apply encoded_literal; [done|lia]|lia|lia|done|done|unfold zlen in *; lia|].
  destruct r as [[op2 ne2]|[[op2 ip2] t2]]; [by eexists _, _|].
  destruct Hr as (He2 & Hip2 & Ht2). apply IH; try done; lia.
Qed.

End FragmentProof.

Lemma CompressFragment_spec lim hdr base input op n table_size :
  zlen base + zlen input ≤ lim → zlen input ≤ kBlockSize → enc lim hdr op base →
  ∃ op', CompressFragment input op (replicate n 0) table_size = Some op' ∧
    enc lim hdr op' (base ++ input).
Proof.
  intros Hlim Hblock Hop. unfold CompressFragment.
  assert (encoded lim hdr base input op 0) as He0.
  { split; [pose proof (zlen_nonneg input); lia|]. by rewrite ztake_0, app_nil_r. }
  assert (∃ op1 ne, (if decide (15 ≤ zlen input)
     then fragment_loop input (32 - Log2Floor table_size) (S (length input)) 1
            (Hash input 1 (32 - Log2Floor table_size)) 0 (replicate n 0) op
     else Some (op, 0)) = Some (op1, ne) ∧ encoded lim hdr base input op1 ne) as (op1 & ne & -> & He1).
  { case_decide; [|by eexists _, _].
    apply fragment_loop_spec; try done; [apply table_lt_init|unfold zlen in *; lia|lia]. }
  cbn [mbind option_bind]. pose proof He1 as [Hne He1'].
  assert (encoded lim hdr base input op1 ne → ne = zlen input → enc lim hdr op1 (base ++ input)) as Hend.
  { intros _ ->. by rewrite ztake_ge in He1' by lia. }
  case_decide.
  - eexists. split; [done|]. destruct (encoded_literal lim hdr base input Hlim Hblock op1 ne (zlen input) He1) as [_ He2]; [lia|].
    by rewrite ztake_ge in He2 by lia.
  - eexists. split; [done|]. apply Hend; [done|lia].
Qed.

(** ** The whole input *)

Lemma Compress_loop_spec lim hdr fuel reader writer base :
  enc lim hdr writer base → zlen base + zlen reader ≤ lim → zlen reader < Z.of_nat fuel →
  ∃ c, Compress_loop fuel reader writer (zlen reader) = Some c ∧ enc lim hdr c (base ++ reader).
Proof.
  revert reader writer base. induction fuel as [|fuel IH]; intros reader writer base He Hl Hf.
  { pose proof (zlen_nonneg reader). lia. }
  cbn [Compress_loop]. case_decide as HN.
  - unfold Peek, Skip, GetHashTable. set (k := Z.min (zlen reader) kBlockSize).
    assert (0 < k ≤ zlen reader ∧ k ≤ kBlockSize) as ((Hk0 & Hk1) & Hk2) by (unfold kBlockSize in *; lia).
    assert (zlen (ztake k reader) = k) as Hzk by (apply zlen_ztake; lia).
    assert (zlen (zdrop k reader) = zlen reader - k) as Hzd by (apply zlen_zdrop; lia).
    destruct (CompressFragment_spec lim hdr base (ztake k reader) writer
      (Z.to_nat (htsize_loop 7 256 k)) (htsize_loop 7 256 k)
      ltac:(lia) ltac:(lia) He) as (w' & -> & He').
    cbn [mbind option_bind]. rewrite <- Hzd.
    destruct (IH (zdrop k reader) w' (base ++ ztake k reader)) as (c & -> & Hc);
      [done|rewrite zlen_app; lia|lia|].
    exists c. split; [done|]. by rewrite <- app_assoc, ztake_zdrop in Hc.
  - assert (reader = []) as -> by (apply zlen_zero; pose proof (zlen_nonneg reader); lia).
    exists writer. split; [done|]. by rewrite app_nil_r.
Qed.

Lemma Parse32_step_more shift max result v p more :
  max ≤ 128 → 128 ≤ v → Parse32_step shift max result (b8 (Z.lor (Z.land v 127) 128) :: p) more
  = more (Z.lor result (u32 (Z.shiftl (v mod 128) shift))) p.
Proof.
  intros Hm Hv. unfold Parse32_step. rewrite varint_byte_more, decide_False by word_solve.
  replace (Z.land (v mod 128 + 128) 127) with (v mod 128); [done|]. rewrite land_127. word_solve.
Qed.

Lemma Parse32_step_last shift max result v p more :
  max ≤ 128 → 0 ≤ v < max →
  Parse32_step shift max result (b8 v :: p) more = Some (Z.lor result (u32 (Z.shiftl v shift)), p).
Proof.
  intros Hm Hv. unfold Parse32_step. rewrite u8_b8_small, decide_True by lia.
  replace (Z.land v 127) with v; [done|]. rewrite land_127. word_solve.
Qed.

(** The groups of seven bits read so far, with the next one. *)
Lemma lor_group v shift :
  0 ≤ shift → 0 ≤ v < 2 ^ 32 → shift ≤ 28 →
  Z.lor (v mod 2 ^ shift) (u32 (Z.shiftl (Z.shiftr v shift mod 128) shift)) = v mod 2 ^ (shift + 7)
  ∧ (Z.shiftr v shift < 128 → Z.lor (v mod 2 ^ shift) (u32 (Z.shiftl (Z.shiftr v shift) shift)) = v).
Proof.
  intros Hs Hv Hs'. rewrite shiftr_div by lia.
  assert (0 < 2 ^ shift) by (apply Z.pow_pos_nonneg; lia).
  assert (0 ≤ v / 2 ^ shift) by (apply Z.div_pos; lia).
  pose proof (Z.div_mod v (2 ^ shift) ltac:(lia)) as Ed.
  pose proof (Z.mod_pos_bound v (2 ^ shift) ltac:(lia)).
  assert (∀ g, 0 ≤ g ≤ v / 2 ^ shift →
    Z.lor (v mod 2 ^ shift) (u32 (Z.shiftl g shift)) = v mod 2 ^ shift + g * 2 ^ shift) as Hg.
  { intros g Hg. rewrite wrap_shiftl_small by (lia || nia).
    by rewrite lor_shiftl_add by lia. }
  split.
  - rewrite Hg by (pose proof (Z.mod_le (v / 2 ^ shift) 128); word_solve).
    rewrite Z.pow_add_r by lia. change (2 ^ 7) with 128.
    rewrite Z.rem_mul_r by lia. lia.
  - intros _. rewrite Hg by lia. lia.
Qed.

Lemma Parse32WithLimit_Encode32 v rest :
  in_w 32 v → Parse32WithLimit (Encode32 v ++ rest) = Some (v, rest).
Proof.
  intros Hv. unfold Encode32, EncodeVarint32, Parse32WithLimit.
  change (Z.shiftl 1 7) with 128. change (Z.shiftl 1 14) with 16384.
  change (Z.shiftl 1 21) with 2097152. change (Z.shiftl 1 28) with 268435456.
  rewrite (b8_lor_128 v), (b8_lor_128 (v ≫ 7)), (b8_lor_128 (v ≫ 14)), (b8_lor_128 (v ≫ 21)).
  pose proof (lor_group v 0 ltac:(lia) Hv ltac:(lia)) as [G0 L0].
  pose proof (lor_group v 7 ltac:(lia) Hv ltac:(lia)) as [G1 L1].
  pose proof (lor_group v 14 ltac:(lia) Hv ltac:(lia)) as [G2 L2].
  pose proof (lor_group v 21 ltac:(lia) Hv ltac:(lia)) as [G3 L3].
  pose proof (lor_group v 28 ltac:(lia) Hv ltac:(lia)) as [_ L4].
  change (0 + 7) with 7 in *. change (7 + 7) with 14 in *. change (14 + 7) with 21 in *.
  change (21 + 7) with 28 in *. rewrite Z.shiftr_0_r, Z.mod_1_r in *.
  repeat case_decide; cbn [app];
    repeat (rewrite Parse32_step_more by (rewrite ?shiftr_div by lia; word_solve);
            rewrite ?G0, ?G1, ?G2, ?G3);
    rewrite Parse32_step_last by (rewrite ?shiftr_div by lia; word_solve);
    rewrite ?L0, ?L1, ?L2, ?L3, ?L4 by (rewrite ?shiftr_div by lia; word_solve); done.
Qed.

Lemma RawCompress_spec x :
  in_w 32 (zlen x) →
  ∃ c, RawCompress x = Some c ∧ spec_uncompress c x ∧ GetUncompressedLength c = Some (zlen x).
Proof.
  intros Hx. unfold RawCompress, Compress. cbn [app].
  destruct (Compress_loop_spec (zlen x) (Encode32 (zlen x)) (S (length x)) x (Encode32 (zlen x)) [])
    as (c & -> & (chunk & -> & Hc)); [apply enc_init|change (zlen []) with 0; lia|unfold zlen; lia|].
  cbn [app] in Hc. specialize (Hc [] x (decodes_nil _ _)). rewrite app_nil_r in Hc.
  assert (Parse32WithLimit (Encode32 (zlen x) ++ chunk) = Some (zlen x, chunk)) as Hp
    by by apply Parse32WithLimit_Encode32.
  pose proof (Parse32WithLimit_Read _ _ _ Hp) as Hr.
  assert (spec_uncompress (Encode32 (zlen x) ++ chunk) x) as Hs by by exists (zlen x), chunk.
  eexists. splits; [done|done|]. unfold GetUncompressedLength. by rewrite Hp.
Qed.

(** C3: compression and decompression are inverse: for every input of less than
    2^32 bytes the compressor terminates with a stream that decodes to the
    input, and decompressing that stream gives the input back. *)
Theorem Compress_roundtrip max_size x :
  in_w 32 (zlen x) → zlen x ≤ max_size →
  ∃ c, RawCompress x = Some c ∧ spec_uncompress c x ∧
    Uncompress max_size c [] = Some (true, x).
Proof.
  intros Hx Hmax. destruct (RawCompress_spec x Hx) as (c & Hc & Hs & Hl). exists c. splits; [done|done|].
  pose proof (Uncompress_spec max_size c []) as HU. rewrite Hl in HU.
  change (zlen []) with 0 in HU. rewrite decide_False in HU by lia.
  destruct HU as (ok & out & E & _ & H2). destruct (H2 x Hs) as [-> ->]. exact E.
Qed.

Lemma Compress_roundtrip_witness :
  let x := str "abcabcabcabcabcabcabcabcabcabcabcabcabcabc" in
  in_w 32 (zlen x) ∧
  ∃ c, RawCompress x = Some c ∧ spec_uncompress c x ∧ Uncompress 100 c [] = Some (true, x).
Proof. cbn zeta. split; [by vm_compute|]. apply (Compress_roundtrip 100); by vm_compute. Defined.
