(* ===== verification/SnappyBound.v ===== *)
(** The memory the Snappy compressor relies on: the output never exceeds
    [MaxCompressedLength] of [snappy-1.1.0/snappy.cc], which sizes the buffer
    [Compress] writes to without checks, and every hash indexes the table. *)
From S2P Require Import Prelude Coding Bloom Snappy SnappyUncompress SnappyCompress.

Definition MaxCompressedLength (source_len : Z) : Z :=
  usize (usize (32 + source_len) + source_len / 6).

(** ** The hash table *)

Lemma htsize_loop_pow fuel k input_size :
  0 ≤ k ≤ 14 → ∃ k', k ≤ k' ≤ 14 ∧ htsize_loop fuel (2 ^ k) input_size = 2 ^ k'.
Proof.
  revert k. induction fuel as [|fuel IH]; intros k Hk; cbn [htsize_loop];
    [exists k; splits; done || lia|].
  case_decide as H; [|by exists k; splits; done || lia].
  destruct H as [H _]. unfold kMaxHashTableSize in H.
  assert (k < 14) by (apply (Z.pow_lt_mono_r_iff 2); [lia..|by change (2 ^ 14) with 16384]).
  destruct (IH (k + 1)) as (k' & ? & E); [lia|]. exists k'. split; [lia|].
  rewrite shiftl_mul, <- Z.pow_add_r by lia. exact E.
Qed.

(** Every hash of a fragment is an index of its table. *)
Lemma hash_in_table n w :
  let '(size, table) := GetHashTable n in
  0 ≤ HashBytes w (32 - Log2Floor size) < zlen table.
Proof.
  unfold GetHashTable. change 256 with (2 ^ 8).
  destruct (htsize_loop_pow 7 8 n) as (k & Hk & ->); [lia|].
  rewrite zlen_replicate by (apply Z.pow_nonneg; lia).
  assert (Log2Floor (2 ^ k) = k) as ->.
  { assert (k = 8 ∨ k = 9 ∨ k = 10 ∨ k = 11 ∨ k = 12 ∨ k = 13 ∨ k = 14)
      as [->|[->|[->|[->|[->|[->| ->]]]]]] by lia; by vm_compute. }
  unfold HashBytes. rewrite shiftr_div by lia.
  pose proof (wrap_range 32 (w * 506832829) ltac:(lia)) as [H1 H2].
  change 0x1e35a7bd with 506832829.
  assert (0 < 2 ^ (32 - k)) by (apply Z.pow_pos_nonneg; lia).
  split; [by apply Z.div_pos|]. apply Z.div_lt_upper_bound; [done|].
  rewrite <- Z.pow_add_r by lia. by replace (32 - k + k) with 32 by lia.
Qed.

(** ** Emitters *)

Lemma emit_length_count fuel n bs count :
  zlen (fst (emit_length fuel n bs count)) - zlen bs = snd (emit_length fuel n bs count) - count.
Proof.
  revert n bs count. induction fuel as [|fuel IH]; intros n bs count; cbn [emit_length]; [cbn; lia|].
  case_decide; [|cbn; lia].
  specialize (IH (Z.shiftr n 8) (bs ++ [b8 (Z.land n 255)]) (count + 1)).
  rewrite zlen_app in IH. change (zlen [_]) with 1 in IH. lia.
Qed.

Lemma emit_length_bound fuel n bs count k :
  0 ≤ k → 0 ≤ n < 2 ^ (8 * k) → snd (emit_length fuel n bs count) ≤ count + k.
Proof.
  revert n bs count k. induction fuel as [|fuel IH]; intros n bs count k Hk Hn; cbn [emit_length]; [cbn; lia|].
  case_decide; [|cbn; lia].
  assert (k ≠ 0) by (intros ->; cbn in Hn; lia).
  etrans; [apply (IH _ _ _ (k - 1)); [lia|]|lia].
  rewrite shiftr_div by lia. replace (8 * k) with (8 + 8 * (k - 1)) in Hn by lia.
  rewrite Z.pow_add_r in Hn by lia.
  split; [apply Z.div_pos; lia|apply Z.div_lt_upper_bound; lia].
Qed.

(** A literal costs one byte, and one more for every six bytes from the seventh. *)
Lemma zlen_EmitLiteral op literal len :
  0 < len ≤ 65536 → len ≤ zlen literal →
  zlen (EmitLiteral op literal len) ≤ zlen op + len + 3 ∧
  6 * zlen (EmitLiteral op literal len) ≤ 6 * zlen op + 7 * len + 5.
Proof.
  intros Hl Hz. unfold EmitLiteral. case_decide as Hs.
  - rewrite !zlen_app, zlen_ztake by lia. change (zlen [_]) with 1. lia.
  - pose proof (emit_length_count 5 (len - 1) [] 0) as Hc.
    assert (len - 1 < 2 ^ (8 * 1) ∨ 257 ≤ len) as Hcase by (change (2 ^ (8 * 1)) with 256; lia).
    pose proof (emit_length_bound 5 (len - 1) [] 0 2 ltac:(lia) ltac:(change (2 ^ (8 * 2)) with 65536; lia)) as H2.
    assert (257 ≤ len ∨ snd (emit_length 5 (len - 1) [] 0) ≤ 1) as H1.
    { destruct Hcase; [right|by left]. by apply (emit_length_bound 5 (len - 1) [] 0 1); [|lia]. }
    destruct (emit_length 5 (len - 1) [] 0) as [bs count]. cbn [fst snd] in *.
    change (zlen []) with 0 in Hc.
    rewrite !zlen_app, zlen_ztake by lia. change (zlen [_]) with 1. lia.
Qed.

Lemma zlen_EmitCopyLessThan64 op offset len :
  zlen op ≤ zlen (EmitCopyLessThan64 op offset len) ≤ zlen op + 3.
Proof.
  unfold EmitCopyLessThan64. case_decide; rewrite zlen_app;
    [change (zlen [_; _]) with 2|change (zlen [_; _; _]) with 3]; lia.
Qed.

Lemma zlen_EmitCopy_loop fuel op offset len :
  let '(op', len') := EmitCopy_loop fuel op offset len in
  (4 ≤ len → 4 ≤ len') ∧ zlen op' + len' ≤ zlen op + len.
Proof.
  revert op len. induction fuel as [|fuel IH]; intros op len; cbn [EmitCopy_loop]; [lia|].
  case_decide; [|lia].
  specialize (IH (EmitCopyLessThan64 op offset 64) (len - 64)).
  pose proof (zlen_EmitCopyLessThan64 op offset 64).
  destruct (EmitCopy_loop _ _ _ _) as [op' len']. lia.
Qed.

(** A copy is shorter than what it stands for. *)
Lemma zlen_EmitCopy op offset len :
  4 ≤ len → zlen (EmitCopy op offset len) ≤ zlen op + len - 1.
Proof.
  intros Hl. unfold EmitCopy. pose proof (zlen_EmitCopy_loop (Z.to_nat len) op offset len) as H.
  destruct (EmitCopy_loop _ _ _ _) as [op1 len1]. destruct H as [H1 H2]. specialize (H1 Hl).
  case_decide.
  - pose proof (zlen_EmitCopyLessThan64 op1 offset 60).
    pose proof (zlen_EmitCopyLessThan64 (EmitCopyLessThan64 op1 offset 60) offset (len1 - 60)). lia.
  - pose proof (zlen_EmitCopyLessThan64 op1 offset len1). lia.
Qed.

(** ** Fragments *)

Section Bound.
Variables (input : bytes) (shift : Z).
Hypothesis Hblock : zlen input ≤ 65536.

(** What was emitted for the first [p] bytes when the output was [o] long. *)
Abbreviation within o op slack p := (6 * (zlen op - o) + slack ≤ 7 * p).

Lemma scan_ip fuel next_ip next_hash skip table ip candidate table' :
  32 ≤ skip → skip + Z.of_nat fuel < 2 ^ 32 →
  scan input shift fuel next_ip next_hash skip table = Some (inr (ip, candidate, table')) →
  next_ip ≤ ip < zlen input - 15.
Proof.
  revert next_ip next_hash skip table. induction fuel as [|fuel IH]; intros next_ip next_hash skip table Hs Hf;
    cbn [scan]; [done|].
  assert (1 ≤ Z.shiftr skip 5) as Hb by (rewrite shiftr_div by lia; change (2 ^ 5) with 32; word_solve).
  case_decide; [done|]. case_decide.
  - rewrite wrap_small by (unfold in_w; lia). intros E. apply IH in E; lia.
  - intros E. apply Some_inj, (inj inr), pair_equal_spec in E as [E _].
    apply pair_equal_spec in E as [<- _]. lia.
Qed.

Definition table_nonneg (table : list Z) : Prop := ∀ h, 0 ≤ tget table h.

Lemma table_nonneg_tset table h v : table_nonneg table → table_nonneg (tset table h v).
Proof.
  intros H h'. unfold tget, tset. rewrite nth_lookup.
  destruct (decide (Z.to_nat h = Z.to_nat h' ∧ (Z.to_nat h' < length table)%nat)) as [[E ?]|Hne].
  - rewrite E, list_lookup_insert_eq by done. apply wrap_range; lia.
  - destruct (decide (Z.to_nat h = Z.to_nat h')).
    + rewrite list_insert_ge by lia. rewrite <- nth_lookup. apply (H h').
    + rewrite list_lookup_insert_ne by done. rewrite <- nth_lookup. apply (H h').
Qed.

Lemma scan_table fuel next_ip next_hash skip table ip candidate table' :
  table_nonneg table → scan input shift fuel next_ip next_hash skip table = Some (inr (ip, candidate, table')) →
  0 ≤ candidate ∧ table_nonneg table'.
Proof.
  revert next_ip next_hash skip table. induction fuel as [|fuel IH]; intros next_ip next_hash skip table Ht;
    cbn [scan]; [done|].
  case_decide; [done|]. case_decide; [apply IH; by apply table_nonneg_tset|].
  intros E. apply Some_inj, (inj inr), pair_equal_spec in E as [E <-].
  apply pair_equal_spec in E as [_ <-]. split; [apply Ht|by apply table_nonneg_tset].
Qed.

Lemma copies_bound o fuel ip candidate table op r :
  0 ≤ candidate → table_nonneg table → 0 ≤ ip ≤ zlen input - 15 → within o op (-5) ip →
  copies input shift fuel ip candidate table op = Some r →
  match r with
  | inl (op', next_emit) => within o op' 5 next_emit ∧ 0 ≤ next_emit ≤ zlen input
  | inr (op', ip', table') => within o op' 5 ip' ∧ 0 ≤ ip' ≤ zlen input ∧ table_nonneg table'
  end.
Proof.
  revert ip candidate table op. induction fuel as [|fuel IH]; intros ip candidate table op Hc Ht Hip Hw;
    cbn [copies]; [done|].
  destruct (FindMatchLength_spec input (candidate + 4) (ip + 4)) as (Hm0 & Hm1 & _); [lia|lia|].
  remember (4 + FindMatchLength input (candidate + 4) (ip + 4) (zlen input)) as matched eqn:Em.
  pose proof (zlen_EmitCopy op (ip - candidate) matched ltac:(lia)) as Hz.
  assert (ip + matched ≤ zlen input) by lia.
  case_decide as Hlim; [intros E; apply Some_inj in E; subst r; cbn beta iota; lia|].
  set (t1 := tset table _ _). assert (table_nonneg t1) as Ht1 by by apply table_nonneg_tset.
  case_decide as Hagain.
  - apply IH; [apply Ht1|by apply table_nonneg_tset|lia|lia].
  - intros E. apply Some_inj in E. subst r. cbn beta iota. splits; try lia. by apply table_nonneg_tset.
Qed.

(** Either nothing was emitted yet, or there is room for a short literal. *)
Definition loop_bound (o : Z) (op : bytes) (next_emit : Z) : Prop :=
  0 ≤ next_emit ≤ zlen input ∧ (next_emit = 0 ∧ zlen op = o ∨ within o op 5 next_emit).

Lemma fragment_loop_bound o fuel ip next_hash next_emit table op op' ne :
  table_nonneg table → next_emit < ip → loop_bound o op next_emit →
  fragment_loop input shift fuel ip next_hash next_emit table op = Some (op', ne) →
  loop_bound o op' ne.
Proof.
  revert ip next_hash next_emit table op.
  induction fuel as [|fuel IH]; intros ip next_hash next_emit table op Ht Hip Hb; cbn [fragment_loop]; [done|].
  destruct (scan _ _ _ _ _ _ _) as [[[]|[[ip1 candidate] t1]]|] eqn:Escan; [|..|done].
  { intros E. apply Some_inj, pair_equal_spec in E as [<- <-]. done. }
  pose proof (scan_table _ _ _ _ _ _ _ _ Ht Escan) as [Hc Ht1].
  apply scan_ip in Escan; [|lia|unfold zlen in *; lia].
  unfold loop_bound in Hb.
  assert (within o (EmitLiteral op (zdrop next_emit input) (ip1 - next_emit)) (-5) ip1) as Hw.
  { destruct (zlen_EmitLiteral op (zdrop next_emit input) (ip1 - next_emit));
      [lia|rewrite zlen_zdrop; lia|lia]. }
  destruct (copies _ _ _ _ _ _ _) as [r|] eqn:Ecopies; [|done].
  apply (copies_bound o) in Ecopies; [|done|done|lia|done].
  destruct r as [[op2 ne2]|[[op2 ip2] t2]].
  - intros E. apply Some_inj, pair_equal_spec in E as [<- <-]. unfold loop_bound. lia.
  - destruct Ecopies as (? & ? & ?). apply IH; [done|lia|]. unfold loop_bound. lia.
Qed.
End Bound.

(** A fragment of eighteen bytes or more grows by a sixth at most. *)
Lemma CompressFragment_bound input op n table_size op' :
  0 < zlen input ≤ 65536 → CompressFragment input op (replicate n 0) table_size = Some op' →
  6 * zlen op' ≤ 6 * zlen op + 7 * zlen input + 5 ∧
  (18 ≤ zlen input → 6 * zlen op' ≤ 6 * zlen op + 7 * zlen input).
Proof.
  intros Hz. unfold CompressFragment.
  assert (∀ op1 ne, (if decide (15 ≤ zlen input)
     then fragment_loop input (32 - Log2Floor table_size) (S (length input)) 1
            (Hash input 1 (32 - Log2Floor table_size)) 0 (replicate n 0) op
     else Some (op, 0)) = Some (op1, ne) → loop_bound input (zlen op) op1 ne) as Hl.
  { intros op1 ne. case_decide.
    - apply fragment_loop_bound; [lia| |lia|unfold loop_bound; lia].
      intros h. pose proof (table_lt_init n h). lia.
    - intros E. apply Some_inj, pair_equal_spec in E as [<- <-]. unfold loop_bound. lia. }
  destruct (if decide _ then _ else _) as [[op1 ne]|] eqn:E; [|done]. specialize (Hl _ _ eq_refl). clear E.
  cbn [mbind option_bind]. unfold loop_bound in Hl. case_decide.
  - intros E'. apply Some_inj in E' as <-.
    destruct (zlen_EmitLiteral op1 (zdrop ne input) (zlen input - ne)); [lia|rewrite zlen_zdrop; lia|].
    destruct Hl as [Hne [[-> <-]|Hw]]; [|lia].
    rewrite Z.sub_0_r in *. lia.
  - intros E'. apply Some_inj in E' as <-. lia.
Qed.

Lemma Compress_loop_bound fuel reader writer c :
  Compress_loop fuel reader writer (zlen reader) = Some c →
  6 * zlen c ≤ 6 * zlen writer + 7 * zlen reader + 5.
Proof.
  revert reader writer. induction fuel as [|fuel IH]; intros reader writer; cbn [Compress_loop]; [done|].
  pose proof (zlen_nonneg reader).
  case_decide; [|intros E; apply Some_inj in E as <-; lia].
  unfold Peek, Skip, GetHashTable. set (k := Z.min (zlen reader) kBlockSize).
  assert (kBlockSize = 65536) as Hbs by done.
  assert (zlen (ztake k reader) = k) as Hzk by (apply zlen_ztake; lia).
  assert (zlen (zdrop k reader) = zlen reader - k) as Hzd by (apply zlen_zdrop; lia).
  destruct (CompressFragment _ _ _ _) as [w|] eqn:E; [|done].
  apply CompressFragment_bound in E as [E1 E2]; [|lia].
  cbn [mbind option_bind]. rewrite <- Hzd. intros Ec.
  destruct (decide (k = zlen reader)) as [Hk|Hk].
  - assert (zdrop k reader = []) as Hnil by (apply zlen_zero; lia).
    rewrite Hnil in Ec. destruct fuel; [done|]. cbn in Ec. apply Some_inj in Ec as <-. lia.
  - apply IH in Ec. specialize (E2 ltac:(lia)). lia.
Qed.

Lemma zlen_Encode32 v : zlen (Encode32 v) ≤ 5.
Proof. unfold Encode32, EncodeVarint32. repeat case_decide; vm_compute; done. Qed.

Lemma RawCompress_bounded x c :
  32 + zlen x + zlen x / 6 < 2 ^ 32 → RawCompress x = Some c →
  zlen c ≤ MaxCompressedLength (zlen x).
Proof.
  intros Hx. unfold RawCompress, Compress. intros E. apply Compress_loop_bound in E.
  pose proof (zlen_nonneg x). pose proof (zlen_Encode32 (zlen x)).
  unfold MaxCompressedLength. rewrite (wrap_small 32 (32 + zlen x)), wrap_small by (unfold in_w; word_solve).
  rewrite app_nil_l in E. word_solve.
Qed.

(** C4: the compressor writes at most [MaxCompressedLength] bytes, the size
    its caller gives the output buffer, whenever that size fits 32 bits. *)
Theorem Compress_bounded x c :
  32 + zlen x + zlen x / 6 < 2 ^ 32 → RawCompress x = Some c →
  zlen c ≤ MaxCompressedLength (zlen x).
Proof. apply RawCompress_bounded. Qed.

Lemma Compress_bounded_witness :
  let x := str "aaaaaaaaaaaaaaaaaaaaaaaabbbbbbbbbbbbbbbbbbbbb" in
  ∃ c, RawCompress x = Some c ∧ zlen c ≤ MaxCompressedLength (zlen x).
Proof.
  cbn zeta. eexists. split; [by vm_compute|]. apply Compress_bounded; by vm_compute.
Defined.
