(* ===== verification/Logging.v ===== *)
(** Printing and parsing of numbers and strings: [util/logging.cc], with the
    conversions of [snprintf] the engine uses.

    The character tests of the source ([c >= ' ' && c <= '~'], [c >= '0' && c <=
    '9']) have the same outcome whether [char] is signed or not: a byte from 128
    on is negative for the one and too large for the other. *)
From S2P Require Import Prelude.

(** ** Conversions of the C library *)

Definition digit (d : Z) : byte := b8 (48 + d).

(** ["%llu"]: twenty digits are enough for 64 bits. *)
Fixpoint dec_loop (fuel : nat) (n : Z) (acc : bytes) : bytes :=
  match fuel with
  | O => acc
  | S fuel =>
      let acc := digit (n mod 10) :: acc in
      if decide (n < 10) then acc else dec_loop fuel (n / 10) acc
  end.

Definition dec (n : Z) : bytes := dec_loop 20 n [].

(** ["%06llu"] *)
Definition dec06 (n : Z) : bytes :=
  let s := dec n in replicate (6 - length s) (digit 0) ++ s.

Definition hexdigit (d : Z) : byte := if decide (d < 10) then b8 (48 + d) else b8 (87 + d).

(** ["\\x%02x"] *)
Definition hex02 (n : Z) : bytes := str "\x" ++ [hexdigit (n / 16); hexdigit (n mod 16)].

(** [snprintf] keeps at most [size - 1] characters. *)
Definition snprintf (size : Z) (s : bytes) : bytes := ztake (size - 1) s.

(** ** [util/logging.cc] *)

Definition AppendNumberTo (s : bytes) (num : Z) : bytes := s ++ snprintf 30 (dec num).

Definition NumberToString (num : Z) : bytes := AppendNumberTo [] num.

Fixpoint AppendEscapedStringTo (s value : bytes) : bytes :=
  match value with
  | [] => s
  | c :: value =>
      if decide (32 ≤ u8 c ∧ u8 c ≤ 126) then AppendEscapedStringTo (s ++ [c]) value
      else AppendEscapedStringTo (s ++ snprintf 10 (hex02 (Z.land (u8 c) 255))) value
  end.

Definition EscapeString (value : bytes) : bytes := AppendEscapedStringTo [] value.

Definition kMaxUint64 : Z := 2 ^ 64 - 1.

(** The [while] loop: [None] is the early [return false], with what is left of
    the input at that point. *)
Fixpoint ConsumeDecimalNumber_loop (i : bytes) (v digits : Z) : option (Z * Z) * bytes :=
  match i with
  | [] => (Some (v, digits), i)
  | c :: rest =>
      if decide (48 ≤ u8 c ∧ u8 c ≤ 57) then
        let digits := digits + 1 in
        let delta := u8 c - 48 in
        if decide (v > kMaxUint64 / 10 ∨ v = kMaxUint64 / 10 ∧ delta > kMaxUint64 mod 10)
        then (None, i)
        else ConsumeDecimalNumber_loop rest (u64 (v * 10 + delta)) digits
      else (Some (v, digits), i)
  end.

(** The result, the number when the function writes it, and the rest of the
    input. *)
Definition ConsumeDecimalNumber (i : bytes) : bool * option Z * bytes :=
  match ConsumeDecimalNumber_loop i 0 0 with
  | (None, rest) => (false, None, rest)
  | (Some (v, digits), rest) => (bool_decide (0 < digits), Some v, rest)
  end.

(** ** What a string of digits denotes *)

Definition is_digit (c : byte) : Prop := 48 ≤ u8 c ≤ 57.

#[export] Instance is_digit_dec c : Decision (is_digit c).
Proof. unfold is_digit. apply _. Defined.

Definition dec_value (v : Z) (s : bytes) : Z := fold_left (λ v c, v * 10 + (u8 c - 48)) s v.

Lemma dec_value_cons v c s : dec_value v (c :: s) = dec_value (v * 10 + (u8 c - 48)) s.
Proof. done. Qed.

Lemma dec_value_app v s t : dec_value v (s ++ t) = dec_value (dec_value v s) t.
Proof. apply fold_left_app. Qed.

Lemma dec_value_ge v s : 0 ≤ v → Forall is_digit s → v ≤ dec_value v s.
Proof.
  intros Hv Hs. revert v Hv. induction Hs as [|c s Hc Hs IH]; intros v Hv; [done|].
  rewrite dec_value_cons. unfold is_digit in Hc. etrans; [|apply IH]; lia.
Qed.

Lemma u8_digit d : 0 ≤ d < 10 → u8 (digit d) = 48 + d.
Proof. intros. unfold digit. rewrite u8_b8. apply Z.mod_small. lia. Qed.

Lemma digit_is_digit d : 0 ≤ d < 10 → is_digit (digit d).
Proof. intros. unfold is_digit. rewrite u8_digit by done. lia. Qed.

Lemma dec_loop_acc fuel n acc : dec_loop fuel n acc = dec_loop fuel n [] ++ acc.
Proof.
  revert n acc. induction fuel as [|fuel IH]; intros n acc; [done|]. cbn [dec_loop].
  case_decide; [done|]. rewrite IH, (IH _ [_]), <- app_assoc. done.
Qed.

Lemma dec_loop_S fuel n :
  dec_loop (S fuel) n [] = (if decide (n < 10) then [] else dec_loop fuel (n / 10) []) ++ [digit (n mod 10)].
Proof. cbn [dec_loop]. case_decide; [done|]. apply dec_loop_acc. Qed.

Lemma dec_loop_spec fuel n :
  (0 < fuel)%nat → 0 ≤ n < 10 ^ Z.of_nat fuel →
  Forall is_digit (dec_loop fuel n []) ∧ dec_value 0 (dec_loop fuel n []) = n ∧
  1 ≤ zlen (dec_loop fuel n []) ≤ Z.of_nat fuel.
Proof.
  revert n. induction fuel as [|fuel IH]; intros n Hf Hn; [lia|].
  pose proof (Z.div_mod n 10 ltac:(lia)). pose proof (Z.mod_pos_bound n 10 ltac:(lia)).
  rewrite dec_loop_S. case_decide as H10.
  - rewrite Z.mod_small by lia. split; [|split].
    + constructor; [apply digit_is_digit; lia|done].
    + cbn. rewrite u8_digit by lia. lia.
    + change (zlen _) with 1. lia.
  - assert (0 < fuel)%nat by (destruct fuel; [change (10 ^ Z.of_nat 1) with 10 in Hn|]; lia).
    replace (Z.of_nat (S fuel)) with (1 + Z.of_nat fuel) in Hn by lia.
    rewrite Z.pow_add_r in Hn by lia.
    destruct (IH (n / 10)) as (D1 & D2 & D3); [done|split; [apply Z.div_pos|apply Z.div_lt_upper_bound]; lia|].
    split; [|split].
    + apply Forall_app. split; [done|]. constructor; [apply digit_is_digit; lia|done].
    + rewrite dec_value_app, D2. cbn. rewrite u8_digit by lia. lia.
    + rewrite zlen_app. change (zlen [_]) with 1. lia.
Qed.

Lemma dec_spec n :
  in_w 64 n → Forall is_digit (dec n) ∧ dec_value 0 (dec n) = n ∧ 1 ≤ zlen (dec n) ≤ 20.
Proof.
  intros [H1 H2]. apply (dec_loop_spec 20); [lia|]. change (10 ^ Z.of_nat 20) with 100000000000000000000.
  change (2 ^ 64) with 18446744073709551616 in H2. lia.
Qed.

Lemma dec_value_zeros k s : dec_value 0 (replicate k (digit 0) ++ s) = dec_value 0 s.
Proof. induction k as [|k IH]; [done|]. exact IH. Qed.

Lemma dec06_spec n :
  in_w 64 n → Forall is_digit (dec06 n) ∧ dec_value 0 (dec06 n) = n ∧ 6 ≤ zlen (dec06 n) ≤ 20.
Proof.
  intros Hn. destruct (dec_spec n Hn) as (H1 & H2 & H3). unfold dec06. split; [|split].
  - apply Forall_app. split; [|done]. apply Forall_replicate, digit_is_digit. lia.
  - by rewrite dec_value_zeros.
  - unfold zlen in *. rewrite length_app, length_replicate. lia.
Qed.

(** The loop accepts a run of digits exactly when its value fits 64 bits. *)
Lemma ConsumeDecimalNumber_loop_spec ds rest v n :
  Forall is_digit ds → (∀ c s, rest = c :: s → ¬ is_digit c) → 0 ≤ v ≤ kMaxUint64 →
  if decide (dec_value v ds ≤ kMaxUint64)
  then ConsumeDecimalNumber_loop (ds ++ rest) v n = (Some (dec_value v ds, n + zlen ds), rest)
  else fst (ConsumeDecimalNumber_loop (ds ++ rest) v n) = None.
Proof.
  intros Hds Hrest. revert v n. assert (kMaxUint64 = 18446744073709551615) as Hmax by done.
  induction Hds as [|c ds Hc Hds IH]; intros v n Hv.
  - cbn [dec_value fold_left app]. rewrite decide_True by lia. rewrite zlen_nil, Z.add_0_r.
    destruct rest as [|c s]; [done|]. cbn [ConsumeDecimalNumber_loop].
    rewrite decide_False; [done|]. by apply (Hrest c s).
  - cbn [app ConsumeDecimalNumber_loop]. rewrite dec_value_cons.
    rewrite (decide_True (P := 48 ≤ u8 c ∧ u8 c ≤ 57)) by done. unfold is_digit in Hc.
    pose proof (dec_value_ge (v * 10 + (u8 c - 48)) ds ltac:(lia) Hds) as Hge.
    destruct (decide (v > _ ∨ _)) as [Hov|Hov].
    + rewrite decide_False; [done|]. rewrite Hmax in *. word_solve.
    + assert (v * 10 + (u8 c - 48) ≤ kMaxUint64) by (rewrite Hmax in *; word_solve).
      rewrite wrap_small by (unfold in_w; rewrite Hmax in *; word_solve).
      specialize (IH (v * 10 + (u8 c - 48)) (n + 1) ltac:(lia)).
      rewrite zlen_cons. by replace (n + (1 + zlen ds)) with (n + 1 + zlen ds) by lia.
Qed.

Lemma digit_prefix s :
  ∃ ds rest, s = ds ++ rest ∧ Forall is_digit ds ∧ (∀ c t, rest = c :: t → ¬ is_digit c).
Proof.
  induction s as [|c s IH].
  - exists [], []. split; [done|]. split; [constructor|done].
  - destruct (decide (is_digit c)) as [Hc|Hc].
    + destruct IH as (ds & rest & -> & H1 & H2). exists (c :: ds), rest.
      split; [done|]. split; [by constructor|done].
    + exists [], (c :: s). split; [done|]. split; [constructor|]. by intros ? ? [= <- <-].
Qed.

Lemma ConsumeDecimalNumber_digits ds rest :
  Forall is_digit ds → (∀ c t, rest = c :: t → ¬ is_digit c) → ds ≠ [] → dec_value 0 ds ≤ kMaxUint64 →
  ConsumeDecimalNumber (ds ++ rest) = (true, Some (dec_value 0 ds), rest).
Proof.
  intros Hds Hrest Hne Hv. unfold ConsumeDecimalNumber.
  pose proof (ConsumeDecimalNumber_loop_spec ds rest 0 0 Hds Hrest ltac:(by vm_compute)) as H.
  rewrite decide_True in H by done. rewrite H. rewrite bool_decide_true; [done|].
  destruct ds; [done|]. rewrite zlen_cons. pose proof (zlen_nonneg ds). lia.
Qed.

(** [ConsumeDecimalNumber] detects overflow exactly: it succeeds if and only
    if the input starts with a digit and the maximal run of digits denotes a
    number below 2^64, which it then returns with the rest of the input; and
    every number [AppendNumberTo] prints is read back. *)
Theorem ConsumeDecimalNumber_correct :
  (∀ s, ∃ ds rest, s = ds ++ rest ∧ Forall is_digit ds ∧ (∀ c t, rest = c :: t → ¬ is_digit c) ∧
    match ConsumeDecimalNumber s with
    | (true, v, r) => ds ≠ [] ∧ v = Some (dec_value 0 ds) ∧ dec_value 0 ds < 2 ^ 64 ∧ r = rest
    | (false, _, _) => ds = [] ∨ 2 ^ 64 ≤ dec_value 0 ds
    end) ∧
  (∀ n rest, in_w 64 n → (∀ c t, rest = c :: t → ¬ is_digit c) →
    ConsumeDecimalNumber (AppendNumberTo [] n ++ rest) = (true, Some n, rest)).
Proof.
  split.
  - intros s. destruct (digit_prefix s) as (ds & rest & -> & Hds & Hrest).
    exists ds, rest. split; [done|]. split; [done|]. split; [done|].
    pose proof (ConsumeDecimalNumber_loop_spec ds rest 0 0 Hds Hrest ltac:(by vm_compute)) as H.
    unfold ConsumeDecimalNumber. unfold kMaxUint64 in H. case_decide as Hv.
    + rewrite H. case_bool_decide as Hd.
      * splits; [by intros ->|done|lia|done].
      * left. apply zlen_zero. pose proof (zlen_nonneg ds). lia.
    + destruct (ConsumeDecimalNumber_loop _ _ _) as [[[v d]|] r]; [done|]. right. lia.
  - intros n rest Hn Hrest. destruct (dec_spec n Hn) as (H1 & H2 & H3).
    unfold AppendNumberTo, snprintf. cbn [app]. rewrite ztake_ge by lia.
    rewrite ConsumeDecimalNumber_digits; [by rewrite H2|done|done| |].
    + intros E. rewrite E in H3. rewrite zlen_nil in H3. lia.
    + rewrite H2. unfold kMaxUint64. unfold in_w in Hn. lia.
Qed.
