(* ===== verification/Env.v ===== *)
(** The file interfaces of [include/leveldb/env.h], as type classes over the
    state [W] of the environment, and the helpers of [util/env.cc].

    The operations are in a monad of state with undefined behaviour: an
    operation of type [M W A] takes the state to [Some (result, state)], or to
    [None] when the C++ program would use memory it does not own. *)
From S2P Require Import Prelude Status.

(** ** State with undefined behaviour *)

Definition M (W A : Type) : Type := W → option (A * W).

#[export] Instance M_ret W : MRet (M W) := λ A a w, Some (a, w).
#[export] Instance M_bind W : MBind (M W) := λ A B f m w,
  match m w with None => None | Some (a, w) => f a w end.

(** An operation that cannot change the state. *)
Definition M_lift {W A} (f : W → option A) : M W A := λ w, a ← f w; Some (a, w).

Lemma M_bind_Some {W A B} (f : A → M W B) (m : M W A) w a w' :
  m w = Some (a, w') → (m ≫= f) w = f a w'.
Proof. intros E. unfold mbind, M_bind. by rewrite E. Qed.

Lemma M_bind_inv {W A B} (m : M W A) (f : A → M W B) w r :
  (m ≫= f) w = Some r → ∃ a w', m w = Some (a, w') ∧ f a w' = Some r.
Proof. unfold mbind, M_bind. destruct (m w) as [[a w']|]; [|done]. eauto. Qed.

(** [wp m Q w]: from [w] the operation [m] is defined and ends with [Q]. *)
Definition wp {W A} (m : M W A) (Q : A → W → Prop) (w : W) : Prop :=
  match m w with Some (a, w') => Q a w' | None => False end.

Lemma wp_ret {W A} (a : A) (Q : A → W → Prop) w : Q a w → wp (mret a) Q w.
Proof. done. Qed.

Lemma wp_bind {W A B} (m : M W A) (f : A → M W B) Q w :
  wp m (λ a, wp (f a) Q) w → wp (m ≫= f) Q w.
Proof. unfold wp, mbind, M_bind. by destruct (m w) as [[a w']|]. Qed.

Lemma wp_mono {W A} (m : M W A) (P Q : A → W → Prop) w :
  wp m P w → (∀ a w', P a w' → Q a w') → wp m Q w.
Proof. unfold wp. destruct (m w) as [[a w']|]; naive_solver. Qed.

Lemma wp_Some {W A} (m : M W A) Q w : wp m Q w ↔ ∃ a w', m w = Some (a, w') ∧ Q a w'.
Proof. unfold wp. destruct (m w) as [[a w']|]; naive_solver. Qed.

(** ** Files *)

(** [Append], [Close], [Flush], [Sync] of an open [WritableFile]. *)
Class WritableFile (W : Type) := {
  wf_Append : bytes → M W Status;
  wf_Close : M W Status;
  wf_Flush : M W Status;
  wf_Sync : M W Status;
}.

(** [Read(n, result, scratch)] and [Skip(n)] of an open [SequentialFile]. *)
Class SequentialFile (W : Type) := {
  sf_Read : Z → M W (Status * bytes);
  sf_Skip : Z → M W Status;
}.

(** [Read(offset, n, result, scratch)] of an open [RandomAccessFile]. *)
Class RandomAccessFile (W : Type) := {
  rf_Read : Z → Z → M W (Status * bytes);
}.

(** What a writer may rely on: an append that succeeds adds all the data, one
    that fails some prefix of it, and nothing else changes the contents. *)
Class WritableFileLaws {W} (F : WritableFile W) (inv : W → Prop) (contents : W → bytes) : Prop := {
  Append_law data w : inv w →
    ∃ s k w', wf_Append data w = Some (s, w') ∧ inv w' ∧ 0 ≤ k ≤ zlen data ∧
      contents w' = contents w ++ ztake k data ∧ (ok s = true → k = zlen data);
  Close_law w : inv w →
    ∃ s w', wf_Close w = Some (s, w') ∧ inv w' ∧ contents w' = contents w;
  Flush_law w : inv w →
    ∃ s w', wf_Flush w = Some (s, w') ∧ inv w' ∧ contents w' = contents w;
  Sync_law w : inv w →
    ∃ s w', wf_Sync w = Some (s, w') ∧ inv w' ∧ contents w' = contents w;
}.

(** A file whose appends succeed. *)
Class ReliableFile {W} (F : WritableFile W) (inv : W → Prop) (contents : W → bytes) : Prop := {
  reliable_Append data w : inv w →
    ∃ s w', wf_Append data w = Some (s, w') ∧ ok s = true ∧ inv w' ∧ contents w' = contents w ++ data;
  reliable_Flush w : inv w →
    ∃ s w', wf_Flush w = Some (s, w') ∧ ok s = true ∧ inv w' ∧ contents w' = contents w;
}.

(** What a reader may rely on when no read fails; [rest] is what is left. *)
Class SequentialFileLaws {W} (F : SequentialFile W) (inv : W → Prop) (rest : W → bytes) : Prop := {
  Read_law n w : inv w → 0 ≤ n →
    ∃ s w', sf_Read n w = Some ((s, ztake n (rest w)), w') ∧ ok s = true ∧ inv w' ∧
      rest w' = zdrop n (rest w);
  Skip_law n w : inv w → 0 ≤ n →
    ∃ s w', sf_Skip n w = Some (s, w') ∧ ok s = true ∧ inv w' ∧ rest w' = zdrop n (rest w);
}.

(** A writable file and a sequential file that are just bytes. *)
Definition BytesWritable : WritableFile bytes := {|
  wf_Append data := λ w, Some (Status_OK, w ++ data);
  wf_Close := mret Status_OK; wf_Flush := mret Status_OK; wf_Sync := mret Status_OK |}.
Definition BytesSequential : SequentialFile bytes := {|
  sf_Read n := λ w, Some ((Status_OK, ztake n w), zdrop n w);
  sf_Skip n := λ w, Some (Status_OK, zdrop n w) |}.

Lemma BytesWritable_reliable : ReliableFile BytesWritable (λ _, True) id.
Proof. split; [intros data w _; by exists Status_OK, (w ++ data)|intros w _; by exists Status_OK, w]. Qed.

Lemma BytesSequential_laws : SequentialFileLaws BytesSequential (λ _, True) id.
Proof. split; intros n w _ Hn; by exists Status_OK, (zdrop n w). Qed.

(** ** The environment *)

(** A handle stands for a pointer to an open file object; [inl] is a status
    that is not ok, with [*result] not set. [wf_delete], [sf_delete] and
    [rf_delete] run the destructor of the file object. *)
Class Env (W : Type) := {
  WritableHandle : Type;
  SequentialHandle : Type;
  RandomHandle : Type;
  writable :: WritableHandle → WritableFile W;
  sequential :: SequentialHandle → SequentialFile W;
  random :: RandomHandle → RandomAccessFile W;
  wf_delete : WritableHandle → M W unit;
  sf_delete : SequentialHandle → M W unit;
  rf_delete : RandomHandle → M W unit;
  NewWritableFile : bytes → M W (Status + WritableHandle);
  NewSequentialFile : bytes → M W (Status + SequentialHandle);
  NewRandomAccessFile : bytes → M W (Status + RandomHandle);
  FileExists : bytes → M W bool;
  GetChildren : bytes → M W (Status * list bytes);
  DeleteFile : bytes → M W Status;
  CreateDir : bytes → M W Status;
  DeleteDir : bytes → M W Status;
  RenameFile : bytes → bytes → M W Status;
  GetFileSize : bytes → M W (Status * Z);
}.

(** ** [util/env.cc] *)

Section Helpers.
Context {W : Type} `{Env W}.

Definition DoWriteStringToFile (data fname : bytes) (should_sync : bool) : M W Status :=
  r ← NewWritableFile fname;
  match r with
  | inl s => mret s
  | inr file =>
      s ← wf_Append (WritableFile := writable file) data;
      s ← (if ok s && should_sync then wf_Sync (WritableFile := writable file) else mret s);
      s ← (if ok s then wf_Close (WritableFile := writable file) else mret s);
      _ ← wf_delete file;
      _ ← (if negb (ok s) then DeleteFile fname else mret s);
      mret s
  end.

Definition WriteStringToFile (data fname : bytes) : M W Status :=
  DoWriteStringToFile data fname false.

Definition WriteStringToFileSync (data fname : bytes) : M W Status :=
  DoWriteStringToFile data fname true.

(** The [while (true)] loop; [None] in the result is a loop that outlives
    [fuel] reads. *)
Fixpoint ReadFileToString_loop (fuel : nat) (file : SequentialHandle) (data : bytes)
    : M W (option (Status * bytes)) :=
  match fuel with
  | O => mret None
  | S fuel =>
      let kBufferSize := 8192 in
      r ← sf_Read (SequentialFile := sequential file) kBufferSize;
      let '(s, fragment) := r in
      if negb (ok s) then mret (Some (s, data))
      else
        let data := data ++ fragment in
        if decide (zlen fragment = 0) then mret (Some (s, data))
        else ReadFileToString_loop fuel file data
  end.

Definition ReadFileToString (fuel : nat) (fname : bytes) : M W (option (Status * bytes)) :=
  r ← NewSequentialFile fname;
  match r with
  | inl s => mret (Some (s, []))
  | inr file =>
      r ← ReadFileToString_loop fuel file [];
      _ ← sf_delete file;
      mret r
  end.

End Helpers.
