(* ===== verification/FileName.v ===== *)
(** The names of the files of a database: [db/filename.cc]. *)
From S2P Require Import Prelude Comparator Status Env Logging.

Inductive FileType :=
  | kLogFile | kDBLockFile | kTableFile | kDescriptorFile | kCurrentFile | kTempFile
  | kInfoLogFile.

#[export] Instance FileType_eq_dec : EqDecision FileType.
Proof. solve_decision. Defined.

(** ** Making names *)

Definition MakeFileName (name : bytes) (number : Z) (suffix : bytes) : bytes :=
  name ++ snprintf 100 (str "/" ++ dec06 number ++ str "." ++ suffix).

Definition LogFileName (name : bytes) (number : Z) : bytes := MakeFileName name number (str "log").
Definition TableFileName (name : bytes) (number : Z) : bytes := MakeFileName name number (str "ldb").
Definition SSTTableFileName (name : bytes) (number : Z) : bytes := MakeFileName name number (str "sst").
Definition DescriptorFileName (dbname : bytes) (number : Z) : bytes :=
  dbname ++ snprintf 100 (str "/MANIFEST-" ++ dec06 number).
Definition CurrentFileName (dbname : bytes) : bytes := dbname ++ str "/CURRENT".
Definition LockFileName (dbname : bytes) : bytes := dbname ++ str "/LOCK".
Definition TempFileName (dbname : bytes) (number : Z) : bytes := MakeFileName dbname number (str "dbtmp").
Definition InfoLogFileName (dbname : bytes) : bytes := dbname ++ str "/LOG".
Definition OldInfoLogFileName (dbname : bytes) : bytes := dbname ++ str "/LOG.old".

(** ** Parsing names *)

Definition ParseFileName (fname : bytes) : option (Z * FileType) :=
  let rest := fname in
  if Slice_eq rest (str "CURRENT") then Some (0, kCurrentFile)
  else if Slice_eq rest (str "LOCK") then Some (0, kDBLockFile)
  else if Slice_eq rest (str "LOG") || Slice_eq rest (str "LOG.old") then Some (0, kInfoLogFile)
  else if Slice_starts_with rest (str "MANIFEST-") then
    let rest := zdrop (zlen (str "MANIFEST-")) rest in
    match ConsumeDecimalNumber rest with
    | (true, Some num, rest) => if decide (zlen rest ≠ 0) then None else Some (num, kDescriptorFile)
    | _ => None
    end
  else
    match ConsumeDecimalNumber rest with
    | (true, Some num, suffix) =>
        if Slice_eq suffix (str ".log") then Some (num, kLogFile)
        else if Slice_eq suffix (str ".sst") || Slice_eq suffix (str ".ldb") then Some (num, kTableFile)
        else if Slice_eq suffix (str ".dbtmp") then Some (num, kTempFile)
        else None
    | _ => None
    end.

(** ** The CURRENT file *)

Section SetCurrentFile.
Context {W : Type} `{Env W}.

Definition SetCurrentFile (dbname : bytes) (descriptor_number : Z) : M W Status :=
  let manifest := DescriptorFileName dbname descriptor_number in
  let contents := zdrop (zlen dbname + 1) manifest in
  let tmp := TempFileName dbname descriptor_number in
  s ← WriteStringToFileSync (contents ++ [b8 10]) tmp;
  s ← (if ok s then RenameFile tmp (CurrentFileName dbname) else mret s);
  _ ← (if negb (ok s) then DeleteFile tmp else mret s);
  mret s.
End SetCurrentFile.

(** ** Lemmas *)

Lemma nodigit_head c s t : ¬ is_digit c → Forall is_digit t → t ≠ [] → ∀ u, t ++ u ≠ c :: s.
Proof. intros Hc Ht Hne u E. destruct Ht as [|d t Hd Ht]; [done|]. injection E as -> _. done. Qed.

(** A name that starts with digits is parsed by its suffix. *)
Lemma ParseFileName_number ds suffix t :
  Forall is_digit ds → ds ≠ [] → dec_value 0 ds ≤ kMaxUint64 →
  (suffix, t) ∈ [(str ".log", kLogFile); (str ".sst", kTableFile); (str ".ldb", kTableFile);
                 (str ".dbtmp", kTempFile)] →
  ParseFileName (ds ++ suffix) = Some (dec_value 0 ds, t).
Proof.
  intros Hds Hne Hv Ht. unfold ParseFileName. rewrite !Slice_eq_spec.
  rewrite !(bool_decide_false (ds ++ suffix = _)) by (apply nodigit_head; [by vm_compute; intros []|done|done]).
  cbn [orb].
  destruct (Slice_starts_with (ds ++ suffix) (str "MANIFEST-")) eqn:E.
  { apply Slice_starts_with_spec in E as [u E]. exfalso. revert E.
    apply nodigit_head; [by vm_compute; intros []|done|done]. }
  rewrite ConsumeDecimalNumber_digits; [|done| |done|done].
  - rewrite !Slice_eq_spec.
    repeat (apply elem_of_cons in Ht as [Ht|Ht]; [apply pair_equal_spec in Ht as [-> ->]; done|]).
    by apply elem_of_nil in Ht.
  - repeat (apply elem_of_cons in Ht as [Ht|Ht];
      [apply pair_equal_spec in Ht as [-> ->]; intros c u [= <- <-]; by vm_compute; intros []|]).
    by apply elem_of_nil in Ht.
Qed.

Lemma ParseFileName_manifest ds :
  Forall is_digit ds → ds ≠ [] → dec_value 0 ds ≤ kMaxUint64 →
  ParseFileName (str "MANIFEST-" ++ ds) = Some (dec_value 0 ds, kDescriptorFile).
Proof.
  intros Hds Hne Hv. unfold ParseFileName. rewrite !Slice_eq_spec.
  rewrite !(bool_decide_false (_ ++ ds = _)) by done. cbn [orb].
  rewrite Slice_starts_with_app, zdrop_app.
  rewrite <- (app_nil_r ds) at 1. by rewrite ConsumeDecimalNumber_digits.
Qed.

Lemma MakeFileName_eq name number suffix :
  in_w 64 number → zlen suffix ≤ 5 →
  MakeFileName name number suffix = name ++ str "/" ++ (dec06 number ++ str "." ++ suffix).
Proof.
  intros Hn Hs. unfold MakeFileName, snprintf. destruct (dec06_spec number Hn) as (_ & _ & H3).
  rewrite ztake_ge; [done|]. rewrite !zlen_app. change (zlen (str "/")) with 1.
  change (zlen (str ".")) with 1. lia.
Qed.

(** The names the engine makes are parsed as what they are. *)
Definition made_name (dbname : bytes) (number : Z) (t : FileType) (name : bytes) : Prop :=
  match t with
  | kLogFile => name = LogFileName dbname number
  | kTableFile => name = TableFileName dbname number ∨ name = SSTTableFileName dbname number
  | kDescriptorFile => name = DescriptorFileName dbname number
  | kTempFile => name = TempFileName dbname number
  | kCurrentFile => name = CurrentFileName dbname ∧ number = 0
  | kDBLockFile => name = LockFileName dbname ∧ number = 0
  | kInfoLogFile => (name = InfoLogFileName dbname ∨ name = OldInfoLogFileName dbname) ∧ number = 0
  end.

Lemma made_name_parses dbname number t name :
  in_w 64 number → made_name dbname number t name →
  ∃ base, name = dbname ++ str "/" ++ base ∧ ParseFileName base = Some (number, t).
Proof.
  intros Hn Hm. destruct (dec06_spec number Hn) as (D1 & D2 & D3).
  assert (dec06 number ≠ []) as Dne by (intros E; rewrite E, zlen_nil in D3; lia).
  assert (dec_value 0 (dec06 number) ≤ kMaxUint64) as Dv by (unfold kMaxUint64, in_w in *; lia).
  assert (∀ suffix t', (str "." ++ suffix, t') ∈ [(str ".log", kLogFile); (str ".sst", kTableFile);
      (str ".ldb", kTableFile); (str ".dbtmp", kTempFile)] → zlen suffix ≤ 5 →
    ∃ base, MakeFileName dbname number suffix = dbname ++ str "/" ++ base ∧
      ParseFileName base = Some (number, t')) as Hmake.
  { intros suffix t' Hin Hs. eexists. split; [by apply MakeFileName_eq|].
    rewrite (ParseFileName_number _ _ t'); [by rewrite D2|done..]. }
  destruct t; cbn [made_name] in Hm.
  - subst. apply Hmake; [by repeat constructor|done].
  - destruct Hm as [-> ->]. by exists (str "LOCK").
  - destruct Hm as [-> | ->]; (apply Hmake; [by repeat constructor|done]).
  - subst. exists (str "MANIFEST-" ++ dec06 number). split.
    + unfold DescriptorFileName, snprintf. rewrite ztake_ge; [done|].
      rewrite zlen_app. change (zlen (str "/MANIFEST-")) with 10. lia.
    + rewrite ParseFileName_manifest by done. by rewrite D2.
  - destruct Hm as [-> ->]. by exists (str "CURRENT").
  - subst. apply Hmake; [by repeat constructor|done].
  - destruct Hm as [[-> | ->] ->]; [by exists (str "LOG")|by exists (str "LOG.old")].
Qed.

(** C12: every name the engine gives a file of database [dbname] is "dbname/"
    followed by a base name, and [ParseFileName] reads the number and the type
    of the file back from the base name. *)
Theorem ParseFileName_correct dbname number t name :
  in_w 64 number → made_name dbname number t name →
  ∃ base, name = dbname ++ str "/" ++ base ∧ ParseFileName base = Some (number, t).
Proof. apply made_name_parses. Qed.

Lemma ParseFileName_correct_witness :
  ∃ base, TableFileName (str "/data/db") 18446744073709551615 = str "/data/db" ++ str "/" ++ base ∧
    ParseFileName base = Some (18446744073709551615, kTableFile).
Proof. apply (ParseFileName_correct _ _ kTableFile); [by vm_compute|by left]. Defined.
