(* ===== verification/MemEnv.v ===== *)
(** The in-memory environment of [helpers/memenv/memenv.cc]: files made of
    8 KiB blocks, reference counted, with a map from names to files.

    Objects live in a heap: [heap] holds the [FileState] objects and [objs] the
    open file objects, each under the number that stands for its pointer.  A
    dead or missing object makes an operation undefined.  Fresh blocks hold
    [None], the value of memory [new char[]] does not initialise.  The sizes and
    offsets are [uint64_t] in the source; no file in memory reaches 2^64 bytes.
    The mutexes, which make the operations atomic, are not modelled. *)
From stdpp Require Import gmap sorting.
From S2P Require Import Prelude Status Env Comparator Logging FileName.

#[export] Instance byte_countable : Countable byte.
Proof. exact (inj_countable Byte.to_N Byte.of_N Byte.of_to_N). Defined.

Definition kBlockSize : Z := 8192.

(** ** FileState *)

Record FileState := { refs_ : Z; blocks_ : list (list (option byte)); size_ : Z }.

Definition new_FileState : FileState := {| refs_ := 0; blocks_ := []; size_ := 0 |}.

Definition Ref (f : FileState) : FileState :=
  {| refs_ := refs_ f + 1; blocks_ := blocks_ f; size_ := size_ f |}.

(** [None]: the last reference is gone and the object deletes itself. *)
Definition Unref (f : FileState) : option FileState :=
  let f := {| refs_ := refs_ f - 1; blocks_ := blocks_ f; size_ := size_ f |} in
  if decide (refs_ f ≤ 0) then None else Some f.

(** [n] initialised bytes of a block from [offset] on. *)
Definition load_block (b : list (option byte)) (offset n : Z) : option bytes :=
  if decide (0 ≤ offset ∧ offset + n ≤ zlen b) then mapM id (ztake n (zdrop offset b)) else None.

(** The copying loop; each turn copies at least one byte. *)
Fixpoint FileState_Read_loop (fuel : nat) (f : FileState) (block block_offset bytes_to_copy : Z)
    (dst : bytes) : option bytes :=
  match fuel with
  | O => None
  | S fuel =>
      if decide (0 < bytes_to_copy) then
        let avail := kBlockSize - block_offset in
        let avail := if decide (avail > bytes_to_copy) then bytes_to_copy else avail in
        b ← blocks_ f !! Z.to_nat block;
        chunk ← load_block b block_offset avail;
        FileState_Read_loop fuel f (block + 1) 0 (bytes_to_copy - avail) (dst ++ chunk)
      else Some dst
  end.

Definition FileState_Read (f : FileState) (offset n : Z) : option (Status * bytes) :=
  if decide (offset > size_ f) then Some (IOError (str "Offset greater than file size.") [], [])
  else
    let available := size_ f - offset in
    let n := if decide (n > available) then available else n in
    if decide (n = 0) then Some (Status_OK, [])
    else
      let block := offset / kBlockSize in
      let block_offset := offset mod kBlockSize in
      if decide (n ≤ kBlockSize - block_offset) then
        b ← blocks_ f !! Z.to_nat block;
        result ← load_block b block_offset n;
        Some (Status_OK, result)
      else
        result ← FileState_Read_loop (S (Z.to_nat n)) f block block_offset n [];
        Some (Status_OK, result).

(** [memcpy] into the last block. *)
Definition store_back (blocks : list (list (option byte))) (offset : Z) (data : bytes)
    : option (list (list (option byte))) :=
  b ← list.last blocks;
  if decide (0 ≤ offset ∧ offset + zlen data ≤ zlen b) then
    Some (take (length blocks - 1)%nat blocks ++
          [ztake offset b ++ (Some <$> data) ++ zdrop (offset + zlen data) b])
  else None.

Fixpoint FileState_Append_loop (fuel : nat) (f : FileState) (src : bytes) : option FileState :=
  match fuel with
  | O => None
  | S fuel =>
      if decide (0 < zlen src) then
        let offset := size_ f mod kBlockSize in
        let '(blocks, avail) :=
          if decide (offset ≠ 0) then (blocks_ f, kBlockSize - offset)
          else (blocks_ f ++ [replicate (Z.to_nat kBlockSize) None], kBlockSize) in
        let avail := if decide (avail > zlen src) then zlen src else avail in
        blocks ← store_back blocks offset (ztake avail src);
        FileState_Append_loop fuel
          {| refs_ := refs_ f; blocks_ := blocks; size_ := size_ f + avail |} (zdrop avail src)
      else Some f
  end.

Definition FileState_Append (f : FileState) (data : bytes) : option (Status * FileState) :=
  f ← FileState_Append_loop (S (length data)) f data; Some (Status_OK, f).

(** ** The environment *)

Inductive FileObject :=
  | SequentialFileImpl (file_ : nat) (pos_ : Z)
  | RandomAccessFileImpl (file_ : nat)
  | WritableFileImpl (file_ : nat).

Definition object_file (o : FileObject) : nat :=
  match o with SequentialFileImpl f _ | RandomAccessFileImpl f | WritableFileImpl f => f end.

Record MemWorld := {
  heap : gmap nat FileState;
  objs : gmap nat FileObject;
  file_map_ : gmap bytes nat;
}.

Definition set_heap (w : MemWorld) h : MemWorld :=
  {| heap := h; objs := objs w; file_map_ := file_map_ w |}.
Definition set_objs (w : MemWorld) o : MemWorld :=
  {| heap := heap w; objs := o; file_map_ := file_map_ w |}.
Definition set_files (w : MemWorld) m : MemWorld :=
  {| heap := heap w; objs := objs w; file_map_ := m |}.

Abbreviation MW := (M MemWorld).

Definition ref (p : nat) : MW unit := λ w,
  f ← heap w !! p; Some (tt, set_heap w (<[p := Ref f]> (heap w))).

Definition unref (p : nat) : MW unit := λ w,
  f ← heap w !! p;
  Some (tt, set_heap w (match Unref f with Some f => <[p := f]> (heap w) | None => delete p (heap w) end)).

(** [new] of a file object, whose constructor takes a reference. *)
Definition new_object (o : FileObject) : MW nat := λ w,
  let h := fresh (dom (objs w)) in
  '(_, w) ← ref (object_file o) w;
  Some (h, set_objs w (<[h := o]> (objs w))).

(** [delete] of a file object, whose destructor gives the reference back. *)
Definition delete_object (h : nat) : MW unit := λ w,
  o ← objs w !! h;
  '(_, w) ← unref (object_file o) w;
  Some (tt, set_objs w (delete h (objs w))).

Definition find (fname : bytes) : MW (option nat) := λ w, Some (file_map_ w !! fname, w).
Definition set_file (fname : bytes) (p : nat) : MW unit := λ w,
  Some (tt, set_files w (<[fname := p]> (file_map_ w))).
Definition erase (fname : bytes) : MW unit := λ w,
  Some (tt, set_files w (delete fname (file_map_ w))).

Definition file_not_found (fname : bytes) : Status := IOError fname (str "File not found").

Definition DeleteFileInternal (fname : bytes) : MW unit :=
  r ← find fname;
  match r with
  | None => mret tt
  | Some p => _ ← unref p; erase fname
  end.

Definition Mem_NewSequentialFile (fname : bytes) : MW (Status + nat) :=
  r ← find fname;
  match r with
  | None => mret (inl (file_not_found fname))
  | Some p => h ← new_object (SequentialFileImpl p 0); mret (inr h)
  end.

Definition Mem_NewRandomAccessFile (fname : bytes) : MW (Status + nat) :=
  r ← find fname;
  match r with
  | None => mret (inl (file_not_found fname))
  | Some p => h ← new_object (RandomAccessFileImpl p); mret (inr h)
  end.

Definition new_file : MW nat := λ w,
  let p := fresh (dom (heap w)) in Some (p, set_heap w (<[p := new_FileState]> (heap w))).

Definition Mem_NewWritableFile (fname : bytes) : MW (Status + nat) :=
  r ← find fname;
  _ ← (match r with Some _ => DeleteFileInternal fname | None => mret tt end);
  p ← new_file;
  _ ← ref p;
  _ ← set_file fname p;
  h ← new_object (WritableFileImpl p);
  mret (inr h).

Definition Mem_FileExists (fname : bytes) : MW bool :=
  r ← find fname; mret (bool_decide (is_Some r)).

Definition child_of (dir filename : bytes) : option bytes :=
  if bool_decide (zlen dir + 1 ≤ zlen filename) && bool_decide (zget filename (zlen dir) = b8 47)
     && Slice_starts_with filename dir
  then Some (zdrop (zlen dir + 1) filename) else None.

(** [std::map] iterates in the order of [std::string], the bytewise one. *)
Definition name_le (a b : bytes) : Prop := Slice_compare a b ≤ 0.

#[export] Instance name_le_dec : RelDecision name_le.
Proof. unfold name_le. intros a b. apply _. Defined.

Definition sorted_names (m : gmap bytes nat) : list bytes :=
  merge_sort name_le (map_to_list m).*1.

Definition Mem_GetChildren (dir : bytes) : MW (Status * list bytes) := λ w,
  Some ((Status_OK, omap (child_of dir) (sorted_names (file_map_ w))), w).

Definition Mem_DeleteFile (fname : bytes) : MW Status :=
  r ← find fname;
  match r with
  | None => mret (file_not_found fname)
  | Some _ => _ ← DeleteFileInternal fname; mret Status_OK
  end.

Definition Mem_GetFileSize (fname : bytes) : MW (Status * Z) := λ w,
  match file_map_ w !! fname with
  | None => Some ((file_not_found fname, 0), w)
  | Some p => f ← heap w !! p; Some ((Status_OK, size_ f), w)
  end.

(** [file_map_[target] = file_map_[src]; file_map_.erase(src)]: when [src] is
    gone, which it is if [src] and [target] are the same name, [operator[]]
    adds a null pointer for it, and [erase] removes that entry again. *)
Definition Mem_RenameFile (src target : bytes) : MW Status :=
  r ← find src;
  match r with
  | None => mret (file_not_found src)
  | Some _ =>
      _ ← DeleteFileInternal target;
      r ← find src;
      _ ← (match r with Some p => set_file target p | None => erase target end);
      _ ← erase src;
      mret Status_OK
  end.

(** [CreateDir] and [DeleteDir]: there are no directories. *)
Definition Mem_CreateDir (dirname : bytes) : MW Status := mret Status_OK.

(** ** File objects *)

Definition Mem_wf_Append (h : nat) (data : bytes) : MW Status := λ w,
  match objs w !! h with
  | Some (WritableFileImpl p) =>
      f ← heap w !! p;
      '(s, f) ← FileState_Append f data;
      Some (s, set_heap w (<[p := f]> (heap w)))
  | _ => None
  end.

(** [Close], [Flush] and [Sync]. *)
Definition Mem_wf_noop (h : nat) : MW Status := λ w,
  match objs w !! h with Some (WritableFileImpl _) => Some (Status_OK, w) | _ => None end.

Definition Mem_sf_Read (h : nat) (n : Z) : MW (Status * bytes) := λ w,
  match objs w !! h with
  | Some (SequentialFileImpl p pos) =>
      f ← heap w !! p;
      '(s, result) ← FileState_Read f pos n;
      Some ((s, result),
            if ok s then set_objs w (<[h := SequentialFileImpl p (pos + zlen result)]> (objs w)) else w)
  | _ => None
  end.

Definition Mem_sf_Skip (h : nat) (n : Z) : MW Status := λ w,
  match objs w !! h with
  | Some (SequentialFileImpl p pos) =>
      f ← heap w !! p;
      if decide (pos > size_ f) then Some (IOError (str "pos_ > file_->Size()") [], w)
      else
        let available := size_ f - pos in
        let n := if decide (n > available) then available else n in
        Some (Status_OK, set_objs w (<[h := SequentialFileImpl p (pos + n)]> (objs w)))
  | _ => None
  end.

Definition Mem_rf_Read (h : nat) (offset n : Z) : MW (Status * bytes) := λ w,
  match objs w !! h with
  | Some (RandomAccessFileImpl p) =>
      f ← heap w !! p; r ← FileState_Read f offset n; Some (r, w)
  | _ => None
  end.

Definition MemWritable (h : nat) : WritableFile MemWorld := {|
  wf_Append := Mem_wf_Append h; wf_Close := Mem_wf_noop h;
  wf_Flush := Mem_wf_noop h; wf_Sync := Mem_wf_noop h |}.

Definition MemSequential (h : nat) : SequentialFile MemWorld := {|
  sf_Read := Mem_sf_Read h; sf_Skip := Mem_sf_Skip h |}.

Definition MemRandom (h : nat) : RandomAccessFile MemWorld := {| rf_Read := Mem_rf_Read h |}.

#[export] Instance InMemoryEnv : Env MemWorld := {|
  WritableHandle := nat;
  SequentialHandle := nat;
  RandomHandle := nat;
  writable := MemWritable;
  sequential := MemSequential;
  random := MemRandom;
  wf_delete := delete_object;
  sf_delete := delete_object;
  rf_delete := delete_object;
  NewWritableFile := Mem_NewWritableFile;
  NewSequentialFile := Mem_NewSequentialFile;
  NewRandomAccessFile := Mem_NewRandomAccessFile;
  FileExists := Mem_FileExists;
  GetChildren := Mem_GetChildren;
  DeleteFile := Mem_DeleteFile;
  CreateDir := Mem_CreateDir;
  DeleteDir := Mem_CreateDir;
  RenameFile := Mem_RenameFile;
  GetFileSize := Mem_GetFileSize;
|}.

Definition NewMemEnv : MemWorld := {| heap := ∅; objs := ∅; file_map_ := ∅ |}.

Example set_current_file :
  (r ← SetCurrentFile (str "/db") 5;
   c ← ReadFileToString 5 (str "/db/CURRENT");
   l ← Mem_GetChildren (str "/db"); mret (r, c, l)) NewMemEnv ≫= (λ x, Some x.1)
  = Some (Status_OK, Some (Status_OK, str "MANIFEST-000005" ++ [b8 10]), (Status_OK, [str "CURRENT"])).
Proof. vm_compute. reflexivity. Qed.

(** ** The contents of a file *)

(** [f] holds the bytes [s]. *)
Definition fs_rep (f : FileState) (s : bytes) : Prop :=
  size_ f = zlen s ∧ Forall (λ b, zlen b = kBlockSize) (blocks_ f) ∧
  zlen (blocks_ f) = (zlen s + (kBlockSize - 1)) / kBlockSize ∧
  ztake (zlen s) (concat (blocks_ f)) = Some <$> s.

Lemma fs_rep_new : fs_rep new_FileState [].
Proof. splits; done. Qed.

Lemma fs_rep_refs f s r :
  fs_rep f s → fs_rep {| refs_ := r; blocks_ := blocks_ f; size_ := size_ f |} s.
Proof. done. Qed.

Lemma mapM_id_Some {A} (l : list A) : mapM id (Some <$> l) = Some l.
Proof. induction l as [|x l IH]; [done|]. cbn in *. by rewrite IH. Qed.

Lemma zlen_concat (bs : list (list (option byte))) :
  Forall (λ b, zlen b = kBlockSize) bs → zlen (concat bs) = kBlockSize * zlen bs.
Proof. induction 1 as [|b bs Hb _ IH]; [done|]. cbn [concat]. rewrite zlen_app, zlen_cons. lia. Qed.

Lemma zdrop_concat (bs : list (list (option byte))) k :
  Forall (λ b, zlen b = kBlockSize) bs → 0 ≤ k →
  zdrop (k * kBlockSize) (concat bs) = concat (zdrop k bs).
Proof.
  unfold kBlockSize. intros Hbs Hk. revert k Hk. induction Hbs as [|b bs Hb Hbs IH]; intros k Hk.
  { unfold zdrop. cbn. by rewrite !drop_nil. }
  destruct (decide (k = 0)) as [->|Hne]; [done|].
  cbn [concat]. rewrite zdrop_app_ge by lia.
  replace (k * 8192 - zlen b) with ((k - 1) * 8192) by lia. rewrite IH by lia. f_equal.
  unfold zdrop. by replace (Z.to_nat k) with (S (Z.to_nat (k - 1))) by lia.
Qed.

(** A read that stays inside a block. *)
Lemma load_block_spec f s offset n :
  fs_rep f s → 0 ≤ offset → 0 < n → offset + n ≤ zlen s → n ≤ kBlockSize - offset mod kBlockSize →
  ∃ b, blocks_ f !! Z.to_nat (offset / kBlockSize) = Some b ∧
    load_block b (offset mod kBlockSize) n = Some (ztake n (zdrop offset s)).
Proof.
  intros (Hsize & Hbs & Hnb & Hs) Ho Hn Hon Hblk.
  assert (kBlockSize = 8192) as HK by done.
  assert (0 ≤ offset / kBlockSize < zlen (blocks_ f)) as Hidx.
  { rewrite Hnb, HK in *. word_solve. }
  destruct (lookup_lt_is_Some_2 (blocks_ f) (Z.to_nat (offset / kBlockSize))) as [b Hb];
    [unfold zlen in Hidx; lia|].
  exists b. split; [done|]. unfold load_block.
  pose proof (Forall_lookup_1 _ _ _ _ Hbs Hb) as Hzb. cbn beta in Hzb.
  pose proof (Z.mod_pos_bound offset kBlockSize ltac:(lia)) as Hm.
  rewrite decide_True by lia.
  assert (zdrop (offset / kBlockSize * kBlockSize) (concat (blocks_ f))
    = b ++ concat (drop (S (Z.to_nat (offset / kBlockSize))) (blocks_ f))) as Hc.
  { rewrite zdrop_concat by (done || lia). unfold zdrop. by rewrite (drop_S _ _ _ Hb). }
  assert (ztake n (zdrop (offset mod kBlockSize) b) = Some <$> ztake n (zdrop offset s)) as ->;
    [|apply mapM_id_Some].
  rewrite <- ztake_fmap, <- zdrop_fmap, <- Hs.
  rewrite (ztake_zdrop_comm offset n (ztake _ _)) by lia. rewrite ztake_ztake by lia.
  rewrite <- ztake_zdrop_comm by lia.
  rewrite (Z.div_mod offset kBlockSize) at 2 by lia.
  rewrite (Z.mul_comm kBlockSize), <- zdrop_zdrop by (apply Z.mul_nonneg_nonneg || idtac; lia).
  rewrite Hc. rewrite zdrop_app_le by lia. rewrite ztake_app_le; [done|]. rewrite zlen_zdrop; lia.
Qed.

Lemma FileState_Read_loop_spec fuel f s offset n dst :
  fs_rep f s → 0 ≤ offset → 0 ≤ n → offset + n ≤ zlen s → n < Z.of_nat fuel →
  FileState_Read_loop fuel f (offset / kBlockSize) (offset mod kBlockSize) n dst
  = Some (dst ++ ztake n (zdrop offset s)).
Proof.
  intros Hrep. assert (kBlockSize = 8192) as HK by done.
  revert offset n dst. induction fuel as [|fuel IH]; intros offset n dst Ho Hn Hon Hf; [lia|].
  cbn [FileState_Read_loop]. case_decide as Hpos.
  - pose proof (Z.mod_pos_bound offset kBlockSize ltac:(lia)) as Hm.
    set (avail := if decide _ then _ else _).
    assert (avail = Z.min n (kBlockSize - offset mod kBlockSize)) as Ha by (subst avail; case_decide; lia).
    destruct (load_block_spec f s offset avail) as (b & -> & Hl); [done|lia..|].
    cbn [mbind option_bind]. rewrite Hl. cbn [mbind option_bind].
    destruct (decide (avail = n)) as [->|Hlt].
    + replace (n - n) with 0 by lia. destruct fuel; [lia|]. done.
    + assert (avail = kBlockSize - offset mod kBlockSize) as Ha' by lia.
      replace (offset / kBlockSize + 1) with ((offset + avail) / kBlockSize) by (rewrite HK in *; word_solve).
      replace 0 with ((offset + avail) mod kBlockSize) by (rewrite HK in *; word_solve).
      rewrite IH by lia. rewrite <- app_assoc. do 2 f_equal.
      replace n with (avail + (n - avail)) at 2 by lia. rewrite ztake_add by lia.
      rewrite zdrop_zdrop by lia. done.
  - replace n with 0 by lia. by rewrite ztake_0, app_nil_r.
Qed.

Lemma FileState_Read_spec f s offset n :
  fs_rep f s → 0 ≤ offset → 0 ≤ n →
  FileState_Read f offset n =
    Some (if decide (offset > zlen s) then (IOError (str "Offset greater than file size.") [], [])
          else (Status_OK, ztake n (zdrop offset s))).
Proof.
  intros Hrep Ho Hn. unfold FileState_Read. pose proof Hrep as (Hsize & _). rewrite Hsize.
  case_decide as Hgt; [done|].
  assert (zlen (zdrop offset s) = zlen s - offset) as Hd by (apply zlen_zdrop; lia).
  set (n' := if decide (n > _) then _ else n).
  assert (n' = Z.min n (zlen s - offset)) as Hn' by (subst n'; case_decide; lia).
  assert (ztake n (zdrop offset s) = ztake n' (zdrop offset s)) as ->.
  { destruct (decide (n = n')) as [<-|]; [done|]. rewrite !ztake_ge by lia. done. }
  case_decide as H0; [by rewrite H0, ztake_0|].
  case_decide as Hblk.
  - destruct (load_block_spec f s offset n') as (b & -> & Hl); [done|lia..|].
    cbn [mbind option_bind]. by rewrite Hl.
  - rewrite (FileState_Read_loop_spec _ _ s) by (done || lia). done.
Qed.

(** One turn of the [Append] loop; [init ++ [b]] are the blocks with room. *)
Lemma store_back_spec (init : list (list (option byte))) b s data :
  Forall (λ b, zlen b = kBlockSize) (init ++ [b]) →
  ztake (zlen s) (concat (init ++ [b])) = Some <$> s →
  zlen s / kBlockSize = zlen init →
  zlen data ≤ kBlockSize - zlen s mod kBlockSize →
  ∃ blocks, store_back (init ++ [b]) (zlen s mod kBlockSize) data = Some blocks ∧
    Forall (λ b, zlen b = kBlockSize) blocks ∧ zlen blocks = zlen init + 1 ∧
    ztake (zlen (s ++ data)) (concat blocks) = Some <$> (s ++ data).
Proof.
  intros Hbs Hs Hinit Hdata. assert (kBlockSize = 8192) as HK by done.
  pose proof (zlen_nonneg s). pose proof (zlen_nonneg data).
  pose proof (Z.mod_pos_bound (zlen s) kBlockSize ltac:(lia)) as Hm.
  pose proof (Z.div_mod (zlen s) kBlockSize ltac:(lia)) as Hdm.
  apply Forall_app in Hbs as [Hi Hb]. apply Forall_cons_1 in Hb as [Hb _].
  unfold store_back. rewrite last_snoc. cbn [mbind option_bind].
  rewrite decide_True by lia. rewrite length_app. cbn [length].
  replace (length init + 1 - 1)%nat with (length init) by lia. rewrite take_app_length.
  set (o := zlen s mod kBlockSize) in *.
  eexists. split; [done|]. split; [|split].
  - apply Forall_app. split; [done|]. apply Forall_singleton.
    rewrite !zlen_app, zlen_fmap, zlen_ztake, zlen_zdrop by lia. lia.
  - by rewrite zlen_app.
  - rewrite concat_app in *. cbn [concat] in *. rewrite app_nil_r in *.
    pose proof (zlen_concat init Hi) as Hci.
    rewrite ztake_app_ge in Hs by lia. replace (zlen s - zlen (concat init)) with o in Hs by lia.
    rewrite app_assoc, Hs, fmap_app, app_assoc. apply ztake_app_n. by rewrite <- fmap_app, zlen_fmap.
Qed.

Lemma FileState_Append_loop_spec fuel f s src :
  fs_rep f s → zlen src < Z.of_nat fuel →
  ∃ f', FileState_Append_loop fuel f src = Some f' ∧ fs_rep f' (s ++ src) ∧ refs_ f' = refs_ f.
Proof.
  assert (kBlockSize = 8192) as HK by done.
  revert f s src. induction fuel as [|fuel IH]; intros f s src Hrep Hf.
  { pose proof (zlen_nonneg src). lia. }
  cbn [FileState_Append_loop]. pose proof Hrep as (Hsize & Hbs & Hnb & Hs).
  pose proof (zlen_nonneg s). pose proof (zlen_nonneg src). case_decide as Hpos.
  - rewrite Hsize. set (o := zlen s mod kBlockSize).
    pose proof (Z.mod_pos_bound (zlen s) kBlockSize ltac:(lia)) as Hm.
    pose proof (Z.div_mod (zlen s) kBlockSize ltac:(lia)) as Hdm.
    assert (∃ init b, (if decide (o ≠ 0) then (blocks_ f, kBlockSize - o)
        else (blocks_ f ++ [replicate (Z.to_nat kBlockSize) None], kBlockSize))
        = (init ++ [b], kBlockSize - o) ∧ Forall (λ b, zlen b = kBlockSize) (init ++ [b]) ∧
        ztake (zlen s) (concat (init ++ [b])) = Some <$> s ∧ zlen s / kBlockSize = zlen init)
      as (init & b & -> & Hbs' & Hs' & Hinit).
    { destruct (decide (o ≠ 0)) as [Ho|Ho].
      - assert (zlen (blocks_ f) = zlen s / kBlockSize + 1) as Hl.
        { rewrite Hnb, HK in *. subst o. word_solve. }
        destruct (exists_last (l := blocks_ f)) as (init & b & E).
        { intros E. rewrite E, zlen_nil in Hl. rewrite HK in *. word_solve. }
        exists init, b. rewrite E in *. splits; try done. rewrite zlen_app in Hl. change (zlen [b]) with 1 in Hl. lia.
      - assert (zlen (blocks_ f) = zlen s / kBlockSize) as Hl.
        { rewrite Hnb, HK in *. subst o. word_solve. }
        exists (blocks_ f), (replicate (Z.to_nat kBlockSize) None). splits; [|..|done].
        + f_equal. lia.
        + apply Forall_app. split; [done|]. apply Forall_singleton.
          unfold zlen. rewrite length_replicate. lia.
        + rewrite concat_app, ztake_app_le; [done|]. rewrite zlen_concat by done. lia. }
    cbn beta iota.
    set (avail := if decide (kBlockSize - o > _) then _ else _).
    assert (avail = Z.min (zlen src) (kBlockSize - o)) as Ha by (subst avail; case_decide; lia).
    assert (zlen (ztake avail src) = avail) as Hz by (apply zlen_ztake; lia).
    destruct (store_back_spec init b s (ztake avail src)) as (blocks & Est & B1 & B2 & B3);
      [done..|subst o; lia|]. fold o in Est. rewrite Est.
    cbn [mbind option_bind].
    destruct (IH {| refs_ := refs_ f; blocks_ := blocks; size_ := zlen s + avail |}
      (s ++ ztake avail src) (zdrop avail src)) as (f' & E & Hrep' & Hr).
    + unfold fs_rep. cbn [size_ blocks_]. rewrite zlen_app, Hz in *. splits; [done|done| |done].
      rewrite B2, <- Hinit, HK in *. subst o. word_solve.
    + rewrite zlen_zdrop by lia. lia.
    + exists f'. rewrite <- app_assoc, ztake_zdrop in Hrep'. done.
  - exists f. rewrite (zlen_zero src) by lia. by rewrite app_nil_r.
Qed.

Lemma FileState_Append_spec f s data :
  fs_rep f s →
  ∃ f', FileState_Append f data = Some (Status_OK, f') ∧ fs_rep f' (s ++ data) ∧ refs_ f' = refs_ f.
Proof.
  intros Hrep. unfold FileState_Append.
  destruct (FileState_Append_loop_spec (S (length data)) f s data) as (f' & -> & ? & ?);
    [done|unfold zlen; lia|]. by exists f'.
Qed.

(** ** References *)

(** How many entries of [m] refer to the file [p]. *)
Definition count {K V} `{Countable K} (g : V → nat) (m : gmap K V) (p : nat) : Z :=
  Z.of_nat (size (filter (λ kv, g kv.2 = p) m)).

Definition one_if (P : Prop) `{Decision P} : Z := if decide P then 1 else 0.

Section Count.
Context {K V : Type} `{Countable K} (g : V → nat).
Implicit Types m : gmap K V.

Lemma count_nonneg m p : 0 ≤ count g m p.
Proof. unfold count. lia. Qed.

Lemma count_insert m k v p :
  m !! k = None → count g (<[k := v]> m) p = one_if (g v = p) + count g m p.
Proof.
  intros Hk. unfold count, one_if. case_decide as Hp.
  - rewrite map_filter_insert_True by done. rewrite map_size_insert_None; [lia|].
    apply map_lookup_filter_None. by left.
  - rewrite map_filter_insert_not' by (done || naive_solver). done.
Qed.

Lemma count_delete m k v p :
  m !! k = Some v → count g m p = one_if (g v = p) + count g (delete k m) p.
Proof.
  intros Hk. rewrite <- (insert_delete_id m k v Hk) at 1. apply count_insert. apply lookup_delete_eq.
Qed.

Lemma count_update m k v v' p :
  m !! k = Some v → g v' = g v → count g (<[k := v']> m) p = count g m p.
Proof.
  intros Hk Hg. rewrite (count_delete m k v p Hk).
  rewrite <- insert_delete_eq, count_insert, Hg; [done|]. apply lookup_delete_eq.
Qed.

Lemma count_pos m k v : m !! k = Some v → 1 ≤ count g m (g v).
Proof.
  intros Hk. rewrite (count_delete m k v _ Hk). unfold one_if. rewrite decide_True by done.
  pose proof (count_nonneg (delete k m) (g v)). lia.
Qed.

Lemma count_empty p : count g (∅ : gmap K V) p = 0.
Proof. unfold count. by rewrite map_filter_empty, map_size_empty. Qed.
End Count.

(** References held by names and by open file objects. *)
Definition refs (w : MemWorld) (p : nat) : Z :=
  count id (file_map_ w) p + count object_file (objs w) p.

(** ** The abstract file system *)

(** Names, open objects and contents; nothing is counted or freed. *)
Record AFS := { a_names : gmap bytes nat; a_objs : gmap nat FileObject; a_data : nat → bytes }.

Definition a_set_data (a : AFS) (p : nat) (s : bytes) : AFS :=
  {| a_names := a_names a; a_objs := a_objs a;
     a_data := λ q, if decide (q = p) then s else a_data a q |}.
Definition a_set_names (a : AFS) m : AFS :=
  {| a_names := m; a_objs := a_objs a; a_data := a_data a |}.
Definition a_set_objs (a : AFS) o : AFS :=
  {| a_names := a_names a; a_objs := o; a_data := a_data a |}.

(** The counters differ from the references of [w] by [D], which is zero
    between operations. *)
Definition file_ok (w : MemWorld) (a : AFS) (d : Z) (p : nat) : Prop :=
  match heap w !! p with
  | Some f => refs_ f = refs w p + d ∧ 0 < refs_ f ∧ fs_rep f (a_data a p)
  | None => refs w p + d = 0
  end.

Definition refinesd (D : nat → Z) (w : MemWorld) (a : AFS) : Prop :=
  file_map_ w = a_names a ∧ objs w = a_objs a ∧ ∀ p, file_ok w a (D p) p.

Definition refines : MemWorld → AFS → Prop := refinesd (λ _, 0).

Lemma refs_nonneg w p : 0 ≤ refs w p.
Proof.
  unfold refs. pose proof (count_nonneg id (file_map_ w) p).
  pose proof (count_nonneg object_file (objs w) p). lia.
Qed.

Lemma refines_init : refines NewMemEnv {| a_names := ∅; a_objs := ∅; a_data := λ _, [] |}.
Proof.
  split; [done|]. split; [done|]. intros p. unfold file_ok, refs. cbn [heap NewMemEnv file_map_ objs].
  rewrite lookup_empty, !count_empty. done.
Qed.

Lemma refines_D D D' w a : refinesd D w a → (∀ p, D p = D' p) → refinesd D' w a.
Proof. intros (? & ? & H) HD. split; [done|]. split; [done|]. intros p. rewrite <- HD. apply H. Qed.

(** A change of names and objects moves references to the difference. *)
Lemma refines_recount D D' w w' a a' :
  refinesd D w a → heap w' = heap w → file_map_ w' = a_names a' → objs w' = a_objs a' →
  a_data a' = a_data a → (∀ p, refs w' p + D' p = refs w p + D p) → refinesd D' w' a'.
Proof.
  intros (_ & _ & H) Hh ? ? Hd Hr. split; [done|]. split; [done|]. intros p.
  specialize (H p). unfold file_ok in *. by rewrite Hh, Hd, Hr.
Qed.

Lemma refines_alive D w a p :
  refinesd D w a → 0 < refs w p + D p → ∃ f, heap w !! p = Some f ∧ fs_rep f (a_data a p).
Proof.
  intros (_ & _ & H) Hr. specialize (H p). unfold file_ok in H.
  destruct (heap w !! p) as [f|]; [exists f; naive_solver|lia].
Qed.

Lemma refs_name w fname p : file_map_ w !! fname = Some p → 0 < refs w p.
Proof.
  intros H. pose proof (count_pos id _ _ _ H). pose proof (count_nonneg object_file (objs w) p).
  unfold refs, id in *. lia.
Qed.

Lemma refs_object w h o : objs w !! h = Some o → 0 < refs w (object_file o).
Proof.
  intros H. pose proof (count_pos object_file _ _ _ H).
  pose proof (count_nonneg id (file_map_ w) (object_file o)). unfold refs in *. lia.
Qed.

(** ** Primitive operations *)

Definition dplus (D : nat → Z) (p : nat) (k : Z) : nat → Z := λ q, D q + (if decide (q = p) then k else 0).

Lemma wp_ref D w a p :
  refinesd D w a → 0 < refs w p + D p → wp (ref p) (λ _ w', refinesd (dplus D p 1) w' a) w.
Proof.
  intros H Hr. destruct (refines_alive D w a p H Hr) as (f & Hf & _).
  destruct H as (Hn & Ho & H). unfold wp, ref. rewrite Hf. cbn [mbind option_bind].
  split; [done|]. split; [done|]. intros q. specialize (H q).
  unfold file_ok, dplus, refs in *. cbn [heap set_heap file_map_ objs].
  destruct (decide (q = p)) as [->|Hne].
  - rewrite lookup_insert_eq. rewrite Hf in H. cbn [Ref refs_]. split; [lia|]. split; [lia|apply H].
  - rewrite lookup_insert_ne by done. by rewrite Z.add_0_r.
Qed.

Lemma wp_unref D w a p :
  refinesd D w a → 0 < refs w p + D p → wp (unref p) (λ _ w', refinesd (dplus D p (-1)) w' a) w.
Proof.
  intros H Hr. destruct (refines_alive D w a p H Hr) as (f & Hf & _).
  destruct H as (Hn & Ho & H). unfold wp, unref. rewrite Hf. cbn [mbind option_bind].
  split; [done|]. split; [done|]. intros q. specialize (H q).
  unfold file_ok, dplus, refs in *. cbn [heap set_heap file_map_ objs]. unfold Unref.
  cbn [refs_]. destruct (decide (q = p)) as [->|Hne].
  - rewrite Hf in H. case_decide.
    + rewrite lookup_delete_eq. lia.
    + rewrite lookup_insert_eq. cbn [refs_]. split; [lia|]. split; [lia|apply H].
  - rewrite Z.add_0_r. case_decide; [by rewrite lookup_delete_ne|by rewrite lookup_insert_ne].
Qed.

(** A new file with its first reference, which nothing holds yet. *)
Lemma wp_new_file D w a p :
  refinesd D w a → p = fresh (dom (heap w)) →
  wp (p ← new_file; _ ← ref p; mret p)
    (λ r w', r = p ∧ refinesd (dplus D p 1) w' (a_set_data a p []) ∧ refs w p + D p = 0) w.
Proof.
  intros (Hn & Ho & H) ->. set (p := fresh (dom (heap w))).
  assert (heap w !! p = None) as Hp by (apply not_elem_of_dom, is_fresh).
  apply wp_bind. unfold wp at 1, new_file. fold p.
  apply wp_bind. unfold wp at 1, ref. cbn [heap set_heap]. rewrite lookup_insert_eq.
  cbn [mbind option_bind]. apply wp_ret. split; [done|].
  pose proof (H p) as H0. unfold file_ok in H0. rewrite Hp in H0. split; [|done].
  split; [done|]. split; [done|]. intros q. specialize (H q).
  unfold file_ok, dplus, refs in *. cbn [heap set_heap file_map_ objs a_data a_set_data].
  rewrite insert_insert_eq. destruct (decide (q = p)) as [->|Hne].
  - rewrite lookup_insert_eq. cbn [Ref refs_ new_FileState]. split; [lia|]. split; [lia|apply fs_rep_new].
  - rewrite lookup_insert_ne by done. by rewrite Z.add_0_r.
Qed.

Lemma wp_set_file D w a fname p :
  refinesd D w a → a_names a !! fname = None →
  wp (set_file fname p)
    (λ _ w', refinesd (dplus D p (-1)) w' (a_set_names a (<[fname := p]> (a_names a)))) w.
Proof.
  intros H Hf. pose proof H as (Hn & Ho & _). unfold wp, set_file.
  apply (refines_recount D _ w _ a); [done|done|cbn; by rewrite Hn|done|done|].
  intros q. unfold refs, dplus. cbn [file_map_ set_files objs]. rewrite Hn, count_insert by done.
  unfold one_if, id. repeat case_decide; subst; done || lia.
Qed.

Lemma wp_erase D w a fname p :
  refinesd D w a → a_names a !! fname = Some p →
  wp (erase fname)
    (λ _ w', refinesd (dplus D p 1) w' (a_set_names a (delete fname (a_names a)))) w.
Proof.
  intros H Hf. pose proof H as (Hn & Ho & _). unfold wp, erase.
  apply (refines_recount D _ w _ a); [done|done|cbn; by rewrite Hn|done|done|].
  intros q. unfold refs, dplus. cbn [file_map_ set_files objs].
  rewrite Hn, (count_delete id (a_names a) fname p q Hf).
  unfold one_if, id. repeat case_decide; subst; done || lia.
Qed.

Lemma wp_new_object D w a o :
  refinesd D w a → 0 < refs w (object_file o) + D (object_file o) →
  wp (new_object o)
    (λ h w', a_objs a !! h = None ∧ refinesd D w' (a_set_objs a (<[h := o]> (a_objs a)))) w.
Proof.
  intros H Hr. pose proof (wp_ref D w a _ H Hr) as Hw. unfold wp, new_object in *.
  destruct (ref (object_file o) w) as [[u w1]|]; [|done]. cbn [mbind option_bind].
  pose proof H as (Hn & Ho & _). pose proof Hw as (Hn1 & Ho1 & _). rewrite Ho.
  set (h := fresh (dom (a_objs a))).
  assert (a_objs a !! h = None) as Hh by (apply not_elem_of_dom, is_fresh).
  split; [done|].
  apply (refines_recount (dplus D (object_file o) 1) _ w1 _ a); [done|done|exact Hn1|cbn; by rewrite Ho1|done|].
  intros q. unfold refs, dplus. cbn [file_map_ set_objs objs]. rewrite Ho1, count_insert by done.
  unfold one_if. repeat case_decide; subst; done || lia.
Qed.

Lemma wp_delete_object D w a h o :
  refinesd D w a → a_objs a !! h = Some o → (∀ p, 0 ≤ D p) →
  wp (delete_object h) (λ _ w', refinesd D w' (a_set_objs a (delete h (a_objs a)))) w.
Proof.
  intros H Hh HD. pose proof H as (Hn & Ho & _).
  assert (0 < refs w (object_file o) + D (object_file o)) as Hr.
  { rewrite <- Ho in Hh. pose proof (refs_object _ _ _ Hh). specialize (HD (object_file o)). lia. }
  pose proof (wp_unref D w a _ H Hr) as Hw. unfold wp, delete_object in *.
  rewrite Ho, Hh. cbn [mbind option_bind].
  destruct (unref (object_file o) w) as [[u w1]|]; [|done]. cbn [mbind option_bind].
  pose proof Hw as (Hn1 & Ho1 & _).
  apply (refines_recount (dplus D (object_file o) (-1)) _ w1 _ a); [done|done|exact Hn1|cbn; by rewrite Ho1|done|].
  intros q. unfold refs, dplus. cbn [file_map_ set_objs objs].
  rewrite Ho1, (count_delete object_file (a_objs a) h o q Hh).
  unfold one_if. repeat case_decide; subst; done || lia.
Qed.

(** ** Operations on names *)

Lemma wp_find D w a fname Q :
  refinesd D w a → Q (a_names a !! fname) w → wp (find fname) Q w.
Proof. intros (Hn & _) HQ. unfold wp, find. by rewrite Hn. Qed.

(** Changing the object under a handle, but not its file, moves no reference. *)
Lemma refines_object_update D w a h o o' :
  refinesd D w a → a_objs a !! h = Some o → object_file o' = object_file o →
  refinesd D (set_objs w (<[h := o']> (a_objs a))) (a_set_objs a (<[h := o']> (a_objs a))).
Proof.
  intros H Hh Hf. pose proof H as (Hn & Ho & _).
  apply (refines_recount D _ w _ a); [done..|].
  intros q. unfold refs. cbn [file_map_ set_objs objs]. rewrite Ho.
  by rewrite (count_update object_file (a_objs a) h o o' q Hh Hf).
Qed.

Lemma a_set_names_id a : a_set_names a (a_names a) = a.
Proof. by destruct a. Qed.

Lemma wp_DeleteFileInternal w a fname :
  refines w a →
  wp (DeleteFileInternal fname) (λ _ w', refines w' (a_set_names a (delete fname (a_names a)))) w.
Proof.
  intros H. unfold DeleteFileInternal. apply wp_bind. eapply wp_find; [done|].
  destruct (a_names a !! fname) as [p|] eqn:Hf.
  - apply wp_bind. eapply wp_mono; [eapply wp_unref; [done|]|].
    + pose proof H as (Hn & _). rewrite <- Hn in Hf. pose proof (refs_name _ _ _ Hf). lia.
    + cbn beta. intros _ w1 H1. eapply wp_mono; [by eapply wp_erase|].
      cbn beta. intros _ w2 H2. eapply refines_D; [done|]. intros q. unfold dplus. case_decide; lia.
  - apply wp_ret. by rewrite delete_id, a_set_names_id by done.
Qed.

(** What each operation does to the abstract file system.  The object and the
    file an operation creates are any unused ones. *)
Definition spec_NewFileObject (mk : nat → FileObject) (fname : bytes) (a : AFS)
    (r : Status + nat) (a' : AFS) : Prop :=
  match a_names a !! fname, r with
  | None, inl s => s = file_not_found fname ∧ a' = a
  | Some p, inr h => a_objs a !! h = None ∧ a' = a_set_objs a (<[h := mk p]> (a_objs a))
  | _, _ => False
  end.

Definition unused (a : AFS) (p : nat) : Prop :=
  (∀ fname, a_names a !! fname ≠ Some p) ∧ (∀ h o, a_objs a !! h = Some o → object_file o ≠ p).

Definition spec_NewWritableFile (fname : bytes) (a : AFS) (r : Status + nat) (a' : AFS) : Prop :=
  ∃ h p, r = inr h ∧ a_objs a !! h = None ∧ unused (a_set_names a (delete fname (a_names a))) p ∧
    a' = {| a_names := <[fname := p]> (a_names a);
            a_objs := <[h := WritableFileImpl p]> (a_objs a);
            a_data := λ q, if decide (q = p) then [] else a_data a q |}.

Lemma wp_new_sequential w a fname :
  refines w a →
  wp (Mem_NewSequentialFile fname)
    (λ r w', ∃ a', spec_NewFileObject (λ p, SequentialFileImpl p 0) fname a r a' ∧ refines w' a') w.
Proof.
  intros H. unfold Mem_NewSequentialFile. apply wp_bind. eapply wp_find; [done|].
  destruct (a_names a !! fname) as [p|] eqn:Hf.
  - apply wp_bind. eapply wp_mono; [eapply wp_new_object; [done|]|].
    + pose proof H as (Hn & _). rewrite <- Hn in Hf. pose proof (refs_name _ _ _ Hf). cbn. lia.
    + cbn beta. intros h w1 [Hh H1]. apply wp_ret. eexists. unfold spec_NewFileObject. rewrite Hf. done.
  - apply wp_ret. exists a. unfold spec_NewFileObject. by rewrite Hf.
Qed.

Lemma wp_new_random w a fname :
  refines w a →
  wp (Mem_NewRandomAccessFile fname)
    (λ r w', ∃ a', spec_NewFileObject RandomAccessFileImpl fname a r a' ∧ refines w' a') w.
Proof.
  intros H. unfold Mem_NewRandomAccessFile. apply wp_bind. eapply wp_find; [done|].
  destruct (a_names a !! fname) as [p|] eqn:Hf.
  - apply wp_bind. eapply wp_mono; [eapply wp_new_object; [done|]|].
    + pose proof H as (Hn & _). rewrite <- Hn in Hf. pose proof (refs_name _ _ _ Hf). cbn. lia.
    + cbn beta. intros h w1 [Hh H1]. apply wp_ret. eexists. unfold spec_NewFileObject. rewrite Hf. done.
  - apply wp_ret. exists a. unfold spec_NewFileObject. by rewrite Hf.
Qed.

Lemma unused_refs w a p : refines w a → refs w p = 0 → unused a p.
Proof.
  intros (Hn & Ho & _) Hr. split.
  - intros fname Hf. rewrite <- Hn in Hf. apply refs_name in Hf. lia.
  - intros h o Hh <-. rewrite <- Ho in Hh. apply refs_object in Hh. lia.
Qed.

Lemma wp_new_writable w a fname :
  refines w a →
  wp (Mem_NewWritableFile fname) (λ r w', ∃ a', spec_NewWritableFile fname a r a' ∧ refines w' a') w.
Proof.
  intros H. unfold Mem_NewWritableFile. apply wp_bind. eapply wp_find; [done|]. apply wp_bind.
  apply (wp_mono _ (λ _ w1, refines w1 (a_set_names a (delete fname (a_names a))))).
  { destruct (a_names a !! fname) eqn:Hf; [by apply wp_DeleteFileInternal|].
    apply wp_ret. by rewrite delete_id, a_set_names_id by done. }
  intros _ w1 H1. set (a1 := a_set_names a (delete fname (a_names a))) in *.
  pose proof (wp_new_file _ w1 a1 _ H1 eq_refl) as Hnew.
  set (p := fresh (dom (heap w1))) in *.
  apply wp_bind. unfold wp, new_file in Hnew |- *. fold p.
  unfold mbind at 1, M_bind in Hnew. fold p in Hnew.
  change (wp (_ ← ref p; mret p) (λ r w', r = p ∧ refinesd (dplus (λ _, 0) p 1) w' (a_set_data a1 p [])
    ∧ refs w1 p + 0 = 0) (set_heap w1 (<[p:=new_FileState]> (heap w1)))) in Hnew.
  apply wp_bind. unfold wp at 1. unfold wp at 1, mbind, M_bind in Hnew.
  destruct (ref p _) as [[[] w2]|]; [|done]. destruct Hnew as (_ & H2 & H0).
  apply wp_bind. eapply wp_mono; [eapply wp_set_file; [done|]|].
  { cbn. apply lookup_delete_eq. }
  cbn beta. intros _ w3 H3. apply wp_bind. eapply wp_mono; [eapply wp_new_object; [done|]|].
  { cbn [object_file]. unfold dplus. rewrite decide_True by done.
    destruct H3 as (Hn3 & _). pose proof (refs_name w3 fname p). rewrite Hn3 in H3.
    cbn in H3. rewrite lookup_insert_eq in H3. specialize (H3 eq_refl). case_decide; lia. }
  cbn beta. intros h w4 [Hh H4]. apply wp_ret. eexists. split.
  - exists h, p. split; [done|]. split; [exact Hh|]. split; [|done].
    apply (unused_refs w1); [done|lia].
  - cbn in H4. rewrite insert_delete_eq in H4. eapply refines_D; [exact H4|].
    intros q. unfold dplus. case_decide; lia.
Qed.

Lemma wp_DeleteFile w a fname :
  refines w a →
  wp (Mem_DeleteFile fname) (λ r w',
    refines w' (a_set_names a (delete fname (a_names a))) ∧
    r = match a_names a !! fname with Some _ => Status_OK | None => file_not_found fname end) w.
Proof.
  intros H. unfold Mem_DeleteFile. apply wp_bind. eapply wp_find; [done|].
  destruct (a_names a !! fname) as [p|] eqn:Hf.
  - apply wp_bind. eapply wp_mono; [by apply wp_DeleteFileInternal|].
    cbn beta. intros _ w1 H1. by apply wp_ret.
  - apply wp_ret. by rewrite delete_id, a_set_names_id by done.
Qed.

(** The names after [RenameFile(src, target)]. *)
Definition renamed (src target : bytes) (m : gmap bytes nat) : gmap bytes nat :=
  match m !! src with
  | None => m
  | Some p => if decide (src = target) then delete src m else <[target := p]> (delete src m)
  end.

Lemma wp_RenameFile w a src target :
  refines w a →
  wp (Mem_RenameFile src target) (λ r w',
    refines w' (a_set_names a (renamed src target (a_names a))) ∧
    r = match a_names a !! src with Some _ => Status_OK | None => file_not_found src end) w.
Proof.
  intros H. unfold Mem_RenameFile, renamed. apply wp_bind. eapply wp_find; [done|].
  destruct (a_names a !! src) as [p|] eqn:Hs; [|apply wp_ret; by rewrite a_set_names_id].
  apply wp_bind. eapply wp_mono; [by apply wp_DeleteFileInternal|]. cbn beta. intros _ w1 H1.
  apply wp_bind. eapply wp_find; [done|]. cbn [a_names a_set_names].
  destruct (decide (src = target)) as [->|Hne].
  - rewrite lookup_delete_eq. apply wp_bind. unfold wp at 1, erase. apply wp_bind.
    unfold wp at 1, erase. apply wp_ret. split; [|done].
    apply (refines_recount (λ _, 0) _ w1 _ (a_set_names a (delete target (a_names a))));
      pose proof H1 as (Hn1 & Ho1 & _); [done|done| |done|done|].
    + cbn. rewrite Hn1. cbn. by rewrite !delete_delete_eq.
    + intros q. unfold refs. cbn. rewrite Hn1. cbn. by rewrite !delete_delete_eq.
  - rewrite lookup_delete_ne, Hs by done. apply wp_bind.
    eapply wp_mono; [eapply wp_set_file; [done|cbn; apply lookup_delete_eq]|]. cbn beta. intros _ w2 H2.
    apply wp_bind. eapply wp_mono; [eapply wp_erase; [done|]|].
    { cbn. rewrite lookup_insert_ne by done. rewrite lookup_delete_ne by done. exact Hs. }
    cbn beta. intros _ w3 H3. apply wp_ret. split; [|done].
    cbn in H3. rewrite insert_delete_eq, delete_insert_ne in H3 by done.
    eapply refines_D; [exact H3|]. intros q. unfold dplus. case_decide; lia.
Qed.

(** ** Operations on open files *)

Lemma wp_Append w a h p data :
  refines w a → a_objs a !! h = Some (WritableFileImpl p) →
  wp (Mem_wf_Append h data)
    (λ r w', r = Status_OK ∧ refines w' (a_set_data a p (a_data a p ++ data))) w.
Proof.
  intros H Hh. pose proof H as (Hn & Ho & Hp). unfold wp, Mem_wf_Append. rewrite Ho, Hh.
  assert (0 < refs w p) as Hr by (rewrite <- Ho in Hh; apply (refs_object _ _ _ Hh)).
  destruct (refines_alive _ w a p H ltac:(lia)) as (f & Hf & Hrep). rewrite Hf. cbn [mbind option_bind].
  destruct (FileState_Append_spec f _ data Hrep) as (f' & -> & Hrep' & Hrefs). cbn [mbind option_bind].
  split; [done|]. split; [done|]. split; [done|]. intros q. specialize (Hp q).
  unfold file_ok, refs in *. cbn [heap set_heap file_map_ objs a_data a_set_data].
  destruct (decide (q = p)) as [->|Hne].
  - rewrite lookup_insert_eq. rewrite Hf in Hp. rewrite Hrefs. naive_solver.
  - by rewrite lookup_insert_ne.
Qed.

Lemma wp_Read w a h p pos n :
  refines w a → a_objs a !! h = Some (SequentialFileImpl p pos) → 0 ≤ pos → 0 ≤ n →
  wp (Mem_sf_Read h n) (λ r w',
    if decide (pos > zlen (a_data a p))
    then r = (IOError (str "Offset greater than file size.") [], []) ∧ refines w' a
    else r = (Status_OK, ztake n (zdrop pos (a_data a p))) ∧
      refines w' (a_set_objs a (<[h := SequentialFileImpl p (pos + zlen (snd r))]> (a_objs a)))) w.
Proof.
  intros H Hh Hpos Hn. pose proof H as (_ & Ho & Hp). unfold wp, Mem_sf_Read. rewrite Ho, Hh.
  assert (0 < refs w p) as Hr by (rewrite <- Ho in Hh; apply (refs_object _ _ _ Hh)).
  destruct (refines_alive _ w a p H ltac:(lia)) as (f & Hf & Hrep). rewrite Hf. cbn [mbind option_bind].
  rewrite (FileState_Read_spec f _ pos n Hrep) by lia. cbn [mbind option_bind].
  case_decide; [done|]. cbn [ok Status_OK]. split; [done|]. cbn [snd].
  by eapply refines_object_update.
Qed.

Lemma wp_Skip w a h p pos n :
  refines w a → a_objs a !! h = Some (SequentialFileImpl p pos) → 0 ≤ pos → 0 ≤ n →
  wp (Mem_sf_Skip h n) (λ r w',
    if decide (pos > zlen (a_data a p))
    then r = IOError (str "pos_ > file_->Size()") [] ∧ refines w' a
    else r = Status_OK ∧
      refines w' (a_set_objs a (<[h := SequentialFileImpl p (Z.min (pos + n) (zlen (a_data a p)))]> (a_objs a)))) w.
Proof.
  intros H Hh Hpos Hn. pose proof H as (_ & Ho & Hp). unfold wp, Mem_sf_Skip. rewrite Ho, Hh.
  assert (0 < refs w p) as Hr by (rewrite <- Ho in Hh; apply (refs_object _ _ _ Hh)).
  destruct (refines_alive _ w a p H ltac:(lia)) as (f & Hf & Hrep). rewrite Hf. cbn [mbind option_bind].
  destruct Hrep as (Hsize & _). rewrite Hsize.
  case_decide; [done|]. split; [done|].
  replace (pos + (if decide (n > zlen (a_data a p) - pos) then zlen (a_data a p) - pos else n))
    with (Z.min (pos + n) (zlen (a_data a p))) by (case_decide; lia).
  by eapply refines_object_update.
Qed.

Lemma wp_ReadAt w a h p offset n :
  refines w a → a_objs a !! h = Some (RandomAccessFileImpl p) → 0 ≤ offset → 0 ≤ n →
  wp (Mem_rf_Read h offset n) (λ r w', refines w' a ∧
    r = if decide (offset > zlen (a_data a p))
        then (IOError (str "Offset greater than file size.") [], [])
        else (Status_OK, ztake n (zdrop offset (a_data a p)))) w.
Proof.
  intros H Hh Hpos Hn. pose proof H as (_ & Ho & Hp). unfold wp, Mem_rf_Read. rewrite Ho, Hh.
  assert (0 < refs w p) as Hr by (rewrite <- Ho in Hh; apply (refs_object _ _ _ Hh)).
  destruct (refines_alive _ w a p H ltac:(lia)) as (f & Hf & Hrep). rewrite Hf. cbn [mbind option_bind].
  rewrite (FileState_Read_spec f _ offset n Hrep) by lia. done.
Qed.

Lemma wp_GetFileSize w a fname :
  refines w a →
  wp (Mem_GetFileSize fname) (λ r w', refines w' a ∧
    r = match a_names a !! fname with
        | Some p => (Status_OK, zlen (a_data a p)) | None => (file_not_found fname, 0) end) w.
Proof.
  intros H. pose proof H as (Hn & _). unfold wp, Mem_GetFileSize. rewrite Hn.
  destruct (a_names a !! fname) as [p|] eqn:Hf; [|done].
  assert (0 < refs w p) as Hr by (rewrite <- Hn in Hf; apply (refs_name _ _ _ Hf)).
  destruct (refines_alive _ w a p H ltac:(lia)) as (f & -> & Hrep). cbn [mbind option_bind].
  destruct Hrep as (-> & _). done.
Qed.

(** ** The refinement *)

Inductive file_op :=
  | OpNewSequentialFile (fname : bytes) | OpNewRandomAccessFile (fname : bytes)
  | OpNewWritableFile (fname : bytes) | OpFileExists (fname : bytes) | OpGetChildren (dir : bytes)
  | OpDeleteFile (fname : bytes) | OpGetFileSize (fname : bytes) | OpRenameFile (src target : bytes)
  | OpAppend (h : nat) (data : bytes) | OpNoop (h : nat) | OpRead (h : nat) (n : Z)
  | OpSkip (h : nat) (n : Z) | OpReadAt (h : nat) (offset n : Z) | OpDelete (h : nat).

Inductive file_result :=
  | RHandle (r : Status + nat) | RBool (b : bool) | RNames (r : Status * list bytes)
  | RStatus (s : Status) | RSize (r : Status * Z) | RRead (r : Status * bytes) | RUnit.

Definition run_op (op : file_op) : MW file_result :=
  match op with
  | OpNewSequentialFile fname => r ← Mem_NewSequentialFile fname; mret (RHandle r)
  | OpNewRandomAccessFile fname => r ← Mem_NewRandomAccessFile fname; mret (RHandle r)
  | OpNewWritableFile fname => r ← Mem_NewWritableFile fname; mret (RHandle r)
  | OpFileExists fname => r ← Mem_FileExists fname; mret (RBool r)
  | OpGetChildren dir => r ← Mem_GetChildren dir; mret (RNames r)
  | OpDeleteFile fname => r ← Mem_DeleteFile fname; mret (RStatus r)
  | OpGetFileSize fname => r ← Mem_GetFileSize fname; mret (RSize r)
  | OpRenameFile src target => r ← Mem_RenameFile src target; mret (RStatus r)
  | OpAppend h data => r ← Mem_wf_Append h data; mret (RStatus r)
  | OpNoop h => r ← Mem_wf_noop h; mret (RStatus r)
  | OpRead h n => r ← Mem_sf_Read h n; mret (RRead r)
  | OpSkip h n => r ← Mem_sf_Skip h n; mret (RStatus r)
  | OpReadAt h offset n => r ← Mem_rf_Read h offset n; mret (RRead r)
  | OpDelete h => _ ← delete_object h; mret RUnit
  end.

(** A client only uses objects that are open, with methods they have. *)
Definition legal (op : file_op) (a : AFS) : Prop :=
  match op with
  | OpAppend h _ | OpNoop h => ∃ p, a_objs a !! h = Some (WritableFileImpl p)
  | OpRead h n | OpSkip h n => 0 ≤ n ∧ ∃ p pos, a_objs a !! h = Some (SequentialFileImpl p pos)
  | OpReadAt h offset n => 0 ≤ offset ∧ 0 ≤ n ∧ ∃ p, a_objs a !! h = Some (RandomAccessFileImpl p)
  | OpDelete h => is_Some (a_objs a !! h)
  | _ => True
  end.

Definition status_found (a : AFS) (fname : bytes) : Status :=
  match a_names a !! fname with Some _ => Status_OK | None => file_not_found fname end.

Definition spec_op (op : file_op) (a : AFS) (r : file_result) (a' : AFS) : Prop :=
  match op, r with
  | OpNewSequentialFile fname, RHandle r =>
      spec_NewFileObject (λ p, SequentialFileImpl p 0) fname a r a'
  | OpNewRandomAccessFile fname, RHandle r => spec_NewFileObject RandomAccessFileImpl fname a r a'
  | OpNewWritableFile fname, RHandle r => spec_NewWritableFile fname a r a'
  | OpFileExists fname, RBool b => b = bool_decide (is_Some (a_names a !! fname)) ∧ a' = a
  | OpGetChildren dir, RNames (s, names) =>
      s = Status_OK ∧ a' = a ∧
      names ≡ₚ omap (child_of dir) (map_to_list (a_names a)).*1
  | OpDeleteFile fname, RStatus s =>
      s = status_found a fname ∧ a' = a_set_names a (delete fname (a_names a))
  | OpGetFileSize fname, RSize r =>
      a' = a ∧ r = match a_names a !! fname with
                   | Some p => (Status_OK, zlen (a_data a p)) | None => (file_not_found fname, 0) end
  | OpRenameFile src target, RStatus s =>
      s = status_found a src ∧ a' = a_set_names a (renamed src target (a_names a))
  | OpAppend h data, RStatus s =>
      ∃ p, a_objs a !! h = Some (WritableFileImpl p) ∧ s = Status_OK ∧
        a' = a_set_data a p (a_data a p ++ data)
  | OpNoop h, RStatus s => s = Status_OK ∧ a' = a
  | OpRead h n, RRead r =>
      ∃ p pos, a_objs a !! h = Some (SequentialFileImpl p pos) ∧
        r = (Status_OK, ztake n (zdrop pos (a_data a p))) ∧
        a' = a_set_objs a (<[h := SequentialFileImpl p (Z.min (pos + n) (zlen (a_data a p)))]> (a_objs a))
  | OpSkip h n, RStatus s =>
      ∃ p pos, a_objs a !! h = Some (SequentialFileImpl p pos) ∧ s = Status_OK ∧
        a' = a_set_objs a (<[h := SequentialFileImpl p (Z.min (pos + n) (zlen (a_data a p)))]> (a_objs a))
  | OpReadAt h offset n, RRead r =>
      ∃ p, a_objs a !! h = Some (RandomAccessFileImpl p) ∧ a' = a ∧
        r = if decide (offset > zlen (a_data a p))
            then (IOError (str "Offset greater than file size.") [], [])
            else (Status_OK, ztake n (zdrop offset (a_data a p)))
  | OpDelete h, RUnit => a' = a_set_objs a (delete h (a_objs a))
  | _, _ => False
  end.

(** Sequential readers stay inside their file. *)
Definition in_file (a : AFS) : Prop :=
  ∀ h p pos, a_objs a !! h = Some (SequentialFileImpl p pos) → 0 ≤ pos ≤ zlen (a_data a p).

Lemma in_file_update a h o :
  in_file a → (∀ p pos, o = SequentialFileImpl p pos → 0 ≤ pos ≤ zlen (a_data a p)) →
  in_file (a_set_objs a (<[h := o]> (a_objs a))).
Proof.
  intros Ha Ho h' p pos. cbn. destruct (decide (h' = h)) as [->|Hne].
  - rewrite lookup_insert_eq. intros [= ->]. by apply Ho.
  - rewrite lookup_insert_ne by done. apply Ha.
Qed.

Lemma in_file_spec op a r a' : in_file a → legal op a → spec_op op a r a' → in_file a'.
Proof.
  intros Ha Hl Hs. destruct op, r; cbn in Hs, Hl; try done.
  - unfold spec_NewFileObject in Hs. destruct (a_names a !! fname) as [p|], r as [s|h]; try done.
    + destruct Hs as [_ ->]. apply in_file_update; [done|]. intros ? ? [= <- <-].
      pose proof (zlen_nonneg (a_data a p)). lia.
    + by destruct Hs as [_ ->].
  - unfold spec_NewFileObject in Hs. destruct (a_names a !! fname) as [p|], r as [s|h]; try done.
    + destruct Hs as [_ ->]. by apply in_file_update.
    + by destruct Hs as [_ ->].
  - destruct Hs as (h & p & _ & Hh & [_ Hu] & ->). intros h' p' pos. cbn.
    destruct (decide (h' = h)) as [->|]; simplify_map_eq; [done|]. intros E.
    rewrite decide_False; [by eapply Ha|]. intros ->. by apply Hu in E.
  - by destruct Hs as [_ ->].
  - destruct r. by destruct Hs as (_ & -> & _).
  - by destruct Hs as [_ ->].
  - by destruct Hs as [-> _].
  - by destruct Hs as [_ ->].
  - destruct Hs as (p & _ & _ & ->). intros h' p' pos Hh. cbn. apply Ha in Hh. case_decide; [|done].
    subst. rewrite zlen_app. pose proof (zlen_nonneg data). lia.
  - by destruct Hs as [_ ->].
  - destruct Hs as (p & pos & Hh & _ & ->). apply in_file_update; [done|]. intros ? ? [= <- <-].
    apply Ha in Hh. lia.
  - destruct Hs as (p & pos & Hh & _ & ->). apply in_file_update; [done|]. intros ? ? [= <- <-].
    apply Ha in Hh. lia.
  - by destruct Hs as (p & _ & -> & _).
  - subst. intros h' p pos. cbn. intros [_ E]%lookup_delete_Some. by eapply Ha.
Qed.

Lemma run_op_refines w a op :
  refines w a → in_file a → legal op a →
  wp (run_op op) (λ r w', ∃ a', spec_op op a r a' ∧ refines w' a') w.
Proof.
  intros H Ha Hl. destruct op; cbn [run_op legal] in *; apply wp_bind.
  - eapply wp_mono; [by apply wp_new_sequential|]. intros r w' Hr. by apply wp_ret.
  - eapply wp_mono; [by apply wp_new_random|]. intros r w' Hr. by apply wp_ret.
  - eapply wp_mono; [by apply wp_new_writable|]. intros r w' Hr. by apply wp_ret.
  - unfold Mem_FileExists. apply wp_bind. eapply wp_find; [done|]. do 2 apply wp_ret. by exists a.
  - unfold wp at 1, Mem_GetChildren. apply wp_ret. exists a. cbn. split; [|done].
    pose proof H as (-> & _). splits; [done..|]. unfold sorted_names. f_equiv. apply merge_sort_Permutation.
  - eapply wp_mono; [by apply wp_DeleteFile|]. cbn beta. intros r w' [Hw Hr]. apply wp_ret. by eexists.
  - eapply wp_mono; [by apply wp_GetFileSize|]. cbn beta. intros r w' [Hw Hr]. apply wp_ret. by eexists.
  - eapply wp_mono; [by apply wp_RenameFile|]. cbn beta. intros r w' [Hw Hr]. apply wp_ret. by eexists.
  - destruct Hl as [p Hp]. eapply wp_mono; [by eapply wp_Append|]. cbn beta. intros r w' [Hr Hw].
    apply wp_ret. eexists. split; [|done]. by exists p.
  - destruct Hl as [p Hp]. pose proof H as (_ & Ho & _). unfold wp at 1, Mem_wf_noop. rewrite Ho, Hp.
    apply wp_ret. by exists a.
  - destruct Hl as (Hn & p & pos & Hp). pose proof (Ha _ _ _ Hp) as Hpos.
    eapply wp_mono; [by eapply (wp_Read _ _ _ p pos); done || lia|]. cbn beta.
    intros r w' Hr. rewrite decide_False in Hr by lia. destruct Hr as [-> Hw]. apply wp_ret. eexists. split; [|done].
    exists p, pos. split; [done|]. split; [done|]. cbn [snd]. do 3 f_equal.
    assert (zlen (zdrop pos (a_data a p)) = zlen (a_data a p) - pos) by (apply zlen_zdrop; lia).
    destruct (decide (n ≤ zlen (zdrop pos (a_data a p)))).
    + rewrite zlen_ztake by lia. lia.
    + rewrite ztake_ge by lia. lia.
  - destruct Hl as (Hn & p & pos & Hp). pose proof (Ha _ _ _ Hp) as Hpos.
    eapply wp_mono; [by eapply (wp_Skip _ _ _ p pos); done || lia|]. cbn beta.
    intros r w' Hr. rewrite decide_False in Hr by lia. destruct Hr as [-> Hw]. apply wp_ret. eexists. split; [|done].
    by exists p, pos.
  - destruct Hl as (Hoff & Hn & p & Hp).
    eapply wp_mono; [by eapply (wp_ReadAt _ _ _ p)|]. cbn beta. intros r w' [Hw Hr].
    apply wp_ret. eexists. split; [|done]. by exists p.
  - destruct Hl as [o Hh]. eapply wp_mono; [by eapply (wp_delete_object _ _ _ h o)|]. cbn beta.
    intros _ w' Hw. apply wp_ret. by eexists.
Qed.

(** C9: the in-memory environment implements a file system. From the empty one
    on, any operation that a client may perform is free of memory errors
    although files are reference counted and freed - no object is used after
    it was deleted, no block is read beyond its end or before it is written -
    and its result and effect are those of the specification, in which names
    map to unbounded files that stay readable through the objects that opened
    them. *)
Theorem MemEnv_refines :
  refines NewMemEnv {| a_names := ∅; a_objs := ∅; a_data := λ _, [] |} ∧
  ∀ w a op, refines w a → in_file a → legal op a →
    ∃ r w' a', run_op op w = Some (r, w') ∧ spec_op op a r a' ∧ refines w' a' ∧ in_file a'.
Proof.
  split; [apply refines_init|]. intros w a op H Ha Hl.
  pose proof (run_op_refines w a op H Ha Hl) as Hw. apply wp_Some in Hw as (r & w' & E & a' & Hs & Hr).
  exists r, w', a'. splits; try done. by eapply in_file_spec.
Qed.

Lemma MemEnv_refines_witness :
  ∃ r w' a', run_op (OpNewWritableFile (str "a")) NewMemEnv = Some (r, w') ∧
    spec_op (OpNewWritableFile (str "a")) {| a_names := ∅; a_objs := ∅; a_data := λ _, [] |} r a' ∧
    refines w' a' ∧ in_file a'.
Proof.
  apply (proj2 MemEnv_refines); [apply refines_init| |exact I].
  intros h p pos E. cbn in E. by rewrite lookup_empty in E.
Defined.

(** ** The interfaces the engine uses *)

Definition mem_bytes (w : MemWorld) (p : nat) : bytes :=
  match heap w !! p with
  | Some f => default [] (mapM id (ztake (size_ f) (concat (blocks_ f))))
  | None => []
  end.

Lemma mem_bytes_spec w a p : refines w a → 0 < refs w p → mem_bytes w p = a_data a p.
Proof.
  intros H Hr. destruct (refines_alive _ w a p H ltac:(lia)) as (f & Hf & (Hs & _ & _ & Hd)).
  unfold mem_bytes. by rewrite Hf, Hs, Hd, mapM_id_Some.
Qed.

Definition writable_inv (h : nat) (w : MemWorld) : Prop :=
  ∃ a p, refines w a ∧ a_objs a !! h = Some (WritableFileImpl p).

Definition writable_contents (h : nat) (w : MemWorld) : bytes :=
  match objs w !! h with Some o => mem_bytes w (object_file o) | None => [] end.

Lemma writable_contents_spec h w a p :
  refines w a → a_objs a !! h = Some (WritableFileImpl p) → writable_contents h w = a_data a p.
Proof.
  intros H Hh. pose proof H as (_ & Ho & _). unfold writable_contents. rewrite Ho, Hh.
  apply mem_bytes_spec; [done|]. rewrite <- Ho in Hh. apply (refs_object _ _ _ Hh).
Qed.

#[export] Instance MemWritable_laws h :
  WritableFileLaws (MemWritable h) (writable_inv h) (writable_contents h).
Proof.
  assert (∀ w, writable_inv h w → ∃ s w', Mem_wf_noop h w = Some (s, w') ∧ writable_inv h w' ∧
    writable_contents h w' = writable_contents h w) as Hnoop.
  { intros w (a & p & H & Hp). pose proof H as (_ & Ho & _). exists Status_OK, w.
    unfold Mem_wf_noop. rewrite Ho, Hp. splits; [done| |done]. by exists a, p. }
  split; cbn [wf_Append wf_Close wf_Flush wf_Sync MemWritable]; [|exact Hnoop..].
  intros data w (a & p & H & Hp).
  pose proof (wp_Append w a h p data H Hp) as Hw. apply wp_Some in Hw as (s & w' & E & -> & Hr).
  exists Status_OK, (zlen data), w'. pose proof (zlen_nonneg data).
  splits; [done|by exists (a_set_data a p (a_data a p ++ data)), p|lia|lia| |done].
  rewrite (writable_contents_spec h w a p H Hp), (writable_contents_spec h w' _ p Hr Hp).
  cbn. rewrite decide_True by done. by rewrite ztake_ge.
Qed.

#[export] Instance MemWritable_reliable h :
  ReliableFile (MemWritable h) (writable_inv h) (writable_contents h).
Proof.
  split; cbn [wf_Append wf_Flush MemWritable].
  - intros data w Hi. destruct (Append_law (F := MemWritable h) data w Hi) as (s & n & w' & E & Hi' & _ & Hc & Hok).
    destruct Hi as (a & p & H & Hp). pose proof (wp_Append w a h p data H Hp) as Hw.
    cbn [wf_Append MemWritable] in E. unfold wp in Hw. rewrite E in Hw. destruct Hw as [-> _].
    exists Status_OK, w'. rewrite Hok in Hc by done. by rewrite ztake_ge in Hc.
  - intros w Hi. pose proof Hi as (a & p & H & Hp). pose proof H as (_ & Ho & _).
    exists Status_OK, w. unfold Mem_wf_noop. by rewrite Ho, Hp.
Qed.

Definition sequential_inv (h : nat) (w : MemWorld) : Prop :=
  ∃ a p pos, refines w a ∧ in_file a ∧ a_objs a !! h = Some (SequentialFileImpl p pos).

Definition sequential_rest (h : nat) (w : MemWorld) : bytes :=
  match objs w !! h with
  | Some (SequentialFileImpl p pos) => zdrop pos (mem_bytes w p)
  | _ => []
  end.

Lemma sequential_rest_spec h w a p pos :
  refines w a → a_objs a !! h = Some (SequentialFileImpl p pos) →
  sequential_rest h w = zdrop pos (a_data a p).
Proof.
  intros H Hh. pose proof H as (_ & Ho & _). unfold sequential_rest. rewrite Ho, Hh.
  f_equal. apply mem_bytes_spec; [done|]. rewrite <- Ho in Hh. apply (refs_object _ _ _ Hh).
Qed.

Lemma zdrop_min {A} n (s : list A) : 0 ≤ n → zdrop (Z.min n (zlen s)) s = zdrop n s.
Proof.
  intros. destruct (decide (n ≤ zlen s)); [by rewrite Z.min_l|].
  rewrite Z.min_r by lia. by rewrite !zdrop_ge by lia.
Qed.

#[export] Instance MemSequential_laws h :
  SequentialFileLaws (MemSequential h) (sequential_inv h) (sequential_rest h).
Proof.
  assert (∀ w a w' p pos n, refines w a → in_file a → a_objs a !! h = Some (SequentialFileImpl p pos) →
    0 ≤ n → refines w' (a_set_objs a
      (<[h := SequentialFileImpl p (Z.min (pos + n) (zlen (a_data a p)))]> (a_objs a))) →
    sequential_inv h w' ∧ sequential_rest h w' = zdrop n (sequential_rest h w)) as Hstep.
  { intros w a w' p pos n H Ha Hp Hn H'. pose proof (Ha _ _ _ Hp) as Hpos. split.
    - eexists _, p, _. split; [exact H'|]. split; [|apply lookup_insert_eq].
      apply in_file_update; [done|]. intros ? ? [= <- <-]. lia.
    - rewrite (sequential_rest_spec h w a p pos H Hp).
      erewrite (sequential_rest_spec h w' _ p _ H') by apply lookup_insert_eq. cbn.
      rewrite zdrop_zdrop by lia. apply zdrop_min. lia. }
  split; cbn [sf_Read sf_Skip MemSequential]; intros n w (a & p & pos & H & Ha & Hp) Hn;
    pose proof (Ha _ _ _ Hp) as Hpos.
  - pose proof (run_op_refines w a (OpRead h n) H Ha ltac:(cbn; split; [done|by exists p, pos])) as Hw.
    cbn [run_op] in Hw. apply wp_Some in Hw as (r & w' & E & a' & Hs & Hr).
    unfold mbind, M_bind in E. destruct (Mem_sf_Read h n w) as [[rr w1]|]; [|done].
    cbn in E. injection E as <- <-. destruct Hs as (p' & pos' & Hp' & -> & ->).
    rewrite Hp in Hp'. injection Hp' as <- <-.
    rewrite (sequential_rest_spec h w a p pos H Hp). exists Status_OK, w1.
    destruct (Hstep w a w1 p pos n) as [? ?]; [done..|].
    splits; [done..|]. by rewrite <- (sequential_rest_spec h w a p pos H Hp).
  - pose proof (wp_Skip w a h p pos n H Hp ltac:(lia) Hn) as Hw.
    apply wp_Some in Hw as (s & w' & E & Hs). rewrite decide_False in Hs by lia. destruct Hs as [-> Hr].
    exists Status_OK, w'. destruct (Hstep w a w' p pos n) as [? ?]; done.
Qed.

(** ** The helpers of [util/env.cc] on this environment *)

Definition a_set_file (a : AFS) (fname : bytes) (p : nat) (s : bytes) : AFS :=
  {| a_names := <[fname := p]> (a_names a); a_objs := a_objs a;
     a_data := λ q, if decide (q = p) then s else a_data a q |}.

Lemma AFS_eq w a a' :
  refines w a → a_names a' = a_names a → a_objs a' = a_objs a → (∀ q, a_data a' q = a_data a q) → refines w a'.
Proof.
  intros (Hn & Ho & H) En Eo Ed. split; [by rewrite En|]. split; [by rewrite Eo|].
  intros q. specialize (H q). unfold file_ok in *. by rewrite Ed.
Qed.

Lemma wp_WriteString w a data fname sync :
  refines w a →
  wp (DoWriteStringToFile data fname sync) (λ s w', s = Status_OK ∧ ∃ p,
    unused (a_set_names a (delete fname (a_names a))) p ∧ refines w' (a_set_file a fname p data)) w.
Proof.
  intros H. unfold DoWriteStringToFile. apply wp_bind.
  eapply wp_mono; [by apply wp_new_writable|]. cbn beta.
  intros r w1 (a1 & (h & p & -> & Hh & Hu & ->) & H1).
  assert (∀ a2 w2, refines w2 a2 → a_objs a2 !! h = Some (WritableFileImpl p) →
    wp (Mem_wf_noop h) (λ s w', s = Status_OK ∧ w' = w2) w2) as Hnoop.
  { intros a2 w2 (_ & Ho & _) Hp. unfold wp, Mem_wf_noop. by rewrite Ho, Hp. }
  apply wp_bind. eapply wp_mono; [eapply wp_Append; [done|apply lookup_insert_eq]|].
  cbn beta. intros s w2 [-> H2]. cbn in H2. rewrite decide_True in H2 by done.
  cbn [ok Status_OK andb].
  assert (a_objs (a_set_data {| a_names := <[fname:=p]> (a_names a);
    a_objs := <[h:=WritableFileImpl p]> (a_objs a);
    a_data := λ q, if decide (q = p) then [] else a_data a q |} p ([] ++ data)) !! h
    = Some (WritableFileImpl p)) as Hlook by apply lookup_insert_eq.
  apply wp_bind. apply (wp_mono _ (λ s w', s = Status_OK ∧ w' = w2)).
  { destruct sync; [by eapply Hnoop|by apply wp_ret]. }
  intros s w3 [-> ->]. cbn [ok Status_OK]. apply wp_bind.
  apply (wp_mono _ (λ s w', s = Status_OK ∧ w' = w2)); [by eapply Hnoop|].
  intros s w4 [-> ->]. apply wp_bind.
  eapply wp_mono; [eapply (wp_delete_object _ _ _ h); [exact H2|exact Hlook|done]|].
  cbn beta. intros _ w5 H5. cbn [ok Status_OK negb]. apply wp_bind, wp_ret, wp_ret. split; [done|].
  exists p. split; [done|]. eapply AFS_eq; [exact H5|done| |].
  - cbn. by rewrite delete_insert_id.
  - intros q. cbn. by case_decide.
Qed.

(** Reading a file from start to end, 8192 bytes at a time. *)
Lemma wp_ReadFileToString_loop fuel w a h p pos data :
  refines w a → in_file a → a_objs a !! h = Some (SequentialFileImpl p pos) →
  zlen (a_data a p) - pos ≤ 8192 * (Z.of_nat fuel - 1) →
  wp (ReadFileToString_loop fuel h data) (λ r w',
    r = Some (Status_OK, data ++ zdrop pos (a_data a p)) ∧
    refines w' (a_set_objs a (<[h := SequentialFileImpl p (zlen (a_data a p))]> (a_objs a)))) w.
Proof.
  revert w a pos data. induction fuel as [|fuel IH]; intros w a pos data H Ha Hh Hf.
  { pose proof (Ha _ _ _ Hh). lia. }
  pose proof (Ha _ _ _ Hh) as Hpos. cbn [ReadFileToString_loop]. apply wp_bind.
  eapply wp_mono; [eapply (wp_Read _ _ _ p pos); [done|done|lia|lia]|].
  cbn beta. intros r w1 Hr. rewrite decide_False in Hr by lia. destruct Hr as [-> H1]. cbn [ok Status_OK negb].
  assert (zlen (zdrop pos (a_data a p)) = zlen (a_data a p) - pos) as Hd by (apply zlen_zdrop; lia).
  cbn [snd] in H1. set (chunk := ztake 8192 (zdrop pos (a_data a p))) in *.
  assert (zlen chunk = Z.min 8192 (zlen (a_data a p) - pos)) as Hc.
  { subst chunk. destruct (decide (8192 ≤ zlen (zdrop pos (a_data a p)))).
    - rewrite zlen_ztake; lia.
    - rewrite ztake_ge; lia. }
  case_decide as H0.
  - apply wp_ret. assert (pos = zlen (a_data a p)) as -> by lia.
    rewrite H0, Z.add_0_r in H1. split; [|done].
    rewrite (zlen_zero _ H0), app_nil_r. by rewrite zdrop_ge, app_nil_r by lia.
  - eapply wp_mono; [eapply (IH w1 _ (pos + zlen chunk)); [exact H1| |apply lookup_insert_eq|]|].
    + apply in_file_update; [done|]. intros ? ? [= <- <-]. lia.
    + cbn. lia.
    + cbn. intros r w2 [-> H2]. rewrite insert_insert_eq in H2. split; [|done].
      assert (chunk ++ zdrop (pos + zlen chunk) (a_data a p) = zdrop pos (a_data a p)) as Hcat;
        [|by rewrite <- app_assoc, Hcat].
      rewrite <- (ztake_zdrop 8192 (zdrop pos (a_data a p))). fold chunk. f_equal.
      rewrite zdrop_zdrop by lia. destruct (decide (8192 ≤ zlen (a_data a p) - pos)).
      * f_equal. lia.
      * by rewrite !zdrop_ge by lia.
Qed.

Lemma wp_ReadFileToString w a fname p fuel :
  refines w a → in_file a → a_names a !! fname = Some p →
  zlen (a_data a p) ≤ 8192 * (Z.of_nat fuel - 1) →
  wp (ReadFileToString fuel fname) (λ r w', r = Some (Status_OK, a_data a p) ∧ refines w' a) w.
Proof.
  intros H Ha Hf Hfuel. unfold ReadFileToString. apply wp_bind.
  eapply wp_mono; [by apply wp_new_sequential|]. cbn beta. intros r w1 (a1 & Hs & H1).
  unfold spec_NewFileObject in Hs. rewrite Hf in Hs. destruct r as [s|h]; [done|]. destruct Hs as [Hh ->].
  apply wp_bind. eapply wp_mono; [eapply (wp_ReadFileToString_loop fuel w1 _ h p 0 []);
    [done| |apply lookup_insert_eq|cbn; lia]|].
  { apply in_file_update; [done|]. intros ? ? [= <- <-]. pose proof (zlen_nonneg (a_data a p)). lia. }
  cbn. intros r w2 [-> H2]. rewrite insert_insert_eq in H2. apply wp_bind.
  eapply wp_mono; [eapply (wp_delete_object _ _ _ h); [exact H2|apply lookup_insert_eq|done]|].
  cbn. intros _ w3 H3. apply wp_ret. rewrite zdrop_0. split; [done|].
  rewrite delete_insert_id in H3 by done. eapply AFS_eq; [exact H3|done..].
Qed.

(** [SetCurrentFile] makes CURRENT name the manifest: on the in-memory
    environment it succeeds without memory errors, reading CURRENT afterwards
    gives the base name of the manifest and a newline, the temporary file is
    gone, and no other name, open file or content changes. *)
Theorem SetCurrentFile_correct w a dbname number fuel :
  refines w a → in_file a → in_w 64 number → (2 ≤ fuel)%nat →
  let manifest := str "MANIFEST-" ++ dec06 number in
  ∃ w' w'' a' p, SetCurrentFile dbname number w = Some (Status_OK, w') ∧ refines w' a' ∧
    a_objs a' = a_objs a ∧ (∀ q, q ≠ p → a_data a' q = a_data a q) ∧
    a_names a' = <[CurrentFileName dbname := p]> (delete (TempFileName dbname number) (a_names a)) ∧
    ReadFileToString fuel (CurrentFileName dbname) w'
      = Some (Some (Status_OK, manifest ++ [b8 10]), w'') ∧ refines w'' a'.
Proof.
  intros H Ha Hn Hfuel. cbn zeta. destruct (dec06_spec number Hn) as (_ & _ & D3).
  set (tmp := TempFileName dbname number). set (cur := CurrentFileName dbname).
  assert (zdrop (zlen dbname + 1) (DescriptorFileName dbname number) = str "MANIFEST-" ++ dec06 number) as Hc.
  { unfold DescriptorFileName, snprintf. rewrite ztake_ge
      by (rewrite zlen_app; change (zlen (str "/MANIFEST-")) with 10; lia).
    change (str "/MANIFEST-" ++ dec06 number) with (str "/" ++ (str "MANIFEST-" ++ dec06 number)).
    rewrite app_assoc. apply zdrop_app_n. by rewrite zlen_app. }
  assert (tmp ≠ cur) as Hne.
  { unfold tmp, cur, TempFileName, CurrentFileName. rewrite MakeFileName_eq by done.
    intros E%app_inv_head. injection E as E. revert E.
    destruct (dec06_spec number Hn) as (Hd & _ & _).
    apply nodigit_head; [by vm_compute; intros []|done|]. intros E. rewrite E, zlen_nil in D3. lia. }
  set (data := (str "MANIFEST-" ++ dec06 number) ++ [b8 10]).
  assert (wp (SetCurrentFile dbname number) (λ s w', s = Status_OK ∧ ∃ p,
    unused (a_set_names a (delete tmp (a_names a))) p ∧
    refines w' {| a_names := <[cur := p]> (delete tmp (a_names a)); a_objs := a_objs a;
                  a_data := λ q, if decide (q = p) then data else a_data a q |}) w) as Hw.
  { unfold SetCurrentFile. rewrite Hc. fold data tmp cur. apply wp_bind.
    eapply wp_mono; [by apply wp_WriteString|]. cbn beta. intros s w1 [-> (p & Hu & H1)].
    cbn [ok Status_OK]. apply wp_bind. eapply wp_mono; [by apply wp_RenameFile|].
    cbn beta. intros s w2 [H2 Hs]. cbn [a_set_file a_names] in *.
    rewrite lookup_insert_eq in Hs. subst s. cbn [ok Status_OK negb]. apply wp_bind, wp_ret, wp_ret.
    split; [done|]. exists p. split; [done|]. eapply AFS_eq; [exact H2| |done|done].
    cbn. unfold renamed. rewrite lookup_insert_eq, decide_False by done.
    by rewrite delete_insert_eq. }
  apply wp_Some in Hw as (s & w' & E & -> & p & Hu & H').
  set (a' := {| a_names := _; a_objs := _; a_data := _ |}) in H'.
  assert (in_file a') as Ha'.
  { intros h p' pos Hh. cbn in *. rewrite decide_False; [by eapply Ha|]. intros ->.
    destruct Hu as [_ Hu]. by apply Hu in Hh. }
  assert (a_data a' p = data) as Hdata by (cbn; by rewrite decide_True).
  assert (zlen data = 10 + zlen (dec06 number)) as Hz.
  { unfold data. rewrite !zlen_app. change (zlen (str "MANIFEST-")) with 9. change (zlen [_]) with 1. lia. }
  pose proof (wp_ReadFileToString w' a' cur p fuel H' Ha' (lookup_insert_eq _ _ _)) as Hr.
  rewrite Hdata in Hr. specialize (Hr ltac:(lia)). apply wp_Some in Hr as (r & w'' & Er & -> & Hr).
  exists w', w'', a', p. splits; try done. intros q Hq. cbn. by rewrite decide_False.
Qed.

Lemma SetCurrentFile_correct_witness :
  ∃ w' w'' a' p, SetCurrentFile (str "/db") 7 NewMemEnv = Some (Status_OK, w') ∧ refines w' a' ∧
    a_objs a' = ∅ ∧ (∀ q, q ≠ p → a_data a' q = []) ∧
    a_names a' = <[CurrentFileName (str "/db") := p]> (delete (TempFileName (str "/db") 7) ∅) ∧
    ReadFileToString 2 (CurrentFileName (str "/db")) w'
      = Some (Some (Status_OK, (str "MANIFEST-" ++ dec06 7) ++ [b8 10]), w'') ∧ refines w'' a'.
Proof.
  apply (SetCurrentFile_correct _ _ _ _ _ refines_init); [|by vm_compute|lia].
  intros h p pos E. cbn in E. by rewrite lookup_empty in E.
Defined.

(** A rename of a file onto itself removes it. *)
Lemma RenameFile_self w a fname p :
  refines w a → a_names a !! fname = Some p →
  ∃ w', Mem_RenameFile fname fname w = Some (Status_OK, w') ∧ file_map_ w' !! fname = None.
Proof.
  intros H Hf. pose proof (wp_RenameFile w a fname fname H) as Hw.
  apply wp_Some in Hw as (r & w' & E & Hr & Hs). rewrite Hf in Hs. subst r.
  exists w'. split; [done|]. destruct Hr as (-> & _). cbn. unfold renamed.
  rewrite Hf, decide_True by done. apply lookup_delete_eq.
Qed.
