(* ===== verification/EnvFiles.v ===== *)
(** What a database relies on when no operation on a file fails: an environment
    as a map from names to contents, with handles that write to a file or read
    from one. The in-memory environment is one of this kind. *)
From stdpp Require Import gmap sorting.
From S2P Require Import Prelude Comparator Status Env MemEnv.

(** Handles on the files whose names do not satisfy [X] stay what they are. *)
Definition frame {W} {E : Env W} (writing : W → WritableHandle → bytes → Prop)
    (reading : W → SequentialHandle → bytes → bytes → Prop) (X : bytes → Prop) (w w' : W) : Prop :=
  ∀ g, ¬ X g → (∀ h, writing w h g → writing w' h g) ∧ (∀ h T, reading w h g T → reading w' h g T).

(** [writing w h f]: [h] appends to the file [f]; [reading w h f T]: [h] reads
    the file [f], and [T] is what is left to be read. *)
Class ReliableEnv {W} (E : Env W) (inv : W → Prop) (files : W → gmap bytes bytes)
    (writing : W → WritableHandle → bytes → Prop) (reading : W → SequentialHandle → bytes → bytes → Prop) : Prop := {
  re_exists w h f : inv w → writing w h f → is_Some (files w !! f);
  re_NewWritable f w : inv w →
    ∃ h w', NewWritableFile f w = Some (inr h, w') ∧ inv w' ∧ files w' = <[f := []]> (files w) ∧
      frame writing reading (λ g, g = f) w w' ∧ writing w' h f;
  re_Append h f T data w : inv w → writing w h f → files w !! f = Some T →
    ∃ s w', wf_Append (WritableFile := writable h) data w = Some (s, w') ∧ ok s = true ∧ inv w' ∧
      files w' = <[f := T ++ data]> (files w) ∧ frame writing reading (λ g, g = f) w w' ∧ writing w' h f;
  re_Flush h f w : inv w → writing w h f → ∃ s, wf_Flush (WritableFile := writable h) w = Some (s, w) ∧ ok s = true;
  re_Sync h f w : inv w → writing w h f → ∃ s, wf_Sync (WritableFile := writable h) w = Some (s, w) ∧ ok s = true;
  re_Close h f w : inv w → writing w h f → ∃ s, wf_Close (WritableFile := writable h) w = Some (s, w) ∧ ok s = true;
  re_wf_delete h f w : inv w → writing w h f →
    ∃ w', wf_delete h w = Some ((), w') ∧ inv w' ∧ files w' = files w ∧ frame writing reading (λ g, g = f) w w';
  re_NewSequential f T w : inv w → files w !! f = Some T →
    ∃ h w', NewSequentialFile f w = Some (inr h, w') ∧ inv w' ∧ files w' = files w ∧
      frame writing reading (λ _, False) w w' ∧ reading w' h f T;
  re_Read h f T n w : inv w → reading w h f T → 0 ≤ n →
    ∃ s w', sf_Read (SequentialFile := sequential h) n w = Some ((s, ztake n T), w') ∧ ok s = true ∧ inv w' ∧
      files w' = files w ∧ frame writing reading (λ g, g = f) w w' ∧ reading w' h f (zdrop n T);
  re_Skip h f T n w : inv w → reading w h f T → 0 ≤ n →
    ∃ s w', sf_Skip (SequentialFile := sequential h) n w = Some (s, w') ∧ ok s = true ∧ inv w' ∧
      files w' = files w ∧ frame writing reading (λ g, g = f) w w' ∧ reading w' h f (zdrop n T);
  re_sf_delete h f T w : inv w → reading w h f T →
    ∃ w', sf_delete h w = Some ((), w') ∧ inv w' ∧ files w' = files w ∧ frame writing reading (λ g, g = f) w w';
  re_FileExists f w : inv w → FileExists f w = Some (bool_decide (is_Some (files w !! f)), w);
  re_GetChildren dir w : inv w →
    ∃ s names, GetChildren dir w = Some ((s, names), w) ∧ ok s = true ∧
      ∀ name, name ∈ names ↔ is_Some (files w !! (dir ++ str "/" ++ name));
  re_Delete f w : inv w →
    ∃ s w', DeleteFile f w = Some (s, w') ∧ ok s = bool_decide (is_Some (files w !! f)) ∧ inv w' ∧
      files w' = delete f (files w) ∧ frame writing reading (λ g, g = f) w w';
  re_Rename f g T w : inv w → f ≠ g → files w !! f = Some T →
    ∃ s w', RenameFile f g w = Some (s, w') ∧ ok s = true ∧ inv w' ∧
      files w' = <[g := T]> (delete f (files w)) ∧ frame writing reading (λ x, x = f ∨ x = g) w w';
}.

(** ** The files one at a time *)

(** While one file is written, the others and the handles on them stay. *)
Section OneFile.
Context {W : Type} {E : Env W} {inv : W → Prop} {files : W → gmap bytes bytes}.
Context {writing : W → WritableHandle → bytes → Prop} {reading : W → SequentialHandle → bytes → bytes → Prop}.
Context {RE : ReliableEnv E inv files writing reading}.

Definition file_bytes (f : bytes) (w : W) : bytes := default [] (files w !! f).

Definition writing_only (w0 : W) (h : WritableHandle) (f : bytes) (w : W) : Prop :=
  inv w ∧ writing w h f ∧ delete f (files w) = delete f (files w0) ∧ frame writing reading (λ g, g = f) w0 w.

Definition reading_only (w0 : W) (h : SequentialHandle) (f : bytes) (w : W) : Prop :=
  inv w ∧ (∃ T, reading w h f T) ∧ files w = files w0 ∧ frame writing reading (λ g, g = f) w0 w.

Lemma frame_refl X w : frame writing reading X w w.
Proof. by intros g _. Qed.

Lemma frame_trans X w1 w2 w3 : frame writing reading X w1 w2 → frame writing reading X w2 w3 → frame writing reading X w1 w3.
Proof. intros H1 H2 g Hg. destruct (H1 g Hg), (H2 g Hg). naive_solver. Qed.

Lemma frame_mono (X Y : bytes → Prop) w1 w2 : (∀ g, X g → Y g) → frame writing reading X w1 w2 → frame writing reading Y w1 w2.
Proof. intros HXY H g Hg. apply H. naive_solver. Qed.

Lemma file_bytes_Some f w h : inv w → writing w h f → files w !! f = Some (file_bytes f w).
Proof. intros Hi Hw. unfold file_bytes. by destruct (re_exists w h f Hi Hw) as [T ->]. Qed.

#[export] Instance writing_only_reliable w0 h f : ReliableFile (writable h) (writing_only w0 h f) (file_bytes f).
Proof.
  split.
  - intros data w (Hi & Hw & Hd & Hf). pose proof (file_bytes_Some _ _ _ Hi Hw) as HT.
    destruct (re_Append h f _ data w Hi Hw HT) as (s & w' & E' & Hs & Hi' & HF & Hfr & Hw').
    exists s, w'. splits; [done..| |].
    + split; [done|]. split; [done|]. split; [by rewrite HF, delete_insert_eq|by eapply frame_trans].
    + unfold file_bytes at 1. by rewrite HF, lookup_insert_eq.
  - intros w Hw. pose proof Hw as (Hi & Hwr & _). destruct (re_Flush h f w Hi Hwr) as (s & E' & Hs). by exists s, w.
Qed.

Lemma writing_new f w : inv w →
  ∃ h w', NewWritableFile f w = Some (inr h, w') ∧ writing_only w h f w' ∧ file_bytes f w' = [].
Proof.
  intros Hi. destruct (re_NewWritable f w Hi) as (h & w' & E' & Hi' & HF & Hfr & Hw). exists h, w'.
  unfold writing_only, file_bytes. rewrite HF, lookup_insert_eq, delete_insert_eq. done.
Qed.

(** The file is closed. *)
Lemma writing_done w0 h f w : writing_only w0 h f w →
  ∃ w', wf_delete h w = Some ((), w') ∧ inv w' ∧ files w' = <[f := file_bytes f w]> (files w0) ∧
    frame writing reading (λ g, g = f) w0 w'.
Proof.
  intros (Hi & Hw & Hd & Hf). destruct (re_wf_delete h f w Hi Hw) as (w' & E' & Hi' & HF & Hfr). exists w'.
  splits; [done..| |by eapply frame_trans]. rewrite HF, <- insert_delete_eq, <- Hd, insert_delete_eq.
  by rewrite insert_id by by eapply file_bytes_Some.
Qed.

Lemma reading_new f T w : inv w → files w !! f = Some T →
  ∃ h w', NewSequentialFile f w = Some (inr h, w') ∧ reading_only w h f w' ∧ reading w' h f T.
Proof.
  intros Hi HT. destruct (re_NewSequential f T w Hi HT) as (h & w' & E' & Hi' & HF & Hfr & Hr). exists h, w'.
  split; [done|]. split; [|done]. split; [done|]. split; [by exists T|]. split; [done|]. by eapply frame_mono; [|exact Hfr].
Qed.
End OneFile.
Arguments file_bytes {W} files f w.

(** ** The in-memory environment *)

Module Mem.
Definition mem_inv (w : MemWorld) : Prop :=
  ∃ a, refines w a ∧ in_file a ∧ ∀ f g p, a_names a !! f = Some p → a_names a !! g = Some p → f = g.
Definition mem_files (w : MemWorld) : gmap bytes bytes := mem_bytes w <$> file_map_ w.
Definition mem_writing (w : MemWorld) (h : nat) (f : bytes) : Prop :=
  ∃ p, objs w !! h = Some (WritableFileImpl p) ∧ file_map_ w !! f = Some p.
Definition mem_reading (w : MemWorld) (h : nat) (f : bytes) (T : bytes) : Prop :=
  ∃ p pos, objs w !! h = Some (SequentialFileImpl p pos) ∧ file_map_ w !! f = Some p ∧ T = zdrop pos (mem_bytes w p).

(** The same of the abstract file system. *)
Definition a_files (a : AFS) : gmap bytes bytes := a_data a <$> a_names a.
Definition a_writing (a : AFS) (h : nat) (f : bytes) : Prop :=
  ∃ p, a_objs a !! h = Some (WritableFileImpl p) ∧ a_names a !! f = Some p.
Definition a_reading (a : AFS) (h : nat) (f : bytes) (T : bytes) : Prop :=
  ∃ p pos, a_objs a !! h = Some (SequentialFileImpl p pos) ∧ a_names a !! f = Some p ∧ T = zdrop pos (a_data a p).

Lemma name_bytes w a f p : refines w a → a_names a !! f = Some p → mem_bytes w p = a_data a p.
Proof.
  intros H Hf. apply (mem_bytes_spec _ _ _ H). pose proof H as (Hn & _). rewrite <- Hn in Hf. by apply refs_name in Hf.
Qed.

Lemma files_a w a : refines w a → mem_files w = a_files a.
Proof.
  intros H. unfold mem_files, a_files. pose proof H as (-> & _). apply map_eq. intros f. rewrite !lookup_fmap.
  destruct (a_names a !! f) as [p|] eqn:Hf; [|done]. cbn. by rewrite (name_bytes w a f p H Hf).
Qed.

Lemma writing_a w a h f : refines w a → mem_writing w h f ↔ a_writing a h f.
Proof. intros (Hn & Ho & _). unfold mem_writing, a_writing. by rewrite Hn, Ho. Qed.

Lemma reading_a w a h f T : refines w a → mem_reading w h f T ↔ a_reading a h f T.
Proof.
  intros H. pose proof H as (Hn & Ho & _). unfold mem_reading, a_reading. rewrite Hn, Ho.
  split; intros (p & pos & H1 & H2 & ->); exists p, pos; by rewrite (name_bytes w a f p H H2).
Qed.

(** No two names of one file. *)
Definition one_name (a : AFS) : Prop := ∀ f g p, a_names a !! f = Some p → a_names a !! g = Some p → f = g.

Definition a_frame (X : bytes → Prop) (a a' : AFS) : Prop :=
  ∀ g p, ¬ X g → a_names a !! g = Some p → a_names a' !! g = Some p ∧ a_data a' p = a_data a p ∧
    ∀ h o, a_objs a !! h = Some o → object_file o = p → a_objs a' !! h = Some o.

Lemma frame_a X w w' a a' : refines w a → refines w' a' → a_frame X a a' → frame (E := InMemoryEnv) mem_writing mem_reading X w w'.
Proof.
  intros H H' Hf g Hg. split.
  - intros h. rewrite (writing_a w a), (writing_a w' a') by done. intros (p & Ho & Hp). exists p.
    destruct (Hf g p Hg Hp) as (Hp' & _ & Hk). split; [|done]. by apply (Hk h _ Ho).
  - intros h T. rewrite (reading_a w a), (reading_a w' a') by done. intros (p & pos & Ho & Hp & ->). exists p, pos.
    destruct (Hf g p Hg Hp) as (Hp' & -> & Hk). split; [|done]. by apply (Hk h _ Ho).
Qed.

(** An object of the file [f] changes, or the bytes or the name of [f]. *)
Lemma a_frame_objs a f p h o o' : one_name a → a_names a !! f = Some p → a_objs a !! h = Some o → object_file o = p →
  a_frame (λ g, g = f) a (a_set_objs a (partial_alter (λ _, o') h (a_objs a))).
Proof.
  intros H1 Hf Hh Ho g q Hg Hq. split; [done|]. split; [done|]. intros h' o'' Hh' <-. cbn.
  rewrite lookup_partial_alter_ne; [done|]. intros <-. rewrite Hh in Hh'. injection Hh' as <-. rewrite Ho in Hq.
  by destruct Hg; eapply H1.
Qed.

Lemma a_frame_data a f p T : one_name a → a_names a !! f = Some p → a_frame (λ g, g = f) a (a_set_data a p T).
Proof.
  intros H1 Hf g q Hg Hq. split; [done|]. split; [|done]. cbn. rewrite decide_False; [done|]. intros ->.
  by destruct Hg; eapply H1.
Qed.

Lemma a_frame_delete a f : a_frame (λ g, g = f) a (a_set_names a (delete f (a_names a))).
Proof. intros g q Hg Hq. cbn. by rewrite lookup_delete_ne by by apply not_eq_sym. Qed.

Lemma one_name_delete a f : one_name a → one_name (a_set_names a (delete f (a_names a))).
Proof. intros H g g' p. cbn. intros [_ H1]%lookup_delete_Some [_ H2]%lookup_delete_Some. by eapply H. Qed.

(** What the state is after an operation. *)
Lemma mem_after (X : bytes → Prop) w w' a a' :
  refines w a → refines w' a' → in_file a' → one_name a' → a_frame X a a' →
  mem_inv w' ∧ mem_files w' = a_files a' ∧ frame (E := InMemoryEnv) mem_writing mem_reading X w w'.
Proof.
  intros H H' Hi H1 Hf. split; [by exists a'|]. split; [by apply files_a|]. by eapply frame_a.
Qed.

Lemma a_files_lookup a f T : a_files a !! f = Some T ↔ ∃ p, a_names a !! f = Some p ∧ a_data a p = T.
Proof. unfold a_files. rewrite lookup_fmap, fmap_Some. naive_solver. Qed.

Lemma mem_New f w : mem_inv w →
  ∃ h w', NewWritableFile f w = Some (inr h, w') ∧ mem_inv w' ∧ mem_files w' = <[f := []]> (mem_files w) ∧
    frame mem_writing mem_reading (λ g, g = f) w w' ∧ mem_writing w' h f.
Proof.
  intros (a & H & Hi & H1). pose proof (wp_new_writable w a f H) as Hw. apply wp_Some in Hw as (r & w' & E' & a' & Hs & H').
  pose proof (in_file_spec (OpNewWritableFile f) a (RHandle r) a' Hi I Hs) as Hi'.
  destruct Hs as (h & p & -> & Hh & [Hu1 Hu2] & ->). cbn in Hu1, Hu2.
  assert (Hnew : ∀ g, g ≠ f → a_names a !! g ≠ Some p).
  { intros g Hg Hp. apply (Hu1 g). by rewrite lookup_delete_ne by by apply not_eq_sym. }
  set (a' := {| a_names := _ |}) in *.
  destruct (mem_after (λ g, g = f) w w' a a') as (Hm & HF & Hfr); [done..| | |].
  - intros g g' q. cbn. rewrite !lookup_insert_Some. intros [[<- <-]|[Hg Hq]] [[<- Hq']|[Hg' Hq']]; [done| | |by eapply H1].
    + by destruct (Hnew g'); [apply not_eq_sym|].
    + subst q. by destruct (Hnew g); [apply not_eq_sym|].
  - intros g q Hg Hq. cbn. rewrite lookup_insert_ne by by apply not_eq_sym. split; [done|]. split.
    + rewrite decide_False; [done|]. intros ->. by destruct (Hnew g).
    + intros h' o Ho _. rewrite lookup_insert_ne; [done|]. intros ->. congruence.
  - exists h, w'. splits; [done..| |done|].
    + rewrite HF, (files_a w a H). apply map_eq. intros g. unfold a_files. rewrite lookup_fmap. cbn.
      destruct (decide (f = g)) as [<-|Hg]; [rewrite !lookup_insert_eq; cbn; by rewrite decide_True|].
      rewrite !lookup_insert_ne, lookup_fmap by done. destruct (a_names a !! g) as [q|] eqn:Hq; [|done]. cbn.
      rewrite decide_False; [done|]. intros ->. by destruct (Hnew g); [apply not_eq_sym|].
    + rewrite (writing_a w' a') by done. exists p. cbn. by rewrite !lookup_insert_eq.
Qed.

Lemma mem_Append h f T data w : mem_inv w → mem_writing w h f → mem_files w !! f = Some T →
  ∃ s w', Mem_wf_Append h data w = Some (s, w') ∧ ok s = true ∧ mem_inv w' ∧
    mem_files w' = <[f := T ++ data]> (mem_files w) ∧ frame (E := InMemoryEnv) mem_writing mem_reading (λ g, g = f) w w' ∧
    mem_writing w' h f.
Proof.
  intros (a & H & Hi & H1) Hwr HT. rewrite (writing_a w a) in Hwr by done. rewrite (files_a w a H) in *. destruct Hwr as (p & Hh & Hf).
  apply a_files_lookup in HT as (p' & Hf' & <-). rewrite Hf in Hf'. injection Hf' as <-.
  pose proof (wp_Append w a h p data H Hh) as Hw. apply wp_Some in Hw as (s & w' & E' & -> & H').
  set (a' := a_set_data a p (a_data a p ++ data)) in *.
  destruct (mem_after (λ g, g = f) w w' a a') as (Hm & HF & Hfr); [done..| | |by apply a_frame_data|].
  - apply (in_file_spec (OpAppend h data) a (RStatus Status_OK) a' Hi); [by exists p|by exists p].
  - done.
  - exists Status_OK, w'. splits; [done..| |done|].
    + rewrite HF. apply map_eq. intros g. unfold a_files. rewrite lookup_fmap. cbn.
      destruct (decide (f = g)) as [<-|Hg]; [rewrite lookup_insert_eq, Hf; cbn; by rewrite decide_True|].
      rewrite lookup_insert_ne, lookup_fmap by done. destruct (a_names a !! g) as [q|] eqn:Hq; [|done]. cbn.
      rewrite decide_False; [done|]. intros ->. by destruct Hg; eapply H1.
    + rewrite (writing_a w' a') by done. by exists p.
Qed.

(** Operations that only change an object of the file [f]. *)
Lemma mem_object h f w w' a p o o' :
  refines w a → one_name a → a_names a !! f = Some p → a_objs a !! h = Some o → object_file o = p →
  let a' := a_set_objs a (partial_alter (λ _, o') h (a_objs a)) in
  refines w' a' → in_file a' →
  mem_inv w' ∧ mem_files w' = mem_files w ∧ frame (E := InMemoryEnv) mem_writing mem_reading (λ g, g = f) w w'.
Proof.
  intros H H1 Hf Hh Ho a' H' Hi'. destruct (mem_after (λ g, g = f) w w' a a') as (Hm & HF & Hfr); [done..|by eapply a_frame_objs|].
  split; [done|]. split; [|done]. by rewrite HF, (files_a w a H).
Qed.

Lemma mem_delete_object h f w : mem_inv w → (∃ o p, objs w !! h = Some o ∧ file_map_ w !! f = Some p ∧ object_file o = p) →
  ∃ w', delete_object h w = Some ((), w') ∧ mem_inv w' ∧ mem_files w' = mem_files w ∧
    frame (E := InMemoryEnv) mem_writing mem_reading (λ g, g = f) w w'.
Proof.
  intros (a & H & Hi & H1) (o & p & Hh & Hf & Ho). pose proof H as (Hn & Hob & _). rewrite Hn in Hf. rewrite Hob in Hh.
  pose proof (wp_delete_object _ w a h o H Hh ltac:(done)) as Hw. apply wp_Some in Hw as ([] & w' & E' & H').
  exists w'. split; [done|]. apply (mem_object h f w w' a p o None); [done..|].
  by apply (in_file_spec (OpDelete h) a RUnit _ Hi); [exists o|].
Qed.

Lemma mem_NewSequential f T w : mem_inv w → mem_files w !! f = Some T →
  ∃ h w', Mem_NewSequentialFile f w = Some (inr h, w') ∧ mem_inv w' ∧ mem_files w' = mem_files w ∧
    frame (E := InMemoryEnv) mem_writing mem_reading (λ _, False) w w' ∧ mem_reading w' h f T.
Proof.
  intros (a & H & Hi & H1) HT. rewrite (files_a w a H) in HT. apply a_files_lookup in HT as (p & Hf & <-).
  pose proof (wp_new_sequential w a f H) as Hw. apply wp_Some in Hw as (r & w' & E' & a' & Hs & H').
  pose proof (in_file_spec (OpNewSequentialFile f) a (RHandle r) a' Hi I Hs) as Hi'. unfold spec_NewFileObject in Hs.
  rewrite Hf in Hs. destruct r as [|h]; [done|]. destruct Hs as [Hh ->]. set (a' := a_set_objs a _) in *.
  destruct (mem_after (λ _, False) w w' a a') as (Hm & HF & Hfr); [done..| |].
  - intros g q _ Hq. split; [done|]. split; [done|]. intros h' o Ho _. cbn. rewrite lookup_insert_ne; [done|]. intros ->. congruence.
  - exists h, w'. splits; [done..| |done|].
    + by rewrite HF, (files_a w a H).
    + rewrite (reading_a w' a') by done. exists p, 0. cbn. rewrite lookup_insert_eq. by rewrite zdrop_0.
Qed.

Lemma mem_Read h f T n w : mem_inv w → mem_reading w h f T → 0 ≤ n →
  ∃ s w', Mem_sf_Read h n w = Some ((s, ztake n T), w') ∧ ok s = true ∧ mem_inv w' ∧ mem_files w' = mem_files w ∧
    frame (E := InMemoryEnv) mem_writing mem_reading (λ g, g = f) w w' ∧ mem_reading w' h f (zdrop n T).
Proof.
  intros (a & H & Hi & H1) Hr Hn. rewrite (reading_a w a) in Hr by done. destruct Hr as (p & pos & Hh & Hf & ->).
  pose proof (Hi _ _ _ Hh) as Hpos.
  pose proof (run_op_refines w a (OpRead h n) H Hi (conj Hn (ex_intro _ p (ex_intro _ pos Hh)))) as Hw.
  apply wp_Some in Hw as (r & w' & E' & a' & Hs & H'). cbn [run_op] in E'. unfold mbind, M_bind in E'.
  destruct (Mem_sf_Read h n w) as [[rr w1]|] eqn:Er; [|done]. cbn in E'. apply (inj Some) in E'. apply pair_eq in E' as [<- ->].
  pose proof (in_file_spec (OpRead h n) a _ a' Hi (conj Hn (ex_intro _ p (ex_intro _ pos Hh))) Hs) as Hi'.
  destruct Hs as (p' & pos' & Hh' & -> & ->). rewrite Hh in Hh'. injection Hh' as <- <-.
  destruct (mem_object h f w w' a p _ (Some (SequentialFileImpl p (Z.min (pos + n) (zlen (a_data a p))))) H H1 Hf Hh eq_refl H' Hi')
    as (Hm & HF & Hfr).
  exists Status_OK, w'. splits; [done..|]. rewrite (reading_a w' _) by done. eexists p, _. cbn. rewrite lookup_insert_eq.
  split; [done|]. split; [done|]. rewrite zdrop_zdrop by lia. symmetry. apply zdrop_min. lia.
Qed.

Lemma mem_Skip h f T n w : mem_inv w → mem_reading w h f T → 0 ≤ n →
  ∃ s w', Mem_sf_Skip h n w = Some (s, w') ∧ ok s = true ∧ mem_inv w' ∧ mem_files w' = mem_files w ∧
    frame (E := InMemoryEnv) mem_writing mem_reading (λ g, g = f) w w' ∧ mem_reading w' h f (zdrop n T).
Proof.
  intros (a & H & Hi & H1) Hr Hn. rewrite (reading_a w a) in Hr by done. destruct Hr as (p & pos & Hh & Hf & ->).
  pose proof (Hi _ _ _ Hh) as Hpos. pose proof (wp_Skip w a h p pos n H Hh ltac:(lia) Hn) as Hw.
  apply wp_Some in Hw as (s & w' & E' & Hs). rewrite decide_False in Hs by lia. destruct Hs as [-> H'].
  assert (Hi' : in_file (a_set_objs a (<[h := SequentialFileImpl p (Z.min (pos + n) (zlen (a_data a p)))]> (a_objs a)))).
  { apply in_file_update; [done|]. intros ? ? [= <- <-]. lia. }
  destruct (mem_object h f w w' a p _ (Some (SequentialFileImpl p (Z.min (pos + n) (zlen (a_data a p))))) H H1 Hf Hh eq_refl H' Hi')
    as (Hm & HF & Hfr).
  exists Status_OK, w'. splits; [done..|]. rewrite (reading_a w' _) by done. eexists p, _. cbn. rewrite lookup_insert_eq.
  split; [done|]. split; [done|]. rewrite zdrop_zdrop by lia. symmetry. apply zdrop_min. lia.
Qed.

Lemma child_of_spec dir fname name : child_of dir fname = Some name ↔ fname = dir ++ str "/" ++ name.
Proof.
  unfold child_of. destruct (_ && _) eqn:Eb.
  - apply andb_true_iff in Eb as [[E1%bool_decide_eq_true E2%bool_decide_eq_true]%andb_true_iff E3].
    apply Slice_starts_with_spec in E3 as [t ->]. rewrite zlen_app in E1. pose proof (zlen_nonneg dir).
    rewrite zget_app_r, Z.sub_diag in E2 by lia. destruct t as [|c t]; [rewrite zlen_nil in E1; lia|]. rewrite zget_0_cons in E2. subst c.
    rewrite zdrop_app_ge by lia. replace (zlen dir + 1 - zlen dir) with 1 by lia.
    change (zdrop 1 (b8 47 :: t)) with t. change (str "/" ++ name) with (b8 47 :: name).
    split; [intros [= ->]; done|]. intros [= ->]%app_inv_head. done.
  - split; [done|]. intros ->. exfalso. rewrite !zlen_app in Eb. pose proof (zlen_nonneg name).
    change (zlen (str "/")) with 1 in Eb. rewrite bool_decide_true in Eb by lia.
    rewrite zget_app_r, Z.sub_diag in Eb by lia. change (str "/" ++ name) with (b8 47 :: name) in Eb.
    rewrite zget_0_cons, bool_decide_true in Eb by done.
    assert (Hs : Slice_starts_with (dir ++ b8 47 :: name) dir = true) by (apply Slice_starts_with_spec; by eexists).
    by rewrite Hs in Eb.
Qed.

Lemma mem_GetChildren dir w : mem_inv w →
  ∃ s names, Mem_GetChildren dir w = Some ((s, names), w) ∧ ok s = true ∧
    ∀ name, name ∈ names ↔ is_Some (mem_files w !! (dir ++ str "/" ++ name)).
Proof.
  intros (a & H & _). pose proof H as (Hn & _). unfold Mem_GetChildren. eexists _, _. split; [done|]. split; [done|].
  intros name. rewrite list_elem_of_omap. unfold mem_files. rewrite lookup_fmap, fmap_is_Some.
  assert (Hin : ∀ f, f ∈ sorted_names (file_map_ w) ↔ is_Some (file_map_ w !! f)).
  { intros f. unfold sorted_names. rewrite (merge_sort_Permutation name_le), list_elem_of_fmap. split.
    - intros ([f' p] & -> & Hp%elem_of_map_to_list). by exists p.
    - intros [p Hp]. exists (f, p). split; [done|]. by apply elem_of_map_to_list. }
  split.
  - intros (f & Hf%Hin & ->%child_of_spec). done.
  - intros Hs. eexists. split; [by apply Hin|]. by apply child_of_spec.
Qed.

Lemma mem_Delete f w : mem_inv w →
  ∃ s w', Mem_DeleteFile f w = Some (s, w') ∧ ok s = bool_decide (is_Some (mem_files w !! f)) ∧ mem_inv w' ∧
    mem_files w' = delete f (mem_files w) ∧ frame (E := InMemoryEnv) mem_writing mem_reading (λ g, g = f) w w'.
Proof.
  intros (a & H & Hi & H1). pose proof (wp_DeleteFile w a f H) as Hw. apply wp_Some in Hw as (s & w' & E' & H' & Hs).
  exists s, w'. split; [done|]. rewrite (files_a w a H). split.
  { rewrite Hs. unfold a_files. rewrite lookup_fmap. by destruct (a_names a !! f). }
  destruct (mem_after (λ g, g = f) w w' a _ H H' Hi (one_name_delete a f H1) (a_frame_delete a f)) as (Hm & HF & Hfr).
  split; [done|]. split; [|done]. rewrite HF. unfold a_files. cbn. by rewrite fmap_delete.
Qed.

Lemma mem_Rename f g T w : mem_inv w → f ≠ g → mem_files w !! f = Some T →
  ∃ s w', Mem_RenameFile f g w = Some (s, w') ∧ ok s = true ∧ mem_inv w' ∧
    mem_files w' = <[g := T]> (delete f (mem_files w)) ∧
    frame (E := InMemoryEnv) mem_writing mem_reading (λ x, x = f ∨ x = g) w w'.
Proof.
  intros (a & H & Hi & H1) Hne HT. rewrite (files_a w a H) in *. apply a_files_lookup in HT as (p & Hf & <-).
  pose proof (wp_RenameFile w a f g H) as Hw. apply wp_Some in Hw as (s & w' & E' & H' & Hs). rewrite Hf in Hs.
  unfold renamed in H'. rewrite Hf, decide_False in H' by done. set (a' := a_set_names a _) in *.
  destruct (mem_after (λ x, x = f ∨ x = g) w w' a a') as (Hm & HF & Hfr); [done..| | |].
  - intros x y q. cbn. rewrite !lookup_insert_Some, !lookup_delete_Some.
    intros [[<- <-]|(Hx & Hx' & Hq)] [[<- Hq']|(Hy & Hy' & Hq')]; [done| | |by eapply H1].
    + destruct Hy'. by eapply H1.
    + subst q. destruct Hx'. by eapply H1.
  - intros x q Hx Hq. cbn. rewrite lookup_insert_ne, lookup_delete_ne by (intros ->; apply Hx; auto). done.
  - exists s, w'. splits; [done|by subst s|done| |done]. rewrite HF. unfold a_files. cbn. by rewrite fmap_insert, fmap_delete.
Qed.

(** The in-memory environment is a reliable one. *)
#[export] Instance InMemoryEnv_reliable : ReliableEnv InMemoryEnv mem_inv mem_files mem_writing mem_reading.
Proof.
  split; cbn [wf_Append wf_Flush wf_Sync wf_Close wf_delete sf_Read sf_Skip sf_delete NewSequentialFile FileExists GetChildren DeleteFile
    RenameFile writable sequential InMemoryEnv MemWritable MemSequential].
  - intros w h f _ (p & _ & Hf). unfold mem_files. rewrite lookup_fmap, Hf. by eexists.
  - intros f w. apply mem_New.
  - intros h f T data w. apply mem_Append.
  - intros h f w _ (p & Hh & _). unfold Mem_wf_noop. rewrite Hh. by eexists.
  - intros h f w _ (p & Hh & _). unfold Mem_wf_noop. rewrite Hh. by eexists.
  - intros h f w _ (p & Hh & _). unfold Mem_wf_noop. rewrite Hh. by eexists.
  - intros h f w Hi (p & Hh & Hf). apply mem_delete_object; [done|]. by exists (WritableFileImpl p), p.
  - intros f T w. apply mem_NewSequential.
  - intros h f T n w. apply mem_Read.
  - intros h f T n w. apply mem_Skip.
  - intros h f T w Hi (p & pos & Hh & Hf & _). apply mem_delete_object; [done|]. by exists (SequentialFileImpl p pos), p.
  - intros f w _. unfold Mem_FileExists, mem_files. rewrite lookup_fmap. unfold mbind, M_bind, find, mret, M_ret.
    by destruct (file_map_ w !! f).
  - intros dir w. apply mem_GetChildren.
  - intros f w. apply mem_Delete.
  - intros f g T w. apply mem_Rename.
Qed.

Lemma mem_inv_init : mem_inv NewMemEnv.
Proof.
  eexists. split; [apply refines_init|]. split; [intros h p pos; cbn; by rewrite lookup_empty|].
  intros f g p. cbn. by rewrite lookup_empty.
Qed.
End Mem.
