(* ===== verification/LogFile.v ===== *)
(** The log format: [db/log_format.h], the writer of [db/log_writer.cc] and the
    reader of [db/log_reader.cc].

    The writer runs on any [WritableFile], the reader on any [SequentialFile].
    The buffer of the reader is a slice of its backing store; it is modelled by
    the bytes it holds. *)
From S2P Require Import Prelude Coding Crc32c Status Env Logging.

(** [enum RecordType], and the two special results of the reader. *)
Definition kZeroType : Z := 0.
Definition kFullType : Z := 1.
Definition kFirstType : Z := 2.
Definition kMiddleType : Z := 3.
Definition kLastType : Z := 4.
Definition kMaxRecordType : Z := kLastType.
Definition kEof : Z := kMaxRecordType + 1.
Definition kBadRecord : Z := kMaxRecordType + 2.

Definition kBlockSize : Z := 32768.
Definition kHeaderSize : Z := 4 + 2 + 1.

(** ** The writer *)

Record Writer := { block_offset_ : Z; type_crc_ : list Z }.

Section LogWriter.
Context {P : Placement} {W : Type} {dest_ : WritableFile W}.

(** The constructor computes the CRC of every type. *)
Definition new_Writer : Writer :=
  {| block_offset_ := 0;
     type_crc_ := (λ i, let t := [b8 i] in Value (address t) t) <$> [0; 1; 2; 3; 4] |}.

Definition set_block_offset (wr : Writer) (n : Z) : Writer :=
  {| block_offset_ := n; type_crc_ := type_crc_ wr |}.

Definition record_header (wr : Writer) (t : Z) (data : bytes) : bytes :=
  let n := zlen data in
  let crc := Extend (address data) (nth (Z.to_nat t) (type_crc_ wr) 0) data in
  let crc := Mask crc in
  EncodeFixed32 crc ++ [b8 (Z.land n 255); b8 (Z.shiftr n 8); b8 t].

Definition EmitPhysicalRecord (wr : Writer) (t : Z) (data : bytes) : M W (Status * Writer) :=
  s ← wf_Append (record_header wr t data);
  s ← (if ok s then
         s ← wf_Append data;
         if ok s then wf_Flush else mret s
       else mret s);
  mret (s, set_block_offset wr (block_offset_ wr + (kHeaderSize + zlen data))).

(** The [do ... while] of [AddRecord]. At most one turn emits no payload: the
    first, when exactly a header fits the block. [None] in the result would be
    a loop that outlives [fuel]. *)
Fixpoint AddRecord_loop (fuel : nat) (wr : Writer) (slice : bytes) (begin : bool)
    : M W (option (Status * Writer)) :=
  match fuel with
  | O => mret None
  | S fuel =>
      let leftover := kBlockSize - block_offset_ wr in
      wr ← (if decide (leftover < kHeaderSize) then
              _ ← (if decide (leftover > 0) then
                     wf_Append (ztake leftover (replicate 6 (b8 0)))
                   else mret Status_OK);
              mret (set_block_offset wr 0)
            else mret wr);
      let left := zlen slice in
      let avail := kBlockSize - block_offset_ wr - kHeaderSize in
      let fragment_length := if decide (left < avail) then left else avail in
      let end_ := bool_decide (left = fragment_length) in
      let type :=
        if begin && end_ then kFullType
        else if begin then kFirstType
        else if end_ then kLastType
        else kMiddleType in
      r ← EmitPhysicalRecord wr type (ztake fragment_length slice);
      let '(s, wr) := r in
      let slice := zdrop fragment_length slice in
      if ok s && bool_decide (zlen slice > 0) then AddRecord_loop fuel wr slice false
      else mret (Some (s, wr))
  end.

Definition AddRecord (wr : Writer) (slice : bytes) : M W (option (Status * Writer)) :=
  AddRecord_loop (S (S (length slice))) wr slice true.

(** A sequence of records. *)
Fixpoint AddRecords (wr : Writer) (slices : list bytes) : M W (option Writer) :=
  match slices with
  | [] => mret (Some wr)
  | slice :: slices =>
      r ← AddRecord wr slice;
      match r with
      | Some (s, wr) => if ok s then AddRecords wr slices else mret None
      | None => mret None
      end
  end.
End LogWriter.

(** ** The reader *)

(** The mutable members; [reports] are the calls of [reporter_->Corruption]. *)
Record Reader := {
  buffer_ : bytes;
  eof_ : bool;
  last_record_offset_ : Z;
  end_of_buffer_offset_ : Z;
  reports : list (Z * Status);
}.

Definition new_Reader : Reader :=
  {| buffer_ := []; eof_ := false; last_record_offset_ := 0; end_of_buffer_offset_ := 0; reports := [] |}.

Definition set_buffer (rd : Reader) (b : bytes) : Reader :=
  {| buffer_ := b; eof_ := eof_ rd; last_record_offset_ := last_record_offset_ rd;
     end_of_buffer_offset_ := end_of_buffer_offset_ rd; reports := reports rd |}.
Definition set_eof (rd : Reader) : Reader :=
  {| buffer_ := buffer_ rd; eof_ := true; last_record_offset_ := last_record_offset_ rd;
     end_of_buffer_offset_ := end_of_buffer_offset_ rd; reports := reports rd |}.
Definition set_last_record_offset (rd : Reader) (n : Z) : Reader :=
  {| buffer_ := buffer_ rd; eof_ := eof_ rd; last_record_offset_ := n;
     end_of_buffer_offset_ := end_of_buffer_offset_ rd; reports := reports rd |}.
Definition set_end_of_buffer (rd : Reader) (n : Z) : Reader :=
  {| buffer_ := buffer_ rd; eof_ := eof_ rd; last_record_offset_ := last_record_offset_ rd;
     end_of_buffer_offset_ := n; reports := reports rd |}.
Definition add_report (rd : Reader) (r : Z * Status) : Reader :=
  {| buffer_ := buffer_ rd; eof_ := eof_ rd; last_record_offset_ := last_record_offset_ rd;
     end_of_buffer_offset_ := end_of_buffer_offset_ rd; reports := reports rd ++ [r] |}.

Section LogReader.
Context {P : Placement} {W : Type} {file_ : SequentialFile W}.
(** [reporter_] is whether there is one; [is_signed] the signedness of [char]. *)
Variables (is_signed reporter_ checksum_ : bool) (initial_offset_ : Z).

Definition ReportDrop (rd : Reader) (n : Z) (reason : Status) : Reader :=
  if reporter_ && bool_decide (initial_offset_ ≤
       u64 (u64 (end_of_buffer_offset_ rd - zlen (buffer_ rd)) - n))
  then add_report rd (usize n, reason) else rd.

Definition ReportCorruption (rd : Reader) (n : Z) (reason : bytes) : Reader :=
  ReportDrop rd n (Corruption reason []).

Definition SkipToInitialBlock (rd : Reader) : M W (bool * Reader) :=
  let offset_in_block := initial_offset_ mod kBlockSize in
  let block_start_location := u64 (initial_offset_ - offset_in_block) in
  let block_start_location :=
    if decide (offset_in_block > kBlockSize - 6) then u64 (block_start_location + kBlockSize)
    else block_start_location in
  let rd := set_end_of_buffer rd block_start_location in
  if decide (block_start_location > 0) then
    skip_status ← sf_Skip block_start_location;
    if negb (ok skip_status)
    then mret (false, ReportDrop rd block_start_location skip_status)
    else mret (true, rd)
  else mret (true, rd).

(** The part of [ReadPhysicalRecord] after the buffer holds a header. *)
Definition parse_record (rd : Reader) (result : bytes) : Z * bytes * Reader :=
  let header := buffer_ rd in
  let a := u8 (zget header 4) in
  let b := u8 (zget header 5) in
  let type := u32 (char_val is_signed (zget header 6)) in
  let length := Z.lor a (Z.shiftl b 8) in
  if decide (kHeaderSize + length > zlen (buffer_ rd)) then
    let drop_size := zlen (buffer_ rd) in
    let rd := set_buffer rd [] in
    if negb (eof_ rd) then
      (kBadRecord, result, ReportCorruption rd drop_size (str "bad record length"))
    else (kEof, result, rd)
  else if decide (type = kZeroType ∧ length = 0) then (kBadRecord, result, set_buffer rd [])
  else
    let checked := ztake (1 + length) (zdrop 6 header) in
    let expected_crc := Unmask (DecodeFixed32 header) in
    let actual_crc := Value (address checked) checked in
    if checksum_ && bool_decide (actual_crc ≠ expected_crc) then
      let drop_size := zlen (buffer_ rd) in
      let rd := set_buffer rd [] in
      (kBadRecord, result, ReportCorruption rd drop_size (str "checksum mismatch"))
    else
      let rd := set_buffer rd (zdrop (kHeaderSize + length) (buffer_ rd)) in
      if decide (u64 (u64 (u64 (end_of_buffer_offset_ rd - zlen (buffer_ rd)) - kHeaderSize) - length)
                 < initial_offset_)
      then (kBadRecord, [], rd)
      else (type, ztake length (zdrop kHeaderSize header), rd).

(** The [while (true)] loop: it continues only after a read, and a read that
    does not fill the block is the last. *)
Fixpoint ReadPhysicalRecord_loop (fuel : nat) (rd : Reader) (result : bytes)
    : M W (option (Z * bytes * Reader)) :=
  match fuel with
  | O => mret None
  | S fuel =>
      if decide (zlen (buffer_ rd) < kHeaderSize) then
        if negb (eof_ rd) then
          r ← sf_Read kBlockSize;
          let '(status, data) := r in
          let rd := set_buffer rd data in
          let rd := set_end_of_buffer rd (u64 (end_of_buffer_offset_ rd + zlen (buffer_ rd))) in
          if negb (ok status) then
            let rd := set_buffer rd [] in
            let rd := ReportDrop rd kBlockSize status in
            mret (Some (kEof, result, set_eof rd))
          else
            let rd := if decide (zlen (buffer_ rd) < kBlockSize) then set_eof rd else rd in
            ReadPhysicalRecord_loop fuel rd result
        else mret (Some (kEof, result, set_buffer rd []))
      else mret (Some (parse_record rd result))
  end.

Definition ReadPhysicalRecord (rd : Reader) (result : bytes) : M W (option (Z * bytes * Reader)) :=
  ReadPhysicalRecord_loop 3 rd result.

(** The [while (true)] loop of [ReadRecord]: the result is the record, if any,
    with the scratch string, or [None] for a loop that outlives [fuel]. *)
Fixpoint ReadRecord_loop (fuel : nat) (rd : Reader) (in_fragmented_record : bool)
    (prospective_record_offset : Z) (fragment scratch : bytes)
    : M W (option (option bytes * Reader)) :=
  match fuel with
  | O => mret None
  | S fuel =>
      let physical_record_offset := u64 (end_of_buffer_offset_ rd - zlen (buffer_ rd)) in
      r ← ReadPhysicalRecord rd fragment;
      match r with
      | None => mret None
      | Some (record_type, fragment, rd) =>
          if decide (record_type = kFullType) then
            let rd :=
              if in_fragmented_record && negb (bool_decide (zlen scratch = 0))
              then ReportCorruption rd (zlen scratch) (str "partial record without end(1)") else rd in
            mret (Some (Some fragment, set_last_record_offset rd physical_record_offset))
          else if decide (record_type = kFirstType) then
            let rd :=
              if in_fragmented_record && negb (bool_decide (zlen scratch = 0))
              then ReportCorruption rd (zlen scratch) (str "partial record without end(2)") else rd in
            ReadRecord_loop fuel rd true physical_record_offset fragment fragment
          else if decide (record_type = kMiddleType) then
            if negb in_fragmented_record then
              ReadRecord_loop fuel
                (ReportCorruption rd (zlen fragment) (str "missing start of fragmented record(1)"))
                in_fragmented_record prospective_record_offset fragment scratch
            else
              ReadRecord_loop fuel rd in_fragmented_record prospective_record_offset fragment
                (scratch ++ fragment)
          else if decide (record_type = kLastType) then
            if negb in_fragmented_record then
              ReadRecord_loop fuel
                (ReportCorruption rd (zlen fragment) (str "missing start of fragmented record(2)"))
                in_fragmented_record prospective_record_offset fragment scratch
            else
              let scratch := scratch ++ fragment in
              mret (Some (Some scratch, set_last_record_offset rd prospective_record_offset))
          else if decide (record_type = kEof) then mret (Some (None, rd))
          else if decide (record_type = kBadRecord) then
            if in_fragmented_record then
              ReadRecord_loop fuel
                (ReportCorruption rd (zlen scratch) (str "error in middle of record"))
                false prospective_record_offset fragment []
            else
              ReadRecord_loop fuel rd in_fragmented_record prospective_record_offset fragment scratch
          else
            let buf := snprintf 40 (str "unknown record type " ++ dec record_type) in
            let rd := ReportCorruption rd
              (zlen fragment + (if in_fragmented_record then zlen scratch else 0)) buf in
            ReadRecord_loop fuel rd false prospective_record_offset fragment []
      end
  end.

Definition ReadRecord (fuel : nat) (rd : Reader) : M W (option (option bytes * Reader)) :=
  r ← ((if decide (last_record_offset_ rd < initial_offset_) then SkipToInitialBlock rd
        else mret (true, rd)) : M W (bool * Reader));
  let '(found, rd) := r in
  if (found : bool) then ReadRecord_loop fuel rd false 0 [] [] else mret (Some (None, rd)).

(** Records until the end of the file, with the reports. *)
Fixpoint ReadAll (fuel n : nat) (rd : Reader) (acc : list bytes)
    : M W (option (list bytes * list (Z * Status))) :=
  match n with
  | O => mret None
  | S n =>
      r ← ReadRecord fuel rd;
      match r with
      | None => mret None
      | Some (None, rd) => mret (Some (acc, reports rd))
      | Some (Some record, rd) => ReadAll fuel n rd (acc ++ [record])
      end
  end.
End LogReader.


(** ** The layout of a log *)

(** A physical record. *)
Definition phys (t : Z) (data : bytes) : bytes :=
  EncodeFixed32 (Mask (crc32c_ref 0 (b8 t :: data))) ++
  [b8 (Z.land (zlen data) 255); b8 (Z.shiftr (zlen data) 8); b8 t] ++ data.

Definition trailer (off : Z) : bytes :=
  if decide (kBlockSize - off < kHeaderSize) then replicate (Z.to_nat (kBlockSize - off)) (b8 0) else [].

Definition record_start (off : Z) : Z := if decide (kBlockSize - off < kHeaderSize) then 0 else off.

Definition fragment_size (off left : Z) : Z := Z.min left (kBlockSize - record_start off - kHeaderSize).

Definition fragment_type (begin end_ : bool) : Z :=
  if begin && end_ then kFullType else if begin then kFirstType
  else if end_ then kLastType else kMiddleType.

(** The bytes of a record that starts at offset [off] of a block, and the
    offset at which it ends. *)
Fixpoint layout (fuel : nat) (off : Z) (slice : bytes) (begin : bool) : bytes * Z :=
  match fuel with
  | O => ([], off)
  | S fuel =>
      let n := fragment_size off (zlen slice) in
      let chunk := trailer off ++ phys (fragment_type begin (bool_decide (zlen slice = n))) (ztake n slice) in
      let off := record_start off + (kHeaderSize + n) in
      if decide (zlen slice - n > 0) then
        let '(more, off) := layout fuel off (zdrop n slice) false in (chunk ++ more, off)
      else (chunk, off)
  end.

Definition record_layout (off : Z) (slice : bytes) : bytes * Z :=
  layout (S (S (length slice))) off slice true.

Fixpoint log_layout (off : Z) (slices : list bytes) : bytes * Z :=
  match slices with
  | [] => ([], off)
  | slice :: slices =>
      let '(b, off) := record_layout off slice in
      let '(more, off) := log_layout off slices in (b ++ more, off)
  end.

(** What a new log holds after the records [slices]. *)
Definition log_bytes (slices : list bytes) : bytes := fst (log_layout 0 slices).

Definition off_ok (off : Z) : Prop := 0 ≤ off ≤ kBlockSize.

Lemma record_start_ok off : off_ok off → 0 ≤ record_start off ≤ kBlockSize - kHeaderSize.
Proof. unfold off_ok, record_start. assert (kBlockSize = 32768 ∧ kHeaderSize = 7) by done. case_decide; lia. Qed.

Lemma fragment_size_ok off left :
  off_ok off → 0 ≤ left →
  0 ≤ fragment_size off left ≤ left ∧ fragment_size off left ≤ kBlockSize - record_start off - kHeaderSize ∧
  off_ok (record_start off + (kHeaderSize + fragment_size off left)).
Proof.
  intros Ho Hl. pose proof (record_start_ok off Ho). unfold fragment_size, off_ok.
  assert (kBlockSize = 32768 ∧ kHeaderSize = 7) by done. lia.
Qed.

Lemma zlen_trailer off : off_ok off → zlen (trailer off) = if decide (kBlockSize - off < kHeaderSize) then kBlockSize - off else 0.
Proof.
  unfold off_ok, trailer. intros. case_decide; [|done]. unfold zlen. rewrite length_replicate. lia.
Qed.

Lemma zlen_phys t data : zlen (phys t data) = 7 + zlen data.
Proof. unfold phys. rewrite !zlen_app. change (zlen [_; _; _]) with 3. change (zlen (EncodeFixed32 _)) with 4. lia. Qed.

(** A turn that is not the last fills its block, so the fuel is enough. *)
Definition enough (fuel : nat) (off : Z) (slice : bytes) : Prop :=
  zlen slice + (if decide (record_start off = kBlockSize - kHeaderSize) then 1 else 0) < Z.of_nat fuel.

Lemma enough_next fuel off slice :
  off_ok off → enough (S fuel) off slice → zlen slice - fragment_size off (zlen slice) > 0 →
  enough fuel (record_start off + (kHeaderSize + fragment_size off (zlen slice)))
    (zdrop (fragment_size off (zlen slice)) slice).
Proof.
  intros Ho Hen Hn. pose proof (record_start_ok off Ho). pose proof (zlen_nonneg slice).
  pose proof (fragment_size_ok off (zlen slice) Ho ltac:(lia)) as (? & ? & _).
  unfold enough in *. rewrite zlen_zdrop by lia.
  assert (fragment_size off (zlen slice) = kBlockSize - record_start off - kHeaderSize) as E
    by (unfold fragment_size in *; lia).
  rewrite E. assert (kBlockSize = 32768 ∧ kHeaderSize = 7) as [HK HH] by done.
  replace (record_start off + (kHeaderSize + (kBlockSize - record_start off - kHeaderSize))) with kBlockSize by lia.
  assert (record_start kBlockSize = 0) as -> by done. rewrite (decide_False (P := 0 = _)) by lia.
  case_decide; lia.
Qed.

Lemma enough_start off slice : enough (S (S (length slice))) off slice.
Proof. unfold enough, zlen. case_decide; lia. Qed.

Lemma layout_off fuel off slice begin : off_ok off → off_ok (snd (layout fuel off slice begin)).
Proof.
  revert off slice begin. induction fuel as [|fuel IH]; intros off slice begin Ho; [done|].
  pose proof (zlen_nonneg slice).
  pose proof (fragment_size_ok off (zlen slice) Ho ltac:(lia)) as (? & ? & ?).
  cbn [layout]. case_decide; [|done].
  specialize (IH (record_start off + (kHeaderSize + fragment_size off (zlen slice)))
    (zdrop (fragment_size off (zlen slice)) slice) false ltac:(done)).
  by destruct (layout _ _ _ _).
Qed.

(** Logs one after the other. *)
Lemma log_layout_app off a b :
  log_layout off (a ++ b) = ((log_layout off a).1 ++ (log_layout (log_layout off a).2 b).1, (log_layout (log_layout off a).2 b).2).
Proof.
  revert off. induction a as [|x a IH]; intros off; cbn [app log_layout fst snd]; [by destruct (log_layout off b)|].
  destruct (record_layout off x) as [t off1]. rewrite IH. destruct (log_layout off1 a) as [u off2]. cbn [fst snd].
  by rewrite app_assoc.
Qed.

Lemma log_layout_one off x : log_layout off [x] = ((record_layout off x).1, (record_layout off x).2).
Proof. cbn [log_layout]. destruct (record_layout off x). by rewrite app_nil_r. Qed.

Lemma log_layout_off off a : off_ok off → off_ok (log_layout off a).2.
Proof.
  revert off. induction a as [|x a IH]; intros off Ho; cbn [log_layout]; [done|].
  pose proof (layout_off (S (S (length x))) off x true Ho) as H. unfold record_layout. destruct (layout _ _ _ _) as [t off1]. cbn in H.
  specialize (IH off1 H). by destruct (log_layout off1 a).
Qed.

(** ** The writer produces the layout *)

Section WriterProof.
Context {P : Placement} {PL : PlacementLaws P} {W : Type} {dest_ : WritableFile W}.
Context {inv : W → Prop} {contents : W → bytes} {FL : ReliableFile dest_ inv contents}.

Definition writer_ok (wr : Writer) (off : Z) : Prop :=
  block_offset_ wr = off ∧ type_crc_ wr = (λ t, crc32c_ref 0 [b8 t]) <$> [0; 1; 2; 3; 4].

Lemma new_Writer_ok : writer_ok new_Writer 0.
Proof.
  split; [done|]. cbn [new_Writer type_crc_]. apply list_fmap_ext. intros i t _.
  apply Value_placed. by vm_compute.
Qed.

Lemma record_header_phys wr off t data :
  writer_ok wr off → 1 ≤ t ≤ 4 → zlen data ≤ kBlockSize →
  record_header wr t data ++ data = phys t data.
Proof.
  intros [_ Hcrc] Ht Hd. unfold record_header, phys. rewrite Hcrc, <- !app_assoc.
  assert (nth (Z.to_nat t) ((λ t, crc32c_ref 0 [b8 t]) <$> [0; 1; 2; 3; 4]) 0 = crc32c_ref 0 [b8 t]) as ->.
  { assert (t = 1 ∨ t = 2 ∨ t = 3 ∨ t = 4) as [->|[->|[->| ->]]] by lia; reflexivity. }
  rewrite Extend_placed, <- crc32c_ref_app; [done|by apply crc32c_ref_range|].
  change kBlockSize with 32768 in Hd. change (2 ^ 31) with 2147483648. lia.
Qed.

Lemma wp_EmitPhysicalRecord wr off t data w :
  inv w → writer_ok wr off → 1 ≤ t ≤ 4 → zlen data ≤ kBlockSize →
  wp (EmitPhysicalRecord wr t data) (λ r w', ok (fst r) = true ∧
    writer_ok (snd r) (off + (kHeaderSize + zlen data)) ∧ inv w' ∧
    contents w' = contents w ++ phys t data) w.
Proof.
  intros Hi Hwr Ht Hd. unfold EmitPhysicalRecord. apply wp_bind.
  destruct (reliable_Append (record_header wr t data) w Hi) as (s1 & w1 & E1 & Hs1 & Hi1 & Hc1).
  unfold wp at 1. rewrite E1, Hs1. apply wp_bind, wp_bind.
  destruct (reliable_Append data w1 Hi1) as (s2 & w2 & E2 & Hs2 & Hi2 & Hc2).
  unfold wp at 1. rewrite E2, Hs2.
  destruct (reliable_Flush w2 Hi2) as (s3 & w3 & E3 & Hs3 & Hi3 & Hc3).
  unfold wp at 1. rewrite E3. apply wp_ret. cbn [fst snd]. pose proof Hwr as [Hoff Hcrc].
  splits; [done| |done|].
  - split; [cbn; by rewrite Hoff|done].
  - by rewrite Hc3, Hc2, Hc1, <- app_assoc, (record_header_phys wr off).
Qed.

Lemma fragment_type_range begin end_ : 1 ≤ fragment_type begin end_ ≤ 4.
Proof. by destruct begin, end_. Qed.

Lemma wp_AddRecord_loop fuel wr off slice begin w :
  inv w → writer_ok wr off → off_ok off → enough fuel off slice →
  wp (AddRecord_loop fuel wr slice begin) (λ r w', ∃ s wr', r = Some (s, wr') ∧ ok s = true ∧
    writer_ok wr' (snd (layout fuel off slice begin)) ∧ inv w' ∧
    contents w' = contents w ++ fst (layout fuel off slice begin)) w.
Proof.
  revert wr off slice begin w. induction fuel as [|fuel IH]; intros wr off slice begin w Hi Hwr Ho Hen.
  { unfold enough in Hen. pose proof (zlen_nonneg slice). case_decide; lia. }
  assert (kBlockSize = 32768 ∧ kHeaderSize = 7) as [HK HH] by done.
  pose proof (zlen_nonneg slice) as Hz.
  pose proof (fragment_size_ok off (zlen slice) Ho ltac:(lia)) as (Hn & Hn2 & Ho').
  pose proof (record_start_ok off Ho) as Hst.
  cbn [AddRecord_loop]. apply wp_bind.
  apply (wp_mono _ (λ wr1 w1, writer_ok wr1 (record_start off) ∧ inv w1 ∧ contents w1 = contents w ++ trailer off)).
  { pose proof Hwr as [Hoff Hcrc]. rewrite Hoff. unfold record_start, trailer.
    case_decide as Hl; [|apply wp_ret; by rewrite app_nil_r].
    apply wp_bind. unfold off_ok in Ho. case_decide as Hl0.
    - destruct (reliable_Append (ztake (kBlockSize - off) (replicate 6 (b8 0))) w Hi)
        as (s1 & w1 & E1 & Hs1 & Hi1 & Hc1).
      unfold wp at 1. rewrite E1. apply wp_ret. split; [by split|]. split; [done|]. rewrite Hc1. f_equal.
      unfold ztake. rewrite take_replicate. f_equal. lia.
    - apply wp_ret, wp_ret. split; [by split|]. split; [done|].
      replace (kBlockSize - off) with 0 by lia. by rewrite app_nil_r. }
  intros wr1 w1 (Hwr1 & Hi1 & Hc1). pose proof Hwr1 as [Hoff1 _]. rewrite Hoff1.
  replace (if decide (zlen slice < kBlockSize - record_start off - kHeaderSize) then zlen slice
    else kBlockSize - record_start off - kHeaderSize) with (fragment_size off (zlen slice))
    by (unfold fragment_size; case_decide; lia).
  cbn [layout]. set (n := fragment_size off (zlen slice)) in *.
  change (if begin && _ then kFullType else _)
    with (fragment_type begin (bool_decide (zlen slice = n))).
  apply wp_bind. eapply wp_mono; [eapply (wp_EmitPhysicalRecord wr1 (record_start off)); [done|done| |]|].
  { apply fragment_type_range. }
  { rewrite zlen_ztake by lia. lia. }
  cbn beta. intros [s2 wr2] w2 (Hs2 & Hwr2 & Hi2 & Hc2). cbn [fst snd] in *.
  rewrite zlen_ztake in Hwr2 by lia. rewrite Hs2, zlen_zdrop by lia. cbn [andb].
  rewrite Hc1, <- app_assoc in Hc2.
  destruct (decide (zlen slice - n > 0)) as [Hmore|Hmore].
  - rewrite bool_decide_true by done.
    eapply wp_mono; [apply (IH wr2 (record_start off + (kHeaderSize + n))); [done|done|done|by apply enough_next]|].
    cbn beta. intros r w3 (s & wr3 & -> & Hs & Hwr3 & Hi3 & Hc3). exists s, wr3.
    destruct (layout _ _ _ _) as [more off3]. cbn [fst snd] in *.
    splits; try done. by rewrite Hc3, Hc2, <- !app_assoc.
  - rewrite bool_decide_false by done. apply wp_ret. exists s2, wr2. splits; try done.
Qed.

Lemma wp_AddRecords wr off slices w :
  inv w → writer_ok wr off → off_ok off →
  wp (AddRecords wr slices) (λ r w', ∃ wr', r = Some wr' ∧ writer_ok wr' (snd (log_layout off slices)) ∧
    inv w' ∧ contents w' = contents w ++ fst (log_layout off slices)) w.
Proof.
  revert wr off w. induction slices as [|slice slices IH]; intros wr off w Hi Hwr Ho; cbn [AddRecords].
  { apply wp_ret. exists wr. by rewrite app_nil_r. }
  apply wp_bind. eapply wp_mono;
    [apply (wp_AddRecord_loop (S (S (length slice))) wr off); [done..|apply enough_start]|].
  cbn beta. intros r w1 (s & wr1 & -> & Hs & Hwr1 & Hi1 & Hc1). rewrite Hs.
  pose proof (layout_off (S (S (length slice))) off slice true Ho) as Ho1.
  cbn [log_layout]. unfold record_layout. destruct (layout _ _ _ _) as [b off1]. cbn [fst snd] in *.
  eapply wp_mono; [by apply (IH wr1 off1)|]. cbn beta. intros r w2 (wr2 & -> & Hwr2 & Hi2 & Hc2).
  exists wr2. destruct (log_layout off1 slices) as [more off2]. cbn [fst snd] in *.
  splits; try done. by rewrite Hc2, Hc1, <- app_assoc.
Qed.
End WriterProof.

(** ** The reader on a truncated log *)

(** The end of the block that holds position [pos]; [pos] itself at a boundary. *)
Definition block_up (pos : Z) : Z := kBlockSize * ((pos + (kBlockSize - 1)) / kBlockSize).

Section ReaderProof.
Context {P : Placement} {PL : PlacementLaws P} {W : Type} {file_ : SequentialFile W}.
Context {inv : W → Prop} {rest : W → bytes} {FL : SequentialFileLaws file_ inv rest}.
Variables (is_signed reporter_ checksum_ : bool).

(** The file: the first [k] bytes of [L]. *)
Variables (L : bytes) (k : Z).
Hypothesis Hk : 0 ≤ k ≤ zlen L.
Let F : bytes := ztake k L.

(** The reader has consumed the first [pos] bytes and buffers what is left of
    the block, or of the file. *)
Definition reader_at (pos : Z) (rd : Reader) (w : W) : Prop :=
  inv w ∧ 0 ≤ pos ≤ k ∧
  buffer_ rd = ztake (Z.min (block_up pos) k - pos) (zdrop pos F) ∧
  rest w = zdrop (Z.min (block_up pos) k) F ∧
  (if eof_ rd then k ≤ block_up pos else block_up pos ≤ k).

Lemma zlen_F : zlen F = k.
Proof. apply zlen_ztake. lia. Qed.

Lemma block_up_bounds pos : 0 ≤ pos → pos ≤ block_up pos < pos + kBlockSize.
Proof. unfold block_up, kBlockSize. intros. word_solve. Qed.

(** Where the next header is. *)
Definition next_header (pos : Z) : Z :=
  if decide (block_up pos - pos < kHeaderSize) then block_up pos else pos.

(** The end of the block of a header. *)
Definition block_end (pos : Z) : Z := kBlockSize * (pos / kBlockSize + 1).

(** The buffer holds the block from [pos] on. *)
Definition buffered (pos : Z) (rd : Reader) (w : W) : Prop :=
  inv w ∧ buffer_ rd = ztake (Z.min (block_end pos) k - pos) (zdrop pos F) ∧
  rest w = zdrop (Z.min (block_end pos) k) F ∧
  (if eof_ rd then k ≤ block_end pos else block_end pos ≤ k).

Lemma read_header pos rd w result :
  reader_at pos rd w →
  let p := next_header pos in
  wp (ReadPhysicalRecord is_signed reporter_ checksum_ 0 rd result) (λ r w',
    if decide (p + kHeaderSize ≤ k)
    then ∃ rd1, r = Some (parse_record is_signed reporter_ checksum_ 0 rd1 result) ∧ buffered p rd1 w' ∧
      reports rd1 = reports rd
    else ∃ rd1, r = Some (kEof, result, rd1) ∧ reports rd1 = reports rd) w.
Proof.
  intros (Hi & Hpos & Hbuf & Hrest & Heof). cbn zeta. unfold next_header.
  assert (kBlockSize = 32768 ∧ kHeaderSize = 7) as [HK HH] by done.
  pose proof (block_up_bounds pos ltac:(lia)) as Hup. pose proof zlen_F as HF.
  assert (zlen (buffer_ rd) = Z.min (block_up pos) k - pos) as Hlen.
  { rewrite Hbuf, zlen_ztake; [done|]. rewrite zlen_zdrop by lia. lia. }
  unfold ReadPhysicalRecord. cbn [ReadPhysicalRecord_loop]. rewrite Hlen.
  destruct (decide (block_up pos - pos < kHeaderSize)) as [Hleft|Hleft].
  - rewrite (decide_True (P := _ < kHeaderSize)) by lia.
    destruct (eof_ rd) eqn:Eeof; cbn [negb].
    { apply wp_ret. rewrite decide_False by lia. by eexists. }
    apply wp_bind. destruct (Read_law kBlockSize w Hi ltac:(lia)) as (s & w1 & E & Hok & Hi1 & Hr1).
    unfold wp at 1. rewrite E, Hok. cbn [negb].
    rewrite Hrest, Z.min_l in Hr1 |- * by lia.
    set (data := ztake kBlockSize (zdrop (block_up pos) F)).
    assert (zlen data = Z.min kBlockSize (k - block_up pos)) as Hd.
    { subst data. assert (zlen (zdrop (block_up pos) F) = k - block_up pos) by (rewrite zlen_zdrop; lia).
      destruct (decide (kBlockSize ≤ k - block_up pos)).
      - rewrite zlen_ztake; lia.
      - rewrite ztake_ge; lia. }
    set (rd0 := set_end_of_buffer _ _).
    set (rd1 := if decide (zlen (buffer_ rd0) < kBlockSize) then set_eof rd0 else rd0).
    assert (buffer_ rd1 = data ∧ reports rd1 = reports rd ∧
      eof_ rd1 = bool_decide (zlen data < kBlockSize)) as (Hb & Hrep & He).
    { subst rd1. change (buffer_ rd0) with data. destruct (decide (zlen data < kBlockSize)).
      - by rewrite bool_decide_true.
      - rewrite bool_decide_false by done. by rewrite <- Eeof. }
    clearbody rd1. rewrite Hb.
    destruct (decide (block_up pos + kHeaderSize ≤ k)).
    + rewrite (decide_False (P := zlen data < kHeaderSize)) by lia. apply wp_ret. eexists. split; [done|].
      split; [|done]. unfold buffered. rewrite Hb, He.
      assert (block_end (block_up pos) = block_up pos + kBlockSize) as Hend
        by (unfold block_end, block_up; rewrite HK; word_solve).
      rewrite Hend. splits; [done| | |].
      * subst data. destruct (decide (block_up pos + kBlockSize ≤ k)).
        -- rewrite Z.min_l by lia. f_equal. lia.
        -- rewrite Z.min_r by lia. rewrite !ztake_ge; [done|rewrite zlen_zdrop by lia; lia..].
      * rewrite Hr1, zdrop_zdrop by lia. destruct (decide (block_up pos + kBlockSize ≤ k)).
        -- by rewrite Z.min_l by lia.
        -- rewrite Z.min_r by lia. by rewrite !zdrop_ge by lia.
      * case_bool_decide; lia.
    + rewrite (decide_True (P := zlen data < kHeaderSize)) by lia.
      rewrite He, bool_decide_true by lia. cbn [negb]. apply wp_ret. by eexists.
  - destruct (decide (pos + kHeaderSize ≤ k)).
    + rewrite decide_False by lia. apply wp_ret. eexists. split; [done|]. split; [|done].
      assert (block_end pos = block_up pos) as Hend.
      { unfold block_end, block_up in *. rewrite HK in *. word_solve. }
      unfold buffered. by rewrite Hend.
    + rewrite decide_True by lia. destruct (eof_ rd) eqn:Eeof; [|lia]. cbn [negb]. apply wp_ret. by eexists.
Qed.

Lemma length_bytes n :
  0 ≤ n < 65536 → Z.lor (u8 (b8 (Z.land n 255))) (Z.shiftl (u8 (b8 (Z.shiftr n 8))) 8) = n.
Proof.
  intros Hn. rewrite land_255, shiftr_div by lia. change (2 ^ 8) with 256.
  rewrite !u8_b8. rewrite lor_shiftl_add by (change (2 ^ 8) with 256; word_solve).
  change (2 ^ 8) with 256. word_solve.
Qed.

Lemma type_byte t : 1 ≤ t ≤ 4 → u32 (char_val is_signed (b8 t)) = t.
Proof.
  intros Ht. assert (t = 1 ∨ t = 2 ∨ t = 3 ∨ t = 4) as [->|[->|[->| ->]]] by lia;
    destruct is_signed; by vm_compute.
Qed.

(** The first bytes of the buffer when a record is at the front. *)
Lemma buffered_phys p rd w t d more :
  buffered p rd w → 0 ≤ p → p + kHeaderSize ≤ k → p mod kBlockSize + kHeaderSize ≤ kBlockSize →
  zdrop p L = phys t d ++ more →
  let m := Z.min (block_end p) k - p in
  7 ≤ m ∧ buffer_ rd = (EncodeFixed32 (Mask (crc32c_ref 0 (b8 t :: d))) ++
    [b8 (Z.land (zlen d) 255); b8 (Z.shiftr (zlen d) 8)]) ++ b8 t :: ztake (m - 7) (d ++ more) ∧
  zlen (buffer_ rd) = m.
Proof.
  intros (Hi & Hbuf & Hrest & Heof) Hp Hpk Hin HL. cbn zeta.
  assert (kBlockSize = 32768 ∧ kHeaderSize = 7) as [HK HH] by done.
  set (m := Z.min (block_end p) k - p) in *.
  assert (7 ≤ m) as Hm by (subst m; unfold block_end; rewrite HK in *; word_solve).
  assert (zlen (zdrop p L) = zlen L - p) as HzL by (apply zlen_zdrop; lia).
  assert (buffer_ rd = ztake m (zdrop p L)) as ->.
  { rewrite Hbuf. unfold F. replace k with (p + (k - p)) by lia.
    rewrite <- ztake_zdrop_comm, ztake_ztake by (subst m; lia). done. }
  split; [done|]. split; [|apply zlen_ztake; subst m; lia].
  rewrite HL. unfold phys. change ([?x; ?y; ?z] ++ d) with ([x; y] ++ [z] ++ d).
  rewrite <- !app_assoc, app_assoc. set (hd := EncodeFixed32 _ ++ _).
  assert (zlen hd = 6) as Hhd by done.
  rewrite ztake_app_ge by lia. rewrite Hhd, ztake_app_ge by (change (zlen [_]) with 1; lia).
  change (zlen [_]) with 1. replace (m - 6 - 1) with (m - 7) by lia. done.
Qed.

Lemma parse_phys p rd w t d more result :
  buffered p rd w → 0 ≤ p → p + kHeaderSize ≤ k → zdrop p L = phys t d ++ more →
  1 ≤ t ≤ 4 → p mod kBlockSize + kHeaderSize + zlen d ≤ kBlockSize →
  if decide (p + kHeaderSize + zlen d ≤ k)
  then ∃ rd', parse_record is_signed reporter_ checksum_ 0 rd result = (t, d, rd') ∧
    reader_at (p + kHeaderSize + zlen d) rd' w ∧ reports rd' = reports rd
  else ∃ rd', parse_record is_signed reporter_ checksum_ 0 rd result = (kEof, result, rd') ∧
    reports rd' = reports rd.
Proof.
  intros Hb Hp Hpk HL Ht Hd. assert (kBlockSize = 32768 ∧ kHeaderSize = 7) as [HK HH] by done.
  destruct (buffered_phys p rd w t d more) as (Hm & HB & HBlen); [done..| |done|];
    [pose proof (zlen_nonneg d); lia|].
  destruct Hb as (Hi & Hbuf & Hrest & Heof). cbn zeta in *.
  set (m := Z.min (block_end p) k - p) in *. pose proof (zlen_nonneg d) as Hz.
  assert (block_end p - p = kBlockSize - p mod kBlockSize) as Hend by (unfold block_end; rewrite HK; word_solve).
  assert (0 ≤ p mod kBlockSize) by (apply Z.mod_pos_bound; lia).
  set (crc := crc32c_ref 0 (b8 t :: d)) in *.
  set (hd := EncodeFixed32 (Mask crc) ++ _) in HB.
  assert (zlen hd = 6) as Hhd by done.
  unfold parse_record.
  assert (zget (buffer_ rd) 4 = b8 (Z.land (zlen d) 255)) as ->
    by (rewrite HB, zget_app_l by lia; unfold hd; by rewrite zget_app_r).
  assert (zget (buffer_ rd) 5 = b8 (Z.shiftr (zlen d) 8)) as ->
    by (rewrite HB, zget_app_l by lia; unfold hd; by rewrite zget_app_r).
  assert (zget (buffer_ rd) 6 = b8 t) as -> by (rewrite HB, zget_app_r by lia; by rewrite Hhd).
  rewrite type_byte, length_bytes by lia. rewrite HBlen.
  assert (DecodeFixed32 (buffer_ rd) = Mask crc) as ->.
  { rewrite HB. unfold hd. rewrite <- app_assoc. apply DecodeFixed32_EncodeFixed32, Mask_range. }
  case_decide as Hfit.
  - rewrite decide_False by (subst m; lia). rewrite decide_False by (unfold kZeroType; lia).
    assert (ztake (zlen d) (ztake (m - 7) (d ++ more)) = d) as Hdd.
    { rewrite ztake_ztake by (subst m; lia). apply ztake_app. }
    assert (ztake (1 + zlen d) (zdrop 6 (buffer_ rd)) = b8 t :: d) as ->.
    { rewrite HB, zdrop_app_n by done. change (b8 t :: ?x) with ([b8 t] ++ x).
      rewrite ztake_app_ge by (change (zlen [b8 t]) with 1; lia). change (zlen [b8 t]) with 1.
      replace (1 + zlen d - 1) with (zlen d) by lia. by rewrite Hdd. }
    rewrite Value_placed by (rewrite zlen_cons; change (2 ^ 31) with 2147483648; lia). fold crc.
    rewrite Unmask_Mask by (by apply crc32c_ref_range). rewrite (bool_decide_false (crc ≠ crc)) by auto.
    rewrite andb_false_r. rewrite decide_False.
    + eexists. split; [|split].
      * do 2 f_equal. rewrite HB. change (b8 t :: ?x) with ([b8 t] ++ x). rewrite app_assoc.
        rewrite zdrop_app_n by (by rewrite zlen_app, Hhd). exact Hdd.
      * assert (block_up (p + kHeaderSize + zlen d) = block_end p) as Hup.
        { unfold block_up, block_end in *. rewrite HK in *. word_solve. }
        unfold reader_at. rewrite Hup. cbn [set_buffer buffer_ eof_].
        splits; [done|lia|lia| |done|done].
        rewrite Hbuf. fold m. replace m with (kHeaderSize + zlen d + (m - (kHeaderSize + zlen d))) by lia.
        rewrite <- ztake_zdrop_comm, zdrop_zdrop by (subst m; lia). f_equal; [lia|f_equal; lia].
      * done.
    + pose proof (wrap_range 64 (u64 (u64 (end_of_buffer_offset_ (set_buffer rd (zdrop (kHeaderSize + zlen d)
        (buffer_ rd))) - zlen (buffer_ (set_buffer rd (zdrop (kHeaderSize + zlen d) (buffer_ rd))))) -
        kHeaderSize) - zlen d) ltac:(lia)) as [Hw _]. lia.
  - rewrite decide_True by (subst m; lia). destruct (eof_ rd) eqn:Eeof; [|subst m; lia].
    cbn [set_buffer eof_ negb]. rewrite Eeof. cbn [negb]. by eexists.
Qed.

Lemma next_header_trailer pos off :
  0 ≤ pos → off_ok off → pos mod kBlockSize = off mod kBlockSize →
  next_header pos = pos + zlen (trailer off) ∧ next_header pos mod kBlockSize = record_start off.
Proof.
  intros Hp Ho Hmod. rewrite zlen_trailer by done. unfold next_header, record_start, block_up, off_ok in *.
  assert (kBlockSize = 32768 ∧ kHeaderSize = 7) as [HK HH] by done. rewrite HK, HH in *.
  repeat case_decide; word_solve.
Qed.

(** The next physical record, whole or cut off. *)
Lemma read_phys pos off rd w t d more result :
  reader_at pos rd w → off_ok off → pos mod kBlockSize = off mod kBlockSize → 1 ≤ t ≤ 4 →
  record_start off + kHeaderSize + zlen d ≤ kBlockSize →
  zdrop pos L = (trailer off ++ phys t d) ++ more →
  let e := pos + zlen (trailer off ++ phys t d) in
  wp (ReadPhysicalRecord is_signed reporter_ checksum_ 0 rd result) (λ r w', ∃ rd',
    reports rd' = reports rd ∧
    if decide (e ≤ k) then r = Some (t, d, rd') ∧ reader_at e rd' w'
    else r = Some (kEof, result, rd')) w.
Proof.
  intros Hat Ho Hmod Ht Hd HL. cbn zeta.
  assert (kBlockSize = 32768 ∧ kHeaderSize = 7) as [HK HH] by done.
  pose proof Hat as (_ & Hpos & _).
  destruct (next_header_trailer pos off) as [Hp Hpm]; [lia|done|done|].
  pose proof (zlen_nonneg (trailer off)). pose proof (zlen_nonneg d).
  rewrite zlen_app, zlen_phys.
  assert (zdrop (next_header pos) L = phys t d ++ more) as HL'.
  { rewrite Hp, <- zdrop_zdrop, HL, <- app_assoc by lia. apply zdrop_app. }
  eapply wp_mono; [by apply read_header|]. cbn beta zeta. intros r w' Hr. case_decide as Hfit.
  - destruct Hr as (rd1 & -> & Hb & Hrep).
    pose proof (parse_phys (next_header pos) rd1 w' t d more result Hb ltac:(lia) Hfit HL' Ht ltac:(lia)) as Hparse.
    replace (next_header pos + kHeaderSize + zlen d) with (pos + (zlen (trailer off) + (7 + zlen d))) in Hparse by lia.
    destruct (decide (pos + _ ≤ k)).
    + destruct Hparse as (rd' & -> & Hat' & Hrep'). exists rd'. split; [congruence|]. done.
    + destruct Hparse as (rd' & -> & Hrep'). exists rd'. split; [congruence|]. done.
  - destruct Hr as (rd1 & -> & Hrep). exists rd1. split; [done|]. by rewrite decide_False by lia.
Qed.

Lemma layout_mod fuel off slice begin pos :
  0 ≤ pos → off_ok off → pos mod kBlockSize = off mod kBlockSize →
  (pos + zlen (fst (layout fuel off slice begin))) mod kBlockSize
  = snd (layout fuel off slice begin) mod kBlockSize.
Proof.
  revert off slice begin pos. induction fuel as [|fuel IH]; intros off slice begin pos Hpos Ho Hmod.
  { cbn. by rewrite Z.add_0_r. }
  pose proof (zlen_nonneg slice).
  pose proof (fragment_size_ok off (zlen slice) Ho ltac:(lia)) as (Hn & _ & Ho').
  destruct (next_header_trailer pos off) as [Hp Hpm]; [lia|done|done|].
  cbn [layout]. set (n := fragment_size off (zlen slice)) in *.
  set (chunk := trailer off ++ _).
  assert (pos + zlen chunk = next_header pos + (kHeaderSize + n)) as Hc.
  { subst chunk. rewrite zlen_app, zlen_phys, zlen_ztake by lia. change kHeaderSize with 7. lia. }
  assert ((pos + zlen chunk) mod kBlockSize = (record_start off + (kHeaderSize + n)) mod kBlockSize) as Hm.
  { by rewrite Hc, <- Zplus_mod_idemp_l, Hpm. }
  case_decide; [|done].
  pose proof (zlen_nonneg chunk).
  specialize (IH _ (zdrop n slice) false (pos + zlen chunk) ltac:(lia) Ho' Hm).
  destruct (layout _ _ _ _) as [more off2]. cbn [fst snd] in *. by rewrite zlen_app, Z.add_assoc.
Qed.

Lemma wp_ReadRecord_loop fuel fuel' off slice begin pos rd w pro frag scratch more :
  reader_at pos rd w → off_ok off → enough fuel off slice → (fuel ≤ fuel')%nat →
  pos mod kBlockSize = off mod kBlockSize → 0 ≤ pro →
  zdrop pos L = fst (layout fuel off slice begin) ++ more →
  let e := pos + zlen (fst (layout fuel off slice begin)) in
  wp (ReadRecord_loop is_signed reporter_ checksum_ 0 fuel' rd (negb begin) pro frag scratch)
    (λ r w', ∃ rd', reports rd' = reports rd ∧
      if decide (e ≤ k)
      then r = Some (Some ((if begin then [] else scratch) ++ slice), rd') ∧ reader_at e rd' w' ∧
        0 ≤ last_record_offset_ rd'
      else r = Some (None, rd')) w.
Proof.
  revert fuel' off slice begin pos rd w pro frag scratch more.
  induction fuel as [|fuel IH]; intros fuel' off slice begin pos rd w pro frag scratch more Hat Ho Hen Hf Hmod Hpro HL.
  { unfold enough in Hen. pose proof (zlen_nonneg slice). case_decide; lia. }
  destruct fuel' as [|fuel']; [lia|].
  assert (kBlockSize = 32768 ∧ kHeaderSize = 7) as [HK HH] by done.
  pose proof (zlen_nonneg slice) as Hz. pose proof Hat as (_ & Hpos & _).
  pose proof (fragment_size_ok off (zlen slice) Ho ltac:(lia)) as (Hn & Hn2 & Ho').
  pose proof (record_start_ok off Ho) as Hst.
  destruct (next_header_trailer pos off) as [Hp Hpm]; [lia|done|done|].
  cbn [layout] in *. set (n := fragment_size off (zlen slice)) in *.
  set (t := fragment_type begin (bool_decide (zlen slice = n))) in *.
  set (chunk := trailer off ++ phys t (ztake n slice)) in *.
  assert (zlen (ztake n slice) = n) as Hzn by (apply zlen_ztake; lia).
  assert (zlen chunk = zlen (trailer off) + (7 + n)) as Hchunk by (subst chunk; rewrite zlen_app, zlen_phys; lia).
  set (off' := record_start off + (kHeaderSize + n)) in *.
  assert (0 ≤ u64 (end_of_buffer_offset_ rd - zlen (buffer_ rd))) as Hphys by (apply wrap_range; lia).
  cbn zeta. cbn [ReadRecord_loop]. apply wp_bind.
  destruct (decide (zlen slice - n > 0)) as [Hmore|Hlast].
  - assert (t = if begin then kFirstType else kMiddleType) as Et.
    { subst t. rewrite bool_decide_false by lia. by destruct begin. }
    set (next := layout fuel off' (zdrop n slice) false) in *.
    destruct next as [bs off2] eqn:Enext. cbn [fst] in *. rewrite <- app_assoc in HL.
    eapply wp_mono; [eapply (read_phys pos off rd w t (ztake n slice)); [done|done|done| |lia|exact HL]|];
      [apply fragment_type_range|].
    cbn beta. fold chunk. intros r w1 (rd1 & Hrep1 & Hr). rewrite zlen_app.
    pose proof (zlen_nonneg bs). pose proof (zlen_nonneg chunk).
    destruct (decide (pos + zlen chunk ≤ k)) as [Hfit|Hcut].
    + destruct Hr as [-> Hat1].
      assert (∀ pro' frag' scratch' (P : option (option bytes * Reader) → W → Prop), 0 ≤ pro' →
        (∀ r w', (∃ rd', reports rd' = reports rd1 ∧
          if decide (pos + (zlen chunk + zlen bs) ≤ k)
          then r = Some (Some (scratch' ++ zdrop n slice), rd') ∧
            reader_at (pos + (zlen chunk + zlen bs)) rd' w' ∧ 0 ≤ last_record_offset_ rd'
          else r = Some (None, rd')) → P r w') →
        wp (ReadRecord_loop is_signed reporter_ checksum_ 0 fuel' rd1 true pro' frag' scratch') P w1) as Hnext.
      { intros pro' frag' scratch' Q Hpro' HQ. eapply wp_mono.
        - eapply (IH fuel' off' (zdrop n slice) false (pos + zlen chunk)); [done|done| |lia| |done|].
          + by apply enough_next.
          + rewrite Hchunk. replace (pos + (zlen (trailer off) + (7 + n))) with (next_header pos + (kHeaderSize + n)) by lia.
            rewrite <- Zplus_mod_idemp_l, Hpm. done.
          + fold next. rewrite Enext. cbn [fst]. rewrite <- zdrop_zdrop, HL by lia. apply zdrop_app.
        - cbn beta. fold next. rewrite Enext. cbn [fst]. intros r w' Hr. apply HQ.
          by rewrite Z.add_assoc. }
      rewrite Et. destruct begin; cbn [negb andb].
      * rewrite decide_False by done. rewrite decide_True by done.
        apply Hnext; [done|]. intros r w' (rd' & Hrep' & Hr). exists rd'. split; [congruence|].
        by rewrite ztake_zdrop in Hr.
      * rewrite !decide_False by done. rewrite decide_True by done.
        apply Hnext; [done|]. intros r w' (rd' & Hrep' & Hr). exists rd'. split; [congruence|].
        by rewrite <- app_assoc, ztake_zdrop in Hr.
    + rewrite Hr. rewrite !(decide_False (P := kEof = _)) by done. rewrite decide_True by done.
      apply wp_ret. exists rd1. split; [done|]. by rewrite decide_False by lia.
  - assert (n = zlen slice) as En by lia.
    assert (t = if begin then kFullType else kLastType) as Et.
    { subst t. rewrite bool_decide_true by lia. by destruct begin. }
    assert (ztake n slice = slice) as Etake by (apply ztake_ge; lia).
    cbn [fst] in *.
    eapply wp_mono; [eapply (read_phys pos off rd w t (ztake n slice)); [done|done|done| |lia|exact HL]|];
      [apply fragment_type_range|].
    cbn beta. fold chunk. intros r w1 (rd1 & Hrep1 & Hr).
    destruct (decide (pos + zlen chunk ≤ k)) as [Hfit|Hcut].
    + destruct Hr as [-> Hat1]. rewrite Et, Etake. destruct begin; cbn [negb andb].
      * rewrite decide_True by done. apply wp_ret. eexists. split; [|done]. done.
      * rewrite !decide_False by done. rewrite decide_True by done. apply wp_ret. eexists. split; [|done]. done.
    + rewrite Hr. rewrite !(decide_False (P := kEof = _)) by done. rewrite decide_True by done.
      apply wp_ret. exists rd1. done.
Qed.
End ReaderProof.

(** ** The reader ends on every file *)

Section ReaderTotal.
Context {P : Placement} {W : Type} {file_ : SequentialFile W}.
Context {inv : W → Prop} {rest : W → bytes} {FL : SequentialFileLaws file_ inv rest}.
Variables (is_signed reporter_ checksum_ : bool) (initial_offset_ : Z).

(** What is still to be read: every physical record takes some of it. *)
Definition remaining (rd : Reader) (w : W) : Z :=
  zlen (buffer_ rd) + zlen (rest w) + (if eof_ rd then 0 else 1).

Lemma ReportDrop_buffer rd n reason :
  buffer_ (ReportDrop reporter_ initial_offset_ rd n reason) = buffer_ rd ∧
  eof_ (ReportDrop reporter_ initial_offset_ rd n reason) = eof_ rd ∧
  last_record_offset_ (ReportDrop reporter_ initial_offset_ rd n reason) = last_record_offset_ rd.
Proof. unfold ReportDrop. by destruct (_ && _). Qed.

Lemma remaining_report rd n reason w : remaining (ReportDrop reporter_ initial_offset_ rd n reason) w = remaining rd w.
Proof. unfold remaining. by destruct (ReportDrop_buffer rd n reason) as (-> & -> & _). Qed.

Lemma parse_record_remaining rd result w :
  kHeaderSize ≤ zlen (buffer_ rd) →
  ∃ t d rd', parse_record is_signed reporter_ checksum_ initial_offset_ rd result = (t, d, rd') ∧
    remaining rd' w < remaining rd w.
Proof.
  intros Hb. assert (kHeaderSize = 7) as HH by done. unfold parse_record.
  assert (∀ rd0, buffer_ rd0 = [] → eof_ rd0 = eof_ rd → remaining rd0 w < remaining rd w) as Hclear.
  { intros rd0 E1 E2. unfold remaining. rewrite E1, E2, zlen_nil. lia. }
  set (length := Z.lor _ _).
  assert (0 ≤ length) as Hlen.
  { apply Z.lor_nonneg. split; [|apply Z.shiftl_nonneg]; apply u8_range. }
  repeat case_decide.
  1: destruct (negb _); eexists _, _, _; (split; [done|]); unfold ReportCorruption; rewrite ?remaining_report; by apply Hclear.
  1: eexists _, _, _; split; [done|]; by apply Hclear.
  all: destruct (_ && _); eexists _, _, _; (split; [done|]); unfold ReportCorruption; rewrite ?remaining_report;
      [by apply Hclear|]; unfold remaining; cbn [set_buffer buffer_ eof_]; rewrite zlen_zdrop by lia; lia.
Qed.

Lemma wp_ReadPhysicalRecord rd result w :
  inv w → wp (ReadPhysicalRecord is_signed reporter_ checksum_ initial_offset_ rd result) (λ r w',
    inv w' ∧ ∃ t d rd', r = Some (t, d, rd') ∧ (t = kEof ∨ remaining rd' w' < remaining rd w)) w.
Proof.
  intros Hi. unfold ReadPhysicalRecord. cbn [ReadPhysicalRecord_loop].
  assert (∀ rd w, inv w → kHeaderSize ≤ zlen (buffer_ rd) →
    inv w ∧ ∃ t d rd', Some (parse_record is_signed reporter_ checksum_ initial_offset_ rd result)
      = Some (t, d, rd') ∧ (t = kEof ∨ remaining rd' w < remaining rd w)) as Hparse.
  { intros rd0 w0 Hi0 Hb. split; [done|]. destruct (parse_record_remaining rd0 result w0 Hb) as (t & d & rd' & -> & ?).
    eexists _, _, _. split; [done|]. by right. }
  case_decide as Hb; [|apply wp_ret, Hparse; [done|lia]].
  destruct (eof_ rd) eqn:Eeof; cbn [negb].
  { apply wp_ret. split; [done|]. eexists _, _, _. split; [done|]. by left. }
  apply wp_bind. destruct (Read_law kBlockSize w Hi ltac:(done)) as (s & w1 & E & Hok & Hi1 & Hr1).
  unfold wp at 1. rewrite E, Hok. cbn [negb].
  set (data := ztake kBlockSize (rest w)) in *. set (rd0 := set_end_of_buffer _ _).
  change (buffer_ rd0) with data. change (eof_ rd0) with (eof_ rd). 
  assert (zlen data + zlen (rest w1) = zlen (rest w)) as Hsum.
  { rewrite Hr1, <- zlen_app. subst data. by rewrite ztake_zdrop. }
  set (rd1 := if decide (zlen data < kBlockSize) then set_eof rd0 else rd0).
  assert (buffer_ rd1 = data ∧ eof_ rd1 = bool_decide (zlen data < kBlockSize)) as [Hb1 He1].
  { subst rd1. destruct (decide (zlen data < kBlockSize)).
    - by rewrite bool_decide_true.
    - rewrite bool_decide_false by done. by rewrite <- Eeof. }
  assert (remaining rd1 w1 ≤ remaining rd w) as Hle.
  { unfold remaining. rewrite Hb1, He1, Eeof. pose proof (zlen_nonneg (buffer_ rd)). case_bool_decide; lia. }
  clearbody rd1. rewrite Hb1, He1.
  destruct (decide (zlen data < kHeaderSize)) as [Hd|Hd].
  - rewrite bool_decide_true by (change kHeaderSize with 7 in Hd; change kBlockSize with 32768; lia).
    cbn [negb]. apply wp_ret. split; [done|]. eexists _, _, _. split; [done|]. by left.
  - apply wp_ret. destruct (Hparse rd1 w1 Hi1) as (Hi' & t & d & rd' & E' & Ht); [rewrite Hb1; lia|].
    split; [done|]. eexists _, _, _. split; [exact E'|]. destruct Ht; [by left|right; lia].
Qed.

Lemma remaining_nonneg rd w : 0 ≤ remaining rd w.
Proof.
  unfold remaining. pose proof (zlen_nonneg (buffer_ rd)). pose proof (zlen_nonneg (rest w)). destruct (eof_ rd); lia.
Qed.

Lemma wp_ReadRecord_loop_total fuel rd infl pro frag scratch w :
  inv w → remaining rd w < Z.of_nat fuel →
  wp (ReadRecord_loop is_signed reporter_ checksum_ initial_offset_ fuel rd infl pro frag scratch)
    (λ r w', inv w' ∧ r ≠ None) w.
Proof.
  revert rd infl pro frag scratch w.
  induction fuel as [|fuel IH]; intros rd infl pro frag scratch w Hi Hf;
    pose proof (remaining_nonneg rd w); [lia|].
  cbn [ReadRecord_loop]. apply wp_bind. eapply wp_mono; [by apply wp_ReadPhysicalRecord|].
  cbn beta. intros r w1 (Hi1 & t & d & rd1 & -> & Ht).
  assert (t = kEof ∨ t ≠ kEof ∧ remaining rd1 w1 < Z.of_nat fuel) as [->|[Hne Hl]].
  { destruct (decide (t = kEof)); [by left|right]. destruct Ht; [done|]. split; [done|lia]. }
  { rewrite !(decide_False (P := kEof = _)) by done. rewrite decide_True by done. by apply wp_ret. }
  repeat case_decide; try done; try by apply wp_ret.
  all: repeat match goal with |- context [if ?b then _ else _] => destruct b end;
    first [by apply wp_ret|apply IH; [done|unfold ReportCorruption; rewrite ?remaining_report; done]].
Qed.
End ReaderTotal.

(** ** Reading a log *)

Section Reads.
Context {P : Placement} {PL : PlacementLaws P} {W : Type} {file_ : SequentialFile W}.
Context {inv : W → Prop} {rest : W → bytes} {FL : SequentialFileLaws file_ inv rest}.
Variables (is_signed reporter_ checksum_ : bool).
Variables (L : bytes) (k : Z).
Hypothesis Hk : 0 ≤ k ≤ zlen L.

Abbreviation reader_at := (reader_at (inv := inv) (rest := rest) L k).

Lemma reader_at_remaining pos rd w : reader_at pos rd w → inv w ∧ remaining (rest := rest) rd w ≤ k + 1.
Proof.
  intros (Hi & Hp & Hb & Hr & _). split; [done|]. unfold remaining. rewrite Hb, Hr.
  assert (zlen (ztake k L) = k) as HF by (apply zlen_ztake; lia).
  pose proof (block_up_bounds pos ltac:(lia)).
  rewrite zlen_ztake, zlen_zdrop by (rewrite ?zlen_zdrop; lia). destruct (eof_ rd); lia.
Qed.

(** [ReadRecord] gives the records one after the other, then none, and reports
    nothing. *)
Fixpoint reads (fuel : nat) (slices : list bytes) (rd : Reader) (w : W) : Prop :=
  ∃ r rd' w', ReadRecord is_signed reporter_ checksum_ 0 fuel rd w = Some (Some (r, rd'), w') ∧
    (k + 1 < Z.of_nat fuel → inv w') ∧ reports rd' = reports rd ∧
    match slices with [] => r = None | s :: slices => r = Some s ∧ reads fuel slices rd' w' end.

Lemma ReadAll_reads fuel n slices rd w acc :
  reads fuel slices rd w → (length slices < n)%nat →
  ∃ w', ReadAll is_signed reporter_ checksum_ 0 fuel n rd acc w = Some (Some (acc ++ slices, reports rd), w').
Proof.
  revert n rd w acc. induction slices as [|s slices IH]; intros [|n] rd w acc HR Hn; cbn in Hn; try lia;
    cbn [reads] in HR; destruct HR as (r & rd' & w' & E & _ & Hrep & Hr); cbn [ReadAll]; unfold mbind, M_bind; rewrite E.
  - rewrite Hr. exists w'. by rewrite app_nil_r, Hrep.
  - destruct Hr as [-> HR]. destruct (IH n rd' w' (acc ++ [s]) HR ltac:(lia)) as (w2 & ->). exists w2.
    by rewrite <- app_assoc, Hrep.
Qed.

Lemma ReadRecord_inv fuel pos rd w a w' :
  reader_at pos rd w → 0 ≤ last_record_offset_ rd → ReadRecord is_signed reporter_ checksum_ 0 fuel rd w = Some (a, w') →
  k + 1 < Z.of_nat fuel → inv w'.
Proof.
  intros Hat Hlast E Hf. destruct (reader_at_remaining pos rd w Hat) as [Hi Hr].
  enough (wp (ReadRecord is_signed reporter_ checksum_ 0 fuel rd) (λ _ w', inv w') w) as Hw
    by (unfold wp in Hw; by rewrite E in Hw).
  unfold ReadRecord. apply wp_bind. rewrite decide_False by lia. apply wp_ret.
  eapply wp_mono; [apply (wp_ReadRecord_loop_total (inv := inv) (rest := rest)); [done|lia]|]. by intros ?? [? _].
Qed.

(** No record is left. *)
Lemma ReadRecord_end fuel pos rd w :
  reader_at pos rd w → 0 ≤ last_record_offset_ rd → zdrop pos L = [] → (0 < fuel)%nat →
  wp (ReadRecord is_signed reporter_ checksum_ 0 fuel rd)
    (λ r _, ∃ rd', r = Some (None, rd') ∧ reports rd' = reports rd) w.
Proof.
  intros Hat Hlast HL Hf. unfold ReadRecord. apply wp_bind. rewrite decide_False by lia. apply wp_ret.
  destruct fuel as [|fuel]; [lia|]. cbn [ReadRecord_loop]. apply wp_bind.
  eapply wp_mono; [by apply read_header|]. cbn beta zeta. intros r w1 Hr.
  pose proof Hat as (_ & Hp & _).
  assert (zlen (zdrop pos L) = zlen L - pos) as HzL by (apply zlen_zdrop; lia).
  rewrite HL in HzL. change (zlen []) with 0 in HzL.
  assert (k < next_header pos + kHeaderSize).
  { unfold next_header. pose proof (block_up_bounds pos ltac:(lia)). change kHeaderSize with 7.
    destruct (decide (block_up pos - pos < 7)); lia. }
  rewrite decide_False in Hr by lia. destruct Hr as (rd1 & -> & Hrep).
  rewrite !(decide_False (P := kEof = _)) by done. rewrite decide_True by done.
  apply wp_ret. by exists rd1.
Qed.

(** The next record, if all of it is there. *)
Lemma ReadRecord_next fuel slice more off pos rd w :
  reader_at pos rd w → off_ok off → pos mod kBlockSize = off mod kBlockSize →
  0 ≤ last_record_offset_ rd → zdrop pos L = fst (record_layout off slice) ++ more → (length slice + 2 ≤ fuel)%nat →
  let e := pos + zlen (fst (record_layout off slice)) in
  wp (ReadRecord is_signed reporter_ checksum_ 0 fuel rd) (λ r w', ∃ rd', reports rd' = reports rd ∧
    if decide (e ≤ k) then r = Some (Some slice, rd') ∧ reader_at e rd' w' ∧ 0 ≤ last_record_offset_ rd'
    else r = Some (None, rd')) w.
Proof.
  intros Hat Ho Hmod Hlast HL Hf. unfold ReadRecord. apply wp_bind. rewrite decide_False by lia. apply wp_ret.
  unfold record_layout in *. eapply wp_mono; [eapply (wp_ReadRecord_loop is_signed reporter_ checksum_ L k Hk (S (S (length slice))) fuel off slice true pos rd w 0 [] []);
    [done|done|apply enough_start|lia|done|lia|exact HL]|].
  cbn beta zeta. intros r w1 (rd1 & Hrep & Hr). rewrite app_nil_l in Hr. by exists rd1.
Qed.

Lemma reads_log fuel slices off pos rd w :
  reader_at pos rd w → off_ok off → pos mod kBlockSize = off mod kBlockSize →
  0 ≤ last_record_offset_ rd → zdrop pos L = fst (log_layout off slices) →
  Forall (λ s, (length s + 2 ≤ fuel)%nat) slices → (0 < fuel)%nat →
  ∃ p q, slices = p ++ q ∧ reads fuel p rd w ∧ pos + zlen (fst (log_layout off p)) ≤ k ∧
    match q with [] => True | s :: _ => k < pos + zlen (fst (log_layout off (p ++ [s]))) end.
Proof.
  revert off pos rd w. induction slices as [|slice slices IH]; intros off pos rd w Hat Ho Hmod Hlast HL Hfuel Hpos.
  - pose proof (ReadRecord_end fuel pos rd w Hat Hlast HL Hpos) as Hw.
    apply wp_Some in Hw as (r & w' & E & rd' & -> & Hrep). pose proof (ReadRecord_inv fuel pos rd w _ w' Hat Hlast E) as Hi. exists [], []. splits; [done| |pose proof Hat as (_ & ? & _); change (zlen (fst (log_layout off []))) with 0; lia|done].
    cbn [reads]. by exists None, rd', w'.
  - apply Forall_cons_1 in Hfuel as [Hf Hfuel].
    assert (0 ≤ pos ≤ k) by (by destruct Hat as (_ & ? & _)).
    pose proof (layout_off (S (S (length slice))) off slice true Ho) as Ho1.
    assert (∀ q, fst (log_layout off (slice :: q))
      = fst (record_layout off slice) ++ fst (log_layout (snd (record_layout off slice)) q)) as Hcons.
    { intros q. cbn [log_layout]. destruct (record_layout off slice) as [b o].
      cbn [fst snd]. by destruct (log_layout o q). }
    rewrite Hcons in HL. pose proof (ReadRecord_next fuel slice _ off pos rd w Hat Ho Hmod Hlast HL Hf) as Hw.
    cbv zeta in Hw. apply wp_Some in Hw as (r & w' & E & rd' & Hrep & Hr).
    pose proof (ReadRecord_inv fuel pos rd w _ w' Hat Hlast E) as Hi.
    set (b := fst (record_layout off slice)) in *. set (o := snd (record_layout off slice)) in *.
    pose proof (zlen_nonneg b). case_decide as Hfit.
    + destruct Hr as (-> & Hat1 & Hlast1).
      destruct (IH o (pos + zlen b) rd' w' Hat1 Ho1) as (p & q & -> & HR & Hle & Hq); [|done| |done|done|].
      * apply layout_mod; [lia|done|done].
      * rewrite <- zdrop_zdrop, HL by lia. apply zdrop_app.
      * exists (slice :: p), q. splits; [done| | |].
        -- cbn [reads]. by exists (Some slice), rd', w'.
        -- rewrite Hcons, zlen_app. fold b o. lia.
        -- destruct q as [|s q]; [done|]. rewrite <- app_comm_cons, Hcons, zlen_app. fold b o. lia.
    + exists [], (slice :: slices). splits; [done| |change (zlen (fst (log_layout off []))) with 0; lia|].
      * cbn [reads]. rewrite Hr in E. by exists None, rd', w'.
      * rewrite app_nil_l, Hcons. cbn [log_layout fst]. rewrite app_nil_r. fold b. lia.
Qed.

(** All of a log is read back. *)
Lemma reads_start fuel slices w :
  inv w → rest w = ztake k L → L = log_bytes slices → Forall (λ s, (length s + 2 ≤ fuel)%nat) slices → (0 < fuel)%nat →
  ∃ p q, slices = p ++ q ∧ reads fuel p new_Reader w ∧ zlen (log_bytes p) ≤ k ∧
    match q with [] => True | s :: _ => k < zlen (log_bytes (p ++ [s])) end.
Proof.
  intros Hi Hr HL Hfuel Hf.
  destruct (reads_log fuel slices 0 0 new_Reader w) as (p & q & -> & HR & Hp & Hq).
  - split; [done|]. split; [lia|]. assert (block_up 0 = 0) as -> by done. rewrite Z.min_l by lia.
    split; [done|]. split; [by rewrite zdrop_0|]. cbn. lia.
  - by vm_compute.
  - done.
  - done.
  - by rewrite zdrop_0, HL.
  - done.
  - done.
  - exists p, q. splits; [done|done|exact Hp|exact Hq].
Qed.
End Reads.

(** ** Properties *)

(** C2: a log survives a crash. Appending records to a new log always ends, and
    leaves the bytes [log_bytes]; and of a log cut off at any byte, a reader -
    with or without checksums, on any file that holds those bytes - returns
    exactly the records that were written completely, in order, then reports
    the end of the file, and reports no corruption. *)
Theorem log_crash_recovery `{PL : PlacementLaws} {W} {dest : WritableFile W} {inv contents}
    {WL : ReliableFile dest inv contents} {R} {file : SequentialFile R} {rinv rest}
    {RL : SequentialFileLaws file rinv rest} (slices : list bytes) w k r is_signed reporter checksum fuel n :
  inv w → contents w = [] →
  0 ≤ k ≤ zlen (log_bytes slices) → rinv r → rest r = ztake k (log_bytes slices) →
  Forall (λ s, (length s + 2 ≤ fuel)%nat) slices → (0 < fuel)%nat → (length slices < n)%nat →
  (∃ wr w', AddRecords new_Writer slices w = Some (Some wr, w') ∧ contents w' = log_bytes slices) ∧
  (∃ p q r', slices = p ++ q ∧
    ReadAll is_signed reporter checksum 0 fuel n new_Reader [] r = Some (Some (p, []), r') ∧
    zlen (log_bytes p) ≤ k ∧
    match q with [] => True | s :: _ => k < zlen (log_bytes (p ++ [s])) end).
Proof.
  intros Hw Hc Hk Hr Hrest Hfuel Hf0 Hn. split.
  - pose proof (wp_AddRecords new_Writer 0 slices w Hw new_Writer_ok ltac:(by vm_compute)) as Hwp.
    apply wp_Some in Hwp as (? & w' & E & wr & -> & _ & _ & Hc'). exists wr, w'.
    split; [done|]. by rewrite Hc', Hc.
  - destruct (reads_start is_signed reporter checksum (log_bytes slices) k Hk fuel slices r Hr Hrest eq_refl Hfuel Hf0)
      as (p & q & -> & HR & Hp & Hq).
    destruct (ReadAll_reads is_signed reporter checksum k fuel n p new_Reader r [] HR) as (r' & E).
    { rewrite length_app in Hn. lia. }
    by exists p, q, r'.
Qed.

Lemma log_crash_recovery_witness :
  let slices := [str "hello"; []; str "world"] in
  (∃ wr w', AddRecords (P := UnalignedPlacement) (dest_ := BytesWritable)
      (new_Writer (P := UnalignedPlacement)) slices [] = Some (Some wr, w') ∧ id w' = log_bytes slices) ∧
  (∃ p q r', slices = p ++ q ∧
    ReadAll (P := UnalignedPlacement) (file_ := BytesSequential) true true true 0 9 9 new_Reader []
      (ztake 24 (log_bytes slices)) = Some (Some (p, []), r') ∧
    zlen (log_bytes p) ≤ 24 ∧
    match q with [] => True | s :: _ => 24 < zlen (log_bytes (p ++ [s])) end).
Proof.
  cbn zeta.
  apply (log_crash_recovery (PL := UnalignedPlacement_laws) (WL := BytesWritable_reliable)
    (RL := BytesSequential_laws)); try exact I; try reflexivity; try lia.
  - split; by vm_compute.
  - repeat constructor; cbn; lia.
  - cbn. lia.
Defined.

(** C10: the reader ends on every file: whatever bytes the file holds and
    wherever reading starts, each call of [ReadRecord] returns after a bounded
    number of physical records. *)
Theorem ReadRecord_total `{P : Placement} {R} {file : SequentialFile R} {inv rest}
    {FL : SequentialFileLaws file inv rest} is_signed reporter checksum initial_offset fuel rd r :
  inv r →
  zlen (buffer_ rd) + zlen (rest r) + 1 < Z.of_nat fuel →
  ∃ result rd' r',
    ReadRecord is_signed reporter checksum initial_offset fuel rd r = Some (Some (result, rd'), r').
Proof.
  intros Hi Hf. unfold ReadRecord.
  assert (wp ((if decide (last_record_offset_ rd < initial_offset)
      then SkipToInitialBlock reporter initial_offset rd else mret (true, rd)) : M R (bool * Reader))
    (λ a r', inv r' ∧ remaining (rest := rest) (snd a) r' ≤ remaining (rest := rest) rd r) r) as Hskip.
  { case_decide; [|by apply wp_ret]. unfold SkipToInitialBlock.
    set (start := if decide (_ > kBlockSize - 6) then _ else _).
    destruct (decide (start > 0)); [|by apply wp_ret].
    apply wp_bind. destruct (Skip_law start r Hi ltac:(lia)) as (s & r1 & E & Hok & Hi1 & Hr1).
    unfold wp at 1. rewrite E, Hok. cbn [negb]. apply wp_ret. split; [done|].
    unfold remaining. cbn [snd set_end_of_buffer buffer_ eof_]. rewrite Hr1.
    assert (zlen (zdrop start (rest r)) ≤ zlen (rest r)); [|lia].
    unfold zlen, zdrop. rewrite length_drop. lia. }
  enough (wp (ReadRecord is_signed reporter checksum initial_offset fuel rd) (λ a _, a ≠ None) r) as Hw.
  { apply wp_Some in Hw as ([[result rd']|] & r' & E & Hne); [|done]. by exists result, rd', r'. }
  unfold ReadRecord. apply wp_bind. eapply wp_mono; [exact Hskip|]. cbn beta.
  intros [found rd1] r1 [Hi1 Hle]. cbn [snd] in Hle. destruct found; [|by apply wp_ret].
  eapply wp_mono; [apply (wp_ReadRecord_loop_total (inv := inv) (rest := rest)); [done|]|].
  - unfold remaining in Hle at 2. destruct (eof_ rd); lia.
  - by intros a r2 [_ ?].
Qed.

Lemma ReadRecord_total_witness :
  ∃ result rd' r', ReadRecord (P := UnalignedPlacement) (file_ := BytesSequential) true true true 3 40
    new_Reader (str "no record is to be found here") = Some (Some (result, rd'), r').
Proof.
  apply (ReadRecord_total (FL := BytesSequential_laws)); [exact I|by vm_compute].
Defined.

(** ** What the writer and the reader do not report *)

(** A file whose next append fails and writes nothing. *)
Definition FlakyWritable : WritableFile (bool * bytes) := {|
  wf_Append data := λ w : bool * bytes,
    if fst w then Some (IOError (str "disk full") [], (false, snd w))
    else Some (Status_OK, (false, snd w ++ data));
  wf_Close := mret Status_OK; wf_Flush := mret Status_OK; wf_Sync := mret Status_OK |}.

(** The status of writing the trailer of a block is dropped: the append of the
    record succeeds at the wrong place and [AddRecord] reports success. *)
Lemma AddRecord_ignores_trailer_error :
  let wr := set_block_offset (new_Writer (P := UnalignedPlacement)) (kBlockSize - 3) in
  ∃ wr' w', AddRecord (P := UnalignedPlacement) (dest_ := FlakyWritable) wr (str "x") (true, [])
      = Some (Some (Status_OK, wr'), w') ∧
    snd w' ≠ fst (record_layout (kBlockSize - 3) (str "x")).
Proof. cbn zeta. eexists _, _. split; [vm_compute; reflexivity|]. by vm_compute. Qed.

(** A record whose type is 5 ends the log without a report, although the types
    from 7 on are reported as unknown: 5 is also the reader's own code for the
    end of the file. *)
Lemma type_5_is_end_of_file :
  ReadAll (P := UnalignedPlacement) (file_ := BytesSequential) true true true 0 9 9 new_Reader []
    (phys 5 (str "a") ++ phys kFullType (str "b"))
  = Some (Some ([], []), []).
Proof. vm_compute. reflexivity. Qed.
