(* ===== verification/DbFormat.v ===== *)
(** Internal keys: [db/dbformat.h] and [db/dbformat.cc].

    An internal key is a user key followed by eight bytes that pack a sequence
    number and a value type.  The comparator and the filter policy of internal
    keys wrap those of user keys; they are instances of the same classes. *)
From S2P Require Import Prelude Coding Comparator Bloom Logging.

(** Constants of [namespace config]. *)
Definition kNumLevels : Z := 7.
Definition kL0_CompactionTrigger : Z := 4.
Definition kL0_SlowdownWritesTrigger : Z := 8.
Definition kL0_StopWritesTrigger : Z := 12.
Definition kMaxMemCompactLevel : Z := 2.
Definition kReadBytesPeriod : Z := 1048576.

(** [enum ValueType]; a byte that is neither value stays a number. *)
Definition kTypeDeletion : Z := 0.
Definition kTypeValue : Z := 1.
Definition kValueTypeForSeek : Z := kTypeValue.

Definition kMaxSequenceNumber : Z := 2 ^ 56 - 1.

Record ParsedInternalKey := { user_key : bytes; sequence : Z; type : Z }.

Definition InternalKeyEncodingLength (key : ParsedInternalKey) : Z := zlen (user_key key) + 8.

Definition PackSequenceAndType (seq t : Z) : Z := Z.lor (u64 (Z.shiftl seq 8)) t.

Definition AppendInternalKey (result : bytes) (key : ParsedInternalKey) : bytes :=
  PutFixed64 (result ++ user_key key) (PackSequenceAndType (sequence key) (type key)).

(** [ExtractUserKey] requires eight bytes at least. *)
Definition ExtractUserKey (internal_key : bytes) : bytes := ztake (zlen internal_key - 8) internal_key.

(** The trailer, read by [DecodeFixed64(internal_key.data() + n - 8)]. *)
Definition ExtractTag (internal_key : bytes) : Z :=
  DecodeFixed64 (zdrop (zlen internal_key - 8) internal_key).

Definition ExtractValueType (internal_key : bytes) : Z := Z.land (ExtractTag internal_key) 255.

Definition ParseInternalKey (internal_key : bytes) : option ParsedInternalKey :=
  let n := zlen internal_key in
  if decide (n < 8) then None
  else
    let num := ExtractTag internal_key in
    let c := Z.land num 255 in
    let result := {| user_key := ztake (n - 8) internal_key; sequence := Z.shiftr num 8; type := c |} in
    if decide (c ≤ kTypeValue) then Some result else None.

(** [InternalKey(user_key, s, t)] holds its encoding. *)
Definition InternalKey (ukey : bytes) (s t : Z) : bytes :=
  AppendInternalKey [] {| user_key := ukey; sequence := s; type := t |}.

Definition ParsedInternalKey_DebugString (key : ParsedInternalKey) : bytes :=
  str "'" ++ EscapeString (user_key key) ++
  snprintf 50 (str "' @ " ++ dec (sequence key) ++ str " : " ++ dec (type key)).

Definition InternalKey_DebugString (rep : bytes) : bytes :=
  match ParseInternalKey rep with
  | Some parsed => ParsedInternalKey_DebugString parsed
  | None => str "(bad)" ++ EscapeString rep
  end.

(** ** The comparator of internal keys *)

Section InternalKeyComparator.
Context {user_comparator_ : Comparator}.

Definition Internal_Compare (akey bkey : bytes) : Z :=
  let r := Compare (ExtractUserKey akey) (ExtractUserKey bkey) in
  if decide (r = 0) then
    let anum := ExtractTag akey in
    let bnum := ExtractTag bkey in
    if decide (anum > bnum) then -1 else if decide (anum < bnum) then 1 else r
  else r.

Definition Internal_FindShortestSeparator (start limit : bytes) : bytes :=
  let user_start := ExtractUserKey start in
  let user_limit := ExtractUserKey limit in
  let tmp := FindShortestSeparator user_start user_limit in
  if decide (zlen tmp < zlen user_start ∧ Compare user_start tmp < 0) then
    PutFixed64 tmp (PackSequenceAndType kMaxSequenceNumber kValueTypeForSeek)
  else start.

Definition Internal_FindShortSuccessor (key : bytes) : bytes :=
  let user_key := ExtractUserKey key in
  let tmp := FindShortSuccessor user_key in
  if decide (zlen tmp < zlen user_key ∧ Compare user_key tmp < 0) then
    PutFixed64 tmp (PackSequenceAndType kMaxSequenceNumber kValueTypeForSeek)
  else key.

Definition InternalKeyComparator : Comparator := {|
  Compare := Internal_Compare;
  ComparatorName := str "leveldb.InternalKeyComparator";
  FindShortestSeparator := Internal_FindShortestSeparator;
  FindShortSuccessor := Internal_FindShortSuccessor;
|}.
End InternalKeyComparator.

(** ** The filter policy of internal keys *)

Definition InternalFilterPolicy (user_policy_ : FilterPolicy) : FilterPolicy := {|
  FilterName := FilterName;
  CreateFilter keys dst := CreateFilter (ExtractUserKey <$> keys) dst;
  KeyMayMatch key f := KeyMayMatch (ExtractUserKey key) f;
|}.

(** ** Lookup keys *)

(** The array of a [LookupKey] from [start_] to [end_], and the offset of
    [kstart_] in it. *)
Record LookupKey := { lk_data : bytes; kstart_ : Z }.

Definition mkLookupKey (ukey : bytes) (s : Z) : LookupKey :=
  let usize := zlen ukey in
  let dst := EncodeVarint32 (u32 (usize + 8)) in
  {| lk_data := dst ++ ukey ++ EncodeFixed64 (PackSequenceAndType s kValueTypeForSeek);
     kstart_ := zlen dst |}.

Definition memtable_key (k : LookupKey) : bytes := lk_data k.
Definition internal_key (k : LookupKey) : bytes := zdrop (kstart_ k) (lk_data k).
Definition LookupKey_user_key (k : LookupKey) : bytes :=
  ztake (zlen (lk_data k) - kstart_ k - 8) (zdrop (kstart_ k) (lk_data k)).

(** The room the constructor reserves: [usize + 13]. *)
Definition lookup_needed (ukey : bytes) : Z := zlen ukey + 13.

(** ** Encoding and decoding *)

Definition seq_ok (s : Z) : Prop := 0 ≤ s ≤ kMaxSequenceNumber.
Definition type_ok (t : Z) : Prop := t = kTypeDeletion ∨ t = kTypeValue.

Lemma Pack_eq s t : seq_ok s → 0 ≤ t < 256 → PackSequenceAndType s t = s * 256 + t.
Proof.
  intros Hs Ht. unfold PackSequenceAndType. unfold seq_ok, kMaxSequenceNumber in Hs.
  rewrite wrap_small by (rewrite shiftl_mul by lia; unfold in_w; change (2 ^ 8) with 256; word_solve).
  rewrite Z.lor_comm, lor_shiftl_add by (change (2 ^ 8) with 256; lia). change (2 ^ 8) with 256. lia.
Qed.

Lemma Pack_range s t : seq_ok s → 0 ≤ t < 256 → in_w 64 (PackSequenceAndType s t).
Proof. intros Hs Ht. rewrite Pack_eq by done. unfold seq_ok, kMaxSequenceNumber in Hs. word_solve. Qed.

(** A key with its trailer. *)
Lemma Extract_app u tag :
  in_w 64 tag → ExtractUserKey (u ++ EncodeFixed64 tag) = u ∧ ExtractTag (u ++ EncodeFixed64 tag) = tag.
Proof.
  intros Ht. unfold ExtractUserKey, ExtractTag. rewrite zlen_app, zlen_EncodeFixed64.
  replace (zlen u + 8 - 8) with (zlen u) by lia. rewrite ztake_app, zdrop_app. split; [done|].
  rewrite <- (app_nil_r (EncodeFixed64 tag)). by apply DecodeFixed64_EncodeFixed64.
Qed.

Lemma ExtractTag_range k : in_w 64 (ExtractTag k).
Proof. apply DecodeFixed64_range. Qed.

(** Every string of eight bytes or more is a user key and a trailer. *)
Lemma ikey_split k : 8 ≤ zlen k → k = ExtractUserKey k ++ EncodeFixed64 (ExtractTag k).
Proof.
  intros Hk. unfold ExtractUserKey, ExtractTag.
  rewrite EncodeFixed64_DecodeFixed64 by (rewrite zlen_zdrop; lia). by rewrite ztake_zdrop.
Qed.

Lemma ParseInternalKey_Append u s t :
  seq_ok s → type_ok t →
  ParseInternalKey (InternalKey u s t) = Some {| user_key := u; sequence := s; type := t |}.
Proof.
  intros Hs Ht. assert (0 ≤ t < 256) as Ht' by (destruct Ht; subst; done).
  unfold InternalKey, AppendInternalKey, PutFixed64. cbn [user_key sequence type app].
  unfold ParseInternalKey. set (tag := PackSequenceAndType s t).
  destruct (Extract_app u tag (Pack_range s t Hs Ht')) as [E1 E2].
  rewrite E2. rewrite zlen_app, zlen_EncodeFixed64. replace (zlen u + 8 - 8) with (zlen u) by lia.
  pose proof (zlen_nonneg u). rewrite decide_False by lia. rewrite ztake_app.
  subst tag. rewrite Pack_eq, land_255, shiftr_div by (done || lia). change (2 ^ 8) with 256.
  replace ((s * 256 + t) mod 256) with t by word_solve. replace ((s * 256 + t) / 256) with s by word_solve.
  rewrite decide_True; [done|]. destruct Ht; subst; done.
Qed.

(** ** The order of internal keys *)

Section Laws.
Context {C : Comparator} {V : bytes → Prop} {CL : ComparatorLaws C V}.

Definition ikey_valid (k : bytes) : Prop := 8 ≤ zlen k ∧ V (ExtractUserKey k).

(** User keys ascending, trailers descending. *)
Lemma Internal_Compare_lt a b :
  Internal_Compare a b < 0 ↔
  Compare (ExtractUserKey a) (ExtractUserKey b) < 0 ∨
  Compare (ExtractUserKey a) (ExtractUserKey b) = 0 ∧ ExtractTag b < ExtractTag a.
Proof. unfold Internal_Compare. cbn zeta. repeat case_decide; lia. Qed.

Lemma Internal_Compare_gt a b :
  0 < Internal_Compare a b ↔
  0 < Compare (ExtractUserKey a) (ExtractUserKey b) ∨
  Compare (ExtractUserKey a) (ExtractUserKey b) = 0 ∧ ExtractTag a < ExtractTag b.
Proof. unfold Internal_Compare. cbn zeta. repeat case_decide; lia. Qed.

Lemma Internal_Compare_zero a b :
  Internal_Compare a b = 0 ↔
  Compare (ExtractUserKey a) (ExtractUserKey b) = 0 ∧ ExtractTag a = ExtractTag b.
Proof. unfold Internal_Compare. cbn zeta. repeat case_decide; lia. Qed.

Definition max_tag : Z := PackSequenceAndType kMaxSequenceNumber kValueTypeForSeek.

Lemma max_tag_ok : in_w 64 max_tag.
Proof. by vm_compute. Qed.

(** A shortened separator or successor: the user key moved up. *)
Lemma shortened_valid tmp : V tmp → ikey_valid (PutFixed64 tmp max_tag).
Proof.
  intros Ht. unfold PutFixed64. destruct (Extract_app tmp max_tag max_tag_ok) as [E _].
  split; [rewrite zlen_app, zlen_EncodeFixed64; pose proof (zlen_nonneg tmp); lia|by rewrite E].
Qed.

Lemma shortened_gt k tmp : Compare (ExtractUserKey k) tmp < 0 → Internal_Compare k (PutFixed64 tmp max_tag) < 0.
Proof.
  intros Ht. apply Internal_Compare_lt. unfold PutFixed64.
  destruct (Extract_app tmp max_tag max_tag_ok) as [-> _]. by left.
Qed.

#[export] Instance InternalKeyComparator_laws : ComparatorLaws (InternalKeyComparator (user_comparator_ := C)) ikey_valid.
Proof.
  split; cbn [Compare InternalKeyComparator FindShortestSeparator FindShortSuccessor].
  - intros a b [Ha Va] [Hb Vb]. rewrite Internal_Compare_zero, Compare_eq by done.
    split; [intros [E1 E2]|by intros ->]. rewrite (ikey_split a), (ikey_split b) by done. by rewrite E1, E2.
  - intros a b [Ha Va] [Hb Vb]. rewrite Internal_Compare_lt, Internal_Compare_gt.
    rewrite (Compare_flip (ExtractUserKey a)), !Compare_eq by done. naive_solver.
  - intros a b c [Ha Va] [Hb Vb] [Hc Vc]. rewrite !Internal_Compare_lt.
    intros [H1|[H1 H1']] [H2|[H2 H2']].
    + left. by eapply (Compare_trans _ (ExtractUserKey b)).
    + apply Compare_eq in H2; [|done..]. rewrite <- H2. by left.
    + apply Compare_eq in H1; [|done..]. rewrite H1. by left.
    + apply Compare_eq in H1, H2; [|done..]. right. split; [apply Compare_eq; congruence|lia].
  - intros start limit [Hs Vs] [Hl Vl]. unfold Internal_FindShortestSeparator. case_decide; [|done].
    by apply shortened_valid, Separator_valid.
  - intros start limit [Hs Vs] [Hl Vl]. unfold Internal_FindShortestSeparator. case_decide as Hc.
    + pose proof (shortened_gt start _ (proj2 Hc)). unfold max_tag in *. lia.
    + rewrite (proj2 (Internal_Compare_zero start start)); [done|]. split; [by apply Compare_eq|done].
  - intros start limit [Hs Vs] [Hl Vl] Hlt. unfold Internal_FindShortestSeparator. case_decide as Hc; [|done].
    destruct Hc as [_ Hc]. apply Internal_Compare_lt. unfold PutFixed64.
    destruct (Extract_app (FindShortestSeparator (ExtractUserKey start) (ExtractUserKey limit)) max_tag max_tag_ok)
      as [E _]. unfold max_tag in E. rewrite E. left.
    apply Internal_Compare_lt in Hlt as [Hlt|[Heq _]]; [by apply Separator_lt|].
    apply Compare_eq in Heq; [|done..]. rewrite <- Heq in *.
    pose proof (Separator_refl (ExtractUserKey start) Vs) as Hr.
    apply Compare_flip in Hc; [lia|done|by apply Separator_valid].
  - intros key [Hk Vk]. unfold Internal_FindShortestSeparator. case_decide as Hc.
    + exfalso. destruct Hc as [_ Hc]. pose proof (Separator_refl (ExtractUserKey key) Vk).
      apply Compare_flip in Hc; [lia|done|by apply Separator_valid].
    + rewrite (proj2 (Internal_Compare_zero key key)); [done|]. split; [by apply Compare_eq|done].
  - intros key [Hk Vk]. unfold Internal_FindShortSuccessor. case_decide; [|done].
    by apply shortened_valid, Successor_valid.
  - intros key [Hk Vk]. unfold Internal_FindShortSuccessor. case_decide as Hc.
    + pose proof (shortened_gt key _ (proj2 Hc)). unfold max_tag in *. lia.
    + rewrite (proj2 (Internal_Compare_zero key key)); [done|]. split; [by apply Compare_eq|done].
Qed.

Lemma shortened_short key tmp :
  zlen tmp < zlen (ExtractUserKey key) → zlen (PutFixed64 tmp max_tag) ≤ zlen key.
Proof.
  unfold ExtractUserKey, PutFixed64. rewrite zlen_app, zlen_EncodeFixed64. intros H.
  destruct (decide (zlen key < 8)).
  - unfold ztake in H. rewrite Z2Nat.nonpos in H by lia. change (zlen (take 0 key)) with 0 in H. zsolve.
  - rewrite zlen_ztake in H by (zlen_facts; lia). lia.
Qed.

#[export] Instance InternalKeyComparator_short : ShortSeparators (InternalKeyComparator (user_comparator_ := C)).
Proof.
  split; intros; cbn; unfold Internal_FindShortestSeparator, Internal_FindShortSuccessor;
    (case_decide as Hc; [|done]); apply (shortened_short _ _ (proj1 Hc)).
Qed.
End Laws.

#[export] Instance InternalFilterPolicy_laws P dom :
  FilterPolicyLaws P dom → FilterPolicyLaws (InternalFilterPolicy P) (λ keys, dom (ExtractUserKey <$> keys)).
Proof.
  intros [H1 H2]. split; cbn.
  - intros keys dst. apply H1.
  - intros keys key Hd Hin. apply H2; [done|]. by apply list_elem_of_fmap_2.
Qed.

(** ** Properties *)

Lemma InternalKey_eq u s t :
  InternalKey u s t = u ++ EncodeFixed64 (PackSequenceAndType s t).
Proof. done. Qed.

Lemma InternalKey_parts u s t :
  seq_ok s → type_ok t →
  ExtractUserKey (InternalKey u s t) = u ∧ ExtractTag (InternalKey u s t) = s * 256 + t ∧
  zlen (InternalKey u s t) = zlen u + 8.
Proof.
  intros Hs Ht. assert (0 ≤ t < 256) as Ht' by (destruct Ht; subst; done).
  destruct (Extract_app u (PackSequenceAndType s t)) as [E1 E2]; [by apply Pack_range|].
  rewrite InternalKey_eq, E1, E2, Pack_eq, zlen_app by done. done.
Qed.

Lemma mkLookupKey_parts u s :
  zlen u + 8 < 2 ^ 32 →
  memtable_key (mkLookupKey u s)
    = EncodeVarint32 (zlen u + 8) ++ InternalKey u s kValueTypeForSeek ∧
  internal_key (mkLookupKey u s) = InternalKey u s kValueTypeForSeek ∧
  LookupKey_user_key (mkLookupKey u s) = u.
Proof.
  intros Hu. pose proof (zlen_nonneg u).
  unfold memtable_key, internal_key, LookupKey_user_key, mkLookupKey. cbn [lk_data kstart_].
  rewrite wrap_small by (unfold in_w; lia). rewrite !zdrop_app. split; [done|]. split; [done|].
  rewrite !zlen_app, zlen_EncodeFixed64. apply ztake_app_n. lia.
Qed.

(** C11: internal keys are a faithful encoding with the order the engine relies
    on. A key is parsed back to what it was made of; keys are ordered by user
    key, then by decreasing sequence number, then by decreasing type; and the
    key that looks up [u] at snapshot [s] precedes or equals exactly those
    entries of [u] whose sequence number is at most [s], and fits the buffer
    reserved for it. *)
Theorem InternalKey_correct {C : Comparator} {V : bytes → Prop} {CL : ComparatorLaws C V} u1 s1 t1 u2 s2 t2 :
  V u1 → V u2 → seq_ok s1 → seq_ok s2 → type_ok t1 → type_ok t2 → zlen u1 + 13 < 2 ^ 32 →
  ParseInternalKey (InternalKey u1 s1 t1) = Some {| user_key := u1; sequence := s1; type := t1 |} ∧
  (Internal_Compare (InternalKey u1 s1 t1) (InternalKey u2 s2 t2) < 0 ↔
    Compare u1 u2 < 0 ∨ u1 = u2 ∧ (s2 < s1 ∨ s1 = s2 ∧ t2 < t1)) ∧
  (Internal_Compare (internal_key (mkLookupKey u1 s1)) (InternalKey u1 s2 t2) ≤ 0 ↔ s2 ≤ s1) ∧
  LookupKey_user_key (mkLookupKey u1 s1) = u1 ∧
  zlen (memtable_key (mkLookupKey u1 s1)) ≤ lookup_needed u1.
Proof.
  intros V1 V2 Hs1 Hs2 Ht1 Ht2 Hu. split; [by apply ParseInternalKey_Append|].
  assert (type_ok kValueTypeForSeek) as Hseek by by right.
  destruct (mkLookupKey_parts u1 s1) as (-> & -> & ->); [lia|].
  destruct (InternalKey_parts u1 s1 t1 Hs1 Ht1) as (U1 & T1 & Z1).
  destruct (InternalKey_parts u2 s2 t2 Hs2 Ht2) as (U2 & T2 & Z2).
  destruct (InternalKey_parts u1 s2 t2 Hs2 Ht2) as (U3 & T3 & Z3).
  destruct (InternalKey_parts u1 s1 kValueTypeForSeek Hs1 Hseek) as (U4 & T4 & Z4).
  assert (0 ≤ t1 ≤ 1 ∧ 0 ≤ t2 ≤ 1) as [? ?] by (destruct Ht1, Ht2; subst; done).
  splits.
  - rewrite Internal_Compare_lt, U1, U2, T1, T2. pose proof (Compare_eq u1 u2 V1 V2). naive_solver lia.
  - pose proof (Internal_Compare_gt (InternalKey u1 s1 kValueTypeForSeek) (InternalKey u1 s2 t2)) as Hgt.
    rewrite U3, U4, T3, T4, (Compare_refl u1 V1) in Hgt. unfold kValueTypeForSeek, kTypeValue in *. lia.
  - done.
  - rewrite zlen_app, Z4. pose proof (EncodeVarint32_bounds (zlen u1 + 8)). unfold lookup_needed. lia.
Qed.

Lemma InternalKey_correct_witness :
  let u := str "user" in
  ParseInternalKey (InternalKey u 7 1) = Some {| user_key := u; sequence := 7; type := 1 |} ∧
  (Internal_Compare (user_comparator_ := BytewiseComparator) (InternalKey u 7 1) (InternalKey u 5 0) < 0 ↔
    Slice_compare u u < 0 ∨ u = u ∧ (5 < 7 ∨ 7 = 5 ∧ 0 < 1)) ∧
  (Internal_Compare (user_comparator_ := BytewiseComparator)
     (internal_key (mkLookupKey u 7)) (InternalKey u 5 0) ≤ 0 ↔ 5 ≤ 7) ∧
  LookupKey_user_key (mkLookupKey u 7) = u ∧
  zlen (memtable_key (mkLookupKey u 7)) ≤ lookup_needed u.
Proof.
  cbn zeta. apply (InternalKey_correct (CL := BytewiseComparator_laws) (str "user") 7 1 (str "user") 5 0);
    try exact I; try (by vm_compute); [by right|by left].
Defined.

(** If the comparator of user keys meets the contract of [Comparator], so
    does the comparator of internal keys on all strings that hold a trailer:
    it is a total order whose zero is equality, its separators lie in
    [start, limit), its successors are not smaller than the key, and both are
    valid internal keys that are no longer than the key they replace. *)
Theorem InternalKeyComparator_correct (C : Comparator) (V : bytes → Prop) (CL : ComparatorLaws C V) :
  ComparatorLaws InternalKeyComparator (ikey_valid (V := V)) ∧
  ∀ start limit, 8 ≤ zlen start →
    zlen (Internal_FindShortestSeparator start limit) ≤ zlen start ∧
    zlen (Internal_FindShortSuccessor start) ≤ zlen start.
Proof.
  split; [apply _|]. intros start limit Hs.
  assert (zlen (ExtractUserKey start) = zlen start - 8) as Hz by (apply zlen_ztake; lia).
  unfold Internal_FindShortestSeparator, Internal_FindShortSuccessor, PutFixed64.
  split; (case_decide; [rewrite zlen_app, zlen_EncodeFixed64|]; lia).
Qed.

Lemma InternalKeyComparator_correct_witness :
  ComparatorLaws (InternalKeyComparator (user_comparator_ := BytewiseComparator)) (ikey_valid (V := any_key)) ∧
  ∀ start limit, 8 ≤ zlen start →
    zlen (Internal_FindShortestSeparator start limit) ≤ zlen start ∧
    zlen (Internal_FindShortSuccessor start) ≤ zlen start.
Proof. apply (InternalKeyComparator_correct BytewiseComparator any_key BytewiseComparator_laws). Defined.
