(* ===== verification/Random.v ===== *)
(** The pseudo-random generator of [util/random.h], which chooses the heights
    of skip list nodes. *)
From S2P Require Import Prelude.

(** [seed_] is the whole state. *)
Definition Random_init (s : Z) : Z :=
  let seed := Z.land s 0x7fffffff in
  if decide (seed = 0 ∨ seed = 2147483647) then 1 else seed.

Definition Random_Next (seed : Z) : Z :=
  let M := 2147483647 in
  let A := 16807 in
  let product := u64 (seed * A) in
  let seed := u32 (Z.shiftr product 31 + Z.land product M) in
  if decide (seed > M) then u32 (seed - M) else seed.

Definition Uniform (n seed : Z) : Z * Z := let s := Random_Next seed in (s mod n, s).

Definition OneIn (n seed : Z) : bool * Z :=
  let s := Random_Next seed in (bool_decide (s mod n = 0), s).

Definition Skewed (max_log seed : Z) : Z * Z :=
  let '(b, seed) := Uniform (max_log + 1) seed in Uniform (Z.shiftl 1 b) seed.

(** The seeds the generator never leaves. *)
Definition good_seed (s : Z) : Prop := 1 ≤ s < 2147483647.

Lemma Random_init_good s : good_seed (Random_init s).
Proof.
  unfold Random_init, good_seed. change 0x7fffffff with (2 ^ 31 - 1).
  rewrite land_ones_mod by lia. case_decide; word_solve.
Qed.

Lemma Random_Next_eq s :
  good_seed s → Random_Next s = (s * 16807) mod 2147483647 ∧ good_seed (Random_Next s).
Proof.
  intros Hs. unfold good_seed in *.
  assert (Random_Next s = (s * 16807) mod 2147483647) as E.
  { unfold Random_Next. cbn zeta. rewrite (wrap_small 64) by word_solve.
    rewrite (land_ones_mod _ 31 ltac:(lia) : Z.land _ 2147483647 = _), shiftr_div by lia.
    set (p := s * 16807).
    assert (0 ≤ p / 2 ^ 31 ≤ 16807) as Hq by (subst p; word_solve).
    pose proof (Z.mod_pos_bound p (2 ^ 31) ltac:(lia)) as Hr. change (2 ^ 31) with 2147483648 in *.
    assert (p = 2147483648 * (p / 2147483648) + p mod 2147483648) as Hp by (apply Z.div_mod; lia).
    assert (p mod 2147483647 ≠ 0) as Hnz.
    { intros H. apply Z.mod_divide in H; [|lia]. subst p. rewrite Z.mul_comm in H.
      apply Z.gauss in H; [|reflexivity]. apply Z.divide_pos_le in H; lia. }
    set (q := p / 2147483648) in *. set (r := p mod 2147483648) in *.
    rewrite (wrap_small 32 (q + r)) by (unfold in_w; change (2 ^ 32) with 4294967296; lia).
    case_decide.
    - rewrite wrap_small by (unfold in_w; change (2 ^ 32) with 4294967296; lia).
      apply (Z.mod_unique _ _ (q + 1)); lia.
    - destruct (decide (q + r = 2147483647)) as [Heq|].
      + exfalso. apply Hnz. rewrite Hp. apply Z.mod_divide; [lia|]. exists (q + 1). lia.
      + apply (Z.mod_unique _ _ q); lia. }
  split; [exact E|]. rewrite E.
  pose proof (Z.mod_pos_bound (s * 16807) 2147483647 ltac:(lia)).
  assert ((s * 16807) mod 2147483647 ≠ 0); [|lia].
  intros H0. apply Z.mod_divide in H0; [|lia]. rewrite Z.mul_comm in H0.
  apply Z.gauss in H0; [|reflexivity]. apply Z.divide_pos_le in H0; lia.
Qed.

(** The generator is the Lehmer generator it is meant to be: the division
    by 2^31 - 1 is replaced by shifts and an addition without changing the
    result, and no seed leads to the fixed points 0 and 2^31 - 1. *)
Theorem Random_Next_lehmer s :
  good_seed s → Random_Next s = (s * 16807) mod 2147483647 ∧ good_seed (Random_Next s).
Proof. apply Random_Next_eq. Qed.

Lemma Random_Next_lehmer_witness :
  Random_Next (Random_init 0xdeadbeef) = (Random_init 0xdeadbeef * 16807) mod 2147483647 ∧
  good_seed (Random_Next (Random_init 0xdeadbeef)).
Proof. apply Random_Next_lehmer. by vm_compute. Defined.
