(* ===== verification/Arena.v ===== *)
(** The arena allocator of [util/arena.h] and [util/arena.cc], from which the
    memtable takes its entries and nodes.

    Addresses are integers.  [new char[n]] is the parameter [new_block]: it
    chooses the base of a block given the blocks that are live. *)
From S2P Require Import Prelude.

(** A region of memory: base and size. *)
Definition region : Type := Z * Z.

Definition disjoint_regions (r s : region) : Prop := r.1 + r.2 ≤ s.1 ∨ s.1 + s.2 ≤ r.1.
Definition inside (r s : region) : Prop := s.1 ≤ r.1 ∧ r.1 + r.2 ≤ s.1 + s.2.

(** What [operator new[]] guarantees: memory that is not in use, aligned for any
    object; address 0 is never used. *)
Class BlockAllocator := { new_block : list region → Z → Z }.

Class BlockAllocatorLaws (A : BlockAllocator) : Prop := {
  new_block_aligned blocks n : new_block blocks n mod 8 = 0;
  new_block_disjoint blocks n b :
    0 < n → b ∈ blocks → disjoint_regions (new_block blocks n, n) b;
}.

Definition kBlockSize : Z := 4096.

Record Arena := {
  alloc_ptr_ : Z;
  alloc_bytes_remaining_ : Z;
  blocks_ : list region;
  blocks_memory_ : Z;
}.

Definition new_Arena : Arena :=
  {| alloc_ptr_ := 0; alloc_bytes_remaining_ := 0; blocks_ := []; blocks_memory_ := 0 |}.

(** [blocks_.capacity()] is up to the vector. *)
Definition MemoryUsage (capacity : list region → Z) (a : Arena) : Z :=
  usize (blocks_memory_ a + capacity (blocks_ a) * 4).

Section Arena.
Context {A : BlockAllocator}.

Definition AllocateNewBlock (a : Arena) (block_bytes : Z) : Z * Arena :=
  let result := new_block (blocks_ a) block_bytes in
  (result,
   {| alloc_ptr_ := alloc_ptr_ a; alloc_bytes_remaining_ := alloc_bytes_remaining_ a;
      blocks_ := blocks_ a ++ [(result, block_bytes)];
      blocks_memory_ := usize (blocks_memory_ a + block_bytes) |}).

(** Take [needed] bytes from the current block, the first [slop] of them
    padding. *)
Definition take_bytes (a : Arena) (slop needed : Z) : Z * Arena :=
  (alloc_ptr_ a + slop,
   {| alloc_ptr_ := alloc_ptr_ a + needed;
      alloc_bytes_remaining_ := alloc_bytes_remaining_ a - needed;
      blocks_ := blocks_ a; blocks_memory_ := blocks_memory_ a |}).

Definition AllocateFallback (a : Arena) (bytes : Z) : Z * Arena :=
  if decide (bytes > kBlockSize / 4) then AllocateNewBlock a bytes
  else
    let '(result, a) := AllocateNewBlock a kBlockSize in
    take_bytes {| alloc_ptr_ := result; alloc_bytes_remaining_ := kBlockSize;
                  blocks_ := blocks_ a; blocks_memory_ := blocks_memory_ a |} 0 bytes.

Definition Allocate (a : Arena) (bytes : Z) : Z * Arena :=
  if decide (bytes ≤ alloc_bytes_remaining_ a) then take_bytes a 0 bytes
  else AllocateFallback a bytes.

Definition AllocateAligned (a : Arena) (bytes : Z) : Z * Arena :=
  let align := 8 in
  let current_mod := Z.land (alloc_ptr_ a) (align - 1) in
  let slop := if decide (current_mod = 0) then 0 else align - current_mod in
  let needed := usize (bytes + slop) in
  if decide (needed ≤ alloc_bytes_remaining_ a) then take_bytes a slop needed
  else AllocateFallback a bytes.

(** A sequence of requests: whether the memory must be aligned, and its size. *)
Fixpoint allocate_all (a : Arena) (requests : list (bool * Z)) : list region * Arena :=
  match requests with
  | [] => ([], a)
  | (aligned, bytes) :: requests =>
      let '(p, a) := if (aligned : bool) then AllocateAligned a bytes else Allocate a bytes in
      let '(rs, a) := allocate_all a requests in ((p, bytes) :: rs, a)
  end.
End Arena.

(** ** The invariant *)

Section Proof.
Context {A : BlockAllocator} {AL : BlockAllocatorLaws A}.

(** The regions handed out and the free part of the current block are disjoint
    and lie in the blocks. *)
Definition free (a : Arena) : region := (alloc_ptr_ a, alloc_bytes_remaining_ a).

Definition arena_inv (a : Arena) (used : list region) : Prop :=
  0 ≤ alloc_bytes_remaining_ a ∧
  (0 < alloc_bytes_remaining_ a → ∃ b, b ∈ blocks_ a ∧ inside (free a) b) ∧
  Forall (λ r, ∃ b, b ∈ blocks_ a ∧ inside r b) used ∧
  (0 < alloc_bytes_remaining_ a → Forall (λ r, disjoint_regions r (free a)) used) ∧
  ForallOrdPairs disjoint_regions used.

Lemma disjoint_sym r s : disjoint_regions r s → disjoint_regions s r.
Proof. unfold disjoint_regions. tauto. Qed.

Lemma disjoint_inside r s t : 0 ≤ r.2 → disjoint_regions s t → inside r s → disjoint_regions r t.
Proof. unfold disjoint_regions, inside. lia. Qed.

Lemma take_inv a used slop bytes :
  arena_inv a used → 0 ≤ slop → 0 < bytes → slop + bytes ≤ alloc_bytes_remaining_ a →
  let '(p, a') := take_bytes a slop (bytes + slop) in
  p = alloc_ptr_ a + slop ∧ arena_inv a' ((p, bytes) :: used).
Proof.
  intros (H1 & H2 & H3 & H4 & H5) Hs Hb Hfit. cbn. split; [done|].
  destruct H2 as (b & Hb1 & Hb2); [lia|]. unfold arena_inv, free, inside, disjoint_regions in *.
  cbn [alloc_ptr_ alloc_bytes_remaining_ blocks_ fst snd] in *.
  split; [lia|]. split; [intros _; exists b; split; [done|lia]|].
  split; [constructor; [exists b; split; [done|cbn; lia]|done]|].
  specialize (H4 ltac:(lia)). split.
  - intros _. constructor; [cbn; lia|]. eapply Forall_impl; [|exact H4]. cbn. intros r Hr. lia.
  - constructor; [|done]. eapply Forall_impl; [|exact H4]. cbn. intros r Hr. lia.
Qed.

(** A block of its own. *)
Lemma new_block_inv a used n :
  arena_inv a used → 0 < n →
  Forall (λ r, disjoint_regions r (new_block (blocks_ a) n, n)) used ∧
  Forall (λ r, ∃ b, b ∈ blocks_ a ++ [(new_block (blocks_ a) n, n)] ∧ inside r b) used.
Proof.
  intros (_ & _ & H3 & _ & _) Hn. split; (eapply Forall_impl; [|exact H3]); cbn.
  - intros r (b & Hb & Hin). pose proof (new_block_disjoint (blocks_ a) n b Hn Hb) as Hd.
    unfold disjoint_regions, inside in *. cbn in *. lia.
  - intros r (b & Hb & Hin). exists b. split; [apply elem_of_app; by left|done].
Qed.

Lemma AllocateFallback_inv a used bytes :
  arena_inv a used → 0 < bytes →
  let '(p, a') := AllocateFallback a bytes in p mod 8 = 0 ∧ arena_inv a' ((p, bytes) :: used).
Proof.
  intros Hinv Hb. unfold AllocateFallback, AllocateNewBlock. assert (kBlockSize = 4096) as HK by done.
  assert ((new_block (blocks_ a) kBlockSize, kBlockSize) ∈
    blocks_ a ++ [(new_block (blocks_ a) kBlockSize, kBlockSize)]) as Hin
    by (apply elem_of_app; right; by apply list_elem_of_singleton).
  case_decide as Hbig.
  - split; [apply new_block_aligned|]. destruct (new_block_inv a used bytes Hinv Hb) as [N1 N2].
    pose proof Hinv as (H1 & H2 & H3 & H4 & H5). unfold arena_inv, free in *.
    cbn [alloc_ptr_ alloc_bytes_remaining_ blocks_] in *.
    split; [done|]. split.
    { intros Hpos. destruct (H2 Hpos) as (b & ? & ?). exists b. split; [apply elem_of_app; by left|done]. }
    split.
    { constructor; [|done]. eexists. split; [apply elem_of_app; right; by apply list_elem_of_singleton|].
      unfold inside. cbn. lia. }
    split.
    + intros Hpos. constructor; [|by apply H4]. destruct (H2 Hpos) as (b & Hb1 & Hb2).
      pose proof (new_block_disjoint (blocks_ a) bytes b Hb Hb1) as Hd.
      unfold disjoint_regions, inside in *. cbn in *. lia.
    + constructor; [|done]. eapply Forall_impl; [|exact N1]. intros r. apply disjoint_sym.
  - destruct (new_block_inv a used kBlockSize Hinv) as [N1 N2]; [lia|].
    set (a1 := {| alloc_ptr_ := _; alloc_bytes_remaining_ := _; blocks_ := _; blocks_memory_ := _ |}).
    assert (arena_inv a1 used) as Hinv1.
    { pose proof Hinv as (H1 & H2 & H3 & H4 & H5). unfold arena_inv, free. subst a1.
      cbn [alloc_ptr_ alloc_bytes_remaining_ blocks_] in *. split; [lia|].
      split; [intros _; eexists; split; [exact Hin|unfold inside; cbn; lia]|]. done. }
    pose proof (take_inv a1 used 0 bytes Hinv1 ltac:(lia) Hb) as Ht.
    rewrite Z.add_0_r in Ht. cbn [a1 alloc_bytes_remaining_] in Ht. specialize (Ht ltac:(word_solve)).
    destruct (take_bytes a1 0 bytes) as [p a2] eqn:E. cbn [take_bytes a1] in E. injection E as <- <-.
    cbn [a1 alloc_ptr_] in Ht. destruct Ht as [_ Ht]. cbn [take_bytes].
    split; [rewrite Z.add_0_r; apply new_block_aligned|exact Ht].
Qed.

Lemma Allocate_inv a used bytes :
  arena_inv a used → 0 < bytes →
  let '(p, a') := Allocate a bytes in arena_inv a' ((p, bytes) :: used).
Proof.
  intros Hinv Hb. unfold Allocate. case_decide as Hfit.
  - pose proof (take_inv a used 0 bytes Hinv ltac:(lia) Hb ltac:(lia)) as Ht.
    rewrite Z.add_0_r in Ht. destruct (take_bytes a 0 bytes). apply Ht.
  - pose proof (AllocateFallback_inv a used bytes Hinv Hb) as Ht.
    destruct (AllocateFallback a bytes). apply Ht.
Qed.

Lemma AllocateAligned_inv a used bytes :
  arena_inv a used → 0 < bytes < 2 ^ 31 →
  let '(p, a') := AllocateAligned a bytes in p mod 8 = 0 ∧ arena_inv a' ((p, bytes) :: used).
Proof.
  intros Hinv Hb. unfold AllocateAligned. cbn zeta. change (8 - 1) with (2 ^ 3 - 1).
  rewrite land_ones_mod by lia. change (2 ^ 3) with 8.
  set (slop := if decide (alloc_ptr_ a mod 8 = 0) then 0 else 8 - alloc_ptr_ a mod 8).
  pose proof (Z.mod_pos_bound (alloc_ptr_ a) 8 ltac:(lia)) as Hm.
  assert (0 ≤ slop < 8 ∧ (alloc_ptr_ a + slop) mod 8 = 0) as [Hslop Hal].
  { subst slop. case_decide; [split; [lia|by rewrite Z.add_0_r]|]. split; [lia|word_solve]. }
  rewrite wrap_small by word_solve. case_decide as Hfit.
  - pose proof (take_inv a used slop bytes Hinv ltac:(lia) ltac:(lia) ltac:(lia)) as Ht.
    destruct (take_bytes a slop (bytes + slop)). destruct Ht as [-> Ht]. done.
  - apply AllocateFallback_inv; [done|lia].
Qed.

(** The requests served so far, the last first. *)
Lemma allocate_all_inv a used requests :
  arena_inv a used → Forall (λ r, 0 < r.2 < 2 ^ 31) requests →
  let '(rs, a') := allocate_all a requests in
  arena_inv a' (rev rs ++ used) ∧
  Forall2 (λ r q, r.2 = q.2 ∧ (q.1 = true → r.1 mod 8 = 0)) rs requests.
Proof.
  intros Hinv Hreq. revert a used Hinv. induction Hreq as [|[aligned bytes] requests Hb Hreq IH]; intros a used Hinv.
  { cbn. done. }
  cbn in Hb. cbn [allocate_all].
  assert (let '(p, a') := if aligned then AllocateAligned a bytes else Allocate a bytes in
    (aligned = true → p mod 8 = 0) ∧ arena_inv a' ((p, bytes) :: used)) as Hstep.
  { destruct aligned.
    - pose proof (AllocateAligned_inv a used bytes Hinv Hb) as H. destruct (AllocateAligned a bytes). naive_solver.
    - pose proof (Allocate_inv a used bytes Hinv ltac:(lia)) as H. by destruct (Allocate a bytes). }
  destruct (if aligned then _ else _) as [p a1]. destruct Hstep as [Hal Hinv1].
  specialize (IH a1 ((p, bytes) :: used) Hinv1). destruct (allocate_all a1 requests) as [rs a2].
  destruct IH as [IH1 IH2]. split; [|by constructor].
  cbn [rev]. by rewrite <- app_assoc.
Qed.

Lemma new_Arena_inv : arena_inv new_Arena [].
Proof. unfold arena_inv. cbn. splits; try done; try constructor; lia. Qed.
End Proof.

(** C16: the arena never hands out the same memory twice. For any sequence of
    requests from a new arena the regions returned are pairwise disjoint, each
    has the size asked for and lies inside a block the arena owns, and those of
    [AllocateAligned] are aligned to eight bytes. *)
Theorem Arena_disjoint {A : BlockAllocator} {AL : BlockAllocatorLaws A} requests :
  Forall (λ r, 0 < r.2 < 2 ^ 31) requests →
  let '(rs, a) := allocate_all new_Arena requests in
  ForallOrdPairs disjoint_regions (rev rs) ∧
  Forall (λ r, ∃ b, b ∈ blocks_ a ∧ inside r b) rs ∧
  Forall2 (λ r q, r.2 = q.2 ∧ (q.1 = true → r.1 mod 8 = 0)) rs requests.
Proof.
  intros Hreq. pose proof (allocate_all_inv new_Arena [] requests new_Arena_inv Hreq) as H.
  destruct (allocate_all new_Arena requests) as [rs a]. destruct H as [(_ & _ & H3 & _ & H5) H].
  rewrite app_nil_r in *. splits; [done| |done].
  rewrite <- (rev_involutive rs). by apply Forall_rev.
Qed.

(** An allocator that puts every block behind the others. *)
Definition BumpAllocator : BlockAllocator :=
  {| new_block blocks _ := 8 * foldr (λ b m, Z.max (b.1 + b.2) m) 1 blocks |}.

Lemma BumpAllocator_laws : BlockAllocatorLaws BumpAllocator.
Proof.
  split; cbn; intros blocks n.
  - rewrite Z.mul_comm. apply Z.mod_mul. lia.
  - intros b Hn Hb. unfold disjoint_regions. right. cbn.
    assert (1 ≤ foldr (λ b m, Z.max (b.1 + b.2) m) 1 blocks ∧
      b.1 + b.2 ≤ foldr (λ b m, Z.max (b.1 + b.2) m) 1 blocks); [|lia].
    induction Hb as [c blocks|b c blocks Hb IH]; cbn; [|lia]. split; [|lia].
    assert (1 ≤ foldr (λ b m, Z.max (b.1 + b.2) m) 1 blocks); [|lia].
    clear. induction blocks; cbn; lia.
Qed.

Lemma Arena_disjoint_witness :
  let '(rs, a) := allocate_all (A := BumpAllocator) new_Arena [(false, 5); (true, 16); (false, 5000); (true, 4090)] in
  ForallOrdPairs disjoint_regions (rev rs) ∧
  Forall (λ r, ∃ b, b ∈ blocks_ a ∧ inside r b) rs ∧
  Forall2 (λ r q, r.2 = q.2 ∧ (q.1 = true → r.1 mod 8 = 0)) rs
    [(false, 5); (true, 16); (false, 5000); (true, 4090)].
Proof. apply (Arena_disjoint (AL := BumpAllocator_laws)). repeat constructor; by vm_compute. Defined.
