(* ===== verification/SkipList.v ===== *)
(** The skip list of [db/skiplist.h].

    Nodes are never freed, so a pointer to a node is its index in the list of
    nodes that were made; node 0 is [head_].  A link is [None] for NULL.  An
    operation is [None] when it would follow a pointer that is no node, use a
    level a node does not have, or run longer than its bound. *)
From Stdlib Require Import Sorting.Sorted.
From S2P Require Import Prelude SortedLists Random.

Definition kMaxHeight : nat := 12.
Definition kBranching : Z := 4.

(** ** Orders on keys *)

(** What the list asks of [Comparator]: a total preorder. *)
Class OrderLaws {K} (compare : K → K → Z) (V : K → Prop) : Prop := {
  ol_flip a b : V a → V b → compare a b < 0 ↔ 0 < compare b a;
  ol_trans a b c : V a → V b → V c → compare a b ≤ 0 → compare b c ≤ 0 → compare a c ≤ 0;
}.

Section OrderLemmas.
Context {K : Type} {compare : K → K → Z} {V : K → Prop} {OL : OrderLaws compare V}.

Lemma ol_le_lt a b c : V a → V b → V c → compare a b ≤ 0 → compare b c < 0 → compare a c < 0.
Proof.
  intros Ha Hb Hc H1 H2. pose proof (ol_flip a c Ha Hc). pose proof (ol_flip b c Hb Hc).
  pose proof (ol_trans c a b Hc Ha Hb). lia.
Qed.

Lemma ol_lt_le a b c : V a → V b → V c → compare a b < 0 → compare b c ≤ 0 → compare a c < 0.
Proof.
  intros Ha Hb Hc H1 H2. pose proof (ol_flip a c Ha Hc). pose proof (ol_flip a b Ha Hb).
  pose proof (ol_trans b c a Hb Hc Ha). lia.
Qed.

Lemma ol_irrefl a : V a → ¬ compare a a < 0.
Proof. intros Ha H. pose proof (ol_flip a a Ha Ha). lia. Qed.
End OrderLemmas.

(** ** The list *)

Section SkipList.
Context {Key : Type}.
Variable compare_ : Key → Key → Z.
(** "any key will do" for the head. *)
Variable head_key : Key.

Record Node := { key : Key; next_ : list (option nat) }.

Record SkipList := { nodes : list Node; max_height_ : nat; rnd_ : Z }.

Definition Next (ns : list Node) (x level : nat) : option (option nat) :=
  n ← ns !! x; next_ n !! level.

Definition SetNext (ns : list Node) (x level : nat) (v : option nat) : option (list Node) :=
  n ← ns !! x;
  _ ← next_ n !! level;
  Some (<[x := {| key := key n; next_ := <[level := v]> (next_ n) |}]> ns).

(** A node from the arena; its links are not initialised, each is set before
    the node is reachable at that level. *)
Definition NewNode (ns : list Node) (k : Key) (height : nat) : nat * list Node :=
  (length ns, ns ++ [{| key := k; next_ := replicate height None |}]).

Definition new_SkipList : SkipList :=
  {| nodes := [{| key := head_key; next_ := replicate kMaxHeight None |}];
     max_height_ := 1; rnd_ := Random_init 0xdeadbeef |}.

(** The [while] loop stops at [kMaxHeight], so that many turns are enough. *)
Fixpoint RandomHeight_loop (fuel : nat) (height : nat) (rnd : Z) : nat * Z :=
  match fuel with
  | O => (height, rnd)
  | S fuel =>
      if decide (height < kMaxHeight)%nat then
        let rnd := Random_Next rnd in
        if decide (rnd mod kBranching = 0) then RandomHeight_loop fuel (S height) rnd
        else (height, rnd)
      else (height, rnd)
  end.

Definition RandomHeight (rnd : Z) : nat * Z := RandomHeight_loop kMaxHeight 1 rnd.

(** [(n != NULL) && (compare_(n->key, key) < 0)] *)
Definition KeyIsAfterNode (ns : list Node) (k : Key) (n : option nat) : option bool :=
  match n with
  | None => Some false
  | Some n => n ← ns !! n; Some (bool_decide (compare_ (key n) k < 0))
  end.

(** [prev] is the array the caller passes; a caller that passes NULL ignores
    it.  Every turn moves right or down. *)
Fixpoint FindGreaterOrEqual_loop (fuel : nat) (ns : list Node) (k : Key) (x level : nat)
    (prev : list (option nat)) : option (option nat * list (option nat)) :=
  match fuel with
  | O => None
  | S fuel =>
      next ← Next ns x level;
      after ← KeyIsAfterNode ns k next;
      match next with
      | Some y =>
          if (after : bool) then FindGreaterOrEqual_loop fuel ns k y level prev
          else
            let prev := <[level := Some x]> prev in
            match level with
            | O => Some (next, prev)
            | S level => FindGreaterOrEqual_loop fuel ns k x level prev
            end
      | None =>
          let prev := <[level := Some x]> prev in
          match level with
          | O => Some (next, prev)
          | S level => FindGreaterOrEqual_loop fuel ns k x level prev
          end
      end
  end.

Definition search_fuel (ns : list Node) : nat := length ns + kMaxHeight.

Definition FindGreaterOrEqual (ns : list Node) (height : nat) (k : Key)
    : option (option nat * list (option nat)) :=
  FindGreaterOrEqual_loop (search_fuel ns) ns k 0 (height - 1) (replicate kMaxHeight None).

Fixpoint FindLessThan_loop (fuel : nat) (ns : list Node) (k : Key) (x level : nat) : option nat :=
  match fuel with
  | O => None
  | S fuel =>
      next ← Next ns x level;
      stop ← (match next with
              | None => Some true
              | Some n => n ← ns !! n; Some (bool_decide (compare_ (key n) k >= 0))
              end);
      match next, (stop : bool) with
      | Some y, false => FindLessThan_loop fuel ns k y level
      | _, _ => match level with O => Some x | S level => FindLessThan_loop fuel ns k x level end
      end
  end.

Definition FindLessThan (ns : list Node) (height : nat) (k : Key) : option nat :=
  FindLessThan_loop (search_fuel ns) ns k 0 (height - 1).

Fixpoint FindLast_loop (fuel : nat) (ns : list Node) (x level : nat) : option nat :=
  match fuel with
  | O => None
  | S fuel =>
      next ← Next ns x level;
      match next with
      | None => match level with O => Some x | S level => FindLast_loop fuel ns x level end
      | Some y => FindLast_loop fuel ns y level
      end
  end.

Definition FindLast (ns : list Node) (height : nat) : option nat :=
  FindLast_loop (search_fuel ns) ns 0 (height - 1).

(** The loop that links the new node [x], with every state of the memory it
    goes through: two stores per level. *)
Fixpoint link_loop (ns : list Node) (x : nat) (prev : list (option nat)) (levels : list nat)
    : option (list (list Node)) :=
  match levels with
  | [] => Some []
  | i :: levels =>
      p ← prev !! i; p ← p;
      next ← Next ns p i;
      ns1 ← SetNext ns x i next;
      ns2 ← SetNext ns1 p i (Some x);
      states ← link_loop ns2 x prev levels;
      Some (ns1 :: ns2 :: states)
  end.

(** [Insert]: the states of the memory a concurrent reader may see, the last
    being the result. The first state has the new height. *)
Definition Insert_states (l : SkipList) (k : Key) : option (list (list Node) * SkipList) :=
  '(_, prev) ← FindGreaterOrEqual (nodes l) (max_height_ l) k;
  let '(height, rnd) := RandomHeight (rnd_ l) in
  let prev :=
    if decide (max_height_ l < height)%nat then
      foldl (λ prev i, <[i := Some 0%nat]> prev) prev (seq (max_height_ l) (height - max_height_ l))
    else prev in
  let max_height := if decide (max_height_ l < height)%nat then height else max_height_ l in
  let '(x, ns) := NewNode (nodes l) k height in
  states ← link_loop ns x prev (seq 0 height);
  Some (ns :: states,
        {| nodes := default ns (list.last states); max_height_ := max_height; rnd_ := rnd |}).

Definition Insert (l : SkipList) (k : Key) : option SkipList :=
  '(_, l) ← Insert_states l k; Some l.

Definition Equal (a b : Key) : bool := bool_decide (compare_ a b = 0).

Definition Contains (l : SkipList) (k : Key) : option bool :=
  '(x, _) ← FindGreaterOrEqual (nodes l) (max_height_ l) k;
  match x with
  | None => Some false
  | Some x => n ← nodes l !! x; Some (Equal k (key n))
  end.

(** A reader that runs beside a writer: every load of a link sees the memory
    of that moment, [sched] lists them.  [inl] is a search that is not done; one
    that is has left over a part of [sched]. *)
Fixpoint racy_search (k : Key) (sched : list (list Node)) (x level : nat)
    : option (nat * nat + option nat * list (list Node)) :=
  match sched with
  | [] => Some (inl (x, level))
  | ns :: sched =>
      next ← Next ns x level;
      after ← KeyIsAfterNode ns k next;
      match next with
      | Some y =>
          if (after : bool) then racy_search k sched y level
          else match level with
               | O => Some (inr (next, sched))
               | S level => racy_search k sched x level
               end
      | None =>
          match level with
          | O => Some (inr (next, sched))
          | S level => racy_search k sched x level
          end
      end
  end.

(** Several insertions, each with all its states of the memory. *)
Fixpoint Inserts_states (l : SkipList) (ks : list Key) : option (list (list (list Node)) * SkipList) :=
  match ks with
  | [] => Some ([], l)
  | k :: ks =>
      '(states, l) ← Insert_states l k;
      '(runs, l) ← Inserts_states l ks;
      Some (states :: runs, l)
  end.

(** ** Iterators *)

(** [node_]; [None] is not valid. *)
Definition Iterator : Type := option nat.

Definition iter_Valid (it : Iterator) : bool := bool_decide (is_Some it).
Definition iter_key (l : SkipList) (it : Iterator) : option Key :=
  x ← it; n ← nodes l !! x; Some (key n).
Definition iter_Next (l : SkipList) (it : Iterator) : option Iterator :=
  x ← it; Next (nodes l) x 0.
Definition not_head (x : nat) : Iterator := if decide (x = 0)%nat then None else Some x.
Definition iter_Prev (l : SkipList) (it : Iterator) : option Iterator :=
  k ← iter_key l it;
  x ← FindLessThan (nodes l) (max_height_ l) k; Some (not_head x).
Definition iter_Seek (l : SkipList) (k : Key) : option Iterator :=
  '(x, _) ← FindGreaterOrEqual (nodes l) (max_height_ l) k; Some x.
Definition iter_SeekToFirst (l : SkipList) : option Iterator := Next (nodes l) 0 0.
Definition iter_SeekToLast (l : SkipList) : option Iterator :=
  x ← FindLast (nodes l) (max_height_ l); Some (not_head x).

End SkipList.
Arguments Node : clear implicits.
Arguments SkipList : clear implicits.

(** ** Representation *)

Section Repr.
Context {Key : Type}.
Variable compare_ : Key → Key → Z.
Variable V : Key → Prop.

Definition key_of (ns : list (Node Key)) (x : nat) : option Key := key <$> ns !! x.

(** The order of the nodes: the head is before every node. *)
Definition node_lt (ns : list (Node Key)) (x y : nat) : Prop :=
  y ≠ 0%nat ∧ ∃ b, key_of ns y = Some b ∧ V b ∧
    (x = 0%nat ∨ ∃ a, key_of ns x = Some a ∧ V a ∧ compare_ a b < 0).

(** The nodes [h] are those met along the links of a level, up to NULL. *)
Fixpoint path (ns : list (Node Key)) (level : nat) (h : list nat) : Prop :=
  match h with
  | [] => False
  | [x] => Next ns x level = Some None
  | x :: (y :: _) as h => Next ns x level = Some (Some y) ∧ path ns level h
  end.

(** A memory that every reader can work with: [H level] are the nodes of a
    level, [head_] first; each level is a sublist of the one below, and level
    0 is in strict order. *)
Record repr (ns : list (Node Key)) (H : nat → list nat) : Prop := {
  repr_path l : (l < kMaxHeight)%nat → path ns l (H l);
  repr_head l : (l < kMaxHeight)%nat → head (H l) = Some 0%nat;
  repr_sub l : (S l < kMaxHeight)%nat → H (S l) `sublist_of` H l;
  repr_sorted : StronglySorted (node_lt ns) (H 0%nat);
}.

(** The keys of the list, in order. *)
Definition keys (ns : list (Node Key)) (H : nat → list nat) : list Key :=
  omap (key_of ns) (tail (H 0%nat)).

(** A list at rest: the nodes [ids] after the head hold the keys [ks]. *)
Definition Holds (l : SkipList Key) (ids : list nat) (ks : list Key) : Prop :=
  ∃ H, repr (nodes l) H ∧ tail (H 0%nat) = ids ∧ keys (nodes l) H = ks ∧
    (1 ≤ max_height_ l ≤ kMaxHeight)%nat ∧
    (∀ i, (max_height_ l ≤ i < kMaxHeight)%nat → H i = [0%nat]).

(** The nodes before a key. *)
Definition before (ns : list (Node Key)) (k : Key) (x : nat) : bool :=
  bool_decide (x = 0%nat) ||
  match key_of ns x with Some a => bool_decide (compare_ a k < 0) | None => false end.

(** One memory follows another: nodes keep their keys and their levels. *)
Definition grows (s s' : list (Node Key) * (nat → list nat)) : Prop :=
  (∀ z b, key_of s.1 z = Some b → key_of s'.1 z = Some b) ∧
  ∀ l y, (l < kMaxHeight)%nat → y ∈ s.2 l → y ∈ s'.2 l.

(** A sequence of memories that a reader may meet, each with its levels. *)
Definition history (tr : list (list (Node Key) * (nat → list nat))) : Prop :=
  Forall (λ s, repr s.1 s.2) tr ∧ StronglySorted grows tr.

(** Where the state [i] of the memory is in a series of insertions: the first
    [j] ones can be found in it.  All that have done their last store by then
    are among them, and none that has not begun. *)
Definition stores {A} (runs : list (list A)) (c : nat) : nat := length (concat (take c runs)).
Definition inserted {A} (runs : list (list A)) (i j : nat) : Prop :=
  (j ≤ length runs)%nat ∧ (∀ c, (c ≤ length runs)%nat → (stores runs c ≤ i)%nat → (c ≤ j)%nat) ∧
  ∀ c, j = S c → (stores runs c < i)%nat.

(** Where a key belongs in a list of keys. *)
Definition keys_before (ks : list Key) (k : Key) : list Key := filter (λ a, compare_ a k < 0) ks.
Definition keys_from (ks : list Key) (k : Key) : list Key := filter (λ a, ¬ compare_ a k < 0) ks.
Definition insert_key (ks : list Key) (k : Key) : list Key :=
  keys_before ks k ++ k :: keys_from ks k.

(** Keys that can be inserted one after the other: none is there before. *)
Fixpoint insertable (ks ks' : list Key) : Prop :=
  match ks' with
  | [] => True
  | k :: ks' => V k ∧ Forall (λ a, compare_ a k ≠ 0) ks ∧ insertable (insert_key ks k) ks'
  end.

End Repr.
Arguments key_of {Key} ns x.
Arguments path {Key} ns level h.
Arguments keys {Key} ns H.
Arguments grows {Key} s s'.

(** ** Searches *)

Section Search.
Context {Key : Type} {compare_ : Key → Key → Z} {V : Key → Prop} {OL : OrderLaws compare_ V}.
Implicit Types (ns : list (Node Key)) (H : nat → list nat).

Lemma path_suffix ns l a x r : path ns l (a ++ x :: r) → path ns l (x :: r).
Proof.
  induction a as [|b a IH]; [done|]. intros Hp. apply IH.
  destruct a; cbn [app path] in Hp; apply Hp.
Qed.

Lemma path_Next ns l x r : path ns l (x :: r) → Next ns x l = Some (head r).
Proof. destruct r; [done|]. by intros [? _]. Qed.

Lemma path_lookup ns l h x : path ns l h → x ∈ h → is_Some (ns !! x).
Proof.
  intros Hp (a & r & ->)%list_elem_of_split. apply path_suffix, path_Next in Hp.
  unfold Next in Hp. by destruct (ns !! x).
Qed.

Lemma node_lt_trans ns x y z :
  node_lt compare_ V ns x y → node_lt compare_ V ns y z → node_lt compare_ V ns x z.
Proof.
  intros [Hy (b & Eb & Vb & Hx)] [Hz (c & Ec & Vc & [->|(b' & Eb' & _ & Hbc)])]; [done|].
  simplify_eq. split; [done|]. exists c. splits; [done..|].
  destruct Hx as [?|(a & ? & ? & ?)]; [by left|]. right. exists a. splits; [done..|].
  eapply (ol_le_lt (V:=V) a b); [done..| |done]. lia.
Qed.

Lemma node_lt_irrefl ns x : ¬ node_lt compare_ V ns x x.
Proof.
  intros [Hx (b & Eb & Vb & [?|(a & Ea & ? & ?)])]; [done|]. simplify_eq.
  by eapply (ol_irrefl (V:=V)).
Qed.

Lemma repr_sub_le ns H l m :
  repr compare_ V ns H → (l ≤ m)%nat → (m < kMaxHeight)%nat → H m `sublist_of` H l.
Proof.
  intros HR Hlm. induction Hlm as [|m Hlm IH]; [done|]. intros ?.
  etrans; [apply HR; done|]. apply IH. lia.
Qed.

Lemma repr_level_sorted ns H l :
  repr compare_ V ns H → (l < kMaxHeight)%nat → StronglySorted (node_lt compare_ V ns) (H l).
Proof.
  intros HR ?. eapply sorted_sublist; [apply HR|]. apply (repr_sub_le ns); [done|lia|done].
Qed.

Lemma nodes_NoDup ns H : repr compare_ V ns H → NoDup (H 0%nat).
Proof.
  intros HR. pose proof (repr_sorted _ _ _ _ HR) as Hs.
  induction Hs as [|x h _ IH Hx]; constructor; [|done]. intros Hin.
  rewrite list.Forall_forall in Hx. apply Hx in Hin. by apply node_lt_irrefl in Hin.
Qed.

Lemma length_le_of_nodes ns H : repr compare_ V ns H → (length (H 0%nat) ≤ length ns)%nat.
Proof.
  intros HR. rewrite <- (length_seq (length ns) 0). apply submseteq_length, NoDup_submseteq.
  - by apply (nodes_NoDup ns).
  - intros x Hx. apply elem_of_seq. split; [lia|]. apply lookup_lt_is_Some.
    eapply (path_lookup ns 0); [|done]. apply HR. unfold kMaxHeight. lia.
Qed.

(** The three searches of the source: move right while [P] holds of the next
    node, otherwise move down. *)
Fixpoint search (P : nat → bool) (fuel : nat) ns (x level : nat) (prev : list (option nat))
    : option (nat * option nat * list (option nat)) :=
  match fuel with
  | O => None
  | S fuel =>
      next ← Next ns x level;
      match next with
      | Some y =>
          if P y then search P fuel ns y level prev
          else match level with
               | O => Some (x, next, <[0%nat := Some x]> prev)
               | S l => search P fuel ns x l (<[level := Some x]> prev)
               end
      | None =>
          match level with
          | O => Some (x, next, <[0%nat := Some x]> prev)
          | S l => search P fuel ns x l (<[level := Some x]> prev)
          end
      end
  end.

(** The node where a search leaves a level, and the one it did not enter. *)
Definition cut_last (P : nat → bool) (h : list nat) : option nat := list.last (filter P h).
Definition cut_next (P : nat → bool) (h : list nat) : option nat := head (filter (λ x, ¬ P x) h).

Section Cut.
Context (P : nat → bool) (ns : list (Node Key)) (H : nat → list nat).
Hypothesis (HR : repr compare_ V ns H) (P0 : P 0%nat).
Hypothesis (Pdown : ∀ x y, node_lt compare_ V ns x y → P y → P x).

Lemma level_cut l : (l < kMaxHeight)%nat → H l = filter P (H l) ++ filter (λ x, ¬ P x) (H l).
Proof.
  intros. eapply sorted_filter_app; [by eapply repr_level_sorted|]. apply Pdown.
Qed.

(** The next node of one that is before the cut. *)
Lemma cut_step l x :
  (l < kMaxHeight)%nat → x ∈ filter P (H l) →
  ∃ next, Next ns x l = Some next ∧
  match next with
  | Some y => if P y then y ∈ filter P (H l) ∧ node_lt compare_ V ns x y
              else cut_last P (H l) = Some x ∧ cut_next P (H l) = next
  | None => cut_last P (H l) = Some x ∧ cut_next P (H l) = None
  end.
Proof.
  intros Hl Hx. pose proof (repr_path _ _ _ _ HR l Hl) as Hp.
  pose proof (repr_level_sorted ns H l HR Hl) as Hs. unfold cut_last, cut_next.
  pose proof (level_cut l Hl) as Hc. set (b := filter P (H l)) in *.
  set (a := filter (λ x, ¬ P x) (H l)) in *. rewrite Hc in Hp, Hs.
  apply list_elem_of_split in Hx as (b1 & b2 & Hb). rewrite Hb, <- app_assoc in Hp, Hs.
  apply path_suffix, path_Next in Hp. apply sorted_app in Hs as (_ & [_ Hs]%StronglySorted_inv & _).
  eexists; split; [exact Hp|]. rewrite list.Forall_forall in Hs. destruct b2 as [|y b2]; cbn [head app].
  - assert (Hla : list.last b = Some x) by (rewrite Hb; apply last_snoc).
    destruct a as [|y a'] eqn:Ea; [done|]. cbn [head].
    assert (¬ P y) as Hn by (apply (list_elem_of_filter (λ x, ¬ P x) (H l));
      fold a; rewrite Ea; left).
    destruct (P y); [by destruct Hn|done].
  - assert (y ∈ b) as Hy by (rewrite Hb; apply elem_of_app; right; right; left).
    pose proof (proj1 (proj1 (list_elem_of_filter _ _ _) Hy)) as HPy.
    destruct (P y); [|done]. split; [done|]. apply Hs. left.
Qed.

Lemma cut_below l m x :
  (l ≤ m)%nat → (m < kMaxHeight)%nat → x ∈ filter P (H m) → x ∈ filter P (H l).
Proof.
  intros ?? [? ?]%list_elem_of_filter. apply list_elem_of_filter. split; [done|].
  eapply elem_of_sublist; [done|]. by eapply repr_sub_le.
Qed.

(** A node to the right of [x] is among those that follow it. *)
Lemma cut_right x y pre rest :
  filter P (H 0%nat) = pre ++ x :: rest → y ∈ filter P (H 0%nat) →
  node_lt compare_ V ns x y → ∃ r1 r2, rest = r1 ++ y :: r2.
Proof.
  intros E Hy Hxy. apply list_elem_of_split.
  assert (StronglySorted (node_lt compare_ V ns) (pre ++ x :: rest)) as Hs.
  { rewrite <- E. eapply sorted_sublist; [apply HR|]. apply sublist_filter. }
  apply sorted_app in Hs as (_ & _ & Hlt). rewrite E in Hy.
  apply elem_of_app in Hy as [Hy|[->|Hy]%elem_of_cons]; [..|done].
  - exfalso. apply (node_lt_irrefl ns x). apply (node_lt_trans _ _ y); [done|]. apply Hlt; [done|left].
  - by apply node_lt_irrefl in Hxy.
Qed.

Lemma search_spec fuel l x prev pre rest :
  (l < kMaxHeight)%nat → x ∈ filter P (H l) →
  filter P (H 0%nat) = pre ++ x :: rest → (length rest + l < fuel)%nat → (l < length prev)%nat →
  ∃ z prev', search P fuel ns x l prev = Some (z, cut_next P (H 0%nat), prev') ∧
    cut_last P (H 0%nat) = Some z ∧ length prev' = length prev ∧
    (∀ i, (i ≤ l)%nat → prev' !! i = Some (cut_last P (H i))) ∧
    (∀ i, (l < i)%nat → prev' !! i = prev !! i).
Proof.
  revert l x prev pre rest. induction fuel as [|fuel IH]; [lia|]. intros l x prev pre rest Hl Hx E Hf Hp.
  destruct (cut_step l x Hl Hx) as (next & En & Hnext). cbn [search]. rewrite En. cbn [mbind option_bind].
  assert (Hdown : cut_last P (H l) = Some x → cut_next P (H l) = next →
    ∃ z prev', match l with
      | O => Some (x, next, <[0%nat := Some x]> prev)
      | S l' => search P fuel ns x l' (<[l := Some x]> prev)
      end = Some (z, cut_next P (H 0%nat), prev') ∧
    cut_last P (H 0%nat) = Some z ∧ length prev' = length prev ∧
    (∀ i, (i ≤ l)%nat → prev' !! i = Some (cut_last P (H i))) ∧
    (∀ i, (l < i)%nat → prev' !! i = prev !! i)).
  { intros Hlast Hcn. destruct l as [|l].
    - eexists _, _. rewrite Hcn. splits; [done|done|apply length_insert|..]; intros i Hi.
      + replace i with 0%nat by lia. rewrite Hlast. by apply list_lookup_insert_eq.
      + apply list_lookup_insert_ne. lia.
    - destruct (IH l x (<[S l := Some x]> prev) pre rest) as (z & prev' & -> & Hz & Hlen & Hlo & Hhi);
        [lia|apply (cut_below l (S l)); [lia|done|done]|done|lia|rewrite length_insert; lia|].
      eexists _, _. splits; [done|done|by rewrite length_insert in Hlen|..]; intros i Hi.
      + destruct (decide (i = S l)) as [->|]; [|apply Hlo; lia].
        rewrite Hhi, Hlast by lia. by apply list_lookup_insert_eq.
      + rewrite Hhi by lia. apply list_lookup_insert_ne. lia. }
  destruct next as [y|]; [destruct (P y)|]; try by apply Hdown; apply Hnext.
  destruct Hnext as [Hy Hxy].
  destruct (cut_right x y pre rest E) as (r1 & r2 & ->);
    [apply (cut_below 0 l); [lia|done..]|done|].
  apply (IH l y prev (pre ++ x :: r1) r2); [done|done| |rewrite length_app in Hf; cbn in Hf; lia|done].
  rewrite E, <- app_assoc. done.
Qed.

(** From the head, with the fuel of the source's loops. *)
Lemma search_from_head l prev :
  (l < kMaxHeight)%nat → (l < length prev)%nat →
  ∃ z prev', search P (search_fuel ns) ns 0 l prev = Some (z, cut_next P (H 0%nat), prev') ∧
    cut_last P (H 0%nat) = Some z ∧ length prev' = length prev ∧
    (∀ i, (i ≤ l)%nat → prev' !! i = Some (cut_last P (H i))) ∧
    (∀ i, (l < i)%nat → prev' !! i = prev !! i).
Proof.
  intros Hl Hp. pose proof (repr_head _ _ _ _ HR) as Hh.
  assert (Hin : ∀ i, (i < kMaxHeight)%nat → ∃ t, H i = 0%nat :: t).
  { intros i Hi. specialize (Hh i Hi). destruct (H i); [done|]. simplify_eq/=. eauto. }
  destruct (Hin 0%nat) as [t E0]; [unfold kMaxHeight; lia|]. destruct (Hin l Hl) as [tl El].
  eapply (search_spec _ _ _ _ [] (filter P t)); [done|..|done].
  - rewrite El, filter_cons, decide_True by done. left.
  - rewrite E0, filter_cons, decide_True by done. done.
  - assert (length (H 0%nat) ≤ length ns)%nat as Hle.
    { by apply length_le_of_nodes. }
    rewrite E0 in Hle. cbn in Hle. pose proof (length_filter P t). unfold search_fuel. lia.
Qed.
End Cut.

(** ** The searches of the source *)

Section Find.
Context (ns : list (Node Key)) (H : nat → list nat) (HR : repr compare_ V ns H).

Lemma level_member l x : (l < kMaxHeight)%nat → x ∈ H l → x ∈ H 0%nat.
Proof. intros Hl Hx. eapply elem_of_sublist; [exact Hx|]. by apply (repr_sub_le ns); [|lia|]. Qed.

Lemma level_0 : ∃ t, H 0%nat = 0%nat :: t ∧ Forall (node_lt compare_ V ns 0) t.
Proof.
  pose proof (repr_head _ _ _ _ HR 0 ltac:(unfold kMaxHeight; lia)) as Hh.
  pose proof (repr_sorted _ _ _ _ HR) as Hs. destruct (H 0%nat) as [|x t]; [done|]. simplify_eq/=.
  exists t. split; [done|]. by apply StronglySorted_inv in Hs as [_ ?].
Qed.

Lemma Next_member l x y :
  (l < kMaxHeight)%nat → x ∈ H l → Next ns x l = Some (Some y) →
  y ∈ H l ∧ node_lt compare_ V ns x y.
Proof.
  intros Hl Hx En.
  destruct (cut_step (λ _, true) ns H HR (λ _ _ _ _, I) l x Hl) as (next & En' & Hn).
  { by apply list_elem_of_filter. }
  simplify_eq. destruct Hn as [[_ ?]%list_elem_of_filter ?]. done.
Qed.

Lemma before_head k : before compare_ ns k 0.
Proof. done. Qed.

Lemma before_down k x y :
  V k → node_lt compare_ V ns x y → before compare_ ns k y → before compare_ ns k x.
Proof.
  unfold before. intros Hk [Hy (b & Eb & Vb & [->|(a & Ea & Va & Hab)])]; [done|].
  rewrite Ea, Eb, (bool_decide_false (y = 0%nat)) by done. cbn [orb].
  intros Hb%bool_decide_unpack. apply orb_True. right. apply bool_decide_pack.
  eapply (ol_le_lt (V:=V) a b); [done..| |done]. lia.
Qed.

Lemma before_key k x b :
  node_lt compare_ V ns 0 x → key_of ns x = Some b →
  before compare_ ns k x = bool_decide (compare_ b k < 0).
Proof. unfold before. intros [? _] ->. by rewrite bool_decide_false. Qed.

Lemma node_key x : x ∈ tail (H 0%nat) → node_lt compare_ V ns 0 x ∧ ∃ n, ns !! x = Some n ∧ V (key n).
Proof.
  intros Hx. destruct level_0 as (t & E & Ht). rewrite E in Hx. cbn in Hx.
  rewrite list.Forall_forall in Ht. specialize (Ht x Hx). split; [done|].
  destruct Ht as [_ (b & Eb & Vb & _)]. unfold key_of in Eb.
  apply fmap_Some in Eb as (n & En & ->). eauto.
Qed.

Lemma next_node l x y :
  (l < kMaxHeight)%nat → x ∈ H l → Next ns x l = Some (Some y) → 
  y ∈ tail (H 0%nat).
Proof.
  intros Hl Hx En. destruct (Next_member l x y Hl Hx En) as [Hy%level_member [Hn _]]; [|done].
  destruct level_0 as (t & E & _). rewrite E in Hy |- *. cbn. by apply elem_of_cons in Hy as [->|].
Qed.

Lemma FindGreaterOrEqual_loop_search k fuel l x prev :
  (l < kMaxHeight)%nat → x ∈ H l →
  FindGreaterOrEqual_loop compare_ fuel ns k x l prev
  = (λ '(_, n, p), (n, p)) <$> search (before compare_ ns k) fuel ns x l prev.
Proof.
  revert l x prev. induction fuel as [|fuel IH]; [done|]. intros l x prev Hl Hx. cbn.
  destruct (Next ns x l) as [next|] eqn:En; [|done]. cbn.
  assert (Hd : ∀ l', l = S l' → x ∈ H l').
  { intros l' ->. eapply elem_of_sublist; [exact Hx|]. apply HR. done. }
  destruct next as [y|]; cbn [KeyIsAfterNode mbind option_bind].
  - destruct (node_key y (next_node l x y Hl Hx En)) as [H0 (n & Hn & _)]. rewrite Hn. cbn.
    assert (key_of ns y = Some (key n)) as Hky by (unfold key_of; by rewrite Hn).
    rewrite (before_key k y (key n) H0 Hky).
    destruct (bool_decide _); [apply IH; [done|by eapply Next_member]|].
    destruct l; [done|]. apply IH; [lia|by apply Hd].
  - destruct l; [done|]. apply IH; [lia|by apply Hd].
Qed.

Lemma FindLessThan_loop_search k fuel l x prev :
  (l < kMaxHeight)%nat → x ∈ H l →
  FindLessThan_loop compare_ fuel ns k x l
  = (λ '(x, _, _), x) <$> search (before compare_ ns k) fuel ns x l prev.
Proof.
  revert l x prev. induction fuel as [|fuel IH]; [done|]. intros l x prev Hl Hx. cbn.
  destruct (Next ns x l) as [next|] eqn:En; [|done]. cbn.
  assert (Hd : ∀ l', l = S l' → x ∈ H l').
  { intros l' ->. eapply elem_of_sublist; [exact Hx|]. apply HR. done. }
  destruct next as [y|]; cbn [mbind option_bind].
  - destruct (node_key y (next_node l x y Hl Hx En)) as [H0 (n & Hn & _)]. rewrite Hn. cbn.
    assert (key_of ns y = Some (key n)) as Hky by (unfold key_of; by rewrite Hn).
    rewrite (before_key k y (key n) H0 Hky).
    destruct (decide (compare_ (key n) k < 0)) as [Hc|Hc].
    + rewrite (bool_decide_true _ Hc), bool_decide_false by lia. apply IH; [done|by eapply Next_member].
    + rewrite (bool_decide_false _ Hc), bool_decide_true by lia.
      destruct l; [done|]. apply IH; [lia|by apply Hd].
  - destruct l; [done|]. apply IH; [lia|by apply Hd].
Qed.

Lemma FindLast_loop_search fuel l x prev :
  (l < kMaxHeight)%nat → x ∈ H l →
  FindLast_loop fuel ns x l = (λ '(x, _, _), x) <$> search (λ _, true) fuel ns x l prev.
Proof.
  revert l x prev. induction fuel as [|fuel IH]; [done|]. intros l x prev Hl Hx. cbn.
  destruct (Next ns x l) as [next|] eqn:En; [|done]. cbn.
  destruct next as [y|]; [apply IH; [done|by eapply Next_member]|].
  destruct l; [done|]. apply IH; [lia|]. eapply elem_of_sublist; [exact Hx|]. apply HR. done.
Qed.

Lemma head_member l : (l < kMaxHeight)%nat → 0%nat ∈ H l.
Proof.
  intros Hl. pose proof (repr_head _ _ _ _ HR l Hl). destruct (H l); [done|]. simplify_eq/=. left.
Qed.

Lemma FindGreaterOrEqual_nodes k h :
  V k → (1 ≤ h ≤ kMaxHeight)%nat →
  ∃ prev, FindGreaterOrEqual compare_ ns h k = Some (cut_next (before compare_ ns k) (H 0%nat), prev) ∧
    length prev = kMaxHeight ∧
    (∀ i, (i < h)%nat → prev !! i = Some (cut_last (before compare_ ns k) (H i))).
Proof.
  intros Hk Hh. unfold FindGreaterOrEqual.
  rewrite FindGreaterOrEqual_loop_search by (try apply head_member; lia).
  destruct (search_from_head (before compare_ ns k) ns H HR (before_head k)
    (λ x y, before_down k x y Hk) (h - 1) (replicate kMaxHeight None)) as (z & prev & -> & _ & Hlen & Hp & _);
    [lia|rewrite length_replicate; lia|].
  exists prev. rewrite length_replicate in Hlen. splits; [done|done|]. intros. apply Hp. lia.
Qed.

Lemma FindLessThan_nodes k h :
  V k → (1 ≤ h ≤ kMaxHeight)%nat →
  FindLessThan compare_ ns h k = cut_last (before compare_ ns k) (H 0%nat).
Proof.
  intros Hk Hh. unfold FindLessThan.
  rewrite (FindLessThan_loop_search _ _ _ _ (replicate kMaxHeight None)) by (try apply head_member; lia).
  destruct (search_from_head (before compare_ ns k) ns H HR (before_head k)
    (λ x y, before_down k x y Hk) (h - 1) (replicate kMaxHeight None)) as (z & prev & -> & -> & _);
    [lia|rewrite length_replicate; lia|done].
Qed.

Lemma FindLast_nodes h :
  (1 ≤ h ≤ kMaxHeight)%nat → FindLast ns h = list.last (H 0%nat).
Proof.
  intros Hh. unfold FindLast.
  rewrite (FindLast_loop_search _ _ _ (replicate kMaxHeight None)) by (try apply head_member; lia).
  destruct (search_from_head (λ _, true) ns H HR I (λ _ _ _ _, I) (h - 1)
    (replicate kMaxHeight None)) as (z & prev & -> & Hz & _); [lia|rewrite length_replicate; lia|].
  unfold cut_last in Hz. rewrite filter_all in Hz by by apply Forall_true. by rewrite Hz.
Qed.
End Find.
End Search.

(** ** Stores *)

Section Stores.
Context {Key : Type} {compare_ : Key → Key → Z} {V : Key → Prop} {OL : OrderLaws compare_ V}.
Implicit Types (ns : list (Node Key)) (H : nat → list nat).

Lemma SetNext_spec ns x l v n :
  ns !! x = Some n → (l < length (next_ n))%nat →
  ∃ ns', SetNext ns x l v = Some ns' ∧ Next ns' x l = Some v ∧
    (∀ y m, (y, m) ≠ (x, l) → Next ns' y m = Next ns y m) ∧
    (∀ y, key_of ns' y = key_of ns y) ∧
    (∀ y n, ns !! y = Some n → ∃ n', ns' !! y = Some n' ∧ length (next_ n') = length (next_ n)).
Proof.
  intros Hx Hl. pose proof (lookup_lt_Some _ _ _ Hx) as Hlt. unfold SetNext. rewrite Hx. cbn.
  destruct (lookup_lt_is_Some_2 _ _ Hl) as [w ->]. cbn. eexists; split; [done|]. unfold Next, key_of.
  splits.
  - rewrite list_lookup_insert_eq by done. cbn. by apply list_lookup_insert_eq.
  - intros y m Hym. destruct (decide (y = x)) as [->|].
    + rewrite list_lookup_insert_eq, Hx by done. cbn. apply list_lookup_insert_ne. congruence.
    + by rewrite list_lookup_insert_ne by done.
  - intros y. destruct (decide (y = x)) as [->|].
    + by rewrite list_lookup_insert_eq, Hx by done.
    + by rewrite list_lookup_insert_ne by done.
  - intros y n' Hy. destruct (decide (y = x)) as [->|].
    + rewrite list_lookup_insert_eq by done. simplify_eq. eexists; split; [done|]. cbn.
      apply length_insert.
    + rewrite list_lookup_insert_ne by done. eauto.
Qed.

Lemma path_ext ns ns' l h :
  path ns l h → (∀ y, y ∈ h → Next ns' y l = Next ns y l) → path ns' l h.
Proof.
  induction h as [|x [|y h] IH]; [done|..]; intros Hp Hn.
  - cbn in *. rewrite Hn by left. done.
  - destruct Hp as [Hx Hp]. split; [rewrite Hn by left; done|]. apply IH; [done|].
    intros. apply Hn. by right.
Qed.

Lemma node_lt_keys ns ns' x y :
  (∀ z b, key_of ns z = Some b → key_of ns' z = Some b) →
  node_lt compare_ V ns x y → node_lt compare_ V ns' x y.
Proof.
  intros Hk [Hy (b & Eb & Vb & Hx)]. split; [done|]. exists b. splits; [by apply Hk|done|].
  destruct Hx as [?|(a & Ea & ?)]; [by left|]. right. exists a. split; [by apply Hk|done].
Qed.

(** Memory that agrees on the links of the listed nodes and keeps the keys. *)
Lemma repr_ext ns ns' H :
  repr compare_ V ns H →
  (∀ z b, key_of ns z = Some b → key_of ns' z = Some b) →
  (∀ l y, (l < kMaxHeight)%nat → y ∈ H l → Next ns' y l = Next ns y l) →
  repr compare_ V ns' H.
Proof.
  intros HR Hk Hn. split.
  - intros l Hl. eapply path_ext; [by apply HR|]. intros. by apply Hn.
  - apply HR.
  - apply HR.
  - eapply sorted_impl; [|apply HR]. intros ??. by apply node_lt_keys.
Qed.

Lemma NewNode_lookup ns k h y : y ≠ length ns → snd (NewNode ns k h) !! y = ns !! y.
Proof.
  intros Hy. cbn. destruct (decide (y < length ns)%nat).
  - by apply lookup_app_l.
  - rewrite !lookup_ge_None_2; [done|lia|rewrite length_app; cbn; lia].
Qed.

Lemma NewNode_new ns k h :
  snd (NewNode ns k h) !! length ns = Some {| key := k; next_ := replicate h None |}.
Proof. cbn. rewrite lookup_app_r by done. by rewrite Nat.sub_diag. Qed.

Lemma NewNode_repr ns H k h : repr compare_ V ns H → repr compare_ V (snd (NewNode ns k h)) H.
Proof.
  intros HR. apply (repr_ext ns); [done|..].
  - unfold key_of. intros z b Hz. rewrite NewNode_lookup; [done|]. intros ->.
    by rewrite lookup_ge_None_2 in Hz.
  - intros l y Hl Hy. unfold Next. rewrite NewNode_lookup; [done|]. intros ->.
    destruct (path_lookup ns l (H l) (length ns)) as [? Hx]; [by apply HR|done|].
    by rewrite lookup_ge_None_2 in Hx.
Qed.

(** A store in a node that is not on the level changes no path. *)
Lemma SetNext_repr ns ns' H x l :
  repr compare_ V ns H → x ∉ H l →
  (∀ y m, (y, m) ≠ (x, l) → Next ns' y m = Next ns y m) →
  (∀ y, key_of ns' y = key_of ns y) → repr compare_ V ns' H.
Proof.
  intros HR Hx Hn Hk. apply (repr_ext ns); [done|..].
  - intros. by rewrite Hk.
  - intros m y Hm Hy. apply Hn. intros [= -> ->]. done.
Qed.

(** The store that links [x] after [p]. *)
Lemma path_link ns ns' l b p a x :
  path ns l (b ++ p :: a) → NoDup (b ++ p :: a) → x ∉ b ++ p :: a →
  Next ns x l = Some (head a) → Next ns' p l = Some (Some x) →
  (∀ y, y ≠ p → Next ns' y l = Next ns y l) →
  path ns' l (b ++ p :: x :: a).
Proof.
  intros Hp Hnd Hx Hnx Hnp Hn.
  assert (Hxa : path ns' l (x :: a)).
  { assert (x ≠ p) by (intros ->; apply Hx, elem_of_app; right; left).
    apply path_suffix in Hp. destruct a as [|z a].
    - cbn. by rewrite Hn, Hnx.
    - split; [by rewrite Hn, Hnx|]. eapply path_ext; [apply Hp|]. intros y Hy. apply Hn.
      intros ->. apply list.NoDup_app in Hnd as (_ & _ & [Hnd _]%list.NoDup_cons). done. }
  induction b as [|y b IH]; cbn [app] in *; [by split|].
  apply list.NoDup_cons in Hnd as [Hy Hnd].
  assert (y ≠ p) by (intros ->; apply Hy, elem_of_app; right; left).
  destruct b as [|z b]; cbn [app path] in *.
  - split; [|by split]. rewrite Hn by done. apply Hp.
  - split; [rewrite Hn by done; apply Hp|]. apply IH; [apply Hp|done|].
    intros ?. apply Hx. by right.
Qed.
End Stores.

(** ** Insertion *)

Section Insertion.
Context {Key : Type} {compare_ : Key → Key → Z} {V : Key → Prop} {OL : OrderLaws compare_ V}.
Context (ns0 : list (Node Key)) (H : nat → list nat) (HR : repr compare_ V ns0 H).
Context (k : Key) (Vk : V k) (height : nat) (Hheight : (height ≤ kMaxHeight)%nat).
Hypothesis fresh : ∀ x a, x ∈ tail (H 0%nat) → key_of ns0 x = Some a → compare_ a k ≠ 0.

Let x : nat := length ns0.
Let ns : list (Node Key) := snd (NewNode ns0 k height).
Let P : nat → bool := before compare_ ns0 k.

Definition with_node (h : list nat) : list nat := filter P h ++ x :: filter (λ y, ¬ P y) h.

(** The levels when the new node is linked below [j]. *)
Definition linked (j l : nat) : list nat := if decide (l < j)%nat then with_node (H l) else H l.

Definition link_inv (j : nat) (ns' : list (Node Key)) : Prop :=
  repr compare_ V ns' (linked j) ∧ (∀ y, key_of ns' y = key_of ns y) ∧
  (∀ y n, ns !! y = Some n → ∃ n', ns' !! y = Some n' ∧ length (next_ n') = length (next_ n)).

Lemma x_not_member l : (l < kMaxHeight)%nat → x ∉ H l.
Proof.
  intros Hl Hx. destruct (path_lookup ns0 l (H l) x) as [? E]; [by apply HR|done|].
  by rewrite lookup_ge_None_2 in E.
Qed.

Lemma P_down a b : node_lt compare_ V ns0 a b → P b → P a.
Proof. by apply before_down. Qed.

Lemma ns_keys z b : key_of ns0 z = Some b → key_of ns z = Some b.
Proof.
  unfold key_of, ns. intros Hz. rewrite NewNode_lookup; [done|]. intros ->.
  by rewrite lookup_ge_None_2 in Hz.
Qed.

Lemma with_node_sorted : StronglySorted (node_lt compare_ V ns) (with_node (H 0%nat)).
Proof.
  assert (Hs : StronglySorted (node_lt compare_ V ns) (H 0%nat)).
  { eapply sorted_impl; [|apply HR]. intros ??. apply node_lt_keys, ns_keys. }
  assert (Hx : key_of ns x = Some k) by (unfold key_of, ns, x; by rewrite NewNode_new).
  destruct (level_0 ns0 H HR) as (t & Et & Ht). rewrite list.Forall_forall in Ht.
  assert (Hx0 : x ≠ 0%nat).
  { intros E. apply (x_not_member 0); [unfold kMaxHeight; lia|]. rewrite E, Et. left. }
  pose proof (level_cut P ns0 H HR P_down 0 ltac:(unfold kMaxHeight; lia)) as Hc.
  rewrite Hc in Hs. apply sorted_app in Hs as (Hs1 & Hs2 & Hs12). unfold with_node.
  apply sorted_app; splits; [done|constructor; [done|]|].
  - apply list.Forall_forall. intros y [Hny Hy]%list_elem_of_filter. rewrite Et in Hy.
    apply elem_of_cons in Hy as [->|Hy]; [by destruct Hny|].
    destruct (Ht y Hy) as [Hy0 (b & Eb & Vb & _)]. split; [done|].
    exists b. splits; [by apply ns_keys|done|]. right. exists k. splits; [done..|].
    unfold P in Hny. erewrite before_key in Hny by (try apply Ht; done).
    rewrite bool_decide_spec in Hny. pose proof (ol_flip (V:=V) k b Vk Vb).
    specialize (fresh y b). rewrite Et in fresh. specialize (fresh Hy Eb). lia.
  - intros y z Hy [->|Hz]%elem_of_cons; [|by apply Hs12].
    apply list_elem_of_filter in Hy as [HPy Hy]. rewrite Et in Hy.
    split; [done|]. exists k. splits; [done..|]. apply elem_of_cons in Hy as [->|Hy]; [by left|].
    right. destruct (Ht y Hy) as [Hy0 (b & Eb & Vb & _)]. exists b. splits; [by apply ns_keys|done|].
    unfold P in HPy. erewrite before_key in HPy by (try apply Ht; done).
    by rewrite bool_decide_spec in HPy.
Qed.

Lemma Next_node (m : list (Node Key)) y l v :
  Next m y l = Some v → ∃ n, m !! y = Some n ∧ (l < length (next_ n))%nat.
Proof.
  unfold Next. destruct (m !! y) as [n|] eqn:E; [|done]. cbn. intros Hl. exists n. split; [done|].
  by eapply lookup_lt_Some.
Qed.

Lemma level_split j p :
  (j < kMaxHeight)%nat → cut_last P (H j) = Some p →
  ∃ b a, H j = b ++ p :: a ∧ with_node (H j) = b ++ p :: x :: a ∧ NoDup (b ++ p :: a) ∧
    cut_next P (H j) = head a.
Proof.
  intros Hj Hp. unfold cut_last in Hp. apply last_Some in Hp as [b Hb].
  pose proof (level_cut P ns0 H HR P_down j Hj) as Hc. rewrite Hb, <- app_assoc in Hc.
  exists b, (filter (λ y, ¬ P y) (H j)). unfold with_node. rewrite Hb, <- app_assoc.
  splits; [exact Hc|done| |done]. cbn in Hc. rewrite <- Hc.
  eapply sublist_NoDup; [apply (nodes_NoDup ns0 H HR)|]. eapply repr_sub_le; [exact HR|lia|done].
Qed.

Lemma linked_0 : linked 0 = H.
Proof. done. Qed.

Lemma linked_other j l : l ≠ j → linked (S j) l = linked j l.
Proof. intros. unfold linked. repeat case_decide; done || lia. Qed.

Lemma linked_at j : linked (S j) j = with_node (H j) ∧ linked j j = H j.
Proof. unfold linked. by rewrite decide_True, decide_False by lia. Qed.

Lemma with_node_sub h h' : h `sublist_of` h' → with_node h `sublist_of` with_node h'.
Proof. intros. by apply sublist_app, sublist_skip; apply sublist_filter_mono. Qed.

Lemma link_repr j p (ns1 ns2 : list (Node Key)) :
  (j < kMaxHeight)%nat → cut_last P (H j) = Some p → link_inv j ns1 →
  Next ns1 x j = Some (cut_next P (H j)) → Next ns2 p j = Some (Some x) →
  (∀ y m, (y, m) ≠ (p, j) → Next ns2 y m = Next ns1 y m) →
  (∀ y, key_of ns2 y = key_of ns1 y) → repr compare_ V ns2 (linked (S j)).
Proof.
  intros Hj Hp (HR1 & Hk1 & _) Hx Hnp Hn Hk. destruct (linked_at j) as [EqS Eqj].
  destruct (level_split j p Hj Hp) as (b & a & EH & EW & Hnd & Hxn).
  pose proof (x_not_member j Hj) as Hxj.
  split.
  - intros l Hl. destruct (decide (l = j)) as [->|Hlj].
    + rewrite EqS, EW. rewrite EH in Hxj. eapply path_link; [|done..| |done|].
      * rewrite <- EH, <- Eqj. by apply HR1.
      * by rewrite <- Hxn.
      * intros. apply Hn. congruence.
    + rewrite linked_other by done. eapply path_ext; [by apply HR1|]. intros. apply Hn. congruence.
  - intros l Hl. destruct (decide (l = j)) as [->|]; [|rewrite linked_other by done; by apply HR1].
    pose proof (repr_head _ _ _ _ HR j Hj) as Hh. rewrite EqS, EW. rewrite EH in Hh.
    by destruct b.
  - intros l Hl. destruct (decide (l = j)) as [->|Hlj].
    + rewrite EqS, linked_other by lia. unfold linked. rewrite decide_False by lia.
      etrans; [by apply HR|]. rewrite EW, EH. apply sublist_app; [done|]. apply sublist_skip, sublist_cons. done.
    + rewrite (linked_other j l) by done. destruct (decide (S l = j)) as [<-|].
      * destruct (linked_at (S l)) as [-> _]. unfold linked. rewrite decide_True by lia.
        apply with_node_sub. by apply HR.
      * rewrite linked_other by done. by apply HR1.
  - destruct (decide (j = 0%nat)) as [->|].
    + rewrite EqS. eapply sorted_impl; [|apply with_node_sorted]. intros ??. apply node_lt_keys.
      intros. by rewrite Hk, Hk1.
    + rewrite linked_other by done. eapply sorted_impl; [|apply HR1]. intros ??. apply node_lt_keys.
      intros. by rewrite Hk.
Qed.

(** One turn of the linking loop: the first store leaves every level as it
    was, the second links the node on level [j]. *)
Lemma link_step j p m :
  (j < height)%nat → cut_last P (H j) = Some p → link_inv j m →
  ∃ next m1 m2, Next m p j = Some next ∧ SetNext m x j next = Some m1 ∧
    SetNext m1 p j (Some x) = Some m2 ∧ link_inv j m1 ∧ link_inv (S j) m2.
Proof.
  intros Hj Hp (HRm & Hkm & Hlm). assert (Hj12 : (j < kMaxHeight)%nat) by lia.
  destruct (linked_at j) as [_ Eqj]. pose proof (x_not_member j Hj12) as Hxj.
  destruct (level_split j p Hj12 Hp) as (b & a & EH & _ & _ & Hcn).
  assert (Hnp : Next m p j = Some (cut_next P (H j))).
  { pose proof (repr_path _ _ _ _ HRm j Hj12) as Hpath. rewrite Eqj, EH in Hpath.
    apply path_suffix, path_Next in Hpath. by rewrite Hcn. }
  assert (Hpx : p ≠ x) by (intros ->; apply Hxj; rewrite EH; apply elem_of_app; right; left).
  destruct (Hlm x _ (NewNode_new ns0 k height)) as (nx & Hnx & Hlx).
  cbn in Hlx. rewrite length_replicate in Hlx.
  destruct (SetNext_spec m x j (cut_next P (H j)) nx Hnx ltac:(lia)) as (m1 & E1 & N1 & O1 & K1 & L1).
  assert (Inv1 : link_inv j m1).
  { split; [|split; [by intros; rewrite K1|]].
    - eapply SetNext_repr; [exact HRm| |exact O1|exact K1]. by rewrite Eqj.
    - intros y n Hy. destruct (Hlm y n Hy) as (n' & Hy' & <-). apply L1. done. }
  destruct (Next_node m1 p j (cut_next P (H j))) as (np & Hnp1 & Hlp); [rewrite O1; [done|congruence]|].
  destruct (SetNext_spec m1 p j (Some x) np Hnp1 Hlp) as (m2 & E2 & N2 & O2 & K2 & L2).
  exists (cut_next P (H j)), m1, m2. splits; [done..|]. split; [by eapply (link_repr j p m1)|].
  split; [by intros; rewrite K2, K1|].
  intros y n Hy. destruct Inv1 as (_ & _ & Hl1). destruct (Hl1 y n Hy) as (n' & Hy' & <-). by apply L2.
Qed.

Lemma link_loop_spec n j m prev :
  (j + n ≤ height)%nat → link_inv j m →
  (∀ i, (i < height)%nat → ∃ p, prev !! i = Some (Some p) ∧ cut_last P (H i) = Some p) →
  ∃ states, link_loop m x prev (seq j n) = Some states ∧ length states = (2 * n)%nat ∧
    ∀ i m', states !! i = Some m' → link_inv (j + Nat.div2 (S i)) m'.
Proof.
  revert j m. induction n as [|n IH]; intros j m Hn Hinv Hprev; [by exists []|].
  destruct (Hprev j ltac:(lia)) as (p & Ep & Hp).
  destruct (link_step j p m ltac:(lia) Hp Hinv) as (next & m1 & m2 & En & E1 & E2 & I1 & I2).
  destruct (IH (S j) m2 ltac:(lia) I2 Hprev) as (states & Es & Hlen & Hst).
  exists (m1 :: m2 :: states). cbn [seq link_loop]. rewrite Ep. cbn. rewrite En. cbn. rewrite E1. cbn.
  rewrite E2. cbn. rewrite Es. cbn. splits; [done|cbn; lia|].
  intros [|[|i]] m'; cbn; intros Hi; simplify_eq.
  - by rewrite Nat.add_0_r.
  - by rewrite Nat.add_1_r.
  - apply Hst in Hi. cbn in Hi. by rewrite Nat.add_succ_r.
Qed.

(** The new node, and the whole history of the insertion. *)
Lemma link_inv_0 : link_inv 0 ns.
Proof. split; [|split; [done|by eauto]]. by apply NewNode_repr. Qed.

Lemma linked_mono i j l y : (i ≤ j)%nat → y ∈ linked i l → y ∈ linked j l.
Proof.
  intros Hij. unfold linked. repeat case_decide; try (done || lia). intros Hy.
  unfold with_node. apply elem_of_app. destruct (decide (P y)) as [Hp|Hp].
  - left. by apply list_elem_of_filter.
  - right. right. by apply list_elem_of_filter.
Qed.

Definition insert_history (states : list (list (Node Key)))
    : list (list (Node Key) * (nat → list nat)) :=
  (ns0, H) :: imap (λ i m, (m, linked (Nat.div2 i))) (ns :: states).

Lemma history_of_states states :
  (∀ i m, states !! i = Some m → link_inv (Nat.div2 (S i)) m) → history compare_ V (insert_history states).
Proof.
  intros Hst. assert (Hall : ∀ i m, (ns :: states) !! i = Some m → link_inv (Nat.div2 i) m).
  { intros [|i] m Hi; [cbn in Hi; simplify_eq; apply link_inv_0|by apply Hst]. }
  unfold insert_history. split; constructor.
  - done.
  - apply list.Forall_forall. intros s [i Hi]%list_elem_of_lookup.
    rewrite list_lookup_imap in Hi. apply fmap_Some in Hi as (m & Hm & ->). by apply Hall.
  - apply sorted_by_index. intros i j s s' Hij Hi Hj. rewrite list_lookup_imap in Hi, Hj.
    apply fmap_Some in Hi as (m & (_ & Hm & _)%Hall & ->). apply fmap_Some in Hj as (m' & (_ & Hm' & _)%Hall & ->).
    split; cbn [fst snd].
    + intros z b. by rewrite Hm, Hm'.
    + intros l y _. apply linked_mono, Nat.div2_le_mono. lia.
  - apply list.Forall_forall. intros s [i Hi]%list_elem_of_lookup.
    rewrite list_lookup_imap in Hi. apply fmap_Some in Hi as (m & (_ & Hm & _)%Hall & ->).
    split; cbn [fst snd]; [intros z b Hz; rewrite Hm; by apply ns_keys|].
    intros l y _ Hy. apply (linked_mono 0 (Nat.div2 i)); [apply Nat.le_0_l|exact Hy].
Qed.
End Insertion.

(** ** The operations on keys *)

Section Operations.
Context {Key : Type} {compare_ : Key → Key → Z} {V : Key → Prop} {OL : OrderLaws compare_ V}.
Implicit Types (ns : list (Node Key)) (H : nat → list nat) (l : SkipList Key) (ks : list Key).

Lemma keys_cut ns k t :
  Forall (node_lt compare_ V ns 0) t →
  omap (key_of ns) (filter (before compare_ ns k) t) = keys_before compare_ (omap (key_of ns) t) k ∧
  omap (key_of ns) (filter (λ x, ¬ before compare_ ns k x) t) = keys_from compare_ (omap (key_of ns) t) k.
Proof.
  unfold keys_before, keys_from. induction 1 as [|x t Hx _ [IH1 IH2]]; [done|].
  pose proof Hx as [_ (a & Ea & _)]. cbn [omap list_omap]. rewrite Ea, !filter_cons.
  rewrite (before_key (compare_:=compare_) (V:=V) ns k x a Hx Ea).
  destruct (decide (compare_ a k < 0)) as [Hc|Hc].
  - rewrite (bool_decide_true _ Hc). repeat case_decide; cbn in *; try tauto. by rewrite Ea, IH1, IH2.
  - rewrite (bool_decide_false _ Hc). repeat case_decide; cbn in *; try tauto. by rewrite Ea, IH1, IH2.
Qed.

(** The nodes after the head and their keys correspond one to one. *)
Lemma keys_lookup ns t i :
  Forall (node_lt compare_ V ns 0) t →
  omap (key_of ns) t !! i = (x ← t !! i; key_of ns x) ∧ length (omap (key_of ns) t) = length t.
Proof.
  intros Ht. revert i. induction Ht as [|x t [_ (a & Ea & _)] _ IH]; intros i; [done|].
  cbn [omap list_omap]. rewrite Ea. cbn [length]. split; [|f_equal; apply (IH 0%nat)].
  destruct i as [|i]; [by cbn; rewrite Ea|]. cbn. apply IH.
Qed.

Lemma keys_sorted ns H :
  repr compare_ V ns H → StronglySorted (λ a b, compare_ a b < 0) (keys ns H) ∧ Forall V (keys ns H).
Proof.
  intros HR. destruct (level_0 ns H HR) as (t & Et & Ht). unfold keys. rewrite Et. cbn [tail].
  pose proof (repr_sorted _ _ _ _ HR) as Hs. rewrite Et in Hs.
  apply StronglySorted_inv in Hs as [Hs _]. clear Et.
  induction Ht as [|x t [Hx0 (a & Ea & Va & _)] Ht IH]; [by split; constructor|].
  apply StronglySorted_inv in Hs as [Hs Hx]. destruct (IH Hs) as [IH1 IH2].
  cbn [omap list_omap]. rewrite Ea. split; constructor; [done| |done|done].
  rewrite list.Forall_forall in Hx. apply list.Forall_forall. intros b (y & Hy & Eb)%list_elem_of_omap.
  destruct (Hx y Hy) as [_ (b' & Eb' & _ & [?|(a' & Ea' & _ & Hab)])]; [done|]. by simplify_eq.
Qed.

Lemma RandomHeight_loop_range fuel h rnd :
  (1 ≤ h ≤ kMaxHeight)%nat → (1 ≤ fst (RandomHeight_loop fuel h rnd) ≤ kMaxHeight)%nat.
Proof.
  revert h rnd. induction fuel as [|fuel IH]; intros h rnd Hh; cbn; [done|].
  case_decide; [|done]. case_decide; [|done]. apply IH. lia.
Qed.

Lemma foldl_prev a n (prev : list (option nat)) i :
  (i < length prev)%nat →
  foldl (λ prev i, <[i := Some 0%nat]> prev) prev (seq a n) !! i
  = if decide (a ≤ i < a + n)%nat then Some (Some 0%nat) else prev !! i.
Proof.
  revert a prev. induction n as [|n IH]; intros a prev Hi; cbn; [by rewrite decide_False by lia|].
  rewrite IH by by rewrite length_insert. repeat case_decide; try done; try lia.
  - destruct (decide (i = a)) as [->|]; [by apply list_lookup_insert_eq|lia].
  - apply list_lookup_insert_ne. lia.
Qed.

Lemma members_with_node ns k H h y :
  y ∈ h → y ∈ with_node (compare_:=compare_) ns k h.
Proof.
  intros Hy. unfold with_node. apply elem_of_app.
  destruct (decide (before compare_ ns k y)) as [Hp|Hp].
  - left. by apply list_elem_of_filter.
  - right. right. by apply list_elem_of_filter.
Qed.

Lemma insert_keys ns H k m :
  repr compare_ V ns H → V k → (∀ z b, key_of ns z = Some b → key_of m z = Some b) →
  key_of m (length ns) = Some k →
  omap (key_of m) (tail (H 0%nat)) = keys ns H ∧
  omap (key_of m) (tail (with_node (compare_:=compare_) ns k (H 0%nat)))
  = insert_key compare_ (keys ns H) k.
Proof.
  intros HR Vk Hm Hk. destruct (level_0 ns H HR) as (t & Et & Ht). unfold keys. rewrite Et. cbn [tail].
  assert (Hmap : ∀ t', t' `sublist_of` t → omap (key_of m) t' = omap (key_of ns) t').
  { intros t' Hs. induction t' as [|x t' IH]; [done|]. cbn.
    assert (x ∈ t) as Hx by (eapply elem_of_sublist; [left|done]).
    rewrite list.Forall_forall in Ht. destruct (Ht x Hx) as [_ (a & Ea & _)].
    rewrite (Hm x a Ea), Ea, IH; [done|]. etrans; [|done]. by apply sublist_cons. }
  split; [by apply Hmap|]. unfold with_node. rewrite !filter_cons.
  rewrite decide_True by done. rewrite decide_False by (intros Hn; by apply Hn). cbn [app tail].
  rewrite omap_app. cbn [omap list_omap]. rewrite Hk, !Hmap by apply sublist_filter.
  destruct (keys_cut ns k t Ht) as [-> ->]. done.
Qed.

(** What is known of a list at rest, with its levels. *)
Definition rests (l : SkipList Key) (H : nat → list nat) : Prop :=
  repr compare_ V (nodes l) H ∧ (1 ≤ max_height_ l ≤ kMaxHeight)%nat ∧
  ∀ i, (max_height_ l ≤ i < kMaxHeight)%nat → H i = [0%nat].

(** The predecessors that [Insert] collects, on the new levels too. *)
Lemma Insert_prev l H k h prev :
  rests l H → (h ≤ kMaxHeight)%nat → length prev = kMaxHeight →
  (∀ i, (i < max_height_ l)%nat → prev !! i = Some (cut_last (before compare_ (nodes l) k) (H i))) →
  V k →
  ∀ i, (i < h)%nat → ∃ p,
    (if decide (max_height_ l < h)%nat then
       foldl (λ prev i, <[i := Some 0%nat]> prev) prev (seq (max_height_ l) (h - max_height_ l))
     else prev) !! i = Some (Some p) ∧ cut_last (before compare_ (nodes l) k) (H i) = Some p.
Proof.
  intros (HR & Hmh & Htop) Hh Hlen Hprev Vk i Hi.
  assert (Hlast : ∃ p, cut_last (before compare_ (nodes l) k) (H i) = Some p).
  { pose proof (repr_head _ _ _ _ HR i ltac:(lia)) as Hhd. unfold cut_last.
    destruct (H i) as [|x t]; [done|]. simplify_eq/=. rewrite filter_cons, decide_True by done.
    rewrite last_cons. destruct (list.last _); eauto. }
  destruct Hlast as [p Hp]. exists p. split; [|done].
  assert (Hlow : (i < max_height_ l)%nat → prev !! i = Some (Some p)).
  { intros. by rewrite Hprev, Hp. }
  assert (Hhigh : ¬ (i < max_height_ l)%nat → p = 0%nat).
  { intros. unfold cut_last in Hp. rewrite Htop in Hp by lia. rewrite filter_cons, decide_True in Hp by done. cbn in Hp. congruence. }
  destruct (decide (max_height_ l < h)%nat); [|apply Hlow; lia].
  rewrite foldl_prev by lia. destruct (decide _); [rewrite Hhigh by lia; done|]. apply Hlow. lia.
Qed.

(** The keys that a reader finds in the states of an insertion. *)
Lemma linked_keys ns H k h j m :
  repr compare_ V ns H → V k → link_inv (compare_:=compare_) (V:=V) ns H k h j m →
  keys m (linked (compare_:=compare_) ns H k j) =
  if decide (0 < j)%nat then insert_key compare_ (keys ns H) k else keys ns H.
Proof.
  intros HR Vk (_ & Hm & _). destruct (insert_keys ns H k m HR Vk) as [K0 K1].
  - intros z b Hz. rewrite Hm. by apply ns_keys.
  - rewrite Hm. unfold key_of. by rewrite NewNode_new.
  - unfold keys at 1, linked. by case_decide.
Qed.

Lemma states_last {A} (g : nat → nat → list nat) (a : A) states h :
  length states = (2 * h)%nat →
  list.last (imap (λ i m, (m, g (Nat.div2 i))) (a :: states)) = Some (default a (list.last states), g h).
Proof.
  intros Hlen. rewrite last_lookup, length_imap, list_lookup_imap. cbn [length pred].
  assert (Eh : Nat.div2 (length states) = h) by (rewrite Hlen; apply Nat.div2_double).
  destruct states as [|b states'] using rev_ind; [by cbn; subst h|]. 
  rewrite last_snoc, Eh, length_app. cbn [length]. rewrite Nat.add_1_r.
  rewrite app_comm_cons. by rewrite (list_lookup_middle (a :: states') [] b (S (length states'))).
Qed.

Lemma Insert_history l H k :
  rests l H → V k → Forall (λ a, compare_ a k ≠ 0) (keys (nodes l) H) →
  ∃ states l' tr H', Insert_states compare_ l k = Some (states, l') ∧ fst <$> tr = states ∧
    history compare_ V ((nodes l, H) :: tr) ∧
    list.last tr = Some (nodes l', H') ∧ rests l' H' ∧
    keys (nodes l') H' = insert_key compare_ (keys (nodes l) H) k ∧
    Forall (λ s, keys s.1 s.2 = keys (nodes l) H ∨
                 keys s.1 s.2 = insert_key compare_ (keys (nodes l) H) k) tr.
Proof.
  intros HRl Vk Hf. pose proof HRl as (HR & Hmh & Htop).
  destruct (FindGreaterOrEqual_nodes (nodes l) H HR k (max_height_ l) Vk Hmh) as (prev & EF & Hlen & Hprev).
  unfold Insert_states. rewrite EF. cbn [mbind option_bind].
  pose proof (RandomHeight_loop_range kMaxHeight 1 (rnd_ l) ltac:(unfold kMaxHeight; lia)) as Hh.
  change (RandomHeight_loop _ _ _) with (RandomHeight (rnd_ l)) in Hh.
  destruct (RandomHeight (rnd_ l)) as [h rnd]. cbn [fst] in Hh.
  assert (fresh : ∀ x a, x ∈ tail (H 0%nat) → key_of (nodes l) x = Some a → compare_ a k ≠ 0).
  { intros x a Hx Ha. rewrite list.Forall_forall in Hf. apply Hf. unfold keys.
    apply list_elem_of_omap. eauto. }
  pose proof (Insert_prev l H k h prev HRl ltac:(lia) Hlen Hprev Vk) as Hp.
  set (ns := snd (NewNode (nodes l) k h)).
  destruct (link_loop_spec (nodes l) H HR k Vk h ltac:(lia) fresh h 0 ns _
    ltac:(lia) (link_inv_0 _ _ HR k h) Hp) as (states & EL & Hls & Hst).
  change (NewNode (nodes l) k h) with (length (nodes l), ns). cbn beta iota. rewrite EL. cbn [mbind option_bind].
  assert (Hinv : ∀ i m, (ns :: states) !! i = Some m →
    link_inv (compare_:=compare_) (V:=V) (nodes l) H k h (Nat.div2 i) m).
  { intros [|i] m Hi; [cbn in Hi; simplify_eq; by apply link_inv_0|by apply Hst]. }
  pose proof (states_last (linked (compare_:=compare_) (nodes l) H k) ns states h Hls) as Hlast.
  eexists _, _, (imap (λ i m, (m, linked (compare_:=compare_) (nodes l) H k (Nat.div2 i))) (ns :: states)), _.
  assert (Hend : link_inv (compare_:=compare_) (V:=V) (nodes l) H k h h (default ns (list.last states))).
  { rewrite last_lookup, list_lookup_imap in Hlast. apply fmap_Some in Hlast as (m & Hm & E).
    apply Hinv in Hm. rewrite length_imap in Hm. cbn [length pred] in Hm.
    rewrite Hls, Nat.div2_double in Hm. by simplify_eq. }
  split; [done|]. split; [|split; [exact (history_of_states _ H HR k h (proj2 Hh) states Hst)|split; [exact Hlast|]]].
  { apply list_eq. intros i. rewrite list_lookup_fmap, list_lookup_imap.
    by destruct ((ns :: states) !! i). }
  split; [|split].
  - split; [apply Hend|]. split; cbn [max_height_]; [case_decide; lia|]. intros i Hi.
    unfold linked. rewrite decide_False by (case_decide; lia). apply Htop. case_decide; lia.
  - cbn [nodes]. rewrite (linked_keys _ _ _ _ _ _ HR Vk Hend), decide_True by lia. done.
  - apply list.Forall_forall. intros s [i Hi]%list_elem_of_lookup. rewrite list_lookup_imap in Hi.
    apply fmap_Some in Hi as (m & Hm%Hinv & ->). cbn [fst snd].
    rewrite (linked_keys _ _ _ _ _ _ HR Vk Hm). destruct (decide (0 < Nat.div2 i)%nat); [by right|by left].
Qed.

(** ** Readers beside a writer *)

(** One load of a search: right, or down (or done). *)
Lemma racy_step k ns H sched x level :
  V k → repr compare_ V ns H → (level < kMaxHeight)%nat → x ∈ H level → before compare_ ns k x →
  (∃ y, racy_search compare_ k (ns :: sched) x level = racy_search compare_ k sched y level ∧
     y ∈ H level ∧ before compare_ ns k y ∧ node_lt compare_ V ns x y) ∨
  racy_search compare_ k (ns :: sched) x level =
    match level with
    | O => Some (inr (cut_next (before compare_ ns k) (H 0%nat), sched))
    | S level => racy_search compare_ k sched x level
    end.
Proof.
  intros Vk HR Hl Hxl Hxb.
  destruct (cut_step (before compare_ ns k) ns H HR (λ a b, before_down ns k a b Vk) level x Hl)
    as (next & En & Hn); [by apply list_elem_of_filter|].
  cbn [racy_search]. rewrite En. cbn [mbind option_bind].
  destruct next as [y|]; [|right; destruct Hn as [_ Hc]; destruct level; by rewrite ?Hc].
  destruct (node_key ns H HR y (next_node ns H HR level x y Hl Hxl En)) as [H0 (n & Hny & _)].
  cbn [KeyIsAfterNode]. rewrite Hny. cbn [mbind option_bind].
  assert (Hky : key_of ns y = Some (key n)) by (unfold key_of; by rewrite Hny).
  rewrite <- (before_key (V:=V) ns k y (key n) H0 Hky).
  destruct (before compare_ ns k y) eqn:Eb.
  - left. exists y. destruct Hn as [[_ ?]%list_elem_of_filter ?]. by rewrite Eb.
  - right. destruct Hn as [_ Hc]. destruct level; by rewrite ?Hc.
Qed.

(** A node stays on its levels and before the key. *)
Lemma grows_keep k (s s' : list (Node Key) * (nat → list nat)) y m :
  grows s s' → (m < kMaxHeight)%nat → y ∈ s.2 m → before compare_ s.1 k y →
  y ∈ s'.2 m ∧ before compare_ s'.1 k y.
Proof.
  intros [Hk Hlv] Hm Hy Hb. split; [by apply Hlv|]. unfold before in *.
  destruct (bool_decide_reflect (y = 0%nat)); [done|]. cbn [orb] in *.
  destruct (key_of s.1 y) eqn:Ey; [|done]. by rewrite (Hk y _ Ey).
Qed.

(** Along a history a search is always at a node of its level that is before
    the key, and what it returns is right for the memory of its last load. *)
Lemma racy_search_spec k (sched : list (list (Node Key) * (nat → list nat))) x level :
  V k → history compare_ V sched → (level < kMaxHeight)%nat →
  (∀ s, head sched = Some s → x ∈ s.2 level ∧ before compare_ s.1 k x) →
  ∃ r, racy_search compare_ k (fst <$> sched) x level = Some r ∧
    ∀ next rest, r = inr (next, rest) →
      ∃ n ns H, (S n + length rest = length sched)%nat ∧ sched !! n = Some (ns, H) ∧
        next = cut_next (before compare_ ns k) (H 0%nat).
Proof.
  intros Vk. revert x level. induction sched as [|[ns H] sched IH]; intros x level Hh Hl Hx.
  { exists (inl (x, level)). split; [done|]. by intros. }
  destruct Hh as [[HR HRs]%list.Forall_cons [Hs Hg]%StronglySorted_inv].
  destruct (Hx _ eq_refl) as [Hxl Hxb]. clear Hx. cbn [fst snd] in *.
  assert (IH' : ∀ y m, y ∈ H m → before compare_ ns k y → (m < kMaxHeight)%nat →
    ∃ r, racy_search compare_ k (fst <$> sched) y m = Some r ∧
    ∀ next rest, r = inr (next, rest) →
      ∃ n ns' H', (S n + length rest = length ((ns, H) :: sched))%nat ∧ ((ns, H) :: sched) !! n = Some (ns', H') ∧
        next = cut_next (before compare_ ns' k) (H' 0%nat)).
  { intros y m Hy Hb Hm. destruct (IH y m) as (r & -> & Hr); [by split|done|..].
    - intros s Es. eapply (grows_keep k (ns, H)); [|done..].
      destruct sched as [|s' sched]; [done|]. simplify_eq/=. by apply list.Forall_cons in Hg as [? _].
    - exists r. split; [done|]. intros next rest Er. destruct (Hr next rest Er) as (n & ns' & H' & Hn & ? & ?).
      exists (S n), ns', H'. split; [cbn; lia|done]. }
  cbn [fmap list_fmap fst].
  destruct (racy_step k ns H (fst <$> sched) x level Vk HR Hl Hxl Hxb) as [(y & -> & Hy & Hb & _)| ->];
    [by apply IH'|].
  destruct level as [|level]; [|apply IH'; [|done|lia]].
  - eexists; split; [done|]. intros ?? [= <- <-]. exists 0%nat, ns, H. split; [cbn; by rewrite length_fmap|done].
  - eapply elem_of_sublist; [exact Hxl|]. by apply HR.
Qed.

Lemma grows_trans (a b c : list (Node Key) * (nat → list nat)) : grows a b → grows b c → grows a c.
Proof. intros [K1 L1] [K2 L2]. split; eauto. Qed.

Lemma history_app a b tr tr' :
  history compare_ V (a :: tr) → list.last (a :: tr) = Some b → history compare_ V (b :: tr') →
  history compare_ V (a :: tr ++ tr').
Proof.
  intros [R1 S1] Hl [[_ R2]%list.Forall_cons [S2 G2]%StronglySorted_inv]. rewrite app_comm_cons. split.
  - apply list.Forall_app. done.
  - apply sorted_app. splits; [done..|]. intros x y Hx Hy. rewrite list.Forall_forall in G2.
    apply G2 in Hy. apply list.last_Some in Hl as [l' El]. rewrite El in S1, Hx.
    apply sorted_app in S1 as (_ & _ & G1). apply elem_of_app in Hx as [Hx|Hx%list_elem_of_singleton].
    + eapply grows_trans; [|exact Hy]. apply G1; [done|left].
    + by subst.
Qed.

Lemma stores_cons {A} (g : list A) runs c : stores (g :: runs) (S c) = (length g + stores runs c)%nat.
Proof. unfold stores. cbn [take concat]. by rewrite length_app. Qed.

(** A memory of the first insertion, and one of those behind it. *)
Lemma inserted_first {A} (g : list A) runs i j :
  (i < length g)%nat → (j ≤ 1)%nat → (i = 0%nat → j = 0%nat) → inserted (g :: runs) i j.
Proof.
  intros Hi Hj H0. split; [cbn; lia|]. split.
  - intros [|c] _ Hc; [lia|]. rewrite stores_cons in Hc. lia.
  - intros c ->. assert (c = 0%nat) as -> by lia. unfold stores. cbn. destruct i; [by specialize (H0 eq_refl)|lia].
Qed.

Lemma inserted_next {A} (g : list A) runs i j :
  (0 < length g)%nat → inserted runs i j → inserted (g :: runs) (length g + i) (S j).
Proof.
  intros Hg (H1 & H2 & H3). split; [cbn; lia|]. split.
  - intros [|c] Hc Hs; [lia|]. rewrite stores_cons in Hs. cbn in Hc. pose proof (H2 c ltac:(lia) ltac:(lia)). lia.
  - intros c [= <-]. destruct j as [|j]; [cbn; lia|]. rewrite stores_cons. pose proof (H3 j eq_refl). lia.
Qed.

Lemma lookup_join {A} (a b : A) tr tr' i s :
  list.last (a :: tr) = Some b → (a :: tr ++ tr') !! i = Some s →
  (i < length tr)%nat ∧ (a :: tr) !! i = Some s ∨ ∃ i', i = (length tr + i')%nat ∧ (b :: tr') !! i' = Some s.
Proof.
  intros Hl Hi. destruct (decide (i < length tr)%nat) as [Hlt|Hge].
  - left. split; [done|]. rewrite app_comm_cons, lookup_app_l in Hi by (cbn; lia). done.
  - right. exists (i - length tr)%nat. split; [lia|]. apply list.last_Some in Hl as [pre Hpre].
    assert (length pre = length tr) as Hlen by (apply (f_equal length) in Hpre; rewrite length_app in Hpre; cbn in Hpre; lia).
    rewrite app_comm_cons, Hpre, <- app_assoc, lookup_app_r in Hi by lia. by rewrite Hlen in Hi.
Qed.

Lemma Inserts_history l H ks' :
  rests l H → insertable compare_ V (keys (nodes l) H) ks' →
  ∃ runs l' tr H', Inserts_states compare_ l ks' = Some (runs, l') ∧ length runs = length ks' ∧ fst <$> tr = concat runs ∧
    history compare_ V ((nodes l, H) :: tr) ∧
    list.last ((nodes l, H) :: tr) = Some (nodes l', H') ∧ rests l' H' ∧
    keys (nodes l') H' = foldl (insert_key compare_) (keys (nodes l) H) ks' ∧
    ∀ i s, ((nodes l, H) :: tr) !! i = Some s → ∃ j, inserted runs i j ∧
      keys s.1 s.2 = foldl (insert_key compare_) (keys (nodes l) H) (take j ks').
Proof.
  revert l H. induction ks' as [|k ks' IH]; intros l H HR Hi.
  - exists [], l, [], H. splits; try done.
    + split; [apply list.Forall_singleton, HR|by repeat constructor].
    + intros i s Hs. exists 0%nat. split; [split; [done|split; [intros; cbn in *; lia|done]]|].
      by apply list_lookup_singleton_Some in Hs as [_ <-].
  - destruct Hi as (Vk & Hf & Hi).
    destruct (Insert_history l H k HR Vk Hf) as (st1 & l1 & tr1 & H1 & E1 & F1 & Hh1 & La1 & R1 & K1 & A1).
    rewrite <- K1 in Hi. destruct (IH l1 H1 R1 Hi) as (runs & l2 & tr2 & H2 & E2 & Hlen & F2 & Hh2 & La2 & R2 & K2 & A2).
    exists (st1 :: runs), l2, (tr1 ++ tr2), H2. cbn [Inserts_states]. rewrite E1. cbn [mbind option_bind].
    rewrite E2. cbn [mbind option_bind].
    assert (La1' : list.last ((nodes l, H) :: tr1) = Some (nodes l1, H1)).
    { rewrite last_cons, La1. done. }
    assert (Hst : length st1 = length tr1) by by rewrite <- F1, length_fmap.
    assert (Hpos : (0 < length st1)%nat) by (rewrite Hst; destruct tr1; [done|cbn; lia]).
    splits; [done|cbn; by rewrite Hlen|cbn [concat]; by rewrite fmap_app, F1, F2|by eapply history_app| |done|by rewrite K2, K1|].
    + rewrite app_comm_cons, last_app. rewrite last_cons in La2.
      destruct (list.last tr2); congruence.
    + intros i s Hs. apply (lookup_join _ _ _ _ _ _ La1') in Hs as [[Hlt Hs]|(i' & -> & Hs)].
      * destruct i as [|i].
        { injection Hs as <-. exists 0%nat. split; [apply inserted_first; lia|done]. }
        rewrite list.Forall_forall in A1. destruct (A1 s (list_elem_of_lookup_2 tr1 i _ Hs)) as [-> | ->].
        -- exists 0%nat. split; [apply inserted_first; lia|done].
        -- exists 1%nat. split; [apply inserted_first; lia|done].
      * destruct (A2 i' s Hs) as (j & Hj & ->). exists (S j). rewrite <- Hst. split; [by apply inserted_next|]. by rewrite K1.
Qed.

(** A search ends after at most [search_fuel] loads. *)
Lemma racy_search_done k sched nsf Hf x level pre rest :
  V k → history compare_ V sched → (level < kMaxHeight)%nat →
  (∀ s, head sched = Some s → x ∈ s.2 level ∧ before compare_ s.1 k x) →
  list.last sched = Some (nsf, Hf) →
  filter (before compare_ nsf k) (Hf 0%nat) = pre ++ x :: rest →
  (length rest + level < length sched)%nat →
  ∃ next left, racy_search compare_ k (fst <$> sched) x level = Some (inr (next, left)).
Proof.
  intros Vk. revert x level pre rest.
  induction sched as [|[ns H] sched IH]; intros x level pre rest Hh Hl Hx Hlast E Hlen; [cbn in Hlen; lia|].
  pose proof Hh as [[HR HRs]%list.Forall_cons [Hs Hg]%StronglySorted_inv].
  destruct (Hx _ eq_refl) as [Hxl Hxb]. clear Hx. cbn [fst snd length] in *.
  assert (HRf : repr compare_ V nsf Hf).
  { destruct Hh as [Hh _]. rewrite list.Forall_forall in Hh. apply (Hh (nsf, Hf)).
    by eapply last_Some_elem_of. }
  assert (HG : grows (ns, H) (nsf, Hf)).
  { rewrite last_cons in Hlast. destruct (list.last sched) eqn:El; simplify_eq; [|by split].
    rewrite list.Forall_forall in Hg. apply Hg. by eapply last_Some_elem_of. }
  assert (Hrec : ∀ y m pre' rest', y ∈ H m → before compare_ ns k y → (m < kMaxHeight)%nat →
    filter (before compare_ nsf k) (Hf 0%nat) = pre' ++ y :: rest' → (length rest' + m < length sched)%nat →
    ∃ next left, racy_search compare_ k (fst <$> sched) y m = Some (inr (next, left))).
  { intros y m pre' rest' Hy Hb Hm Ey Hlt. eapply IH; [by split|done| |  |done|done].
    - intros s Es. eapply (grows_keep k (ns, H)); [|done..].
      destruct sched as [|s' sched]; [done|]. simplify_eq/=. by apply list.Forall_cons in Hg as [? _].
    - rewrite last_cons in Hlast. destruct (list.last sched) eqn:El; [done|].
      apply last_None in El. subst. cbn in Hlt. lia. }
  cbn [fmap list_fmap fst].
  destruct (racy_step k ns H (fst <$> sched) x level Vk HR Hl Hxl Hxb) as [(y & -> & Hy & Hb & Hxy)| ->].
  - destruct (grows_keep k _ _ y level HG Hl Hy Hb) as [Hy' Hb'].
    destruct (cut_right (before compare_ nsf k) nsf Hf HRf x y pre rest E) as (r1 & r2 & ->).
    + apply list_elem_of_filter. split; [done|]. eapply elem_of_sublist; [exact Hy'|].
      eapply repr_sub_le; [exact HRf|lia|done].
    + eapply node_lt_keys; [|exact Hxy]. apply HG.
    + apply (Hrec y level (pre ++ x :: r1) r2); [done..|by rewrite E, <- app_assoc|].
      rewrite length_app in Hlen. cbn in Hlen. lia.
  - destruct level as [|level]; [by eauto|].
    apply (Hrec x level pre rest); [|done|lia|done|lia].
    eapply elem_of_sublist; [exact Hxl|]. by apply HR.
Qed.

(** ** The list as a sequence of keys *)

Lemma cut_ids ns H k :
  repr compare_ V ns H → V k →
  let n := length (keys_before compare_ (keys ns H) k) in
  cut_next (before compare_ ns k) (H 0%nat) = tail (H 0%nat) !! n ∧
  cut_last (before compare_ ns k) (H 0%nat) = H 0%nat !! n.
Proof.
  intros HR Vk n. destruct (level_0 ns H HR) as (t & Et & Ht).
  pose proof (level_cut (before compare_ ns k) ns H HR (λ a b, before_down ns k a b Vk) 0
    ltac:(unfold kMaxHeight; lia)) as Hc.
  destruct (keys_cut ns k t Ht) as [K1 _]. 
  assert (En : n = length (filter (before compare_ ns k) t)).
  { unfold n, keys. rewrite Et. cbn [tail]. rewrite <- K1. apply keys_lookup; [exact 0%nat|].
    rewrite list.Forall_forall in Ht |- *. intros x [_ Hx]%list_elem_of_filter. by apply Ht. }
  unfold cut_next, cut_last. rewrite Et in Hc |- *. cbn [tail].
  assert (F1 : filter (before compare_ ns k) (0%nat :: t) = 0%nat :: filter (before compare_ ns k) t) by done.
  assert (F2 : filter (λ x, ¬ before compare_ ns k x) (0%nat :: t) = filter (λ x, ¬ before compare_ ns k x) t) by done.
  rewrite F1, F2 in *. cbn [app] in Hc. injection Hc as Hc. rewrite En.
  clear F1 F2 K1 En Ht n Et HR. set (a := filter (before compare_ ns k) t) in *.
  set (b := filter (λ x, ¬ before compare_ ns k x) t) in *. clearbody a b. subst t. split.
  - rewrite lookup_app_r, Nat.sub_diag by done. by destruct b.
  - rewrite last_lookup. cbn [length pred]. rewrite app_comm_cons.
    rewrite lookup_app_l by (cbn; lia). done.
Qed.

Lemma Holds_rests l ids ks :
  Holds compare_ V l ids ks ↔ ∃ H, rests l H ∧ tail (H 0%nat) = ids ∧ keys (nodes l) H = ks.
Proof.
  unfold Holds, rests. split; intros (H & ?).
  - exists H. tauto.
  - exists H. tauto.
Qed.

Lemma new_SkipList_Holds k : Holds compare_ V (new_SkipList k) [] [].
Proof.
  exists (λ _, [0%nat]). splits; try done; [|cbn; unfold kMaxHeight; lia]. split; try done.
  - intros l Hl. exact (lookup_replicate_2 kMaxHeight None l Hl).
  - repeat constructor.
Qed.

Lemma Insert_Holds l ids ks k :
  Holds compare_ V l ids ks → V k → Forall (λ a, compare_ a k ≠ 0) ks →
  ∃ l' ids', Insert compare_ l k = Some l' ∧ Holds compare_ V l' ids' (insert_key compare_ ks k).
Proof.
  intros (H & HR & <- & <-)%Holds_rests Vk Hf.
  destruct (Insert_history l H k HR Vk Hf) as (states & l' & tr & H' & E & _ & _ & _ & HR' & EK & _).
  exists l', (tail (H' 0%nat)). unfold Insert. rewrite E. split; [done|].
  apply Holds_rests. eauto.
Qed.

Lemma Holds_keys l ids ks :
  Holds compare_ V l ids ks →
  StronglySorted (λ a b, compare_ a b < 0) ks ∧ Forall V ks ∧ length ids = length ks ∧
  ∀ i, iter_key l (ids !! i) = ks !! i.
Proof.
  intros (H & (HR & _) & <- & <-)%Holds_rests. destruct (keys_sorted _ _ HR) as [Hs HV].
  do 2 (split; [done|]). destruct (level_0 _ _ HR) as (t & Et & Ht). unfold keys. rewrite Et. cbn [tail].
  split; [exact (eq_sym (proj2 (keys_lookup _ t 0 Ht)))|]. intros i. unfold iter_key.
  destruct (keys_lookup _ t i Ht) as [-> _]. destruct (t !! i) as [x|]; [|done]. cbn.
  unfold key_of. by destruct (nodes l !! x).
Qed.

Lemma iter_Seek_Holds l ids ks k :
  Holds compare_ V l ids ks → V k →
  iter_Seek compare_ l k = Some (ids !! length (keys_before compare_ ks k)).
Proof.
  intros (H & (HR & Hm & _) & <- & <-)%Holds_rests Vk. unfold iter_Seek.
  destruct (FindGreaterOrEqual_nodes _ _ HR k _ Vk Hm) as (prev & -> & _).
  by destruct (cut_ids _ _ k HR Vk) as [-> _].
Qed.

Lemma keys_split ks k :
  StronglySorted (λ a b, compare_ a b < 0) ks → Forall V ks → V k →
  ks = keys_before compare_ ks k ++ keys_from compare_ ks k.
Proof.
  intros Hs HV Vk. unfold keys_before, keys_from.
  induction Hs as [|x ks Hs IH Hx]; [done|]. apply list.Forall_cons in HV as [Vx HV].
  rewrite !filter_cons. specialize (IH HV). destruct (decide (compare_ x k < 0)) as [Hc|Hc].
  - rewrite (decide_False (P:=¬ _)) by tauto. cbn. by rewrite <- IH.
  - rewrite (decide_True (P:=¬ _)) by done. rewrite filter_none, filter_all; [done|..];
      (apply list.Forall_forall; intros y Hy; rewrite list.Forall_forall in Hx, HV;
       specialize (Hx y Hy); specialize (HV y Hy);
       pose proof (ol_le_lt (V:=V) x y k Vx HV Vk); lia).
Qed.

Lemma keys_before_index ks i k :
  StronglySorted (λ a b, compare_ a b < 0) ks → Forall V ks → ks !! i = Some k →
  length (keys_before compare_ ks k) = i.
Proof.
  intros Hs HV Hi. pose proof (lookup_lt_Some _ _ _ Hi) as Hlt.
  rewrite <- (take_drop_middle ks i k Hi) in Hs, HV |- *.
  apply sorted_app in Hs as (_ & [_ Ha]%StronglySorted_inv & Hb).
  apply list.Forall_app in HV as [_ [Vk HV]%list.Forall_cons].
  unfold keys_before. rewrite list.filter_app, filter_cons, decide_False by by eapply ol_irrefl.
  rewrite filter_all, (filter_none _ (drop _ _)).
  - rewrite app_nil_r, length_take. lia.
  - apply list.Forall_forall. intros y Hy. rewrite list.Forall_forall in Ha, HV.
    pose proof (ol_flip (V:=V) k y Vk (HV y Hy)). specialize (Ha y Hy). cbn in Ha. lia.
  - apply list.Forall_forall. intros y Hy. apply Hb; [done|left].
Qed.

Lemma iter_Next_Holds l ids ks i :
  Holds compare_ V l ids ks → (i < length ids)%nat → iter_Next l (ids !! i) = Some (ids !! S i).
Proof.
  intros (H & (HR & _) & <- & <-)%Holds_rests Hi. destruct (level_0 _ _ HR) as (t & Et & Ht).
  pose proof (repr_path _ _ _ _ HR 0 ltac:(unfold kMaxHeight; lia)) as Hp. rewrite Et in Hi, Hp |- *.
  cbn [tail] in *. destruct (lookup_lt_is_Some_2 _ _ Hi) as [x Hx]. rewrite Hx. cbn.
  rewrite <- (take_drop_middle t i x Hx), app_comm_cons in Hp. apply path_suffix, path_Next in Hp.
  rewrite Hp. f_equal. rewrite head_lookup, lookup_drop. f_equal. lia.
Qed.

Lemma not_head_index ns t i :
  Forall (node_lt compare_ V ns 0) t →
  (0%nat :: t) !! i ≫= not_head = match i with O => None | S i => t !! i end.
Proof.
  intros Ht. destruct i as [|i]; [done|]. cbn. destruct (t !! i) as [x|] eqn:E; [|done]. cbn.
  rewrite list.Forall_forall in Ht. destruct (Ht x ltac:(by eapply list_elem_of_lookup_2)) as [Hx _].
  unfold not_head. by rewrite decide_False.
Qed.

Lemma iter_Prev_Holds l ids ks i :
  Holds compare_ V l ids ks → (i < length ids)%nat →
  iter_Prev compare_ l (ids !! i) = Some (match i with O => None | S i => ids !! i end).
Proof.
  intros HH Hi. destruct (Holds_keys _ _ _ HH) as (Hs & HV & Hlen & Hkey). unfold iter_Prev.
  rewrite Hkey. destruct (lookup_lt_is_Some_2 ks i ltac:(lia)) as [k Ek]. rewrite Ek. cbn.
  apply Holds_rests in HH as (H & (HR & Hm & _) & <- & <-).
  assert (Vk : V k) by (rewrite list.Forall_lookup in HV; by eapply HV).
  rewrite (FindLessThan_nodes _ _ HR k _ Vk Hm). destruct (cut_ids _ _ k HR Vk) as [_ ->].
  rewrite (keys_before_index _ i k Hs HV Ek). destruct (level_0 _ _ HR) as (t & Et & Ht).
  rewrite Et in Hi |- *. cbn [tail] in *. pose proof (not_head_index _ t i Ht) as Hn.
  destruct (lookup_lt_is_Some_2 (0%nat :: t) i ltac:(cbn; lia)) as [x Ex]. rewrite Ex in Hn |- *.
  cbn in Hn |- *. by rewrite Hn.
Qed.

Lemma iter_SeekToFirst_Holds l ids ks :
  Holds compare_ V l ids ks → iter_SeekToFirst l = Some (ids !! 0%nat).
Proof.
  intros (H & (HR & _) & <- & <-)%Holds_rests. destruct (level_0 _ _ HR) as (t & Et & Ht).
  pose proof (repr_path _ _ _ _ HR 0 ltac:(unfold kMaxHeight; lia)) as Hp. rewrite Et in Hp |- *.
  apply path_Next in Hp. unfold iter_SeekToFirst. rewrite Hp. by destruct t.
Qed.

Lemma iter_SeekToLast_Holds l ids ks :
  Holds compare_ V l ids ks → iter_SeekToLast l = Some (list.last ids).
Proof.
  intros (H & (HR & Hm & _) & <- & <-)%Holds_rests. destruct (level_0 _ _ HR) as (t & Et & Ht).
  unfold iter_SeekToLast. rewrite (FindLast_nodes _ _ HR _ Hm), Et. cbn [tail].
  rewrite last_lookup. pose proof (not_head_index _ t (pred (length (0%nat :: t))) Ht) as Hn.
  destruct (lookup_lt_is_Some_2 (0%nat :: t) (pred (length (0%nat :: t))) ltac:(cbn; lia)) as [x Ex].
  rewrite Ex in Hn |- *. cbn in Hn |- *. rewrite Hn, last_lookup. by destruct t.
Qed.

Lemma keys_from_head ks k :
  StronglySorted (λ a b, compare_ a b < 0) ks → Forall V ks → V k →
  ks !! length (keys_before compare_ ks k) = head (keys_from compare_ ks k).
Proof.
  intros Hs HV Vk. pose proof (keys_split ks k Hs HV Vk) as E.
  set (a := keys_before compare_ ks k) in *. set (b := keys_from compare_ ks k) in *.
  clearbody a b. subst ks. rewrite lookup_app_r, Nat.sub_diag by done. by destruct b.
Qed.

(** The first key from [k] on is equal to [k] when any key is. *)
Lemma keys_from_equal ks k :
  StronglySorted (λ a b, compare_ a b < 0) ks → Forall V ks → V k →
  (∃ a, a ∈ ks ∧ compare_ k a = 0) ↔
  ∃ a, head (keys_from compare_ ks k) = Some a ∧ compare_ k a = 0.
Proof.
  intros Hs HV Vk. split.
  - intros (a & Ha & E). pose proof Ha as HVa. rewrite list.Forall_forall in HV. apply HV in HVa.
    pose proof (ol_flip (V:=V) a k HVa Vk) as Hflip.
    assert (Hin : a ∈ keys_from compare_ ks k) by (apply list_elem_of_filter; split; [lia|done]).
    assert (Hsf : StronglySorted (λ a b, compare_ a b < 0) (keys_from compare_ ks k)).
    { eapply sorted_sublist; [exact Hs|]. apply sublist_filter. }
    destruct (keys_from compare_ ks k) as [|b t] eqn:Ef; [by apply not_elem_of_nil in Hin|].
    assert (Hb : b ∈ ks ∧ ¬ compare_ b k < 0).
    { assert (b ∈ keys_from compare_ ks k) as [? ?]%list_elem_of_filter by (rewrite Ef; left). done. }
    destruct Hb as [Hb%HV Hbk]. exists b. split; [done|]. apply elem_of_cons in Hin as [<-|Hin]; [done|].
    apply StronglySorted_inv in Hsf as [_ Hx]. rewrite list.Forall_forall in Hx. specialize (Hx a Hin).
    pose proof (ol_flip (V:=V) b k Hb Vk). pose proof (ol_flip (V:=V) k b Vk Hb).
    pose proof (ol_flip (V:=V) k a Vk HVa).
    pose proof (ol_lt_le (V:=V) b a k Hb HVa Vk Hx). lia.
  - intros (a & Ha & E). exists a. split; [|done].
    assert (a ∈ keys_from compare_ ks k) as [_ ?]%list_elem_of_filter; [|done].
    destruct (keys_from compare_ ks k); [done|]. simplify_eq/=. left.
Qed.

Lemma Contains_Holds l ids ks k :
  Holds compare_ V l ids ks → V k →
  ∃ b, Contains compare_ l k = Some b ∧ (b = true ↔ ∃ a, a ∈ ks ∧ compare_ k a = 0).
Proof.
  intros HH Vk. pose proof (iter_Seek_Holds _ _ _ k HH Vk) as Hs. unfold Contains.
  unfold iter_Seek in Hs. destruct (FindGreaterOrEqual compare_ (nodes l) (max_height_ l) k) as [[x prev]|]; [|done].
  cbn in Hs |- *. injection Hs as ->. destruct (Holds_keys _ _ _ HH) as (Hsort & HV & Hlen & Hkey).
  specialize (Hkey (length (keys_before compare_ ks k))).
  pose proof (keys_from_equal ks k Hsort HV Vk) as Heq. rewrite <- (keys_from_head ks k Hsort HV Vk) in Heq.
  unfold iter_key in Hkey. destruct (ids !! _) as [x|] eqn:Ex; cbn in Hkey |- *.
  - apply lookup_lt_Some in Ex. rewrite Hlen in Ex.
    destruct (lookup_lt_is_Some_2 _ _ Ex) as [a Ea]. rewrite Ea in Hkey, Heq.
    destruct (nodes l !! x) as [n|]; [|done]. cbn in Hkey |- *. simplify_eq.
    eexists; split; [done|]. unfold Equal. rewrite bool_decide_eq_true, Heq. naive_solver.
  - eexists; split; [done|]. rewrite Heq, <- Hkey. naive_solver.
Qed.

(** What a reader meets when its loads fall, in order, on memories of a
    history. *)
Lemma history_schedule tr idx :
  history compare_ V tr → StronglySorted le idx → history compare_ V (omap (λ i, tr !! i) idx).
Proof.
  intros [Hr Hg] Hidx. split.
  - apply list.Forall_forall. intros s (i & _ & Hi)%list_elem_of_omap.
    rewrite list.Forall_forall in Hr. apply Hr. by eapply list_elem_of_lookup_2.
  - induction Hidx as [|i idx _ IH Hi]; [constructor|]. cbn.
    destruct (tr !! i) as [s|] eqn:Es; [|done]. constructor; [done|].
    apply list.Forall_forall. intros s' (j & Hj & Es')%list_elem_of_omap.
    rewrite list.Forall_forall in Hi. specialize (Hi j Hj).
    destruct (decide (i = j)) as [->|]; [simplify_eq; by split|].
    eapply (sorted_index grows); [exact Hg| |exact Es|exact Es']. lia.
Qed.

Lemma cut_next_keys ns H k :
  repr compare_ V ns H → V k →
  cut_next (before compare_ ns k) (H 0%nat) ≫= key_of ns = head (keys_from compare_ (keys ns H) k).
Proof.
  intros HR Vk. destruct (cut_ids ns H k HR Vk) as [-> _]. destruct (keys_sorted ns H HR) as [Hs HV].
  rewrite <- (keys_from_head _ k Hs HV Vk). destruct (level_0 ns H HR) as (t & Et & Ht).
  unfold keys. rewrite Et. cbn [tail]. symmetry. by apply keys_lookup.
Qed.

(** A memory of a history has no more nodes than the last one. *)
Lemma grows_length (s s' : list (Node Key) * (nat → list nat)) :
  repr compare_ V s.1 s.2 → repr compare_ V s'.1 s'.2 → grows s s' →
  (length (s.2 0%nat) ≤ length s'.1)%nat.
Proof.
  intros HR HR' [_ Hl]. etrans; [|exact (length_le_of_nodes _ _ HR')].
  apply submseteq_length, NoDup_submseteq; [by eapply nodes_NoDup|].
  intros y. apply Hl. unfold kMaxHeight. lia.
Qed.

Lemma history_grows_last (tr : list (list (Node Key) * (nat → list nat))) s b :
  StronglySorted grows tr → s ∈ tr → list.last tr = Some b → grows s b.
Proof.
  intros Hs [i Hi]%list_elem_of_lookup Hb. rewrite last_lookup in Hb.
  pose proof (lookup_lt_Some _ _ _ Hi). destruct (decide (i = pred (length tr))) as [->|].
  - simplify_eq. by split.
  - eapply (sorted_index grows); [exact Hs| |exact Hi|exact Hb]. lia.
Qed.

(** The search of a reader over the memories of a history: it gives a right
    answer, and it is done after [search_fuel] loads. *)
Lemma scheduled_search k (tr : list (list (Node Key) * (nat → list nat))) b idx level :
  V k → (level < kMaxHeight)%nat → history compare_ V tr → list.last tr = Some b →
  StronglySorted le idx → Forall (λ i, (i < length tr)%nat) idx →
  ∃ r, racy_search compare_ k (omap (λ i, (fst <$> tr) !! i) idx) 0 level = Some r ∧
    ((search_fuel b.1 ≤ length idx)%nat → ∃ next left, r = inr (next, left)) ∧
    ∀ next left, r = inr (next, left) →
      ∃ n i ns H, (S n + length left = length idx)%nat ∧ idx !! n = Some i ∧ tr !! i = Some (ns, H) ∧
        next ≫= key_of ns = head (keys_from compare_ (keys ns H) k).
Proof.
  intros Vk Hl Hh Hb Hidx Hin. pose proof (history_schedule tr idx Hh Hidx) as Hsch.
  set (sched := omap (λ i, tr !! i) idx) in *.
  assert (Esch : omap (λ i, (fst <$> tr) !! i) idx = fst <$> sched).
  { unfold sched. clear. induction idx as [|i idx IH]; [done|]. cbn.
    rewrite list_lookup_fmap. destruct (tr !! i); cbn; by rewrite IH. }
  assert (Elen : length sched = length idx).
  { unfold sched. clear -Hin. induction Hin as [|i idx Hi _ IH]; [done|]. cbn.
    destruct (lookup_lt_is_Some_2 tr i Hi) as [s ->]. cbn. by rewrite IH. }
  assert (Hsn : ∀ n s, sched !! n = Some s → ∃ i, idx !! n = Some i ∧ tr !! i = Some s).
  { unfold sched. clear -Hin. induction Hin as [|i idx Hi _ IH]; [done|]. cbn [omap list_omap].
    destruct (lookup_lt_is_Some_2 tr i Hi) as [s' E]. rewrite E. intros [|n] s Hs; [|by apply IH].
    injection Hs as <-. by exists i. }
  assert (Hmem : ∀ s, s ∈ sched → s ∈ tr).
  { intros s (i & _ & Hi)%list_elem_of_omap. by eapply list_elem_of_lookup_2. }
  destruct Hh as [Hr Hg]. rewrite list.Forall_forall in Hr.
  assert (Hhead : ∀ s, head sched = Some s → 0%nat ∈ s.2 level ∧ before compare_ s.1 k 0).
  { intros s Hs. split; [|done]. eapply head_member; [apply Hr, Hmem|done].
    destruct sched; [done|]. simplify_eq/=. left. }
  destruct (racy_search_spec k sched 0 level Vk Hsch Hl Hhead) as (r & Er & Hok).
  exists r. rewrite Esch. split; [done|]. split.
  - intros Hfuel. rewrite <- Elen in Hfuel.
    destruct (list.last sched) as [[nsf Hf]|] eqn:El.
    2: { apply last_None in El. rewrite El in Hfuel. unfold search_fuel, kMaxHeight in Hfuel. cbn in Hfuel. lia. }
    pose proof (Hmem _ (last_Some_elem_of _ _ El)) as Hf'.
    assert (Hlen : (length (Hf 0%nat) ≤ length b.1)%nat).
    { apply (grows_length (nsf, Hf) b); [by apply Hr|apply Hr; by eapply last_Some_elem_of|].
      by eapply history_grows_last. }
    destruct (level_0 nsf Hf (Hr _ Hf')) as (t & Et & _).
    destruct (racy_search_done k sched nsf Hf 0 level [] (filter (before compare_ nsf k) t)) as (next & left & E);
      [done..|by rewrite Et| |].
    + rewrite Et in Hlen. cbn in Hlen. pose proof (length_filter (before compare_ nsf k) t).
      unfold search_fuel in Hfuel. lia.
    + rewrite E in Er. simplify_eq. eauto.
  - intros next left ->. destruct (Hok next left eq_refl) as (n & ns & H & Hn & Hs & ->).
    destruct (Hsn n _ Hs) as (i & Hi & Ht). exists n, i, ns, H. splits; [lia|done|done|].
    apply cut_next_keys; [by apply (Hr _ (list_elem_of_lookup_2 _ _ _ Ht))|done].
Qed.
End Operations.

(** ** Main theorems *)

#[export] Instance Zsub_order : OrderLaws Z.sub (λ _, True).
Proof. split; intros; lia. Qed.

Section Main.
Context {Key : Type} {compare_ : Key → Key → Z} {V : Key → Prop} {OL : OrderLaws compare_ V}.

(** C14: inserting a key that is not in the list succeeds, whatever height the
    random number generator gives: the list then holds the key in its place
    in the order, between those before it and those after it, and [Contains]
    is true of just the keys that compare equal to one of them. *)
Theorem Insert_correct (l : SkipList Key) ids ks k :
  Holds compare_ V l ids ks → V k → Forall (λ a, compare_ a k ≠ 0) ks →
  ∃ l' ids', Insert compare_ l k = Some l' ∧
    Holds compare_ V l' ids' (keys_before compare_ ks k ++ k :: keys_from compare_ ks k) ∧
    StronglySorted (λ a b, compare_ a b < 0) (keys_before compare_ ks k ++ k :: keys_from compare_ ks k) ∧
    ∀ k', V k' → ∃ b, Contains compare_ l' k' = Some b ∧
      (b = true ↔ ∃ a, (a = k ∨ a ∈ ks) ∧ compare_ k' a = 0).
Proof.
  intros HH Vk Hf. destruct (Holds_keys _ _ _ HH) as (Hs & HV & _).
  destruct (Insert_Holds l ids ks k HH Vk Hf) as (l' & ids' & E & HH').
  exists l', ids'. split; [done|]. split; [done|]. split; [by apply (Holds_keys _ _ _ HH')|].
  intros k' Vk'. destruct (Contains_Holds _ _ _ k' HH' Vk') as (b & Eb & Hb). exists b. split; [done|].
  assert (Hin : ∀ a, a ∈ ks ↔ a ∈ keys_before compare_ ks k ∨ a ∈ keys_from compare_ ks k).
  { intros a. rewrite <- elem_of_app. by rewrite <- (keys_split ks k Hs HV Vk). }
  rewrite Hb. unfold insert_key. setoid_rewrite Hin. setoid_rewrite elem_of_app. setoid_rewrite elem_of_cons. naive_solver.
Qed.

(** C15: the iterator of a list is a position in its sorted keys: [Seek] goes
    to the first key that is not before the target, [SeekToFirst] and
    [SeekToLast] to the ends, [Next] and [Prev] one key on and back, past the
    ends it is not valid, and [key] is the key at the position. *)
Theorem iterator_correct (l : SkipList Key) ids ks :
  Holds compare_ V l ids ks →
  (∀ i, iter_key l (ids !! i) = ks !! i ∧ iter_Valid (ids !! i) = bool_decide (i < length ks)%nat) ∧
  iter_SeekToFirst l = Some (ids !! 0%nat) ∧
  iter_SeekToLast l = Some (list.last ids) ∧
  (∀ k, V k → iter_Seek compare_ l k = Some (ids !! length (keys_before compare_ ks k)) ∧
    ks = keys_before compare_ ks k ++ keys_from compare_ ks k) ∧
  (∀ i, (i < length ks)%nat →
    iter_Next l (ids !! i) = Some (ids !! S i) ∧
    iter_Prev compare_ l (ids !! i) = Some (match i with O => None | S i => ids !! i end)).
Proof.
  intros HH. destruct (Holds_keys _ _ _ HH) as (Hs & HV & Hlen & Hkey).
  split; [intros i; split; [apply Hkey|]|].
  { unfold iter_Valid. apply bool_decide_ext. rewrite lookup_lt_is_Some. by rewrite Hlen. }
  split; [by eapply iter_SeekToFirst_Holds|]. split; [by eapply iter_SeekToLast_Holds|].
  split; [intros k Vk; split; [by apply iter_Seek_Holds|by apply keys_split]|].
  intros i Hi. rewrite <- Hlen in Hi. split; [by eapply iter_Next_Holds|by eapply iter_Prev_Holds].
Qed.

(** C13: readers need no lock. While a writer inserts a series of keys one
    store at a time, a search for [k] whose loads fall between those stores
    in any way, and which starts on any level (its view of [max_height_] may
    be stale), never follows a bad pointer and ends within [search_fuel] loads.
    Its answer is right for the moment [i] of its last load: it is the first key
    from [k] on of the list that holds the old keys and the first [j] of the new
    ones, among which are all whose insertion was complete at that moment, and
    none whose insertion had not begun; so that what is inserted before a search
    begins is found. *)
Theorem concurrent_search (l : SkipList Key) ids ks ks' :
  Holds compare_ V l ids ks → insertable compare_ V ks ks' →
  ∃ runs l', Inserts_states compare_ l ks' = Some (runs, l') ∧ length runs = length ks' ∧
  let memories := nodes l :: concat runs in
  list.last memories = Some (nodes l') ∧
  ∀ k level idx, V k → (level < kMaxHeight)%nat → StronglySorted le idx →
    Forall (λ i, (i < length memories)%nat) idx →
    ∃ r, racy_search compare_ k (omap (λ i, memories !! i) idx) 0 level = Some r ∧
      ((search_fuel (nodes l') ≤ length idx)%nat → ∃ next left, r = inr (next, left)) ∧
      ∀ next left, r = inr (next, left) →
        ∃ n i j ns, (S n + length left = length idx)%nat ∧ idx !! n = Some i ∧ memories !! i = Some ns ∧ inserted runs i j ∧
          next ≫= key_of ns = head (keys_from compare_ (foldl (insert_key compare_) ks (take j ks')) k).
Proof.
  intros (H & HR & <- & <-)%Holds_rests Hi.
  destruct (Inserts_history l H ks' HR Hi) as (runs & l' & tr & H' & E & Hlen & Etr & Hh & Hlast & _ & _ & Hall).
  exists runs, l'. split; [done|]. split; [done|]. rewrite <- Etr. change (nodes l :: (fst <$> tr)) with (fst <$> (nodes l, H) :: tr).
  cbv zeta. split; [by rewrite fmap_last, Hlast|]. intros k level idx Vk Hl Hidx Hin.
  destruct (scheduled_search k _ _ idx level Vk Hl Hh Hlast Hidx) as (r & Er & Hdone & Hok).
  { eapply Forall_impl; [|exact Hin]. intros i Hle. by rewrite length_fmap in Hle. }
  exists r. split; [exact Er|]. split; [done|]. intros next left Hr.
  destruct (Hok next left Hr) as (n & i & ns & Hn & Hlft & Hni & Hi' & Hkey). destruct (Hall i _ Hi') as (j & Hj & Ej).
  exists n, i, j, ns. splits; [done|done|by rewrite list_lookup_fmap, Hi'|done|]. by rewrite Hkey, <- Ej.
Qed.
End Main.

Lemma Insert_correct_witness :
  ∃ l' ids', Insert Z.sub (new_SkipList 0) 7 = Some l' ∧ Holds Z.sub (λ _, True) l' ids' [7].
Proof.
  destruct (Insert_correct (new_SkipList 0) [] [] 7 (new_SkipList_Holds 0) I (Forall_nil _))
    as (l' & ids' & E & HH & _). by exists l', ids'.
Defined.

Lemma iterator_correct_witness :
  ∃ l ids, Holds Z.sub (λ _, True) l ids [3; 5] ∧ iter_Seek Z.sub l 4 = Some (ids !! 1%nat) ∧
    iter_key l (ids !! 1%nat) = Some 5 ∧ iter_Prev Z.sub l (ids !! 1%nat) = Some (ids !! 0%nat) ∧
    iter_key l (ids !! 0%nat) = Some 3 ∧ iter_Next l (ids !! 1%nat) = Some (ids !! 2%nat) ∧ iter_Valid (ids !! 2%nat) = false.
Proof.
  destruct (Insert_Holds (compare_ := Z.sub) _ _ _ 5 (new_SkipList_Holds 0) I (Forall_nil _)) as (l1 & ids1 & _ & H1).
  destruct (Insert_Holds l1 ids1 _ 3 H1 I ltac:(repeat constructor; done)) as (l & ids & _ & HH).
  change (insert_key Z.sub _ 3) with [3; 5] in HH. exists l, ids. split; [exact HH|].
  destruct (iterator_correct l ids [3; 5] HH) as (Hk & _ & _ & Hseek & Hstep).
  split; [apply (Hseek 4 I)|]. split; [apply (Hk 1%nat)|]. split; [apply (Hstep 1%nat); cbn; lia|].
  split; [apply (Hk 0%nat)|]. split; [apply (Hstep 1%nat); cbn; lia|]. apply (Hk 2%nat).
Defined.

(** A search for 4 that starts before the key 5 is inserted, and is done when 5
    and 3 are there: it ends with a node, whose key is 5. *)
Lemma concurrent_search_witness :
  ∃ runs l', Inserts_states Z.sub (new_SkipList 0) [5; 3] = Some (runs, l') ∧
    let last := length (concat runs) in
    ∃ next left, racy_search Z.sub 4 (omap (λ i, (nodes (new_SkipList 0) :: concat runs) !! i) (0%nat :: replicate 20 last)) 0 1 =
      Some (inr (Some next, left)) ∧ (0 < length left)%nat ∧ key_of (nodes l') next = Some 5.
Proof.
  destruct (concurrent_search (new_SkipList 0) [] [] [5; 3] (new_SkipList_Holds (compare_:=Z.sub) 0))
    as (runs & l' & E & Hlen & Hlast & HS); [cbn; splits; try done; constructor; [done|constructor]|].
  exists runs, l'. split; [exact E|]. cbv zeta in *.
  destruct (HS 4 1%nat (0%nat :: replicate 20 (length (concat runs)))) as (r & Er & Hdone & Hok); [done|unfold kMaxHeight; lia| | |].
  { constructor; [|apply list.Forall_forall; intros; lia]. apply sorted_by_index. intros i j x y _ Hx Hy.
    apply lookup_replicate in Hx as [-> _]. apply lookup_replicate in Hy as [-> _]. done. }
  { constructor; [cbn; lia|]. apply list.Forall_forall. intros x [-> _]%elem_of_replicate. cbn. lia. }
  vm_compute in E. injection E as <- <-. vm_compute in Hlast. vm_compute in Er. injection Er as <-.
  destruct (Hok _ _ eq_refl) as (n & i & j & ns & Hn & Hi & Hns & (Hj1 & Hj2 & _) & Hkey). clear Hok Hdone HS.
  eexists _, _. split; [vm_compute; reflexivity|]. split; [cbn; lia|]. by vm_compute.
Defined.
