(* ===== verification/WriteBatch.v ===== *)
(** Write batches: [db/write_batch.cc] and [db/write_batch_internal.h].

    A batch is its [rep_]: eight bytes of sequence number, four bytes of count
    and the operations.  The interface [WriteBatch::Handler] is a class; a
    handler's call is [None] when it has no defined behaviour. *)
From S2P Require Import Prelude Coding Status DbFormat.

Definition kHeader : Z := 12.

Definition WriteBatch : Type := bytes.

(** A [uint32_t] stored in an [int]. *)
Definition int32 (z : Z) : Z := let z := u32 z in if decide (z < 2 ^ 31) then z else z - 2 ^ 32.

(** [memcpy(&rep[i], b)] inside the string. *)
Definition overwrite (rep : bytes) (i : Z) (b : bytes) : bytes :=
  ztake i rep ++ b ++ zdrop (i + zlen b) rep.

(** The constructor calls [Clear]. *)
Definition Clear : WriteBatch := replicate 12 (b8 0).

Definition Count (b : WriteBatch) : Z := int32 (DecodeFixed32 (zdrop 8 b)).
Definition SetCount (b : WriteBatch) (n : Z) : WriteBatch := overwrite b 8 (EncodeFixed32 (u32 n)).
Definition Sequence (b : WriteBatch) : Z := DecodeFixed64 b.
Definition SetSequence (b : WriteBatch) (seq : Z) : WriteBatch := overwrite b 0 (EncodeFixed64 seq).

Definition Put (b : WriteBatch) (key value : bytes) : WriteBatch :=
  let rep := SetCount b (Count b + 1) in
  let rep := rep ++ [b8 kTypeValue] in
  let rep := PutLengthPrefixedSlice rep key in
  PutLengthPrefixedSlice rep value.

Definition Delete (b : WriteBatch) (key : bytes) : WriteBatch :=
  let rep := SetCount b (Count b + 1) in
  let rep := rep ++ [b8 kTypeDeletion] in
  PutLengthPrefixedSlice rep key.

Definition ByteSize (b : WriteBatch) : Z := zlen b.
Definition Contents (b : WriteBatch) : bytes := b.
Definition SetContents (b : WriteBatch) (contents : bytes) : WriteBatch := contents.

Definition Append (dst src : WriteBatch) : WriteBatch :=
  SetCount dst (Count dst + Count src) ++ zdrop kHeader src.

Class Handler (H : Type) := {
  handler_Put : bytes → bytes → H → option H;
  handler_Delete : bytes → H → option H;
}.

Section Iterate.
Context {H : Type} {HH : Handler H}.

(** The loop of [Iterate]: [inr] is an early return, [inl found] the end of
    the input. Each turn takes the tag at least. *)
Fixpoint Iterate_loop (fuel : nat) (input : bytes) (found : Z) (handler : H)
    : option ((Z + Status) * H) :=
  match fuel with
  | O => None
  | S fuel =>
      match input with
      | [] => Some (inl found, handler)
      | tag :: input =>
          let found := found + 1 in
          if decide (u8 tag = kTypeValue) then
            match GetLengthPrefixedSlice input with
            | (Some key, input) =>
                match GetLengthPrefixedSlice input with
                | (Some value, input) =>
                    handler ← handler_Put key value handler;
                    Iterate_loop fuel input found handler
                | (None, _) => Some (inr (Corruption (str "bad WriteBatch Put") []), handler)
                end
            | (None, _) => Some (inr (Corruption (str "bad WriteBatch Put") []), handler)
            end
          else if decide (u8 tag = kTypeDeletion) then
            match GetLengthPrefixedSlice input with
            | (Some key, input) =>
                handler ← handler_Delete key handler;
                Iterate_loop fuel input found handler
            | (None, _) => Some (inr (Corruption (str "bad WriteBatch Delete") []), handler)
            end
          else Some (inr (Corruption (str "unknown WriteBatch tag") []), handler)
      end
  end.

Definition Iterate (b : WriteBatch) (handler : H) : option (Status * H) :=
  if decide (zlen b < kHeader) then
    Some (Corruption (str "malformed WriteBatch (too small)") [], handler)
  else
    let input := zdrop kHeader b in
    '(r, handler) ← Iterate_loop (S (length input)) input 0 handler;
    match r with
    | inr s => Some (s, handler)
    | inl found =>
        if decide (found ≠ Count b) then Some (Corruption (str "WriteBatch has wrong count") [], handler)
        else Some (Status_OK, handler)
    end.

End Iterate.

(** ** What a batch stands for *)

Inductive BatchOp := OpPut (key value : bytes) | OpDelete (key : bytes).

#[export] Instance BatchOp_eq_dec : EqDecision BatchOp.
Proof. solve_decision. Defined.

Definition op_ok (op : BatchOp) : Prop :=
  match op with
  | OpPut k v => zlen k < 2 ^ 32 ∧ zlen v < 2 ^ 32
  | OpDelete k => zlen k < 2 ^ 32
  end.

Definition encode_op (op : BatchOp) : bytes :=
  match op with
  | OpPut k v => b8 kTypeValue :: PutLengthPrefixedSlice [] k ++ PutLengthPrefixedSlice [] v
  | OpDelete k => b8 kTypeDeletion :: PutLengthPrefixedSlice [] k
  end.

Definition encode_ops (ops : list BatchOp) : bytes := concat (encode_op <$> ops).

Definition Batch_of (b : WriteBatch) (seq : Z) (ops : list BatchOp) : Prop :=
  b = EncodeFixed64 seq ++ EncodeFixed32 (zlen ops) ++ encode_ops ops.

(** The calls a handler receives for a list of operations. *)
Definition handle {H} {HH : Handler H} (op : BatchOp) (h : H) : option H :=
  match op with OpPut k v => handler_Put k v h | OpDelete k => handler_Delete k h end.

Fixpoint replay {H} {HH : Handler H} (ops : list BatchOp) (h : H) : option H :=
  match ops with
  | [] => Some h
  | op :: ops => h ← handle op h; replay ops h
  end.

Definition apply_op (b : WriteBatch) (op : BatchOp) : WriteBatch :=
  match op with OpPut k v => Put b k v | OpDelete k => Delete b k end.

(** The handler that records its calls. *)
#[export] Instance RecordingHandler : Handler (list BatchOp) := {
  handler_Put k v h := Some (h ++ [OpPut k v]);
  handler_Delete k h := Some (h ++ [OpDelete k]);
}.

(** ** The header *)

Lemma int32_small z : 0 ≤ z < 2 ^ 31 → int32 z = z.
Proof. intros. unfold int32. rewrite wrap_small by word_solve. cbn zeta. by rewrite decide_True by lia. Qed.

Lemma overwrite_at pre old new rest i :
  i = zlen pre → zlen old = zlen new → overwrite (pre ++ old ++ rest) i new = pre ++ new ++ rest.
Proof.
  intros -> Hl. unfold overwrite. rewrite ztake_app. do 2 f_equal.
  rewrite app_assoc. apply zdrop_app_n. rewrite zlen_app. lia.
Qed.

Section Header.
Context (seq : Z) (n : Z) (body : bytes).
Let b : WriteBatch := EncodeFixed64 seq ++ EncodeFixed32 n ++ body.

Lemma Count_header : 0 ≤ n < 2 ^ 31 → Count b = n.
Proof.
  intros. unfold Count, b. rewrite zdrop_app_n by by rewrite zlen_EncodeFixed64.
  rewrite DecodeFixed32_EncodeFixed32 by word_solve. by apply int32_small.
Qed.

Lemma Sequence_header : in_w 64 seq → Sequence b = seq.
Proof. intros. by apply DecodeFixed64_EncodeFixed64. Qed.

Lemma SetCount_header n' : 0 ≤ n' < 2 ^ 31 → SetCount b n' = EncodeFixed64 seq ++ EncodeFixed32 n' ++ body.
Proof.
  intros. unfold SetCount, b. rewrite wrap_small by word_solve.
  apply overwrite_at; by rewrite ?zlen_EncodeFixed64, ?zlen_EncodeFixed32.
Qed.

Lemma SetSequence_header seq' : SetSequence b seq' = EncodeFixed64 seq' ++ EncodeFixed32 n ++ body.
Proof.
  unfold SetSequence, b. apply (overwrite_at []); [done|]. by rewrite !zlen_EncodeFixed64.
Qed.

Lemma body_header : zdrop kHeader b = body ∧ kHeader ≤ zlen b.
Proof.
  unfold b. split.
  - rewrite app_assoc. apply zdrop_app_n. by rewrite zlen_app, zlen_EncodeFixed64, zlen_EncodeFixed32.
  - rewrite !zlen_app, zlen_EncodeFixed64, zlen_EncodeFixed32. unfold kHeader. zsolve.
Qed.
End Header.

Lemma Clear_Batch : Batch_of Clear 0 [].
Proof. by vm_compute. Qed.

Lemma encode_ops_app o1 o2 : encode_ops (o1 ++ o2) = encode_ops o1 ++ encode_ops o2.
Proof. unfold encode_ops. by rewrite fmap_app, concat_app. Qed.

Lemma apply_op_Batch b seq ops op :
  Batch_of b seq ops → zlen ops + 1 < 2 ^ 31 → Batch_of (apply_op b op) seq (ops ++ [op]).
Proof.
  intros -> Hn. pose proof (zlen_nonneg ops). unfold Batch_of. rewrite encode_ops_app, zlen_app.
  change (zlen [op]) with 1. unfold apply_op, Put, Delete.
  destruct op as [k v|k]; rewrite Count_header, SetCount_header by lia.
  - rewrite PutLengthPrefixedSlice_app, (PutLengthPrefixedSlice_app (_ ++ _) k).
    unfold encode_ops. cbn [fmap list_fmap concat encode_op app]. by rewrite app_nil_r, <- !app_assoc.
  - rewrite (PutLengthPrefixedSlice_app (_ ++ _) k).
    unfold encode_ops. cbn [fmap list_fmap concat encode_op app]. by rewrite app_nil_r, <- !app_assoc.
Qed.

Lemma apply_ops_Batch b seq ops ops' :
  Batch_of b seq ops → zlen ops + zlen ops' < 2 ^ 31 →
  Batch_of (foldl apply_op b ops') seq (ops ++ ops').
Proof.
  revert b ops. induction ops' as [|op ops' IH]; intros b ops Hb Hn; [by rewrite app_nil_r|].
  rewrite zlen_cons in Hn. pose proof (zlen_nonneg ops'). cbn [foldl].
  replace (ops ++ op :: ops') with ((ops ++ [op]) ++ ops') by by rewrite <- app_assoc.
  apply IH; [apply apply_op_Batch; [done|lia]|]. rewrite zlen_app. change (zlen [op]) with 1. lia.
Qed.

Lemma Append_Batch dst src s1 s2 o1 o2 :
  Batch_of dst s1 o1 → Batch_of src s2 o2 → zlen o1 + zlen o2 < 2 ^ 31 →
  Batch_of (Append dst src) s1 (o1 ++ o2).
Proof.
  intros -> -> Hn. pose proof (zlen_nonneg o1). pose proof (zlen_nonneg o2).
  unfold Batch_of, Append. rewrite !Count_header, SetCount_header by lia.
  destruct (body_header s2 (zlen o2) (encode_ops o2)) as [-> _].
  by rewrite encode_ops_app, zlen_app, <- !app_assoc.
Qed.

(** ** Iteration *)

Lemma replay_app {H} {HH : Handler H} o1 o2 (h : H) : replay (o1 ++ o2) h = (h ← replay o1 h; replay o2 h).
Proof.
  revert h. induction o1 as [|op o1 IH]; intros h; cbn; [done|]. destruct (handle op h); cbn; [apply IH|done].
Qed.

Lemma replay_record ops h : replay (H:=list BatchOp) ops h = Some (h ++ ops).
Proof.
  revert h. induction ops as [|op ops IH]; intros h; cbn; [by rewrite app_nil_r|].
  destruct op; cbn; rewrite IH, <- app_assoc; done.
Qed.

Lemma u8_kTypeValue : u8 (b8 kTypeValue) = kTypeValue.
Proof. done. Qed.

Lemma u8_kTypeDeletion : u8 (b8 kTypeDeletion) = kTypeDeletion.
Proof. done. Qed.

(** One operation is one turn of the loop. *)
Lemma Iterate_loop_op {H} {HH : Handler H} fuel op rest found (h : H) :
  op_ok op →
  Iterate_loop (S fuel) (encode_op op ++ rest) found h
  = (h ← handle op h; Iterate_loop fuel rest (found + 1) h).
Proof.
  intros Hop. destruct op as [k v|k]; cbn [encode_op app Iterate_loop op_ok] in *.
  - rewrite u8_kTypeValue, decide_True by done. rewrite <- app_assoc.
    pose proof (zlen_nonneg k). pose proof (zlen_nonneg v).
    rewrite !GetLengthPrefixedSlice_enc by word_solve. done.
  - rewrite u8_kTypeDeletion, decide_False, decide_True by done.
    pose proof (zlen_nonneg k). rewrite GetLengthPrefixedSlice_enc by word_solve. done.
Qed.

Lemma Iterate_loop_ops {H} {HH : Handler H} fuel ops found (h : H) :
  Forall op_ok ops → (length ops < fuel)%nat →
  Iterate_loop fuel (encode_ops ops) found h
  = (λ h, (inl (found + zlen ops), h)) <$> replay ops h.
Proof.
  intros Hops. revert fuel found h. induction Hops as [|op ops Hop _ IH]; intros fuel found h Hf.
  - destruct fuel; [lia|]. cbn. by rewrite Z.add_0_r.
  - destruct fuel as [|fuel]; [lia|]. unfold encode_ops. cbn [fmap list_fmap concat replay length] in *.
    rewrite Iterate_loop_op by done. destruct (handle op h) as [h'|]; cbn [mbind option_bind]; [|done].
    rewrite IH by lia. rewrite zlen_cons. by rewrite Z.add_assoc.
Qed.

Lemma encode_op_length op : (1 ≤ length (encode_op op))%nat.
Proof. destruct op; cbn; lia. Qed.

Lemma encode_ops_length ops : (length ops ≤ length (encode_ops ops))%nat.
Proof.
  unfold encode_ops. induction ops as [|op ops IH]; cbn [fmap list_fmap concat length]; [lia|].
  rewrite length_app. pose proof (encode_op_length op). lia.
Qed.

Lemma Iterate_Batch {H} {HH : Handler H} b seq ops (h : H) :
  Batch_of b seq ops → Forall op_ok ops → zlen ops < 2 ^ 31 →
  Iterate b h = (λ h, (Status_OK, h)) <$> replay ops h.
Proof.
  intros -> Hops Hn. pose proof (zlen_nonneg ops). unfold Iterate.
  destruct (body_header seq (zlen ops) (encode_ops ops)) as [-> Hh].
  rewrite decide_False by lia. rewrite Iterate_loop_ops by (done || pose proof (encode_ops_length ops); lia).
  rewrite Count_header by lia. destruct (replay ops h); [|done]. cbn. by rewrite decide_False by lia.
Qed.

(** A loop over any bytes is the replay of the operations it finds. *)
Lemma Iterate_loop_replay fuel input found :
  (length input < fuel)%nat →
  ∃ r ops, match r with inr s => ok s = false | inl n => n = found + zlen ops end ∧
    ∀ H (HH : Handler H) (h : H), Iterate_loop fuel input found h = (λ h, (r, h)) <$> replay ops h.
Proof.
  revert input found. induction fuel as [|fuel IH]; intros input found Hf; [lia|].
  destruct input as [|tag input].
  { exists (inl found), []. split; [change (zlen []) with 0; lia|done]. } cbn [Iterate_loop length] in *.
  assert (Herr : ∀ e, ok e = false →
    ∃ r ops, match r with inr s => ok s = false | inl n => n = found + zlen ops end ∧
    ∀ H (HH : Handler H) (h : H), Some (inr e : Z + Status, h) = (λ h, (r, h)) <$> replay ops h).
  { intros e He. by exists (inr e), []. }
  assert (Hgot : ∀ input s rest, GetLengthPrefixedSlice input = (Some s, rest) → (length rest ≤ length input)%nat).
  { intros i s rest (_ & e & -> & _)%GetLengthPrefixedSlice_Some. rewrite !length_app. lia. }
  case_decide as Hv; [|case_decide as Hd].
  - destruct (GetLengthPrefixedSlice input) as [[key|] i1] eqn:E1; [|by apply Herr].
    destruct (GetLengthPrefixedSlice i1) as [[value|] i2] eqn:E2; [|by apply Herr].
    apply Hgot in E1, E2. destruct (IH i2 (found + 1) ltac:(lia)) as (r & ops & Hr & Ho).
    exists r, (OpPut key value :: ops). split; [destruct r; [rewrite zlen_cons; lia|done]|]. intros H HH h. cbn [replay handle].
    destruct (handler_Put key value h); [apply Ho|done].
  - destruct (GetLengthPrefixedSlice input) as [[key|] i1] eqn:E1; [|by apply Herr].
    apply Hgot in E1. destruct (IH i1 (found + 1) ltac:(lia)) as (r & ops & Hr & Ho).
    exists r, (OpDelete key :: ops). split; [destruct r; [rewrite zlen_cons; lia|done]|]. intros H HH h. cbn [replay handle].
    destruct (handler_Delete key h); [apply Ho|done].
  - by apply Herr.
Qed.

(** Iteration over any contents, from a corrupt log for example, ends: it
    calls the handler with a series of operations that depends on the bytes
    alone, each found whole in them, and its status is OK only if that series
    is the whole batch, that is, has the length that the header counts. *)
Theorem Iterate_total (b : WriteBatch) :
  ∃ s ops, (ok s = true → kHeader ≤ zlen b ∧ zlen ops = Count b) ∧
    Iterate b ([] : list BatchOp) = Some (s, ops) ∧
    ∀ H (HH : Handler H) (h : H), Iterate b h = (λ h, (s, h)) <$> replay ops h.
Proof.
  unfold Iterate. case_decide as Hlen; [by eexists _, []; split; [|split; [done|by intros]]|].
  destruct (Iterate_loop_replay (S (length (zdrop kHeader b))) (zdrop kHeader b) 0 ltac:(lia))
    as (r & ops & Hr & Ho).
  exists (match r with inr s => s | inl found => if decide (found ≠ Count b)
    then Corruption (str "WriteBatch has wrong count") [] else Status_OK end), ops.
  split; [|split].
  - destruct r as [n|e]; [|by rewrite Hr]. case_decide; [done|]. intros _. split; lia.
  - rewrite (Ho _ RecordingHandler), replay_record. cbn. destruct r; [by case_decide|done].
  - intros H HH h. rewrite (Ho _ HH). destruct (replay ops h); [|done]. cbn.
    destruct r; [by case_decide|done].
Qed.

(** C18: a batch holds the operations put into it. Whatever list of puts and
    deletes is applied to an empty batch, the batch reports their number, keeps
    the sequence number it is given, and iterating over it makes just these
    calls in their order and succeeds; appending another batch to it gives the
    batch of both lists, with the sequence number of the first. *)
Theorem WriteBatch_correct (ops1 ops2 : list BatchOp) (seq : Z) :
  Forall op_ok ops1 → Forall op_ok ops2 → zlen ops1 + zlen ops2 < 2 ^ 31 → in_w 64 seq →
  let b1 := SetSequence (foldl apply_op Clear ops1) seq in
  let b2 := foldl apply_op Clear ops2 in
  Sequence b1 = seq ∧ Count b1 = zlen ops1 ∧ Iterate b1 ([] : list BatchOp) = Some (Status_OK, ops1) ∧
  Sequence (Append b1 b2) = seq ∧ Count (Append b1 b2) = zlen ops1 + zlen ops2 ∧
  Iterate (Append b1 b2) ([] : list BatchOp) = Some (Status_OK, ops1 ++ ops2) ∧
  ByteSize (Append b1 b2) = ByteSize b1 + ByteSize b2 - kHeader.
Proof.
  intros H1 H2 Hn Hseq b1 b2. pose proof (zlen_nonneg ops1). pose proof (zlen_nonneg ops2).
  assert (B1 : Batch_of b1 seq ops1).
  { unfold b1. rewrite (apply_ops_Batch Clear 0 [] ops1 Clear_Batch) by (change (zlen []) with 0; lia).
    by rewrite SetSequence_header. }
  assert (B2 : Batch_of b2 0 ops2) by (apply (apply_ops_Batch Clear 0 [] ops2 Clear_Batch); change (zlen []) with 0; lia).
  pose proof (Append_Batch b1 b2 seq 0 ops1 ops2 B1 B2 Hn) as B3.
  assert (Hsize : ByteSize (Append b1 b2) = ByteSize b1 + ByteSize b2 - kHeader).
  { rewrite B3, B1, B2, encode_ops_app. unfold ByteSize, kHeader.
    rewrite !zlen_app, !zlen_EncodeFixed64, !zlen_EncodeFixed32. lia. }
  rewrite (Iterate_Batch b1 seq ops1), (Iterate_Batch (Append b1 b2) seq (ops1 ++ ops2)), !replay_record;
    [|done|by apply list.Forall_app|rewrite zlen_app; lia|done|done|lia].
  rewrite B1 at 1 2. rewrite B3 at 1 2. rewrite !Sequence_header, !Count_header by (done || rewrite ?zlen_app; lia).
  rewrite zlen_app. done.
Qed.

Lemma WriteBatch_correct_witness :
  let ops1 := [OpPut (str "a") (str "1"); OpDelete (str "b")] in
  let ops2 := [OpPut (str "b") (str "2")] in
  let b1 := SetSequence (foldl apply_op Clear ops1) 5 in
  Iterate (Append b1 (foldl apply_op Clear ops2)) ([] : list BatchOp) = Some (Status_OK, ops1 ++ ops2).
Proof.
  cbn zeta. eapply (WriteBatch_correct [OpPut (str "a") (str "1"); OpDelete (str "b")] [OpPut (str "b") (str "2")] 5);
    repeat constructor; by vm_compute.
Defined.
