(* ===== verification/Iterator.v ===== *)
(** The interface [Iterator] of [include/leveldb/iterator.h], the empty
    iterator of [table/iterator.cc] and the wrapper of
    [table/iterator_wrapper.h].

    An iterator is a class of operations on a state; an operation is [None]
    where the source has no defined behaviour (a method that asserts [Valid()]
    called on an iterator that is not valid).  [IteratorLaws] says what the
    comments of the interface promise: the iterator is a position, or none, in
    a list of entries sorted by their keys. *)
From Stdlib Require Import Sorting.Sorted.
From S2P Require Import Prelude SortedLists Status Comparator.

Class Iterator (I : Type) := {
  it_Valid : I → bool;
  it_SeekToFirst : I → option I;
  it_SeekToLast : I → option I;
  it_Seek : bytes → I → option I;
  it_Next : I → option I;
  it_Prev : I → option I;
  it_key : I → option bytes;
  it_value : I → option bytes;
  it_status : I → Status;
}.
#[export] Hint Mode Iterator ! : typeclass_instances.

Abbreviation entry := (bytes * bytes)%type.

(** ** Positions *)

Section Positions.
Context {C : Comparator}.

Definition entry_lt (a b : entry) : Prop := Compare a.1 b.1 < 0.

(** The entries before a key. *)
Definition entries_before (es : list entry) (k : bytes) : list entry :=
  filter (λ e, Compare e.1 k < 0) es.
Definition entries_from (es : list entry) (k : bytes) : list entry :=
  filter (λ e, ¬ Compare e.1 k < 0) es.

Definition pos_at (es : list entry) (i : nat) : option nat :=
  if decide (i < length es)%nat then Some i else None.
Definition pos_first (es : list entry) : option nat := pos_at es 0.
Definition pos_last (es : list entry) : option nat :=
  match length es with O => None | S n => Some n end.
Definition pos_seek (es : list entry) (k : bytes) : option nat :=
  pos_at es (length (entries_before es k)).
Definition pos_prev (i : nat) : option nat := match i with O => None | S i => Some i end.

Context {V : bytes → Prop} {CL : ComparatorLaws C V}.

(** Where the entries before a key end. *)
Lemma entries_before_index es k i :
  StronglySorted entry_lt es → Forall (λ e, V e.1) es → V k → (i ≤ length es)%nat →
  (∀ j e, (j < i)%nat → es !! j = Some e → Compare e.1 k < 0) →
  (∀ e, es !! i = Some e → ¬ Compare e.1 k < 0) → length (entries_before es k) = i.
Proof.
  intros Hs HV Vk Hi H1 H2. apply filter_cut; [done| |done]. intros j e Hj He.
  rewrite list.Forall_forall in HV. pose proof (HV e (list_elem_of_lookup_2 _ _ _ He)) as Ve.
  destruct (decide (i = j)) as [->|]; [by apply H2|].
  destruct (lookup_lt_is_Some_2 es i) as [e' He']; [apply lookup_lt_Some in He; lia|].
  pose proof (HV e' (list_elem_of_lookup_2 _ _ _ He')) as Ve'.
  assert (entry_lt e' e) as Hlt by (eapply sorted_index; [done| |done..]; lia).
  specialize (H2 e' He'). rewrite Compare_nlt in H2 |- * by done.
  unfold entry_lt in Hlt. eapply Compare_le_trans; [..|exact H2|]; [done..|lia].
Qed.
End Positions.

(** ** The laws *)

Class IteratorLaws (I : Type) {II : Iterator I} {C : Comparator} (V : bytes → Prop)
    (rel : I → list entry → option nat → Prop) : Prop := {
  rel_sorted it es p :
    rel it es p → StronglySorted entry_lt es ∧ Forall (λ e, V e.1) es;
  rel_in it es i : rel it es (Some i) → (i < length es)%nat;
  rel_Valid it es p : rel it es p → it_Valid it = bool_decide (is_Some p);
  rel_key it es i e : rel it es (Some i) → es !! i = Some e → it_key it = Some e.1;
  rel_value it es i e : rel it es (Some i) → es !! i = Some e → it_value it = Some e.2;
  rel_status it es p : rel it es p → it_status it = Status_OK;
  rel_SeekToFirst it es p :
    rel it es p → ∃ it', it_SeekToFirst it = Some it' ∧ rel it' es (pos_first es);
  rel_SeekToLast it es p :
    rel it es p → ∃ it', it_SeekToLast it = Some it' ∧ rel it' es (pos_last es);
  rel_Seek it es p k :
    rel it es p → V k → ∃ it', it_Seek k it = Some it' ∧ rel it' es (pos_seek es k);
  rel_Next it es i :
    rel it es (Some i) → ∃ it', it_Next it = Some it' ∧ rel it' es (pos_at es (S i));
  rel_Prev it es i :
    rel it es (Some i) → ∃ it', it_Prev it = Some it' ∧ rel it' es (pos_prev i);
}.

(** ** Traversals *)

Section Traversals.
Context {I : Type} {II : Iterator I}.

(** The entries from where the iterator is, moved by [move] until it is not
    valid. *)
Fixpoint traverse (move : I → option I) (fuel : nat) (it : I) : option (list entry) :=
  match fuel with
  | O => None
  | S fuel =>
      if it_Valid it then
        k ← it_key it; v ← it_value it; it ← move it; es ← traverse move fuel it; Some ((k, v) :: es)
      else Some []
  end.

Abbreviation forward := (traverse it_Next).
Abbreviation backward := (traverse it_Prev).

Context {C : Comparator} {V : bytes → Prop} {rel : I → list entry → option nat → Prop}.
Context {IL : IteratorLaws I V rel}.

Lemma forward_rel fuel it es i :
  rel it es (pos_at es i) → (length es - i < fuel)%nat → forward fuel it = Some (drop i es).
Proof.
  revert it i. induction fuel as [|fuel IH]; intros it i HR Hf; [lia|].
  cbn [traverse]. rewrite (rel_Valid it es _ HR). unfold pos_at in *. case_decide as Hi.
  - destruct (lookup_lt_is_Some_2 es i Hi) as [e He]. cbn [bool_decide is_Some].
    rewrite bool_decide_true by eauto.
    rewrite (rel_key it es i e HR He), (rel_value it es i e HR He). cbn [mbind option_bind].
    destruct (rel_Next it es i HR) as (it' & -> & HR'). cbn [mbind option_bind].
    rewrite (IH it' (S i) HR') by lia. cbn [mbind option_bind]. rewrite (drop_S _ _ _ He). by destruct e.
  - rewrite bool_decide_false by (by intros [? ?]). by rewrite drop_ge by lia.
Qed.

Lemma backward_rel fuel it es i :
  rel it es (pos_prev i) → (i ≤ length es)%nat → (i < fuel)%nat →
  backward fuel it = Some (reverse (take i es)).
Proof.
  revert it i. induction fuel as [|fuel IH]; intros it i HR Hi Hf; [lia|].
  cbn [traverse]. rewrite (rel_Valid it es _ HR). destruct i as [|i]; cbn [pos_prev] in *.
  - by rewrite bool_decide_false by (by intros [? ?]).
  - rewrite bool_decide_true by eauto.
    destruct (lookup_lt_is_Some_2 es i) as [e He]; [lia|].
    rewrite (rel_key it es i e HR He), (rel_value it es i e HR He). cbn [mbind option_bind].
    destruct (rel_Prev it es i HR) as (it' & -> & HR'). cbn [mbind option_bind].
    rewrite (IH it' i HR') by lia. cbn [mbind option_bind].
    rewrite (take_S_r _ _ _ He), reverse_snoc. by destruct e.
Qed.

(** What a client sees of an iterator over [es]: both traversals give the
    entries, and a search gives those that are not before the key. *)
Definition iterates (it : I) (V : bytes → Prop) (es : list entry) : Prop :=
  (∃ it', it_SeekToFirst it = Some it' ∧ forward (S (length es)) it' = Some es) ∧
  (∃ it', it_SeekToLast it = Some it' ∧ backward (S (length es)) it' = Some (reverse es)) ∧
  (∀ k, V k → ∃ it', it_Seek k it = Some it' ∧
     forward (S (length es)) it' = Some (entries_from es k)) ∧
  it_status it = Status_OK.

Context {CL : ComparatorLaws C V}.

Lemma entries_split es k :
  StronglySorted entry_lt es → Forall (λ e, V e.1) es → V k →
  es = entries_before es k ++ entries_from es k.
Proof.
  intros Hs HV Vk. unfold entries_before, entries_from. induction Hs as [|x es Hs IH Hx]; [done|].
  apply list.Forall_cons in HV as [Vx HV]. specialize (IH HV).
  rewrite !filter_cons. destruct (decide (Compare x.1 k < 0)) as [Hc|Hc].
  - rewrite (decide_False (P:=¬ _)) by tauto. cbn. by rewrite <- IH.
  - rewrite (decide_True (P:=¬ _)) by done. rewrite filter_none, filter_all; [done|..];
      (apply list.Forall_forall; intros y Hy; rewrite list.Forall_forall in Hx, HV;
       specialize (Hx y Hy); specialize (HV y Hy); unfold entry_lt in Hx;
       rewrite Compare_nlt in Hc |- * by done; eapply Compare_le_trans; [..|exact Hc|]; [done..|lia]).
Qed.

Lemma entries_before_cut es k (i := length (entries_before es k)) :
  StronglySorted entry_lt es → Forall (λ e, V e.1) es → V k →
  (i ≤ length es)%nat ∧ (∀ j e, (j < i)%nat → es !! j = Some e → Compare e.1 k < 0) ∧
  (∀ e, es !! i = Some e → ¬ Compare e.1 k < 0).
Proof.
  intros Hs HV Vk. pose proof (entries_split es k Hs HV Vk) as Hsp. splits.
  - apply length_filter.
  - intros j e Hj He. rewrite Hsp, lookup_app_l in He by done.
    apply list_elem_of_lookup_2 in He. by apply list_elem_of_filter in He as [? _].
  - intros e He. rewrite Hsp, lookup_app_r, Nat.sub_diag in He by (unfold i; lia).
    apply list_elem_of_lookup_2 in He. by apply list_elem_of_filter in He as [? _].
Qed.

Lemma entries_before_iff es k i x :
  StronglySorted entry_lt es → Forall (λ e, V e.1) es → V k → es !! i = Some x →
  (i < length (entries_before es k))%nat ↔ Compare x.1 k < 0.
Proof.
  intros Hs HV Vk Hx. rewrite (entries_split es k Hs HV Vk) in Hx.
  destruct (decide (i < length (entries_before es k))%nat) as [Hi|Hi].
  - rewrite lookup_app_l in Hx by done. apply list_elem_of_lookup_2, list_elem_of_filter in Hx. tauto.
  - rewrite lookup_app_r in Hx by lia. apply list_elem_of_lookup_2, list_elem_of_filter in Hx. tauto.
Qed.

Lemma entries_from_drop es k :
  StronglySorted entry_lt es → Forall (λ e, V e.1) es → V k →
  entries_from es k = drop (length (entries_before es k)) es.
Proof. intros Hs HV Vk. rewrite (entries_split es k Hs HV Vk) at 3. by rewrite drop_app_length. Qed.

(** The first entry not before a key that is there. *)
Lemma entries_from_head es k v :
  StronglySorted entry_lt es → Forall (λ e, V e.1) es → (k, v) ∈ es →
  head (entries_from es k) = Some (k, v).
Proof.
  intros Hs HV (l1 & l2 & ->)%list_elem_of_split. unfold entries_from. rewrite list.filter_app.
  apply sorted_app in Hs as (_ & _ & Hlt). apply list.Forall_app in HV as [_ [Vk _]%list.Forall_cons].
  rewrite filter_none.
  - rewrite filter_cons, decide_True; [done|]. cbn. cbn in Vk. rewrite Compare_refl by done. lia.
  - apply list.Forall_forall. intros x Hx Hn. apply Hn. apply (Hlt x (k, v)); [done|by left].
Qed.

Lemma rel_iterates it es p : rel it es p → iterates it V es.
Proof.
  intros HR. unfold iterates; splits.
  - destruct (rel_SeekToFirst it es p HR) as (it' & ? & HR'). exists it'. split; [done|].
    rewrite (forward_rel _ it' es 0 HR') by lia. done.
  - destruct (rel_SeekToLast it es p HR) as (it' & ? & HR'). exists it'. split; [done|].
    rewrite (backward_rel _ it' es (length es)); [by rewrite firstn_all| |lia|lia].
    unfold pos_last in HR'. by destruct (length es).
  - intros k Vk. destruct (rel_Seek it es p k HR Vk) as (it' & ? & HR'). exists it'. split; [done|].
    rewrite (forward_rel _ it' es _ HR') by lia. f_equal.
    destruct (rel_sorted it es p HR) as [Hs HV].
    rewrite (entries_split es k Hs HV Vk) at 2. by rewrite drop_app_length.
  - by eapply rel_status.
Qed.
End Traversals.

(** *** Some laws or other *)

(** The iterator is at the position [p] of the entries, by some relation that
    satisfies the laws. *)
Definition shows {I : Type} {II : Iterator I} {C : Comparator} (V : bytes → Prop) (it : I) (es : list entry)
    (p : option nat) : Prop :=
  ∃ rel : I → list entry → option nat → Prop, IteratorLaws I V rel ∧ rel it es p.

Lemma shows_laws {I : Type} {II : Iterator I} {C : Comparator} (V : bytes → Prop) : IteratorLaws I V (shows V).
Proof.
  split.
  - intros it es p (rel & IL & HR). by eapply rel_sorted.
  - intros it es i (rel & IL & HR). by eapply rel_in.
  - intros it es p (rel & IL & HR). by eapply rel_Valid.
  - intros it es i e (rel & IL & HR). by apply rel_key.
  - intros it es i e (rel & IL & HR). by apply rel_value.
  - intros it es p (rel & IL & HR). by eapply rel_status.
  - intros it es p (rel & IL & HR). destruct (rel_SeekToFirst it es p HR) as (it' & ? & ?). exists it'. split; [done|]. by exists rel.
  - intros it es p (rel & IL & HR). destruct (rel_SeekToLast it es p HR) as (it' & ? & ?). exists it'. split; [done|]. by exists rel.
  - intros it es p k (rel & IL & HR) Vk. destruct (rel_Seek it es p k HR Vk) as (it' & ? & ?). exists it'. split; [done|]. by exists rel.
  - intros it es i (rel & IL & HR). destruct (rel_Next it es i HR) as (it' & ? & ?). exists it'. split; [done|]. by exists rel.
  - intros it es i (rel & IL & HR). destruct (rel_Prev it es i HR) as (it' & ? & ?). exists it'. split; [done|]. by exists rel.
Qed.

(** ** Sequences of calls *)

Inductive move := MFirst | MLast | MSeek (target : bytes) | MNext | MPrev.

Definition move_ok (V : bytes → Prop) (m : move) : Prop :=
  match m with MSeek k => V k | _ => True end.

Section Moves.
Context {I : Type} {II : Iterator I}.

Definition it_move (m : move) (it : I) : option I :=
  match m with
  | MFirst => it_SeekToFirst it
  | MLast => it_SeekToLast it
  | MSeek k => it_Seek k it
  | MNext => it_Next it
  | MPrev => it_Prev it
  end.

(** What a client reads: nothing, or the key and the value. *)
Definition it_look (it : I) : option (option entry) :=
  if it_Valid it then k ← it_key it; v ← it_value it; Some (Some (k, v)) else Some None.

(** The calls [ms] one after the other, with what is read after each. *)
Fixpoint it_run (ms : list move) (it : I) : option (list (option entry)) :=
  match ms with
  | [] => Some []
  | m :: ms => it ← it_move m it; o ← it_look it; os ← it_run ms it; Some (o :: os)
  end.

Context {C : Comparator}.

(** The same on a position in a list of entries. *)
Definition cursor_move (es : list entry) (m : move) (p : option nat) : option (option nat) :=
  match m, p with
  | MFirst, _ => Some (pos_first es)
  | MLast, _ => Some (pos_last es)
  | MSeek k, _ => Some (pos_seek es k)
  | MNext, Some i => Some (pos_at es (S i))
  | MPrev, Some i => Some (pos_prev i)
  | _, None => None
  end.

Fixpoint cursor_run (es : list entry) (ms : list move) (p : option nat) : option (list (option entry)) :=
  match ms with
  | [] => Some []
  | m :: ms => p ← cursor_move es m p; os ← cursor_run es ms p; Some ((i ← p; es !! i) :: os)
  end.

Context {V : bytes → Prop} {rel : I → list entry → option nat → Prop} {IL : IteratorLaws I V rel}.

Lemma rel_move it es p m p' :
  rel it es p → move_ok V m → cursor_move es m p = Some p' →
  ∃ it', it_move m it = Some it' ∧ rel it' es p'.
Proof.
  intros HR Hm Hc. destruct m, p as [i|]; cbn in *; simplify_eq.
  1, 2: by eapply rel_SeekToFirst.
  1, 2: by eapply rel_SeekToLast.
  1, 2: by eapply rel_Seek.
  - by apply rel_Next.
  - by apply rel_Prev.
Qed.

Lemma rel_look it es p : rel it es p → it_look it = Some (i ← p; es !! i).
Proof.
  intros HR. unfold it_look. rewrite (rel_Valid it es p HR). destruct p as [i|].
  - rewrite bool_decide_true by eauto. destruct (lookup_lt_is_Some_2 es i (rel_in it es i HR)) as [e He].
    rewrite (rel_key it es i e HR He), (rel_value it es i e HR He). cbn. rewrite He. by destruct e.
  - by rewrite bool_decide_false by (by intros [? ?]).
Qed.

(** An iterator answers any sequence of calls as the position does. *)
Lemma rel_run it es p ms os :
  rel it es p → Forall (move_ok V) ms → cursor_run es ms p = Some os → it_run ms it = Some os.
Proof.
  intros HR Hms. revert it p os HR. induction Hms as [|m ms Hm _ IH]; intros it p os HR Hr; [done|].
  cbn [cursor_run it_run] in *. destruct (cursor_move es m p) as [p'|] eqn:Hc; [|done].
  cbn [mbind option_bind] in Hr. destruct (cursor_run es ms p') as [os'|] eqn:Hr'; [|done].
  cbn [mbind option_bind] in Hr. simplify_eq. destruct (rel_move it es p m p' HR Hm Hc) as (it' & -> & HR').
  cbn [mbind option_bind]. rewrite (rel_look it' es p' HR'). cbn [mbind option_bind].
  by rewrite (IH it' p' os' HR' Hr').
Qed.
End Moves.

(** ** The empty iterator *)

(** [EmptyIterator] is its status. *)
Record EmptyIterator := { status_ : Status }.

#[export] Instance EmptyIterator_Iterator : Iterator EmptyIterator := {
  it_Valid _ := false;
  it_SeekToFirst it := Some it;
  it_SeekToLast it := Some it;
  it_Seek _ it := Some it;
  it_Next _ := None;
  it_Prev _ := None;
  it_key _ := None;
  it_value _ := None;
  it_status it := status_ it;
}.

Definition NewEmptyIterator : EmptyIterator := {| status_ := Status_OK |}.
Definition NewErrorIterator (s : Status) : EmptyIterator := {| status_ := s |}.

#[export] Instance EmptyIterator_laws {C : Comparator} V :
  IteratorLaws EmptyIterator V (λ it es p, it = NewEmptyIterator ∧ es = [] ∧ p = None).
Proof.
  split; try (by intros ? ? ? (-> & -> & ->); eauto); try (by intros ? ? ? (_ & _ & ?)).
  - intros ??? (_ & -> & _). split; constructor.
  - intros ???? (_ & _ & ?). done.
  - intros ???? (_ & _ & ?). done.
  - intros ???? (-> & -> & ->). eauto.
Qed.

(** ** Cleanup functions *)

(** A cleanup is a function with its arguments; [cleanup_] is the first
    registered, the others are linked behind it, the last registered first. *)
Definition RegisterCleanup {F} (cleanups : list F) (c : F) : list F :=
  match cleanups with
  | [] => [c]
  | first :: next => first :: c :: next
  end.

(** The destructor calls them in this order. *)
Definition run_cleanups {F S} (call : F → S → S) (cleanups : list F) (s : S) : S :=
  foldl (λ s c, call c s) s cleanups.

Lemma RegisterCleanup_perm {F} (cleanups : list F) c : RegisterCleanup cleanups c ≡ₚ c :: cleanups.
Proof. destruct cleanups; [done|]. cbn. apply Permutation_swap. Qed.

(** ** The wrapper *)

Section IteratorWrapper.
Context {I : Type} {II : Iterator I}.

(** [iter_] is [None] for NULL; [key_] is only meaningful if [valid_]. *)
Record IteratorWrapper := { iter_ : option I; valid_ : bool; key_ : option bytes }.

Definition wrapper_Update (it : I) (key : option bytes) : option IteratorWrapper :=
  if it_Valid it then k ← it_key it; Some {| iter_ := Some it; valid_ := true; key_ := Some k |}
  else Some {| iter_ := Some it; valid_ := false; key_ := key |}.

Definition new_IteratorWrapper : IteratorWrapper := {| iter_ := None; valid_ := false; key_ := None |}.

Definition wrapper_Set (w : IteratorWrapper) (iter : option I) : option IteratorWrapper :=
  match iter with
  | None => Some {| iter_ := None; valid_ := false; key_ := key_ w |}
  | Some it => wrapper_Update it (key_ w)
  end.

Definition wrapper_move (f : I → option I) (w : IteratorWrapper) : option IteratorWrapper :=
  it ← iter_ w; it ← f it; wrapper_Update it (key_ w).

#[export] Instance IteratorWrapper_Iterator : Iterator IteratorWrapper := {
  it_Valid w := valid_ w;
  it_SeekToFirst := wrapper_move it_SeekToFirst;
  it_SeekToLast := wrapper_move it_SeekToLast;
  it_Seek k := wrapper_move (it_Seek k);
  it_Next := wrapper_move it_Next;
  it_Prev := wrapper_move it_Prev;
  it_key w := if valid_ w then key_ w else None;
  it_value w := it ← iter_ w; it_value it;
  it_status w := match iter_ w with Some it => it_status it | None => Status_OK end;
}.

Context {C : Comparator} {V : bytes → Prop} {rel : I → list entry → option nat → Prop}.
Context {IL : IteratorLaws I V rel}.

(** What is cached is right. *)
Definition wrapper_rel (w : IteratorWrapper) (es : list entry) (p : option nat) : Prop :=
  ∃ it, iter_ w = Some it ∧ rel it es p ∧ valid_ w = it_Valid it ∧
    (valid_ w = true → key_ w = it_key it).

Lemma wrapper_Update_rel it es p key :
  rel it es p → ∃ w, wrapper_Update it key = Some w ∧ wrapper_rel w es p.
Proof.
  intros HR. unfold wrapper_Update. pose proof (rel_Valid it es p HR) as Hv.
  destruct (it_Valid it) eqn:E.
  - symmetry in Hv. apply bool_decide_eq_true in Hv as [i ->].
    destruct (lookup_lt_is_Some_2 es i (rel_in it es i HR)) as [e He].
    rewrite (rel_key it es i e HR He). cbn. eexists; split; [done|].
    exists it. splits; [done|done|done|]. intros _. by rewrite (rel_key it es i e HR He).
  - eexists; split; [done|]. by exists it.
Qed.

Lemma wrapper_move_rel f w it es p p' :
  wrapper_rel w es p → iter_ w = Some it → (∃ it', f it = Some it' ∧ rel it' es p') →
  ∃ w', wrapper_move f w = Some w' ∧ wrapper_rel w' es p'.
Proof.
  intros _ Ei (it' & Ef & HR'). unfold wrapper_move. rewrite Ei. cbn. rewrite Ef. cbn.
  by apply wrapper_Update_rel.
Qed.

#[export] Instance IteratorWrapper_laws : IteratorLaws IteratorWrapper V wrapper_rel.
Proof.
  split; intros w es.
  - intros p (it & _ & HR & _). by eapply rel_sorted.
  - intros i (it & _ & HR & _). by eapply rel_in.
  - intros p (it & _ & HR & Hv & _). cbn. rewrite Hv. by eapply rel_Valid.
  - intros i e (it & Ei & HR & Hv & Hk) He. cbn. rewrite Hv in *.
    rewrite (rel_Valid it es (Some i) HR) in *. cbn in *. rewrite Hk by done. by eapply rel_key.
  - intros i e (it & Ei & HR & Hv & Hk) He. cbn. rewrite Ei. cbn. by eapply rel_value.
  - intros p (it & Ei & HR & _). cbn. rewrite Ei. by eapply rel_status.
  - intros p Hw. pose proof Hw as (it & Ei & HR & _).
    eapply wrapper_move_rel; [done..|]. by eapply rel_SeekToFirst.
  - intros p Hw. pose proof Hw as (it & Ei & HR & _).
    eapply wrapper_move_rel; [done..|]. by eapply rel_SeekToLast.
  - intros p k Hw Hk. pose proof Hw as (it & Ei & HR & _).
    eapply wrapper_move_rel; [done..|]. by eapply rel_Seek.
  - intros i Hw. pose proof Hw as (it & Ei & HR & _).
    eapply wrapper_move_rel; [done..|]. by eapply rel_Next.
  - intros i Hw. pose proof Hw as (it & Ei & HR & _).
    eapply wrapper_move_rel; [done..|]. by eapply rel_Prev.
Qed.
End IteratorWrapper.
Arguments IteratorWrapper I : clear implicits.

(** ** Virtual dispatch *)

(** A pointer to an iterator of one of two classes. *)
#[export] Instance sum_Iterator {I J} {II : Iterator I} {IJ : Iterator J} : Iterator (I + J) := {
  it_Valid it := match it with inl a => it_Valid a | inr b => it_Valid b end;
  it_SeekToFirst it := match it with inl a => inl <$> it_SeekToFirst a | inr b => inr <$> it_SeekToFirst b end;
  it_SeekToLast it := match it with inl a => inl <$> it_SeekToLast a | inr b => inr <$> it_SeekToLast b end;
  it_Seek k it := match it with inl a => inl <$> it_Seek k a | inr b => inr <$> it_Seek k b end;
  it_Next it := match it with inl a => inl <$> it_Next a | inr b => inr <$> it_Next b end;
  it_Prev it := match it with inl a => inl <$> it_Prev a | inr b => inr <$> it_Prev b end;
  it_key it := match it with inl a => it_key a | inr b => it_key b end;
  it_value it := match it with inl a => it_value a | inr b => it_value b end;
  it_status it := match it with inl a => it_status a | inr b => it_status b end;
}.

Definition sum_rel {I J} (R : I → list entry → option nat → Prop) (S : J → list entry → option nat → Prop)
    (it : I + J) (es : list entry) (p : option nat) : Prop :=
  match it with inl a => R a es p | inr b => S b es p end.

#[export] Instance sum_laws {I J} {II : Iterator I} {IJ : Iterator J} {C : Comparator} {V} {R} {S}
  {IL : IteratorLaws I V R} {JL : IteratorLaws J V S} : IteratorLaws (I + J) V (sum_rel R S).
Proof.
  split; intros [a|b]; cbn [sum_rel it_Valid it_key it_value it_status it_SeekToFirst it_SeekToLast it_Seek it_Next
    it_Prev sum_Iterator]; intros *.
  1, 2: apply rel_sorted.
  1, 2: apply rel_in.
  1, 2: apply rel_Valid.
  1, 2: apply rel_key.
  1, 2: apply rel_value.
  1, 2: apply rel_status.
  - intros HR. destruct (rel_SeekToFirst a _ _ HR) as (a' & -> & ?). by exists (inl a').
  - intros HR. destruct (rel_SeekToFirst b _ _ HR) as (b' & -> & ?). by exists (inr b').
  - intros HR. destruct (rel_SeekToLast a _ _ HR) as (a' & -> & ?). by exists (inl a').
  - intros HR. destruct (rel_SeekToLast b _ _ HR) as (b' & -> & ?). by exists (inr b').
  - intros HR Vk. destruct (rel_Seek a _ _ _ HR Vk) as (a' & -> & ?). by exists (inl a').
  - intros HR Vk. destruct (rel_Seek b _ _ _ HR Vk) as (b' & -> & ?). by exists (inr b').
  - intros HR. destruct (rel_Next a _ _ HR) as (a' & -> & ?). by exists (inl a').
  - intros HR. destruct (rel_Next b _ _ HR) as (b' & -> & ?). by exists (inr b').
  - intros HR. destruct (rel_Prev a _ _ HR) as (a' & -> & ?). by exists (inl a').
  - intros HR. destruct (rel_Prev b _ _ HR) as (b' & -> & ?). by exists (inr b').
Qed.
