(* ===== verification/MemTable.v ===== *)
(** The memtable: [db/memtable.cc] and [db/memtable.h], and the insertion of a
    write batch ([MemTableInserter] in [db/write_batch.cc]).

    The keys of the skip list are pointers to entries in the arena, which never
    change: a pointer is modelled by the bytes from it on.  Reading past them,
    or writing past the buffer of an entry, is [None]. *)
From Stdlib Require Import Sorting.Sorted.
From S2P Require Import Prelude SortedLists Coding Comparator Status DbFormat Random Arena SkipList WriteBatch Iterator.

(** [GetVarint32Ptr(p, p + 5, &len)]: the length and the pointer behind it. *)
Definition GetVarint32Ptr5 (p : bytes) : option (Z * bytes) :=
  let window := ztake 5 p in
  '(len, q) ← GetVarint32Ptr window; Some (len, zdrop (zlen window - zlen q) p).

(** [Slice(p, len)] with memory behind it: the slice and the bytes after it. *)
Definition slice_at (p : bytes) (len : Z) : option (bytes * bytes) :=
  if decide (len ≤ zlen p) then Some (ztake len p, zdrop len p) else None.

Definition GetLengthPrefixedSlice_at (data : bytes) : option (bytes * bytes) :=
  '(len, p) ← GetVarint32Ptr5 data; slice_at p len.

(** [EncodeKey]: the scratch string. *)
Definition EncodeKey (target : bytes) : bytes := PutVarint32 [] (u32 (zlen target)) ++ target.

Section MemTable.
Context {C : Comparator} {A : BlockAllocator}.

(** [KeyComparator::operator()]; entries that do not parse never occur. *)
Definition entry_key (data : bytes) : bytes := default [] (fst <$> GetLengthPrefixedSlice_at data).
Definition KeyComparator (aptr bptr : bytes) : Z := Internal_Compare (entry_key aptr) (entry_key bptr).

Record MemTable := { refs_ : Z; arena_ : Arena; table_ : SkipList bytes }.

(** [sizeof(Node) + sizeof(port::AtomicPointer) * (height - 1)]. *)
Definition node_bytes (height : nat) : Z := 8 + 4 * (Z.of_nat height - 1).

Definition new_MemTable : MemTable :=
  {| refs_ := 0; arena_ := snd (AllocateAligned new_Arena (node_bytes kMaxHeight)); table_ := new_SkipList [] |}.

Definition Ref (m : MemTable) : MemTable :=
  {| refs_ := refs_ m + 1; arena_ := arena_ m; table_ := table_ m |}.

(** [None] is a table that was deleted. *)
Definition Unref (m : MemTable) : option MemTable :=
  if decide (refs_ m - 1 ≤ 0) then None
  else Some {| refs_ := refs_ m - 1; arena_ := arena_ m; table_ := table_ m |}.

Definition ApproximateMemoryUsage (capacity : list region → Z) (m : MemTable) : Z :=
  MemoryUsage capacity (arena_ m).

(** The height of the node that [Insert] has just made. *)
Definition last_height (l : SkipList bytes) : nat :=
  match list.last (nodes l) with Some n => length (next_ n) | None => 0 end.

Definition Add (m : MemTable) (s type : Z) (key value : bytes) : option MemTable :=
  let key_size := usize (zlen key) in
  let val_size := usize (zlen value) in
  let internal_key_size := usize (key_size + 8) in
  let encoded_len :=
    usize (VarintLength internal_key_size + internal_key_size + VarintLength val_size + val_size) in
  let arena := snd (Allocate (arena_ m) encoded_len) in
  let buf := EncodeVarint32 internal_key_size ++ key ++
             EncodeFixed64 (Z.lor (u64 (Z.shiftl s 8)) type) ++ EncodeVarint32 val_size ++ value in
  if decide (zlen buf ≤ encoded_len) then
    table ← Insert KeyComparator (table_ m) buf;
    Some {| refs_ := refs_ m; arena_ := snd (AllocateAligned arena (node_bytes (last_height table)));
            table_ := table |}
  else None.

(** The result, [*value] and [*s]. *)
Definition Get (m : MemTable) (k : LookupKey) (value : bytes) (s : Status)
    : option (bool * bytes * Status) :=
  let memkey := memtable_key k in
  iter ← iter_Seek KeyComparator (table_ m) memkey;
  if iter_Valid iter then
    entry ← iter_key (table_ m) iter;
    '(key_length, key_ptr) ← GetVarint32Ptr5 entry;
    '(user, tag_ptr) ← slice_at key_ptr (usize (key_length - 8));
    if decide (Compare user (LookupKey_user_key k) = 0) then
      if decide (8 ≤ zlen tag_ptr) then
        let tag := DecodeFixed64 tag_ptr in
        let t := Z.land tag 255 in
        if decide (t = kTypeValue) then
          '(v, _) ← GetLengthPrefixedSlice_at (zdrop key_length key_ptr);
          Some (true, v, s)
        else if decide (t = kTypeDeletion) then Some (true, value, NotFound [] [])
        else Some (false, value, s)
      else None
    else Some (false, value, s)
  else Some (false, value, s).

(** [MemTableIterator]: the table and the iterator of the skip list. *)
Record MemTableIterator := { mi_table : SkipList bytes; mi_iter : SkipList.Iterator }.

Definition NewIterator (m : MemTable) : MemTableIterator := {| mi_table := table_ m; mi_iter := None |}.

Definition mi_move (it : MemTableIterator) (r : option SkipList.Iterator) : option MemTableIterator :=
  i ← r; Some {| mi_table := mi_table it; mi_iter := i |}.

#[export] Instance MemTableIterator_Iterator : Iterator MemTableIterator := {
  it_Valid it := iter_Valid (mi_iter it);
  it_Seek k it := mi_move it (iter_Seek KeyComparator (mi_table it) (EncodeKey k));
  it_SeekToFirst it := mi_move it (iter_SeekToFirst (mi_table it));
  it_SeekToLast it := mi_move it (iter_SeekToLast (mi_table it));
  it_Next it := mi_move it (iter_Next (mi_table it) (mi_iter it));
  it_Prev it := mi_move it (iter_Prev KeyComparator (mi_table it) (mi_iter it));
  it_key it := e ← iter_key (mi_table it) (mi_iter it); fst <$> GetLengthPrefixedSlice_at e;
  it_value it :=
    e ← iter_key (mi_table it) (mi_iter it);
    '(_, p) ← GetLengthPrefixedSlice_at e;
    fst <$> GetLengthPrefixedSlice_at p;
  it_status _ := Status_OK;
}.

(** [MemTableInserter]: [sequence_] and [mem_]. *)
Record MemTableInserter := { sequence_ : Z; mem_ : MemTable }.

#[export] Instance MemTableInserter_Handler : Handler MemTableInserter := {
  handler_Put key value h :=
    m ← Add (mem_ h) (sequence_ h) kTypeValue key value;
    Some {| sequence_ := u64 (sequence_ h + 1); mem_ := m |};
  handler_Delete key h :=
    m ← Add (mem_ h) (sequence_ h) kTypeDeletion key [];
    Some {| sequence_ := u64 (sequence_ h + 1); mem_ := m |};
}.

Definition InsertInto (b : WriteBatch) (m : MemTable) : option (Status * MemTable) :=
  '(s, h) ← Iterate b {| sequence_ := Sequence b; mem_ := m |};
  Some (s, mem_ h).
End MemTable.

Lemma app_take_drop {T} (l b f : list T) : l = b ++ f → b = take (length b) l ∧ f = drop (length b) l.
Proof. intros ->. by rewrite take_app_length, drop_app_length. Qed.

(** ** Entries *)

(** What a write leaves in a memtable: its sequence number and operation. *)
Definition Write : Type := Z * BatchOp.

Definition op_key (op : BatchOp) : bytes := match op with OpPut k _ => k | OpDelete k => k end.
Definition op_type (op : BatchOp) : Z := match op with OpPut _ _ => kTypeValue | OpDelete _ => kTypeDeletion end.
Definition op_value (op : BatchOp) : bytes := match op with OpPut _ v => v | OpDelete _ => [] end.

(** Writes the encoding has room for: sizes as a 32-bit process can hold. *)
Definition write_ok (w : Write) : Prop :=
  seq_ok w.1 ∧ zlen (op_key w.2) + 8 + zlen (op_value w.2) + 10 < 2 ^ 32.

Definition write_ikey (w : Write) : bytes := InternalKey (op_key w.2) w.1 (op_type w.2).

Definition encode_write (w : Write) : bytes :=
  EncodeVarint32 (zlen (op_key w.2) + 8) ++ write_ikey w ++
  EncodeVarint32 (zlen (op_value w.2)) ++ op_value w.2.

Lemma op_type_ok op : type_ok (op_type op).
Proof. destruct op; [by right|by left]. Qed.

Lemma GetVarint32Ptr5_enc v rest :
  in_w 32 v → GetVarint32Ptr5 (EncodeVarint32 v ++ rest) = Some (v, rest).
Proof.
  intros Hv. pose proof (EncodeVarint32_bounds v). unfold GetVarint32Ptr5. cbn zeta.
  rewrite ztake_app_ge by lia. pose proof (GetVarint32_EncodeVarint32 v (ztake (5 - zlen (EncodeVarint32 v)) rest) Hv) as E.
  unfold GetVarint32 in E. rewrite E. cbn. do 2 f_equal. apply zdrop_app_n. rewrite zlen_app. lia.
Qed.

Lemma GetLengthPrefixedSlice_at_enc k rest :
  in_w 32 (zlen k) →
  GetLengthPrefixedSlice_at (EncodeVarint32 (zlen k) ++ k ++ rest) = Some (k, rest).
Proof.
  intros Hk. unfold GetLengthPrefixedSlice_at. rewrite GetVarint32Ptr5_enc by done. cbn.
  unfold slice_at. rewrite decide_True by zsolve. by rewrite ztake_app, zdrop_app.
Qed.

Section Order.
Context {C : Comparator} {V : bytes → Prop} {CL : ComparatorLaws C V}.

(** Pointers to an internal key with its length, whatever follows. *)
Definition entry_valid (e : bytes) : Prop :=
  ∃ k rest, e = EncodeVarint32 (zlen k) ++ k ++ rest ∧ in_w 32 (zlen k) ∧ ikey_valid (V := V) k.

Lemma entry_key_enc k rest :
  in_w 32 (zlen k) → entry_key (EncodeVarint32 (zlen k) ++ k ++ rest) = k.
Proof. intros. unfold entry_key. by rewrite GetLengthPrefixedSlice_at_enc. Qed.

#[export] Instance KeyComparator_order : OrderLaws KeyComparator entry_valid.
Proof.
  pose proof (InternalKeyComparator_laws (C:=C) (V:=V)) as L.
  split; unfold KeyComparator.
  - intros a b (k & r & -> & Hk & Vk) (k' & r' & -> & Hk' & Vk'). rewrite !entry_key_enc by done.
    by apply (Compare_flip (ComparatorLaws:=L)).
  - intros a b c (k & r & -> & Hk & Vk) (k' & r' & -> & Hk' & Vk') (k'' & r'' & -> & Hk'' & Vk'').
    rewrite !entry_key_enc by done. by apply (Compare_le_trans (CL:=L)).
Qed.

Definition write_valid (w : Write) : Prop := write_ok w ∧ V (op_key w.2).

Lemma write_ikey_parts w :
  write_ok w →
  ExtractUserKey (write_ikey w) = op_key w.2 ∧ ExtractTag (write_ikey w) = w.1 * 256 + op_type w.2 ∧
  zlen (write_ikey w) = zlen (op_key w.2) + 8.
Proof. intros [Hs _]. by apply InternalKey_parts, op_type_ok. Qed.

Lemma write_entry w rest :
  write_valid w → entry_key (encode_write w) = write_ikey w ∧ entry_valid (encode_write w) ∧
  in_w 32 (zlen (write_ikey w)) ∧
  encode_write w ++ rest = EncodeVarint32 (zlen (write_ikey w)) ++ write_ikey w ++
    EncodeVarint32 (zlen (op_value w.2)) ++ op_value w.2 ++ rest.
Proof.
  intros [Hw Vw]. destruct (write_ikey_parts w Hw) as (Hu & _ & Hl). destruct Hw as [_ Hw].
  pose proof (zlen_nonneg (op_key w.2)). pose proof (zlen_nonneg (op_value w.2)).
  assert (Hk : in_w 32 (zlen (write_ikey w))) by word_solve.
  unfold encode_write. rewrite <- Hl. split; [by apply entry_key_enc|]. split; [|split; [done|by rewrite <- !app_assoc]].
  eexists _, _. split; [done|]. split; [done|]. split; [lia|by rewrite Hu].
Qed.

(** The order of entries. *)
Lemma KeyComparator_writes a b :
  write_valid a → write_valid b →
  KeyComparator (encode_write a) (encode_write b) < 0 ↔
  Compare (op_key a.2) (op_key b.2) < 0 ∨
  op_key a.2 = op_key b.2 ∧ b.1 * 256 + op_type b.2 < a.1 * 256 + op_type a.2.
Proof.
  intros Ha Hb. unfold KeyComparator.
  destruct (write_entry a [] Ha) as (-> & _). destruct (write_entry b [] Hb) as (-> & _).
  rewrite Internal_Compare_lt. destruct Ha as [Ha Va], Hb as [Hb Vb].
  destruct (write_ikey_parts a Ha) as (-> & -> & _). destruct (write_ikey_parts b Hb) as (-> & -> & _).
  by rewrite (Compare_eq (op_key a.2)) by done.
Qed.
End Order.

(** ** What a memtable holds *)

Section Holds.
Context {C : Comparator} {V : bytes → Prop} {CL : ComparatorLaws C V} {A : BlockAllocator}.

(** The writes [ws], in the order of their entries. *)
Definition MemHolds (m : MemTable) (ws : list Write) : Prop :=
  Forall (write_valid (V := V)) ws ∧
  ∃ ids, Holds KeyComparator (entry_valid (V := V)) (table_ m) ids (encode_write <$> ws).

Lemma new_MemTable_Holds : MemHolds new_MemTable [].
Proof. split; [constructor|]. exists []. apply new_SkipList_Holds. Qed.

Lemma Add_buf w :
  write_ok w →
  let key := op_key w.2 in let value := op_value w.2 in
  let iks := usize (usize (zlen key) + 8) in let vs := usize (zlen value) in
  EncodeVarint32 iks ++ key ++ EncodeFixed64 (Z.lor (u64 (Z.shiftl w.1 8)) (op_type w.2)) ++
    EncodeVarint32 vs ++ value = encode_write w ∧
  usize (VarintLength iks + iks + VarintLength vs + vs) = zlen (encode_write w).
Proof.
  intros Hw. destruct (write_ikey_parts w Hw) as (_ & _ & Hl). destruct Hw as [_ Hw]. cbn zeta.
  pose proof (zlen_nonneg (op_key w.2)). pose proof (zlen_nonneg (op_value w.2)).
  rewrite (wrap_small _ (zlen (op_key _))), (wrap_small _ (zlen (op_value _))), (wrap_small _ (_ + 8)) by word_solve.
  split.
  - unfold encode_write, write_ikey. rewrite InternalKey_eq, <- app_assoc. done.
  - rewrite <- !zlen_EncodeVarint64 by word_solve. rewrite <- !EncodeVarint32_64 by word_solve.
    pose proof (EncodeVarint32_bounds (zlen (op_key w.2) + 8)). pose proof (EncodeVarint32_bounds (zlen (op_value w.2))).
    unfold encode_write. rewrite !zlen_app, Hl. rewrite wrap_small by word_solve. lia.
Qed.

Lemma Add_Holds m ws w :
  MemHolds m ws → write_valid (V := V) w →
  Forall (λ w', op_key w'.2 = op_key w.2 → w'.1 ≠ w.1) ws →
  ∃ m' ws1 ws2, Add m w.1 (op_type w.2) (op_key w.2) (op_value w.2) = Some m' ∧
    ws = ws1 ++ ws2 ∧ MemHolds m' (ws1 ++ w :: ws2).
Proof.
  intros (Hws & ids & HH) Hw Hf. unfold Add. cbn zeta.
  destruct (Add_buf w (proj1 Hw)) as [-> ->]. rewrite decide_True by done.
  destruct (write_entry w [] Hw) as (Ek & Vw & _).
  destruct (Insert_Holds (V:=entry_valid (V:=V)) (table_ m) ids (encode_write <$> ws) (encode_write w) HH Vw) as (l' & ids' & -> & HH').
  { apply Forall_fmap, list.Forall_forall. intros w' Hw'. rewrite list.Forall_forall in Hws, Hf. cbn.
    specialize (Hws w' Hw'). specialize (Hf w' Hw'). intros E.
    pose proof (ol_flip (V:=entry_valid (V:=V)) (encode_write w) (encode_write w') Vw) as Hflip.
    destruct (write_entry w' [] Hws) as (Ek' & Vw' & _). 
    unfold KeyComparator in E. rewrite Ek, Ek' in E. apply Internal_Compare_zero in E as [E1 E2].
    destruct (write_ikey_parts w (proj1 Hw)) as (U & T & _). destruct (write_ikey_parts w' (proj1 Hws)) as (U' & T' & _).
    rewrite U, U', T, T' in *. apply Compare_eq in E1; [|apply Hws|apply Hw].
    pose proof (op_type_ok w.2) as O. pose proof (op_type_ok w'.2) as O'.
    specialize (Hf E1). unfold type_ok, kTypeDeletion, kTypeValue in *. lia. }
  destruct (Holds_keys _ _ _ HH) as (Hs & HV & _).
  pose proof (keys_split (V:=entry_valid (V:=V)) _ (encode_write w) Hs HV Vw) as Hsplit.
  destruct (app_take_drop _ _ _ Hsplit) as [E1 E2].
  set (n := length (keys_before KeyComparator (encode_write <$> ws) (encode_write w))) in *.
  rewrite <- fmap_take in E1. rewrite <- fmap_drop in E2.
  eexists _, (take n ws), (drop n ws). split; [done|]. split; [by rewrite take_drop|].
  split.
  - apply list.Forall_app; split; [by apply Forall_take|]. constructor; [done|by apply Forall_drop].
  - exists ids'. cbn [table_]. rewrite fmap_app. cbn [fmap list_fmap].
    unfold insert_key in HH'. by rewrite E1, E2 in HH'.
Qed.

(** ** Lookups *)

(** The writes to [u] that a reader at snapshot [s] may see, and the newest. *)
Definition visible (ws : list Write) (u : bytes) (s : Z) (w : Write) : Prop :=
  w ∈ ws ∧ op_key w.2 = u ∧ w.1 ≤ s.

Definition newest (ws : list Write) (u : bytes) (s : Z) (r : option Write) : Prop :=
  match r with
  | None => ∀ w, ¬ visible ws u s w
  | Some w => visible ws u s w ∧ ∀ w', visible ws u s w' → w'.1 ≤ w.1
  end.

Lemma lookup_key_valid u s :
  V u → seq_ok s → zlen u + 8 < 2 ^ 32 →
  entry_key (memtable_key (mkLookupKey u s)) = InternalKey u s kValueTypeForSeek ∧
  entry_valid (V := V) (memtable_key (mkLookupKey u s)).
Proof.
  intros Vu Hs Hu. pose proof (zlen_nonneg u). destruct (mkLookupKey_parts u s Hu) as (-> & _).
  destruct (InternalKey_parts u s kValueTypeForSeek Hs ltac:(by right)) as (U & T & L).
  rewrite <- L. assert (in_w 32 (zlen (InternalKey u s kValueTypeForSeek))) by word_solve.
  split.
  - rewrite <- (app_nil_r (InternalKey u s kValueTypeForSeek)) at 2. by apply entry_key_enc.
  - exists (InternalKey u s kValueTypeForSeek), []. rewrite app_nil_r. split; [done|]. split; [done|].
    split; [lia|by rewrite U].
Qed.

Lemma before_seek w u s :
  write_valid (V := V) w → V u → seq_ok s → zlen u + 8 < 2 ^ 32 →
  KeyComparator (encode_write w) (memtable_key (mkLookupKey u s)) < 0 ↔
  Compare (op_key w.2) u < 0 ∨ op_key w.2 = u ∧ s < w.1.
Proof.
  intros Hw Vu Hs Hu. unfold KeyComparator. destruct (lookup_key_valid u s Vu Hs Hu) as [-> _].
  destruct (write_entry w [] Hw) as (-> & _). rewrite Internal_Compare_lt.
  destruct (write_ikey_parts w (proj1 Hw)) as (-> & -> & _).
  destruct (InternalKey_parts u s kValueTypeForSeek Hs ltac:(by right)) as (-> & -> & _).
  rewrite (Compare_eq (op_key w.2) u (proj2 Hw) Vu). pose proof (op_type_ok w.2) as O.
  unfold type_ok, kValueTypeForSeek, kTypeDeletion, kTypeValue in *. split; (intros [?|[? ?]]; [by left|right; split; [done|lia]]).
Qed.

(** The entry where the search stops. *)
Definition seek_pos (ws : list Write) (u : bytes) (s : Z) : nat :=
  length (keys_before KeyComparator (encode_write <$> ws) (memtable_key (mkLookupKey u s))).

Lemma seek_newest m ws u s :
  MemHolds m ws → V u → seq_ok s → zlen u + 8 < 2 ^ 32 →
  newest ws u s (match ws !! seek_pos ws u s with
                 | Some w => if decide (op_key w.2 = u) then Some w else None
                 | None => None
                 end).
Proof.
  intros (Hws & ids & HH) Vu Hs Hu. destruct (Holds_keys _ _ _ HH) as (Hsort & HV & _).
  destruct (lookup_key_valid u s Vu Hs Hu) as [_ Vk].
  set (k := memtable_key (mkLookupKey u s)) in *.
  pose proof (keys_split (V:=entry_valid (V:=V)) _ k Hsort HV Vk) as Hsplit.
  destruct (app_take_drop _ _ _ Hsplit) as [E1 E2]. change (length (keys_before KeyComparator (encode_write <$> ws) k)) with (seek_pos ws u s) in E1, E2.
  rewrite <- fmap_take in E1. rewrite <- fmap_drop in E2.
  set (n := seek_pos ws u s) in *. rewrite list.Forall_forall in Hws.
  assert (Hvis : ∀ w, visible ws u s w → w ∈ drop n ws).
  { intros w (Hin & Hk & Hle). rewrite <- (take_drop n ws) in Hin. apply elem_of_app in Hin as [Hin|]; [|done].
    exfalso. assert (Hb : encode_write w ∈ encode_write <$> take n ws) by by apply list_elem_of_fmap_2.
    rewrite <- E1 in Hb. apply list_elem_of_filter in Hb as [Hb _].
    apply before_seek in Hb; [|apply Hws; by eapply elem_of_sublist, sublist_take|done..].
    rewrite Hk in Hb. rewrite (Compare_refl (CL:=CL)) in Hb by done. lia. }
  assert (Hn : drop n ws = match ws !! n with Some w => w :: drop (S n) ws | None => [] end).
  { destruct (ws !! n) as [w|] eqn:E; [by apply drop_S|]. apply drop_ge. by apply lookup_ge_None_1. }
  destruct (ws !! n) as [w|] eqn:E; rewrite Hn in Hvis.
  2: { intros w Hv%Hvis. by apply not_elem_of_nil in Hv. }
  assert (Hw : write_valid (V := V) w) by (apply Hws; by eapply list_elem_of_lookup_2).
  assert (Hnb : ¬ (Compare (op_key w.2) u < 0 ∨ op_key w.2 = u ∧ s < w.1)).
  { rewrite <- before_seek by done. assert (Hin : encode_write w ∈ encode_write <$> drop n ws).
    { apply list_elem_of_fmap_2. rewrite Hn. left. }
    rewrite <- E2 in Hin. by apply list_elem_of_filter in Hin as [Hin _]. }
  assert (Hlater : ∀ w', w' ∈ drop (S n) ws → Compare (op_key w.2) (op_key w'.2) < 0 ∨
    op_key w.2 = op_key w'.2 ∧ w'.1 ≤ w.1).
  { intros w' Hw'. assert (Hv' : write_valid (V := V) w') by (apply Hws; by eapply elem_of_sublist, sublist_drop).
    rewrite <- (take_drop_middle ws n w E), fmap_app in Hsort. cbn [fmap list_fmap] in Hsort.
    apply sorted_app in Hsort as (_ & [_ Hx]%StronglySorted_inv & _). rewrite list.Forall_forall in Hx.
    specialize (Hx (encode_write w') ltac:(by apply list_elem_of_fmap_2)). cbn in Hx.
    apply KeyComparator_writes in Hx; [|done..]. pose proof (op_type_ok w.2). pose proof (op_type_ok w'.2).
    unfold type_ok, kTypeDeletion, kTypeValue in *. destruct Hx as [?|[? ?]]; [by left|right; split; [done|lia]]. }
  case_decide as Hk.
  - split; [split; [by eapply list_elem_of_lookup_2|split; [done|]]|];
      [destruct (decide (s < w.1)); [tauto|lia]|].
    intros w' Hv. pose proof Hv as (_ & Hk' & _). apply Hvis in Hv as [->|Hv]%elem_of_cons; [done|].
    apply Hlater in Hv. rewrite Hk, Hk' in Hv. rewrite (Compare_refl (CL:=CL)) in Hv by done. lia.
  - intros w' Hv. pose proof Hv as (_ & Hk' & _). apply Hvis in Hv as [->|Hv]%elem_of_cons; [done|].
    apply Hlater in Hv as [Hv|[Hv _]]; [|congruence]. rewrite Hk' in Hv. tauto.
Qed.

(** What a lookup reports for the write it finds. *)
Definition answer (r : option Write) (value : bytes) (s : Status) : bool * bytes * Status :=
  match r with
  | None => (false, value, s)
  | Some (_, OpPut _ v) => (true, v, s)
  | Some (_, OpDelete _) => (true, value, NotFound [] [])
  end.

(** The part of [Get] that reads the entry. *)
Lemma Get_entry w (u value : bytes) (st : Status) :
  write_valid (V := V) w → V u →
  ('(key_length, key_ptr) ← GetVarint32Ptr5 (encode_write w);
   '(user, tag_ptr) ← slice_at key_ptr (usize (key_length - 8));
   if decide (Compare user u = 0) then
     if decide (8 ≤ zlen tag_ptr) then
       let tag := DecodeFixed64 tag_ptr in
       let t := Z.land tag 255 in
       if decide (t = kTypeValue) then
         '(v, _) ← GetLengthPrefixedSlice_at (zdrop key_length key_ptr);
         Some (true, v, st)
       else if decide (t = kTypeDeletion) then Some (true, value, NotFound [] [])
       else Some (false, value, st)
     else None
   else Some (false, value, st))
  = Some (answer (if decide (op_key w.2 = u) then Some w else None) value st).
Proof.
  intros Hw Vu. destruct (write_entry w [] Hw) as (_ & _ & Hk & E). rewrite app_nil_r in E. rewrite E.
  destruct (write_ikey_parts w (proj1 Hw)) as (U & T & L). destruct Hw as [[Hs Hsize] Vw].
  pose proof (zlen_nonneg (op_key w.2)). pose proof (zlen_nonneg (op_value w.2)). rewrite app_nil_r.
  set (vpart := EncodeVarint32 (zlen (op_value w.2)) ++ op_value w.2).
  rewrite GetVarint32Ptr5_enc by done. cbn [mbind option_bind]. rewrite L.
  rewrite wrap_small by word_solve. replace (zlen (op_key w.2) + 8 - 8) with (zlen (op_key w.2)) by lia.
  set (tag := PackSequenceAndType w.1 (op_type w.2)).
  assert (Htag : in_w 64 tag) by (apply Pack_range; [done|destruct (op_type_ok w.2) as [-> | ->]; done]).
  assert (Ei : write_ikey w = op_key w.2 ++ EncodeFixed64 tag) by apply InternalKey_eq.
  rewrite Ei, <- app_assoc. unfold slice_at. rewrite decide_True by zsolve.
  rewrite ztake_app, zdrop_app. cbn [mbind option_bind].
  case_decide as Hc.
  2: { rewrite decide_False; [done|]. intros Eq. apply Hc. rewrite Eq. by apply (Compare_refl (CL:=CL)). }
  apply Compare_eq in Hc; [|done..]. rewrite (decide_True (P:=op_key w.2 = u)) by done.
  rewrite decide_True by (rewrite zlen_app, zlen_EncodeFixed64; zsolve).
  rewrite DecodeFixed64_EncodeFixed64 by done. cbn zeta.
  assert (Z.land tag 255 = op_type w.2) as ->.
  { unfold tag. rewrite land_255. destruct (op_type_ok w.2) as [O|O]; rewrite O, Pack_eq by done;
      unfold kTypeDeletion, kTypeValue; word_solve. }
  assert (zdrop (zlen (op_key w.2) + 8) (op_key w.2 ++ EncodeFixed64 tag ++ vpart) = vpart) as ->.
  { rewrite app_assoc. apply zdrop_app_n. by rewrite zlen_app, zlen_EncodeFixed64. }
  assert (GetLengthPrefixedSlice_at vpart = Some (op_value w.2, [])) as ->.
  { unfold vpart. rewrite <- (app_nil_r (op_value w.2)) at 2. apply GetLengthPrefixedSlice_at_enc. word_solve. }
  by destruct w as [q [k v|k]].
Qed.

Lemma Get_Holds m ws u s value st :
  MemHolds m ws → V u → seq_ok s → zlen u + 8 < 2 ^ 32 →
  ∃ r, newest ws u s r ∧ Get m (mkLookupKey u s) value st = Some (answer r value st).
Proof.
  intros Hm Vu Hs Hu. pose proof (seek_newest m ws u s Hm Vu Hs Hu) as Hn. eexists; split; [exact Hn|].
  destruct Hm as (Hws & ids & HH). destruct (Holds_keys _ _ _ HH) as (_ & _ & Hlen & Hkey).
  destruct (lookup_key_valid u s Vu Hs Hu) as [_ Vk].
  unfold Get. cbn zeta. rewrite (iter_Seek_Holds _ _ _ _ HH Vk). cbn [mbind option_bind].
  fold (seek_pos ws u s). set (n := seek_pos ws u s) in *. specialize (Hkey n).
  rewrite list_lookup_fmap in Hkey. rewrite Hkey. rewrite length_fmap in Hlen.
  destruct (mkLookupKey_parts u s Hu) as (_ & _ & ->). unfold iter_Valid.
  destruct (ws !! n) as [w|] eqn:E; cbn [fmap option_fmap option_map].
  - apply lookup_lt_Some in E as Hlt. rewrite bool_decide_true by (apply lookup_lt_is_Some_2; by rewrite Hlen).
    cbn [mbind option_bind]. apply Get_entry; [|done]. rewrite list.Forall_forall in Hws. apply Hws.
    by eapply list_elem_of_lookup_2.
  - apply lookup_ge_None in E. rewrite bool_decide_false; [done|]. rewrite lookup_lt_is_Some, Hlen. by apply Nat.le_ngt.
Qed.

(** ** Histories *)

(** The operations of a batch with their sequence numbers. *)
Fixpoint number (seq : Z) (ops : list BatchOp) : list Write :=
  match ops with [] => [] | op :: ops => (seq, op) :: number (seq + 1) ops end.

(** A memtable that received the writes [h], oldest first. *)
Definition Mem_hist (m : MemTable) (h : list Write) : Prop :=
  StronglySorted (λ a b : Write, a.1 < b.1) h ∧ ∃ ws, MemHolds m ws ∧ ws ≡ₚ h.

(** The last write to [u] up to the sequence number [s]. *)
Definition last_write (h : list Write) (u : bytes) (s : Z) : option Write :=
  list.last (filter (λ w, op_key w.2 = u ∧ w.1 ≤ s) h).

Lemma newest_last ws h u s r :
  StronglySorted (λ a b : Write, a.1 < b.1) h → ws ≡ₚ h → newest ws u s r → r = last_write h u s.
Proof.
  intros Hs Hp Hn. unfold last_write. destruct r as [w|].
  - destruct Hn as [(Hin & Hk & Hle) Hmax]. rewrite Hp in Hin. apply list_elem_of_split in Hin as (a & b & ->).
    apply sorted_app in Hs as (_ & [_ Hb]%StronglySorted_inv & _). rewrite list.Forall_forall in Hb.
    rewrite list.filter_app, filter_cons, decide_True by done.
    rewrite (filter_none _ b), last_snoc; [done|]. apply list.Forall_forall. intros w' Hw' [Hk' Hle'].
    specialize (Hb w' Hw'). specialize (Hmax w'). cbn in Hb.
    enough (w'.1 ≤ w.1) by lia. apply Hmax. split; [|done]. rewrite Hp. apply elem_of_app. right. by right.
  - rewrite filter_none; [done|]. apply list.Forall_forall. intros w Hw [Hk Hle]. apply (Hn w).
    split; [by rewrite Hp|done].
Qed.

Lemma Mem_hist_Add m h w :
  Mem_hist m h → write_valid (V := V) w → Forall (λ w', w'.1 < w.1) h →
  ∃ m', Add m w.1 (op_type w.2) (op_key w.2) (op_value w.2) = Some m' ∧ Mem_hist m' (h ++ [w]).
Proof.
  intros (Hs & ws & Hm & Hp) Hw Hlt.
  destruct (Add_Holds m ws w Hm Hw) as (m' & ws1 & ws2 & E & -> & Hm').
  { rewrite Hp. eapply Forall_impl; [|exact Hlt]. cbn. intros; lia. }
  exists m'. split; [done|]. split.
  - apply sorted_app. splits; [done|repeat constructor|]. rewrite list.Forall_forall in Hlt.
    intros x y Hx ->%list_elem_of_singleton. by apply Hlt.
  - exists (ws1 ++ w :: ws2). split; [done|]. rewrite <- Hp.
    etrans; [symmetry; apply Permutation_middle|]. apply Permutation_cons_append.
Qed.

Lemma Mem_hist_replay m h seq ops :
  Mem_hist m h → Forall (write_valid (V := V)) (number seq ops) → Forall (λ w', w'.1 < seq) h →
  ∃ hd, replay ops {| sequence_ := seq; mem_ := m |} = Some hd ∧ Mem_hist (mem_ hd) (h ++ number seq ops).
Proof.
  revert m h seq. induction ops as [|op ops IH]; intros m h seq Hm Hv Hlt.
  { eexists; split; [done|]. by rewrite app_nil_r. }
  cbn [number] in *. apply list.Forall_cons in Hv as [Hw Hv].
  destruct (Mem_hist_Add m h (seq, op) Hm Hw Hlt) as (m' & E & Hm').
  assert (Eh : handle op {| sequence_ := seq; mem_ := m |} = Some {| sequence_ := seq + 1; mem_ := m' |}).
  { destruct Hw as [[Hs _] _]. unfold seq_ok, kMaxSequenceNumber in Hs. cbn in Hs, E.
    destruct op; cbn in *; rewrite E; cbn; by rewrite wrap_small by word_solve. }
  cbn [replay]. rewrite Eh. cbn [mbind option_bind].
  destruct (IH m' (h ++ [(seq, op)]) (seq + 1) Hm' Hv) as (hd & -> & Hhd).
  { apply list.Forall_app; split; [|by repeat constructor; cbn; lia].
    eapply Forall_impl; [|exact Hlt]. cbn. lia. }
  exists hd. split; [done|]. by rewrite <- app_assoc in Hhd.
Qed.

(** ** The iterator *)

Definition write_entry_of (w : Write) : entry := (write_ikey w, op_value w.2).

(** Internal keys whose size fits the encoding. *)
Definition seek_key_valid (k : bytes) : Prop := ikey_valid (V := V) k ∧ zlen k < 2 ^ 32.

Definition mi_rel (it : MemTableIterator) (es : list entry) (p : option nat) : Prop :=
  ∃ ids ws, Forall (write_valid (V := V)) ws ∧ es = write_entry_of <$> ws ∧
    Holds KeyComparator (entry_valid (V := V)) (mi_table it) ids (encode_write <$> ws) ∧
    mi_iter it = (i ← p; ids !! i) ∧ (∀ i, p = Some i → (i < length ws)%nat).

Lemma mi_rel_at l ids ws i :
  Forall (write_valid (V := V)) ws →
  Holds KeyComparator (entry_valid (V := V)) l ids (encode_write <$> ws) →
  mi_rel {| mi_table := l; mi_iter := ids !! i |} (write_entry_of <$> ws) (pos_at (write_entry_of <$> ws) i).
Proof.
  intros Hws HH. exists ids, ws. destruct (Holds_keys _ _ _ HH) as (_ & _ & Hlen & _).
  rewrite length_fmap in Hlen. unfold pos_at. rewrite length_fmap. cbn [mi_table mi_iter].
  splits; try done.
  - case_decide as Hi; [done|]. cbn. apply lookup_ge_None_2. lia.
  - intros j. case_decide; [|done]. by intros [= <-].
Qed.

Lemma EncodeKey_valid k :
  seek_key_valid k → entry_key (EncodeKey k) = k ∧ entry_valid (V := V) (EncodeKey k).
Proof.
  intros [Hk Hl]. pose proof (zlen_nonneg k). assert (in_w 32 (zlen k)) by word_solve.
  unfold EncodeKey, PutVarint32. cbn [app]. rewrite wrap_small by done.
  split; [|exists k, []; by rewrite app_nil_r].
  rewrite <- (app_nil_r k) at 2. by apply entry_key_enc.
Qed.

Lemma seek_index ws k :
  Forall (write_valid (V := V)) ws → seek_key_valid k →
  length (keys_before KeyComparator (encode_write <$> ws) (EncodeKey k))
  = length (entries_before (C := InternalKeyComparator) (write_entry_of <$> ws) k).
Proof.
  intros Hws Hk. unfold keys_before, entries_before. destruct (EncodeKey_valid k Hk) as [Ek _].
  induction Hws as [|w ws Hw _ IH]; [done|]. cbn [fmap list_fmap]. rewrite !filter_cons.
  assert (KeyComparator (encode_write w) (EncodeKey k) = Internal_Compare (write_ikey w) k) as ->.
  { unfold KeyComparator. destruct (write_entry w [] Hw) as (-> & _). by rewrite Ek. }
  cbn [write_entry_of fst Compare InternalKeyComparator]. case_decide; cbn [length]; by rewrite IH.
Qed.

Lemma write_entries_sorted l ids ws :
  Forall (write_valid (V := V)) ws →
  Holds KeyComparator (entry_valid (V := V)) l ids (encode_write <$> ws) →
  StronglySorted (entry_lt (C := InternalKeyComparator)) (write_entry_of <$> ws) ∧
  Forall (λ e, seek_key_valid e.1) (write_entry_of <$> ws).
Proof.
  intros Hws HH. destruct (Holds_keys _ _ _ HH) as (Hs & _). clear HH. split.
  - induction Hws as [|w ws Hw Hws IH]; [constructor|]. cbn [fmap list_fmap] in *.
    apply StronglySorted_inv in Hs as [Hs Hx]. constructor; [by apply IH|].
    apply Forall_fmap in Hx. apply Forall_fmap. rewrite list.Forall_forall in Hws, Hx.
    apply list.Forall_forall. intros w' Hw'. specialize (Hx w' Hw'). cbn in Hx.
    unfold KeyComparator in Hx. destruct (write_entry w [] Hw) as (E1 & _).
    destruct (write_entry w' [] (Hws w' Hw')) as (E2 & _). by rewrite E1, E2 in Hx.
  - apply Forall_fmap. eapply Forall_impl; [|exact Hws]. intros w Hw. change (seek_key_valid (write_ikey w)).
    destruct (write_ikey_parts w (proj1 Hw)) as (U & _ & L). destruct Hw as [[_ Hw] Vw].
    pose proof (zlen_nonneg (op_key w.2)). pose proof (zlen_nonneg (op_value w.2)).
    split; [split; [lia|by rewrite U]|lia].
Qed.

Lemma write_entry_reads w :
  write_valid (V := V) w →
  GetLengthPrefixedSlice_at (encode_write w) =
    Some (write_ikey w, EncodeVarint32 (zlen (op_value w.2)) ++ op_value w.2) ∧
  GetLengthPrefixedSlice_at (EncodeVarint32 (zlen (op_value w.2)) ++ op_value w.2) = Some (op_value w.2, []).
Proof.
  intros Hw. destruct (write_entry w [] Hw) as (_ & _ & Hk & E). rewrite app_nil_r in E.
  destruct Hw as [[_ Hsize] _]. pose proof (zlen_nonneg (op_key w.2)). pose proof (zlen_nonneg (op_value w.2)).
  split.
  - rewrite E, GetLengthPrefixedSlice_at_enc by done. by rewrite app_nil_r.
  - rewrite <- (app_nil_r (op_value w.2)) at 2. apply GetLengthPrefixedSlice_at_enc. word_solve.
Qed.

#[export] Instance MemTableIterator_laws :
  IteratorLaws (C := InternalKeyComparator) MemTableIterator seek_key_valid mi_rel.
Proof.
  split.
  - intros it es p (ids & ws & Hws & -> & HH & _). by eapply write_entries_sorted.
  - intros it es i (ids & ws & Hws & -> & HH & _ & Hi). rewrite length_fmap. by apply Hi.
  - intros it es p (ids & ws & Hws & -> & HH & Ei & Hi). cbn. unfold iter_Valid. rewrite Ei.
    apply bool_decide_ext. destruct p as [i|]; cbn; [|done].
    destruct (Holds_keys _ _ _ HH) as (_ & _ & Hlen & _). rewrite length_fmap in Hlen.
    rewrite lookup_lt_is_Some, Hlen. specialize (Hi i eq_refl). split; [by eexists|done].
  - intros it es i e (ids & ws & Hws & -> & HH & Ei & Hi) He.
    cbn [it_key it_value MemTableIterator_Iterator]. rewrite Ei. cbn [mbind option_bind].
    destruct (Holds_keys _ _ _ HH) as (_ & _ & _ & ->). rewrite list_lookup_fmap. rewrite list_lookup_fmap in He.
    apply fmap_Some in He as (w & Ew & ->). rewrite Ew. cbn.
    rewrite list.Forall_lookup in Hws. by destruct (write_entry_reads w (Hws i w Ew)) as [-> _].
  - intros it es i e (ids & ws & Hws & -> & HH & Ei & Hi) He.
    cbn [it_key it_value MemTableIterator_Iterator]. rewrite Ei. cbn [mbind option_bind].
    destruct (Holds_keys _ _ _ HH) as (_ & _ & _ & ->). rewrite list_lookup_fmap. rewrite list_lookup_fmap in He.
    apply fmap_Some in He as (w & Ew & ->). rewrite Ew. cbn.
    rewrite list.Forall_lookup in Hws. destruct (write_entry_reads w (Hws i w Ew)) as [-> E2]. cbn.
    by rewrite E2.
  - done.
  - intros it es p (ids & ws & Hws & -> & HH & _). cbn. rewrite (iter_SeekToFirst_Holds _ _ _ HH).
    eexists; split; [done|]. by apply mi_rel_at.
  - intros it es p (ids & ws & Hws & -> & HH & _). cbn. rewrite (iter_SeekToLast_Holds _ _ _ HH).
    eexists; split; [done|]. destruct (Holds_keys _ _ _ HH) as (_ & _ & Hlen & _). rewrite length_fmap in Hlen.
    pose proof (mi_rel_at (mi_table it) ids ws (pred (length ids)) Hws HH) as Hr. rewrite <- last_lookup in Hr.
    unfold pos_last. unfold pos_at in Hr. rewrite length_fmap in *. rewrite Hlen in Hr.
    destruct (length ws); cbn in *; [done|]. by rewrite decide_True in Hr by lia.
  - intros it es p k (ids & ws & Hws & -> & HH & _) Hk. cbn [it_Seek MemTableIterator_Iterator].
    destruct (EncodeKey_valid k Hk) as [_ Vk]. rewrite (iter_Seek_Holds _ _ _ _ HH Vk).
    eexists; split; [done|]. unfold pos_seek. rewrite <- seek_index by done. by apply mi_rel_at.
  - intros it es i (ids & ws & Hws & -> & HH & Ei & Hi).
    cbn [it_Next it_Prev MemTableIterator_Iterator mbind option_bind] in *. rewrite Ei.
    destruct (Holds_keys _ _ _ HH) as (_ & _ & Hlen & _). rewrite length_fmap in Hlen.
    rewrite (iter_Next_Holds _ _ _ _ HH) by (rewrite Hlen; by apply Hi).
    eexists; split; [done|]. by apply mi_rel_at.
  - intros it es i (ids & ws & Hws & -> & HH & Ei & Hi).
    cbn [it_Next it_Prev MemTableIterator_Iterator mbind option_bind] in *. rewrite Ei.
    destruct (Holds_keys _ _ _ HH) as (_ & _ & Hlen & _). rewrite length_fmap in Hlen.
    rewrite (iter_Prev_Holds _ _ _ _ HH) by (rewrite Hlen; by apply Hi).
    eexists; split; [done|]. destruct i as [|i]; cbn.
    + by exists ids, ws.
    + specialize (Hi (S i) eq_refl). pose proof (mi_rel_at (mi_table it) ids ws i Hws HH) as Hr.
      unfold pos_at in Hr. rewrite length_fmap, decide_True in Hr by lia. done.
Qed.

(** ** Batches *)

Lemma InsertInto_hist m h b seq ops :
  Mem_hist m h → Batch_of b seq ops → in_w 64 seq → zlen ops < 2 ^ 31 →
  Forall (write_valid (V := V)) (number seq ops) → Forall (λ w, w.1 < seq) h →
  ∃ m', InsertInto b m = Some (Status_OK, m') ∧ Mem_hist m' (h ++ number seq ops).
Proof.
  intros Hm Hb Hseq Hn Hv Hlt. destruct (Mem_hist_replay m h seq ops Hm Hv Hlt) as (hd & E & Hhd).
  exists (mem_ hd). split; [|done]. unfold InsertInto.
  assert (Sequence b = seq) as -> by by rewrite Hb, Sequence_header.
  rewrite (Iterate_Batch b seq ops _ Hb); [by rewrite E| |done].
  clear -Hv. revert seq Hv. induction ops as [|op ops IH]; intros seq Hv; [constructor|].
  cbn in Hv. apply list.Forall_cons in Hv as [[[_ Hw] _] Hv]. constructor; [|by eapply IH].
  cbn in Hw. pose proof (zlen_nonneg (op_key op)). pose proof (zlen_nonneg (op_value op)).
  destruct op; cbn in *; lia.
Qed.

(** A series of batches, each made by its operations and given its sequence
    number, as the writer of the database does. *)
Definition make_batch (q : Z) (ops : list BatchOp) : WriteBatch :=
  SetSequence (foldl apply_op Clear ops) q.

Fixpoint insert_batches (m : MemTable) (batches : list (Z * list BatchOp)) : option MemTable :=
  match batches with
  | [] => Some m
  | (q, ops) :: batches =>
      '(s, m) ← InsertInto (make_batch q ops) m;
      if ok s then insert_batches m batches else None
  end.

Definition batch_history (batches : list (Z * list BatchOp)) : list Write :=
  concat ((λ b, number b.1 b.2) <$> batches).

Lemma make_batch_Batch q ops : zlen ops < 2 ^ 31 → Batch_of (make_batch q ops) q ops.
Proof.
  intros Hn. unfold make_batch.
  rewrite (apply_ops_Batch Clear 0 [] ops Clear_Batch) by (change (zlen []) with 0; lia).
  by rewrite SetSequence_header.
Qed.

Lemma insert_batches_hist m h batches :
  Mem_hist m h → StronglySorted (λ a b : Write, a.1 < b.1) (h ++ batch_history batches) →
  Forall (write_valid (V := V)) (batch_history batches) →
  Forall (λ b, in_w 64 b.1 ∧ zlen b.2 < 2 ^ 31) batches →
  ∃ m', insert_batches m batches = Some m' ∧ Mem_hist m' (h ++ batch_history batches).
Proof.
  revert m h. induction batches as [|[q ops] batches IH]; intros m h Hm Hs Hv Hb.
  { exists m. split; [done|]. by rewrite app_nil_r. }
  unfold batch_history in *. cbn [fmap list_fmap concat fst snd] in *.
  apply list.Forall_app in Hv as [Hv1 Hv2]. apply list.Forall_cons in Hb as [[Hq Hn] Hb]. cbn [fst snd] in *.
  cbn [insert_batches].
  assert (Hstep : ∃ m', InsertInto (make_batch q ops) m = Some (Status_OK, m') ∧ Mem_hist m' (h ++ number q ops)).
  { destruct ops as [|op ops].
    - exists m. cbn [number]. rewrite app_nil_r. split; [|done]. unfold InsertInto.
      by rewrite (Iterate_Batch _ q [] _ (make_batch_Batch q [] eq_refl)).
    - apply InsertInto_hist; [done|by apply make_batch_Batch|done..|].
      apply list.Forall_forall. intros w Hw. apply sorted_app in Hs as (_ & _ & Hs).
      apply (Hs w (q, op) Hw). cbn. left. }
  destruct Hstep as (m1 & -> & Hm1). cbn [mbind option_bind ok Status_OK].
  destruct (IH m1 (h ++ number q ops) Hm1) as (m2 & -> & Hm2); [by rewrite <- app_assoc|done..|].
  exists m2. split; [done|]. by rewrite <- app_assoc in Hm2.
Qed.

Lemma new_MemTable_hist : Mem_hist new_MemTable [].
Proof. split; [constructor|]. exists []. split; [apply new_MemTable_Holds|done]. Qed.

(** The references do not matter. *)
Lemma Mem_hist_table (m m' : MemTable) h : table_ m' = table_ m → Mem_hist m h → Mem_hist m' h.
Proof. intros Ht (Hs & ws & (Hws & ids & HH) & Hp). split; [done|]. exists ws. split; [|done]. split; [done|]. exists ids. by rewrite Ht. Qed.
End Holds.

(** C17: the memtable answers reads at a snapshot. After any series of batches
    with increasing sequence numbers has been inserted into a new memtable,
    a lookup of a user key at sequence number [s] reports what the last
    operation on that key up to [s] did: the value it put, a deletion, or
    nothing if there was none. Neither reads nor writes leave an entry. *)
Theorem MemTable_snapshots {C : Comparator} {V : bytes → Prop} {CL : ComparatorLaws C V}
    {A : BlockAllocator} (batches : list (Z * list BatchOp)) :
  StronglySorted (λ a b : Write, a.1 < b.1) (batch_history batches) →
  Forall (write_valid (V := V)) (batch_history batches) →
  Forall (λ b, in_w 64 b.1 ∧ zlen b.2 < 2 ^ 31) batches →
  ∃ m, insert_batches new_MemTable batches = Some m ∧
  ∀ u s value st, V u → seq_ok s → zlen u + 8 < 2 ^ 32 →
    Get m (mkLookupKey u s) value st = Some (answer (last_write (batch_history batches) u s) value st).
Proof.
  intros Hs Hv Hb. destruct (insert_batches_hist new_MemTable [] batches new_MemTable_hist Hs Hv Hb) as (m & E & Hm).
  exists m. split; [done|]. intros u s value st Vu Hseq Hu.
  destruct Hm as (Hsort & ws & Hm & Hp).
  destruct (Get_Holds m ws u s value st Hm Vu Hseq Hu) as (r & Hr & ->).
  by rewrite (newest_last ws _ u s r Hsort Hp Hr).
Qed.

Lemma MemTable_snapshots_witness :
  ∃ m, insert_batches (C := BytewiseComparator) (A := BumpAllocator) (new_MemTable (A := BumpAllocator))
      [(1, [OpPut (str "k") (str "old")]); (2, [OpPut (str "k") (str "new"); OpDelete (str "j")])] = Some m ∧
    Get (C := BytewiseComparator) m (mkLookupKey (str "k") 1) [] Status_OK = Some (true, str "old", Status_OK).
Proof.
  destruct (MemTable_snapshots (C := BytewiseComparator) (CL := BytewiseComparator_laws) (A := BumpAllocator)
    [(1, [OpPut (str "k") (str "old")]); (2, [OpPut (str "k") (str "new"); OpDelete (str "j")])])
    as (m & E & Hget).
  - repeat constructor.
  - repeat (apply List.Forall_cons || apply List.Forall_nil); (split; [split; [by vm_compute|by vm_compute]|exact I]).
  - repeat constructor; by vm_compute.
  - exists m. split; [exact E|]. clear E.
    etrans; [apply (Hget (str "k") 1 [] Status_OK); [exact I|by vm_compute|by vm_compute]|by vm_compute].
Defined.

(** The iterator of a memtable meets the contract of iterators: it visits
    the entries in the order of their internal keys, a sought internal key
    leads to the first entry that is not before it, and key and value are those
    that were added, at each entry. *)
Theorem MemTableIterator_correct {C : Comparator} {V : bytes → Prop} {CL : ComparatorLaws C V}
    {A : BlockAllocator} (m : MemTable) (h : list Write) :
  Mem_hist (V := V) m h →
  IteratorLaws (C := InternalKeyComparator) MemTableIterator (seek_key_valid (V := V)) (mi_rel (V := V)) ∧
  ∃ es, es ≡ₚ write_entry_of <$> h ∧ mi_rel (V := V) (NewIterator m) es None.
Proof.
  intros (Hs & ws & (Hws & ids & HH) & Hp). split; [apply _|]. exists (write_entry_of <$> ws).
  split; [by rewrite Hp|]. by exists ids, ws.
Qed.

Lemma MemTableIterator_correct_witness :
  ∃ es, es ≡ₚ write_entry_of <$> [] ∧
    mi_rel (V := any_key) (C := BytewiseComparator) (NewIterator (new_MemTable (A := BumpAllocator))) es None.
Proof.
  apply (MemTableIterator_correct (CL := BytewiseComparator_laws) (A := BumpAllocator) new_MemTable []).
  apply new_MemTable_hist.
Defined.
