(* ===== verification/WriteQueue.v ===== *)
(** The queue of writers of a database ([struct DBImpl::Writer],
    [DBImpl::BuildBatchGroup] of [db/db_impl.cc]): the writer at the front
    writes for the writers behind it, too.

    Writers are objects with an address, [batch] is NULL ([None]) for a writer
    that only waits for its turn.  The condition variables are not state. *)
From stdpp Require Import gmap.
From S2P Require Import Prelude Coding Status DbFormat WriteBatch.

Record Writer := { w_status : Status; w_batch : option WriteBatch; w_sync : bool; w_done : bool }.

Abbreviation Writers := (gmap nat Writer).

(** [*result]: the batch of the first writer, or [tmp_batch_] with what it
    holds. *)
Inductive Group := FirstBatch | TmpBatch (b : WriteBatch).

Section Group.
Context (store : Writers) (first_sync : bool) (first_batch tmp_batch : WriteBatch) (max_size : Z).

(** The loop of [BuildBatchGroup] over the writers behind the first one, with
    [size], [result] and [*last_writer]. *)
Fixpoint group_loop (ws : list nat) (size : Z) (result : Group) (last : nat) : option (Group * nat) :=
  match ws with
  | [] => Some (result, last)
  | a :: ws =>
      w ← store !! a;
      if w_sync w && negb first_sync then Some (result, last)
      else
        match w_batch w with
        | Some b =>
            let size := usize (size + ByteSize b) in
            if decide (max_size < size) then Some (result, last)
            else
              let result := match result with FirstBatch => Append tmp_batch first_batch | TmpBatch r => r end in
              group_loop ws size (TmpBatch (Append result b)) a
        | None => group_loop ws size result a
        end
  end.
End Group.

(** Small writes are not slowed down too much. *)
Definition group_limit (size : Z) : Z :=
  if decide (size ≤ Z.shiftl 128 10) then usize (size + Z.shiftl 128 10) else Z.shiftl 1 20.

(** [*last_writer] and the batch that is returned. *)
Definition BuildBatchGroup (store : Writers) (writers : list nat) (tmp_batch : WriteBatch) : option (Group * nat) :=
  match writers with
  | [] => None
  | a :: ws =>
      first ← store !! a;
      b ← w_batch first;
      let size := ByteSize b in
      group_loop store (w_sync first) b tmp_batch (group_limit size) ws size FirstBatch a
  end.

(** The bytes of the batch. *)
Definition group_contents (first_batch : WriteBatch) (g : Group) : WriteBatch :=
  match g with FirstBatch => first_batch | TmpBatch b => b end.

(** ** What a group is *)

(** The operations of a writer. *)
Definition ops_of (ops : nat → list BatchOp) (store : Writers) (a : nat) : Prop :=
  ∃ w, store !! a = Some w ∧
    match w_batch w with Some b => (∃ q, Batch_of b q (ops a)) ∧ zlen b < 2 ^ 31 | None => ops a = [] end.

Definition bytes_of (store : Writers) (a : nat) : Z :=
  match store !! a ≫= w_batch with Some b => ByteSize b | None => 0 end.

Definition total_bytes (store : Writers) (ws : list nat) : Z := foldr (λ a n, bytes_of store a + n) 0 ws.

Definition has_batch (store : Writers) (a : nat) : Prop := is_Some (store !! a ≫= w_batch).
#[export] Instance has_batch_dec store a : Decision (has_batch store a).
Proof. unfold has_batch. apply _. Defined.

(** The writer may not join: it wants its data synced and the first one does
    not, or the group would be too big. *)
Definition stops (store : Writers) (first_sync : bool) (max_size size : Z) (a : nat) : Prop :=
  ∃ w, store !! a = Some w ∧
    (w_sync w = true ∧ first_sync = false ∨ ∃ b, w_batch w = Some b ∧ max_size < size + ByteSize b).

Lemma total_bytes_cons store a ws : total_bytes store (a :: ws) = bytes_of store a + total_bytes store ws.
Proof. done. Qed.

Lemma bytes_of_nonneg store a : 0 ≤ bytes_of store a.
Proof. unfold bytes_of. destruct (_ ≫= _); [apply zlen_nonneg|done]. Qed.

Lemma total_bytes_nonneg store ws : 0 ≤ total_bytes store ws.
Proof. induction ws as [|a ws IH]; [done|]. rewrite total_bytes_cons. pose proof (bytes_of_nonneg store a). lia. Qed.

Lemma last_behind {A} (l : list A) a d : List.last (a :: l) d = List.last l a.
Proof. revert a d. induction l as [|b l IH]; intros a d; [done|]. change (List.last (b :: l) d = List.last (b :: l) a). by rewrite !IH. Qed.

Section Correct.
Context (store : Writers) (ops : nat → list BatchOp) (first_sync : bool) (first_batch tmp_batch : WriteBatch).
Context (max_size q0 : Z) (ops0 : list BatchOp).
Context (Hfirst : Batch_of first_batch q0 ops0) (Htmp : Batch_of tmp_batch 0 []) (Hmax : 0 ≤ max_size < 2 ^ 31).

(** The batch that has been built. *)
Definition built (result : Group) (os : list BatchOp) : Prop :=
  match result with
  | FirstBatch => os = ops0
  | TmpBatch b => Batch_of b 0 os
  end.

Lemma group_loop_spec ws size result last os :
  Forall (ops_of ops store) ws → built result os → 0 ≤ size < 2 ^ 31 →
  zlen os + foldr (λ a n, zlen (ops a) + n) 0 ws < 2 ^ 31 →
  ∃ g n, group_loop store first_sync first_batch tmp_batch max_size ws size result last =
      Some (g, List.last (take n ws) last) ∧ (n ≤ length ws)%nat ∧
    built g (os ++ concat (ops <$> take n ws)) ∧
    (Exists (has_batch store) (take n ws) → size + total_bytes store (take n ws) ≤ max_size) ∧
    Forall (λ a, ∀ w, store !! a = Some w → w_sync w = true → first_sync = true) (take n ws) ∧
    (∀ a, ws !! n = Some a → stops store first_sync max_size (size + total_bytes store (take n ws)) a).
Proof.
  intros Hws. revert size result last os. induction Hws as [|a ws (w & Hw & Hb) Hws IH]; intros size result last os Hr Hs Hn; cbn [group_loop].
  { exists result, O. cbn. rewrite app_nil_r. splits; [done..| | |].
    - intros Hex. by apply Exists_nil in Hex.
    - constructor.
    - done. }
  rewrite Hw. cbn [mbind option_bind]. cbn in Hn. pose proof (zlen_nonneg os). pose proof (zlen_nonneg (ops a)).
  assert (Hnn : 0 ≤ foldr (λ a n, zlen (ops a) + n) 0 ws).
  { clear. induction ws as [|a ws IH]; [done|]. cbn. pose proof (zlen_nonneg (ops a)). lia. }
  assert (Hstop : stops store first_sync max_size size a →
    ∃ g n, Some (result, last) = Some (g, List.last (take n (a :: ws)) last) ∧ (n ≤ length (a :: ws))%nat ∧
      built g (os ++ concat (ops <$> take n (a :: ws))) ∧
      (Exists (has_batch store) (take n (a :: ws)) → size + total_bytes store (take n (a :: ws)) ≤ max_size) ∧
      Forall (λ a, ∀ w, store !! a = Some w → w_sync w = true → first_sync = true) (take n (a :: ws)) ∧
      (∀ b, (a :: ws) !! n = Some b → stops store first_sync max_size (size + total_bytes store (take n (a :: ws))) b)).
  { intros Hst. exists result, O. cbn. rewrite app_nil_r. splits; [done|lia|done| |constructor|].
    - intros Hex. by apply Exists_nil in Hex.
    - intros b [= <-]. by rewrite Z.add_0_r. }
  destruct (w_sync w && negb first_sync) eqn:Esync.
  { apply andb_prop in Esync as [E1 E2]. apply negb_true_iff in E2. apply Hstop. exists w. split; [done|]. by left. }
  assert (Hsync : ∀ w', store !! a = Some w' → w_sync w' = true → first_sync = true).
  { intros w' Hw' Hs'. rewrite Hw in Hw'. injection Hw' as <-. rewrite Hs' in Esync. by destruct first_sync. }
  assert (Hbytes : bytes_of store a = match w_batch w with Some b => ByteSize b | None => 0 end)
    by (unfold bytes_of; rewrite Hw; done).
  assert (Hhas : has_batch store a ↔ is_Some (w_batch w)) by (unfold has_batch; by rewrite Hw).
  destruct (w_batch w) as [b|] eqn:Eb.
  - destruct Hb as [[q Hb] Hlen]. pose proof (zlen_nonneg b). unfold ByteSize in *. rewrite wrap_small by (unfold in_w; lia).
    destruct (decide (max_size < size + zlen b)) as [Hbig|Hfit].
    { apply Hstop. exists w. split; [done|]. right. by exists b. }
    set (r := match result with FirstBatch => _ | TmpBatch r => r end).
    assert (Hr' : Batch_of r 0 os).
    { unfold r. destruct result; cbn in Hr; [|done]. subst os. apply (Append_Batch _ _ 0 q0 [] ops0); [done..|]. cbn. change (zlen []) with 0. lia. }
    destruct (IH (size + zlen b) (TmpBatch (Append r b)) a (os ++ ops a)) as (g & n & E & Hle & Hg & Hsz & Hsy & Hst).
    + cbn. eapply Append_Batch; [done..|]. lia.
    + lia.
    + rewrite zlen_app. lia.
    + exists g, (S n). cbn [take length fmap list_fmap concat]. rewrite total_bytes_cons, Hbytes.
      split; [|split; [lia|split; [by rewrite app_assoc|split; [|split; [by constructor|]]]]].
      * by rewrite E, last_behind.
      * intros _. destruct (decide (Exists (has_batch store) (take n ws))) as [Hex|Hno]; [specialize (Hsz Hex); lia|].
        enough (total_bytes store (take n ws) = 0) by lia. clear -Hno. induction (take n ws) as [|c l IHl]; [done|].
        rewrite total_bytes_cons. rewrite Exists_cons in Hno. rewrite IHl by tauto. unfold bytes_of.
        destruct (store !! c ≫= w_batch) eqn:Ec; [|done]. destruct Hno. left. unfold has_batch. by rewrite Ec.
      * intros c Hc. cbn in Hc. specialize (Hst c Hc). by rewrite Z.add_assoc.
  - destruct (IH size result a os Hr Hs) as (g & n & E & Hle & Hg & Hsz & Hsy & Hst); [lia|].
    exists g, (S n). cbn [take length fmap list_fmap concat]. rewrite total_bytes_cons, Hbytes, Hb.
    split; [|split; [lia|split; [done|split; [|split; [by constructor|]]]]].
    + by rewrite E, last_behind.
    + intros [Hx|Hx]%Exists_cons; [by apply Hhas in Hx as []|]. specialize (Hsz Hx). lia.
    + intros c Hc. cbn in Hc. specialize (Hst c Hc). by rewrite Z.add_0_l.
Qed.
End Correct.

Lemma group_limit_bound size : 0 ≤ size → 0 ≤ group_limit size < 2 ^ 31.
Proof.
  unfold group_limit. intros Hs. change (Z.shiftl 128 10) with 131072. change (Z.shiftl 1 20) with 1048576.
  case_decide; [|lia]. rewrite wrap_small by (unfold in_w; lia). lia.
Qed.

Lemma first_group store ops a ws tmp w b0 q0 :
  store !! a = Some w → w_batch w = Some b0 → Batch_of b0 q0 (ops a) → zlen b0 < 2 ^ 31 → Batch_of tmp 0 [] →
  Forall (ops_of ops store) ws → zlen (ops a) + foldr (λ a n, zlen (ops a) + n) 0 ws < 2 ^ 31 →
  ∃ g n, BuildBatchGroup store (a :: ws) tmp = Some (g, List.last (take n ws) a) ∧ (n ≤ length ws)%nat ∧
    (∃ q, Batch_of (group_contents b0 g) q (concat (ops <$> a :: take n ws))) ∧
    (Exists (has_batch store) (take n ws) → total_bytes store (a :: take n ws) ≤ group_limit (ByteSize b0)) ∧
    Forall (λ c, ∀ wc, store !! c = Some wc → w_sync wc = true → w_sync w = true) (take n ws) ∧
    (∀ c, ws !! n = Some c → stops store (w_sync w) (group_limit (ByteSize b0)) (total_bytes store (a :: take n ws)) c).
Proof.
  intros Hw Hwb Hb Hlen Htmp Hws Hn. unfold BuildBatchGroup. rewrite Hw. cbn [mbind option_bind]. rewrite Hwb. cbn [mbind option_bind].
  pose proof (zlen_nonneg b0) as Hb0. change (ByteSize b0) with (zlen b0).
  destruct (group_loop_spec store ops (w_sync w) b0 tmp (group_limit (zlen b0)) q0 (ops a) Hb Htmp
    (group_limit_bound _ Hb0) ws (zlen b0) FirstBatch a (ops a) Hws eq_refl (conj Hb0 Hlen) Hn)
    as (g & n & E & Hle & Hg & Hsz & Hsy & Hst).
  exists g, n. assert (bytes_of store a = zlen b0) as Ha by (unfold bytes_of; rewrite Hw; cbn; by rewrite Hwb).
  rewrite total_bytes_cons, Ha. split; [exact E|]. split; [done|]. split; [|done].
  cbn [fmap list_fmap concat]. destruct g; cbn [group_contents built] in *; [exists q0; by rewrite Hg|by exists 0].
Qed.

(** C34: group commit. The batch that [BuildBatchGroup] makes for the writer at
    the front of the queue holds the operations of a prefix of the queue, in
    the order of the queue, and [*last_writer] is the last writer of this prefix. A
    writer that asks for a sync is only in the group of one that does, too, a
    group of several batches stays within its size, and the group ends only at
    the end of the queue or at a writer for which one of these would fail. *)
Theorem BuildBatchGroup_correct store ops a ws tmp w b0 q0 :
  store !! a = Some w → w_batch w = Some b0 → Batch_of b0 q0 (ops a) → zlen b0 < 2 ^ 31 → Batch_of tmp 0 [] →
  Forall (ops_of ops store) ws → zlen (ops a) + foldr (λ a n, zlen (ops a) + n) 0 ws < 2 ^ 31 →
  ∃ g n, BuildBatchGroup store (a :: ws) tmp = Some (g, List.last (take n ws) a) ∧ (n ≤ length ws)%nat ∧
    (∃ q, Batch_of (group_contents b0 g) q (concat (ops <$> a :: take n ws))) ∧
    (Exists (has_batch store) (take n ws) → total_bytes store (a :: take n ws) ≤ group_limit (ByteSize b0)) ∧
    Forall (λ c, ∀ wc, store !! c = Some wc → w_sync wc = true → w_sync w = true) (take n ws) ∧
    (∀ c, ws !! n = Some c → stops store (w_sync w) (group_limit (ByteSize b0)) (total_bytes store (a :: take n ws)) c).
Proof. apply first_group. Qed.

Module Example.
Definition writer (b : option WriteBatch) (sync : bool) : Writer :=
  {| w_status := Status_OK; w_batch := b; w_sync := sync; w_done := false |}.
Definition ops (a : nat) : list BatchOp :=
  match a with 0 => [OpPut (str "a") (str "1")] | 1 => [OpDelete (str "b")] | 3 => [OpPut (str "c") (str "3")] | _ => [] end%nat.
Definition batch (a : nat) : WriteBatch := foldl apply_op Clear (ops a).
Definition store : Writers :=
  {[ 0%nat := writer (Some (batch 0)) false; 1%nat := writer (Some (batch 1)) false; 2%nat := writer None false;
     3%nat := writer (Some (batch 3)) true ]}.
End Example.

Lemma ops_batch ops : zlen ops < 2 ^ 31 → Batch_of (foldl apply_op Clear ops) 0 ops.
Proof. intros Hn. apply (apply_ops_Batch Clear 0 [] ops Clear_Batch). by change (zlen []) with 0. Qed.

Lemma BuildBatchGroup_correct_witness :
  ∃ g, BuildBatchGroup Example.store [0; 1; 2; 3]%nat Clear = Some (g, 2%nat) ∧
    ∃ q, Batch_of (group_contents (Example.batch 0) g) q (Example.ops 0 ++ Example.ops 1).
Proof.
  destruct (BuildBatchGroup_correct Example.store Example.ops 0 [1; 2; 3]%nat Clear (Example.writer (Some (Example.batch 0)) false)
    (Example.batch 0) 0) as (g & n & E & Hle & Hb & _ & Hsync & _).
  - reflexivity.
  - reflexivity.
  - by apply ops_batch.
  - by vm_compute.
  - apply Clear_Batch.
  - repeat (apply List.Forall_cons || apply List.Forall_nil).
    + exists (Example.writer (Some (Example.batch 1)) false). split; [reflexivity|]. split; [|by vm_compute]. exists 0. by apply ops_batch.
    + exists (Example.writer None false). by split.
    + exists (Example.writer (Some (Example.batch 3)) true). split; [reflexivity|]. split; [|by vm_compute]. exists 0. by apply ops_batch.
  - by vm_compute.
  - assert (E' := E). vm_compute in E'. apply (inj Some) in E'. apply pair_eq in E' as [_ E'].
    exists g. destruct n as [|[|[|n]]]; cbn in E', Hb; try discriminate.
    + split; [exact E|exact Hb].
    + exfalso. destruct n; discriminate.
Defined.
