(* ===== verification/BlockBuilder.v ===== *)
(** Blocks of prefix-compressed entries, the writing side:
    [table/block_builder.cc] and [table/block_builder.h].

    [Layout] is the format as a relation between the entries of a block and its
    bytes; the builder makes such blocks and [Block] reads them. *)
From S2P Require Import Prelude Coding Comparator Iterator.

Record BlockBuilder := {
  buffer_ : bytes;
  restarts_ : list Z;
  counter_ : Z;
  finished_ : bool;
  last_key_ : bytes;
}.

Definition new_BlockBuilder : BlockBuilder :=
  {| buffer_ := []; restarts_ := [0]; counter_ := 0; finished_ := false; last_key_ := [] |}.

Definition Reset (b : BlockBuilder) : BlockBuilder :=
  {| buffer_ := []; restarts_ := [0]; counter_ := 0; finished_ := false; last_key_ := [] |}.

Definition CurrentSizeEstimate (b : BlockBuilder) : Z :=
  usize (zlen (buffer_ b) + zlen (restarts_ b) * 4 + 4).

Definition builder_empty (b : BlockBuilder) : bool := bool_decide (buffer_ b = []).

(** The loop that appends the restart array. *)
Definition Finish (b : BlockBuilder) : bytes * BlockBuilder :=
  let buffer := foldl PutFixed32 (buffer_ b) (restarts_ b) in
  let buffer := PutFixed32 buffer (u32 (zlen (restarts_ b))) in
  (buffer, {| buffer_ := buffer; restarts_ := restarts_ b; counter_ := counter_ b;
              finished_ := true; last_key_ := last_key_ b |}).

(** [while ((shared < min_length) && (last_key_piece[shared] == key[shared]))] *)
Fixpoint shared_loop (last_key_piece key : bytes) : Z :=
  match last_key_piece, key with
  | x :: last_key_piece, y :: key => if decide (x = y) then 1 + shared_loop last_key_piece key else 0
  | _, _ => 0
  end.

(** [interval] is [options_->block_restart_interval]. *)
Definition Add (interval : Z) (b : BlockBuilder) (key value : bytes) : BlockBuilder :=
  let compress := bool_decide (counter_ b < interval) in
  let shared := if compress then shared_loop (last_key_ b) key else 0 in
  let restarts := if compress then restarts_ b else restarts_ b ++ [u32 (zlen (buffer_ b))] in
  let counter := if compress then counter_ b else 0 in
  let non_shared := zlen key - shared in
  let buffer := PutVarint32 (buffer_ b) (u32 shared) in
  let buffer := PutVarint32 buffer (u32 non_shared) in
  let buffer := PutVarint32 buffer (u32 (zlen value)) in
  let buffer := buffer ++ zdrop shared key in
  let buffer := buffer ++ value in
  {| buffer_ := buffer; restarts_ := restarts; counter_ := counter + 1; finished_ := finished_ b;
     last_key_ := ztake shared (last_key_ b) ++ zdrop shared key |}.

(** ** The format *)

Definition enc_chunk (shared : Z) (e : entry) : bytes :=
  EncodeVarint32 shared ++ EncodeVarint32 (zlen e.1 - shared) ++ EncodeVarint32 (zlen e.2) ++
  zdrop shared e.1 ++ e.2.

(** A chunk is an entry with the number of bytes it shares with the entry
    before it. *)
Definition chunks_body (cs : list (Z * entry)) : bytes := concat ((λ c, enc_chunk c.1 c.2) <$> cs).

Definition chunk_offset (cs : list (Z * entry)) (i : nat) : Z := zlen (chunks_body (take i cs)).

Definition prev_key (cs : list (Z * entry)) (i : nat) : bytes :=
  match i with O => [] | S i => match cs !! i with Some c => c.2.1 | None => [] end end.

Definition chunk_ok (cs : list (Z * entry)) (i : nat) (c : Z * entry) : Prop :=
  0 ≤ c.1 ≤ zlen (prev_key cs i) ∧ ztake c.1 (prev_key cs i) = ztake c.1 c.2.1 ∧ c.1 ≤ zlen c.2.1.

(** [R] are the entries that are restart points. *)
Record Layout (cs : list (Z * entry)) (R : list nat) : Prop := {
  layout_chunks i c : cs !! i = Some c → chunk_ok cs i c;
  layout_first : R !! 0%nat = Some 0%nat;
  layout_mono j r r' : R !! j = Some r → R !! S j = Some r' → (r < r')%nat;
  layout_restart j r : R !! j = Some r → (r = 0 ∨ r < length cs)%nat;
  layout_zero j r c : R !! j = Some r → cs !! r = Some c → c.1 = 0;
}.

Definition restart_array (cs : list (Z * entry)) (R : list nat) : bytes :=
  fixed32_array (chunk_offset cs <$> R).

Definition block_bytes (cs : list (Z * entry)) (R : list nat) : bytes :=
  chunks_body cs ++ restart_array cs R ++ EncodeFixed32 (zlen R).

(** ** The builder makes this format *)

Definition builder_rep (b : BlockBuilder) (cs : list (Z * entry)) (R : list nat) : Prop :=
  Layout cs R ∧ buffer_ b = chunks_body cs ∧ restarts_ b = chunk_offset cs <$> R ∧
  last_key_ b = prev_key cs (length cs) ∧ 0 ≤ counter_ b ∧ (cs = [] → counter_ b = 0).

Lemma new_BlockBuilder_rep : builder_rep new_BlockBuilder [] [0%nat].
Proof.
  split; [|done]. split; try done.
  intros [|j] r; cbn; [intros [= <-]; by left|by destruct j].
Qed.

Lemma Reset_new b : Reset b = new_BlockBuilder.
Proof. done. Qed.

Lemma shared_loop_spec a b :
  0 ≤ shared_loop a b ≤ zlen a ∧ shared_loop a b ≤ zlen b ∧
  ztake (shared_loop a b) a = ztake (shared_loop a b) b.
Proof.
  revert b. induction a as [|x a IH]; intros b; [pose proof (zlen_nonneg b); by destruct b|].
  destruct b as [|y b]; [pose proof (zlen_nonneg (x :: a)); done|]. cbn [shared_loop].
  pose proof (zlen_nonneg (x :: a)). pose proof (zlen_nonneg (y :: b)).
  case_decide as Hxy; [|done].
  destruct (IH b) as (H1 & H2 & H3). rewrite !zlen_cons. splits; [lia|lia|lia|].
  unfold ztake in *. replace (Z.to_nat (1 + shared_loop a b)) with (S (Z.to_nat (shared_loop a b))) by lia.
  cbn. by rewrite Hxy, H3.
Qed.

Lemma chunks_body_app c1 c2 : chunks_body (c1 ++ c2) = chunks_body c1 ++ chunks_body c2.
Proof. unfold chunks_body. by rewrite fmap_app, concat_app. Qed.

Lemma chunk_offset_app cs c i : (i ≤ length cs)%nat → chunk_offset (cs ++ [c]) i = chunk_offset cs i.
Proof. intros. unfold chunk_offset. by rewrite take_app_le. Qed.

Lemma prev_key_app cs c i : (i ≤ length cs)%nat → prev_key (cs ++ [c]) i = prev_key cs i.
Proof. intros. destruct i as [|i]; [done|]. cbn. by rewrite lookup_app_l by lia. Qed.

(** A new chunk, as a restart point or sharing a prefix. *)
Lemma Layout_snoc cs R c :
  Layout cs R → chunk_ok cs (length cs) c → (cs = [] → c.1 = 0) →
  Layout (cs ++ [c]) R ∧ (cs ≠ [] → c.1 = 0 → Layout (cs ++ [c]) (R ++ [length cs])).
Proof.
  intros [L1 L2 L3 L4 L5] Hc H0.
  assert (Hchunks : ∀ i c', (cs ++ [c]) !! i = Some c' → chunk_ok (cs ++ [c]) i c').
  { intros i c' [Hi|[-> ->]]%lookup_snoc_Some.
    - destruct Hi as [Hi Hc']. unfold chunk_ok. rewrite prev_key_app by lia. by apply L1.
    - unfold chunk_ok. by rewrite prev_key_app. }
  assert (Hr : ∀ j r, R !! j = Some r → (r = 0 ∨ r < length (cs ++ [c]))%nat).
  { intros j r Hj. rewrite length_app. cbn. destruct (L4 j r Hj); [by left|right; lia]. }
  assert (Hz : ∀ j r c', R !! j = Some r → (cs ++ [c]) !! r = Some c' → c'.1 = 0).
  { intros j r c' Hj [[? Hc']|[-> ->]]%lookup_snoc_Some; [by eapply L5|].
    destruct (L4 j _ Hj) as [E|?]; [|lia]. apply H0. by apply nil_length_inv. }
  split; [by split|]. intros Hne Hc0. split; [done| |..].
  - by rewrite lookup_app_l by (by eapply lookup_lt_Some).
  - intros j r r' [[? Hj]|[-> <-]]%lookup_snoc_Some Hj'.
    + apply lookup_snoc_Some in Hj' as [[? Hj']|[? <-]]; [by eapply L3|].
      destruct (L4 j r Hj) as [->|?]; [|done]. destruct cs; [done|cbn; lia].
    + apply lookup_lt_Some in Hj'. rewrite length_app in Hj'. cbn in Hj'. lia.
  - intros j r [[? Hj]|[-> <-]]%lookup_snoc_Some; [by eapply Hr|]. right. rewrite length_app. cbn. lia.
  - intros j r c' [[? Hj]|[-> <-]]%lookup_snoc_Some; [by eapply Hz|].
    rewrite lookup_app_r, Nat.sub_diag by done. by intros [= <-].
Qed.

(** Adding an entry, where the sizes fit 32 bits. *)
Lemma Add_rep interval b cs R key value :
  builder_rep b cs R → 1 ≤ interval → zlen (chunks_body cs) < 2 ^ 32 →
  zlen key < 2 ^ 32 → zlen value < 2 ^ 32 →
  ∃ s R', builder_rep (Add interval b key value) (cs ++ [(s, (key, value))]) R' ∧
    zlen R' ≤ zlen R + 1 ∧ 0 ≤ s ≤ zlen key.
Proof.
  intros (HL & Hbuf & Hre & Hlast & Hcnt & Hcnt0) Hint Hlen Hk Hv. unfold Add. cbn zeta.
  pose proof (zlen_nonneg key). pose proof (zlen_nonneg value). pose proof (zlen_nonneg (chunks_body cs)).
  set (shared := if bool_decide (counter_ b < interval) then shared_loop (last_key_ b) key else 0).
  set (c := (shared, (key, value))).
  assert (Hs : 0 ≤ shared ≤ zlen (last_key_ b) ∧ shared ≤ zlen key ∧
    ztake shared (last_key_ b) = ztake shared key).
  { unfold shared. destruct (bool_decide _); [apply shared_loop_spec|].
    pose proof (zlen_nonneg (last_key_ b)). done. }
  assert (Hok : chunk_ok cs (length cs) c).
  { unfold chunk_ok. cbn [c fst snd]. rewrite <- Hlast. tauto. }
  assert (Hfirst : cs = [] → c.1 = 0).
  { intros ->. cbn [c fst]. cbn in Hlast. rewrite Hlast in Hs. change (zlen []) with 0 in Hs. lia. }
  destruct (Layout_snoc cs R c HL Hok Hfirst) as [HL1 HL2].
  assert (Hb : PutVarint32 (PutVarint32 (PutVarint32 (buffer_ b) (u32 shared)) (u32 (zlen key - shared)))
    (u32 (zlen value)) ++ zdrop shared key = buffer_ b ++ EncodeVarint32 shared ++
    EncodeVarint32 (zlen key - shared) ++ EncodeVarint32 (zlen value) ++ zdrop shared key).
  { unfold PutVarint32. rewrite !wrap_small by word_solve. by rewrite <- !app_assoc. }
  rewrite Hb.
  assert (Hbody : chunks_body (cs ++ [c]) = chunks_body cs ++ enc_chunk shared (key, value)).
  { rewrite chunks_body_app. unfold chunks_body at 2. cbn. by rewrite app_nil_r. }
  assert (Hkey : ztake shared (last_key_ b) ++ zdrop shared key = prev_key (cs ++ [c]) (length (cs ++ [c]))).
  { rewrite length_app, Nat.add_1_r. cbn [prev_key length]. rewrite lookup_app_r, Nat.sub_diag by done.
    cbn. destruct Hs as (_ & _ & ->). apply ztake_zdrop. }
  exists shared. fold c. destruct (bool_decide (counter_ b < interval)) eqn:Ec.
  - exists R. split; [|lia]. split; [done|]. cbn [buffer_ restarts_ last_key_ counter_]. splits.
    + rewrite Hbody, Hbuf. unfold enc_chunk. cbn [fst snd]. by rewrite <- !app_assoc.
    + rewrite Hre. apply list_fmap_ext. intros j r Hj. symmetry. apply chunk_offset_app.
      destruct (layout_restart _ _ HL j r Hj); lia.
    + done.
    + lia.
    + intros E. by destruct cs.
  - apply bool_decide_eq_false in Ec. assert (Hne : cs ≠ []) by (intros Hn; specialize (Hcnt0 Hn); lia).
    exists (R ++ [length cs]). split; [|rewrite zlen_app; split; [done|lia]]. split; [by apply HL2|]. cbn [buffer_ restarts_ last_key_ counter_]. splits.
    + rewrite Hbody, Hbuf. unfold enc_chunk. cbn [fst snd]. by rewrite <- !app_assoc.
    + rewrite fmap_app. cbn [fmap list_fmap]. rewrite Hre, Hbuf, wrap_small by word_solve. f_equal.
      * apply list_fmap_ext. intros j r Hj. symmetry. apply chunk_offset_app.
        destruct (layout_restart _ _ HL j r Hj); lia.
      * unfold chunk_offset. by rewrite take_app_length.
    + done.
    + lia.
    + intros E. by destruct cs.
Qed.

Lemma Finish_rep b cs R :
  builder_rep b cs R → zlen R < 2 ^ 32 → fst (Finish b) = block_bytes cs R.
Proof.
  intros (_ & Hbuf & Hre & _) Hn. unfold Finish. cbn [fst].
  assert (zlen (restarts_ b) = zlen R) as -> by by rewrite Hre, zlen_fmap.
  pose proof (zlen_nonneg R). rewrite wrap_small by word_solve. unfold block_bytes, PutFixed32.
  by rewrite foldl_PutFixed32, Hre, Hbuf, <- app_assoc.
Qed.

(** ** The size of a block *)

Lemma zlen_enc_chunk_le s e :
  0 ≤ s ≤ zlen e.1 → zlen (enc_chunk s e) ≤ 15 + zlen e.1 + zlen e.2.
Proof.
  intros Hs. unfold enc_chunk. rewrite !zlen_app, zlen_zdrop by lia.
  pose proof (EncodeVarint32_bounds s). pose proof (EncodeVarint32_bounds (zlen e.1 - s)).
  pose proof (EncodeVarint32_bounds (zlen e.2)). lia.
Qed.

Lemma zlen_restart_array cs R : zlen (restart_array cs R) = 4 * zlen R.
Proof. unfold restart_array. by rewrite zlen_fixed32_array, zlen_fmap. Qed.

Lemma zlen_block_bytes cs R : zlen (block_bytes cs R) = zlen (chunks_body cs) + 4 * zlen R + 4.
Proof. unfold block_bytes. rewrite !zlen_app, zlen_restart_array, zlen_EncodeFixed32. lia. Qed.

(** A bound on the bytes of a block with these entries. *)
Definition block_need (es : list entry) : Z := foldr (λ e n, 19 + zlen e.1 + zlen e.2 + n) 8 es.

Lemma block_need_snoc es e : block_need (es ++ [e]) = block_need es + 19 + zlen e.1 + zlen e.2.
Proof. unfold block_need. induction es as [|x es IH]; cbn; [lia|]. rewrite IH. lia. Qed.

Lemma block_need_ge es : 8 ≤ block_need es.
Proof. unfold block_need. induction es as [|x es IH]; cbn; [lia|]. zsolve. Qed.

Definition Adds (interval : Z) (b : BlockBuilder) (es : list entry) : BlockBuilder :=
  foldl (λ b e, Add interval b e.1 e.2) b es.

Lemma Adds_rep interval es :
  1 ≤ interval → block_need es < 2 ^ 32 →
  ∃ cs R, builder_rep (Adds interval new_BlockBuilder es) cs R ∧ cs.*2 = es ∧
    zlen (block_bytes cs R) ≤ block_need es.
Proof.
  intros Hi. induction es as [|e es IH] using rev_ind; intros Hn.
  - exists [], [0%nat]. split; [apply new_BlockBuilder_rep|done].
  - rewrite block_need_snoc in *. zlen_facts. pose proof (block_need_ge es).
    destruct IH as (cs & R & Hrep & Hes & Hlen); [lia|]. rewrite zlen_block_bytes in Hlen. zlen_facts.
    unfold Adds in *. rewrite foldl_app. cbn [foldl].
    destruct (Add_rep interval _ cs R e.1 e.2 Hrep Hi) as (s & R' & Hrep' & HR & Hs); [lia..|].
    exists (cs ++ [(s, (e.1, e.2))]), R'. split; [done|]. split.
    + rewrite fmap_app, Hes. by destruct e.
    + rewrite zlen_block_bytes, chunks_body_app, zlen_app. unfold chunks_body at 2. cbn [fmap list_fmap concat].
      rewrite app_nil_r. pose proof (zlen_enc_chunk_le s (e.1, e.2)) as Hc. cbn [fst snd] in *. lia.
Qed.
