(* ===== verification/Block.v ===== *)
(** Blocks of prefix-compressed entries, the reading side: [table/block.cc] and
    [table/block.h].

    Pointers into the block are offsets in [data_].  An access outside the
    block, or an operation on a slice that does not point into it, is [None]. *)
From Stdlib Require Import Sorting.Sorted.
From S2P Require Import Prelude SortedLists Coding Comparator Status Iterator BlockBuilder.

(** ** Blocks *)

(** The block owns its contents or not; here this makes no difference. *)
Record Block := { data_ : bytes; size_ : Z; restart_offset_ : Z }.

(** [NumRestarts] of [size] bytes of data. *)
Definition NumRestarts (data : bytes) (size : Z) : Z := DecodeFixed32 (zdrop (size - 4) data).

Definition new_Block (contents : bytes) : Block :=
  let size := zlen contents in
  if decide (size < 4) then {| data_ := contents; size_ := 0; restart_offset_ := 0 |}
  else
    let max_restarts_allowed := (size - 4) / 4 in
    if decide (NumRestarts contents size > max_restarts_allowed) then
      {| data_ := contents; size_ := 0; restart_offset_ := 0 |}
    else
      {| data_ := contents; size_ := size;
         restart_offset_ := u32 (size - (1 + NumRestarts contents size) * 4) |}.

(** [DecodeEntry(p, limit, ...)] where [p] are the bytes from the pointer to the
    limit: the three numbers and the bytes behind them. *)
Definition DecodeEntry (p : bytes) : option (Z * Z * Z * bytes) :=
  if decide (zlen p < 3) then None
  else
    let shared := u8 (zget p 0) in
    let non_shared := u8 (zget p 1) in
    let value_length := u8 (zget p 2) in
    '(shared, non_shared, value_length, p) ←
      (if decide (Z.lor (Z.lor shared non_shared) value_length < 128) then
         Some (shared, non_shared, value_length, zdrop 3 p)
       else
         '(shared, p) ← GetVarint32Ptr p;
         '(non_shared, p) ← GetVarint32Ptr p;
         '(value_length, p) ← GetVarint32Ptr p;
         Some (shared, non_shared, value_length, p));
    if decide (u32 (zlen p) < u32 (non_shared + value_length)) then None
    else Some (shared, non_shared, value_length, p).

(** ** The iterator *)

Section Iter.
Context {C : Comparator}.

(** [value_] is an offset and a length; [None] is a slice that does not point
    into the block ([Slice()], and what [clear] leaves). *)
Record Iter := {
  it_data : bytes;
  restarts_ : Z;
  num_restarts_ : Z;
  current_ : Z;
  restart_index_ : Z;
  it_key_ : bytes;
  it_value_ : option (Z * Z);
  it_status_ : Status;
}.

Definition new_Iter (data : bytes) (restarts num_restarts : Z) : Iter :=
  {| it_data := data; restarts_ := restarts; num_restarts_ := num_restarts;
     current_ := restarts; restart_index_ := num_restarts;
     it_key_ := []; it_value_ := None; it_status_ := Status_OK |}.

Definition set_iter (it : Iter) (current restart_index : Z) (key : bytes) (value : option (Z * Z)) : Iter :=
  {| it_data := it_data it; restarts_ := restarts_ it; num_restarts_ := num_restarts_ it;
     current_ := current; restart_index_ := restart_index;
     it_key_ := key; it_value_ := value; it_status_ := it_status_ it |}.

Definition NextEntryOffset (it : Iter) : option Z :=
  '(off, len) ← it_value_ it; Some (u32 (off + len)).

Definition GetRestartPoint (it : Iter) (index : Z) : option Z :=
  let p := restarts_ it + index * 4 in
  if decide (0 ≤ index ∧ p + 4 ≤ zlen (it_data it)) then Some (DecodeFixed32 (zdrop p (it_data it)))
  else None.

Definition SeekToRestartPoint (it : Iter) (index : Z) : option Iter :=
  offset ← GetRestartPoint it index;
  Some (set_iter it (current_ it) index [] (Some (offset, 0))).

Definition block_Valid (it : Iter) : bool := bool_decide (current_ it < restarts_ it).

Definition CorruptionError (it : Iter) : Iter :=
  {| it_data := it_data it; restarts_ := restarts_ it; num_restarts_ := num_restarts_ it;
     current_ := restarts_ it; restart_index_ := num_restarts_ it;
     it_key_ := []; it_value_ := None;
     it_status_ := Corruption (str "bad entry in block") [] |}.

(** [while (restart_index_ + 1 < num_restarts_ && ...) ++restart_index_;] *)
Fixpoint restart_loop (fuel : nat) (it : Iter) (current restart_index : Z) : option Z :=
  match fuel with
  | O => None
  | S fuel =>
      if decide (restart_index + 1 < num_restarts_ it) then
        p ← GetRestartPoint it (restart_index + 1);
        if decide (p < current) then restart_loop fuel it current (restart_index + 1)
        else Some restart_index
      else Some restart_index
  end.

(** The bytes from offset [off] up to [limit]. *)
Definition block_window (data : bytes) (off limit : Z) : bytes := zdrop off (ztake limit data).

Definition ParseNextKey (it : Iter) : option (bool * Iter) :=
  current ← NextEntryOffset it;
  if decide (restarts_ it ≤ current) then
    Some (false, set_iter it (restarts_ it) (num_restarts_ it) (it_key_ it) (it_value_ it))
  else
    match DecodeEntry (block_window (it_data it) current (restarts_ it)) with
    | None => Some (false, CorruptionError it)
    | Some (shared, non_shared, value_length, p) =>
        if decide (zlen (it_key_ it) < shared) then Some (false, CorruptionError it)
        else
          let off := restarts_ it - zlen p in
          if decide (off + non_shared ≤ zlen (it_data it)) then
            let key := ztake shared (it_key_ it) ++ ztake non_shared (zdrop off (it_data it)) in
            restart_index ← restart_loop (Z.to_nat (num_restarts_ it) + 1) it current (restart_index_ it);
            Some (true, set_iter it current restart_index key (Some (off + non_shared, value_length)))
          else None
    end.

(** The loops over entries: each entry takes three bytes at least, so there
    are fewer than the bytes of the block. *)
Definition entry_fuel (it : Iter) : nat := length (it_data it) + 2.

(** [while (ParseNextKey() && NextEntryOffset() < bound)]: the loop of [Prev]
    and that of [SeekToLast]. *)
Fixpoint skip_loop (fuel : nat) (it : Iter) (bound : Z) : option Iter :=
  match fuel with
  | O => None
  | S fuel =>
      '(more, it) ← ParseNextKey it;
      if (more : bool) then
        next ← NextEntryOffset it;
        if decide (next < bound) then skip_loop fuel it bound else Some it
      else Some it
  end.

(** The linear search of [Seek]. *)
Fixpoint linear_loop (fuel : nat) (it : Iter) (target : bytes) : option Iter :=
  match fuel with
  | O => None
  | S fuel =>
      '(more, it) ← ParseNextKey it;
      if (more : bool) then
        if decide (Compare (it_key_ it) target >= 0) then Some it else linear_loop fuel it target
      else Some it
  end.

(** The binary search of [Seek]: [inl] is the restart point to start from. *)
Fixpoint binary_loop (fuel : nat) (it : Iter) (target : bytes) (left right : Z) : option (Z + Iter) :=
  match fuel with
  | O => None
  | S fuel =>
      if decide (left < right) then
        let mid := (left + right + 1) / 2 in
        region_offset ← GetRestartPoint it mid;
        match DecodeEntry (block_window (it_data it) region_offset (restarts_ it)) with
        | None => Some (inr (CorruptionError it))
        | Some (shared, non_shared, _, p) =>
            if decide (shared ≠ 0) then Some (inr (CorruptionError it))
            else
              let off := restarts_ it - zlen p in
              if decide (off + non_shared ≤ zlen (it_data it)) then
                let mid_key := ztake non_shared (zdrop off (it_data it)) in
                if decide (Compare mid_key target < 0) then binary_loop fuel it target mid right
                else binary_loop fuel it target left (mid - 1)
              else None
        end
      else Some (inl left)
  end.

Definition block_Seek (target : bytes) (it : Iter) : option Iter :=
  r ← binary_loop (Z.to_nat (num_restarts_ it)) it target 0 (num_restarts_ it - 1);
  match r with
  | inr it => Some it
  | inl index => it ← SeekToRestartPoint it index; linear_loop (entry_fuel it) it target
  end.

Definition block_SeekToFirst (it : Iter) : option Iter :=
  it ← SeekToRestartPoint it 0; '(_, it) ← ParseNextKey it; Some it.

Definition block_SeekToLast (it : Iter) : option Iter :=
  it ← SeekToRestartPoint it (num_restarts_ it - 1); skip_loop (entry_fuel it) it (restarts_ it).

Definition block_Next (it : Iter) : option Iter :=
  if block_Valid it then '(_, it) ← ParseNextKey it; Some it else None.

(** The scan for a restart point before the entry; [None] in the result means
    there is none. *)
Fixpoint back_loop (fuel : nat) (it : Iter) (original restart_index : Z) : option (option Z) :=
  match fuel with
  | O => None
  | S fuel =>
      p ← GetRestartPoint it restart_index;
      if decide (p >= original) then
        if decide (restart_index = 0) then Some None
        else back_loop fuel it original (restart_index - 1)
      else Some (Some restart_index)
  end.

Definition block_Prev (it : Iter) : option Iter :=
  if block_Valid it then
    let original := current_ it in
    r ← back_loop (Z.to_nat (num_restarts_ it) + 1) it original (restart_index_ it);
    match r with
    | None => Some (set_iter it (restarts_ it) (num_restarts_ it) (it_key_ it) (it_value_ it))
    | Some index => it ← SeekToRestartPoint it index; skip_loop (entry_fuel it) it original
    end
  else None.

#[export] Instance Block_Iter : Iterator Iter := {
  it_Valid := block_Valid;
  it_SeekToFirst := block_SeekToFirst;
  it_SeekToLast := block_SeekToLast;
  it_Seek := block_Seek;
  it_Next := block_Next;
  it_Prev := block_Prev;
  it_key it := if block_Valid it then Some (it_key_ it) else None;
  it_value it :=
    if block_Valid it then
      '(off, len) ← it_value_ it;
      if decide (off + len ≤ zlen (it_data it)) then Some (ztake len (zdrop off (it_data it))) else None
    else None;
  it_status it := it_status_ it;
}.

(** [Block::NewIterator] returns an iterator of one of two classes. *)
Definition block_NewIterator (b : Block) : EmptyIterator + Iter :=
  if decide (size_ b < 4) then inl (NewErrorIterator (Corruption (str "bad block contents") []))
  else
    let num_restarts := NumRestarts (data_ b) (size_ b) in
    if decide (num_restarts = 0) then inl NewEmptyIterator
    else inr (new_Iter (data_ b) (restart_offset_ b) num_restarts).
End Iter.

(** ** Reading what the builder made *)

Lemma EncodeVarint32_cases v rest :
  in_w 32 v →
  (v < 128 ∧ EncodeVarint32 v ++ rest = b8 v :: rest) ∨
  (128 ≤ v ∧ ∃ c l, EncodeVarint32 v ++ rest = c :: l ∧ 128 ≤ u8 c ∧ zlen rest < zlen l).
Proof.
  intros Hv. destruct (decide (v < 128)) as [H|H].
  - left. split; [done|]. unfold EncodeVarint32. rewrite decide_True by done. done.
  - right. split; [lia|]. rewrite EncodeVarint32_64, EncodeVarint64_5 by word_solve.
    rewrite EncodeVarint64_loop_more by lia. cbn [app]. eexists _, _. split; [done|].
    rewrite varint_byte_more. split; [word_solve|].
    rewrite zlen_app. unfold EncodeVarint64_loop. fold EncodeVarint64_loop.
    destruct (decide _); rewrite zlen_cons; zlen_facts; lia.
Qed.

Lemma u8_or_128 a b : 0 ≤ a → 0 ≤ b → Z.lor a b < 128 ↔ a < 128 ∧ b < 128.
Proof.
  intros Ha Hb. change 128 with (2 ^ 7). split.
  - intros H. pose proof (Z.log2_lor a b Ha Hb).
    destruct (decide (a = 0)) as [->|]; destruct (decide (b = 0)) as [->|]; rewrite ?Z.lor_0_l, ?Z.lor_0_r in *; try lia.
    assert (0 < Z.lor a b).
    { pose proof (proj2 (Z.lor_nonneg a b) (conj Ha Hb)).
      destruct (decide (Z.lor a b = 0)) as [[? ?]%Z.lor_eq_0_iff|]; lia. }
    apply Z.log2_lt_pow2 in H; [|done]. split; apply Z.log2_lt_pow2; lia.
  - intros [H1 H2]. apply (in_w_lor 7); [lia|split; lia..].
Qed.

(** The test of the first three bytes picks the one-byte encodings. *)
Lemma fast_path a b c tl (p := EncodeVarint32 a ++ EncodeVarint32 b ++ EncodeVarint32 c ++ tl) :
  in_w 32 a → in_w 32 b → in_w 32 c →
  3 ≤ zlen p ∧
  (Z.lor (Z.lor (u8 (zget p 0)) (u8 (zget p 1))) (u8 (zget p 2)) < 128 →
   p = b8 a :: b8 b :: b8 c :: tl ∧ a < 128 ∧ b < 128 ∧ c < 128).
Proof.
  intros Ha Hb Hc. rewrite !u8_or_128 by (repeat (apply Z.lor_nonneg; split); apply u8_range).
  destruct (EncodeVarint32_cases c tl Hc) as [[Ec Ic]|[Ec (c0 & l0 & Ic & Uc & Lc)]];
  destruct (EncodeVarint32_cases b (EncodeVarint32 c ++ tl) Hb) as [[Eb Ib]|[Eb (c1 & l1 & Ib & Ub & Lb)]];
  destruct (EncodeVarint32_cases a (EncodeVarint32 b ++ EncodeVarint32 c ++ tl) Ha)
    as [[Ea Ia]|[Ea (c2 & l2 & Ia & Ua & La)]];
  unfold p; rewrite Ia; rewrite ?Ib, ?Ic in *; rewrite !zlen_cons in *; zlen_facts;
  (split; [lia|]); rewrite ?zget_0_cons; intros [[T0 T1] T2]; try lia; try done.
  - change (zget (_ :: ?c :: _) 1) with c in T1. lia.
  - change (zget (_ :: _ :: ?c :: _) 2) with c in T2. lia.
  - change (zget (_ :: ?c :: _) 1) with c in T1. lia.
Qed.

Lemma DecodeEntry_enc shared (e : entry) rest :
  0 ≤ shared ≤ zlen e.1 → shared < 2 ^ 32 → zlen (enc_chunk shared e ++ rest) < 2 ^ 32 →
  DecodeEntry (enc_chunk shared e ++ rest) =
    Some (shared, zlen e.1 - shared, zlen e.2, zdrop shared e.1 ++ e.2 ++ rest).
Proof.
  intros Hs Hs' Hlen. set (tl := zdrop shared e.1 ++ e.2 ++ rest).
  assert (enc_chunk shared e ++ rest = EncodeVarint32 shared ++ EncodeVarint32 (zlen e.1 - shared) ++
    EncodeVarint32 (zlen e.2) ++ tl) as E by (unfold enc_chunk, tl; by rewrite <- !app_assoc).
  rewrite E in *. clear E.
  assert (zlen tl = zlen e.1 - shared + zlen e.2 + zlen rest) as Htl.
  { unfold tl. rewrite !zlen_app, zlen_zdrop by lia. lia. }
  assert (0 ≤ zlen e.1 - shared ∧ 0 ≤ zlen e.2 ∧ 0 ≤ zlen rest) as Hpos by zsolve.
  clearbody tl. revert Htl Hpos. generalize (zlen e.1 - shared) as ns. generalize (zlen e.2) as vl.
  generalize (zlen rest) as rl. intros rl vl ns Htl Hpos. 
  assert (zlen tl < 2 ^ 32) as Htl' by zsolve.
  assert (in_w 32 shared ∧ in_w 32 ns ∧ in_w 32 vl) as (W1 & W2 & W3) by word_solve.
  destruct (fast_path shared ns vl tl W1 W2 W3) as [H3 Hfast].
  unfold DecodeEntry. rewrite decide_False by lia. cbn zeta.
  set (p := EncodeVarint32 shared ++ EncodeVarint32 ns ++ EncodeVarint32 vl ++ tl) in *.
  case_decide as Hl.
  - destruct (Hfast Hl) as (-> & ? & ? & ?). cbn [mbind option_bind].
    change (zget (?c :: _) 0) with c. change (zget (_ :: ?c :: _) 1) with c.
    change (zget (_ :: _ :: ?c :: _) 2) with c. change (zdrop 3 (_ :: _ :: _ :: ?l)) with l.
    rewrite !u8_b8_small by lia. rewrite decide_False; [done|]. rewrite !wrap_small by word_solve. lia.
  - change GetVarint32Ptr with GetVarint32. unfold p. rewrite GetVarint32_EncodeVarint32 by done.
    cbn [mbind option_bind]. rewrite GetVarint32_EncodeVarint32 by done.
    cbn [mbind option_bind]. rewrite GetVarint32_EncodeVarint32 by done.
    cbn [mbind option_bind]. rewrite decide_False; [done|]. rewrite !wrap_small by word_solve. lia.
Qed.

(** ** Offsets of the entries of a block *)

Section Layouts.
Context {cs : list (Z * entry)} {R : list nat} (HL : Layout cs R).

Lemma zlen_enc_chunk c i :
  cs !! i = Some c → zlen c.2.1 - c.1 + zlen c.2.2 + 3 ≤ zlen (enc_chunk c.1 c.2).
Proof.
  intros Hc. destruct (layout_chunks _ _ HL i c Hc) as (H1 & _ & H2). unfold enc_chunk.
  rewrite !zlen_app, zlen_zdrop by lia.
  pose proof (EncodeVarint32_bounds c.1). pose proof (EncodeVarint32_bounds (zlen c.2.1 - c.1)).
  pose proof (EncodeVarint32_bounds (zlen c.2.2)). lia.
Qed.

Lemma chunk_offset_S i c :
  cs !! i = Some c → chunk_offset cs (S i) = chunk_offset cs i + zlen (enc_chunk c.1 c.2).
Proof.
  intros Hc. unfold chunk_offset. rewrite (take_S_r _ _ _ Hc), chunks_body_app, zlen_app.
  unfold chunks_body at 2. cbn. by rewrite app_nil_r.
Qed.

Lemma chunk_offset_end : chunk_offset cs (length cs) = zlen (chunks_body cs).
Proof. unfold chunk_offset. by rewrite firstn_all. Qed.

Lemma chunk_offset_lt i j : (i < j ≤ length cs)%nat → chunk_offset cs i < chunk_offset cs j.
Proof.
  intros [Hij Hj]. induction Hij as [|j Hij IH].
  - destruct (lookup_lt_is_Some_2 cs i ltac:(lia)) as [c Hc]. rewrite (chunk_offset_S i c Hc).
    pose proof (zlen_enc_chunk c i Hc). destruct (layout_chunks _ _ HL i c Hc) as (_ & _ & ?). zsolve.
  - specialize (IH ltac:(lia)). destruct (lookup_lt_is_Some_2 cs j ltac:(lia)) as [c Hc].
    rewrite (chunk_offset_S j c Hc). zsolve.
Qed.

Lemma chunk_offset_iff i j :
  (i ≤ length cs)%nat → (j ≤ length cs)%nat → chunk_offset cs i < chunk_offset cs j ↔ (i < j)%nat.
Proof.
  intros Hi Hj. split; [|intros; by apply chunk_offset_lt].
  intros H. destruct (decide (i < j)%nat); [done|]. destruct (decide (i = j)) as [->|]; [lia|].
  pose proof (chunk_offset_lt j i ltac:(lia)). lia.
Qed.

Lemma chunk_offset_nonneg i : 0 ≤ chunk_offset cs i.
Proof. apply zlen_nonneg. Qed.

Lemma chunk_offset_le i : (i ≤ length cs)%nat → chunk_offset cs i ≤ zlen (chunks_body cs).
Proof.
  intros Hi. rewrite <- chunk_offset_end. destruct (decide (i = length cs)) as [->|]; [lia|].
  pose proof (chunk_offset_lt i (length cs) ltac:(lia)). lia.
Qed.

(** A key is not longer than the bytes up to its end. *)
Lemma key_bound i c : cs !! i = Some c → zlen c.2.1 + zlen c.2.2 ≤ chunk_offset cs (S i).
Proof.
  revert c. induction i as [|i IH]; intros c Hc; rewrite (chunk_offset_S _ _ Hc);
    pose proof (zlen_enc_chunk _ _ Hc); destruct (layout_chunks _ _ HL _ c Hc) as (H1 & _ & H2).
  - cbn [prev_key] in H1. change (zlen []) with 0 in H1. pose proof (chunk_offset_nonneg 0). zsolve.
  - cbn [prev_key] in H1. destruct (lookup_lt_is_Some_2 cs i) as [c' Hc'];
      [apply lookup_lt_Some in Hc; lia|]. rewrite Hc' in H1. specialize (IH c' Hc'). zsolve.
Qed.

Lemma window_chunk i c :
  cs !! i = Some c →
  block_window (block_bytes cs R) (chunk_offset cs i) (zlen (chunks_body cs)) =
    enc_chunk c.1 c.2 ++ chunks_body (drop (S i) cs).
Proof.
  intros Hc. unfold block_window, block_bytes. rewrite ztake_app.
  rewrite <- (take_drop i cs) at 2. rewrite chunks_body_app. unfold chunk_offset. rewrite zdrop_app.
  by rewrite (drop_S _ _ _ Hc).
Qed.

(** Where the key delta and the value of an entry are. *)
Lemma body_split i c :
  cs !! i = Some c → ∃ pre,
    chunks_body cs = pre ++ zdrop c.1 c.2.1 ++ c.2.2 ++ chunks_body (drop (S i) cs) ∧
    zlen pre = chunk_offset cs (S i) - zlen c.2.2 - (zlen c.2.1 - c.1).
Proof.
  intros Hc. destruct (layout_chunks _ _ HL i c Hc) as (H1 & _ & H2).
  exists (chunks_body (take i cs) ++ EncodeVarint32 c.1 ++ EncodeVarint32 (zlen c.2.1 - c.1) ++
    EncodeVarint32 (zlen c.2.2)). split.
  - rewrite <- (take_drop i cs) at 1. rewrite chunks_body_app, (drop_S _ _ _ Hc).
    change (chunks_body (c :: ?l)) with (enc_chunk c.1 c.2 ++ chunks_body l). unfold enc_chunk.
    by rewrite <- !app_assoc.
  - rewrite (chunk_offset_S _ _ Hc). unfold chunk_offset, enc_chunk. rewrite !zlen_app, zlen_zdrop by lia. lia.
Qed.

Lemma restart_lookup j : 0 ≤ j < zlen R → ∃ r, R !! Z.to_nat j = Some r.
Proof. intros. apply lookup_lt_is_Some_2. unfold zlen in *. lia. Qed.

Lemma layout_length : 0 < zlen R.
Proof. pose proof (lookup_lt_Some _ _ _ (layout_first _ _ HL)). unfold zlen. lia. Qed.

Lemma restart_le j r : R !! j = Some r → (r ≤ length cs)%nat.
Proof. intros Hj. destruct (layout_restart _ _ HL j r Hj); lia. Qed.

Lemma restart_mono i j r r' : (i < j)%nat → R !! i = Some r → R !! j = Some r' → (r < r')%nat.
Proof.
  intros Hij Hi. revert r'. induction Hij as [|j Hij IH]; intros r' Hj.
  - by eapply layout_mono.
  - destruct (lookup_lt_is_Some_2 R j) as [q Hq]; [apply lookup_lt_Some in Hj; lia|].
    specialize (IH q Hq). pose proof (layout_mono _ _ HL j q r' Hq Hj). lia.
Qed.

Lemma restart_array_lookup j r :
  R !! j = Some r → in_w 32 (chunk_offset cs r) → ∀ rest,
  DecodeFixed32 (zdrop (4 * Z.of_nat j) (restart_array cs R ++ rest)) = chunk_offset cs r.
Proof.
  intros Hj Hw rest. unfold restart_array. apply fixed32_array_lookup; [|done].
  by rewrite list_lookup_fmap, Hj.
Qed.
End Layouts.

(** A block made of the layout. *)
Record Good {C : Comparator} (V : bytes → Prop) (cs : list (Z * entry)) (R : list nat) : Prop := {
  good_layout : Layout cs R;
  good_len : zlen (block_bytes cs R) < 2 ^ 32;
  good_sorted : StronglySorted entry_lt cs.*2;
  good_valid : Forall (λ e, V e.1) cs.*2;
}.

Lemma new_Block_good cs R :
  Layout cs R → zlen (block_bytes cs R) < 2 ^ 32 →
  NumRestarts (block_bytes cs R) (zlen (block_bytes cs R)) = zlen R ∧
  new_Block (block_bytes cs R) =
    {| data_ := block_bytes cs R; size_ := zlen (block_bytes cs R);
       restart_offset_ := zlen (chunks_body cs) |}.
Proof.
  intros HL Hlen. pose proof (layout_length HL). pose proof (zlen_nonneg (chunks_body cs)).
  pose proof (zlen_block_bytes cs R) as Hz.
  assert (NumRestarts (block_bytes cs R) (zlen (block_bytes cs R)) = zlen R) as Hn.
  { unfold NumRestarts. rewrite Hz. unfold block_bytes. rewrite app_assoc, zdrop_app_n.
    - rewrite <- (app_nil_r (EncodeFixed32 _)). apply DecodeFixed32_EncodeFixed32. word_solve.
    - rewrite zlen_app, zlen_restart_array. lia. }
  split; [done|]. unfold new_Block. rewrite Hn, Hz. rewrite decide_False by lia.
  rewrite decide_False by word_solve. f_equal. rewrite wrap_small by word_solve. lia.
Qed.

(** ** The iterator over a good block *)

Section Reading.
Context {C : Comparator} {V : bytes → Prop} {CL : ComparatorLaws C V}.
Context {cs : list (Z * entry)} {R : list nat} (G : Good V cs R).

Definition iter_static (it : Iter) : Prop :=
  it_data it = block_bytes cs R ∧ restarts_ it = zlen (chunks_body cs) ∧
  num_restarts_ it = zlen R ∧ it_status_ it = Status_OK.

Definition iter_at (it : Iter) (i : nat) : Prop :=
  ∃ c, cs !! i = Some c ∧ current_ it = chunk_offset cs i ∧ it_key_ it = c.2.1 ∧
    it_value_ it = Some (chunk_offset cs (S i) - zlen c.2.2, zlen c.2.2) ∧
    0 ≤ restart_index_ it < zlen R.

(** The next call of [ParseNextKey] moves to entry [i]. *)
Definition iter_ready (it : Iter) (i : nat) : Prop :=
  (i ≤ length cs)%nat ∧ NextEntryOffset it = Some (chunk_offset cs i) ∧
  (∀ c, cs !! i = Some c → ztake c.1 (it_key_ it) = ztake c.1 c.2.1 ∧ c.1 ≤ zlen (it_key_ it)) ∧
  0 ≤ restart_index_ it < zlen R.

Definition iter_pos (it : Iter) (p : option nat) : Prop :=
  match p with Some i => iter_at it i | None => current_ it = restarts_ it end.

Definition iter_rel (it : Iter) (es : list entry) (p : option nat) : Prop :=
  iter_static it ∧ es = cs.*2 ∧ iter_pos it p.

Lemma good_body : zlen (chunks_body cs) + 4 * zlen R + 4 < 2 ^ 32.
Proof. rewrite <- zlen_block_bytes. apply (good_len _ _ _ G). Qed.

Lemma chunk_offset_word i : (i ≤ length cs)%nat → in_w 32 (chunk_offset cs i).
Proof.
  intros Hi. pose proof (chunk_offset_le (good_layout _ _ _ G) i Hi).
  pose proof (chunk_offset_nonneg (cs := cs) i). pose proof good_body. zlen_facts. unfold in_w. lia.
Qed.

Lemma GetRestartPoint_good it j r :
  iter_static it → 0 ≤ j → R !! Z.to_nat j = Some r → GetRestartPoint it j = Some (chunk_offset cs r).
Proof.
  intros (Hd & Hr & Hn & _) Hj Hjr. unfold GetRestartPoint. rewrite Hd, Hr.
  pose proof (lookup_lt_Some _ _ _ Hjr). pose proof (zlen_block_bytes cs R). pose proof (zlen_nonneg (chunks_body cs)).
  assert (Z.to_nat j < length R)%nat by done.
  rewrite decide_True by (unfold zlen in *; lia). f_equal.
  unfold block_bytes. rewrite zdrop_app_ge by lia.
  replace (zlen (chunks_body cs) + j * 4 - zlen (chunks_body cs)) with (4 * Z.of_nat (Z.to_nat j)) by lia.
  apply restart_array_lookup; [done|]. apply chunk_offset_word. by eapply restart_le; [apply (good_layout _ _ _ G)|].
Qed.

Lemma iter_at_ready it i : iter_at it i → iter_ready it (S i).
Proof.
  intros (c & Hc & _ & Hk & Hv & Hr). pose proof (lookup_lt_Some _ _ _ Hc). split; [lia|]. split; [|split; [|done]].
  - unfold NextEntryOffset. rewrite Hv. cbn. f_equal. rewrite wrap_small; [lia|].
    replace (_ + _) with (chunk_offset cs (S i)) by lia. apply chunk_offset_word. lia.
  - intros c' Hc'. destruct (layout_chunks _ _ (good_layout _ _ _ G) _ _ Hc') as (H1 & H2 & H3).
    cbn [prev_key] in *. rewrite Hc in *. rewrite Hk. split; [done|lia].
Qed.

Lemma SeekToRestartPoint_ready it j :
  iter_static it → 0 ≤ j < zlen R → ∃ r it', R !! Z.to_nat j = Some r ∧
    SeekToRestartPoint it j = Some it' ∧ iter_static it' ∧ iter_ready it' r.
Proof.
  intros Hst Hj. destruct (restart_lookup (R := R) j Hj) as [r Hr]. exists r.
  unfold SeekToRestartPoint. rewrite (GetRestartPoint_good it j r) by (done || lia). cbn.
  pose proof (restart_le (good_layout _ _ _ G) _ _ Hr).
  eexists. split; [done|]. split; [done|]. split; [done|]. split; [done|]. split; [|split; [|done]].
  - unfold NextEntryOffset. cbn. f_equal. rewrite Z.add_0_r. by apply wrap_small, chunk_offset_word.
  - intros c Hc. rewrite (layout_zero _ _ (good_layout _ _ _ G) _ _ _ Hr Hc). done.
Qed.

(** [restart_index_] stays an index of the array. *)
Lemma restart_loop_good fuel it current j :
  iter_static it → 0 ≤ j < zlen R → zlen R - j ≤ Z.of_nat fuel →
  ∃ j', restart_loop fuel it current j = Some j' ∧ 0 ≤ j' < zlen R.
Proof.
  intros Hst. revert j. induction fuel as [|fuel IH]; intros j Hj Hf; [lia|]. cbn [restart_loop].
  pose proof Hst as (_ & _ & -> & _). case_decide as H; [|eauto].
  destruct (restart_lookup (R := R) (j + 1)) as [r Hr]; [lia|].
  rewrite (GetRestartPoint_good it (j + 1) r) by (done || lia). cbn [mbind option_bind].
  case_decide; [apply IH; lia|eauto].
Qed.

Lemma ParseNextKey_end it :
  iter_static it → iter_ready it (length cs) →
  ∃ it', ParseNextKey it = Some (false, it') ∧ iter_static it' ∧ current_ it' = restarts_ it'.
Proof.
  intros Hst (_ & Hn & _ & _). unfold ParseNextKey. rewrite Hn. cbn [mbind option_bind].
  rewrite chunk_offset_end. pose proof Hst as (_ & -> & _). rewrite decide_True by lia.
  eexists. split; [done|]. by destruct Hst as (? & ? & ? & ?).
Qed.

Lemma ParseNextKey_step it i :
  iter_static it → iter_ready it i → (i < length cs)%nat →
  ∃ it', ParseNextKey it = Some (true, it') ∧ iter_static it' ∧ iter_at it' i.
Proof.
  intros Hst (_ & Hn & Hk & Hr) Hi. destruct (lookup_lt_is_Some_2 cs i Hi) as [c Hc].
  destruct (Hk c Hc) as [Hk1 Hk2]. pose proof (good_layout _ _ _ G) as HL.
  destruct (layout_chunks _ _ HL i c Hc) as (H1 & _ & H2).
  pose proof (zlen_enc_chunk HL c i Hc) as Hz. pose proof (chunk_offset_S i c Hc) as HS.
  pose proof (key_bound HL i c Hc) as Hkb. pose proof (chunk_offset_le HL (S i) ltac:(lia)) as Hle.
  pose proof good_body as Hb. pose proof (chunk_offset_nonneg (cs := cs) i) as Hnn.
  pose proof (window_chunk (R := R) i c Hc) as Hwin. zlen_facts.
  unfold ParseNextKey. rewrite Hn. cbn [mbind option_bind].
  pose proof Hst as (Hd & Hre & Hnum & Hs). rewrite Hre. rewrite decide_False by lia.
  rewrite Hd, Hwin.
  rewrite DecodeEntry_enc; [|lia|lia|rewrite <- Hwin; unfold block_window, block_bytes; rewrite ztake_app, zlen_zdrop by lia; lia].
  rewrite decide_False by lia.
  destruct (body_split HL i c Hc) as (pre & Hpre & Hzpre).
  assert (Hoff : zlen (chunks_body cs) - zlen (zdrop c.1 c.2.1 ++ c.2.2 ++ chunks_body (drop (S i) cs)) = zlen pre).
  { rewrite Hpre, zlen_app. lia. }
  cbn zeta. rewrite Hoff. pose proof (zlen_block_bytes cs R). rewrite decide_True by lia.
  destruct (restart_loop_good (Z.to_nat (num_restarts_ it) + 1) it (chunk_offset cs i) (restart_index_ it) Hst Hr)
    as (j' & -> & Hj'); [lia|]. cbn [mbind option_bind].
  eexists. split; [done|]. split; [done|]. exists c. split; [done|]. split; [done|]. split; [|split; [|done]].
  - cbn [it_key_ set_iter]. rewrite Hk1. transitivity (ztake c.1 c.2.1 ++ zdrop c.1 c.2.1); [f_equal|apply ztake_zdrop].
    unfold block_bytes. rewrite Hpre, <- !app_assoc, zdrop_app.
    apply ztake_app_n. by rewrite zlen_zdrop by lia.
  - cbn [it_value_ set_iter]. rewrite Hzpre. apply (f_equal (λ x, Some (x, _))). lia.
Qed.

Lemma sorted_keys i j ei ej :
  cs.*2 !! i = Some ei → cs.*2 !! j = Some ej → (i < j)%nat → Compare ei.1 ej.1 < 0.
Proof. intros Hi Hj Hij. exact (sorted_index _ _ _ _ _ _ (good_sorted _ _ _ G) Hij Hi Hj). Qed.

Lemma es_lookup i c : cs !! i = Some c → cs.*2 !! i = Some c.2.
Proof. intros Hc. by rewrite list_lookup_fmap, Hc. Qed.

Lemma entry_valid i c : cs !! i = Some c → V c.2.1.
Proof.
  intros Hc. pose proof (good_valid _ _ _ G) as HV. rewrite list.Forall_forall in HV.
  apply HV. by eapply list_elem_of_lookup_2, es_lookup.
Qed.

(** There are fewer entries than bytes. *)
Lemma entries_bytes : (length cs ≤ length (block_bytes cs R))%nat.
Proof.
  assert (Z.of_nat (length cs) ≤ zlen (block_bytes cs R)); [|unfold zlen in *; lia].
  rewrite zlen_block_bytes. pose proof (good_layout _ _ _ G) as HL.
  assert (∀ n, (n ≤ length cs)%nat → Z.of_nat n ≤ chunk_offset cs n) as Hn.
  { induction n as [|n IH]; intros Hn; [done|]. pose proof (chunk_offset_lt HL n (S n)). lia. }
  specialize (Hn (length cs)). rewrite chunk_offset_end in Hn. zsolve.
Qed.

(** The loops end before the fuel does. *)
Lemma entry_fuel_enough it i : iter_static it → (length cs - i < entry_fuel it)%nat.
Proof. intros (Hd & _). unfold entry_fuel. rewrite Hd. pose proof entries_bytes. lia. Qed.

Lemma skip_loop_good fuel it i m :
  iter_static it → iter_ready it i → (i < m ≤ length cs)%nat → (m - i ≤ fuel)%nat →
  ∃ it', skip_loop fuel it (chunk_offset cs m) = Some it' ∧ iter_static it' ∧ iter_at it' (pred m).
Proof.
  revert it i. induction fuel as [|fuel IH]; intros it i Hst Hr Him Hf; [lia|]. cbn [skip_loop].
  destruct (ParseNextKey_step it i Hst Hr ltac:(lia)) as (it' & -> & Hst' & Hat). cbn [mbind option_bind].
  pose proof (iter_at_ready it' i Hat) as Hr'. destruct Hr' as (? & Hn & ?). rewrite Hn. cbn [mbind option_bind].
  case_decide as Hlt.
  - apply (chunk_offset_iff (good_layout _ _ _ G)) in Hlt; [|lia..].
    apply (IH it' (S i)); [done|by apply iter_at_ready|lia..].
  - assert (m = S i) as ->; [|eauto]. destruct (decide (m = S i)); [done|].
    destruct Hlt. apply (chunk_offset_lt (good_layout _ _ _ G)). lia.
Qed.

Lemma linear_loop_good fuel it i target :
  iter_static it → iter_ready it i → V target → (length cs - i < fuel)%nat →
  (∀ j e, (j < i)%nat → cs.*2 !! j = Some e → Compare e.1 target < 0) →
  ∃ it', linear_loop fuel it target = Some it' ∧ iter_static it' ∧
    iter_pos it' (pos_seek cs.*2 target).
Proof.
  revert it i. induction fuel as [|fuel IH]; intros it i Hst Hr Vt Hf Hlt; [lia|]. cbn [linear_loop].
  pose proof Hr as (Hi & _). unfold pos_seek.
  destruct (decide (i = length cs)) as [->|Hne].
  - destruct (ParseNextKey_end it Hst Hr) as (it' & -> & Hst' & Hend). cbn [mbind option_bind].
    exists it'. split; [done|]. split; [done|].
    rewrite (entries_before_index (V := V) _ _ (length cs)); try done; try apply G.
    + unfold pos_at. rewrite length_fmap. by rewrite decide_False by lia.
    + by rewrite length_fmap.
    + intros e He%lookup_lt_Some. rewrite length_fmap in He. lia.
  - destruct (ParseNextKey_step it i Hst Hr ltac:(lia)) as (it' & -> & Hst' & Hat). cbn [mbind option_bind].
    pose proof Hat as (c & Hc & _ & Hk & _). rewrite Hk.
    case_decide as Hcmp.
    + exists it'. split; [done|]. split; [done|].
      rewrite (entries_before_index (V := V) _ _ i); try done; try apply G.
      * unfold pos_at. rewrite length_fmap. by rewrite decide_True by lia.
      * by rewrite length_fmap.
      * intros e He. rewrite (es_lookup i c Hc) in He. injection He as <-. lia.
    + apply (IH it' (S i)); [done|by apply iter_at_ready|done|lia|].
      intros j e Hj He. destruct (decide (j = i)) as [->|]; [|apply (Hlt j); [lia|done]].
      rewrite (es_lookup i c Hc) in He. injection He as <-. lia.
Qed.

(** The binary search ends at a restart point whose key, unless it is the first,
    is before the target. *)
Lemma binary_loop_good fuel it target left right :
  iter_static it → V target → 0 ≤ left ≤ right → right < zlen R → right - left < Z.of_nat fuel →
  (∀ r c, left ≠ 0 → R !! Z.to_nat left = Some r → cs !! r = Some c → Compare c.2.1 target < 0) →
  ∃ j, binary_loop fuel it target left right = Some (inl j) ∧ 0 ≤ j < zlen R ∧
    (∀ r c, j ≠ 0 → R !! Z.to_nat j = Some r → cs !! r = Some c → Compare c.2.1 target < 0).
Proof.
  intros Hst Vt. pose proof (good_layout _ _ _ G) as HL. pose proof Hst as (Hd & Hre & _).
  revert left right. induction fuel as [|fuel IH]; intros left right Hl Hr Hf Hlt; [lia|].
  cbn [binary_loop]. case_decide as Hlr; [|exists left; split; [done|split; [lia|done]]]. cbn zeta.
  set (mid := (left + right + 1) / 2). assert (left < mid ≤ right) as Hmid by (unfold mid; word_solve).
  clearbody mid. destruct (restart_lookup (R := R) mid ltac:(lia)) as [r Er].
  rewrite (GetRestartPoint_good it mid r) by (done || lia). cbn [mbind option_bind].
  pose proof (restart_mono HL 0 (Z.to_nat mid) 0 r ltac:(lia) (layout_first _ _ HL) Er) as Hr0.
  destruct (layout_restart _ _ HL _ _ Er) as [?|Hrl]; [lia|].
  destruct (lookup_lt_is_Some_2 cs r Hrl) as [c Hc]. pose proof (layout_zero _ _ HL _ _ _ Er Hc) as H0.
  rewrite Hd, Hre, (window_chunk (R := R) r c Hc).
  pose proof good_body as Hb. pose proof (zlen_block_bytes cs R).
  destruct (body_split HL r c Hc) as (pre & Hpre & Hzpre). rewrite H0 in *.
  pose proof (f_equal zlen Hpre) as Hzb. rewrite !zlen_app, zlen_zdrop in Hzb by (zlen_facts; lia).
  rewrite DecodeEntry_enc; [|zlen_facts; lia|lia|].
  2:{ rewrite <- H0, <- (window_chunk (R := R) r c Hc). unfold block_window, block_bytes. rewrite ztake_app.
      pose proof (chunk_offset_le HL r ltac:(lia)). pose proof (chunk_offset_nonneg (cs := cs) r).
      rewrite zlen_zdrop by lia. zlen_facts. lia. }
  rewrite decide_False by auto.
  assert (Hoff : zlen (chunks_body cs) - zlen (zdrop 0 c.2.1 ++ c.2.2 ++ chunks_body (drop (S r) cs)) = zlen pre).
  { rewrite Hpre, zlen_app. lia. }
  rewrite Hoff. rewrite decide_True by (zlen_facts; lia).
  assert (ztake (zlen c.2.1 - 0) (zdrop (zlen pre) (block_bytes cs R)) = c.2.1) as ->.
  { unfold block_bytes. rewrite Hpre, <- !app_assoc, zdrop_app, zdrop_0. apply ztake_app_n. lia. }
  case_decide as Hcmp; apply IH; try lia.
  - intros r' c' _ Hr' Hc'. rewrite Er in Hr'. injection Hr' as <-. rewrite Hc in Hc'. by injection Hc' as <-.
  - done.
Qed.

Lemma block_Seek_good it target :
  iter_static it → V target →
  ∃ it', block_Seek target it = Some it' ∧ iter_static it' ∧ iter_pos it' (pos_seek cs.*2 target).
Proof.
  intros Hst Vt. unfold block_Seek. pose proof (good_layout _ _ _ G) as HL. pose proof (layout_length HL).
  pose proof Hst as (_ & _ & Hn & _). rewrite Hn.
  destruct (binary_loop_good (Z.to_nat (zlen R)) it target 0 (zlen R - 1) Hst Vt)
    as (j & -> & Hj & Hlt); [lia..|done|]. cbn [mbind option_bind].
  destruct (SeekToRestartPoint_ready it j Hst Hj) as (r & it' & Er & -> & Hst' & Hr'). cbn [mbind option_bind].
  eapply linear_loop_good; [done|done|done|by apply entry_fuel_enough|].
  intros i e Hi He. destruct (decide (j = 0)) as [->|Hj0].
  - change (Z.to_nat 0) with 0%nat in Er. rewrite (layout_first _ _ HL) in Er. injection Er as <-. lia.
  - rewrite list_lookup_fmap in He. destruct (cs !! i) as [ci|] eqn:Hci; [|done]. cbn in He. injection He as <-.
    destruct Hr' as [Hrl _]. destruct (decide (r = length cs)) as [->|].
    { destruct (layout_restart _ _ HL _ _ Er); lia. }
    destruct (lookup_lt_is_Some_2 cs r ltac:(lia)) as [c Hc].
    eapply Compare_trans; [by eapply entry_valid|by eapply (entry_valid r)|done| |by eapply Hlt].
    by eapply sorted_keys; [apply es_lookup..|].
Qed.

Lemma block_SeekToFirst_good it :
  iter_static it →
  ∃ it', block_SeekToFirst it = Some it' ∧ iter_static it' ∧ iter_pos it' (pos_first cs.*2).
Proof.
  intros Hst. unfold block_SeekToFirst. pose proof (good_layout _ _ _ G) as HL. pose proof (layout_length HL).
  destruct (SeekToRestartPoint_ready it 0 Hst) as (r & it1 & Er & -> & Hst1 & Hr1); [lia|].
  change (Z.to_nat 0) with 0%nat in Er. rewrite (layout_first _ _ HL) in Er. injection Er as <-.
  cbn [mbind option_bind]. unfold pos_first, pos_at. rewrite length_fmap. case_decide as Hlen.
  - destruct (ParseNextKey_step it1 0 Hst1 Hr1 Hlen) as (it2 & -> & ? & ?). cbn. eauto.
  - assert (length cs = 0%nat) as E0 by lia. rewrite <- E0 in Hr1.
    destruct (ParseNextKey_end it1 Hst1 Hr1) as (it2 & -> & ? & ?). cbn. eauto.
Qed.

Lemma block_SeekToLast_good it :
  iter_static it →
  ∃ it', block_SeekToLast it = Some it' ∧ iter_static it' ∧ iter_pos it' (pos_last cs.*2).
Proof.
  intros Hst. unfold block_SeekToLast. pose proof (good_layout _ _ _ G) as HL. pose proof (layout_length HL).
  pose proof Hst as (_ & _ & -> & _).
  destruct (SeekToRestartPoint_ready it (zlen R - 1) Hst) as (r & it1 & Er & -> & Hst1 & Hr1); [lia|].
  cbn [mbind option_bind]. pose proof Hst1 as (_ & Hre1 & _). unfold pos_last. rewrite length_fmap.
  rewrite Hre1. destruct (length cs) as [|n] eqn:En.
  - destruct (layout_restart _ _ HL _ _ Er) as [->|]; [|lia]. rewrite <- En in Hr1.
    destruct (ParseNextKey_end it1 Hst1 Hr1) as (it2 & E2 & ? & ?). unfold entry_fuel.
    rewrite Nat.add_comm. cbn [Nat.add skip_loop]. rewrite E2. cbn. eauto.
  - rewrite <- chunk_offset_end, En.
    destruct (layout_restart _ _ HL _ _ Er) as [->|Hrl];
      (eapply skip_loop_good; [done|done|lia|pose proof (entry_fuel_enough it1 0 Hst1); lia]).
Qed.

Lemma block_Next_good it i :
  iter_static it → iter_at it i →
  ∃ it', block_Next it = Some it' ∧ iter_static it' ∧ iter_pos it' (pos_at cs.*2 (S i)).
Proof.
  intros Hst Hat. pose proof (iter_at_ready it i Hat) as Hr. unfold block_Next.
  assert (block_Valid it = true) as ->.
  { destruct Hat as (c & Hc & Hcur & _). destruct Hst as (_ & Hre & _). unfold block_Valid.
    apply bool_decide_true. rewrite Hcur, Hre, <- chunk_offset_end.
    apply (chunk_offset_lt (good_layout _ _ _ G)). apply lookup_lt_Some in Hc. lia. }
  unfold pos_at. rewrite length_fmap. case_decide as Hlen.
  - destruct (ParseNextKey_step it _ Hst Hr Hlen) as (it2 & -> & ? & ?). cbn. eauto.
  - pose proof Hr as [Hle _]. assert (S i = length cs) as Ei by lia. rewrite Ei in Hr.
    destruct (ParseNextKey_end it Hst Hr) as (it2 & -> & ? & ?). cbn. eauto.
Qed.

(** The scan back finds a restart point before the entry, if it is not the first. *)
Lemma back_loop_good fuel it i j :
  iter_static it → (i < length cs)%nat → 0 ≤ j < zlen R → j < Z.of_nat fuel →
  ∃ r, back_loop fuel it (chunk_offset cs i) j = Some r ∧
    match r with
    | None => i = 0%nat
    | Some j' => 0 ≤ j' < zlen R ∧ ∃ k, R !! Z.to_nat j' = Some k ∧ (k < i)%nat
    end.
Proof.
  intros Hst Hi. revert j. pose proof (good_layout _ _ _ G) as HL.
  induction fuel as [|fuel IH]; intros j Hj Hf; [lia|]. cbn [back_loop].
  destruct (restart_lookup (R := R) j Hj) as [k Ek].
  pose proof (restart_le HL _ _ Ek) as Hk.
  rewrite (GetRestartPoint_good it j k) by (done || lia). cbn [mbind option_bind].
  case_decide as Hge.
  - case_decide as Hj0; [|apply IH; lia]. eexists; split; [done|]. subst j.
    change (Z.to_nat 0) with 0%nat in Ek. rewrite (layout_first _ _ HL) in Ek. injection Ek as <-.
    destruct i as [|i]; [done|]. pose proof (chunk_offset_lt HL 0 (S i)). lia.
  - eexists; split; [done|]. split; [done|]. exists k. split; [done|].
    apply (chunk_offset_iff HL); lia.
Qed.

Lemma block_Prev_good it i :
  iter_static it → iter_at it i →
  ∃ it', block_Prev it = Some it' ∧ iter_static it' ∧ iter_pos it' (pos_prev i).
Proof.
  intros Hst Hat. pose proof (good_layout _ _ _ G) as HL. unfold block_Prev.
  pose proof Hat as (c & Hc & Hcur & _ & _ & Hidx). pose proof (lookup_lt_Some _ _ _ Hc) as Hi.
  assert (block_Valid it = true) as ->.
  { destruct Hst as (_ & Hre & _). unfold block_Valid.
    apply bool_decide_true. rewrite Hcur, Hre, <- chunk_offset_end. by apply (chunk_offset_lt HL). }
  pose proof Hst as (_ & _ & Hn & _). rewrite Hn, Hcur. cbn zeta.
  destruct (back_loop_good (Z.to_nat (zlen R) + 1) it i (restart_index_ it)) as (r & -> & Hr); [done|done|done|lia|].
  cbn [mbind option_bind]. destruct r as [j|].
  - destruct Hr as (Hj & k & Ek & Hki).
    destruct (SeekToRestartPoint_ready it j Hst Hj) as (k' & it1 & Ek' & -> & Hst1 & Hr1).
    rewrite Ek in Ek'. injection Ek' as <-. cbn [mbind option_bind].
    destruct i as [|i]; [lia|]. cbn [pos_prev].
    apply (skip_loop_good _ it1 k (S i)); [done|done|lia|]. pose proof (entry_fuel_enough it1 0 Hst1). lia.
  - subst i. eexists. split; [done|]. by destruct Hst as (? & ? & ? & ?).
Qed.
End Reading.

(** ** The contract *)

Definition block_rel {C : Comparator} (V : bytes → Prop) (it : Iter) (es : list entry) (p : option nat) : Prop :=
  ∃ cs R, Good V cs R ∧ iter_static (cs := cs) (R := R) it ∧ es = cs.*2 ∧ iter_pos (cs := cs) (R := R) it p.

Section Laws.
Context {C : Comparator} {V : bytes → Prop} {CL : ComparatorLaws C V}.

Lemma block_Valid_rel it es p : block_rel V it es p → block_Valid it = bool_decide (is_Some p).
Proof.
  intros (cs & R & G & Hst & -> & Hp). unfold block_Valid. apply bool_decide_ext.
  pose proof (good_layout _ _ _ G) as HL. destruct p as [i|]; cbn in Hp.
  - destruct Hp as (c & Hc & -> & _). pose proof (lookup_lt_Some _ _ _ Hc).
    destruct Hst as (_ & -> & _). rewrite <- chunk_offset_end.
    split; [eauto|intros _; by apply (chunk_offset_lt HL)].
  - rewrite Hp. split; [lia|]. by intros [? ?].
Qed.

Lemma block_value_rel it es i e :
  block_rel V it es (Some i) → es !! i = Some e → it_value it = Some e.2.
Proof.
  intros HR He. pose proof (block_Valid_rel _ _ _ HR) as Hv. cbn in Hv |- *. rewrite Hv.
  destruct HR as (cs & R & G & (Hd & _) & -> & c & Hc & _ & _ & Hval & _).
  rewrite list_lookup_fmap, Hc in He. injection He as <-. rewrite Hval, Hd. cbn [mbind option_bind].
  pose proof (good_layout _ _ _ G) as HL. destruct (body_split HL i c Hc) as (pre & Hpre & Hz).
  destruct (layout_chunks _ _ HL i c Hc) as (H1 & _ & H2).
  assert (block_bytes cs R = (pre ++ zdrop c.1 c.2.1) ++ c.2.2 ++
    chunks_body (drop (S i) cs) ++ restart_array cs R ++ EncodeFixed32 (zlen R)) as ->.
  { unfold block_bytes. rewrite Hpre. by rewrite <- !app_assoc. }
  assert (chunk_offset cs (S i) - zlen c.2.2 = zlen (pre ++ zdrop c.1 c.2.1)) as ->.
  { rewrite zlen_app, zlen_zdrop by lia. lia. }
  rewrite zdrop_app, ztake_app. rewrite decide_True; [done|]. clear Hpre. zsolve.
Qed.

#[export] Instance Block_laws : IteratorLaws Iter V (block_rel V).
Proof.
  split.
  - intros it es p (cs & R & G & _ & -> & _). split; apply G.
  - intros it es i (cs & R & _ & _ & -> & c & Hc & _). rewrite length_fmap. by eapply lookup_lt_Some.
  - apply block_Valid_rel.
  - intros it es i e HR He. pose proof (block_Valid_rel _ _ _ HR) as Hv. cbn in Hv |- *. rewrite Hv.
    destruct HR as (cs & R & _ & _ & -> & c & Hc & _ & -> & _).
    rewrite list_lookup_fmap, Hc in He. by injection He as <-.
  - apply block_value_rel.
  - by intros it es p (cs & R & _ & (_ & _ & _ & Hs) & _).
  - intros it es p (cs & R & G & Hst & -> & _).
    destruct (block_SeekToFirst_good G it Hst) as (it' & ? & ? & ?). exists it'. split; [done|by exists cs, R].
  - intros it es p (cs & R & G & Hst & -> & _).
    destruct (block_SeekToLast_good G it Hst) as (it' & ? & ? & ?). exists it'. split; [done|by exists cs, R].
  - intros it es p k (cs & R & G & Hst & -> & _) Vk.
    destruct (block_Seek_good G it k Hst Vk) as (it' & ? & ? & ?). exists it'. split; [done|by exists cs, R].
  - intros it es i (cs & R & G & Hst & -> & Hp).
    destruct (block_Next_good G it i Hst Hp) as (it' & ? & ? & ?). exists it'. split; [done|by exists cs, R].
  - intros it es i (cs & R & G & Hst & -> & Hp).
    destruct (block_Prev_good G it i Hst Hp) as (it' & ? & ? & ?). exists it'. split; [done|by exists cs, R].
Qed.

(** A block that the builder made is read back. *)
Lemma block_open cs R :
  Good V cs R →
  ∃ it, block_NewIterator (new_Block (block_bytes cs R)) = inr it ∧ block_rel V it cs.*2 None.
Proof.
  intros G. pose proof (good_layout _ _ _ G) as HL.
  destruct (new_Block_good cs R HL (good_len _ _ _ G)) as [Hn ->].
  unfold block_NewIterator. cbn [size_ data_ restart_offset_]. rewrite Hn.
  pose proof (zlen_block_bytes cs R). pose proof (layout_length HL). zlen_facts.
  rewrite !decide_False by lia. eexists. split; [done|]. by exists cs, R.
Qed.
End Laws.

(** ** Corrupt blocks *)

Lemma GetVarint32Ptr_suffix p v q : GetVarint32Ptr p = Some (v, q) → q `suffix_of` p.
Proof.
  rewrite GetVarint32Ptr_fallback. intros (e & -> & _)%GetVarint_loop_suffix. by apply suffix_app_r.
Qed.

(** [DecodeEntry] on any bytes, corrupt ones too, leaves a pointer into
    them, and if the sum of the two lengths it returns does not overflow 32
    bits then the key delta and the value lie inside as well. *)
Theorem DecodeEntry_safe p shared non_shared value_length q :
  zlen p < 2 ^ 32 → DecodeEntry p = Some (shared, non_shared, value_length, q) →
  q `suffix_of` p ∧
  (0 ≤ non_shared + value_length < 2 ^ 32 → non_shared + value_length ≤ zlen q).
Proof.
  intros Hp. unfold DecodeEntry. case_decide as H3; [done|]. cbn zeta. intros H.
  assert (∃ s n v q', q' `suffix_of` p ∧
    (if decide (u32 (zlen q') < u32 (n + v)) then None else Some (s, n, v, q')) =
    Some (shared, non_shared, value_length, q)) as (s & n & v & q' & Hq & H').
  { case_decide as Hf.
    - cbn [mbind option_bind] in H. eexists _, _, _, _. split; [|exact H]. apply suffix_drop.
    - destruct (GetVarint32Ptr p) as [[s p1]|] eqn:E1; [|done]. cbn [mbind option_bind] in H.
      destruct (GetVarint32Ptr p1) as [[n p2]|] eqn:E2; [|done]. cbn [mbind option_bind] in H.
      destruct (GetVarint32Ptr p2) as [[v p3]|] eqn:E3; [|done]. cbn [mbind option_bind] in H.
      eexists s, n, v, p3. split; [|exact H].
      transitivity p2; [by eapply GetVarint32Ptr_suffix|].
      transitivity p1; by eapply GetVarint32Ptr_suffix. }
  case_decide as Hlt; [done|]. injection H' as -> -> -> ->. split; [done|]. intros Hsum.
  assert (zlen q ≤ zlen p) by (unfold zlen; apply suffix_length in Hq; lia).
  zlen_facts. rewrite !wrap_small in Hlt by (unfold in_w; lia). lia.
Qed.

Example DecodeEntry_safe_witness :
  DecodeEntry (enc_chunk 1 (str "ab", str "c") ++ str "rest") = Some (1, 1, 1, str "bcrest") ∧
  str "bcrest" `suffix_of` enc_chunk 1 (str "ab", str "c") ++ str "rest".
Proof.
  assert (DecodeEntry (enc_chunk 1 (str "ab", str "c") ++ str "rest") = Some (1, 1, 1, str "bcrest")) as H
    by (vm_compute; reflexivity).
  split; [exact H|]. apply (fun X => DecodeEntry_safe _ _ _ _ _ X H). vm_compute. reflexivity.
Defined.

(** Without the bound the test passes by overflow: the key of this entry has
    2^31 bytes, in a block of some twenty. *)
Definition overflow_entry : bytes :=
  EncodeVarint32 0 ++ EncodeVarint32 (2 ^ 31) ++ EncodeVarint32 (2 ^ 31) ++ str "abc".

Example DecodeEntry_overflow : DecodeEntry overflow_entry = Some (0, 2 ^ 31, 2 ^ 31, str "abc").
Proof. vm_compute. reflexivity. Qed.

(** ** The round trip *)

(** A block of the builder is opened. *)
Lemma built_block_open {C : Comparator} {V : bytes → Prop} {CL : ComparatorLaws C V} interval es :
  1 ≤ interval → block_need es < 2 ^ 32 → StronglySorted entry_lt es → Forall (λ e, V e.1) es →
  ∃ it, block_NewIterator (new_Block (fst (Finish (Adds interval new_BlockBuilder es)))) = inr it ∧
    block_rel V it es None.
Proof.
  intros Hi Hn Hs HV. destruct (Adds_rep interval es Hi Hn) as (cs & R & Hrep & <- & Hlen).
  assert (G : Good V cs R) by (split; [apply Hrep|lia|done|done]).
  pose proof (zlen_block_bytes cs R). zlen_facts.
  rewrite (Finish_rep _ cs R Hrep) by lia. by apply block_open.
Qed.

(** C19: a block that the builder makes of entries in order (with any restart
    interval) is opened again, and its iterator shows exactly these entries,
    forwards, backwards and from any key that is searched for. *)
Theorem Block_roundtrip {C : Comparator} {V : bytes → Prop} {CL : ComparatorLaws C V} interval es :
  1 ≤ interval → block_need es < 2 ^ 32 → StronglySorted entry_lt es → Forall (λ e, V e.1) es →
  let block := new_Block (fst (Finish (Adds interval new_BlockBuilder es))) in
  ∃ it, block_NewIterator block = inr it ∧ iterates it V es.
Proof.
  intros Hi Hn Hs HV. destruct (built_block_open interval es Hi Hn Hs HV) as (it & ? & HR).
  exists it. split; [done|]. by eapply rel_iterates.
Qed.

Example Block_roundtrip_witness :
  let es := [(str "apple", str "1"); (str "apply", str "2"); (str "banana", str "3")] in
  StronglySorted (entry_lt (C := BytewiseComparator)) es ∧
  ∃ it, block_NewIterator (new_Block (fst (Finish (Adds 2 new_BlockBuilder es)))) = inr it ∧
    iterates (II := Block_Iter (C := BytewiseComparator)) it any_key es.
Proof.
  assert (StronglySorted (entry_lt (C := BytewiseComparator))
    [(str "apple", str "1"); (str "apply", str "2"); (str "banana", str "3")]) as Hs.
  { repeat constructor; vm_compute; reflexivity. }
  split; [exact Hs|]. apply (Block_roundtrip (CL := BytewiseComparator_laws)); [lia| |exact Hs|repeat constructor].
  vm_compute. reflexivity.
Defined.
