(* ===== verification/Format.v ===== *)
(** Table files, the outer format: [table/format.cc] and [table/format.h] -
    block handles, the footer, blocks with their type and checksum - and the
    options of [include/leveldb/options.h] that the table code reads.

    An open [RandomAccessFile] is a constant object: its [Read] is a function of
    the offset and the number of bytes. *)
From Stdlib Require Import Init.Byte.
From S2P Require Import Prelude Coding Crc32c Status Comparator Bloom Snappy SnappyUncompress SnappyCompress SnappyBound Env.

(** ** Options *)

(** [enum CompressionType] *)
Definition kNoCompression : Z := 0.
Definition kSnappyCompression : Z := 1.

Record Options := {
  paranoid_checks : bool;
  block_size : Z;
  block_restart_interval : Z;
  compression : Z;
  filter_policy : option FilterPolicy;
}.

Definition default_Options : Options :=
  {| paranoid_checks := false; block_size := 4096; block_restart_interval := 16;
     compression := kSnappyCompression; filter_policy := None |}.

(** ** Handles and the footer *)

Definition kMaxEncodedLength : Z := 10 + 10.
Definition kFooterLength : Z := 2 * kMaxEncodedLength + 8.
Definition kTableMagicNumber : Z := 0xdb4775248b80fb57.
Definition kBlockTrailerSize : Z := 5.

Record BlockHandle := { offset_ : Z; size_ : Z }.

Definition new_BlockHandle : BlockHandle := {| offset_ := 2 ^ 64 - 1; size_ := 2 ^ 64 - 1 |}.

Definition handle_EncodeTo (h : BlockHandle) (dst : bytes) : bytes :=
  PutVarint64 (PutVarint64 dst (offset_ h)) (size_ h).

(** The handle and the input behind it, or a status that is not ok. *)
Definition handle_DecodeFrom (input : bytes) : Status + (BlockHandle * bytes) :=
  match GetVarint64 input with
  | Some (offset, input) =>
      match GetVarint64 input with
      | Some (size, input) => inr ({| offset_ := offset; size_ := size |}, input)
      | None => inl (Corruption (str "bad block handle") [])
      end
  | None => inl (Corruption (str "bad block handle") [])
  end.

Record Footer := { metaindex_handle_ : BlockHandle; index_handle_ : BlockHandle }.

Definition footer_EncodeTo (f : Footer) (dst : bytes) : bytes :=
  let dst := handle_EncodeTo (metaindex_handle_ f) dst in
  let dst := handle_EncodeTo (index_handle_ f) dst in
  let dst := resize (Z.to_nat (2 * kMaxEncodedLength)) Byte.x00 dst in
  let dst := PutFixed32 dst (Z.land kTableMagicNumber 0xffffffff) in
  PutFixed32 dst (u32 (Z.shiftr kTableMagicNumber 32)).

(** [None]: the magic number is read outside the input. *)
Definition footer_DecodeFrom (input : bytes) : option (Status + (Footer * bytes)) :=
  if decide (zlen input < kFooterLength) then None
  else
    let magic_lo := DecodeFixed32 (zdrop (kFooterLength - 8) input) in
    let magic_hi := DecodeFixed32 (zdrop (kFooterLength - 4) input) in
    let magic := Z.lor (u64 (Z.shiftl magic_hi 32)) magic_lo in
    if decide (magic ≠ kTableMagicNumber) then
      Some (inl (Corruption (str "not an sstable (bad magic number)") []))
    else
      match handle_DecodeFrom input with
      | inl s => Some (inl s)
      | inr (metaindex, input') =>
          match handle_DecodeFrom input' with
          | inl s => Some (inl s)
          | inr (index, _) =>
              Some (inr ({| metaindex_handle_ := metaindex; index_handle_ := index |},
                         zdrop kFooterLength input))
          end
      end.

(** ** Blocks in the file *)

Record BlockContents := { contents_data : bytes; cachable : bool; heap_allocated : bool }.

(** [port::Snappy_GetUncompressedLength], [Snappy_Uncompress] into a new buffer
    of the announced length, and [Snappy_Compress]. *)
Definition Snappy_Uncompress (input : bytes) (ulength : Z) : option (bool * bytes) :=
  RawUncompress input (replicate (Z.to_nat ulength) Byte.x00).

Definition Snappy_Compress (input : bytes) : option bytes :=
  c ← RawCompress input;
  if decide (zlen c ≤ MaxCompressedLength (zlen input)) then Some c else None.

(** An open file: [Read(offset, n)], and whether it returns a pointer into its
    own memory ([data != buf]) or fills the buffer it is given. *)
Class TableFile := { Read : Z → Z → Status * bytes; mapped : Z → Z → bool }.

Section Reading.
Context {P : Placement} {F : TableFile}.

(** What is made of the [n + kBlockTrailerSize] bytes that were read; [own] says
    that they are in the file's memory, not in the buffer. *)
Definition block_contents (verify_checksums own : bool) (n : Z) (contents : bytes) : option (Status + BlockContents) :=
  if decide (zlen contents < n + kBlockTrailerSize) then None
  else
    let checked := ztake (n + 1) contents in
    let crc := Unmask (DecodeFixed32 (zdrop (n + 1) contents)) in
    let actual := Value (address checked) checked in
    if verify_checksums && bool_decide (actual ≠ crc) then
      Some (inl (Corruption (str "block checksum mismatch") []))
    else
      let data := ztake n contents in
      let type := u8 (zget contents n) in
      if decide (type = kNoCompression) then
        if own then Some (inr {| contents_data := data; heap_allocated := false; cachable := false |})
        else Some (inr {| contents_data := data; heap_allocated := true; cachable := true |})
      else if decide (type = kSnappyCompression) then
        match GetUncompressedLength data with
        | None => Some (inl (Corruption (str "corrupted compressed block contents") []))
        | Some ulength =>
            '(done, ubuf) ← Snappy_Uncompress data ulength;
            if (done : bool) then
              Some (inr {| contents_data := ubuf; heap_allocated := true; cachable := true |})
            else Some (inl (Corruption (str "corrupted compressed block contents") []))
        end
      else Some (inl (Corruption (str "bad block type") [])).

Definition ReadBlock (verify_checksums : bool) (handle : BlockHandle) : option (Status + BlockContents) :=
  let n := usize (size_ handle) in
  let '(s, contents) := Read (offset_ handle) (usize (n + kBlockTrailerSize)) in
  if negb (ok s) then Some (inl s)
  else if decide (zlen contents ≠ usize (n + kBlockTrailerSize)) then
    Some (inl (Corruption (str "truncated block read") []))
  else block_contents verify_checksums (mapped (offset_ handle) (usize (n + kBlockTrailerSize))) n contents.
End Reading.

(** A file with these contents whose reads do not fail, but for those past the
    end. *)
Class TableFileLaws (F : TableFile) (contents : bytes) : Prop := {
  table_Read off n : 0 ≤ off → 0 ≤ n → off + n ≤ zlen contents → ∃ s, Read off n = (s, ztake n (zdrop off contents)) ∧ ok s = true;
}.

(** A file in memory. *)
Definition file_of (contents : bytes) : TableFile :=
  {| Read off n := (Status_OK, ztake n (zdrop off contents)); mapped _ _ := false |}.

#[export] Instance file_of_laws contents : TableFileLaws (file_of contents) contents.
Proof. split. intros. by eexists. Qed.

(** The bytes of a block with its trailer. *)
Definition block_image (type : Z) (data : bytes) : bytes :=
  data ++ [b8 type] ++ EncodeFixed32 (Mask (crc32c_ref 0 (data ++ [b8 type]))).

(** What [type] and [data] stand for. *)
Definition block_means (type : Z) (data raw : bytes) : Prop :=
  (type = kNoCompression ∧ data = raw) ∨ (type = kSnappyCompression ∧ spec_uncompress data raw ∧
    GetUncompressedLength data = Some (zlen raw)).

(** ** Lemmas *)

Lemma zlen_handle_EncodeTo h dst :
  zlen dst + 2 ≤ zlen (handle_EncodeTo h dst) ≤ zlen dst + kMaxEncodedLength.
Proof.
  unfold handle_EncodeTo, PutVarint64. rewrite !zlen_app.
  pose proof (EncodeVarint64_bounds (offset_ h)). pose proof (EncodeVarint64_bounds (size_ h)).
  unfold kMaxEncodedLength. lia.
Qed.

Definition handle_ok (h : BlockHandle) : Prop := in_w 64 (offset_ h) ∧ in_w 64 (size_ h).

Lemma handle_roundtrip h rest :
  handle_ok h → handle_DecodeFrom (handle_EncodeTo h [] ++ rest) = inr (h, rest).
Proof.
  intros [H1 H2]. unfold handle_EncodeTo, PutVarint64, handle_DecodeFrom. rewrite app_nil_l, <- app_assoc.
  rewrite GetVarint64_EncodeVarint64 by done. rewrite GetVarint64_EncodeVarint64 by done. by destruct h.
Qed.

Lemma handle_EncodeTo_app h dst : handle_EncodeTo h dst = dst ++ handle_EncodeTo h [].
Proof. unfold handle_EncodeTo, PutVarint64. by rewrite <- app_assoc. Qed.

Lemma footer_shape f :
  ∃ pad, footer_EncodeTo f [] =
    (handle_EncodeTo (metaindex_handle_ f) [] ++ handle_EncodeTo (index_handle_ f) [] ++ pad) ++
    EncodeFixed64 kTableMagicNumber ∧
    zlen (handle_EncodeTo (metaindex_handle_ f) [] ++ handle_EncodeTo (index_handle_ f) [] ++ pad) = 40.
Proof.
  unfold footer_EncodeTo. rewrite (handle_EncodeTo_app (index_handle_ f)).
  set (enc := _ ++ handle_EncodeTo (index_handle_ f) []).
  assert (zlen enc ≤ 40) as Henc.
  { unfold enc. rewrite zlen_app. pose proof (zlen_handle_EncodeTo (metaindex_handle_ f) []).
    pose proof (zlen_handle_EncodeTo (index_handle_ f) []). change (zlen []) with 0 in *.
    unfold kMaxEncodedLength in *. lia. }
  exists (replicate (40 - length enc) Byte.x00). rewrite app_assoc. fold enc.
  assert (resize (Z.to_nat (2 * kMaxEncodedLength)) Byte.x00 enc = enc ++ replicate (40 - length enc) Byte.x00) as ->.
  { change (Z.to_nat (2 * kMaxEncodedLength)) with 40%nat. rewrite resize_ge; [done|]. unfold zlen in Henc. lia. }
  split; [|unfold zlen in *; rewrite length_app, length_replicate; lia].
  unfold PutFixed32. rewrite <- !app_assoc. do 2 f_equal.
Qed.

Lemma zlen_footer f : zlen (footer_EncodeTo f []) = kFooterLength.
Proof. destruct (footer_shape f) as (pad & -> & Hz). by rewrite zlen_app, Hz, zlen_EncodeFixed64. Qed.

Lemma footer_decode f :
  handle_ok (metaindex_handle_ f) → handle_ok (index_handle_ f) →
  footer_DecodeFrom (footer_EncodeTo f []) = Some (inr (f, [])).
Proof.
  intros H1 H2. pose proof (zlen_footer f) as Hz. unfold footer_DecodeFrom. rewrite Hz, decide_False by lia.
  destruct (footer_shape f) as (pad & E & H40). rewrite E in *.
  assert (zdrop (kFooterLength - 8) ((handle_EncodeTo (metaindex_handle_ f) [] ++
    handle_EncodeTo (index_handle_ f) [] ++ pad) ++ EncodeFixed64 kTableMagicNumber) =
    EncodeFixed64 kTableMagicNumber) as E8 by (apply zdrop_app_n; by rewrite H40).
  cbn zeta. change (kFooterLength - 4) with (kFooterLength - 8 + 4). rewrite <- zdrop_zdrop by done.
  rewrite E8. change (Z.lor _ _) with kTableMagicNumber. rewrite decide_False by auto.
  rewrite <- app_assoc, handle_roundtrip by done. rewrite <- app_assoc, handle_roundtrip by done.
  do 4 f_equal; [by destruct f|]. rewrite !app_assoc, <- (app_assoc _ _ pad). apply zdrop_ge. rewrite Hz. lia.
Qed.

Lemma zlen_block_image type data : zlen (block_image type data) = zlen data + kBlockTrailerSize.
Proof. unfold block_image. rewrite !zlen_app, zlen_EncodeFixed32. done. Qed.

Lemma Snappy_Uncompress_ok data raw :
  spec_uncompress data raw → GetUncompressedLength data = Some (zlen raw) →
  Snappy_Uncompress data (zlen raw) = Some (true, raw).
Proof.
  intros Hs Hl. unfold Snappy_Uncompress.
  destruct (RawUncompress_spec data (zlen raw) (replicate (Z.to_nat (zlen raw)) Byte.x00) Hl)
    as (ok & out & -> & _ & H); [apply zlen_replicate, zlen_nonneg|].
  by destruct (H raw Hs) as [-> ->].
Qed.

Lemma Snappy_Compress_ok raw :
  zlen raw < 2 ^ 31 →
  ∃ c, Snappy_Compress raw = Some c ∧ spec_uncompress c raw ∧ GetUncompressedLength c = Some (zlen raw).
Proof.
  intros Hr. destruct (RawCompress_spec raw) as (c & Ec & Hs & Hl); [zlen_facts; word_solve|].
  exists c. split; [|done]. unfold Snappy_Compress. rewrite Ec. cbn [mbind option_bind].
  rewrite decide_True; [done|]. apply (RawCompress_bounded raw c); [|done]. zlen_facts; word_solve.
Qed.

Section ReadBlocks.
Context {P : Placement} {PL : PlacementLaws P} {F : TableFile} {contents : bytes} {FL : TableFileLaws F contents}.

(** A block in the file is read back, with or without checksums. *)
Lemma ReadBlock_image verify pre type data raw post :
  contents = pre ++ block_image type data ++ post → zlen data + kBlockTrailerSize < 2 ^ 31 →
  block_means type data raw →
  ∃ r, ReadBlock verify {| offset_ := zlen pre; size_ := zlen data |} = Some (inr r) ∧ contents_data r = raw.
Proof.
  intros Hc Hlen Hm. unfold ReadBlock. cbn [size_ offset_]. pose proof (zlen_nonneg data) as H0.
  unfold kBlockTrailerSize in *. rewrite (wrap_small _ (zlen data)) by word_solve. rewrite !wrap_small by word_solve.
  edestruct (table_Read (contents := contents) (zlen pre) (zlen data + 5)) as (s & -> & ->);
    [apply zlen_nonneg|lia|rewrite Hc, !zlen_app, zlen_block_image; unfold kBlockTrailerSize; zlen_facts; lia|]. cbn [negb].
  rewrite Hc, zdrop_app, ztake_app_n by by rewrite zlen_block_image.
  rewrite zlen_block_image. unfold block_contents, kBlockTrailerSize. rewrite zlen_block_image. unfold kBlockTrailerSize. rewrite !decide_False by lia.
  assert (block_image type data = (data ++ [b8 type]) ++ EncodeFixed32 (Mask (crc32c_ref 0 (data ++ [b8 type])))) as E.
  { unfold block_image. by rewrite <- app_assoc. }
  assert (zlen (data ++ [b8 type]) = zlen data + 1) as Hz by by rewrite zlen_app.
  assert (ztake (zlen data + 1) (block_image type data) = data ++ [b8 type]) as -> by (rewrite E; by apply ztake_app_n).
  assert (zdrop (zlen data + 1) (block_image type data) =
    EncodeFixed32 (Mask (crc32c_ref 0 (data ++ [b8 type])))) as -> by (rewrite E; by apply zdrop_app_n).
  rewrite <- (app_nil_r (EncodeFixed32 _)), DecodeFixed32_EncodeFixed32 by apply Mask_range.
  rewrite Unmask_Mask by (by apply crc32c_ref_range). rewrite Value_placed by lia.
  rewrite (bool_decide_false (_ ≠ _)) by auto. rewrite andb_false_r.
  assert (ztake (zlen data) (block_image type data) = data) as -> by apply ztake_app.
  assert (zget (block_image type data) (zlen data) = b8 type) as ->.
  { unfold block_image. rewrite zget_app_r by lia. by rewrite Z.sub_diag. }
  cbn zeta. destruct Hm as [[-> ->]|(-> & Hs & Hl)].
  - rewrite u8_b8_small by done. rewrite decide_True by done. case_match; eauto.
  - rewrite u8_b8_small by done. rewrite decide_False by done. rewrite decide_True by done.
    rewrite Hl, (Snappy_Uncompress_ok data raw Hs Hl). cbn. eauto.
Qed.
End ReadBlocks.

Lemma split_image n (contents : bytes) :
  0 ≤ n → zlen contents = n + 5 →
  ∃ data type crc, contents = data ++ [type] ++ crc ∧ zlen data = n ∧ zlen crc = 4.
Proof.
  intros H0 Hn. rewrite <- (ztake_zdrop n contents).
  assert (zlen (zdrop n contents) = 5) as H5 by (rewrite zlen_zdrop; lia).
  destruct (zdrop n contents) as [|type crc]; [done|]. rewrite zlen_cons in H5.
  exists (ztake n contents), type, crc. splits; [done|apply zlen_ztake; lia|lia].
Qed.

(** What the bytes of a block are made to. *)
Lemma block_contents_spec {P : Placement} {PL : PlacementLaws P} verify own n contents :
  0 ≤ n → n + kBlockTrailerSize < 2 ^ 31 → zlen contents = n + kBlockTrailerSize →
  ∃ r data type crc, block_contents verify own n contents = Some r ∧
    contents = data ++ [type] ++ crc ∧ zlen data = n ∧ zlen crc = 4 ∧
    let valid := verify = true → Unmask (DecodeFixed32 crc) = crc32c_ref 0 (data ++ [type]) in
    match r with
    | inl s => ok s = false ∧ (valid → u8 type ≠ kNoCompression)
    | inr c => valid ∧
        (u8 type = kNoCompression ∧ contents_data c = data ∨
         u8 type = kSnappyCompression ∧ spec_uncompress data (contents_data c))
    end.
Proof.
  unfold kBlockTrailerSize. intros H0 H1 Hl. unfold block_contents, kBlockTrailerSize. rewrite decide_False by lia.
  destruct (split_image n contents H0 Hl) as (data & type & crc & -> & Hd & Hcrc).
  assert (ztake (n + 1) (data ++ [type] ++ crc) = data ++ [type]) as ->.
  { rewrite app_assoc. apply ztake_app_n. rewrite zlen_app. change (zlen [type]) with 1. lia. }
  assert (zdrop (n + 1) (data ++ [type] ++ crc) = crc) as ->.
  { rewrite app_assoc. apply zdrop_app_n. rewrite zlen_app. change (zlen [type]) with 1. lia. }
  assert (zget (data ++ [type] ++ crc) n = type) as -> by (rewrite zget_app_r by lia; by rewrite Hd, Z.sub_diag).
  rewrite (ztake_app_n n) by done. rewrite Value_placed by (rewrite zlen_app; change (zlen [type]) with 1; lia).
  cbn zeta. destruct (verify && _) eqn:Ev.
  { eexists _, data, type, crc. splits; [done..|]. split; [done|]. intros Hv.
    apply andb_true_iff in Ev as [-> Ev%bool_decide_eq_true]. destruct Ev. by rewrite Hv. }
  assert (Hv : verify = true → Unmask (DecodeFixed32 crc) = crc32c_ref 0 (data ++ [type])).
  { intros ->. cbn in Ev. apply bool_decide_eq_false, dec_stable in Ev. done. }
  destruct (decide (u8 type = kNoCompression)) as [Ht0|Ht0].
  - destruct own; eexists _, data, type, crc; (splits; [done..|]); split; auto.
  - destruct (decide (u8 type = kSnappyCompression)) as [Ht1|Ht1]; [|by eexists _, data, type, crc; splits].
    destruct (GetUncompressedLength data) as [ul|] eqn:El; [|by eexists _, data, type, crc; splits].
    destruct (RawUncompress_spec data ul (replicate (Z.to_nat ul) Byte.x00) El) as (ok' & out & Hraw & Hok & _).
    { apply zlen_replicate. by eapply GetUncompressedLength_nonneg. }
    unfold Snappy_Uncompress. rewrite Hraw. cbn [mbind option_bind].
    destruct ok'; eexists _, data, type, crc; (splits; [done..|]); [|by split].
    split; [done|]. right. split; [done|]. by apply Hok.
Qed.



(** The footer takes 48 bytes and decodes to the handles that were encoded;
    48 bytes that do not end in the magic number are rejected. *)
Theorem Footer_roundtrip f input :
  handle_ok (metaindex_handle_ f) → handle_ok (index_handle_ f) → zlen input = kFooterLength →
  zlen (footer_EncodeTo f []) = kFooterLength ∧
  footer_DecodeFrom (footer_EncodeTo f []) = Some (inr (f, [])) ∧
  (DecodeFixed64 (zdrop 40 input) ≠ kTableMagicNumber →
   ∃ s, footer_DecodeFrom input = Some (inl s) ∧ IsCorruption s = true).
Proof.
  intros H1 H2 Hz. splits; [apply zlen_footer|by apply footer_decode|].
  intros Hm. unfold footer_DecodeFrom. rewrite decide_False by lia. cbn zeta.
  rewrite decide_True.
  - eexists. split; [done|]. by vm_compute.
  - intros E. apply Hm. rewrite <- E. unfold DecodeFixed64.
    change (kFooterLength - 8) with 40. change (kFooterLength - 4) with (40 + 4). by rewrite zdrop_zdrop by done.
Qed.

Example Footer_roundtrip_witness :
  let f := {| metaindex_handle_ := {| offset_ := 1000; size_ := 20 |};
              index_handle_ := {| offset_ := 1025; size_ := 300 |} |} in
  zlen (footer_EncodeTo f []) = kFooterLength ∧
  footer_DecodeFrom (footer_EncodeTo f []) = Some (inr (f, [])) ∧
  (DecodeFixed64 (zdrop 40 (replicate 48 x00)) ≠ kTableMagicNumber →
   ∃ s, footer_DecodeFrom (replicate 48 x00) = Some (inl s) ∧ IsCorruption s = true).
Proof. apply Footer_roundtrip; by vm_compute. Defined.

(** A handle with a size just below 2^32 makes the 32-bit sum of the size and
    the trailer wrap: four bytes are read, and the type is taken 4 GiB behind. *)
Example ReadBlock_overflow :
  ReadBlock (P := UnalignedPlacement) (F := file_of (str "some table file")) false
    {| offset_ := 0; size_ := 2 ^ 32 - 1 |} = None.
Proof. vm_compute. reflexivity. Qed.

(** The footer is padded to an absolute length, not to one that counts what the
    string held before, as the assertion behind it does. *)
Example footer_EncodeTo_nonempty :
  let h := {| offset_ := 0; size_ := 0 |} in
  zlen (footer_EncodeTo {| metaindex_handle_ := h; index_handle_ := h |} (str "prefix")) = kFooterLength.
Proof. vm_compute. reflexivity. Qed.
