(* ===== verification/FilterBlock.v ===== *)
(** The filter block of a table: [table/filter_block.cc] and
    [table/filter_block.h], for any filter policy. *)
From Stdlib Require Import Init.Byte Sorting.Sorted.
From S2P Require Import Prelude SortedLists Coding Bloom.

Definition kFilterBaseLg : Z := 11.
Definition kFilterBase : Z := Z.shiftl 1 kFilterBaseLg.

(** ** The builder *)

Record FilterBlockBuilder := {
  keys_ : bytes;
  start_ : list Z;
  result_ : bytes;
  filter_offsets_ : list Z;
}.

(** [for (i = 0; i < num_keys; i++)]: the keys between consecutive starts. *)
Fixpoint split_keys (keys : bytes) (start : list Z) : list bytes :=
  match start with
  | base :: ((next :: _) as start') => ztake (next - base) (zdrop base keys) :: split_keys keys start'
  | _ => []
  end.

Section FilterBlocks.
Context {policy_ : FilterPolicy}.

Definition new_FilterBlockBuilder : FilterBlockBuilder :=
  {| keys_ := []; start_ := []; result_ := []; filter_offsets_ := [] |}.

Definition GenerateFilter (b : FilterBlockBuilder) : FilterBlockBuilder :=
  let num_keys := zlen (start_ b) in
  if decide (num_keys = 0) then
    {| keys_ := keys_ b; start_ := start_ b; result_ := result_ b;
       filter_offsets_ := filter_offsets_ b ++ [u32 (zlen (result_ b))] |}
  else
    let start := start_ b ++ [zlen (keys_ b)] in
    let tmp_keys := split_keys (keys_ b) start in
    {| keys_ := []; start_ := []; result_ := CreateFilter tmp_keys (result_ b);
       filter_offsets_ := filter_offsets_ b ++ [u32 (zlen (result_ b))] |}.

(** Every turn of the loop adds one offset. *)
Definition StartBlock (block_offset : Z) (b : FilterBlockBuilder) : FilterBlockBuilder :=
  let filter_index := block_offset / kFilterBase in
  while_loop (Z.to_nat (filter_index - zlen (filter_offsets_ b)))
    (λ b, bool_decide (filter_index > zlen (filter_offsets_ b))) GenerateFilter b.

Definition AddKey (key : bytes) (b : FilterBlockBuilder) : FilterBlockBuilder :=
  {| keys_ := keys_ b ++ key; start_ := start_ b ++ [zlen (keys_ b)];
     result_ := result_ b; filter_offsets_ := filter_offsets_ b |}.

Definition filter_Finish (b : FilterBlockBuilder) : bytes :=
  let b := match start_ b with [] => b | _ => GenerateFilter b end in
  let array_offset := u32 (zlen (result_ b)) in
  let result := foldl PutFixed32 (result_ b) (filter_offsets_ b) in
  PutFixed32 result array_offset ++ [b8 kFilterBaseLg].

(** ** The reader *)

(** [data_] is the contents, [offset_] an offset in it. *)
Record FilterBlockReader := { data_ : bytes; offset_ : Z; num_ : Z; base_lg_ : Z }.

(** [base_lg_] is initialised with a plain [char]. *)
Definition new_FilterBlockReader (char_signed : bool) (contents : bytes) : FilterBlockReader :=
  let n := zlen contents in
  if decide (n < 5) then {| data_ := []; offset_ := 0; num_ := 0; base_lg_ := 0 |}
  else
    let base_lg := usize (char_val char_signed (zget contents (n - 1))) in
    let last_word := DecodeFixed32 (zdrop (n - 5) contents) in
    if decide (last_word > n - 5) then {| data_ := []; offset_ := 0; num_ := 0; base_lg_ := base_lg |}
    else {| data_ := contents; offset_ := last_word; num_ := (n - 5 - last_word) / 4; base_lg_ := base_lg |}.

(** [None] is a shift by 64 bits or more. *)
Definition filter_KeyMayMatch (r : FilterBlockReader) (block_offset : Z) (key : bytes) : option bool :=
  if decide (64 ≤ base_lg_ r) then None
  else
    let index := Z.shiftr block_offset (base_lg_ r) in
    if decide (index < num_ r) then
      let start := DecodeFixed32 (zdrop (offset_ r + index * 4) (data_ r)) in
      let limit := DecodeFixed32 (zdrop (offset_ r + index * 4 + 4) (data_ r)) in
      if decide (start ≤ limit ∧ limit ≤ offset_ r) then
        Some (KeyMayMatch key (ztake (limit - start) (zdrop start (data_ r))))
      else if decide (start = limit) then Some false
      else Some true
    else Some true.

(** ** What the builder makes *)

Definition filter_of (keys : list bytes) : bytes :=
  match keys with [] => [] | _ => CreateFilter keys [] end.

Definition filters_bytes (gen : list (list bytes)) : bytes := concat (filter_of <$> gen).

Definition filters_offset (gen : list (list bytes)) (i : nat) : Z := zlen (filters_bytes (take i gen)).

(** [gen] are the key lists of the filters made, [pend] the keys since. *)
Record filter_rep (b : FilterBlockBuilder) (gen : list (list bytes)) (pend : list bytes) : Prop := {
  frep_keys : keys_ b = concat pend;
  frep_start : start_ b = imap (λ i _, zlen (concat (take i pend))) pend;
  frep_result : result_ b = filters_bytes gen;
  frep_offsets : filter_offsets_ b = imap (λ i _, u32 (filters_offset gen i)) gen;
}.

Lemma new_FilterBlockBuilder_rep : filter_rep new_FilterBlockBuilder [] [].
Proof. by split. Qed.

Lemma imap_snoc {A B} (f : nat → A → B) l x : imap f (l ++ [x]) = imap f l ++ [f (length l) x].
Proof. rewrite imap_app. cbn. by rewrite Nat.add_0_r. Qed.

Lemma imap_take_snoc {A B} (g : list A → B) l x :
  imap (λ i _, g (take i (l ++ [x]))) (l ++ [x]) = imap (λ i _, g (take i l)) l ++ [g l].
Proof.
  rewrite imap_snoc. f_equal.
  - apply imap_ext. intros i y Hi%lookup_lt_Some. by rewrite take_app_le by lia.
  - by rewrite take_app_length.
Qed.

Lemma AddKey_rep key b gen pend : filter_rep b gen pend → filter_rep (AddKey key b) gen (pend ++ [key]).
Proof.
  intros [H1 H2 H3 H4]. split; cbn [AddKey keys_ start_ result_ filter_offsets_]; [| |done|done].
  - rewrite concat_app, H1. cbn. by rewrite app_nil_r.
  - rewrite (imap_take_snoc (λ l, zlen (concat l))). by rewrite H2, H1.
Qed.

Lemma split_keys_starts pre pend :
  split_keys (pre ++ concat pend)
    (imap (λ i _, zlen pre + zlen (concat (take i pend))) pend ++ [zlen pre + zlen (concat pend)]) = pend.
Proof.
  revert pre. induction pend as [|k pend IH]; intros pre; [done|].
  rewrite imap_cons. cbn [app].
  specialize (IH (pre ++ k)). rewrite <- app_assoc in IH.
  assert (imap ((λ i _, zlen pre + zlen (concat (take i (k :: pend)))) ∘ S) pend ++
    [zlen pre + zlen (concat (k :: pend))] =
    imap (λ i _, zlen (pre ++ k) + zlen (concat (take i pend))) pend ++ [zlen (pre ++ k) + zlen (concat pend)]) as E.
  { f_equal; [apply imap_ext; intros i x _|f_equal]; cbn; rewrite !zlen_app; lia. }
  rewrite E. change (concat (k :: pend)) with (k ++ concat pend).
  assert (zlen pre + zlen (concat (take 0 (k :: pend))) = zlen pre) as -> by (cbn; change (zlen []) with 0; lia).
  assert (∃ rest, imap (λ i _, zlen (pre ++ k) + zlen (concat (take i pend))) pend ++
    [zlen (pre ++ k) + zlen (concat pend)] = zlen (pre ++ k) :: rest) as [rest E'].
  { destruct pend; [exists []|]; cbn; rewrite ?Z.add_0_r; eauto. }
  rewrite E' in IH |- *. cbn [split_keys]. fold (split_keys (pre ++ k ++ concat pend)). f_equal; [|exact IH].
  rewrite zdrop_app. apply ztake_app_n. rewrite zlen_app. lia.
Qed.

Context {filter_dom : list bytes → Prop} {FL : FilterPolicyLaws policy_ filter_dom}.

Lemma filters_bytes_snoc gen keys : filters_bytes (gen ++ [keys]) = filters_bytes gen ++ filter_of keys.
Proof. unfold filters_bytes. rewrite fmap_app, concat_app. cbn. by rewrite app_nil_r. Qed.

Lemma offsets_snoc gen keys :
  imap (λ i _, u32 (filters_offset (gen ++ [keys]) i)) (gen ++ [keys]) =
  imap (λ i _, u32 (filters_offset gen i)) gen ++ [u32 (zlen (filters_bytes gen))].
Proof. exact (imap_take_snoc (λ l, u32 (zlen (filters_bytes l))) gen keys). Qed.

Lemma GenerateFilter_rep b gen pend :
  filter_rep b gen pend → filter_rep (GenerateFilter b) (gen ++ [pend]) [].
Proof.
  intros [H1 H2 H3 H4]. unfold GenerateFilter.
  assert (zlen (start_ b) = zlen pend) as -> by (rewrite H2; unfold zlen; by rewrite length_imap).
  case_decide as Hn.
  - apply zlen_zero in Hn as ->. cbn in H1, H2.
    split; cbn [keys_ start_ result_ filter_offsets_]; [done|done|..].
    + rewrite filters_bytes_snoc, H3. by rewrite app_nil_r.
    + by rewrite offsets_snoc, H3, H4.
  - split; cbn [keys_ start_ result_ filter_offsets_]; [done|done|..].
    + rewrite filters_bytes_snoc, H3, H1, H2, CreateFilter_app.
      assert (split_keys (concat pend) (imap (λ i _, zlen (concat (take i pend))) pend ++
        [zlen (concat pend)]) = pend) as -> by exact (split_keys_starts [] pend).
      f_equal. by destruct pend.
    + by rewrite offsets_snoc, H3, H4.
Qed.

Lemma filter_rep_length b gen pend : filter_rep b gen pend → zlen (filter_offsets_ b) = zlen gen.
Proof. intros [_ _ _ ->]. unfold zlen. by rewrite length_imap. Qed.

(** [StartBlock] makes filters until there is one for every earlier range. *)
Lemma StartBlock_rep off b gen pend :
  filter_rep b gen pend → zlen gen ≤ off / kFilterBase →
  filter_rep (StartBlock off b)
    (if decide (zlen gen = off / kFilterBase) then gen
     else gen ++ pend :: replicate (Z.to_nat (off / kFilterBase - zlen gen - 1)) [])
    (if decide (zlen gen = off / kFilterBase) then pend else []).
Proof.
  intros HR Hle. unfold StartBlock. cbn zeta. rewrite (filter_rep_length b gen pend HR).
  set (idx := off / kFilterBase) in *. clearbody idx. clear off.
  assert (∀ n b gen pend, filter_rep b gen pend → idx - zlen gen = Z.of_nat n →
    filter_rep (while_loop n (λ b, bool_decide (idx > zlen (filter_offsets_ b))) GenerateFilter b)
      (match n with O => gen | S n => gen ++ pend :: replicate n [] end)
      (match n with O => pend | S _ => [] end)) as Hloop.
  { intros n. induction n as [|n IH]; intros b' gen' pend' HR' Hn; [done|]. cbn [while_loop].
    rewrite bool_decide_true by (rewrite (filter_rep_length _ _ _ HR'); lia).
    pose proof (GenerateFilter_rep _ _ _ HR') as HR1.
    specialize (IH _ _ _ HR1 ltac:(rewrite zlen_app; change (zlen [pend']) with 1; lia)).
    destruct n as [|n]; [exact IH|]. by rewrite <- app_assoc in IH. }
  specialize (Hloop (Z.to_nat (idx - zlen gen)) b gen pend HR ltac:(lia)).
  case_decide as Heq.
  - replace (Z.to_nat (idx - zlen gen)) with 0%nat in * by lia. exact Hloop.
  - replace (Z.to_nat (idx - zlen gen)) with (S (Z.to_nat (idx - zlen gen - 1))) in * by lia. exact Hloop.
Qed.

(** ** The finished block *)

Definition filter_image (gen : list (list bytes)) : bytes :=
  filters_bytes gen ++
  fixed32_array (imap (λ i _, filters_offset gen i) gen ++ [zlen (filters_bytes gen)]) ++
  [b8 kFilterBaseLg].

Definition all_filters (gen : list (list bytes)) (pend : list bytes) : list (list bytes) :=
  match pend with [] => gen | _ => gen ++ [pend] end.

Lemma filters_offset_le gen i : filters_offset gen i ≤ zlen (filters_bytes gen).
Proof.
  unfold filters_offset. rewrite <- (take_drop i gen) at 2. unfold filters_bytes.
  rewrite fmap_app, concat_app, zlen_app. pose proof (zlen_nonneg (concat (filter_of <$> drop i gen))). lia.
Qed.

(** The last filter, if there are keys left. *)
Lemma Finish_flush_rep b gen pend :
  filter_rep b gen pend → ∃ b' q, match start_ b with [] => b | _ => GenerateFilter b end = b' ∧
    filter_rep b' (all_filters gen pend) q.
Proof.
  intros HR. pose proof (frep_start _ _ _ HR) as Hst. destruct pend as [|k pend].
  - cbn in Hst. rewrite Hst. cbn. by exists b, [].
  - rewrite imap_cons in Hst. rewrite Hst. eexists _, []. split; [done|]. by apply GenerateFilter_rep.
Qed.

Lemma filter_Finish_rep b gen pend :
  filter_rep b gen pend → zlen (filter_Finish b) < 2 ^ 32 →
  filter_Finish b = filter_image (all_filters gen pend).
Proof.
  intros HR. unfold filter_Finish.
  destruct (Finish_flush_rep b gen pend HR) as (b' & q & -> & HR'). set (all := all_filters gen pend) in *.
  rewrite (frep_result _ _ _ HR'), (frep_offsets _ _ _ HR'). intros Hlen.
  assert (zlen (filters_bytes all) < 2 ^ 32).
  { unfold PutFixed32 in Hlen at 1. rewrite foldl_PutFixed32 in Hlen. zsolve. }
  clear Hlen. zlen_facts.
  rewrite (wrap_small 32 (zlen _)) by (unfold in_w; lia).
  rewrite (imap_ext _ (λ i _, filters_offset all i)).
  2:{ intros i x _. apply wrap_small. pose proof (filters_offset_le all i).
      unfold filters_offset in *. zlen_facts. unfold in_w. lia. }
  rewrite foldl_PutFixed32. unfold PutFixed32, filter_image. rewrite fixed32_array_app, <- !app_assoc.
  done.
Qed.

(** ** Reading it *)

Lemma filter_image_reader char_signed gen :
  zlen (filter_image gen) < 2 ^ 32 →
  new_FilterBlockReader char_signed (filter_image gen) =
    {| data_ := filter_image gen; offset_ := zlen (filters_bytes gen); num_ := zlen gen;
       base_lg_ := kFilterBaseLg |}.
Proof.
  intros Hlen. set (offs := imap (λ i _, filters_offset gen i) gen).
  assert (zlen offs = zlen gen) as Hoffs by (unfold offs, zlen; by rewrite length_imap).
  assert (zlen (filter_image gen) = zlen (filters_bytes gen) + 4 * zlen gen + 5) as Hz.
  { unfold filter_image. fold offs. rewrite !zlen_app, zlen_fixed32_array, zlen_app, Hoffs.
    change (zlen [_]) with 1. change (zlen [b8 kFilterBaseLg]) with 1. lia. }
  unfold new_FilterBlockReader. zlen_facts. rewrite Hz, decide_False by lia.
  assert (filter_image gen = (filters_bytes gen ++ fixed32_array offs) ++
    fixed32_array [zlen (filters_bytes gen)] ++ [b8 kFilterBaseLg]) as E.
  { unfold filter_image. fold offs. by rewrite fixed32_array_app, <- !app_assoc. }
  assert (zlen (filters_bytes gen ++ fixed32_array offs) = zlen (filters_bytes gen) + 4 * zlen gen) as Hp
    by by rewrite zlen_app, zlen_fixed32_array, Hoffs.
  assert (DecodeFixed32 (zdrop (zlen (filters_bytes gen) + 4 * zlen gen + 5 - 5) (filter_image gen)) =
    zlen (filters_bytes gen)) as ->.
  { rewrite E, zdrop_app_n by lia. apply (fixed32_array_lookup _ 0); [done|unfold in_w; lia]. }
  rewrite decide_False by lia.
  assert (zget (filter_image gen) (zlen (filters_bytes gen) + 4 * zlen gen + 5 - 1) = b8 kFilterBaseLg) as ->.
  { rewrite E, app_assoc, zget_app_r; rewrite zlen_app, Hp; change (zlen (fixed32_array [_])) with 4; [|lia].
    by replace (_ - _) with 0 by lia. }
  f_equal.
  - replace (_ - _) with (zlen gen * 4) by lia. by apply Z.div_mul.
  - by destruct char_signed.
Qed.

(** A key is never missed by the filter of its block. *)
Lemma filter_image_match char_signed gen off keys key :
  zlen (filter_image gen) < 2 ^ 32 → 0 ≤ off → gen !! Z.to_nat (off / kFilterBase) = Some keys →
  filter_dom keys → key ∈ keys →
  filter_KeyMayMatch (new_FilterBlockReader char_signed (filter_image gen)) off key = Some true.
Proof.
  intros Hlen Hoff Hg Hdom Hin. rewrite filter_image_reader by done. unfold filter_KeyMayMatch.
  cbn [base_lg_ num_ offset_ data_]. rewrite decide_False by (unfold kFilterBaseLg; lia).
  cbn zeta. rewrite Z.shiftr_div_pow2 by (unfold kFilterBaseLg; lia). change (2 ^ kFilterBaseLg) with kFilterBase.
  set (i := Z.to_nat (off / kFilterBase)) in *.
  assert (off / kFilterBase = Z.of_nat i) as ->.
  { unfold i. pose proof (Z.div_pos off kFilterBase Hoff eq_refl). lia. }
  clearbody i. pose proof (lookup_lt_Some _ _ _ Hg) as Hi. rewrite decide_True by (unfold zlen; lia).
  set (offs := imap (λ i _, filters_offset gen i) gen ++ [zlen (filters_bytes gen)]).
  assert (Hfb : zlen (filters_bytes gen) < 2 ^ 32) by (unfold filter_image in Hlen; zsolve).
  assert (Hoffs : ∀ j, (j ≤ length gen)%nat → offs !! j = Some (filters_offset gen j)).
  { intros j Hj. unfold offs. destruct (decide (j = length gen)) as [->|].
    - rewrite lookup_app_r by by rewrite length_imap. rewrite length_imap, Nat.sub_diag.
      unfold filters_offset. by rewrite firstn_all.
    - rewrite lookup_app_l by (rewrite length_imap; lia). rewrite list_lookup_imap.
      destruct (lookup_lt_is_Some_2 gen j ltac:(lia)) as [x ->]. done. }
  assert (Hdec : ∀ j, (j ≤ length gen)%nat →
    DecodeFixed32 (zdrop (zlen (filters_bytes gen) + Z.of_nat j * 4) (filter_image gen)) = filters_offset gen j).
  { intros j Hj. unfold filter_image. fold offs. zlen_facts. rewrite zdrop_app_ge by lia.
    replace (_ - _) with (4 * Z.of_nat j) by lia. apply fixed32_array_lookup; [by apply Hoffs|].
    pose proof (filters_offset_le gen j). unfold filters_offset in *. zlen_facts. unfold in_w. lia. }
  rewrite Hdec by lia. replace (_ + Z.of_nat i * 4 + 4) with (zlen (filters_bytes gen) + Z.of_nat (S i) * 4) by lia.
  rewrite Hdec by lia.
  assert (Hf : filters_bytes gen = filters_bytes (take i gen) ++ filter_of keys ++ filters_bytes (drop (S i) gen)).
  { rewrite <- (take_drop_middle _ _ _ Hg) at 1. unfold filters_bytes. by rewrite fmap_app, concat_app. }
  assert (HS : filters_offset gen (S i) = filters_offset gen i + zlen (filter_of keys)).
  { unfold filters_offset. rewrite (take_S_r _ _ _ Hg), filters_bytes_snoc. by rewrite zlen_app. }
  pose proof (filters_offset_le gen (S i)). zlen_facts. rewrite decide_True by lia. f_equal.
  assert (ztake (filters_offset gen (S i) - filters_offset gen i) (zdrop (filters_offset gen i) (filter_image gen)) =
    filter_of keys) as ->.
  { unfold filter_image. rewrite Hf, <- !app_assoc. rewrite (zdrop_app_n (filters_offset gen i)) by done.
    apply ztake_app_n. lia. }
  destruct keys as [|k keys]; [by apply elem_of_nil in Hin|]. by apply (CreateFilter_match (k :: keys)).
Qed.
End FilterBlocks.

(** ** No false negatives *)

(** The calls of the table builder: [StartBlock], then the keys of the block. *)
Definition AddBlock {P : FilterPolicy} (b : FilterBlockBuilder) (block : Z * list bytes) : FilterBlockBuilder :=
  foldl (λ b k, AddKey k b) (StartBlock block.1 b) block.2.

Section NoFalseNegatives.
Context {P : FilterPolicy} {filter_dom : list bytes → Prop} {FL : FilterPolicyLaws P filter_dom}.

(** Every key of a block is in the filter of the block's offset, or waits to be;
    the filters have the keys in the order they were added. *)
Definition blocks_rep (blocks : list (Z * list bytes)) (b : FilterBlockBuilder) : Prop :=
  ∃ gen pend, filter_rep b gen pend ∧ concat (gen ++ [pend]) = concat blocks.*2 ∧
    (∀ off keys k, (off, keys) ∈ blocks → k ∈ keys →
       ∃ fk, (gen ++ [pend]) !! Z.to_nat (off / kFilterBase) = Some fk ∧ k ∈ fk) ∧
    match list.last blocks with Some b => zlen gen = b.1 / kFilterBase | None => gen = [] end.

Lemma foldl_AddKey_rep ks b gen pend :
  filter_rep b gen pend → filter_rep (foldl (λ b k, AddKey k b) b ks) gen (pend ++ ks).
Proof.
  revert b pend. induction ks as [|k ks IH]; intros b pend HR; cbn [foldl]; [by rewrite app_nil_r|].
  rewrite (cons_middle k pend ks), app_assoc. apply IH. by apply AddKey_rep.
Qed.

Lemma new_FilterBlockBuilder_blocks : blocks_rep [] new_FilterBlockBuilder.
Proof. exists [], []. splits; [apply new_FilterBlockBuilder_rep|done| |done]. by intros ??? ?%elem_of_nil. Qed.

Lemma AddBlock_rep blocks b off keys :
  blocks_rep blocks b → 0 ≤ off →
  match list.last blocks with Some b => b.1 ≤ off | None => True end →
  blocks_rep (blocks ++ [(off, keys)]) (AddBlock b (off, keys)).
Proof.
  intros (gen & pend & HR & Hcat & Hin & Hlast) Hoff Hmono. unfold AddBlock. cbn [fst snd].
  assert (Hle : zlen gen ≤ off / kFilterBase).
  { destruct (list.last blocks) as [b'|].
    - rewrite Hlast. apply Z.div_le_mono; [done|lia].
    - rewrite Hlast. apply Z.div_pos; [done|by vm_compute]. }
  pose proof (StartBlock_rep off b gen pend HR Hle) as HR'. apply (foldl_AddKey_rep keys) in HR'.
  eexists _, _. split; [exact HR'|]. clear HR HR'. rewrite last_snoc, fmap_app, (concat_app blocks.*2), <- Hcat.
  cbn [fst snd fmap list_fmap concat]. rewrite app_nil_r.
  case_decide as Heq; (split; [|split; [|try done]]).
  - rewrite !concat_app. cbn. by rewrite !app_nil_r, app_assoc.
  - intros o ks k [Ho|E%list_elem_of_singleton]%elem_of_app Hk.
    + destruct (Hin o ks k Ho Hk) as (fk & Hfk & Hk').
      apply lookup_snoc_Some in Hfk as [[Hlt Hfk]|[-> <-]].
      * exists fk. split; [|done]. by rewrite lookup_app_l by lia.
      * exists (pend ++ keys). rewrite lookup_app_r, Nat.sub_diag by lia. split; [done|]. apply elem_of_app; auto.
    + injection E as -> ->. exists (pend ++ keys).
      assert (Z.to_nat (off / kFilterBase) = length gen) as -> by (unfold zlen in Heq; lia).
      rewrite lookup_app_r, Nat.sub_diag by lia. split; [done|]. apply elem_of_app; auto.
  - set (n := Z.to_nat _). assert (concat (replicate n (@nil bytes)) = []) as Hr by (induction n as [|n IH]; [done|exact IH]).
    rewrite !concat_app. cbn. by rewrite Hr, !app_nil_r.
  - set (n := Z.to_nat (_ - 1)).
    assert ((gen ++ pend :: replicate n []) ++ [[] ++ keys] = (gen ++ [pend]) ++ replicate n [] ++ [keys]) as ->
      by by rewrite <- !app_assoc.
    intros o ks k [Ho|E%list_elem_of_singleton]%elem_of_app Hk.
    + destruct (Hin o ks k Ho Hk) as (fk & Hfk & Hk'). exists fk. split; [|done].
      rewrite lookup_app_l; [done|]. by eapply lookup_lt_Some.
    + injection E as -> ->. exists keys. split; [|done]. unfold zlen in *.
      assert (Z.to_nat (off / kFilterBase) = (length (gen ++ [pend]) + n)%nat) as ->
        by (rewrite length_app; cbn; lia).
      rewrite lookup_app_r by lia.
      rewrite lookup_app_r; rewrite length_replicate; [|lia]. by replace (_ - _)%nat with 0%nat by lia.
  - set (n := Z.to_nat _). unfold zlen in *. rewrite length_app. cbn [length]. rewrite length_replicate. lia.
Qed.

(** The finished filter block of these blocks. *)
Lemma blocks_rep_match char_signed blocks b off keys key :
  blocks_rep blocks b → (∀ ks, ks `sublist_of` concat blocks.*2 → filter_dom ks) →
  zlen (filter_Finish b) < 2 ^ 32 → (off, keys) ∈ blocks → 0 ≤ off → key ∈ keys →
  filter_KeyMayMatch (new_FilterBlockReader char_signed (filter_Finish b)) off key = Some true.
Proof.
  intros (gen & pend & HR & Hcat & Hin & _) Hdom Hlen Hb Hoff Hk.
  destruct (Hin off keys key Hb Hk) as (fk & Hfk & Hkf).
  pose proof (filter_Finish_rep b gen pend HR Hlen) as Hfin. rewrite Hfin in Hlen |- *.
  assert (Hall : all_filters gen pend !! Z.to_nat (off / kFilterBase) = Some fk).
  { unfold all_filters. destruct pend as [|p pend]; [|done].
    apply lookup_snoc_Some in Hfk as [[_ Hfk]|[_ <-]]; [done|by apply elem_of_nil in Hkf]. }
  apply (filter_image_match (filter_dom := filter_dom) _ _ _ fk); [done|done|done| |done].
  apply Hdom. rewrite <- Hcat, <- (take_drop_middle _ _ _ Hfk), !concat_app. cbn [concat].
  apply sublist_inserts_l, sublist_inserts_r. done.
Qed.

(** The reader of a finished block never shifts too far. *)
Lemma blocks_rep_defined char_signed blocks b off key :
  blocks_rep blocks b → zlen (filter_Finish b) < 2 ^ 32 →
  ∃ m, filter_KeyMayMatch (new_FilterBlockReader char_signed (filter_Finish b)) off key = Some m.
Proof.
  intros (gen & pend & HR & _) Hlen. pose proof (filter_Finish_rep b gen pend HR Hlen) as Hfin.
  rewrite Hfin in Hlen |- *. rewrite filter_image_reader by done. unfold filter_KeyMayMatch. cbn [base_lg_].
  rewrite decide_False by (unfold kFilterBaseLg; lia). cbn zeta. repeat case_decide; eauto.
Qed.

Definition AddBlocks (blocks : list (Z * list bytes)) : FilterBlockBuilder :=
  foldl AddBlock new_FilterBlockBuilder blocks.

Lemma AddBlocks_rep blocks :
  StronglySorted (λ a b, a.1 ≤ b.1) blocks → Forall (λ b, 0 ≤ b.1) blocks →
  blocks_rep blocks (AddBlocks blocks).
Proof.
  unfold AddBlocks. induction blocks as [|[off keys] blocks IH] using rev_ind; intros Hs Hpos.
  - apply new_FilterBlockBuilder_blocks.
  - apply sorted_app in Hs as (Hs & _ & Hle). apply list.Forall_app in Hpos as [Hpos [Hoff _]%list.Forall_cons].
    rewrite foldl_app. cbn [foldl]. apply AddBlock_rep; [by apply IH|done|].
    destruct (list.last blocks) as [b|] eqn:Eb; [|done]. apply (Hle b (off, keys)); [|by left].
    by apply last_Some_elem_of.
Qed.

(** The size of a filter block, for a policy that takes [a] bytes a key. *)
Lemma zlen_filter_Finish b gen pend :
  filter_rep b gen pend →
  zlen (filter_Finish b) = zlen (filters_bytes (all_filters gen pend)) + 4 * zlen (all_filters gen pend) + 5.
Proof.
  intros HR. unfold filter_Finish.
  destruct (Finish_flush_rep b gen pend HR) as (b' & q & -> & HR'). unfold PutFixed32 at 1. rewrite foldl_PutFixed32.
  rewrite !zlen_app, zlen_fixed32_array, (filter_rep_length _ _ _ HR'), zlen_EncodeFixed32, (frep_result _ _ _ HR').
  change (zlen [_]) with 1. lia.
Qed.

Lemma zlen_filters_bytes a gen :
  (∀ keys, keys ≠ [] → zlen (CreateFilter keys []) ≤ a * zlen keys) →
  zlen (filters_bytes gen) ≤ a * zlen (concat gen).
Proof.
  intros Ha. unfold filters_bytes. induction gen as [|keys gen IH]; [cbn; change (zlen []) with 0; lia|].
  cbn. rewrite !zlen_app. assert (zlen (filter_of keys) ≤ a * zlen keys); [|lia].
  unfold filter_of. destruct keys; [change (zlen []) with 0; lia|by apply Ha].
Qed.

Lemma filter_Finish_size a off blocks :
  StronglySorted (λ a b, a.1 ≤ b.1) blocks → Forall (λ b, 0 ≤ b.1 ≤ off) blocks → 0 ≤ off →
  (∀ keys, keys ≠ [] → zlen (CreateFilter keys []) ≤ a * zlen keys) →
  zlen (filter_Finish (AddBlocks blocks)) ≤ a * zlen (concat blocks.*2) + 4 * (off / kFilterBase + 1) + 5.
Proof.
  intros Hs Hoff H0 Ha. destruct (AddBlocks_rep blocks Hs) as (gen & pend & HR & Hcat & _ & Hlast).
  { eapply Forall_impl; [|exact Hoff]. cbn. lia. }
  rewrite (zlen_filter_Finish _ gen pend HR).
  assert (concat (all_filters gen pend) = concat blocks.*2) as <-.
  { rewrite <- Hcat. unfold all_filters. destruct pend; [|done]. rewrite concat_app. cbn. by rewrite app_nil_r. }
  pose proof (zlen_filters_bytes a (all_filters gen pend) Ha).
  assert (zlen (all_filters gen pend) ≤ zlen gen + 1).
  { unfold all_filters. destruct pend; [lia|]. rewrite zlen_app. change (zlen [_]) with 1. lia. }
  assert (zlen gen ≤ off / kFilterBase); [|lia].
  destruct (list.last blocks) as [b|] eqn:El.
  - rewrite Hlast. apply Z.div_le_mono; [done|]. rewrite list.Forall_forall in Hoff.
    apply Hoff. by apply last_Some_elem_of.
  - rewrite Hlast. apply Z.div_pos; [done|by vm_compute].
Qed.

(** C21: a filter block has no false negatives: whatever the offsets at which
    blocks start, and with any policy that has none, the reader of the finished
    block matches every key at the offset of the block it was added to. *)
Theorem FilterBlock_no_false_negative char_signed blocks off keys key :
  StronglySorted (λ a b, a.1 ≤ b.1) blocks → Forall (λ b, 0 ≤ b.1) blocks →
  (∀ ks, ks `sublist_of` concat blocks.*2 → filter_dom ks) →
  zlen (filter_Finish (AddBlocks blocks)) < 2 ^ 32 → (off, keys) ∈ blocks → key ∈ keys →
  filter_KeyMayMatch (new_FilterBlockReader char_signed (filter_Finish (AddBlocks blocks))) off key = Some true.
Proof.
  intros Hs Hpos Hdom Hlen Hb Hk. eapply blocks_rep_match; try done; [by apply AddBlocks_rep|].
  rewrite list.Forall_forall in Hpos. by apply (Hpos (off, keys)).
Qed.
End NoFalseNegatives.

Example FilterBlock_no_false_negative_witness :
  let blocks := [(0, [str "a"; str "b"]); (3000, [str "c"]); (9000, [str "d"])] in
  filter_KeyMayMatch (policy_ := NewBloomFilterPolicy true 10)
    (new_FilterBlockReader true (filter_Finish (policy_ := NewBloomFilterPolicy true 10)
       (AddBlocks (P := NewBloomFilterPolicy true 10) blocks))) 3000 (str "c") = Some true.
Proof.
  apply (FilterBlock_no_false_negative (FL := NewBloomFilterPolicy_laws true 10) _ _ _ [str "c"]).
  - repeat constructor; cbn; lia.
  - repeat constructor; cbn; lia.
  - intros ks Hks%sublist_length. cbn in Hks. unfold bloom_dom, zlen. change (bits_per_key_ _) with 10.
    rewrite wrap_small by word_solve. word_solve.
  - by vm_compute.
  - right. left.
  - left.
Defined.

(** The last byte of the contents is used as a shift without a check. *)
Example filter_shift_overflow :
  filter_KeyMayMatch (policy_ := NewBloomFilterPolicy true 10)
    (new_FilterBlockReader true [x00; x00; x00; x00; x40]) 0 (str "key") = None.
Proof. vm_compute. reflexivity. Qed.
