(* ===== verification/TwoLevelIterator.v ===== *)
(** The two-level iterator of [table/two_level_iterator.cc]: an iterator over
    an index whose values name blocks, and one over the block it is at.

    [block_function] makes the iterator of a block. The entries of the index
    may name empty blocks; the iterator skips them. *)
From Stdlib Require Import Sorting.Sorted.
From S2P Require Import Prelude SortedLists Status Comparator Iterator.

Section TwoLevel.
Context {I J : Type} {II : Iterator I} {IJ : Iterator J}.
Context (block_function_ : bytes → option J).
(** A bound on the entries of the index. *)
Context (fuel : nat).

Record TwoLevelIterator := {
  tl_status_ : Status;
  index_iter_ : IteratorWrapper I;
  data_iter_ : IteratorWrapper J;
  data_block_handle_ : bytes;
}.

Definition NewTwoLevelIterator (index_iter : I) : option TwoLevelIterator :=
  w ← wrapper_Set new_IteratorWrapper (Some index_iter);
  Some {| tl_status_ := Status_OK; index_iter_ := w; data_iter_ := new_IteratorWrapper;
          data_block_handle_ := [] |}.

Definition SaveError (s : Status) (status : Status) : Status :=
  if ok status && negb (ok s) then s else status.

Definition SetDataIterator (data_iter : option J) (handle : bytes) (it : TwoLevelIterator)
    : option TwoLevelIterator :=
  let status := match iter_ (data_iter_ it) with
                | Some _ => SaveError (it_status (data_iter_ it)) (tl_status_ it)
                | None => tl_status_ it
                end in
  w ← wrapper_Set (data_iter_ it) data_iter;
  Some {| tl_status_ := status; index_iter_ := index_iter_ it; data_iter_ := w;
          data_block_handle_ := handle |}.

Definition set_index (it : TwoLevelIterator) (w : IteratorWrapper I) : TwoLevelIterator :=
  {| tl_status_ := tl_status_ it; index_iter_ := w; data_iter_ := data_iter_ it;
     data_block_handle_ := data_block_handle_ it |}.

Definition set_data (it : TwoLevelIterator) (w : IteratorWrapper J) : TwoLevelIterator :=
  {| tl_status_ := tl_status_ it; index_iter_ := index_iter_ it; data_iter_ := w;
     data_block_handle_ := data_block_handle_ it |}.

Definition InitDataBlock (it : TwoLevelIterator) : option TwoLevelIterator :=
  if negb (it_Valid (index_iter_ it)) then SetDataIterator None (data_block_handle_ it) it
  else
    handle ← it_value (index_iter_ it);
    if bool_decide (is_Some (iter_ (data_iter_ it))) &&
       bool_decide (Slice_compare handle (data_block_handle_ it) = 0)
    then Some it
    else iter ← block_function_ handle; SetDataIterator (Some iter) handle it.

(** [if (data_iter_.iter() != NULL) data_iter_.f()] *)
Definition move_data (f : IteratorWrapper J → option (IteratorWrapper J)) (it : TwoLevelIterator)
    : option TwoLevelIterator :=
  match iter_ (data_iter_ it) with
  | Some _ => w ← f (data_iter_ it); Some (set_data it w)
  | None => Some it
  end.

(** [while (data_iter_.iter() == NULL || !data_iter_.Valid())]: the index moves
    by [next], the data iterator of its new block by [start]. *)
Fixpoint skip_blocks (next : IteratorWrapper I → option (IteratorWrapper I))
    (start : IteratorWrapper J → option (IteratorWrapper J)) (fuel : nat) (it : TwoLevelIterator)
    : option TwoLevelIterator :=
  match fuel with
  | O => None
  | S fuel =>
      if negb (bool_decide (is_Some (iter_ (data_iter_ it)))) || negb (it_Valid (data_iter_ it)) then
        if negb (it_Valid (index_iter_ it)) then SetDataIterator None (data_block_handle_ it) it
        else
          w ← next (index_iter_ it);
          it ← InitDataBlock (set_index it w);
          it ← move_data start it;
          skip_blocks next start fuel it
      else Some it
  end.

Definition SkipEmptyDataBlocksForward := skip_blocks it_Next it_SeekToFirst fuel.
Definition SkipEmptyDataBlocksBackward := skip_blocks it_Prev it_SeekToLast fuel.

Definition tl_Seek (target : bytes) (it : TwoLevelIterator) : option TwoLevelIterator :=
  w ← it_Seek target (index_iter_ it);
  it ← InitDataBlock (set_index it w);
  it ← move_data (it_Seek target) it;
  SkipEmptyDataBlocksForward it.

Definition tl_SeekToFirst (it : TwoLevelIterator) : option TwoLevelIterator :=
  w ← it_SeekToFirst (index_iter_ it);
  it ← InitDataBlock (set_index it w);
  it ← move_data it_SeekToFirst it;
  SkipEmptyDataBlocksForward it.

Definition tl_SeekToLast (it : TwoLevelIterator) : option TwoLevelIterator :=
  w ← it_SeekToLast (index_iter_ it);
  it ← InitDataBlock (set_index it w);
  it ← move_data it_SeekToLast it;
  SkipEmptyDataBlocksBackward it.

Definition tl_Next (it : TwoLevelIterator) : option TwoLevelIterator :=
  w ← it_Next (data_iter_ it); SkipEmptyDataBlocksForward (set_data it w).

Definition tl_Prev (it : TwoLevelIterator) : option TwoLevelIterator :=
  w ← it_Prev (data_iter_ it); SkipEmptyDataBlocksBackward (set_data it w).

Definition tl_status (it : TwoLevelIterator) : Status :=
  if negb (ok (it_status (index_iter_ it))) then it_status (index_iter_ it)
  else if bool_decide (is_Some (iter_ (data_iter_ it))) && negb (ok (it_status (data_iter_ it))) then
    it_status (data_iter_ it)
  else tl_status_ it.

Definition TwoLevelIterator_Iterator : Iterator TwoLevelIterator := {|
  it_Valid it := it_Valid (data_iter_ it);
  it_SeekToFirst := tl_SeekToFirst;
  it_SeekToLast := tl_SeekToLast;
  it_Seek := tl_Seek;
  it_Next it := if it_Valid (data_iter_ it) then tl_Next it else None;
  it_Prev it := if it_Valid (data_iter_ it) then tl_Prev it else None;
  it_key it := if it_Valid (data_iter_ it) then it_key (data_iter_ it) else None;
  it_value it := if it_Valid (data_iter_ it) then it_value (data_iter_ it) else None;
  it_status := tl_status;
|}.
End TwoLevel.
Arguments TwoLevelIterator I J : clear implicits.

(** ** Concatenated blocks *)

Section Flat.
Context {C : Comparator} {V : bytes → Prop} {CL : ComparatorLaws C V}.
(** The entries of the index, and those of the block that a value names. *)
Context (idx : list entry) (esof : bytes → list entry).

Definition flat : list entry := concat ((λ e, esof e.2) <$> idx).
Definition flat_offset (i : nat) : nat := length (concat ((λ e, esof e.2) <$> take i idx)).

(** The key of an index entry is not before the keys of its block and before
    those of the later blocks. *)
Record index_ok : Prop := {
  index_sorted : StronglySorted entry_lt idx;
  index_valid : Forall (λ e, V e.1) idx;
  index_blocks i e : idx !! i = Some e → StronglySorted entry_lt (esof e.2) ∧ Forall (λ e, V e.1) (esof e.2);
  index_upper i e x : idx !! i = Some e → x ∈ esof e.2 → Compare x.1 e.1 ≤ 0;
  index_lower i j e e' x : idx !! i = Some e → idx !! j = Some e' → (i < j)%nat → x ∈ esof e'.2 →
    Compare e.1 x.1 < 0;
}.

Lemma flat_offset_S i e : idx !! i = Some e → flat_offset (S i) = (flat_offset i + length (esof e.2))%nat.
Proof.
  intros He. unfold flat_offset. rewrite (take_S_r _ _ _ He), fmap_app, concat_app, length_app. cbn.
  by rewrite app_nil_r.
Qed.

Lemma flat_split i e :
  idx !! i = Some e →
  flat = concat ((λ e, esof e.2) <$> take i idx) ++ esof e.2 ++ concat ((λ e, esof e.2) <$> drop (S i) idx).
Proof. intros He. unfold flat. rewrite <- (take_drop_middle _ _ _ He) at 1. by rewrite fmap_app, concat_app. Qed.

Lemma flat_lookup i e j x :
  idx !! i = Some e → esof e.2 !! j = Some x → flat !! (flat_offset i + j)%nat = Some x.
Proof.
  intros He Hx. rewrite (flat_split i e He), lookup_app_r by (unfold flat_offset; lia).
  unfold flat_offset. rewrite Nat.add_comm, Nat.add_sub. rewrite lookup_app_l; [done|].
  by eapply lookup_lt_Some.
Qed.

Lemma flat_offset_end i : (length idx ≤ i)%nat → flat_offset i = length flat.
Proof. intros. unfold flat_offset. by rewrite take_ge. Qed.

Lemma flat_offset_le i : (flat_offset i ≤ length flat)%nat.
Proof.
  unfold flat, flat_offset. rewrite <- (take_drop i idx) at 2. rewrite fmap_app, concat_app, length_app. lia.
Qed.

Lemma elem_of_flat_take n x :
  x ∈ concat ((λ e, esof e.2) <$> take n idx) → ∃ i e, (i < n)%nat ∧ idx !! i = Some e ∧ x ∈ esof e.2.
Proof.
  intros (l & Hx & (e & -> & [i He]%list_elem_of_lookup)%list_elem_of_fmap)%elem_of_concat.
  exists i, e. pose proof (lookup_lt_Some _ _ _ He) as Hi. rewrite length_take in Hi.
  rewrite lookup_take_lt in He by lia. split; [lia|done].
Qed.

Lemma elem_of_flat_drop n x :
  x ∈ concat ((λ e, esof e.2) <$> drop n idx) → ∃ i e, (n ≤ i)%nat ∧ idx !! i = Some e ∧ x ∈ esof e.2.
Proof.
  intros (l & Hx & (e & -> & [i He]%list_elem_of_lookup)%list_elem_of_fmap)%elem_of_concat.
  rewrite lookup_drop in He. exists (n + i)%nat, e. split; [lia|done].
Qed.

Context (IO : index_ok).

Lemma flat_sorted : StronglySorted entry_lt flat ∧ Forall (λ e, V e.1) flat.
Proof.
  split.
  - unfold flat. pose proof IO as [_ HV Hb Hu Hl]. clear IO.
    assert (∀ n, (n ≤ length idx)%nat → StronglySorted entry_lt (concat ((λ e, esof e.2) <$> take n idx))) as Hn.
    { induction n as [|n IH]; intros Hn; [constructor|].
      destruct (lookup_lt_is_Some_2 idx n ltac:(lia)) as [e He].
      rewrite (take_S_r _ _ _ He), fmap_app, concat_app. cbn. rewrite app_nil_r.
      apply sorted_app. splits; [apply IH; lia|by eapply Hb|].
      intros x y (i & e' & Hi & He' & Hx)%elem_of_flat_take Hy. unfold entry_lt.
      destruct (Hb _ _ He') as [_ Vx]. destruct (Hb _ _ He) as [_ Vy].
      rewrite list.Forall_forall in Vx, Vy, HV.
      eapply Compare_le_lt_trans; [by apply Vx|apply HV; by eapply list_elem_of_lookup_2|by apply Vy| |];
        [by eapply Hu|by eapply (Hl i n)]. }
    specialize (Hn (length idx) ltac:(lia)). by rewrite firstn_all in Hn.
  - apply list.Forall_forall. intros x Hx. unfold flat in Hx. rewrite <- (firstn_all idx) in Hx.
    apply elem_of_flat_take in Hx as (i & e & _ & He & Hx).
    destruct (index_blocks IO i e He) as [_ HV]. rewrite list.Forall_forall in HV. by apply HV.
Qed.

(** The entries before a key, in terms of the block that the index names. *)
Lemma flat_before i e k :
  idx !! i = Some e → V k → ¬ Compare e.1 k < 0 →
  (∀ j e', (j < i)%nat → idx !! j = Some e' → Compare e'.1 k < 0) →
  length (entries_before flat k) = (flat_offset i + length (entries_before (esof e.2) k))%nat.
Proof.
  intros He Vk Hge Hlt. pose proof IO as [_ HV Hb Hu Hl]. rewrite list.Forall_forall in HV.
  pose proof (λ i e (H : idx !! i = Some e), HV e (list_elem_of_lookup_2 _ _ _ H)) as Vi.
  assert (Vx : ∀ i e x, idx !! i = Some e → x ∈ esof e.2 → V x.1).
  { intros i' e' x He' Hx. destruct (Hb i' e' He') as [_ H]. rewrite list.Forall_forall in H. by apply H. }
  unfold entries_before. rewrite (flat_split i e He), !list.filter_app, !length_app.
  rewrite filter_all, (filter_none _ (concat _)); [unfold flat_offset; cbn; lia|..];
    apply list.Forall_forall; intros x Hx.
  - apply elem_of_flat_drop in Hx as (j & e' & Hj & He' & Hx).
    rewrite Compare_nlt in Hge |- * by eauto. specialize (Hl i j e e' x He He' ltac:(lia) Hx).
    eapply Compare_le_trans; [done| |by eapply Vx|exact Hge|lia]. eauto.
  - apply elem_of_flat_take in Hx as (j & e' & Hj & He' & Hx).
    eapply Compare_le_lt_trans; [by eapply Vx|by eapply (Vi j)|done|by eapply Hu|by eapply Hlt].
Qed.

Lemma flat_before_all k :
  V k → (∀ e, e ∈ idx → Compare e.1 k < 0) → length (entries_before flat k) = length flat.
Proof.
  intros Vk Hlt. unfold entries_before. rewrite filter_all; [done|]. apply list.Forall_forall. intros x Hx.
  pose proof IO as [_ HV Hb Hu _]. rewrite list.Forall_forall in HV.
  unfold flat in Hx. rewrite <- (firstn_all idx) in Hx. apply elem_of_flat_take in Hx as (j & e' & _ & He' & Hx).
  pose proof (list_elem_of_lookup_2 _ _ _ He') as Hin.
  destruct (Hb j e' He') as [_ Vx]. rewrite list.Forall_forall in Vx.
  eapply Compare_le_lt_trans; [by apply Vx|by eapply HV|done|by eapply Hu|by eapply Hlt].
Qed.
End Flat.

(** ** The contract *)

Section Laws.
Context {I J : Type} {II : Iterator I} {IJ : Iterator J} {C : Comparator} {V : bytes → Prop}.
Context {CL : ComparatorLaws C V}.
Context {rel1 : I → list entry → option nat → Prop} {IL : IteratorLaws I V rel1}.
Context {rel2 : J → list entry → option nat → Prop} {JL : IteratorLaws J V rel2}.
Context {block_function : bytes → option J} {fuel : nat}.

(** The blocks that [block_function] opens are those of the index. *)
Record blocks_ok (idx : list entry) (esof : bytes → list entry) : Prop := {
  blocks_index : index_ok (V := V) idx esof;
  blocks_fuel : (length idx < fuel)%nat;
  blocks_open e : e ∈ idx → ∃ d p, block_function e.2 = Some d ∧ rel2 d (esof e.2) p;
}.

Section State.
Context (idx : list entry) (esof : bytes → list entry) (B : blocks_ok idx esof).
Abbreviation wrel1 := (wrapper_rel (rel := rel1)).
Abbreviation wrel2 := (wrapper_rel (rel := rel2)).

(** The data iterator is NULL or one over the block [data_block_handle_]. *)
Definition data_ok (it : TwoLevelIterator I J) : Prop :=
  match iter_ (data_iter_ it) with
  | None => valid_ (data_iter_ it) = false
  | Some _ => ∃ dp, wrel2 (data_iter_ it) (esof (data_block_handle_ it)) dp
  end.

Definition tl_inv (it : TwoLevelIterator I J) (ip : option nat) : Prop :=
  tl_status_ it = Status_OK ∧ wrel1 (index_iter_ it) idx ip ∧ data_ok it.

(** The data iterator is at [dp] in the block of the index. *)
Definition tl_at (it : TwoLevelIterator I J) (i : nat) (dp : option nat) : Prop :=
  tl_inv it (Some i) ∧ ∃ e, idx !! i = Some e ∧ data_block_handle_ it = e.2 ∧
    is_Some (iter_ (data_iter_ it)) ∧ wrel2 (data_iter_ it) (esof e.2) dp.

Definition tl_null (it : TwoLevelIterator I J) (ip : option nat) : Prop :=
  tl_inv it ip ∧ iter_ (data_iter_ it) = None ∧ valid_ (data_iter_ it) = false.

Definition tl_pos (it : TwoLevelIterator I J) (p : option nat) : Prop :=
  match p with
  | None => tl_null it None
  | Some q => ∃ i j e, tl_at it i (Some j) ∧ idx !! i = Some e ∧ (j < length (esof e.2))%nat ∧
                q = (flat_offset idx esof i + j)%nat
  end.

Lemma wrel_in {K} {IK : Iterator K} {relK} {KL : IteratorLaws K V relK} w es i :
  wrapper_rel (rel := relK) w es (Some i) → (i < length es)%nat.
Proof. intros (it & _ & HR & _). by eapply rel_in. Qed.

Lemma SetDataIterator_NULL it ip handle :
  tl_inv it ip → ∃ it', SetDataIterator None handle it = Some it' ∧ tl_null it' ip.
Proof.
  intros (Hs & Hi & Hd). unfold SetDataIterator. cbn [wrapper_Set mbind option_bind].
  eexists. split; [done|]. split; [|done]. split; [|done]. cbn [tl_status_].
  unfold data_ok in Hd. destruct (iter_ (data_iter_ it)) eqn:E; [|done].
  destruct Hd as [dp Hd]. unfold SaveError. by rewrite (rel_status _ _ _ Hd), andb_false_r.
Qed.

Lemma InitDataBlock_inv it ip :
  tl_inv it ip →
  ∃ it', InitDataBlock block_function it = Some it' ∧
    match ip with None => tl_null it' None | Some i => ∃ dp, tl_at it' i dp end.
Proof.
  intros Hinv. pose proof Hinv as (Hs & Hi & Hd). unfold InitDataBlock.
  rewrite (rel_Valid _ _ _ Hi). destruct ip as [i|].
  - rewrite bool_decide_true by eauto. cbn [negb].
    destruct (lookup_lt_is_Some_2 idx i (wrel_in _ _ _ Hi)) as [e He].
    rewrite (rel_value _ _ _ _ Hi He). cbn [mbind option_bind].
    destruct (bool_decide (is_Some _) && _) eqn:Eb.
    + apply andb_true_iff in Eb as [E1%bool_decide_eq_true E2%bool_decide_eq_true].
      rewrite Slice_compare_lex in E2. apply lex_eq in E2. exists it. split; [done|].
      destruct E1 as [d E1]. unfold data_ok in Hd. pose proof Hd as Hd'. rewrite E1 in Hd'.
      destruct Hd' as [dp Hd']. exists dp. split; [done|]. exists e. by rewrite E2 in *.
    + destruct (blocks_open _ _ B e (list_elem_of_lookup_2 _ _ _ He)) as (d & p & -> & Hd2).
      cbn [mbind option_bind]. unfold SetDataIterator, wrapper_Set.
      destruct (wrapper_Update_rel d (esof e.2) p (key_ (data_iter_ it)) Hd2) as (w & -> & Hw).
      cbn [mbind option_bind]. eexists. split; [done|]. exists p.
      destruct Hw as (d' & Ed & Hw).
      split; [|exists e; split; [done|split; [done|split; [by exists d'|by exists d']]]].
      split; [|split; [done|]]; cbn [tl_status_].
      * unfold data_ok in Hd. destruct (iter_ (data_iter_ it)) eqn:E; [|done].
        destruct Hd as [dp Hd]. unfold SaveError. by rewrite (rel_status _ _ _ Hd), andb_false_r.
      * unfold data_ok. cbn [data_iter_ data_block_handle_]. rewrite Ed. exists p, d'. done.
  - rewrite bool_decide_false by (by intros [? ?]). cbn [negb]. by apply SetDataIterator_NULL.
Qed.

Lemma tl_inv_index it ip w ip' : tl_inv it ip → wrel1 w idx ip' → tl_inv (set_index it w) ip'.
Proof. by intros (? & _ & ?) ?. Qed.

Lemma move_data_at f it i dp dp' :
  tl_at it i dp →
  (∀ e w, idx !! i = Some e → wrel2 w (esof e.2) dp → ∃ w', f w = Some w' ∧ wrel2 w' (esof e.2) dp') →
  ∃ it', move_data f it = Some it' ∧ tl_at it' i dp'.
Proof.
  intros ((Hs & Hi & Hd) & e & He & Hh & [d Ed] & Hw) Hf. unfold move_data. rewrite Ed.
  destruct (Hf e _ He Hw) as (w' & -> & Hw'). cbn [mbind option_bind]. eexists. split; [done|].
  pose proof Hw' as (d' & Ed' & _).
  split; [|exists e; split; [done|split; [done|split; [by exists d'|done]]]].
  split; [done|]. split; [done|]. unfold data_ok. cbn [set_data data_iter_ data_block_handle_]. rewrite Ed', Hh.
  by exists dp'.
Qed.

Lemma move_data_null f it ip : tl_null it ip → move_data f it = Some it.
Proof. intros (_ & E & _). unfold move_data. by rewrite E. Qed.

Lemma tl_at_Valid it i dp : tl_at it i dp →
  is_Some (iter_ (data_iter_ it)) ∧ it_Valid (data_iter_ it) = bool_decide (is_Some dp) ∧
  it_Valid (index_iter_ it) = true.
Proof.
  intros ((_ & Hi & _) & e & _ & _ & Hd & Hw). split; [done|]. split; [by apply (rel_Valid _ _ _ Hw)|].
  rewrite (rel_Valid _ _ _ Hi). by apply bool_decide_true.
Qed.

Lemma skip_null next start n it :
  tl_null it None → (0 < n)%nat →
  ∃ it', skip_blocks block_function next start n it = Some it' ∧ tl_pos it' None.
Proof.
  intros Hn Hf. destruct n as [|n]; [lia|]. cbn [skip_blocks]. pose proof Hn as (Hinv & E & _). rewrite E.
  rewrite (bool_decide_false (is_Some None)) by (by intros [? ?]). cbn [negb orb].
  pose proof Hinv as (_ & Hi & _). rewrite (rel_Valid _ _ _ Hi).
  rewrite bool_decide_false by (by intros [? ?]). cbn [negb]. by apply SetDataIterator_NULL.
Qed.

Lemma skip_forward n it i j e :
  idx !! i = Some e → (j ≤ length (esof e.2))%nat → tl_at it i (pos_at (esof e.2) j) → (length idx - i < n)%nat →
  ∃ it', skip_blocks block_function it_Next it_SeekToFirst n it = Some it' ∧
    tl_pos it' (pos_at (flat idx esof) (flat_offset idx esof i + j)).
Proof.
  revert it i j e. induction n as [|n IH]; intros it i j e He Hj Hat Hf; [lia|]. cbn [skip_blocks].
  destruct (tl_at_Valid it i _ Hat) as (Hd & Hv & Hvi). rewrite bool_decide_true, Hv, Hvi by done. cbn [negb orb].
  unfold pos_at in Hat |- *. destruct (decide (j < length (esof e.2))%nat) as [Hlt|Hge].
  - rewrite bool_decide_true by eauto. cbn [negb]. exists it. split; [done|].
    destruct (lookup_lt_is_Some_2 _ _ Hlt) as [x Hx].
    pose proof (lookup_lt_Some _ _ _ (flat_lookup idx esof i e j x He Hx)).
    rewrite decide_True by lia. by exists i, j, e.
  - rewrite bool_decide_false by (by intros [? ?]). cbn [negb].
    assert (j = length (esof e.2)) as -> by lia. rewrite <- (flat_offset_S idx esof i e He).
    destruct Hat as [Hinv _]. pose proof Hinv as (_ & Hi & _).
    destruct (rel_Next _ _ _ Hi) as (w & -> & Hw). cbn [mbind option_bind].
    destruct (InitDataBlock_inv _ _ (tl_inv_index it _ w _ Hinv Hw)) as (it1 & -> & H1). cbn [mbind option_bind].
    unfold pos_at in H1. destruct (decide (S i < length idx)%nat) as [HS|HS].
    + destruct (lookup_lt_is_Some_2 idx (S i) HS) as [e' He']. destruct H1 as [dp H1].
      destruct (move_data_at it_SeekToFirst it1 (S i) dp (pos_first (esof e'.2)) H1) as (it2 & -> & H2).
      { intros e2 w2 He2 Hw2. rewrite He' in He2. injection He2 as <-. by eapply rel_SeekToFirst. }
      cbn [mbind option_bind]. rewrite <- (Nat.add_0_r (flat_offset _ _ _)).
      apply (IH it2 (S i) 0%nat e'); [done|lia|exact H2|lia].
    + rewrite (move_data_null _ _ _ H1). cbn [mbind option_bind].
      rewrite flat_offset_end by lia. rewrite decide_False by lia. apply skip_null; [done|].
      apply lookup_lt_Some in He. lia.
Qed.

Lemma skip_backward n it i j e :
  idx !! i = Some e → (j ≤ length (esof e.2))%nat → tl_at it i (pos_prev j) → (S i < n)%nat →
  ∃ it', skip_blocks block_function it_Prev it_SeekToLast n it = Some it' ∧
    tl_pos it' (pos_prev (flat_offset idx esof i + j)).
Proof.
  revert it i j e. induction n as [|n IH]; intros it i j e He Hj Hat Hf; [lia|]. cbn [skip_blocks].
  destruct (tl_at_Valid it i _ Hat) as (Hd & Hv & Hvi). rewrite bool_decide_true, Hv, Hvi by done. cbn [negb orb].
  destruct j as [|j]; cbn [pos_prev] in Hat.
  - rewrite bool_decide_false by (by intros [? ?]). cbn [negb]. rewrite Nat.add_0_r.
    destruct Hat as [Hinv _]. pose proof Hinv as (_ & Hi & _).
    destruct (rel_Prev _ _ _ Hi) as (w & -> & Hw). cbn [mbind option_bind].
    destruct (InitDataBlock_inv _ _ (tl_inv_index it _ w _ Hinv Hw)) as (it1 & -> & H1). cbn [mbind option_bind].
    destruct i as [|i]; cbn [pos_prev] in H1.
    + rewrite (move_data_null _ _ _ H1). cbn [mbind option_bind]. apply skip_null; [done|lia].
    + destruct (lookup_lt_is_Some_2 idx i) as [e' He']; [apply lookup_lt_Some in He; lia|]. destruct H1 as [dp H1].
      destruct (move_data_at it_SeekToLast it1 i dp (pos_last (esof e'.2)) H1) as (it2 & -> & H2).
      { intros e2 w2 He2 Hw2. rewrite He' in He2. injection He2 as <-. by eapply rel_SeekToLast. }
      cbn [mbind option_bind]. rewrite (flat_offset_S idx esof i e' He').
      apply (IH it2 i (length (esof e'.2)) e'); [done|lia|exact H2|lia].
  - rewrite bool_decide_true by eauto. cbn [negb]. exists it. split; [done|].
    rewrite Nat.add_succ_r. cbn [pos_prev]. exists i, j, e. split; [done|]. split; [done|]. split; [lia|done].
Qed.

Lemma tl_pos_inv it p : tl_pos it p → ∃ ip, tl_inv it ip.
Proof. destruct p as [q|]; [intros (i & j & e & [? _] & _)|intros [? _]]; eauto. Qed.

Lemma tl_Seek_pos it p k :
  tl_pos it p → V k →
  ∃ it', tl_Seek block_function fuel k it = Some it' ∧ tl_pos it' (pos_seek (flat idx esof) k).
Proof.
  intros Hp Vk. apply tl_pos_inv in Hp as [ip Hinv]. pose proof Hinv as (_ & Hi & _). unfold tl_Seek, pos_seek.
  pose proof (blocks_index _ _ B) as IO. pose proof (blocks_fuel _ _ B) as Hfuel.
  destruct (rel_Seek _ _ _ k Hi Vk) as (w & -> & Hw). cbn [mbind option_bind].
  destruct (InitDataBlock_inv _ _ (tl_inv_index it _ w _ Hinv Hw)) as (it1 & -> & H1). cbn [mbind option_bind].
  destruct (entries_before_cut (V := V) idx k (index_sorted _ _ IO) (index_valid _ _ IO) Vk) as (Hi1 & Hi2 & Hi3).
  unfold pos_seek in H1, Hw. set (i := length (entries_before idx k)) in *.
  unfold pos_at in H1, Hw. destruct (decide (i < length idx)%nat) as [Hlt|Hge].
  - destruct (lookup_lt_is_Some_2 idx i Hlt) as [e He]. destruct H1 as [dp H1].
    rewrite (flat_before (V := V) idx esof IO i e k He Vk (Hi3 e He) Hi2).
    destruct (move_data_at (it_Seek k) it1 i dp (pos_seek (esof e.2) k) H1) as (it2 & -> & H2).
    { intros e2 w2 He2 Hw2. rewrite He in He2. injection He2 as <-. by eapply rel_Seek. }
    cbn [mbind option_bind]. apply (skip_forward _ it2 i _ e); [done| |exact H2|lia].
    apply length_filter.
  - rewrite (move_data_null _ _ _ H1). cbn [mbind option_bind].
    rewrite (flat_before_all (V := V) idx esof IO k Vk).
    + unfold pos_at. rewrite decide_False by lia. apply skip_null; [done|lia].
    + intros e [j He]%list_elem_of_lookup. apply (Hi2 j e); [|done]. apply lookup_lt_Some in He. lia.
Qed.

Lemma tl_SeekToFirst_pos it p :
  tl_pos it p →
  ∃ it', tl_SeekToFirst block_function fuel it = Some it' ∧ tl_pos it' (pos_first (flat idx esof)).
Proof.
  intros Hp. apply tl_pos_inv in Hp as [ip Hinv]. pose proof Hinv as (_ & Hi & _). unfold tl_SeekToFirst.
  pose proof (blocks_fuel _ _ B) as Hfuel. unfold pos_first.
  destruct (rel_SeekToFirst _ _ _ Hi) as (w & -> & Hw). cbn [mbind option_bind].
  destruct (InitDataBlock_inv _ _ (tl_inv_index it _ w _ Hinv Hw)) as (it1 & -> & H1). cbn [mbind option_bind].
  unfold pos_first, pos_at in H1. destruct (decide (0 < length idx)%nat) as [Hlt|Hge].
  - destruct (lookup_lt_is_Some_2 idx 0 Hlt) as [e He]. destruct H1 as [dp H1].
    destruct (move_data_at it_SeekToFirst it1 0 dp (pos_first (esof e.2)) H1) as (it2 & -> & H2).
    { intros e2 w2 He2 Hw2. rewrite He in He2. injection He2 as <-. by eapply rel_SeekToFirst. }
    cbn [mbind option_bind]. apply (skip_forward _ it2 0 0 e); [done|lia|exact H2|lia].
  - rewrite (move_data_null _ _ _ H1). cbn [mbind option_bind].
    pose proof (flat_offset_end idx esof 0 ltac:(lia)) as Hz. change (flat_offset idx esof 0) with 0%nat in Hz.
    unfold pos_at. rewrite decide_False by lia. apply skip_null; [done|lia].
Qed.

Lemma tl_SeekToLast_pos it p :
  tl_pos it p →
  ∃ it', tl_SeekToLast block_function fuel it = Some it' ∧ tl_pos it' (pos_last (flat idx esof)).
Proof.
  intros Hp. apply tl_pos_inv in Hp as [ip Hinv]. pose proof Hinv as (_ & Hi & _). unfold tl_SeekToLast.
  pose proof (blocks_fuel _ _ B) as Hfuel.
  destruct (rel_SeekToLast _ _ _ Hi) as (w & -> & Hw). cbn [mbind option_bind].
  destruct (InitDataBlock_inv _ _ (tl_inv_index it _ w _ Hinv Hw)) as (it1 & -> & H1). cbn [mbind option_bind].
  change (pos_last (flat idx esof)) with (pos_prev (length (flat idx esof))).
  rewrite <- (flat_offset_end idx esof (length idx) ltac:(lia)).
  unfold pos_last in H1. destruct (length idx) as [|i] eqn:El.
  - rewrite (move_data_null _ _ _ H1). cbn [mbind option_bind]. apply skip_null; [done|lia].
  - destruct (lookup_lt_is_Some_2 idx i ltac:(lia)) as [e He]. destruct H1 as [dp H1].
    destruct (move_data_at it_SeekToLast it1 i dp (pos_last (esof e.2)) H1) as (it2 & -> & H2).
    { intros e2 w2 He2 Hw2. rewrite He in He2. injection He2 as <-. by eapply rel_SeekToLast. }
    cbn [mbind option_bind]. rewrite (flat_offset_S idx esof i e He).
    apply (skip_backward _ it2 i _ e); [done|lia|exact H2|lia].
Qed.

(** Moving the data iterator inside its block. *)
Lemma set_data_at it i dp w dp' e :
  tl_at it i dp → idx !! i = Some e → wrel2 w (esof e.2) dp' → tl_at (set_data it w) i dp'.
Proof.
  intros Hat He Hw. destruct (move_data_at (λ _, Some w) it i dp dp' Hat) as (it' & Em & Hat').
  - intros e2 w2 He2 _. rewrite He in He2. injection He2 as <-. by exists w.
  - destruct Hat as (_ & _ & _ & _ & [d Ed] & _). unfold move_data in Em. rewrite Ed in Em. cbn in Em.
    by injection Em as <-.
Qed.

Lemma tl_Next_pos it q :
  tl_pos it (Some q) →
  ∃ it', tl_Next block_function fuel it = Some it' ∧ tl_pos it' (pos_at (flat idx esof) (S q)).
Proof.
  intros (i & j & e & Hat & He & Hj & ->). unfold tl_Next. pose proof (blocks_fuel _ _ B).
  pose proof Hat as (_ & e' & He' & _ & _ & Hw). rewrite He in He'. injection He' as <-.
  destruct (rel_Next _ _ _ Hw) as (w & -> & Hw'). cbn [mbind option_bind].
  rewrite <- Nat.add_succ_r. apply (skip_forward _ _ i (S j) e); [done|lia|by eapply set_data_at|lia].
Qed.

Lemma tl_Prev_pos it q :
  tl_pos it (Some q) →
  ∃ it', tl_Prev block_function fuel it = Some it' ∧ tl_pos it' (pos_prev q).
Proof.
  intros (i & j & e & Hat & He & Hj & ->). unfold tl_Prev. pose proof (blocks_fuel _ _ B).
  pose proof Hat as (_ & e' & He' & _ & _ & Hw). rewrite He in He'. injection He' as <-.
  destruct (rel_Prev _ _ _ Hw) as (w & -> & Hw'). cbn [mbind option_bind].
  pose proof (lookup_lt_Some _ _ _ He).
  apply (skip_backward _ _ i j e); [done|lia|by eapply set_data_at|lia].
Qed.
End State.

Definition tl_rel (it : TwoLevelIterator I J) (es : list entry) (p : option nat) : Prop :=
  ∃ idx esof, blocks_ok idx esof ∧ es = flat idx esof ∧ tl_pos idx esof it p.

Lemma NewTwoLevelIterator_rel it idx esof :
  blocks_ok idx esof → rel1 it idx None →
  ∃ tl, NewTwoLevelIterator it = Some tl ∧ tl_rel tl (flat idx esof) None.
Proof.
  intros B HR. unfold NewTwoLevelIterator. cbn [wrapper_Set].
  destruct (wrapper_Update_rel it idx None (key_ (new_IteratorWrapper (I := I))) HR) as (w & -> & Hw). cbn [mbind option_bind].
  eexists. split; [done|]. exists idx, esof. split; [done|]. split; [done|]. by split.
Qed.

#[export] Instance TwoLevelIterator_laws :
  IteratorLaws (II := TwoLevelIterator_Iterator block_function fuel) (TwoLevelIterator I J) V tl_rel.
Proof.
  assert (Hval : ∀ it es p, tl_rel it es p → it_Valid (data_iter_ it) = bool_decide (is_Some p)).
  { intros it es p (idx & esof & B & -> & Hp). destruct p as [q|].
    - destruct Hp as (i & j & e & Hat & _). destruct (tl_at_Valid _ _ _ _ _ Hat) as (_ & -> & _). done.
    - destruct Hp as (_ & _ & Hv). rewrite bool_decide_false by (by intros [? ?]). exact Hv. }
  split.
  - intros it es p (idx & esof & B & -> & _). apply flat_sorted, B.
  - intros it es q (idx & esof & B & -> & i & j & e & _ & He & Hj & ->).
    destruct (lookup_lt_is_Some_2 _ _ Hj) as [x Hx]. eapply lookup_lt_Some. by eapply flat_lookup.
  - exact Hval.
  - intros it es q x HR Hx. pose proof (Hval _ _ _ HR) as Hv.
    destruct HR as (idx & esof & B & -> & i & j & e & (_ & e' & He' & _ & _ & Hw) & He & Hj & ->).
    destruct (lookup_lt_is_Some_2 _ _ Hj) as [y Hy]. rewrite (flat_lookup idx esof i e j y He Hy) in Hx.
    injection Hx as ->. rewrite He in He'. injection He' as <-.
    cbn [it_key TwoLevelIterator_Iterator]. rewrite Hv, bool_decide_true by eauto. by eapply rel_key.
  - intros it es q x HR Hx. pose proof (Hval _ _ _ HR) as Hv.
    destruct HR as (idx & esof & B & -> & i & j & e & (_ & e' & He' & _ & _ & Hw) & He & Hj & ->).
    destruct (lookup_lt_is_Some_2 _ _ Hj) as [y Hy]. rewrite (flat_lookup idx esof i e j y He Hy) in Hx.
    injection Hx as ->. rewrite He in He'. injection He' as <-.
    cbn [it_value TwoLevelIterator_Iterator]. rewrite Hv, bool_decide_true by eauto. by eapply rel_value.
  - intros it es p (idx & esof & B & -> & Hp). apply tl_pos_inv in Hp as (ip & Hs & Hi & Hd).
    cbn [it_status TwoLevelIterator_Iterator]. unfold tl_status. rewrite (rel_status _ _ _ Hi). cbn [negb ok Status_OK].
    unfold data_ok in Hd. destruct (iter_ (data_iter_ it)); [|by rewrite bool_decide_false by (by intros [? ?])].
    destruct Hd as [dp Hd]. by rewrite (rel_status _ _ _ Hd), andb_false_r.
  - intros it es p (idx & esof & B & -> & Hp). destruct (tl_SeekToFirst_pos _ _ B it p Hp) as (it' & ? & ?).
    exists it'. split; [done|by exists idx, esof].
  - intros it es p (idx & esof & B & -> & Hp). destruct (tl_SeekToLast_pos _ _ B it p Hp) as (it' & ? & ?).
    exists it'. split; [done|by exists idx, esof].
  - intros it es p k (idx & esof & B & -> & Hp) Vk. destruct (tl_Seek_pos _ _ B it p k Hp Vk) as (it' & ? & ?).
    exists it'. split; [done|by exists idx, esof].
  - intros it es q HR. pose proof (Hval _ _ _ HR) as Hv. destruct HR as (idx & esof & B & -> & Hp).
    cbn [it_Next TwoLevelIterator_Iterator]. rewrite Hv, bool_decide_true by eauto.
    destruct (tl_Next_pos _ _ B it q Hp) as (it' & ? & ?). exists it'. split; [done|by exists idx, esof].
  - intros it es q HR. pose proof (Hval _ _ _ HR) as Hv. destruct HR as (idx & esof & B & -> & Hp).
    cbn [it_Prev TwoLevelIterator_Iterator]. rewrite Hv, bool_decide_true by eauto.
    destruct (tl_Prev_pos _ _ B it q Hp) as (it' & ? & ?). exists it'. split; [done|by exists idx, esof].
Qed.
End Laws.
