(* ===== verification/TableBuilder.v ===== *)
(** Building a table file: [table/table_builder.cc].

    The builder writes to any [WritableFile]; its operations are in the monad
    of [Env]. The index block has a restart point at every entry. *)
From Stdlib Require Import Init.Byte Sorting.Sorted.
From S2P Require Import Prelude SortedLists Coding Crc32c Status Comparator Bloom Snappy SnappyUncompress Env Iterator BlockBuilder Block Format FilterBlock.

(** ** The builder *)

(** [TableBuilder::Rep]. A filter block builder comes with the policy it was
    made for; [compressed_output] is empty between the operations. *)
Record TableBuilder := {
  tb_options : Options;
  tb_offset : Z;
  tb_status : Status;
  data_block : BlockBuilder;
  index_block : BlockBuilder;
  tb_last_key : bytes;
  num_entries : Z;
  closed : bool;
  filter_block : option (FilterPolicy * FilterBlockBuilder);
  pending_index_entry : bool;
  pending_handle : BlockHandle;
}.

Section Builder.
Context {C : Comparator} {P : Placement} {W : Type} {file : WritableFile W}.

Definition on_filter (f : ∀ P : FilterPolicy, FilterBlockBuilder → FilterBlockBuilder)
    (fb : option (FilterPolicy * FilterBlockBuilder)) : option (FilterPolicy * FilterBlockBuilder) :=
  match fb with Some (P, b) => Some (P, f P b) | None => None end.

Definition new_TableBuilder (options : Options) : TableBuilder :=
  {| tb_options := options; tb_offset := 0; tb_status := Status_OK;
     data_block := new_BlockBuilder; index_block := new_BlockBuilder;
     tb_last_key := []; num_entries := 0; closed := false;
     filter_block := on_filter (λ P, StartBlock (policy_ := P) 0)
       (match filter_policy options with
        | Some P => Some (P, new_FilterBlockBuilder) | None => None end);
     pending_index_entry := false; pending_handle := new_BlockHandle |}.

Definition set_blocks (r : TableBuilder) (data index : BlockBuilder) : TableBuilder :=
  {| tb_options := tb_options r; tb_offset := tb_offset r; tb_status := tb_status r;
     data_block := data; index_block := index; tb_last_key := tb_last_key r;
     num_entries := num_entries r; closed := closed r; filter_block := filter_block r;
     pending_index_entry := pending_index_entry r; pending_handle := pending_handle r |}.

Definition set_file (r : TableBuilder) (offset : Z) (status : Status) : TableBuilder :=
  {| tb_options := tb_options r; tb_offset := offset; tb_status := status;
     data_block := data_block r; index_block := index_block r; tb_last_key := tb_last_key r;
     num_entries := num_entries r; closed := closed r; filter_block := filter_block r;
     pending_index_entry := pending_index_entry r; pending_handle := pending_handle r |}.

Definition set_pending (r : TableBuilder) (pending : bool) (handle : BlockHandle) : TableBuilder :=
  {| tb_options := tb_options r; tb_offset := tb_offset r; tb_status := tb_status r;
     data_block := data_block r; index_block := index_block r; tb_last_key := tb_last_key r;
     num_entries := num_entries r; closed := closed r; filter_block := filter_block r;
     pending_index_entry := pending; pending_handle := handle |}.

Definition set_filter (r : TableBuilder) (fb : option (FilterPolicy * FilterBlockBuilder)) : TableBuilder :=
  {| tb_options := tb_options r; tb_offset := tb_offset r; tb_status := tb_status r;
     data_block := data_block r; index_block := index_block r; tb_last_key := tb_last_key r;
     num_entries := num_entries r; closed := closed r; filter_block := fb;
     pending_index_entry := pending_index_entry r; pending_handle := pending_handle r |}.

Definition set_last (r : TableBuilder) (key : bytes) (n : Z) : TableBuilder :=
  {| tb_options := tb_options r; tb_offset := tb_offset r; tb_status := tb_status r;
     data_block := data_block r; index_block := index_block r; tb_last_key := key;
     num_entries := n; closed := closed r; filter_block := filter_block r;
     pending_index_entry := pending_index_entry r; pending_handle := pending_handle r |}.

Definition set_closed (r : TableBuilder) : TableBuilder :=
  {| tb_options := tb_options r; tb_offset := tb_offset r; tb_status := tb_status r;
     data_block := data_block r; index_block := index_block r; tb_last_key := tb_last_key r;
     num_entries := num_entries r; closed := true; filter_block := filter_block r;
     pending_index_entry := pending_index_entry r; pending_handle := pending_handle r |}.

Definition set_options (r : TableBuilder) (options : Options) : TableBuilder :=
  {| tb_options := options; tb_offset := tb_offset r; tb_status := tb_status r;
     data_block := data_block r; index_block := index_block r; tb_last_key := tb_last_key r;
     num_entries := num_entries r; closed := closed r; filter_block := filter_block r;
     pending_index_entry := pending_index_entry r; pending_handle := pending_handle r |}.

(** [same_comparator] is the comparison of the two comparator pointers. *)
Definition ChangeOptions (options : Options) (same_comparator : bool) (r : TableBuilder)
    : Status * TableBuilder :=
  if negb same_comparator then
    (InvalidArgument (str "changing comparator while building table") [], r)
  else (Status_OK, set_options r options).

Definition block_trailer (type : Z) (block_contents : bytes) : bytes :=
  let crc := Value (address block_contents) block_contents in
  let crc := Extend (address [b8 type]) crc [b8 type] in
  [b8 type] ++ EncodeFixed32 (Mask crc).

Definition WriteRawBlock (block_contents : bytes) (type : Z) (r : TableBuilder)
    : M W (BlockHandle * TableBuilder) :=
  let handle := {| Format.offset_ := tb_offset r; Format.size_ := zlen block_contents |} in
  s ← wf_Append block_contents;
  if ok s then
    s ← wf_Append (block_trailer type block_contents);
    if ok s then
      mret (handle, set_file r (u64 (tb_offset r + (zlen block_contents + kBlockTrailerSize))) s)
    else mret (handle, set_file r (tb_offset r) s)
  else mret (handle, set_file r (tb_offset r) s).

(** The contents that are stored for a block, and their type. *)
Definition compress_block (options : Options) (raw : bytes) : option (bytes * Z) :=
  if decide (compression options = kNoCompression) then Some (raw, kNoCompression)
  else if decide (compression options = kSnappyCompression) then
    compressed ← Snappy_Compress raw;
    if decide (zlen compressed < zlen raw - zlen raw / 8) then Some (compressed, kSnappyCompression)
    else Some (raw, kNoCompression)
  else Some ([], compression options).

(** The caller resets [block]. *)
Definition WriteBlock (block : BlockBuilder) (r : TableBuilder) : M W (BlockHandle * TableBuilder) :=
  let raw := fst (BlockBuilder.Finish block) in
  c ← M_lift (λ _, compress_block (tb_options r) raw);
  let '(block_contents, type) := c in
  WriteRawBlock block_contents type r.

Definition Flush (r : TableBuilder) : M W TableBuilder :=
  if negb (ok (tb_status r)) then mret r
  else if builder_empty (data_block r) then mret r
  else
    x ← WriteBlock (data_block r) r;
    let '(handle, r) := x in
    let r := set_blocks r (Reset (data_block r)) (index_block r) in
    r ← (if ok (tb_status r) then
           s ← wf_Flush;
           mret (set_file (set_pending r true handle) (tb_offset r) s)
         else mret (set_pending r (pending_index_entry r) handle));
    mret (set_filter r (on_filter (λ P, StartBlock (policy_ := P) (tb_offset r)) (filter_block r))).

(** The index entry of the block before, once the next key is known. *)
Definition add_index_entry (key : bytes) (r : TableBuilder) : TableBuilder :=
  let handle_encoding := handle_EncodeTo (pending_handle r) [] in
  set_pending
    (set_blocks (set_last r key (num_entries r)) (data_block r)
       (BlockBuilder.Add 1 (index_block r) key handle_encoding))
    false (pending_handle r).

Definition Add (key value : bytes) (r : TableBuilder) : M W TableBuilder :=
  if negb (ok (tb_status r)) then mret r
  else
    let r := if pending_index_entry r then add_index_entry (FindShortestSeparator (tb_last_key r) key) r
             else r in
    let r := set_filter r (on_filter (λ P, AddKey key) (filter_block r)) in
    let r := set_last r key (num_entries r + 1) in
    let r := set_blocks r
      (BlockBuilder.Add (block_restart_interval (tb_options r)) (data_block r) key value) (index_block r) in
    let estimated_block_size := CurrentSizeEstimate (data_block r) in
    if decide (block_size (tb_options r) ≤ estimated_block_size) then Flush r else mret r.

(** The metaindex block: the name of the filter, if there is one. [None] is the
    name of a NULL policy, after [ChangeOptions] took the policy away. *)
Definition meta_index_block (r : TableBuilder) (filter_block_handle : BlockHandle) : option BlockBuilder :=
  match filter_block r with
  | Some _ =>
      policy ← filter_policy (tb_options r);
      let key := str "filter." ++ FilterName (FilterPolicy := policy) in
      Some (BlockBuilder.Add (block_restart_interval (tb_options r)) new_BlockBuilder key
        (handle_EncodeTo filter_block_handle []))
  | None => Some new_BlockBuilder
  end.

Definition Finish (r : TableBuilder) : M W TableBuilder :=
  r ← Flush r;
  let r := set_closed r in
  x ← (match filter_block r with
       | Some (P, fb) =>
           if ok (tb_status r) then
             WriteRawBlock (filter_Finish (policy_ := P) fb) kNoCompression r
           else mret (new_BlockHandle, r)
       | None => mret (new_BlockHandle, r)
       end);
  let '(filter_block_handle, r) := x in
  x ← (if ok (tb_status r) then
         meta ← M_lift (λ _, meta_index_block r filter_block_handle); WriteBlock meta r
       else mret (new_BlockHandle, r));
  let '(metaindex_block_handle, r) := x in
  x ← (if ok (tb_status r) then
         let r := if pending_index_entry r then add_index_entry (FindShortSuccessor (tb_last_key r)) r
                  else r in
         x ← WriteBlock (index_block r) r;
         mret (x.1, set_blocks x.2 (data_block x.2) (Reset (index_block x.2)))
       else mret (new_BlockHandle, r));
  let '(index_block_handle, r) := x in
  if ok (tb_status r) then
    let footer := {| metaindex_handle_ := metaindex_block_handle; index_handle_ := index_block_handle |} in
    let footer_encoding := footer_EncodeTo footer [] in
    s ← wf_Append footer_encoding;
    mret (set_file r (if ok s then u64 (tb_offset r + zlen footer_encoding) else tb_offset r) s)
  else mret r.

Definition Abandon (r : TableBuilder) : TableBuilder := set_closed r.

Definition NumEntries (r : TableBuilder) : Z := u64 (num_entries r).

Definition FileSize (r : TableBuilder) : Z := tb_offset r.

(** What the callers do: add entries, then finish. *)
Definition AddAll (es : list entry) (r : TableBuilder) : M W TableBuilder :=
  foldl (λ m e, m ≫= Add e.1 e.2) (mret r) es.

Definition BuildTable (options : Options) (es : list entry) : M W TableBuilder :=
  r ← AddAll es (new_TableBuilder options); Finish r.
End Builder.

(** ** What is in the file *)

(** The block [raw] is stored at [h], perhaps compressed. *)
Definition stored (T : bytes) (h : BlockHandle) (raw : bytes) : Prop :=
  ∃ pre type data post, T = pre ++ block_image type data ++ post ∧
    h = {| Format.offset_ := zlen pre; Format.size_ := zlen data |} ∧
    block_means type data raw ∧ zlen data + kBlockTrailerSize < 2 ^ 31.

Definition block_stored {C : Comparator} (V : bytes → Prop) (T : bytes) (h : BlockHandle) (es : list entry) : Prop :=
  ∃ cs R, Good V cs R ∧ cs.*2 = es ∧ stored T h (block_bytes cs R).

Lemma stored_app T T' h raw : stored T h raw → stored (T ++ T') h raw.
Proof.
  intros (pre & type & data & post & -> & -> & Hm & Hl). exists pre, type, data, (post ++ T').
  split; [by rewrite <- !app_assoc|done].
Qed.

Lemma block_stored_app {C : Comparator} V T T' h es : block_stored V T h es → block_stored V (T ++ T') h es.
Proof. intros (cs & R & G & He & Hs). exists cs, R. split; [done|]. split; [done|by apply stored_app]. Qed.

(** Options with which tables can be built. *)
Record options_ok (options : Options) : Prop := {
  options_compression : compression options = kNoCompression ∨ compression options = kSnappyCompression;
  options_interval : 1 ≤ block_restart_interval options;
}.

Lemma compress_block_ok options raw :
  options_ok options → zlen raw < 2 ^ 31 →
  ∃ data type, compress_block options raw = Some (data, type) ∧ block_means type data raw ∧
    zlen data ≤ zlen raw.
Proof.
  intros [Hc _] Hlen. unfold compress_block.
  assert (block_means kNoCompression raw raw) as Hraw by by left.
  destruct (decide (compression options = kNoCompression)) as [|Hn]; [exists raw, kNoCompression; done|].
  rewrite decide_True by tauto.
  destruct (Snappy_Compress_ok raw Hlen) as (c & -> & Hs & Hl). cbn [mbind option_bind].
  case_decide as Hz; [|exists raw, kNoCompression; done].
  exists c, kSnappyCompression. split; [done|]. split; [by right|]. zlen_facts. Z.div_mod_to_equations. lia.
Qed.

(** ** Writing blocks *)

Section Writing.
Context {P : Placement} {PL : PlacementLaws P} {W : Type} {file : WritableFile W}.
Context {inv : W → Prop} {contents : W → bytes} {RF : ReliableFile file inv contents}.

Lemma block_trailer_image type data :
  zlen data < 2 ^ 31 → data ++ block_trailer type data = block_image type data.
Proof.
  intros Hl. unfold block_trailer, block_image. cbn zeta. rewrite Value_placed by done.
  rewrite Extend_placed; [|by apply crc32c_ref_range|done]. by rewrite crc32c_ref_app.
Qed.

Lemma wp_append_file data w (Q : Status → W → Prop) :
  inv w → (∀ w', inv w' → contents w' = contents w ++ data → Q Status_OK w') → wp (wf_Append data) Q w.
Proof.
  intros Hw HQ. destruct (reliable_Append data w Hw) as (s & w' & E & Hs & Hw' & Hc).
  unfold wp. rewrite E. destruct s; [done|]. by apply HQ.
Qed.

Lemma wp_Flush_file w (Q : Status → W → Prop) :
  inv w → (∀ w', inv w' → contents w' = contents w → Q Status_OK w') → wp wf_Flush Q w.
Proof.
  intros Hw HQ. destruct (reliable_Flush w Hw) as (s & w' & E & Hs & Hw' & Hc).
  unfold wp. rewrite E. destruct s; [done|]. by apply HQ.
Qed.

Lemma wp_WriteRawBlock data type r w (Q : BlockHandle * TableBuilder → W → Prop) :
  inv w → tb_offset r = zlen (contents w) → zlen (contents w) + zlen data + 5 < 2 ^ 64 →
  zlen data + 5 < 2 ^ 31 →
  (∀ w', inv w' → contents w' = contents w ++ block_image type data →
     Q ({| Format.offset_ := zlen (contents w); Format.size_ := zlen data |},
        set_file r (zlen (contents w')) Status_OK) w') →
  wp (WriteRawBlock data type r) Q w.
Proof.
  intros Hw Ho H64 Hl HQ. unfold WriteRawBlock. apply wp_bind, wp_append_file; [done|]. intros w1 Hw1 Hc1.
  cbn [ok Status_OK]. apply wp_bind, wp_append_file; [done|]. intros w2 Hw2 Hc2. cbn [ok Status_OK]. apply wp_ret.
  rewrite Hc1, <- app_assoc, block_trailer_image in Hc2 by lia. rewrite Ho.
  assert (u64 (zlen (contents w) + (zlen data + kBlockTrailerSize)) = zlen (contents w2)) as ->.
  { rewrite Hc2, zlen_app, zlen_block_image. unfold kBlockTrailerSize. zlen_facts. apply wrap_small. unfold in_w. lia. }
  by apply HQ.
Qed.

(** A block written is stored. *)
Lemma wp_WriteBlock block cs R r w (Q : BlockHandle * TableBuilder → W → Prop) :
  inv w → tb_offset r = zlen (contents w) → options_ok (tb_options r) → builder_rep block cs R →
  zlen (block_bytes cs R) + 5 < 2 ^ 31 → zlen (contents w) + zlen (block_bytes cs R) + 5 < 2 ^ 64 →
  (∀ w' h, inv w' → (∃ t, contents w' = contents w ++ t) → stored (contents w') h (block_bytes cs R) →
     Format.offset_ h = zlen (contents w) → zlen (contents w') ≤ zlen (contents w) + zlen (block_bytes cs R) + 5 →
     Q (h, set_file r (zlen (contents w')) Status_OK) w') →
  wp (WriteBlock block r) Q w.
Proof.
  intros Hw Ho Hopt Hrep Hl H64 HQ. unfold WriteBlock.
  pose proof (zlen_block_bytes cs R) as Hz. zlen_facts.
  rewrite (Finish_rep block cs R Hrep) by lia. cbn zeta.
  destruct (compress_block_ok (tb_options r) (block_bytes cs R) Hopt ltac:(lia)) as (data & type & Ec & Hm & Hd).
  apply wp_bind. unfold wp at 1, M_lift. rewrite Ec. cbn [mbind option_bind].
  zlen_facts. apply wp_WriteRawBlock; [done|done|lia|lia|]. intros w' Hw' Hc'. apply HQ; [done|by eexists| |done|].
  - exists (contents w), type, data, []. rewrite app_nil_r. split; [done|]. split; [done|]. split; [done|].
    unfold kBlockTrailerSize. lia.
  - rewrite Hc', zlen_app, zlen_block_image. unfold kBlockTrailerSize. lia.
Qed.
End Writing.

(** ** The invariant of the builder *)

(** A bound on what entries take in a table, in the data blocks and in the
    index together. *)
Definition table_need (es : list entry) : Z := foldr (λ e n, 80 + 2 * zlen e.1 + zlen e.2 + n) 0 es.

Lemma table_need_app a b : table_need (a ++ b) = table_need a + table_need b.
Proof. unfold table_need. induction a as [|e a IH]; cbn; [done|]. rewrite IH. lia. Qed.

Lemma table_need_cons e es : table_need (e :: es) = 80 + 2 * zlen e.1 + zlen e.2 + table_need es.
Proof. done. Qed.

Lemma table_need_nonneg es : 0 ≤ table_need es.
Proof. induction es as [|e es IH]; [done|]. rewrite table_need_cons. zlen_facts. lia. Qed.

Lemma table_need_block es : block_need es ≤ 8 + table_need es.
Proof. induction es as [|e es IH]; [done|]. rewrite table_need_cons. cbn. unfold block_need in IH. zlen_facts. lia. Qed.

(** A finished data block: its entries and where it is. *)
Abbreviation done_block := (list entry * BlockHandle)%type.

Section Inv.
Context {C : Comparator} {V : bytes → Prop} {CL : ComparatorLaws C V} {SS : ShortSeparators C}.

Definition done_entries (dn : list done_block) : list entry := concat dn.*1.

(** [idx] are index entries of the blocks [dn], and [later] the entries of the
    table behind these blocks. *)
Record index_entries (dn : list done_block) (later idx : list entry) : Prop := {
  ie_length : length idx = length dn;
  ie_handle i e b : idx !! i = Some e → dn !! i = Some b → e.2 = handle_EncodeTo b.2 [];
  ie_valid e : e ∈ idx → V e.1;
  ie_upper i e b x : idx !! i = Some e → dn !! i = Some b → x ∈ b.1 → Compare x.1 e.1 ≤ 0;
  ie_lower i e x : idx !! i = Some e → x ∈ done_entries (drop (S i) dn) ++ later → Compare e.1 x.1 < 0;
  ie_separator i e b x : idx !! i = Some e → dn !! i = Some b → head (done_entries (drop (S i) dn) ++ later) = Some x →
    ∃ y, list.last b.1 = Some y ∧ e.1 = FindShortestSeparator y.1 x.1;
}.

Lemma done_entries_app a b : done_entries (a ++ b) = done_entries a ++ done_entries b.
Proof. unfold done_entries. by rewrite fmap_app, concat_app. Qed.

Lemma index_entries_nil later : index_entries [] later [].
Proof. split; [done|..]; try by intros i e b H. by intros e ?%elem_of_nil. Qed.

Lemma index_entries_snoc dn b later idx sep :
  index_entries dn (b.1 ++ later) idx → V sep → (∀ x, x ∈ b.1 → Compare x.1 sep ≤ 0) →
  (∀ x, x ∈ later → Compare sep x.1 < 0) →
  (∀ x, head later = Some x → ∃ y, list.last b.1 = Some y ∧ sep = FindShortestSeparator y.1 x.1) →
  index_entries (dn ++ [b]) later (idx ++ [(sep, handle_EncodeTo b.2 [])]).
Proof.
  intros [H1 H2 H3 H4 H5 H6] Vs Hu Hl Hsep.
  assert (Hcase : ∀ i e, (idx ++ [(sep, handle_EncodeTo b.2 [])]) !! i = Some e →
    (i < length dn)%nat ∧ idx !! i = Some e ∨ i = length dn ∧ e = (sep, handle_EncodeTo b.2 [])).
  { intros i e [[? ?]|[? ?]]%lookup_snoc_Some; rewrite <- H1; auto. }
  assert (Hlater : ∀ i, (i < length dn)%nat →
    done_entries (drop (S i) (dn ++ [b])) ++ later = done_entries (drop (S i) dn) ++ b.1 ++ later).
  { intros i Hi. rewrite drop_app_le, done_entries_app by lia. unfold done_entries at 2. cbn. by rewrite app_nil_r, <- app_assoc. }
  split.
  - rewrite !length_app. by rewrite H1.
  - intros i e b' [[Hi He]|[-> ->]]%Hcase Hb.
    + rewrite lookup_app_l in Hb by done. by eapply H2.
    + rewrite lookup_app_r, Nat.sub_diag in Hb by done. by injection Hb as <-.
  - intros e [He| ->%list_elem_of_singleton]%elem_of_app; [by apply H3|done].
  - intros i e b' x [[Hi He]|[-> ->]]%Hcase Hb Hx.
    + rewrite lookup_app_l in Hb by done. by eapply H4.
    + rewrite lookup_app_r, Nat.sub_diag in Hb by done. injection Hb as <-. by apply Hu.
  - intros i e x [[Hi He]|[-> ->]]%Hcase Hx.
    + apply (H5 i e x He). by rewrite Hlater in Hx by done.
    + apply Hl. rewrite drop_ge in Hx; [done|]. rewrite length_app. cbn. lia.
  - intros i e b' x [[Hi He]|[-> ->]]%Hcase Hb Hx.
    + rewrite lookup_app_l in Hb by done. apply (H6 i e b' x He Hb). by rewrite Hlater in Hx by done.
    + rewrite lookup_app_r, Nat.sub_diag in Hb by done. injection Hb as <-. apply Hsep.
      rewrite drop_ge in Hx; [done|]. rewrite length_app. cbn. lia.
Qed.

(** ** *)

Context {P : Placement} {PL : PlacementLaws P} {W : Type} {file : WritableFile W}.
Context {inv : W → Prop} {contents : W → bytes} {RF : ReliableFile file inv contents}.
Context (options : Options) (Hopt : options_ok options).
Context (es : list entry) (Hsorted : StronglySorted entry_lt es) (Hvalid : Forall (λ e, V e.1) es).
Context (Hsize : table_need es < 2 ^ 30).

(** The calls that the filter block builder has seen. *)
Definition filter_blocks (dn : list done_block) : list (Z * list bytes) :=
  (λ b, (Format.offset_ b.2, b.1.*1)) <$> dn.

Definition filter_inv (fb : option (FilterPolicy * FilterBlockBuilder)) (dn : list done_block) (off : Z)
    (cur : list entry) : Prop :=
  match filter_policy options with
  | None => fb = None
  | Some P => fb = Some (P, AddBlocks (filter_blocks dn ++ [(off, cur.*1)]))
  end.

(** [dn] are the blocks in the file, [cur] the entries of the block being built,
    [rest] the entries to come. *)
Record tb_inv (r : TableBuilder) (w : W) (dn : list done_block) (cur rest : list entry) : Prop := {
  ti_inv : inv w;
  ti_es : es = done_entries dn ++ cur ++ rest;
  ti_options : tb_options r = options;
  ti_status : tb_status r = Status_OK;
  ti_offset : tb_offset r = zlen (contents w);
  ti_data : ∃ cs R, builder_rep (data_block r) cs R ∧ cs.*2 = cur ∧ zlen (block_bytes cs R) ≤ block_need cur;
  ti_blocks b : b ∈ dn → b.1 ≠ [] ∧ block_stored V (contents w) b.2 b.1;
  ti_sorted : StronglySorted (λ a b, Format.offset_ a.2 ≤ Format.offset_ b.2) dn;
  ti_offsets b : b ∈ dn → 0 ≤ Format.offset_ b.2 ≤ zlen (contents w);
  ti_filter : filter_inv (filter_block r) dn (zlen (contents w)) cur;
  ti_last e : list.last cur = Some e → tb_last_key r = e.1;
  ti_index : ∃ cs R idx, builder_rep (index_block r) cs R ∧ cs.*2 = idx ∧
    zlen (block_bytes cs R) ≤ block_need idx ∧
    if pending_index_entry r then
      ∃ dn' b e, dn = dn' ++ [b] ∧ list.last b.1 = Some e ∧ tb_last_key r = e.1 ∧ pending_handle r = b.2 ∧
        cur = [] ∧ index_entries dn' (b.1 ++ rest) idx ∧
        block_need idx + 39 + zlen e.1 + zlen (contents w) ≤ 8 + table_need (done_entries dn)
    else
      index_entries dn (cur ++ rest) idx ∧
      block_need idx + zlen (contents w) ≤ 8 + table_need (done_entries dn);
}.

Lemma new_TableBuilder_inv w :
  inv w → contents w = [] → tb_inv (new_TableBuilder options) w [] [] es.
Proof.
  intros Hw Hc. split; rewrite ?Hc; try done.
  - exists [], [0%nat]. split; [apply new_BlockBuilder_rep|done].
  - by intros b ?%elem_of_nil.
  - constructor.
  - by intros b ?%elem_of_nil.
  - unfold filter_inv. cbn [new_TableBuilder filter_block]. by destruct (filter_policy options).
  - exists [], [0%nat], []. split; [apply new_BlockBuilder_rep|]. split; [done|]. split; [done|].
    cbn [new_TableBuilder pending_index_entry]. split; [apply index_entries_nil|done].
Qed.

Lemma ti_index_Valid r w dn cur rest : tb_inv r w dn cur rest → cur ≠ [] → pending_index_entry r = false.
Proof.
  intros HI Hc. destruct (ti_index _ _ _ _ _ HI) as (cs & R & idx & _ & _ & _ & H).
  destruct (pending_index_entry r); [|done]. by destruct H as (? & ? & ? & _ & _ & _ & _ & ? & _).
Qed.

(** The file is not larger than what the entries need. *)
Lemma contents_bound r w dn cur rest :
  tb_inv r w dn cur rest → zlen (contents w) ≤ table_need (done_entries dn).
Proof.
  intros HI. destruct (ti_index _ _ _ _ _ HI) as (cs & R & idx & _ & _ & _ & H).
  pose proof (block_need_ge idx). destruct (pending_index_entry r).
  - destruct H as (dn' & b & e & _ & _ & _ & _ & _ & _ & H). zlen_facts. lia.
  - destruct H as [_ H]. lia.
Qed.

Lemma need_split dn cur rest :
  es = done_entries dn ++ cur ++ rest →
  table_need (done_entries dn) + table_need cur + table_need rest < 2 ^ 30.
Proof. intros E. rewrite E, !table_need_app in Hsize. lia. Qed.

Lemma cur_good cs R dn rest :
  es = done_entries dn ++ cs.*2 ++ rest → Layout cs R → zlen (block_bytes cs R) < 2 ^ 32 → Good V cs R.
Proof.
  intros E HL Hz. split; [done|done|..].
  - rewrite E in Hsorted. apply sorted_app in Hsorted as (_ & H & _). by apply sorted_app in H as (H & _ & _).
  - rewrite E in Hvalid. apply list.Forall_app in Hvalid as [_ H]. by apply list.Forall_app in H as [H _].
Qed.

Lemma last_need cur e :
  list.last cur = Some e → block_need cur + 44 + zlen e.1 ≤ table_need cur.
Proof.
  intros [l ->]%last_Some. rewrite block_need_snoc, table_need_app, table_need_cons. cbn.
  pose proof (table_need_block l). lia.
Qed.

Lemma AddBlocks_snoc {FP : FilterPolicy} blocks off keys :
  AddBlocks (blocks ++ [(off, keys)]) = foldl (λ b k, AddKey k b) (StartBlock off (AddBlocks blocks)) keys.
Proof. unfold AddBlocks. by rewrite foldl_app. Qed.

Lemma filter_inv_start fb dn off cur h off' :
  filter_inv fb dn off cur → Format.offset_ h = off →
  filter_inv (on_filter (λ FP, StartBlock (policy_ := FP) off') fb) (dn ++ [(cur, h)]) off' [].
Proof.
  unfold filter_inv. destruct (filter_policy options) as [FP|]; [|by intros -> _].
  intros -> <-. cbn [on_filter fmap list_fmap]. rewrite (AddBlocks_snoc (filter_blocks (dn ++ _))). cbn [foldl].
  unfold filter_blocks. rewrite fmap_app. done.
Qed.

Lemma builder_not_empty b cs R : builder_rep b cs R → builder_empty b = bool_decide (cs = []).
Proof.
  intros (HL & Hb & _). unfold builder_empty. rewrite Hb. apply bool_decide_ext. split; [|by intros ->].
  intros H0. destruct cs as [|c cs]; [done|]. pose proof (zlen_enc_chunk HL c 0 eq_refl) as Hz.
  destruct (layout_chunks _ _ HL 0%nat c eq_refl) as (_ & _ & ?).
  change (chunks_body (c :: cs)) with (enc_chunk c.1 c.2 ++ chunks_body cs) in H0.
  apply app_nil in H0 as [H0 _]. rewrite H0 in Hz. change (zlen []) with 0 in Hz. zlen_facts. lia.
Qed.

(** Flushing a block that is not empty. *)
Lemma wp_Flush r w dn cur rest :
  tb_inv r w dn cur rest → cur ≠ [] →
  wp (Flush r) (λ r' w', ∃ h, tb_inv r' w' (dn ++ [(cur, h)]) [] rest ∧
    pending_index_entry r' = true ∧ ∃ t, contents w' = contents w ++ t) w.
Proof.
  intros HI Hcur. pose proof (ti_index_Valid _ _ _ _ _ HI Hcur) as Hpend.
  pose proof (contents_bound _ _ _ _ _ HI) as Hcb. pose proof (need_split _ _ _ (ti_es _ _ _ _ _ HI)) as Hneed.
  destruct (ti_data _ _ _ _ _ HI) as (cs & R & Hrep & Hcs & Hlen).
  pose proof (table_need_nonneg rest). pose proof (table_need_nonneg (done_entries dn)).
  pose proof (table_need_block cur).
  unfold Flush. rewrite (ti_status _ _ _ _ _ HI). cbn [ok Status_OK negb].
  rewrite (builder_not_empty _ cs R Hrep), bool_decide_false by (intros ->; apply Hcur; by rewrite <- Hcs).
  pose proof (ti_options _ _ _ _ _ HI) as Ho.
  apply wp_bind. apply (wp_WriteBlock _ cs R); [apply HI|apply HI|by rewrite Ho|done|lia|lia|].
  intros w1 h Hw1 [t1 Hc1] Hst Hoff Hz1. cbn [tb_status set_blocks set_file ok Status_OK].
  apply wp_bind, wp_bind. apply wp_Flush_file; [done|]. intros w2 Hw2 Hc2. apply wp_ret, wp_ret.
  exists h. split; [|split; [done|by exists t1; rewrite Hc2]]. rewrite <- Hc2 in Hst, Hc1, Hz1.
  assert (HG : Good V cs R).
  { apply (cur_good cs R dn rest); [rewrite Hcs; apply HI|apply Hrep|lia]. }
  destruct (list.last cur) as [e|] eqn:El; [|by apply last_None in El].
  pose proof (last_need cur e El) as Hl. zlen_facts.
  split; cbn [tb_options tb_status tb_offset data_block index_block tb_last_key filter_block pending_index_entry
    pending_handle set_filter set_file set_pending set_blocks].
  - done.
  - rewrite done_entries_app. unfold done_entries at 2. cbn. rewrite app_nil_r, <- app_assoc. apply HI.
  - done.
  - done.
  - by rewrite Hc2.
  - exists [], [0%nat]. rewrite Reset_new. split; [apply new_BlockBuilder_rep|done].
  - intros b [Hb| ->%list_elem_of_singleton]%elem_of_app.
    + destruct (ti_blocks _ _ _ _ _ HI b Hb) as [? ?]. split; [done|]. rewrite Hc1. by apply block_stored_app.
    + split; [done|]. by exists cs, R.
  - apply sorted_app. splits; [apply HI|by repeat constructor|].
    intros x y Hx ->%list_elem_of_singleton. cbn. rewrite Hoff. by apply (ti_offsets _ _ _ _ _ HI).
  - rewrite Hc1, zlen_app. intros b [Hb| ->%list_elem_of_singleton]%elem_of_app.
    + pose proof (ti_offsets _ _ _ _ _ HI b Hb). zlen_facts. lia.
    + cbn. rewrite Hoff. zlen_facts. lia.
  - rewrite <- Hc2. apply (filter_inv_start _ _ (zlen (contents w))); [apply HI|done].
  - done.
  - destruct (ti_index _ _ _ _ _ HI) as (ics & iR & idx & Hirep & Hics & Hilen & Hidx).
    exists ics, iR, idx. split; [done|]. split; [done|]. split; [done|]. rewrite Hpend in Hidx.
    destruct Hidx as [Hidx Hib]. exists dn, (cur, h), e. split; [done|]. split; [done|].
    split; [by apply (ti_last _ _ _ _ _ HI)|]. split; [done|]. split; [done|]. split; [done|].
    rewrite done_entries_app. unfold done_entries at 2. cbn. rewrite app_nil_r, table_need_app. lia.
Qed.

(** The pending index entry, with any key that separates. *)
Lemma add_index_entry_inv r w dn cur rest sep :
  tb_inv r w dn cur rest → pending_index_entry r = true →
  V sep → zlen sep ≤ zlen (tb_last_key r) → Compare (tb_last_key r) sep ≤ 0 →
  (∀ x, x ∈ rest → Compare sep x.1 < 0) →
  (∀ x, head rest = Some x → sep = FindShortestSeparator (tb_last_key r) x.1) →
  cur = [] ∧ tb_inv (add_index_entry sep r) w dn [] rest ∧ pending_index_entry (add_index_entry sep r) = false.
Proof.
  intros HI Hp Vs Hz Hge Hlt Hsep. pose proof HI as [? Hes ? ? ? ? Hblk ? ? ? ? (ics & iR & idx & Hirep & Hics & Hilen & Hidx)].
  rewrite Hp in Hidx.
  destruct Hidx as (dn' & b & e & -> & Hlast & Hlk & Hph & -> & Hidx & Hib). split; [done|]. split; [|done].
  split; try done. pose proof (zlen_block_bytes ics iR). zlen_facts. pose proof (need_split _ _ _ Hes).
  pose proof (table_need_nonneg rest). pose proof (table_need_nonneg []).
  pose proof (zlen_handle_EncodeTo b.2 []) as Hh. change (zlen []) with 0 in Hh. unfold kMaxEncodedLength in Hh.
  rewrite Hlk in Hz, Hge, Hsep.
  cbn [add_index_entry set_pending set_blocks set_last index_block pending_index_entry data_block pending_handle].
  rewrite Hph. destruct (Add_rep 1 (index_block r) ics iR sep (handle_EncodeTo b.2 []) Hirep) as (s & iR' & Hirep' & HR & Hs);
    [lia|lia|lia|lia|].
  eexists _, iR', (idx ++ [(sep, handle_EncodeTo b.2 [])]). split; [exact Hirep'|]. split; [by rewrite fmap_app, Hics|].
  rewrite block_need_snoc. cbn [fst snd]. split; [|split].
  - rewrite zlen_block_bytes, chunks_body_app, zlen_app. unfold chunks_body at 2. cbn [fmap list_fmap concat].
    rewrite app_nil_r. pose proof (zlen_enc_chunk_le s (sep, handle_EncodeTo b.2 [])) as Hc. cbn [fst snd] in *. lia.
  - apply index_entries_snoc; [done|done| |done|eauto]. intros x Hx.
    assert (Hv : Forall (λ e, V e.1) b.1 ∧ StronglySorted entry_lt b.1).
    { destruct (Hblk b) as [_ (cs & R & G & <- & _)]; [apply elem_of_app; right; by left|]. split; apply G. }
    destruct Hv as [Hv Hsb]. apply last_Some in Hlast as [l El]. rewrite El in Hx, Hv, Hsb.
    apply list.Forall_app in Hv as [Hvl [Ve _]%list.Forall_cons]. apply sorted_app in Hsb as (_ & _ & Hsb).
    apply elem_of_app in Hx as [Hx| ->%list_elem_of_singleton]; [|done].
    rewrite list.Forall_forall in Hvl.
    assert (Compare x.1 e.1 < 0) by (apply (Hsb x e); [done|by left]).
    eapply Compare_le_trans; [by apply Hvl|exact Ve|done| |exact Hge]. lia.
  - rewrite <- Hlk in *. lia.
Qed.

(** Adding the next entry to the block being built. *)
Definition add_to_block (key value : bytes) (r : TableBuilder) : TableBuilder :=
  let r := set_filter r (on_filter (λ P, AddKey key) (filter_block r)) in
  let r := set_last r key (num_entries r + 1) in
  set_blocks r (BlockBuilder.Add (block_restart_interval (tb_options r)) (data_block r) key value) (index_block r).

Lemma add_to_block_inv r w dn cur e rest :
  tb_inv r w dn cur (e :: rest) → pending_index_entry r = false →
  tb_inv (add_to_block e.1 e.2 r) w dn (cur ++ [e]) rest.
Proof.
  intros HI Hp. pose proof HI as [? Hes Ho ? ? (cs & R & Hrep & Hcs & Hlen) Hblk ? ? Hf ? (ics & iR & idx & Hirep & Hics & Hilen & Hidx)].
  rewrite Hp in Hidx. destruct Hidx as [Hidx Hib].
  pose proof (need_split _ _ _ Hes) as Hneed. rewrite table_need_cons in Hneed.
  pose proof (table_need_nonneg rest). pose proof (table_need_nonneg (done_entries dn)).
  pose proof (table_need_block cur). pose proof (zlen_block_bytes cs R). zlen_facts.
  split; try done; cbn [add_to_block set_filter set_last set_blocks data_block filter_block tb_options
    pending_index_entry index_block tb_last_key].
  - by rewrite <- app_assoc.
  - rewrite Ho. destruct (Add_rep (block_restart_interval options) (data_block r) cs R e.1 e.2 Hrep)
      as (s & R' & Hrep' & HR & Hs); [apply Hopt|lia..|].
    eexists _, R'. split; [exact Hrep'|]. split; [rewrite fmap_app, Hcs; by destruct e|].
    rewrite block_need_snoc, zlen_block_bytes, chunks_body_app, zlen_app. unfold chunks_body at 2.
    cbn [fmap list_fmap concat].
    rewrite app_nil_r. pose proof (zlen_enc_chunk_le s (e.1, e.2)) as Hc. cbn [fst snd] in *. lia.
  - unfold filter_inv in *. destruct (filter_policy options) as [FP|]; rewrite Hf; [|done]. cbn [on_filter].
    rewrite (AddBlocks_snoc (filter_blocks dn) (zlen (contents w)) (cur ++ [e]).*1), fmap_app, foldl_app.
    by rewrite AddBlocks_snoc.
  - intros e'. rewrite last_snoc. by intros [= <-].
  - exists ics, iR, idx. split; [done|]. split; [done|]. split; [done|]. rewrite Hp. split; [|done].
    by rewrite <- app_assoc.
Qed.

Lemma wp_Add r w dn cur e rest :
  tb_inv r w dn cur (e :: rest) →
  wp (Add e.1 e.2 r) (λ r' w', ∃ dn' cur', tb_inv r' w' dn' cur' rest) w.
Proof.
  intros HI. unfold Add. rewrite (ti_status _ _ _ _ _ HI). cbn [ok Status_OK negb]. cbn zeta.
  set (r1 := if pending_index_entry r then _ else r).
  assert (H1 : tb_inv r1 w dn cur (e :: rest) ∧ pending_index_entry r1 = false).
  { unfold r1. destruct (pending_index_entry r) eqn:Ep; [|done].
    pose proof (ti_index _ _ _ _ _ HI) as (cs & R & idx & _ & _ & _ & Hx). rewrite Ep in Hx.
    destruct Hx as (dn' & b & e' & Hdn & Hlast & Hlk & _ & Hcur & _).
    pose proof (ti_es _ _ _ _ _ HI) as Hes. pose proof Hsorted as Hs. pose proof Hvalid as Hv.
    rewrite Hes, Hdn, done_entries_app in Hs, Hv. unfold done_entries at 2 in Hs. unfold done_entries at 2 in Hv.
    apply last_Some in Hlast as [l El]. cbn [fmap list_fmap concat] in Hs, Hv. rewrite El, Hcur in Hs, Hv.
    cbn in Hs, Hv. rewrite app_nil_r, <- !app_assoc in Hs, Hv.
    apply list.Forall_app in Hv as [_ [_ [Ve' [Ve Vr]%list.Forall_cons]%list.Forall_cons]%list.Forall_app].
    apply sorted_app in Hs as (_ & (_ & [Hs2 Hs3]%StronglySorted_inv & _)%sorted_app & _).
    apply StronglySorted_inv in Hs2 as [_ Hs4]. apply list.Forall_cons in Hs3 as [Hlt _].
    assert (Hsep : Compare (FindShortestSeparator e'.1 e.1) e.1 < 0) by (by eapply Separator_lt).
    destruct (add_index_entry_inv r w dn cur (e :: rest) (FindShortestSeparator (tb_last_key r) e.1) HI Ep)
      as (-> & ? & ?); [..|by intros x [= <-]|done]; rewrite ?Hlk.
    - by eapply Separator_valid.
    - apply Separator_short.
    - by eapply Separator_ge.
    - intros x [->|Hx]%elem_of_cons; [done|]. rewrite list.Forall_forall in Hs4, Vr.
      eapply Compare_trans; [by eapply Separator_valid|exact Ve|by apply Vr|done|by apply Hs4]. }
  clearbody r1. destruct H1 as [H1 Hp1]. fold (add_to_block e.1 e.2 r1).
  pose proof (add_to_block_inv r1 w dn cur e rest H1 Hp1) as H2.
  change (tb_inv (set_blocks _ _ _)) with (tb_inv (add_to_block e.1 e.2 r1)).
  case_decide.
  - eapply wp_mono; [apply (wp_Flush _ _ _ _ _ H2); by destruct cur|]. intros r' w' (h & ? & _). by eauto.
  - apply wp_ret. by eauto.
Qed.

Lemma wp_AddAll r w dn cur l rest :
  tb_inv r w dn cur (l ++ rest) →
  wp (AddAll l r) (λ r' w', ∃ dn' cur', tb_inv r' w' dn' cur' rest) w.
Proof.
  unfold AddAll. assert (∀ m, wp m (λ r' w', ∃ dn' cur', tb_inv r' w' dn' cur' (l ++ rest)) w →
    wp (foldl (λ m e, m ≫= Add e.1 e.2) m l) (λ r' w', ∃ dn' cur', tb_inv r' w' dn' cur' rest) w) as H.
  { induction l as [|e l IH]; intros m Hm; [done|]. cbn [foldl]. apply IH. apply wp_bind.
    eapply wp_mono; [exact Hm|]. intros r' w' (dn' & cur' & HI). by eapply wp_Add. }
  intros HI. apply H, wp_ret. by eauto.
Qed.

(** The index block at the end. *)
Lemma finish_index r w dn :
  tb_inv r w dn [] [] →
  let index := if pending_index_entry r
    then BlockBuilder.Add 1 (index_block r) (FindShortSuccessor (tb_last_key r)) (handle_EncodeTo (pending_handle r) [])
    else index_block r in
  ∃ ics iR, builder_rep index ics iR ∧ zlen (block_bytes ics iR) ≤ 8 + 2 ^ 30 ∧
    index_entries dn [] ics.*2.
Proof.
  intros HI index. unfold index. pose proof (need_split _ _ _ (ti_es _ _ _ _ _ HI)) as Hneed.
  change (table_need []) with 0 in Hneed.
  destruct (pending_index_entry r) eqn:Ep.
  - pose proof (ti_index _ _ _ _ _ HI) as (cs & R & idx & _ & _ & _ & Hx). rewrite Ep in Hx.
    destruct Hx as (dn' & b & e' & Hdn & Hlast & Hlk & Hph & _).
    assert (Ve : V e'.1).
    { pose proof Hvalid as Hv. rewrite (ti_es _ _ _ _ _ HI), Hdn, done_entries_app in Hv.
      rewrite list.Forall_forall in Hv. apply Hv. apply elem_of_app; left. apply elem_of_app; right.
      unfold done_entries. cbn. rewrite app_nil_r. by eapply last_Some_elem_of. }
    destruct (add_index_entry_inv r w dn [] [] (FindShortSuccessor (tb_last_key r)) HI Ep) as (_ & HI' & Ep').
    + rewrite Hlk. by eapply Successor_valid.
    + apply Successor_short.
    + rewrite Hlk. by eapply Successor_ge.
    + by intros x ?%elem_of_nil.
    + done.
    + destruct (ti_index _ _ _ _ _ HI') as (ics & iR & idx' & Hrep & <- & Hlen & Hx). rewrite Ep' in Hx.
      exists ics, iR. split; [exact Hrep|]. destruct Hx as [Hx Hib]. split; [|done]. zlen_facts. lia.
  - destruct (ti_index _ _ _ _ _ HI) as (ics & iR & idx' & Hrep & <- & Hlen & Hx). rewrite Ep in Hx.
    exists ics, iR. split; [exact Hrep|]. destruct Hx as [Hx Hib]. split; [|done]. zlen_facts. lia.
Qed.

Lemma index_good dn ics iR later :
  index_entries dn later ics.*2 → (∀ b, b ∈ dn → b.1 ≠ [] ∧ Forall (λ e, V e.1) b.1) → Layout ics iR →
  zlen (block_bytes ics iR) < 2 ^ 32 → Good V ics iR.
Proof.
  intros [H1 H2 H3 H4 H5 _] Hne HL Hz. split; [done|done| |by apply list.Forall_forall].
  apply sorted_by_index. intros i j x y Hij Hx Hy. unfold entry_lt.
  destruct (lookup_lt_is_Some_2 dn j) as [b Hb]; [rewrite <- H1; by eapply lookup_lt_Some|].
  destruct (Hne b (list_elem_of_lookup_2 _ _ _ Hb)) as [Hnil HV]. destruct b as [[|e l] h]; [done|].
  cbn in HV. apply list.Forall_cons in HV as [Ve _].
  eapply (Compare_lt_le_trans _ e.1); [apply H3; by eapply list_elem_of_lookup_2|exact Ve|
    apply H3; by eapply list_elem_of_lookup_2| |apply (H4 j y _ e Hy Hb); by left].
  apply (H5 i x e Hx). apply elem_of_app; left. unfold done_entries. apply elem_of_concat.
  exists (e :: l). split; [by left|]. apply list_elem_of_fmap. exists (e :: l, h). split; [done|].
  apply (list_elem_of_lookup_2 _ (j - S i)%nat). rewrite lookup_drop. by replace (S i + (j - S i))%nat with j by lia.
Qed.

(** ** The finished table *)

(** The filters fit their block: the policy takes [a] bytes a key at most. *)
Definition filter_fits : Prop :=
  match filter_policy options with
  | None => True
  | Some FP => zlen (FilterName (FilterPolicy := FP)) < 2 ^ 20 ∧
      (∃ dom, FilterPolicyLaws FP dom) ∧
      ∃ a, (∀ keys, keys ≠ [] → zlen (CreateFilter keys []) ≤ a * zlen keys) ∧ a * zlen es < 2 ^ 30
  end.

(** The filter and its entry in the metaindex block. *)
Definition filter_stored (T : bytes) (mh : BlockHandle) (dn : list done_block) : Prop :=
  match filter_policy options with
  | None => block_stored (C := BytewiseComparator) any_key T mh []
  | Some FP => ∃ fh off, handle_ok fh ∧
      block_stored (C := BytewiseComparator) any_key T mh [(str "filter." ++ FilterName, handle_EncodeTo fh [])] ∧
      stored T fh (filter_Finish (policy_ := FP) (AddBlocks (filter_blocks dn ++ [(off, [])]))) ∧
      zlen (filter_Finish (policy_ := FP) (AddBlocks (filter_blocks dn ++ [(off, [])]))) + 5 < 2 ^ 31 ∧
      Forall (λ b, b.1 ≤ off) (filter_blocks dn)
  end.

Record table_image (T : bytes) (dn : list done_block) (idx : list entry) : Prop := {
  im_entries : es = done_entries dn;
  im_blocks b : b ∈ dn → b.1 ≠ [] ∧ block_stored V T b.2 b.1 ∧ handle_ok b.2;
  im_offsets : StronglySorted (λ a b, Format.offset_ a.2 ≤ Format.offset_ b.2) dn;
  im_index : index_entries dn [] idx;
  im_footer : ∃ body f, T = body ++ footer_EncodeTo f [] ∧ handle_ok (metaindex_handle_ f) ∧
    handle_ok (index_handle_ f) ∧ block_stored V T (index_handle_ f) idx ∧
    filter_stored T (metaindex_handle_ f) dn;
}.

Lemma set_file_id r o s : tb_offset r = o → tb_status r = s → set_file r o s = r.
Proof. intros <- <-. by destruct r. Qed.

Lemma stored_handle_ok T h raw : stored T h raw → zlen T < 2 ^ 62 → handle_ok h.
Proof.
  intros (pre & type & data & post & -> & -> & _ & Hd) HT. rewrite !zlen_app in HT. unfold kBlockTrailerSize in Hd.
  zlen_facts. split; unfold in_w; cbn; word_solve.
Qed.

Lemma block_stored_handle_ok {C' : Comparator} V' T h l :
  block_stored (C := C') V' T h l → zlen T < 2 ^ 62 → handle_ok h.
Proof. intros (? & ? & _ & _ & ?). by eapply stored_handle_ok. Qed.

Lemma filter_blocks_keys dn off : concat (filter_blocks dn ++ [(off, [])]).*2 = (done_entries dn).*1.
Proof.
  unfold filter_blocks, done_entries. rewrite fmap_app, concat_app. cbn. rewrite !app_nil_r.
  induction dn as [|b dn IH]; [done|]. cbn. by rewrite IH, fmap_app.
Qed.

Context (Hfits : filter_fits).

(** The filter block. *)
Definition filter_written (T : bytes) (fh : BlockHandle) (dn : list done_block) (off : Z) : Prop :=
  match filter_policy options with
  | None => True
  | Some FP => stored T fh (filter_Finish (policy_ := FP) (AddBlocks (filter_blocks dn ++ [(off, [])]))) ∧
      zlen (filter_Finish (policy_ := FP) (AddBlocks (filter_blocks dn ++ [(off, [])]))) + 5 < 2 ^ 31
  end.

Lemma filter_blocks_size r w dn FP :
  filter_policy options = Some FP → tb_inv r w dn [] [] →
  zlen (filter_Finish (policy_ := FP) (AddBlocks (filter_blocks dn ++ [(zlen (contents w), [])]))) + 5 < 2 ^ 31.
Proof.
  intros Hfp HI. pose proof Hfits as Hf. unfold filter_fits in Hf. rewrite Hfp in Hf.
  destruct Hf as (_ & [dom FPL] & a & Ha & Hb). pose proof (contents_bound _ _ _ _ _ HI) as Hcb.
  pose proof (need_split _ _ _ (ti_es _ _ _ _ _ HI)) as Hneed. change (table_need []) with 0 in Hneed.
  pose proof (zlen_nonneg (contents w)) as H0.
  assert (Ho : ∀ x, x ∈ filter_blocks dn → 0 ≤ x.1 ≤ zlen (contents w)).
  { intros x (b & -> & Hx)%list_elem_of_fmap. by apply (ti_offsets _ _ _ _ _ HI). }
  pose proof (filter_Finish_size (FL := FPL) a (zlen (contents w)) (filter_blocks dn ++ [(zlen (contents w), [])])) as Hsz.
  rewrite filter_blocks_keys, zlen_fmap in Hsz.
  rewrite (ti_es _ _ _ _ _ HI) in Hb. cbn [app] in Hb. rewrite app_nil_r in Hb.
  assert (zlen (contents w) / kFilterBase ≤ 2 ^ 30 / kFilterBase) as Hd by (apply Z.div_le_mono; [done|lia]).
  change (2 ^ 30 / kFilterBase) with 524288 in Hd.
  enough (zlen (filter_Finish (AddBlocks (filter_blocks dn ++ [(zlen (contents w), [])]))) ≤
    a * zlen (done_entries dn) + 4 * (zlen (contents w) / kFilterBase + 1) + 5) by word_solve.
  apply Hsz; [| |done|done].
  - apply sorted_app. splits; [|by repeat constructor|intros x y Hx ->%list_elem_of_singleton; by apply Ho].
    unfold filter_blocks. pose proof (ti_sorted _ _ _ _ _ HI) as Hs. clear - Hs.
    induction Hs as [|x l _ IH Hx]; [constructor|]. cbn. constructor; [done|].
    apply Forall_fmap. eapply Forall_impl; [|exact Hx]. done.
  - apply list.Forall_app. split; [by apply list.Forall_forall|]. constructor; [cbn; lia|done].
Qed.

Lemma wp_write_filter r w dn :
  tb_inv r w dn [] [] →
  wp (match filter_block r with
      | Some (P, fb) =>
          if ok (tb_status r) then WriteRawBlock (filter_Finish (policy_ := P) fb) kNoCompression r
          else mret (new_BlockHandle, r)
      | None => mret (new_BlockHandle, r)
      end)
    (λ x w', inv w' ∧ (∃ t, contents w' = contents w ++ t) ∧ zlen (contents w') ≤ zlen (contents w) + 2 ^ 31 ∧
       x.2 = set_file r (zlen (contents w')) Status_OK ∧
       filter_written (contents w') x.1 dn (zlen (contents w))) w.
Proof.
  intros HI. pose proof (contents_bound _ _ _ _ _ HI) as Hcb.
  pose proof (need_split _ _ _ (ti_es _ _ _ _ _ HI)) as Hneed. change (table_need []) with 0 in Hneed.
  pose proof (ti_filter _ _ _ _ _ HI) as Hf. unfold filter_inv, filter_written in *.
  pose proof (set_file_id r (zlen (contents w)) Status_OK (ti_offset _ _ _ _ _ HI) (ti_status _ _ _ _ _ HI)) as Hid.
  cbn [fmap list_fmap] in Hf. destruct (filter_policy options) as [FP|] eqn:Hfp; rewrite Hf.
  - rewrite (ti_status _ _ _ _ _ HI). cbn [ok Status_OK].
    pose proof (filter_blocks_size r w dn FP Hfp HI) as Hfit.
    apply wp_WriteRawBlock; [apply HI|apply HI|word_solve|lia|]. intros w' Hw' Hc'. cbn [fst snd].
    split; [done|]. split; [by eexists|]. split; [|split; [done|split; [|done]]].
    + rewrite Hc', zlen_app, zlen_block_image. unfold kBlockTrailerSize. lia.
    + eexists _, kNoCompression, _, []. rewrite app_nil_r. split; [exact Hc'|]. split; [done|]. split; [by left|].
      unfold kBlockTrailerSize. lia.
  - apply wp_ret. cbn [fst snd]. split; [apply HI|]. split; [exists []; by rewrite app_nil_r|]. split; [word_solve|done].
Qed.

Lemma wp_M_lift {A} (x : A) (f : W → option A) (Q : A → W → Prop) w : f w = Some x → Q x w → wp (M_lift f) Q w.
Proof. unfold wp, M_lift. by intros ->. Qed.

(** The metaindex block. *)
Lemma wp_write_meta r w fh :
  inv w → tb_offset r = zlen (contents w) → tb_options r = options → zlen (contents w) < 2 ^ 60 →
  (is_Some (filter_block r) ↔ is_Some (filter_policy options)) →
  wp (meta ← M_lift (λ _, meta_index_block r fh); WriteBlock meta r)
    (λ x w', inv w' ∧ (∃ t, contents w' = contents w ++ t) ∧ zlen (contents w') ≤ zlen (contents w) + 2 ^ 31 ∧
       x.2 = set_file r (zlen (contents w')) Status_OK ∧
       block_stored (C := BytewiseComparator) any_key (contents w') x.1
         match filter_policy options with
         | None => []
         | Some FP => [(str "filter." ++ FilterName (FilterPolicy := FP), handle_EncodeTo fh [])]
         end) w.
Proof.
  intros Hw Ho Hopts Hz Hfb.
  set (l := match filter_policy options with None => [] | Some _ => _ end).
  assert (∃ cs R b, meta_index_block r fh = Some b ∧ builder_rep b cs R ∧ cs.*2 = l ∧
    zlen (block_bytes cs R) ≤ block_need l) as (cs & R & b & Eb & Hrep & Hcs & Hlen).
  { unfold l, meta_index_block. rewrite Hopts. unfold filter_fits in Hfits.
    destruct (filter_policy options) as [FP|]; destruct (filter_block r) as [q|].
    - destruct Hfits as (Hname & _). cbn [mbind option_bind].
      pose proof (zlen_handle_EncodeTo fh []) as Hh. change (zlen []) with 0 in Hh. unfold kMaxEncodedLength in Hh.
      destruct (Adds_rep (block_restart_interval options) [(str "filter." ++ FilterName, handle_EncodeTo fh [])])
        as (cs & R & H); [apply Hopt| |by exists cs, R, (BlockBuilder.Add (block_restart_interval options)
          new_BlockBuilder (str "filter." ++ FilterName) (handle_EncodeTo fh []))].
      unfold block_need. cbn [foldr fst snd]. rewrite zlen_app. change (zlen (str "filter.")) with 7. word_solve.
    - destruct (proj2 Hfb ltac:(eauto)) as [? [=]].
    - destruct (proj1 Hfb ltac:(eauto)) as [? [=]].
    - exists [], [0%nat], new_BlockBuilder. split; [done|]. split; [apply new_BlockBuilder_rep|done]. }
  assert (block_need l ≤ 2 ^ 21) as Hl.
  { unfold l. unfold filter_fits in Hfits. destruct (filter_policy options) as [FP|]; [|done].
    destruct Hfits as [Hname _].
    pose proof (zlen_handle_EncodeTo fh []) as Hh. change (zlen []) with 0 in Hh. unfold kMaxEncodedLength in Hh.
      unfold block_need. cbn [foldr fst snd]. rewrite zlen_app. change (zlen (str "filter.")) with 7. word_solve. }
  apply wp_bind. apply (wp_M_lift b); [done|]. apply (wp_WriteBlock b cs R); [done|done|by rewrite Hopts|done|word_solve|word_solve|].
  intros w' h Hw' Ht Hst _ Hz'. cbn [fst snd]. split; [done|]. split; [done|]. split; [word_solve|]. split; [done|].
  exists cs, R. split; [|done]. split; [apply Hrep|word_solve|..]; rewrite Hcs.
  - unfold l. destruct (filter_policy options); repeat constructor.
  - unfold l. destruct (filter_policy options); repeat constructor.
Qed.

(** The table without its footer. *)
Definition body_done (T : bytes) (dn : list done_block) : Prop :=
  (∀ b, b ∈ dn → b.1 ≠ [] ∧ block_stored V T b.2 b.1) ∧
  StronglySorted (λ a b, Format.offset_ a.2 ≤ Format.offset_ b.2) dn.

Lemma body_done_app T t dn : body_done T dn → body_done (T ++ t) dn.
Proof.
  intros [H1 H2]. split; [|done]. intros b Hb. destruct (H1 b Hb). split; [done|by apply block_stored_app].
Qed.

Lemma filter_stored_app T t mh dn : filter_stored T mh dn → filter_stored (T ++ t) mh dn.
Proof.
  unfold filter_stored. destruct (filter_policy options) as [FP|].
  - intros (fh & off & ? & ? & ? & ?). exists fh, off. split; [done|].
    split; [by apply block_stored_app|]. split; [by apply stored_app|done].
  - by apply block_stored_app.
Qed.

Lemma wp_Flush_last r w dn cur :
  tb_inv r w dn cur [] → wp (Flush r) (λ r' w', ∃ dn', tb_inv r' w' dn' [] []) w.
Proof.
  intros HI. destruct (decide (cur = [])) as [->|Hne].
  - unfold Flush. rewrite (ti_status _ _ _ _ _ HI). cbn [ok Status_OK negb].
    destruct (ti_data _ _ _ _ _ HI) as (cs & R & Hrep & Hcs & _). apply fmap_nil_inv in Hcs as ->.
    rewrite (builder_not_empty _ [] R Hrep), bool_decide_true by done. apply wp_ret. by exists dn.
  - eapply wp_mono; [by eapply wp_Flush|]. intros r' w' (h & HI' & _). by eexists.
Qed.

Lemma wp_Finish r w dn0 cur :
  tb_inv r w dn0 cur [] →
  wp (Finish r) (λ r' w', inv w' ∧ tb_status r' = Status_OK ∧ FileSize r' = zlen (contents w') ∧
    zlen (contents w') < 2 ^ 34 ∧ ∃ dn idx, table_image (contents w') dn idx) w.
Proof.
  intros HI0. unfold Finish. apply wp_bind. eapply wp_mono; [by eapply wp_Flush_last|]. clear r w HI0.
  intros r w (dn & HI). cbn zeta.
  pose proof (contents_bound _ _ _ _ _ HI) as Hcb.
  pose proof (need_split _ _ _ (ti_es _ _ _ _ _ HI)) as Hneed. change (table_need []) with 0 in Hneed.
  destruct (finish_index r w dn HI) as (ics & iR & Hirep & Hilen & Hidx).
  assert (HIc : tb_inv (set_closed r) w dn [] []) by (destruct HI; by split).
  assert (Hb0 : body_done (contents w) dn) by (split; apply HI).
  apply wp_bind. eapply wp_mono; [exact (wp_write_filter _ _ _ HIc)|].
  intros [fh r1] w1 (Hw1 & [t1 Hc1] & Hz1 & Hr1 & Hfw). cbn [fst snd] in Hr1, Hfw. subst r1.
  cbn [tb_status set_file ok Status_OK].
  apply wp_bind. eapply wp_mono; [apply wp_write_meta; [done|done|apply HI|word_solve|]|].
  { cbn. pose proof (ti_filter _ _ _ _ _ HI) as Hf. unfold filter_inv in Hf.
    destruct (filter_policy options); rewrite Hf; [by split; eauto|done]. }
  intros [mh r2] w2 (Hw2 & [t2 Hc2] & Hz2 & Hr2 & Hms). cbn [fst snd] in Hr2, Hms. subst r2.
  cbn [tb_status set_file ok Status_OK].
  set (r2 := if pending_index_entry _ then _ else _).
  assert (Hr2 : index_block r2 = (if pending_index_entry r
    then BlockBuilder.Add 1 (index_block r) (FindShortSuccessor (tb_last_key r)) (handle_EncodeTo (pending_handle r) [])
    else index_block r) ∧ tb_offset r2 = zlen (contents w2) ∧ tb_options r2 = options).
  { pose proof (ti_options _ _ _ _ _ HI) as Ho. unfold r2.
    cbn [pending_index_entry set_file set_closed]. by destruct (pending_index_entry r). }
  destruct Hr2 as (Hr2i & Hr2o & Hr2p). rewrite <- Hr2i in Hirep. clearbody r2. clear Hr2i.
  apply wp_bind, wp_bind. apply (wp_WriteBlock _ ics iR); [done|done|by rewrite Hr2p|done|word_solve|word_solve|].
  intros w3 ih Hw3 [t3 Hc3] Hist _ Hz3. apply wp_ret. cbn [fst snd tb_status set_file set_blocks ok Status_OK].
  set (f := {| metaindex_handle_ := mh; index_handle_ := ih |}).
  apply wp_bind. apply wp_append_file; [done|]. intros w4 Hw4 Hc4. apply wp_ret.
  assert (Hz4 : zlen (contents w4) < 2 ^ 34).
  { rewrite Hc4, zlen_app, zlen_footer. change kFooterLength with 48. word_solve. }
  cbn [ok Status_OK tb_status set_file FileSize tb_offset].
  split; [done|]. split; [done|]. split.
  { unfold FileSize. cbn [tb_offset set_file]. rewrite Hc4, zlen_app in *. zlen_facts. apply wrap_small. word_solve. }
  split; [done|]. exists dn, ics.*2.
  assert (HT : contents w4 = contents w ++ t1 ++ t2 ++ t3 ++ footer_EncodeTo f [])
    by (rewrite Hc4, Hc3, Hc2, Hc1; by rewrite <- !app_assoc).
  assert (H62 : zlen (contents w4) < 2 ^ 62) by word_solve.
  pose proof (body_done_app _ (t1 ++ t2 ++ t3 ++ footer_EncodeTo f []) _ Hb0) as [Hb4 Hbs]. rewrite <- HT in Hb4.
  assert (HG : Good V ics iR).
  { eapply index_good; [exact Hidx| |apply Hirep|word_solve]. intros b Hb.
    destruct (ti_blocks _ _ _ _ _ HI b Hb) as [? (cs & R & G & E & _)]. split; [done|]. rewrite <- E. apply G. }
  assert (His : block_stored V (contents w4) ih ics.*2).
  { exists ics, iR. split; [done|]. split; [done|]. rewrite Hc4. by apply stored_app. }
  assert (Hms4 : block_stored (C := BytewiseComparator) any_key (contents w4) mh
     match filter_policy options with None => [] | Some FP => [(str "filter." ++ FilterName, handle_EncodeTo fh [])] end).
  { rewrite Hc4, Hc3, <- app_assoc. by apply block_stored_app. }
  split.
  - rewrite (ti_es _ _ _ _ _ HI). by rewrite app_nil_r.
  - intros b Hb. destruct (Hb4 b Hb) as [? ?]. split; [done|]. split; [done|by eapply block_stored_handle_ok].
  - done.
  - done.
  - exists (contents w3), f. split; [done|].
    split; [by eapply (block_stored_handle_ok (C' := BytewiseComparator))|].
    split; [by eapply block_stored_handle_ok|]. split; [done|].
    unfold filter_stored, filter_written in *. destruct (filter_policy options) as [FP|]; [|done].
    destruct Hfw as [Hfw Hfl]. exists fh, (zlen (contents w)).
    assert (Hfs : stored (contents w4) fh (filter_Finish (policy_ := FP) (AddBlocks (filter_blocks dn ++ [(zlen (contents w), [])]))))
      by (rewrite Hc4, Hc3, Hc2, <- !app_assoc; by apply stored_app).
    split; [by eapply stored_handle_ok|]. split; [done|]. split; [done|]. split; [done|].
    apply list.Forall_forall. intros [o ks] Ho. unfold filter_blocks in Ho.
    apply list_elem_of_fmap in Ho as (b & [= -> ->] & Hb). cbn. by apply (ti_offsets _ _ _ _ _ HI).
Qed.

Lemma wp_BuildTable w :
  inv w → contents w = [] →
  wp (BuildTable options es) (λ r' w', tb_status r' = Status_OK ∧ FileSize r' = zlen (contents w') ∧
    zlen (contents w') < 2 ^ 34 ∧ ∃ dn idx, table_image (contents w') dn idx) w.
Proof.
  intros Hw Hc. unfold BuildTable. apply wp_bind. eapply wp_mono.
  - apply (wp_AddAll _ w [] [] es []). rewrite app_nil_r. by apply new_TableBuilder_inv.
  - intros r' w' (dn & cur & HI). eapply wp_mono; [by eapply wp_Finish|]. by intros r2 w2 [_ ?].
Qed.
End Inv.
