(* ===== verification/Table.v ===== *)
(** Reading a table file: [table/table.cc].

    The block cache is what it answers to a lookup: [None] for no cache, and a
    function from keys to blocks otherwise. That a miss inserts the block is not
    visible here. The lifetime of blocks, which the cleanup functions of the
    iterators end, is not modelled. *)
From Stdlib Require Import Sorting.Sorted.
From S2P Require Import Prelude SortedLists Coding Crc32c Status Comparator Bloom Env Iterator BlockBuilder Block Format FilterBlock TwoLevelIterator TableBuilder.

(** [Table::Rep]; the file is a parameter, the status is always OK. *)
Record Table := {
  t_options : Options;
  cache_id : Z;
  t_filter : option (FilterPolicy * FilterBlockReader);
  t_metaindex_handle : BlockHandle;
  t_index_block : Block;
}.

(** What [Block::NewIterator] returns. *)
Abbreviation BlockIterator := (EmptyIterator + Iter)%type.

(** The iterator over the metaindex block. *)
Abbreviation meta_Iterator := (sum_Iterator (IJ := Block_Iter (C := BytewiseComparator))).

Section Tables.
Context {C : Comparator} {P : Placement} {F : TableFile}.
(** The ABI, and the id the block cache gives. *)
Context (char_signed : bool) (NewId : Z).

Definition ReadFilter (options : Options) (FP : FilterPolicy) (filter_handle_value : bytes)
    : option (option (FilterPolicy * FilterBlockReader)) :=
  match handle_DecodeFrom filter_handle_value with
  | inl _ => Some None
  | inr (filter_handle, _) =>
      r ← ReadBlock (paranoid_checks options) filter_handle;
      match r with
      | inl _ => Some None
      | inr block => Some (Some (FP, new_FilterBlockReader char_signed (contents_data block)))
      end
  end.

Definition ReadMeta (options : Options) (footer : Footer)
    : option (option (FilterPolicy * FilterBlockReader)) :=
  match filter_policy options with
  | None => Some None
  | Some FP =>
      r ← ReadBlock (paranoid_checks options) (metaindex_handle_ footer);
      match r with
      | inl _ => Some None
      | inr contents =>
          let meta := new_Block (contents_data contents) in
          let iter := block_NewIterator meta in
          let key := str "filter." ++ FilterName in
          iter ← it_Seek (Iterator := meta_Iterator) key iter;
          if it_Valid (Iterator := meta_Iterator) iter then
            k ← it_key (Iterator := meta_Iterator) iter;
            if Slice_eq k key then v ← it_value (Iterator := meta_Iterator) iter; ReadFilter options FP v else Some None
          else Some None
      end
  end.

Definition Table_Open (options : Options) (size : Z) : option (Status + Table) :=
  if decide (size < kFooterLength) then
    Some (inl (Corruption (str "file is too short to be an sstable") []))
  else
    let '(s, footer_input) := Read (size - kFooterLength) kFooterLength in
    if negb (ok s) then Some (inl s)
    else
      r ← footer_DecodeFrom footer_input;
      match r with
      | inl s => Some (inl s)
      | inr (footer, _) =>
          r ← ReadBlock (paranoid_checks options) (index_handle_ footer);
          match r with
          | inl s => Some (inl s)
          | inr contents =>
              filter ← ReadMeta options footer;
              Some (inr {| t_options := options; cache_id := NewId; t_filter := filter;
                           t_metaindex_handle := metaindex_handle_ footer;
                           t_index_block := new_Block (contents_data contents) |})
          end
      end.

Context (block_cache : option (bytes → option Block)) (verify_checksums : bool).

(** Reading the block of a handle that is not in the cache. *)
Definition read_block (handle : BlockHandle) : option BlockIterator :=
  r ← ReadBlock verify_checksums handle;
  match r with
  | inl s => Some (inl (NewErrorIterator s))
  | inr contents => Some (block_NewIterator (new_Block (contents_data contents)))
  end.

Definition BlockReader (table : Table) (index_value : bytes) : option BlockIterator :=
  match handle_DecodeFrom index_value with
  | inl s => Some (inl (NewErrorIterator s))
  | inr (handle, _) =>
      match block_cache with
      | Some Lookup =>
          let key := EncodeFixed64 (cache_id table) ++ EncodeFixed64 (Format.offset_ handle) in
          match Lookup key with
          | Some block => Some (block_NewIterator block)
          | None => read_block handle
          end
      | None => read_block handle
      end
  end.

(** There are fewer entries in the index block than bytes. *)
Definition index_fuel (table : Table) : nat := S (length (Block.data_ (t_index_block table))).

Definition Table_NewIterator (table : Table) : option (TwoLevelIterator BlockIterator BlockIterator) :=
  NewTwoLevelIterator (block_NewIterator (t_index_block table)).

Definition Table_Iterator (table : Table) : Iterator (TwoLevelIterator BlockIterator BlockIterator) :=
  TwoLevelIterator_Iterator (BlockReader table) (index_fuel table).

(** The status, and what the saver is called with. *)
Definition InternalGet (table : Table) (k : bytes) : option (Status * option entry) :=
  let iiter := block_NewIterator (t_index_block table) in
  iiter ← it_Seek k iiter;
  '(s, saved) ← (if it_Valid iiter then
    handle_value ← it_value iiter;
    may_match ← (match t_filter table with
                 | Some (FP, filter) =>
                     match handle_DecodeFrom handle_value with
                     | inr (handle, _) => filter_KeyMayMatch (policy_ := FP) filter (Format.offset_ handle) k
                     | inl _ => Some true
                     end
                 | None => Some true
                 end);
    if negb may_match then Some (Status_OK, None)
    else
      block_iter ← BlockReader table handle_value;
      block_iter ← it_Seek k block_iter;
      saved ← (if it_Valid block_iter then
                 key ← it_key block_iter; value ← it_value block_iter; Some (Some (key, value))
               else Some None);
      Some (it_status block_iter, saved)
    else Some (Status_OK, None));
  Some (if ok s then it_status iiter else s, saved).

Definition ApproximateOffsetOf (table : Table) (key : bytes) : option Z :=
  let index_iter := block_NewIterator (t_index_block table) in
  index_iter ← it_Seek key index_iter;
  if it_Valid index_iter then
    input ← it_value index_iter;
    match handle_DecodeFrom input with
    | inr (handle, _) => Some (Format.offset_ handle)
    | inl _ => Some (Format.offset_ (t_metaindex_handle table))
    end
  else Some (Format.offset_ (t_metaindex_handle table)).
End Tables.

(** ** Tables that the builder made *)

Abbreviation block_rel' V := (sum_rel (λ it es p, it = NewEmptyIterator ∧ es = [] ∧ p = None) (block_rel V)).

Section Stored.
Context {P : Placement} {PL : PlacementLaws P} {F : TableFile} {T : bytes} {FL : TableFileLaws F T}.

Lemma ReadBlock_stored verify h raw :
  stored T h raw → ∃ r, ReadBlock verify h = Some (inr r) ∧ contents_data r = raw.
Proof. intros (pre & type & data & post & HT & -> & Hm & Hl). by eapply ReadBlock_image. Qed.

Lemma block_stored_open {C : Comparator} {V : bytes → Prop} {CL : ComparatorLaws C V} verify h es :
  block_stored V T h es →
  ∃ r it, ReadBlock verify h = Some (inr r) ∧ block_NewIterator (new_Block (contents_data r)) = it ∧
    block_rel' V it es None.
Proof.
  intros (cs & R & G & <- & Hs). destruct (ReadBlock_stored verify h _ Hs) as (r & Hr & Hc).
  destruct (block_open cs R G) as (it & Hi & HR). exists r, (inr it). split; [done|]. by rewrite Hc.
Qed.
End Stored.

Section Correct.
Context {C : Comparator} {V : bytes → Prop} {CL : ComparatorLaws C V}.
Context {P : Placement} {PL : PlacementLaws P} {F : TableFile} {T : bytes} {FL : TableFileLaws F T}.
Context (options : Options) (es : list entry) (dn : list done_block) (idx : list entry).
Context (TI : table_image (V := V) options es T dn idx).
Context (Hsorted : StronglySorted entry_lt es).
Context (char_signed : bool) (NewId : Z) (block_cache : option (bytes → option Block)) (verify : bool).

(** The cache answers with the blocks of this file. *)
Definition cache_ok : Prop :=
  ∀ Lookup off block, block_cache = Some Lookup → Lookup (EncodeFixed64 NewId ++ EncodeFixed64 off) = Some block →
    ∀ n verify r, ReadBlock verify {| Format.offset_ := off; Format.size_ := n |} = Some (inr r) →
      block = new_Block (contents_data r).

Context (Hcache : cache_ok).

(** The filter that [Open] finds. *)
Definition filter_opened (filter : option (FilterPolicy * FilterBlockReader)) : Prop :=
  match filter_policy options with
  | None => filter = None
  | Some FP => ∃ off, filter = Some (FP, new_FilterBlockReader char_signed
      (filter_Finish (policy_ := FP) (AddBlocks (filter_blocks dn ++ [(off, [])])))) ∧
      zlen (filter_Finish (policy_ := FP) (AddBlocks (filter_blocks dn ++ [(off, [])]))) + 5 < 2 ^ 31 ∧
      Forall (λ b, b.1 ≤ off) (filter_blocks dn)
  end.

Lemma ReadMeta_ok footer :
  filter_stored options T (metaindex_handle_ footer) dn →
  ∃ filter, ReadMeta char_signed options footer = Some filter ∧ filter_opened filter.
Proof.
  unfold filter_stored, ReadMeta, filter_opened. destruct (filter_policy options) as [FP|]; [|by eexists].
  intros (fh & off & Hfh & Hmeta & Hst & Hlen & Hoff).
  set (key := str "filter." ++ FilterName) in *.
  destruct (block_stored_open (C := BytewiseComparator) (V := any_key) (paranoid_checks options) _ _ Hmeta)
    as (r & it & -> & Hit & HR). cbn [mbind option_bind]. cbn zeta. rewrite Hit.
  pose proof (rel_Seek (II := meta_Iterator) it _ None key HR I)
    as (it' & -> & HR').
  cbn [mbind option_bind]. unfold pos_seek in HR'.
  assert (entries_before (C := BytewiseComparator) [(key, handle_EncodeTo fh [])] key = []) as Hb.
  { unfold entries_before. rewrite filter_cons, decide_False; [done|]. cbn [fst].
    rewrite (proj2 (Compare_eq (ComparatorLaws := BytewiseComparator_laws) key key I I) eq_refl). lia. }
  rewrite Hb in HR'. cbn [length pos_at] in HR'.
  change (pos_at [(key, handle_EncodeTo fh [])] 0) with (Some 0%nat) in HR'.
  rewrite (rel_Valid (II := meta_Iterator) it' _ _ HR').
  rewrite bool_decide_true by eauto.
  rewrite (rel_key (II := meta_Iterator) it' _ 0 _ HR' eq_refl).
  cbn [mbind option_bind fst]. rewrite Slice_eq_spec, bool_decide_true by done.
  rewrite (rel_value (II := meta_Iterator) it' _ 0 _ HR' eq_refl).
  cbn [mbind option_bind snd]. unfold ReadFilter.
  rewrite <- (app_nil_r (handle_EncodeTo fh [])), handle_roundtrip by done.
  destruct (ReadBlock_stored (paranoid_checks options) fh _ Hst) as (r' & -> & Hc). cbn [mbind option_bind].
  eexists. split; [done|]. exists off. by rewrite Hc.
Qed.

(** What is known of an open table. *)
Record table_ok (t : Table) : Prop := {
  tok_cache : cache_id t = NewId;
  tok_filter : filter_opened (t_filter t);
  tok_index : ∃ ics iR, Good V ics iR ∧ ics.*2 = idx ∧ t_index_block t = new_Block (block_bytes ics iR);
}.

Lemma Table_Open_ok :
  ∃ t, Table_Open char_signed NewId options (zlen T) = Some (inr t) ∧ table_ok t.
Proof.
  destruct (im_footer _ _ _ _ _ TI) as (body & f & HT & Hm & Hi & Hidx & Hf).
  assert (Hz : zlen T = zlen body + kFooterLength) by by rewrite HT, zlen_app, zlen_footer.
  pose proof (zlen_nonneg body). unfold Table_Open. rewrite Hz, decide_False by lia.
  replace (zlen body + kFooterLength - kFooterLength) with (zlen body) by lia.
  destruct (table_Read (contents := T) (zlen body) kFooterLength) as (s & -> & ->); [done|done|lia|]. cbn [negb].
  assert (ztake kFooterLength (zdrop (zlen body) T) = footer_EncodeTo f []) as ->.
  { clear - HT. rewrite HT, zdrop_app. apply ztake_ge. by rewrite zlen_footer. }
  rewrite footer_decode by done. cbn [mbind option_bind].
  destruct Hidx as (ics & iR & G & Hics & Hst).
  destruct (ReadBlock_stored (paranoid_checks options) _ _ Hst) as (r & -> & Hc). cbn [mbind option_bind].
  destruct (ReadMeta_ok f Hf) as (filter & -> & Hfo). cbn [mbind option_bind].
  eexists. split; [done|]. split; [done|done|]. exists ics, iR. by rewrite Hc.
Qed.

(** Opening the block that an index entry names. *)
Lemma BlockReader_ok t b :
  table_ok t → b ∈ dn →
  ∃ d, BlockReader block_cache verify t (handle_EncodeTo b.2 []) = Some d ∧ block_rel' V d b.1 None.
Proof.
  intros Ht Hb. destruct (im_blocks _ _ _ _ _ TI b Hb) as (_ & Hst & Hh).
  unfold BlockReader. rewrite <- (app_nil_r (handle_EncodeTo b.2 [])), handle_roundtrip by done.
  destruct (block_stored_open verify _ _ Hst) as (r & it & Hr & Hit & HR).
  assert (read_block verify b.2 = Some it) as Hread.
  { unfold read_block. rewrite Hr. cbn [mbind option_bind]. by rewrite Hit. }
  exists it. split; [|done]. destruct block_cache as [Lookup|] eqn:Ec; [|done]. cbn zeta.
  rewrite (tok_cache t Ht).
  destruct (Lookup _) as [block|] eqn:El; [|done].
  assert (block = new_Block (contents_data r)) as ->; [|by rewrite Hit].
  destruct b.2 as [off n]. by eapply Hcache.
Qed.

(** The entries that iterating over a block gives. *)
Definition esof (t : Table) (v : bytes) : list entry :=
  default [] (d ← BlockReader block_cache verify t v; d ← it_SeekToFirst d;
              traverse it_Next (S (length es)) d).

Lemma length_done b : b ∈ dn → (length b.1 ≤ length es)%nat.
Proof.
  intros Hb. rewrite (im_entries _ _ _ _ _ TI). unfold done_entries.
  apply list_elem_of_split in Hb as (l1 & l2 & ->).
  rewrite fmap_app, fmap_cons, concat_app. cbn [concat]. rewrite !length_app. lia.
Qed.

Lemma esof_done t b : table_ok t → b ∈ dn → esof t (handle_EncodeTo b.2 []) = b.1.
Proof.
  intros Ht Hb. unfold esof. destruct (BlockReader_ok t b Ht Hb) as (d & -> & HR). cbn [mbind option_bind].
  destruct (rel_SeekToFirst d _ _ HR) as (d' & -> & HR'). cbn [mbind option_bind].
  rewrite (forward_rel _ d' b.1 0 HR'); [done|]. pose proof (length_done b Hb). lia.
Qed.

Lemma idx_done i e : idx !! i = Some e → ∃ b, dn !! i = Some b ∧ b ∈ dn ∧ e.2 = handle_EncodeTo b.2 [].
Proof.
  intros He. pose proof (im_index _ _ _ _ _ TI) as Hx.
  destruct (lookup_lt_is_Some_2 dn i) as [b Hb]; [rewrite <- (ie_length _ _ _ Hx); by eapply lookup_lt_Some|].
  exists b. split; [done|]. split; [by eapply list_elem_of_lookup_2|]. by eapply ie_handle.
Qed.

Lemma esof_idx t i e b : table_ok t → idx !! i = Some e → dn !! i = Some b → esof t e.2 = b.1.
Proof.
  intros Ht He Hb. rewrite (ie_handle _ _ _ (im_index _ _ _ _ _ TI) i e b He Hb).
  apply esof_done; [done|by eapply list_elem_of_lookup_2].
Qed.

Lemma flat_done t : table_ok t → flat idx (esof t) = es.
Proof.
  intros Ht. rewrite (im_entries _ _ _ _ _ TI). unfold flat, done_entries. f_equal.
  pose proof (ie_length _ _ _ (im_index _ _ _ _ _ TI)) as Hl.
  apply list_eq. intros i. rewrite !list_lookup_fmap. destruct (idx !! i) as [e|] eqn:He; cbn.
  - destruct (idx_done i e He) as (b & Hb & _). rewrite Hb. cbn. f_equal. by eapply esof_idx.
  - apply lookup_ge_None in He. by rewrite (proj2 (lookup_ge_None dn i)) by lia.
Qed.

Lemma done_block_valid b : b ∈ dn → StronglySorted entry_lt b.1 ∧ Forall (λ e, V e.1) b.1.
Proof.
  intros Hb. destruct (im_blocks _ _ _ _ _ TI b Hb) as (_ & (cs & R & G & E & _) & _). rewrite <- E. split; apply G.
Qed.

Lemma table_blocks_ok t :
  table_ok t →
  blocks_ok (V := V) (rel2 := block_rel' V) (block_function := BlockReader block_cache verify t)
    (fuel := index_fuel t) idx (esof t).
Proof.
  intros Ht. destruct (tok_index t Ht) as (ics & iR & G & Hics & Hib).
  pose proof (im_index _ _ _ _ _ TI) as Hx. split.
  - split.
    + rewrite <- Hics. apply G.
    + rewrite <- Hics. apply G.
    + intros i e He. destruct (idx_done i e He) as (b & Hb & Hin & _). rewrite (esof_idx t i e b Ht He Hb).
      by apply done_block_valid.
    + intros i e x He Hxe. destruct (idx_done i e He) as (b & Hb & Hin & _).
      rewrite (esof_idx t i e b Ht He Hb) in Hxe. by eapply (ie_upper _ _ _ Hx).
    + intros i j e e' x He He' Hij Hxe. destruct (idx_done j e' He') as (b & Hb & Hin & _).
      rewrite (esof_idx t j e' b Ht He' Hb) in Hxe. apply (ie_lower _ _ _ Hx i e x He).
      apply elem_of_app; left. unfold done_entries. apply elem_of_concat. exists b.1. split; [done|].
      apply list_elem_of_fmap. exists b. split; [done|].
      apply (list_elem_of_lookup_2 _ (j - S i)%nat). rewrite lookup_drop.
      by replace (S i + (j - S i))%nat with j by lia.
  - unfold index_fuel. rewrite Hib.
    destruct (new_Block_good ics iR (good_layout _ _ _ G) (good_len _ _ _ G)) as [_ ->]. cbn [Block.data_].
    rewrite <- Hics, length_fmap.
    pose proof (entries_bytes G). lia.
  - intros e [i He]%list_elem_of_lookup. destruct (idx_done i e He) as (b & Hb & Hin & Eh).
    destruct (BlockReader_ok t b Ht Hin) as (d & Ed & HR). exists d, None. rewrite Eh. split; [done|].
    by rewrite esof_done.
Qed.

Lemma index_open t : table_ok t → block_rel' V (block_NewIterator (t_index_block t)) idx None.
Proof.
  intros Ht. destruct (tok_index t Ht) as (ics & iR & G & <- & ->).
  destruct (block_open ics iR G) as (it & -> & HR). exact HR.
Qed.

Lemma Table_NewIterator_ok t :
  table_ok t → ∃ tl, Table_NewIterator t = Some tl ∧
    tl_rel (rel1 := block_rel' V) (rel2 := block_rel' V) (block_function := BlockReader block_cache verify t)
      (fuel := index_fuel t) (V := V) tl es None.
Proof.
  intros Ht. pose proof (NewTwoLevelIterator_rel _ _ _ (table_blocks_ok t Ht) (index_open t Ht)) as H.
  by rewrite flat_done in H.
Qed.

(** The filter lets every key of its block through. *)
Definition policy_ok : Prop :=
  match filter_policy options with
  | None => True
  | Some FP => ∃ dom, FilterPolicyLaws FP dom ∧ ∀ ks, ks `sublist_of` es.*1 → dom ks
  end.

Lemma table_valid : Forall (λ e, V e.1) es.
Proof.
  rewrite (im_entries _ _ _ _ _ TI). apply list.Forall_forall. intros x Hx.
  apply elem_of_concat in Hx as (l & Hx & (b & -> & Hb)%list_elem_of_fmap).
  destruct (done_block_valid b Hb) as [_ HV]. rewrite list.Forall_forall in HV. by apply HV.
Qed.

Lemma filter_blocks_sorted off :
  Forall (λ b, b.1 ≤ off) (filter_blocks dn) →
  StronglySorted (λ a b, a.1 ≤ b.1) (filter_blocks dn ++ [(off, [])]).
Proof.
  intros Hoff. apply sorted_app. splits; [|by repeat constructor|].
  - unfold filter_blocks. pose proof (im_offsets _ _ _ _ _ TI) as Hs. clear - Hs.
    induction Hs as [|x l _ IH Hx]; [constructor|]. cbn. constructor; [done|].
    apply Forall_fmap. eapply Forall_impl; [|exact Hx]. done.
  - intros x y Hx ->%list_elem_of_singleton. rewrite list.Forall_forall in Hoff. by apply Hoff.
Qed.

Lemma filter_blocks_rep {FP : FilterPolicy} {dom} {FPL : FilterPolicyLaws FP dom} off :
  dn ≠ [] → Forall (λ b, b.1 ≤ off) (filter_blocks dn) →
  blocks_rep (filter_blocks dn ++ [(off, [])]) (AddBlocks (filter_blocks dn ++ [(off, [])])).
Proof.
  intros Hne Hoff. apply (AddBlocks_rep (FL := FPL)); [by apply filter_blocks_sorted|].
  assert (Hpos : ∀ b, b ∈ dn → 0 ≤ Format.offset_ b.2).
  { intros b Hb. by destruct (im_blocks _ _ _ _ _ TI b Hb) as (_ & _ & [[? _] _]). }
  apply list.Forall_app. split; [|constructor; [|done]].
  - apply list.Forall_forall. intros x (b' & -> & Hb')%list_elem_of_fmap. by apply Hpos.
  - cbn. destruct dn as [|b l]; [done|]. specialize (Hpos b ltac:(by left)).
    apply list.Forall_cons in Hoff as [Hoff _]. cbn in Hoff. lia.
Qed.

Lemma filter_match t b k :
  table_ok t → policy_ok → b ∈ dn → k ∈ b.1.*1 →
  match t_filter t with
  | Some (FP, filter) => filter_KeyMayMatch (policy_ := FP) filter (Format.offset_ b.2) k = Some true
  | None => True
  end.
Proof.
  intros Ht HP Hb Hk. pose proof (tok_filter t Ht) as Hf. unfold filter_opened, policy_ok in *.
  destruct (filter_policy options) as [FP|]; [|by rewrite Hf]. destruct Hf as (off & -> & Hlen & Hoff).
  destruct HP as (dom & FPL & Hdom). assert (dn ≠ []) as Hne by (by intros ->; apply elem_of_nil in Hb).
  apply (blocks_rep_match (filter_dom := dom) _ (filter_blocks dn ++ [(off, [])]) _ _ b.1.*1); try done.
  - by apply (filter_blocks_rep (FPL := FPL)).
  - rewrite filter_blocks_keys, <- (im_entries _ _ _ _ _ TI). done.
  - lia.
  - apply elem_of_app; left. unfold filter_blocks. by apply (list_elem_of_fmap_2 (λ b, (Format.offset_ b.2, b.1.*1))).
  - by destruct (im_blocks _ _ _ _ _ TI b Hb) as (_ & _ & [[? _] _]).
Qed.

Lemma filter_defined t off k :
  table_ok t → policy_ok → dn ≠ [] →
  match t_filter t with
  | Some (FP, filter) => ∃ m, filter_KeyMayMatch (policy_ := FP) filter off k = Some m
  | None => True
  end.
Proof.
  intros Ht HP Hne. pose proof (tok_filter t Ht) as Hf. unfold filter_opened, policy_ok in *.
  destruct (filter_policy options) as [FP|]; [|by rewrite Hf]. destruct Hf as (off' & -> & Hlen & Hoff).
  destruct HP as (dom & FPL & _).
  apply (blocks_rep_defined (FL := FPL) _ (filter_blocks dn ++ [(off', [])])); [by apply (filter_blocks_rep (FPL := FPL))|lia].
Qed.

(** Neither the separators of the index nor the filter tell the key [k] from the
    key [k'] of the entry that is found. *)
Record found_as (k k' : bytes) : Prop := {
  fa_separator a : V a → Compare a k < 0 → Compare k k' ≤ 0 → Compare (FindShortestSeparator a k') k < 0;
  fa_filter : match filter_policy options with
              | Some FP => ∀ filter, KeyMayMatch (FilterPolicy := FP) k filter = KeyMayMatch k' filter
              | None => True
              end;
}.

Lemma found_as_refl k : V k → found_as k k.
Proof. intros Vk. split; [intros a Va Hlt _; by apply Separator_lt|]. by destruct (filter_policy options). Qed.

(** The entries from a key on, in terms of the block that the index names. *)
Lemma from_block i e b k :
  V k → idx !! i = Some e → dn !! i = Some b → ¬ Compare e.1 k < 0 →
  (∀ j e', (j < i)%nat → idx !! j = Some e' → Compare e'.1 k < 0) →
  entries_from es k = entries_from b.1 k ++ done_entries (drop (S i) dn).
Proof.
  intros Vk He Hb Hge Hlt. pose proof (im_index _ _ _ _ _ TI) as Hx. pose proof table_valid as HV. rewrite list.Forall_forall in HV.
  assert (Vx : ∀ b' x, b' ∈ dn → x ∈ b'.1 → V x.1).
  { intros b' x Hb' Hin. apply HV. rewrite (im_entries _ _ _ _ _ TI). apply elem_of_concat. exists b'.1. split; [done|].
    by apply list_elem_of_fmap_2. }
  assert (Ve : ∀ j e', idx !! j = Some e' → V e'.1) by (intros j e' He'; apply (ie_valid _ _ _ Hx); by eapply list_elem_of_lookup_2).
  rewrite (im_entries _ _ _ _ _ TI) at 1. rewrite <- (take_drop_middle dn i b Hb) at 1. rewrite done_entries_app. unfold entries_from.
  rewrite list.filter_app, filter_none; cbn.
  - unfold done_entries at 1. cbn. rewrite list.filter_app. f_equal. apply filter_all, list.Forall_forall. intros x Hin.
    pose proof Hin as (l & Hin' & (b' & -> & Hb')%list_elem_of_fmap)%elem_of_concat. pose proof (subseteq_drop _ _ _ Hb').
    rewrite Compare_nlt in Hge |- * by eauto.
    pose proof (ie_lower _ _ _ Hx i e x He) as Hl. rewrite app_nil_r in Hl.
    eapply Compare_le_trans; [done|by eapply Ve|by eapply Vx|exact Hge|].
    apply Z.lt_le_incl, Hl, Hin.
  - apply list.Forall_forall. intros x Hin Hn. apply Hn.
    apply elem_of_concat in Hin as (l & Hin & (b' & -> & Hb')%list_elem_of_fmap).
    apply elem_of_take in Hb' as (j & Hj & Hji).
    destruct (lookup_lt_is_Some_2 idx j) as [e' He']; [rewrite (ie_length _ _ _ Hx); by eapply lookup_lt_Some|].
    eapply Compare_le_lt_trans; [eapply Vx; [by eapply list_elem_of_lookup_2|done]|by eapply Ve|done|
      by eapply (ie_upper _ _ _ Hx)|by eapply Hlt].
Qed.

(** If the block holds nothing from [k] on, its index entry would be before [k]. *)
Lemma separator_block i e b k x :
  V k → idx !! i = Some e → dn !! i = Some b → entries_from b.1 k = [] →
  head (done_entries (drop (S i) dn)) = Some x → Compare k x.1 ≤ 0 → found_as k x.1 → Compare e.1 k < 0.
Proof.
  intros Vk He Hb Hnil Hx Hle Hfa. rewrite <- (app_nil_r (done_entries _)) in Hx.
  destruct (ie_separator _ _ _ (im_index _ _ _ _ _ TI) i e b x He Hb Hx) as (y & Hy%last_Some_elem_of & ->).
  destruct (done_block_valid b ltac:(by eapply list_elem_of_lookup_2)) as [_ HbV]. rewrite list.Forall_forall in HbV.
  apply (fa_separator _ _ Hfa); [by apply HbV| |done].
  destruct (decide (Compare y.1 k < 0)) as [|Hn]; [done|].
  assert (Hin : y ∈ entries_from b.1 k) by (by apply list_elem_of_filter). rewrite Hnil in Hin. by apply elem_of_nil in Hin.
Qed.

(** The first entry from [k] on is in the block that the index names. *)
Lemma head_block i e b k x :
  V k → idx !! i = Some e → dn !! i = Some b → ¬ Compare e.1 k < 0 →
  (∀ j e', (j < i)%nat → idx !! j = Some e' → Compare e'.1 k < 0) →
  head (entries_from es k) = Some x → found_as k x.1 → head (entries_from b.1 k) = Some x.
Proof.
  intros Vk He Hb Hge Hlt Hh Hfa. pose proof (from_block i e b k Vk He Hb Hge Hlt) as Hfrom.
  assert (Hk : x ∈ entries_from es k) by (rewrite head_lookup in Hh; by eapply list_elem_of_lookup_2).
  apply list_elem_of_filter in Hk as [Hk Hin]. pose proof table_valid as HV. rewrite list.Forall_forall in HV.
  rewrite Hfrom in Hh. destruct (entries_from b.1 k) as [|y l] eqn:En; [|done].
  destruct Hge. apply (separator_block i e b k x); try done. apply Compare_nlt; auto.
Qed.

Lemma pos_at_cases l i : pos_at l i = Some i ∧ (i < length l)%nat ∨ pos_at l i = None ∧ (length l ≤ i)%nat.
Proof. unfold pos_at. case_decide; [by left|right; split; [done|lia]]. Qed.

(** What the filter says of the block. *)
Lemma may_match_ok t b k :
  table_ok t → policy_ok → b ∈ dn →
  (∀ x, head (entries_from es k) = Some x → found_as k x.1 → head (entries_from b.1 k) = Some x) →
  ∃ m, match t_filter t with
       | Some (FP, filter) => filter_KeyMayMatch (policy_ := FP) filter (Format.offset_ b.2) k
       | None => Some true
       end = Some m ∧ (m = false → ∀ x, head (entries_from es k) = Some x → ¬ found_as k x.1).
Proof.
  intros Ht HP Hin Hhead.
  pose proof (filter_defined t (Format.offset_ b.2) k Ht HP (λ E, ltac:(rewrite E in Hin; by apply elem_of_nil in Hin))) as Hd.
  pose proof (λ k', filter_match t b k' Ht HP Hin) as Hmt. pose proof (tok_filter t Ht) as Hf. unfold filter_opened in Hf.
  pose proof (λ k', fa_filter k k') as Hfa.
  destruct (t_filter t) as [[FP filter]|]; [|by exists true]. destruct Hd as [m Hd]. exists m. split; [done|]. intros -> x Hh Hx.
  destruct (filter_policy options) as [FP'|]; [|done]. destruct Hf as (off & [= -> _] & _).
  specialize (Hhead x Hh Hx). specialize (Hfa x.1 Hx).
  assert (Hxb : x ∈ b.1) by (rewrite head_lookup in Hhead; apply list_elem_of_lookup_2 in Hhead; by apply list_elem_of_filter in Hhead as [_ ?]).
  specialize (Hmt x.1 ltac:(by apply list_elem_of_fmap_2)). unfold filter_KeyMayMatch in Hd, Hmt. cbn zeta in Hd, Hmt. rewrite Hfa in Hd.
  rewrite Hd in Hmt. discriminate.
Qed.

Lemma InternalGet_ok t k :
  table_ok t → policy_ok → V k →
  ∃ saved, InternalGet block_cache verify t k = Some (Status_OK, saved) ∧
    (∀ e, head (entries_from es k) = Some e → found_as k e.1 → saved = Some e) ∧
    (∀ e, saved = Some e → head (entries_from es k) = Some e).
Proof.
  intros Ht HP Vk. unfold InternalGet.
  pose proof (table_blocks_ok t Ht) as B. pose proof (blocks_index _ _ B) as IO.
  destruct (entries_before_cut (V := V) idx k (index_sorted _ _ IO) (index_valid _ _ IO) Vk) as (Hi1 & Hi2 & Hi3).
  cbn zeta. destruct (rel_Seek _ _ _ k (index_open t Ht) Vk) as (iiter & -> & HI). cbn [mbind option_bind].
  unfold pos_seek in HI. pose proof (rel_status _ _ _ HI) as Hst. rewrite (rel_Valid _ _ _ HI).
  set (i := length (entries_before idx k)) in *.
  destruct (pos_at_cases idx i) as [[Ep Hi]|[Ep Hi]]; rewrite Ep in *.
  2:{ rewrite bool_decide_false by (by intros [? ?]). cbn [mbind option_bind ok Status_OK]. rewrite Hst.
      exists None. split; [done|]. split; [|done]. intros x Hh.
      pose proof (flat_before_all (V := V) idx (esof t) IO k Vk) as Hall. rewrite flat_done in Hall by done.
      rewrite (entries_from_drop (V := V) es k Hsorted table_valid Vk), Hall, drop_all in Hh; [done|].
      intros e [j He]%list_elem_of_lookup. apply (Hi2 j e); [|done]. apply lookup_lt_Some in He. lia. }
  rewrite bool_decide_true by eauto. destruct (lookup_lt_is_Some_2 idx i Hi) as [e He].
  destruct (idx_done i e He) as (b & Hb & Hin & Eh).
  rewrite (rel_value _ _ _ _ HI He), Eh. cbn [mbind option_bind].
  rewrite <- (app_nil_r (handle_EncodeTo b.2 [])), handle_roundtrip, app_nil_r by apply (im_blocks _ _ _ _ _ TI b Hin).
  pose proof (λ x, head_block i e b k x Vk He Hb (Hi3 e He) Hi2) as Hhead.
  pose proof (from_block i e b k Vk He Hb (Hi3 e He) Hi2) as Hfrom.
  set (may_match := match t_filter t with Some _ => _ | None => _ end).
  assert (∃ m, may_match = Some m ∧ (m = false → ∀ x, head (entries_from es k) = Some x → ¬ found_as k x.1)) as (m & -> & Hm)
    by by apply (may_match_ok t b k).
  cbn [mbind option_bind]. destruct m; cbn [negb].
  2:{ cbn [mbind option_bind ok Status_OK]. rewrite Hst. exists None. split; [done|]. split; [|done].
      intros x Hh Hfa. by destruct (Hm eq_refl x Hh). }
  destruct (BlockReader_ok t b Ht Hin) as (d & -> & Hd). cbn [mbind option_bind].
  destruct (rel_Seek _ _ _ k Hd Vk) as (d' & -> & Hd'). cbn [mbind option_bind].
  unfold pos_seek in Hd'. rewrite (rel_Valid _ _ _ Hd'), (rel_status _ _ _ Hd').
  destruct (done_block_valid b Hin) as [Hbs HbV]. rewrite (entries_from_drop (V := V) b.1 k Hbs HbV Vk) in Hhead, Hfrom.
  set (j := length (entries_before b.1 k)) in *.
  destruct (pos_at_cases b.1 j) as [[Ej Hj]|[Ej Hj]]; rewrite Ej in *.
  - rewrite bool_decide_true by eauto. destruct (lookup_lt_is_Some_2 b.1 j Hj) as [x Hx].
    rewrite (rel_key _ _ _ _ Hd' Hx), (rel_value _ _ _ _ Hd' Hx). cbn [mbind option_bind ok Status_OK]. rewrite Hst.
    assert (Hh : head (entries_from es k) = Some (x.1, x.2)).
    { rewrite Hfrom, (drop_S b.1 x j Hx). by destruct x. }
    eexists. split; [done|]. split; [|by intros ? [= <-]]. intros y Hy _. by rewrite Hh in Hy.
  - rewrite bool_decide_false by (by intros [? ?]). cbn [mbind option_bind ok Status_OK]. rewrite Hst.
    exists None. split; [done|]. split; [|done]. intros x Hh Hfa. specialize (Hhead x Hh Hfa). by rewrite drop_ge in Hhead by done.
Qed.
End Correct.

(** ** Build, open, read *)

(** Whoever can read the bytes [T] of a file opens a table of that size and sees
    exactly the entries; a lookup finds the first entry from the key on if neither
    separators nor the filter tell its key from the one that is looked for. *)
Definition reads_as {C : Comparator} {P : Placement} (V : bytes → Prop) (options : Options) (size : Z) (T : bytes)
    (es : list entry) : Prop :=
  ∀ (F : TableFile) (FL : TableFileLaws F T) char_signed NewId,
  ∃ t, Table_Open char_signed NewId options size = Some (inr t) ∧
    ∀ block_cache verify, cache_ok NewId block_cache →
      (∃ tl, Table_NewIterator t = Some tl ∧
         ∃ p, shows (II := Table_Iterator block_cache verify t) V tl es p) ∧
      ∀ k, V k → ∃ saved, InternalGet block_cache verify t k = Some (Status_OK, saved) ∧
        (∀ e, head (entries_from es k) = Some e → found_as (V := V) options k e.1 → saved = Some e) ∧
        (∀ e, saved = Some e → head (entries_from es k) = Some e).

Lemma image_reads {C : Comparator} {V : bytes → Prop} {CL : ComparatorLaws C V} {SS : ShortSeparators C}
    {P : Placement} {PL : PlacementLaws P} options es T dn idx :
  table_image (V := V) options es T dn idx → StronglySorted entry_lt es → Forall (λ e, V e.1) es →
  policy_ok options es → reads_as V options (zlen T) T es.
Proof.
  intros TI Hs HV HP F FL char_signed NewId.
  destruct (Table_Open_ok options es dn idx TI char_signed NewId) as (t & Ht & Hok).
  exists t. split; [done|]. intros block_cache verify Hcache. split.
  - destruct (Table_NewIterator_ok options es dn idx TI char_signed NewId block_cache verify Hcache t Hok)
      as (tl & Htl & HR).
    exists tl. split; [done|]. exists None. eexists. split; [apply TwoLevelIterator_laws|exact HR].
  - intros k Vk. by eapply InternalGet_ok.
Qed.

(** A table that the builder made into an empty file. *)
Lemma built_reads {C : Comparator} {V : bytes → Prop} {CL : ComparatorLaws C V}
    {SS : ShortSeparators C} {P : Placement} {PL : PlacementLaws P}
    {W} {file : WritableFile W} {inv contents} {RF : ReliableFile file inv contents} options es (w : W) :
  options_ok options → StronglySorted entry_lt es → Forall (λ e, V e.1) es → table_need es < 2 ^ 30 →
  filter_fits options es → policy_ok options es → inv w → contents w = [] →
  ∃ r w', BuildTable options es w = Some (r, w') ∧ tb_status r = Status_OK ∧ FileSize r = zlen (contents w') ∧
    zlen (contents w') < 2 ^ 34 ∧ reads_as V options (zlen (contents w')) (contents w') es.
Proof.
  intros Hopt Hs HV Hn Hfit HP Hw Hc.
  pose proof (wp_BuildTable options Hopt es Hs HV Hn Hfit w Hw Hc) as Hwp.
  apply wp_Some in Hwp as (r & w' & E & Hst & Hsize & Hlen & dn & idx & TI). exists r, w'.
  split; [done|]. split; [done|]. split; [done|]. split; [done|]. exact (image_reads options es (contents w') dn idx TI Hs HV HP).
Qed.

(** C20: a table that is built of entries in the order of the comparator, with
    any block size, restart interval, compression and filter, into an empty file
    whose writes do not fail, ends with an OK status; whoever can read the file
    opens the table, and sees exactly the entries: the iterator gives them in
    both directions and from any key, and a lookup finds every key there is and
    never more than the first entry at or after the key. A block cache, whatever
    it holds of the file, and checksums do not change this. *)
Theorem Table_roundtrip {C : Comparator} {V : bytes → Prop} {CL : ComparatorLaws C V}
    {SS : ShortSeparators C} {P : Placement} {PL : PlacementLaws P}
    {W} {file : WritableFile W} {inv contents} {RF : ReliableFile file inv contents} options es (w : W) :
  options_ok options → StronglySorted entry_lt es → Forall (λ e, V e.1) es → table_need es < 2 ^ 30 →
  filter_fits options es → policy_ok options es → inv w → contents w = [] →
  ∃ r w', BuildTable options es w = Some (r, w') ∧ tb_status r = Status_OK ∧
    ∀ (F : TableFile) (FL : TableFileLaws F (contents w')) char_signed NewId,
    ∃ t, Table_Open char_signed NewId options (FileSize r) = Some (inr t) ∧
      ∀ block_cache verify, cache_ok NewId block_cache →
        (∃ tl, Table_NewIterator t = Some tl ∧
           iterates (II := Table_Iterator block_cache verify t) tl V es) ∧
        ∀ k, V k → ∃ saved, InternalGet block_cache verify t k = Some (Status_OK, saved) ∧
          (∀ v, (k, v) ∈ es → saved = Some (k, v)) ∧
          (∀ e, saved = Some e → head (entries_from es k) = Some e).
Proof.
  intros Hopt Hs HV Hn Hfit HP Hw Hc.
  destruct (built_reads options es w Hopt Hs HV Hn Hfit HP Hw Hc) as (r & w' & E & Hst & Hsz & _ & HR0). exists r, w'.
  split; [done|]. split; [done|]. rewrite Hsz. intros F FL char_signed NewId. destruct (HR0 F FL char_signed NewId) as (t & Ht & HR).
  exists t. split; [done|]. intros block_cache verify Hcache. destruct (HR block_cache verify Hcache) as [Hit Hget].
  split; [destruct Hit as (tl & Htl & p & Hsh); exists tl; split; [done|]; by apply (rel_iterates (IL := shows_laws V) tl es p)|].
  intros k Vk. destruct (Hget k Vk) as (saved & Hg & H1 & H2). exists saved. split; [done|]. split; [|done].
  intros v Hkv. apply H1; [by apply (entries_from_head (V := V))|by apply found_as_refl].
Qed.

Example Table_roundtrip_witness :
  let FP := NewBloomFilterPolicy true 10 in
  let options := {| paranoid_checks := true; block_size := 30; block_restart_interval := 2;
                    compression := kSnappyCompression; filter_policy := Some FP |} in
  let es := [(str "apple", str "1"); (str "apply", str "2"); (str "banana", str "3")] in
  ∃ r w', BuildTable (C := BytewiseComparator) (P := UnalignedPlacement) (file := BytesWritable) options es [] =
      Some (r, w') ∧ tb_status r = Status_OK ∧
    ∀ (F : TableFile) (FL : TableFileLaws F (id w')) char_signed NewId,
    ∃ t, Table_Open (P := UnalignedPlacement) char_signed NewId options (FileSize r) = Some (inr t) ∧
      ∀ block_cache verify, cache_ok (P := UnalignedPlacement) NewId block_cache →
        (∃ tl, Table_NewIterator t = Some tl ∧
           iterates (II := Table_Iterator (C := BytewiseComparator) (P := UnalignedPlacement) block_cache verify t)
             (C := BytewiseComparator) tl any_key es) ∧
        ∀ k, any_key k → ∃ saved,
          InternalGet (C := BytewiseComparator) (P := UnalignedPlacement) block_cache verify t k = Some (Status_OK, saved) ∧
          (∀ v, (k, v) ∈ es → saved = Some (k, v)) ∧
          (∀ e, saved = Some e → head (entries_from (C := BytewiseComparator) es k) = Some e).
Proof.
  apply (Table_roundtrip (CL := BytewiseComparator_laws) (PL := UnalignedPlacement_laws) (RF := BytesWritable_reliable)).
  - split; [by right|done].
  - repeat constructor; vm_compute; reflexivity.
  - repeat constructor.
  - by vm_compute.
  - split; [by vm_compute|]. split; [eexists; apply NewBloomFilterPolicy_laws|]. exists 20.
    split; [intros keys; apply zlen_Bloom_CreateFilter; lia|by vm_compute].
  - exists (bloom_dom (mkBloomFilterPolicy 10)). split; [apply NewBloomFilterPolicy_laws|].
    intros ks Hks%sublist_length. cbn in Hks. unfold bloom_dom, zlen. change (bits_per_key_ _) with 10.
    rewrite wrap_small by word_solve. word_solve.
  - exact I.
  - reflexivity.
Defined.
