(* ===== verification/Merger.v ===== *)
(** The merging iterator of [table/merger.cc]: one sorted sequence out of
    several.

    [MergingIterator] is its array of wrapped children, the index of
    [current_] in it ([None] for NULL) and its direction.  The children have
    sorted entries and no key in common (internal keys carry a sequence
    number); the merging iterator then obeys the laws of an iterator over the
    sorted union of them, whatever the order in which its methods are called. *)
From Stdlib Require Import Sorting.Sorted.
From stdpp Require Import sorting.
From S2P Require Import Prelude SortedLists Status Comparator Iterator BlockBuilder Block.

Inductive MergeDirection := kForward | kReverse.

Section MergingIterator.
Context {C : Comparator} {I : Type} {II : Iterator I}.

Abbreviation W := (IteratorWrapper I).

Record MergingIterator := {
  children_ : list W;
  current_ : option nat;
  direction_ : MergeDirection;
}.

Definition new_MergingIterator (children : list I) : option MergingIterator :=
  ws ← mapM (λ it, wrapper_Set new_IteratorWrapper (Some it)) children;
  Some {| children_ := ws; current_ := None; direction_ := kForward |}.

(** The loops of [FindSmallest] and [FindLargest]: the child at index [best]
    is replaced by a valid one that is better. *)
Fixpoint find_child (better : bytes → bytes → bool) (ws : list W) (order : list nat)
    (best : option nat) : option (option nat) :=
  match order with
  | [] => Some best
  | i :: order =>
      child ← ws !! i;
      if it_Valid child then
        match best with
        | None => find_child better ws order (Some i)
        | Some b =>
            ck ← it_key child; bk ← ws !! b ≫= it_key;
            find_child better ws order (if better ck bk then Some i else Some b)
        end
      else find_child better ws order best
  end.

Definition FindSmallest (ws : list W) : option (option nat) :=
  find_child (λ a b, bool_decide (Compare a b < 0)) ws (seq 0 (length ws)) None.

Definition FindLargest (ws : list W) : option (option nat) :=
  find_child (λ a b, bool_decide (0 < Compare a b)) ws (reverse (seq 0 (length ws))) None.

(** The methods that position every child and then find the current one. *)
Definition with_smallest (ws : list W) : option MergingIterator :=
  c ← FindSmallest ws; Some {| children_ := ws; current_ := c; direction_ := kForward |}.
Definition with_largest (ws : list W) : option MergingIterator :=
  c ← FindLargest ws; Some {| children_ := ws; current_ := c; direction_ := kReverse |}.

Definition merge_SeekToFirst (it : MergingIterator) : option MergingIterator :=
  mapM it_SeekToFirst (children_ it) ≫= with_smallest.
Definition merge_SeekToLast (it : MergingIterator) : option MergingIterator :=
  mapM it_SeekToLast (children_ it) ≫= with_largest.
Definition merge_Seek (target : bytes) (it : MergingIterator) : option MergingIterator :=
  mapM (it_Seek target) (children_ it) ≫= with_smallest.

Definition merge_current (it : MergingIterator) : option W := c ← current_ it; children_ it !! c.
Definition merge_key (it : MergingIterator) : option bytes := merge_current it ≫= it_key.
Definition merge_value (it : MergingIterator) : option bytes := merge_current it ≫= it_value.

(** [if (child != current_)] in a loop over the children from index [i]. *)
Fixpoint map_others (c : nat) (f : W → option W) (i : nat) (ws : list W) : option (list W) :=
  match ws with
  | [] => Some []
  | w :: ws =>
      w ← (if decide (i = c) then Some w else f w);
      ws ← map_others c f (S i) ws;
      Some (w :: ws)
  end.

(** The child is moved to its first entry after [key]. *)
Definition position_after (key : bytes) (child : W) : option W :=
  child ← it_Seek key child;
  if it_Valid child then
    ck ← it_key child; if decide (Compare key ck = 0) then it_Next child else Some child
  else Some child.

(** The child is moved to its last entry before [key]. *)
Definition position_before (key : bytes) (child : W) : option W :=
  child ← it_Seek key child;
  if it_Valid child then it_Prev child else it_SeekToLast child.

(** [children_[c]] is replaced by what [f] makes of it. *)
Definition move_child (c : nat) (f : W → option W) (ws : list W) : option (list W) :=
  w ← ws !! c; w ← f w; Some (<[c := w]> ws).

Definition merge_Next (it : MergingIterator) : option MergingIterator :=
  c ← current_ it; key ← merge_key it;
  ws ← match direction_ it with
        | kForward => Some (children_ it)
        | kReverse => map_others c (position_after key) 0 (children_ it)
        end;
  move_child c it_Next ws ≫= with_smallest.

Definition merge_Prev (it : MergingIterator) : option MergingIterator :=
  c ← current_ it; key ← merge_key it;
  ws ← match direction_ it with
        | kForward => map_others c (position_before key) 0 (children_ it)
        | kReverse => Some (children_ it)
        end;
  move_child c it_Prev ws ≫= with_largest.

(** The first status that is not OK. *)
Fixpoint merge_status (ws : list W) : Status :=
  match ws with
  | [] => Status_OK
  | w :: ws => if Status.ok (it_status w) then merge_status ws else it_status w
  end.

#[export] Instance MergingIterator_Iterator : Iterator MergingIterator := {
  it_Valid it := bool_decide (is_Some (current_ it));
  it_SeekToFirst := merge_SeekToFirst;
  it_SeekToLast := merge_SeekToLast;
  it_Seek := merge_Seek;
  it_Next := merge_Next;
  it_Prev := merge_Prev;
  it_key := merge_key;
  it_value := merge_value;
  it_status it := merge_status (children_ it);
}.
End MergingIterator.
Arguments MergingIterator I : clear implicits.

Section NewMergingIterator.
Context {C : Comparator} {I : Type} {II : Iterator I}.

(** An empty iterator, the only child itself or a merging iterator. *)
Definition NewMergingIterator (children : list I) : option (EmptyIterator + I + MergingIterator I) :=
  match children with
  | [] => Some (inl (inl NewEmptyIterator))
  | [it] => Some (inl (inr it))
  | _ => inr <$> new_MergingIterator children
  end.
End NewMergingIterator.

(** ** Where a list is cut *)

Section Cut.
Context {C : Comparator} {V : bytes → Prop} {CL : ComparatorLaws C V}.

(** The number of entries of [l] among the first [n] of [es]. *)
Definition cut (es : list entry) (n : nat) (l : list entry) : nat :=
  length (filter (λ x, x ∈ take n es) l).

Context (es : list entry).
Hypothesis es_sorted : StronglySorted entry_lt es.
Hypothesis es_V : Forall (λ e, V e.1) es.

Lemma elem_V e : e ∈ es → V e.1.
Proof. intros He. rewrite list.Forall_forall in es_V. by apply es_V. Qed.

Lemma entry_lt_irrefl e : e ∈ es → ¬ entry_lt e e.
Proof. intros He. unfold entry_lt. pose proof (Compare_refl e.1 (elem_V e He)). lia. Qed.

Lemma entry_lt_asymm a b : a ∈ es → b ∈ es → entry_lt a b → ¬ entry_lt b a.
Proof.
  unfold entry_lt. intros Ha Hb Hab Hba. apply Compare_flip in Hab; [lia|by apply elem_V..].
Qed.

(** Of two entries of [es] the one before the other has the smaller index. *)
Lemma entry_lt_index i j a b : es !! i = Some a → es !! j = Some b → entry_lt a b → (i < j)%nat.
Proof.
  intros Ha Hb Hab. destruct (decide (i < j)%nat); [done|]. exfalso.
  destruct (decide (i = j)) as [->|Hne].
  - simplify_eq. eapply entry_lt_irrefl; [|done]. by eapply list_elem_of_lookup_2.
  - eapply (entry_lt_asymm a b); [by eapply list_elem_of_lookup_2..|done|].
    eapply sorted_index; [done| |done..]. lia.
Qed.

Lemma elem_of_take_index i n a : es !! i = Some a → a ∈ take n es ↔ (i < n)%nat.
Proof.
  intros Ha. split.
  - intros [j Hj]%list_elem_of_lookup. apply lookup_take_Some in Hj as [Hj Hn].
    destruct (decide (i = j)) as [->|Hne]; [done|]. exfalso.
    destruct (decide (i < j)%nat); (eapply (entry_lt_irrefl a); [by eapply list_elem_of_lookup_2|]).
    + by eapply (sorted_index _ es i j).
    + eapply (sorted_index _ es j i); [done| |done..]. lia.
  - intros Hn. apply list_elem_of_lookup. exists i. by apply lookup_take_Some.
Qed.

Section Sub.
Context (l : list entry).
Hypothesis l_sorted : StronglySorted entry_lt l.
Hypothesis l_sub : l ⊆ es.

Lemma cut_spec n i x : l !! i = Some x → (i < cut es n l)%nat ↔ x ∈ take n es.
Proof.
  unfold cut. pose proof l_sorted as Hs. clear l_sorted. revert i l_sub.
  induction Hs as [|a l' Hs IH Ha]; intros i Hsub Hx; [done|].
  rewrite filter_cons. destruct (decide (a ∈ take n es)) as [Hin|Hin].
  - destruct i as [|i]; cbn in *; [split; intros; [by simplify_eq|lia]|].
    rewrite <- (IH i); [lia| |done]. intros y Hy. apply Hsub. by right.
  - rewrite filter_none.
    + split; [cbn; lia|]. destruct i as [|i]; cbn in *; [congruence|]. intros Hx'. exfalso. apply Hin.
      apply list_elem_of_lookup_2 in Hx. rewrite list.Forall_forall in Ha. specialize (Ha x Hx).
      pose proof (Hsub a ltac:(by left)) as [ia Hia]%list_elem_of_lookup.
      pose proof (Hsub x ltac:(by right)) as [ix Hix]%list_elem_of_lookup.
      rewrite (elem_of_take_index ix) in Hx' by done. rewrite (elem_of_take_index ia) by done.
      pose proof (entry_lt_index ia ix a x Hia Hix Ha). lia.
    + apply list.Forall_forall. intros y Hy Hy'. apply Hin.
      rewrite list.Forall_forall in Ha. specialize (Ha y Hy).
      pose proof (Hsub a ltac:(by left)) as [ia Hia]%list_elem_of_lookup.
      pose proof (Hsub y ltac:(by right)) as [ix Hix]%list_elem_of_lookup.
      rewrite (elem_of_take_index ix) in Hy' by done. rewrite (elem_of_take_index ia) by done.
      pose proof (entry_lt_index ia ix a y Hia Hix Ha). lia.
Qed.

Lemma cut_le n : (cut es n l ≤ length l)%nat.
Proof. apply length_filter. Qed.

Lemma cut_unique n m :
  (m ≤ length l)%nat → (∀ i x, l !! i = Some x → (i < m)%nat ↔ x ∈ take n es) → cut es n l = m.
Proof.
  intros Hm Hi. apply filter_cut; [..|done].
  - intros j x Hj Hx. by apply (Hi j x).
  - intros j x Hj Hx Hin. apply (Hi j x Hx) in Hin. lia.
Qed.

Lemma cut_0 : cut es 0 l = 0%nat.
Proof. apply cut_unique; [lia|]. intros i x Hx. cbn. rewrite elem_of_nil. lia. Qed.

Lemma cut_all : cut es (length es) l = length l.
Proof.
  apply cut_unique; [done|]. intros i x Hx. rewrite firstn_all.
  split; intros _; [by eapply l_sub, list_elem_of_lookup_2|by eapply lookup_lt_Some].
Qed.

(** The entry [n] belongs to another list. *)
Lemma cut_S_other n e : es !! n = Some e → e ∉ l → cut es (S n) l = cut es n l.
Proof.
  intros He Hl. apply cut_unique; [apply cut_le|]. intros i x Hx. rewrite cut_spec by done.
  rewrite (take_S_r _ _ _ He), elem_of_app, list_elem_of_singleton. split; [tauto|].
  intros [?| ->]; [done|]. destruct Hl. by eapply list_elem_of_lookup_2.
Qed.

(** The entry [n] is the one after the cut. *)
Lemma cut_here n e : es !! n = Some e → e ∈ l → l !! cut es n l = Some e.
Proof.
  intros He [i Hi]%list_elem_of_lookup. enough (cut es n l = i) as -> by done.
  pose proof (lookup_lt_Some _ _ _ Hi). apply cut_unique; [lia|]. intros j x Hx.
  pose proof (l_sub x (list_elem_of_lookup_2 _ _ _ Hx)) as [jx Hjx]%list_elem_of_lookup.
  rewrite (elem_of_take_index jx) by done. split.
  - intros Hj. eapply entry_lt_index; [done|exact He|]. by eapply (sorted_index _ l j i).
  - intros Hj. assert (entry_lt x e) as Hlt by by eapply (sorted_index _ es jx n).
    destruct (decide (j < i)%nat); [done|]. exfalso. destruct (decide (j = i)) as [->|Hne].
    + simplify_eq. eapply entry_lt_irrefl; [|done]. by eapply list_elem_of_lookup_2.
    + assert (entry_lt e x) by (eapply (sorted_index _ l i j); [done|lia|done..]).
      eapply (entry_lt_asymm x e); [by eapply list_elem_of_lookup_2..|done|done].
Qed.

Lemma cut_S_here n e : es !! n = Some e → e ∈ l → cut es (S n) l = S (cut es n l).
Proof.
  intros He Hl. pose proof (cut_here n e He Hl) as Hc. pose proof (lookup_lt_Some _ _ _ Hc).
  apply cut_unique; [lia|]. intros j x Hx.
  rewrite (take_S_r _ _ _ He), elem_of_app, list_elem_of_singleton, <- (cut_spec n j x) by done.
  split; [|intros [?| ->]]; [|lia|].
  - intros Hj. destruct (decide (j = cut es n l)) as [->|]; [|left; lia]. right. congruence.
  - enough (j = cut es n l) by lia. destruct (decide (j < cut es n l)%nat) as [Hlt|].
    + apply (cut_spec n j e Hx) in Hlt. apply (elem_of_take_index n n e) in Hlt; [lia|done].
    + destruct (decide (j = cut es n l)); [done|]. exfalso.
      eapply (entry_lt_irrefl e); [by eapply list_elem_of_lookup_2|].
      eapply (sorted_index _ l (cut es n l) j); [done|lia|done..].
Qed.
End Sub.
End Cut.

(** ** Lists of children *)

Section Children.
Context {C : Comparator} {I : Type} {II : Iterator I} {V : bytes → Prop}.
Context {rel : I → list entry → option nat → Prop} {IL : IteratorLaws I V rel}.

Abbreviation W := (IteratorWrapper I).
Abbreviation wrel := (wrapper_rel (rel := rel)).

(** Each child [i] is at a position of the list [i]. *)
Definition at_pos (pos : list entry → option nat) (w : W) (l : list entry) : Prop := wrel w l (pos l).
Definition somewhere (w : W) (l : list entry) : Prop := ∃ p, wrel w l p.

Lemma mapM_at (f : W → option W) (P Q : W → list entry → Prop) ws ls :
  (∀ w l, P w l → l ∈ ls → ∃ w', f w = Some w' ∧ Q w' l) →
  Forall2 P ws ls → ∃ ws', mapM f ws = Some ws' ∧ Forall2 Q ws' ls.
Proof.
  intros Hf HP. revert Hf. induction HP as [|w l ws ls Hw HP IH]; intros Hf; [by exists []|].
  destruct (Hf w l Hw) as (w' & Ew & Hw'); [by left|].
  destruct IH as (ws' & Ews & Hws'); [intros; apply Hf; [done|by right]|].
  exists (w' :: ws'). split; [|by constructor]. cbn. by rewrite Ew; cbn; rewrite Ews.
Qed.

Lemma map_others_at c (f : W → option W) (P Q : W → list entry → Prop) k ws ls :
  (∀ i w l, P w l → ls !! i = Some l → (k + i)%nat ≠ c → ∃ w', f w = Some w' ∧ Q w' l) →
  (∀ i w l, P w l → ls !! i = Some l → (k + i)%nat = c → Q w l) →
  Forall2 P ws ls → ∃ ws', map_others c f k ws = Some ws' ∧ Forall2 Q ws' ls.
Proof.
  intros Hf Hc HP. revert k Hf Hc. induction HP as [|w l ws ls Hw HP IH]; intros k Hf Hc; [by exists []|].
  destruct (IH (S k)) as (ws' & Ews & Hws').
  { intros i w0 l0 Hw0 Hl0 Hne. apply (Hf (S i)); [done..|lia]. }
  { intros i w0 l0 Hw0 Hl0 Heq. apply (Hc (S i)); [done..|lia]. }
  cbn [map_others]. case_decide as Hk; cbn.
  - rewrite Ews. cbn. eexists; split; [done|]. constructor; [apply (Hc 0%nat); [done..|lia]|done].
  - destruct (Hf 0%nat w l Hw) as (w' & -> & Hw'); [done|lia|]. cbn. rewrite Ews.
    eexists; split; [done|]. by constructor.
Qed.

Lemma move_child_at c (f : W → option W) (P Q : W → list entry → Prop) ws ls l :
  Forall2 P ws ls → ls !! c = Some l →
  (∀ w, P w l → ∃ w', f w = Some w' ∧ Q w' l) →
  (∀ i w l, P w l → ls !! i = Some l → i ≠ c → Q w l) →
  ∃ ws', move_child c f ws = Some ws' ∧ Forall2 Q ws' ls.
Proof.
  intros HP Hl Hf Ho. destruct (Forall2_lookup_r _ _ _ _ _ HP Hl) as (w & Hw & HPw).
  destruct (Hf w HPw) as (w' & Ew & HQ). unfold move_child. rewrite Hw. cbn. rewrite Ew.
  eexists; split; [done|]. apply Forall2_same_length_lookup_2.
  { by rewrite length_insert, (list.Forall2_length _ _ _ HP). }
  intros i wi li Hwi Hli. destruct (decide (c = i)) as [<-|Hne].
  - rewrite list_lookup_insert_eq in Hwi by (by eapply lookup_lt_Some). by simplify_eq.
  - rewrite list_lookup_insert_ne in Hwi by done. apply (Ho i); [|done..].
    by eapply Forall2_lookup_lr.
Qed.

(** The search for the best child finds the one that is better than every
    other valid child. *)
Lemma find_child_unique better (ws : list W) c w k order best :
  ws !! c = Some w → it_Valid w = true → it_key w = Some k →
  (∀ j wj, ws !! j = Some wj → it_Valid wj = true → j ≠ c →
    ∃ kj, it_key wj = Some kj ∧ better k kj = true ∧ better kj k = false) →
  (∀ j wj wi i, ws !! j = Some wj → ws !! i = Some wi → it_Valid wj = true → it_Valid wi = true →
    ∃ ki kj, it_key wi = Some ki ∧ it_key wj = Some kj) →
  better k k = false →
  Forall (λ i, (i < length ws)%nat) order →
  (c ∈ order ∨ best = Some c) →
  (∀ b, best = Some b → ∃ wb, ws !! b = Some wb ∧ it_Valid wb = true) →
  find_child better ws order best = Some (Some c).
Proof.
  intros Hc Hv Hk Hbest Hkeys Hkk. revert best. induction order as [|i order IH]; intros best Ho Hin Hb.
  { destruct Hin as [?%elem_of_nil| ->]; [done|]. done. }
  apply list.Forall_cons in Ho as [Hi Ho]. cbn [find_child].
  destruct (lookup_lt_is_Some_2 ws i Hi) as [wi Hwi]. rewrite Hwi. cbn [mbind option_bind].
  destruct (it_Valid wi) eqn:Evi.
  - destruct best as [b|].
    + destruct (Hb b eq_refl) as (wb & Hwb & Hvb).
      destruct (Hkeys b wb wi i Hwb Hwi Hvb Evi) as (ki & kb & Eki & Ekb).
      rewrite Eki, Hwb. cbn [mbind option_bind]. rewrite Ekb. cbn [mbind option_bind].
      apply IH; [done|..].
      * destruct (decide (i = c)) as [->|Hic].
        -- right. destruct (decide (b = c)) as [->|Hbc]; [by destruct (better ki kb)|].
           destruct (Hbest b wb Hwb Hvb Hbc) as (kb' & Ekb' & Hbt & _). by simplify_eq; rewrite Hbt.
        -- destruct Hin as [[?|?]%elem_of_cons|[= ->]]; [done|by left|]. right.
           destruct (Hbest i wi Hwi Evi Hic) as (ki' & Eki' & _ & Hbt). by simplify_eq; rewrite Hbt.
      * intros b' Hb'. destruct (better ki kb); simplify_eq; eauto.
    + apply IH; [done|..].
      * destruct Hin as [[->|?]%elem_of_cons|?]; [by right|by left|done].
      * intros b [= <-]. eauto.
  - apply IH; [done| |done]. destruct Hin as [[->|?]%elem_of_cons|?]; [congruence|by left|by right].
Qed.

Lemma find_child_none better (ws : list W) order :
  (∀ j wj, ws !! j = Some wj → it_Valid wj = false) →
  Forall (λ i, (i < length ws)%nat) order → find_child better ws order None = Some None.
Proof.
  intros Hv. induction 1 as [|i order Hi Ho IH]; [done|]. cbn [find_child].
  destruct (lookup_lt_is_Some_2 ws i Hi) as [wi Hwi]. rewrite Hwi. cbn [mbind option_bind]. by rewrite (Hv i wi Hwi).
Qed.

Lemma at_pos_Valid pos w l : at_pos pos w l → it_Valid w = bool_decide (is_Some (pos l)).
Proof. apply (rel_Valid w). Qed.

Lemma at_pos_key pos w l i e : at_pos pos w l → pos l = Some i → l !! i = Some e → it_key w = Some e.1.
Proof. unfold at_pos. intros Hw Hp. rewrite Hp in Hw. by eapply rel_key. Qed.

Lemma at_pos_inv pos w l :
  at_pos pos w l → it_Valid w = true → ∃ i e, pos l = Some i ∧ l !! i = Some e ∧ it_key w = Some e.1.
Proof.
  intros Hw Hv. rewrite (at_pos_Valid _ _ _ Hw) in Hv. apply bool_decide_eq_true in Hv as [i Hi].
  pose proof Hw as Hw'. unfold at_pos in Hw. rewrite Hi in Hw.
  destruct (lookup_lt_is_Some_2 l i (rel_in w l i Hw)) as [e He]. exists i, e. splits; [done..|].
  by eapply at_pos_key.
Qed.

Lemma find_child_at better pos ws ls order c l i e :
  Forall2 (at_pos pos) ws ls → ls !! c = Some l → pos l = Some i → l !! i = Some e →
  (∀ j lj k x, ls !! j = Some lj → j ≠ c → pos lj = Some k → lj !! k = Some x →
    better e.1 x.1 = true ∧ better x.1 e.1 = false) →
  better e.1 e.1 = false → Forall (λ i, (i < length ws)%nat) order → c ∈ order →
  find_child better ws order None = Some (Some c).
Proof.
  intros HF Hl Hp He Hb Hee Ho Hc. destruct (Forall2_lookup_r _ _ _ _ _ HF Hl) as (w & Hw & Hat).
  apply (find_child_unique _ ws c w e.1); try done; [| | | |by left].
  - rewrite (at_pos_Valid _ _ _ Hat), Hp. by apply bool_decide_eq_true.
  - by eapply at_pos_key.
  - intros j wj Hj Hv Hne. destruct (Forall2_lookup_l _ _ _ _ _ HF Hj) as (lj & Hlj & Hatj).
    destruct (at_pos_inv _ _ _ Hatj Hv) as (k & x & Hk & Hx & ->). exists x.1. split; [done|].
    by eapply (Hb j).
  - intros j wj wi i' Hj Hi' Hvj Hvi.
    destruct (Forall2_lookup_l _ _ _ _ _ HF Hj) as (lj & _ & Hatj).
    destruct (Forall2_lookup_l _ _ _ _ _ HF Hi') as (li & _ & Hati).
    destruct (at_pos_inv _ _ _ Hatj Hvj) as (? & ? & _ & _ & ->).
    destruct (at_pos_inv _ _ _ Hati Hvi) as (? & ? & _ & _ & ->). eauto.
Qed.

Lemma find_child_nowhere better pos ws ls order :
  Forall2 (at_pos pos) ws ls → (∀ l, l ∈ ls → pos l = None) →
  Forall (λ i, (i < length ws)%nat) order → find_child better ws order None = Some None.
Proof.
  intros HF Hp Ho. apply find_child_none; [|done]. intros j wj Hj.
  destruct (Forall2_lookup_l _ _ _ _ _ HF Hj) as (lj & Hlj & Hatj).
  rewrite (at_pos_Valid _ _ _ Hatj), (Hp lj) by by eapply list_elem_of_lookup_2. done.
Qed.
End Children.

(** ** The merge *)

Section Merge.
Context {C : Comparator} {I : Type} {II : Iterator I} {V : bytes → Prop} {CL : ComparatorLaws C V}.
Context {rel : I → list entry → option nat → Prop} {IL : IteratorLaws I V rel}.

Abbreviation W := (IteratorWrapper I).
Abbreviation somewhere := (somewhere (rel := rel)).

(** Every child is at its first entry that is not among the first [n] of [es]. *)
Definition ahead (es : list entry) (n : nat) : W → list entry → Prop :=
  at_pos (rel := rel) (λ l, pos_at l (cut es n l)).
(** Every child is at its last entry that is. *)
Definition behind (es : list entry) (n : nat) : W → list entry → Prop :=
  at_pos (rel := rel) (λ l, pos_prev (cut es n l)).

(** [es] is what the lists [ls] of the children hold, in order. *)
Definition merged (ls : list (list entry)) (es : list entry) : Prop :=
  StronglySorted entry_lt es ∧ es ≡ₚ concat ls.

Definition merge_rel (it : MergingIterator I) (es : list entry) (p : option nat) : Prop :=
  ∃ ls, merged ls es ∧ Forall2 somewhere (children_ it) ls ∧
    match p with
    | None => current_ it = None
    | Some n => ∃ c l e, current_ it = Some c ∧ ls !! c = Some l ∧ es !! n = Some e ∧ e ∈ l ∧
        Forall2 (match direction_ it with kForward => ahead es n | kReverse => behind es (S n) end)
          (children_ it) ls
    end.

Section Merged.
Context (ls : list (list entry)) (es : list entry) (ws : list W).
Hypothesis M : merged ls es.
Hypothesis SW : Forall2 somewhere ws ls.

Lemma lists_sorted l : l ∈ ls → StronglySorted entry_lt l ∧ Forall (λ e, V e.1) l.
Proof.
  intros [i Hi]%list_elem_of_lookup. destruct (Forall2_lookup_r _ _ _ _ _ SW Hi) as (w & _ & p & Hw).
  by eapply (rel_sorted w).
Qed.

Lemma lists_sub l : l ∈ ls → l ⊆ es.
Proof. intros Hl x Hx. destruct M as [_ ->]. apply elem_of_concat. eauto. Qed.

Lemma merged_V : Forall (λ e, V e.1) es.
Proof.
  destruct M as [_ ->]. apply list.Forall_forall. intros x (l & Hx & Hl)%elem_of_concat.
  destruct (lists_sorted l Hl) as [_ HV]. rewrite list.Forall_forall in HV. by apply HV.
Qed.

Lemma merged_NoDup : NoDup es.
Proof.
  pose proof merged_V as HV. destruct M as [Hs _]. clear M. induction Hs as [|x l Hs IH Hx]; [constructor|].
  apply list.Forall_cons in HV as [Vx HV]. constructor; [|by apply IH].
  intros Hin. rewrite list.Forall_forall in Hx. specialize (Hx x Hin). unfold entry_lt in Hx.
  rewrite Compare_refl in Hx by done. lia.
Qed.

(** An entry is in one list only. *)
Lemma one_list i j li lj e : ls !! i = Some li → ls !! j = Some lj → e ∈ li → e ∈ lj → i = j.
Proof.
  pose proof merged_NoDup as Hnd. destruct M as [_ HP]. rewrite HP in Hnd. clear HP.
  clear M SW. revert i j. induction ls as [|l ls' IH]; intros i j Hi Hj Hei Hej; [done|].
  cbn in Hnd. apply list.NoDup_app in Hnd as (_ & Hd & Hnd).
  destruct i as [|i], j as [|j]; cbn in *; simplify_eq; [done|..].
  - destruct (Hd e Hei). apply elem_of_concat. exists lj. split; [done|]. by eapply list_elem_of_lookup_2.
  - destruct (Hd e Hej). apply elem_of_concat. exists li. split; [done|]. by eapply list_elem_of_lookup_2.
  - f_equal. by eapply IH.
Qed.

Lemma its_list n e : es !! n = Some e → ∃ c l, ls !! c = Some l ∧ e ∈ l.
Proof.
  intros He%list_elem_of_lookup_2. destruct M as [_ HP]. rewrite HP in He.
  apply elem_of_concat in He as (l & Hl & [c Hc]%list_elem_of_lookup). eauto.
Qed.

Lemma pos_at_Some l i j : pos_at l i = Some j → i = j ∧ (j < length l)%nat.
Proof. unfold pos_at. case_decide; [intros [= <-]; lia|done]. Qed.

(** The head of a child that is ahead. *)
Lemma ahead_head n l j x :
  l ∈ ls → pos_at l (cut es n l) = Some j → l !! j = Some x → ∃ i, es !! i = Some x ∧ (n ≤ i)%nat.
Proof.
  intros Hl [<- _]%pos_at_Some Hx. pose proof (lists_sub l Hl) as Hsub.
  pose proof (Hsub x (list_elem_of_lookup_2 _ _ _ Hx)) as [i Hi]%list_elem_of_lookup.
  exists i. split; [done|]. destruct (decide (n ≤ i)%nat); [done|]. exfalso.
  pose proof merged_V as HV. destruct M as [Hs _]. destruct (lists_sorted l Hl) as [Hsl _].
  assert (x ∈ take n es) as Hin by (eapply (elem_of_take_index es Hs HV i); [done|lia]).
  rewrite <- (cut_spec es Hs HV l Hsl Hsub n _ x Hx) in Hin. lia.
Qed.

Lemma behind_head n l j x :
  l ∈ ls → pos_prev (cut es n l) = Some j → l !! j = Some x → ∃ i, es !! i = Some x ∧ (i < n)%nat.
Proof.
  intros Hl Hp Hx. pose proof (lists_sub l Hl) as Hsub.
  pose proof (Hsub x (list_elem_of_lookup_2 _ _ _ Hx)) as [i Hi]%list_elem_of_lookup.
  exists i. split; [done|]. pose proof merged_V as HV. destruct M as [Hs _].
  destruct (lists_sorted l Hl) as [Hsl _].
  rewrite <- (elem_of_take_index es Hs HV i n x Hi), <- (cut_spec es Hs HV l Hsl Hsub n j x Hx).
  unfold pos_prev in Hp. destruct (cut es n l); [done|]. simplify_eq. lia.
Qed.

Lemma order_seq : Forall (λ i, (i < length ws)%nat) (seq 0 (length ws)).
Proof. apply list.Forall_forall. intros i Hi%elem_of_seq. lia. Qed.

Lemma elem_order c l : ls !! c = Some l → c ∈ seq 0 (length ws).
Proof.
  intros Hc%lookup_lt_Some. apply elem_of_seq. rewrite (list.Forall2_length _ _ _ SW). lia.
Qed.

Lemma not_same j c lj l i n x e :
  ls !! j = Some lj → ls !! c = Some l → j ≠ c → x ∈ lj → e ∈ l →
  es !! i = Some x → es !! n = Some e → i ≠ n.
Proof.
  intros Hj Hc Hne Hx He Hi Hn ->. simplify_eq. destruct Hne. by eapply one_list.
Qed.

Lemma compare_index i n x e :
  es !! i = Some x → es !! n = Some e → (i < n)%nat → Compare x.1 e.1 < 0 ∧ 0 < Compare e.1 x.1.
Proof.
  intros Hi Hn Hlt. pose proof merged_V as HV. destruct M as [Hs _].
  assert (entry_lt x e) as Hxe by by eapply (sorted_index _ es i n). split; [done|].
  apply Compare_flip; [by eapply elem_V, list_elem_of_lookup_2..|done].
Qed.

Lemma FindSmallest_ahead n :
  Forall2 (ahead es n) ws ls →
  match es !! n with
  | None => FindSmallest ws = Some None
  | Some e => ∃ c l, ls !! c = Some l ∧ e ∈ l ∧ FindSmallest ws = Some (Some c)
  end.
Proof.
  intros HF. pose proof merged_V as HV. pose proof M as [Hs _]. destruct (es !! n) as [e|] eqn:He.
  - destruct (its_list n e He) as (c & l & Hc & Hel). exists c, l. splits; [done..|].
    pose proof (list_elem_of_lookup_2 _ _ _ Hc) as Hl. destruct (lists_sorted l Hl) as [Hsl _].
    pose proof (cut_here es Hs HV l Hsl (lists_sub l Hl) n e He Hel) as Hcut.
    assert (e ∈ es) as Hee by by eapply list_elem_of_lookup_2. pose proof (elem_V es HV e Hee) as Ve.
    apply (find_child_at _ _ ws ls _ c l (cut es n l) e HF Hc); [|done| | |apply order_seq|by eapply elem_order].
    + unfold pos_at. by rewrite decide_True by by eapply lookup_lt_Some.
    + intros j lj k x Hlj Hne Hk Hx. pose proof (list_elem_of_lookup_2 _ _ _ Hlj) as Hlj'.
      destruct (ahead_head n lj k x Hlj' Hk Hx) as (i & Hi & Hni).
      assert (i ≠ n) by (eapply not_same; [exact Hlj|exact Hc|done|by eapply list_elem_of_lookup_2|done..]).
      destruct (compare_index n i e x He Hi) as [Hlt Hgt]; [lia|].
      split; [by apply bool_decide_eq_true|]. apply bool_decide_eq_false. lia.
    + apply bool_decide_eq_false. rewrite Compare_refl by done. lia.
  - apply (find_child_nowhere _ _ ws ls _ HF); [|apply order_seq]. intros l Hl.
    apply lookup_ge_None in He. destruct (lists_sorted l Hl) as [Hsl _].
    destruct (pos_at l (cut es n l)) as [j|] eqn:Hj; [|done]. exfalso.
    pose proof Hj as [_ Hlt]%pos_at_Some. destruct (lookup_lt_is_Some_2 l j Hlt) as [x Hx].
    destruct (ahead_head n l j x Hl Hj Hx) as (i & Hi & ?). apply lookup_lt_Some in Hi. lia.
Qed.

Lemma FindLargest_behind n :
  Forall2 (behind es n) ws ls → (n ≤ length es)%nat →
  match n with
  | O => FindLargest ws = Some None
  | S m => ∃ c l e, es !! m = Some e ∧ ls !! c = Some l ∧ e ∈ l ∧ FindLargest ws = Some (Some c)
  end.
Proof.
  intros HF Hn. pose proof merged_V as HV. pose proof M as [Hs _].
  assert (Forall (λ i, (i < length ws)%nat) (reverse (seq 0 (length ws)))) as Ho
    by apply Forall_reverse, order_seq.
  destruct n as [|m].
  - apply (find_child_nowhere _ _ ws ls _ HF); [|done]. intros l Hl.
    destruct (lists_sorted l Hl) as [Hsl _]. by rewrite cut_0.
  - destruct (lookup_lt_is_Some_2 es m Hn) as [e He]. destruct (its_list m e He) as (c & l & Hc & Hel).
    exists c, l, e. splits; [done..|].
    pose proof (list_elem_of_lookup_2 _ _ _ Hc) as Hl. destruct (lists_sorted l Hl) as [Hsl _].
    pose proof (cut_here es Hs HV l Hsl (lists_sub l Hl) m e He Hel) as Hcut.
    pose proof (elem_V es HV e (list_elem_of_lookup_2 _ _ _ He)) as Ve.
    apply (find_child_at _ _ ws ls _ c l (cut es m l) e HF Hc); [|done| | |done|].
    + by rewrite (cut_S_here es Hs HV l Hsl (lists_sub l Hl) m e He Hel).
    + intros j lj k x Hlj Hne Hk Hx. pose proof (list_elem_of_lookup_2 _ _ _ Hlj) as Hlj'.
      destruct (behind_head (S m) lj k x Hlj' Hk Hx) as (i & Hi & Him).
      assert (i ≠ m) by (eapply not_same; [exact Hlj|exact Hc|done|by eapply list_elem_of_lookup_2|done..]).
      destruct (compare_index i m x e Hi He) as [Hlt Hgt]; [lia|].
      split; [by apply bool_decide_eq_true|]. apply bool_decide_eq_false. lia.
    + apply bool_decide_eq_false. rewrite Compare_refl by done. lia.
    + apply elem_of_reverse. by eapply elem_order.
Qed.

Lemma with_smallest_rel n :
  Forall2 (ahead es n) ws ls → ∃ it, with_smallest ws = Some it ∧ merge_rel it es (pos_at es n).
Proof.
  intros HF. pose proof (FindSmallest_ahead n HF) as HS. unfold with_smallest, pos_at.
  destruct (es !! n) as [e|] eqn:He.
  - destruct HS as (c & l & Hc & Hel & ->). eexists; split; [done|].
    rewrite decide_True by by eapply lookup_lt_Some. exists ls. splits; [done..|]. cbn. by exists c, l, e.
  - rewrite HS. eexists; split; [done|]. rewrite decide_False by by apply Nat.le_ngt, lookup_ge_None.
    by exists ls.
Qed.

Lemma with_largest_rel n :
  Forall2 (behind es n) ws ls → (n ≤ length es)%nat →
  ∃ it, with_largest ws = Some it ∧ merge_rel it es (pos_prev n).
Proof.
  intros HF Hn. pose proof (FindLargest_behind n HF Hn) as HS. unfold with_largest.
  destruct n as [|m]; cbn [pos_prev].
  - rewrite HS. eexists; split; [done|]. by exists ls.
  - destruct HS as (c & l & e & He & Hc & Hel & ->). eexists; split; [done|].
    exists ls. splits; [done..|]. cbn. by exists c, l, e.
Qed.

(** While the current entry [e] is left: its child is still there, the others
    are where they have to be. *)
Definition leaving (e : entry) (n : nat) (others : W → list entry → Prop) (w : W) (l : list entry) : Prop :=
  (e ∈ l → wrapper_rel (rel := rel) w l (Some (cut es n l))) ∧ (e ∉ l → others w l).

Lemma before_cut k li : V k → li ∈ ls → cut es (length (entries_before es k)) li = length (entries_before li k).
Proof.
  intros Vk Hli. pose proof merged_V as HV. pose proof M as [Hs _].
  destruct (lists_sorted li Hli) as [Hsl HVl]. apply cut_unique; [apply length_filter|].
  intros i x Hx. rewrite (entries_before_iff li k i x) by done.
  pose proof (lists_sub li Hli x (list_elem_of_lookup_2 _ _ _ Hx)) as [j Hj]%list_elem_of_lookup.
  by rewrite (elem_of_take_index es Hs HV j), (entries_before_iff es k j x) by done.
Qed.

Section Current.
Context (n c : nat) (l : list entry) (e : entry).
Hypothesis He : es !! n = Some e.
Hypothesis Hc : ls !! c = Some l.
Hypothesis Hel : e ∈ l.

Lemma other_list j lj : ls !! j = Some lj → j ≠ c → e ∉ lj.
Proof. intros Hj Hne Hin. destruct Hne. by eapply one_list. Qed.

Lemma cuts lj (Hlj : lj ∈ ls) :
  (e ∉ lj → cut es (S n) lj = cut es n lj) ∧
  (e ∈ lj → lj !! cut es n lj = Some e ∧ cut es (S n) lj = S (cut es n lj)).
Proof.
  pose proof merged_V as HV. pose proof M as [Hs _]. destruct (lists_sorted lj Hlj) as [Hsl _].
  pose proof (lists_sub lj Hlj) as Hsub. split.
  - by apply cut_S_other.
  - intros Hin. split; [by apply cut_here|by apply (cut_S_here es Hs HV lj Hsl Hsub n e)].
Qed.

Lemma leave_forward :
  Forall2 (leaving e n (ahead es (S n))) ws ls →
  ∃ ws', move_child c it_Next ws = Some ws' ∧ Forall2 (ahead es (S n)) ws' ls.
Proof.
  intros HF. eapply move_child_at; [exact HF|exact Hc|..].
  - intros w [Hw _]. specialize (Hw Hel). destruct (rel_Next w _ _ Hw) as (w' & Ew & Hw').
    exists w'. split; [done|]. unfold ahead, at_pos. destruct (cuts l) as [_ Hcut]; [by eapply list_elem_of_lookup_2|].
    destruct (Hcut Hel) as [_ ->]. done.
  - intros i w li [_ Hw] Hli Hne. apply Hw. by eapply other_list.
Qed.

Lemma leave_backward :
  Forall2 (leaving e n (behind es n)) ws ls →
  ∃ ws', move_child c it_Prev ws = Some ws' ∧ Forall2 (behind es n) ws' ls.
Proof.
  intros HF. eapply move_child_at; [exact HF|exact Hc|..].
  - intros w [Hw _]. specialize (Hw Hel). destruct (rel_Prev w _ _ Hw) as (w' & Ew & Hw'). by exists w'.
  - intros i w li [_ Hw] Hli Hne. apply Hw. by eapply other_list.
Qed.

Lemma ahead_leaving : Forall2 (ahead es n) ws ls → Forall2 (leaving e n (ahead es (S n))) ws ls.
Proof.
  intros HF. eapply list.Forall2_impl; [exact (Forall2_elem _ _ _ HF)|]. intros w li [Hw Hli]. unfold ahead, at_pos in *.
  destruct (cuts li Hli) as [Hc1 Hc2]. split; intros Hin.
  - destruct (Hc2 Hin) as [Hlk%lookup_lt_Some _]. unfold pos_at in Hw. by rewrite decide_True in Hw.
  - by rewrite Hc1.
Qed.

Lemma behind_leaving : Forall2 (behind es (S n)) ws ls → Forall2 (leaving e n (behind es n)) ws ls.
Proof.
  intros HF. eapply list.Forall2_impl; [exact (Forall2_elem _ _ _ HF)|]. intros w li [Hw Hli]. unfold behind, at_pos in *.
  destruct (cuts li Hli) as [Hc1 Hc2]. split; intros Hin.
  - destruct (Hc2 Hin) as [_ Hcut]. by rewrite Hcut in Hw.
  - by rewrite <- Hc1.
Qed.

Lemma before_e : length (entries_before es e.1) = n.
Proof.
  pose proof merged_V as HV. pose proof M as [Hs _].
  pose proof (elem_V es HV e (list_elem_of_lookup_2 _ _ _ He)) as Ve.
  pose proof (lookup_lt_Some _ _ _ He). apply entries_before_index; [done..|lia| |].
  - intros j x Hj Hx. by apply (compare_index j n x e).
  - intros e' He'. assert (e' = e) as -> by congruence. rewrite Compare_refl by done. lia.
Qed.

Lemma seek_other pos w li :
  at_pos (rel := rel) pos w li → li ∈ ls →
  ∃ w', it_Seek e.1 w = Some w' ∧ wrapper_rel (rel := rel) w' li (pos_at li (cut es n li)).
Proof.
  intros Hw Hli. pose proof merged_V as HV.
  pose proof (elem_V es HV e (list_elem_of_lookup_2 _ _ _ He)) as Ve.
  rewrite <- before_e, (before_cut e.1 li Ve Hli). by apply (rel_Seek w _ (pos li)).
Qed.

(** A child that does not have [e] is never at its key. *)
Lemma other_key li j x : li ∈ ls → e ∉ li → li !! j = Some x → Compare e.1 x.1 ≠ 0.
Proof.
  intros Hli Hnin Hx Heq. pose proof merged_V as HV. apply list_elem_of_lookup_2 in Hx.
  pose proof (lists_sub li Hli x Hx) as [i Hi]%list_elem_of_lookup.
  destruct (decide (i = n)) as [->|Hne]; [congruence|].
  destruct (decide (i < n)%nat).
  - destruct (compare_index i n x e); [done..|lia].
  - destruct (compare_index n i e x); [done..|lia|lia].
Qed.

Lemma turn_forward :
  Forall2 (behind es (S n)) ws ls →
  ∃ ws', map_others c (position_after e.1) 0 ws = Some ws' ∧
    Forall2 (leaving e n (ahead es (S n))) ws' ls.
Proof.
  intros HF. pose proof (behind_leaving HF) as HL. eapply map_others_at; [..|exact (Forall2_elem _ _ _ HL)].
  - intros i w li [[_ Hw] Hli] Hi Hne. cbn in Hne. pose proof (other_list i li Hi Hne) as Hnin.
    destruct (seek_other _ w li (Hw Hnin) Hli) as (w' & Ew & Hw'). exists w'.
    destruct (cuts li Hli) as [Hcut _]. unfold leaving, ahead, at_pos. rewrite Hcut by done.
    split; [|split; [done|intros _; exact Hw']]. unfold position_after. rewrite Ew.
    cbn [mbind option_bind]. destruct (it_Valid w') eqn:Hv; [|done].
    destruct (at_pos_inv (λ l, pos_at l (cut es n l)) w' li Hw' Hv) as (j & x & _ & Hx & Hk).
    rewrite Hk. cbn [mbind option_bind]. rewrite decide_False; [done|]. by eapply other_key.
  - intros i w li [[Hw _] Hli] Hi Heq. cbn in Heq. subst i. assert (li = l) as -> by congruence.
    split; [done|]. by intros [].
Qed.

Lemma turn_backward :
  Forall2 (ahead es n) ws ls →
  ∃ ws', map_others c (position_before e.1) 0 ws = Some ws' ∧
    Forall2 (leaving e n (behind es n)) ws' ls.
Proof.
  intros HF. pose proof (ahead_leaving HF) as HL. eapply map_others_at; [..|exact (Forall2_elem _ _ _ HL)].
  - intros i w li [[_ Hw] Hli] Hi Hne. cbn in Hne. pose proof (other_list i li Hi Hne) as Hnin.
    destruct (seek_other _ w li (Hw Hnin) Hli) as (w' & Ew & Hw'). unfold position_before. rewrite Ew.
    cbn [mbind option_bind]. unfold leaving, behind, at_pos.
    rewrite (rel_Valid w' _ _ Hw'). unfold pos_at in *. case_decide as Hlt; cbn [bool_decide is_Some].
    + rewrite bool_decide_true by eauto. destruct (rel_Prev w' _ _ Hw') as (w'' & -> & Hw'').
      exists w''. by split.
    + rewrite bool_decide_false by (by intros [? ?]).
      destruct (rel_SeekToLast w' _ _ Hw') as (w'' & -> & Hw''). exists w''. split; [done|].
      split; [done|]. intros _. pose proof (cut_le es li n).
      replace (cut es n li) with (length li) by lia. unfold pos_last in Hw''. by destruct (length li).
  - intros i w li [[Hw _] Hli] Hi Heq. cbn in Heq. subst i. assert (li = l) as -> by congruence.
    split; [done|]. by intros [].
Qed.
End Current.
End Merged.

Lemma ahead_somewhere es n ws ls : Forall2 (ahead es n) ws ls → Forall2 somewhere ws ls.
Proof. intros HF. eapply list.Forall2_impl; [exact HF|]. intros w l Hw. by eexists. Qed.

Lemma behind_somewhere es n ws ls : Forall2 (behind es n) ws ls → Forall2 somewhere ws ls.
Proof. intros HF. eapply list.Forall2_impl; [exact HF|]. intros w l Hw. by eexists. Qed.

Lemma leaving_somewhere es e n pos ws ls :
  Forall2 (leaving es e n (at_pos (rel := rel) pos)) ws ls → Forall2 somewhere ws ls.
Proof.
  intros HF. eapply list.Forall2_impl; [exact HF|]. intros w l [H1 H2].
  destruct (decide (e ∈ l)) as [Hin|Hin]; [specialize (H1 Hin)|specialize (H2 Hin)]; by eexists.
Qed.

(** The current child. *)
Lemma merge_current_rel it es n e :
  merge_rel it es (Some n) → es !! n = Some e →
  ∃ c l w i, current_ it = Some c ∧ merge_current it = Some w ∧
    wrapper_rel (rel := rel) w l (Some i) ∧ l !! i = Some e.
Proof.
  intros (ls & M & SW & c & l & e' & Hcur & Hl & He' & Hel & HF) He.
  assert (e' = e) as -> by congruence. clear He'.
  exists c, l. pose proof (list_elem_of_lookup_2 _ _ _ Hl) as Hls.
  destruct (cuts ls es (children_ it) M SW n e He l Hls) as [_ Hcut]. destruct (Hcut Hel) as [Hlk HS].
  destruct (Forall2_lookup_r _ _ _ _ _ HF Hl) as (w & Hw & Hat). exists w, (cut es n l).
  splits; [done|unfold merge_current; by rewrite Hcur; cbn| |done].
  destruct (direction_ it); unfold ahead, behind, at_pos in Hat.
  - unfold pos_at in Hat. by rewrite decide_True in Hat by by eapply lookup_lt_Some.
  - by rewrite HS in Hat.
Qed.

Lemma merge_Next_rel it es n :
  merge_rel it es (Some n) → ∃ it', merge_Next it = Some it' ∧ merge_rel it' es (pos_at es (S n)).
Proof.
  intros HR. pose proof HR as (ls & M & SW & c & l & e & Hcur & Hl & He & Hel & HF).
  destruct (merge_current_rel it es n e HR He) as (c' & l' & w & i & Hcur' & Hw & Hwl & Hi).
  unfold merge_Next, merge_key. rewrite Hcur, Hw. cbn [mbind option_bind].
  rewrite (rel_key w l' i e Hwl Hi). cbn [mbind option_bind].
  assert (∃ ws, match direction_ it with
      | kForward => Some (children_ it)
      | kReverse => map_others c (position_after e.1) 0 (children_ it)
      end = Some ws ∧ Forall2 (leaving es e n (ahead es (S n))) ws ls) as (ws & -> & HL).
  { destruct (direction_ it).
    - eexists; split; [done|]. by eapply ahead_leaving.
    - by eapply turn_forward. }
  cbn [mbind option_bind].
  destruct (leave_forward ls es ws M (leaving_somewhere _ _ _ _ _ _ HL) n c l e He Hl Hel HL) as (ws' & -> & HA).
  cbn [mbind option_bind]. by apply (with_smallest_rel ls es ws' M (ahead_somewhere _ _ _ _ HA)).
Qed.

Lemma merge_Prev_rel it es n :
  merge_rel it es (Some n) → ∃ it', merge_Prev it = Some it' ∧ merge_rel it' es (pos_prev n).
Proof.
  intros HR. pose proof HR as (ls & M & SW & c & l & e & Hcur & Hl & He & Hel & HF).
  destruct (merge_current_rel it es n e HR He) as (c' & l' & w & i & Hcur' & Hw & Hwl & Hi).
  unfold merge_Prev, merge_key. rewrite Hcur, Hw. cbn [mbind option_bind].
  rewrite (rel_key w l' i e Hwl Hi). cbn [mbind option_bind].
  assert (∃ ws, match direction_ it with
      | kForward => map_others c (position_before e.1) 0 (children_ it)
      | kReverse => Some (children_ it)
      end = Some ws ∧ Forall2 (leaving es e n (behind es n)) ws ls) as (ws & -> & HL).
  { destruct (direction_ it).
    - by eapply turn_backward.
    - eexists; split; [done|]. by eapply behind_leaving. }
  cbn [mbind option_bind].
  destruct (leave_backward ls es ws M (leaving_somewhere _ _ _ _ _ _ HL) n c l e Hl Hel HL) as (ws' & -> & HA).
  cbn [mbind option_bind]. apply (with_largest_rel ls es ws' M (behind_somewhere _ _ _ _ HA)); [done|].
  apply lookup_lt_Some in He. lia.
Qed.

Lemma merge_status_ok ws ls : Forall2 somewhere ws ls → merge_status ws = Status_OK.
Proof.
  induction 1 as [|w l ws ls [p Hw] _ IH]; [done|]. cbn [merge_status]. by rewrite (rel_status w l p Hw).
Qed.

(** The methods that position all children. *)
Lemma seek_all it es p (f : W → option W) n :
  merge_rel it es p →
  (∀ ls w l q, merged ls es → Forall2 somewhere (children_ it) ls → l ∈ ls → wrapper_rel (rel := rel) w l q →
     ∃ w', f w = Some w' ∧ ahead es n w' l) →
  ∃ it', mapM f (children_ it) ≫= with_smallest = Some it' ∧ merge_rel it' es (pos_at es n).
Proof.
  intros (ls & M & SW & _) Hf.
  destruct (mapM_at f somewhere (ahead es n) (children_ it) ls) as (ws & -> & HA); [|done|].
  - intros w l [q Hw] Hl. by eapply Hf.
  - cbn. by apply (with_smallest_rel ls es ws M (ahead_somewhere _ _ _ _ HA)).
Qed.

#[export] Instance MergingIterator_laws : IteratorLaws (MergingIterator I) V merge_rel.
Proof.
  split; intros it es.
  - intros p (ls & M & SW & _). split; [by destruct M|by eapply merged_V].
  - intros i (ls & _ & _ & c & l & e & _ & _ & He & _). by eapply lookup_lt_Some.
  - intros p (ls & _ & _ & HR). cbn. destruct p as [n|]; [|by rewrite HR].
    destruct HR as (c & _ & _ & -> & _). rewrite !bool_decide_true; eauto.
  - intros i e HR He. destruct (merge_current_rel it es i e HR He) as (c & l & w & j & _ & Hw & Hr & Hj).
    cbn. unfold merge_key. rewrite Hw. by eapply (rel_key w).
  - intros i e HR He. destruct (merge_current_rel it es i e HR He) as (c & l & w & j & _ & Hw & Hr & Hj).
    cbn. unfold merge_value. rewrite Hw. by eapply (rel_value w).
  - intros p (ls & _ & SW & _). by eapply merge_status_ok.
  - intros p HR. apply (seek_all it es p); [done|]. intros ls w l q M SW Hl Hw.
    destruct (rel_SeekToFirst w l q Hw) as (w' & Ew & Hw'). exists w'. split; [done|].
    unfold ahead, at_pos. by rewrite cut_0.
  - intros p (ls & M & SW & _).
    destruct (mapM_at it_SeekToLast somewhere (behind es (length es)) (children_ it) ls) as (ws & Ews & HA); [|done|].
    + intros w l [q Hw] Hl. destruct (rel_SeekToLast w l q Hw) as (w' & Ew & Hw'). exists w'. split; [done|].
      unfold behind, at_pos. rewrite cut_all by by eapply lists_sub. unfold pos_last in Hw'. by destruct (length l).
    + cbn. unfold merge_SeekToLast. rewrite Ews. cbn.
      destruct (with_largest_rel ls es ws M (behind_somewhere _ _ _ _ HA) (length es) HA) as (it' & -> & HR'); [done|].
      exists it'. split; [done|]. unfold pos_last. by destruct (length es).
  - intros p k HR Vk. apply (seek_all it es p); [done|]. intros ls w l q M SW Hl Hw.
    destruct (rel_Seek w l q k Hw Vk) as (w' & Ew & Hw'). exists w'. split; [done|].
    unfold ahead, at_pos. by rewrite (before_cut ls es (children_ it) M SW k l Vk Hl).
  - apply merge_Next_rel.
  - apply merge_Prev_rel.
Qed.
End Merge.

(** ** The constructor *)

Section Constructor.
Context {C : Comparator} {I : Type} {II : Iterator I} {V : bytes → Prop} {CL : ComparatorLaws C V}.
Context {rel : I → list entry → option nat → Prop} {IL : IteratorLaws I V rel}.

Definition empty_rel (it : EmptyIterator) (es : list entry) (p : option nat) : Prop :=
  it = NewEmptyIterator ∧ es = [] ∧ p = None.

Abbreviation any_rel := (sum_rel (sum_rel empty_rel rel) (merge_rel (rel := rel))).

#[export] Instance any_laws :
  IteratorLaws (EmptyIterator + I + MergingIterator I) V any_rel.
Proof. apply sum_laws. Qed.

Lemma new_MergingIterator_rel its ls es :
  Forall2 (λ it l, ∃ p, rel it l p) its ls → merged ls es →
  ∃ it, new_MergingIterator its = Some it ∧ merge_rel (rel := rel) it es None.
Proof.
  intros HF M. unfold new_MergingIterator.
  assert (∃ ws, mapM (λ it, wrapper_Set new_IteratorWrapper (Some it)) its = Some ws ∧
    Forall2 (somewhere (rel := rel)) ws ls) as (ws & -> & HW).
  { clear M. induction HF as [|it l its ls [p Hp] _ (ws & IH & HW)]; [by exists []|].
    destruct (wrapper_Update_rel it l p None Hp) as (w & Ew & Hw). exists (w :: ws).
    cbn [mapM]. unfold wrapper_Set. cbn [new_IteratorWrapper key_]. rewrite Ew. cbn [mbind option_bind].
    unfold wrapper_Set in IH. cbn [new_IteratorWrapper key_] in IH. rewrite IH. split; [done|].
    constructor; [by eexists|done]. }
  eexists; split; [done|]. by exists ls.
Qed.

(** The iterator that is made of [its] is one over what they hold. *)
Lemma NewMergingIterator_rel its ls es :
  Forall2 (λ it l, ∃ p, rel it l p) its ls → merged ls es →
  ∃ it p, NewMergingIterator its = Some it ∧ any_rel it es p ∧ (length its ≠ 1%nat → p = None).
Proof.
  intros HF M. pose proof M as [Hs HP]. destruct HF as [|it1 l1 its ls (p & Hp) HF].
  - cbn in HP. apply Permutation_nil_r in HP as ->. by exists (inl (inl NewEmptyIterator)), None.
  - destruct HF as [|it2 l2 its ls Hp2 HF].
    + exists (inl (inr it1)), p. splits; [done| |done]. cbn. enough (l1 = es) as <- by done.
      cbn in HP. rewrite app_nil_r in HP. destruct (rel_sorted it1 l1 p Hp) as [Hs1 HV1].
      eapply StronglySorted_unique_strong; [|exact Hs1|exact Hs|by symmetry].
      intros a b Ha Hb Hab Hba. exfalso. rewrite list.Forall_forall in HV1. rewrite HP in Hb.
      unfold entry_lt in Hab, Hba. apply Compare_flip in Hab; [lia|by apply HV1..].
    + destruct (new_MergingIterator_rel (it1 :: it2 :: its) (l1 :: l2 :: ls) es) as (it & Hit & HR);
        [by repeat constructor; [exists p| |]|done|].
      exists (inr it), None. cbn [NewMergingIterator]. by rewrite Hit.
Qed.
End Constructor.

(** C23: the iterator that is made of iterators over lists without a common key
    is an iterator over the sorted union of the lists: both traversals and
    every search give its entries, and any sequence of calls, with any changes
    of direction, is answered as by a position in that list. *)
Theorem NewMergingIterator_refines {C : Comparator} {I : Type} {II : Iterator I} {V : bytes → Prop}
    {CL : ComparatorLaws C V} {rel : I → list entry → option nat → Prop} {IL : IteratorLaws I V rel} its ls es :
  Forall2 (λ it l, ∃ p, rel it l p) its ls → StronglySorted entry_lt es → es ≡ₚ concat ls →
  ∃ it p, NewMergingIterator its = Some it ∧ (length its ≠ 1%nat → p = None) ∧ iterates it V es ∧
    ∀ ms os, Forall (move_ok V) ms → cursor_run es ms p = Some os → it_run ms it = Some os.
Proof.
  intros HF Hs HP. destruct (NewMergingIterator_rel its ls es HF) as (it & p & Hit & HR & Hp); [done|].
  exists it, p. splits; [done|done|by eapply rel_iterates|]. intros ms os. by eapply rel_run.
Qed.

Example NewMergingIterator_refines_witness :
  let b es := new_Block (fst (Finish (Adds 2 new_BlockBuilder es))) in
  let ls := [[(str "a", str "1"); (str "d", str "4")]; []; [(str "b", str "2"); (str "c", str "3")]] in
  let es := [(str "a", str "1"); (str "b", str "2"); (str "c", str "3"); (str "d", str "4")] in
  ∃ its, block_NewIterator ∘ b <$> ls = inr <$> its ∧
  ∃ it p, NewMergingIterator its = Some it ∧ (length its ≠ 1%nat → p = None) ∧
    iterates (C := BytewiseComparator) it any_key es ∧
    ∀ ms os, Forall (move_ok any_key) ms → cursor_run (C := BytewiseComparator) es ms p = Some os →
      it_run ms it = Some os.
Proof.
  cbv zeta.
  destruct (built_block_open (CL := BytewiseComparator_laws) 2 [(str "a", str "1"); (str "d", str "4")])
    as (i1 & E1 & R1); [lia|by vm_compute|repeat constructor; by vm_compute|repeat constructor|].
  destruct (built_block_open (CL := BytewiseComparator_laws) 2 []) as (i2 & E2 & R2);
    [lia|by vm_compute|constructor|constructor|].
  destruct (built_block_open (CL := BytewiseComparator_laws) 2 [(str "b", str "2"); (str "c", str "3")])
    as (i3 & E3 & R3); [lia|by vm_compute|repeat constructor; by vm_compute|repeat constructor|].
  exists [i1; i2; i3]. split; [cbn [fmap list_fmap compose]; by rewrite E1, E2, E3|].
  eapply (NewMergingIterator_refines (CL := BytewiseComparator_laws)).
  - repeat (constructor; [eexists; eassumption|]). constructor.
  - repeat constructor; by vm_compute.
  - cbn. apply perm_skip. symmetry. apply (Permutation_cons_append [_; _] _).
Defined.
