(* ===== verification/DbIter.v ===== *)
(** The iterator that users of a database see, [db/db_iter.cc].

    [DBIter] walks over the internal entries of memtables and tables, an
    iterator for the order of internal keys, and shows for every user key the
    value of its newest entry that the snapshot [sequence_] sees, unless that
    entry is a deletion.  The user's view of a list of internal entries is
    defined on its own ([user_view]); [DBIter_laws] shows that the iterator
    obeys the laws of an iterator over it.

    The calls [db_->RecordReadSample(k)] are kept as the list of the keys that
    were sampled; the capacity of [saved_value_] is not modelled. *)
From Stdlib Require Import Sorting.Sorted.
From S2P Require Import Prelude SortedLists Coding Status Comparator DbFormat Random Iterator BlockBuilder Block.

Inductive IterDirection := kForward | kReverse.

Section DBIter.
Context {C : Comparator} {I : Type} {II : Iterator I}.

Record DBIter := {
  iter_ : I;
  sequence_ : Z;
  status_ : Status;
  saved_key_ : bytes;
  saved_value_ : bytes;
  direction_ : IterDirection;
  valid_ : bool;
  rnd_ : Z;
  bytes_counter_ : Z;
  samples : list bytes;
}.

Definition set_iter (it : DBIter) (i : I) : DBIter := {|
  iter_ := i; sequence_ := sequence_ it; status_ := status_ it; saved_key_ := saved_key_ it;
  saved_value_ := saved_value_ it; direction_ := direction_ it; valid_ := valid_ it; rnd_ := rnd_ it;
  bytes_counter_ := bytes_counter_ it; samples := samples it |}.
Definition set_status (it : DBIter) (s : Status) : DBIter := {|
  iter_ := iter_ it; sequence_ := sequence_ it; status_ := s; saved_key_ := saved_key_ it;
  saved_value_ := saved_value_ it; direction_ := direction_ it; valid_ := valid_ it; rnd_ := rnd_ it;
  bytes_counter_ := bytes_counter_ it; samples := samples it |}.
Definition set_saved (it : DBIter) (key value : bytes) : DBIter := {|
  iter_ := iter_ it; sequence_ := sequence_ it; status_ := status_ it; saved_key_ := key;
  saved_value_ := value; direction_ := direction_ it; valid_ := valid_ it; rnd_ := rnd_ it;
  bytes_counter_ := bytes_counter_ it; samples := samples it |}.
Definition set_direction (it : DBIter) (d : IterDirection) : DBIter := {|
  iter_ := iter_ it; sequence_ := sequence_ it; status_ := status_ it; saved_key_ := saved_key_ it;
  saved_value_ := saved_value_ it; direction_ := d; valid_ := valid_ it; rnd_ := rnd_ it;
  bytes_counter_ := bytes_counter_ it; samples := samples it |}.
Definition set_valid (it : DBIter) (b : bool) : DBIter := {|
  iter_ := iter_ it; sequence_ := sequence_ it; status_ := status_ it; saved_key_ := saved_key_ it;
  saved_value_ := saved_value_ it; direction_ := direction_ it; valid_ := b; rnd_ := rnd_ it;
  bytes_counter_ := bytes_counter_ it; samples := samples it |}.
Definition set_sampling (it : DBIter) (seed counter : Z) (ks : list bytes) : DBIter := {|
  iter_ := iter_ it; sequence_ := sequence_ it; status_ := status_ it; saved_key_ := saved_key_ it;
  saved_value_ := saved_value_ it; direction_ := direction_ it; valid_ := valid_ it; rnd_ := seed;
  bytes_counter_ := counter; samples := ks |}.

Definition SaveKey (it : DBIter) (k : bytes) : DBIter := set_saved it k (saved_value_ it).
Definition ClearSavedValue (it : DBIter) : DBIter := set_saved it (saved_key_ it) [].

(** The period and the next seed. *)
Definition RandomPeriod (seed : Z) : Z * Z := Uniform (2 * kReadBytesPeriod) seed.

Definition NewDBIterator (iter : I) (s seed : Z) : DBIter :=
  let '(period, seed) := RandomPeriod (Random_init seed) in
  {| iter_ := iter; sequence_ := s; status_ := Status_OK; saved_key_ := []; saved_value_ := [];
     direction_ := kForward; valid_ := false; rnd_ := seed; bytes_counter_ := period; samples := [] |}.

(** [while (bytes_counter_ < 0)]: every turn adds a random period and records
    the key once.  At least one of two periods in a row is positive, so that
    two turns for every missing byte are enough. *)
Fixpoint sample_loop (fuel : nat) (k : bytes) (counter seed : Z) (ks : list bytes) :
    option (Z * Z * list bytes) :=
  if decide (counter < 0) then
    match fuel with
    | O => None
    | S fuel =>
        let '(period, seed) := RandomPeriod seed in
        sample_loop fuel k (counter + period) seed (ks ++ [k])
    end
  else Some (counter, seed, ks).

(** A [size_t] as a [ssize_t]. *)
Definition ssize (z : Z) : Z := if decide (usize z < 2 ^ 31) then usize z else usize z - 2 ^ 32.

(** The result of [ParseInternalKey] with the iterator; the subtraction is one
    of [ssize_t], which must not overflow. *)
Definition ParseKey (it : DBIter) : option (DBIter * option ParsedInternalKey) :=
  k ← it_key (iter_ it); v ← it_value (iter_ it);
  let n := ssize (zlen k + zlen v) in
  let counter := bytes_counter_ it - n in
  if decide (- 2 ^ 31 ≤ counter < 2 ^ 31) then
    '(counter, seed, ks) ← sample_loop (Z.to_nat (2 * - counter + 2)) k counter (rnd_ it) (samples it);
    let it := set_sampling it seed counter ks in
    match ParseInternalKey k with
    | None => Some (set_status it (Corruption (str "corrupted internal key in DBIter") []), None)
    | Some ikey => Some (it, Some ikey)
    end
  else None.

(** What the body of the loop decides: to stop, or to go on with [skipping]. *)
Definition next_entry (skipping : bool) (it : DBIter) (ikey : option ParsedInternalKey) :
    DBIter * option bool :=
  match ikey with
  | Some ikey =>
      if decide (sequence ikey ≤ sequence_ it) then
        if decide (type ikey = kTypeDeletion) then (SaveKey it (user_key ikey), Some true)
        else if decide (type ikey = kTypeValue) then
          if skipping && bool_decide (Compare (user_key ikey) (saved_key_ it) ≤ 0) then (it, Some skipping)
          else (set_valid (SaveKey it []) true, None)
        else (it, Some skipping)
      else (it, Some skipping)
  | None => (it, Some skipping)
  end.

(** [skip] is [&saved_key_] in every call. *)
Fixpoint FindNextUserEntry (fuel : nat) (skipping : bool) (it : DBIter) : option DBIter :=
  match fuel with
  | O => None
  | S fuel =>
      '(it, ikey) ← ParseKey it;
      match next_entry skipping it ikey with
      | (it, None) => Some it
      | (it, Some skipping) =>
          i ← it_Next (iter_ it);
          if it_Valid i then FindNextUserEntry fuel skipping (set_iter it i)
          else Some (set_valid (SaveKey (set_iter it i) []) false)
      end
  end.

(** The loop of [FindPrevUserEntry], with [value_type]. *)
Fixpoint FindPrev_loop (fuel : nat) (value_type : Z) (it : DBIter) : option (DBIter * Z) :=
  match fuel with
  | O => None
  | S fuel =>
      '(it, ikey) ← ParseKey it;
      let go (value_type : Z) (it : DBIter) : option (DBIter * Z) :=
        i ← it_Prev (iter_ it);
        if it_Valid i then FindPrev_loop fuel value_type (set_iter it i)
        else Some (set_iter it i, value_type) in
      match ikey with
      | Some ikey =>
          if decide (sequence ikey ≤ sequence_ it) then
            if decide (value_type ≠ kTypeDeletion ∧ Compare (user_key ikey) (saved_key_ it) < 0) then
              Some (it, value_type)
            else if decide (type ikey = kTypeDeletion) then go (type ikey) (set_saved it [] [])
            else
              raw_value ← it_value (iter_ it); k ← it_key (iter_ it);
              go (type ikey) (set_saved it (ExtractUserKey k) raw_value)
          else go value_type it
      | None => go value_type it
      end
  end.

Definition FindPrevUserEntry (fuel : nat) (it : DBIter) : option DBIter :=
  '(it, value_type) ← (if it_Valid (iter_ it) then FindPrev_loop fuel kTypeDeletion it
                       else Some (it, kTypeDeletion));
  if decide (value_type = kTypeDeletion) then
    Some (set_direction (set_valid (set_saved it [] []) false) kForward)
  else Some (set_valid it true).

(** [while (true)] of [Prev]: back to an entry before [saved_key_]; [false] if
    there is none. *)
Fixpoint scan_back (fuel : nat) (it : DBIter) : option (DBIter * bool) :=
  match fuel with
  | O => None
  | S fuel =>
      i ← it_Prev (iter_ it);
      if it_Valid i then
        k ← it_key i;
        if decide (Compare (ExtractUserKey k) (saved_key_ it) < 0) then Some (set_iter it i, true)
        else scan_back fuel (set_iter it i)
      else Some (set_iter it i, false)
  end.

Definition db_Next (fuel : nat) (it : DBIter) : option DBIter :=
  match direction_ it with
  | kReverse =>
      let it := set_direction it kForward in
      i ← (if it_Valid (iter_ it) then it_Next (iter_ it) else it_SeekToFirst (iter_ it));
      if it_Valid i then FindNextUserEntry fuel true (set_iter it i)
      else Some (SaveKey (set_valid (set_iter it i) false) [])
  | kForward =>
      k ← it_key (iter_ it);
      FindNextUserEntry fuel true (SaveKey it (ExtractUserKey k))
  end.

Definition db_Prev (fuel : nat) (it : DBIter) : option DBIter :=
  match direction_ it with
  | kForward =>
      k ← it_key (iter_ it);
      '(it, found) ← scan_back fuel (SaveKey it (ExtractUserKey k));
      if (found : bool) then FindPrevUserEntry fuel (set_direction it kReverse)
      else Some (set_saved (set_valid it false) [] [])
  | kReverse => FindPrevUserEntry fuel it
  end.

Definition db_Seek (fuel : nat) (target : bytes) (it : DBIter) : option DBIter :=
  let it := ClearSavedValue (set_direction it kForward) in
  let it := SaveKey it
    (AppendInternalKey [] {| user_key := target; sequence := sequence_ it; type := kValueTypeForSeek |}) in
  i ← it_Seek (saved_key_ it) (iter_ it);
  if it_Valid i then FindNextUserEntry fuel false (set_iter it i)
  else Some (set_valid (set_iter it i) false).

Definition db_SeekToFirst (fuel : nat) (it : DBIter) : option DBIter :=
  let it := ClearSavedValue (set_direction it kForward) in
  i ← it_SeekToFirst (iter_ it);
  if it_Valid i then FindNextUserEntry fuel false (set_iter it i)
  else Some (set_valid (set_iter it i) false).

Definition db_SeekToLast (fuel : nat) (it : DBIter) : option DBIter :=
  let it := ClearSavedValue (set_direction it kReverse) in
  i ← it_SeekToLast (iter_ it);
  FindPrevUserEntry fuel (set_iter it i).

Definition db_key (it : DBIter) : option bytes :=
  if valid_ it then
    match direction_ it with
    | kForward => k ← it_key (iter_ it); Some (ExtractUserKey k)
    | kReverse => Some (saved_key_ it)
    end
  else None.

Definition db_value (it : DBIter) : option bytes :=
  if valid_ it then
    match direction_ it with
    | kForward => it_value (iter_ it)
    | kReverse => Some (saved_value_ it)
    end
  else None.

Definition db_status (it : DBIter) : Status :=
  if Status.ok (status_ it) then it_status (iter_ it) else status_ it.

(** [Next] and [Prev] assert [valid_]. *)
Definition if_valid (f : DBIter → option DBIter) (it : DBIter) : option DBIter :=
  if valid_ it then f it else None.

(** [fuel] bounds the number of internal entries. *)
Definition DBIter_Iterator (fuel : nat) : Iterator DBIter := {|
  it_Valid it := valid_ it;
  it_SeekToFirst := db_SeekToFirst fuel;
  it_SeekToLast := db_SeekToLast fuel;
  it_Seek := db_Seek fuel;
  it_Next := if_valid (db_Next fuel);
  it_Prev := if_valid (db_Prev fuel);
  it_key := db_key;
  it_value := db_value;
  it_status := db_status;
|}.
End DBIter.
Arguments DBIter I : clear implicits.

(** ** Sampling *)

Lemma RandomPeriod_range seed :
  good_seed seed → 0 ≤ (RandomPeriod seed).1 < 2 ^ 21 ∧ good_seed (RandomPeriod seed).2.
Proof.
  intros Hs. unfold RandomPeriod, Uniform. cbn [fst snd]. split; [|by apply Random_Next_eq].
  unfold kReadBytesPeriod. apply Z.mod_pos_bound. lia.
Qed.

(** A multiple of 2^21 among the 1023 there are is not followed by another. *)
Definition no_two_zeros : bool :=
  forallb (λ a, bool_decide ((Z.of_nat a * 2 ^ 21 * 16807) mod 2147483647 mod 2 ^ 21 ≠ 0)) (seq 1 1023).

Lemma no_two_zeros_true : no_two_zeros = true.
Proof. by vm_compute. Qed.

Lemma two_periods seed :
  good_seed seed → (RandomPeriod seed).1 = 0 → 0 < (RandomPeriod (RandomPeriod seed).2).1.
Proof.
  intros Hs H0. destruct (RandomPeriod_range seed Hs) as [_ Hg].
  destruct (RandomPeriod_range _ Hg) as [[Hp _] _]. apply Z.le_neq. split; [done|]. intros He. symmetry in He.
  revert H0 He. unfold RandomPeriod, Uniform, kReadBytesPeriod in *. cbn [fst snd] in *.
  set (x := Random_Next seed) in *. destruct (Random_Next_eq x Hg) as [-> _].
  change (2 * 1048576) with (2 ^ 21). intros Hx%Z.mod_divide; [|lia]. destruct Hx as [a Ha].
  pose proof no_two_zeros_true as Hz. unfold no_two_zeros in Hz. rewrite forallb_forall in Hz.
  unfold good_seed in Hg. change (2 ^ 21) with 2097152 in Ha.
  specialize (Hz (Z.to_nat a)). rewrite in_seq in Hz.
  specialize (Hz ltac:(lia)). apply bool_decide_eq_true in Hz. rewrite Z2Nat.id in Hz by lia.
  change (2 ^ 21) with 2097152 in *. by rewrite Ha.
Qed.

Lemma sample_loop_total fuel k counter seed ks :
  good_seed seed →
  (- 2 * counter ≤ Z.of_nat fuel ∨ - 2 * counter ≤ Z.of_nat fuel + 1 ∧ 0 < (RandomPeriod seed).1) →
  ∃ counter' seed' n, sample_loop fuel k counter seed ks = Some (counter', seed', ks ++ replicate n k) ∧
    good_seed seed' ∧ 0 ≤ counter' ∧ (counter < 2 ^ 21 → counter' < 2 ^ 21) ∧ (n = 0%nat ↔ 0 ≤ counter).
Proof.
  revert counter seed ks. induction fuel as [|fuel IH]; intros counter seed ks Hs Hf;
    cbn [sample_loop]; case_decide as Hc; try lia.
  2: { destruct (RandomPeriod_range seed Hs) as [Hr Hg]. destruct (RandomPeriod seed) as [p seed'] eqn:E.
    cbn [fst snd] in *. destruct (IH (counter + p) seed' (ks ++ [k]) Hg) as (c' & s' & n & -> & ? & ? & Hb & ?).
    - destruct Hf as [Hf|[Hf Hp]]; [|lia]. destruct (decide (p = 0)) as [->|]; [right|lia].
      split; [lia|]. pose proof (two_periods seed Hs) as Ht. rewrite E in Ht. by apply Ht.
    - exists c', s', (S n). rewrite <- app_assoc. splits; [done|done|done| |lia]. intros _. apply Hb. lia. }
  all: exists counter, seed, 0%nat; rewrite app_nil_r; splits; [done|done|lia|done|lia].
Qed.

(** ** What the user sees *)

Definition uk (e : entry) : bytes := ExtractUserKey e.1.
Definition tag (e : entry) : Z := ExtractTag e.1.
Definition seen (s : Z) (e : entry) : Prop := Z.shiftr (tag e) 8 ≤ s.
Definition ty (e : entry) : Z := ExtractValueType e.1.

#[export] Instance seen_dec s e : Decision (seen s e).
Proof. unfold seen. apply _. Defined.

(** The newest entry of its key that is seen, and no deletion. *)
Definition visible (s : Z) (es : list entry) (e : entry) : Prop :=
  seen s e ∧ ty e = kTypeValue ∧ Forall (λ e', uk e' = uk e → seen s e' → tag e' ≤ tag e) es.

#[export] Instance visible_dec s es e : Decision (visible s es e).
Proof. unfold visible. apply _. Defined.

Definition user_entry (e : entry) : entry := (uk e, e.2).

Definition user_view (s : Z) (es : list entry) : list entry :=
  user_entry <$> filter (visible s es) es.

Section View.
Context {C : Comparator} {V : bytes → Prop} {CL : ComparatorLaws C V}.

Abbreviation IKC := (InternalKeyComparator (user_comparator_ := C)).
Abbreviation ilt := (entry_lt (C := IKC)).
Abbreviation IV := (ikey_valid (V := V)).

Context (s : Z) (es : list entry).
Hypothesis es_sorted : StronglySorted ilt es.
Hypothesis es_V : Forall (λ e, IV e.1) es.

Lemma elem_valid i e : es !! i = Some e → 8 ≤ zlen e.1 ∧ V (uk e).
Proof. intros He%list_elem_of_lookup_2. rewrite list.Forall_forall in es_V. by apply es_V. Qed.

Lemma ilt_iff i j a b :
  es !! i = Some a → es !! j = Some b → ilt a b ↔ Compare (uk a) (uk b) < 0 ∨ uk a = uk b ∧ tag b < tag a.
Proof.
  intros Ha Hb. unfold entry_lt. cbn [Compare InternalKeyComparator]. rewrite Internal_Compare_lt.
  by rewrite Compare_eq by by eapply elem_valid.
Qed.

(** An entry behind another has a larger user key, or the same and is older. *)
Lemma entry_order i j a b :
  es !! i = Some a → es !! j = Some b → (i < j)%nat →
  Compare (uk a) (uk b) < 0 ∨ uk a = uk b ∧ tag b < tag a.
Proof. intros Ha Hb Hij. eapply ilt_iff; [done..|]. by eapply (sorted_index _ es i j). Qed.

Lemma entry_le i j a b :
  es !! i = Some a → es !! j = Some b → (i ≤ j)%nat → Compare (uk a) (uk b) ≤ 0.
Proof.
  intros Ha Hb Hij. destruct (decide (i = j)) as [->|].
  - simplify_eq. rewrite Compare_refl by by eapply elem_valid. lia.
  - destruct (entry_order i j a b Ha Hb) as [?|[-> _]]; [lia|lia|].
    rewrite Compare_refl by by eapply elem_valid. lia.
Qed.

Lemma same_key i j a b :
  es !! i = Some a → es !! j = Some b → (i ≤ j)%nat → Compare (uk b) (uk a) ≤ 0 → uk a = uk b.
Proof.
  intros Ha Hb Hij Hc. pose proof (entry_le i j a b Ha Hb Hij) as Hle.
  assert (V (uk a) ∧ V (uk b)) as [Va Vb] by (split; by eapply elem_valid).
  apply Compare_eq; [done..|]. pose proof (Compare_flip (uk a) (uk b) Va Vb). lia.
Qed.

(** [visible] by indices. *)
Lemma visible_iff j e :
  es !! j = Some e →
  visible s es e ↔ seen s e ∧ ty e = kTypeValue ∧
    ∀ i a, (i < j)%nat → es !! i = Some a → seen s a → uk a ≠ uk e.
Proof.
  intros He. unfold visible. rewrite list.Forall_forall. split.
  - intros (H1 & H2 & H3). splits; [done..|]. intros i a Hij Ha Hsa Heq.
    specialize (H3 a (list_elem_of_lookup_2 _ _ _ Ha) Heq Hsa).
    destruct (entry_order i j a e Ha He Hij) as [Hlt|[_ ?]]; [|lia].
    rewrite Heq, Compare_refl in Hlt by by eapply elem_valid. lia.
  - intros (H1 & H2 & H3). splits; [done..|]. intros a [i Ha]%list_elem_of_lookup Heq Hsa.
    destruct (decide (i < j)%nat); [by destruct (H3 i a)|].
    destruct (decide (i = j)) as [->|]; [by simplify_eq|].
    destruct (entry_order j i e a He Ha) as [Hlt|[_ ?]]; [lia| |lia].
    rewrite Heq, Compare_refl in Hlt by by eapply elem_valid. lia.
Qed.

(** Two visible entries have different keys. *)
Lemma visible_unique i j a b :
  es !! i = Some a → es !! j = Some b → (i < j)%nat → visible s es a → visible s es b → uk a ≠ uk b.
Proof. intros Ha Hb Hij (Hsa & _) (_ & _ & Hn)%(visible_iff j) ; [|done]. by eapply Hn. Qed.

(** How many of the first [n] entries are visible. *)
Definition count (n : nat) : nat := length (filter (visible s es) (take n es)).

Lemma count_0 : count 0 = 0%nat.
Proof. done. Qed.

Lemma count_S n e :
  es !! n = Some e → count (S n) = (if decide (visible s es e) then S (count n) else count n).
Proof.
  intros He. unfold count. rewrite (take_S_r _ _ _ He), list.filter_app, length_app, filter_cons.
  case_decide; cbn; lia.
Qed.

Lemma length_view : length (user_view s es) = count (length es).
Proof. unfold user_view, count. by rewrite length_fmap, firstn_all. Qed.

Lemma view_lookup n e :
  es !! n = Some e → visible s es e → user_view s es !! count n = Some (user_entry e).
Proof.
  intros He Hv. unfold user_view, count. rewrite list_lookup_fmap.
  assert (filter (visible s es) es = filter (visible s es) (take n es ++ e :: drop (S n) es)) as ->
    by by rewrite take_drop_middle.
  rewrite list.filter_app, filter_cons, decide_True by done.
  by rewrite lookup_app_r, Nat.sub_diag by lia.
Qed.

Lemma count_lt n e : es !! n = Some e → visible s es e → (count n < length (user_view s es))%nat.
Proof. intros He Hv. eapply lookup_lt_Some. by apply view_lookup. Qed.

Lemma count_gap n m :
  (n ≤ m ≤ length es)%nat → (∀ i e, (n ≤ i < m)%nat → es !! i = Some e → ¬ visible s es e) →
  count m = count n.
Proof.
  intros [Hnm Hm]. induction Hnm as [|m Hnm IH]; intros Hi; [done|].
  destruct (lookup_lt_is_Some_2 es m Hm) as [e He]. rewrite (count_S m e He).
  rewrite decide_False by (apply (Hi m e); [lia|done]). apply IH; [lia|].
  intros i e' Hi' He'. apply (Hi i); [lia|done].
Qed.

Lemma view_sorted : StronglySorted (entry_lt (C := C)) (user_view s es) ∧ Forall (λ e, V e.1) (user_view s es).
Proof.
  unfold user_view. split.
  - assert (∀ l, l `sublist_of` es → StronglySorted (entry_lt (C := C)) (user_entry <$> filter (visible s es) l)) as Hl;
      [|by apply Hl].
    intros l Hsub. pose proof (sorted_sublist _ _ _ es_sorted Hsub) as Hs.
    induction Hs as [|a l Hs IH Ha]; [constructor|].
    assert (l `sublist_of` es) as Hsub' by (etrans; [by apply sublist_cons|done]).
    rewrite filter_cons. case_decide as Hva; [|by apply IH]. cbn [fmap list_fmap]. constructor; [by apply IH|].
    apply list.Forall_forall. intros b' (b & -> & [Hvb Hb]%list_elem_of_filter)%list_elem_of_fmap.
    assert (a ∈ es) as [i Hi]%list_elem_of_lookup by (eapply elem_of_sublist; [|exact Hsub]; by left).
    assert (b ∈ es) as [j Hj]%list_elem_of_lookup by by eapply elem_of_sublist.
    rewrite list.Forall_forall in Ha. specialize (Ha b Hb). unfold entry_lt at 1. cbn.
    apply (ilt_iff i j a b Hi Hj) in Ha as [?|[Heq ?]]; [done|]. exfalso.
    destruct Hvb as (Hsb & _ & Hn2). destruct Hva as (Hsa & _ & _). 
    rewrite list.Forall_forall in Hn2. specialize (Hn2 a (list_elem_of_lookup_2 _ _ _ Hi) Heq Hsa). lia.
  - apply list.Forall_forall. intros b' (b & -> & [_ [j Hj]%list_elem_of_lookup]%list_elem_of_filter)%list_elem_of_fmap.
    cbn. by eapply elem_valid.
Qed.

(** *** Forwards *)

Definition hid (skipping : bool) (skip : bytes) (e : entry) : Prop :=
  skipping = true ∧ Compare (uk e) skip ≤ 0.

(** The scan is at [n] and looks for the first visible entry from [b] on. *)
Record next_inv (n b : nat) (skipping : bool) (skip : bytes) : Prop := {
  next_older x e y a : (n ≤ x)%nat → es !! x = Some e → seen s e →
    (y < n)%nat → es !! y = Some a → seen s a → uk a = uk e → hid skipping skip e;
  next_hidden x e : (n ≤ x)%nat → (b ≤ x)%nat → es !! x = Some e → hid skipping skip e → ¬ visible s es e;
  next_low x e : (n ≤ x < b)%nat → es !! x = Some e → seen s e → hid skipping skip e ∧ ty e = kTypeValue;
  next_none x e : (b ≤ x < n)%nat → es !! x = Some e → ¬ visible s es e;
}.

Section Step.
Context (n b : nat) (skipping : bool) (skip : bytes) (e : entry).
Hypothesis N : next_inv n b skipping skip.
Hypothesis He : es !! n = Some e.

Lemma next_unseen : ¬ seen s e → next_inv (S n) b skipping skip.
Proof.
  intros Hns. destruct N as [N1 N2 N3 N4]. split.
  - intros x e' y a Hx He' Hs Hy Ha Hsa Heq. destruct (decide (y = n)) as [->|]; [by assert (a = e) as -> by congruence|].
    apply (N1 x e' y a); try done; lia.
  - intros x e' Hx Hb. apply N2; lia.
  - intros x e' Hx. apply N3. lia.
  - intros x e' Hx He'. destruct (decide (x = n)) as [->|]; [|apply (N4 x); [lia|done]].
    assert (e' = e) as -> by congruence. by intros [? _].
Qed.

Lemma next_hides : seen s e → hid skipping skip e → next_inv (S n) b skipping skip.
Proof.
  intros Hse Hh. destruct N as [N1 N2 N3 N4]. split.
  - intros x e' y a Hx He' Hs Hy Ha Hsa Heq. destruct (decide (y = n)) as [->|].
    + assert (a = e) as -> by congruence. unfold hid in *. by rewrite <- Heq.
    + apply (N1 x e' y a); try done; lia.
  - intros x e' Hx Hb. apply N2; lia.
  - intros x e' Hx. apply N3. lia.
  - intros x e' Hx He'. destruct (decide (x = n)) as [->|]; [|apply (N4 x); [lia|done]].
    assert (e' = e) as -> by congruence. apply (N2 n e); [lia|lia|done|done].
Qed.

Lemma next_deletion : seen s e → ty e = kTypeDeletion → next_inv (S n) b true (uk e).
Proof.
  intros Hse Hty. destruct N as [N1 N2 N3 N4].
  assert (b ≤ n)%nat as Hbn.
  { destruct (decide (b ≤ n)%nat); [done|]. destruct (N3 n e) as [_ Hv]; [lia|done|done|].
    rewrite Hty in Hv. done. }
  split.
  - intros x e' y a Hx He' Hs Hy Ha Hsa Heq. split; [done|].
    rewrite <- Heq. apply (entry_le y n a e Ha He). lia.
  - intros x e' Hx Hb He' [_ Hc] Hv. apply (visible_iff x e' He') in Hv as (_ & _ & Hn).
    apply (Hn n e); [lia|done|done|]. eapply same_key; [exact He|exact He'|lia|done].
  - intros x e' Hx. lia.
  - intros x e' Hx He'. destruct (decide (x = n)) as [->|]; [|apply (N4 x); [lia|done]].
    assert (e' = e) as -> by congruence. intros (_ & Hv & _). by rewrite Hty in Hv.
Qed.

Lemma next_found :
  seen s e → ty e = kTypeValue → ¬ hid skipping skip e → visible s es e ∧ (b ≤ n)%nat ∧ count n = count b.
Proof.
  intros Hse Hty Hnh. destruct N as [N1 N2 N3 N4].
  assert (b ≤ n)%nat as Hbn.
  { destruct (decide (b ≤ n)%nat); [done|]. destruct Hnh. apply (N3 n e); [lia|done|done]. }
  splits; [|done|].
  - apply (visible_iff n e He). splits; [done..|]. intros i a Hi Ha Hsa Heq. apply Hnh.
    by apply (N1 n e i a).
  - apply count_gap; [apply lookup_lt_Some in He; lia|]. intros i a Hi. by apply N4.
Qed.
End Step.

Lemma next_finished b skipping skip :
  (b ≤ length es)%nat → next_inv (length es) b skipping skip → count b = length (user_view s es).
Proof. intros Hb [_ _ _ N4]. rewrite length_view. symmetry. apply count_gap; [lia|]. intros i a Hi. by apply N4. Qed.

(** Where the scans start. *)
Lemma next_start skip : next_inv 0 0 false skip.
Proof. split; try lia. by intros x e _ _ _ []. Qed.

(** Behind the entry [j] that is shown, from [m] on, where everything between
    is too new. *)
Lemma next_after m j e :
  (m ≤ j)%nat → es !! j = Some e → visible s es e →
  (∀ i a, (m ≤ i < j)%nat → es !! i = Some a → ¬ seen s a) → next_inv m (S j) true (uk e).
Proof.
  intros Hmj He Hv Hm. pose proof Hv as (_ & _ & Hn)%(visible_iff j e He). split.
  - intros x e' y a Hx He' Hs Hy Ha Hsa Heq. split; [done|]. rewrite <- Heq.
    apply (entry_le y j a e Ha He). lia.
  - intros x e' Hx Hb He' [_ Hc] Hv'. apply (visible_unique j x e e'); try done.
    eapply same_key; [exact He|exact He'|lia|done].
  - intros x e' Hx He' Hs. destruct (decide (x = j)) as [->|]; [|destruct (Hm x e'); [lia|done|done]].
    assert (e' = e) as -> by congruence. destruct Hv as (_ & ? & _). split; [|done]. split; [done|].
    rewrite Compare_refl by by eapply elem_valid. lia.
  - intros x e' Hx. lia.
Qed.

(** *** Backwards *)

(** The last entry seen of those in [n, m) that the scan has passed; entries of
    its key that are further back would be newer. *)
Definition candidate (n m : nat) (key value : bytes) (j : nat) (e : entry) : Prop :=
  (n ≤ j < m)%nat ∧ es !! j = Some e ∧ key = uk e ∧ value = e.2 ∧ seen s e ∧ ty e = kTypeValue ∧
  (∀ x a, (n ≤ x < j)%nat → es !! x = Some a → ¬ seen s a) ∧
  (∀ x a, (j < x < m)%nat → es !! x = Some a → ¬ visible s es a).

Definition prev_inv (n m : nat) (value_type : Z) (key value : bytes) : Prop :=
  value_type = kTypeDeletion ∧ (∀ x a, (n ≤ x < m)%nat → es !! x = Some a → ¬ visible s es a) ∨
  value_type = kTypeValue ∧ ∃ j e, candidate n m key value j e.

Lemma prev_start m key value : prev_inv m m kTypeDeletion key value.
Proof. left. split; [done|]. lia. Qed.

Section PrevStep.
Context (n m : nat) (vt : Z) (key value : bytes) (e : entry).
Hypothesis P : prev_inv (S n) m vt key value.
Hypothesis He : es !! n = Some e.
Hypothesis Hnm : (n < m)%nat.

Lemma prev_unseen : ¬ seen s e → prev_inv n m vt key value.
Proof.
  intros Hns. destruct P as [[-> Hx]|(-> & j & ej & Hj & Hej & -> & -> & Hs & Ht & H1 & H2)].
  - left. split; [done|]. intros x a Hxn Ha. destruct (decide (x = n)) as [->|]; [|apply (Hx x); [lia|done]].
    assert (a = e) as -> by congruence. by intros [? _].
  - right. split; [done|]. exists j, ej. unfold candidate. splits; try done; [lia..|].
    intros x a Hxn Ha. destruct (decide (x = n)) as [->|]; [|apply (H1 x); [lia|done]].
    by assert (a = e) as -> by congruence.
Qed.

(** The entries of [n, m) are not visible beside the one at [n]: a candidate
    that was found before has the same key and is older. *)
Lemma prev_over :
  seen s e → ¬ (vt ≠ kTypeDeletion ∧ Compare (uk e) key < 0) →
  ∀ x a, (n < x < m)%nat → es !! x = Some a → ¬ visible s es a.
Proof.
  intros Hse Hc. destruct P as [[-> Hx]|(-> & j & ej & Hj & Hej & -> & -> & Hs & Ht & H1 & H2)].
  - intros x a Hxn. apply Hx. lia.
  - intros x a Hxn Ha Hv. destruct (decide (x = j)) as [->|].
    + assert (a = ej) as -> by congruence. apply (visible_iff j ej Hej) in Hv as (_ & _ & Hn).
      apply (Hn n e); [lia|done|done|]. destruct (entry_order n j e ej He Hej) as [?|[? _]]; [lia| |done].
      destruct Hc. split; [done|]. lia.
    + destruct (decide (x < j)%nat); [apply (H1 x a); [lia|done|by destruct Hv]|].
      apply (H2 x a); [lia|done|done].
Qed.

Lemma prev_take :
  seen s e → ¬ (vt ≠ kTypeDeletion ∧ Compare (uk e) key < 0) → ty e = kTypeValue →
  prev_inv n m kTypeValue (uk e) e.2.
Proof.
  intros Hse Hc Hty. right. split; [done|]. exists n, e. unfold candidate. splits; try done; [lia..|].
  by apply prev_over.
Qed.

Lemma prev_drop k v :
  seen s e → ¬ (vt ≠ kTypeDeletion ∧ Compare (uk e) key < 0) → ty e = kTypeDeletion →
  prev_inv n m kTypeDeletion k v.
Proof.
  intros Hse Hc Hty. left. split; [done|]. intros x a Hx Ha.
  destruct (decide (x = n)) as [->|]; [|apply (prev_over Hse Hc x a); [lia|done]].
  assert (a = e) as -> by congruence. intros (_ & Hv & _). by rewrite Hty in Hv.
Qed.

(** Behind an entry of a smaller key the candidate is the newest. *)
Lemma prev_stop :
  seen s e → vt ≠ kTypeDeletion → Compare (uk e) key < 0 →
  ∃ j ej, candidate (S n) m key value j ej ∧ visible s es ej.
Proof.
  intros Hse Hvt Hc. destruct P as [[-> _]|(_ & j & ej & Hj)]; [done|]. exists j, ej. split; [done|].
  destruct Hj as (Hj & Hej & -> & -> & Hs & Ht & H1 & H2). apply (visible_iff j ej Hej). splits; [done..|].
  intros i a Hi Ha Hsa Heq. destruct (decide (S n ≤ i)%nat); [by apply (H1 i a)|].
  pose proof (entry_le i n a e Ha He ltac:(lia)) as Hle. rewrite Heq in Hle.
  assert (V (uk e) ∧ V (uk ej)) as [Ve Vj] by (split; by eapply elem_valid).
  apply Compare_flip in Hc; [lia|done..].
Qed.
End PrevStep.

Lemma prev_finished m vt key value :
  prev_inv 0 m vt key value → vt ≠ kTypeDeletion →
  ∃ j e, candidate 0 m key value j e ∧ visible s es e.
Proof.
  intros [[-> _]|(_ & j & e & Hj)] Hvt; [done|]. exists j, e. split; [done|].
  destruct Hj as (Hj & He & -> & -> & Hs & Ht & H1 & H2). apply (visible_iff j e He). splits; [done..|].
  intros i a Hi Ha Hsa _. apply (H1 i a); [lia|done..].
Qed.

Lemma candidate_count n m key value j e :
  (m ≤ length es)%nat → candidate n m key value j e → visible s es e → count m = S (count j).
Proof.
  intros Hm (Hj & He & _ & _ & _ & _ & _ & H2) Hv.
  rewrite <- (decide_True (P := visible s es e) (S (count j)) (count j)) by done. rewrite <- count_S by done.
  apply count_gap; [lia|]. intros i a Hi. apply H2. lia.
Qed.
End View.

(** ** The key that a search starts at *)

Section SeekKey.
Context {C : Comparator} {V : bytes → Prop} {CL : ComparatorLaws C V}.

Abbreviation IKC := (InternalKeyComparator (user_comparator_ := C)).

Definition seek_key (s : Z) (target : bytes) : bytes := InternalKey target s kValueTypeForSeek.

Lemma seek_key_parts s target :
  seq_ok s →
  ExtractUserKey (seek_key s target) = target ∧ ExtractTag (seek_key s target) = s * 256 + 1 ∧
  8 ≤ zlen (seek_key s target).
Proof.
  intros Hs. unfold seek_key, InternalKey, AppendInternalKey, PutFixed64. cbn [user_key sequence type app].
  rewrite Pack_eq by done. change kValueTypeForSeek with 1. unfold seq_ok, kMaxSequenceNumber in Hs.
  destruct (Extract_app target (s * 256 + 1)) as [-> ->]; [unfold in_w; word_solve|].
  splits; [done|done|]. rewrite zlen_app, zlen_EncodeFixed64. pose proof (zlen_nonneg target). lia.
Qed.

(** What an internal key with a known type parses to. *)
Definition parsed (e : entry) : ParsedInternalKey :=
  {| user_key := uk e; sequence := Z.shiftr (tag e) 8; type := ty e |}.

Lemma parse_valid e : 8 ≤ zlen e.1 → ty e ≤ kTypeValue → ParseInternalKey e.1 = Some (parsed e).
Proof.
  intros Hl Ht. unfold ParseInternalKey. rewrite decide_False by lia. cbn zeta. by rewrite decide_True.
Qed.

Lemma tag_split e : tag e = Z.shiftr (tag e) 8 * 256 + ty e.
Proof.
  unfold ty, ExtractValueType. fold (tag e). rewrite shiftr_div, land_255 by lia. change (2 ^ 8) with 256.
  rewrite Z.mul_comm. apply Z.div_mod. lia.
Qed.

Lemma ty_range e : 0 ≤ ty e < 256.
Proof. unfold ty, ExtractValueType. rewrite land_255. apply Z.mod_pos_bound. lia. Qed.

(** The entries of a user key that are seen are those that are not before the
    key. *)
Lemma seen_iff_tag s e : ty e ≤ kTypeValue → seen s e ↔ tag e ≤ s * 256 + 1.
Proof. intros Ht. pose proof (tag_split e). pose proof (ty_range e). unfold seen. unfold kTypeValue in Ht. lia. Qed.

Lemma seek_key_before s e target :
  seq_ok s → V target → V (uk e) → ty e ≤ kTypeValue →
  Compare (Comparator := IKC) e.1 (seek_key s target) < 0 ↔
  Compare (uk e) target < 0 ∨ uk e = target ∧ ¬ seen s e.
Proof.
  intros Hs Vt Ve Ht. destruct (seek_key_parts s target Hs) as (E1 & E2 & _).
  cbn [Compare InternalKeyComparator]. rewrite Internal_Compare_lt, E1, E2. fold (uk e) (tag e).
  rewrite (seen_iff_tag s e Ht), (Compare_eq (uk e) target Ve Vt). intuition lia.
Qed.

(** A seen entry is before the key that is searched for if its user key is. *)
Lemma before_seek_key s e target :
  seq_ok s → V target → V (uk e) → ty e ≤ kTypeValue → seen s e →
  Compare (Comparator := IKC) e.1 (seek_key s target) < 0 ↔ Compare (uk e) target < 0.
Proof. intros. rewrite seek_key_before by done. tauto. Qed.
End SeekKey.

(** ** The iterator shows the view *)

Section Correct.
Context {C : Comparator} {I : Type} {II : Iterator I} {V : bytes → Prop} {CL : ComparatorLaws C V}.

Abbreviation IKC := (InternalKeyComparator (user_comparator_ := C)).
Abbreviation IV := (ikey_valid (V := V)).

Context {rel : I → list entry → option nat → Prop} {IL : IteratorLaws (C := IKC) I IV rel}.

(** Keys that parse, and entries whose size is a positive [ssize_t]. *)
Definition entry_fits (e : entry) : Prop := ty e ≤ kTypeValue ∧ zlen e.1 + zlen e.2 < 2 ^ 31.

Context (fuel : nat) (s : Z) (es : list entry).
Hypothesis es_sorted : StronglySorted (entry_lt (C := IKC)) es.
Hypothesis es_V : Forall (λ e, IV e.1) es.
Hypothesis es_fit : Forall entry_fits es.
Hypothesis es_fuel : (length es < fuel)%nat.
Hypothesis s_ok : seq_ok s.

Abbreviation view := (user_view s es).
Abbreviation count := (count s es).

Definition sampling_ok (it : DBIter I) : Prop := good_seed (rnd_ it) ∧ 0 ≤ bytes_counter_ it < 2 ^ 21.

(** The internal iterator is at [p]. *)
Definition core (it : DBIter I) (p : option nat) : Prop :=
  rel (iter_ it) es p ∧ sequence_ it = s ∧ status_ it = Status_OK ∧ sampling_ok it.

(** When the iterator moves forward the internal one is at the entry that is
    shown, otherwise it is before all entries of its key that are seen. *)
Definition shows (it : DBIter I) (j : nat) (e : entry) : Prop :=
  es !! j = Some e ∧ visible s es e ∧ valid_ it = true ∧
  match direction_ it with
  | kForward => core it (Some j)
  | kReverse => saved_key_ it = uk e ∧ saved_value_ it = e.2 ∧
      ∃ m, (m ≤ j)%nat ∧ core it (pos_prev m) ∧
        ∀ i a, (m ≤ i < j)%nat → es !! i = Some a → ¬ seen s a
  end.

Definition view_rel (it : DBIter I) (p : option nat) : Prop :=
  match p with
  | None => valid_ it = false ∧ ∃ q, core it q
  | Some i => ∃ j e, count j = i ∧ shows it j e
  end.

Lemma core_iter it p : core it p → it_Valid (iter_ it) = bool_decide (is_Some p).
Proof. intros [HR _]. exact (rel_Valid (C := IKC) _ es p HR). Qed.

(** What is left unchanged of [core]. *)
Lemma core_with it it' p :
  core it p → iter_ it' = iter_ it → sequence_ it' = sequence_ it → status_ it' = status_ it →
  rnd_ it' = rnd_ it → bytes_counter_ it' = bytes_counter_ it → core it' p.
Proof. unfold core, sampling_ok. by intros ? -> -> -> -> ->. Qed.

Lemma core_set_iter it i p q : core it p → rel i es q → core (set_iter it i) q.
Proof. intros (_ & ? & ? & ?) ?. by split. Qed.

Lemma elem_fits j e : es !! j = Some e → entry_fits e.
Proof. intros He%list_elem_of_lookup_2. rewrite list.Forall_forall in es_fit. by apply es_fit. Qed.

Lemma parse_entry j e : es !! j = Some e → ParseInternalKey e.1 = Some (parsed e).
Proof. intros He. apply parse_valid; [by eapply elem_valid|by apply (elem_fits j)]. Qed.

Lemma ParseKey_ok it j e :
  core it (Some j) → es !! j = Some e →
  ∃ seed counter ks, ParseKey it = Some (set_sampling it seed counter ks, Some (parsed e)) ∧
    core (set_sampling it seed counter ks) (Some j).
Proof.
  intros (HR & Hseq & Hst & [Hg Hb]) He. unfold ParseKey.
  rewrite (rel_key (C := IKC) _ es j e HR He), (rel_value (C := IKC) _ es j e HR He). cbn [mbind option_bind].
  destruct (elem_fits j e He) as [_ Hz]. pose proof (zlen_nonneg e.1). pose proof (zlen_nonneg e.2).
  assert (ssize (zlen e.1 + zlen e.2) = zlen e.1 + zlen e.2) as ->.
  { unfold ssize. rewrite wrap_small by word_solve. by rewrite decide_True. }
  change (2 ^ 31) with 2147483648 in *. change (2 ^ 21) with 2097152 in *. cbn zeta.
  rewrite decide_True by lia.
  destruct (sample_loop_total (Z.to_nat (2 * - (bytes_counter_ it - (zlen e.1 + zlen e.2)) + 2)) e.1
    (bytes_counter_ it - (zlen e.1 + zlen e.2)) (rnd_ it) (samples it) Hg) as (c & seed & n & -> & Hg' & Hc & Hc' & _);
    [left; lia|].
  cbn [mbind option_bind]. rewrite (parse_entry j e He). eexists _, _, _. split; [done|].
  split; [done|]. splits; [done|done|]. split; [done|]. cbn. change (2 ^ 21) with 2097152 in *. lia.
Qed.

(** *** Forwards *)

Lemma FindNextUserEntry_ok f n b skipping it :
  (n < length es)%nat → (b ≤ length es)%nat → (length es - n ≤ f)%nat → core it (Some n) → direction_ it = kForward →
  next_inv s es n b skipping (saved_key_ it) →
  ∃ it', FindNextUserEntry f skipping it = Some it' ∧ view_rel it' (pos_at view (count b)).
Proof.
  revert n skipping it. induction f as [|f IH]; intros n skipping it Hn Hb Hf HC Hd HN; [lia|].
  destruct (lookup_lt_is_Some_2 es n Hn) as [e He]. cbn [FindNextUserEntry].
  destruct (ParseKey_ok it n e HC He) as (seed & c & ks & -> & HC'). cbn [mbind option_bind].
  set (it1 := set_sampling it seed c ks) in *.
  assert (∀ sk it2, core it2 (Some n) → direction_ it2 = kForward → next_inv s es (S n) b sk (saved_key_ it2) →
    ∃ it', (i ← it_Next (iter_ it2);
      if it_Valid i then FindNextUserEntry f sk (set_iter it2 i)
      else Some (set_valid (SaveKey (set_iter it2 i) []) false)) = Some it' ∧ view_rel it' (pos_at view (count b))) as Hgo.
  { intros sk it2 HC2 Hd2 HN2. destruct (rel_Next (C := IKC) _ es n (proj1 HC2)) as (i & -> & HR). cbn [mbind option_bind].
    rewrite (rel_Valid (C := IKC) i es _ HR). unfold pos_at in HR. case_decide as Hlt.
    - rewrite bool_decide_true by (unfold pos_at; rewrite decide_True by done; eauto).
      apply (IH (S n)); [done|done|lia|by eapply core_set_iter|done|done].
    - assert (pos_at es (S n) = None) as -> by (unfold pos_at; by rewrite decide_False).
      rewrite bool_decide_false by (by intros [? ?]).
      eexists; split; [done|]. assert (S n = length es) as Hend by lia. rewrite Hend in HN2.
      rewrite (next_finished s es b _ _ Hb HN2). unfold pos_at. rewrite decide_False by lia.
      split; [done|]. exists None. by apply (core_with (set_iter it2 i)); [by eapply core_set_iter|..]. }
  unfold next_entry, parsed. cbn [sequence type user_key].
  change (sequence_ it1) with (sequence_ it). destruct HC as (HR & Hseq & _). rewrite Hseq.
  destruct (decide (Z.shiftr (tag e) 8 ≤ s)) as [Hs|Hs].
  2: { apply Hgo; [done|done|]. by eapply next_unseen. }
  destruct (decide (ty e = kTypeDeletion)) as [Ht|Ht].
  { apply Hgo; [by eapply core_with|done|]. by eapply next_deletion. }
  assert (ty e = kTypeValue) as Hv.
  { destruct (elem_fits n e He) as [? _]. assert (0 ≤ ty e) by (apply Z.land_nonneg; right; lia).
    unfold kTypeValue, kTypeDeletion in *. lia. }
  rewrite decide_True by done. change (saved_key_ it1) with (saved_key_ it).
  destruct (skipping && bool_decide (Compare (uk e) (saved_key_ it) ≤ 0)) eqn:Hh.
  - apply andb_true_iff in Hh as [-> Hh%bool_decide_eq_true]. apply Hgo; [done|done|].
    by eapply next_hides.
  - assert (¬ hid skipping (saved_key_ it) e) as Hnh.
    { intros [-> Hc]. rewrite bool_decide_true in Hh by done. done. }
    destruct (next_found s es es_sorted es_V n b skipping _ e HN He Hs Hv Hnh) as (Hvis & Hbn & Hcount).
    eexists; split; [done|]. rewrite <- Hcount. unfold pos_at.
    rewrite decide_True by by eapply count_lt. exists n, e. split; [done|].
    unfold shows. splits; [done..|]. cbn. change (direction_ it) with (direction_ it) in *. rewrite Hd.
    by eapply core_with.
Qed.

(** *** Backwards *)

(** How the loop of [FindPrevUserEntry] ends that started before [m]. *)
Definition prev_result (m : nat) (it : DBIter I) (vt : Z) : Prop :=
  ∃ n, core it (pos_prev n) ∧
    (vt = kTypeDeletion ∧ (∀ x a, (x < m)%nat → es !! x = Some a → ¬ visible s es a) ∨
     vt = kTypeValue ∧ ∃ j e, candidate s es n m (saved_key_ it) (saved_value_ it) j e ∧ visible s es e).

Lemma type_cases j e : es !! j = Some e → ty e = kTypeDeletion ∨ ty e = kTypeValue.
Proof.
  intros He. destruct (elem_fits j e He) as [? _]. assert (0 ≤ ty e) by (apply Z.land_nonneg; right; lia).
  unfold kTypeValue, kTypeDeletion in *. lia.
Qed.

Lemma prev_inv_end it m vt :
  core it None → prev_inv s es 0 m vt (saved_key_ it) (saved_value_ it) → prev_result m it vt.
Proof.
  intros HC HP. exists 0%nat. split; [done|]. destruct (decide (vt = kTypeDeletion)) as [->|Hvt].
  - left. split; [done|]. destruct HP as [[_ Hx]|[? _]]; [|done]. intros x a Hxm. apply Hx. lia.
  - right. split; [by destruct HP as [[? _]|[? _]]|]. by eapply prev_finished.
Qed.

(** One step back, after which the loop goes on or ends. *)
Lemma prev_go f n m vt it :
  (∀ n vt it, (n < m)%nat → (n < f)%nat → core it (Some n) →
     prev_inv s es (S n) m vt (saved_key_ it) (saved_value_ it) →
     ∃ it' vt', FindPrev_loop f vt it = Some (it', vt') ∧ direction_ it' = direction_ it ∧ prev_result m it' vt') →
  (n < m)%nat → (n < S f)%nat → core it (Some n) → prev_inv s es n m vt (saved_key_ it) (saved_value_ it) →
  ∃ it' vt', (i ← it_Prev (iter_ it);
    if it_Valid i then FindPrev_loop f vt (set_iter it i) else Some (set_iter it i, vt)) = Some (it', vt') ∧
    direction_ it' = direction_ it ∧ prev_result m it' vt'.
Proof.
  intros IH Hn Hf HC HP. destruct (rel_Prev (C := IKC) _ es n (proj1 HC)) as (i & -> & HR).
  cbn [mbind option_bind]. rewrite (rel_Valid (C := IKC) i es _ HR).
  pose proof (core_set_iter it i _ _ HC HR) as HC'. destruct n as [|n]; cbn [pos_prev] in *.
  - rewrite bool_decide_false by (by intros [? ?]). eexists _, _. splits; [done|done|].
    by apply prev_inv_end.
  - rewrite bool_decide_true by eauto. apply (IH n vt (set_iter it i)); [lia|lia|done|done].
Qed.

Lemma FindPrev_loop_ok f n m vt it :
  (n < m)%nat → (m ≤ length es)%nat → (n < f)%nat → core it (Some n) →
  prev_inv s es (S n) m vt (saved_key_ it) (saved_value_ it) →
  ∃ it' vt', FindPrev_loop f vt it = Some (it', vt') ∧ direction_ it' = direction_ it ∧ prev_result m it' vt'.
Proof.
  intros Hn Hm. revert n vt it Hn. induction f as [|f IH]; intros n vt it Hn Hf HC HP; [lia|].
  destruct (lookup_lt_is_Some_2 es n) as [e He]; [lia|]. cbn [FindPrev_loop].
  destruct (ParseKey_ok it n e HC He) as (seed & c & ks & -> & HC'). cbn [mbind option_bind]. cbv zeta.
  set (it1 := set_sampling it seed c ks) in *. cbn [parsed sequence type user_key].
  pose proof HC as (_ & Hseq & _). change (sequence_ it1) with (sequence_ it). rewrite Hseq.
  change (saved_key_ it1) with (saved_key_ it).
  change (direction_ it) with (direction_ it1).
  destruct (decide (Z.shiftr (tag e) 8 ≤ s)) as [Hs|Hs].
  2: { apply (prev_go f n m vt it1); [done|done|done|done|]. by apply (prev_unseen s es n m vt _ _ e). }
  destruct (decide (vt ≠ kTypeDeletion ∧ Compare (uk e) (saved_key_ it) < 0)) as [[Hvt Hc]|Hc].
  - eexists _, _. splits; [done|done|]. exists (S n). split; [done|]. right.
    split; [by destruct HP as [[? _]|[? _]]|]. by apply (prev_stop s es es_sorted es_V n m vt _ _ e).
  - destruct (decide (ty e = kTypeDeletion)) as [Ht|Ht].
    + apply (prev_go f n m _ (set_saved it1 [] [])); [done|done|done|by eapply core_with|].
      rewrite Ht. by apply (prev_drop s es es_sorted es_V n m vt (saved_key_ it) (saved_value_ it) e).
    + destruct (type_cases n e He) as [?|Hv]; [done|].
      rewrite (rel_value (C := IKC) _ es n e (proj1 HC') He), (rel_key (C := IKC) _ es n e (proj1 HC') He).
      cbn [mbind option_bind]. rewrite Hv.
      apply (prev_go f n m _ (set_saved it1 (uk e) e.2)); [done|done|done|by eapply core_with|].
      by apply (prev_take s es es_sorted es_V n m vt (saved_key_ it) (saved_value_ it) e).
Qed.

Lemma FindPrevUserEntry_ok it m :
  core it (pos_prev m) → (m ≤ length es)%nat → direction_ it = kReverse →
  ∃ it', FindPrevUserEntry fuel it = Some it' ∧ view_rel it' (pos_prev (count m)).
Proof.
  intros HC Hm Hd. unfold FindPrevUserEntry.
  assert (∃ it' vt, (if it_Valid (iter_ it) then FindPrev_loop fuel kTypeDeletion it else Some (it, kTypeDeletion)) =
    Some (it', vt) ∧ direction_ it' = kReverse ∧ prev_result m it' vt) as (it' & vt & -> & Hd' & n & HC' & Hres).
  { rewrite (core_iter it _ HC). destruct m as [|m]; cbn [pos_prev] in *.
    - rewrite bool_decide_false by (by intros [? ?]). eexists _, _. splits; [done|done|].
      exists 0%nat. split; [done|]. left. split; [done|]. lia.
    - rewrite bool_decide_true by eauto. rewrite <- Hd. apply (FindPrev_loop_ok fuel m); [lia|done|lia|done|].
      apply prev_start. }
  cbn [mbind option_bind]. destruct Hres as [[-> Hnone]|(-> & j & e & Hcand & Hv)].
  - rewrite decide_True by done. eexists; split; [done|].
    assert (count m = 0%nat) as ->.
    { rewrite <- (count_0 s es). apply count_gap; [lia|]. intros i a Hi. apply Hnone. lia. }
    split; [done|]. exists (pos_prev n). by eapply core_with.
  - rewrite decide_False by done. eexists; split; [done|].
    rewrite (candidate_count s es n m _ _ j e Hm Hcand Hv). exists j, e. split; [done|].
    destruct Hcand as (Hj & He & Hk & Hval & _ & _ & Hun & _). unfold shows. splits; [done..|].
    cbn. rewrite Hd'. splits; [done..|]. exists n. splits; [lia|by eapply core_with|done].
Qed.

(** *** The methods *)

Lemma shows_index it j e : shows it j e → (j < length es)%nat.
Proof. intros (He & _). by eapply lookup_lt_Some. Qed.

Lemma count_after j e : es !! j = Some e → visible s es e → count (S j) = S (count j).
Proof. intros He Hv. rewrite (count_S s es j e He). by rewrite decide_True. Qed.

(** The scan forward from a position of the internal iterator. *)
Lemma find_from it i n b skipping :
  core it (pos_at es n) → iter_ it = i → (b ≤ length es)%nat → direction_ it = kForward →
  next_inv s es n b skipping (saved_key_ it) → (n ≤ length es)%nat →
  ∀ it0, core it0 (pos_at es n) → valid_ it0 = false →
  ∃ it', (if it_Valid i then FindNextUserEntry fuel skipping it else Some it0) = Some it' ∧
    view_rel it' (pos_at view (count b)).
Proof.
  intros HC <- Hb Hd HN Hn it0 HC0 Hv0. rewrite (core_iter it _ HC). unfold pos_at in *. case_decide as Hlt.
  - rewrite bool_decide_true by eauto. eapply FindNextUserEntry_ok; [done..|lia|done|done|done].
  - rewrite bool_decide_false by (by intros [? ?]). eexists; split; [done|].
    assert (n = length es) as -> by lia. rewrite (next_finished s es b _ _ Hb HN).
    rewrite decide_False by lia. split; [done|]. by exists None.
Qed.

Lemma db_Next_ok it i :
  view_rel it (Some i) → ∃ it', db_Next fuel it = Some it' ∧ view_rel it' (pos_at view (S i)).
Proof.
  intros (j & e & <- & Hsh). pose proof (shows_index it j e Hsh) as Hj. destruct Hsh as (He & Hv & _ & Hd).
  rewrite <- (count_after j e He Hv). unfold db_Next. destruct (direction_ it) eqn:Ed.
  - rewrite (rel_key (C := IKC) _ es j e (proj1 Hd) He). cbn [mbind option_bind].
    eapply (FindNextUserEntry_ok fuel j (S j)); [done|done|lia|by eapply core_with|done|].
    apply (next_after s es es_sorted es_V j j e); [done..|]. lia.
  - destruct Hd as (Hk & _ & m & Hm & HC & Hun). cbv zeta.
    assert (∃ i, (if it_Valid (iter_ it) then it_Next (iter_ it) else it_SeekToFirst (iter_ it)) = Some i ∧
      rel i es (pos_at es m)) as (i & Ei & HR).
    { rewrite (core_iter it _ HC). destruct m as [|m]; cbn [pos_prev] in *.
      - rewrite bool_decide_false by (by intros [? ?]). exact (rel_SeekToFirst (C := IKC) _ es _ (proj1 HC)).
      - rewrite bool_decide_true by eauto. exact (rel_Next (C := IKC) _ es m (proj1 HC)). }
    cbn [set_direction iter_]. rewrite Ei. cbn [mbind option_bind].
    assert (core (set_iter (set_direction it kForward) i) (pos_at es m)) as HC'
      by (eapply core_set_iter; [by eapply core_with|done]).
    eapply find_from; [exact HC'|done|done|done| |lia|by eapply core_with|done].
    cbn. rewrite Hk. by apply (next_after s es es_sorted es_V m j e).
Qed.

Lemma scan_back_ok f n j k it :
  (n ≤ j < length es)%nat → (n < f)%nat → core it (Some n) → saved_key_ it = k →
  (∀ x a, (n ≤ x < j)%nat → es !! x = Some a → ¬ Compare (uk a) k < 0) →
  ∃ it' found m, scan_back f it = Some (it', found) ∧ (m ≤ j)%nat ∧ core it' (pos_prev m) ∧
    (found = false → m = 0%nat) ∧ 
    (∀ x a, (m ≤ x < j)%nat → es !! x = Some a → ¬ Compare (uk a) k < 0).
Proof.
  revert n it. induction f as [|f IH]; intros n it Hn Hf HC Hk Hx; [lia|]. cbn [scan_back].
  destruct (rel_Prev (C := IKC) _ es n (proj1 HC)) as (i & -> & HR). cbn [mbind option_bind].
  rewrite (rel_Valid (C := IKC) i es _ HR). pose proof (core_set_iter it i _ _ HC HR) as HC'.
  destruct n as [|n]; cbn [pos_prev] in *.
  - rewrite bool_decide_false by (by intros [? ?]). exists (set_iter it i), false, 0%nat.
    splits; [done|lia|done|done|done].
  - rewrite bool_decide_true by eauto. destruct (lookup_lt_is_Some_2 es n) as [e He]; [lia|].
    rewrite (rel_key (C := IKC) i es n e HR He). cbn [mbind option_bind]. rewrite Hk. fold (uk e).
    case_decide as Hc.
    + exists (set_iter it i), true, (S n). by splits; [|lia|..].
    + apply (IH n); [lia|lia|done|done|]. intros x a Hxn Ha.
      destruct (decide (x = n)) as [->|]; [|apply (Hx x); [lia|done]]. by assert (a = e) as -> by congruence.
Qed.

Lemma db_Prev_ok it i :
  view_rel it (Some i) → ∃ it', db_Prev fuel it = Some it' ∧ view_rel it' (pos_prev i).
Proof.
  intros (j & e & <- & Hsh). pose proof (shows_index it j e Hsh) as Hj. destruct Hsh as (He & Hv & _ & Hd).
  unfold db_Prev. destruct (direction_ it) eqn:Ed.
  - rewrite (rel_key (C := IKC) _ es j e (proj1 Hd) He). cbn [mbind option_bind]. fold (uk e).
    destruct (scan_back_ok fuel j j (uk e) (SaveKey it (uk e))) as (it' & found & m & -> & Hm & HC & Hf & Hx);
      [lia|lia|by eapply core_with|done|lia|].
    cbn [mbind option_bind].
    assert (count j = count m) as Hcount.
    { apply count_gap; [lia|]. intros x a Hxm Ha Hva.
      apply (visible_unique s es es_sorted es_V x j a e Ha He); [lia|done|done|].
      destruct (entry_order es es_sorted es_V x j a e Ha He) as [?|[? _]]; [lia| |done].
      by destruct (Hx x a). }
    rewrite Hcount. destruct found.
    + apply FindPrevUserEntry_ok; [by eapply core_with|lia|done].
    + rewrite Hf, count_0 by done. eexists; split; [done|]. split; [done|]. exists (pos_prev m).
      by eapply core_with.
  - destruct Hd as (_ & _ & m & Hm & HC & Hun).
    rewrite (count_gap s es m j); [|lia|intros x a Hxm Ha [Hs _]; by apply (Hun x a)].
    apply FindPrevUserEntry_ok; [done|lia|done].
Qed.

Lemma core_clear it d p : core it p → core (ClearSavedValue (set_direction it d)) p.
Proof. intros. by eapply core_with. Qed.

Lemma view_core it p : view_rel it p → ∃ q, core it q.
Proof.
  destruct p as [i|]; [|by intros [_ ?]]. intros (j & e & _ & _ & _ & _ & Hd).
  destruct (direction_ it); [eauto|]. destruct Hd as (_ & _ & m & _ & ? & _). eauto.
Qed.

Lemma db_SeekToFirst_ok it p :
  view_rel it p → ∃ it', db_SeekToFirst fuel it = Some it' ∧ view_rel it' (pos_first view).
Proof.
  intros [q HC]%view_core. unfold db_SeekToFirst. cbv zeta. cbn [ClearSavedValue set_saved set_direction iter_].
  destruct (rel_SeekToFirst (C := IKC) _ es q (proj1 HC)) as (i & -> & HR). cbn [mbind option_bind].
  assert (core (set_iter (ClearSavedValue (set_direction it kForward)) i) (pos_at es 0)) as HC'
    by (eapply core_set_iter; [by apply core_clear|done]).
  eapply (find_from _ i 0 0); [exact HC'|done|lia|done|apply next_start|lia|by eapply core_with|done].
Qed.

Lemma db_SeekToLast_ok it p :
  view_rel it p → ∃ it', db_SeekToLast fuel it = Some it' ∧ view_rel it' (pos_last view).
Proof.
  intros [q HC]%view_core. unfold db_SeekToLast. cbv zeta. cbn [ClearSavedValue set_saved set_direction iter_].
  destruct (rel_SeekToLast (C := IKC) _ es q (proj1 HC)) as (i & -> & HR). cbn [mbind option_bind].
  assert (pos_last view = pos_prev (count (length es))) as ->
    by (unfold pos_last; rewrite length_view; by destruct (count (length es))).
  apply FindPrevUserEntry_ok; [|done|done]. eapply core_set_iter; [by apply core_clear|].
  unfold pos_last in HR. by destruct (length es).
Qed.

(** *** Searches *)

Section Seek.
Context (target : bytes).
Hypothesis Vt : V target.

Lemma seek_valid : IV (seek_key s target).
Proof. destruct (seek_key_parts s target s_ok) as (E1 & _ & ?). split; [done|by rewrite E1]. Qed.

Definition seek_index : nat := length (entries_before (C := IKC) es (seek_key s target)).

Lemma seek_index_iff j e :
  es !! j = Some e → seen s e → (j < seek_index)%nat ↔ Compare (uk e) target < 0.
Proof.
  intros He Hs. unfold seek_index.
  rewrite (entries_before_iff (C := IKC) (V := IV) es (seek_key s target) j e) by (done || apply seek_valid).
  apply before_seek_key; [done|done|by eapply (elem_valid es es_V)|by apply (elem_fits j)|done].
Qed.

Lemma seek_inv skip : next_inv s es seek_index seek_index false skip.
Proof.
  split; try lia; [|by intros x e _ _ _ []].
  intros x e y a Hx He Hs Hy Ha Hsa Heq. exfalso.
  apply (seek_index_iff y a Ha Hsa) in Hy. rewrite Heq in Hy. apply (seek_index_iff x e He Hs) in Hy. lia.
Qed.

Lemma seek_index_le : (seek_index ≤ length es)%nat.
Proof. apply length_filter. Qed.

(** The view is cut at the same place. *)
Lemma view_split n :
  user_view s es = (user_entry <$> filter (visible s es) (take n es)) ++
                   (user_entry <$> filter (visible s es) (drop n es)).
Proof. unfold user_view. by rewrite <- fmap_app, <- list.filter_app, take_drop. Qed.

Lemma seek_view : length (entries_before view target) = count seek_index.
Proof.
  assert (length (user_entry <$> filter (visible s es) (take seek_index es)) = count seek_index) as Hlen
    by by rewrite length_fmap.
  unfold entries_before. apply filter_cut.
  - intros j x Hj Hx. rewrite (view_split seek_index), lookup_app_l in Hx by (rewrite Hlen; done).
    apply list_elem_of_lookup_2, list_elem_of_fmap in Hx as (e & -> & [[Hs _] [i Hi]%list_elem_of_lookup]%list_elem_of_filter).
    apply lookup_take_Some in Hi as [Hi Hlt]. cbn. by apply (seek_index_iff i e).
  - intros j x Hj Hx. rewrite (view_split seek_index), lookup_app_r in Hx by (rewrite Hlen; done).
    apply list_elem_of_lookup_2, list_elem_of_fmap in Hx as (e & -> & [[Hs _] [i Hi]%list_elem_of_lookup]%list_elem_of_filter).
    rewrite lookup_drop in Hi. cbn. rewrite <- (seek_index_iff _ e Hi Hs). lia.
  - rewrite (view_split seek_index), length_app, Hlen. lia.
Qed.

Lemma db_Seek_ok it p :
  view_rel it p → ∃ it', db_Seek fuel target it = Some it' ∧ view_rel it' (pos_seek view target).
Proof.
  intros [q HC]%view_core. unfold db_Seek. cbv zeta. pose proof HC as (_ & Hseq & _).
  cbn [ClearSavedValue SaveKey set_saved set_direction iter_ saved_key_ sequence_]. rewrite Hseq.
  fold (InternalKey target s kValueTypeForSeek) (seek_key s target).
  destruct (rel_Seek (C := IKC) _ es q (seek_key s target) (proj1 HC) seek_valid) as (i & -> & HR).
  cbn [mbind option_bind]. fold seek_index in HR.
  assert (core (set_iter (SaveKey (ClearSavedValue (set_direction it kForward)) (seek_key s target)) i)
    (pos_at es seek_index)) as HC'
    by (eapply core_set_iter; [by eapply core_with|done]).
  unfold pos_seek. rewrite seek_view.
  eapply (find_from _ i seek_index seek_index); [exact HC'|done|apply seek_index_le|done|apply seek_inv|
    apply seek_index_le|by eapply core_with|done].
Qed.
End Seek.

(** *** The laws *)

Definition db_rel (it : DBIter I) (es' : list entry) (p : option nat) : Prop := es' = view ∧ view_rel it p.

Lemma shows_view it i : view_rel it (Some i) → ∃ j e, es !! j = Some e ∧ view !! i = Some (user_entry e) ∧ shows it j e.
Proof.
  intros (j & e & <- & Hsh). exists j, e. pose proof Hsh as (He & Hv & _). splits; [done| |done].
  by apply view_lookup.
Qed.

#[export] Instance DBIter_laws : IteratorLaws (II := DBIter_Iterator fuel) (DBIter I) V db_rel.
Proof.
  split; intros it es'.
  - intros p [-> _]. exact (view_sorted s es es_sorted es_V).
  - intros i [-> (j & e & _ & Hvi & _)%shows_view]. by eapply lookup_lt_Some.
  - intros p [_ HR]. cbn. destruct p as [i|]; [|by destruct HR as [-> _]].
    destruct HR as (j & e & _ & _ & _ & -> & _). by rewrite bool_decide_true by eauto.
  - intros i e' [-> (j & e & He & Hvi & Hsh)%shows_view] He'. assert (e' = user_entry e) as -> by congruence.
    destruct Hsh as (_ & _ & Hval & Hd). cbn. unfold db_key. rewrite Hval. destruct (direction_ it).
    + by rewrite (rel_key (C := IKC) _ es j e (proj1 Hd) He).
    + destruct Hd as [-> _]. done.
  - intros i e' [-> (j & e & He & Hvi & Hsh)%shows_view] He'. assert (e' = user_entry e) as -> by congruence.
    destruct Hsh as (_ & _ & Hval & Hd). cbn. unfold db_value. rewrite Hval. destruct (direction_ it).
    + by rewrite (rel_value (C := IKC) _ es j e (proj1 Hd) He).
    + destruct Hd as (_ & -> & _). done.
  - intros p [_ [q (HR & _ & Hst & _)]%view_core]. cbn. unfold db_status. rewrite Hst. cbn.
    exact (rel_status (C := IKC) _ es q HR).
  - intros p [-> HR]. destruct (db_SeekToFirst_ok it p HR) as (it' & ? & ?). by exists it'.
  - intros p [-> HR]. destruct (db_SeekToLast_ok it p HR) as (it' & ? & ?). by exists it'.
  - intros p k [-> HR] Vk. destruct (db_Seek_ok k Vk it p HR) as (it' & ? & ?). by exists it'.
  - intros i [-> HR]. destruct (db_Next_ok it i HR) as (it' & Hn & ?). exists it'. cbn. unfold if_valid.
    destruct HR as (j & e & _ & _ & _ & -> & _). done.
  - intros i [-> HR]. destruct (db_Prev_ok it i HR) as (it' & Hn & ?). exists it'. cbn. unfold if_valid.
    destruct HR as (j & e & _ & _ & _ & -> & _). done.
Qed.

Lemma NewDBIterator_rel i q seed : rel i es q → db_rel (NewDBIterator i s seed) view None.
Proof.
  intros HR. split; [done|]. unfold NewDBIterator.
  pose proof (RandomPeriod_range (Random_init seed) (Random_init_good seed)) as [Hr Hg].
  destruct (RandomPeriod (Random_init seed)) as [period seed']. split; [done|]. exists q.
  unfold core, sampling_ok. by split; [|split; [|split; [|split]]].
Qed.
End Correct.

(** C24: over any internal iterator the iterator of a snapshot shows the user's
    view: for every user key the newest entry that the snapshot sees, unless it
    is a deletion. Both traversals, every search and any sequence of calls with
    any changes of direction are answered as by a position in that view, however
    keys are sampled on the way. *)
Theorem DBIter_refines {C : Comparator} {I : Type} {II : Iterator I} {V : bytes → Prop} {CL : ComparatorLaws C V}
    {rel : I → list entry → option nat → Prop}
    {IL : IteratorLaws (C := InternalKeyComparator) I (ikey_valid (V := V)) rel} fuel s es i q seed :
  rel i es q → (length es < fuel)%nat → Forall entry_fits es → seq_ok s →
  let it := NewDBIterator i s seed in
  iterates (II := DBIter_Iterator fuel) it V (user_view s es) ∧
  ∀ ms os, Forall (move_ok V) ms → cursor_run (user_view s es) ms None = Some os →
    it_run (II := DBIter_Iterator fuel) ms it = Some os.
Proof.
  intros HR Hf Hfit Hs it.
  destruct (rel_sorted (C := InternalKeyComparator) i es q HR) as [Hsort HV].
  pose proof (NewDBIterator_rel (rel := rel) s es i q seed HR) as Hrel.
  pose proof (DBIter_laws fuel s es Hsort HV Hfit Hf Hs) as L. split; [by eapply rel_iterates|].
  intros ms os Hms Hos. by eapply (rel_run (IL := L)).
Qed.

Example DBIter_refines_witness :
  let IKC := InternalKeyComparator (user_comparator_ := BytewiseComparator) in
  let es := [(InternalKey (str "a") 5 1, str "a5"); (InternalKey (str "a") 3 0, []);
             (InternalKey (str "b") 7 1, str "b7"); (InternalKey (str "b") 2 1, str "b2");
             (InternalKey (str "b") 1 1, str "b1"); (InternalKey (str "c") 4 1, str "c4")] in
  user_view 4 es = [(str "b", str "b2"); (str "c", str "c4")] ∧
  ∃ i, block_NewIterator (new_Block (fst (Finish (Adds 2 new_BlockBuilder es)))) = inr i ∧
    let it := NewDBIterator i 4 301 in
    iterates (II := DBIter_Iterator (C := BytewiseComparator) (II := Block_Iter (C := IKC)) 10) (C := BytewiseComparator)
      it any_key (user_view 4 es) ∧
    ∀ ms os, Forall (move_ok any_key) ms → cursor_run (C := BytewiseComparator) (user_view 4 es) ms None = Some os →
      it_run (II := DBIter_Iterator (C := BytewiseComparator) (II := Block_Iter (C := IKC)) 10) ms it = Some os.
Proof.
  cbv zeta. split; [by vm_compute|].
  destruct (built_block_open (CL := InternalKeyComparator_laws (CL := BytewiseComparator_laws)) 2
    [(InternalKey (str "a") 5 1, str "a5"); (InternalKey (str "a") 3 0, []);
     (InternalKey (str "b") 7 1, str "b7"); (InternalKey (str "b") 2 1, str "b2");
     (InternalKey (str "b") 1 1, str "b1"); (InternalKey (str "c") 4 1, str "c4")]) as (i & E & HR).
  - lia.
  - by vm_compute.
  - repeat constructor; by vm_compute.
  - repeat constructor; by vm_compute.
  - exists i. split; [exact E|].
    assert (seq_ok 4) as Hs by (unfold seq_ok, kMaxSequenceNumber; lia).
    refine (DBIter_refines (CL := BytewiseComparator_laws) (IL := Block_laws) 10 4 _ i None 301 HR _ _ Hs).
    + cbn. lia.
    + repeat constructor; by vm_compute.
Defined.

(** The comment of [Direction] says that a backward iterator stands just before
    the entries of its key; it stands before the newer entries of other keys in
    front of them, too. Here it shows "c" and is before the entry of "b". *)
Example reverse_position :
  let IKC := InternalKeyComparator (user_comparator_ := BytewiseComparator) in
  let es := [(InternalKey (str "a") 1 1, str "a1"); (InternalKey (str "b") 9 1, str "b9");
             (InternalKey (str "c") 2 1, str "c2")] in
  match block_NewIterator (new_Block (fst (Finish (Adds 2 new_BlockBuilder es)))) with
  | inr i =>
      it ← db_SeekToLast (C := BytewiseComparator) (II := Block_Iter (C := IKC)) 10 (NewDBIterator i 4 301);
      k ← it_key (Iterator := Block_Iter (C := IKC)) (iter_ it); Some (saved_key_ it, k)
  | inl _ => None
  end = Some (str "c", InternalKey (str "a") 1 1).
Proof. vm_compute. reflexivity. Qed.
