(* ===== verification/VersionEdit.v ===== *)
(** Changes of the set of live files: [db/version_edit.h] and
    [db/version_edit.cc].

    A [VersionEdit] is what one record of the descriptor log holds.  An
    [InternalKey] object is its bytes; [deleted_files_], a [std::set], is the
    sorted list of its members. *)
From Stdlib Require Import Sorting.Sorted.
From S2P Require Import Prelude SortedLists Coding Status Logging DbFormat.

Record FileMetaData := {
  refs : Z;
  allowed_seeks : Z;
  number : Z;
  file_size : Z;
  smallest : bytes;
  largest : bytes;
}.

(** A [FileMetaData] as its constructor makes it, with four fields set. *)
Definition new_FileMetaData (number file_size : Z) (smallest largest : bytes) : FileMetaData :=
  {| refs := 0; allowed_seeks := Z.shiftl 1 30; number := number; file_size := file_size;
     smallest := smallest; largest := largest |}.

(** A number together with its [has_] flag is an option; the number that a
    cleared flag leaves behind is 0 or the empty string and is not read. *)
Record VersionEdit := {
  comparator_ : option bytes;
  log_number_ : option Z;
  prev_log_number_ : option Z;
  next_file_number_ : option Z;
  last_sequence_ : option Z;
  compact_pointers_ : list (Z * bytes);
  deleted_files_ : list (Z * Z);
  new_files_ : list (Z * FileMetaData);
}.

Definition new_VersionEdit : VersionEdit :=
  {| comparator_ := None; log_number_ := None; prev_log_number_ := None; next_file_number_ := None;
     last_sequence_ := None; compact_pointers_ := []; deleted_files_ := []; new_files_ := [] |}.

(** [Clear] keeps [compact_pointers_]. *)
Definition Clear (e : VersionEdit) : VersionEdit :=
  {| comparator_ := None; log_number_ := None; prev_log_number_ := None; next_file_number_ := None;
     last_sequence_ := None; compact_pointers_ := compact_pointers_ e; deleted_files_ := [];
     new_files_ := [] |}.

Definition SetComparatorName (name : bytes) (e : VersionEdit) : VersionEdit :=
  {| comparator_ := Some name; log_number_ := log_number_ e; prev_log_number_ := prev_log_number_ e;
     next_file_number_ := next_file_number_ e; last_sequence_ := last_sequence_ e;
     compact_pointers_ := compact_pointers_ e; deleted_files_ := deleted_files_ e; new_files_ := new_files_ e |}.
Definition SetLogNumber (num : Z) (e : VersionEdit) : VersionEdit :=
  {| comparator_ := comparator_ e; log_number_ := Some num; prev_log_number_ := prev_log_number_ e;
     next_file_number_ := next_file_number_ e; last_sequence_ := last_sequence_ e;
     compact_pointers_ := compact_pointers_ e; deleted_files_ := deleted_files_ e; new_files_ := new_files_ e |}.
Definition SetPrevLogNumber (num : Z) (e : VersionEdit) : VersionEdit :=
  {| comparator_ := comparator_ e; log_number_ := log_number_ e; prev_log_number_ := Some num;
     next_file_number_ := next_file_number_ e; last_sequence_ := last_sequence_ e;
     compact_pointers_ := compact_pointers_ e; deleted_files_ := deleted_files_ e; new_files_ := new_files_ e |}.
Definition SetNextFile (num : Z) (e : VersionEdit) : VersionEdit :=
  {| comparator_ := comparator_ e; log_number_ := log_number_ e; prev_log_number_ := prev_log_number_ e;
     next_file_number_ := Some num; last_sequence_ := last_sequence_ e;
     compact_pointers_ := compact_pointers_ e; deleted_files_ := deleted_files_ e; new_files_ := new_files_ e |}.
Definition SetLastSequence (seq : Z) (e : VersionEdit) : VersionEdit :=
  {| comparator_ := comparator_ e; log_number_ := log_number_ e; prev_log_number_ := prev_log_number_ e;
     next_file_number_ := next_file_number_ e; last_sequence_ := Some seq;
     compact_pointers_ := compact_pointers_ e; deleted_files_ := deleted_files_ e; new_files_ := new_files_ e |}.
Definition SetCompactPointer (level : Z) (key : bytes) (e : VersionEdit) : VersionEdit :=
  {| comparator_ := comparator_ e; log_number_ := log_number_ e; prev_log_number_ := prev_log_number_ e;
     next_file_number_ := next_file_number_ e; last_sequence_ := last_sequence_ e;
     compact_pointers_ := compact_pointers_ e ++ [(level, key)]; deleted_files_ := deleted_files_ e;
     new_files_ := new_files_ e |}.

(** [push_back] of a file, and [AddFile]. *)
Definition add_new_file (level : Z) (f : FileMetaData) (e : VersionEdit) : VersionEdit :=
  {| comparator_ := comparator_ e; log_number_ := log_number_ e; prev_log_number_ := prev_log_number_ e;
     next_file_number_ := next_file_number_ e; last_sequence_ := last_sequence_ e;
     compact_pointers_ := compact_pointers_ e; deleted_files_ := deleted_files_ e;
     new_files_ := new_files_ e ++ [(level, f)] |}.
Definition AddFile (level file file_size : Z) (smallest largest : bytes) : VersionEdit → VersionEdit :=
  add_new_file level (new_FileMetaData file file_size smallest largest).

(** The order of pairs, and [std::set::insert]. *)
Definition pair_lt (a b : Z * Z) : Prop := a.1 < b.1 ∨ a.1 = b.1 ∧ a.2 < b.2.
#[export] Instance pair_lt_dec a b : Decision (pair_lt a b).
Proof. unfold pair_lt. apply _. Defined.

Fixpoint set_insert (x : Z * Z) (l : list (Z * Z)) : list (Z * Z) :=
  match l with
  | [] => [x]
  | y :: l => if decide (pair_lt x y) then x :: y :: l else if decide (x = y) then y :: l else y :: set_insert x l
  end.

Definition DeleteFile (level file : Z) (e : VersionEdit) : VersionEdit :=
  {| comparator_ := comparator_ e; log_number_ := log_number_ e; prev_log_number_ := prev_log_number_ e;
     next_file_number_ := next_file_number_ e; last_sequence_ := last_sequence_ e;
     compact_pointers_ := compact_pointers_ e; deleted_files_ := set_insert (level, file) (deleted_files_ e);
     new_files_ := new_files_ e |}.

(** [enum Tag] *)
Definition kComparator : Z := 1.
Definition kLogNumber : Z := 2.
Definition kNextFileNumber : Z := 3.
Definition kLastSequence : Z := 4.
Definition kCompactPointer : Z := 5.
Definition kDeletedFile : Z := 6.
Definition kNewFile : Z := 7.
Definition kPrevLogNumber : Z := 9.

(** ** Encoding *)

Definition put_number (tag : Z) (dst : bytes) (num : option Z) : bytes :=
  match num with Some num => PutVarint64 (PutVarint32 dst tag) num | None => dst end.

Definition put_pointer (dst : bytes) (p : Z * bytes) : bytes :=
  PutLengthPrefixedSlice (PutVarint32 (PutVarint32 dst kCompactPointer) (u32 p.1)) p.2.

Definition put_deleted (dst : bytes) (p : Z * Z) : bytes :=
  PutVarint64 (PutVarint32 (PutVarint32 dst kDeletedFile) (u32 p.1)) p.2.

Definition put_new_file (dst : bytes) (p : Z * FileMetaData) : bytes :=
  let f := p.2 in
  let dst := PutVarint32 (PutVarint32 dst kNewFile) (u32 p.1) in
  let dst := PutVarint64 (PutVarint64 dst (number f)) (file_size f) in
  PutLengthPrefixedSlice (PutLengthPrefixedSlice dst (smallest f)) (largest f).

Definition EncodeTo (e : VersionEdit) (dst : bytes) : bytes :=
  let dst := match comparator_ e with
             | Some c => PutLengthPrefixedSlice (PutVarint32 dst kComparator) c
             | None => dst
             end in
  let dst := put_number kLogNumber dst (log_number_ e) in
  let dst := put_number kPrevLogNumber dst (prev_log_number_ e) in
  let dst := put_number kNextFileNumber dst (next_file_number_ e) in
  let dst := put_number kLastSequence dst (last_sequence_ e) in
  let dst := foldl put_pointer dst (compact_pointers_ e) in
  let dst := foldl put_deleted dst (deleted_files_ e) in
  foldl put_new_file dst (new_files_ e).

(** [InternalKey::Encode]: an empty key is not a valid one, and the assertion
    that it is not is the option. The build sets [NDEBUG], which [EncodeTo] above
    is for. *)
Definition Encode (rep_ : bytes) : option bytes := if decide (rep_ = []) then None else Some rep_.

(** The keys that [EncodeTo] encodes, and [EncodeTo] with the assertions. *)
Definition edit_keys (e : VersionEdit) : list bytes :=
  (snd <$> compact_pointers_ e) ++ mjoin ((λ p, [smallest p.2; largest p.2]) <$> new_files_ e).
Definition asserted_EncodeTo (e : VersionEdit) (dst : bytes) : option bytes :=
  _ ← mapM Encode (edit_keys e);
  Some (EncodeTo e dst).

(** ** Decoding *)

Definition GetInternalKey (input : bytes) : option (bytes * bytes) :=
  match GetLengthPrefixedSlice input with
  | (Some key, input) => Some (key, input)
  | (None, _) => None
  end.

Definition GetLevel (input : bytes) : option (Z * bytes) :=
  '(v, input) ← GetVarint32 input;
  if decide (v < kNumLevels) then Some (v, input) else None.

(** One turn of the loop behind the tag: the edit and the rest of the input,
    or the message; a field that cannot be read leaves the edit as it is. *)
Definition decode_field (tag : Z) (e : VersionEdit) (input : bytes) : bytes + VersionEdit * bytes :=
  let or_msg (msg : bytes) (r : option (VersionEdit * bytes)) : bytes + VersionEdit * bytes :=
    match r with Some r => inr r | None => inl msg end in
  if decide (tag = kComparator) then
    or_msg (str "comparator name")
      ('(name, input) ← GetInternalKey input; Some (SetComparatorName name e, input))
  else if decide (tag = kLogNumber) then
    or_msg (str "log number") ('(n, input) ← GetVarint64 input; Some (SetLogNumber n e, input))
  else if decide (tag = kPrevLogNumber) then
    or_msg (str "previous log number") ('(n, input) ← GetVarint64 input; Some (SetPrevLogNumber n e, input))
  else if decide (tag = kNextFileNumber) then
    or_msg (str "next file number") ('(n, input) ← GetVarint64 input; Some (SetNextFile n e, input))
  else if decide (tag = kLastSequence) then
    or_msg (str "last sequence number") ('(n, input) ← GetVarint64 input; Some (SetLastSequence n e, input))
  else if decide (tag = kCompactPointer) then
    or_msg (str "compaction pointer")
      ('(level, input) ← GetLevel input; '(key, input) ← GetInternalKey input;
       Some (SetCompactPointer level key e, input))
  else if decide (tag = kDeletedFile) then
    or_msg (str "deleted file")
      ('(level, input) ← GetLevel input; '(num, input) ← GetVarint64 input;
       Some (DeleteFile level num e, input))
  else if decide (tag = kNewFile) then
    or_msg (str "new-file entry")
      ('(level, input) ← GetLevel input; '(num, input) ← GetVarint64 input;
       '(size, input) ← GetVarint64 input; '(smallest, input) ← GetInternalKey input;
       '(largest, input) ← GetInternalKey input;
       Some (add_new_file level (new_FileMetaData num size smallest largest) e, input))
  else inl (str "unknown tag").

(** The loop ends with the edit, a message and what is left of the input. *)
Fixpoint decode_loop (fuel : nat) (e : VersionEdit) (input : bytes) : option (VersionEdit * option bytes * bytes) :=
  match fuel with
  | O => None
  | S fuel =>
      match GetVarint32 input with
      | None => Some (e, None, input)
      | Some (tag, input) =>
          match decode_field tag e input with
          | inl msg => Some (e, Some msg, input)
          | inr (e, input) => decode_loop fuel e input
          end
      end
  end.

(** Every turn consumes a byte at least. *)
Definition DecodeFrom (e : VersionEdit) (src : bytes) : option (Status * VersionEdit) :=
  '(e, msg, input) ← decode_loop (S (length src)) (Clear e) src;
  let msg :=
    match msg with
    | Some msg => Some msg
    | None => match input with [] => None | _ => Some (str "invalid tag") end
    end in
  Some (match msg with Some msg => Corruption (str "VersionEdit") msg | None => Status_OK end, e).

Definition newline : bytes := [b8 10].

Definition debug_number (name : bytes) (r : bytes) (num : option Z) : bytes :=
  match num with Some num => AppendNumberTo (r ++ newline ++ name) num | None => r end.

Definition VersionEdit_DebugString (e : VersionEdit) : bytes :=
  let r := str "VersionEdit {" in
  let r := match comparator_ e with Some c => r ++ newline ++ str "  Comparator: " ++ c | None => r end in
  let r := debug_number (str "  LogNumber: ") r (log_number_ e) in
  let r := debug_number (str "  PrevLogNumber: ") r (prev_log_number_ e) in
  let r := debug_number (str "  NextFile: ") r (next_file_number_ e) in
  let r := debug_number (str "  LastSeq: ") r (last_sequence_ e) in
  let r := foldl (λ r p, AppendNumberTo (r ++ newline ++ str "  CompactPointer: ") (u64 p.1) ++ str " " ++
                         InternalKey_DebugString p.2) r (compact_pointers_ e) in
  let r := foldl (λ r p, AppendNumberTo (AppendNumberTo (r ++ newline ++ str "  DeleteFile: ") (u64 p.1) ++ str " ") p.2)
                 r (deleted_files_ e) in
  let r := foldl (λ r p, AppendNumberTo (AppendNumberTo (AppendNumberTo (r ++ newline ++ str "  AddFile: ") (u64 p.1) ++
                           str " ") (number p.2) ++ str " ") (file_size p.2) ++ str " " ++
                         InternalKey_DebugString (smallest p.2) ++ str " .. " ++ InternalKey_DebugString (largest p.2))
                 r (new_files_ e) in
  r ++ newline ++ str "}" ++ newline.

(** ** Records as lists of fields *)

Inductive field :=
  | FComparator (name : bytes)
  | FNumber (tag num : Z)
  | FPointer (level : Z) (key : bytes)
  | FDeleted (level num : Z)
  | FNewFile (level : Z) (f : FileMetaData).

Definition set_number (tag num : Z) : VersionEdit → VersionEdit :=
  if decide (tag = kLogNumber) then SetLogNumber num
  else if decide (tag = kPrevLogNumber) then SetPrevLogNumber num
  else if decide (tag = kNextFileNumber) then SetNextFile num
  else SetLastSequence num.

Definition apply_field (e : VersionEdit) (f : field) : VersionEdit :=
  match f with
  | FComparator name => SetComparatorName name e
  | FNumber tag num => set_number tag num e
  | FPointer level key => SetCompactPointer level key e
  | FDeleted level num => DeleteFile level num e
  | FNewFile level f => add_new_file level f e
  end.

Definition enc_field (f : field) : bytes :=
  match f with
  | FComparator name => PutLengthPrefixedSlice (PutVarint32 [] kComparator) name
  | FNumber tag num => put_number tag [] (Some num)
  | FPointer level key => put_pointer [] (level, key)
  | FDeleted level num => put_deleted [] (level, num)
  | FNewFile level f => put_new_file [] (level, f)
  end.

Definition number_field (tag : Z) (num : option Z) : list field :=
  match num with Some num => [FNumber tag num] | None => [] end.

Definition fields (e : VersionEdit) : list field :=
  match comparator_ e with Some c => [FComparator c] | None => [] end ++
  number_field kLogNumber (log_number_ e) ++ number_field kPrevLogNumber (prev_log_number_ e) ++
  number_field kNextFileNumber (next_file_number_ e) ++ number_field kLastSequence (last_sequence_ e) ++
  ((λ p, FPointer p.1 p.2) <$> compact_pointers_ e) ++ ((λ p, FDeleted p.1 p.2) <$> deleted_files_ e) ++
  ((λ p, FNewFile p.1 p.2) <$> new_files_ e).

Definition enc (fs : list field) : bytes := concat (enc_field <$> fs).

Lemma enc_app fs gs : enc (fs ++ gs) = enc fs ++ enc gs.
Proof. unfold enc. by rewrite fmap_app, concat_app. Qed.

Lemma put_number_app tag dst num : put_number tag dst num = dst ++ enc (number_field tag num).
Proof.
  destruct num; [|by rewrite app_nil_r]. cbn. unfold PutVarint64, PutVarint32. by rewrite app_nil_r, app_assoc.
Qed.

Lemma put_comparator_app dst c :
  PutLengthPrefixedSlice (PutVarint32 dst kComparator) c = dst ++ enc [FComparator c].
Proof.
  unfold enc. cbn [fmap list_fmap enc_field concat]. rewrite app_nil_r.
  rewrite !(PutLengthPrefixedSlice_app (PutVarint32 _ _)). unfold PutVarint32. cbn [app].
  by rewrite <- !app_assoc.
Qed.

Lemma put_pointer_app dst p : put_pointer dst p = dst ++ put_pointer [] p.
Proof.
  unfold put_pointer. rewrite !(PutLengthPrefixedSlice_app (PutVarint32 _ _)). unfold PutVarint32.
  cbn [app]. by rewrite <- !app_assoc.
Qed.

Lemma put_deleted_app dst p : put_deleted dst p = dst ++ put_deleted [] p.
Proof. unfold put_deleted, PutVarint64, PutVarint32. cbn [app]. by rewrite <- !app_assoc. Qed.

Lemma put_new_file_app dst p : put_new_file dst p = dst ++ put_new_file [] p.
Proof.
  unfold put_new_file. cbv zeta. rewrite !(PutLengthPrefixedSlice_app (PutLengthPrefixedSlice _ _)).
  rewrite !(PutLengthPrefixedSlice_app (PutVarint64 _ _)). unfold PutVarint64, PutVarint32.
  cbn [app]. by rewrite <- !app_assoc.
Qed.

Lemma foldl_put {A} (put : bytes → A → bytes) (f : A → field) l dst :
  (∀ dst x, put dst x = dst ++ put [] x) → (∀ x, put [] x = enc_field (f x)) →
  foldl put dst l = dst ++ enc (f <$> l).
Proof.
  intros Hp He. revert dst. induction l as [|x l IH]; intros dst; [by rewrite app_nil_r|].
  cbn [foldl fmap list_fmap]. rewrite IH, Hp, He. unfold enc. cbn [fmap list_fmap concat]. by rewrite <- app_assoc.
Qed.

Lemma EncodeTo_fields e dst : EncodeTo e dst = dst ++ enc (fields e).
Proof.
  unfold EncodeTo, fields. cbv zeta.
  rewrite (foldl_put put_new_file (λ p, FNewFile p.1 p.2)), (foldl_put put_deleted (λ p, FDeleted p.1 p.2)),
    (foldl_put put_pointer (λ p, FPointer p.1 p.2)).
  2, 4, 6: intros; (apply put_pointer_app || apply put_deleted_app || apply put_new_file_app).
  2, 3, 4: by intros [].
  rewrite !put_number_app, !enc_app.
  destruct (comparator_ e) as [c|]; [|by rewrite <- !app_assoc].
  by rewrite put_comparator_app, <- !app_assoc.
Qed.

(** ** The round trip *)

Definition level_ok (level : Z) : Prop := 0 ≤ level < kNumLevels.
Definition key_ok (k : bytes) : Prop := in_w 32 (zlen k).

Definition field_ok (f : field) : Prop :=
  match f with
  | FComparator name => key_ok name
  | FNumber tag num => in_w 64 num ∧ (tag = kLogNumber ∨ tag = kPrevLogNumber ∨ tag = kNextFileNumber ∨ tag = kLastSequence)
  | FPointer level key => level_ok level ∧ key_ok key
  | FDeleted level num => level_ok level ∧ in_w 64 num
  | FNewFile level f => level_ok level ∧ in_w 64 (number f) ∧ in_w 64 (file_size f) ∧ key_ok (smallest f) ∧
      key_ok (largest f) ∧ refs f = 0 ∧ allowed_seeks f = Z.shiftl 1 30
  end.

Lemma GetInternalKey_enc key rest :
  key_ok key → GetInternalKey (PutLengthPrefixedSlice [] key ++ rest) = Some (key, rest).
Proof. intros Hk. unfold GetInternalKey. by rewrite GetLengthPrefixedSlice_enc. Qed.

Lemma GetLevel_enc level rest :
  level_ok level → GetLevel (EncodeVarint32 (u32 level) ++ rest) = Some (level, rest).
Proof.
  unfold level_ok, kNumLevels. intros Hl. rewrite wrap_small by word_solve. unfold GetLevel.
  rewrite GetVarint32_EncodeVarint32 by word_solve. cbn. by rewrite decide_True by (unfold kNumLevels; lia).
Qed.

(** A field is read back: its tag, then what belongs to it. *)
Lemma decode_enc_field f e rest :
  field_ok f →
  ∃ tag input, GetVarint32 (enc_field f ++ rest) = Some (tag, input) ∧
    decode_field tag e input = inr (apply_field e f, rest).
Proof.
  destruct f as [name|tag num|level key|level num|level f]; cbn [enc_field field_ok apply_field].
  - intros Hk. rewrite PutLengthPrefixedSlice_app. unfold PutVarint32. cbn [app]. rewrite <- app_assoc.
    eexists _, _. rewrite GetVarint32_EncodeVarint32 by by vm_compute. split; [done|].
    unfold decode_field. rewrite decide_True by done. by rewrite GetInternalKey_enc.
  - intros [Hn Ht]. unfold put_number, PutVarint64, PutVarint32. cbn [app]. rewrite <- app_assoc.
    eexists _, _. rewrite GetVarint32_EncodeVarint32 by (destruct Ht as [->|[->|[->| ->]]]; by vm_compute).
    split; [done|]. unfold decode_field. rewrite GetVarint64_EncodeVarint64 by done.
    by destruct Ht as [->|[->|[->| ->]]].
  - intros [Hl Hk]. unfold put_pointer. rewrite PutLengthPrefixedSlice_app. unfold PutVarint32.
    cbn [app fst snd]. rewrite <- !app_assoc. eexists _, _. rewrite GetVarint32_EncodeVarint32 by by vm_compute.
    split; [done|]. unfold decode_field. rewrite GetLevel_enc by done. cbn [mbind option_bind].
    by rewrite GetInternalKey_enc.
  - intros [Hl Hn]. unfold put_deleted, PutVarint64, PutVarint32. cbn [app fst snd]. rewrite <- !app_assoc.
    eexists _, _. rewrite GetVarint32_EncodeVarint32 by by vm_compute. split; [done|].
    unfold decode_field. rewrite GetLevel_enc by done. cbn [mbind option_bind].
    by rewrite GetVarint64_EncodeVarint64.
  - intros (Hl & Hn & Hs & Hk1 & Hk2 & Hr & Ha). unfold put_new_file. cbv zeta.
    rewrite (PutLengthPrefixedSlice_app (PutLengthPrefixedSlice _ _)), (PutLengthPrefixedSlice_app (PutVarint64 _ _)).
    unfold PutVarint64, PutVarint32. cbn [app fst snd]. rewrite <- !app_assoc.
    eexists _, _. rewrite GetVarint32_EncodeVarint32 by by vm_compute. split; [done|].
    unfold decode_field. rewrite GetLevel_enc by done. cbn [mbind option_bind].
    rewrite GetVarint64_EncodeVarint64 by done. cbn [mbind option_bind].
    rewrite GetVarint64_EncodeVarint64 by done. cbn [mbind option_bind].
    rewrite GetInternalKey_enc by done. cbn [mbind option_bind].
    rewrite GetInternalKey_enc by done. cbn [mbind option_bind].
    unfold new_FileMetaData. destruct f; cbn in *. by rewrite Hr, Ha.
Qed.

Lemma decode_loop_enc fs e fuel :
  Forall field_ok fs → (length fs < fuel)%nat →
  decode_loop fuel e (enc fs) = Some (foldl apply_field e fs, None, []).
Proof.
  intros Hfs. revert e fuel. induction Hfs as [|f fs Hf _ IH]; intros e [|fuel] Hl; cbn [length] in Hl; try lia; [done|].
  cbn [decode_loop foldl]. unfold enc. cbn [fmap list_fmap concat].
  destruct (decode_enc_field f e (enc fs) Hf) as (tag & input & E & D). unfold enc in E, D. rewrite E, D.
  apply IH. lia.
Qed.

Lemma length_enc fs : (length fs ≤ length (enc fs))%nat.
Proof.
  induction fs as [|f fs IH]; [done|]. unfold enc in *. cbn [fmap list_fmap concat length]. rewrite length_app.
  enough (1 ≤ length (enc_field f))%nat by lia.
  assert (∀ v, 1 ≤ length (EncodeVarint32 v))%nat as Hv by (intros v; pose proof (EncodeVarint32_bounds v); unfold zlen in *; lia).
  destruct f as [name|tag num|level key|level num|level f]; cbn [enc_field put_number];
    unfold put_pointer, put_deleted, put_new_file, PutLengthPrefixedSlice, PutVarint64, PutVarint32; cbv zeta;
    rewrite !length_app; pose proof (Hv kComparator); pose proof (Hv kCompactPointer); pose proof (Hv kDeletedFile);
    pose proof (Hv kNewFile); try pose proof (Hv tag); lia.
Qed.

(** The files that are deleted are in order. *)
Lemma set_insert_last x l : StronglySorted pair_lt (l ++ [x]) → set_insert x l = l ++ [x].
Proof.
  intros Hs. induction l as [|y l IH]; [done|]. cbn in *. apply StronglySorted_inv in Hs as [Hs Hy].
  rewrite list.Forall_forall in Hy. assert (pair_lt y x) as Hlt by (apply Hy, elem_of_app; right; by left).
  unfold pair_lt in Hlt. rewrite decide_False by (unfold pair_lt; lia). rewrite decide_False by (intros ->; lia).
  by rewrite IH.
Qed.

Lemma foldl_deleted l l0 e :
  StronglySorted pair_lt (l0 ++ l) → deleted_files_ e = l0 →
  foldl apply_field e ((λ p, FDeleted p.1 p.2) <$> l) =
  {| comparator_ := comparator_ e; log_number_ := log_number_ e; prev_log_number_ := prev_log_number_ e;
     next_file_number_ := next_file_number_ e; last_sequence_ := last_sequence_ e;
     compact_pointers_ := compact_pointers_ e; deleted_files_ := l0 ++ l; new_files_ := new_files_ e |}.
Proof.
  revert l0 e. induction l as [|[lv n] l IH]; intros l0 e Hs Hd; cbn [fmap list_fmap foldl].
  - rewrite app_nil_r, <- Hd. by destruct e.
  - assert (set_insert (lv, n) l0 = l0 ++ [(lv, n)]) as Hins.
    { apply set_insert_last. eapply sorted_sublist; [exact Hs|]. apply sublist_app; [done|].
      apply sublist_skip, sublist_nil_l. }
    rewrite (IH (l0 ++ [(lv, n)])); [|by rewrite <- app_assoc|cbn; by rewrite Hd, Hins].
    cbn. by rewrite <- app_assoc.
Qed.

Lemma foldl_pointers l e :
  foldl apply_field e ((λ p, FPointer p.1 p.2) <$> l) =
  {| comparator_ := comparator_ e; log_number_ := log_number_ e; prev_log_number_ := prev_log_number_ e;
     next_file_number_ := next_file_number_ e; last_sequence_ := last_sequence_ e;
     compact_pointers_ := compact_pointers_ e ++ l; deleted_files_ := deleted_files_ e; new_files_ := new_files_ e |}.
Proof.
  revert e. induction l as [|[lv k] l IH]; intros e; cbn [fmap list_fmap foldl].
  - rewrite app_nil_r. by destruct e.
  - rewrite IH. cbn. by rewrite <- app_assoc.
Qed.

Lemma foldl_new_files l e :
  foldl apply_field e ((λ p, FNewFile p.1 p.2) <$> l) =
  {| comparator_ := comparator_ e; log_number_ := log_number_ e; prev_log_number_ := prev_log_number_ e;
     next_file_number_ := next_file_number_ e; last_sequence_ := last_sequence_ e;
     compact_pointers_ := compact_pointers_ e; deleted_files_ := deleted_files_ e; new_files_ := new_files_ e ++ l |}.
Proof.
  revert e. induction l as [|[lv k] l IH]; intros e; cbn [fmap list_fmap foldl].
  - rewrite app_nil_r. by destruct e.
  - rewrite IH. cbn. by rewrite <- app_assoc.
Qed.

(** What the other components need of an edit. *)
Definition edit_ok (e : VersionEdit) : Prop :=
  Forall field_ok (fields e) ∧ StronglySorted pair_lt (deleted_files_ e).

Lemma foldl_fields e e0 :
  StronglySorted pair_lt (deleted_files_ e) →
  foldl apply_field (Clear e0) (fields e) =
  {| comparator_ := comparator_ e; log_number_ := log_number_ e; prev_log_number_ := prev_log_number_ e;
     next_file_number_ := next_file_number_ e; last_sequence_ := last_sequence_ e;
     compact_pointers_ := compact_pointers_ e0 ++ compact_pointers_ e; deleted_files_ := deleted_files_ e;
     new_files_ := new_files_ e |}.
Proof.
  intros Hs. unfold fields. rewrite !foldl_app. rewrite foldl_new_files.
  rewrite (foldl_deleted (deleted_files_ e) []); [|done|].
  - rewrite foldl_pointers. destruct e as [[c|] [l|] [p|] [n|] [q|] cs ds ns]; reflexivity.
  - rewrite foldl_pointers. destruct e as [[c|] [l|] [p|] [n|] [q|] cs ds ns]; reflexivity.
Qed.

Lemma DecodeFrom_EncodeTo e e0 :
  edit_ok e →
  DecodeFrom e0 (EncodeTo e []) =
  Some (Status_OK, {| comparator_ := comparator_ e; log_number_ := log_number_ e; prev_log_number_ := prev_log_number_ e;
     next_file_number_ := next_file_number_ e; last_sequence_ := last_sequence_ e;
     compact_pointers_ := compact_pointers_ e0 ++ compact_pointers_ e; deleted_files_ := deleted_files_ e;
     new_files_ := new_files_ e |}).
Proof.
  intros [Hf Hs]. unfold DecodeFrom. rewrite EncodeTo_fields. cbn [app]. pose proof (length_enc (fields e)).
  rewrite decode_loop_enc by (done || lia). cbn [mbind option_bind]. by rewrite foldl_fields.
Qed.

(** ** Decoding any bytes *)

Lemma pair_lt_trans : Transitive pair_lt.
Proof. unfold pair_lt. intros a b c. lia. Qed.

Lemma elem_of_set_insert x y l : y ∈ set_insert x l ↔ y = x ∨ y ∈ l.
Proof.
  induction l as [|z l IH]; cbn [set_insert]; [by rewrite list_elem_of_singleton, elem_of_nil; tauto|].
  repeat case_decide; subst; rewrite !elem_of_cons; [tauto|tauto|]. rewrite IH. tauto.
Qed.

Lemma set_insert_sorted x l : StronglySorted pair_lt l → StronglySorted pair_lt (set_insert x l).
Proof.
  induction 1 as [|z l Hs IH Hz]; cbn [set_insert]; [by repeat constructor|].
  destruct (decide (pair_lt x z)) as [Hxz|Hxz]; [|destruct (decide (x = z)) as [->|Hne]].
  - constructor; [by constructor|]. constructor; [done|]. eapply Forall_impl; [|exact Hz].
    intros y Hy. by eapply pair_lt_trans.
  - by constructor.
  - constructor; [done|]. apply list.Forall_forall. intros y [->|Hy]%elem_of_set_insert.
    + unfold pair_lt in *. destruct x, z; cbn in *. destruct (decide (z0 = z)), (decide (z1 = z2)); subst; lia || done.
    + rewrite list.Forall_forall in Hz. by apply Hz.
Qed.

Lemma apply_field_ok e f : edit_ok e → field_ok f → edit_ok (apply_field e f).
Proof.
  unfold edit_ok, fields. rewrite !list.Forall_app. intros [(H1 & H2 & H3 & H4 & H5 & H6 & H7 & H8) Hs] Hf.
  destruct f as [name|tag num|level key|level num|level f]; cbn [apply_field].
  - split; [|done]. splits; try done. constructor; [done|constructor].
  - cbn in Hf. unfold set_number. destruct Hf as [Hn [->|[->|[->| ->]]]]; cbn;
      (split; [|done]); splits; try done; (constructor; [cbn; tauto|constructor]).
  - split; [|done]. cbn. rewrite fmap_app, list.Forall_app. splits; try done. constructor; [done|constructor].
  - split; [|by apply set_insert_sorted]. splits; try done. cbn [DeleteFile deleted_files_].
    apply list.Forall_fmap, list.Forall_forall. intros p [->|Hp]%elem_of_set_insert; [done|].
    rewrite list.Forall_fmap, list.Forall_forall in H7. by apply H7.
  - split; [|done]. cbn. rewrite fmap_app, list.Forall_app. splits; try done. constructor; [done|constructor].
Qed.

Lemma GetInternalKey_Some input key rest :
  GetInternalKey input = Some (key, rest) → key_ok key ∧ (length rest ≤ length input)%nat.
Proof.
  unfold GetInternalKey. destruct (GetLengthPrefixedSlice input) as [[s|] r] eqn:E; [|done]. intros [= <- <-].
  apply GetLengthPrefixedSlice_Some in E as [Hk (e & -> & _)]. split; [done|]. rewrite !length_app. lia.
Qed.

Lemma GetVarint64_shrinks input v rest :
  GetVarint64 input = Some (v, rest) → in_w 64 v ∧ (length rest ≤ length input)%nat.
Proof. intros [Hv (e & -> & _)]%GetVarint64_Some. split; [done|]. rewrite length_app. lia. Qed.

Lemma GetLevel_Some input level rest :
  GetLevel input = Some (level, rest) → level_ok level ∧ (length rest ≤ length input)%nat.
Proof.
  unfold GetLevel. destruct (GetVarint32 input) as [[v r]|] eqn:E; [|done]. cbn. case_decide; [|done].
  intros [= <- <-]. apply GetVarint32_Some in E as [Hv (e & -> & _)]. unfold level_ok, in_w in *.
  split; [lia|]. rewrite length_app. lia.
Qed.

(** Destruct the reads of a field, one after the other. *)
Ltac read_fields :=
  repeat match goal with
  | H : context [GetInternalKey ?i] |- _ =>
      let E := fresh "E" in destruct (GetInternalKey i) as [[? ?]|] eqn:E; [|discriminate H];
      apply GetInternalKey_Some in E as [? ?]; cbn [mbind option_bind] in H
  | H : context [GetVarint64 ?i] |- _ =>
      let E := fresh "E" in destruct (GetVarint64 i) as [[? ?]|] eqn:E; [|discriminate H];
      apply GetVarint64_shrinks in E as [? ?]; cbn [mbind option_bind] in H
  | H : context [GetLevel ?i] |- _ =>
      let E := fresh "E" in destruct (GetLevel i) as [[? ?]|] eqn:E; [|discriminate H];
      apply GetLevel_Some in E as [? ?]; cbn [mbind option_bind] in H
  end.

Lemma decode_field_inv tag e input e' rest :
  decode_field tag e input = inr (e', rest) →
  ∃ f, field_ok f ∧ e' = apply_field e f ∧ (length rest ≤ length input)%nat.
Proof.
  unfold decode_field. cbv zeta. repeat case_decide; subst; intros Hdec; [..|done]; read_fields; injection Hdec as <- <-.
  - by eexists (FComparator _).
  - eexists (FNumber kLogNumber _). splits; [|reflexivity|lia]. split; [done|auto].
  - eexists (FNumber kPrevLogNumber _). splits; [|reflexivity|lia]. split; [done|auto].
  - eexists (FNumber kNextFileNumber _). splits; [|reflexivity|lia]. split; [done|auto].
  - eexists (FNumber kLastSequence _). splits; [|reflexivity|lia]. split; [done|auto].
  - eexists (FPointer _ _). splits; [by split|done|lia].
  - eexists (FDeleted _ _). splits; [by split|done|lia].
  - eexists (FNewFile _ _). splits; [|done|lia]. cbn. by splits.
Qed.

Lemma decode_loop_total fuel e input :
  edit_ok e → (length input < fuel)%nat →
  ∃ e' msg rest, decode_loop fuel e input = Some (e', msg, rest) ∧ edit_ok e'.
Proof.
  revert e input. induction fuel as [|fuel IH]; intros e input He Hf; [lia|]. cbn [decode_loop].
  destruct (GetVarint32 input) as [[tag input']|] eqn:E; [|by eexists _, _, _].
  destruct (decode_field tag e input') as [msg|[e' rest]] eqn:D; [by eexists _, _, _|].
  apply GetVarint32_Some in E as (_ & pre & -> & Hpre). apply decode_field_inv in D as (f & Hf' & -> & Hl).
  apply IH; [by apply apply_field_ok|]. rewrite length_app in Hf. unfold zlen in Hpre. lia.
Qed.

Lemma Clear_ok e : Forall field_ok ((λ p, FPointer p.1 p.2) <$> compact_pointers_ e) → edit_ok (Clear e).
Proof. intros Hp. split; [|constructor]. unfold fields. cbn. by rewrite app_nil_r. Qed.

Lemma DecodeFrom_total e0 src :
  compact_pointers_ e0 = [] → ∃ s e, DecodeFrom e0 src = Some (s, e) ∧ edit_ok e.
Proof.
  intros Hp. unfold DecodeFrom.
  destruct (decode_loop_total (S (length src)) (Clear e0) src) as (e & msg & rest & -> & He); [|lia|].
  - apply Clear_ok. rewrite Hp. constructor.
  - cbn [mbind option_bind]. by eexists _, _.
Qed.

Lemma asserted_EncodeTo_spec e :
  match asserted_EncodeTo e [] with
  | Some record => record = EncodeTo e [] ∧ [] ∉ edit_keys e
  | None => [] ∈ edit_keys e
  end.
Proof.
  unfold asserted_EncodeTo. destruct (mapM Encode (edit_keys e)) as [ks|] eqn:E; cbn [mbind option_bind].
  - split; [done|]. intros Hin. apply mapM_Some_1 in E.
    apply list_elem_of_lookup in Hin as [i Hi]. by destruct (Forall2_lookup_l _ _ _ _ _ E Hi) as (k & _ & Hk).
  - apply mapM_None_1, list.Exists_exists in E as (k & Hk & Hn). unfold Encode in Hn. case_decide; [by subst|done].
Qed.

(** C25: an edit none of whose keys is empty is written without an assertion
    that fails, and is decoded to what was encoded: flags, numbers, pointers, the
    set of deleted and the list of new files. Decoding ends on any bytes, and
    leaves an edit whose numbers and levels are in range and whose deleted files
    are a set; it may have an empty key, since the decoder takes a key of any
    length, and this alone stops it from being written again, and it is read as it
    is if it has none. *)
Theorem VersionEdit_roundtrip e0 :
  compact_pointers_ e0 = [] →
  (∀ e, edit_ok e → [] ∉ edit_keys e →
    ∃ record, asserted_EncodeTo e [] = Some record ∧ DecodeFrom e0 record = Some (Status_OK, e)) ∧
  (∀ src, ∃ s e, DecodeFrom e0 src = Some (s, e) ∧ edit_ok e ∧
    match asserted_EncodeTo e [] with
    | Some record => [] ∉ edit_keys e ∧ DecodeFrom e0 record = Some (Status_OK, e)
    | None => [] ∈ edit_keys e
    end).
Proof.
  intros Hp. assert (∀ e, edit_ok e → DecodeFrom e0 (EncodeTo e []) = Some (Status_OK, e)) as Hr.
  { intros e He. rewrite DecodeFrom_EncodeTo, Hp by done. by destruct e. }
  split.
  - intros e He Hk. pose proof (asserted_EncodeTo_spec e) as Ha. destruct (asserted_EncodeTo e []) as [record|]; [|done].
    destruct Ha as [-> _]. eexists. split; [done|]. by apply Hr.
  - intros src. destruct (DecodeFrom_total e0 src Hp) as (s & e & E & He). exists s, e. split; [done|]. split; [done|].
    pose proof (asserted_EncodeTo_spec e) as Ha. destruct (asserted_EncodeTo e []) as [record|]; [|done].
    destruct Ha as [-> Hk]. split; [done|]. by apply Hr.
Qed.

Example VersionEdit_roundtrip_witness :
  let e := AddFile 2 9 1000 (InternalKey (str "a") 3 1) (InternalKey (str "f") 2 1)
    (DeleteFile 1 7 (DeleteFile 1 4 (SetLastSequence 5 (SetLogNumber 12 (SetComparatorName (str "c") new_VersionEdit))))) in
  deleted_files_ e = [(1, 4); (1, 7)] ∧
  ∃ record, asserted_EncodeTo e [] = Some record ∧ DecodeFrom new_VersionEdit record = Some (Status_OK, e).
Proof.
  cbv zeta. split; [by vm_compute|]. refine (proj1 (VersionEdit_roundtrip new_VersionEdit _) _ _ _); [done| |].
  - apply (apply_field_ok _ (FNewFile _ _)).
    + apply (apply_field_ok _ (FDeleted _ _)); [|by vm_compute]. apply (apply_field_ok _ (FDeleted _ _)); [|by vm_compute].
      apply (apply_field_ok _ (FNumber kLastSequence _)); [|split; [by vm_compute|auto]].
      apply (apply_field_ok _ (FNumber kLogNumber _)); [|split; [by vm_compute|auto]].
      apply (apply_field_ok _ (FComparator _)); [|by vm_compute]. split; constructor.
    + by vm_compute.
  - apply (bool_decide_unpack _). by vm_compute.
Defined.

(** A compaction pointer of no bytes is accepted, but must not be encoded. *)
Example DecodeFrom_accepts_empty_key :
  let record := PutLengthPrefixedSlice (PutVarint32 (PutVarint32 [] kCompactPointer) 0) [] in
  match DecodeFrom new_VersionEdit record with
  | Some (s, e) => s = Status_OK ∧ compact_pointers_ e = [(0, [])] ∧ asserted_EncodeTo e [] = None
  | None => False
  end.
Proof. by vm_compute. Qed.

(** [Clear] leaves the compaction pointers, so an edit that is decoded into a
    used object keeps the old ones. *)
Example DecodeFrom_keeps_pointers :
  let e0 := SetCompactPointer 1 (InternalKey (str "k") 1 1) new_VersionEdit in
  match DecodeFrom e0 (EncodeTo new_VersionEdit []) with
  | Some (s, e) => s = Status_OK ∧ compact_pointers_ e = [(1, InternalKey (str "k") 1 1)]
  | None => False
  end.
Proof. by vm_compute. Qed.
