(* ===== verification/Builder.v ===== *)
(** Writing a sorted table file of what an iterator shows: [db/builder.cc], and
    what the table cache gives to its clients.

    The operations of the table cache that read are functions of the state of
    the environment: that they open files and keep them open is not visible. *)
From Stdlib Require Import Sorting.Sorted.
From stdpp Require Import gmap.
From S2P Require Import Prelude SortedLists Coding Status Comparator Crc32c Env MemEnv EnvFiles FileName DbFormat Iterator BlockBuilder Format TableBuilder Table VersionEdit.

(** [ReadOptions] of [include/leveldb/options.h]; a snapshot is the address of
    its [SnapshotImpl]. *)
Record ReadOptions := { verify_checksums : bool; fill_cache : bool; read_snapshot : option nat }.
Definition default_ReadOptions : ReadOptions := {| verify_checksums := false; fill_cache := true; read_snapshot := None |}.

(** [TableCache] of [db/table_cache.h]: iterators (an error iterator if the file
    cannot be opened), [ApproximateOffsetOf] of a table (nothing if it cannot be
    opened), lookups, and [Evict]. *)
Class TableCache (W : Type) := {
  TableIterator : Type;
  TableIterator_Iterator :: Iterator TableIterator;
  cache_NewIterator : W → ReadOptions → Z → Z → option TableIterator;
  cache_ApproximateOffsetOf : W → Z → Z → bytes → option (option Z);
  cache_Get : W → ReadOptions → Z → Z → bytes → option (Status * option entry);
  cache_Evict : Z → M W ();
}.

Section Builder.
Context {W : Type} {E : Env W} {T : TableCache W} {C : Comparator} {P : Placement}.
Context {I : Type} {II : Iterator I}.

Definition with_range (meta : FileMetaData) (lo hi : bytes) : FileMetaData :=
  {| refs := refs meta; allowed_seeks := allowed_seeks meta; number := number meta; file_size := file_size meta;
     smallest := lo; largest := hi |}.
Definition with_size (meta : FileMetaData) (n : Z) : FileMetaData :=
  {| refs := refs meta; allowed_seeks := allowed_seeks meta; number := number meta; file_size := n;
     smallest := smallest meta; largest := largest meta |}.

(** [for (; iter->Valid(); iter->Next())]; [fuel] bounds the entries. *)
Fixpoint add_entries (fuel : nat) (file : WritableHandle) (iter : I) (meta : FileMetaData) (builder : TableBuilder) :
    M W (I * FileMetaData * TableBuilder) := λ w,
  if it_Valid iter then
    match fuel with
    | O => None
    | S fuel =>
        key ← it_key iter;
        value ← it_value iter;
        let meta := with_range meta (smallest meta) key in
        '(builder, w) ← TableBuilder.Add (file := writable file) key value builder w;
        iter ← it_Next iter;
        add_entries fuel file iter meta builder w
    end
  else Some ((iter, meta, builder), w).

(** The file from its first key until it is closed. *)
Definition write_table (fuel : nat) (options : Options) (file : WritableHandle) (iter : I) (meta : FileMetaData) :
    M W (Status * I * FileMetaData) :=
  key ← M_lift (λ _, it_key iter);
  let meta := with_range meta key (largest meta) in
  '(iter, meta, builder) ← add_entries fuel file iter meta (new_TableBuilder options);
  builder ← TableBuilder.Finish (file := writable file) builder;
  let s := tb_status builder in
  let meta := if ok s then with_size meta (FileSize builder) else meta in
  s ← (if ok s then wf_Sync (WritableFile := writable file) else mret s);
  s ← (if ok s then wf_Close (WritableFile := writable file) else mret s);
  _ ← wf_delete file;
  mret (s, iter, meta).

(** What is done whatever happened. *)
Definition keep_table (fname : bytes) (s : Status) (iter : I) (meta : FileMetaData) : M W (Status * FileMetaData) :=
  let s := if ok (it_status iter) then s else it_status iter in
  if ok s && bool_decide (0 < file_size meta) then mret (s, meta)
  else _ ← Env.DeleteFile fname; mret (s, meta).

Definition BuildTable (fuel : nat) (dbname : bytes) (options : Options) (iter : I) (meta : FileMetaData) :
    M W (Status * FileMetaData) :=
  let meta := with_size meta 0 in
  iter ← M_lift (λ _, it_SeekToFirst iter);
  let fname := TableFileName dbname (number meta) in
  if it_Valid iter then
    r ← NewWritableFile fname;
    match r with
    | inl s => mret (s, meta)
    | inr file =>
        '(s, iter, meta) ← write_table fuel options file iter meta;
        s ← (if ok s then
               it ← M_lift (λ w, cache_NewIterator w default_ReadOptions (number meta) (file_size meta));
               mret (it_status it)
             else mret s);
        keep_table fname s iter meta
    end
  else keep_table fname Status_OK iter meta.
End Builder.

(** ** The file that is written *)

(** The last key of the entries, [d] if there are none. *)
Definition last_key (d : bytes) (es : list entry) : bytes := match list.last es with Some e => e.1 | None => d end.

Lemma last_key_cons d e es : last_key d (e :: es) = last_key e.1 es.
Proof. unfold last_key. rewrite last_cons. by destruct (list.last es). Qed.

Section Correct.
Context {W : Type} {E : Env W} {T : TableCache W} {C : Comparator} {V : bytes → Prop} {CL : ComparatorLaws C V} {SS : ShortSeparators C}.
Context {P : Placement} {PL : PlacementLaws P}.
Context {I : Type} {II : Iterator I} {rel : I → list entry → option nat → Prop} {IL : IteratorLaws I V rel}.

Lemma AddAll_from {file : WritableFile W} (m : M W TableBuilder) es w :
  foldl (λ m e, m ≫= TableBuilder.Add (file := file) e.1 e.2) m es w = (m ≫= TableBuilder.AddAll (file := file) es) w.
Proof.
  unfold TableBuilder.AddAll. revert m w. induction es as [|e es IH]; intros m w; cbn [foldl].
  - unfold mbind, M_bind. by destruct (m w) as [[r w']|].
  - rewrite IH. unfold mbind, M_bind in *. destruct (m w) as [[r w']|]; [|done]. by rewrite IH.
Qed.

Lemma AddAll_cons {file : WritableFile W} {X} e es r (f : TableBuilder → M W X) w :
  (TableBuilder.AddAll (file := file) (e :: es) r ≫= f) w =
  match TableBuilder.Add (file := file) e.1 e.2 r w with
  | Some (r, w) => (TableBuilder.AddAll (file := file) es r ≫= f) w
  | None => None
  end.
Proof.
  unfold mbind at 1, M_bind at 1. unfold TableBuilder.AddAll at 1. cbn [foldl]. rewrite AddAll_from. unfold mbind, M_bind, mret, M_ret.
  by destruct (TableBuilder.Add (file := file) e.1 e.2 r w) as [[r' w']|].
Qed.

Lemma add_entries_end fuel (file : WritableHandle) iter meta builder es w :
  rel iter es None → add_entries fuel file iter meta builder w = Some ((iter, meta, builder), w).
Proof.
  intros HR. destruct fuel; cbn [add_entries]; rewrite (rel_Valid _ _ _ HR); by rewrite bool_decide_false by (by intros [? ?]).
Qed.

Lemma with_range_id meta : with_range meta (smallest meta) (largest meta) = meta.
Proof. by destruct meta. Qed.

(** The loop adds what the iterator shows. *)
Lemma add_entries_spec fuel (file : WritableHandle) iter meta builder es i w :
  rel iter es (pos_at es i) → (length es - i ≤ fuel)%nat →
  ∃ iter', rel iter' es None ∧
    add_entries fuel file iter meta builder w =
    (builder ← TableBuilder.AddAll (file := writable file) (drop i es) builder;
     mret (iter', with_range meta (smallest meta) (last_key (largest meta) (drop i es)), builder)) w.
Proof.
  revert iter meta builder i w. induction fuel as [|fuel IH]; intros iter meta builder i w HR Hf;
    (destruct (pos_at_cases es i) as [[Ep Hi]|[Ep Hi]]; rewrite Ep in HR;
     [|exists iter; split; [done|]; rewrite add_entries_end with (es := es) by done;
       rewrite drop_ge by lia; cbn; by rewrite with_range_id]); [lia|].
  destruct (lookup_lt_is_Some_2 es i Hi) as [e He]. destruct (rel_Next _ _ _ HR) as (it' & En & HR').
  rewrite (drop_S _ _ _ He). cbn [add_entries]. rewrite (rel_Valid _ _ _ HR), bool_decide_true by eauto.
  rewrite (rel_key _ _ _ e HR He), (rel_value _ _ _ e HR He). cbn [mbind option_bind].
  destruct (TableBuilder.Add (file := writable file) e.1 e.2 builder w) as [[b' w']|] eqn:EA; cbn [mbind option_bind].
  - rewrite En. cbn [mbind option_bind].
    destruct (IH it' (with_range meta (smallest meta) e.1) b' (S i) w' HR') as (iter' & HI & ->); [lia|]. exists iter'. split; [done|].
    by rewrite AddAll_cons, EA, last_key_cons.
  - destruct (IH it' meta builder (S i) w HR') as (iter' & HI & _); [lia|]. exists iter'. split; [done|]. by rewrite AddAll_cons, EA.
Qed.

(** ** Building it in an environment without failures *)

Context {inv : W → Prop} {files : W → gmap bytes bytes}.
Context {writing : W → WritableHandle → bytes → Prop} {reading : W → SequentialHandle → bytes → bytes → Prop}.
Context {RE : ReliableEnv E inv files writing reading}.
Context (options : Options) (Hopt : options_ok options) (es : list entry).
Context (Hsorted : StronglySorted entry_lt es) (Hvalid : Forall (λ e, V e.1) es) (Hsize : table_need es < 2 ^ 30).
Context (Hfit : filter_fits options es) (Hpol : policy_ok options es).

Abbreviation frame := (EnvFiles.frame writing reading).
Abbreviation writing_only := (writing_only (inv := inv) (files := files) (writing := writing) (reading := reading)).

Lemma ok_Status s : ok s = true → s = Status_OK.
Proof. by destruct s. Qed.

(** What [write_table] leaves behind. *)
Definition written (meta meta' : FileMetaData) (T0 : bytes) : Prop :=
  meta' = with_size (with_range meta (default [] (fst <$> head es)) (last_key [] es)) (zlen T0) ∧
  0 < zlen T0 ∧ reads_as V options (zlen T0) T0 es.

Lemma write_table_spec fuel f file iter meta w0 w :
  writing_only w0 file f w → file_bytes files f w = [] → es ≠ [] → rel iter es (Some 0%nat) → (length es ≤ fuel)%nat →
  ∃ iter' meta' w' T0, write_table fuel options file iter meta w = Some ((Status_OK, iter', meta'), w') ∧ rel iter' es None ∧
    written meta meta' T0 ∧ inv w' ∧ files w' = <[f := T0]> (files w0) ∧ frame (λ g, g = f) w0 w'.
Proof.
  intros Hw Hnil Hne HR Hfuel. assert (He0 : ∃ e0 es', es = e0 :: es') by (destruct es as [|e0 es']; [done|by eauto]).
  destruct He0 as (e0 & es' & Ees). assert (He0 : es !! 0%nat = Some e0) by by rewrite Ees.
  unfold write_table. erewrite M_bind_Some by (unfold M_lift; by rewrite (rel_key _ _ _ e0 HR He0)).
  assert (HR0 : rel iter es (pos_at es 0)) by (unfold pos_at; rewrite decide_True by (by apply lookup_lt_is_Some_1; eexists); done).
  destruct (add_entries_spec fuel file iter (with_range meta e0.1 (largest meta)) (new_TableBuilder options) es 0 w HR0) as (iter' & HR' & Ea); [lia|].
  rewrite drop_0 in Ea. exists iter'.
  pose proof (wp_AddAll (V := V) (file := writable file) (inv := writing_only w0 file f) (contents := file_bytes files f) options Hopt es Hsorted
    Hvalid Hsize (new_TableBuilder options) w [] [] es []) as Hadd. rewrite app_nil_r in Hadd.
  specialize (Hadd (new_TableBuilder_inv options es w Hw Hnil)). apply wp_Some in Hadd as (b & w1 & Eb & dn & cur & HI).
  rewrite (M_bind_Some _ _ _ _ _ Eb) in Ea. rewrite (M_bind_Some _ _ _ _ _ Ea).
  pose proof (wp_Finish (file := writable file) options Hopt es Hsorted Hvalid Hsize Hfit b w1 dn cur HI) as Hfin.
  apply wp_Some in Hfin as (b2 & w2 & Ef & Hw2 & Hst & Hfs & _ & dn2 & idx & TI). rewrite (M_bind_Some _ _ _ _ _ Ef). rewrite Hst. cbn [ok Status_OK].
  pose proof Hw2 as (Hi2 & Hwr2 & _). destruct (re_Sync file f w2 Hi2 Hwr2) as (s1 & Es & ->%ok_Status).
  rewrite (M_bind_Some _ _ _ _ _ Es). cbn [ok Status_OK]. destruct (re_Close file f w2 Hi2 Hwr2) as (s2 & Ec & ->%ok_Status).
  rewrite (M_bind_Some _ _ _ _ _ Ec). destruct (writing_done w0 file f w2 Hw2) as (w3 & Ed & Hi3 & HF & Hfr).
  rewrite (M_bind_Some _ _ _ _ _ Ed). eexists _, w3, (file_bytes files f w2). split; [done|]. split; [done|]. split; [|done]. split; [|split].
  - rewrite Hfs. rewrite Ees. unfold with_size, with_range. cbn. by rewrite !last_key_cons.
  - destruct (im_footer _ _ _ _ _ TI) as (body & ft & -> & _). rewrite zlen_app, zlen_footer. change kFooterLength with 48. pose proof (zlen_nonneg body). lia.
  - by eapply image_reads.
Qed.

Lemma keep_table_spec f s iter meta w :
  inv w → rel iter es None →
  ∃ w', keep_table f s iter meta w = Some ((s, meta), w') ∧ inv w' ∧ frame (λ g, g = f) w w' ∧
    files w' = if ok s && bool_decide (0 < file_size meta) then files w else delete f (files w).
Proof.
  intros Hi HR. unfold keep_table. rewrite (rel_status _ _ _ HR). cbn [ok Status_OK].
  destruct (ok s && bool_decide (0 < file_size meta)); [exists w; repeat split; done|].
  destruct (re_Delete f w Hi) as (s' & w' & Ed & _ & Hi' & HF & Hfr). rewrite (M_bind_Some _ _ _ _ _ Ed). by exists w'.
Qed.

Lemma wrote_table fuel dbname iter meta w p :
  inv w → rel iter es p → (length es ≤ fuel)%nat →
  let f := TableFileName dbname (number meta) in
  (∀ w T0, inv w → files w !! f = Some T0 → reads_as V options (zlen T0) T0 es →
     is_Some (cache_NewIterator w default_ReadOptions (number meta) (zlen T0))) →
  ∃ s meta' w', BuildTable fuel dbname options iter meta w = Some ((s, meta'), w') ∧ inv w' ∧ frame (λ g, g = f) w w' ∧
    if decide (es = []) then s = Status_OK ∧ file_size meta' = 0 ∧ files w' = delete f (files w)
    else ∃ T0 w1 it, written meta meta' T0 ∧ files w1 = <[f := T0]> (files w) ∧ inv w1 ∧
      cache_NewIterator w1 default_ReadOptions (number meta) (zlen T0) = Some it ∧ s = it_status it ∧
      files w' = if ok s then <[f := T0]> (files w) else delete f (files w).
Proof.
  intros Hi HR Hfuel f Hcache. destruct (rel_SeekToFirst _ _ _ HR) as (it' & Es & HR').
  unfold BuildTable. fold f. rewrite (M_bind_Some (λ iter, _) (M_lift (λ _, it_SeekToFirst iter)) w it' w) by (unfold M_lift; by rewrite Es).
  change (number (with_size meta 0)) with (number meta). fold f. rewrite (rel_Valid _ _ _ HR'). unfold pos_first in *.
  destruct (decide (es = [])) as [Hes|Hne].
  - assert (Hp : pos_at es 0 = None) by by rewrite Hes. rewrite Hp in *. rewrite bool_decide_false by (by intros [? ?]).
    destruct (keep_table_spec f Status_OK it' (with_size meta 0) w Hi HR') as (w' & -> & Hi' & Hfr & HF). by exists Status_OK, (with_size meta 0), w'.
  - assert (Hp : pos_at es 0 = Some 0%nat) by (unfold pos_at; rewrite decide_True; [done|]; by destruct es; [|cbn; lia]).
    rewrite Hp in *. rewrite bool_decide_true by eauto.
    destruct (writing_new f w Hi) as (h & w1 & En & Hw1 & Hnil). rewrite (M_bind_Some _ _ _ _ _ En).
    destruct (write_table_spec fuel f h it' (with_size meta 0) w w1 Hw1 Hnil Hne HR' Hfuel)
      as (iter' & meta' & w2 & T0 & Ew & HRn & Hwr & Hi2 & HF & Hfr).
    rewrite (M_bind_Some _ _ _ _ _ Ew). cbn [ok Status_OK]. pose proof Hwr as (Hm & Hpos & Hrd).
    destruct (Hcache w2 T0 Hi2) as [it Eit]; [by rewrite HF, lookup_insert_eq|done|].
    assert (Ef : number meta' = number meta ∧ file_size meta' = zlen T0) by (by rewrite Hm). destruct Ef as [En' Ez].
    erewrite M_bind_Some; [|erewrite M_bind_Some; [reflexivity|unfold M_lift; by rewrite En', Ez, Eit]].
    destruct (keep_table_spec f (it_status it) iter' meta' w2 Hi2 HRn) as (w3 & -> & Hi3 & Hfr3 & HF3).
    exists (it_status it), meta', w3. split; [done|]. split; [done|]. split; [by eapply frame_trans|].
    exists T0, w2, it. splits; [by destruct Hwr|done..|]. rewrite HF3, Ez, (bool_decide_true (0 < zlen T0)) by done. rewrite andb_true_r, HF.
    by rewrite delete_insert_eq.
Qed.

(** C35: [BuildTable], in an environment whose operations do not fail, writes
    the entries of an iterator to the table file of the number it is given, and
    to no other file: whoever reads the file sees exactly the entries, [*meta]
    gets its size and its first and last key. The result is the status with
    which the table cache opens the file; if that is not OK, or if there are no
    entries, there is no file in the end. *)
Theorem BuildTable_correct fuel dbname iter meta w p :
  inv w → rel iter es p → (length es ≤ fuel)%nat →
  let f := TableFileName dbname (number meta) in
  (∀ w T0, inv w → files w !! f = Some T0 → reads_as V options (zlen T0) T0 es →
     is_Some (cache_NewIterator w default_ReadOptions (number meta) (zlen T0))) →
  ∃ s meta' w', BuildTable fuel dbname options iter meta w = Some ((s, meta'), w') ∧ inv w' ∧ frame (λ g, g = f) w w' ∧
    if decide (es = []) then s = Status_OK ∧ file_size meta' = 0 ∧ files w' = delete f (files w)
    else ∃ T0 w1 it, written meta meta' T0 ∧ files w1 = <[f := T0]> (files w) ∧ inv w1 ∧
      cache_NewIterator w1 default_ReadOptions (number meta) (zlen T0) = Some it ∧ s = it_status it ∧
      files w' = if ok s then <[f := T0]> (files w) else delete f (files w).
Proof. apply wrote_table. Qed.
End Correct.

(** Whatever fails, no file is left behind without an OK status and a size
    in [*meta]: unless both are there, the last thing that [BuildTable] does is
    to delete the file, or the file could not be created. *)
Theorem BuildTable_no_leftover {W} {E : Env W} {T : TableCache W} {C : Comparator} {P : Placement} {I} {II : Iterator I}
    fuel dbname options (iter : I) meta w s meta' w' :
  BuildTable fuel dbname options iter meta w = Some ((s, meta'), w') →
  let f := TableFileName dbname (number meta) in
  (ok s = true ∧ 0 < file_size meta') ∨ (∃ w1 s1, Env.DeleteFile f w1 = Some (s1, w')) ∨
  (∃ w1, NewWritableFile f w1 = Some (inl s, w')).
Proof.
  intros H f.
  assert (Hkeep : ∀ st (it : I) m w0, keep_table f st it m w0 = Some ((s, meta'), w') →
    (ok s = true ∧ 0 < file_size meta') ∨ (∃ w1 s1, Env.DeleteFile f w1 = Some (s1, w'))).
  { intros st it m w0. unfold keep_table. destruct (ok _ && _) eqn:Ek.
    - intros [= <- <- <-]. apply andb_true_iff in Ek as [? ?%bool_decide_eq_true]. by left.
    - intros (s1 & w1 & Ed & [= <- <- <-])%M_bind_inv. right. by exists w0, s1. }
  unfold BuildTable in H. apply M_bind_inv in H as (it & w0 & _ & H).
  change (number (with_size meta 0)) with (number meta) in H. fold f in H.
  destruct (it_Valid it); [|apply Hkeep in H; tauto].
  apply M_bind_inv in H as ([sf|file] & w1 & En & H).
  - injection H as <- <- <-. right; right. by exists w0.
  - apply M_bind_inv in H as ([[s1 it1] m1] & w2 & _ & H). apply M_bind_inv in H as (s2 & w3 & _ & H).
    apply Hkeep in H. tauto.
Qed.

Module Example.
Definition NoCache : TableCache MemWorld := {|
  TableIterator := EmptyIterator;
  cache_NewIterator _ _ _ _ := Some NewEmptyIterator;
  cache_ApproximateOffsetOf _ _ _ _ := Some None;
  cache_Get _ _ _ _ _ := Some (Status_OK, None);
  cache_Evict _ := mret ();
|}.
Definition es : list entry := [(str "apple", str "1"); (str "apply", str "2"); (str "banana", str "3")].
Definition meta : FileMetaData := new_FileMetaData 5 0 [] [].
Definition options : Options :=
  {| paranoid_checks := true; block_size := 30; block_restart_interval := 2; compression := kSnappyCompression;
     filter_policy := None |}.
End Example.

Lemma BuildTable_correct_witness :
  ∃ (iter : Block.Iter) s meta' w' T0,
    BuildTable (E := InMemoryEnv) (T := Example.NoCache) (P := UnalignedPlacement) (C := BytewiseComparator)
      (II := Block.Block_Iter (C := BytewiseComparator)) 3 (str "db") Example.options iter Example.meta NewMemEnv =
      Some ((s, meta'), w') ∧ s = Status_OK ∧ smallest meta' = str "apple" ∧ largest meta' = str "banana" ∧
    Mem.mem_files w' = {[ str "db/000005.ldb" := T0 ]} ∧
    reads_as (C := BytewiseComparator) (P := UnalignedPlacement) any_key Example.options (zlen T0) T0 Example.es.
Proof.
  assert (Hs : StronglySorted (entry_lt (C := BytewiseComparator)) Example.es) by (repeat constructor; by vm_compute).
  destruct (Block.built_block_open (CL := BytewiseComparator_laws) 2 Example.es) as (it & _ & HR);
    [lia|by vm_compute|exact Hs|repeat constructor|].
  exists it.
  destruct (BuildTable_correct (T := Example.NoCache) (CL := BytewiseComparator_laws) (PL := UnalignedPlacement_laws)
    (IL := Block.Block_laws) (RE := Mem.InMemoryEnv_reliable) Example.options ltac:(split; [by right|by cbn]) Example.es Hs
    ltac:(repeat constructor) ltac:(by vm_compute) I I 3 (str "db") it Example.meta NewMemEnv None Mem.mem_inv_init HR (le_n 3)
    ltac:(intros; by eexists))
    as (s & meta' & w' & Eb & _ & _ & H).
  rewrite decide_False in H by done. destruct H as (T0 & w1 & it1 & (Hm & _ & Hr) & _ & _ & [= <-] & -> & HF).
  exists (it_status NewEmptyIterator), meta', w', T0. split; [exact Eb|]. split; [done|]. rewrite Hm. split; [done|]. split; [done|]. split; [|done].
  exact HF.
Defined.

Lemma BuildTable_no_leftover_witness :
  let s := IOError (str "read") (str "failed") in
  BuildTable (E := InMemoryEnv) (T := Example.NoCache) (P := UnalignedPlacement) (C := BytewiseComparator) 3 (str "db")
    Example.options (NewErrorIterator s) Example.meta NewMemEnv = Some ((s, with_size Example.meta 0), NewMemEnv) ∧
  ((ok s = true ∧ 0 < file_size (with_size Example.meta 0)) ∨
   (∃ w1 s1, Env.DeleteFile (Env := InMemoryEnv) (TableFileName (str "db") 5) w1 = Some (s1, NewMemEnv)) ∨
   (∃ w1, NewWritableFile (Env := InMemoryEnv) (TableFileName (str "db") 5) w1 = Some (inl s, NewMemEnv))).
Proof.
  cbv zeta. assert (H : BuildTable (E := InMemoryEnv) (T := Example.NoCache) (P := UnalignedPlacement) (C := BytewiseComparator) 3 (str "db")
    Example.options (NewErrorIterator (IOError (str "read") (str "failed"))) Example.meta NewMemEnv =
    Some ((IOError (str "read") (str "failed"), with_size Example.meta 0), NewMemEnv)) by (vm_compute; reflexivity).
  split; [exact H|]. exact (BuildTable_no_leftover (T := Example.NoCache) _ _ _ _ _ _ _ _ _ H).
Defined.
