(* ===== verification/Version.v ===== *)
(** A version: the table files of every level, [class Version] of
    [db/version_set.h] and [db/version_set.cc].

    A [FileMetaData *] is modelled as the object; the members that change,
    [allowed_seeks] and the reference counts, are not read by the searches of
    this file, and [UpdateStats] returns what becomes of them.  [files_] is the
    list of the levels.  The vectors are shorter than 2^31, so that indices do
    not wrap.  What the table cache gives is a parameter. *)
From Stdlib Require Import Sorting.Sorted.
From stdpp Require Import sorting.
From S2P Require Import Prelude SortedLists Coding Status Comparator Logging DbFormat Iterator TwoLevelIterator VersionEdit.

(** ** Constants *)

Definition kTargetFileSize : Z := 2 * 1048576.
Definition kMaxGrandParentOverlapBytes : Z := 10 * kTargetFileSize.
Definition kExpandedCompactionByteSizeLimit : Z := 25 * kTargetFileSize.

(** The loop [while (level > 1)]; the results are integers below 2^53, which a
    [double] represents exactly. *)
Fixpoint MaxBytes_loop (level : nat) (result : Z) : Z :=
  match level with
  | S (S _ as level) => MaxBytes_loop level (result * 10)
  | _ => result
  end.
Definition MaxBytesForLevel (level : nat) : Z := MaxBytes_loop level (10 * 1048576).

Definition MaxFileSizeForLevel (level : nat) : Z := kTargetFileSize.

(** The sum of [uint64_t]s in an [int64_t]. *)
Definition TotalFileSize (files : list FileMetaData) : Z :=
  foldl (λ sum f, swrap 64 (sum + file_size f)) 0 files.

(** ** Searches in a level *)

Section Files.
Context {user_comparator : Comparator}.

Abbreviation IKC := (InternalKeyComparator (user_comparator_ := user_comparator)).

(** The loop [while (left < right)] of [FindFile]. *)
Fixpoint FindFile_loop (fuel : nat) (files : list FileMetaData) (key : bytes) (left right : nat) : nat :=
  match fuel with
  | O => right
  | S fuel =>
      if decide (left < right)%nat then
        let mid := ((left + right) / 2)%nat in
        match files !! mid with
        | Some f =>
            if decide (Compare (Comparator := IKC) (largest f) key < 0) then FindFile_loop fuel files key (S mid) right
            else FindFile_loop fuel files key left mid
        | None => right
        end
      else right
  end.

Definition FindFile (files : list FileMetaData) (key : bytes) : nat :=
  FindFile_loop (length files) files key 0 (length files).

Definition AfterFile (user_key : option bytes) (f : FileMetaData) : bool :=
  match user_key with
  | Some k => bool_decide (Compare k (ExtractUserKey (largest f)) > 0)
  | None => false
  end.

Definition BeforeFile (user_key : option bytes) (f : FileMetaData) : bool :=
  match user_key with
  | Some k => bool_decide (Compare k (ExtractUserKey (smallest f)) < 0)
  | None => false
  end.

Definition SomeFileOverlapsRange (disjoint_sorted_files : bool) (files : list FileMetaData)
    (smallest_user_key largest_user_key : option bytes) : bool :=
  if negb disjoint_sorted_files then
    existsb (λ f, negb (AfterFile smallest_user_key f || BeforeFile largest_user_key f)) files
  else
    let index := match smallest_user_key with
                 | Some k => FindFile files (InternalKey k kMaxSequenceNumber kValueTypeForSeek)
                 | None => O
                 end in
    match files !! index with
    | None => false
    | Some f => negb (BeforeFile largest_user_key f)
    end.

(** One pass of the loop of [GetOverlappingInputs]: the inputs, or the larger
    range with which the search starts again. *)
Fixpoint overlap_scan (level0 : bool) (user_begin user_end : option bytes) (files inputs : list FileMetaData) :
    option bytes * option bytes + list FileMetaData :=
  match files with
  | [] => inr inputs
  | f :: files =>
      let file_start := ExtractUserKey (smallest f) in
      let file_limit := ExtractUserKey (largest f) in
      if match user_begin with Some b => bool_decide (Compare file_limit b < 0) | None => false end then
        overlap_scan level0 user_begin user_end files inputs
      else if match user_end with Some e => bool_decide (Compare file_start e > 0) | None => false end then
        overlap_scan level0 user_begin user_end files inputs
      else if level0 && match user_begin with Some b => bool_decide (Compare file_start b < 0) | None => false end then
        inl (Some file_start, user_end)
      else if level0 && match user_end with Some e => bool_decide (Compare file_limit e > 0) | None => false end then
        inl (user_begin, Some file_limit)
      else overlap_scan level0 user_begin user_end files (inputs ++ [f])
  end.

Fixpoint overlap_loop (fuel : nat) (level0 : bool) (user_begin user_end : option bytes) (files : list FileMetaData) :
    option (list FileMetaData) :=
  match fuel with
  | O => None
  | S fuel =>
      match overlap_scan level0 user_begin user_end files [] with
      | inr inputs => Some inputs
      | inl (user_begin, user_end) => overlap_loop fuel level0 user_begin user_end files
      end
  end.

(** Every new start of the search moves an end of the range over a file. *)
Definition GetOverlappingInputs_in (level : nat) (files : list FileMetaData) (begin end_ : option bytes) :
    option (list FileMetaData) :=
  overlap_loop (2 * length files + 1) (bool_decide (level = O))
    (ExtractUserKey <$> begin) (ExtractUserKey <$> end_) files.

(** ** Versions *)

Record Version := {
  files_ : list (list FileMetaData);
  file_to_compact_ : option (FileMetaData * nat);
  compaction_level_ : Z;
  (** [compaction_score_] as a fraction *)
  compaction_score_ : Z * Z;
}.

Definition new_Version : Version :=
  {| files_ := replicate (Z.to_nat kNumLevels) []; file_to_compact_ := None;
     compaction_level_ := -1; compaction_score_ := (-1, 1) |}.

Definition level_files (v : Version) (level : nat) : list FileMetaData := nth level (files_ v) [].

Definition NumFiles (v : Version) (level : nat) : Z := zlen (level_files v level).

Definition OverlapInLevel (v : Version) (level : nat) (smallest_user_key largest_user_key : option bytes) : bool :=
  SomeFileOverlapsRange (bool_decide (0 < level)%nat) (level_files v level) smallest_user_key largest_user_key.

Definition GetOverlappingInputs (v : Version) (level : nat) (begin end_ : option bytes) :
    option (list FileMetaData) :=
  GetOverlappingInputs_in level (level_files v level) begin end_.

(** The loop [while (level < config::kMaxMemCompactLevel)]. *)
Fixpoint pick_level_loop (fuel : nat) (v : Version) (smallest_user_key largest_user_key : bytes) (level : nat) :
    option nat :=
  match fuel with
  | O => Some level
  | S fuel =>
      if OverlapInLevel v (S level) (Some smallest_user_key) (Some largest_user_key) then Some level
      else
        let start := InternalKey smallest_user_key kMaxSequenceNumber kValueTypeForSeek in
        let limit := InternalKey largest_user_key 0 0 in
        if decide (level + 2 < Z.to_nat kNumLevels)%nat then
          overlaps ← GetOverlappingInputs v (level + 2) (Some start) (Some limit);
          if decide (TotalFileSize overlaps > kMaxGrandParentOverlapBytes) then Some level
          else pick_level_loop fuel v smallest_user_key largest_user_key (S level)
        else pick_level_loop fuel v smallest_user_key largest_user_key (S level)
  end.

Definition PickLevelForMemTableOutput (v : Version) (smallest_user_key largest_user_key : bytes) : option nat :=
  if negb (OverlapInLevel v 0 (Some smallest_user_key) (Some largest_user_key)) then
    pick_level_loop (Z.to_nat kMaxMemCompactLevel) v smallest_user_key largest_user_key 0
  else Some 0%nat.

(** ** Lookups *)

Definition NewestFirst (a b : FileMetaData) : bool := bool_decide (number a > number b).

(** [std::sort] by [NewestFirst]: an insertion sort; the numbers of the files
    are different, so that every sort gives the same list. *)
Fixpoint insert_newest (f : FileMetaData) (l : list FileMetaData) : list FileMetaData :=
  match l with
  | [] => [f]
  | g :: l' => if NewestFirst f g then f :: l else g :: insert_newest f l'
  end.
Definition sort_newest (l : list FileMetaData) : list FileMetaData := foldr insert_newest [] l.

Definition in_user_range (user_key : bytes) (f : FileMetaData) : bool :=
  bool_decide (0 ≤ Compare user_key (ExtractUserKey (smallest f))) &&
  bool_decide (Compare user_key (ExtractUserKey (largest f)) ≤ 0).

(** The files of a level that may hold the key, in the order in which they are
    searched. *)
Definition search_files (v : Version) (user_key ikey : bytes) (level : nat) : list FileMetaData :=
  let files := level_files v level in
  if decide (level = O) then sort_newest (filter (λ f, in_user_range user_key f) files)
  else
    match files !! FindFile files ikey with
    | None => []
    | Some f => if decide (Compare user_key (ExtractUserKey (smallest f)) < 0) then [] else [f]
    end.

(** All files that are searched, newest first, with their levels. *)
Definition search_order (v : Version) (user_key ikey : bytes) : list (FileMetaData * nat) :=
  mjoin ((λ level, (λ f, (f, level)) <$> search_files v user_key ikey level) <$> seq 0 (Z.to_nat kNumLevels)).

(** [func] with its state; it returns whether to go on. *)
Fixpoint for_each {S} (func : S → FileMetaData * nat → S * bool) (s : S) (l : list (FileMetaData * nat)) : S :=
  match l with
  | [] => s
  | f :: l => let '(s, go) := func s f in if (go : bool) then for_each func s l else s
  end.

Definition ForEachOverlapping {S} (v : Version) (user_key internal_key : bytes)
    (func : S → FileMetaData * nat → S * bool) (s : S) : S :=
  for_each func s (search_order v user_key internal_key).

Inductive SaverState := kNotFound | kFound | kDeleted | kCorrupt.

(** The state and the value of a [Saver]. *)
Definition SaveValue (user_key : bytes) (ikey v : bytes) (value : bytes) : SaverState * bytes :=
  match ParseInternalKey ikey with
  | None => (kCorrupt, value)
  | Some parsed_key =>
      if decide (Compare (DbFormat.user_key parsed_key) user_key = 0) then
        if decide (type parsed_key = kTypeValue) then (kFound, v) else (kDeleted, value)
      else (kNotFound, value)
  end.

(** [GetStats]: the file that is charged for a seek. *)
Definition GetStats := option (FileMetaData * nat).

(** What [table_cache_->Get] does: a status and the entry the saver is called
    with; no result where the code has no defined behaviour. *)
Context (table_cache_Get : Z → Z → bytes → option (Status * option entry)).

(** The loop over the files in the order they are searched, with the last file
    that was read: the status, the value and the file that is charged. *)
Fixpoint Get_loop (user_key ikey value : bytes) (last_file_read : option (FileMetaData * nat)) (stats : GetStats)
    (l : list (FileMetaData * nat)) : option (Status * bytes * GetStats) :=
  match l with
  | [] => Some (NotFound [] [], value, stats)
  | (f, level) :: l =>
      let stats := match last_file_read, stats with
                   | Some last, None => Some last
                   | _, _ => stats
                   end in
      '(s, saved) ← table_cache_Get (number f) (file_size f) ikey;
      let '(state, value) := match saved with
                             | Some (k, v) => SaveValue user_key k v value
                             | None => (kNotFound, value)
                             end in
      if negb (ok s) then Some (s, value, stats)
      else
        match state with
        | kNotFound => Get_loop user_key ikey value (Some (f, level)) stats l
        | kFound => Some (s, value, stats)
        | kDeleted => Some (NotFound [] [], value, stats)
        | kCorrupt => Some (Corruption (str "corrupted key for ") user_key, value, stats)
        end
  end.

Definition Get (v : Version) (k : LookupKey) (value : bytes) : option (Status * bytes * GetStats) :=
  let ikey := internal_key k in
  let user_key := LookupKey_user_key k in
  Get_loop user_key ikey value None None (search_order v user_key ikey).

(** ** Seeks *)

(** [allowed] is what [allowed_seeks] of the file is before; the result is
    what it is after, the version, and whether a compaction may be due. *)
Definition UpdateStats (allowed : Z) (v : Version) (stats : GetStats) : Z * Version * bool :=
  match stats with
  | Some f =>
      let allowed := allowed - 1 in
      if bool_decide (allowed ≤ 0) && bool_decide (file_to_compact_ v = None) then
        (allowed,
         {| files_ := files_ v; file_to_compact_ := Some f; compaction_level_ := compaction_level_ v;
            compaction_score_ := compaction_score_ v |}, true)
      else (allowed, v, false)
  | None => (allowed, v, false)
  end.

(** [State::Match]: the first file and the number of matches. *)
Definition sample_match (state : GetStats * Z) (f : FileMetaData * nat) : GetStats * Z * bool :=
  let '(stats, matches) := state in
  let matches := matches + 1 in
  (if decide (matches = 1) then Some f else stats, matches, bool_decide (matches < 2)).

(** The file that a sample is charged to. *)
Definition sampled_file (v : Version) (ikey : bytes) : GetStats :=
  match ParseInternalKey ikey with
  | None => None
  | Some parsed =>
      let '(stats, matches) := ForEachOverlapping v (DbFormat.user_key parsed) ikey sample_match (None, 0) in
      if decide (2 ≤ matches) then stats else None
  end.

Definition RecordReadSample (allowed : Z) (v : Version) (ikey : bytes) : Z * Version * bool :=
  UpdateStats allowed v (sampled_file v ikey).

(** ** Text *)

Definition file_DebugString (r : bytes) (f : FileMetaData) : bytes :=
  AppendNumberTo (AppendNumberTo (r ++ str " ") (number f) ++ str ":") (file_size f) ++
  str "[" ++ InternalKey_DebugString (smallest f) ++ str " .. " ++ InternalKey_DebugString (largest f) ++ str "]" ++ newline.

Definition level_DebugString (r : bytes) (level_files : nat * list FileMetaData) : bytes :=
  foldl file_DebugString (AppendNumberTo (r ++ str "--- level ") (Z.of_nat level_files.1) ++ str " ---" ++ newline)
    level_files.2.

Definition Version_DebugString (v : Version) : bytes :=
  foldl level_DebugString [] (zip (seq 0 (Z.to_nat kNumLevels)) (files_ v)).

(** ** The iterator over the files of a level *)

(** [flist_] and [index_]. *)
Record LevelFileNumIterator := { flist_ : list FileMetaData; index_ : nat }.

Definition new_LevelFileNumIterator (flist : list FileMetaData) : LevelFileNumIterator :=
  {| flist_ := flist; index_ := length flist |}.

Definition at_index (it : LevelFileNumIterator) (i : nat) : LevelFileNumIterator := {| flist_ := flist_ it; index_ := i |}.

Definition file_value (f : FileMetaData) : bytes := EncodeFixed64 (number f) ++ EncodeFixed64 (file_size f).

Definition lfn_Valid (it : LevelFileNumIterator) : bool := bool_decide (index_ it < length (flist_ it))%nat.

#[export] Instance LevelFileNumIterator_Iterator : Iterator LevelFileNumIterator := {
  it_Valid := lfn_Valid;
  it_SeekToFirst it := Some (at_index it 0);
  it_SeekToLast it := Some (at_index it (match flist_ it with [] => 0 | _ => length (flist_ it) - 1 end));
  it_Seek target it := Some (at_index it (FindFile (flist_ it) target));
  it_Next it := if lfn_Valid it then Some (at_index it (S (index_ it))) else None;
  it_Prev it :=
    if lfn_Valid it then
      Some (at_index it (match index_ it with O => length (flist_ it) | S i => i end))
    else None;
  it_key it := largest <$> flist_ it !! index_ it;
  it_value it := file_value <$> flist_ it !! index_ it;
  it_status _ := Status_OK;
}.

(** ** Iterators over a version *)

Section Iterators.
Context {I : Type} {II : Iterator I}.
(** [table_cache_->NewIterator] *)
Context (table_cache_NewIterator : Z → Z → option I).

(** The iterator of an entry of the level; an error iterator for a value that
    is no file. *)
Definition GetFileIterator (value : bytes) : option (EmptyIterator + I) :=
  if decide (zlen value ≠ 16) then
    Some (inl (NewErrorIterator (Corruption (str "FileReader invoked with unexpected value") [])))
  else inr <$> table_cache_NewIterator (DecodeFixed64 value) (DecodeFixed64 (zdrop 8 value)).

Definition ConcatIterator := TwoLevelIterator LevelFileNumIterator (EmptyIterator + I).

(** [fuel] bounds the number of files in a level. *)
Context (fuel : nat).
#[export] Instance ConcatIterator_Iterator : Iterator ConcatIterator := TwoLevelIterator_Iterator GetFileIterator fuel.

Definition NewConcatenatingIterator_of (flist : list FileMetaData) : option ConcatIterator :=
  NewTwoLevelIterator (new_LevelFileNumIterator flist).

Definition NewConcatenatingIterator (v : Version) (level : nat) : option ConcatIterator :=
  NewConcatenatingIterator_of (level_files v level).

(** Every file of level 0, and one iterator for every other level that has
    files. *)
Definition AddIterators (v : Version) (iters : list (I + ConcatIterator)) : option (list (I + ConcatIterator)) :=
  zero ← mapM (λ f, table_cache_NewIterator (number f) (file_size f)) (level_files v 0);
  above ← mapM (NewConcatenatingIterator v)
    (filter (λ level, level_files v level ≠ []) (seq 1 (Z.to_nat kNumLevels - 1)));
  Some (iters ++ (inl <$> zero) ++ (inr <$> above)).
End Iterators.
End Files.
Arguments LevelFileNumIterator : clear implicits.

(** ** Levels *)

Lemma files_levels v : length (files_ v) = Z.to_nat kNumLevels → level_files v <$> seq 0 (Z.to_nat kNumLevels) = files_ v.
Proof.
  intros Hl. apply list_eq. intros i. rewrite list_lookup_fmap. destruct (decide (i < Z.to_nat kNumLevels)%nat) as [Hi|Hi].
  - rewrite lookup_seq_lt by done. cbn. destruct (lookup_lt_is_Some_2 (files_ v) i) as [fs E]; [lia|].
    rewrite E. unfold level_files. by rewrite (nth_lookup_Some _ _ _ _ E).
  - rewrite lookup_seq_ge by lia. by rewrite lookup_ge_None_2 by lia.
Qed.

Section Levels.
Context {C : Comparator} {V : bytes → Prop} {CL : ComparatorLaws C V}.

Abbreviation IKC := (InternalKeyComparator (user_comparator_ := C)).
Abbreviation IV := (ikey_valid (V := V)).
Abbreviation icmp := (Compare (Comparator := IKC)).

Definition start (f : FileMetaData) : bytes := ExtractUserKey (smallest f).
Definition limit (f : FileMetaData) : bytes := ExtractUserKey (largest f).

Definition file_valid (f : FileMetaData) : Prop :=
  IV (smallest f) ∧ IV (largest f) ∧ icmp (smallest f) (largest f) ≤ 0.

(** The files of a level but the first: disjoint and in order. *)
Definition level_sorted (files : list FileMetaData) : Prop :=
  StronglySorted (λ f g, icmp (largest f) (smallest g) < 0) files.

Definition level_entries (files : list FileMetaData) : list entry :=
  (λ f, (largest f, file_value f)) <$> files.

(** The first file that does not end before the key. *)
Definition first_at (files : list FileMetaData) (key : bytes) (i : nat) : Prop :=
  (i ≤ length files)%nat ∧
  (∀ j f, (j < i)%nat → files !! j = Some f → icmp (largest f) key < 0) ∧
  (∀ f, files !! i = Some f → ¬ icmp (largest f) key < 0).

Section Level.
Context (files : list FileMetaData).
Hypothesis files_valid : Forall file_valid files.
Hypothesis files_sorted : level_sorted files.

Lemma elem_file_valid f : f ∈ files → file_valid f.
Proof. intros Hf. rewrite list.Forall_forall in files_valid. by apply files_valid. Qed.

Lemma index_file_valid i f : files !! i = Some f → file_valid f.
Proof. intros Hf%list_elem_of_lookup_2. by apply elem_file_valid. Qed.

Lemma largest_sorted : StronglySorted (entry_lt (C := IKC)) (level_entries files).
Proof.
  unfold level_entries. pose proof files_valid as HV. induction files_sorted as [|f l Hs IH Hf]; [constructor|].
  apply list.Forall_cons in HV as [Vf HV]. cbn [fmap list_fmap]. constructor; [by apply IH|].
  apply list.Forall_forall. intros x (g & -> & Hg)%list_elem_of_fmap.
  rewrite list.Forall_forall in Hf, HV. specialize (Hf g Hg). destruct (HV g Hg) as (V1 & V2 & Hle).
  unfold entry_lt. cbn [fst]. destruct Vf as (_ & Vf & _).
  eapply (Compare_lt_le_trans (C := IKC)); [..|exact Hle]; done.
Qed.

Lemma largest_valid : Forall (λ e, IV e.1) (level_entries files).
Proof.
  apply list.Forall_fmap. eapply Forall_impl; [|exact files_valid]. by intros f (_ & ? & _).
Qed.

Lemma level_entries_lookup i : level_entries files !! i = (λ f, (largest f, file_value f)) <$> files !! i.
Proof. apply list_lookup_fmap. Qed.

Lemma FindFile_loop_spec fuel key left right :
  IV key → (left ≤ right ≤ length files)%nat → (right - left ≤ fuel)%nat →
  (∀ j f, (j < left)%nat → files !! j = Some f → icmp (largest f) key < 0) →
  (∀ f, files !! right = Some f → ¬ icmp (largest f) key < 0) →
  first_at files key (FindFile_loop fuel files key left right).
Proof.
  intros Vk. revert left right. induction fuel as [|fuel IH]; intros left right Hlr Hf Hl Hr; cbn [FindFile_loop].
  - replace left with right in * by lia. by unfold first_at; splits; [lia|..].
  - case_decide as Hlt; [|replace left with right in * by lia; by unfold first_at; splits; [lia|..]].
    set (mid := ((left + right) / 2)%nat).
    assert (left ≤ mid < right)%nat as Hmid by (subst mid; split; [apply Nat.div_le_lower_bound|apply Nat.Div0.div_lt_upper_bound]; nia).
    destruct (lookup_lt_is_Some_2 files mid) as [f Hfm]; [lia|]. rewrite Hfm. case_decide as Hc.
    + apply IH; [lia|lia| |done]. intros j g Hj Hg. destruct (decide (j = mid)) as [->|Hne]; [by simplify_eq|].
      destruct (index_file_valid j g Hg) as (V1 & V2 & V3). destruct (index_file_valid mid f Hfm) as (V4 & V5 & V6).
      apply (Compare_trans (C := IKC) _ (largest f)); [done..| |done].
      eapply (sorted_index (entry_lt (C := IKC)) _ j mid (largest g, file_value g) (largest f, file_value f));
        [apply largest_sorted|lia|by rewrite level_entries_lookup, Hg|by rewrite level_entries_lookup, Hfm].
    + apply IH; [lia|lia|done|]. intros g Hg. by simplify_eq.
Qed.

Lemma FindFile_spec key : IV key → first_at files key (FindFile files key).
Proof.
  intros Vk. apply FindFile_loop_spec; [done|lia|lia|lia|].
  intros f Hf. apply lookup_lt_Some in Hf. lia.
Qed.

Lemma FindFile_before key : IV key → length (entries_before (C := IKC) (level_entries files) key) = FindFile files key.
Proof.
  intros Vk. destruct (FindFile_spec key Vk) as (H1 & H2 & H3).
  apply (entries_before_index (C := IKC) (V := IV)); [apply largest_sorted|apply largest_valid|done| | |].
  - unfold level_entries. by rewrite length_fmap.
  - intros j e Hj He. rewrite level_entries_lookup in He. apply fmap_Some in He as (f & Hf & ->). by apply (H2 j).
  - intros e He. rewrite level_entries_lookup in He. apply fmap_Some in He as (f & Hf & ->). by apply H3.
Qed.
End Level.

(** *** The iterator over a level *)

Definition lfn_rel (it : LevelFileNumIterator) (es : list entry) (p : option nat) : Prop :=
  Forall file_valid (flist_ it) ∧ level_sorted (flist_ it) ∧ es = level_entries (flist_ it) ∧
  match p with
  | Some i => index_ it = i ∧ (i < length (flist_ it))%nat
  | None => (length (flist_ it) ≤ index_ it)%nat
  end.

Lemma length_level_entries files : length (level_entries files) = length files.
Proof. unfold level_entries. by rewrite length_fmap. Qed.

Lemma lfn_at it es p i :
  lfn_rel it es p → (i ≤ length (flist_ it))%nat → lfn_rel (at_index it i) es (pos_at es i).
Proof.
  intros (HV & Hs & -> & _) Hi. unfold pos_at. rewrite length_level_entries.
  unfold lfn_rel. case_decide; splits; try done; cbn; lia.
Qed.

Lemma lfn_Valid_rel it es p : lfn_rel it es p → lfn_Valid it = bool_decide (is_Some p).
Proof.
  intros (_ & _ & _ & Hp). unfold lfn_Valid. destruct p as [i|].
  - destruct Hp as [-> Hi]. by rewrite !bool_decide_true by eauto.
  - rewrite !bool_decide_false; [done|by intros [? ?]|lia].
Qed.

#[export] Instance LevelFileNumIterator_laws :
  IteratorLaws (C := IKC) (II := LevelFileNumIterator_Iterator) LevelFileNumIterator IV lfn_rel.
Proof.
  split; intros it es.
  - intros p (HV & Hs & -> & _). split; [by apply largest_sorted|by apply largest_valid].
  - intros i (_ & _ & -> & _ & Hi). by rewrite length_level_entries.
  - intros p HR. by apply (lfn_Valid_rel it es).
  - intros i e (_ & _ & -> & <- & Hi) He. rewrite level_entries_lookup in He.
    apply fmap_Some in He as (f & Hf & ->). cbn. by rewrite Hf.
  - intros i e (_ & _ & -> & <- & Hi) He. rewrite level_entries_lookup in He.
    apply fmap_Some in He as (f & Hf & ->). cbn. by rewrite Hf.
  - done.
  - intros p HR. eexists; split; [done|]. apply (lfn_at it es p 0 HR). lia.
  - intros p HR. eexists; split; [done|]. pose proof HR as (_ & _ & -> & _). unfold pos_last.
    rewrite length_level_entries. destruct (flist_ it) as [|f l] eqn:E.
    + destruct HR as (HV & Hs & _ & _). unfold lfn_rel. cbn [flist_ at_index index_ length]. rewrite E in *.
      splits; [done|done|done|cbn; lia].
    + pose proof (lfn_at it _ p (length (f :: l) - 1) HR) as Ha. rewrite E in Ha. unfold pos_at in Ha.
      rewrite length_level_entries, decide_True in Ha by (cbn; lia). cbn [length] in *.
      replace (S (length l) - 1)%nat with (length l) in * by lia. apply Ha. lia.
  - intros p k HR Vk. eexists; split; [done|]. pose proof HR as (HV & Hs & -> & _). unfold pos_seek.
    rewrite FindFile_before by done. apply (lfn_at it _ p _ HR). by apply (FindFile_spec (flist_ it) HV Hs k Vk).
  - intros i HR. cbn. rewrite (lfn_Valid_rel it es (Some i) HR). cbn [bool_decide is_Some].
    rewrite bool_decide_true by eauto. eexists; split; [done|]. pose proof HR as (_ & _ & _ & -> & Hi).
    apply (lfn_at it es _ (S i) HR). lia.
  - intros i HR. cbn. rewrite (lfn_Valid_rel it es (Some i) HR), bool_decide_true by eauto.
    eexists; split; [done|]. pose proof HR as (HV & Hs & -> & -> & Hi). unfold lfn_rel. destruct i; cbn [pos_prev]; splits; try done; cbn; lia.
Qed.

(** *** Overlapping files *)

Definition file_overlaps (lo hi : option bytes) (f : FileMetaData) : bool :=
  negb (AfterFile lo f || BeforeFile hi f).

Definition opt_valid (k : option bytes) : Prop := match k with Some k => V k | None => True end.

(** The key that is searched for is the first of its user key. *)
Lemma first_key_parts k :
  ExtractUserKey (InternalKey k kMaxSequenceNumber kValueTypeForSeek) = k ∧
  ExtractTag (InternalKey k kMaxSequenceNumber kValueTypeForSeek) = kMaxSequenceNumber * 256 + 1 ∧
  8 ≤ zlen (InternalKey k kMaxSequenceNumber kValueTypeForSeek).
Proof.
  unfold InternalKey, AppendInternalKey, PutFixed64. cbn [DbFormat.user_key sequence type app].
  assert (in_w 64 (PackSequenceAndType kMaxSequenceNumber kValueTypeForSeek)) as Hw by by vm_compute.
  destruct (Extract_app k _ Hw) as [-> ->]. splits; [done|by vm_compute|].
  rewrite zlen_app, zlen_EncodeFixed64. pose proof (zlen_nonneg k). lia.
Qed.

Definition tag_ok (k : bytes) : Prop := ExtractTag k ≤ kMaxSequenceNumber * 256 + 1.

Lemma icmp_user_le a b : IV a → IV b → icmp a b ≤ 0 → Compare (ExtractUserKey a) (ExtractUserKey b) ≤ 0.
Proof.
  intros [_ Va] [_ Vb] H. pose proof (Internal_Compare_gt a b) as Hgt. cbn [Compare InternalKeyComparator] in H.
  destruct (decide (0 < Compare (ExtractUserKey a) (ExtractUserKey b))); [|lia].
  assert (0 < Internal_Compare a b) by (apply Hgt; by left). lia.
Qed.

Lemma file_user_valid f : file_valid f → V (start f) ∧ V (limit f) ∧ Compare (start f) (limit f) ≤ 0.
Proof. intros (V1 & V2 & Hle). splits; [apply V1|apply V2|by apply icmp_user_le]. Qed.

(** Files that follow each other in a level: their user keys do not decrease. *)
Lemma level_start_le files i j f g :
  Forall file_valid files → level_sorted files → files !! i = Some f → files !! j = Some g → (i < j)%nat →
  Compare (limit f) (start g) ≤ 0.
Proof.
  intros HV Hs Hf Hg Hij. pose proof (sorted_index _ files i j f g Hs Hij Hf Hg) as Hlt. cbn beta in Hlt.
  destruct (index_file_valid files HV i f Hf) as (_ & V1 & _). destruct (index_file_valid files HV j g Hg) as (V2 & _ & _).
  apply icmp_user_le; [done..|lia].
Qed.

Lemma after_iff k f : file_valid f → V k → AfterFile (Some k) f = bool_decide (Compare (limit f) k < 0).
Proof.
  intros (_ & [_ Vl] & _) Vk. cbn. apply bool_decide_ext. fold (limit f). pose proof (Compare_flip (limit f) k Vl Vk). lia.
Qed.

Lemma first_key_before k f :
  file_valid f → tag_ok (largest f) → V k →
  icmp (largest f) (InternalKey k kMaxSequenceNumber kValueTypeForSeek) < 0 ↔ Compare (limit f) k < 0.
Proof.
  intros (_ & [_ Vl] & _) Ht Vk. destruct (first_key_parts k) as (E1 & E2 & _).
  cbn [Compare InternalKeyComparator]. rewrite Internal_Compare_lt, E1, E2. unfold tag_ok in Ht. fold (limit f). split; [|by left].
  intros [?|[_ ?]]; [done|lia].
Qed.

Lemma first_key_valid k : V k → IV (InternalKey k kMaxSequenceNumber kValueTypeForSeek).
Proof. intros Vk. destruct (first_key_parts k) as (E1 & _ & ?). split; [done|by rewrite E1]. Qed.

Section Overlap.
Context (files : list FileMetaData).
Hypothesis files_valid : Forall file_valid files.

Lemma overlap_from lo hi index f :
  level_sorted files → opt_valid hi → files !! index = Some f → AfterFile lo f = false →
  (∀ j g, (j < index)%nat → files !! j = Some g → AfterFile lo g = true) →
  existsb (file_overlaps lo hi) files = negb (BeforeFile hi f).
Proof.
  intros Hs Vhi Hf Haf Hb. destruct (BeforeFile hi f) eqn:E; cbn [negb].
  - apply not_true_iff_false. rewrite existsb_exists. intros (g & Hg & Ho). apply list_elem_of_In in Hg.
    apply list_elem_of_lookup in Hg as [j Hj]. unfold file_overlaps in Ho. apply negb_true_iff, orb_false_iff in Ho as [Ha Hbf].
    destruct (decide (j < index)%nat) as [Hlt|]; [by rewrite (Hb j g Hlt Hj) in Ha|].
    destruct (decide (j = index)) as [->|]; [congruence|].
    pose proof (level_start_le files index j f g files_valid Hs Hf Hj ltac:(lia)) as Hle.
    destruct hi as [hi|]; [|done]. cbn in E, Hbf. apply bool_decide_eq_true in E. apply bool_decide_eq_false in Hbf.
    apply Hbf. destruct (file_user_valid f (index_file_valid files files_valid index f Hf)) as (V1 & V2 & V3).
    destruct (file_user_valid g (index_file_valid files files_valid j g Hj)) as (V4 & V5 & V6).
    eapply (Compare_lt_le_trans hi (start f)); [done..|].
    eapply (Compare_le_trans (start f) (limit f)); done.
  - apply existsb_exists. exists f. split; [by eapply list_elem_of_In, list_elem_of_lookup_2|].
    unfold file_overlaps. by rewrite Haf, E.
Qed.

Lemma SomeFileOverlapsRange_spec disjoint lo hi :
  (disjoint = true → level_sorted files ∧ Forall (λ f, tag_ok (largest f)) files) →
  opt_valid lo → opt_valid hi →
  SomeFileOverlapsRange disjoint files lo hi = existsb (file_overlaps lo hi) files.
Proof.
  intros Hd Vlo Vhi. unfold SomeFileOverlapsRange. destruct disjoint; [|done]. destruct (Hd eq_refl) as [Hs Ht].
  cbn [negb]. destruct lo as [k|].
  - destruct (FindFile_spec files files_valid Hs _ (first_key_valid k Vlo)) as (H1 & H2 & H3).
    set (index := FindFile files _) in *.
    assert (Hafter : ∀ j g, files !! j = Some g →
      AfterFile (Some k) g = bool_decide (icmp (largest g) (InternalKey k kMaxSequenceNumber kValueTypeForSeek) < 0)).
    { intros j g Hg. rewrite after_iff; [|by eapply index_file_valid|done]. apply bool_decide_ext. symmetry.
      apply first_key_before; [by eapply index_file_valid| |done]. apply list_elem_of_lookup_2 in Hg.
      rewrite list.Forall_forall in Ht. by apply Ht. }
    destruct (files !! index) as [f|] eqn:Ef.
    + symmetry. apply (overlap_from _ _ index); [done|done|done| |].
      * rewrite (Hafter index f Ef). by apply bool_decide_eq_false, H3.
      * intros j g Hj Hg. rewrite (Hafter j g Hg). by apply bool_decide_eq_true, (H2 j).
    + symmetry. apply not_true_iff_false. rewrite existsb_exists. intros (g & Hg & Ho).
      apply list_elem_of_In, list_elem_of_lookup in Hg as [j Hj]. apply lookup_ge_None in Ef.
      pose proof (lookup_lt_Some _ _ _ Hj) as Hlt. unfold file_overlaps in Ho.
      rewrite (Hafter j g Hj), bool_decide_true in Ho by (apply (H2 j); [lia|done]). done.
  - destruct (files !! 0%nat) as [f|] eqn:Ef.
    + symmetry. apply (overlap_from None hi 0); [done|done|done|done|lia].
    + apply lookup_ge_None in Ef. destruct files; [done|]. cbn in Ef. lia.
Qed.

(** *** The inputs of a compaction *)

(** The file does not reach over the ends of the range. *)
Definition below (lo : option bytes) (f : FileMetaData) : Prop :=
  match lo with Some b => Compare (start f) b < 0 | None => False end.
Definition above (hi : option bytes) (f : FileMetaData) : Prop :=
  match hi with Some e => 0 < Compare (limit f) e | None => False end.
#[local] Instance below_dec lo f : Decision (below lo f).
Proof. unfold below. destruct lo; apply _. Defined.
#[local] Instance above_dec hi f : Decision (above hi f).
Proof. unfold above. destruct hi; apply _. Defined.

Lemma overlaps_iff lo hi f :
  file_valid f → opt_valid lo → opt_valid hi →
  file_overlaps lo hi f = true ↔
  match lo with Some b => bool_decide (Compare (limit f) b < 0) | None => false end = false ∧
  match hi with Some e => bool_decide (0 < Compare (start f) e) | None => false end = false.
Proof.
  intros Vf Vlo Vhi. unfold file_overlaps. rewrite negb_true_iff, orb_false_iff.
  assert (AfterFile lo f = match lo with Some b => bool_decide (Compare (limit f) b < 0) | None => false end) as ->
    by (destruct lo; [by apply after_iff|done]).
  assert (BeforeFile hi f = match hi with Some e => bool_decide (0 < Compare (start f) e) | None => false end) as ->; [|done].
  destruct hi as [e|]; [|done]. cbn. apply bool_decide_ext. fold (start f).
  destruct (file_user_valid f Vf) as (V1 & _). apply Compare_flip; done.
Qed.

(** What a pass over [fs] ends with. *)
Definition scan_post (level0 : bool) (lo hi : option bytes) (fs inputs : list FileMetaData)
    (r : option bytes * option bytes + list FileMetaData) : Prop :=
  match r with
  | inr res => res = inputs ++ filter (λ f, file_overlaps lo hi f) fs ∧
      (level0 = true → ∀ f, f ∈ fs → file_overlaps lo hi f → ¬ below lo f ∧ ¬ above hi f)
  | inl (lo', hi') => level0 = true ∧ ∃ f, f ∈ fs ∧
      (below lo f ∧ lo' = Some (start f) ∧ hi' = hi ∨ above hi f ∧ lo' = lo ∧ hi' = Some (limit f))
  end.

Lemma scan_post_skip level0 lo hi f fs inputs r :
  ¬ file_overlaps lo hi f → scan_post level0 lo hi fs inputs r → scan_post level0 lo hi (f :: fs) inputs r.
Proof.
  intros Hno. destruct r as [[lo' hi']|res]; cbn [scan_post].
  - intros (? & g & ? & ?). split; [done|]. exists g. split; [by right|done].
  - rewrite filter_cons, decide_False by done. intros [-> Hc]. split; [done|].
    intros Hl g [->|Hg]%elem_of_cons; [done|by apply Hc].
Qed.

Lemma scan_post_take level0 lo hi f fs inputs r :
  file_overlaps lo hi f → (level0 = true → ¬ below lo f ∧ ¬ above hi f) →
  scan_post level0 lo hi fs (inputs ++ [f]) r → scan_post level0 lo hi (f :: fs) inputs r.
Proof.
  intros Ho Hin. destruct r as [[lo' hi']|res]; cbn [scan_post].
  - intros (? & g & ? & ?). split; [done|]. exists g. split; [by right|done].
  - rewrite filter_cons, decide_True by done. intros [-> Hc]. split; [by rewrite <- app_assoc|].
    intros Hl g [->|Hg]%elem_of_cons; [intros _; by apply Hin|by apply Hc].
Qed.

Ltac scan_if E :=
  match goal with |- scan_post _ _ _ _ _ (if ?b then _ else _) => destruct b eqn:E end.

Lemma overlap_scan_spec level0 lo hi fs inputs :
  Forall file_valid fs → opt_valid lo → opt_valid hi →
  scan_post level0 lo hi fs inputs (overlap_scan level0 lo hi fs inputs).
Proof.
  intros HV Vlo Vhi. revert inputs. induction HV as [|f fs Vf HV IH]; intros inputs; cbn [overlap_scan].
  { unfold scan_post. rewrite app_nil_r. split; [done|]. by intros _ f ?%elem_of_nil. }
  fold (start f) (limit f). pose proof (overlaps_iff lo hi f Vf Vlo Vhi) as Ho.
  assert (match hi with Some e => bool_decide (Compare (start f) e > 0) | None => false end =
          match hi with Some e => bool_decide (0 < Compare (start f) e) | None => false end) as ->
    by (destruct hi; [apply bool_decide_ext; lia|done]).
  scan_if E1; [apply scan_post_skip, IH; intros [? _]%Is_true_true%Ho; congruence|].
  scan_if E2; [apply scan_post_skip, IH; intros [_ ?]%Is_true_true%Ho; congruence|].
  assert (match lo with Some b => bool_decide (Compare (start f) b < 0) | None => false end = bool_decide (below lo f)) as ->
    by (by destruct lo; [apply bool_decide_ext|]).
  assert (match hi with Some e => bool_decide (Compare (limit f) e > 0) | None => false end = bool_decide (above hi f)) as ->
    by (by destruct hi; [apply bool_decide_ext; unfold above; lia|]).
  destruct level0; cbn [andb].
  - case_bool_decide as Hb; [|case_bool_decide as Ha].
    + split; [done|]. exists f. split; [by left|]. by left.
    + split; [done|]. exists f. split; [by left|]. by right.
    + apply scan_post_take; [by apply Is_true_true, Ho|done|apply IH].
  - apply scan_post_take; [by apply Is_true_true, Ho|done|apply IH].
Qed.

(** The range that is searched in the end. *)
Definition lo_le (lo' lo : option bytes) : Prop :=
  match lo, lo' with Some b, Some b' => Compare b' b ≤ 0 | None, None => True | _, _ => False end.
Definition hi_le (hi hi' : option bytes) : Prop :=
  match hi, hi' with Some e, Some e' => Compare e e' ≤ 0 | None, None => True | _, _ => False end.

Lemma lo_le_refl lo : opt_valid lo → lo_le lo lo.
Proof. destruct lo; [|done]. intros Vb. cbn. rewrite Compare_refl by done. lia. Qed.
Lemma hi_le_refl hi : opt_valid hi → hi_le hi hi.
Proof. destruct hi; [|done]. intros Vb. cbn. rewrite Compare_refl by done. lia. Qed.

Lemma lo_le_trans a b c : opt_valid a → opt_valid b → opt_valid c → lo_le a b → lo_le b c → lo_le a c.
Proof. unfold opt_valid, lo_le. destruct a, b, c; try done. apply Compare_le_trans. Qed.
Lemma hi_le_trans a b c : opt_valid a → opt_valid b → opt_valid c → hi_le a b → hi_le b c → hi_le a c.
Proof. unfold opt_valid, hi_le. destruct a, b, c; try done. apply Compare_le_trans. Qed.

(** The files that reach over an end; every new start of the search takes one
    away. *)
Definition outside (lo hi : option bytes) : nat :=
  (length (filter (below lo) files) + length (filter (above hi) files))%nat.

Lemma start_valid f : f ∈ files → V (start f) ∧ V (limit f).
Proof. intros Hf. destruct (file_user_valid f (elem_file_valid files files_valid f Hf)) as (? & ? & _). done. Qed.

Lemma outside_below lo hi f :
  opt_valid lo → f ∈ files → below lo f → (outside (Some (start f)) hi < outside lo hi)%nat ∧ lo_le (Some (start f)) lo.
Proof.
  intros Vlo Hf Hb. destruct lo as [b|]; [|done]. destruct (start_valid f Hf) as [Vf _]. cbn in Hb, Vlo.
  split; [|cbn; lia]. unfold outside.
  enough (length (filter (below (Some (start f))) files) < length (filter (below (Some b)) files))%nat by lia.
  apply (filter_length_lt _ _ _ f); [done|done|cbn; rewrite Compare_refl by done; lia|].
  intros x Hx Hxf. destruct (start_valid x Hx) as [Vx _]. cbn in *. by apply (Compare_trans _ (start f)).
Qed.

Lemma outside_above lo hi f :
  opt_valid hi → f ∈ files → above hi f → (outside lo (Some (limit f)) < outside lo hi)%nat ∧ hi_le hi (Some (limit f)).
Proof.
  intros Vhi Hf Ha. destruct hi as [e|]; [|done]. destruct (start_valid f Hf) as [_ Vf]. cbn in Ha, Vhi.
  assert (Compare e (limit f) < 0) as Hlt by (by apply Compare_flip).
  split; [|cbn; lia]. unfold outside.
  enough (length (filter (above (Some (limit f))) files) < length (filter (above (Some e)) files))%nat by lia.
  apply (filter_length_lt _ _ _ f); [done|done|cbn; rewrite Compare_refl by done; lia|].
  intros x Hx Hxf. destruct (start_valid x Hx) as [_ Vx]. cbn in *. apply Compare_flip; [done..|].
  apply Compare_flip in Hxf; [|done..]. by apply (Compare_trans _ (limit f)).
Qed.

(** What the inputs are in terms of the range [lo', hi'] in the end. *)
Definition inputs_spec (level0 : bool) (lo hi : option bytes) (inputs : list FileMetaData) : Prop :=
  ∃ lo' hi', inputs = filter (λ f, file_overlaps lo' hi' f) files ∧ lo_le lo' lo ∧ hi_le hi hi' ∧
    opt_valid lo' ∧ opt_valid hi' ∧
    (level0 = true → ∀ f, f ∈ files → file_overlaps lo' hi' f → ¬ below lo' f ∧ ¬ above hi' f) ∧
    (level0 = false → lo' = lo ∧ hi' = hi).

Lemma overlap_loop_spec fuel level0 lo hi :
  (outside lo hi < fuel)%nat → opt_valid lo → opt_valid hi →
  ∃ inputs, overlap_loop fuel level0 lo hi files = Some inputs ∧ inputs_spec level0 lo hi inputs.
Proof.
  revert lo hi. induction fuel as [|fuel IH]; intros lo hi Hf Vlo Vhi; [lia|]. cbn [overlap_loop].
  pose proof (overlap_scan_spec level0 lo hi files [] files_valid Vlo Vhi) as HP.
  destruct (overlap_scan level0 lo hi files []) as [[lo' hi']|res]; cbn [scan_post] in HP.
  - destruct HP as (-> & f & Hfi & [(Hb & -> & ->)|(Ha & -> & ->)]).
    + destruct (outside_below lo hi f Vlo Hfi Hb) as [Hlt Hle]. destruct (start_valid f Hfi) as [Vf _].
      destruct (IH (Some (start f)) hi) as (inputs & E & lo' & hi' & -> & H1 & H2 & H3 & H4 & H5 & _); [lia|done|done|].
      exists (filter (λ f, file_overlaps lo' hi' f) files). split; [done|]. exists lo', hi'. splits; try done.
      by apply (lo_le_trans lo' (Some (start f)) lo).
    + destruct (outside_above lo hi f Vhi Hfi Ha) as [Hlt Hle]. destruct (start_valid f Hfi) as [_ Vf].
      destruct (IH lo (Some (limit f))) as (inputs & E & lo' & hi' & -> & H1 & H2 & H3 & H4 & H5 & _); [lia|done|done|].
      exists (filter (λ f, file_overlaps lo' hi' f) files). split; [done|]. exists lo', hi'. splits; try done.
      by apply (hi_le_trans hi (Some (limit f)) hi').
  - destruct HP as [-> Hc]. eexists; split; [done|]. exists lo, hi.
    splits; try done; [by apply lo_le_refl|by apply hi_le_refl].
Qed.

Lemma outside_le lo hi : (outside lo hi ≤ 2 * length files)%nat.
Proof.
  unfold outside. pose proof (length_filter (below lo) files). pose proof (length_filter (above hi) files). lia.
Qed.

Definition opt_ikey_valid (k : option bytes) : Prop := match k with Some k => IV k | None => True end.

Lemma GetOverlappingInputs_spec level begin end_ :
  opt_ikey_valid begin → opt_ikey_valid end_ →
  ∃ inputs, GetOverlappingInputs_in level files begin end_ = Some inputs ∧
    inputs_spec (bool_decide (level = 0%nat)) (ExtractUserKey <$> begin) (ExtractUserKey <$> end_) inputs.
Proof.
  intros Vb Ve. unfold GetOverlappingInputs_in. pose proof (outside_le (ExtractUserKey <$> begin) (ExtractUserKey <$> end_)).
  apply overlap_loop_spec; [lia|..].
  - destruct begin as [k|]; [|done]. apply Vb.
  - destruct end_ as [k|]; [|done]. apply Ve.
Qed.

(** The inputs contain every file that overlaps the range that was asked for. *)
Lemma inputs_complete level0 lo hi inputs f :
  inputs_spec level0 lo hi inputs → opt_valid lo → opt_valid hi → f ∈ files → file_overlaps lo hi f → f ∈ inputs.
Proof.
  intros (lo' & hi' & -> & Hlo & Hhi & Vlo' & Vhi' & _) Vlo Vhi Hf Ho. apply list_elem_of_filter. split; [|done].
  pose proof (elem_file_valid files files_valid f Hf) as Vf. destruct (start_valid f Hf) as [Vs Vl].
  apply Is_true_true in Ho. apply overlaps_iff in Ho as [H1 H2]; [|done..]. apply Is_true_true, overlaps_iff; [done..|]. split.
  - destruct lo as [b|], lo' as [b'|]; try done. cbn in *. apply bool_decide_eq_false in H1. apply bool_decide_eq_false.
    intros Hlt. apply H1. by apply (Compare_lt_le_trans _ b').
  - destruct hi as [b|], hi' as [b'|]; try done. cbn in *. apply bool_decide_eq_false in H2. apply bool_decide_eq_false.
    intros Hlt. apply H2. apply Compare_flip; [done..|]. apply Compare_flip in Hlt; [|done..]. by apply (Compare_le_lt_trans _ b').
Qed.

(** In level 0 no other file shares a user key with an input. *)
Lemma inputs_closed lo hi inputs f g :
  inputs_spec true lo hi inputs → f ∈ inputs → g ∈ files → g ∉ inputs →
  Compare (limit g) (start f) < 0 ∨ Compare (limit f) (start g) < 0.
Proof.
  intros (lo' & hi' & -> & _ & _ & Vlo & Vhi & Hc & _) [Hof Hf]%list_elem_of_filter Hg Hng.
  destruct (Hc eq_refl f Hf Hof) as [Hb Ha]. destruct (start_valid f Hf) as [Vs Vl]. destruct (start_valid g Hg) as [Vs' Vl'].
  assert (¬ file_overlaps lo' hi' g) as Hno by (intros Ho; by apply Hng, list_elem_of_filter).
  destruct (decide (match lo' with Some b => bool_decide (Compare (limit g) b < 0) | None => false end = true)) as [E|E].
  - left. destruct lo' as [b|]; [|done]. apply bool_decide_eq_true in E. cbn in Hb, Vlo.
    apply (Compare_lt_le_trans _ b); [done..|]. by apply Compare_nlt.
  - right. destruct (decide (match hi' with Some e => bool_decide (0 < Compare (start g) e) | None => false end = true)) as [E'|E'].
    + destruct hi' as [e|]; [|done]. apply bool_decide_eq_true in E'. cbn in Ha, Vhi.
      apply (Compare_le_lt_trans _ e); [done..| |by apply Compare_flip].
      pose proof (Compare_flip e (limit f) Vhi Vl). destruct (decide (Compare e (limit f) < 0)); lia.
    + destruct Hno. apply Is_true_true, overlaps_iff; [by apply (elem_file_valid files)|done|done|].
      split; by apply not_true_is_false.
Qed.
End Overlap.
End Levels.
