(* ===== verification/VersionRead.v ===== *)
(** Reading from a version: [Version::Get] and the iterators of
    [Version::AddIterators] see the newest entries of all table files.

    What the files hold is a parameter, [content]; [version_ok] is the
    invariant of the levels that reads rely on: files are sorted, the files of
    a level but the first are disjoint, and of two entries of a user key the
    newer one is in the level above or, in level 0, in the file with the larger
    number. *)
From Stdlib Require Import Sorting.Sorted.
From stdpp Require Import gmap.
From S2P Require Import Prelude SortedLists Coding Status Comparator DbFormat Iterator TwoLevelIterator Merger DbIter VersionEdit Version.

Section Read.
Context {C : Comparator} {V : bytes → Prop} {CL : ComparatorLaws C V}.

Abbreviation IKC := (InternalKeyComparator (user_comparator_ := C)).
Abbreviation IV := (ikey_valid (V := V)).
Abbreviation icmp := (Compare (Comparator := IKC)).
Abbreviation ilt := (entry_lt (C := IKC)).

(** The entries of a table file. *)
Context (content : FileMetaData → list entry).

Definition ikey_ok (e : entry) : Prop := IV e.1 ∧ ty e ≤ kTypeValue.

Record file_ok (f : FileMetaData) : Prop := {
  fo_sorted : StronglySorted ilt (content f);
  fo_keys : Forall ikey_ok (content f);
  fo_smallest : fst <$> (head (content f)) = Some (smallest f);
  fo_number : in_w 64 (number f);
  fo_size : in_w 64 (file_size f);
  fo_largest : fst <$> (list.last (content f)) = Some (largest f);
}.

(** The entries of [f] are newer than those of [g]. *)
Definition newer (f g : FileMetaData) : Prop :=
  ∀ a b, a ∈ content f → b ∈ content g → uk a = uk b → tag b < tag a.

Lemma newer_iff f g :
  newer f g ↔ Forall (λ a, Forall (λ b, uk a = uk b → tag b < tag a) (content g)) (content f).
Proof.
  unfold newer. rewrite list.Forall_forall. setoid_rewrite list.Forall_forall. split; eauto.
Qed.

Record version_ok (v : Version) : Prop := {
  vo_levels : length (files_ v) = Z.to_nat kNumLevels;
  vo_files level : Forall file_ok (level_files v level);
  vo_sorted level : (0 < level)%nat → level_sorted (C := C) (level_files v level);
  vo_zero f g : f ∈ level_files v 0 → g ∈ level_files v 0 → number g < number f → newer f g;
  vo_distinct : NoDup (number <$> concat (files_ v));
  vo_newer l l' f g : (l < l')%nat → f ∈ level_files v l → g ∈ level_files v l' → newer f g;
}.

(** What the lookups in the table cache promise: at most the first entry that
    is not before the key, and this entry if it has the user key. *)
Class TableReads (table_cache_Get : Z → Z → bytes → option (Status * option entry)) : Prop := {
  tr_get f k : file_ok f → IV k →
    ∃ saved, table_cache_Get (number f) (file_size f) k = Some (Status_OK, saved) ∧
      (∀ e, saved = Some e → head (entries_from (C := IKC) (content f) k) = Some e) ∧
      (∀ e, head (entries_from (C := IKC) (content f) k) = Some e → ExtractUserKey k = uk e → saved = Some e);
}.

Definition all_entries (v : Version) : list entry := concat (content <$> concat (files_ v)).

Lemma level_sublist v l : level_files v l `sublist_of` concat (files_ v).
Proof.
  unfold level_files. destruct (files_ v !! l) as [fs|] eqn:E.
  - rewrite (nth_lookup_Some _ _ _ _ E). rewrite <- (take_drop_middle _ _ _ E), concat_app. cbn.
    by apply sublist_inserts_l, sublist_inserts_r.
  - rewrite nth_lookup, E. apply sublist_nil_l.
Qed.

Lemma level_NoDup v l : version_ok v → NoDup (number <$> level_files v l).
Proof. intros Hv. eapply sublist_NoDup; [apply (vo_distinct v Hv)|]. apply fmap_sublist, level_sublist. Qed.

(** *** Entries and the bounds of their file *)

Lemma content_elem f e : file_ok f → e ∈ content f → ikey_ok e.
Proof. intros Hf He. pose proof (fo_keys f Hf) as HK. rewrite list.Forall_forall in HK. by apply HK. Qed.

Lemma content_bounds f e :
  file_ok f → e ∈ content f → icmp (smallest f) e.1 ≤ 0 ∧ icmp e.1 (largest f) ≤ 0.
Proof.
  intros Hf He. pose proof (fo_sorted f Hf) as Hs. pose proof (fo_smallest f Hf) as H1. pose proof (fo_largest f Hf) as H2.
  destruct (content_elem f e Hf He) as [Ve _]. apply list_elem_of_lookup in He as [i Hi]. split.
  - rewrite head_lookup in H1. destruct (content f !! 0%nat) as [x|] eqn:Hx; [|done]. injection H1 as <-.
    destruct i as [|i]; [simplify_eq; by rewrite (Compare_refl (C := IKC))|].
    assert (ilt x e) as Hlt by (eapply (sorted_index _ _ 0 (S i)); [done|lia|done..]). unfold entry_lt in Hlt. lia.
  - rewrite last_lookup in H2. destruct (content f !! pred (length (content f))) as [x|] eqn:Hx; [|done]. injection H2 as <-.
    pose proof (lookup_lt_Some _ _ _ Hi). destruct (decide (i = pred (length (content f)))) as [->|Hne].
    + simplify_eq. by rewrite (Compare_refl (C := IKC)).
    + assert (ilt e x) as Hlt by (eapply sorted_index; [exact Hs| |exact Hi|exact Hx]; lia). unfold entry_lt in Hlt. lia.
Qed.

Lemma file_ok_ends f : file_ok f → ∃ a b, a ∈ content f ∧ b ∈ content f ∧ a.1 = smallest f ∧ b.1 = largest f.
Proof.
  intros Hf. pose proof (fo_smallest f Hf) as H1. pose proof (fo_largest f Hf) as H2.
  destruct (head (content f)) as [a|] eqn:Ea; [|done]. destruct (list.last (content f)) as [b|] eqn:Eb; [|done].
  exists a, b. injection H1 as <-. injection H2 as <-. splits; [|by apply last_Some_elem_of|done..].
  rewrite head_lookup in Ea. by eapply list_elem_of_lookup_2.
Qed.

Lemma file_ok_valid f : file_ok f → file_valid (C := C) (V := V) f.
Proof.
  intros Hf. destruct (file_ok_ends f Hf) as (a & b & Ha & Hb & E1 & E2).
  destruct (content_elem f a Hf Ha) as [Va _]. destruct (content_elem f b Hf Hb) as [Vb _].
  destruct (content_bounds f b Hf Hb) as [Hle _]. unfold file_valid. rewrite <- E1, <- E2 in *. done.
Qed.

Lemma content_user_bounds f e :
  file_ok f → e ∈ content f → Compare (start f) (uk e) ≤ 0 ∧ Compare (uk e) (limit f) ≤ 0.
Proof.
  intros Hf He. destruct (content_bounds f e Hf He) as [H1 H2]. destruct (content_elem f e Hf He) as [Ve _].
  destruct (file_ok_valid f Hf) as (V1 & V2 & _). split; (eapply icmp_user_le; [..|done]; done).
Qed.

(** *** The entry that a lookup finds in a file *)

Lemma content_valid f : file_ok f → Forall (λ e, IV e.1) (content f).
Proof. intros Hf. eapply Forall_impl; [|apply (fo_keys f Hf)]. by intros e [? _]. Qed.

Section Lookup.
Context (u : bytes) (s : Z).
Hypothesis Vu : V u.
Hypothesis s_ok : seq_ok s.

Abbreviation K := (seek_key s u).

Definition found (f : FileMetaData) : option entry := head (entries_from (C := IKC) (content f) K).

(** The entry of the user key that is found. *)
Definition hit (f : FileMetaData) : option entry := e ← found f; if decide (uk e = u) then Some e else None.

Lemma K_valid : IV K.
Proof. destruct (seek_key_parts s u s_ok) as (E & _ & ?). split; [done|by rewrite E]. Qed.

Lemma before_K e : ikey_ok e → icmp e.1 K < 0 ↔ Compare (uk e) u < 0 ∨ uk e = u ∧ ¬ seen s e.
Proof. intros [[_ Ve] Ht]. by apply seek_key_before. Qed.

Lemma seen_not_before e : ikey_ok e → uk e = u → seen s e ↔ ¬ icmp e.1 K < 0.
Proof.
  intros He Hu. rewrite (before_K e He). rewrite Hu, Compare_refl by done.
  destruct (decide (seen s e)); intuition lia.
Qed.

Lemma ikey_lt a b : ikey_ok a → ikey_ok b → ilt a b → Compare (uk a) (uk b) < 0 ∨ uk a = uk b ∧ tag b < tag a.
Proof.
  intros [[_ Va] _] [[_ Vb] _] H. unfold entry_lt in H. cbn [Compare InternalKeyComparator] in H.
  rewrite Internal_Compare_lt in H. fold (uk a) (uk b) (tag a) (tag b) in H. by rewrite (Compare_eq (uk a)) in H.
Qed.

Lemma found_spec f e :
  file_ok f → found f = Some e →
  e ∈ content f ∧ ¬ icmp e.1 K < 0 ∧ ∀ x, x ∈ content f → ¬ icmp x.1 K < 0 → x = e ∨ ilt e x.
Proof.
  unfold found. intros Hf He. pose proof (fo_sorted f Hf) as Hs.
  destruct (entries_from (content f) K) as [|a l] eqn:E; [done|]. injection He as ->.
  assert (Hin : ∀ x, x ∈ e :: l ↔ x ∈ content f ∧ ¬ icmp x.1 K < 0)
    by (intros x; rewrite <- E; unfold entries_from; rewrite list_elem_of_filter; tauto).
  destruct (proj1 (Hin e) ltac:(by left)) as [H1 H2]. splits; [done..|].
  intros x Hx Hn. pose proof (proj2 (Hin x) (conj Hx Hn)) as [->|Hxl]%elem_of_cons; [by left|right].
  assert (StronglySorted ilt (e :: l)) as Hel by (rewrite <- E; eapply sorted_sublist; [exact Hs|apply sublist_filter]).
  apply StronglySorted_inv in Hel as [_ Hl]. rewrite list.Forall_forall in Hl. by apply Hl.
Qed.

(** The hit is the newest entry of the user key that is seen in the file. *)
Lemma hit_spec f e :
  file_ok f → hit f = Some e →
  e ∈ content f ∧ uk e = u ∧ seen s e ∧ ∀ x, x ∈ content f → uk x = u → seen s x → x = e ∨ tag x < tag e.
Proof.
  unfold hit. intros Hf He. destruct (found f) as [e'|] eqn:Ef; [|done]. cbn in He. case_decide as Hu; [|done].
  injection He as ->. destruct (found_spec f e Hf Ef) as (H1 & H2 & H3).
  pose proof (content_elem f e Hf H1) as He. splits; [done|done|by apply seen_not_before|].
  intros x Hx Hxu Hxs. pose proof (content_elem f x Hf Hx) as Hxk.
  destruct (H3 x Hx) as [->|Hlt]; [by apply seen_not_before|by left|right].
  apply ikey_lt in Hlt as [Hlt|[_ ?]]; [|done|done|done]. rewrite Hu, Hxu, Compare_refl in Hlt by done. lia.
Qed.

(** An entry between the key and an entry of the user key has the user key. *)
Lemma between e x :
  ikey_ok e → ikey_ok x → ¬ icmp e.1 K < 0 → icmp e.1 x.1 ≤ 0 → uk x = u → uk e = u.
Proof.
  intros He Hx Hn Hle Hu. rewrite (before_K e He) in Hn. pose proof He as [Ve _]. pose proof Hx as [Vx _].
  pose proof (icmp_user_le _ _ Ve Vx Hle) as Hc. fold (uk e) (uk x) in Hc. rewrite Hu in Hc.
  apply Compare_antisym; [apply Ve|done|done|]. apply Compare_nlt; [apply Ve|done|tauto].
Qed.

Lemma hit_some f x :
  file_ok f → x ∈ content f → uk x = u → seen s x → ∃ e, hit f = Some e ∧ (x = e ∨ tag x < tag e).
Proof.
  intros Hf Hx Hu Hs. pose proof (content_elem f x Hf Hx) as Hxk.
  assert (Hxn : ¬ icmp x.1 K < 0) by (by apply seen_not_before).
  destruct (found f) as [e|] eqn:Ef.
  - destruct (found_spec f e Hf Ef) as (H1 & H2 & H3). pose proof (content_elem f e Hf H1) as He.
    assert (uk e = u) as Heu.
    { apply (between e x); [done..| |done]. destruct (H3 x Hx Hxn) as [->|Hlt]; [|unfold entry_lt in Hlt; lia].
      rewrite (Compare_refl (C := IKC)); [lia|apply He]. }
    assert (hit f = Some e) as Hh by (unfold hit; rewrite Ef; cbn; by rewrite decide_True).
    exists e. split; [done|]. destruct (hit_spec f e Hf Hh) as (_ & _ & _ & H). by apply H.
  - unfold found in Ef. destruct (entries_from (content f) K) as [|a l] eqn:E; [|done].
    assert (x ∈ entries_from (C := IKC) (content f) K) as Hin by (unfold entries_from; by apply list_elem_of_filter).
    rewrite E in Hin. by apply elem_of_nil in Hin.
Qed.

(** *** The files that are searched *)

Context (v : Version).
Hypothesis v_ok : version_ok v.

Lemma level_file_ok l f : f ∈ level_files v l → file_ok f.
Proof. intros Hf. pose proof (vo_files v v_ok l) as H. rewrite list.Forall_forall in H. by apply H. Qed.

Lemma level_valid l : Forall (file_valid (C := C) (V := V)) (level_files v l).
Proof. eapply Forall_impl; [|apply (vo_files v v_ok l)]. apply file_ok_valid. Qed.

Lemma elem_insert_newest f g l : g ∈ insert_newest f l ↔ g = f ∨ g ∈ l.
Proof.
  induction l as [|x l IH]; cbn [insert_newest]; [by rewrite list_elem_of_singleton, elem_of_nil; intuition|].
  destruct (NewestFirst f x); rewrite !elem_of_cons; [done|]. rewrite IH. tauto.
Qed.

Lemma elem_sort_newest g l : g ∈ sort_newest l ↔ g ∈ l.
Proof.
  induction l as [|x l IH]; cbn [sort_newest foldr]; [done|]. fold (sort_newest l).
  by rewrite elem_insert_newest, IH, elem_of_cons.
Qed.

Lemma insert_newest_sorted f l :
  StronglySorted (λ a b, number b < number a) l → number f ∉ number <$> l →
  StronglySorted (λ a b, number b < number a) (insert_newest f l).
Proof.
  induction 1 as [|x l Hs IH Hx]; cbn [insert_newest]; intros Hn; [by repeat constructor|].
  cbn in Hn. apply not_elem_of_cons in Hn as [Hfx Hn]. unfold NewestFirst. case_bool_decide as Hc.
  - constructor; [by constructor|]. constructor; [lia|]. eapply Forall_impl; [|exact Hx]. cbn. lia.
  - constructor; [by apply IH|]. apply list.Forall_forall. intros g [->|Hg]%elem_insert_newest; [lia|].
    rewrite list.Forall_forall in Hx. by apply Hx.
Qed.

Lemma sort_newest_sorted l :
  NoDup (number <$> l) → StronglySorted (λ a b, number b < number a) (sort_newest l).
Proof.
  induction l as [|x l IH]; cbn [sort_newest foldr fmap list_fmap]; [constructor|].
  fold (sort_newest l). intros [Hn Hd]%list.NoDup_cons. apply insert_newest_sorted; [by apply IH|].
  intros (g & Hng & Hg)%list_elem_of_fmap. apply (proj1 (elem_sort_newest _ _)) in Hg. apply Hn. rewrite Hng. by apply (list_elem_of_fmap_2 number).
Qed.

Lemma search_files_elem l f : f ∈ search_files v u K l → f ∈ level_files v l.
Proof.
  unfold search_files. case_decide as Hl.
  - by intros [_ ?]%elem_sort_newest%list_elem_of_filter.
  - destruct (level_files v l !! FindFile _ K) as [g|] eqn:E; [|by intros ?%elem_of_nil].
    case_decide; [by intros ?%elem_of_nil|]. intros ->%list_elem_of_singleton. by eapply list_elem_of_lookup_2.
Qed.

Lemma search_files_sorted l : StronglySorted newer (search_files v u K l).
Proof.
  unfold search_files. case_decide as Hl; [|repeat case_match; repeat constructor].
  subst. set (fs := filter _ _). assert (fs `sublist_of` level_files v 0) as Hsub by apply sublist_filter.
  assert (StronglySorted (λ a b, number b < number a) (sort_newest fs)) as Hs.
  { apply sort_newest_sorted. eapply sublist_NoDup; [apply (level_NoDup v 0 v_ok)|]. apply fmap_sublist, Hsub. }
  assert (Hin : ∀ f, f ∈ sort_newest fs → f ∈ level_files v 0)
    by (by intros f [_ ?]%elem_sort_newest%list_elem_of_filter).
  apply sorted_by_index. intros i j f g Hij Hf Hg. apply (vo_zero v v_ok).
  - apply Hin. by eapply list_elem_of_lookup_2.
  - apply Hin. by eapply list_elem_of_lookup_2.
  - by eapply (sorted_index _ _ i j f g Hs).
Qed.

Lemma start_le_limit f : file_ok f → V (start f) ∧ V (limit f) ∧ Compare (start f) (limit f) ≤ 0.
Proof. intros Hf. by apply file_user_valid, file_ok_valid. Qed.

(** If a file of a level has a seen entry of the user key, the search of the
    level meets one that is as new. *)
Lemma search_files_hit l g x :
  g ∈ level_files v l → x ∈ content g → uk x = u → seen s x →
  ∃ f e, f ∈ search_files v u K l ∧ hit f = Some e ∧ (x = e ∨ tag x < tag e).
Proof.
  intros Hg Hx Hu Hs. pose proof (level_file_ok l g Hg) as Gok. pose proof (content_elem g x Gok Hx) as Hxk.
  destruct (content_user_bounds g x Gok Hx) as [Hb1 Hb2]. rewrite Hu in Hb1, Hb2.
  destruct (start_le_limit g Gok) as (V1 & V2 & _).
  destruct (decide (l = 0%nat)) as [->|Hl].
  { destruct (hit_some g x Gok Hx Hu Hs) as (e & He & Ht). exists g, e. splits; [|done|done].
    unfold search_files. rewrite decide_True by done. apply elem_sort_newest, list_elem_of_filter. split; [|done].
    unfold in_user_range. fold (start g) (limit g). apply Is_true_true, andb_true_iff.
    split; apply bool_decide_eq_true; [|done]. by apply Compare_sgn_flip. }
  apply list_elem_of_lookup in Hg as [j Hj].
  pose proof (vo_sorted v v_ok l ltac:(lia)) as Hsort.
  destruct (FindFile_spec _ (level_valid l) Hsort K (K_valid)) as (Hi & Hi1 & Hi2).
  set (i := FindFile (level_files v l) K) in *.
  assert (Hxn : ¬ icmp x.1 K < 0) by (by apply (seen_not_before)).
  destruct (content_bounds g x Gok Hx) as [Hc1 Hc2].
  destruct (file_ok_valid g Gok) as (G1 & G2 & _). pose proof Hxk as [Vx _].
  assert (i ≤ j)%nat as Hij.
  { destruct (decide (i ≤ j)%nat); [done|]. exfalso. specialize (Hi1 j g ltac:(lia) Hj). apply Hxn.
    eapply (Compare_le_lt_trans (C := IKC)); [..|exact Hi1]; [done|done|by apply K_valid|done]. }
  destruct (lookup_lt_is_Some_2 (level_files v l) i) as [f Hf]; [apply lookup_lt_Some in Hj; lia|].
  pose proof (level_file_ok l f (list_elem_of_lookup_2 _ _ _ Hf)) as Fok. specialize (Hi2 f Hf).
  destruct (start_le_limit f Fok) as (V3 & V4 & V5).
  assert (∃ y, y ∈ content f ∧ uk y = u ∧ seen s y ∧ (x = y ∨ tag x < tag y)) as (y & Hy & Hyu & Hys & Hxy).
  { destruct (decide (i = j)) as [->|Hne]; [simplify_eq; exists x; splits; [done..|by left]|].
    destruct (file_ok_ends f Fok) as (_ & y & _ & Hy & _ & Ey). exists y.
    pose proof (content_elem f y Fok Hy) as Hyk.
    pose proof (sorted_index _ _ i j f g Hsort ltac:(lia) Hf Hj) as Hlt. cbn beta in Hlt. rewrite <- Ey in Hi2, Hlt.
    assert (ilt y x) as Hyx.
    { unfold entry_lt. eapply (Compare_lt_le_trans (C := IKC)); [..|exact Hlt|exact Hc1]; [apply Hyk|done|done]. }
    assert (uk y = u) as Hyu by (apply (between y x); [done|done|done|unfold entry_lt in Hyx; lia|done]).
    splits; [done|done|by apply (seen_not_before)|].
    apply ikey_lt in Hyx as [Hyx|[_ ?]]; [|by right|done|done]. rewrite Hyu, Hu, Compare_refl in Hyx by done. lia. }
  destruct (hit_some f y Fok Hy Hyu Hys) as (e & He & Ht). exists f, e. splits; [|done|].
  2: { destruct Hxy as [->|?]; [done|]. right. destruct Ht as [->|?]; lia. }
  unfold search_files. rewrite decide_False by done. fold i. rewrite Hf.
  destruct (content_user_bounds f y Fok Hy) as [Hb _]. rewrite Hyu in Hb. fold (start f).
  rewrite decide_False; [by apply list_elem_of_singleton|]. by apply Compare_nlt.
Qed.

(** *** The order of the search *)

Lemma search_order_elem p : p ∈ search_order v u K ↔ (p.2 < Z.to_nat kNumLevels)%nat ∧ p.1 ∈ search_files v u K p.2.
Proof.
  unfold search_order. rewrite list_elem_of_join. split.
  - intros (l & Hp & (level & -> & Hl%elem_of_seq)%list_elem_of_fmap).
    apply list_elem_of_fmap in Hp as (f & -> & Hf). split; [cbn; lia|done].
  - intros [Hl Hf]. eexists. split; [|apply list_elem_of_fmap; exists p.2; split; [done|apply elem_of_seq; lia]].
    apply list_elem_of_fmap. exists p.1. by destruct p.
Qed.

Lemma join_sorted {A B} (R : B → B → Prop) (h : A → list B) ls :
  StronglySorted (λ a b, ∀ x y, x ∈ h a → y ∈ h b → R x y) ls → (∀ a, StronglySorted R (h a)) →
  StronglySorted R (mjoin (h <$> ls)).
Proof.
  intros Hs Hh. induction Hs as [|a ls Hs IH Ha]; [constructor|]. cbn. apply sorted_app. splits; [done|done|].
  intros x y Hx (l & Hy & (b & -> & Hb)%list_elem_of_fmap)%list_elem_of_join.
  rewrite list.Forall_forall in Ha. by eapply Ha.
Qed.

Lemma search_order_sorted : StronglySorted (λ p q, newer p.1 q.1) (search_order v u K).
Proof.
  unfold search_order. apply join_sorted.
  - apply sorted_by_index. intros i j a b Hij [-> _]%lookup_seq [-> _]%lookup_seq x y.
    intros (f & -> & Hf%search_files_elem)%list_elem_of_fmap (g & -> & Hg%search_files_elem)%list_elem_of_fmap. cbn.
    apply (vo_newer v v_ok (0 + i) (0 + j)); [lia|done..].
  - intros l. apply sorted_by_index. intros i j x y Hij Hx Hy. rewrite list_lookup_fmap in Hx, Hy.
    apply fmap_Some in Hx as (f & Hf & ->). apply fmap_Some in Hy as (g & Hg & ->). cbn.
    by apply (sorted_index _ _ i j f g (search_files_sorted l)).
Qed.

(** *** The loop of [Get] *)

Context (table_cache_Get : Z → Z → bytes → option (Status * option entry)).
Context {TR : TableReads table_cache_Get}.

Lemma SaveValue_ok e value :
  ikey_ok e →
  SaveValue u e.1 e.2 value =
    if decide (uk e = u) then if decide (ty e = kTypeValue) then (kFound, e.2) else (kDeleted, value)
    else (kNotFound, value).
Proof.
  intros [[Hl Ve] Ht]. unfold SaveValue. rewrite parse_valid by done. cbn [parsed DbFormat.user_key type].
  destruct (decide (uk e = u)) as [Hu|Hu].
  - rewrite decide_True; [done|]. rewrite Hu. by apply Compare_refl.
  - rewrite decide_False; [done|]. by rewrite Compare_eq.
Qed.

(** What the first hit of a list of files gives. *)
Definition loop_result (value : bytes) (l : list (FileMetaData * nat)) (r : Status) (value' : bytes) : Prop :=
  (Forall (λ p, hit p.1 = None) l ∧ r = NotFound [] [] ∧ value' = value) ∨
  ∃ l1 p l2 e, l = l1 ++ p :: l2 ∧ Forall (λ p, hit p.1 = None) l1 ∧ hit p.1 = Some e ∧
    (ty e = kTypeValue ∧ r = Status_OK ∧ value' = e.2 ∨
     ty e ≠ kTypeValue ∧ r = NotFound [] [] ∧ value' = value).

Lemma loop_result_skip value p l r value' :
  hit p.1 = None → loop_result value l r value' → loop_result value (p :: l) r value'.
Proof.
  intros Hp [(Hl & ?)|(l1 & q & l2 & e & -> & Hl & H)]; [left; split; [by constructor|done]|right].
  exists (p :: l1), q, l2, e. split; [done|]. split; [by constructor|done].
Qed.

Lemma Get_loop_ok value last stats l :
  Forall (λ p, file_ok p.1) l →
  ∃ r value' stats', Get_loop (user_comparator := C) table_cache_Get u K value last stats l = Some (r, value', stats') ∧
    loop_result value l r value'.
Proof.
  intros Hl. revert last stats. induction Hl as [|[f level] l Hf _ IH]; intros last stats; cbn [Get_loop].
  { eexists _, _, _. split; [done|]. by left. }
  cbn zeta. set (stats' := match last with Some _ => _ | None => _ end). cbn in Hf.
  destruct (tr_get f K Hf K_valid) as (saved & -> & H1 & H2). cbn [mbind option_bind].
  assert (hit f = None → ∃ r value' st, Get_loop (user_comparator := C) table_cache_Get u K value (Some (f, level)) stats' l =
    Some (r, value', st) ∧ loop_result value ((f, level) :: l) r value') as Hskip.
  { intros Hn. destruct (IH (Some (f, level)) stats') as (r & value' & st & -> & Hr). exists r, value', st.
    split; [done|]. by apply loop_result_skip. }
  destruct saved as [[k v0]|].
  2:{ cbn [negb ok Status_OK]. apply Hskip. unfold hit, found. destruct (head _) as [e|] eqn:E; [|done].
      cbn. case_decide as Hu; [|done]. specialize (H2 e eq_refl). destruct (seek_key_parts s u s_ok) as (Eu & _ & _).
      rewrite Eu in H2. by specialize (H2 (eq_sym Hu)). }
  set (e := (k, v0)). specialize (H1 e eq_refl). change (found f = Some e) in H1. destruct (found_spec f e Hf H1) as (He & _).
  pose proof (content_elem f e Hf He) as Hek. change k with e.1. change v0 with e.2. rewrite (SaveValue_ok e) by done.
  assert (hit f = if decide (uk e = u) then Some e else None) as Hhit by (unfold hit; by rewrite H1).
  destruct (decide (uk e = u)) as [Hu|Hu]; [|by apply Hskip].
  assert (∀ r value', (ty e = kTypeValue ∧ r = Status_OK ∧ value' = e.2 ∨ ty e ≠ kTypeValue ∧ r = NotFound [] [] ∧ value' = value) →
    loop_result value ((f, level) :: l) r value') as Hres by (intros; right; by exists [], (f, level), l, e).
  destruct (decide (ty e = kTypeValue)); cbn [negb ok Status_OK]; eexists _, _, _; (split; [done|]); apply Hres; tauto.
Qed.
End Lookup.

(** *** [Get] *)

Lemma level_of v e : e ∈ all_entries v → version_ok v → ∃ l g, (l < Z.to_nat kNumLevels)%nat ∧ g ∈ level_files v l ∧ e ∈ content g.
Proof.
  intros (es & He & (g & -> & Hg)%list_elem_of_fmap)%elem_of_concat Hv.
  apply elem_of_concat in Hg as (fs & Hg & [l Hl]%list_elem_of_lookup).
  exists l, g. pose proof (lookup_lt_Some _ _ _ Hl) as Hlt. rewrite (vo_levels v Hv) in Hlt. splits; [done| |done].
  unfold level_files. by rewrite (nth_lookup_Some _ _ _ _ Hl).
Qed.

Lemma level_entry v l g e : g ∈ level_files v l → e ∈ content g → e ∈ all_entries v.
Proof.
  unfold level_files, all_entries. intros Hg He. apply elem_of_concat. exists (content g). split; [done|].
  apply list_elem_of_fmap_2, elem_of_concat. destruct (files_ v !! l) as [fs|] eqn:E.
  - exists fs. rewrite (nth_lookup_Some _ _ _ _ E) in Hg. split; [done|]. by eapply list_elem_of_lookup_2.
  - rewrite nth_lookup, E in Hg. by apply elem_of_nil in Hg.
Qed.

Lemma view_elem s es u val :
  (u, val) ∈ user_view s es ↔ ∃ e, e ∈ es ∧ visible s es e ∧ uk e = u ∧ e.2 = val.
Proof.
  unfold user_view. rewrite list_elem_of_fmap. split.
  - intros (e & He & [Hv Hin]%list_elem_of_filter). injection He as -> ->. by exists e.
  - intros (e & Hin & Hv & <- & <-). exists e. split; [done|]. by apply list_elem_of_filter.
Qed.

(** The newest entry of a user key that is seen decides what the view shows. *)
Lemma view_newest s es e :
  e ∈ es → seen s e → (∀ x, x ∈ es → uk x = uk e → seen s x → x = e ∨ tag x < tag e) →
  ∀ val, (uk e, val) ∈ user_view s es ↔ ty e = kTypeValue ∧ val = e.2.
Proof.
  intros Hin Hs Hmax val. rewrite view_elem. split.
  - intros (x & Hx & (Hxs & Ht & Hxmax) & Hu & <-). rewrite list.Forall_forall in Hxmax.
    destruct (Hmax x Hx Hu Hxs) as [->|Hlt]; [done|]. specialize (Hxmax e Hin (eq_sym Hu) Hs). lia.
  - intros [Ht ->]. exists e. splits; [done|split; [done|split; [done|]]|done|done].
    apply list.Forall_forall. intros x Hx Hu Hxs. destruct (Hmax x Hx Hu Hxs) as [->|?]; lia.
Qed.

Lemma view_none s es u : (∀ x, x ∈ es → uk x = u → ¬ seen s x) → ∀ val, (u, val) ∉ user_view s es.
Proof. intros Hn val (x & Hx & (Hs & _) & Hu & _)%view_elem. by apply (Hn x). Qed.

(** Every seen entry of the user key is a hit or older than one. *)
Lemma search_order_hit v u s x :
  version_ok v → V u → seq_ok s → x ∈ all_entries v → uk x = u → seen s x →
  ∃ p e, p ∈ search_order v u (seek_key s u) ∧ hit u s p.1 = Some e ∧ (x = e ∨ tag x < tag e).
Proof.
  intros Hv Vu Hs Hx Hu Hxs. destruct (level_of v x Hx Hv) as (l & g & Hl & Hg & Hxg).
  destruct (search_files_hit u s Vu Hs v Hv l g x Hg Hxg Hu Hxs) as (f & e & Hf & He & Ht).
  exists (f, l), e. splits; [|done|done]. by apply search_order_elem.
Qed.

Lemma search_order_ok v u s : version_ok v → Forall (λ p, file_ok p.1) (search_order v u (seek_key s u)).
Proof.
  intros Hv. apply list.Forall_forall. intros p [_ Hp%search_files_elem]%search_order_elem. by eapply level_file_ok.
Qed.

(** The first hit is the newest entry of the user key that is seen. *)
Lemma first_hit_newest v u s l1 p l2 e :
  version_ok v → V u → seq_ok s → search_order v u (seek_key s u) = l1 ++ p :: l2 →
  Forall (λ p, hit u s p.1 = None) l1 → hit u s p.1 = Some e →
  e ∈ all_entries v ∧ uk e = u ∧ seen s e ∧ ∀ x, x ∈ all_entries v → uk x = u → seen s x → x = e ∨ tag x < tag e.
Proof.
  intros Hv Vu Hs Hl Hn He. pose proof (search_order_ok v u s Hv) as Hok. rewrite list.Forall_forall in Hok, Hn.
  assert (p ∈ search_order v u (seek_key s u)) as Hp by (rewrite Hl; apply elem_of_app; right; by left).
  destruct (hit_spec u s Vu Hs p.1 e (Hok p Hp) He) as (H1 & H2 & H3 & H4).
  assert (Hlev : p.1 ∈ level_files v p.2) by (by apply search_order_elem in Hp as [_ ?%search_files_elem]).
  splits; [by eapply level_entry|done|done|]. intros x Hx Hxu Hxs.
  destruct (level_of v x Hx Hv) as (l & g & Hll & Hg & Hxg).
  destruct (search_order_hit v u s x Hv Vu Hs Hx Hxu Hxs) as (q & y & Hq & Hy & Ht).
  destruct (hit_spec u s Vu Hs q.1 y (Hok q Hq) Hy) as (Y1 & Y2 & Y3 & _).
  pose proof Hq as Hq'. rewrite Hl in Hq. apply elem_of_app in Hq as [Hq|Hq].
  { by rewrite (Hn q Hq) in Hy. }
  apply elem_of_cons in Hq as [->|Hq].
  - rewrite He in Hy. injection Hy as <-. done.
  - right. pose proof (search_order_sorted u s v Hv) as Hs'. rewrite Hl in Hs'.
    apply sorted_app in Hs' as (_ & [_ Hp']%StronglySorted_inv & _). rewrite list.Forall_forall in Hp'.
    pose proof (Hp' q Hq e y H1 Y1 (eq_trans H2 (eq_sym Y2))). destruct Ht as [->|?]; lia.
Qed.

Lemma first_hit_none v u s :
  version_ok v → V u → seq_ok s → Forall (λ p, hit u s p.1 = None) (search_order v u (seek_key s u)) →
  ∀ x, x ∈ all_entries v → uk x = u → ¬ seen s x.
Proof.
  intros Hv Vu Hs Hn x Hx Hu Hxs. destruct (search_order_hit v u s x Hv Vu Hs Hx Hu Hxs) as (p & e & Hp & He & _).
  rewrite list.Forall_forall in Hn. by rewrite (Hn p Hp) in He.
Qed.

(** ** The iterators over a version *)

Section Iterate.
Context {I : Type} {II : Iterator I} {rel : I → list entry → option nat → Prop}.
Context {IL : IteratorLaws (C := IKC) I IV rel}.
Context (table_cache_NewIterator : Z → Z → option I).

(** What the iterators of the table cache promise. *)
Class TableIterators : Prop := {
  ti_open f : file_ok f → ∃ it p, table_cache_NewIterator (number f) (file_size f) = Some it ∧ rel it (content f) p;
}.

Context {TI : TableIterators} (fuel : nat).

Section Concat.
Context (files : list FileMetaData).
Hypothesis files_ok : Forall file_ok files.
Hypothesis files_sorted : level_sorted (C := C) files.
Hypothesis files_distinct : NoDup (number <$> files).
Hypothesis files_fuel : (length files < fuel)%nat.

(** The entries behind a value of the index. *)
Definition value_entries (v : bytes) : list entry :=
  match list_find (λ f, file_value f = v) files with Some (_, f) => content f | None => [] end.

Lemma file_value_parts f :
  file_ok f → zlen (file_value f) = 16 ∧ DecodeFixed64 (file_value f) = number f ∧
  DecodeFixed64 (zdrop 8 (file_value f)) = file_size f.
Proof.
  intros Hf. pose proof (fo_number f Hf). pose proof (fo_size f Hf). unfold file_value.
  rewrite zlen_app, !zlen_EncodeFixed64. splits; [done|by apply DecodeFixed64_EncodeFixed64|].
  rewrite zdrop_app_n by by rewrite zlen_EncodeFixed64.
  rewrite <- (app_nil_r (EncodeFixed64 (file_size f))). by apply DecodeFixed64_EncodeFixed64.
Qed.

Lemma files_elem_ok f : f ∈ files → file_ok f.
Proof. intros Hf. rewrite list.Forall_forall in files_ok. by apply files_ok. Qed.

Lemma value_entries_file i f : files !! i = Some f → value_entries (file_value f) = content f.
Proof.
  intros Hf. unfold value_entries.
  assert (list_find (λ g, file_value g = file_value f) files = Some (i, f)) as ->; [|done].
  apply list_find_Some. splits; [done|done|]. intros j g Hg Hj He.
  destruct (file_value_parts f) as (_ & Ef & _); [apply files_elem_ok; by eapply list_elem_of_lookup_2|].
  destruct (file_value_parts g) as (_ & Eg & _); [apply files_elem_ok; by eapply list_elem_of_lookup_2|].
  assert (j = i) as ->; [|lia]. eapply NoDup_lookup; [exact files_distinct|rewrite list_lookup_fmap..].
  - by rewrite Hg.
  - rewrite Hf. cbn. by rewrite <- Ef, <- Eg, He.
Qed.

Lemma level_entries_fmap i e :
  level_entries files !! i = Some e → ∃ f, files !! i = Some f ∧ e = (largest f, file_value f).
Proof. rewrite level_entries_lookup. intros (f & Hf & ->)%fmap_Some. by exists f. Qed.

Lemma files_all_valid : Forall (file_valid (C := C) (V := V)) files.
Proof. eapply Forall_impl; [|exact files_ok]. apply file_ok_valid. Qed.

Lemma level_index_ok : index_ok (C := IKC) (V := IV) (level_entries files) value_entries.
Proof.
  pose proof files_all_valid as HV. split.
  - by apply (largest_sorted (V := V)).
  - by apply largest_valid.
  - intros i e (f & Hf & ->)%level_entries_fmap. cbn [fst snd]. rewrite (value_entries_file i f Hf).
    pose proof (files_elem_ok f (list_elem_of_lookup_2 _ _ _ Hf)) as Fok. split; [apply Fok|by apply content_valid].
  - intros i e x (f & Hf & ->)%level_entries_fmap. cbn [fst snd]. rewrite (value_entries_file i f Hf). intros Hx.
    apply (content_bounds f x); [|done]. by apply files_elem_ok, (list_elem_of_lookup_2 _ i).
  - intros i j e e' x (f & Hf & ->)%level_entries_fmap (g & Hg & ->)%level_entries_fmap.
    cbn [fst snd]. rewrite (value_entries_file j g Hg). intros Hij Hx.
    pose proof (files_elem_ok f (list_elem_of_lookup_2 _ _ _ Hf)) as Fok.
    pose proof (files_elem_ok g (list_elem_of_lookup_2 _ _ _ Hg)) as Gok.
    pose proof (sorted_index _ files i j f g files_sorted Hij Hf Hg) as Hlt. cbn beta in Hlt.
    destruct (file_ok_valid f Fok) as (_ & V1 & _). destruct (file_ok_valid g Gok) as (V2 & _ & _).
    destruct (content_elem g x Gok Hx) as [Vx _].
    eapply (Compare_lt_le_trans (C := IKC)); [exact V1|exact V2|exact Vx|exact Hlt|]. by apply (content_bounds g x).
Qed.

Abbreviation erel := (λ (it : EmptyIterator) (es : list entry) (p : option nat), it = NewEmptyIterator ∧ es = [] ∧ p = None).

Lemma level_blocks_ok :
  blocks_ok (C := IKC) (V := IV) (block_function := GetFileIterator table_cache_NewIterator) (fuel := fuel)
    (rel2 := sum_rel erel rel) (level_entries files) value_entries.
Proof.
  split; [apply level_index_ok|by rewrite length_level_entries|].
  intros e [i (f & Hf & ->)%level_entries_fmap]%list_elem_of_lookup. cbn [snd].
  rewrite (value_entries_file i f Hf). pose proof (files_elem_ok f (list_elem_of_lookup_2 _ _ _ Hf)) as Fok.
  destruct (file_value_parts f Fok) as (E1 & E2 & E3). destruct (ti_open f Fok) as (it & p & Hit & HR).
  exists (inr it), p. unfold GetFileIterator. rewrite E1, E2, E3, decide_False by tauto. by rewrite Hit.
Qed.

Lemma flat_level : flat (level_entries files) value_entries = concat (content <$> files).
Proof.
  unfold flat. f_equal. apply list_eq. intros i. rewrite !list_lookup_fmap. unfold level_entries.
  rewrite list_lookup_fmap. destruct (files !! i) as [f|] eqn:Hf; [|done]. cbn [fmap option_fmap option_map snd].
  by rewrite (value_entries_file i f Hf).
Qed.

Definition concat_rel := tl_rel (rel1 := lfn_rel (C := C) (V := V)) (rel2 := sum_rel erel rel) (C := IKC) (V := IV)
  (II := LevelFileNumIterator_Iterator (user_comparator := C))
  (block_function := GetFileIterator table_cache_NewIterator) (fuel := fuel).

Lemma NewConcatenatingIterator_rel :
  ∃ it, NewConcatenatingIterator_of (user_comparator := C) files = Some it ∧ concat_rel it (concat (content <$> files)) None.
Proof.
  rewrite <- flat_level. unfold NewConcatenatingIterator_of.
  apply (NewTwoLevelIterator_rel (C := IKC) (V := IV) (rel1 := lfn_rel (C := C) (V := V))); [apply level_blocks_ok|].
  unfold lfn_rel. splits; [apply files_all_valid|done|done|done].
Qed.
End Concat.

(** *** [AddIterators] *)

Abbreviation irel := (sum_rel rel concat_rel).
Abbreviation gives := (λ it l, ∃ p, irel it l p).

Lemma open_files files :
  Forall file_ok files →
  ∃ its, mapM (λ f, table_cache_NewIterator (number f) (file_size f)) files = Some its ∧
    Forall2 gives (inl <$> its) (content <$> files).
Proof.
  induction 1 as [|f files Hf _ (its & E & IH)]; [by exists []|].
  destruct (ti_open f Hf) as (it & p & Hit & HR). exists (it :: its). cbn [mapM]. rewrite Hit. cbn [mbind option_bind].
  rewrite E. split; [done|]. constructor; [by exists p|done].
Qed.

Definition level_content (v : Version) (l : nat) : list entry := concat (content <$> level_files v l).

Lemma open_levels v levels :
  version_ok v → (∀ l, length (level_files v l) < fuel)%nat → Forall (λ l, 0 < l)%nat levels →
  ∃ its, mapM (NewConcatenatingIterator (user_comparator := C) v) levels = Some its ∧
    Forall2 gives (inr <$> its) (level_content v <$> levels).
Proof.
  intros Hv Hfuel. induction 1 as [|l levels Hl _ (its & E & IH)]; [by exists []|]. cbn [mapM].
  destruct (NewConcatenatingIterator_rel (level_files v l)) as (it & Hit & HR);
    [apply (vo_files v Hv)|by apply (vo_sorted v Hv)|by apply level_NoDup|apply Hfuel|].
  exists (it :: its). change (NewConcatenatingIterator v l) with (NewConcatenatingIterator_of (user_comparator := C) (I := I) (level_files v l)).
  rewrite Hit. cbn [mbind option_bind].
  rewrite E. split; [done|]. constructor; [by exists None|done].
Qed.

Lemma concat_nonempty {A B} (h : A → list B) (P : A → Prop) `{!∀ x, Decision (P x)} l :
  (∀ x, ¬ P x → h x = []) → concat (h <$> filter P l) = concat (h <$> l).
Proof.
  intros Hn. induction l as [|x l IH]; [done|]. rewrite filter_cons. cbn [fmap list_fmap concat].
  case_decide as Hx; cbn [fmap list_fmap concat]; rewrite IH; [done|]. by rewrite (Hn x Hx).
Qed.

Lemma all_entries_levels v :
  version_ok v → all_entries v = concat (level_content v <$> seq 0 (Z.to_nat kNumLevels)).
Proof.
  intros Hv. unfold all_entries. rewrite <- (files_levels v) by apply Hv.
  unfold level_content. generalize (seq 0 (Z.to_nat kNumLevels)) as ls. intros ls.
  induction ls as [|l ls IH]; [done|]. cbn [fmap list_fmap concat]. by rewrite fmap_app, concat_app, IH.
Qed.

(** The iterators of a version give, together, its entries. *)
Lemma AddIterators_rel v iters ls0 :
  version_ok v → (∀ l, length (level_files v l) < fuel)%nat → Forall2 gives iters ls0 →
  ∃ iters' ls, AddIterators (user_comparator := C) table_cache_NewIterator v iters = Some iters' ∧
    Forall2 gives iters' (ls0 ++ ls) ∧ concat ls = all_entries v.
Proof.
  intros Hv Hfuel H0. unfold AddIterators.
  destruct (open_files (level_files v 0)) as (zero & -> & Hz); [apply (vo_files v Hv)|]. cbn [mbind option_bind].
  set (levels := filter _ (seq 1 _)).
  destruct (open_levels v levels Hv Hfuel) as (above & -> & Ha).
  { apply list.Forall_forall. intros l [_ ?%elem_of_seq]%list_elem_of_filter. lia. }
  cbn [mbind option_bind]. eexists _, _. split; [done|]. split; [apply List.Forall2_app; [exact H0|apply List.Forall2_app; [exact Hz|exact Ha]]|].
  rewrite (all_entries_levels v Hv), concat_app. unfold levels. rewrite concat_nonempty; [done|].
  intros l Hl. apply dec_stable in Hl. unfold level_content. by rewrite Hl.
Qed.
End Iterate.

(** A lookup in a version finds what an iterator over it shows. *)
Lemma Get_view v u s value es table_cache_Get :
  version_ok v → TableReads table_cache_Get → V u → seq_ok s → zlen u + 8 < 2 ^ 32 → es ≡ₚ all_entries v →
  ∃ r value' stats, Get table_cache_Get v (mkLookupKey u s) value = Some (r, value', stats) ∧
    (r = Status_OK ∧ (∀ val, (u, val) ∈ user_view s es ↔ val = value') ∨
     r = NotFound [] [] ∧ value' = value ∧ ∀ val, (u, val) ∉ user_view s es).
Proof.
  intros Hv TR Vu Hs Hl Hes. unfold Get. cbv zeta. destruct (mkLookupKey_parts u s Hl) as (_ & -> & ->).
  fold (seek_key s u).
  destruct (Get_loop_ok u s Vu Hs table_cache_Get (TR := TR) value None None _ (search_order_ok v u s Hv))
    as (r & value' & stats & -> & Hr).
  exists r, value', stats. split; [done|].
  destruct Hr as [(Hn & -> & ->)|(l1 & p & l2 & e & El & Hn & He & Hr)].
  - right. splits; [done|done|]. apply view_none. intros x Hx. rewrite Hes in Hx. by eapply first_hit_none.
  - destruct (first_hit_newest v u s l1 p l2 e Hv Vu Hs El Hn He) as (H1 & <- & H3 & H4).
    assert (∀ val, (uk e, val) ∈ user_view s es ↔ ty e = kTypeValue ∧ val = e.2) as Hview.
    { apply view_newest; [by rewrite Hes|done|]. intros x Hx. rewrite Hes in Hx. by apply H4. }
    destruct Hr as [(Ht & -> & ->)|(Ht & -> & ->)]; [left|right]; splits; try done.
    + intros val. rewrite Hview. tauto.
    + intros val. rewrite Hview. by intros [? _].
Qed.
(** C26: reading a key at a snapshot from a version finds what an iterator over
    the version shows. If the levels satisfy the invariant, the lookup ends, and
    with the entries of all files in any order as [es]: an OK status comes with
    the one value that the view of the snapshot has for the key, and otherwise
    the status is NotFound, the value is left as it is, and the view does not
    have the key. *)
Theorem Get_refines_view v u s value es table_cache_Get :
  version_ok v → TableReads table_cache_Get → V u → seq_ok s → zlen u + 8 < 2 ^ 32 → es ≡ₚ all_entries v →
  ∃ r value' stats, Get table_cache_Get v (mkLookupKey u s) value = Some (r, value', stats) ∧
    (r = Status_OK ∧ (∀ val, (u, val) ∈ user_view s es ↔ val = value') ∨
     r = NotFound [] [] ∧ value' = value ∧ ∀ val, (u, val) ∉ user_view s es).
Proof. apply Get_view. Qed.
End Read.

(** ** An example *)

Module Example.
Definition files : gmap Z (list entry) := {[
  9 := [(InternalKey (str "a") 5 1, str "a5"); (InternalKey (str "b") 7 1, str "b7")];
  8 := [(InternalKey (str "b") 4 0, [])];
  3 := [(InternalKey (str "b") 2 1, str "b2"); (InternalKey (str "c") 1 1, str "c1")]
]}.
Definition content (f : FileMetaData) : list entry := default [] (files !! number f).
Definition file (n : Z) (a b : bytes) : FileMetaData := new_FileMetaData n 100 a b.

Definition v : Version :=
  {| files_ := [[file 8 (InternalKey (str "b") 4 0) (InternalKey (str "b") 4 0);
                 file 9 (InternalKey (str "a") 5 1) (InternalKey (str "b") 7 1)];
                [file 3 (InternalKey (str "b") 2 1) (InternalKey (str "c") 1 1)]; []; []; []; []; []];
     file_to_compact_ := None; compaction_level_ := -1; compaction_score_ := (-1, 1) |}.

Definition table_cache_Get (number file_size : Z) (k : bytes) : option (Status * option entry) :=
  Some (Status_OK, head (entries_from (C := InternalKeyComparator (user_comparator_ := BytewiseComparator))
    (default [] (files !! number)) k)).

Abbreviation file_ok := (file_ok (C := BytewiseComparator) (V := any_key) content).
Abbreviation version_ok := (version_ok (C := BytewiseComparator) (V := any_key) content).

Lemma reads : TableReads (C := BytewiseComparator) (V := any_key) content table_cache_Get.
Proof. split. intros f k _ _. eexists. split; [done|]. split; [by intros e ?|by intros e ? _]. Qed.

Lemma level_above l : level_files v (S (S l)) = [].
Proof. by destruct l as [|[|[|[|[|[|l]]]]]]. Qed.

Lemma levels_cases l f : f ∈ level_files v l → (l = 0 ∧ f ∈ level_files v 0 ∨ l = 1 ∧ f ∈ level_files v 1)%nat.
Proof. destruct l as [|[|l]]; [by left|by right|]. rewrite level_above. by intros ?%elem_of_nil. Qed.

Lemma files_ok l : Forall file_ok (level_files v l).
Proof.
  destruct l as [|[|l]]; [..|rewrite level_above; constructor];
    repeat constructor; try (by vm_compute); repeat constructor; by vm_compute.
Qed.

Ltac newer_solve := apply newer_iff, (bool_decide_unpack _); vm_compute; exact Logic.I.

Lemma v_ok : version_ok v.
Proof.
  split.
  - done.
  - apply files_ok.
  - intros [|[|l]] Hl; [lia| |rewrite level_above; constructor]. repeat constructor.
  - intros f g Hf Hg. apply elem_of_cons in Hf as [->|Hf%list_elem_of_singleton];
      apply elem_of_cons in Hg as [->|Hg%list_elem_of_singleton]; subst; intros Hn; try (vm_compute in Hn; discriminate).
    newer_solve.
  - apply (bool_decide_unpack _). by vm_compute.
  - intros l l' f g Hl Hf Hg.
    apply levels_cases in Hf as [[-> Hf]|[-> Hf]]; apply levels_cases in Hg as [[-> Hg]|[-> Hg]]; try lia.
    apply list_elem_of_singleton in Hg. apply elem_of_cons in Hf as [->|Hf%list_elem_of_singleton]; subst; newer_solve.
Qed.
End Example.

Example Get_refines_view_witness :
  let es := all_entries Example.content Example.v in
  user_view 5 es = [(str "a", str "a5"); (str "c", str "c1")] ∧
  ∃ r value' stats, Get (user_comparator := BytewiseComparator) Example.table_cache_Get Example.v
      (mkLookupKey (str "b") 5) (str "old") = Some (r, value', stats) ∧
    (r = Status_OK ∧ (∀ val, (str "b", val) ∈ user_view 5 es ↔ val = value') ∨
     r = NotFound [] [] ∧ value' = str "old" ∧ ∀ val, (str "b", val) ∉ user_view 5 es).
Proof.
  cbv zeta. split; [by vm_compute|].
  apply (Get_refines_view (CL := BytewiseComparator_laws) Example.content Example.v (str "b") 5 (str "old")
    (all_entries Example.content Example.v) Example.table_cache_Get).
  - exact Example.v_ok.
  - exact Example.reads.
  - exact I.
  - unfold seq_ok, kMaxSequenceNumber. lia.
  - by vm_compute.
  - reflexivity.
Defined.
