(* ===== verification/VersionBuilder.v ===== *)
(** [VersionSet::Builder] of [db/version_set.cc]: a sequence of edits applied
    to a version.

    A [std::set] is the list of its elements in order.  The files are values:
    [refs] is what [Apply] sets it to, the increments for the versions that
    share a file are not modelled. *)
From Stdlib Require Import Sorting.Sorted.
From stdpp Require Import sorting.
From S2P Require Import Prelude SortedLists Comparator DbFormat VersionEdit Version.

(** ** The builder *)

(** [levels_[level]], or no result outside of the array. *)
Definition on_level {A} (level : Z) (f : A → A) (l : list A) : option (list A) :=
  if decide (0 ≤ level < zlen l) then Some (alter f (Z.to_nat level) l) else None.

Section Builder.
Context {user_comparator : Comparator}.

Abbreviation IKC := (InternalKeyComparator (user_comparator_ := user_comparator)).
Abbreviation icmp := (Compare (Comparator := IKC)).

Definition BySmallestKey (f1 f2 : FileMetaData) : bool :=
  let r := icmp (smallest f1) (smallest f2) in
  if decide (r ≠ 0) then bool_decide (r < 0) else bool_decide (number f1 < number f2).

(** [FileSet::insert]: an equivalent element is kept. *)
Fixpoint file_insert (f : FileMetaData) (l : list FileMetaData) : list FileMetaData :=
  match l with
  | [] => [f]
  | g :: l' => if BySmallestKey f g then f :: l else if BySmallestKey g f then g :: file_insert f l' else l
  end.

Record LevelState := { deleted_files : list Z; added_files : list FileMetaData }.

(** [levels_]; the base is an argument of the operations that read it. *)
Definition Builder := list LevelState.

Definition new_Builder : Builder := replicate (Z.to_nat kNumLevels) {| deleted_files := []; added_files := [] |}.

Definition delete_file (builder : Builder) (d : Z * Z) : option Builder :=
  on_level d.1 (λ l, {| deleted_files := d.2 :: deleted_files l; added_files := added_files l |}) builder.

(** The copy of a new file that the builder makes; [allowed_seeks] is an
    [int]. *)
Definition seek_allowance (f : FileMetaData) : FileMetaData :=
  let allowed := swrap 32 (file_size f / 16384) in
  {| refs := 1; allowed_seeks := if decide (allowed < 100) then 100 else allowed;
     number := number f; file_size := file_size f; smallest := smallest f; largest := largest f |}.

Definition add_file (builder : Builder) (n : Z * FileMetaData) : option Builder :=
  let f := seek_allowance n.2 in
  on_level n.1 (λ l, {| deleted_files := filter (λ x, x ≠ number f) (deleted_files l);
                        added_files := file_insert f (added_files l) |}) builder.

Definition set_pointer (compact_pointer_ : list bytes) (p : Z * bytes) : option (list bytes) :=
  on_level p.1 (λ _, p.2) compact_pointer_.

Definition foldM {A B} (f : A → B → option A) (l : list B) (a : A) : option A :=
  foldl (λ r b, a ← r; f a b) (Some a) l.

(** [Apply], with [vset_->compact_pointer_]. *)
Definition Apply (compact_pointer_ : list bytes) (builder : Builder) (edit : VersionEdit) :
    option (list bytes * Builder) :=
  compact_pointer_ ← foldM set_pointer (compact_pointers_ edit) compact_pointer_;
  builder ← foldM delete_file (deleted_files_ edit) builder;
  builder ← foldM add_file (new_files_ edit) builder;
  Some (compact_pointer_, builder).

(** [MaybeAddFile], on the files of a level. The assertion that the file does not
    overlap the one before it, and the check for overlaps at the end of [SaveTo],
    which aborts, are compiled out (-DNDEBUG). *)
Definition MaybeAddFile (l : LevelState) (files : list FileMetaData) (f : FileMetaData) : list FileMetaData :=
  if decide (number f ∈ deleted_files l) then files else files ++ [f].

(** What is before and what is behind [std::upper_bound] in the sorted
    files. *)
Fixpoint upper_bound (f : FileMetaData) (base : list FileMetaData) : list FileMetaData * list FileMetaData :=
  match base with
  | [] => ([], [])
  | b :: base' => if BySmallestKey f b then ([], base) else let '(l, r) := upper_bound f base' in (b :: l, r)
  end.

Fixpoint save_loop (l : LevelState) (added base files : list FileMetaData) : list FileMetaData :=
  match added with
  | [] => foldl (MaybeAddFile l) files base
  | f :: added =>
      let '(smaller, base) := upper_bound f base in
      save_loop l added base (MaybeAddFile l (foldl (MaybeAddFile l) files smaller) f)
  end.

Definition save_level (l : LevelState) (base : list FileMetaData) : list FileMetaData :=
  save_loop l (added_files l) base [].

(** [SaveTo] into a new version. *)
Definition SaveTo (builder : Builder) (base : Version) : Version :=
  {| files_ := zip_with save_level builder (files_ base);
     file_to_compact_ := None; compaction_level_ := -1; compaction_score_ := (-1, 1) |}.

(** ** What a sequence of edits means *)

(** The files that an edit adds to a level. *)
Definition added_to (level : Z) (edit : VersionEdit) : list FileMetaData :=
  seek_allowance ∘ snd <$> filter (λ n, n.1 = level) (new_files_ edit).

(** The files of a level after an edit: the listed ones are taken away, the
    new ones are there. *)
Definition apply_edit (level : Z) (files : list FileMetaData) (edit : VersionEdit) : list FileMetaData :=
  filter (λ f, (level, number f) ∉ deleted_files_ edit) files ++ added_to level edit.
End Builder.

(** ** The order of the files *)

Section Correct.
Context {C : Comparator} {V : bytes → Prop} {CL : ComparatorLaws C V}.

Abbreviation IKC := (InternalKeyComparator (user_comparator_ := C)).
Abbreviation IV := (ikey_valid (V := V)).
Abbreviation icmp := (Compare (Comparator := IKC)).
Abbreviation by_smallest := (BySmallestKey (user_comparator := C)).

Definition file_lt (f g : FileMetaData) : Prop := by_smallest f g = true.
#[local] Instance file_lt_dec f g : Decision (file_lt f g).
Proof. unfold file_lt. apply _. Defined.

Definition start_ok (f : FileMetaData) : Prop := IV (smallest f).

Lemma file_lt_iff f g :
  start_ok f → start_ok g →
  file_lt f g ↔ icmp (smallest f) (smallest g) < 0 ∨ smallest f = smallest g ∧ number f < number g.
Proof.
  intros Vf Vg. unfold file_lt, BySmallestKey. cbv zeta.
  pose proof (Compare_eq (C := IKC) (smallest f) (smallest g) Vf Vg) as He.
  case_decide as Hc; rewrite bool_decide_eq_true; intuition lia.
Qed.

Lemma file_lt_trans f g h :
  start_ok f → start_ok g → start_ok h → file_lt f g → file_lt g h → file_lt f h.
Proof.
  intros Vf Vg Vh. rewrite !file_lt_iff by done. intros [H1|[E1 H1]] [H2|[E2 H2]].
  - left. by apply (Compare_trans (C := IKC) _ (smallest g)).
  - left. by rewrite <- E2.
  - left. by rewrite E1.
  - right. split; [congruence|lia].
Qed.

Lemma file_lt_irrefl f : start_ok f → ¬ file_lt f f.
Proof. intros Vf. rewrite file_lt_iff, (Compare_refl (C := IKC)) by done. lia. Qed.

Lemma file_lt_total f g : start_ok f → start_ok g → file_lt f g ∨ file_lt g f ∨ number f = number g.
Proof.
  intros Vf Vg. rewrite !file_lt_iff by done.
  pose proof (Compare_eq (C := IKC) (smallest f) (smallest g) Vf Vg) as He.
  pose proof (Compare_flip (C := IKC) (smallest g) (smallest f) Vg Vf) as Hf.
  destruct (Z.lt_trichotomy (icmp (smallest f) (smallest g)) 0) as [|[E|]]; [tauto| |tauto].
  apply He in E. destruct (Z.lt_trichotomy (number f) (number g)) as [|[|]]; [tauto|tauto|]. symmetry in E; tauto.
Qed.

Abbreviation sorted := (StronglySorted file_lt).
Abbreviation numbers := (λ fs : list FileMetaData, number <$> fs).

(** A sorted list is determined by its elements. *)
Lemma sorted_unique l1 l2 : Forall start_ok l1 → sorted l1 → sorted l2 → l1 ≡ₚ l2 → l1 = l2.
Proof.
  intros HV H1 H2 HP. eapply StronglySorted_unique_strong; [|exact H1|exact H2|exact HP].
  intros f g Hf Hg Hfg Hgf. exfalso. rewrite list.Forall_forall in HV. rewrite <- HP in Hg.
  apply (file_lt_irrefl f); [by apply HV|]. apply (file_lt_trans f g f); auto.
Qed.

(** *** Insertion *)

Lemma file_insert_perm f l :
  start_ok f → Forall start_ok l → number f ∉ numbers l → file_insert (user_comparator := C) f l ≡ₚ f :: l.
Proof.
  intros Vf. induction 1 as [|g l Vg _ IH]; intros Hn; [done|]. cbn in Hn. apply not_elem_of_cons in Hn as [Hfg Hn].
  cbn [file_insert]. destruct (by_smallest f g) eqn:E1; [done|]. destruct (by_smallest g f) eqn:E2.
  - rewrite IH by done. apply perm_swap.
  - destruct (file_lt_total f g Vf Vg) as [?|[?|?]]; unfold file_lt in *; congruence.
Qed.

Lemma file_insert_sorted f l :
  start_ok f → Forall start_ok l → number f ∉ numbers l → sorted l → sorted (file_insert (user_comparator := C) f l).
Proof.
  intros Vf HV Hn Hs. revert HV Hn. induction Hs as [|g l Hs IH Hg]; intros HV Hn; [by repeat constructor|].
  apply list.Forall_cons in HV as [Vg HV]. cbn in Hn. apply not_elem_of_cons in Hn as [Hfg Hn].
  cbn [file_insert]. destruct (by_smallest f g) eqn:E1; [|destruct (by_smallest g f) eqn:E2].
  - constructor; [by constructor|]. constructor; [done|]. rewrite list.Forall_forall in HV, Hg |- *.
    intros h Hh. apply (file_lt_trans f g h); auto.
  - constructor; [by apply IH|]. rewrite (file_insert_perm f l Vf HV Hn). by constructor.
  - by constructor.
Qed.

(** *** Merging *)

Lemma upper_bound_app f base : base = (upper_bound (user_comparator := C) f base).1 ++ (upper_bound (user_comparator := C) f base).2.
Proof.
  induction base as [|b base IH]; [done|]. cbn [upper_bound]. destruct (by_smallest f b); [done|].
  destruct (upper_bound f base) as [l r]. cbn in *. by rewrite <- IH.
Qed.

Lemma upper_bound_split f base l r :
  start_ok f → Forall start_ok base → sorted base → number f ∉ numbers base →
  upper_bound (user_comparator := C) f base = (l, r) →
  base = l ++ r ∧ Forall (λ b, file_lt b f) l ∧ Forall (file_lt f) r.
Proof.
  intros Vf HV Hs. revert l r HV. induction Hs as [|b base Hs IH Hb]; intros l r HV Hn He; cbn [upper_bound] in He.
  { by injection He as <- <-. }
  apply list.Forall_cons in HV as [Vb HV]. cbn in Hn. apply not_elem_of_cons in Hn as [Hfb Hn].
  destruct (by_smallest f b) eqn:E.
  - injection He as <- <-. splits; [done|done|]. constructor; [done|]. rewrite list.Forall_forall in HV, Hb |- *.
    intros h Hh. apply (file_lt_trans f b h); auto.
  - destruct (upper_bound f base) as [l' r'] eqn:Eu. injection He as <- <-.
    destruct (IH l' r' HV Hn eq_refl) as (-> & H1 & H2). splits; [done| |done]. constructor; [|done].
    destruct (file_lt_total f b Vf Vb) as [?|[?|?]]; unfold file_lt in *; congruence.
Qed.

(** The merged list of which [save_loop] keeps the files that are not
    deleted. *)
Fixpoint merge_files (added base : list FileMetaData) : list FileMetaData :=
  match added with
  | [] => base
  | f :: added => let '(l, r) := upper_bound (user_comparator := C) f base in l ++ f :: merge_files added r
  end.

Lemma foldl_MaybeAddFile l files fs :
  foldl (MaybeAddFile l) files fs = files ++ filter (λ f, number f ∉ deleted_files l) fs.
Proof.
  revert files. induction fs as [|f fs IH]; intros files; cbn [foldl]; [by rewrite app_nil_r|].
  rewrite IH, filter_cons. unfold MaybeAddFile.
  destruct (decide (number f ∈ deleted_files l)) as [Hd|Hd].
  - by rewrite decide_False by tauto.
  - by rewrite decide_True, <- app_assoc by done.
Qed.

Lemma save_loop_merge l added base files :
  save_loop (user_comparator := C) l added base files =
    files ++ filter (λ f, number f ∉ deleted_files l) (merge_files added base).
Proof.
  revert base files. induction added as [|f added IH]; intros base files; cbn [save_loop merge_files].
  - apply foldl_MaybeAddFile.
  - destruct (upper_bound f base) as [sm r]. rewrite IH, foldl_MaybeAddFile.
    pose proof (foldl_MaybeAddFile l (files ++ filter (λ f, number f ∉ deleted_files l) sm) [f]) as Hf. cbn [foldl] in Hf.
    by rewrite Hf, list.filter_app, (filter_cons _ f (merge_files added r)), filter_cons, filter_nil; case_decide; rewrite <- ?app_assoc.
Qed.

Lemma merge_perm added base : merge_files added base ≡ₚ base ++ added.
Proof.
  revert base. induction added as [|f added IH]; intros base; cbn [merge_files]; [by rewrite app_nil_r|].
  pose proof (upper_bound_app f base) as E. destruct (upper_bound f base) as [l r]. cbn in E. subst base.
  rewrite IH, <- app_assoc. by rewrite Permutation_middle.
Qed.

Lemma merge_sorted added base :
  Forall start_ok added → Forall start_ok base → sorted added → sorted base →
  NoDup (numbers (base ++ added)) → sorted (merge_files added base).
Proof.
  intros HA HB Hs. revert base HB. induction Hs as [|f added Hs IH Hf]; intros base HB Hsb Hnd; [done|].
  apply list.Forall_cons in HA as [Vf HA]. cbn [merge_files].
  rewrite fmap_app, list.NoDup_app in Hnd. destruct Hnd as (N1 & N2 & N3). cbn in N3. apply list.NoDup_cons in N3 as [N3 N4].
  destruct (upper_bound f base) as [l r] eqn:E.
  destruct (upper_bound_split f base l r Vf HB Hsb) as (-> & Hl & Hr); [|done|].
  { intros Hin. apply (N2 _ Hin). by left. }
  apply list.Forall_app in HB as [HB1 HB2]. apply sorted_app in Hsb as (Hs1 & Hs2 & Hs12).
  rewrite fmap_app, list.NoDup_app in N1. destruct N1 as (N11 & N12 & N13).
  assert (sorted (merge_files added r)) as Hm.
  { apply IH; [done|done|done|]. rewrite fmap_app, list.NoDup_app. splits; [done| |done].
    intros n Hn Hna. apply (N2 n); [|by right]. rewrite fmap_app. apply elem_of_app. by right. }
  rewrite list.Forall_forall in Hl, Hr, Hf, HA, HB1, HB2.
  assert (Hfm : ∀ g, g ∈ merge_files added r → file_lt f g ∧ start_ok g).
  { intros g Hg. rewrite merge_perm in Hg. apply elem_of_app in Hg as [Hg|Hg]; auto. }
  apply sorted_app. splits; [done| |].
  - constructor; [done|]. apply list.Forall_forall. intros g Hg. by apply Hfm.
  - intros x y Hx [->|Hy]%elem_of_cons; [by apply Hl|]. destruct (Hfm y Hy). apply (file_lt_trans x f y); auto.
Qed.

(** ** A level after edits *)

(** [l] stands for the files [fs] over the [base]. *)
Definition level_rep (base : list FileMetaData) (l : LevelState) (fs : list FileMetaData) : Prop :=
  Forall start_ok base ∧ sorted base ∧ Forall start_ok (added_files l) ∧ sorted (added_files l) ∧
  NoDup (numbers (base ++ added_files l)) ∧
  fs ≡ₚ filter (λ f, number f ∉ deleted_files l) (base ++ added_files l).

Lemma level_rep_new base :
  Forall start_ok base → sorted base → NoDup (numbers base) →
  level_rep base {| deleted_files := []; added_files := [] |} base.
Proof.
  intros HV Hs Hn. unfold level_rep. cbn [added_files deleted_files]. rewrite app_nil_r.
  splits; [done|done|constructor|constructor|done|]. rewrite filter_all; [done|].
  apply list.Forall_forall. intros f _. by apply not_elem_of_nil.
Qed.

Lemma level_rep_delete base l fs x :
  level_rep base l fs →
  level_rep base {| deleted_files := x :: deleted_files l; added_files := added_files l |}
    (filter (λ f, number f ≠ x) fs).
Proof.
  intros (H1 & H2 & H3 & H4 & H5 & HP). unfold level_rep. splits; try done. cbn [deleted_files added_files]. rewrite HP.
  rewrite list_filter_filter. apply Permutation_refl'. apply list_filter_iff. intros f. rewrite elem_of_cons. tauto.
Qed.

Lemma level_rep_add base l fs f :
  level_rep base l fs → start_ok f → number f ∉ numbers (base ++ added_files l) →
  level_rep base {| deleted_files := filter (λ x, x ≠ number f) (deleted_files l);
                    added_files := file_insert (user_comparator := C) f (added_files l) |} (fs ++ [f]).
Proof.
  intros (H1 & H2 & H3 & H4 & H5 & HP) Vf Hn.
  assert (Hna : number f ∉ numbers (added_files l)).
  { intros Hin. apply Hn. rewrite fmap_app. apply elem_of_app. by right. }
  pose proof (file_insert_perm f (added_files l) Vf H3 Hna) as HI. unfold level_rep. splits; cbn [deleted_files added_files]; try done.
  - rewrite HI. by constructor.
  - by apply file_insert_sorted.
  - rewrite HI, <- Permutation_middle. by constructor.
  - rewrite HI, <- (Permutation_middle base (added_files l) f), filter_cons, decide_True by (rewrite list_elem_of_filter; tauto).
    rewrite HP, <- Permutation_cons_append. constructor. apply Permutation_refl'. symmetry.
    apply filter_ext_elem. intros g Hg. rewrite list_elem_of_filter. assert (number g ≠ number f); [|tauto].
    intros E. apply Hn. rewrite <- E. by apply (list_elem_of_fmap_2 number).
Qed.

(** *** An edit on one level *)

Definition level_delete (l : LevelState) (d : Z * Z) : LevelState :=
  {| deleted_files := d.2 :: deleted_files l; added_files := added_files l |}.
Definition level_add (l : LevelState) (f : FileMetaData) : LevelState :=
  {| deleted_files := filter (λ x, x ≠ number f) (deleted_files l);
     added_files := file_insert (user_comparator := C) f (added_files l) |}.
Definition level_apply (i : Z) (edit : VersionEdit) (l : LevelState) : LevelState :=
  foldl level_add (foldl level_delete l (filter (λ d, d.1 = i) (deleted_files_ edit))) (added_to i edit).

Lemma level_rep_perm base l fs fs' : level_rep base l fs → fs ≡ₚ fs' → level_rep base l fs'.
Proof. intros (H1 & H2 & H3 & H4 & H5 & H6) HP. unfold level_rep. by rewrite <- HP. Qed.

Lemma level_deletes_rep base l fs ds :
  level_rep base l fs →
  level_rep base (foldl level_delete l ds) (filter (λ f, number f ∉ ds.*2) fs) ∧
  added_files (foldl level_delete l ds) = added_files l.
Proof.
  revert l fs. induction ds as [|d ds IH]; intros l fs HR; cbn [foldl fmap list_fmap].
  - split; [|done]. rewrite filter_all; [done|]. apply list.Forall_forall. intros f _. by apply not_elem_of_nil.
  - destruct (IH _ _ (level_rep_delete base l fs d.2 HR)) as [H1 H2]. split; [|exact H2].
    rewrite list_filter_filter in H1. eapply level_rep_perm; [exact H1|]. apply Permutation_refl', list_filter_iff. intros f. rewrite elem_of_cons. tauto.
Qed.

Lemma level_adds_rep base l fs ns :
  level_rep base l fs → Forall start_ok ns → NoDup (numbers ((base ++ added_files l) ++ ns)) →
  level_rep base (foldl level_add l ns) (fs ++ ns) ∧ added_files (foldl level_add l ns) ≡ₚ added_files l ++ ns.
Proof.
  revert l fs. induction ns as [|f ns IH]; intros l fs HR HV Hn; cbn [foldl].
  { rewrite !app_nil_r. done. }
  apply list.Forall_cons in HV as [Vf HV]. rewrite fmap_app, list.NoDup_app in Hn. destruct Hn as (N1 & N2 & N3).
  cbn in N3. apply list.NoDup_cons in N3 as [N3 N4].
  assert (number f ∉ numbers (base ++ added_files l)) as Hnf by (intros Hin; apply (N2 _ Hin); by left).
  pose proof (level_rep_add base l fs f HR Vf Hnf) as HR'.
  assert (added_files (level_add l f) ≡ₚ f :: added_files l) as HI.
  { destruct HR as (_ & _ & H3 & _). apply file_insert_perm; [done|done|].
    intros Hin. apply Hnf. rewrite fmap_app. apply elem_of_app. by right. }
  destruct (IH (level_add l f) (fs ++ [f]) HR' HV) as [H1 H2].
  - rewrite HI, fmap_app, list.NoDup_app. splits; [..|done].
    + rewrite <- Permutation_middle. by constructor.
    + intros n Hin Hns. rewrite <- Permutation_middle in Hin. cbn in Hin. apply elem_of_cons in Hin as [->|Hin]; [done|].
      apply (N2 n Hin). by right.
  - rewrite <- app_assoc in H1. split; [exact H1|]. rewrite H2, HI. by rewrite (Permutation_middle (added_files l) ns f).
Qed.

Lemma level_apply_rep base l fs i edit :
  level_rep base l fs → Forall start_ok (added_to i edit) →
  NoDup (numbers ((base ++ added_files l) ++ added_to i edit)) →
  level_rep base (level_apply i edit l) (apply_edit i fs edit) ∧
  added_files (level_apply i edit l) ≡ₚ added_files l ++ added_to i edit.
Proof.
  intros HR HV Hn. unfold level_apply, apply_edit.
  destruct (level_deletes_rep base l fs (filter (λ d, d.1 = i) (deleted_files_ edit)) HR) as [H1 H2].
  set (l1 := foldl level_delete l _) in *. rewrite <- H2 in Hn.
  destruct (level_adds_rep base l1 _ (added_to i edit) H1 HV Hn) as [H3 H4]. rewrite H2 in H4. split; [|done].
  eapply level_rep_perm; [exact H3|]. apply Permutation_app_tail, Permutation_refl', list_filter_iff. intros f.
  rewrite list_elem_of_fmap. split.
  - intros Hn' Hd. apply Hn'. exists (i, number f). split; [done|]. by apply list_elem_of_filter.
  - intros Hn' ([j x] & Hx & [Hj Hd]%list_elem_of_filter). cbn in Hx, Hj. subst. done.
Qed.

Lemma level_edits_rep base l fs i edits :
  level_rep base l fs → Forall (λ e, Forall start_ok (added_to i e)) edits →
  NoDup (numbers ((base ++ added_files l) ++ concat (added_to i <$> edits))) →
  level_rep base (foldl (λ l e, level_apply i e l) l edits) (foldl (apply_edit i) fs edits).
Proof.
  intros HR HV. revert l fs HR. induction HV as [|e edits Ve HV IH]; intros l fs HR Hn; [done|]. cbn [foldl].
  cbn [fmap list_fmap concat] in Hn. rewrite app_assoc, fmap_app, list.NoDup_app in Hn. destruct Hn as (N1 & N2 & N3).
  destruct (level_apply_rep base l fs i e HR Ve N1) as [H1 H2]. apply IH; [done|].
  rewrite H2, (app_assoc base), fmap_app, list.NoDup_app. done.
Qed.

(** The files of a level that [SaveTo] gives. *)
Lemma save_level_rep base l fs :
  level_rep base l fs → save_level (user_comparator := C) l base ≡ₚ fs ∧ sorted (save_level (user_comparator := C) l base).
Proof.
  intros (H1 & H2 & H3 & H4 & H5 & HP). unfold save_level. rewrite save_loop_merge, app_nil_l. split.
  - by rewrite HP, merge_perm.
  - apply (sorted_sublist file_lt (merge_files (added_files l) base)); [by apply merge_sorted|apply sublist_filter].
Qed.

(** ** The builder *)

Lemma on_level_fold {A B} (g : Z * B → A → A) (ps : list (Z * B)) (l : list A) :
  Forall (λ p, 0 ≤ p.1 < zlen l) ps →
  ∃ l', foldM (λ l p, on_level p.1 (g p) l) ps l = Some l' ∧ length l' = length l ∧
    ∀ i x, l !! i = Some x → l' !! i = Some (foldl (λ x p, g p x) x (filter (λ p, p.1 = Z.of_nat i) ps)).
Proof.
  unfold foldM. revert l. induction ps as [|p ps IH]; intros l Hl; cbn [foldl]; [by exists l|].
  apply list.Forall_cons in Hl as [Hp Hl]. cbn [mbind option_bind]. unfold on_level at 2. rewrite decide_True by done.
  destruct (IH (alter (g p) (Z.to_nat p.1) l)) as (l' & E & Hlen & Hl').
  { unfold zlen in *. by rewrite length_alter. }
  exists l'. split; [exact E|]. split; [by rewrite Hlen, length_alter|]. intros i x Hx. rewrite filter_cons.
  case_decide as Hi.
  - cbn [foldl]. apply Hl'. rewrite Hi, Nat2Z.id, list_lookup_alter_eq, Hx. done.
  - apply Hl'. rewrite list_lookup_alter_ne; [done|]. intros E'. apply Hi. rewrite <- E'. rewrite Z2Nat.id; [done|lia].
Qed.

(** What the edits of a database satisfy. *)
Record edit_applies (edit : VersionEdit) : Prop := {
  eo_pointers : Forall (λ p, level_ok p.1) (compact_pointers_ edit);
  eo_deleted : Forall (λ p, level_ok p.1) (deleted_files_ edit);
  eo_new : Forall (λ p, level_ok p.1 ∧ start_ok p.2) (new_files_ edit);
}.

(** The compaction pointers after an edit. *)
Definition apply_pointers (i : Z) (p : bytes) (edit : VersionEdit) : bytes :=
  foldl (λ _ p, p.2) p (filter (λ p, p.1 = i) (compact_pointers_ edit)).

Lemma added_to_ok i edit : edit_applies edit → Forall start_ok (added_to i edit).
Proof.
  intros He. pose proof (eo_new edit He) as HN. apply list.Forall_forall.
  intros f (n & -> & [_ Hn]%list_elem_of_filter)%list_elem_of_fmap. rewrite list.Forall_forall in HN. by apply (HN n).
Qed.

Lemma foldl_fmap {A B X} (f : X → B → X) (g : A → B) l x : foldl f x (g <$> l) = foldl (λ x a, f x (g a)) x l.
Proof. revert x. induction l as [|a l IH]; intros x; [done|]. apply IH. Qed.

Lemma Apply_levels ptrs b edit :
  edit_applies edit → zlen ptrs = kNumLevels → zlen b = kNumLevels →
  ∃ ptrs' b', Apply (user_comparator := C) ptrs b edit = Some (ptrs', b') ∧ zlen ptrs' = kNumLevels ∧ zlen b' = kNumLevels ∧
    (∀ i p, ptrs !! i = Some p → ptrs' !! i = Some (apply_pointers (Z.of_nat i) p edit)) ∧
    (∀ i l, b !! i = Some l → b' !! i = Some (level_apply (Z.of_nat i) edit l)).
Proof.
  intros [Hp Hd Hn] Lp Lb. unfold Apply.
  destruct (on_level_fold (λ p (_ : bytes), p.2) (compact_pointers_ edit) ptrs) as (ptrs' & E0 & L1 & P1); [by rewrite Lp|].
  change (foldM set_pointer (compact_pointers_ edit) ptrs = Some ptrs') in E0. rewrite E0.
  cbn [mbind option_bind].
  destruct (on_level_fold (λ d l, level_delete l d) (deleted_files_ edit) b) as (b1 & E1 & L2 & P2); [by rewrite Lb|].
  change (foldM delete_file (deleted_files_ edit) b = Some b1) in E1. rewrite E1. cbn [mbind option_bind].
  destruct (on_level_fold (λ n l, level_add l (seek_allowance n.2)) (new_files_ edit) b1) as (b2 & E2 & L3 & P3).
  { unfold zlen in *. rewrite L2, Lb. eapply Forall_impl; [|exact Hn]. by intros ? [? _]. }
  change (foldM (add_file (user_comparator := C)) (new_files_ edit) b1 = Some b2) in E2. rewrite E2. cbn [mbind option_bind].
  exists ptrs', b2. unfold zlen in *. splits; [done|lia|lia|done|].
  intros i l Hl. etrans; [exact (P3 i _ (P2 i l Hl))|]. unfold level_apply, added_to. by rewrite foldl_fmap.
Qed.

(** All edits of a list, one after the other. *)
Definition ApplyAll (edits : list VersionEdit) (s : list bytes * Builder) : option (list bytes * Builder) :=
  foldM (λ s edit, Apply (user_comparator := C) s.1 s.2 edit) edits s.

Lemma ApplyAll_levels edits ptrs b :
  Forall edit_applies edits → zlen ptrs = kNumLevels → zlen b = kNumLevels →
  ∃ ptrs' b', ApplyAll edits (ptrs, b) = Some (ptrs', b') ∧ zlen ptrs' = kNumLevels ∧ zlen b' = kNumLevels ∧
    (∀ i p, ptrs !! i = Some p → ptrs' !! i = Some (foldl (apply_pointers (Z.of_nat i)) p edits)) ∧
    (∀ i l, b !! i = Some l → b' !! i = Some (foldl (λ l e, level_apply (Z.of_nat i) e l) l edits)).
Proof.
  unfold ApplyAll, foldM. intros He. revert ptrs b. induction He as [|e edits He _ IH]; intros ptrs b Lp Lb; cbn [foldl].
  { by exists ptrs, b. }
  destruct (Apply_levels ptrs b e He Lp Lb) as (ptrs1 & b1 & E & L1 & L2 & P1 & P2).
  cbn [mbind option_bind fst snd]. rewrite E.
  destruct (IH ptrs1 b1 L1 L2) as (ptrs' & b' & E' & L3 & L4 & P3 & P4). exists ptrs', b'.
  splits; [exact E'|done|done|..]; intros i x Hx; [by apply P3, P1|by apply P4, P2].
Qed.

(** The base of a builder: sorted levels, in which no file of an edit is. *)
Definition base_ok (base : Version) (edits : list VersionEdit) : Prop :=
  zlen (files_ base) = kNumLevels ∧
  ∀ level, Forall start_ok (level_files base level) ∧ sorted (level_files base level) ∧
    NoDup (numbers (level_files base level ++ concat (added_to (Z.of_nat level) <$> edits))).

Lemma level_files_zip b base level :
  zlen b = zlen (files_ base) → (level < length (files_ base))%nat →
  ∃ l, b !! level = Some l ∧
    level_files (SaveTo (user_comparator := C) b base) level = save_level (user_comparator := C) l (level_files base level).
Proof.
  unfold zlen. intros Hb Hl. destruct (lookup_lt_is_Some_2 b level) as [l El]; [lia|].
  destruct (lookup_lt_is_Some_2 (files_ base) level Hl) as [fs Ef].
  exists l. split; [done|]. unfold level_files, SaveTo. cbn [files_].
  erewrite (nth_lookup_Some (zip_with _ _ _)); [|by apply lookup_zip_with_Some; eauto].
  by rewrite (nth_lookup_Some _ _ _ _ Ef).
Qed.

Lemma SaveTo_levels base edits ptrs :
  Forall edit_applies edits → base_ok base edits → zlen ptrs = kNumLevels →
  ∃ ptrs' b, ApplyAll edits (ptrs, new_Builder) = Some (ptrs', b) ∧ zlen ptrs' = kNumLevels ∧ zlen b = kNumLevels ∧
    (∀ i p, ptrs !! i = Some p → ptrs' !! i = Some (foldl (apply_pointers (Z.of_nat i)) p edits)) ∧
    ∀ level, (Z.of_nat level < kNumLevels) →
      level_files (SaveTo (user_comparator := C) b base) level ≡ₚ
        foldl (apply_edit (Z.of_nat level)) (level_files base level) edits ∧
      sorted (level_files (SaveTo (user_comparator := C) b base) level).
Proof.
  intros He [Hlen Hb] Lp.
  destruct (ApplyAll_levels edits ptrs new_Builder He Lp eq_refl) as (ptrs' & b & E & L1 & L2 & P1 & P2).
  exists ptrs', b. splits; [done|done|done|done|]. intros level Hl. destruct (Hb level) as (H1 & H2 & H3).
  destruct (level_files_zip b base level) as (l & El & ->); [congruence|unfold zlen in *; lia|].
  assert (new_Builder !! level = Some {| deleted_files := []; added_files := [] |}) as Hn.
  { unfold new_Builder. apply lookup_replicate_2. unfold kNumLevels in *. lia. }
  pose proof (P2 level _ Hn) as El'. unfold Builder in *. rewrite El in El'. injection El' as ->. apply save_level_rep, level_edits_rep.
  - apply level_rep_new; [done|done|]. rewrite fmap_app, list.NoDup_app in H3. apply H3.
  - eapply Forall_impl; [|exact He]. intros e. apply added_to_ok.
  - cbn [added_files]. by rewrite app_nil_r.
Qed.

(** C27: the builder of versions implements the meaning of a sequence of edits.
    For a base with sorted levels and edits whose files are new, applying the
    edits never fails; the version that is saved has in every level, sorted by
    smallest key and number, exactly the files that are left when the edits are
    executed one after the other, the compaction pointers are the last ones that
    were set. *)
Theorem SaveTo_refines base edits ptrs :
  Forall edit_applies edits → base_ok base edits → zlen ptrs = kNumLevels →
  ∃ ptrs' b, ApplyAll edits (ptrs, new_Builder) = Some (ptrs', b) ∧ zlen ptrs' = kNumLevels ∧ zlen b = kNumLevels ∧
    (∀ i p, ptrs !! i = Some p → ptrs' !! i = Some (foldl (apply_pointers (Z.of_nat i)) p edits)) ∧
    ∀ level, (Z.of_nat level < kNumLevels) →
      level_files (SaveTo (user_comparator := C) b base) level ≡ₚ
        foldl (apply_edit (Z.of_nat level)) (level_files base level) edits ∧
      sorted (level_files (SaveTo (user_comparator := C) b base) level).
Proof. apply SaveTo_levels. Qed.
End Correct.

(** A file is moved to level 1 and a new one comes to level 0. *)
Example SaveTo_refines_witness :
  let ik u s := InternalKey u s kTypeValue in
  let file n a b := new_FileMetaData n 100 a b in
  let base := {| files_ := [[file 8 (ik (str "b") 4) (ik (str "d") 4)]; [file 3 (ik (str "e") 2) (ik (str "g") 1)]; []; []; []; []; []];
                 file_to_compact_ := None; compaction_level_ := -1; compaction_score_ := (-1, 1) |} in
  let edits := [AddFile 1 9 100 (ik (str "b") 4) (ik (str "d") 4) (DeleteFile 0 8 (SetCompactPointer 0 (ik (str "d") 4) new_VersionEdit));
                AddFile 0 10 100 (ik (str "a") 7) (ik (str "c") 9) new_VersionEdit] in
  let ptrs := replicate 7 [] in
  ∃ ptrs' b, ApplyAll (C := BytewiseComparator) edits (ptrs, new_Builder) = Some (ptrs', b) ∧ zlen ptrs' = kNumLevels ∧ zlen b = kNumLevels ∧
    (∀ i p, ptrs !! i = Some p → ptrs' !! i = Some (foldl (apply_pointers (Z.of_nat i)) p edits)) ∧
    ∀ level, (Z.of_nat level < kNumLevels) →
      level_files (SaveTo (user_comparator := BytewiseComparator) b base) level ≡ₚ
        foldl (apply_edit (Z.of_nat level)) (level_files base level) edits ∧
      StronglySorted (file_lt (C := BytewiseComparator)) (level_files (SaveTo (user_comparator := BytewiseComparator) b base) level).
Proof.
  cbv zeta. apply (SaveTo_refines (CL := BytewiseComparator_laws)).
  - repeat constructor; by vm_compute.
  - split; [done|]. intros [|[|level]].
    + splits; [repeat constructor; by vm_compute|repeat constructor|apply (bool_decide_unpack _); by vm_compute].
    + splits; [repeat constructor; by vm_compute|repeat constructor|apply (bool_decide_unpack _); by vm_compute].
    + unfold added_to. cbn [new_files_ AddFile add_new_file DeleteFile SetCompactPointer new_VersionEdit fmap list_fmap app].
      rewrite !filter_cons, !filter_nil, !decide_False by (cbn [fst]; lia).
      assert (level_files {| files_ := [[new_FileMetaData 8 100 (InternalKey (str "b") 4 kTypeValue) (InternalKey (str "d") 4 kTypeValue)];
        [new_FileMetaData 3 100 (InternalKey (str "e") 2 kTypeValue) (InternalKey (str "g") 1 kTypeValue)]; []; []; []; []; []];
        file_to_compact_ := None; compaction_level_ := -1; compaction_score_ := (-1, 1) |} (S (S level)) = []) as ->
        by (by destruct level as [|[|[|[|[|[|level]]]]]]).
      splits; constructor.
  - done.
Defined.
