(* ===== verification/VersionSet.v ===== *)
(** The versions of a database and its MANIFEST: [class VersionSet] of
    [db/version_set.h] and [db/version_set.cc].

    The list [dummy_versions_] is the list of the live versions, the oldest
    first, each with its address and its count of references.  [options_] and
    [table_cache_] are not read by the operations of this file; messages to the
    info log are left out.  A score is an exact fraction: sizes are below 2^53,
    so that the comparison with 1 is that of the [double]s. *)
From Stdlib Require Import Sorting.Sorted.
From stdpp Require Import sorting.
From S2P Require Import Prelude SortedLists Coding Status Comparator Crc32c Logging Env FileName LogFile DbFormat VersionEdit Version VersionBuilder.

(** ** Scores *)

Definition fraction_lt (a b : Z * Z) : Prop := a.1 * b.2 < b.1 * a.2.
#[export] Instance fraction_lt_dec a b : Decision (fraction_lt a b).
Proof. unfold fraction_lt. apply _. Defined.

Definition level_score (v : Version) (level : nat) : Z * Z :=
  if decide (level = O) then (NumFiles v 0, kL0_CompactionTrigger)
  else (u64 (TotalFileSize (level_files v level)), MaxBytesForLevel level).

Definition better_level (v : Version) (best : Z * (Z * Z)) (level : nat) : Z * (Z * Z) :=
  let score := level_score v level in
  if decide (fraction_lt best.2 score) then (Z.of_nat level, score) else best.

Definition Finalize (v : Version) : Version :=
  let best := foldl (better_level v) (-1, (-1, 1)) (seq 0 (Z.to_nat (kNumLevels - 1))) in
  {| files_ := files_ v; file_to_compact_ := file_to_compact_ v;
     compaction_level_ := best.1; compaction_score_ := best.2 |}.

(** ** The state *)

(** A [Version] with its address and [refs_]. *)
Record LiveVersion := { address : nat; refs_ : Z; version : Version }.

Section VersionSet.
Context {W : Type} {E : Env W} {P : Placement} {user_comparator : Comparator}.

Abbreviation IKC := (InternalKeyComparator (user_comparator_ := user_comparator)).
Abbreviation icmp := (Compare (Comparator := IKC)).

Record VersionSet := {
  dbname_ : bytes;
  next_file_number_ : Z;
  manifest_file_number_ : Z;
  last_sequence_ : Z;
  log_number_ : Z;
  prev_log_number_ : Z;
  (** [descriptor_file_] and [descriptor_log_], which are set together *)
  descriptor_ : option (WritableHandle * Writer);
  versions_ : list LiveVersion;
  current_ : option nat;
  next_address : nat;
  compact_pointer_ : list bytes;
}.

Definition set_versions (vs : VersionSet) (versions : list LiveVersion) (current : option nat) (next : nat) : VersionSet :=
  {| dbname_ := dbname_ vs; next_file_number_ := next_file_number_ vs; manifest_file_number_ := manifest_file_number_ vs;
     last_sequence_ := last_sequence_ vs; log_number_ := log_number_ vs; prev_log_number_ := prev_log_number_ vs;
     descriptor_ := descriptor_ vs; versions_ := versions; current_ := current; next_address := next;
     compact_pointer_ := compact_pointer_ vs |}.
Definition set_numbers (vs : VersionSet) (next_file manifest last_sequence log prev_log : Z) : VersionSet :=
  {| dbname_ := dbname_ vs; next_file_number_ := next_file; manifest_file_number_ := manifest;
     last_sequence_ := last_sequence; log_number_ := log; prev_log_number_ := prev_log;
     descriptor_ := descriptor_ vs; versions_ := versions_ vs; current_ := current_ vs; next_address := next_address vs;
     compact_pointer_ := compact_pointer_ vs |}.
Definition set_descriptor (vs : VersionSet) (d : option (WritableHandle * Writer)) : VersionSet :=
  {| dbname_ := dbname_ vs; next_file_number_ := next_file_number_ vs; manifest_file_number_ := manifest_file_number_ vs;
     last_sequence_ := last_sequence_ vs; log_number_ := log_number_ vs; prev_log_number_ := prev_log_number_ vs;
     descriptor_ := d; versions_ := versions_ vs; current_ := current_ vs; next_address := next_address vs;
     compact_pointer_ := compact_pointer_ vs |}.
Definition set_compact_pointers (vs : VersionSet) (ptrs : list bytes) : VersionSet :=
  {| dbname_ := dbname_ vs; next_file_number_ := next_file_number_ vs; manifest_file_number_ := manifest_file_number_ vs;
     last_sequence_ := last_sequence_ vs; log_number_ := log_number_ vs; prev_log_number_ := prev_log_number_ vs;
     descriptor_ := descriptor_ vs; versions_ := versions_ vs; current_ := current_ vs; next_address := next_address vs;
     compact_pointer_ := ptrs |}.

(** *** References *)

Definition change_refs (n : Z) (p : nat) (l : list LiveVersion) : list LiveVersion :=
  (λ v, if decide (address v = p) then {| address := address v; refs_ := refs_ v + n; version := version v |} else v) <$> l.

Definition Ref (vs : VersionSet) (p : nat) : VersionSet :=
  set_versions vs (change_refs 1 p (versions_ vs)) (current_ vs) (next_address vs).

(** A version whose count is 0 is taken out of the list. *)
Definition Unref (vs : VersionSet) (p : nat) : VersionSet :=
  set_versions vs (filter (λ v, ¬ (address v = p ∧ refs_ v = 0)) (change_refs (-1) p (versions_ vs)))
    (current_ vs) (next_address vs).

Definition find_version (vs : VersionSet) (p : nat) : option Version :=
  version ∘ snd <$> list_find (λ v, address v = p) (versions_ vs).

Definition current (vs : VersionSet) : option Version := current_ vs ≫= find_version vs.

(** What [UpdateStats] and [RecordReadSample] change of a version. *)
Definition update_version (p : nat) (f : Version → Version) (vs : VersionSet) : VersionSet :=
  set_versions vs
    ((λ v, if decide (address v = p) then {| address := p; refs_ := refs_ v; version := f (version v) |} else v) <$> versions_ vs)
    (current_ vs) (next_address vs).

Definition AppendVersion (vs : VersionSet) (v : Version) : VersionSet :=
  let vs := match current_ vs with Some p => Unref vs p | None => vs end in
  set_versions vs (versions_ vs ++ [{| address := next_address vs; refs_ := 1; version := v |}])
    (Some (next_address vs)) (S (next_address vs)).

Definition new_VersionSet (dbname : bytes) : VersionSet :=
  AppendVersion
    {| dbname_ := dbname; next_file_number_ := 2; manifest_file_number_ := 0; last_sequence_ := 0; log_number_ := 0;
       prev_log_number_ := 0; descriptor_ := None; versions_ := []; current_ := None; next_address := 0;
       compact_pointer_ := replicate (Z.to_nat kNumLevels) [] |}
    new_Version.

(** *** Numbers *)

Definition set_next_file (vs : VersionSet) (n : Z) : VersionSet :=
  set_numbers vs n (manifest_file_number_ vs) (last_sequence_ vs) (log_number_ vs) (prev_log_number_ vs).

Definition NewFileNumber (vs : VersionSet) : Z * VersionSet :=
  (next_file_number_ vs, set_next_file vs (u64 (next_file_number_ vs + 1))).

Definition ReuseFileNumber (vs : VersionSet) (file_number : Z) : VersionSet :=
  if decide (next_file_number_ vs = u64 (file_number + 1)) then set_next_file vs file_number else vs.

Definition MarkFileNumberUsed (vs : VersionSet) (number : Z) : VersionSet :=
  if decide (next_file_number_ vs ≤ number) then set_next_file vs (u64 (number + 1)) else vs.

Definition SetLastSequence (vs : VersionSet) (s : Z) : VersionSet :=
  set_numbers vs (next_file_number_ vs) (manifest_file_number_ vs) s (log_number_ vs) (prev_log_number_ vs).

(** *** Sizes *)

Definition NumLevelFiles (v : Version) (level : nat) : Z := NumFiles v level.
Definition NumLevelBytes (v : Version) (level : nat) : Z := TotalFileSize (level_files v level).

Definition LevelSummary (v : Version) : bytes :=
  snprintf 100 (str "files[ " ++ mjoin ((λ level, dec (NumFiles v level) ++ str " ") <$> seq 0 (Z.to_nat kNumLevels)) ++ str "]").

Definition NeedsCompaction (v : Version) : bool :=
  bool_decide ((compaction_score_ v).2 ≤ (compaction_score_ v).1) || bool_decide (file_to_compact_ v ≠ None).

(** The largest amount of data at the next level that a file overlaps. *)
Definition MaxNextLevelOverlappingBytes (v : Version) : option Z :=
  foldl (λ r p, result ← r;
    overlaps ← GetOverlappingInputs (user_comparator := user_comparator) v (S p.1) (Some (smallest p.2)) (Some (largest p.2));
    let sum := TotalFileSize overlaps in
    Some (if decide (result < sum) then sum else result)) (Some 0)
  (mjoin ((λ level, pair level <$> level_files v level) <$> seq 1 (Z.to_nat kNumLevels - 2))).

Definition AddLiveFiles (vs : VersionSet) : list Z :=
  mjoin ((λ v, number <$> mjoin (files_ (version v))) <$> versions_ vs).

(** The loop over the files of a level; [table_offset] is what opening a table
    and its [ApproximateOffsetOf] give, nothing if the table does not open. *)
Fixpoint offset_loop (table_offset : Z → Z → bytes → option (option Z)) (level : nat) (ikey : bytes)
    (files : list FileMetaData) (result : Z) : option Z :=
  match files with
  | [] => Some result
  | f :: files =>
      if decide (icmp (largest f) ikey ≤ 0) then
        offset_loop table_offset level ikey files (u64 (result + file_size f))
      else if decide (icmp (smallest f) ikey > 0) then
        if decide (0 < level)%nat then Some result else offset_loop table_offset level ikey files result
      else
        offset ← table_offset (number f) (file_size f) ikey;
        offset_loop table_offset level ikey files (match offset with Some o => u64 (result + o) | None => result end)
  end.

Definition ApproximateOffsetOf (table_offset : Z → Z → bytes → option (option Z)) (v : Version) (ikey : bytes) : option Z :=
  foldl (λ r level, result ← r; offset_loop table_offset level ikey (level_files v level) result)
    (Some 0) (seq 0 (Z.to_nat kNumLevels)).

(** ** Writing the MANIFEST *)

(** An edit that makes the files and the compaction pointers of [vs]. *)
Definition snapshot_edit (ptrs : list bytes) (v : Version) : VersionEdit :=
  let edit := SetComparatorName (ComparatorName (Comparator := user_comparator)) new_VersionEdit in
  let edit := foldl (λ edit p, if decide (p.2 ≠ []) then SetCompactPointer (Z.of_nat p.1) p.2 edit else edit) edit
    (zip (seq 0 (Z.to_nat kNumLevels)) ptrs) in
  foldl (λ edit p, AddFile (Z.of_nat p.1) (number p.2) (file_size p.2) (smallest p.2) (largest p.2) edit) edit
    (mjoin ((λ level, pair level <$> level_files v level) <$> seq 0 (Z.to_nat kNumLevels))).

(** [AddRecord] always ends. *)
Definition add_record (d : WritableHandle * Writer) (record : bytes) : M W (Status * (WritableHandle * Writer)) := λ w,
  match AddRecord (dest_ := writable d.1) d.2 record w with
  | Some (Some (s, wr), w) => Some ((s, (d.1, wr)), w)
  | _ => None
  end.

Definition WriteSnapshot (vs : VersionSet) (v : Version) (d : WritableHandle * Writer) :
    M W (Status * (WritableHandle * Writer)) :=
  add_record d (EncodeTo (snapshot_edit (compact_pointer_ vs) v) []).

(** The edit that is written: the numbers that are not set are those of the
    version set. *)
Definition fill_edit (vs : VersionSet) (edit : VersionEdit) : VersionEdit :=
  let edit := match VersionEdit.log_number_ edit with Some _ => edit | None => SetLogNumber (log_number_ vs) edit end in
  let edit := match VersionEdit.prev_log_number_ edit with Some _ => edit | None => SetPrevLogNumber (prev_log_number_ vs) edit end in
  VersionEdit.SetLastSequence (last_sequence_ vs) (SetNextFile (next_file_number_ vs) edit).

(** What is done with the mutex held at first: the new version, and a new
    MANIFEST, whose name is given, if there is none. *)
Definition LogAndApply_prepare (vs : VersionSet) (edit : VersionEdit) :
    M W (Status * Version * option bytes * VersionSet) := λ w,
  match current vs, Apply (user_comparator := user_comparator) (compact_pointer_ vs) new_Builder edit with
  | Some cur, Some (ptrs, builder) =>
      let v := Finalize (SaveTo (user_comparator := user_comparator) builder cur) in
      let vs := set_compact_pointers vs ptrs in
      match descriptor_ vs with
      | Some _ => Some ((Status_OK, v, None, vs), w)
      | None =>
          let new_manifest_file := DescriptorFileName (dbname_ vs) (manifest_file_number_ vs) in
          (r ← NewWritableFile new_manifest_file;
           match r with
           | inl s => mret (s, v, Some new_manifest_file, vs)
           | inr file =>
               '(s, d) ← WriteSnapshot vs cur (file, new_Writer);
               mret (s, v, Some new_manifest_file, set_descriptor vs (Some d))
           end) w
      end
  | _, _ => None
  end.

(** What is done without the mutex: the record and the CURRENT file. *)
Definition LogAndApply_write (s : Status) (edit : VersionEdit) (new_manifest_file : option bytes) (vs : VersionSet) :
    M W (Status * VersionSet) :=
  '(s, vs) ← (if ok s then
                match descriptor_ vs with
                | Some d =>
                    '(s, d) ← add_record d (EncodeTo edit []);
                    s ← (if ok s then wf_Sync (WritableFile := writable d.1) else mret s);
                    mret (s, set_descriptor vs (Some d))
                | None => λ _, None
                end
              else mret (s, vs));
  s ← (match new_manifest_file with
       | Some _ => if ok s then SetCurrentFile (dbname_ vs) (manifest_file_number_ vs) else mret s
       | None => mret s
       end);
  mret (s, vs).

(** The numbers of a filled edit. *)
Definition filled (n : option Z) : Z := default 0 n.

(** What is done with the mutex held in the end: the version becomes current,
    or the new MANIFEST is removed. *)
Definition LogAndApply_install (s : Status) (v : Version) (edit : VersionEdit) (new_manifest_file : option bytes)
    (vs : VersionSet) : M W VersionSet :=
  if ok s then
    let vs := AppendVersion vs v in
    mret (set_numbers vs (next_file_number_ vs) (manifest_file_number_ vs) (last_sequence_ vs)
      (filled (VersionEdit.log_number_ edit)) (filled (VersionEdit.prev_log_number_ edit)))
  else
    match new_manifest_file with
    | Some name =>
        _ ← (match descriptor_ vs with Some d => wf_delete d.1 | None => mret () end);
        _ ← Env.DeleteFile name;
        mret (set_descriptor vs None)
    | None => mret vs
    end.

(** All of it, from the caller's side: [mu] is released around the middle part
    only, where no other thread changes the version set.  The assertions on the
    log numbers of the edit are compiled out (-DNDEBUG in [Android.mk]); a caller
    that breaks them gets the numbers of its edit. *)
Definition LogAndApply (vs : VersionSet) (edit : VersionEdit) : M W (Status * VersionSet) :=
  let edit := fill_edit vs edit in
  '(s, v, new_manifest_file, vs) ← LogAndApply_prepare vs edit;
  '(s, vs) ← LogAndApply_write s edit new_manifest_file vs;
  vs ← LogAndApply_install s v edit new_manifest_file vs;
  mret (s, vs).

(** ** Recovery *)

(** The local variables of [Recover]: a number with its [have_] flag is an
    option. *)
Record Recovery := {
  r_next_file : option Z;
  r_last_sequence : option Z;
  r_log_number : option Z;
  r_prev_log_number : option Z;
  r_pointers : list bytes;
  r_builder : Builder;
}.

(** [if (edit.has_...) ...]. *)
Definition newer_number (n old : option Z) : option Z := match n with Some _ => n | None => old end.

Definition check_comparator (edit : VersionEdit) (s : Status) : Status :=
  match comparator_ edit with
  | Some name =>
      if ok s && bool_decide (name ≠ ComparatorName (Comparator := user_comparator)) then
        InvalidArgument (name ++ str " does not match existing comparator ") (ComparatorName (Comparator := user_comparator))
      else s
  | None => s
  end.

Definition recover_record (r : Recovery) (record : bytes) : option (Status * Recovery) :=
  '(s, edit) ← DecodeFrom new_VersionEdit record;
  let s := check_comparator edit s in
  '(ptrs, builder) ← (if ok s then Apply (user_comparator := user_comparator) (r_pointers r) (r_builder r) edit
                      else Some (r_pointers r, r_builder r));
  Some (s, {| r_next_file := newer_number (VersionEdit.next_file_number_ edit) (r_next_file r);
              r_last_sequence := newer_number (VersionEdit.last_sequence_ edit) (r_last_sequence r);
              r_log_number := newer_number (VersionEdit.log_number_ edit) (r_log_number r);
              r_prev_log_number := newer_number (VersionEdit.prev_log_number_ edit) (r_prev_log_number r);
              r_pointers := ptrs; r_builder := builder |}).

(** [LogReporter]: the first report that comes while the status is OK. *)
Definition reported (s : Status) (rd : Reader) : Status :=
  if ok s then match reports rd with (_, r) :: _ => r | [] => s end else s.

(** The loop over the records; [n] bounds their number. *)
Fixpoint Recover_loop (is_signed : bool) (fuel n : nat) (file : SequentialHandle) (rd : Reader) (s : Status) (r : Recovery) :
    M W (Status * Recovery) :=
  match n with
  | O => λ _, None
  | S n =>
      res ← ReadRecord (file_ := sequential file) is_signed true true 0 fuel rd;
      match res with
      | None => λ _, None
      | Some (record, rd) =>
          let s := reported s rd in
          match record with
          | Some record =>
              if ok s then
                match recover_record r record with
                | Some (s, r) => Recover_loop is_signed fuel n file rd s r
                | None => λ _, None
                end
              else mret (s, r)
          | None => mret (s, r)
          end
      end
  end.

(** What is done when the file has been read. *)
Definition finish_recovery (s : Status) (r : Recovery) (vs : VersionSet) : option (Status * VersionSet) :=
  let vs := set_compact_pointers vs (r_pointers r) in
  if ok s then
    let s := match r_next_file r, r_log_number r, r_last_sequence r with
             | None, _, _ => Corruption (str "no meta-nextfile entry in descriptor") []
             | _, None, _ => Corruption (str "no meta-lognumber entry in descriptor") []
             | _, _, None => Corruption (str "no last-sequence-number entry in descriptor") []
             | _, _, _ => s
             end in
    let prev_log_number := default 0 (r_prev_log_number r) in
    let log_number := default 0 (r_log_number r) in
    let vs := MarkFileNumberUsed (MarkFileNumberUsed vs prev_log_number) log_number in
    if ok s then
      base ← current vs;
      let v := Finalize (SaveTo (user_comparator := user_comparator) (r_builder r) base) in
      let vs := AppendVersion vs v in
      let next_file := default 0 (r_next_file r) in
      Some (s, set_numbers vs (u64 (next_file + 1)) next_file (default 0 (r_last_sequence r)) log_number prev_log_number)
    else Some (s, vs)
  else Some (s, vs).

(** [fuel] bounds the reads of CURRENT and the physical records, [n] the
    records of the MANIFEST. *)
Definition Recover (is_signed : bool) (fuel n : nat) (vs : VersionSet) : M W (Status * VersionSet) :=
  res ← ReadFileToString fuel (CurrentFileName (dbname_ vs));
  match res with
  | None => λ _, None
  | Some (s, current) =>
      if negb (ok s) then mret (s, vs)
      else if bool_decide (current = []) || bool_decide (list.last current ≠ Some (b8 10)) then
        mret (Corruption (str "CURRENT file does not end with newline") [], vs)
      else
        let current := ztake (zlen current - 1) current in
        let dscname := dbname_ vs ++ str "/" ++ current in
        res ← NewSequentialFile dscname;
        match res with
        | inl s => mret (s, vs)
        | inr file =>
            let r := {| r_next_file := None; r_last_sequence := None; r_log_number := None; r_prev_log_number := None;
                        r_pointers := compact_pointer_ vs; r_builder := new_Builder |} in
            res ← Recover_loop is_signed fuel n file new_Reader s r;
            _ ← sf_delete file;
            M_lift (λ _, finish_recovery res.1 res.2 vs)
        end
  end.
End VersionSet.
