(* ===== verification/Manifest.v ===== *)
(** The MANIFEST: what [VersionSet::LogAndApply] writes is what
    [VersionSet::Recover] reads.

    [install] is the sequence of versions that calls of [LogAndApply] make in
    memory.  The records of the MANIFEST are a snapshot of the first version and
    the edits; [Recover] of any part of the file that is left by a crash gives
    the version after the edits whose records are complete. *)
From Stdlib Require Import Sorting.Sorted.
From stdpp Require Import sorting.
From S2P Require Import Prelude SortedLists Coding Status Comparator Crc32c Env FileName LogFile DbFormat VersionEdit Version VersionBuilder VersionSet.

Section Manifest.
Context {W : Type} {E : Env W} {P : Placement} {C : Comparator} {V : bytes → Prop} {CL : ComparatorLaws C V}.

Abbreviation IKC := (InternalKeyComparator (user_comparator_ := C)).
Abbreviation IV := (ikey_valid (V := V)).
Abbreviation start_ok := (start_ok (V := V)).
Abbreviation file_lt := (file_lt (C := C)).
Abbreviation sorted := (StronglySorted file_lt).
Abbreviation numbers := (λ fs : list FileMetaData, number <$> fs).
Abbreviation edit_applies := (edit_applies (V := V)).
Abbreviation base_ok := (base_ok (C := C) (V := V)).
Abbreviation SaveTo := (SaveTo (user_comparator := C)).
Abbreviation ApplyAll := (ApplyAll (C := C)).

(** ** Versions in memory *)

(** The compaction pointers and the version after a call of [LogAndApply] for
    each edit. *)
Fixpoint install (s : list bytes * Version) (edits : list VersionEdit) : option (list bytes * Version) :=
  match edits with
  | [] => Some s
  | edit :: edits =>
      '(ptrs, b) ← Apply (user_comparator := C) s.1 new_Builder edit;
      install (ptrs, Finalize (SaveTo b s.2)) edits
  end.

Lemma level_files_Finalize v level : level_files (Finalize v) level = level_files v level.
Proof. done. Qed.

Lemma level_files_out v level : zlen (files_ v) = kNumLevels → ¬ Z.of_nat level < kNumLevels → level_files v level = [].
Proof. unfold zlen, level_files. intros Hl Hn. rewrite nth_overflow; [done|lia]. Qed.

Lemma SaveTo_length b base :
  zlen b = kNumLevels → zlen (files_ base) = kNumLevels → zlen (files_ (SaveTo b base)) = kNumLevels.
Proof. unfold zlen. intros Hb Hf. cbn [SaveTo files_]. rewrite length_zip_with. lia. Qed.

Lemma apply_edit_numbers level files edit :
  numbers (apply_edit level files edit) `sublist_of` numbers (files ++ added_to level edit).
Proof. unfold apply_edit. apply fmap_sublist. apply sublist_app; [apply sublist_filter|done]. Qed.

Lemma apply_edits_perm level fs fs' es :
  fs ≡ₚ fs' → foldl (apply_edit level) fs es ≡ₚ foldl (apply_edit level) fs' es.
Proof.
  revert fs fs'. induction es as [|e es IH]; intros fs fs' HP; [done|]. cbn [foldl]. apply IH. unfold apply_edit. by rewrite HP.
Qed.

(** What is left of [base_ok] after an edit. *)
Lemma base_ok_step v v' e es :
  base_ok v (e :: es) → edit_applies e → zlen (files_ v') = kNumLevels →
  (∀ level, Z.of_nat level < kNumLevels →
     level_files v' level ≡ₚ apply_edit (Z.of_nat level) (level_files v level) e ∧ sorted (level_files v' level)) →
  base_ok v' es.
Proof.
  intros [Hlen Hb] He Hlen' Hv'. split; [done|]. intros level. destruct (Hb level) as (H1 & H2 & H3).
  cbn [fmap list_fmap concat] in H3. rewrite app_assoc in H3.
  destruct (decide (Z.of_nat level < kNumLevels)) as [Hl|Hl].
  - destruct (Hv' level Hl) as [HP Hs]. splits; [|done|].
    + rewrite HP. unfold apply_edit. apply list.Forall_app. split; [|by apply added_to_ok].
      rewrite list.Forall_forall in H1 |- *. intros f [_ Hf]%list_elem_of_filter. by apply H1.
    + rewrite HP. eapply sublist_NoDup; [exact H3|]. rewrite !fmap_app.
      apply sublist_app; [|done]. pose proof (apply_edit_numbers (Z.of_nat level) (level_files v level) e) as Hs'.
      by rewrite fmap_app in Hs'.
  - rewrite (level_files_out v' level Hlen' Hl). splits; [constructor|constructor|].
    rewrite fmap_app, list.NoDup_app in H3. apply H3.
Qed.

Lemma base_ok_head v e es : base_ok v (e :: es) → base_ok v [e].
Proof.
  intros [Hlen Hb]. split; [done|]. intros level. destruct (Hb level) as (H1 & H2 & H3). splits; [done|done|].
  cbn [fmap list_fmap concat] in *. rewrite app_nil_r. rewrite app_assoc, fmap_app, list.NoDup_app in H3. apply H3.
Qed.

(** The versions in memory are what the edits mean. *)
Lemma install_levels es ptrs v :
  Forall edit_applies es → base_ok v es → zlen ptrs = kNumLevels →
  ∃ ptrs' v', install (ptrs, v) es = Some (ptrs', v') ∧ zlen ptrs' = kNumLevels ∧ zlen (files_ v') = kNumLevels ∧
    (∀ i p, ptrs !! i = Some p → ptrs' !! i = Some (foldl (apply_pointers (Z.of_nat i)) p es)) ∧
    ∀ level, Z.of_nat level < kNumLevels →
      level_files v' level ≡ₚ foldl (apply_edit (Z.of_nat level)) (level_files v level) es ∧
      sorted (level_files v' level).
Proof.
  intros He. revert ptrs v. induction He as [|e es He Hes IH]; intros ptrs v Hb Lp; cbn [install].
  { exists ptrs, v. splits; [done|done|apply Hb|done|]. intros level Hl. split; [done|]. apply (proj2 Hb level). }
  destruct (SaveTo_levels v [e] ptrs) as (ptrs1 & b & E1 & L1 & Lb & P1 & HL); [by constructor|by eapply base_ok_head|done|].
  unfold VersionBuilder.ApplyAll, foldM in E1. cbn [foldl mbind option_bind fst snd] in E1. cbn [fst snd]. rewrite E1.
  cbn [mbind option_bind]. pose proof Hb as [Hlen _].
  assert (zlen (files_ (Finalize (SaveTo b v))) = kNumLevels) as Hlen1 by by apply SaveTo_length.
  destruct (IH ptrs1 (Finalize (SaveTo b v))) as (ptrs' & v' & Ei & L2 & L3 & P2 & HL2); [|done|].
  - eapply base_ok_step; [exact Hb|done|done|]. intros level Hl. by apply HL.
  - exists ptrs', v'. splits; [done|done|done| |].
    + intros i p Hp. by apply P2, P1.
    + intros level Hl. destruct (HL2 level Hl) as [H1 H2]. split; [|done]. rewrite H1, level_files_Finalize.
      destruct (HL level Hl) as [H3 _]. exact (apply_edits_perm _ _ _ es H3).
Qed.

(** ** The snapshot *)

(** A file as the builder makes it. *)
Definition settled (f : FileMetaData) : Prop := seek_allowance f = f.

Definition level_pairs (v : Version) : list (nat * FileMetaData) :=
  mjoin ((λ level, pair level <$> level_files v level) <$> seq 0 (Z.to_nat kNumLevels)).

Lemma edits_new_files ps edit :
  let e := foldl (λ edit (p : nat * FileMetaData), AddFile (Z.of_nat p.1) (number p.2) (file_size p.2) (smallest p.2) (largest p.2) edit) edit ps in
  new_files_ e = new_files_ edit ++ ((λ p : nat * FileMetaData, (Z.of_nat p.1, new_FileMetaData (number p.2) (file_size p.2) (smallest p.2) (largest p.2))) <$> ps) ∧
  deleted_files_ e = deleted_files_ edit ∧ compact_pointers_ e = compact_pointers_ edit ∧ comparator_ e = comparator_ edit ∧
  VersionEdit.log_number_ e = VersionEdit.log_number_ edit ∧ VersionEdit.prev_log_number_ e = VersionEdit.prev_log_number_ edit ∧
  VersionEdit.next_file_number_ e = VersionEdit.next_file_number_ edit ∧ VersionEdit.last_sequence_ e = VersionEdit.last_sequence_ edit.
Proof.
  cbv zeta. revert edit. induction ps as [|p ps IH]; intros edit; cbn [foldl]; [by rewrite app_nil_r|].
  destruct (IH (AddFile (Z.of_nat p.1) (number p.2) (file_size p.2) (smallest p.2) (largest p.2) edit)) as (-> & -> & -> & -> & -> & -> & -> & ->).
  splits; try done. cbn [AddFile add_new_file new_files_]. by rewrite <- app_assoc.
Qed.

Lemma edits_pointers (ps : list (nat * bytes)) edit :
  let e := foldl (λ edit (p : nat * bytes), if decide (p.2 ≠ []) then SetCompactPointer (Z.of_nat p.1) p.2 edit else edit) edit ps in
  compact_pointers_ e = compact_pointers_ edit ++ ((λ p : nat * bytes, (Z.of_nat p.1, p.2)) <$> filter (λ p, p.2 ≠ []) ps) ∧
  deleted_files_ e = deleted_files_ edit ∧ new_files_ e = new_files_ edit ∧ comparator_ e = comparator_ edit ∧
  VersionEdit.log_number_ e = VersionEdit.log_number_ edit ∧ VersionEdit.prev_log_number_ e = VersionEdit.prev_log_number_ edit ∧
  VersionEdit.next_file_number_ e = VersionEdit.next_file_number_ edit ∧ VersionEdit.last_sequence_ e = VersionEdit.last_sequence_ edit.
Proof.
  cbv zeta. revert edit. induction ps as [|p ps IH]; intros edit; cbn [foldl]; [by rewrite app_nil_r|].
  rewrite filter_cons. destruct (decide (p.2 ≠ [])).
  - destruct (IH (SetCompactPointer (Z.of_nat p.1) p.2 edit)) as (-> & -> & -> & -> & -> & -> & -> & ->).
    splits; try done. cbn [SetCompactPointer compact_pointers_]. by rewrite <- app_assoc.
  - destruct (IH edit) as (-> & -> & -> & -> & -> & -> & -> & ->). done.
Qed.

(** The members of the snapshot. *)
Lemma snapshot_edit_eq ptrs v :
  snapshot_edit (user_comparator := C) ptrs v =
  {| comparator_ := Some (ComparatorName (Comparator := C)); VersionEdit.log_number_ := None; VersionEdit.prev_log_number_ := None;
     VersionEdit.next_file_number_ := None; VersionEdit.last_sequence_ := None;
     compact_pointers_ := (λ p : nat * bytes, (Z.of_nat p.1, p.2)) <$> filter (λ p, p.2 ≠ []) (zip (seq 0 (Z.to_nat kNumLevels)) ptrs);
     deleted_files_ := [];
     new_files_ := (λ p : nat * FileMetaData, (Z.of_nat p.1, new_FileMetaData (number p.2) (file_size p.2) (smallest p.2) (largest p.2))) <$> level_pairs v |}.
Proof.
  unfold snapshot_edit. cbv zeta. fold (level_pairs v).
  set (e0 := SetComparatorName _ _).
  destruct (edits_pointers (zip (seq 0 (Z.to_nat kNumLevels)) ptrs) e0) as (P1 & P2 & P3 & P4 & P5 & P6 & P7 & P8).
  set (e1 := foldl _ e0 _) in *.
  destruct (edits_new_files (level_pairs v) e1) as (N1 & N2 & N3 & N4 & N5 & N6 & N7 & N8).
  set (e2 := foldl _ e1 _) in *. destruct e2. cbn in *. subst. rewrite P1, P2, P3, P4, P5, P6, P7, P8. done.
Qed.

Lemma filter_level_pairs v level :
  Z.of_nat level < kNumLevels →
  filter (λ p, p.1 = level) (level_pairs v) = pair level <$> level_files v level.
Proof.
  intros Hl. unfold level_pairs.
  assert (Hother : ∀ ls, level ∉ ls → filter (λ p : nat * FileMetaData, p.1 = level) (mjoin ((λ l, pair l <$> level_files v l) <$> ls)) = []).
  { intros ls Hls. apply filter_none. apply list.Forall_forall. intros p (l & Hp & (k & -> & Hk)%list_elem_of_fmap)%list_elem_of_join He.
    apply list_elem_of_fmap in Hp as (f & -> & _). cbn in He. by subst. }
  assert (seq 0 (Z.to_nat kNumLevels) = seq 0 level ++ level :: seq (S level) (Z.to_nat kNumLevels - S level)) as ->.
  { replace (Z.to_nat kNumLevels) with (level + S (Z.to_nat kNumLevels - S level))%nat at 1 by lia. by rewrite seq_app. }
  rewrite fmap_app, join_app, list.filter_app, Hother by (rewrite elem_of_seq; lia).
  assert (∀ ls, mjoin ((λ l, pair l <$> level_files v l) <$> level :: ls) =
    (pair level <$> level_files v level) ++ mjoin ((λ l, pair l <$> level_files v l) <$> ls)) as -> by done.
  rewrite app_nil_l, list.filter_app, (Hother (seq (S level) _)), app_nil_r by (rewrite elem_of_seq; lia). apply filter_all. apply list.Forall_forall. by intros p (f & -> & _)%list_elem_of_fmap.
Qed.

(** The snapshot has the files of the version. *)
Lemma added_to_snapshot ptrs v level :
  Z.of_nat level < kNumLevels → Forall settled (level_files v level) →
  added_to (Z.of_nat level) (snapshot_edit (user_comparator := C) ptrs v) = level_files v level.
Proof.
  intros Hl Hs. unfold added_to. rewrite snapshot_edit_eq. cbn [new_files_]. rewrite filter_fmap.
  rewrite (list_filter_iff _ (λ p : nat * FileMetaData, p.1 = level) (level_pairs v)) by (intros p; cbn; lia).
  rewrite (filter_level_pairs v level Hl).
  rewrite <- !list_fmap_compose. rewrite <- (list_fmap_id (level_files v level)) at 2. apply list_fmap_ext.
  intros i f Hf. rewrite list.Forall_forall in Hs. exact (Hs f (list_elem_of_lookup_2 _ _ _ Hf)).
Qed.

Lemma filter_zip_seq {A} k n i (l : list A) x :
  l !! i = Some x → (length l ≤ n)%nat → filter (λ p : nat * A, p.1 = (k + i)%nat) (zip (seq k n) l) = [((k + i)%nat, x)].
Proof.
  assert (Hnone : ∀ n k j (l : list A), (j < k)%nat → filter (λ p : nat * A, p.1 = j) (zip (seq k n) l) = []).
  { intros n' k' j l' Hj. apply filter_none. apply list.Forall_forall. intros [a b] Hp%elem_of_zip_l%elem_of_seq He. cbn in He. lia. }
  revert k n l. induction i as [|i IH]; intros k n [|y l] Hx Hn; try done; (destruct n as [|n]; [cbn in Hn; lia|]);
    cbn [seq zip_with]; rewrite filter_cons; cbn [fst].
  - injection Hx as ->. rewrite decide_True by lia. rewrite Hnone by lia. by rewrite Nat.add_0_r.
  - rewrite decide_False by lia. replace (k + S i)%nat with (S k + i)%nat by lia. apply IH; [done|cbn in Hn; lia].
Qed.

(** The snapshot has the compaction pointers. *)
Lemma apply_pointers_snapshot ptrs v i p :
  zlen ptrs = kNumLevels → ptrs !! i = Some p → apply_pointers (Z.of_nat i) [] (snapshot_edit (user_comparator := C) ptrs v) = p.
Proof.
  intros Hl Hp. unfold apply_pointers. rewrite snapshot_edit_eq. cbn [compact_pointers_]. rewrite filter_fmap, foldl_fmap.
  rewrite list_filter_filter.
  rewrite (list_filter_iff _ (λ q : nat * bytes, q.2 ≠ [] ∧ q.1 = (0 + i)%nat)) by (intros q; cbn; intuition lia).
  rewrite <- list_filter_filter, (filter_zip_seq 0 _ i ptrs p Hp) by (unfold zlen in Hl; lia).
  rewrite filter_cons, filter_nil. cbn [snd]. destruct (decide (p ≠ [])) as [Hn|Hn]; [done|]. cbn. by apply dec_stable in Hn.
Qed.

(** ** Recovery of the records *)

(** The variables of [Recover] after a record. *)
Definition recover_step (r : Recovery) (edit : VersionEdit) (s : list bytes * Builder) : Recovery :=
  {| r_next_file := newer_number (VersionEdit.next_file_number_ edit) (r_next_file r);
     r_last_sequence := newer_number (VersionEdit.last_sequence_ edit) (r_last_sequence r);
     r_log_number := newer_number (VersionEdit.log_number_ edit) (r_log_number r);
     r_prev_log_number := newer_number (VersionEdit.prev_log_number_ edit) (r_prev_log_number r);
     r_pointers := s.1; r_builder := s.2 |}.

Definition recover_edits (edits : list VersionEdit) (r : Recovery) : option Recovery :=
  foldM (λ r edit, s ← Apply (user_comparator := C) (r_pointers r) (r_builder r) edit; Some (recover_step r edit s)) edits r.

Definition comparator_ok (edit : VersionEdit) : Prop :=
  match comparator_ edit with Some name => name = ComparatorName (Comparator := C) | None => True end.

Lemma recover_record_ok r edit s :
  VersionEdit.edit_ok edit → comparator_ok edit → Apply (user_comparator := C) (r_pointers r) (r_builder r) edit = Some s →
  recover_record (user_comparator := C) r (EncodeTo edit []) = Some (Status_OK, recover_step r edit s).
Proof.
  intros He Hc HA. unfold recover_record.
  assert (DecodeFrom new_VersionEdit (EncodeTo edit []) = Some (Status_OK, edit)) as ->
    by (rewrite DecodeFrom_EncodeTo by done; by destruct edit).
  cbn [mbind option_bind].
  assert (check_comparator (user_comparator := C) edit Status_OK = Status_OK) as Hs.
  { unfold check_comparator, comparator_ok in *. destruct (comparator_ edit) as [name|]; [|done]. subst.
    by rewrite bool_decide_false by tauto. }
  cbv zeta. rewrite Hs. cbn [ok Status_OK]. rewrite HA. by destruct s.
Qed.

(** The numbers that are left in the end. *)
Definition last_number (f : VersionEdit → option Z) (edits : list VersionEdit) (n : option Z) : option Z :=
  foldl (λ n e, newer_number (f e) n) n edits.

Lemma last_number_last f edits e n m : list.last edits = Some e → f e = Some m → last_number f edits n = Some m.
Proof.
  intros Hl Hm. apply last_Some in Hl as [l ->]. unfold last_number. rewrite foldl_app. cbn. by rewrite Hm.
Qed.

Lemma foldM_None {A B} (f : A → B → option A) l : foldl (λ r b, a ← r; f a b) None l = None.
Proof. by induction l. Qed.

Lemma recover_edits_ok edits r ptrs b :
  ApplyAll edits (r_pointers r, r_builder r) = Some (ptrs, b) →
  recover_edits edits r = Some
    {| r_next_file := last_number VersionEdit.next_file_number_ edits (r_next_file r);
       r_last_sequence := last_number VersionEdit.last_sequence_ edits (r_last_sequence r);
       r_log_number := last_number VersionEdit.log_number_ edits (r_log_number r);
       r_prev_log_number := last_number VersionEdit.prev_log_number_ edits (r_prev_log_number r);
       r_pointers := ptrs; r_builder := b |}.
Proof.
  unfold recover_edits, VersionBuilder.ApplyAll, foldM. revert r. induction edits as [|e edits IH]; intros r HA.
  { cbn in HA. injection HA as <- <-. by destruct r. }
  cbn [foldl mbind option_bind fst snd] in *.
  destruct (Apply (r_pointers r) (r_builder r) e) as [[ptrs1 b1]|] eqn:E1; cbn [mbind option_bind].
  - rewrite (IH (recover_step r e (ptrs1, b1))); [done|exact HA].
  - cbn [mbind option_bind] in HA. by rewrite foldM_None in HA.
Qed.

(** The loop over the records of a log. *)
Lemma Recover_loop_reads {inv : W → Prop} k is_signed fuel n file edits rd w r r' :
  reads (file_ := sequential file) (inv := inv) is_signed true true k fuel ((λ e, EncodeTo e []) <$> edits) rd w →
  reports rd = [] → k + 1 < Z.of_nat fuel → (length edits < n)%nat →
  Forall (λ e, VersionEdit.edit_ok e ∧ comparator_ok e) edits → recover_edits edits r = Some r' →
  ∃ w', Recover_loop (user_comparator := C) is_signed fuel n file rd Status_OK r w = Some ((Status_OK, r'), w') ∧ inv w'.
Proof.
  intros HR Hrep Hk. revert n rd w r HR Hrep. induction edits as [|e edits IH]; intros [|n] rd w r HR Hrep Hn He Hr;
    cbn [length] in Hn; try lia; cbn [reads fmap list_fmap] in HR; destruct HR as (rec & rd' & w' & EQ & Hi & Hrep' & HR);
    cbn [Recover_loop]; unfold mbind at 1, M_bind; rewrite EQ.
  - subst rec. unfold reported. cbn [ok Status_OK]. rewrite Hrep', Hrep. unfold recover_edits, foldM in Hr. cbn in Hr.
    injection Hr as <-. exists w'. split; [done|]. by apply Hi.
  - destruct HR as [-> HR]. unfold reported. cbn [ok Status_OK]. rewrite Hrep', Hrep. cbn [ok Status_OK].
    apply list.Forall_cons in He as [[He Hc] Hes]. unfold recover_edits, foldM in Hr. cbn [foldl mbind option_bind] in Hr.
    destruct (Apply (r_pointers r) (r_builder r) e) as [s|] eqn:E1; cbn [mbind option_bind] in Hr; [|by rewrite foldM_None in Hr].
    rewrite (recover_record_ok r e s He Hc E1). apply (IH n rd' w' (recover_step r e s)); [done|by rewrite Hrep'|lia|done|exact Hr].
Qed.

(** ** The version that is recovered *)

(** What the database has in memory, and what it writes. *)
Record history_ok (ptrs : list bytes) (v : Version) (edits : list VersionEdit) : Prop := {
  ho_pointers : zlen ptrs = kNumLevels;
  ho_base : base_ok v edits;
  ho_settled level : Forall settled (level_files v level);
  ho_snapshot : VersionEdit.edit_ok (snapshot_edit (user_comparator := C) ptrs v);
  ho_edits : Forall (λ e, edit_applies e ∧ VersionEdit.edit_ok e ∧ comparator_ok e) edits;
}.

Lemma level_files_new level : level_files new_Version level = [].
Proof. unfold level_files. cbn [new_Version files_]. by do 8 (destruct level as [|level]; [done|]). Qed.

Lemma level_pairs_elem v p : p ∈ level_pairs v → (Z.of_nat p.1 < kNumLevels) ∧ p.2 ∈ level_files v p.1.
Proof.
  unfold level_pairs. intros (l & Hp & (k & -> & Hk%elem_of_seq)%list_elem_of_fmap)%list_elem_of_join.
  apply list_elem_of_fmap in Hp as (f & -> & Hf). cbn. split; [lia|done].
Qed.

Lemma snapshot_applies ptrs v edits : history_ok ptrs v edits → edit_applies (snapshot_edit (user_comparator := C) ptrs v).
Proof.
  intros H. rewrite snapshot_edit_eq. split; cbn [compact_pointers_ deleted_files_ new_files_]; [|constructor|];
    apply list.Forall_fmap, list.Forall_forall.
  - intros [i p] [_ Hp]%list_elem_of_filter. apply elem_of_zip_l, elem_of_seq in Hp. cbn. unfold level_ok. lia.
  - intros p [Hl Hf]%level_pairs_elem. cbn. split; [unfold level_ok; lia|]. destruct (ho_base _ _ _ H) as [_ Hb].
    destruct (Hb p.1) as (HV & _). rewrite list.Forall_forall in HV. by apply (HV p.2).
Qed.

Lemma added_to_snapshot_any ptrs v edits level :
  history_ok ptrs v edits → added_to (Z.of_nat level) (snapshot_edit (user_comparator := C) ptrs v) = level_files v level.
Proof.
  intros H. destruct (decide (Z.of_nat level < kNumLevels)) as [Hl|Hl]; [by apply added_to_snapshot; [|apply H]|].
  rewrite (level_files_out v level); [|apply (ho_base _ _ _ H)|done]. unfold added_to. rewrite filter_none; [done|].
  apply list.Forall_forall. intros n Hn He. pose proof (eo_new _ (snapshot_applies ptrs v edits H)) as HN.
  rewrite list.Forall_forall in HN. destruct (HN n Hn) as [[_ Hlt] _]. lia.
Qed.

(** The history up to some edit. *)
Lemma history_prefix ptrs v es1 es2 : history_ok ptrs v (es1 ++ es2) → history_ok ptrs v es1.
Proof.
  intros [H1 [Hlen Hb] H3 H4 H5]. split; [done| |done|done|by apply list.Forall_app in H5 as [? _]]. split; [done|].
  intros level. destruct (Hb level) as (B1 & B2 & B3). splits; [done|done|].
  rewrite (fmap_app (added_to (Z.of_nat level)) es1 es2), concat_app, app_assoc, fmap_app, list.NoDup_app in B3. apply B3.
Qed.

Lemma recovered_base ptrs v es :
  history_ok ptrs v es → base_ok new_Version (snapshot_edit (user_comparator := C) ptrs v :: es).
Proof.
  intros H. split; [done|]. intros level. rewrite level_files_new. splits; [constructor|constructor|].
  cbn [fmap list_fmap concat app]. rewrite (added_to_snapshot_any ptrs v es level H). by apply (ho_base _ _ _ H).
Qed.

Lemma apply_edits_start level fs es :
  Forall start_ok fs → Forall edit_applies es → Forall start_ok (foldl (apply_edit level) fs es).
Proof.
  intros Hf He. revert fs Hf. induction He as [|e es He _ IH]; intros fs Hf; [done|]. cbn [foldl]. apply IH.
  unfold apply_edit. apply list.Forall_app. split; [|by apply added_to_ok].
  rewrite list.Forall_forall in Hf |- *. intros f [_ Hin]%list_elem_of_filter. by apply Hf.
Qed.

Lemma files_eq v1 v2 :
  zlen (files_ v1) = kNumLevels → zlen (files_ v2) = kNumLevels →
  (∀ level, Z.of_nat level < kNumLevels → level_files v1 level = level_files v2 level) → files_ v1 = files_ v2.
Proof.
  unfold zlen, level_files. intros H1 H2 Heq. apply (list_eq_same_length _ _ (length (files_ v1))); [lia|done|].
  intros i x y Hi Hx Hy. specialize (Heq i ltac:(lia)).
  by rewrite (nth_lookup_Some _ _ _ _ Hx), (nth_lookup_Some _ _ _ _ Hy) in Heq.
Qed.

(** The snapshot and the edits, applied to nothing, give the version and the
    pointers that are in memory. *)
Lemma recovered_state ptrs v es :
  history_ok ptrs v es →
  ∃ ptrs' v' b, install (ptrs, v) es = Some (ptrs', v') ∧
    ApplyAll (snapshot_edit (user_comparator := C) ptrs v :: es) (replicate (Z.to_nat kNumLevels) [], new_Builder) = Some (ptrs', b) ∧
    files_ (SaveTo b new_Version) = files_ v'.
Proof.
  intros H. pose proof H as [Lp Hb Hst Hsn Hes].
  assert (Forall edit_applies es) as Hap by (eapply Forall_impl; [|exact Hes]; by intros ? [? _]).
  destruct (install_levels es ptrs v Hap Hb Lp) as (ptrs' & v' & Ei & L1 & L2 & P1 & HL1).
  destruct (SaveTo_levels new_Version (snapshot_edit (user_comparator := C) ptrs v :: es) (replicate (Z.to_nat kNumLevels) []))
    as (ptrs2 & b & Ea & L3 & L4 & P2 & HL2); [constructor; [by eapply snapshot_applies|done]|by apply recovered_base|done|].
  exists ptrs', v', b. split; [done|]. split.
  - rewrite Ea. f_equal. f_equal. unfold zlen in *. apply (list_eq_same_length _ _ 7); [unfold kNumLevels in *; lia..|].
    intros i x y Hi Hx Hy. destruct (lookup_lt_is_Some_2 ptrs i) as [p Hp]; [unfold kNumLevels in *; lia|].
    rewrite (P1 i p Hp) in Hy. rewrite (P2 i []) in Hx by (apply lookup_replicate_2; done). cbn [foldl] in Hx.
    rewrite (apply_pointers_snapshot ptrs v i p Lp Hp) in Hx. congruence.
  - apply files_eq; [by apply SaveTo_length|done|]. intros level Hl.
    destruct (HL1 level Hl) as [A1 A2]. destruct (HL2 level Hl) as [B1 B2]. rewrite level_files_new in B1. cbn [foldl] in B1.
    unfold apply_edit at 2 in B1. rewrite filter_nil, app_nil_l, (added_to_snapshot_any ptrs v es level H) in B1.
    apply sorted_unique; [|exact B2|exact A2|by rewrite A1, B1].
    rewrite B1. apply apply_edits_start; [|done]. by apply Hb.
Qed.

(** ** Recovery after a crash *)

Lemma log_bytes_le a b : zlen (log_bytes a) ≤ zlen (log_bytes (a ++ b)).
Proof. unfold log_bytes. rewrite log_layout_app. cbn [fst]. rewrite zlen_app. pose proof (zlen_nonneg (fst (log_layout (snd (log_layout 0 a)) b))). lia. Qed.

(** An edit with all numbers set, as [LogAndApply] writes it. *)
Definition edit_filled (e : VersionEdit) : Prop :=
  is_Some (VersionEdit.log_number_ e) ∧ is_Some (VersionEdit.prev_log_number_ e) ∧
  is_Some (VersionEdit.next_file_number_ e) ∧ is_Some (VersionEdit.last_sequence_ e).

(** The state is that of the version [v'] with the numbers of [e]. *)
Record recovered (vs : VersionSet (E := E)) (ptrs' : list bytes) (v' : Version) (e : VersionEdit) : Prop := {
  rc_files : files_ <$> current vs = Some (files_ v');
  rc_pointers : compact_pointer_ vs = ptrs';
  rc_log : VersionEdit.log_number_ e = Some (log_number_ vs);
  rc_prev_log : VersionEdit.prev_log_number_ e = Some (prev_log_number_ vs);
  rc_sequence : VersionEdit.last_sequence_ e = Some (last_sequence_ vs);
  rc_manifest : VersionEdit.next_file_number_ e = Some (manifest_file_number_ vs);
  rc_next_file : next_file_number_ vs = u64 (manifest_file_number_ vs + 1);
}.

Lemma AppendVersion_current (vs : VersionSet (E := E)) v :
  current_ vs = Some 0%nat → versions_ vs = [{| address := 0; refs_ := 1; version := new_Version |}] →
  next_address vs = 1%nat → current (AppendVersion vs v) = Some v.
Proof. destruct vs. cbn. by intros -> -> ->. Qed.

Lemma finish_recovered dbname r ptrs' v' e :
  r_pointers r = ptrs' → files_ (SaveTo (r_builder r) new_Version) = files_ v' → edit_filled e →
  r_next_file r = VersionEdit.next_file_number_ e → r_last_sequence r = VersionEdit.last_sequence_ e →
  r_log_number r = VersionEdit.log_number_ e → r_prev_log_number r = VersionEdit.prev_log_number_ e →
  ∃ vs', finish_recovery (user_comparator := C) Status_OK r (new_VersionSet (E := E) dbname) = Some (Status_OK, vs') ∧
    recovered vs' ptrs' v' e.
Proof.
  intros Hp Hf ([l El] & [p Ep] & [n En] & [s Es]) H1 H2 H3 H4. unfold finish_recovery.
  rewrite H1, H2, H3, H4, El, Ep, En, Es. cbn [ok Status_OK default]. cbv zeta.
  match goal with |- context [current ?x] => set (vs1 := x) end. assert (current vs1 = Some new_Version ∧ compact_pointer_ vs1 = r_pointers r ∧
    versions_ vs1 = [{| address := 0; refs_ := 1; version := new_Version |}] ∧ current_ vs1 = Some 0%nat ∧ next_address vs1 = 1%nat)
    as (Hc & Hcp & Hvs & Hcur & Hnx) by (subst vs1; unfold MarkFileNumberUsed; repeat case_decide; done).
  rewrite Hc. cbn [mbind option_bind]. eexists. split; [done|].
  split; cbn [set_numbers log_number_ prev_log_number_ last_sequence_ manifest_file_number_ next_file_number_ compact_pointer_].
  - change (files_ <$> current (AppendVersion vs1 (Finalize (SaveTo (r_builder r) new_Version))) = Some (files_ v')).
    rewrite AppendVersion_current by done. by rewrite <- Hf.
  - unfold AppendVersion. rewrite Hcur. unfold Unref. cbn [set_versions compact_pointer_ set_numbers]. by rewrite Hcp.
  - done.
  - done.
  - done.
  - done.
  - done.
Qed.

Section Crash.
Context {PL : PlacementLaws P} {inv : W → Prop} {rest : W → bytes}.
Context (file : SequentialHandle) {FL : SequentialFileLaws (sequential file) inv rest}.

(** The records that are complete are two at least. *)
Lemma complete_two p q (records : list bytes) k :
  records = p ++ q → zlen (log_bytes (take 2 records)) ≤ k → (2 ≤ length records)%nat →
  match q with [] => True | s :: _ => k < zlen (log_bytes (p ++ [s])) end → (2 ≤ length p)%nat.
Proof.
  intros Epq Hk Hlen Hq. destruct (decide (2 ≤ length p)%nat); [done|]. exfalso. destruct q as [|s q].
  - rewrite app_nil_r in Epq. rewrite Epq in Hlen. lia.
  - assert (take 2 records = (p ++ [s]) ++ drop (length (p ++ [s])) (take 2 records)) as Et.
    { rewrite <- (take_drop (length (p ++ [s])) (take 2 records)) at 1. f_equal.
      rewrite take_take, Nat.min_l by (rewrite length_app; cbn; lia). rewrite Epq, (cons_middle s p q), app_assoc.
      by rewrite take_app_length. }
    rewrite Et in Hk. pose proof (log_bytes_le (p ++ [s]) (drop (length (p ++ [s])) (take 2 records))). lia.
Qed.

(** The steps of [Recover] when every operation succeeds. *)
Lemma Recover_steps is_signed fuel n dbname name w w1 w2 w3 w4 r vs' :
  ReadFileToString fuel (CurrentFileName dbname) w = Some (Some (Status_OK, name ++ [b8 10]), w1) →
  NewSequentialFile (dbname ++ str "/" ++ name) w1 = Some (inr file, w2) →
  Recover_loop (user_comparator := C) is_signed fuel n file new_Reader Status_OK
    {| r_next_file := None; r_last_sequence := None; r_log_number := None; r_prev_log_number := None;
       r_pointers := compact_pointer_ (new_VersionSet (E := E) dbname); r_builder := new_Builder |} w2 = Some ((Status_OK, r), w3) →
  sf_delete file w3 = Some ((), w4) →
  finish_recovery (user_comparator := C) Status_OK r (new_VersionSet (E := E) dbname) = Some (Status_OK, vs') →
  Recover (user_comparator := C) is_signed fuel n (new_VersionSet dbname) w = Some ((Status_OK, vs'), w4).
Proof.
  intros Ecur Enew Eloop Edel Efin. unfold Recover. rewrite (M_bind_Some _ _ _ _ _ Ecur). cbn [ok Status_OK negb].
  rewrite bool_decide_false by (by destruct name). rewrite bool_decide_false by (rewrite last_snoc; tauto). cbn [orb].
  assert (ztake (zlen (name ++ [b8 10]) - 1) (name ++ [b8 10]) = name) as ->.
  { apply ztake_app_n. rewrite zlen_app. change (zlen [b8 10]) with 1. lia. }
  change (dbname_ (new_VersionSet dbname)) with dbname. rewrite (M_bind_Some _ _ _ _ _ Enew).
  rewrite (M_bind_Some _ _ _ _ _ Eloop), (M_bind_Some _ _ _ _ _ Edel). unfold M_lift. cbn [fst snd]. by rewrite Efin.
Qed.

(** C28: the database that is opened after a crash is one that was there. The
    MANIFEST holds a snapshot of a version and one record for each edit that
    [LogAndApply] has installed since; of the file the first [k] bytes are left,
    at least the snapshot and one edit. Then [Recover] succeeds, and the current
    version, the compaction pointers and the numbers are those that were in
    memory after some prefix of the edits: all the edits whose records are
    complete. *)
Theorem Recover_after_crash is_signed fuel n dbname name ptrs v es k w w1 w2 :
  let records := (λ e, EncodeTo e []) <$> snapshot_edit (user_comparator := C) ptrs v :: es in
  history_ok ptrs v es → Forall edit_filled es →
  zlen (log_bytes (take 2 records)) ≤ k ≤ zlen (log_bytes records) → (2 ≤ length records)%nat →
  ReadFileToString fuel (CurrentFileName dbname) w = Some (Some (Status_OK, name ++ [b8 10]), w1) →
  NewSequentialFile (dbname ++ str "/" ++ name) w1 = Some (inr file, w2) →
  inv w2 → rest w2 = ztake k (log_bytes records) → (∀ w, inv w → ∃ w', sf_delete file w = Some ((), w')) →
  Forall (λ s, (length s + 2 ≤ fuel)%nat) records → k + 1 < Z.of_nat fuel → (length records < n)%nat →
  ∃ es1 es2 e ptrs' v' vs' w', es = es1 ++ es2 ∧ list.last es1 = Some e ∧
    zlen (log_bytes (take (S (length es1)) records)) ≤ k ∧
    (es2 = [] ∨ k < zlen (log_bytes (take (S (S (length es1))) records))) ∧
    install (ptrs, v) es1 = Some (ptrs', v') ∧
    Recover (user_comparator := C) is_signed fuel n (new_VersionSet dbname) w = Some ((Status_OK, vs'), w') ∧
    recovered vs' ptrs' v' e.
Proof.
  intros records H Hfill [Hk1 Hk2] Hlen Ecur Enew Hi Hrest Hdel Hfuel Hf Hn.
  set (all := snapshot_edit (user_comparator := C) ptrs v :: es) in *.
  assert (0 ≤ k) as Hk0 by (pose proof (zlen_nonneg (log_bytes (take 2 records))); lia).
  destruct (reads_start (file_ := sequential file) (inv := inv) (rest := rest) is_signed true true (log_bytes records) k
    ltac:(lia) fuel records w2 Hi Hrest eq_refl Hfuel ltac:(lia))
    as (p & q & Epq & HR & Hp & Hq).
  pose proof (complete_two p q records k Epq Hk1 Hlen Hq) as Hp2.
  unfold records in Epq. apply fmap_app_inv in Epq as (a & b & -> & -> & Eab).
  destruct a as [|x es1]; [cbn in Hp2; lia|]. injection Eab as <- ->. rewrite length_fmap in Hp2. cbn [length] in Hp2.
  destruct (list.last es1) as [e|] eqn:Elast; [|apply last_None in Elast; subst; cbn in Hp2; lia].
  pose proof (history_prefix ptrs v es1 b H) as H1.
  destruct (recovered_state ptrs v es1 H1) as (ptrs' & v' & bld & Einst & Eall & Efiles).
  set (r0 := {| r_next_file := None; r_last_sequence := None; r_log_number := None; r_prev_log_number := None;
                r_pointers := compact_pointer_ (new_VersionSet (E := E) dbname); r_builder := new_Builder |}).
  pose proof (recover_edits_ok _ r0 ptrs' bld Eall) as Erec.
  match type of Erec with _ = Some ?r => set (r1 := r) in * end.
  destruct (Recover_loop_reads k is_signed fuel n file _ new_Reader w2 r0 r1 HR eq_refl Hf) as (w3 & Eloop & Hi3); [| |exact Erec|].
  { unfold records, all in Hn. rewrite length_fmap in Hn. cbn [length] in Hn |- *. rewrite length_app in Hn. lia. }
  { constructor; [split; [apply H|by rewrite snapshot_edit_eq]|]. eapply Forall_impl; [|apply (ho_edits _ _ _ H1)].
    by intros ? (_ & ? & ?). }
  destruct (Hdel w3 Hi3) as [w4 Edel].
  assert (edit_filled e) as He.
  { rewrite list.Forall_forall in Hfill. apply Hfill, elem_of_app. left. by apply last_Some_elem_of. }
  assert (Hlast : ∀ f, is_Some (f e) → last_number f (snapshot_edit (user_comparator := C) ptrs v :: es1) None = f e).
  { intros f [m Hm]. rewrite Hm. apply (last_number_last f _ e); [|done]. by apply last_Some in Elast as [l ->]; rewrite last_cons, last_snoc. }
  destruct He as (He1 & He2 & He3 & He4).
  destruct (finish_recovered dbname r1 ptrs' v' e eq_refl Efiles) as (vs' & Efin & Hrec);
    [done|by apply Hlast|by apply Hlast|by apply Hlast|by apply Hlast|].
  exists es1, b, e, ptrs', v', vs', w4. splits; [done|exact Elast| | |done| |done].
  - unfold records, all. rewrite app_comm_cons, fmap_app. rewrite take_app_le by (rewrite length_fmap; cbn; lia).
    rewrite firstn_all2 by (rewrite length_fmap; cbn; lia). exact Hp.
  - destruct b as [|e2 b]; [by left|right]. cbn [fmap list_fmap] in Hq. unfold records, all. rewrite app_comm_cons, fmap_app.
    rewrite take_app_ge by (rewrite length_fmap; cbn; lia). rewrite length_fmap. cbn [length].
    replace (S (S (length es1)) - S (length es1))%nat with 1%nat by lia. exact Hq.
  - by eapply Recover_steps.
Qed.
End Crash.
End Manifest.

(** ** [LogAndApply] *)

Section LogAndApply.
Context {W : Type} {E : Env W} {P : Placement} {C : Comparator}.

(** The list of versions is well formed and has a current version. *)
Definition versions_wf (vs : VersionSet (E := E)) (cur : Version) : Prop :=
  NoDup (address <$> versions_ vs) ∧ Forall (λ v, (address v < next_address vs)%nat) (versions_ vs) ∧
  current vs = Some cur.

Lemma find_version_app l (v : LiveVersion) n :
  Forall (λ u, (address u < n)%nat) l → address v = n →
  list_find (λ u, address u = n) (l ++ [v]) = Some (length l, v).
Proof.
  intros Hl Hn. apply list_find_Some. splits.
  - rewrite lookup_app_r by done. by rewrite Nat.sub_diag.
  - done.
  - intros j u Hu Hj He. rewrite lookup_app_l in Hu by done. rewrite list.Forall_forall in Hl.
    specialize (Hl u (list_elem_of_lookup_2 _ _ _ Hu)). lia.
Qed.

Lemma change_refs_address n p l : address <$> change_refs n p l = address <$> l.
Proof.
  unfold change_refs. rewrite <- list_fmap_compose. apply list_fmap_ext. intros i v _. cbn. by case_decide.
Qed.

Lemma Unref_wf (vs : VersionSet (E := E)) p :
  NoDup (address <$> versions_ vs) → Forall (λ v, (address v < next_address vs)%nat) (versions_ vs) →
  NoDup (address <$> versions_ (Unref vs p)) ∧ Forall (λ v, (address v < next_address vs)%nat) (versions_ (Unref vs p)).
Proof.
  intros H1 H2. unfold Unref. cbn [set_versions versions_].
  assert (Forall (λ v, (address v < next_address vs)%nat) (change_refs (-1) p (versions_ vs))) as H3.
  { apply (Forall_fmap address (λ a, (a < next_address vs)%nat)). rewrite change_refs_address. by apply list.Forall_fmap. }
  split.
  - eapply sublist_NoDup; [|apply fmap_sublist, sublist_filter]. by rewrite change_refs_address.
  - rewrite list.Forall_forall in H3 |- *. intros v [_ Hv]%list_elem_of_filter. by apply H3.
Qed.

Lemma AppendVersion_wf (vs : VersionSet (E := E)) cur v : versions_wf vs cur → versions_wf (AppendVersion vs v) v.
Proof.
  intros (H1 & H2 & Hc). unfold AppendVersion.
  assert (∃ p, current_ vs = Some p) as [p ->] by (unfold current in Hc; destruct (current_ vs); [eauto|done]).
  destruct (Unref_wf vs p H1 H2) as [H3 H4]. unfold versions_wf. cbn [set_versions versions_ next_address].
  change (next_address (Unref vs p)) with (next_address vs).
  splits.
  - rewrite fmap_app, list.NoDup_app. splits; [done| |apply NoDup_singleton].
    intros a (u & -> & Hu)%list_elem_of_fmap He%list_elem_of_singleton. cbn in He.
    rewrite list.Forall_forall in H4. specialize (H4 u Hu). lia.
  - apply list.Forall_app. split; [|by repeat constructor]. eapply Forall_impl; [|exact H4]. cbn. lia.
  - unfold current, find_version. cbn [set_versions current_ versions_ mbind option_bind].
    rewrite (find_version_app (versions_ (Unref vs p)) _ (next_address vs)) by done. done.
Qed.

(** What the operations on files leave alone. *)
Definition same_versions (vs vs' : VersionSet (E := E)) : Prop :=
  versions_ vs' = versions_ vs ∧ current_ vs' = current_ vs ∧ next_address vs' = next_address vs ∧
  next_file_number_ vs' = next_file_number_ vs ∧ manifest_file_number_ vs' = manifest_file_number_ vs ∧
  last_sequence_ vs' = last_sequence_ vs ∧ log_number_ vs' = log_number_ vs ∧ prev_log_number_ vs' = prev_log_number_ vs ∧
  dbname_ vs' = dbname_ vs.

Hypothesis NewWritableFile_error : ∀ name w s w', NewWritableFile name w = Some (inl s, w') → ok s = false.

(** The MANIFEST that the edit goes to: the one that is open, or a new one that
    begins with a snapshot; [inl] is the status of the call that failed. *)
Definition manifest_at (vs : VersionSet (E := E)) (ptrs : list bytes) (cur : Version) (w : W)
    (r : Status + WritableHandle * Writer) (w1 : W) : Prop :=
  match descriptor_ vs with
  | Some d => r = inr d ∧ w1 = w
  | None =>
      ∃ r0 w0, NewWritableFile (DescriptorFileName (dbname_ vs) (manifest_file_number_ vs)) w = Some (r0, w0) ∧
        match r0 with
        | inl s => r = inl s ∧ w1 = w0
        | inr file =>
            ∃ s d, WriteSnapshot (user_comparator := C) (set_compact_pointers vs ptrs) cur (file, new_Writer) w0 = Some ((s, d), w1) ∧
              r = if ok s then inr d else inl s
        end
  end.

(** Everything that makes the edit durable was reported to be done: the record
    of the edit was appended to the MANIFEST and synced, and, if the MANIFEST is a
    new one, the CURRENT file was set to it. *)
Definition written (vs : VersionSet (E := E)) (ptrs : list bytes) (cur : Version) (edit : VersionEdit) (w : W)
    (d' : WritableHandle * Writer) (w' : W) : Prop :=
  ∃ d w1 s2 w2 s3 w3, manifest_at vs ptrs cur w (inr d) w1 ∧
    add_record d (EncodeTo (fill_edit vs edit) []) w1 = Some ((s2, d'), w2) ∧ ok s2 = true ∧
    wf_Sync (WritableFile := writable d'.1) w2 = Some (s3, w3) ∧ ok s3 = true ∧
    match descriptor_ vs with
    | Some _ => w' = w3
    | None => ∃ s4, SetCurrentFile (dbname_ vs) (manifest_file_number_ vs) w3 = Some (s4, w') ∧ ok s4 = true
    end.

(** A new MANIFEST is made exactly if there is none. *)
Definition new_name (vs : VersionSet (E := E)) : option bytes :=
  match descriptor_ vs with
  | Some _ => None
  | None => Some (DescriptorFileName (dbname_ vs) (manifest_file_number_ vs))
  end.

Lemma prepare_spec vs edit cur s v name vs' w w' :
  current vs = Some cur →
  LogAndApply_prepare (user_comparator := C) vs edit w = Some ((s, v, name, vs'), w') →
  install (C := C) (compact_pointer_ vs, cur) [edit] = Some (compact_pointer_ vs', v) ∧ same_versions vs vs' ∧
  name = new_name vs ∧
  if ok s then ∃ d, descriptor_ vs' = Some d ∧ manifest_at vs (compact_pointer_ vs') cur w (inr d) w'
  else descriptor_ vs = None ∧ manifest_at vs (compact_pointer_ vs') cur w (inl s) w'.
Proof.
  intros Hc. unfold LogAndApply_prepare, new_name, manifest_at. rewrite Hc. cbn [install fst snd].
  destruct (Apply (compact_pointer_ vs) new_Builder edit) as [[ptrs b]|]; [|done]. cbv zeta. cbn [mbind option_bind].
  change (descriptor_ (set_compact_pointers vs ptrs)) with (descriptor_ vs).
  destruct (descriptor_ vs) as [d|] eqn:Ed.
  - intros [= <- <- <- <- <-]. splits; [done|by unfold same_versions|done|]. by exists d.
  - cbn [set_compact_pointers dbname_ manifest_file_number_]. unfold mbind at 1, M_bind.
    destruct (NewWritableFile _ w) as [[[s0|file] w1]|] eqn:En; [| |done].
    + intros [= <- <- <- <- <-]. splits; [done|by unfold same_versions|done|].
      rewrite (NewWritableFile_error _ _ _ _ En). split; [done|]. by exists (inl s0), w1.
    + unfold mbind, M_bind. destruct (WriteSnapshot _ _ _ w1) as [[[s1 d] w2]|] eqn:Ew; [|done].
      intros [= <- <- <- <- <-]. splits; [done|by unfold same_versions|done|].
      assert (∀ r, r = (if ok s1 then inr d else inl s1) → ∃ r0 w0, Some (@inr Status _ file, w1) = Some (r0, w0) ∧
        match r0 with inl s => r = inl s ∧ w2 = w0 | inr file => ∃ s d, WriteSnapshot (user_comparator := C)
          (set_compact_pointers vs ptrs) cur (file, new_Writer) w0 = Some ((s, d), w2) ∧ r = if ok s then inr d else inl s end) as Hm.
      { intros r ->. exists (inr file), w1. split; [done|]. by exists s1, d. }
      cbn [set_descriptor compact_pointer_ descriptor_ set_compact_pointers].
      destruct (ok s1); [exists d; split; [done|by apply Hm]|split; [done|by apply Hm]].
Qed.

Lemma write_spec s edit name vs s' vs' w w' :
  LogAndApply_write s edit name vs w = Some ((s', vs'), w') →
  same_versions vs vs' ∧ compact_pointer_ vs' = compact_pointer_ vs ∧ (is_Some (descriptor_ vs) ↔ is_Some (descriptor_ vs')) ∧
  if ok s then ∃ d s1 d' w1 s2 w2 s3 w3, descriptor_ vs = Some d ∧ descriptor_ vs' = Some d' ∧
      add_record d (EncodeTo edit []) w = Some ((s1, d'), w1) ∧
      (if ok s1 then wf_Sync (WritableFile := writable d'.1) w1 = Some (s2, w2) else s2 = s1) ∧
      (if ok s2 then match name with
                     | Some _ => SetCurrentFile (dbname_ vs) (manifest_file_number_ vs) w2 = Some (s3, w3)
                     | None => s3 = s2 ∧ w3 = w2
                     end else s3 = s2) ∧
      s' = s3 ∧ (ok s3 = true → w' = w3)
  else s' = s.
Proof.
  unfold LogAndApply_write. intros ([s1 vs1] & w1 & H1 & (s2 & w2 & H2 & [= <- <- <-])%M_bind_inv)%M_bind_inv.
  destruct (ok s) eqn:Es.
  - destruct (descriptor_ vs) as [d|] eqn:Ed; [|done].
    apply M_bind_inv in H1 as ([s3 d3] & w3 & H3 & (s4 & w4 & H4 & [= <- <- <-])%M_bind_inv).
    split; [by unfold same_versions|]. split; [done|]. split; [by split; eexists|].
    exists d, s3, d3, w3, s4, w4, s2, w2. splits; [done|done|done| | |done|done].
    + destruct (ok s3); [done|]. by injection H4 as <- _.
    + destruct name as [name|].
      * destruct (ok s4); [done|]. by injection H2 as <- _.
      * injection H2 as <- <-. by destruct (ok s4).
  - injection H1 as <- <- <-. rewrite Es in H2. splits; [by unfold same_versions|done|done|].
    unfold mret, M_ret in H2. destruct name; congruence.
Qed.

Lemma install_spec s v edit name vs vs' w w' :
  LogAndApply_install s v edit name vs w = Some (vs', w') →
  if ok s then
    vs' = set_numbers (AppendVersion vs v) (next_file_number_ vs) (manifest_file_number_ vs) (last_sequence_ vs)
      (filled (VersionEdit.log_number_ edit)) (filled (VersionEdit.prev_log_number_ edit))
  else vs' = match name with Some _ => set_descriptor vs None | None => vs end.
Proof.
  unfold LogAndApply_install. destruct (ok s).
  - intros [= <- <-]. unfold AppendVersion. by destruct (current_ vs).
  - destruct name as [name|]; [|by intros [= <- <-]].
    by intros ([] & w1 & H1 & (s1 & w2 & H2 & [= <- <-])%M_bind_inv)%M_bind_inv.
Qed.

Lemma fill_edit_logs (vs : VersionSet (E := E)) edit :
  VersionEdit.log_number_ (fill_edit vs edit) = Some (default (log_number_ vs) (VersionEdit.log_number_ edit)) ∧
  VersionEdit.prev_log_number_ (fill_edit vs edit) = Some (default (prev_log_number_ vs) (VersionEdit.prev_log_number_ edit)).
Proof. by destruct edit as [? [?|] [?|] ? ? ? ? ?]. Qed.

(** What a [LogAndApply] that fails leaves alone; a MANIFEST that it has made is
    deleted. *)
Definition untouched (vs vs' : VersionSet (E := E)) (w' : W) : Prop :=
  same_versions vs vs' ∧ (is_Some (descriptor_ vs) ↔ is_Some (descriptor_ vs')) ∧
  ∀ name, new_name vs = Some name → ∃ s w1, Env.DeleteFile name w1 = Some (s, w').

(** What one that succeeds has done in memory. *)
Definition installed (vs : VersionSet (E := E)) (edit : VersionEdit) (cur' : Version) (vs' : VersionSet (E := E)) : Prop :=
  versions_wf vs' cur' ∧
  (next_file_number_ vs', manifest_file_number_ vs', last_sequence_ vs') =
    (next_file_number_ vs, manifest_file_number_ vs, last_sequence_ vs) ∧
  log_number_ vs' = default (log_number_ vs) (VersionEdit.log_number_ edit) ∧
  prev_log_number_ vs' = default (prev_log_number_ vs) (VersionEdit.prev_log_number_ edit).

(** The calls of a run are those that [written] asks for, since they are
    functions of the state. *)
Lemma manifest_at_inj vs ptrs cur w r1 w1 r2 w2 :
  manifest_at vs ptrs cur w r1 w1 → manifest_at vs ptrs cur w r2 w2 → r1 = r2 ∧ w1 = w2.
Proof.
  unfold manifest_at. destruct (descriptor_ vs) as [d|]; [by intros [-> ->] [-> ->]|].
  intros (r & w0 & E1 & H1) (r' & w0' & E2 & H2). rewrite E1 in E2. injection E2 as <- <-.
  destruct r as [s|file]; [by destruct H1 as [-> ->], H2 as [-> ->]|].
  destruct H1 as (s & d & E1' & ->), H2 as (s' & d' & E2' & ->). rewrite E1' in E2'. by injection E2' as <- <- <-.
Qed.

Lemma install_deletes s v edit name vs vs' w w' n :
  LogAndApply_install s v edit name vs w = Some (vs', w') → ok s = false → name = Some n →
  ∃ s w1, Env.DeleteFile n w1 = Some (s, w').
Proof.
  unfold LogAndApply_install. intros H Es Hn. rewrite Es, Hn in H.
  apply M_bind_inv in H as ([] & w1 & H1 & (s1 & w2 & H2 & [= _ <-])%M_bind_inv). by exists s1, w1.
Qed.

Lemma install_world s v edit name vs vs' w w' :
  LogAndApply_install s v edit name vs w = Some (vs', w') → ok s = true → w' = w.
Proof. unfold LogAndApply_install. intros H Es. rewrite Es in H. by injection H. Qed.

(** The statuses of a run that ends well. *)
Lemma run_written vs ptrs cur edit w d w1 d' s1 w2 s2 w3 s3 w4 :
  manifest_at vs ptrs cur w (inr d) w1 →
  add_record d (EncodeTo (fill_edit vs edit) []) w1 = Some ((s1, d'), w2) →
  (if ok s1 then wf_Sync (WritableFile := writable d'.1) w2 = Some (s2, w3) else s2 = s1) →
  (if ok s2 then match new_name vs with
                 | Some _ => SetCurrentFile (dbname_ vs) (manifest_file_number_ vs) w3 = Some (s3, w4)
                 | None => s3 = s2 ∧ w4 = w3
                 end else s3 = s2) →
  (ok s3 = true → written vs ptrs cur edit w d' w4) ∧ ∀ d2 w', written vs ptrs cur edit w d2 w' → ok s3 = true.
Proof.
  intros Hm Ha Hs Hc. unfold new_name in Hc. split.
  - intros H3. destruct (ok s2) eqn:E2; [|by subst; rewrite E2 in H3].
    destruct (ok s1) eqn:E1; [|by subst; rewrite E1 in E2].
    exists d, w1, s1, w2, s2, w3. splits; try done. destruct (descriptor_ vs); [apply Hc|by exists s3].
  - intros d2 w' (e & x1 & t1 & x2 & t2 & x3 & Hm' & Ha' & T1 & Hs' & T2 & Hc').
    destruct (manifest_at_inj _ _ _ _ _ _ _ _ Hm Hm') as [[= <-] <-]. rewrite Ha in Ha'. injection Ha' as <- <- <-.
    rewrite T1 in Hs. rewrite Hs in Hs'. injection Hs' as <- <-. rewrite T2 in Hc.
    destruct (descriptor_ vs); [by destruct Hc as [-> _]|]. destruct Hc' as (s4 & Hc' & T3). rewrite Hc in Hc'. by injection Hc' as <- _.
Qed.

Lemma same_versions_trans vs1 vs2 vs3 : same_versions vs1 vs2 → same_versions vs2 vs3 → same_versions vs1 vs3.
Proof.
  intros (A1 & A2 & A3 & A4 & A5 & A6 & A7 & A8 & A9) (B1 & B2 & B3 & B4 & B5 & B6 & B7 & B8 & B9).
  unfold same_versions. splits; congruence.
Qed.

(** The version that is installed in the end. *)
Lemma installed_versions vs vs2 cur edit v :
  versions_wf vs cur → same_versions vs vs2 →
  installed vs edit v (set_numbers (AppendVersion vs2 v) (next_file_number_ vs2) (manifest_file_number_ vs2) (last_sequence_ vs2)
    (filled (VersionEdit.log_number_ (fill_edit vs edit))) (filled (VersionEdit.prev_log_number_ (fill_edit vs edit)))).
Proof.
  intros (W1 & W2 & W3) (B1 & B2 & B3 & B4 & B5 & B6 & B7 & B8 & B9).
  assert (versions_wf (AppendVersion vs2 v) v) as Hv.
  { apply AppendVersion_wf with cur. unfold versions_wf, current, find_version in *. by rewrite B1, B2, B3. }
  unfold installed. cbn [set_numbers next_file_number_ manifest_file_number_ last_sequence_ log_number_ prev_log_number_]. splits.
  - exact Hv.
  - congruence.
  - by rewrite (proj1 (fill_edit_logs vs edit)).
  - by rewrite (proj2 (fill_edit_logs vs edit)).
Qed.

(** The MANIFEST behind a call that fails. *)
Lemma failed_descriptor (vs vs1 vs2 : VersionSet (E := E)) s1 :
  (if ok s1 then is_Some (descriptor_ vs1) else descriptor_ vs = None) → (is_Some (descriptor_ vs1) ↔ is_Some (descriptor_ vs2)) →
  is_Some (descriptor_ vs) ↔ is_Some (descriptor_ (match new_name vs with Some _ => set_descriptor vs2 None | None => vs2 end)).
Proof.
  unfold new_name. intros H1 H2. destruct (descriptor_ vs) as [d|].
  - rewrite <- H2. destruct (ok s1); [|done]. split; [done|by eexists].
  - cbn [set_descriptor descriptor_]. split; by intros [].
Qed.

End LogAndApply.

(** ** An example *)

Module Example.
Definition ik (u : bytes) (s : Z) : bytes := InternalKey u s kTypeValue.
Definition file (n : Z) (a b : bytes) : FileMetaData :=
  {| refs := 1; allowed_seeks := 100; number := n; file_size := 100; smallest := a; largest := b |}.

Definition v : Version :=
  {| files_ := [[file 8 (ik (str "b") 4) (ik (str "d") 4)]; []; []; []; []; []; []];
     file_to_compact_ := None; compaction_level_ := -1; compaction_score_ := (-1, 1) |}.
Definition ptrs : list bytes := replicate 7 [].

(** The first edit moves a file, the second adds one. *)
Definition es : list VersionEdit :=
  [SetLogNumber 6 (SetPrevLogNumber 0 (SetNextFile 10 (VersionEdit.SetLastSequence 7
     (AddFile 1 9 100 (ik (str "b") 4) (ik (str "d") 4) (VersionEdit.DeleteFile 0 8 (SetCompactPointer 0 (ik (str "d") 4) new_VersionEdit))))));
   SetLogNumber 10 (SetPrevLogNumber 0 (SetNextFile 12 (VersionEdit.SetLastSequence 9
     (AddFile 0 11 100 (ik (str "a") 8) (ik (str "c") 9) new_VersionEdit))))].

Definition records : list bytes :=
  (λ e, EncodeTo e []) <$> snapshot_edit (user_comparator := BytewiseComparator) ptrs v :: es.

(** All but the last three bytes are left. *)
Definition k : Z := zlen (log_bytes records) - 3.

Definition files (name : bytes) : bytes :=
  if decide (name = str "db/CURRENT") then str "MANIFEST-000002" ++ [b8 10] else ztake k (log_bytes records).

(** An environment with these files; the state is what is left of the open
    file. *)
Definition FilesEnv : Env bytes := {|
  WritableHandle := unit; SequentialHandle := unit; RandomHandle := unit;
  writable _ := BytesWritable; sequential _ := BytesSequential; random _ := {| rf_Read offset n := mret (Status_OK, []) |};
  wf_delete _ := mret (); sf_delete _ := mret (); rf_delete _ := mret ();
  NewWritableFile _ := mret (inr ()); NewSequentialFile name := λ _, Some (inr (), files name);
  NewRandomAccessFile _ := mret (inr ()); FileExists _ := mret true; GetChildren _ := mret (Status_OK, []);
  Env.DeleteFile _ := mret Status_OK; CreateDir _ := mret Status_OK; DeleteDir _ := mret Status_OK;
  RenameFile _ _ := mret Status_OK; GetFileSize name := mret (Status_OK, zlen (files name)) |}.

Ltac conj_solve :=
  repeat match goal with
  | |- Forall _ (_ :: _) => apply List.Forall_cons
  | |- Forall _ [] => constructor
  | |- _ ∧ _ => split
  | |- context [_ ∨ _] => tauto
  end; try (vm_compute; done).
Ltac eval_list :=
  match goal with |- Forall ?P ?l => let l' := eval vm_compute in l in change (Forall P l') end.
Ltac edit_solve :=
  split; [|vm_compute; repeat constructor; fail];
  eval_list; cbv [field_ok level_ok key_ok in_w]; conj_solve.

Lemma logged_level_above l : level_files v (S (S l)) = [].
Proof. by destruct l as [|[|[|[|[|[|l]]]]]]. Qed.

Lemma history : history_ok (C := BytewiseComparator) (V := any_key) ptrs v es.
Proof.
  split.
  - done.
  - split; [done|]. intros [|[|level]].
    + splits; [repeat constructor; by vm_compute|repeat constructor|apply (bool_decide_unpack _); by vm_compute].
    + splits; [constructor|constructor|apply (bool_decide_unpack _); by vm_compute].
    + rewrite logged_level_above. splits; [constructor|constructor|]. unfold added_to, es.
      cbn [new_files_ AddFile add_new_file VersionEdit.DeleteFile SetCompactPointer SetLogNumber SetPrevLogNumber SetNextFile VersionEdit.SetLastSequence new_VersionEdit fmap list_fmap app].
      rewrite !filter_cons, !filter_nil, !decide_False by (cbn [fst]; lia). constructor.
  - intros [|[|level]]; [by repeat constructor|constructor|rewrite logged_level_above; constructor].
  - edit_solve.
  - unfold es. apply List.Forall_cons; [|apply List.Forall_cons; [|constructor]]; (split; [|split; [edit_solve|done]]);
      constructor; eval_list; cbv [level_ok VersionBuilder.start_ok ikey_valid any_key]; conj_solve.
Qed.
End Example.

Example Recover_after_crash_witness :
  ∃ es1 es2 e ptrs' v' vs' w', Example.es = es1 ++ es2 ∧ list.last es1 = Some e ∧
    zlen (log_bytes (take (S (length es1)) Example.records)) ≤ Example.k ∧
    (es2 = [] ∨ Example.k < zlen (log_bytes (take (S (S (length es1))) Example.records))) ∧
    install (C := BytewiseComparator) (Example.ptrs, Example.v) es1 = Some (ptrs', v') ∧
    Recover (E := Example.FilesEnv) (P := UnalignedPlacement) (user_comparator := BytewiseComparator) true 1000 10
      (new_VersionSet (E := Example.FilesEnv) (str "db")) [] = Some ((Status_OK, vs'), w') ∧
    recovered (E := Example.FilesEnv) vs' ptrs' v' e.
Proof.
  apply (Recover_after_crash (CL := BytewiseComparator_laws) (PL := UnalignedPlacement_laws) (E := Example.FilesEnv)
    (inv := λ _, True) (rest := id) () (FL := BytesSequential_laws) true 1000 10 (str "db") (str "MANIFEST-000002")
    Example.ptrs Example.v Example.es Example.k [] [] (ztake Example.k (log_bytes Example.records))).
  - exact Example.history.
  - repeat constructor; by eexists.
  - split; by vm_compute.
  - cbn. lia.
  - vm_compute. reflexivity.
  - reflexivity.
  - exact I.
  - reflexivity.
  - intros w _. by exists w.
  - apply (bool_decide_unpack _). by vm_compute.
  - by vm_compute.
  - cbn. lia.
Defined.

