(* ===== verification/Compaction.v ===== *)
(** Compactions: [class Compaction] and the operations of [VersionSet] that
    choose the files of one, of [db/version_set.h] and [db/version_set.cc].

    [input_version_] is the address of a live version, as in [VersionSet].
    Messages to the info log are left out. *)
From Stdlib Require Import Sorting.Sorted.
From stdpp Require Import sorting.
From S2P Require Import Prelude SortedLists Coding Status Comparator Env MemEnv LogFile DbFormat Iterator TwoLevelIterator Merger DbIter VersionEdit Version VersionRead VersionSet.

(** ** The state *)

#[export] Instance FileMetaData_eq_dec : EqDecision FileMetaData.
Proof. solve_decision. Defined.

Record Compaction := {
  level_ : nat;
  max_output_file_size_ : Z;
  input_version_ : option nat;
  edit_ : VersionEdit;
  (** [inputs_[0]] and [inputs_[1]] *)
  inputs_ : list FileMetaData * list FileMetaData;
  grandparents_ : list FileMetaData;
  grandparent_index_ : nat;
  seen_key_ : bool;
  overlapped_bytes_ : Z;
  level_ptrs_ : list nat;
}.

Definition new_Compaction (level : nat) : Compaction :=
  {| level_ := level; max_output_file_size_ := MaxFileSizeForLevel level; input_version_ := None;
     edit_ := new_VersionEdit; inputs_ := ([], []); grandparents_ := []; grandparent_index_ := 0; seen_key_ := false;
     overlapped_bytes_ := 0; level_ptrs_ := replicate (Z.to_nat kNumLevels) 0%nat |}.

Definition set_inputs (c : Compaction) (inputs0 inputs1 : list FileMetaData) : Compaction :=
  {| level_ := level_ c; max_output_file_size_ := max_output_file_size_ c; input_version_ := input_version_ c;
     edit_ := edit_ c; inputs_ := (inputs0, inputs1); grandparents_ := grandparents_ c;
     grandparent_index_ := grandparent_index_ c; seen_key_ := seen_key_ c; overlapped_bytes_ := overlapped_bytes_ c;
     level_ptrs_ := level_ptrs_ c |}.
Definition set_input_version (c : Compaction) (p : option nat) : Compaction :=
  {| level_ := level_ c; max_output_file_size_ := max_output_file_size_ c; input_version_ := p;
     edit_ := edit_ c; inputs_ := inputs_ c; grandparents_ := grandparents_ c;
     grandparent_index_ := grandparent_index_ c; seen_key_ := seen_key_ c; overlapped_bytes_ := overlapped_bytes_ c;
     level_ptrs_ := level_ptrs_ c |}.
Definition set_edit (c : Compaction) (edit : VersionEdit) : Compaction :=
  {| level_ := level_ c; max_output_file_size_ := max_output_file_size_ c; input_version_ := input_version_ c;
     edit_ := edit; inputs_ := inputs_ c; grandparents_ := grandparents_ c;
     grandparent_index_ := grandparent_index_ c; seen_key_ := seen_key_ c; overlapped_bytes_ := overlapped_bytes_ c;
     level_ptrs_ := level_ptrs_ c |}.
Definition set_grandparents (c : Compaction) (fs : list FileMetaData) : Compaction :=
  {| level_ := level_ c; max_output_file_size_ := max_output_file_size_ c; input_version_ := input_version_ c;
     edit_ := edit_ c; inputs_ := inputs_ c; grandparents_ := fs;
     grandparent_index_ := grandparent_index_ c; seen_key_ := seen_key_ c; overlapped_bytes_ := overlapped_bytes_ c;
     level_ptrs_ := level_ptrs_ c |}.
Definition set_overlap (c : Compaction) (index : nat) (seen : bool) (overlapped : Z) : Compaction :=
  {| level_ := level_ c; max_output_file_size_ := max_output_file_size_ c; input_version_ := input_version_ c;
     edit_ := edit_ c; inputs_ := inputs_ c; grandparents_ := grandparents_ c;
     grandparent_index_ := index; seen_key_ := seen; overlapped_bytes_ := overlapped;
     level_ptrs_ := level_ptrs_ c |}.
Definition set_level_ptrs (c : Compaction) (ptrs : list nat) : Compaction :=
  {| level_ := level_ c; max_output_file_size_ := max_output_file_size_ c; input_version_ := input_version_ c;
     edit_ := edit_ c; inputs_ := inputs_ c; grandparents_ := grandparents_ c;
     grandparent_index_ := grandparent_index_ c; seen_key_ := seen_key_ c; overlapped_bytes_ := overlapped_bytes_ c;
     level_ptrs_ := ptrs |}.

(** [inputs_[which]] *)
Definition inputs (c : Compaction) (which : nat) : list FileMetaData := if decide (which = O) then (inputs_ c).1 else (inputs_ c).2.
Definition num_input_files (c : Compaction) (which : nat) : Z := zlen (inputs c which).
Definition MaxOutputFileSize (c : Compaction) : Z := max_output_file_size_ c.

Definition IsTrivialMove (c : Compaction) : bool :=
  bool_decide (num_input_files c 0 = 1) && bool_decide (num_input_files c 1 = 0) &&
  bool_decide (TotalFileSize (grandparents_ c) ≤ kMaxGrandParentOverlapBytes).

Definition AddInputDeletions (c : Compaction) (edit : VersionEdit) : VersionEdit :=
  foldl (λ edit which,
      foldl (λ edit f, VersionEdit.DeleteFile (Z.of_nat (level_ c + which)) (number f) edit) edit (inputs c which))
    edit [0; 1]%nat.

Section Compactions.
Context {W : Type} {E : Env W} {user_comparator : Comparator}.

Abbreviation IKC := (InternalKeyComparator (user_comparator_ := user_comparator)).
Abbreviation icmp := (Compare (Comparator := IKC)).
Abbreviation VersionSet := (VersionSet (E := E)).

(** ** Ranges *)

Definition extend_range (r : bytes * bytes) (f : FileMetaData) : bytes * bytes :=
  (if decide (icmp (smallest f) r.1 < 0) then smallest f else r.1,
   if decide (icmp (largest f) r.2 > 0) then largest f else r.2).

Definition GetRange (inputs : list FileMetaData) : bytes * bytes :=
  match inputs with
  | [] => ([], [])
  | f :: fs => foldl extend_range (smallest f, largest f) fs
  end.

Definition GetRange2 (inputs1 inputs2 : list FileMetaData) : bytes * bytes := GetRange (inputs1 ++ inputs2).

(** ** Choosing the files *)

(** [current_->GetOverlappingInputs]; a level that is none is out of the bounds
    of [files_]. *)
Definition overlapping (v : Version) (level : nat) (begin end_ : option bytes) : option (list FileMetaData) :=
  if decide (level < Z.to_nat kNumLevels)%nat then GetOverlappingInputs (user_comparator := user_comparator) v level begin end_
  else None.

(** More files of the level, if they need no more files of the next level. *)
Definition expand_inputs (v : Version) (level : nat) (inputs0 inputs1 : list FileMetaData) (all : bytes * bytes) :
    option (option (list FileMetaData * list FileMetaData)) :=
  if decide (inputs1 = []) then Some None
  else
    expanded0 ← overlapping v level (Some all.1) (Some all.2);
    if bool_decide (length inputs0 < length expanded0)%nat &&
       bool_decide (swrap 64 (TotalFileSize inputs1 + TotalFileSize expanded0) < kExpandedCompactionByteSizeLimit) then
      let new := GetRange expanded0 in
      expanded1 ← overlapping v (S level) (Some new.1) (Some new.2);
      Some (if decide (length expanded1 = length inputs1) then Some (expanded0, expanded1) else None)
    else Some None.

Definition SetupOtherInputs (vs : VersionSet) (v : Version) (c : Compaction) : option (Compaction * VersionSet) :=
  let level := level_ c in
  let inputs0 := inputs c 0 in
  let range := GetRange inputs0 in
  inputs1 ← overlapping v (S level) (Some range.1) (Some range.2);
  let all := GetRange2 inputs0 inputs1 in
  expanded ← expand_inputs v level inputs0 inputs1 all;
  let '(inputs0, inputs1, largest, all) :=
    match expanded with
    | Some (expanded0, expanded1) => (expanded0, expanded1, (GetRange expanded0).2, GetRange2 expanded0 expanded1)
    | None => (inputs0, inputs1, range.2, all)
    end in
  let c := set_inputs c inputs0 inputs1 in
  grandparents ← (if decide (level + 2 < Z.to_nat kNumLevels)%nat then overlapping v (level + 2) (Some all.1) (Some all.2)
                  else Some (grandparents_ c));
  let c := set_grandparents c grandparents in
  Some (set_edit c (SetCompactPointer (Z.of_nat level) largest (edit_ c)),
        set_compact_pointers vs (<[level := largest]> (compact_pointer_ vs))).

(** The first file behind the compaction pointer, or else the first file. *)
Definition pick_file (files : list FileMetaData) (pointer : bytes) : option FileMetaData :=
  match list_find (λ f, pointer = [] ∨ icmp (largest f) pointer > 0) files with
  | Some (_, f) => Some f
  | None => files !! 0%nat
  end.

(** The files that a compaction begins with; nothing to compact is [None]
    inside. *)
Definition pick_inputs (vs : VersionSet) (v : Version) : option (option (nat * list FileMetaData)) :=
  if decide ((compaction_score_ v).2 ≤ (compaction_score_ v).1) then
    if decide (0 ≤ compaction_level_ v) then
      let level := Z.to_nat (compaction_level_ v) in
      pointer ← compact_pointer_ vs !! level;
      f ← pick_file (level_files v level) pointer;
      Some (Some (level, [f]))
    else None
  else
    match file_to_compact_ v with
    | Some (f, level) => Some (Some (level, [f]))
    | None => Some None
    end.

(** A reference to the current version is held by the compaction. *)
Definition start_compaction (vs : VersionSet) (level : nat) (fs : list FileMetaData) : option (VersionSet * Compaction) :=
  p ← current_ vs;
  Some (Ref vs p, set_inputs (set_input_version (new_Compaction level) (Some p)) fs []).

Definition PickCompaction (vs : VersionSet) : option (option Compaction * VersionSet) :=
  v ← current vs;
  picked ← pick_inputs vs v;
  match picked with
  | None => Some (None, vs)
  | Some (level, fs) =>
      '(vs, c) ← start_compaction vs level fs;
      fs ← (if decide (level = O) then
              let range := GetRange fs in overlapping v 0 (Some range.1) (Some range.2)
            else Some fs);
      '(c, vs) ← SetupOtherInputs vs v (set_inputs c fs []);
      Some (Some c, vs)
  end.

(** The loop over the inputs that cuts them off at the limit. *)
Fixpoint limit_inputs (limit total : Z) (fs : list FileMetaData) : list FileMetaData :=
  match fs with
  | [] => []
  | f :: fs =>
      let total := u64 (total + file_size f) in
      f :: (if decide (limit ≤ total) then [] else limit_inputs limit total fs)
  end.

Definition CompactRange (vs : VersionSet) (level : nat) (begin end_ : option bytes) :
    option (option Compaction * VersionSet) :=
  v ← current vs;
  fs ← overlapping v level begin end_;
  if decide (fs = []) then Some (None, vs)
  else
    let fs := if decide (0 < level)%nat then limit_inputs (MaxFileSizeForLevel level) 0 fs else fs in
    '(vs, c) ← start_compaction vs level fs;
    '(c, vs) ← SetupOtherInputs vs v c;
    Some (Some c, vs).

(** ** Doing it *)

(** The version that the compaction holds. *)
Definition input_version (vs : VersionSet) (c : Compaction) : option Version := input_version_ c ≫= find_version vs.

(** The files of a level from [level_ptrs_[lvl]] on: where the pointer stops,
    and whether the key is in the range of a file. *)
Fixpoint ptr_loop (user_key : bytes) (files : list FileMetaData) (ptr : nat) : nat * bool :=
  match files with
  | [] => (ptr, false)
  | f :: files =>
      if decide (Compare user_key (ExtractUserKey (largest f)) ≤ 0) then
        (ptr, bool_decide (0 ≤ Compare user_key (ExtractUserKey (smallest f))))
      else ptr_loop user_key files (S ptr)
  end.

(** The loop over the levels. *)
Fixpoint base_loop (v : Version) (user_key : bytes) (lvls : list nat) (ptrs : list nat) : option (bool * list nat) :=
  match lvls with
  | [] => Some (true, ptrs)
  | lvl :: lvls =>
      ptr ← ptrs !! lvl;
      let '(ptr', inside) := ptr_loop user_key (drop ptr (level_files v lvl)) ptr in
      let ptrs := <[lvl := ptr']> ptrs in
      if (inside : bool) then Some (false, ptrs) else base_loop v user_key lvls ptrs
  end.

Definition IsBaseLevelForKey (vs : VersionSet) (c : Compaction) (user_key : bytes) : option (bool * Compaction) :=
  v ← input_version vs c;
  '(base, ptrs) ← base_loop v user_key (seq (level_ c + 2) (Z.to_nat kNumLevels - (level_ c + 2))) (level_ptrs_ c);
  Some (base, set_level_ptrs c ptrs).

(** The loop over the grandparents. *)
Fixpoint stop_loop (internal_key : bytes) (seen : bool) (files : list FileMetaData) (index : nat) (overlapped : Z) : nat * Z :=
  match files with
  | [] => (index, overlapped)
  | f :: files =>
      if decide (icmp internal_key (largest f) > 0) then
        stop_loop internal_key seen files (S index) (if seen then swrap 64 (overlapped + file_size f) else overlapped)
      else (index, overlapped)
  end.

Definition ShouldStopBefore (c : Compaction) (internal_key : bytes) : bool * Compaction :=
  let '(index, overlapped) :=
    stop_loop internal_key (seen_key_ c) (drop (grandparent_index_ c) (grandparents_ c)) (grandparent_index_ c) (overlapped_bytes_ c) in
  if decide (overlapped > kMaxGrandParentOverlapBytes) then (true, set_overlap c index true 0)
  else (false, set_overlap c index true overlapped).

Definition ReleaseInputs (vs : VersionSet) (c : Compaction) : VersionSet * Compaction :=
  match input_version_ c with
  | Some p => (Unref vs p, set_input_version c None)
  | None => (vs, c)
  end.

(** [~Compaction] *)
Definition delete_Compaction (vs : VersionSet) (c : Compaction) : VersionSet :=
  match input_version_ c with Some p => Unref vs p | None => vs end.
End Compactions.

(** The iterator over the entries of the inputs. *)
Section Inputs.
Context {user_comparator : Comparator} {I : Type} {II : Iterator I}.
Context (table_cache_NewIterator : Z → Z → option I) (fuel : nat).

Abbreviation IKC := (InternalKeyComparator (user_comparator_ := user_comparator)).

Definition input_iterators (c : Compaction) (which : nat) : option (list (I + ConcatIterator (I := I))) :=
  if decide (inputs c which = []) then Some []
  else if decide (level_ c + which = 0)%nat then
    its ← mapM (λ f, table_cache_NewIterator (number f) (file_size f)) (inputs c which);
    Some (inl <$> its)
  else
    it ← NewConcatenatingIterator_of (user_comparator := user_comparator) (inputs c which);
    Some [inr it].

Definition MakeInputIterator (c : Compaction) : option (EmptyIterator + (I + ConcatIterator (I := I)) + MergingIterator (I + ConcatIterator (I := I))) :=
  list0 ← input_iterators c 0;
  list1 ← input_iterators c 1;
  NewMergingIterator
    (II := sum_Iterator (IJ := ConcatIterator_Iterator (user_comparator := user_comparator) table_cache_NewIterator fuel))
    (list0 ++ list1).
End Inputs.

(** ** The inputs of a compaction *)

Section Correct.
Context {C : Comparator} {V : bytes → Prop} {CL : ComparatorLaws C V}.

Abbreviation IKC := (InternalKeyComparator (user_comparator_ := C)).
Abbreviation IV := (ikey_valid (V := V)).
Abbreviation icmp := (Compare (Comparator := IKC)).
Abbreviation file_valid := (file_valid (C := C) (V := V)).
Abbreviation GetRange := (Compaction.GetRange (user_comparator := C)).
Abbreviation overlapping := (overlapping (user_comparator := C)).

(** The range covers the files and its ends are ends of files. *)
Definition covers (r : bytes * bytes) (fs : list FileMetaData) : Prop :=
  (∀ f, f ∈ fs → icmp r.1 (smallest f) ≤ 0 ∧ icmp (largest f) r.2 ≤ 0) ∧
  (∃ f, f ∈ fs ∧ r.1 = smallest f) ∧ (∃ f, f ∈ fs ∧ r.2 = largest f).

Lemma file_keys_valid f fs : Forall file_valid fs → f ∈ fs → IV (smallest f) ∧ IV (largest f).
Proof. rewrite list.Forall_forall. intros H Hf. destruct (H f Hf) as (? & ? & _). done. Qed.

Lemma covers_valid r fs : Forall file_valid fs → covers r fs → IV r.1 ∧ IV r.2.
Proof.
  intros HV (_ & (f & Hf & ->) & (g & Hg & ->)).
  split; [by eapply file_keys_valid|by eapply file_keys_valid].
Qed.

Lemma extend_range_covers r fs f :
  Forall file_valid (fs ++ [f]) → covers r fs → covers (extend_range (user_comparator := C) r f) (fs ++ [f]).
Proof.
  intros HV Hc. pose proof HV as HV'. apply list.Forall_app in HV' as [HVs HVf].
  destruct (covers_valid r fs HVs Hc) as [V1 V2]. destruct (file_keys_valid f [f] HVf) as [V3 V4]; [by apply list_elem_of_singleton|].
  destruct Hc as (Hc & (a & Ha & Ea) & (b & Hb & Eb)). unfold extend_range. split; [|split].
  - intros g Hg. cbn [fst snd].
    assert (IV (smallest g) ∧ IV (largest g)) as [V5 V6] by by apply (file_keys_valid g (fs ++ [f])).
    apply elem_of_app in Hg as [Hg| ->%list_elem_of_singleton].
    + destruct (Hc g Hg) as [H1 H2]. split; case_decide as Hd; try done.
      * apply (Compare_le_trans (C := IKC) _ r.1); [done..|lia|done].
      * apply (Compare_le_trans (C := IKC) _ r.2); [done..|].
        pose proof (Compare_flip (C := IKC) r.2 (largest f) V2 V4). lia.
    + split; case_decide as Hd; rewrite ?(Compare_refl (C := IKC)) by done; try lia.
      by apply (Compare_nlt (C := IKC)).
  - cbn [fst]. case_decide as Hd; [exists f|exists a]; rewrite elem_of_app, list_elem_of_singleton; auto.
  - cbn [snd]. case_decide as Hd; [exists f|exists b]; rewrite elem_of_app, list_elem_of_singleton; auto.
Qed.

Lemma GetRange_covers fs : Forall file_valid fs → fs ≠ [] → covers (GetRange fs) fs.
Proof.
  intros HV Hne. destruct fs as [|f fs]; [done|]. cbn [Compaction.GetRange].
  assert (covers (smallest f, largest f) [f]) as H0.
  { destruct (file_keys_valid f (f :: fs) HV) as [V1 V2]; [by left|]. split; [|split]; [|exists f..]; rewrite ?list_elem_of_singleton; try done.
    intros g ->%list_elem_of_singleton. cbn [fst snd]. rewrite !(Compare_refl (C := IKC)) by done. done. }
  change (f :: fs) with ([f] ++ fs) in *. clear Hne. revert H0 HV. generalize [f] as pre. generalize (smallest f, largest f) as r.
  induction fs as [|g fs IH]; intros r pre H0 HV; [by rewrite app_nil_r|]. cbn [foldl].
  rewrite (assoc_L (++) pre [g] fs : pre ++ g :: fs = (pre ++ [g]) ++ fs) in *. apply IH; [|done].
  apply extend_range_covers; [|done]. by apply list.Forall_app in HV as [? _].
Qed.

(** No user key is in both files. *)
Definition apart (f g : FileMetaData) : Prop := Compare (limit g) (start f) < 0 ∨ Compare (limit f) (start g) < 0.

Definition isolated (files fs : list FileMetaData) : Prop := ∀ f g, f ∈ fs → g ∈ files → g ∉ fs → apart f g.

(** No user key is in two files of the level. *)
Definition keys_apart (files : list FileMetaData) : Prop :=
  ∀ f g, f ∈ files → g ∈ files → f ≠ g → apart f g.

(** Levels but the first are such that no user key is in two files. *)
Definition level_apart (v : Version) (level : nat) : Prop := level = 0%nat ∨ keys_apart (level_files v level).

Lemma keys_apart_isolated files fs : keys_apart files → fs ⊆ files → isolated files fs.
Proof. intros H Hs f g Hf Hg Hn. apply H; [by apply Hs|done|by intros ->]. Qed.

(** In a level in which no file overlaps another, a file that is left may still
    share one user key with a chosen one that it touches: it is before all the
    chosen files or behind them all. *)
Definition consecutive (files fs : list FileMetaData) : Prop :=
  ∀ g, g ∈ files → g ∉ fs →
    (∀ f, f ∈ fs → Compare (limit g) (start f) ≤ 0) ∨ (∀ f, f ∈ fs → Compare (limit f) (start g) ≤ 0).

Lemma sorted_pair files f g :
  level_sorted (C := C) files → f ∈ files → g ∈ files → f ≠ g →
  icmp (largest f) (smallest g) < 0 ∨ icmp (largest g) (smallest f) < 0.
Proof.
  intros Hs [i Hi]%list_elem_of_lookup [j Hj]%list_elem_of_lookup Hne.
  destruct (Nat.lt_trichotomy i j) as [Hij|[->|Hij]]; [left|congruence|right].
  - exact (sorted_index _ files i j f g Hs Hij Hi Hj).
  - exact (sorted_index _ files j i g f Hs Hij Hj Hi).
Qed.

Lemma user_pair files f g :
  Forall file_valid files → level_sorted (C := C) files → f ∈ files → g ∈ files → f ≠ g →
  Compare (limit f) (start g) ≤ 0 ∨ Compare (limit g) (start f) ≤ 0.
Proof.
  intros HV Hs Hf Hg Hne. destruct (file_keys_valid f files HV Hf) as [V1 V2]. destruct (file_keys_valid g files HV Hg) as [V3 V4].
  destruct (sorted_pair files f g Hs Hf Hg Hne); [left|right]; (apply (icmp_user_le (V := V)); [done..|lia]).
Qed.

(** The files of a range are consecutive, and so are the first of them. *)
Lemma overlaps_consecutive files lo hi :
  Forall file_valid files → level_sorted (C := C) files → opt_valid (V := V) lo → opt_valid (V := V) hi →
  consecutive files (filter (λ f, file_overlaps (C := C) lo hi f) files).
Proof.
  intros HV Hs Vlo Vhi g Hg Hn. pose proof (elem_file_valid _ HV g Hg) as Vg. destruct (file_user_valid g Vg) as (G1 & G2 & Gle).
  destruct (file_overlaps (C := C) lo hi g) eqn:Ho.
  { destruct Hn. apply list_elem_of_filter. split; [by apply Is_true_true|done]. }
  unfold file_overlaps in Ho. apply negb_false_iff, orb_true_iff in Ho as [Ho|Ho]; [left|right];
    intros f [Hof Hf]%list_elem_of_filter; pose proof (elem_file_valid _ HV f Hf) as Vf;
    destruct (file_user_valid f Vf) as (F1 & F2 & Fle);
    apply Is_true_true in Hof; unfold file_overlaps in Hof; apply negb_true_iff, orb_false_iff in Hof as [H1 H2];
    (destruct (user_pair files f g HV Hs Hf Hg) as [Hfg|Hgf]; [intros ->; congruence| |]; try done; exfalso).
  - destruct lo as [b|]; [|done]. rewrite after_iff in Ho, H1 by done. apply bool_decide_eq_true in Ho. apply bool_decide_eq_false in H1.
    apply H1. apply (Compare_le_lt_trans _ (limit g)); [done..| |done]. by apply (Compare_le_trans _ (start g)).
  - destruct hi as [e|]; [|done]. apply bool_decide_eq_true in Ho. apply bool_decide_eq_false in H2. apply H2.
    fold (start f). fold (start g) in Ho. apply (Compare_lt_le_trans _ (start g)); [done..|]. by apply (Compare_le_trans _ (limit g)).
Qed.

Lemma prefix_consecutive files fs fs' :
  Forall file_valid files → level_sorted (C := C) files → fs `sublist_of` files → fs' `prefix_of` fs →
  consecutive files fs → consecutive files fs'.
Proof.
  intros HV Hs Hsub [rest ->] Hc g Hg Hn. destruct (decide (g ∈ rest)) as [Hr|Hr].
  - right. intros f Hf. pose proof (sorted_sublist _ _ _ Hs Hsub) as (_ & _ & Hall)%sorted_app. specialize (Hall f g Hf Hr). cbn beta in Hall.
    assert (f ∈ files) as Hf' by (apply (sublist_subseteq _ _ Hsub), elem_of_app; by left).
    destruct (file_keys_valid f files HV Hf') as [_ V1]. destruct (file_keys_valid g files HV Hg) as [V2 _].
    apply (icmp_user_le (V := V)); [done..|lia].
  - destruct (Hc g Hg) as [H|H]; [by intros [?|?]%elem_of_app|left|right]; intros f Hf; apply H, elem_of_app; by left.
Qed.

(** What is known of the files of a range. *)
Record overlap_ok (files : list FileMetaData) (level : nat) (lo hi : bytes) (fs : list FileMetaData) : Prop := {
  ov_sublist : fs `sublist_of` files;
  ov_outside g : g ∈ files → g ∉ fs → Compare (limit g) (ExtractUserKey lo) < 0 ∨ Compare (ExtractUserKey hi) (start g) < 0;
  ov_inside g : level ≠ 0%nat → g ∈ fs → Compare (ExtractUserKey lo) (limit g) ≤ 0 ∧ Compare (start g) (ExtractUserKey hi) ≤ 0;
  ov_isolated : level = 0%nat → isolated files fs;
  ov_consecutive : level ≠ 0%nat → level_sorted (C := C) files → consecutive files fs;
}.

Lemma overlapping_ok v level lo hi :
  Forall file_valid (level_files v level) → IV lo → IV hi → (level < Z.to_nat kNumLevels)%nat →
  ∃ fs, overlapping v level (Some lo) (Some hi) = Some fs ∧ overlap_ok (level_files v level) level lo hi fs.
Proof.
  intros HV Vlo Vhi Hl. unfold Compaction.overlapping. rewrite decide_True by done. unfold GetOverlappingInputs.
  destruct (GetOverlappingInputs_spec (level_files v level) HV level (Some lo) (Some hi) Vlo Vhi) as (fs & E & HS).
  exists fs. split; [done|]. cbn [fmap option_fmap option_map] in HS. split.
  - destruct HS as (lo' & hi' & -> & _). apply sublist_filter.
  - intros g Hg Hn. pose proof (elem_file_valid _ HV g Hg) as Vg.
    assert (¬ file_overlaps (Some (ExtractUserKey lo)) (Some (ExtractUserKey hi)) g) as Ho.
    { intros Ho. apply Hn. eapply inputs_complete; [exact HV|exact HS|apply Vlo|apply Vhi|done|done]. }
    destruct (decide (Compare (limit g) (ExtractUserKey lo) < 0)) as [|Hlo]; [by left|right].
    apply dec_stable. intros Hhi. apply Ho, Is_true_true, overlaps_iff; [done|apply Vlo|apply Vhi|]. cbn.
    split; apply bool_decide_eq_false; [done|].
    destruct (start_valid _ HV g Hg) as [Vs _]. by rewrite <- (Compare_flip (ExtractUserKey hi) (start g)) by (apply Vhi || done).
  - intros g Hne Hg. destruct HS as (lo' & hi' & -> & _ & _ & _ & _ & _ & Heq). rewrite bool_decide_false in Heq by done.
    destruct (Heq eq_refl) as [-> ->]. apply list_elem_of_filter in Hg as [Ho Hg]. pose proof (elem_file_valid _ HV g Hg) as Vg.
    apply Is_true_true in Ho. apply overlaps_iff in Ho as [H1%bool_decide_eq_false H2%bool_decide_eq_false]; [|done|apply Vlo|apply Vhi].
    destruct (start_valid _ HV g Hg) as [Vs Vl]. split; [by apply Compare_nlt; [done|apply Vlo|]|].
    apply Compare_nlt; [apply Vhi|done|]. rewrite Compare_flip by (apply Vhi || done). done.
  - intros -> f g Hf Hg Hn. rewrite bool_decide_true in HS by done. by eapply inputs_closed.
  - intros _ Hs. destruct HS as (lo' & hi' & -> & _ & _ & Vlo' & Vhi' & _). by apply overlaps_consecutive.
Qed.

(** What is left of a level beside the files that are chosen of it. *)
Record choice_ok (files : list FileMetaData) (level : nat) (fs : list FileMetaData) : Prop := {
  ch_isolated : level = 0%nat → isolated files fs;
  ch_consecutive : level ≠ 0%nat → consecutive files fs;
}.

(** What holds of the inputs of a compaction as long as they are files of the
    version: no other file of the next level has a user key in the range of the
    inputs of the first. *)
Record inputs_in (v : Version) (level : nat) (fs0 fs1 : list FileMetaData) : Prop := {
  io_level : (S level < Z.to_nat kNumLevels)%nat;
  io_some : fs0 ≠ [];
  io_sublist0 : fs0 `sublist_of` level_files v level;
  io_sublist1 : fs1 `sublist_of` level_files v (S level);
  io_parents g : g ∈ level_files v (S level) → g ∉ fs1 →
    Compare (limit g) (ExtractUserKey (GetRange fs0).1) < 0 ∨ Compare (ExtractUserKey (GetRange fs0).2) (start g) < 0;
  io_inside g : g ∈ fs1 →
    Compare (ExtractUserKey (GetRange fs0).1) (limit g) ≤ 0 ∧ Compare (start g) (ExtractUserKey (GetRange fs0).2) ≤ 0;
}.

(** What holds when they are chosen. *)
Record inputs_ok (v : Version) (level : nat) (fs0 fs1 : list FileMetaData) : Prop := {
  io_in : inputs_in v level fs0 fs1;
  io_choice : choice_ok (level_files v level) level fs0;
  io_choice1 : consecutive (level_files v (S level)) fs1;
}.

(** The files that a compaction begins with. *)
Record chosen_ok (v : Version) (level : nat) (fs : list FileMetaData) : Prop := {
  co_level : (S level < Z.to_nat kNumLevels)%nat;
  co_some : fs ≠ [];
  co_sublist : fs `sublist_of` level_files v level;
  co_choice : choice_ok (level_files v level) level fs;
}.

Section Setup.
Context (v : Version).
Hypothesis v_valid : ∀ l, Forall file_valid (level_files v l).
Hypothesis v_sorted : ∀ l, (0 < l)%nat → level_sorted (C := C) (level_files v l).

Lemma sublist_valid level fs : fs `sublist_of` level_files v level → Forall file_valid fs.
Proof. intros Hs. pose proof (v_valid level) as HV. rewrite list.Forall_forall in HV |- *. intros f Hf. by apply HV, (sublist_subseteq _ _ Hs). Qed.

Lemma choice_at level lo hi fs : overlap_ok (level_files v level) level lo hi fs → choice_ok (level_files v level) level fs.
Proof. intros Ho. split; [apply Ho|]. intros Hl. apply Ho; [done|]. apply v_sorted. lia. Qed.

Lemma sublist_nonempty (l k : list FileMetaData) : (length k < length l)%nat → l ≠ [].
Proof. destruct l; cbn; [lia|done]. Qed.

Lemma chosen_parents level fs :
  chosen_ok v level fs →
  ∃ fs1, overlapping v (S level) (Some (GetRange fs).1) (Some (GetRange fs).2) = Some fs1 ∧ inputs_ok v level fs fs1.
Proof.
  intros [Hl Hne Hs Hi]. pose proof (sublist_valid level fs Hs) as HV.
  destruct (covers_valid _ _ HV (GetRange_covers fs HV Hne)) as [V1 V2].
  destruct (overlapping_ok v (S level) _ _ (v_valid (S level)) V1 V2 Hl) as (fs1 & E & Ho). pose proof Ho as [H1 H2 H3 _ _].
  exists fs1. split; [done|]. split; [|done|by apply choice_at in Ho as [_ Hc]; apply Hc]. split; try done. intros g. by apply H3.
Qed.

Lemma expand_inputs_ok level fs0 fs1 :
  inputs_ok v level fs0 fs1 →
  ∃ r, expand_inputs (user_comparator := C) v level fs0 fs1 (GetRange2 (user_comparator := C) fs0 fs1) = Some r ∧
    ∀ e0 e1, r = Some (e0, e1) → inputs_ok v level e0 e1.
Proof.
  intros [[Hl Hne Hs0 Hs1 _ _] _ _]. unfold expand_inputs. case_decide as Hf; [by exists None|].
  assert (Forall file_valid (fs0 ++ fs1)) as HV.
  { apply list.Forall_app. split; by eapply sublist_valid. }
  destruct (covers_valid _ _ HV (GetRange_covers (fs0 ++ fs1) HV ltac:(by destruct fs0))) as [V1 V2].
  destruct (overlapping_ok v level _ _ (v_valid level) V1 V2 ltac:(lia)) as (e0 & E0 & O0). unfold GetRange2 in *.
  rewrite E0. cbn [mbind option_bind]. destruct (bool_decide (length fs0 < length e0)%nat && _) eqn:Eb; [|by exists None].
  apply andb_true_iff in Eb as [Eb%bool_decide_eq_true _].
  destruct (chosen_parents level e0) as (e1 & E1 & O1).
  { split; [done|by eapply sublist_nonempty|apply O0|by eapply choice_at]. }
  rewrite E1. cbn [mbind option_bind]. eexists; split; [done|]. case_decide; [by intros ? ? [= <- <-]|done].
Qed.

(** What [SetupOtherInputs] does. *)
Definition setup_post {W} {E : Env W} (vs : VersionSet (E := E)) (c : Compaction) (c' : Compaction) (vs' : VersionSet (E := E)) : Prop :=
  inputs_ok v (level_ c) (inputs c' 0) (inputs c' 1) ∧ level_ c' = level_ c ∧ input_version_ c' = input_version_ c ∧
  max_output_file_size_ c' = max_output_file_size_ c ∧ level_ptrs_ c' = level_ptrs_ c ∧
  ∃ largest, edit_ c' = SetCompactPointer (Z.of_nat (level_ c)) largest (edit_ c) ∧ IV largest ∧
    vs' = set_compact_pointers vs (<[level_ c := largest]> (compact_pointer_ vs)).

Lemma SetupOtherInputs_ok {W} {E : Env W} (vs : VersionSet (E := E)) c :
  chosen_ok v (level_ c) (inputs c 0) →
  ∃ c' vs', SetupOtherInputs (user_comparator := C) vs v c = Some (c', vs') ∧ setup_post vs c c' vs'.
Proof.
  intros Hc. unfold SetupOtherInputs. destruct (chosen_parents _ _ Hc) as (fs1 & E1 & O1). rewrite E1. cbn [mbind option_bind].
  destruct (expand_inputs_ok _ _ _ O1) as (r & Er & Hr). rewrite Er. cbn [mbind option_bind].
  assert (∃ e0 e1 largest all, match r with
    | Some (expanded0, expanded1) => (expanded0, expanded1, (GetRange expanded0).2, GetRange2 (user_comparator := C) expanded0 expanded1)
    | None => (inputs c 0, fs1, (GetRange (inputs c 0)).2, GetRange2 (user_comparator := C) (inputs c 0) fs1) end = (e0, e1, largest, all) ∧
    inputs_ok v (level_ c) e0 e1 ∧ IV largest ∧ IV all.1 ∧ IV all.2) as (e0 & e1 & largest & all & -> & O & Vl & Va1 & Va2).
  { assert (Hin : ∀ e0 e1, inputs_ok v (level_ c) e0 e1 → IV (GetRange e0).2 ∧
      IV (GetRange2 (user_comparator := C) e0 e1).1 ∧ IV (GetRange2 (user_comparator := C) e0 e1).2).
    { intros e0 e1 [[_ Hne Hs0 Hs1 _ _] _ _]. pose proof (sublist_valid _ _ Hs0) as HV0. pose proof (sublist_valid _ _ Hs1) as HV1.
      split; [by eapply covers_valid, GetRange_covers|]. unfold GetRange2. apply (covers_valid _ (e0 ++ e1)).
      - apply list.Forall_app. by split.
      - apply GetRange_covers; [apply list.Forall_app; by split|by destruct e0]. }
    destruct r as [[e0 e1]|]; eexists _, _, _, _; (split; [reflexivity|]).
    - specialize (Hr e0 e1 eq_refl). split; [done|by apply Hin].
    - split; [done|by eapply Hin]. }
  assert (∃ gs, (if decide (level_ c + 2 < Z.to_nat kNumLevels)%nat then overlapping v (level_ c + 2) (Some all.1) (Some all.2)
     else Some (grandparents_ (set_inputs c e0 e1))) = Some gs) as [gs Egs].
  { case_decide; [|by eexists]. destruct (overlapping_ok v (level_ c + 2) _ _ (v_valid _) Va1 Va2 ltac:(done)) as (gs & ? & _). by exists gs. }
  rewrite Egs. cbn [mbind option_bind]. eexists _, _. split; [done|]. unfold setup_post. by splits; [..|exists largest].
Qed.
End Setup.

(** *** Choosing *)

Lemma pick_file_ok files pointer :
  files ≠ [] → ∃ f, pick_file (user_comparator := C) files pointer = Some f ∧ f ∈ files.
Proof.
  intros Hne. unfold pick_file. destruct (list_find _ files) as [[i f]|] eqn:Ef.
  - apply list_find_Some in Ef as (Hf & _). exists f. split; [done|by eapply list_elem_of_lookup_2].
  - destruct files as [|f files]; [done|]. exists f. split; [done|by left].
Qed.

Lemma limit_inputs_ok limit total fs :
  limit_inputs limit total fs `prefix_of` fs ∧ (fs ≠ [] → limit_inputs limit total fs ≠ []).
Proof.
  split; [|by destruct fs]. revert total. induction fs as [|f fs IH]; intros total; cbn [limit_inputs]; [done|].
  apply prefix_cons. case_decide; [apply prefix_nil|apply IH].
Qed.

Section Choose.
Context {W : Type} {E : Env W} (vs : VersionSet (E := E)) (v : Version) (p : nat).
Hypothesis vs_current : current_ vs = Some p.
Hypothesis vs_version : find_version vs p = Some v.
Hypothesis vs_pointers : length (compact_pointer_ vs) = Z.to_nat kNumLevels.
Hypothesis v_valid : ∀ l, Forall file_valid (level_files v l).
Hypothesis v_sorted : ∀ l, (0 < l)%nat → level_sorted (C := C) (level_files v l).

(** What [Finalize] and the charging of seeks establish. *)
Record picks_ok : Prop := {
  po_score : (compaction_score_ v).2 ≤ (compaction_score_ v).1 →
    0 ≤ compaction_level_ v < kNumLevels - 1 ∧ level_files v (Z.to_nat (compaction_level_ v)) ≠ [];
  po_seek f l : file_to_compact_ v = Some (f, l) → (S l < Z.to_nat kNumLevels)%nat ∧ f ∈ level_files v l;
}.

(** A compaction that has been chosen. *)
Record compaction_ok (c : Compaction) (vs' : VersionSet (E := E)) : Prop := {
  ck_inputs : inputs_ok v (level_ c) (inputs c 0) (inputs c 1);
  ck_version : input_version vs' c = Some v;
  ck_current : current vs' = Some v;
  ck_ptrs : level_ptrs_ c = replicate (Z.to_nat kNumLevels) 0%nat;
  ck_edit : ∃ largest, edit_ c = SetCompactPointer (Z.of_nat (level_ c)) largest new_VersionEdit ∧ IV largest;
}.

Lemma find_version_change_refs n q l :
  version ∘ snd <$> list_find (λ u, address u = p) (change_refs n q l) = version ∘ snd <$> list_find (λ u, address u = p) l.
Proof.
  unfold change_refs. rewrite list_find_fmap.
  rewrite (list_find_ext _ (λ u, address u = p) l) by (intros u; cbn; by case_decide).
  destruct (list_find (λ u, address u = p) l) as [[i u]|]; [|done]. cbn. by case_decide.
Qed.

Lemma find_version_Ref : find_version (Ref vs p) p = Some v.
Proof. rewrite <- vs_version. apply find_version_change_refs. Qed.

Lemma one_chosen level f :
  (S level < Z.to_nat kNumLevels)%nat → (0 < level)%nat → f ∈ level_files v level → chosen_ok v level [f].
Proof.
  intros Hl H0 Hf. split; [done|done|by apply singleton_sublist_l|]. split; [lia|]. intros _ g Hg Hn.
  destruct (user_pair (level_files v level) f g) as [Hfg|Hgf];
    [done|by apply v_sorted|done|done|by intros ->; apply Hn, list_elem_of_singleton|right|left];
    by intros ? ->%list_elem_of_singleton.
Qed.

Lemma zero_chosen f :
  f ∈ level_files v 0 →
  ∃ fs, overlapping v 0 (Some (GetRange [f]).1) (Some (GetRange [f]).2) = Some fs ∧ chosen_ok v 0 fs.
Proof.
  intros Hf. pose proof (elem_file_valid _ (v_valid 0) f Hf) as Vf. pose proof Vf as (V1 & V2 & _).
  destruct (file_user_valid f Vf) as (U1 & U2 & Hle).
  destruct (overlapping_ok v 0 _ _ (v_valid 0) V1 V2) as (fs & Efs & [H1 H2 _ H3 _]); [by vm_compute; lia|]. exists fs. split; [done|].
  split; [by vm_compute; lia| |done|split; [by apply H3|done]].
  intros ->. destruct (H2 f Hf) as [Hlt|Hlt]; [by apply not_elem_of_nil|..]; fold (start f) (limit f) in Hlt;
    by apply (Compare_nlt (limit f) (start f)) in Hle.
Qed.

Lemma start_chosen level fs c' vs' :
  setup_post v (Ref vs p) (set_inputs (set_inputs (set_input_version (new_Compaction level) (Some p)) fs []) fs []) c' vs' →
  compaction_ok c' vs'.
Proof.
  intros (H1 & H2 & H3 & H4 & H5 & largest & H6 & Vl & ->). cbn [level_ set_inputs set_input_version new_Compaction] in *.
  split.
  - by rewrite H2.
  - unfold input_version. rewrite H3. cbn [input_version_ set_inputs set_input_version mbind option_bind]. apply find_version_Ref.
  - unfold current. change (current_ (set_compact_pointers (Ref vs p) _)) with (current_ vs). rewrite vs_current.
    apply find_version_Ref.
  - by rewrite H5.
  - exists largest. by rewrite H6, H2.
Qed.

Lemma setup_chosen level fs :
  chosen_ok v level fs →
  ∃ c' vs', SetupOtherInputs (user_comparator := C) (Ref vs p) v
      (set_inputs (set_inputs (set_input_version (new_Compaction level) (Some p)) fs []) fs []) = Some (c', vs') ∧
    level_ c' = level ∧ compaction_ok c' vs'.
Proof.
  intros Hc. destruct (SetupOtherInputs_ok v v_valid v_sorted (Ref vs p)
    (set_inputs (set_inputs (set_input_version (new_Compaction level) (Some p)) fs []) fs [])) as (c' & vs' & E1 & HP); [done|].
  exists c', vs'. split; [done|]. split; [apply HP|by eapply start_chosen].
Qed.

Lemma pick_inputs_ok :
  picks_ok → ∃ r, pick_inputs (user_comparator := C) vs v = Some r ∧
    match r with
    | None => NeedsCompaction v = false
    | Some (level, fs) => NeedsCompaction v = true ∧ (S level < Z.to_nat kNumLevels)%nat ∧ ∃ f, fs = [f] ∧ f ∈ level_files v level
    end.
Proof.
  intros [Hs Hf]. unfold pick_inputs, NeedsCompaction. case_decide as Hsc.
  - destruct (Hs Hsc) as [Hl Hne]. rewrite decide_True by lia. rewrite bool_decide_true by done.
    destruct (lookup_lt_is_Some_2 (compact_pointer_ vs) (Z.to_nat (compaction_level_ v))) as [ptr Eptr];
      [unfold kNumLevels in *; lia|]. rewrite Eptr. cbn [mbind option_bind].
    destruct (pick_file_ok _ ptr Hne) as (f & Ef & Hin). rewrite Ef. cbn [mbind option_bind].
    eexists; split; [done|]. split; [done|split; [unfold kNumLevels in *; lia|by exists f]].
  - rewrite bool_decide_false by done. destruct (file_to_compact_ v) as [[f l]|]; [|by exists None].
    eexists; split; [done|]. destruct (Hf f l eq_refl). split; [done|split; [done|by exists f]].
Qed.

Lemma PickCompaction_chooses :
  picks_ok → ∃ r vs', PickCompaction (user_comparator := C) vs = Some (r, vs') ∧
    match r with None => NeedsCompaction v = false ∧ vs' = vs | Some c => NeedsCompaction v = true ∧ compaction_ok c vs' end.
Proof.
  intros Hp. unfold PickCompaction, current. rewrite vs_current. cbn [mbind option_bind]. rewrite vs_version. cbn [mbind option_bind].
  destruct (pick_inputs_ok Hp) as (r & Er & Hr). rewrite Er. cbn [mbind option_bind].
  destruct r as [[level fs]|]; [|by exists None, vs].
  destruct Hr as (Hn & Hl & f & -> & Hf). unfold start_compaction. rewrite vs_current. cbn [mbind option_bind].
  assert (∃ fs, (if decide (level = 0%nat) then overlapping v 0 (Some (GetRange [f]).1) (Some (GetRange [f]).2) else Some [f]) = Some fs ∧
    chosen_ok v level fs) as (fs & Efs & Hc).
  { case_decide as H0; [subst; by apply zero_chosen|]. exists [f]. split; [done|]. apply one_chosen; [done|lia|done]. }
  rewrite Efs. cbn [mbind option_bind]. destruct (setup_chosen level fs Hc) as (c' & vs' & E1 & _ & Hok).
  change (set_inputs (set_inputs (set_input_version (new_Compaction level) (Some p)) [f] []) fs [])
    with (set_inputs (set_inputs (set_input_version (new_Compaction level) (Some p)) fs []) fs []).
  rewrite E1. cbn [mbind option_bind]. by exists (Some c'), vs'.
Qed.

Lemma CompactRange_chooses level begin end_ :
  (S level < Z.to_nat kNumLevels)%nat → opt_ikey_valid (V := V) begin → opt_ikey_valid (V := V) end_ →
  ∃ r vs', CompactRange (user_comparator := C) vs level begin end_ = Some (r, vs') ∧
    match r with
    | None => vs' = vs ∧ ∀ f, f ∈ level_files v level → file_overlaps (C := C) (ExtractUserKey <$> begin) (ExtractUserKey <$> end_) f = false
    | Some c => level_ c = level ∧ compaction_ok c vs'
    end.
Proof.
  intros Hl Vb Ve. unfold CompactRange, current. rewrite vs_current. cbn [mbind option_bind]. rewrite vs_version. cbn [mbind option_bind].
  unfold Compaction.overlapping. rewrite decide_True by lia. unfold GetOverlappingInputs.
  destruct (GetOverlappingInputs_spec _ (v_valid level) level begin end_ Vb Ve) as (fs & Efs & HS). rewrite Efs. cbn [mbind option_bind].
  assert (opt_valid (V := V) (ExtractUserKey <$> begin) ∧ opt_valid (V := V) (ExtractUserKey <$> end_)) as [Ub Ue]
    by (split; [destruct begin; [apply Vb|done]|destruct end_; [apply Ve|done]]).
  destruct (decide (fs = [])) as [Hfs|Hfs].
  - exists None, vs. splits; [done|done|]. intros f Hf. apply not_true_is_false. intros Ho.
    assert (f ∈ fs) as Hin by by (eapply inputs_complete; [exact (v_valid level)|exact HS|done..|by apply Is_true_true]).
    subst. by apply elem_of_nil in Hin.
  - unfold start_compaction. rewrite vs_current. cbn [mbind option_bind]. pose proof HS as (lo' & hi' & Hsub & _).
    set (fs' := if decide (0 < level)%nat then _ else fs).
    assert (chosen_ok v level fs') as Hc.
    { destruct (limit_inputs_ok (MaxFileSizeForLevel level) 0 fs) as [L1 L2].
      assert (fs `sublist_of` level_files v level) as Hs by (rewrite Hsub; apply sublist_filter).
      subst fs'. destruct (decide (0 < level)%nat) as [H0|H0].
      - split; [done|by apply L2|etrans; [|exact Hs]; destruct L1 as [rest L1]; rewrite L1 at 2; by apply sublist_inserts_r|]. split; [lia|]. intros _.
        apply (prefix_consecutive _ fs); [done|by apply v_sorted|done|done|]. destruct HS as (lo & hi & -> & _ & _ & Vlo & Vhi & _).
        apply overlaps_consecutive; [done|by apply v_sorted|done|done].
      - split; [done|done|done|]. split; [|lia]. intros ->. rewrite bool_decide_true in HS by done.
        intros f g Hf Hg Hng. by eapply inputs_closed. }
    destruct (setup_chosen level fs' Hc) as (c' & vs' & E1 & El & Hok).
    change (set_inputs (set_input_version (new_Compaction level) (Some p)) fs' [])
      with (set_inputs (set_inputs (set_input_version (new_Compaction level) (Some p)) fs' []) fs' []).
    rewrite E1. cbn [mbind option_bind]. by exists (Some c'), vs'.
Qed.
End Choose.

(** *** The levels behind the compaction *)

(** The key is in the range of user keys of the file. *)
Definition inside_range (u : bytes) (f : FileMetaData) : Prop := Compare (start f) u ≤ 0 ∧ Compare u (limit f) ≤ 0.

Lemma ptr_loop_spec u files ptr :
  V u → Forall file_valid files → level_sorted (C := C) files →
  ∀ ptr' inside, ptr_loop (user_comparator := C) u (drop ptr files) ptr = (ptr', inside) →
  (∀ j f, (ptr ≤ j < ptr')%nat → files !! j = Some f → Compare (limit f) u < 0) ∧
  (inside = true → ∃ f, f ∈ files ∧ inside_range u f) ∧
  (inside = false → ∀ j f, (ptr' ≤ j)%nat → files !! j = Some f → Compare u (start f) < 0).
Proof.
  intros Vu HV Hs. remember (drop ptr files) as fs eqn:Efs. revert ptr Efs. induction fs as [|f fs IH]; intros ptr Efs ptr' inside; cbn [ptr_loop].
  - intros [= <- <-]. splits; [lia|done|]. intros _ j g Hj Hg.
    assert (length files ≤ ptr)%nat by (apply (f_equal length) in Efs; rewrite length_drop in Efs; cbn in Efs; lia).
    apply lookup_lt_Some in Hg. lia.
  - assert (files !! ptr = Some f ∧ fs = drop (S ptr) files) as [Hf Efs'].
    { split; [rewrite <- (Nat.add_0_r ptr), <- lookup_drop, <- Efs; done|].
      rewrite <- Nat.add_1_r, <- drop_drop, <- Efs. done. }
    destruct (file_user_valid f (index_file_valid files HV ptr f Hf)) as (V1 & V2 & Hle). fold (start f) (limit f).
    destruct (decide (Compare u (limit f) ≤ 0)) as [Hc|Hc].
    + intros [= <- <-]. splits; [lia|intros Hi%bool_decide_eq_true|intros Hi%bool_decide_eq_false].
      * exists f. split; [by eapply list_elem_of_lookup_2|]. split; [by apply Compare_sgn_flip|done].
      * intros j g Hj Hg. destruct (decide (j = ptr)) as [->|Hne]; [simplify_eq; lia|].
        destruct (file_user_valid g (index_file_valid files HV j g Hg)) as (V3 & _).
        pose proof (level_start_le files ptr j f g HV Hs Hf Hg ltac:(lia)) as Hfg.
        apply (Compare_lt_le_trans u (start f)); [done..|lia|]. by apply (Compare_le_trans _ (limit f)).
    + intros Hl. destruct (IH (S ptr) Efs' ptr' inside Hl) as (H1 & H2 & H3). splits; [|done|done].
      intros j g Hj Hg. destruct (decide (j = ptr)) as [->|Hne]; [|apply (H1 j); [lia|done]].
      simplify_eq. apply Compare_flip; [done..|lia].
Qed.

(** The pointers have passed only files that end before the key. *)
Definition ptrs_ok (v : Version) (u : bytes) (ptrs : list nat) : Prop :=
  length ptrs = Z.to_nat kNumLevels ∧
  ∀ lvl ptr j f, ptrs !! lvl = Some ptr → (j < ptr)%nat → level_files v lvl !! j = Some f → Compare (limit f) u < 0.

Lemma ptrs_ok_later v u u' ptrs :
  (∀ l, Forall file_valid (level_files v l)) → V u → V u' → Compare u u' ≤ 0 → ptrs_ok v u ptrs → ptrs_ok v u' ptrs.
Proof.
  intros HV Vu Vu' Hle [Hl Hp]. split; [done|]. intros lvl ptr j f H1 H2 H3. specialize (Hp lvl ptr j f H1 H2 H3).
  destruct (file_user_valid f (index_file_valid _ (HV lvl) j f H3)) as (_ & V2 & _). by apply (Compare_lt_le_trans _ u).
Qed.

Lemma base_loop_spec v u lvls ptrs :
  V u → (∀ l, Forall file_valid (level_files v l)) → Forall (λ l, (0 < l < Z.to_nat kNumLevels)%nat) lvls →
  (∀ l, (0 < l)%nat → level_sorted (C := C) (level_files v l)) → ptrs_ok v u ptrs →
  ∃ base ptrs', base_loop (user_comparator := C) v u lvls ptrs = Some (base, ptrs') ∧ ptrs_ok v u ptrs' ∧
    if base then ∀ l f, l ∈ lvls → f ∈ level_files v l → ¬ inside_range u f
    else ∃ l f, l ∈ lvls ∧ f ∈ level_files v l ∧ inside_range u f.
Proof.
  intros Vu HV Hl Hs. revert ptrs. induction Hl as [|lvl lvls Hl _ IH]; intros ptrs [Hlen Hp]; cbn [base_loop].
  { exists true, ptrs. splits; [done|done|]. by intros ? ? ?%elem_of_nil. }
  destruct (lookup_lt_is_Some_2 ptrs lvl) as [ptr Eptr]; [lia|]. rewrite Eptr. cbn [mbind option_bind].
  destruct (ptr_loop u (drop ptr (level_files v lvl)) ptr) as [ptr' inside] eqn:Eloop.
  destruct (ptr_loop_spec u (level_files v lvl) ptr Vu (HV lvl) (Hs lvl ltac:(lia)) ptr' inside Eloop) as (H1 & H2 & H3).
  assert (ptrs_ok v u (<[lvl := ptr']> ptrs)) as Hp'.
  { split; [by rewrite length_insert|]. intros l q j f Hq Hj Hf. destruct (decide (l = lvl)) as [->|Hne].
    - rewrite list_lookup_insert_eq in Hq by lia. injection Hq as <-.
      destruct (decide (j < ptr)%nat) as [Hlt|]; [by eapply Hp|]. apply (H1 j); [lia|done].
    - rewrite list_lookup_insert_ne in Hq by done. by eapply Hp. }
  destruct inside.
  - exists false, (<[lvl := ptr']> ptrs). splits; [done|done|]. destruct (H2 eq_refl) as (f & Hf & Hin).
    exists lvl, f. splits; [by left|done|done].
  - destruct (IH _ Hp') as (base & ptrs' & E & Hok & Hb). exists base, ptrs'. splits; [done|done|].
    destruct base; [|destruct Hb as (l & f & Hl' & ?); exists l, f; split; [by right|done]].
    intros l f [->|Hl']%elem_of_cons Hf; [|by apply (Hb l)]. intros [Hin1 Hin2].
    apply list_elem_of_lookup in Hf as [j Hj]. destruct (file_user_valid f (index_file_valid _ (HV lvl) j f Hj)) as (V1 & V2 & _).
    destruct (decide (j < ptr')%nat) as [Hlt|Hge].
    + assert (Compare (limit f) u < 0) as Hlu.
      { eapply Hp'; [by rewrite list_lookup_insert_eq by lia|exact Hlt|done]. }
      apply Compare_flip in Hlu; [lia|done..].
    + specialize (H3 eq_refl j f ltac:(lia) Hj). apply Compare_flip in H3; [lia|done..].
Qed.

(** *** Scores *)

(** A level has a score of at least 1 only if it has files. *)
Lemma level_score_files v level :
  (level_score v level).2 ≤ (level_score v level).1 → level_files v level ≠ [].
Proof.
  unfold level_score, NumFiles. intros Hs Hf. destruct (decide (level = 0%nat)) as [->|_]; rewrite Hf in Hs; cbn [fst snd] in Hs; [done|].
  change (u64 (TotalFileSize [])) with 0 in Hs. enough (0 < MaxBytesForLevel level) by lia.
  unfold MaxBytesForLevel. assert (0 < 10 * 1048576) as H0 by done. revert H0. generalize (10 * 1048576). clear.
  induction level as [|[|l] IH]; intros r Hr; cbn [MaxBytes_loop]; [done|done|]. apply IH. lia.
Qed.

Lemma best_level_ok v levels best :
  Forall (λ l, Z.of_nat l < kNumLevels - 1) levels →
  (best.2.2 ≤ best.2.1 → 0 ≤ best.1 < kNumLevels - 1 ∧ level_files v (Z.to_nat best.1) ≠ []) →
  let r := foldl (better_level v) best levels in
  r.2.2 ≤ r.2.1 → 0 ≤ r.1 < kNumLevels - 1 ∧ level_files v (Z.to_nat r.1) ≠ [].
Proof.
  intros Hl. revert best. induction Hl as [|l levels Hl _ IH]; intros best Hb; [done|]. cbn [foldl]. apply IH.
  unfold better_level. case_decide; [|done]. cbn [fst snd]. intros Hs%level_score_files. rewrite Nat2Z.id. split; [lia|done].
Qed.

Lemma Finalize_picks v : file_to_compact_ v = None → picks_ok (Finalize v).
Proof.
  intros Hn. split; [|by cbn; rewrite Hn]. unfold Finalize. cbn [compaction_score_ compaction_level_].
  change (level_files {| files_ := files_ v; file_to_compact_ := file_to_compact_ v; compaction_level_ := _; compaction_score_ := _ |})
    with (level_files v). apply best_level_ok; [|done].
  apply list.Forall_forall. intros l Hl%elem_of_seq. unfold kNumLevels in *. lia.
Qed.
End Correct.

(** C30: the files of a compaction are closed under what overlaps them. In a
    version whose levels but the first are sorted by internal keys, an automatic
    compaction is chosen if and only if one is due, and a manual one if any file of
    the level overlaps the range. Its files are files of two adjacent levels. In
    level 0, where files overlap, no file that is left shares a user key with a
    chosen one. In the other levels the files that are left lie wholly before or
    wholly behind the chosen ones in the order of user keys; one that touches them
    may share the one user key at which it does. No file that is left in the lower
    level has a user key in the range of the chosen ones of the upper level, while
    all chosen ones there have. The version it was chosen from is held, and the
    choice always ends. *)
Theorem compaction_inputs_closed {C : Comparator} {V : bytes → Prop} {CL : ComparatorLaws C V} {W} {E : Env W}
    (vs : VersionSet (E := E)) v p :
  current_ vs = Some p → find_version vs p = Some v → length (compact_pointer_ vs) = Z.to_nat kNumLevels →
  (∀ l, Forall (file_valid (C := C) (V := V)) (level_files v l)) → (∀ l, (0 < l)%nat → level_sorted (C := C) (level_files v l)) → picks_ok v →
  (∃ r vs', PickCompaction (user_comparator := C) vs = Some (r, vs') ∧
     match r with
     | None => NeedsCompaction v = false ∧ vs' = vs
     | Some c => NeedsCompaction v = true ∧ compaction_ok (C := C) (V := V) v c vs'
     end) ∧
  ∀ level begin end_, (S level < Z.to_nat kNumLevels)%nat → opt_ikey_valid (V := V) begin → opt_ikey_valid (V := V) end_ →
  ∃ r vs', CompactRange (user_comparator := C) vs level begin end_ = Some (r, vs') ∧
    match r with
    | None => vs' = vs ∧ ∀ f, f ∈ level_files v level → file_overlaps (C := C) (ExtractUserKey <$> begin) (ExtractUserKey <$> end_) f = false
    | Some c => level_ c = level ∧ compaction_ok (C := C) (V := V) v c vs'
    end.
Proof.
  intros Hc Hv Hp HV Hs Hpk. split; [by eapply PickCompaction_chooses|]. intros. by eapply CompactRange_chooses.
Qed.

(** ** An example *)

Module Example.
Definition ik (u : bytes) (s : Z) : bytes := InternalKey u s kTypeValue.
Definition file (n : Z) (a b : bytes) : FileMetaData := new_FileMetaData n 100 a b.

(** Four files in level 0, of which three hang together. *)
Definition v : Version :=
  Finalize {| files_ := [[file 5 (ik (str "a") 9) (ik (str "c") 9); file 6 (ik (str "x") 9) (ik (str "z") 9);
                          file 7 (ik (str "c") 12) (ik (str "e") 12); file 8 (ik (str "e") 15) (ik (str "g") 15)];
                         [file 3 (ik (str "b") 2) (ik (str "f") 2); file 4 (ik (str "h") 3) (ik (str "k") 3)]; []; []; []; []; []];
              file_to_compact_ := None; compaction_level_ := -1; compaction_score_ := (-1, 1) |}.

Definition vs : VersionSet (E := InMemoryEnv) :=
  AppendVersion (new_VersionSet (str "db")) v.

Lemma files_valid l : Forall (file_valid (C := BytewiseComparator) (V := any_key)) (level_files v l).
Proof.
  destruct l as [|[|[|[|[|[|[|l]]]]]]]; [..|by destruct l; constructor];
    match goal with |- Forall ?P ?l => let l' := eval vm_compute in l in change (Forall P l') end;
    repeat apply List.Forall_cons; try apply List.Forall_nil;
    (split; [split; [by vm_compute|exact I]|split; [split; [by vm_compute|exact I]|by vm_compute]]).
Qed.

Lemma files_sorted l : (0 < l)%nat → level_sorted (C := BytewiseComparator) (level_files v l).
Proof.
  intros Hl. destruct l as [|[|[|[|[|[|[|l]]]]]]]; [lia|..|by destruct l; constructor]; by repeat constructor.
Qed.

Lemma v_picks : picks_ok v.
Proof. by apply Finalize_picks. Qed.

(** The numbers of the files that are chosen. *)
Definition chosen (r : option (option Compaction * VersionSet (E := InMemoryEnv))) : option (option (list Z * list Z)) :=
  match r with
  | Some (Some c, _) => Some (Some (number <$> inputs c 0, number <$> inputs c 1))
  | Some (None, _) => Some None
  | None => None
  end.
End Example.

Example compaction_inputs_closed_witness :
  Example.chosen (PickCompaction (user_comparator := BytewiseComparator) Example.vs) = Some (Some ([5; 7; 8], [3])) ∧
  ∃ r vs', PickCompaction (user_comparator := BytewiseComparator) Example.vs = Some (r, vs') ∧
    match r with
    | None => NeedsCompaction Example.v = false ∧ vs' = Example.vs
    | Some c => NeedsCompaction Example.v = true ∧ compaction_ok (C := BytewiseComparator) (V := any_key) Example.v c vs'
    end.
Proof.
  split; [by vm_compute|].
  apply (proj1 (compaction_inputs_closed (CL := BytewiseComparator_laws) Example.vs Example.v 1 eq_refl eq_refl eq_refl
    Example.files_valid Example.files_sorted Example.v_picks)).
Defined.

(** The user key at which a file that is left touches the chosen ones: if the
    entries of a user key end up in two files of a level, only the file with the
    newer ones may be chosen, and the older ones are left behind. *)
Example boundary_file_is_left :
  let ik := Example.ik in
  let v := {| files_ := [[]; [Example.file 8 (ik (str "a") 9) (ik (str "b") 7); Example.file 9 (ik (str "b") 5) (ik (str "c") 4)]; []; []; []; []; []];
              file_to_compact_ := Some (Example.file 8 (ik (str "a") 9) (ik (str "b") 7), 1%nat);
              compaction_level_ := 0; compaction_score_ := (0, 4) |} in
  level_sorted (C := BytewiseComparator) (level_files v 1) ∧
  Example.chosen (PickCompaction (user_comparator := BytewiseComparator)
    (AppendVersion (new_VersionSet (E := InMemoryEnv) (str "db")) v)) = Some (Some ([8], [])).
Proof. split; [by repeat constructor|by vm_compute]. Qed.
