(* ===== verification/CompactionDrop.v ===== *)
(** The entries that a compaction drops: the rule of
    [DBImpl::DoCompactionWork] of [db/db_impl.cc], and what the version that is
    installed behind it shows. *)
From Stdlib Require Import Sorting.Sorted.
From S2P Require Import Prelude SortedLists Coding Status Comparator Env MemEnv LogFile DbFormat Iterator DbIter VersionEdit Version VersionRead VersionBuilder VersionSet Compaction.

(** [current_user_key], which is set exactly if [has_current_user_key], and
    [last_sequence_for_key]. *)
Record DropState := { current_user_key : option bytes; last_sequence_for_key : Z }.

Definition new_DropState : DropState := {| current_user_key := None; last_sequence_for_key := kMaxSequenceNumber |}.

Section Drop.
Context {W : Type} {E : Env W} {user_comparator : Comparator}.

(** Whether the entry is dropped. *)
Definition drop_entry (vs : VersionSet (E := E)) (smallest_snapshot : Z) (c : Compaction) (d : DropState) (key : bytes) :
    option (bool * Compaction * DropState) :=
  match ParseInternalKey key with
  | None => Some (false, c, new_DropState)
  | Some ikey =>
      let d :=
        if match current_user_key d with
           | Some k => bool_decide (Compare (Comparator := user_comparator) (DbFormat.user_key ikey) k ≠ 0)
           | None => true
           end then
          {| current_user_key := Some (DbFormat.user_key ikey); last_sequence_for_key := kMaxSequenceNumber |}
        else d in
      '(drop, c) ←
        (if decide (last_sequence_for_key d ≤ smallest_snapshot) then Some (true, c)
         else if bool_decide (type ikey = kTypeDeletion) && bool_decide (sequence ikey ≤ smallest_snapshot) then
           IsBaseLevelForKey (user_comparator := user_comparator) vs c (DbFormat.user_key ikey)
         else Some (false, c));
      Some (drop, c, {| current_user_key := current_user_key d; last_sequence_for_key := sequence ikey |})
  end.

(** The entries that are left, in their order. *)
Fixpoint drop_run (vs : VersionSet (E := E)) (smallest_snapshot : Z) (c : Compaction) (d : DropState) (es : list entry) :
    option (list entry * Compaction * DropState) :=
  match es with
  | [] => Some ([], c, d)
  | e :: es =>
      '(drop, c, d) ← drop_entry vs smallest_snapshot c d e.1;
      '(kept, c, d) ← drop_run vs smallest_snapshot c d es;
      Some (if (drop : bool) then kept else e :: kept, c, d)
  end.
End Drop.

(** ** What the user sees of two collections of entries *)

Lemma list_max_exists {A} (f : A → Z) (l : list A) : l ≠ [] → ∃ m, m ∈ l ∧ ∀ y, y ∈ l → f y ≤ f m.
Proof.
  induction l as [|a l IH]; intros Hne; [done|]. destruct (decide (l = [])) as [->|Hl].
  - exists a. split; [by left|]. intros y ->%list_elem_of_singleton. lia.
  - destruct (IH Hl) as (m & Hm & Hmax). destruct (decide (f a ≤ f m)) as [Ha|Ha].
    + exists m. split; [by right|]. by intros y [->|Hy]%elem_of_cons; [|apply Hmax].
    + exists a. split; [by left|]. intros y [->|Hy]%elem_of_cons; [lia|]. specialize (Hmax y Hy). lia.
Qed.

(** Entries that no reader at the snapshot or later can miss. *)
Definition hidden (smallest : Z) (es : list entry) (x : entry) : Prop :=
  ∃ e, e ∈ es ∧ uk e = uk x ∧ seen smallest e ∧ tag x < tag e.
Definition obsolete (smallest : Z) (es' : list entry) (x : entry) : Prop :=
  ty x = kTypeDeletion ∧ seen smallest x ∧ ∀ y, y ∈ es' → uk y = uk x → tag x < tag y.

Lemma drop_view smallest es es' s u val :
  (∀ x, x ∈ es' → x ∈ es) → (∀ x, x ∈ es → x ∈ es' ∨ hidden smallest es x ∨ obsolete smallest es' x) →
  smallest ≤ s → (u, val) ∈ user_view s es' ↔ (u, val) ∈ user_view s es.
Proof.
  intros Hsub Hdrop Hs. rewrite !view_elem. unfold visible. setoid_rewrite list.Forall_forall.
  assert (Hseen : ∀ e, seen smallest e → seen s e) by (unfold seen; lia).
  split; intros (e & He & (Hse & Ht & Hmax) & Hu & Hval); exists e.
  - splits; [by apply Hsub|done|done| |done|done]. intros x Hx Hxu Hxs.
    destruct (list_max_exists tag (filter (λ y, uk y = uk e ∧ seen s y) es)) as (m & [[Hmu Hms] Hm]%list_elem_of_filter & Hmmax).
    { intros Hn. assert (x ∈ filter (λ y, uk y = uk e ∧ seen s y) es) as Hin by by apply list_elem_of_filter.
      rewrite Hn in Hin. by apply elem_of_nil in Hin. }
    assert (tag x ≤ tag m) by by apply Hmmax, list_elem_of_filter.
    destruct (Hdrop m Hm) as [Hm'|[(y & Hy & Hyu & Hys & Hlt)|(_ & _ & Hn)]].
    + specialize (Hmax m Hm' Hmu Hms). lia.
    + assert (tag y ≤ tag m); [|lia]. apply Hmmax, list_elem_of_filter. split; [|done]. split; [congruence|by apply Hseen].
    + specialize (Hn e He (eq_sym Hmu)). lia.
  - assert (e ∈ es') as He'.
    { destruct (Hdrop e He) as [?|[(y & Hy & Hyu & Hys & Hlt)|(Hd & _)]]; [done| |by rewrite Hd in Ht].
      specialize (Hmax y Hy Hyu (Hseen y Hys)). lia. }
    splits; [done|done|done| |done|done]. intros x Hx. by apply Hmax, Hsub.
Qed.

(** ** What the rule drops *)

Section Rule.
Context {C : Comparator} {V : bytes → Prop} {CL : ComparatorLaws C V}.
Context {W : Type} {E : Env W} (vs : VersionSet (E := E)) (v : Version) (level : nat) (smallest : Z).

Abbreviation IKC := (InternalKeyComparator (user_comparator_ := C)).
Abbreviation ilt := (entry_lt (C := IKC)).
Abbreviation file_valid := (file_valid (C := C) (V := V)).
Abbreviation ikey_ok := (ikey_ok (V := V)).
Abbreviation ptrs_ok := (ptrs_ok (C := C)).

Hypothesis v_valid : ∀ l, Forall file_valid (level_files v l).
Hypothesis v_sorted : ∀ l, (0 < l)%nat → level_sorted (C := C) (level_files v l).
Hypothesis smallest_ok : smallest < kMaxSequenceNumber.

(** No file below the lower level of the compaction may have the key. *)
Definition no_deep_file (u : bytes) : Prop :=
  ∀ l f, (level + 2 ≤ l < Z.to_nat kNumLevels)%nat → f ∈ level_files v l → ¬ inside_range (C := C) u f.

(** The compaction between two entries. *)
Record drop_compaction (c : Compaction) (u : bytes) : Prop := {
  dc_version : input_version vs c = Some v;
  dc_level : level_ c = level;
  dc_ptrs : ptrs_ok v u (level_ptrs_ c);
}.

Lemma IsBaseLevelForKey_spec c u :
  V u → drop_compaction c u →
  ∃ base c', IsBaseLevelForKey (user_comparator := C) vs c u = Some (base, c') ∧ drop_compaction c' u ∧
    (base = true → no_deep_file u).
Proof.
  intros Vu [Hv Hl Hp]. unfold IsBaseLevelForKey. rewrite Hv. cbn [mbind option_bind].
  destruct (base_loop_spec v u (seq (level_ c + 2) (Z.to_nat kNumLevels - (level_ c + 2))) (level_ptrs_ c) Vu v_valid)
    as (base & ptrs & E1 & Hp' & Hb); [|done|done|].
  { apply list.Forall_forall. intros l Hin%elem_of_seq. lia. }
  rewrite E1. cbn [mbind option_bind]. eexists base, _. split; [done|]. split; [by split|].
  intros ->. intros l f Hrange Hf. apply (Hb l f); [apply elem_of_seq; lia|done].
Qed.

Lemma drop_compaction_later c u u' : V u → V u' → Compare u u' ≤ 0 → drop_compaction c u → drop_compaction c u'.
Proof. intros V1 V2 Hle [Hv Hl Hp]. split; [done|done|]. by apply (ptrs_ok_later (V := V) v u u'). Qed.

(** What the state remembers of the entry before. *)
Definition drop_state (prev : option entry) (d : DropState) : Prop :=
  match prev with
  | None => d = new_DropState
  | Some p => d = {| current_user_key := Some (uk p); last_sequence_for_key := Z.shiftr (tag p) 8 |}
  end.

Definition hidden_by (prev : option entry) (x : entry) : Prop := ∃ p, prev = Some p ∧ uk p = uk x ∧ seen smallest p.

Lemma drop_entry_spec c d prev e :
  ikey_ok e → (∀ p, prev = Some p → V (uk p)) → drop_state prev d → drop_compaction c (uk e) →
  ∃ drop c', drop_entry (user_comparator := C) vs smallest c d e.1 =
      Some (drop, c', {| current_user_key := Some (uk e); last_sequence_for_key := Z.shiftr (tag e) 8 |}) ∧
    drop_compaction c' (uk e) ∧
    (hidden_by prev e → drop = true) ∧
    (drop = true → hidden_by prev e ∨ ty e = kTypeDeletion ∧ seen smallest e ∧ no_deep_file (uk e)).
Proof.
  intros [[Hlen Ve] Ht] Vp Hd Hc. unfold drop_entry. rewrite parse_valid by done.
  cbn [DbFormat.user_key sequence type parsed]. fold (uk e) in Ve.
  cbv zeta. match goal with |- context [decide (last_sequence_for_key ?x ≤ _)] => set (d' := x) end.
  assert (current_user_key d' = Some (uk e) ∧ (last_sequence_for_key d' ≤ smallest ↔ hidden_by prev e)) as [Ed' Hh].
  { subst d'. destruct prev as [p|]; cbn [drop_state] in Hd; subst d; cbn [current_user_key last_sequence_for_key new_DropState].
    - case_bool_decide as Hc'.
      + cbn. split; [done|]. split; [lia|]. intros (q & [= <-] & Hq & _). destruct Hc'. apply Compare_eq; [done|by apply Vp|done].
      + apply Compare_eq in Hc'; [|done|by apply Vp]. cbn. split; [congruence|]. split; [|by intros (q & [= <-] & _ & ?)].
        intros Hs. by exists p.
    - cbn. split; [done|]. split; [lia|]. by intros (q & ? & _). }
  destruct (decide (last_sequence_for_key d' ≤ smallest)) as [Hs|Hs].
  - exists true, c. rewrite Ed'. splits; [done|done|done|]. intros _. left. by apply Hh.
  - destruct (bool_decide (ty e = kTypeDeletion) && _) eqn:Eb.
    + apply andb_true_iff in Eb as [Hty%bool_decide_eq_true Hsm%bool_decide_eq_true].
      destruct (IsBaseLevelForKey_spec c (uk e) Ve Hc) as (base & c' & -> & Hc' & Hb).
      exists base, c'. cbn [mbind option_bind]. rewrite Ed'. splits; [done|done|by intros ?%Hh|]. intros Hbase. right. by auto.
    + exists false, c. rewrite Ed'. splits; [done|done|by intros ?%Hh|done].
Qed.

(** An entry is dropped by the run behind [prev]. *)
Definition dropped (prev : option entry) (es kept : list entry) (x : entry) : Prop :=
  (∃ e, (prev = Some e ∨ e ∈ es) ∧ uk e = uk x ∧ seen smallest e ∧ tag x < tag e) ∨
  (ty x = kTypeDeletion ∧ seen smallest x ∧ no_deep_file (uk x) ∧ ∀ y, y ∈ kept → uk y = uk x → tag x < tag y).

Lemma ilt_same_key a b : ikey_ok a → ikey_ok b → ilt a b → uk a = uk b → tag b < tag a.
Proof.
  intros Ha Hb Hlt Hu. apply (ikey_lt (V := V)) in Hlt as [Hlt|[_ ?]]; [|done|done|done].
  rewrite Hu, Compare_refl in Hlt; [lia|]. apply Hb.
Qed.

Lemma ilt_key_le a b : ikey_ok a → ikey_ok b → ilt a b → Compare (uk a) (uk b) ≤ 0.
Proof.
  intros Ha Hb Hlt. apply (ikey_lt (V := V)) in Hlt as [Hlt|[-> _]]; [lia| |done|done]. rewrite Compare_refl; [done|apply Hb].
Qed.

Lemma drop_run_spec es : ∀ prev c d,
  StronglySorted ilt es → Forall ikey_ok es → drop_state prev d →
  (∀ p, prev = Some p → ikey_ok p ∧ Forall (ilt p) es) →
  (∀ e, e ∈ es → drop_compaction c (uk e)) →
  ∃ kept c' d', drop_run (user_comparator := C) vs smallest c d es = Some (kept, c', d') ∧ kept `sublist_of` es ∧
    (∀ p, prev = Some p → seen smallest p → ∀ y, y ∈ kept → uk y ≠ uk p) ∧
    ∀ x, x ∈ es → x ∈ kept ∨ dropped prev es kept x.
Proof.
  induction es as [|e es IH]; intros prev c d Hs HK Hd Hp Hc; cbn [drop_run].
  { exists [], c, d. splits; [done|done|by intros ? _ _ ? ?%elem_of_nil|by intros ? ?%elem_of_nil]. }
  apply StronglySorted_inv in Hs as [Hs He]. apply list.Forall_cons in HK as [Ke HK].
  destruct (drop_entry_spec c d prev e Ke) as (drop & c1 & E1 & Hc1 & Hhid & Hdrop); [|done|apply Hc; by left|].
  { intros p ->. by destruct (Hp p eq_refl) as [[[_ ?] _] _]. }
  rewrite E1. cbn [mbind option_bind]. rewrite list.Forall_forall in He, HK.
  destruct (IH (Some e) c1 {| current_user_key := Some (uk e); last_sequence_for_key := Z.shiftr (tag e) 8 |} Hs)
    as (kept & c' & d' & E2 & Hsub & Hnone & Hall); [by apply list.Forall_forall|done| | |].
  { intros p [= <-]. split; [done|by apply list.Forall_forall]. }
  { intros x Hx. apply (drop_compaction_later c1 (uk e)); [apply Ke|by apply (HK x)|apply ilt_key_le; auto|done]. }
  rewrite E2. cbn [mbind option_bind]. eexists _, c', d'. split; [done|].
  assert (Hnew : ∀ y, y ∈ kept → uk y = uk e → tag y < tag e).
  { intros y Hy Hu. assert (y ∈ es) as Hy' by by apply (sublist_subseteq _ _ Hsub).
    apply ilt_same_key; auto. }
  splits.
  - destruct drop; [by apply sublist_cons|by apply sublist_skip].
  - intros p -> Hseen y Hy Hu. destruct (Hp p eq_refl) as [Kp Hpe]. apply list.Forall_cons in Hpe as [Hpe Hpes].
    rewrite list.Forall_forall in Hpes.
    destruct (decide (uk e = uk p)) as [Hue|Hue].
    + rewrite Hhid in Hy by by exists p. apply (Hnone e eq_refl) with y; [|done|congruence].
      pose proof (ilt_same_key p e Kp Ke Hpe (eq_sym Hue)) as Ht. unfold seen in *.
      enough (Z.shiftr (tag e) 8 ≤ Z.shiftr (tag p) 8) by lia. rewrite !shiftr_div by lia. apply Z.div_le_mono; lia.
    + assert (y ∈ e :: es) as Hy'.
      { destruct drop; [right; by apply (sublist_subseteq _ _ Hsub)|].
        apply elem_of_cons in Hy as [->|Hy]; [by left|right; by apply (sublist_subseteq _ _ Hsub)]. }
      apply elem_of_cons in Hy' as [->|Hy']; [done|]. apply Hue, Compare_antisym; [apply Ke|apply Kp| |by apply ilt_key_le].
      rewrite <- Hu. apply ilt_key_le; auto.
  - intros x [->|Hx]%elem_of_cons.
    + destruct drop; [right|left; by left]. destruct (Hdrop eq_refl) as [(p & -> & Hu & Hseen)|(Ht & Hseen & Hdeep)].
      * left. exists p. destruct (Hp p eq_refl) as [Kp Hpe]. apply list.Forall_cons in Hpe as [Hpe _].
        splits; [by left|done|done|by apply ilt_same_key].
      * right. splits; [done|done|done|]. intros y Hy Hu. exfalso. by eapply (Hnone e).
    + destruct (Hall x Hx) as [Hk|[(z & Hz & Hu & Hseen & Ht)|(Ht & Hseen & Hdeep & Hk)]].
      * left. destruct drop; [done|by right].
      * right. left. exists z. splits; [|done|done|done]. right. destruct Hz as [[= <-]|Hz]; [by left|by right].
      * right. right. splits; [done|done|done|]. intros y Hy Hu. destruct drop; [by apply Hk|].
        apply elem_of_cons in Hy as [->|Hy]; [|by apply Hk]. apply ilt_same_key; auto.
Qed.
End Rule.
