(* ===== verification/CompactionInstall.v ===== *)
(** The version that a compaction installs: the inputs are replaced by files
    with the entries that are kept, as [DBImpl::InstallCompactionResults] of
    [db/db_impl.cc] asks for, and nothing a user can see is lost.

    What the table files hold is a parameter, by the number of the file. *)
From Stdlib Require Import Sorting.Sorted.
From S2P Require Import Prelude SortedLists Coding Status Comparator Env MemEnv LogFile DbFormat Iterator DbIter VersionEdit Version VersionRead VersionBuilder VersionSet Manifest Compaction CompactionDrop.

(** ** [InstallCompactionResults] *)

(** [CompactionState::Output] *)
Record Output := { out_number : Z; out_file_size : Z; out_smallest : bytes; out_largest : bytes }.

(** The edit that replaces the inputs by the outputs. *)
Definition results_edit (c : Compaction) (outputs : list Output) : VersionEdit :=
  foldl (λ edit out, AddFile (Z.of_nat (level_ c) + 1) (out_number out) (out_file_size out) (out_smallest out) (out_largest out) edit)
    (AddInputDeletions c (edit_ c)) outputs.

(** The file that the builder of versions makes of an output. *)
Definition out_file (out : Output) : FileMetaData :=
  seek_allowance (new_FileMetaData (out_number out) (out_file_size out) (out_smallest out) (out_largest out)).

(** ** The new version *)

Section Install.
Context {C : Comparator} {V : bytes → Prop} {CL : ComparatorLaws C V}.
Context (table : Z → list entry).

Abbreviation IKC := (InternalKeyComparator (user_comparator_ := C)).
Abbreviation IV := (ikey_valid (V := V)).
Abbreviation icmp := (Compare (Comparator := IKC)).
Abbreviation ilt := (entry_lt (C := IKC)).
Abbreviation content := (λ f, table (number f)).
Abbreviation file_ok := (file_ok (C := C) (V := V) content).
Abbreviation file_valid := (file_valid (C := C) (V := V)).
Abbreviation version_ok := (version_ok (C := C) (V := V) content).
Abbreviation newer := (newer content).
Abbreviation sorted := (StronglySorted (file_lt (C := C))).

(** The file is an input. *)
Definition is_input (level : nat) (fs0 fs1 : list FileMetaData) (l : nat) (f : FileMetaData) : Prop :=
  l = level ∧ f ∈ fs0 ∨ l = S level ∧ f ∈ fs1.
#[export] Instance is_input_dec level fs0 fs1 l f : Decision (is_input level fs0 fs1 l f).
Proof. unfold is_input. apply _. Defined.

(** The levels of a version in which the inputs are replaced. *)
Record replaces (level : nat) (fs0 fs1 outs : list FileMetaData) (cur v' : Version) : Prop := {
  rp_levels : length (files_ v') = Z.to_nat kNumLevels;
  rp_perm l : (l < Z.to_nat kNumLevels)%nat →
    level_files v' l ≡ₚ filter (λ f, ¬ is_input level fs0 fs1 l f) (level_files cur l) ++ (if decide (l = S level) then outs else []);
  rp_sorted l : sorted (level_files v' l);
}.

(** What the files of a compaction hold: the entries that are kept. *)
Record outputs_ok (kept : list entry) (outs : list FileMetaData) (cur : Version) : Prop := {
  oo_files : Forall file_ok outs;
  oo_kept : concat (content <$> outs) = kept;
  oo_fresh : NoDup (number <$> outs ++ concat (files_ cur));
}.

(** What may happen to the current version while a compaction of files of [v]
    runs: the inputs stay where they are, and a file that comes has newer entries
    than they have and, in the level of the outputs, no user key in their range. *)
Record since (level : nat) (fs0 fs1 : list FileMetaData) (v cur : Version) : Prop := {
  si_inputs0 : fs0 `sublist_of` level_files cur level;
  si_inputs1 : fs1 `sublist_of` level_files cur (S level);
  si_files l f : f ∈ level_files cur l → f ∈ level_files v l ∨
    (∀ g, g ∈ fs0 ++ fs1 → newer f g) ∧
    (l = S level → Compare (limit f) (ExtractUserKey (GetRange (user_comparator := C) fs0).1) < 0 ∨
                   Compare (ExtractUserKey (GetRange (user_comparator := C) fs0).2) (start f) < 0);
}.

(** No user key of an input is in a file that is left beside it. *)
Definition inputs_isolated (level : nat) (fs0 fs1 : list FileMetaData) (v : Version) : Prop :=
  isolated (C := C) (level_files v level) fs0 ∧ isolated (C := C) (level_files v (S level)) fs1.

Context (level : nat) (fs0 fs1 outs : list FileMetaData) (v cur v' : Version) (kept : list entry).
Hypothesis cur_ok : version_ok cur.
Hypothesis inputs_of_v : inputs_in (C := C) v level fs0 fs1.
Hypothesis v_isolated : inputs_isolated level fs0 fs1 v.
Hypothesis Since : since level fs0 fs1 v cur.
Hypothesis Replaced : replaces level fs0 fs1 outs cur v'.
Hypothesis Outputs : outputs_ok kept outs cur.

(** The entries of the inputs. *)
Definition input_entry (x : entry) : Prop := ∃ f, f ∈ fs0 ++ fs1 ∧ x ∈ content f.

(** The inputs are still what a compaction needs. *)
Lemma inputs_are : inputs_in (C := C) cur level fs0 fs1.
Proof.
  split; try apply inputs_of_v; try apply Since. intros g Hg Hn.
  destruct (si_files _ _ _ _ _ Since _ g Hg) as [Hv|[_ Hr]]; [by apply inputs_of_v|by apply Hr].
Qed.
Hypothesis kept_inputs : ∀ x, x ∈ kept → input_entry x.
Hypothesis kept_sorted : StronglySorted ilt kept.

Lemma elem_new l f :
  f ∈ level_files v' l ↔ f ∈ level_files cur l ∧ ¬ is_input level fs0 fs1 l f ∨ l = S level ∧ f ∈ outs.
Proof.
  destruct (decide (l < Z.to_nat kNumLevels)%nat) as [Hl|Hl].
  - rewrite (rp_perm _ _ _ _ _ _ Replaced l Hl), elem_of_app, list_elem_of_filter. case_decide as Hl'; [tauto|].
    rewrite elem_of_nil. tauto.
  - assert (∀ v, length (files_ v) = Z.to_nat kNumLevels → level_files v l = []) as Hnil
      by (intros w Hw; unfold level_files; apply nth_overflow; lia).
    rewrite (Hnil v'), (Hnil cur) by (apply Replaced || apply cur_ok). rewrite elem_of_nil.
    split; [done|]. intros [[[] _]|[-> _]]. pose proof (io_level _ _ _ _ inputs_are). lia.
Qed.

Lemma cur_file_ok l f : f ∈ level_files cur l → file_ok f.
Proof. intros Hf. by eapply level_file_ok. Qed.

Lemma cur_valid l : Forall file_valid (level_files cur l).
Proof. by eapply level_valid. Qed.

Lemma input_file f : f ∈ fs0 ++ fs1 → f ∈ fs0 ∧ f ∈ level_files cur level ∨ f ∈ fs1 ∧ f ∈ level_files cur (S level).
Proof.
  intros [Hf|Hf]%elem_of_app; [left|right]; (split; [done|]).
  - apply (sublist_subseteq _ _ (io_sublist0 _ _ _ _ inputs_are) _ Hf).
  - apply (sublist_subseteq _ _ (io_sublist1 _ _ _ _ inputs_are) _ Hf).
Qed.

Lemma input_file_ok f : f ∈ fs0 ++ fs1 → file_ok f.
Proof. intros [[_ Hf]|[_ Hf]]%input_file; by eapply cur_file_ok. Qed.

Lemma out_file_ok f : f ∈ outs → file_ok f.
Proof. pose proof (oo_files _ _ _ Outputs) as H. rewrite list.Forall_forall in H. apply H. Qed.

Lemma out_entry f x : f ∈ outs → x ∈ content f → x ∈ kept.
Proof.
  intros Hf Hx. rewrite <- (oo_kept _ _ _ Outputs). apply elem_of_concat. exists (content f).
  split; [done|]. by apply (list_elem_of_fmap_2 content).
Qed.

Lemma new_file_ok l f : f ∈ level_files v' l → file_ok f.
Proof. intros [[Hf _]|[_ Hf]]%elem_new; [by eapply cur_file_ok|by apply out_file_ok]. Qed.

(** *** The files beside the inputs in the lower level *)

Lemma user_lt a b : Compare (ExtractUserKey a) (ExtractUserKey b) < 0 → icmp a b < 0.
Proof. intros H. apply Internal_Compare_lt. by left. Qed.

Lemma range_covers : covers (C := C) (GetRange (user_comparator := C) fs0) fs0.
Proof.
  apply (GetRange_covers (V := V)); [|apply inputs_are]. apply list.Forall_forall. intros f Hf.
  apply (file_ok_valid content), input_file_ok, elem_of_app. by left.
Qed.

Abbreviation lo := (ExtractUserKey (GetRange (user_comparator := C) fs0).1).
Abbreviation hi := (ExtractUserKey (GetRange (user_comparator := C) fs0).2).

Lemma range_valid : IV (GetRange (user_comparator := C) fs0).1 ∧ IV (GetRange (user_comparator := C) fs0).2.
Proof.
  apply (covers_valid _ fs0); [|apply range_covers]. apply list.Forall_forall. intros f Hf.
  apply (file_ok_valid content), input_file_ok, elem_of_app. by left.
Qed.

Lemma in_range f : f ∈ fs0 → Compare lo (start f) ≤ 0 ∧ Compare (limit f) hi ≤ 0.
Proof.
  intros Hf. destruct range_covers as [Hc _]. destruct (Hc f Hf) as [H1 H2]. destruct range_valid as [R1 R2].
  destruct (file_ok_valid content f) as (V1 & V2 & _); [apply input_file_ok, elem_of_app; by left|].
  split; by apply (icmp_user_le (V := V)).
Qed.

(** A file that is left in the lower level is before or behind all inputs. *)
Lemma beside g :
  g ∈ level_files cur (S level) → g ∉ fs1 →
  (∀ x, input_entry x → icmp (largest g) x.1 < 0) ∨ (∀ x, input_entry x → icmp x.1 (smallest g) < 0).
Proof.
  intros Hg Hn. pose proof (cur_file_ok _ g Hg) as Gok. destruct range_valid as [[_ R1] [_ R2]].
  destruct (file_ok_valid content g Gok) as (G1 & G2 & _). destruct (start_le_limit content g Gok) as (U1 & U2 & Ule).
  pose proof (vo_sorted _ _ cur_ok (S level) ltac:(lia)) as Hs.
  destruct (io_parents _ _ _ _ inputs_are g Hg Hn) as [Hlt|Hlt]; [left|right]; intros x (f & Hf & Hx);
    pose proof (input_file_ok f Hf) as Fok; destruct (content_user_bounds content f x Fok Hx) as [B1 B2];
    destruct (start_le_limit content f Fok) as (U3 & U4 & _); destruct (content_elem content f x Fok Hx) as [[_ Ux] _].
  - apply input_file in Hf as [[Hf0 _]|[Hf1 Hf]].
    + apply user_lt. destruct (in_range f Hf0) as [H1 _]. apply (Compare_lt_le_trans _ lo); [done..|].
      by apply (Compare_le_trans _ (start f)).
    + destruct (sorted_pair _ g f Hs Hg Hf) as [Hgf|Hfg]; [by intros ->| |].
      * destruct (content_bounds content f x Fok Hx) as [H1 _]. destruct (file_ok_valid content f Fok) as (F1 & _).
        destruct (content_elem content f x Fok Hx) as [Vx _].
        by apply (Compare_lt_le_trans (C := IKC) _ (smallest f)).
      * destruct (io_inside _ _ _ _ inputs_are f Hf1) as [H1 _]. exfalso.
        destruct (file_ok_valid content f Fok) as (_ & F2 & _).
        assert (Compare (limit f) (start g) ≤ 0) by (apply (icmp_user_le (V := V)); [done..|lia]).
        assert (Compare (limit f) lo < 0) as Hc.
        { apply (Compare_le_lt_trans _ (limit g)); [done..| |done]. by apply (Compare_le_trans _ (start g)). }
        by apply (Compare_nlt (limit f) lo) in H1.
  - apply input_file in Hf as [[Hf0 _]|[Hf1 Hf]].
    + apply user_lt. destruct (in_range f Hf0) as [_ H1]. apply (Compare_le_lt_trans _ hi); [done..| |done].
      by apply (Compare_le_trans _ (limit f)).
    + destruct (sorted_pair _ g f Hs Hg Hf) as [Hgf|Hfg]; [by intros ->| |].
      * destruct (io_inside _ _ _ _ inputs_are f Hf1) as [_ H1]. exfalso.
        destruct (file_ok_valid content f Fok) as (F1 & _).
        assert (Compare (limit g) (start f) ≤ 0) by (apply (icmp_user_le (V := V)); [done..|lia]).
        assert (Compare hi (start f) < 0) as Hc.
        { apply (Compare_lt_le_trans _ (start g)); [done..|]. by apply (Compare_le_trans _ (limit g)). }
        by apply (Compare_nlt hi (start f)) in H1.
      * destruct (content_bounds content f x Fok Hx) as [_ H1]. destruct (file_ok_valid content f Fok) as (_ & F2 & _).
        destruct (content_elem content f x Fok Hx) as [Vx _].
        by apply (Compare_le_lt_trans (C := IKC) _ (largest f)).
Qed.

(** *** The levels of the new version *)

Lemma concat_sorted fs :
  Forall file_ok fs → StronglySorted ilt (concat (content <$> fs)) → level_sorted (C := C) fs.
Proof.
  induction 1 as [|f fs Hf Hfs IH]; [constructor|]. cbn [fmap list_fmap concat].
  intros (_ & Hs & Hall)%sorted_app. constructor; [by apply IH|]. apply list.Forall_forall. intros g Hg.
  rewrite list.Forall_forall in Hfs. destruct (file_ok_ends content f Hf) as (_ & b & _ & Hb & _ & <-).
  destruct (file_ok_ends content g (Hfs g Hg)) as (a & _ & Ha & _ & <- & _). apply (Hall b a Hb).
  apply elem_of_concat. exists (content g). split; [done|]. by apply (list_elem_of_fmap_2 content).
Qed.

Lemma outs_sorted : level_sorted (C := C) outs.
Proof. apply concat_sorted; [apply Outputs|]. by rewrite (oo_kept _ _ _ Outputs). Qed.

Lemma out_ends f : f ∈ outs → ∃ a b, input_entry a ∧ input_entry b ∧ a.1 = smallest f ∧ b.1 = largest f.
Proof.
  intros Hf. destruct (file_ok_ends content f (out_file_ok f Hf)) as (a & b & Ha & Hb & ? & ?). exists a, b.
  splits; [by eapply kept_inputs, out_entry|by eapply kept_inputs, out_entry|done..].
Qed.

Lemma out_beside f g :
  f ∈ outs → g ∈ level_files cur (S level) → g ∉ fs1 → icmp (largest f) (smallest g) < 0 ∨ icmp (largest g) (smallest f) < 0.
Proof.
  intros Hf Hg Hn. destruct (out_ends f Hf) as (a & b & Ha & Hb & <- & <-).
  destruct (beside g Hg Hn) as [H|H]; [right|left]; by apply H.
Qed.

Lemma new_disjoint l f g :
  (0 < l)%nat → f ∈ level_files v' l → g ∈ level_files v' l → f ≠ g →
  icmp (largest f) (smallest g) < 0 ∨ icmp (largest g) (smallest f) < 0.
Proof.
  intros Hl Hf Hg Hne. apply elem_new in Hf as [[Hf Hnf]|[-> Hf]]; apply elem_new in Hg as [[Hg Hng]|[Hl' Hg]].
  - by apply (sorted_pair (level_files cur l)); [apply cur_ok|..].
  - subst l. destruct (out_beside g f Hg Hf); [|by right|by left]. intros Hin. apply Hnf. by right.
  - apply (out_beside f g Hf Hg). intros Hin. apply Hng. by right.
  - apply (sorted_pair outs); [apply outs_sorted|done..].
Qed.

Lemma new_valid l f : f ∈ level_files v' l → file_valid f.
Proof. intros Hf. by apply (file_ok_valid content), (new_file_ok l). Qed.

Lemma new_sorted l : (0 < l)%nat → level_sorted (C := C) (level_files v' l).
Proof.
  intros Hl. apply sorted_by_index. intros i j f g Hij Hi Hj.
  pose proof (sorted_index _ _ i j f g (rp_sorted _ _ _ _ _ _ Replaced l) Hij Hi Hj) as Hlt.
  apply list_elem_of_lookup_2 in Hi, Hj. destruct (new_valid l f Hi) as (F1 & F2 & Fle). destruct (new_valid l g Hj) as (G1 & G2 & Gle).
  destruct (new_disjoint l f g Hl Hi Hj) as [|Hgf]; [|done|].
  { intros ->. by apply (file_lt_irrefl (V := V) g) in Hlt. }
  exfalso. apply (file_lt_iff (V := V)) in Hlt; [|done..].
  assert (icmp (smallest g) (smallest f) < 0) as Hc by by apply (Compare_le_lt_trans (C := IKC) _ (largest g)).
  apply (Compare_flip (C := IKC)) in Hc; [|done..]. destruct Hlt as [Hlt|[He _]]; [lia|].
  rewrite He, (Compare_refl (C := IKC)) in Hc by done. lia.
Qed.

(** *** Newer entries are above older ones *)

Lemma apart_no_key f g x y :
  file_ok f → file_ok g → apart (C := C) f g → x ∈ content f → y ∈ content g → uk x ≠ uk y.
Proof.
  intros Hf Hg Ha Hx Hy He. destruct (content_user_bounds content f x Hf Hx) as [B1 B2].
  destruct (content_user_bounds content g y Hg Hy) as [B3 B4]. rewrite <- He in *.
  destruct (start_le_limit content f Hf) as (U1 & U2 & _). destruct (start_le_limit content g Hg) as (U3 & U4 & _).
  destruct (content_elem content f x Hf Hx) as [[_ Ux] _]. fold (uk x) in Ux.
  destruct Ha as [Hlt|Hlt].
  - pose proof (Compare_le_trans (start f) (uk x) (limit g) U1 Ux U4 B1 B4) as Hle.
    by apply (Compare_nlt (limit g) (start f)) in Hle.
  - pose proof (Compare_le_trans (start g) (uk x) (limit f) U3 Ux U2 B3 B2) as Hle.
    by apply (Compare_nlt (limit f) (start g)) in Hle.
Qed.

(** What is left above the inputs is newer. *)
Lemma input_above l f x y :
  f ∈ level_files cur l → ¬ is_input level fs0 fs1 l f → (l ≤ level)%nat → x ∈ content f → input_entry y →
  uk x = uk y → tag y < tag x.
Proof.
  intros Hf Hn Hl Hx (h & Hh & Hy) Hu. apply input_file in Hh as [[Hh0 Hh]|[Hh1 Hh]].
  - destruct (decide (l = level)) as [->|Hne]; [|by apply (vo_newer _ _ cur_ok l level f h); [lia|..]].
    destruct (si_files _ _ _ _ _ Since _ f Hf) as [Hv|[Hnew _]]; [|apply (Hnew h); [apply elem_of_app; by left|done..]].
    destruct (apart_no_key h f y x); [by eapply cur_file_ok|by eapply cur_file_ok| |done|done|done].
    apply (proj1 v_isolated); [done|done|]. intros Hin. apply Hn. by left.
  - by apply (vo_newer _ _ cur_ok l (S level) f h); [lia|..].
Qed.

(** What is below them is older. *)
Lemma input_below l f x y :
  f ∈ level_files cur l → (S level < l)%nat → x ∈ content f → input_entry y → uk x = uk y → tag x < tag y.
Proof.
  intros Hf Hl Hx (h & Hh & Hy) Hu.
  apply input_file in Hh as [[Hh0 Hh]|[Hh1 Hh]]; by (eapply (vo_newer _ _ cur_ok _ l h f); [|exact Hh|..]; [lia|..]).
Qed.

Lemma new_newer l l' f g : (l < l')%nat → f ∈ level_files v' l → g ∈ level_files v' l' → newer f g.
Proof.
  intros Hl Hf Hg a b Ha Hb Hu.
  apply elem_new in Hf as [[Hf Hnf]|[-> Hf]]; apply elem_new in Hg as [[Hg Hng]|[Hl' Hg]]; [| | |lia].
  - by eapply (vo_newer _ _ cur_ok l l' f g).
  - subst l'. eapply (input_above l f a b); [done|done|lia|done| |done]. by eapply kept_inputs, out_entry.
  - eapply (input_below l' g b a); [done|lia|done| |done]. by eapply kept_inputs, out_entry.
Qed.

(** *** The numbers of the files *)

Lemma replaced_submseteq ls :
  NoDup ls → Forall (λ l, l < Z.to_nat kNumLevels)%nat ls →
  concat (level_files v' <$> ls) ⊆+ (if decide (S level ∈ ls) then outs else []) ++ concat (level_files cur <$> ls).
Proof.
  induction ls as [|l ls IH]; intros Hd Hl; [done|]. apply list.NoDup_cons in Hd as [Hn Hd]. apply list.Forall_cons in Hl as [Hl Hls].
  cbn [fmap list_fmap concat]. rewrite (rp_perm _ _ _ _ _ _ Replaced l Hl).
  specialize (IH Hd Hls). set (fl := filter _ (level_files cur l)).
  assert (fl ⊆+ level_files cur l) as Hfl by apply sublist_submseteq, sublist_filter.
  destruct (decide (l = S level)) as [Hl'|Hl'].
  - subst l. rewrite (decide_True (P := S level ∈ S level :: ls)) by by left. rewrite decide_False in IH by done.
    rewrite (Permutation_app_comm fl outs), <- app_assoc. apply submseteq_app; [done|]. by apply submseteq_app.
  - rewrite app_nil_r. destruct (decide (S level ∈ ls)) as [Hi|Hi].
    + rewrite (decide_True (P := S level ∈ l :: ls)) by by right. rewrite app_assoc, (Permutation_app_comm outs), <- app_assoc.
      by apply submseteq_app.
    + rewrite (decide_False (P := S level ∈ l :: ls)) by (rewrite elem_of_cons; intros [?|?]; [by apply Hl'|by apply Hi]).
      rewrite app_nil_l in IH |- *. by apply submseteq_app.
Qed.

Lemma new_distinct : NoDup (number <$> concat (files_ v')).
Proof.
  pose proof (oo_fresh _ _ _ Outputs) as HN. rewrite <- (files_levels v') by apply Replaced.
  rewrite <- (files_levels cur) in HN by apply cur_ok.
  pose proof (replaced_submseteq (seq 0 (Z.to_nat kNumLevels)) (NoDup_seq _ _)) as Hsub.
  destruct (decide (S level ∈ seq 0 (Z.to_nat kNumLevels))) as [_|Hn];
    [|destruct Hn; apply elem_of_seq; pose proof (io_level _ _ _ _ inputs_are); lia].
  apply (fmap_submseteq number), submseteq_Permutation in Hsub as [k Hk];
    [|apply list.Forall_forall; intros l Hl%elem_of_seq; lia].
  rewrite Hk, list.NoDup_app in HN. apply HN.
Qed.

Lemma new_version_ok : version_ok v'.
Proof.
  split.
  - apply Replaced.
  - intros l. apply list.Forall_forall. intros f. apply new_file_ok.
  - apply new_sorted.
  - intros f g Hf Hg Hn. apply elem_new in Hf as [[Hf _]|[? _]]; [|done]. apply elem_new in Hg as [[Hg _]|[? _]]; [|done].
    by apply (vo_zero _ _ cur_ok).
  - apply new_distinct.
  - apply new_newer.
Qed.

(** *** User keys in two files *)

(** In a level in which no user key is in two files, a file that is left has no
    user key between the inputs. *)
Lemma beside_user g :
  keys_apart (C := C) (level_files cur (S level)) → g ∈ level_files cur (S level) → g ∉ fs1 →
  (∀ x, input_entry x → Compare (limit g) (uk x) < 0) ∨ (∀ x, input_entry x → Compare (uk x) (start g) < 0).
Proof.
  intros Ha Hg Hn. pose proof (cur_file_ok _ g Hg) as Gok. destruct range_valid as [[_ R1] [_ R2]].
  destruct (start_le_limit content g Gok) as (U1 & U2 & Ule).
  destruct (io_parents _ _ _ _ inputs_are g Hg Hn) as [Hlt|Hlt]; [left|right]; intros x (f & Hf & Hx);
    pose proof (input_file_ok f Hf) as Fok; destruct (content_user_bounds content f x Fok Hx) as [B1 B2];
    destruct (start_le_limit content f Fok) as (U3 & U4 & Fle); destruct (content_elem content f x Fok Hx) as [[_ Ux] _];
    apply input_file in Hf as [[Hf0 _]|[Hf1 Hf]].
  - destruct (in_range f Hf0) as [H1 _]. apply (Compare_lt_le_trans _ lo); [done..|]. by apply (Compare_le_trans _ (start f)).
  - destruct (Ha f g Hf Hg) as [Hgf|Hfg]; [by intros ->|by apply (Compare_lt_le_trans _ (start f))|]. exfalso.
    destruct (io_inside _ _ _ _ inputs_are f Hf1) as [H1 _]. apply (Compare_nlt (limit f) lo) in H1; [|done..]. apply H1.
    apply (Compare_lt_le_trans _ (start g)); [done..|]. apply (Compare_le_trans _ (limit g)); [done..|lia].
  - destruct (in_range f Hf0) as [_ H1]. apply (Compare_le_lt_trans _ hi); [done..| |done]. by apply (Compare_le_trans _ (limit f)).
  - destruct (Ha f g Hf Hg) as [Hgf|Hfg]; [by intros ->| |by apply (Compare_le_lt_trans _ (limit f))]. exfalso.
    destruct (io_inside _ _ _ _ inputs_are f Hf1) as [_ H1]. apply (Compare_nlt hi (start f)) in H1; [|done..]. apply H1.
    apply (Compare_lt_le_trans _ (start g)); [done..|]. apply (Compare_le_trans _ (limit g)); [done..|lia].
Qed.

Lemma out_apart f g :
  keys_apart (C := C) (level_files cur (S level)) → f ∈ outs → g ∈ level_files cur (S level) → g ∉ fs1 → apart (C := C) f g.
Proof.
  intros Ha Hf Hg Hn. destruct (out_ends f Hf) as (a & b & Hia & Hib & Ea & Eb).
  unfold apart, start, limit. rewrite <- Ea, <- Eb. fold (uk a) (uk b).
  destruct (beside_user g Ha Hg Hn) as [H|H]; [left|right]; by apply H.
Qed.

Lemma new_apart l : (∀ l, level_apart (C := C) cur l) → keys_apart (C := C) outs → level_apart (C := C) v' l.
Proof.
  intros Ha Ho. destruct (decide (l = 0%nat)) as [->|Hl]; [by left|right]. destruct (Ha l) as [|Hal]; [done|].
  intros f g Hf Hg Hne. apply elem_new in Hf as [[Hf Hnf]|[-> Hf]]; apply elem_new in Hg as [[Hg Hng]|[Hl' Hg]].
  - by apply Hal.
  - subst l. apply or_comm. apply (out_apart g f); [done..|]. intros Hin. apply Hnf. by right.
  - apply (out_apart f g); [done..|]. intros Hin. apply Hng. by right.
  - by apply Ho.
Qed.

(** *** What the user sees *)

Lemma new_entries x :
  x ∈ all_entries content v' ↔
  x ∈ kept ∨ ∃ l f, f ∈ level_files cur l ∧ ¬ is_input level fs0 fs1 l f ∧ x ∈ content f.
Proof.
  split.
  - intros Hx. destruct (level_of content v' x Hx new_version_ok) as (l & f & _ & Hf & Hxf).
    apply elem_new in Hf as [[Hf Hn]|[-> Hf]]; [right; by exists l, f|left; by eapply out_entry].
  - intros [Hx|(l & f & Hf & Hn & Hx)].
    + rewrite <- (oo_kept _ _ _ Outputs) in Hx. apply elem_of_concat in Hx as (c & Hx & (f & -> & Hf)%list_elem_of_fmap).
      apply (level_entry content v' (S level) f x); [|done]. apply elem_new. by right.
    + apply (level_entry content v' l f x); [|done]. apply elem_new. by left.
Qed.

Section Views.
Context (smallest : Z) (es : list entry).
Hypothesis es_inputs : ∀ x, x ∈ es ↔ input_entry x.
Hypothesis es_dropped : ∀ x, x ∈ es → x ∈ kept ∨ dropped (C := C) v level smallest None es kept x.

(** What is left beside the inputs is newer than a deletion that is dropped. *)
Lemma left_is_newer l f x y :
  f ∈ level_files cur l → ¬ is_input level fs0 fs1 l f → y ∈ content f → input_entry x → uk y = uk x →
  no_deep_file (C := C) v level (uk x) → tag x < tag y.
Proof.
  intros Hf Hn Hy Hx Hu Hdeep. pose proof (cur_file_ok l f Hf) as Fok.
  destruct (decide (l ≤ level)%nat) as [Hl|Hl]; [by eapply (input_above l f y x)|].
  destruct (si_files _ _ _ _ _ Since l f Hf) as [Hv|[Hnew _]]; [|destruct Hx as (h & Hh & Hx); by apply (Hnew h)].
  destruct (decide (l = S level)) as [->|Hl'].
  - destruct Hx as (h & Hh & Hx). exfalso. apply (apart_no_key f h y x); [done|by apply input_file_ok| |done..].
    apply input_file in Hh as [[Hh0 Hh]|[Hh1 Hh]].
    + assert (Hf1 : f ∉ fs1) by (intros Hin; apply Hn; by right). destruct range_valid as [[_ R1] [_ R2]].
      destruct (in_range h Hh0) as [I1 I2]. destruct (start_le_limit content h (input_file_ok h ltac:(apply elem_of_app; by left))) as (U1 & U2 & _).
      destruct (start_le_limit content f Fok) as (U3 & U4 & _).
      destruct (io_parents _ _ _ _ inputs_are f Hf Hf1) as [Hlt|Hlt]; [right|left].
      * by apply (Compare_lt_le_trans _ lo).
      * by apply (Compare_le_lt_trans _ hi).
    + apply or_comm, (proj2 v_isolated h f); [done|done|]. intros Hin. apply Hn. by right.
  - exfalso. apply (Hdeep l f); [|done|].
    + destruct (decide (l < Z.to_nat kNumLevels)%nat) as [|Hge]; [lia|]. exfalso.
      assert (level_files cur l = []) as Hnil by (unfold level_files; apply nth_overflow; rewrite (vo_levels _ _ cur_ok); lia).
      rewrite Hnil in Hf. by apply elem_of_nil in Hf.
    + rewrite <- Hu. by apply (content_user_bounds content).
Qed.

Lemma input_in_cur x : input_entry x → x ∈ all_entries content cur.
Proof. intros (f & [[_ Hf]|[_ Hf]]%input_file & Hx); by eapply level_entry. Qed.

Lemma new_views mem s u val :
  (∀ x y, x ∈ mem → y ∈ all_entries content cur → uk x = uk y → tag y < tag x) → smallest ≤ s →
  (u, val) ∈ user_view s (mem ++ all_entries content v') ↔ (u, val) ∈ user_view s (mem ++ all_entries content cur).
Proof.
  intros Hmem. apply drop_view.
  - intros x [Hx|Hx]%elem_of_app; apply elem_of_app; [by left|right]. apply new_entries in Hx as [Hx|(l & f & Hf & _ & Hx)].
    + by apply input_in_cur, kept_inputs.
    + by eapply level_entry.
  - intros x [Hx|Hx]%elem_of_app; [left; apply elem_of_app; by left|].
    destruct (level_of content cur x Hx cur_ok) as (l & f & _ & Hf & Hxf).
    destruct (decide (is_input level fs0 fs1 l f)) as [Hi|Hn].
    + assert (input_entry x) as Hxi.
      { exists f. split; [|done]. apply elem_of_app. destruct Hi as [[_ ?]|[_ ?]]; [by left|by right]. }
      destruct (es_dropped x (proj2 (es_inputs x) Hxi)) as [Hk|[(e & [He|He] & Hu & Hs & Ht)|(Ht & Hs & Hdeep & Hk)]].
      * left. apply elem_of_app. right. apply new_entries. by left.
      * done.
      * right. left. exists e. split; [|done]. apply elem_of_app. right. by apply input_in_cur, es_inputs.
      * right. right. split; [done|split; [done|]]. intros y [Hy|Hy]%elem_of_app Hu; [by apply Hmem|].
        apply new_entries in Hy as [Hy|(l' & g & Hg & Hng & Hy)]; [by apply Hk|by eapply left_is_newer].
    + left. apply elem_of_app. right. apply new_entries. right. by exists l, f.
Qed.
End Views.
End Install.

(** ** The edit *)

Section Edit.
Context {C : Comparator} {V : bytes → Prop} {CL : ComparatorLaws C V}.

Lemma delete_files_fields level (fs : list FileMetaData) edit :
  let e := foldl (λ edit f, VersionEdit.DeleteFile level (number f) edit) edit fs in
  new_files_ e = new_files_ edit ∧ compact_pointers_ e = compact_pointers_ edit ∧
  ∀ p, p ∈ deleted_files_ e ↔ p ∈ deleted_files_ edit ∨ ∃ f, f ∈ fs ∧ p = (level, number f).
Proof.
  cbv zeta. revert edit. induction fs as [|f fs IH]; intros edit; cbn [foldl].
  - splits; [done|done|]. intros p. split; [by left|]. intros [?|(f & []%elem_of_nil & _)]; done.
  - destruct (IH (VersionEdit.DeleteFile level (number f) edit)) as (-> & -> & H). splits; [done|done|]. intros p. rewrite H.
    cbn [VersionEdit.DeleteFile deleted_files_]. rewrite elem_of_set_insert. split.
    + intros [[->|Hp]|(g & Hg & ->)]; [right; exists f; split; [by left|done]|by left|right; exists g; split; [by right|done]].
    + intros [Hp|(g & [->|Hg]%elem_of_cons & ->)]; [by left; right|by left; left|right; by exists g].
Qed.

Lemma results_edit_fields c outs :
  let e := results_edit c outs in
  new_files_ e = new_files_ (edit_ c) ++
    ((λ o, (Z.of_nat (level_ c) + 1, new_FileMetaData (out_number o) (out_file_size o) (out_smallest o) (out_largest o))) <$> outs) ∧
  compact_pointers_ e = compact_pointers_ (edit_ c) ∧
  ∀ p, p ∈ deleted_files_ e ↔ p ∈ deleted_files_ (edit_ c) ∨
    ∃ l f, is_input (level_ c) (inputs c 0) (inputs c 1) l f ∧ p = (Z.of_nat l, number f).
Proof.
  cbv zeta. unfold results_edit. set (e0 := AddInputDeletions c (edit_ c)).
  assert (new_files_ e0 = new_files_ (edit_ c) ∧ compact_pointers_ e0 = compact_pointers_ (edit_ c) ∧
    ∀ p, p ∈ deleted_files_ e0 ↔ p ∈ deleted_files_ (edit_ c) ∨
      ∃ l f, is_input (level_ c) (inputs c 0) (inputs c 1) l f ∧ p = (Z.of_nat l, number f)) as (H1 & H2 & H3).
  { subst e0. unfold AddInputDeletions. cbn [foldl].
    destruct (delete_files_fields (Z.of_nat (level_ c + 0)) (inputs c 0) (edit_ c)) as (A1 & A2 & A3).
    destruct (delete_files_fields (Z.of_nat (level_ c + 1)) (inputs c 1)
      (foldl (λ edit f, VersionEdit.DeleteFile (Z.of_nat (level_ c + 0)) (number f) edit) (edit_ c) (inputs c 0))) as (B1 & B2 & B3).
    splits; [congruence|congruence|]. intros p. rewrite B3, A3. unfold is_input. split.
    - intros [[?|(f & Hf & ->)]|(f & Hf & ->)]; [by left|right; exists (level_ c), f|right; exists (S (level_ c)), f].
      + split; [by left|do 2 f_equal; lia].
      + split; [by right|do 2 f_equal; lia].
    - intros [?|(l & f & [[-> Hf]|[-> Hf]] & ->)]; [by left; left|left; right|right]; exists f; (split; [done|]); do 2 f_equal; lia. }
  clearbody e0. rewrite <- H1, <- H2. clear H1 H2. revert e0 H3. induction outs as [|o outs IH]; intros e0 H3; cbn [foldl].
  - splits; [by rewrite app_nil_r|done|done].
  - destruct (IH (AddFile (Z.of_nat (level_ c) + 1) (out_number o) (out_file_size o) (out_smallest o) (out_largest o) e0) H3) as (-> & -> & H).
    splits; [|done|done]. cbn [AddFile add_new_file new_files_]. by rewrite <- app_assoc.
Qed.

(** What the edits of the compaction that are not its results hold. *)
Definition only_pointer (c : Compaction) : Prop :=
  ∃ largest, edit_ c = SetCompactPointer (Z.of_nat (level_ c)) largest new_VersionEdit.

Lemma fill_edit_fields {W} {E : Env W} (vs : VersionSet (E := E)) e :
  new_files_ (fill_edit vs e) = new_files_ e ∧ compact_pointers_ (fill_edit vs e) = compact_pointers_ e ∧
  deleted_files_ (fill_edit vs e) = deleted_files_ e.
Proof. by destruct e as [? [?|] [?|] ? ? ? ? ?]. Qed.

Lemma added_to_results {W} {E : Env W} (vs : VersionSet (E := E)) c outs l :
  only_pointer c →
  added_to (Z.of_nat l) (fill_edit vs (results_edit c outs)) = if decide (l = S (level_ c)) then out_file <$> outs else [].
Proof.
  intros [largest He]. unfold added_to. destruct (fill_edit_fields vs (results_edit c outs)) as (-> & _ & _).
  destruct (results_edit_fields c outs) as (-> & _ & _). rewrite He. cbn [new_files_ SetCompactPointer new_VersionEdit app].
  rewrite filter_fmap. cbn [fst]. case_decide as Hl.
  - rewrite filter_all by (apply list.Forall_forall; intros; lia). by rewrite <- list_fmap_compose.
  - by rewrite filter_none by (apply list.Forall_forall; intros; lia).
Qed.

Context (table : Z → list entry).
Abbreviation content := (λ f, table (number f)).
Abbreviation version_ok := (version_ok (C := C) (V := V) content).
Abbreviation sorted := (StronglySorted (file_lt (C := C))).
Abbreviation ilt := (entry_lt (C := InternalKeyComparator (user_comparator_ := C))).

(** A number stands for one file. *)
Lemma number_inj cur f g :
  version_ok cur → f ∈ concat (files_ cur) → g ∈ concat (files_ cur) → number f = number g → f = g.
Proof.
  intros Hv [i Hi]%list_elem_of_lookup [j Hj]%list_elem_of_lookup He. pose proof (vo_distinct _ _ Hv) as HN.
  assert (i = j) as ->; [|congruence].
  eapply NoDup_lookup; [exact HN|rewrite list_lookup_fmap, Hi; reflexivity|rewrite list_lookup_fmap, Hj; cbn; by rewrite He].
Qed.

Lemma level_elem cur l f : f ∈ level_files cur l → f ∈ concat (files_ cur).
Proof. apply sublist_subseteq, level_sublist. Qed.

Section Apply.
Context {W : Type} {E : Env W} (vs : VersionSet (E := E)) (c : Compaction) (cur : Version) (outs : list Output).
Abbreviation fs0 := (inputs c 0).
Abbreviation fs1 := (inputs c 1).
Abbreviation edit := (fill_edit vs (results_edit c outs)).

Hypothesis cur_ok : version_ok cur.
Hypothesis cur_sorted : ∀ l, sorted (level_files cur l).
Hypothesis inputs_are : inputs_in (C := C) cur (level_ c) fs0 fs1.
Hypothesis pointer : only_pointer c.
Hypothesis outs_ok : Forall (file_ok (C := C) (V := V) content) (out_file <$> outs).
Hypothesis outs_fresh : NoDup (number <$> (out_file <$> outs) ++ concat (files_ cur)).

Lemma results_apply : edit_applies (V := V) edit.
Proof.
  pose proof (io_level _ _ _ _ inputs_are) as Hl. unfold kNumLevels in Hl.
  destruct (fill_edit_fields vs (results_edit c outs)) as (E1 & E2 & E3).
  destruct (results_edit_fields c outs) as (F1 & F2 & F3). destruct pointer as [largest He]. split.
  - rewrite E2, F2, He. cbn. constructor; [unfold level_ok, kNumLevels; cbn; lia|constructor].
  - rewrite E3. apply list.Forall_forall. intros p Hp. apply F3 in Hp as [Hp|(l & f & Hi & ->)].
    + rewrite He in Hp. by apply elem_of_nil in Hp.
    + unfold level_ok, kNumLevels. cbn [fst]. destruct Hi as [[-> _]|[-> _]]; lia.
  - rewrite E1, F1, He. cbn [new_files_ SetCompactPointer new_VersionEdit app]. apply list.Forall_forall.
    intros p (o & -> & Ho)%list_elem_of_fmap. cbn [fst snd]. split; [unfold level_ok, kNumLevels; lia|].
    rewrite list.Forall_forall in outs_ok. destruct (file_ok_valid content (out_file o)) as (V1 & _); [|exact V1].
    by apply outs_ok, list_elem_of_fmap_2.
Qed.

Lemma results_base : base_ok (C := C) (V := V) cur [edit].
Proof.
  split; [unfold zlen; by rewrite (vo_levels _ _ cur_ok)|]. intros l. splits.
  - eapply Forall_impl; [|apply (level_valid content cur cur_ok l)]. by intros f (? & _).
  - done.
  - cbn [fmap list_fmap concat]. rewrite app_nil_r, added_to_results by done.
    assert (NoDup (number <$> (out_file <$> outs) ++ level_files cur l)) as HN.
    { eapply sublist_NoDup; [exact outs_fresh|]. apply fmap_sublist, sublist_app; [done|apply level_sublist]. }
    rewrite Permutation_app_comm. eapply sublist_NoDup; [exact HN|]. apply fmap_sublist, sublist_app; [|done].
    case_decide; [done|apply sublist_nil_l].
Qed.

(** Installing the results replaces the inputs by the outputs. *)
Lemma results_replace ptrs :
  zlen ptrs = kNumLevels →
  ∃ ptrs' v', install (C := C) (ptrs, cur) [edit] = Some (ptrs', v') ∧
    replaces (C := C) (level_ c) fs0 fs1 (out_file <$> outs) cur v'.
Proof.
  intros Hp. destruct (install_levels (V := V) [edit] ptrs cur) as (ptrs' & v' & E1 & _ & Hlen & _ & HL);
    [constructor; [apply results_apply|constructor]|apply results_base|done|].
  assert (length (files_ v') = Z.to_nat kNumLevels) as Hlen' by (unfold zlen in Hlen; lia).
  exists ptrs', v'. split; [done|]. split; [done| |].
  - intros l Hl. destruct (HL l) as [HP _]; [lia|]. etrans; [exact HP|]. cbn [foldl]. unfold apply_edit. rewrite added_to_results by done.
    apply Permutation_app_tail. rewrite (filter_ext_elem _ (λ f, ¬ is_input (level_ c) fs0 fs1 l f)); [done|].
    intros f Hf. destruct (fill_edit_fields vs (results_edit c outs)) as (_ & _ & ->).
    destruct (results_edit_fields c outs) as (_ & _ & F3). destruct pointer as [largest He]. rewrite F3, He.
    cbn [deleted_files_ SetCompactPointer new_VersionEdit]. rewrite elem_of_nil. split; intros Hn Hi; apply Hn.
    + right. by exists l, f.
    + destruct Hi as [[]|(l' & g & Hi & [= El En])]. assert (l' = l) as -> by lia.
      assert (f = g) as ->; [|done]. apply (number_inj cur); [done|by eapply level_elem| |done]. apply (level_elem cur l).
      destruct Hi as [[-> Hg]|[-> Hg]].
      * by apply (sublist_subseteq _ _ (io_sublist0 _ _ _ _ inputs_are)).
      * by apply (sublist_subseteq _ _ (io_sublist1 _ _ _ _ inputs_are)).
  - intros l. destruct (decide (l < Z.to_nat kNumLevels)%nat) as [Hl|Hl].
    + apply HL. lia.
    + unfold level_files. rewrite nth_overflow by lia. constructor.
Qed.
End Apply.
End Edit.

(** C31: a compaction changes nothing that a user can see, if its files are chosen
    as [VersionSet] does, no user key of theirs is in a file that is left beside
    them in one of the two levels, and the files that have come since then have
    only newer entries and no user key in their range in the level of the outputs.
    The version it read from and the one that is current in the end satisfy the
    invariant of the levels. Then running the drop rule over the merged entries of
    the inputs ends, and for any files that hold the entries that are kept, cut
    into files in any way, the results can be installed; the new version satisfies
    the invariant, and with the entries of the memtables in front it has for every
    snapshot from the smallest one on exactly the values it had before. If no user
    key was in two files of a level but the first, and none is in two of the
    outputs, none is in two files of such a level afterwards. *)
Theorem compaction_preserves_views {C : Comparator} {V : bytes → Prop} {CL : ComparatorLaws C V} {W} {E : Env W}
    (table : Z → list entry) (vs0 vs : VersionSet (E := E)) (v cur : Version) c smallest es :
  let content := λ f, table (number f) in
  version_ok (C := C) (V := V) content v → version_ok (C := C) (V := V) content cur →
  (∀ l, StronglySorted (file_lt (C := C)) (level_files cur l)) →
  input_version vs0 c = Some v → level_ptrs_ c = replicate (Z.to_nat kNumLevels) 0%nat → only_pointer c →
  inputs_ok (C := C) v (level_ c) (inputs c 0) (inputs c 1) →
  inputs_isolated (C := C) (level_ c) (inputs c 0) (inputs c 1) v →
  since (C := C) table (level_ c) (inputs c 0) (inputs c 1) v cur →
  smallest < kMaxSequenceNumber →
  StronglySorted (entry_lt (C := InternalKeyComparator (user_comparator_ := C))) es →
  es ≡ₚ concat (content <$> inputs c 0 ++ inputs c 1) →
  ∃ kept c' d, drop_run (user_comparator := C) vs0 smallest c new_DropState es = Some (kept, c', d) ∧
    ∀ outs ptrs, outputs_ok (C := C) (V := V) table kept (out_file <$> outs) cur → zlen ptrs = kNumLevels →
    ∃ ptrs' v', install (C := C) (ptrs, cur) [fill_edit vs (results_edit c outs)] = Some (ptrs', v') ∧
      version_ok (C := C) (V := V) content v' ∧
      (∀ l, StronglySorted (file_lt (C := C)) (level_files v' l)) ∧
      (∀ mem s u val, (∀ x y, x ∈ mem → y ∈ all_entries content cur → uk x = uk y → tag y < tag x) → smallest ≤ s →
        (u, val) ∈ user_view s (mem ++ all_entries content v') ↔ (u, val) ∈ user_view s (mem ++ all_entries content cur)) ∧
      ((∀ l, level_apart (C := C) cur l) → keys_apart (C := C) (out_file <$> outs) → ∀ l, level_apart (C := C) v' l).
Proof.
  intros content Hv Hcur Hsort Hiv Hptrs Hp [Hin _ _] Hiso Hsince Hsm Hes Hperm.
  pose proof (inputs_are table (level_ c) (inputs c 0) (inputs c 1) v cur Hin Hsince) as Hin'.
  assert (Hentry : ∀ x, x ∈ es ↔ input_entry table (inputs c 0) (inputs c 1) x).
  { intros x. rewrite Hperm, elem_of_concat. split.
    - intros (l & Hx & (f & -> & Hf)%list_elem_of_fmap). by exists f.
    - intros (f & Hf & Hx). exists (content f). split; [done|]. by apply (list_elem_of_fmap_2 content). }
  assert (HK : ∀ x, x ∈ es → ikey_ok (V := V) x).
  { intros x (f & Hf & Hx)%Hentry. apply (content_elem content f x); [|done].
    by apply (input_file_ok table (level_ c) (inputs c 0) (inputs c 1) v cur). }
  destruct (drop_run_spec vs0 v (level_ c) smallest (level_valid content v Hv) (vo_sorted _ _ Hv) Hsm es None c new_DropState)
    as (kept & c' & d & E1 & Hsub & _ & Hdrop); [done|by apply list.Forall_forall|done|done| |].
  { intros e He. split; [done|done|]. split; [by rewrite Hptrs, length_replicate|].
    intros l ptr j f Hl Hj. rewrite Hptrs in Hl. apply lookup_replicate in Hl as [-> _]. lia. }
  exists kept, c', d. split; [done|]. intros outs ptrs Houts Hlen.
  destruct (results_replace table vs c cur outs Hcur Hsort Hin' Hp (oo_files _ _ _ _ Houts) (oo_fresh _ _ _ _ Houts) ptrs Hlen)
    as (ptrs' & v' & E2 & HR). exists ptrs', v'.
  assert (Hki : ∀ x, x ∈ kept → input_entry table (inputs c 0) (inputs c 1) x)
    by (intros x Hx; by apply Hentry, (sublist_subseteq _ _ Hsub)).
  pose proof (sorted_sublist _ _ _ Hes Hsub) as Hks.
  splits; [done|by apply (new_version_ok table (level_ c) (inputs c 0) (inputs c 1) (out_file <$> outs) v cur v' kept)|apply HR|intros mem s u val Hmem Hs; by apply (new_views table (level_ c) (inputs c 0) (inputs c 1) (out_file <$> outs) v cur v' kept) with smallest es|].
  intros Ha Ho l. by apply (new_apart table (level_ c) (inputs c 0) (inputs c 1) (out_file <$> outs) v cur v' kept).
Qed.

(** ** Examples *)

Module Example.
Abbreviation BW := BytewiseComparator.
Definition del (u : bytes) (s : Z) : entry := (InternalKey u s kTypeDeletion, []).
Definition put (u : bytes) (s : Z) : entry := (InternalKey u s kTypeValue, u).

Definition file (n : Z) (es : list entry) : FileMetaData :=
  out_file {| out_number := n; out_file_size := 100; out_smallest := default [] (fst <$> head es);
              out_largest := default [] (fst <$> list.last es) |}.

Definition version (l0 l1 l2 : list FileMetaData) : Version :=
  {| files_ := [l0; l1; l2; []; []; []; []]; file_to_compact_ := None; compaction_level_ := -1; compaction_score_ := (-1, 1) |}.

Definition vs_of (v : Version) : VersionSet (E := InMemoryEnv) := AppendVersion (new_VersionSet (str "db")) v.

(** The compaction of all of a level, and what is left of its entries. *)
Definition compact_all (v : Version) (level : nat) : Compaction :=
  match CompactRange (user_comparator := BW) (vs_of v) level None None with Some (Some c, _) => c | _ => new_Compaction level end.
Definition run (v : Version) (c : Compaction) (smallest : Z) (es : list entry) : list entry :=
  match drop_run (user_comparator := BW) (vs_of v) smallest c new_DropState es with Some (kept, _, _) => kept | None => [] end.
Definition installed (cur : Version) (c : Compaction) (outs : list Output) : Version :=
  match install (C := BW) (replicate 7 [], cur) [fill_edit (vs_of cur) (results_edit c outs)] with Some (_, v') => v' | None => cur end.

(** A deletion in level 0 hides an entry of level 1. *)
Definition t9 : list entry := [put (str "a") 5].
Definition t8 : list entry := [del (str "b") 4].
Definition t3 : list entry := [put (str "b") 2; put (str "c") 1].
Definition kept : list entry := [put (str "a") 5; put (str "c") 1].
Definition table (n : Z) : list entry :=
  if decide (n = 9) then t9 else if decide (n = 8) then t8 else if decide (n = 3) then t3 else if decide (n = 12) then kept else [].
Definition v : Version := version [file 9 t9; file 8 t8] [file 3 t3] [].
Definition c : Compaction := compact_all v 0.
Definition es : list entry := [put (str "a") 5; del (str "b") 4; put (str "b") 2; put (str "c") 1].
Definition outs : list Output :=
  [{| out_number := 12; out_file_size := 100; out_smallest := InternalKey (str "a") 5 1; out_largest := InternalKey (str "c") 1 1 |}].

Lemma table_file_ok n l :
  table n = l → in_w 64 n → StronglySorted (entry_lt (C := InternalKeyComparator (user_comparator_ := BW))) l → Forall (ikey_ok (V := any_key)) l → l ≠ [] →
  file_ok (C := BW) (V := any_key) (λ f, table (number f)) (file n l).
Proof.
  intros Ht Hn Hs HK Hne.
  assert (number (file n l) = n ∧ file_size (file n l) = 100 ∧ smallest (file n l) = default [] (fst <$> head l) ∧
    largest (file n l) = default [] (fst <$> list.last l)) as (E1 & E2 & E3 & E4) by done.
  split; rewrite ?E1, ?E2, ?E3, ?E4, ?Ht; try done.
  - by destruct l.
  - destruct (list.last l) eqn:El; [done|]. by apply last_None in El.
Qed.

Lemma entries_ok : Forall (ikey_ok (V := any_key)) es ∧ StronglySorted (entry_lt (C := InternalKeyComparator (user_comparator_ := BW))) es.
Proof. split; repeat constructor; try (by vm_compute). Qed.

Lemma part_ok n l :
  table n = l → in_w 64 n → l `sublist_of` es → l ≠ [] → file_ok (C := BW) (V := any_key) (λ f, table (number f)) (file n l).
Proof.
  intros Ht Hn Hs Hne. destruct entries_ok as [H1 H2]. apply table_file_ok; [done|done|by eapply sorted_sublist| |done].
  rewrite list.Forall_forall in H1 |- *. intros x Hx. by apply H1, (sublist_subseteq _ _ Hs).
Qed.

Abbreviation content := (λ f : FileMetaData, table (number f)).

Lemma example_levels l f : f ∈ level_files v l → (l = 0 ∧ (f = file 9 t9 ∨ f = file 8 t8) ∨ l = 1 ∧ f = file 3 t3)%nat.
Proof.
  destruct l as [|[|[|[|[|[|[|l]]]]]]]; [..|by destruct l; intros ?%elem_of_nil]; try (by intros ?%elem_of_nil).
  - intros [->|Hf%list_elem_of_singleton]%elem_of_cons; left; auto.
  - intros Hf%list_elem_of_singleton; right; auto.
Qed.

Lemma files_are_ok l f : f ∈ level_files v l → file_ok (C := BW) (V := any_key) content f.
Proof.
  intros [[-> [-> | ->]]|[-> ->]]%example_levels; (apply part_ok; [done|done| |done]).
  - by apply sublist_skip, sublist_nil_l.
  - by apply sublist_cons, sublist_skip, sublist_nil_l.
  - by apply sublist_cons, sublist_cons.
Qed.

Ltac newer_solve := apply newer_iff, (bool_decide_unpack _); vm_compute; exact Logic.I.

Lemma example_ok : version_ok (C := BW) (V := any_key) content v.
Proof.
  split.
  - done.
  - intros l. apply list.Forall_forall. intros f. apply files_are_ok.
  - intros l Hl. apply sorted_by_index. intros i j f g Hij Hi Hj. pose proof (list_elem_of_lookup_2 _ _ _ Hi) as Hf.
    apply example_levels in Hf as [[-> _]|[-> _]]; [lia|].
    apply lookup_lt_Some in Hj. cbn in Hj. lia.
  - intros f g Hf Hg Hn. apply example_levels in Hf as [[_ Hf]|[? _]]; [|done]. apply example_levels in Hg as [[_ Hg]|[? _]]; [|done].
    destruct Hf as [->| ->], Hg as [->| ->]; try done; newer_solve.
  - apply (bool_decide_unpack _). by vm_compute.
  - intros l l' f g Hl Hf Hg. apply example_levels in Hf as [[-> Hf]|[-> Hf]]; apply example_levels in Hg as [[-> Hg]|[-> Hg]]; try lia.
    subst g. destruct Hf as [->| ->]; newer_solve.
Qed.

Lemma v_valid l : Forall (file_valid (C := BW) (V := any_key)) (level_files v l).
Proof. apply list.Forall_forall. intros f Hf. eapply file_ok_valid. by eapply files_are_ok. Qed.

Lemma v_apart l : level_apart (C := BW) v l.
Proof.
  destruct l as [|l]; [by left|right]. intros f g Hf Hg Hne. apply example_levels in Hf as [[? _]|[_ ->]]; [done|].
  by apply example_levels in Hg as [[? _]|[_ ->]].
Qed.

Lemma v_file_lt l : StronglySorted (file_lt (C := BW)) (level_files v l).
Proof.
  destruct l as [|[|[|[|[|[|[|l]]]]]]]; [..|by destruct l; constructor]; repeat constructor.
Qed.

Lemma c_inputs : inputs_ok (C := BW) v 0 (inputs c 0) (inputs c 1).
Proof.
  destruct (CompactRange_chooses (vs_of v) v 1 eq_refl eq_refl eq_refl v_valid (vo_sorted _ _ example_ok) 0 None None) as (r & vs' & Er & Hr);
    [by vm_compute; lia|done|done|].
  unfold c, compact_all. rewrite Er. destruct r as [c'|].
  - destruct Hr as [Hl Hok]. pose proof (ck_inputs _ _ _ Hok) as Hin. by rewrite Hl in Hin.
  - destruct Hr as [_ Hr]. assert (file 8 t8 ∈ level_files v 0) as Hin by (right; by left).
    specialize (Hr _ Hin). by vm_compute in Hr.
Qed.

Lemma c_isolated : inputs_isolated (C := BW) 0 (inputs c 0) (inputs c 1) v.
Proof.
  destruct c_inputs as [Hin [Hc _] _]. split; [by apply Hc|]. destruct (v_apart 1) as [|Ha]; [done|].
  by apply keys_apart_isolated, sublist_subseteq, Hin.
Qed.

Lemma c_since : since (C := BW) table 0 (inputs c 0) (inputs c 1) v v.
Proof. destruct c_inputs as [[] _ _]. split; [done|done|]. intros l f Hf. by left. Qed.
End Example.

Example compaction_preserves_views_witness :
  Example.run Example.v Example.c 5 Example.es = Example.kept ∧
  outputs_ok (C := BytewiseComparator) (V := any_key) Example.table Example.kept (out_file <$> Example.outs) Example.v ∧
  ∃ kept c' d, drop_run (user_comparator := BytewiseComparator) (Example.vs_of Example.v) 5 Example.c new_DropState Example.es = Some (kept, c', d) ∧
    ∀ outs ptrs, outputs_ok (C := BytewiseComparator) (V := any_key) Example.table kept (out_file <$> outs) Example.v → zlen ptrs = kNumLevels →
    ∃ ptrs' v', install (C := BytewiseComparator) (ptrs, Example.v) [fill_edit (Example.vs_of Example.v) (results_edit Example.c outs)] = Some (ptrs', v') ∧
      version_ok (C := BytewiseComparator) (V := any_key) Example.content v' ∧
      (∀ l, StronglySorted (file_lt (C := BytewiseComparator)) (level_files v' l)) ∧
      (∀ mem s u val, (∀ x y, x ∈ mem → y ∈ all_entries Example.content Example.v → uk x = uk y → tag y < tag x) → 5 ≤ s →
        (u, val) ∈ user_view s (mem ++ all_entries Example.content v') ↔ (u, val) ∈ user_view s (mem ++ all_entries Example.content Example.v)) ∧
      ((∀ l, level_apart (C := BytewiseComparator) Example.v l) → keys_apart (C := BytewiseComparator) (out_file <$> outs) →
        ∀ l, level_apart (C := BytewiseComparator) v' l).
Proof.
  split; [by vm_compute|]. split.
  { split; [|by vm_compute|apply (bool_decide_unpack _); by vm_compute]. constructor; [|constructor].
    apply (Example.part_ok 12 Example.kept); [done|done| |done]. by apply sublist_skip, sublist_cons, sublist_cons. }
  apply (compaction_preserves_views (CL := BytewiseComparator_laws) Example.table (Example.vs_of Example.v) (Example.vs_of Example.v)
    Example.v Example.v Example.c 5 Example.es).
  - exact Example.example_ok.
  - exact Example.example_ok.
  - exact Example.v_file_lt.
  - reflexivity.
  - by vm_compute.
  - eexists. vm_compute. reflexivity.
  - exact Example.c_inputs.
  - exact Example.c_isolated.
  - exact Example.c_since.
  - by vm_compute.
  - apply Example.entries_ok.
  - vm_compute. reflexivity.
Defined.

(** That no user key of an input is in a file left beside it is needed: if the
    entries of a user key are in two files of a level, the automatic compaction
    of the first one drops a deletion whose older value is left behind: the
    deleted key is there again. *)
Example boundary_deletion_is_lost :
  let a := Example.file 8 [Example.put (str "a") 9; Example.del (str "b") 7] in
  let b := Example.file 9 [Example.put (str "b") 5; Example.put (str "c") 4] in
  let table n := if decide (n = 8) then [Example.put (str "a") 9; Example.del (str "b") 7]
                 else if decide (n = 9) then [Example.put (str "b") 5; Example.put (str "c") 4]
                 else if decide (n = 12) then [Example.put (str "a") 9] else [] in
  let content := λ f, table (number f) in
  let v := {| files_ := [[]; [a; b]; []; []; []; []; []]; file_to_compact_ := Some (a, 1%nat);
              compaction_level_ := 0; compaction_score_ := (0, 4) |} in
  let c := match PickCompaction (user_comparator := BytewiseComparator) (Example.vs_of v) with
           | Some (Some c, _) => c | _ => new_Compaction 0 end in
  let outs := [{| out_number := 12; out_file_size := 100; out_smallest := InternalKey (str "a") 9 1;
                  out_largest := InternalKey (str "a") 9 1 |}] in
  inputs c 0 = [a] ∧ inputs c 1 = [] ∧ Example.run v c 10 (content a) = [Example.put (str "a") 9] ∧
  user_view 10 (all_entries content v) = [(str "a", str "a"); (str "c", str "c")] ∧
  user_view 10 (all_entries content (Example.installed v c outs)) = [(str "b", str "b"); (str "c", str "c"); (str "a", str "a")].
Proof. by vm_compute. Qed.

(** That no file comes between the outputs is needed as well: a memtable that is
    written while a manual compaction runs may be placed in the level of its
    outputs, between its inputs.  The one output file then covers it, and a key
    of the memtable is not found any more, although the version has it. *)
Example flush_beside_compaction_is_lost :
  let a := Example.file 8 [Example.put (str "a") 9; Example.put (str "b") 7] in
  let z := Example.file 9 [Example.put (str "y") 5; Example.put (str "z") 4] in
  let m := Example.file 11 [Example.put (str "m") 20] in
  let v := Example.version [] [a; z] [] in
  let c := Example.compact_all v 1 in
  let outs := [{| out_number := 12; out_file_size := 200; out_smallest := InternalKey (str "a") 9 1;
                  out_largest := InternalKey (str "z") 4 1 |}] in
  let cur := Example.version [] [a; z] [m] in
  inputs c 0 = [a; z] ∧ inputs c 1 = [] ∧
  PickLevelForMemTableOutput (user_comparator := BytewiseComparator) v (str "m") (str "m") = Some 2%nat ∧
  let v' := Example.installed cur c outs in
  number <$> level_files v' 2 = [12; 11] ∧
  search_order (user_comparator := BytewiseComparator) v' (str "m") (seek_key 20 (str "m")) = [(out_file (List.hd {| out_number := 0; out_file_size := 0; out_smallest := []; out_largest := [] |} outs), 2%nat)].
Proof. by vm_compute. Qed.
