(* ===== verification/DList.v ===== *)
(** Circular doubly linked lists with a dummy head, as the cache
    ([util/cache.cc]) and the list of snapshots ([db/snapshot.h]) use them:
    nodes on a heap, and the list that a heap represents.

    An address is a number; a node is its two pointers and its data.  A store
    through an address that is not allocated is [None]. *)
From stdpp Require Import gmap.
From S2P Require Import Prelude.

Record Node (D : Type) := { prev_ : nat; next_ : nat; data_ : D }.
Arguments prev_ {_}. Arguments next_ {_}. Arguments data_ {_}.

Section DList.
Context {D : Type}.
Abbreviation heap := (gmap nat (Node D)).
Implicit Types (h : heap) (a b d e p q : nat) (l : list nat).

Definition store_prev a p h : option heap :=
  n ← h !! a; Some (<[a := {| prev_ := p; next_ := next_ n; data_ := data_ n |}]> h).
Definition store_next a q h : option heap :=
  n ← h !! a; Some (<[a := {| prev_ := prev_ n; next_ := q; data_ := data_ n |}]> h).
Definition load_prev a h : option nat := prev_ <$> h !! a.
Definition load_next a h : option nat := next_ <$> h !! a.

(** [e->next = d; e->prev = d->prev; e->prev->next = e; e->next->prev = e] *)
Definition insert_before d e h : option heap :=
  h ← store_next e d h;
  p ← load_prev d h;
  h ← store_prev e p h;
  p ← load_prev e h;
  h ← store_next p e h;
  q ← load_next e h;
  store_prev q e h.

(** [e->next->prev = e->prev; e->prev->next = e->next] *)
Definition unlink e h : option heap :=
  q ← load_next e h;
  p ← load_prev e h;
  h ← store_prev q p h;
  p ← load_prev e h;
  q ← load_next e h;
  store_next p q h.

(** ** The list that is represented *)

(** The pointers from [a] over the nodes of [l] to [b]. *)
Fixpoint nexts h a l b : Prop :=
  match l with
  | [] => load_next a h = Some b
  | x :: l => load_next a h = Some x ∧ nexts h x l b
  end.
Fixpoint prevs h a l b : Prop :=
  match l with
  | [] => load_prev b h = Some a
  | x :: l => load_prev x h = Some a ∧ prevs h x l b
  end.

Record dlist h d l : Prop := {
  dl_nodup : NoDup (d :: l);
  dl_nexts : nexts h d l d;
  dl_prevs : prevs h d l d;
}.

Lemma nexts_app h a l1 x l2 b : nexts h a (l1 ++ x :: l2) b ↔ nexts h a l1 x ∧ nexts h x l2 b.
Proof. revert a. induction l1 as [|y l1 IH]; intros a; cbn; [done|]. rewrite IH. tauto. Qed.

Lemma prevs_app h a l1 x l2 b : prevs h a (l1 ++ x :: l2) b ↔ prevs h a l1 x ∧ prevs h x l2 b.
Proof. revert a. induction l1 as [|y l1 IH]; intros a; cbn; [done|]. rewrite IH. tauto. Qed.

(** Only the pointers of the nodes on the way count. *)
Lemma nexts_frame h h' a l b :
  (∀ x, x ∈ a :: l → load_next x h' = load_next x h) → nexts h a l b → nexts h' a l b.
Proof.
  revert a. induction l as [|x l IH]; intros a Hf; cbn.
  - by rewrite Hf by left.
  - rewrite Hf by left. intros [? ?]. split; [done|]. apply IH; [|done]. intros y Hy. apply Hf. by right.
Qed.

Lemma prevs_frame h h' a l b :
  (∀ x, x ∈ l ++ [b] → load_prev x h' = load_prev x h) → prevs h a l b → prevs h' a l b.
Proof.
  revert a. induction l as [|x l IH]; intros a Hf; cbn.
  - by rewrite Hf by left.
  - rewrite Hf by left. intros [? ?]. split; [done|]. apply IH; [|done]. intros y Hy. apply Hf. by right.
Qed.

(** The last pointer forward and the first one backward can be redirected. *)
Lemma nexts_redirect h h' a l b q p :
  list.last (a :: l) = Some p → NoDup (a :: l) → load_next p h' = Some q →
  (∀ x, x ∈ a :: l → x ≠ p → load_next x h' = load_next x h) → nexts h a l b → nexts h' a l q.
Proof.
  intros Hl Hnd Hp. revert a Hl Hnd. induction l as [|x l IH]; intros a Hl Hnd Hf.
  - injection Hl as ->. done.
  - apply list.NoDup_cons in Hnd as [Ha Hnd]. intros [Ha' Hx]. split.
    + rewrite Hf; [done|by left|]. intros ->. apply Ha. by apply last_Some_elem_of.
    + apply IH; [done..| |done]. intros y Hy. apply Hf. by right.
Qed.

Lemma prevs_redirect h h' a a' l b q :
  head (l ++ [b]) = Some q → NoDup (l ++ [b]) → load_prev q h' = Some a' →
  (∀ x, x ∈ l ++ [b] → x ≠ q → load_prev x h' = load_prev x h) → prevs h a l b → prevs h' a' l b.
Proof.
  intros Hl Hnd Hq Hf. destruct l as [|x l]; cbn in *; [by injection Hl as ->|].
  injection Hl as ->. intros [_ Hp]. split; [done|]. apply list.NoDup_cons in Hnd as [Hx _].
  eapply prevs_frame; [|done]. intros y Hy. apply Hf; [by right|]. by intros ->.
Qed.

Lemma nexts_last h a l b p : nexts h a l b → list.last (a :: l) = Some p → load_next p h = Some b.
Proof.
  revert a. induction l as [|x l IH]; intros a; cbn [nexts].
  - by intros ? [= ->].
  - intros [_ ?]. by apply IH.
Qed.

Lemma prevs_last h a l b : prevs h a l b → load_prev b h = list.last (a :: l).
Proof.
  revert a. induction l as [|x l IH]; intros a; cbn [prevs]; [done|]. intros [_ ?]. by apply IH.
Qed.

Lemma prevs_end h h' a l b b' :
  (∀ x, x ∈ l → load_prev x h' = load_prev x h) → load_prev b' h' = load_prev b h → prevs h a l b → prevs h' a l b'.
Proof.
  revert a. induction l as [|x l IH]; intros a Hf Hb; cbn [prevs]; [by rewrite Hb|].
  rewrite Hf by left. intros [? ?]. split; [done|]. apply IH; [|done..]. intros y Hy. apply Hf. by right.
Qed.

Lemma nexts_head h a l b : nexts h a l b → load_next a h = head (l ++ [b]).
Proof. destruct l; [done|]. by intros []. Qed.

Lemma nexts_alloc h a l b x : nexts h a l b → x ∈ a :: l → is_Some (h !! x).
Proof.
  revert a. induction l as [|y l IH]; intros a.
  - intros Ha ->%list_elem_of_singleton. cbn in Ha. unfold load_next in Ha. destruct (h !! a); [done|discriminate].
  - intros [Ha Hl] [->|Hx]%elem_of_cons; [|by eapply IH].
    unfold load_next in Ha. destruct (h !! a); [done|discriminate].
Qed.

(** ** Stores *)

(** What is not a pointer is not touched, and only the nodes of [l] are. *)
Record relinked l h h' : Prop := {
  rl_data x : data_ <$> h' !! x = data_ <$> h !! x;
  rl_frame x : x ∉ l → h' !! x = h !! x;
}.

Lemma relinked_refl l h : relinked l h h.
Proof. by split. Qed.

Lemma relinked_trans l h1 h2 h3 : relinked l h1 h2 → relinked l h2 h3 → relinked l h1 h3.
Proof. intros [D1 F1] [D2 F2]. split; intros x; [by rewrite D2|]. intros Hx. by rewrite F2, F1. Qed.

Lemma relinked_mono l l' h h' : (∀ x, x ∈ l → x ∈ l') → relinked l h h' → relinked l' h h'.
Proof. intros Hl [Hd Hf]. split; [done|]. intros x Hx. apply Hf. naive_solver. Qed.

Lemma store_prev_spec a p h :
  is_Some (h !! a) → ∃ h', store_prev a p h = Some h' ∧ relinked [a] h h' ∧
    (∀ x, load_next x h' = load_next x h) ∧ load_prev a h' = Some p ∧ ∀ x, x ≠ a → load_prev x h' = load_prev x h.
Proof.
  intros [n Hn]. unfold store_prev, load_next, load_prev. rewrite Hn. cbn. eexists. split; [done|]. splits.
  - split; intros x.
    + destruct (decide (x = a)) as [->|]; simplify_map_eq; by rewrite ?Hn.
    + intros Hx. rewrite lookup_insert_ne; [done|]. intros ->. apply Hx. by left.
  - intros x. destruct (decide (x = a)) as [->|]; simplify_map_eq; by rewrite ?Hn.
  - by simplify_map_eq.
  - intros x Hx. by simplify_map_eq.
Qed.

Lemma store_next_spec a q h :
  is_Some (h !! a) → ∃ h', store_next a q h = Some h' ∧ relinked [a] h h' ∧
    (∀ x, load_prev x h' = load_prev x h) ∧ load_next a h' = Some q ∧ ∀ x, x ≠ a → load_next x h' = load_next x h.
Proof.
  intros [n Hn]. unfold store_next, load_next, load_prev. rewrite Hn. cbn. eexists. split; [done|]. splits.
  - split; intros x.
    + destruct (decide (x = a)) as [->|]; simplify_map_eq; by rewrite ?Hn.
    + intros Hx. rewrite lookup_insert_ne; [done|]. intros ->. apply Hx. by left.
  - intros x. destruct (decide (x = a)) as [->|]; simplify_map_eq; by rewrite ?Hn.
  - by simplify_map_eq.
  - intros x Hx. by simplify_map_eq.
Qed.

Lemma relinked_alloc l h h' x : relinked l h h' → is_Some (h !! x) → is_Some (h' !! x).
Proof. intros [Hd _] [n Hn]. specialize (Hd x). rewrite Hn in Hd. destruct (h' !! x); [done|discriminate]. Qed.

Lemma dlist_alloc h d l x : dlist h d l → x ∈ d :: l → is_Some (h !! x).
Proof. intros [_ Hn _]. by eapply nexts_alloc. Qed.

(** ** The operations *)

Lemma insert_before_spec h d e l :
  dlist h d l → e ∉ d :: l → is_Some (h !! e) →
  ∃ h', insert_before d e h = Some h' ∧ dlist h' d (l ++ [e]) ∧ relinked (d :: e :: l) h h'.
Proof.
  intros Hl He Hal. destruct (Hl) as [Hnd Hn Hp]. destruct (list.last (d :: l)) as [p|] eqn:Elast; [|by rewrite last_None in Elast].
  assert (Hpin : p ∈ d :: l) by by apply last_Some_elem_of.
  assert (Hpe : p ≠ e) by by intros ->.
  assert (Hde : d ≠ e) by by intros ->; apply He; left.
  unfold insert_before.
  destruct (store_next_spec e d h Hal) as (h1 & -> & R1 & P1 & N1 & N1'). cbn.
  rewrite P1, (prevs_last _ _ _ _ Hp), Elast. cbn.
  destruct (store_prev_spec e p h1) as (h2 & -> & R2 & N2 & P2 & P2'); [by eapply relinked_alloc|]. cbn.
  rewrite P2. cbn.
  destruct (store_next_spec p e h2) as (h3 & -> & R3 & P3 & N3 & N3').
  { eapply relinked_alloc; [done|]. eapply relinked_alloc; [done|]. by eapply dlist_alloc. }
  cbn. rewrite N3', N2, N1 by done. cbn.
  destruct (store_prev_spec d e h3) as (h4 & -> & R4 & N4 & P4 & P4').
  { do 3 (eapply relinked_alloc; [done|]). eapply dlist_alloc; [done|by left]. }
  exists h4. split; [done|].
  assert (Hnext : ∀ x, x ≠ p → x ≠ e → load_next x h4 = load_next x h) by (intros; rewrite N4, N3', N2, N1'; done).
  assert (Hprev : ∀ x, x ≠ d → x ≠ e → load_prev x h4 = load_prev x h) by (intros; rewrite P4', P3, P2', P1; done).
  split; [split|].
  - change (d :: l ++ [e]) with ((d :: l) ++ [e]). apply list.NoDup_app. split; [done|]. split; [|apply NoDup_singleton].
    intros x Hx ->%list_elem_of_singleton. done.
  - apply nexts_app. split.
    + eapply (nexts_redirect h); [done..|by rewrite N4| |done].
      intros x Hx Hxp. apply Hnext; [done|]. by intros ->.
    + cbn. by rewrite N4, N3', N2.
  - apply prevs_app. split.
    + apply (prevs_end h _ _ _ d); [| |done].
      * intros x Hx. apply list.NoDup_cons in Hnd as [Hd _]. apply Hprev; intros ->; [done|]. by apply He; right.
      * by rewrite P4', P3, P2, (prevs_last _ _ _ _ Hp) by done.
    + done.
  - eapply relinked_trans; [|eapply relinked_trans; [|eapply relinked_trans]];
      (eapply relinked_mono; [|done]); intros x ->%list_elem_of_singleton; set_solver.
Qed.

(** The neighbours of a node point to each other. *)
Lemma dlist_without h h' d e l1 l2 p q :
  dlist h d (l1 ++ e :: l2) → list.last (d :: l1) = Some p → head (l2 ++ [d]) = Some q →
  load_next p h' = Some q → (∀ x, x ≠ p → load_next x h' = load_next x h) →
  load_prev q h' = Some p → (∀ x, x ≠ q → load_prev x h' = load_prev x h) →
  dlist h' d (l1 ++ l2).
Proof.
  intros [Hnd Hn Hp] Elast Ehead Np Nx Pq Px.
  assert (Hperm : d :: l1 ++ e :: l2 ≡ₚ e :: d :: l1 ++ l2) by by rewrite <- Permutation_middle; constructor.
  assert (Hnd' : NoDup (d :: l1 ++ l2)) by (rewrite Hperm in Hnd; by apply list.NoDup_cons in Hnd as []).
  apply nexts_app in Hn as [Hn1 Hn2]. apply prevs_app in Hp as [Hp1 Hp2].
  assert (Hnd1 : NoDup (d :: l1)) by (change (d :: l1 ++ l2) with ((d :: l1) ++ l2) in Hnd'; by apply list.NoDup_app in Hnd' as [? _]).
  assert (Hnd2 : NoDup (l2 ++ [d])).
  { rewrite (Permutation_app_comm l2 [d]). cbn. apply list.NoDup_cons in Hnd' as [Hd Hl].
    apply list.NoDup_app in Hl as (_ & _ & Hl2). constructor; [set_solver|done]. }
  assert (Hpl2 : ∀ x, x ∈ l2 → x ≠ p).
  { intros x Hx ->. apply last_Some_elem_of in Elast. change (d :: l1 ++ l2) with ((d :: l1) ++ l2) in Hnd'.
    apply list.NoDup_app in Hnd' as (_ & Hdis & _). by apply (Hdis p). }
  assert (Hql1 : ∀ x, x ∈ l1 → x ≠ q).
  { intros x Hx ->. apply list.NoDup_cons in Hnd' as [Hd Hl]. apply list.NoDup_app in Hl as (_ & Hdis & _).
    destruct l2 as [|y l2]; injection Ehead as ->; [set_solver|]. apply (Hdis q Hx). by left. }
  pose proof (nexts_redirect h h' d l1 e q p Elast Hnd1 Np (λ x _, Nx x) Hn1) as Hfw.
  pose proof (prevs_redirect h h' e p l2 d q Ehead Hnd2 Pq (λ x _, Px x) Hp2) as Hbw.
  split; [done|..]; destruct l2 as [|y l2]; injection Ehead as ->.
  - by rewrite app_nil_r.
  - apply nexts_app. split; [done|]. destruct Hn2 as [_ Hn2]. eapply nexts_frame; [|done].
    intros x Hx. apply Nx. by apply Hpl2.
  - rewrite app_nil_r. eapply prevs_end; [| |exact Hp1].
    + intros x Hx. apply Px. by apply Hql1.
    + by rewrite (prevs_last _ _ _ _ Hp1), Elast.
  - apply prevs_app. split; [|exact (proj2 Hbw)].
    eapply prevs_end; [| |exact Hp1]; [intros x Hx; apply Px; by apply Hql1|].
    by rewrite (prevs_last _ _ _ _ Hp1), Elast.
Qed.

Lemma dlist_neighbours h d e l1 l2 :
  dlist h d (l1 ++ e :: l2) →
  ∃ p q, list.last (d :: l1) = Some p ∧ head (l2 ++ [d]) = Some q ∧
    load_prev e h = Some p ∧ load_next e h = Some q ∧ p ≠ e ∧ q ≠ e ∧
    p ∈ d :: l1 ++ e :: l2 ∧ q ∈ d :: l1 ++ e :: l2 ∧ is_Some (h !! p) ∧ is_Some (h !! q).
Proof.
  intros Hl. destruct (Hl) as [Hnd Hn Hp]. apply nexts_app in Hn as [_ Hn]. apply prevs_app in Hp as [Hp _].
  destruct (list.last (d :: l1)) as [p|] eqn:Elast; [|by rewrite last_None in Elast].
  destruct (head (l2 ++ [d])) as [q|] eqn:Ehead; [|by destruct l2].
  assert (Hpin : p ∈ d :: l1) by by apply last_Some_elem_of.
  assert (Hqin : q ∈ l2 ++ [d]) by (destruct l2; injection Ehead as ->; by left).
  assert (He : e ∉ d :: l1 ++ l2).
  { assert (Hperm : d :: l1 ++ e :: l2 ≡ₚ e :: d :: l1 ++ l2) by by rewrite <- Permutation_middle; constructor.
    rewrite Hperm in Hnd. by apply list.NoDup_cons in Hnd as []. }
  exists p, q. splits; [done|done|by rewrite (prevs_last _ _ _ _ Hp)|by rewrite (nexts_head _ _ _ _ Hn)|..].
  - intros ->. apply He. set_solver.
  - intros ->. apply He. set_solver.
  - set_solver.
  - set_solver.
  - eapply dlist_alloc; [done|]. set_solver.
  - eapply dlist_alloc; [done|]. set_solver.
Qed.

Lemma unlink_spec h d e l1 l2 :
  dlist h d (l1 ++ e :: l2) →
  ∃ h', unlink e h = Some h' ∧ dlist h' d (l1 ++ l2) ∧ relinked (d :: l1 ++ l2) h h'.
Proof.
  intros Hl. destruct (dlist_neighbours _ _ _ _ _ Hl) as (p & q & Elast & Ehead & Ep & Eq & Hpe & Hqe & Hp & Hq & Ap & Aq).
  unfold unlink. rewrite Ep, Eq. cbn.
  destruct (store_prev_spec q p h Aq) as (h1 & -> & R1 & N1 & P1 & P1'). cbn.
  rewrite P1', N1, Ep, Eq by done. cbn.
  destruct (store_next_spec p q h1) as (h2 & -> & R2 & P2 & N2 & N2'); [by eapply relinked_alloc|].
  exists h2. split; [done|]. split.
  - apply (dlist_without h h2 d e l1 l2 p q); [done..|by intros; rewrite N2', N1|by rewrite P2|by intros; rewrite P2, P1'].
  - eapply relinked_trans; (eapply relinked_mono; [|done]); intros x ->%list_elem_of_singleton; set_solver.
Qed.

(** The stores in the other order. *)
Definition unlink_next_first e h : option heap :=
  p ← load_prev e h;
  q ← load_next e h;
  h ← store_next p q h;
  q ← load_next e h;
  p ← load_prev e h;
  store_prev q p h.

Lemma unlink_next_first_spec h d e l1 l2 :
  dlist h d (l1 ++ e :: l2) →
  ∃ h', unlink_next_first e h = Some h' ∧ dlist h' d (l1 ++ l2) ∧ relinked (d :: l1 ++ l2) h h'.
Proof.
  intros Hl. destruct (dlist_neighbours _ _ _ _ _ Hl) as (p & q & Elast & Ehead & Ep & Eq & Hpe & Hqe & Hp & Hq & Ap & Aq).
  unfold unlink_next_first. rewrite Ep, Eq. cbn.
  destruct (store_next_spec p q h Ap) as (h1 & -> & R1 & P1 & N1 & N1'). cbn.
  rewrite N1', P1, Ep, Eq by done. cbn.
  destruct (store_prev_spec q p h1) as (h2 & -> & R2 & N2 & P2 & P2'); [by eapply relinked_alloc|].
  exists h2. split; [done|]. split.
  - apply (dlist_without h h2 d e l1 l2 p q); [done..|by rewrite N2|by intros; rewrite N2, N1'|done|by intros; rewrite P2', P1].
  - eapply relinked_trans; (eapply relinked_mono; [|done]); intros x ->%list_elem_of_singleton; set_solver.
Qed.

(** A new node, or one that is freed, elsewhere on the heap. *)
Lemma dlist_frame h h' d l : (∀ x, x ∈ d :: l → (prev_ <$> h' !! x) = (prev_ <$> h !! x) ∧ (next_ <$> h' !! x) = (next_ <$> h !! x)) →
  dlist h d l → dlist h' d l.
Proof.
  intros Hf [Hnd Hn Hp]. split; [done|..].
  - eapply nexts_frame; [|done]. intros x Hx. by apply Hf.
  - eapply prevs_frame; [|done]. intros x Hx. apply Hf. set_solver.
Qed.

Lemma dlist_new h d n : prev_ n = d → next_ n = d → h !! d = Some n → dlist h d [].
Proof. intros Hp Hn E. split; [apply NoDup_singleton|..]; cbn; unfold load_next, load_prev; rewrite E; cbn; by f_equal. Qed.
End DList.
