(* ===== verification/Snapshot.v ===== *)
(** Snapshots: [db/snapshot.h].

    A [SnapshotImpl] is a node of a circular list whose data is [number_]; the
    dummy head [list_] is at address 0. *)
From Stdlib Require Import Sorting.Sorted.
From stdpp Require Import gmap.
From S2P Require Import Prelude SortedLists DList.

Abbreviation SnapshotList := (gmap nat (Node Z)).

Definition new_SnapshotList : SnapshotList := {[ 0%nat := {| prev_ := 0%nat; next_ := 0%nat; data_ := 0 |} ]}.

Definition empty (l : SnapshotList) : bool := bool_decide (load_next 0 l = Some 0%nat).

Definition snapshot_number (s : nat) (l : SnapshotList) : option Z := data_ <$> l !! s.

(** The members assert that there is a snapshot. *)
Definition oldest (l : SnapshotList) : option nat := s ← load_next 0 l; if decide (s = 0%nat) then None else Some s.
Definition newest (l : SnapshotList) : option nat := s ← load_prev 0 l; if decide (s = 0%nat) then None else Some s.

(** The new snapshot is at an address that is not in use. *)
Definition New (seq : Z) (l : SnapshotList) : option (nat * SnapshotList) :=
  let s := fresh (dom l) in
  l ← insert_before 0 s (<[s := {| prev_ := s; next_ := s; data_ := seq |}]> l);
  Some (s, l).

Definition Delete (s : nat) (l : SnapshotList) : option SnapshotList :=
  l ← unlink_next_first s l;
  Some (delete s l).

(** ** The snapshots in the order they were made *)

Record snapshots (l : SnapshotList) (ss : list (nat * Z)) : Prop := {
  sn_list : dlist l 0 ss.*1;
  sn_numbers : Forall (λ s, snapshot_number s.1 l = Some s.2) ss;
  sn_alloc s : is_Some (l !! s) → s = 0%nat ∨ s ∈ ss.*1;
}.

Lemma new_snapshots : snapshots new_SnapshotList [].
Proof.
  split; [by apply (dlist_new _ _ {| prev_ := 0%nat; next_ := 0%nat; data_ := 0 |})|constructor|]. intros s Hs. left.
  destruct (decide (s = 0%nat)) as [->|Hne]; [done|].
  assert (E : new_SnapshotList !! s = None) by by apply lookup_singleton_ne.
  rewrite E in Hs. by destruct Hs.
Qed.

Lemma relinked_number ns (l l' : SnapshotList) s : relinked ns l l' → snapshot_number s l' = snapshot_number s l.
Proof. intros [Hd _]. apply Hd. Qed.

Lemma New_snapshots l ss seq :
  snapshots l ss → ∃ s l', New seq l = Some (s, l') ∧ s ∉ ss.*1 ∧ snapshots l' (ss ++ [(s, seq)]).
Proof.
  intros [Hl Hn Ha]. unfold New. set (s := fresh (dom l)).
  assert (Hs : l !! s = None) by (apply not_elem_of_dom; apply is_fresh).
  assert (Hne : ∀ x, x ∈ 0%nat :: ss.*1 → x ≠ s).
  { intros x Hx ->. destruct (dlist_alloc _ _ _ _ Hl Hx) as [n E]. congruence. }
  destruct (insert_before_spec (<[s := {| prev_ := s; next_ := s; data_ := seq |}]> l) 0 s ss.*1) as (l' & -> & Hl' & R).
  - eapply dlist_frame; [|done]. intros x Hx. by rewrite lookup_insert_ne by by apply not_eq_sym, Hne.
  - intros Hx. by apply (Hne s).
  - rewrite lookup_insert_eq. by eexists.
  - exists s, l'. split; [done|]. split; [intros Hx; by apply (Hne s); [right|]|]. split.
    + by rewrite fmap_app.
    + apply list.Forall_app. split; [|apply List.Forall_cons; [|constructor]].
      * rewrite list.Forall_forall in Hn |- *. intros [x n] Hx. pose proof (Hn _ Hx) as Hxn.
        rewrite (relinked_number _ _ _ _ R). unfold snapshot_number in *. cbn in *.
        rewrite lookup_insert_ne; [done|]. apply not_eq_sym, Hne. right. by apply (list_elem_of_fmap_2 fst _ (x, n)).
      * rewrite (relinked_number _ _ _ _ R). unfold snapshot_number. cbn. by rewrite lookup_insert_eq.
    + intros x Hx. rewrite fmap_app. destruct (decide (x = s)) as [->|Hxs]; [right; set_solver|].
      destruct (Ha x) as [?|?]; [|by left|right; set_solver].
      destruct R as [Hd _]. specialize (Hd x). rewrite lookup_insert_ne in Hd by done.
      destruct Hx as [n E]. rewrite E in Hd. destruct (l !! x); [done|discriminate].
Qed.

Lemma Delete_snapshots l ss1 s n ss2 :
  snapshots l (ss1 ++ (s, n) :: ss2) → ∃ l', Delete s l = Some l' ∧ snapshots l' (ss1 ++ ss2).
Proof.
  intros [Hl Hn Ha]. rewrite fmap_app in Hl. cbn in Hl. unfold Delete.
  assert (Hs : s ∉ 0%nat :: ss1.*1 ++ ss2.*1).
  { destruct Hl as [Hnd _ _]. assert (Hperm : 0%nat :: ss1.*1 ++ s :: ss2.*1 ≡ₚ s :: 0%nat :: ss1.*1 ++ ss2.*1)
      by by rewrite <- Permutation_middle; constructor. rewrite Hperm in Hnd. by apply list.NoDup_cons in Hnd as []. }
  destruct (unlink_next_first_spec _ _ _ _ _ Hl) as (l' & -> & Hl' & R). exists (delete s l'). split; [done|]. split.
  - rewrite fmap_app. eapply dlist_frame; [|done]. intros x Hx. rewrite lookup_delete_ne; [done|]. by intros ->.
  - assert (Hn' : Forall (λ s, snapshot_number s.1 l = Some s.2) (ss1 ++ ss2)).
    { apply list.Forall_app in Hn as [? [_ ?]%list.Forall_cons]. by apply list.Forall_app. }
    rewrite list.Forall_forall in Hn' |- *. intros [x m] Hx. pose proof (Hn' _ Hx) as Hxm. unfold snapshot_number. cbn in *.
    rewrite lookup_delete_ne; [by rewrite <- Hxm; apply (relinked_number _ _ _ _ R)|].
    intros <-. apply Hs. right. rewrite <- fmap_app. by apply (list_elem_of_fmap_2 fst _ (s, m)).
  - intros x Hx. destruct (decide (x = s)) as [->|Hxs]; [rewrite lookup_delete_eq in Hx; by destruct Hx|].
    rewrite lookup_delete_ne in Hx by done. destruct (Ha x) as [?|Hin]; [|by left|].
    + destruct R as [Hd _]. specialize (Hd x). destruct Hx as [y E]. rewrite E in Hd. destruct (l !! x); [done|discriminate].
    + right. rewrite fmap_app in *. cbn in Hin. set_solver.
Qed.

Lemma empty_snapshots l ss : snapshots l ss → empty l = bool_decide (ss = []).
Proof.
  intros [[Hnd Hn _] _ _]. unfold empty. destruct ss as [|[s n] ss]; cbn in Hn.
  - by rewrite Hn.
  - destruct Hn as [-> _]. apply bool_decide_ext. split; [|done]. intros [= ->]. apply list.NoDup_cons in Hnd as [Hnd _]. cbn in Hnd. set_solver.
Qed.

Lemma oldest_snapshots l ss : snapshots l ss → oldest l = fst <$> head ss.
Proof.
  intros [[Hnd Hn _] _ _]. unfold oldest. destruct ss as [|[s n] ss]; cbn in Hn.
  - by rewrite Hn.
  - destruct Hn as [-> _]. cbn. rewrite decide_False; [done|]. intros ->. apply list.NoDup_cons in Hnd as [Hnd _]. cbn in Hnd. set_solver.
Qed.

Lemma newest_snapshots l ss : snapshots l ss → newest l = fst <$> list.last ss.
Proof.
  intros [[Hnd _ Hp] _ _]. unfold newest. rewrite (prevs_last _ _ _ _ Hp).
  destruct ss as [|x ss _] using rev_ind; [done|]. rewrite fmap_app. cbn [fmap list_fmap].
  change (0%nat :: ss.*1 ++ [x.1]) with ((0%nat :: ss.*1) ++ [x.1]). rewrite !last_snoc. cbn.
  rewrite decide_False; [done|]. intros E. rewrite fmap_app in Hnd. apply list.NoDup_cons in Hnd as [Hnd _]. cbn in Hnd. set_solver.
Qed.

(** ** Any series of calls *)

Inductive SnapshotCall := CallNew (seq : Z) | CallDelete (i : nat).

Definition new_number (c : SnapshotCall) : option Z := match c with CallNew seq => Some seq | CallDelete _ => None end.

(** A client with the snapshots it holds; it deletes one of them, by its place,
    or does nothing. *)
Fixpoint calls (cs : list SnapshotCall) (l : SnapshotList) (live : list (nat * Z)) : option (SnapshotList * list (nat * Z)) :=
  match cs with
  | [] => Some (l, live)
  | CallNew seq :: cs => '(s, l) ← New seq l; calls cs l (live ++ [(s, seq)])
  | CallDelete i :: cs =>
      match live !! i with
      | Some (s, _) => l ← Delete s l; calls cs l (delete i live)
      | None => calls cs l live
      end
  end.

Lemma calls_snapshots cs l live :
  snapshots l live → StronglySorted Z.le (live.*2 ++ omap new_number cs) →
  ∃ l' live', calls cs l live = Some (l', live') ∧ snapshots l' live' ∧ StronglySorted Z.le live'.*2.
Proof.
  revert l live. induction cs as [|[seq|i] cs IH]; intros l live Hl Hs; cbn [calls].
  - exists l, live. split; [done|]. split; [done|]. by rewrite app_nil_r in Hs.
  - destruct (New_snapshots l live seq Hl) as (s & l' & -> & _ & Hl'). cbn. apply IH; [done|].
    rewrite fmap_app, <- app_assoc. exact Hs.
  - destruct (live !! i) as [[s n]|] eqn:Ei; [|by apply IH].
    apply list_elem_of_split_length in Ei as (ss1 & ss2 & -> & ->).
    destruct (Delete_snapshots _ _ _ _ _ Hl) as (l' & -> & Hl'). cbn [mbind option_bind].
    rewrite delete_middle. apply IH; [done|]. rewrite !fmap_app in *. cbn in Hs.
    rewrite <- app_assoc in *. eapply sorted_sublist; [exact Hs|]. apply sublist_app; [done|]. by apply sublist_cons.
Qed.

(** C33: snapshots. Whatever snapshots a database takes, with sequence numbers
    that do not decrease, and in whatever order they are released, the list
    of snapshots has no dangling pointer; it is empty exactly if all snapshots are
    released, every snapshot that is live keeps its number, and [oldest], from
    which compactions take the number below which they may drop entries, has a
    number that is not larger than that of any live snapshot. *)
Theorem SnapshotList_correct cs :
  StronglySorted Z.le (omap new_number cs) →
  ∃ l live, calls cs new_SnapshotList [] = Some (l, live) ∧ NoDup live.*1 ∧
    (empty l = true ↔ live = []) ∧
    (live = [] → oldest l = None) ∧
    ∀ s n, (s, n) ∈ live → snapshot_number s l = Some n ∧
      ∃ o m, oldest l = Some o ∧ snapshot_number o l = Some m ∧ m ≤ n.
Proof.
  intros Hs. destruct (calls_snapshots cs _ [] new_snapshots Hs) as (l & live & E & Hl & Hsort).
  exists l, live. split; [done|]. rewrite (empty_snapshots _ _ Hl), (oldest_snapshots _ _ Hl).
  pose proof (sn_numbers _ _ Hl) as Hn. split; [destruct Hl as [[[_ Hnd]%list.NoDup_cons _ _] _ _]; exact Hnd|].
  split; [by rewrite bool_decide_eq_true|]. split; [by intros ->|]. intros s n Hin.
  split; [by rewrite list.Forall_forall in Hn; apply (Hn _ Hin)|].
  destruct live as [|[o m] live]; [by apply elem_of_nil in Hin|]. exists o, m. split; [done|].
  apply list.Forall_cons in Hn as [Ho _]. split; [done|].
  cbn in Hsort. apply StronglySorted_inv in Hsort as [_ Hall]. rewrite list.Forall_forall in Hall.
  apply elem_of_cons in Hin as [[= -> ->]|Hin]; [lia|]. apply Hall. by apply (list_elem_of_fmap_2 snd _ (s, n)).
Qed.

Lemma SnapshotList_correct_witness :
  ∃ l live, calls [CallNew 3; CallNew 5; CallNew 5; CallDelete 0; CallDelete 1] new_SnapshotList [] = Some (l, live) ∧
    live = [(2%nat, 5)] ∧ oldest l = Some 2%nat.
Proof.
  destruct (SnapshotList_correct [CallNew 3; CallNew 5; CallNew 5; CallDelete 0; CallDelete 1]) as (l & live & E & _ & _ & _ & Hlive).
  - cbn. repeat constructor; lia.
  - exists l, live. split; [exact E|]. vm_compute in E. injection E as <- <-. split; [done|]. by vm_compute.
Defined.
