(* ===== verification/DbState.v ===== *)
(** The state of an open database: [class DBImpl] of [db/db_impl.h], its
    construction and destruction, and the small operations that the others
    share ([db/db_impl.cc]).

    An operation is in the monad [DB] of the state of the database together with
    the state of the environment. It has the mutex, except in what is wrapped in
    [unlocked], which lets the other threads run before and behind it, and it
    lets them run while it waits for a condition variable. What the other
    threads do then is the parameter [others]. Messages to the info log are left
    out; condition variables have no state. *)
From stdpp Require Import gmap.
From S2P Require Import Prelude Coding Status Comparator Crc32c Bloom Env FileName LogFile DbFormat Arena WriteBatch MemTable WriteQueue Format VersionEdit Version VersionSet Snapshot Builder.

(** What the database uses of [Env] besides the files. [Schedule] is only
    called with [DBImpl::BGWork]. *)
Class DbEnv (W : Type) := {
  FileLock : Type;
  Logger : Type;
  LockFile : bytes → M W (Status + FileLock);
  UnlockFile : FileLock → M W Status;
  NewLogger : bytes → M W (Status + Logger);
  delete_logger : Logger → M W ();
  NowMicros : M W Z;
  SleepForMicroseconds : Z → M W ();
  Schedule : M W ();
}.

(** ** Options *)

(** The [Options] that [Format] does not have; the comparator and the
    environment are class instances. *)
Record DbOptions {L B : Type} := {
  table_options : Options;
  create_if_missing : bool;
  error_if_exists : bool;
  write_buffer_size : Z;
  max_open_files : Z;
  info_log : option L;
  block_cache : option B;
}.
Arguments DbOptions : clear implicits.

Definition kNumNonTableCacheFiles : Z := 10.

(** The cast to [int]. *)
Definition to_int (z : Z) : Z := swrap 32 z.

Definition ClipToRange (x minvalue maxvalue : Z) : Z :=
  let x := if decide (to_int x > maxvalue) then maxvalue else x in
  if decide (to_int x < minvalue) then minvalue else x.

Section Sanitize.
Context {W : Type} {E : Env W} {D : DbEnv W} {B : Type} (NewLRUCache : Z → B).

(** The user's policy, wrapped. *)
Definition internal_policy (o : Options) : Options :=
  {| paranoid_checks := paranoid_checks o; block_size := ClipToRange (block_size o) (Z.shiftl 1 10) (Z.shiftl 4 20);
     block_restart_interval := block_restart_interval o; compression := compression o;
     filter_policy := InternalFilterPolicy <$> filter_policy o |}.

Definition open_info_log (dbname : bytes) : M W (option Logger) :=
  _ ← CreateDir dbname;
  _ ← RenameFile (InfoLogFileName dbname) (OldInfoLogFileName dbname);
  r ← NewLogger (InfoLogFileName dbname);
  mret (match r with inl _ => None | inr l => Some l end).

Definition SanitizeOptions (dbname : bytes) (src : DbOptions Logger B) : M W (DbOptions Logger B) :=
  log ← (match info_log src with Some l => mret (Some l) | None => open_info_log dbname end);
  mret {| table_options := internal_policy (table_options src);
          create_if_missing := create_if_missing src; error_if_exists := error_if_exists src;
          write_buffer_size := ClipToRange (write_buffer_size src) (Z.shiftl 64 10) (Z.shiftl 1 30);
          max_open_files := ClipToRange (max_open_files src) (64 + kNumNonTableCacheFiles) 50000;
          info_log := log;
          block_cache := match block_cache src with Some c => Some c | None => Some (NewLRUCache (Z.shiftl 8 20)) end |}.
End Sanitize.

(** ** The state *)

(** Memtables are objects with an address. *)
Record MemTables := {
  tables : gmap nat MemTable;
  mem_ : nat;
  imm_ : option nat;
  has_imm_ : bool;
}.

(** The queue of writers, and the writers by their address. *)
Record WriteState := {
  writers : Writers;
  writers_ : list nat;
  tmp_batch_ : WriteBatch;
}.

Record ManualCompaction := {
  mc_level : nat;
  mc_done : bool;
  mc_begin : option bytes;
  mc_end : option bytes;
}.

Record CompactionStats := { micros : Z; bytes_read : Z; bytes_written : Z }.
Definition new_CompactionStats : CompactionStats := {| micros := 0; bytes_read := 0; bytes_written := 0 |}.
Definition stats_Add (s c : CompactionStats) : CompactionStats :=
  {| micros := swrap 64 (micros s + micros c); bytes_read := swrap 64 (bytes_read s + bytes_read c);
     bytes_written := swrap 64 (bytes_written s + bytes_written c) |}.

(** What the background work is about. A manual compaction is on the stack of
    the thread that asks for it and has an address. *)
Record Background := {
  shutting_down_ : bool;
  bg_compaction_scheduled_ : bool;
  manuals : gmap nat ManualCompaction;
  manual_compaction_ : option nat;
  pending_outputs_ : gset Z;
  bg_error_ : Status;
  stats_ : list CompactionStats;
}.

Section State.
Context {W : Type} {E : Env W} {D : DbEnv W}.

Record DBImpl := {
  owns_info_log_ : bool;
  owns_cache_ : bool;
  db_lock_ : option FileLock;
  mems : MemTables;
  (** [logfile_] and [log_], which are set together *)
  log_ : option (WritableHandle * LogFile.Writer);
  logfile_number_ : Z;
  seed_ : Z;
  write_state : WriteState;
  snapshots_ : SnapshotList;
  background : Background;
  versions_ : VersionSet;
}.

Definition DB (A : Type) : Type := M (DBImpl * W) A.
End State.

(** *** Updates *)

Definition set_tables (t : gmap nat MemTable) (m : MemTables) : MemTables :=
  {| tables := t; mem_ := mem_ m; imm_ := imm_ m; has_imm_ := has_imm_ m |}.
Definition set_imm (imm : option nat) (m : MemTables) : MemTables :=
  {| tables := tables m; mem_ := mem_ m; imm_ := imm; has_imm_ := bool_decide (is_Some imm) |}.
Definition set_mem (mem : nat) (m : MemTables) : MemTables :=
  {| tables := tables m; mem_ := mem; imm_ := imm_ m; has_imm_ := has_imm_ m |}.

Definition set_writers (ws : Writers) (q : WriteState) : WriteState :=
  {| writers := ws; writers_ := writers_ q; tmp_batch_ := tmp_batch_ q |}.
Definition set_queue (l : list nat) (q : WriteState) : WriteState :=
  {| writers := writers q; writers_ := l; tmp_batch_ := tmp_batch_ q |}.
Definition set_tmp_batch (b : WriteBatch) (q : WriteState) : WriteState :=
  {| writers := writers q; writers_ := writers_ q; tmp_batch_ := b |}.

Definition set_shutting_down (b : Background) : Background :=
  {| shutting_down_ := true; bg_compaction_scheduled_ := bg_compaction_scheduled_ b; manuals := manuals b;
     manual_compaction_ := manual_compaction_ b; pending_outputs_ := pending_outputs_ b; bg_error_ := bg_error_ b;
     stats_ := stats_ b |}.
Definition set_scheduled (v : bool) (b : Background) : Background :=
  {| shutting_down_ := shutting_down_ b; bg_compaction_scheduled_ := v; manuals := manuals b;
     manual_compaction_ := manual_compaction_ b; pending_outputs_ := pending_outputs_ b; bg_error_ := bg_error_ b;
     stats_ := stats_ b |}.
Definition set_manuals (ms : gmap nat ManualCompaction) (m : option nat) (b : Background) : Background :=
  {| shutting_down_ := shutting_down_ b; bg_compaction_scheduled_ := bg_compaction_scheduled_ b; manuals := ms;
     manual_compaction_ := m; pending_outputs_ := pending_outputs_ b; bg_error_ := bg_error_ b; stats_ := stats_ b |}.
Definition set_pending_outputs (p : gset Z) (b : Background) : Background :=
  {| shutting_down_ := shutting_down_ b; bg_compaction_scheduled_ := bg_compaction_scheduled_ b; manuals := manuals b;
     manual_compaction_ := manual_compaction_ b; pending_outputs_ := p; bg_error_ := bg_error_ b; stats_ := stats_ b |}.
Definition set_bg_error (s : Status) (b : Background) : Background :=
  {| shutting_down_ := shutting_down_ b; bg_compaction_scheduled_ := bg_compaction_scheduled_ b; manuals := manuals b;
     manual_compaction_ := manual_compaction_ b; pending_outputs_ := pending_outputs_ b; bg_error_ := s; stats_ := stats_ b |}.
Definition set_stats (st : list CompactionStats) (b : Background) : Background :=
  {| shutting_down_ := shutting_down_ b; bg_compaction_scheduled_ := bg_compaction_scheduled_ b; manuals := manuals b;
     manual_compaction_ := manual_compaction_ b; pending_outputs_ := pending_outputs_ b; bg_error_ := bg_error_ b; stats_ := st |}.

Section Updates.
Context {W : Type} {E : Env W} {D : DbEnv W}.

Definition with_lock (l : option FileLock) (d : DBImpl) : DBImpl :=
  {| owns_info_log_ := owns_info_log_ d; owns_cache_ := owns_cache_ d; db_lock_ := l; mems := mems d; log_ := log_ d;
     logfile_number_ := logfile_number_ d; seed_ := seed_ d; write_state := write_state d; snapshots_ := snapshots_ d;
     background := background d; versions_ := versions_ d |}.
Definition with_mems (f : MemTables → MemTables) (d : DBImpl) : DBImpl :=
  {| owns_info_log_ := owns_info_log_ d; owns_cache_ := owns_cache_ d; db_lock_ := db_lock_ d; mems := f (mems d); log_ := log_ d;
     logfile_number_ := logfile_number_ d; seed_ := seed_ d; write_state := write_state d; snapshots_ := snapshots_ d;
     background := background d; versions_ := versions_ d |}.
Definition with_log (l : option (WritableHandle * LogFile.Writer)) (n : Z) (d : DBImpl) : DBImpl :=
  {| owns_info_log_ := owns_info_log_ d; owns_cache_ := owns_cache_ d; db_lock_ := db_lock_ d; mems := mems d; log_ := l;
     logfile_number_ := n; seed_ := seed_ d; write_state := write_state d; snapshots_ := snapshots_ d;
     background := background d; versions_ := versions_ d |}.
Definition with_seed (n : Z) (d : DBImpl) : DBImpl :=
  {| owns_info_log_ := owns_info_log_ d; owns_cache_ := owns_cache_ d; db_lock_ := db_lock_ d; mems := mems d; log_ := log_ d;
     logfile_number_ := logfile_number_ d; seed_ := n; write_state := write_state d; snapshots_ := snapshots_ d;
     background := background d; versions_ := versions_ d |}.
Definition with_write_state (f : WriteState → WriteState) (d : DBImpl) : DBImpl :=
  {| owns_info_log_ := owns_info_log_ d; owns_cache_ := owns_cache_ d; db_lock_ := db_lock_ d; mems := mems d; log_ := log_ d;
     logfile_number_ := logfile_number_ d; seed_ := seed_ d; write_state := f (write_state d); snapshots_ := snapshots_ d;
     background := background d; versions_ := versions_ d |}.
Definition with_snapshots (s : SnapshotList) (d : DBImpl) : DBImpl :=
  {| owns_info_log_ := owns_info_log_ d; owns_cache_ := owns_cache_ d; db_lock_ := db_lock_ d; mems := mems d; log_ := log_ d;
     logfile_number_ := logfile_number_ d; seed_ := seed_ d; write_state := write_state d; snapshots_ := s;
     background := background d; versions_ := versions_ d |}.
Definition with_background (f : Background → Background) (d : DBImpl) : DBImpl :=
  {| owns_info_log_ := owns_info_log_ d; owns_cache_ := owns_cache_ d; db_lock_ := db_lock_ d; mems := mems d; log_ := log_ d;
     logfile_number_ := logfile_number_ d; seed_ := seed_ d; write_state := write_state d; snapshots_ := snapshots_ d;
     background := f (background d); versions_ := versions_ d |}.
Definition with_versions (vs : VersionSet) (d : DBImpl) : DBImpl :=
  {| owns_info_log_ := owns_info_log_ d; owns_cache_ := owns_cache_ d; db_lock_ := db_lock_ d; mems := mems d; log_ := log_ d;
     logfile_number_ := logfile_number_ d; seed_ := seed_ d; write_state := write_state d; snapshots_ := snapshots_ d;
     background := background d; versions_ := vs |}.
End Updates.

(** ** The monad *)

Section Monad.
Context {W : Type} {E : Env W} {D : DbEnv W}.

(** A call of the environment. *)
Definition env {A} (m : M W A) : DB A := λ s,
  match m s.2 with Some (a, w) => Some (a, (s.1, w)) | None => None end.
Definition gets {A} (f : DBImpl → A) : DB A := λ s, Some (f s.1, s).
Definition modify (f : DBImpl → DBImpl) : DB () := λ s, Some ((), (f s.1, s.2)).

(** A use of memory that there may not be. *)
Definition lift {A} (r : option A) : DB A := λ s, a ← r; Some (a, s).
Definition undefined {A} : DB A := λ _, None.

Lemma gets_bind {A B} (f : DBImpl → A) (k : A → DB B) s : (gets f ≫= k) s = k (f s.1) s.
Proof. done. Qed.
Lemma modify_bind {B} (f : DBImpl → DBImpl) (k : () → DB B) s : (modify f ≫= k) s = k () (f s.1, s.2).
Proof. done. Qed.
Lemma ret_bind {A B} (a : A) (k : A → DB B) s : (mret a ≫= k) s = k a s.
Proof. done. Qed.
Lemma env_bind {A B} (m : M W A) (k : A → DB B) d w a w' : m w = Some (a, w') → (env m ≫= k) (d, w) = k a (d, w').
Proof. intros H. unfold mbind, M_bind, env. cbn [fst snd]. by rewrite H. Qed.
Lemma env_Some {A} (m : M W A) d w a w' : m w = Some (a, w') → env m (d, w) = Some (a, (d, w')).
Proof. intros H. unfold env. cbn [fst snd]. by rewrite H. Qed.
Lemma lift_bind {A B} (a : A) (r : option A) (k : A → DB B) s : r = Some a → (lift r ≫= k) s = k a s.
Proof. by intros ->. Qed.

(** An operation of the version set. *)
Definition on_versions {A} (f : VersionSet → M W (A * VersionSet)) : DB A :=
  vs ← gets versions_;
  '(a, vs) ← env (f vs);
  _ ← modify (with_versions vs);
  mret a.
End Monad.

(** Steps that only read or change the state. *)
Ltac db_step := repeat (rewrite gets_bind || rewrite modify_bind || rewrite ret_bind); cbn [fst snd].

(** ** Construction and small operations *)

Section Operations.
Context {W : Type} {E : Env W} {D : DbEnv W} {T : TableCache W} {P : Placement} {A : BlockAllocator} {C : Comparator}.

(** [mem->Ref()] and [mem->Unref()] *)
Definition mem_Ref (a : nat) : DB () :=
  m ← gets (λ d, tables (mems d) !! a);
  m ← lift m;
  modify (with_mems (λ ms, set_tables (<[a := MemTable.Ref m]> (tables ms)) ms)).

Definition mem_Unref (a : nat) : DB () :=
  m ← gets (λ d, tables (mems d) !! a);
  m ← lift m;
  modify (with_mems (λ ms, set_tables (match MemTable.Unref m with
                                        | Some m => <[a := m]> (tables ms)
                                        | None => delete a (tables ms)
                                        end) ms)).

(** [new MemTable], and the first reference. *)
Definition new_mem : DB nat :=
  a ← gets (λ d, fresh (dom (tables (mems d))));
  _ ← modify (with_mems (λ ms, set_tables (<[a := MemTable.Ref new_MemTable]> (tables ms)) ms));
  mret a.

(** [imm_], if it is not NULL. *)
Definition when_some {X} (o : option X) (f : X → DB ()) : DB () :=
  match o with Some x => f x | None => mret () end.

(** The members of a new object. *)
Definition init_DBImpl (owns_info_log owns_cache : bool) (dbname : bytes) : DBImpl :=
  {| owns_info_log_ := owns_info_log; owns_cache_ := owns_cache; db_lock_ := None;
     mems := {| tables := {[ 0%nat := MemTable.Ref new_MemTable ]}; mem_ := 0; imm_ := None; has_imm_ := false |};
     log_ := None; logfile_number_ := 0; seed_ := 0;
     write_state := {| writers := ∅; writers_ := []; tmp_batch_ := WriteBatch.Clear |};
     snapshots_ := new_SnapshotList;
     background := {| shutting_down_ := false; bg_compaction_scheduled_ := false; manuals := ∅; manual_compaction_ := None;
                      pending_outputs_ := ∅; bg_error_ := Status_OK;
                      stats_ := replicate (Z.to_nat kNumLevels) new_CompactionStats |};
     versions_ := new_VersionSet dbname |}.

Definition new_DBImpl {B} (NewLRUCache : Z → B) (raw_options : DbOptions Logger B) (dbname : bytes) :
    M W (DbOptions Logger B * DBImpl) :=
  options ← SanitizeOptions NewLRUCache dbname raw_options;
  mret (options,
    init_DBImpl (match info_log raw_options, info_log options with None, Some _ => true | _, _ => false end)
      (match block_cache raw_options with None => true | _ => false end) dbname).

Definition NewDB (dbname_ : bytes) : M W Status :=
  let new_db := VersionEdit.SetLastSequence 0 (SetNextFile 2 (SetLogNumber 0
    (SetComparatorName (ComparatorName (Comparator := C)) new_VersionEdit))) in
  let manifest := DescriptorFileName dbname_ 1 in
  r ← NewWritableFile manifest;
  match r with
  | inl s => mret s
  | inr file =>
      '(s, _) ← add_record (file, new_Writer) (EncodeTo new_db []);
      s ← (if ok s then wf_Close (WritableFile := writable file) else mret s);
      _ ← wf_delete file;
      if ok s then SetCurrentFile dbname_ 1 else _ ← Env.DeleteFile manifest; mret s
  end.

Definition MaybeIgnoreError (options_ : Options) (s : Status) : Status :=
  if ok s || paranoid_checks options_ then s else Status_OK.

Definition RecordBackgroundError (s : Status) : DB () :=
  modify (with_background (λ b, if ok (bg_error_ b) then set_bg_error s b else b)).

(** *** Obsolete files *)

(** [keep] of a file of the directory. *)
Definition keep_file (live : gset Z) (vs : VersionSet) (number : Z) (t : FileType) : bool :=
  match t with
  | kLogFile => bool_decide (log_number_ vs ≤ number) || bool_decide (number = prev_log_number_ vs)
  | kDescriptorFile => bool_decide (manifest_file_number_ vs ≤ number)
  | kTableFile | kTempFile => bool_decide (number ∈ live)
  | kCurrentFile | kDBLockFile | kInfoLogFile => true
  end.

Definition delete_file (dbname_ : bytes) (live : gset Z) (vs : VersionSet) (filename : bytes) : M W () :=
  match ParseFileName filename with
  | Some (number, type) =>
      if keep_file live vs number type then mret ()
      else
        _ ← (if decide (type = kTableFile) then cache_Evict number else mret ());
        _ ← Env.DeleteFile (dbname_ ++ str "/" ++ filename);
        mret ()
  | None => mret ()
  end.

Fixpoint delete_files (dbname_ : bytes) (live : gset Z) (vs : VersionSet) (filenames : list bytes) : M W () :=
  match filenames with
  | [] => mret ()
  | f :: fs => _ ← delete_file dbname_ live vs f; delete_files dbname_ live vs fs
  end.

Definition DeleteObsoleteFiles : DB () :=
  b ← gets background;
  vs ← gets versions_;
  if negb (ok (bg_error_ b)) then mret ()
  else
    let live : gset Z := pending_outputs_ b ∪ list_to_set (AddLiveFiles vs) in
    '(_, filenames) ← env (GetChildren (dbname_ vs));
    env (delete_files (dbname_ vs) live vs filenames).

(** *** Scheduling *)

(** There is work for a compaction. *)
Definition needs_work (d : DBImpl) (v : Version) : bool :=
  bool_decide (is_Some (imm_ (mems d))) || bool_decide (is_Some (manual_compaction_ (background d))) || NeedsCompaction v.

Definition MaybeScheduleCompaction : DB () :=
  d ← gets id;
  let b := background d in
  if bg_compaction_scheduled_ b then mret ()
  else if shutting_down_ b then mret ()
  else if negb (ok (bg_error_ b)) then mret ()
  else
    v ← lift (current (versions_ d));
    if negb (needs_work d v) then mret ()
    else
      _ ← modify (with_background (set_scheduled true));
      env Schedule.

(** *** Other threads *)

Section Others.
Context (others : DB ()).

(** [{ mutex_.Unlock(); m; mutex_.Lock(); }] *)
Definition unlocked {X} (m : DB X) : DB X :=
  _ ← others; x ← m; _ ← others; mret x.

(** [while (cond) bg_cv_.Wait();] *)
Fixpoint wait_while (fuel : nat) (cond : DBImpl → bool) : DB () :=
  c ← gets cond;
  if (c : bool) then
    match fuel with
    | O => undefined
    | S fuel => _ ← others; wait_while fuel cond
    end
  else mret ().

(** [versions_->LogAndApply(edit, &mutex_)]. The files of the new version that
    another version has at the same level are the same objects, so that the
    seeks that are charged meanwhile count. *)
Definition same_object (vs : VersionSet) (level : nat) (f : FileMetaData) : option FileMetaData :=
  snd <$> list_find (λ g, number g = number f) (mjoin ((λ v, level_files (version v) level) <$> VersionSet.versions_ vs)).

Definition refresh_file (vs : VersionSet) (level : nat) (f : FileMetaData) : FileMetaData :=
  match same_object vs level f with
  | Some g => {| refs := refs f; allowed_seeks := allowed_seeks g; number := number f; file_size := file_size f;
                 smallest := smallest f; largest := largest f |}
  | None => f
  end.

Definition refresh (vs : VersionSet) (v : Version) : Version :=
  {| files_ := imap (λ level, fmap (refresh_file vs level)) (files_ v); file_to_compact_ := file_to_compact_ v;
     compaction_level_ := compaction_level_ v; compaction_score_ := compaction_score_ v |}.

Definition db_LogAndApply (edit : VersionEdit) : DB Status :=
  vs ← gets versions_;
  let edit := fill_edit vs edit in
  '(s, v, new_manifest_file) ←
    on_versions (λ vs, '(s, v, new_manifest_file, vs) ← LogAndApply_prepare (user_comparator := C) vs edit;
                       mret ((s, v, new_manifest_file), vs));
  s ← unlocked (on_versions (LogAndApply_write s edit new_manifest_file));
  on_versions (λ vs, vs' ← LogAndApply_install s (refresh vs v) edit new_manifest_file vs; mret (s, vs')).

(** The destructor. *)
Definition delete_DBImpl (fuel : nat) (info_log : option Logger) : DB () :=
  _ ← modify (with_background set_shutting_down);
  _ ← wait_while fuel (λ d, bg_compaction_scheduled_ (background d));
  lock ← gets db_lock_;
  _ ← when_some lock (λ l, _ ← env (UnlockFile l); mret ());
  d ← gets id;
  _ ← when_some (descriptor_ (versions_ d)) (λ f, env (wf_delete f.1));
  _ ← mem_Unref (mem_ (mems d));
  _ ← when_some (imm_ (mems d)) mem_Unref;
  _ ← when_some (log_ d) (λ f, env (wf_delete f.1));
  if owns_info_log_ d then when_some info_log (λ l, env (delete_logger l)) else mret ().
End Others.
End Operations.
