(* ===== verification/DbFiles.v ===== *)
(** What [DBImpl::DeleteObsoleteFiles] of [db/db_impl.cc] removes from the
    directory of the database: no file that is needed, and every other file of
    the database. *)
From stdpp Require Import gmap.
From S2P Require Import Prelude Coding Status Comparator Crc32c Env MemEnv EnvFiles FileName Arena Iterator VersionEdit Version VersionSet Builder DbState.

(** [table_cache_->Evict] touches no file. *)
Class EvictLaws {W} {E : Env W} (T : TableCache W) (inv : W → Prop) (files : W → gmap bytes bytes)
    (writing : W → WritableHandle → bytes → Prop) (reading : W → SequentialHandle → bytes → bytes → Prop) : Prop := {
  evict_law n w : inv w → ∃ w', cache_Evict n w = Some ((), w') ∧ inv w' ∧ files w' = files w ∧
    frame writing reading (λ _, False) w w';
}.

Section Files.
Context {W : Type} {E : Env W} {D : DbEnv W} {T : TableCache W}.
Context {inv : W → Prop} {files : W → gmap bytes bytes}.
Context {writing : W → WritableHandle → bytes → Prop} {reading : W → SequentialHandle → bytes → bytes → Prop}.
Context {RE : ReliableEnv E inv files writing reading} {EL : EvictLaws T inv files writing reading}.

(** Another process, or this one, may still need the file of the number. *)
Definition needed (d : DBImpl) (n : Z) (t : FileType) : Prop :=
  match t with
  | kLogFile => log_number_ (versions_ d) ≤ n ∨ n = prev_log_number_ (versions_ d)
  | kDescriptorFile => manifest_file_number_ (versions_ d) ≤ n
  | kTableFile | kTempFile =>
      n ∈ pending_outputs_ (background d) ∨
      ∃ v l f, v ∈ VersionSet.versions_ (versions_ d) ∧ l ∈ files_ (version v) ∧ f ∈ l ∧ number f = n
  | kCurrentFile | kDBLockFile | kInfoLogFile => True
  end.

Definition live_files (d : DBImpl) : gset Z :=
  pending_outputs_ (background d) ∪ list_to_set (AddLiveFiles (versions_ d)).

Lemma keep_needed d n t : keep_file (live_files d) (versions_ d) n t = true ↔ needed d n t.
Proof.
  assert (Hlive : n ∈ live_files d ↔ n ∈ pending_outputs_ (background d) ∨
    ∃ v l f, v ∈ VersionSet.versions_ (versions_ d) ∧ l ∈ files_ (version v) ∧ f ∈ l ∧ number f = n).
  { unfold live_files, AddLiveFiles. rewrite elem_of_union, elem_of_list_to_set, list_elem_of_join. f_equiv. split.
    - intros (ns & Hn & (v & -> & Hv)%list_elem_of_fmap). apply list_elem_of_fmap in Hn as (f & -> & (l & Hf & Hl)%list_elem_of_join). by exists v, l, f.
    - intros (v & l & f & Hv & Hl & Hf & <-). eexists. split; [|apply list_elem_of_fmap; by exists v]. apply list_elem_of_fmap. exists f.
      split; [done|]. apply list_elem_of_join. by exists l. }
  destruct t; cbn [keep_file needed]; rewrite ?orb_true_iff, ?bool_decide_eq_true; done.
Qed.

(** One file. *)
Lemma delete_file_spec dbname live (vs : VersionSet) (name : bytes) w :
  inv w → ∃ w', delete_file dbname live vs name w = Some ((), w') ∧ inv w' ∧
    files w' = match ParseFileName name with
               | Some (n, t) => if keep_file live vs n t then files w else delete (dbname ++ str "/" ++ name) (files w)
               | None => files w
               end.
Proof.
  intros Hi. unfold delete_file. destruct (ParseFileName name) as [[n t]|]; [|by exists w].
  destruct (keep_file live vs n t); [by exists w|].
  assert (He : ∃ w1, (if decide (t = kTableFile) then cache_Evict n else mret ()) w = Some ((), w1) ∧ inv w1 ∧ files w1 = files w).
  { destruct (decide (t = kTableFile)); [|by exists w]. destruct (evict_law n w Hi) as (w1 & ? & ? & ? & _). by exists w1. }
  destruct He as (w1 & E1 & Hi1 & F1). rewrite (M_bind_Some _ _ _ _ _ E1).
  destruct (re_Delete (dbname ++ str "/" ++ name) w1 Hi1) as (s & w2 & E2 & _ & Hi2 & F2 & _).
  rewrite (M_bind_Some _ _ _ _ _ E2). exists w2. split; [done|]. split; [done|]. by rewrite F2, F1.
Qed.

(** A name of the list that is to go, goes. *)
Definition goes (live : gset Z) (vs : VersionSet) (name : bytes) : Prop :=
  ∃ n t, ParseFileName name = Some (n, t) ∧ keep_file live vs n t = false.

Lemma goes_cases (live : gset Z) (vs : VersionSet) (name : bytes) (m m' : gmap bytes bytes) :
  (if match ParseFileName name with Some (n, t) => keep_file live vs n t | None => true end then m else m') = m' ∧ goes live vs name ∨
  (if match ParseFileName name with Some (n, t) => keep_file live vs n t | None => true end then m else m') = m ∧ ¬ goes live vs name.
Proof.
  unfold goes. destruct (ParseFileName name) as [[n t]|]; [destruct (keep_file live vs n t) eqn:Ek|].
  - right. split; [done|]. intros (n' & t' & [= <- <-] & Hk). congruence.
  - left. split; [done|]. by exists n, t.
  - right. split; [done|]. by intros (? & ? & ? & _).
Qed.

Lemma delete_files_spec dbname live (vs : VersionSet) (names : list bytes) w :
  inv w → ∃ w', delete_files dbname live vs names w = Some ((), w') ∧ inv w' ∧
    (∀ f, (∀ name, goes live vs name → f ≠ dbname ++ str "/" ++ name) → files w' !! f = files w !! f) ∧
    (∀ f, files w !! f = None → files w' !! f = None) ∧
    (∀ name, name ∈ names → goes live vs name → files w' !! (dbname ++ str "/" ++ name) = None).
Proof.
  revert w. induction names as [|name names IH]; intros w Hi; cbn [delete_files].
  { exists w. repeat split; [done..|]. by intros name ?%elem_of_nil. }
  destruct (delete_file_spec dbname live vs name w Hi) as (w1 & E1 & Hi1 & F1). rewrite (M_bind_Some _ _ _ _ _ E1).
  destruct (IH w1 Hi1) as (w2 & E2 & Hi2 & Hstay & Hnone & Hgone). exists w2. split; [done|]. split; [done|].
  assert (F1' : files w1 = (if match ParseFileName name with Some (n, t) => keep_file live vs n t | None => true end then files w
    else delete (dbname ++ str "/" ++ name) (files w))) by (rewrite F1; by destruct (ParseFileName name) as [[n t]|]).
  destruct (goes_cases live vs name (files w) (delete (dbname ++ str "/" ++ name) (files w))) as [[Eg Hg]|[Eg Hg]]; rewrite Eg in F1'; clear Eg F1;
    rewrite F1' in Hstay, Hnone; (split; [|split]).
  - intros f Hf. rewrite Hstay by done. apply lookup_delete_ne. apply not_eq_sym. by apply Hf.
  - intros f Hf. apply Hnone. apply lookup_delete_None. by right.
  - intros x [->|Hx]%elem_of_cons Hx'; [|by apply Hgone]. apply Hnone, lookup_delete_eq.
  - done.
  - done.
  - intros x [->|Hx]%elem_of_cons Hx'; [done|by apply Hgone].
Qed.

Lemma obsolete_files (d : DBImpl) w :
  inv w → ok (bg_error_ (background d)) = true →
  ∃ w', DeleteObsoleteFiles (d, w) = Some ((), (d, w')) ∧ inv w' ∧
    (∀ f, (∀ name, goes (live_files d) (versions_ d) name → f ≠ dbname_ (versions_ d) ++ str "/" ++ name) →
       files w' !! f = files w !! f) ∧
    (∀ name, goes (live_files d) (versions_ d) name → files w' !! (dbname_ (versions_ d) ++ str "/" ++ name) = None).
Proof.
  intros Hi Hok. unfold DeleteObsoleteFiles. destruct (re_GetChildren (dbname_ (versions_ d)) w Hi) as (s & names & Eg & _ & Hnames).
  destruct (delete_files_spec (dbname_ (versions_ d)) (live_files d) (versions_ d) names w Hi) as (w' & Ed & Hi' & Hstay & Hnone & Hgone).
  exists w'. split; [|split; [done|]].
  - db_step. rewrite Hok. cbn [negb]. rewrite (env_bind _ _ _ _ _ _ Eg). fold (live_files d). by apply env_Some.
  - split; [done|]. intros name Hg. destruct (files w !! (dbname_ (versions_ d) ++ str "/" ++ name)) as [c|] eqn:Ec.
    + apply Hgone; [|done]. apply Hnames. by rewrite Ec.
    + by apply Hnone.
Qed.

(** C36: garbage collection is safe and complete. Where no operation fails,
    [DeleteObsoleteFiles] does nothing behind a background error, and otherwise
    changes nothing but the directory: every file of the database that is
    needed - tables of a live version, outputs of running compactions, the logs
    and the MANIFEST that recovery reads, CURRENT, the lock, the info logs - is
    what it was, as is every file that is not one of the database, and all other
    files of the database are gone. *)
Theorem DeleteObsoleteFiles_safe (d : DBImpl) w :
  inv w →
  ∃ w', DeleteObsoleteFiles (d, w) = Some ((), (d, w')) ∧ inv w' ∧
    if ok (bg_error_ (background d)) then
      (∀ n t f, in_w 64 n → made_name (dbname_ (versions_ d)) n t f → needed d n t → files w' !! f = files w !! f) ∧
      (∀ n t f, in_w 64 n → made_name (dbname_ (versions_ d)) n t f → ¬ needed d n t → files w' !! f = None) ∧
      (∀ f, (∀ name, f = dbname_ (versions_ d) ++ str "/" ++ name → ParseFileName name = None) → files w' !! f = files w !! f)
    else w' = w.
Proof.
  intros Hi. destruct (ok (bg_error_ (background d))) eqn:Hok.
  - destruct (obsolete_files d w Hi Hok) as (w' & E' & Hi' & Hstay & Hgone). exists w'. split; [done|]. split; [done|]. split; [|split].
    + intros n t f Hn Hm Hneed. destruct (made_name_parses _ _ _ _ Hn Hm) as (base & -> & Hp). apply Hstay.
      intros name (n' & t' & Hp' & Hk) Heq%app_inv_head. apply (app_inv_head (str "/")) in Heq as <-. rewrite Hp in Hp'. injection Hp' as <- <-.
      apply keep_needed in Hneed. congruence.
    + intros n t f Hn Hm Hneed. destruct (made_name_parses _ _ _ _ Hn Hm) as (base & -> & Hp). apply Hgone. exists n, t. split; [done|].
      destruct (keep_file _ _ n t) eqn:Ek; [|done]. by apply keep_needed in Ek.
    + intros f Hf. apply Hstay. intros name (n & t & Hp & _) ->. by rewrite (Hf name eq_refl) in Hp.
  - exists w. split; [|done]. unfold DeleteObsoleteFiles. db_step. by rewrite Hok.
Qed.
End Files.

Module Example.
(** An in-memory environment with one process and no clock. *)
Definition OneProcess : DbEnv MemWorld := {|
  FileLock := ();
  Logger := ();
  LockFile _ := mret (inr ());
  UnlockFile _ := mret Status_OK;
  NewLogger _ := mret (inr ());
  delete_logger _ := mret ();
  NowMicros := mret 0;
  SleepForMicroseconds _ := mret ();
  Schedule := mret ();
|}.

Definition v : Version :=
  {| files_ := [[]; [new_FileMetaData 5 0 [] []]; []; []; []; []; []]; file_to_compact_ := None; compaction_level_ := -1;
     compaction_score_ := (-1, 1) |}.
(** A database with the table 5, the MANIFEST 4 and the log 6. *)
Definition d : DBImpl (E := InMemoryEnv) (D := OneProcess) :=
  let vs := AppendVersion (new_VersionSet (E := InMemoryEnv) (str "db")) v in
  with_versions (set_numbers vs 8 4 0 6 0) (init_DBImpl (A := BumpAllocator) false false (str "db")).

Definition create (names : list bytes) : M MemWorld () :=
  foldr (λ f m, _ ← NewWritableFile (Env := InMemoryEnv) f; m) (mret ()) names.

Definition names : list bytes :=
  [TableFileName (str "db") 5; TableFileName (str "db") 7; LogFileName (str "db") 3; LogFileName (str "db") 6; str "db/notes"].
End Example.

#[export] Instance NoCache_evict :
  EvictLaws (E := InMemoryEnv) Builder.Example.NoCache Mem.mem_inv Mem.mem_files Mem.mem_writing Mem.mem_reading.
Proof. split. intros n w Hi. by exists w. Qed.

Lemma create_files names w : Mem.mem_inv w →
  ∃ w', Example.create names w = Some ((), w') ∧ Mem.mem_inv w' ∧
    ∀ f, f ∈ names ∨ Mem.mem_files w !! f = Some [] → Mem.mem_files w' !! f = Some [].
Proof.
  revert w. induction names as [|g names IH]; intros w Hi.
  { exists w. split; [done|]. split; [done|]. by intros f [?%elem_of_nil|?]. }
  destruct (re_NewWritable (ReliableEnv := Mem.InMemoryEnv_reliable) g w Hi) as (h & w1 & E1 & Hi1 & F1 & _).
  destruct (IH w1 Hi1) as (w2 & E2 & Hi2 & F2). exists w2. split; [|split; [done|]].
  - cbn [Example.create foldr]. by rewrite (M_bind_Some _ _ _ _ _ E1).
  - intros f Hf. apply F2. rewrite F1. destruct (decide (g = f)) as [->|Hne]; [right; by rewrite lookup_insert_eq|].
    rewrite lookup_insert_ne by done. destruct Hf as [[->|?]%elem_of_cons|?]; [done|by left|by right].
Qed.

Lemma DeleteObsoleteFiles_safe_witness :
  ∃ w w', Example.create Example.names NewMemEnv = Some ((), w) ∧
    DeleteObsoleteFiles (T := Builder.Example.NoCache) (Example.d, w) = Some ((), (Example.d, w')) ∧
    (λ f, Mem.mem_files w' !! f) <$> Example.names = [Some []; None; None; Some []; Some []].
Proof.
  destruct (create_files Example.names NewMemEnv Mem.mem_inv_init) as (w & Ec & Hi & HF).
  destruct (DeleteObsoleteFiles_safe (T := Builder.Example.NoCache) (RE := Mem.InMemoryEnv_reliable) (EL := NoCache_evict) Example.d w Hi)
    as (w' & Ed & _ & Hstay & Hgone & Hother).
  exists w, w'. split; [exact Ec|]. split; [exact Ed|]. clear Ec Ed Hi. unfold Example.names. cbn [fmap list_fmap].
  rewrite (Hstay 5 kTableFile), (Hgone 7 kTableFile), (Hgone 3 kLogFile), (Hstay 6 kLogFile), Hother.
  - rewrite !HF by (left; decide_now). done.
  - intros name H. assert (name = str "notes") as -> by (vm_compute in H; by injection H as <-). by vm_compute.
  - unfold in_w. lia.
  - done.
  - apply keep_needed. vm_compute. reflexivity.
  - unfold in_w. lia.
  - done.
  - rewrite <- keep_needed. vm_compute. discriminate.
  - unfold in_w. lia.
  - by left.
  - rewrite <- keep_needed. vm_compute. discriminate.
  - unfold in_w. lia.
  - by left.
  - apply keep_needed. vm_compute. reflexivity.
Defined.
