(* ===== verification/DbWrite.v ===== *)
(** Writing to the database: [DBImpl::MakeRoomForWrite], [DBImpl::Write] and
    what is built on it ([db/db_impl.cc]). *)
From stdpp Require Import gmap.
From S2P Require Import Prelude Coding Status Comparator Crc32c Env FileName LogFile DbFormat Arena WriteBatch MemTable WriteQueue Format Version VersionSet Builder DbState.

Section Write.
Context {W : Type} {E : Env W} {D : DbEnv W} {T : TableCache W} {P : Placement} {A : BlockAllocator} {C : Comparator}.
(** [blocks_.capacity()] of an arena. *)
Context (capacity : list region → Z) (write_buffer_size : Z) (dbname_ : bytes) (others : DB ()).

(** ** Making room *)

(** The new log and the new memtable. *)
Definition switch_memtable (lfile : WritableHandle) (new_log_number : Z) : DB () :=
  old ← gets log_;
  _ ← when_some old (λ f, env (wf_delete f.1));
  _ ← modify (with_log (Some (lfile, new_Writer)) new_log_number);
  mem ← gets (λ d, mem_ (mems d));
  _ ← modify (with_mems (set_imm (Some mem)));
  new ← new_mem;
  modify (with_mems (set_mem new)).

Definition mem_usage (d : DBImpl) : option Z :=
  ApproximateMemoryUsage capacity <$> tables (mems d) !! mem_ (mems d).

(** [while (true)] *)
Fixpoint MakeRoom_loop (fuel : nat) (force allow_delay : bool) : DB Status :=
  match fuel with
  | O => undefined
  | S fuel =>
      d ← gets id;
      v ← lift (current (versions_ d));
      usage ← lift (mem_usage d);
      if negb (ok (bg_error_ (background d))) then mret (bg_error_ (background d))
      else if allow_delay && bool_decide (kL0_SlowdownWritesTrigger ≤ NumLevelFiles v 0) then
        _ ← unlocked others (env (SleepForMicroseconds 1000));
        MakeRoom_loop fuel force false
      else if negb force && bool_decide (usage ≤ write_buffer_size) then mret Status_OK
      else if bool_decide (is_Some (imm_ (mems d))) then
        _ ← others; MakeRoom_loop fuel force allow_delay
      else if bool_decide (kL0_StopWritesTrigger ≤ NumLevelFiles v 0) then
        _ ← others; MakeRoom_loop fuel force allow_delay
      else
        new_log_number ← on_versions (λ vs, mret (NewFileNumber vs));
        r ← env (NewWritableFile (LogFileName dbname_ new_log_number));
        match r with
        | inl s =>
            _ ← on_versions (λ vs, mret ((), ReuseFileNumber vs new_log_number));
            mret s
        | inr lfile =>
            _ ← switch_memtable lfile new_log_number;
            _ ← MaybeScheduleCompaction;
            MakeRoom_loop fuel false allow_delay
        end
  end.

Definition MakeRoomForWrite (fuel : nat) (force : bool) : DB Status := MakeRoom_loop fuel force (negb force).

(** ** Writing a group *)

Definition writer (a : nat) : DB Writer := w ← gets (λ d, writers (write_state d) !! a); lift w.

Definition set_batch (w : Writer) (b : WriteBatch) : Writer :=
  {| w_status := w_status w; w_batch := Some b; w_sync := w_sync w; w_done := w_done w |}.

Definition set_done (w : Writer) (s : Status) : Writer :=
  {| w_status := s; w_batch := w_batch w; w_sync := w_sync w; w_done := true |}.

(** What is done without the mutex: the log and the memtable. The second result
    is [sync_error]. *)
Definition write_updates (sync : bool) (updates : WriteBatch) : DB (Status * bool) :=
  log ← gets log_;
  log ← lift log;
  '(status, log) ← env (add_record log (Contents updates));
  number ← gets logfile_number_;
  _ ← modify (with_log (Some log) number);
  '(status, sync_error) ← (if ok status && sync then
                             s ← env (wf_Sync (WritableFile := writable log.1)); mret (s, negb (ok s))
                           else mret (status, false));
  status ← (if ok status then
              mem ← gets (λ d, mem_ (mems d));
              m ← gets (λ d, tables (mems d) !! mem);
              m ← lift m;
              '(status, m) ← lift (InsertInto updates m);
              _ ← modify (with_mems (λ ms, set_tables (<[mem := m]> (tables ms)) ms));
              mret status
            else mret status);
  mret (status, sync_error).

(** [updates] is the batch of the first writer or [tmp_batch_]. *)
Definition write_group (me : nat) (sync : bool) (last_sequence : Z) : DB (Status * nat) :=
  q ← gets write_state;
  '(group, last_writer) ← lift (BuildBatchGroup (writers q) (writers_ q) (tmp_batch_ q));
  first ← writer me;
  b ← lift (w_batch first);
  let updates := SetSequence (group_contents b group) (u64 (last_sequence + 1)) in
  _ ← modify (with_write_state (match group with
                                | FirstBatch => λ q, set_writers (<[me := set_batch first updates]> (writers q)) q
                                | TmpBatch _ => set_tmp_batch updates
                                end));
  '(status, sync_error) ← unlocked others (write_updates sync updates);
  _ ← (if (sync_error : bool) then RecordBackgroundError status else mret ());
  _ ← (match group with
       | FirstBatch => mret ()
       | TmpBatch _ => modify (with_write_state (set_tmp_batch WriteBatch.Clear))
       end);
  _ ← on_versions (λ vs, mret ((), VersionSet.SetLastSequence vs (u64 (last_sequence + Count updates))));
  mret (status, last_writer).

(** The loop that takes the group out of the queue and tells its writers. *)
Fixpoint pop_writers (me : nat) (status : Status) (last_writer : nat) (queue : list nat) (ws : Writers) :
    option (list nat * Writers) :=
  match queue with
  | [] => None
  | ready :: queue =>
      ws ← (if decide (ready = me) then Some ws else w ← ws !! ready; Some (<[ready := set_done w status]> ws));
      if decide (ready = last_writer) then Some (queue, ws) else pop_writers me status last_writer queue ws
  end.

(** The status and the batch of the caller, which may have got its sequence
    number. The writer is on the stack. *)
Definition finish_writer (me : nat) : DB (option WriteBatch) :=
  w ← writer me;
  _ ← modify (with_write_state (λ q, set_writers (delete me (writers q)) q));
  mret (w_batch w).

Definition new_writer (sync : bool) (my_batch : option WriteBatch) : DB nat :=
  me ← gets (λ d, fresh (dom (writers (write_state d))));
  let w := {| w_status := Status_OK; w_batch := my_batch; w_sync := sync; w_done := false |} in
  _ ← modify (with_write_state (λ q, set_queue (writers_ q ++ [me]) (set_writers (<[me := w]> (writers q)) q)));
  mret me.

(** Not done and not at the front. *)
Definition must_wait (me : nat) (d : DBImpl) : bool :=
  match writers (write_state d) !! me with
  | Some w => negb (w_done w) && bool_decide (head (writers_ (write_state d)) ≠ Some me)
  | None => false
  end.

(** What the writer at the front of the queue does when there is room, or
    [status] is an error. *)
Definition commit_front (me : nat) (sync : bool) (my_batch : option WriteBatch) (status : Status) : DB Status :=
  last_sequence ← gets (λ d, last_sequence_ (versions_ d));
  '(status, last_writer) ← (if ok status && bool_decide (my_batch ≠ None) then write_group me sync last_sequence
                            else mret (status, me));
  q ← gets write_state;
  '(queue, ws) ← lift (pop_writers me status last_writer (writers_ q) (writers q));
  _ ← modify (with_write_state (λ q, set_queue queue (set_writers ws q)));
  mret status.

Definition write_front (fuel : nat) (me : nat) (sync : bool) (my_batch : option WriteBatch) : DB Status :=
  status ← MakeRoomForWrite fuel (bool_decide (my_batch = None));
  commit_front me sync my_batch status.

Definition Write (fuel : nat) (sync : bool) (my_batch : option WriteBatch) : DB (Status * option WriteBatch) :=
  me ← new_writer sync my_batch;
  _ ← wait_while others fuel (must_wait me);
  w ← writer me;
  if w_done w then
    b ← finish_writer me; mret (w_status w, b)
  else
    status ← write_front fuel me sync my_batch;
    b ← finish_writer me;
    mret (status, b).

Definition db_Put (fuel : nat) (sync : bool) (key value : bytes) : DB Status :=
  r ← Write fuel sync (Some (Put WriteBatch.Clear key value)); mret r.1.

Definition db_Delete (fuel : nat) (sync : bool) (key : bytes) : DB Status :=
  r ← Write fuel sync (Some (Delete WriteBatch.Clear key)); mret r.1.

(** ** Waiting for a memtable to be written *)

Definition TEST_CompactMemTable (fuel : nat) : DB Status :=
  '(s, _) ← Write fuel false None;
  if ok s then
    _ ← wait_while others fuel (λ d, bool_decide (is_Some (imm_ (mems d))) && ok (bg_error_ (background d)));
    d ← gets id;
    mret (if bool_decide (is_Some (imm_ (mems d))) then bg_error_ (background d) else s)
  else mret s.
End Write.
