(* ===== verification/DbCommit.v ===== *)
(** Group commit: what the writer at the front of the queue does in
    [DBImpl::Write] of [db/db_impl.cc] is one record in the log, its operations
    in the memtable, and an answer for every writer of the group. *)
From stdpp Require Import gmap.
From S2P Require Import Prelude SortedLists Coding Status Comparator Crc32c Env MemEnv EnvFiles FileName LogFile DbFormat Arena WriteBatch MemTable WriteQueue Version VersionSet Builder DbState DbFiles DbWrite.

(** ** Taking the group out of the queue *)

Definition done_all (me : nat) (s : Status) (g : list nat) (ws : Writers) : Writers :=
  foldl (λ ws a, if decide (a = me) then ws else alter (λ w, set_done w s) a ws) ws g.

Lemma done_all_lookup me s g ws a :
  NoDup g → done_all me s g ws !! a = if decide (a ∈ g ∧ a ≠ me) then (λ w, set_done w s) <$> ws !! a else ws !! a.
Proof.
  unfold done_all. revert ws. induction g as [|b g IH]; intros ws Hg; cbn [foldl].
  { rewrite decide_False; [done|]. intros [?%elem_of_nil _]. done. }
  apply list.NoDup_cons in Hg as [Hb Hg]. rewrite IH by done. clear IH.
  destruct (decide (a = b)) as [->|Hab].
  - rewrite (decide_False (P := b ∈ g ∧ b ≠ me)) by (by intros [? _]).
    destruct (decide (b = me)) as [->|Hme].
    + rewrite decide_False; [done|]. by intros [_ ?].
    + rewrite lookup_alter_eq, decide_True; [done|]. split; [by left|done].
  - destruct (decide (b = me)) as [->|Hme]; [|rewrite lookup_alter_ne by by apply not_eq_sym].
    all: apply decide_ext; rewrite elem_of_cons; tauto.
Qed.

Lemma last_in {A} (g : list A) d : g ≠ [] → List.last g d ∈ g.
Proof.
  induction g as [|a g IH]; [done|]. intros _. destruct g as [|b g]; [by left|]. right. by apply IH.
Qed.

Lemma pop_writers_spec me s g d rest ws :
  g ≠ [] → NoDup g → (∀ a, a ∈ g → a ≠ me → is_Some (ws !! a)) →
  pop_writers me s (List.last g d) (g ++ rest) ws = Some (rest, done_all me s g ws).
Proof.
  revert d ws. induction g as [|a g IH]; intros d ws Hne Hnd Hall; [done|]. cbn [app pop_writers].
  apply list.NoDup_cons in Hnd as [Ha Hnd].
  assert (Es : (if decide (a = me) then Some ws else w ← ws !! a; Some (<[a:=set_done w s]> ws)) =
    Some (if decide (a = me) then ws else alter (λ w, set_done w s) a ws)).
  { destruct (decide (a = me)) as [->|Hme]; [done|]. destruct (Hall a) as [w Hw]; [by left|done|]. rewrite Hw. cbn. f_equal.
    apply map_eq. intros b. destruct (decide (b = a)) as [->|Hb].
    - by rewrite lookup_insert_eq, lookup_alter_eq, Hw.
    - by rewrite lookup_insert_ne, lookup_alter_ne by by apply not_eq_sym. }
  rewrite Es. cbn [mbind option_bind]. destruct g as [|b g].
  - by rewrite decide_True.
  - rewrite decide_False.
    + change (List.last (a :: b :: g) d) with (List.last (b :: g) d).
      rewrite (IH d); [done|done|done|]. intros c Hc Hme. destruct (decide (a = me)); [apply Hall; [by right|done]|].
      destruct (decide (c = a)) as [->|Hca]; [done|]. rewrite lookup_alter_ne by by apply not_eq_sym. apply Hall; [by right|done].
    + change (List.last (a :: b :: g) d) with (List.last (b :: g) d). intros Heq. apply Ha. rewrite Heq. by apply last_in.
Qed.

(** ** The state a writer relies on *)

Section Commit.
Context {W : Type} {E : Env W} {D : DbEnv W} {T : TableCache W} {P : Placement} {PL : PlacementLaws P} {A : BlockAllocator}.
Context {C : Comparator} {V : bytes → Prop} {CL : ComparatorLaws C V}.
Context {inv : W → Prop} {files : W → gmap bytes bytes}.
Context {writing : W → WritableHandle → bytes → Prop} {reading : W → SequentialHandle → bytes → bytes → Prop}.
Context {RE : ReliableEnv E inv files writing reading}.
(** The name of the log. *)
Context (f : bytes).

(** What the other threads do while the writer at the front does not have the
    mutex: they may queue, read, take snapshots, compact, but only the front
    writer writes to the log, inserts into [mem_], and moves the sequence. *)
Record undisturbed (s s' : DBImpl * W) : Prop := {
  un_inv : inv s'.2;
  un_log : log_ s'.1 = log_ s.1;
  un_file : files s'.2 !! f = files s.2 !! f;
  un_writing h : writing s.2 h f → writing s'.2 h f;
  un_mem : mem_ (mems s'.1) = mem_ (mems s.1);
  un_table m : tables (mems s.1) !! mem_ (mems s.1) = Some m →
    ∃ m', tables (mems s'.1) !! mem_ (mems s.1) = Some m' ∧ table_ m' = table_ m;
  un_queue : ∃ more, writers_ (write_state s'.1) = writers_ (write_state s.1) ++ more;
  un_writers a : a ∈ writers_ (write_state s.1) → writers (write_state s'.1) !! a = writers (write_state s.1) !! a;
  un_tmp : tmp_batch_ (write_state s'.1) = tmp_batch_ (write_state s.1);
  un_sequence : last_sequence_ (versions_ s'.1) = last_sequence_ (versions_ s.1);
}.

(** The log holds the records, and the memtable the writes. *)
Record committed (s : DBImpl * W) (records : list WriteBatch) (hist : list MemTable.Write) : Prop := {
  cm_inv : inv s.2;
  cm_log : ∃ h wr, log_ s.1 = Some (h, wr) ∧ writing s.2 h f ∧ files s.2 !! f = Some (log_bytes records) ∧
    writer_ok wr (log_layout 0 records).2;
  cm_mem : ∃ m, tables (mems s.1) !! mem_ (mems s.1) = Some m ∧ Mem_hist (V := V) m hist;
}.

Lemma undisturbed_committed s s' r h : undisturbed s s' → committed s r h → committed s' r h.
Proof.
  intros U [Hi (hd & wr & Hl & Hw & Hf & Ho) (m & Hm & Hh)]. split.
  - apply U.
  - exists hd, wr. rewrite (un_log _ _ U), (un_file _ _ U). splits; [done|by apply (un_writing _ _ U)|done..].
  - destruct (un_table _ _ U m Hm) as (m' & Hm' & Ht). exists m'. rewrite (un_mem _ _ U). split; [done|]. by eapply Mem_hist_table.
Qed.

(** The record at the end of the log. *)
Lemma add_record_spec w h wr records slice :
  inv w → writing w h f → files w !! f = Some (log_bytes records) → writer_ok wr (log_layout 0 records).2 →
  ∃ wr' w', add_record (h, wr) slice w = Some ((Status_OK, (h, wr')), w') ∧ inv w' ∧ writing w' h f ∧
    files w' !! f = Some (log_bytes (records ++ [slice])) ∧ writer_ok wr' (log_layout 0 (records ++ [slice])).2.
Proof.
  intros Hi Hw Hf Hwr.
  assert (Hwo : writing_only (inv := inv) (files := files) (writing := writing) (reading := reading) w h f w).
  { split; [done|]. split; [done|]. split; [done|]. apply frame_refl. }
  assert (Ho : off_ok (log_layout 0 records).2) by by apply log_layout_off.
  pose proof (wp_AddRecord_loop (dest_ := writable h) (inv := writing_only w h f) (contents := file_bytes files f)
    (S (S (length slice))) wr _ slice true w Hwo Hwr Ho (enough_start _ _)) as Hwp.
  apply wp_Some in Hwp as (r & w' & E' & s & wr' & -> & Hs & Hwr' & (Hi' & Hw' & _) & Hc). apply ok_Status in Hs as ->.
  exists wr', w'. unfold add_record, AddRecord. cbn [fst snd]. rewrite E'. split; [done|]. split; [done|]. split; [done|].
  unfold log_bytes in *. rewrite log_layout_app, log_layout_one. cbn [fst snd]. split; [|done].
  rewrite (file_bytes_Some f w' h Hi' Hw'), Hc. unfold file_bytes at 1. by rewrite Hf.
Qed.

(** The parts of the state that are not written. *)
Definition same_but_log_mem (d d' : DBImpl) : Prop :=
  write_state d' = write_state d ∧ versions_ d' = versions_ d ∧ background d' = background d ∧ snapshots_ d' = snapshots_ d.

Lemma write_updates_spec sync updates s records hist seq ops :
  committed s records hist → Batch_of updates seq ops → in_w 64 seq → zlen ops < 2 ^ 31 →
  Forall (write_valid (V := V)) (number seq ops) → Forall (λ w, w.1 < seq) hist →
  ∃ s', write_updates sync updates s = Some ((Status_OK, false), s') ∧ same_but_log_mem s.1 s'.1 ∧
    committed s' (records ++ [updates]) (hist ++ number seq ops).
Proof.
  destruct s as [d w]. intros [Hi (h & wr & Hl & Hw & Hf & Hwr) (m & Hm & Hh)] Hb Hseq Hn Hv Hlt. cbn [fst snd] in *.
  destruct (add_record_spec w h wr records updates Hi Hw Hf Hwr) as (wr' & w' & Ea & Hi' & Hw' & Hf' & Hwr').
  destruct (InsertInto_hist m hist updates seq ops Hh Hb Hseq Hn Hv Hlt) as (m' & Em & Hh').
  set (d1 := with_log (Some (h, wr')) (logfile_number_ d) d).
  set (d2 := with_mems (λ ms, set_tables (<[mem_ (mems d) := m']> (tables ms)) ms) d1).
  exists (d2, w'). unfold write_updates. db_step. rewrite Hl. rewrite (lift_bind (h, wr)) by done.
  rewrite (env_bind _ _ _ _ _ _ Ea). db_step. cbn [ok Status_OK]. fold d1.
  assert (Es : (if true && sync then s ← env (wf_Sync (WritableFile := writable h)); mret (s, negb (ok s)) else mret (Status_OK, false)) (d1, w') =
    Some ((Status_OK, false), (d1, w'))).
  { destruct sync; cbn [andb]; [|done]. destruct (re_Sync h f w' Hi' Hw') as (st & E2 & ->%ok_Status). by rewrite (env_bind _ _ _ _ _ _ E2). }
  rewrite (M_bind_Some _ _ _ _ _ Es). cbn [ok Status_OK].
  assert (Hmem : (mem ← gets (λ d, mem_ (mems d)); m ← gets (λ d, tables (mems d) !! mem); m ← lift m; '(status, m) ← lift (InsertInto updates m);
    _ ← modify (with_mems (λ ms, set_tables (<[mem := m]> (tables ms)) ms)); mret status) (d1, w') = Some (Status_OK, (d2, w'))).
  { db_step. rewrite (lift_bind m) by done. rewrite (lift_bind (Status_OK, m')) by done. done. }
  rewrite (M_bind_Some _ _ _ _ _ Hmem). split; [done|]. split; [done|]. split; cbn [fst snd].
  - done.
  - by exists h, wr'.
  - exists m'. cbn. by rewrite lookup_insert_eq.
Qed.

Context (others : DB ()).
Context (Hothers : ∀ s, inv s.2 → ∃ s', others s = Some ((), s') ∧ undisturbed s s').

Lemma undisturbed_inv_bind {X} (k : () → DB X) s : inv s.2 → ∃ s', (others ≫= k) s = k () s' ∧ undisturbed s s'.
Proof. intros Hi. destruct (Hothers s Hi) as (s' & E' & U). exists s'. split; [by rewrite (M_bind_Some _ _ _ _ _ E')|done]. Qed.

Lemma number_length q ops : length (number q ops) = length ops.
Proof. revert q. induction ops as [|op ops IH]; intros q; cbn; [done|]. by rewrite IH. Qed.

Lemma number_bounds q ops : Forall (λ w : MemTable.Write, q ≤ w.1 < q + zlen ops) (number q ops).
Proof.
  revert q. induction ops as [|op ops IH]; intros q; cbn [number]; [constructor|]. rewrite zlen_cons. pose proof (zlen_nonneg ops).
  constructor; [cbn; lia|]. eapply Forall_impl; [|apply IH]. cbn. lia.
Qed.

(** The state before the commit. *)
Record commit_ready (ops : nat → list BatchOp) (s : DBImpl * W) (me : nat) (ws : list nat) (b0 : WriteBatch) (sync : bool) (last : Z) : Prop := {
  cr_queue : writers_ (write_state s.1) = me :: ws;
  cr_nodup : NoDup (me :: ws);
  cr_me : ∃ w, writers (write_state s.1) !! me = Some w ∧ w_batch w = Some b0 ∧ w_sync w = sync;
  cr_batch : ∃ q, Batch_of b0 q (ops me);
  cr_size : zlen b0 < 2 ^ 31;
  cr_tmp : Batch_of (tmp_batch_ (write_state s.1)) 0 [];
  cr_ops : Forall (ops_of ops (writers (write_state s.1))) ws;
  cr_total : zlen (ops me) + foldr (λ a n, zlen (ops a) + n) 0 ws < 2 ^ 31;
  cr_last : last_sequence_ (versions_ s.1) = last;
  cr_range : 0 ≤ last ∧ last + (zlen (ops me) + foldr (λ a n, zlen (ops a) + n) 0 ws) ≤ kMaxSequenceNumber;
  cr_valid : ∀ a op, a ∈ me :: ws → op ∈ ops a → V (op_key op) ∧ ∀ q, seq_ok q → write_ok (q, op);
}.

Lemma committed_ext d d' w r h : log_ d' = log_ d → mems d' = mems d → committed (d, w) r h → committed (d', w) r h.
Proof. intros Hl Hm [Hi Hlog Hmem]. split; cbn [fst snd] in *; [done|by rewrite Hl|by rewrite Hm]. Qed.

Lemma zlen_concat_le (ops : nat → list BatchOp) me ws n :
  0 ≤ zlen (concat (ops <$> me :: take n ws)) ≤ zlen (ops me) + foldr (λ a n, zlen (ops a) + n) 0 ws.
Proof.
  split; [apply zlen_nonneg|]. cbn [fmap list_fmap concat]. rewrite zlen_app. apply Z.add_le_mono_l. revert n.
  induction ws as [|a ws IH]; intros n; [by destruct n|]. destruct n as [|n]; cbn [take fmap list_fmap concat foldr].
  - pose proof (zlen_nonneg (ops a)). specialize (IH 0%nat). rewrite take_0 in IH. cbn [fmap list_fmap concat] in IH. rewrite zlen_nil in *. lia.
  - rewrite zlen_app. specialize (IH n). lia.
Qed.

Lemma group_valid ops s me ws b0 sync last n :
  commit_ready ops s me ws b0 sync last →
  let os := concat (ops <$> me :: take n ws) in
  in_w 64 (last + 1) ∧ zlen os < 2 ^ 31 ∧ last + zlen os ≤ kMaxSequenceNumber ∧ Forall (write_valid (V := V)) (number (last + 1) os).
Proof.
  intros R os. pose proof (zlen_concat_le ops me ws n) as Hle. fold os in Hle. pose proof (cr_total _ _ _ _ _ _ _ R). pose proof (cr_range _ _ _ _ _ _ _ R) as [? ?].
  assert (Hk : kMaxSequenceNumber = 2 ^ 56 - 1) by done. split; [unfold in_w; lia|]. split; [lia|]. split; [lia|].
  apply list.Forall_forall. intros w Hw.
  pose proof (number_bounds (last + 1) os) as Hb. rewrite list.Forall_forall in Hb. specialize (Hb w Hw). cbn beta in Hb.
  assert (Hop : w.2 ∈ os).
  { clear -Hw. revert Hw. generalize (last + 1). generalize os. intros l. induction l as [|op l IH]; intros q; cbn [number]; [by intros ?%elem_of_nil|].
    intros [->|Hw]%elem_of_cons; [by left|]. right. by eapply IH. }
  apply list_elem_of_In, in_concat in Hop as (x & Hx%list_elem_of_In & Hop%list_elem_of_In). apply list_elem_of_fmap in Hx as (a & -> & Ha).
  destruct (cr_valid _ _ _ _ _ _ _ R a w.2) as [HV Hok]; [|done|].
  { apply elem_of_cons in Ha as [->|Ha]; [by left|]. right. rewrite <- (take_drop n ws). apply elem_of_app. by left. }
  split; [|done]. destruct w as [q op]. apply Hok. unfold seq_ok. cbn in *. lia.
Qed.

Lemma write_group_spec ops s me ws b0 sync last records hist :
  commit_ready ops s me ws b0 sync last → committed s records hist → Forall (λ w, w.1 ≤ last) hist →
  ∃ n updates s', write_group others me sync last s = Some ((Status_OK, List.last (take n ws) me), s') ∧ (n ≤ length ws)%nat ∧
    let os := concat (ops <$> me :: take n ws) in
    Batch_of updates (last + 1) os ∧ committed s' (records ++ [updates]) (hist ++ number (last + 1) os) ∧
    last_sequence_ (versions_ s'.1) = last + zlen os ∧ Batch_of (tmp_batch_ (write_state s'.1)) 0 [] ∧
    (∃ more, writers_ (write_state s'.1) = (me :: ws) ++ more) ∧
    (∀ a, a ∈ ws → writers (write_state s'.1) !! a = writers (write_state s.1) !! a) ∧ is_Some (writers (write_state s'.1) !! me) ∧
    Forall (λ c, ∀ wc, writers (write_state s.1) !! c = Some wc → w_sync wc = true → sync = true) (take n ws).
Proof.
  destruct s as [d w]. intros R Hc Hh. pose proof R as [Hq Hnd (w0 & Hme & Hwb & Hsy) [q Hb] Hsz Htmp Hops Htot Hl Hr _]. cbn [fst snd] in *.
  destruct (first_group (writers (write_state d)) ops me ws (tmp_batch_ (write_state d)) w0 b0 q Hme Hwb Hb Hsz Htmp Hops Htot)
    as (g & n & Eg & Hle & (q' & Hg) & _ & Hsync & _). rewrite Hsy in Hsync.
  destruct (group_valid ops _ me ws b0 sync last n R) as (Hseq & Hn & Hmax & Hv). set (os := concat (ops <$> me :: take n ws)) in *.
  set (updates := SetSequence (group_contents b0 g) (u64 (last + 1))).
  assert (Hu : Batch_of updates (last + 1) os).
  { unfold updates. rewrite wrap_small by done. rewrite Hg. unfold Batch_of. by rewrite SetSequence_header. }
  unfold write_group. db_step. rewrite Hq. rewrite (lift_bind (g, List.last (take n ws) me)) by done.
  unfold writer at 1. assert (Ew : (w ← gets (λ d, writers (write_state d) !! me); lift w) (d, w) = Some (w0, (d, w)))
    by (db_step; by rewrite Hme).
  rewrite (M_bind_Some _ _ _ _ _ Ew). rewrite (lift_bind b0) by done. fold updates. db_step.
  set (d1 := with_write_state _ d).
  assert (H1 : writers_ (write_state d1) = me :: ws ∧ (∀ a, a ∈ ws → writers (write_state d1) !! a = writers (write_state d) !! a) ∧
    is_Some (writers (write_state d1) !! me) ∧ last_sequence_ (versions_ d1) = last ∧
    tmp_batch_ (write_state d1) = match g with FirstBatch => tmp_batch_ (write_state d) | TmpBatch _ => updates end).
  { destruct g; (split; [exact Hq|split; [|split; [|done]]]).
    - intros a Ha. cbn. rewrite lookup_insert_ne; [done|]. intros <-. apply list.NoDup_cons in Hnd as [? _]. done.
    - cbn. rewrite lookup_insert_eq. by eexists.
    - done.
    - cbn. by eexists. }
  destruct H1 as (H1q & H1w & H1me & H1l & H1t).
  assert (Hc1 : committed (d1, w) records hist) by (eapply committed_ext; [..|exact Hc]; done).
  unfold unlocked. destruct (Hothers (d1, w)) as (s2 & E2 & U2); [apply Hc|].
  assert (Hc2 : committed s2 records hist) by by eapply undisturbed_committed.
  destruct (write_updates_spec sync updates s2 records hist (last + 1) os) as (s3 & E3 & (S3w & S3v & _) & Hc3); [done|done|done|done|done| |].
  { eapply Forall_impl; [|exact Hh]. cbn. lia. }
  destruct (Hothers s3) as ([d4 w4] & E4 & U4); [apply Hc3|].
  assert (Hc4 : committed (d4, w4) (records ++ [updates]) (hist ++ number (last + 1) os)) by by eapply undisturbed_committed.
  assert (Eu : (_ ← others; x ← write_updates sync updates; _ ← others; mret x) (d1, w) = Some ((Status_OK, false), (d4, w4))).
  { rewrite (M_bind_Some _ _ _ _ _ E2), (M_bind_Some _ _ _ _ _ E3), (M_bind_Some _ _ _ _ _ E4). done. }
  rewrite (M_bind_Some _ _ _ _ _ Eu). cbn iota. db_step.
  set (d5 := match g with FirstBatch => d4 | TmpBatch _ => with_write_state (set_tmp_batch WriteBatch.Clear) d4 end).
  assert (E5 : (match g with FirstBatch => mret () | TmpBatch _ => modify (with_write_state (set_tmp_batch WriteBatch.Clear)) end) (d4, w4) = Some ((), (d5, w4)))
    by by destruct g.
  rewrite (M_bind_Some _ _ _ _ _ E5). unfold on_versions. db_step.
  set (d6 := with_versions (VersionSet.SetLastSequence (versions_ d5) (u64 (last + Count updates))) d5).
  exists n, updates, (d6, w4). split; [done|]. split; [done|]. cbn zeta. fold os. split; [done|].
  assert (H5 : log_ d6 = log_ d4 ∧ mems d6 = mems d4 ∧ writers_ (write_state d6) = writers_ (write_state d4) ∧
    writers (write_state d6) = writers (write_state d4) ∧ tmp_batch_ (write_state d6) = match g with FirstBatch => tmp_batch_ (write_state d4) | TmpBatch _ => WriteBatch.Clear end).
  { unfold d6, d5. by destruct g. }
  destruct H5 as (H5l & H5m & H5q & H5w & H5t). cbn [fst snd] in *.
  assert (Q2 := un_queue _ _ U2). assert (Q4 := un_queue _ _ U4). destruct Q2 as [more2 Q2], Q4 as [more4 Q4]. cbn [fst snd] in Q2, Q4. rewrite H1q in Q2. rewrite S3w, Q2 in Q4.
  assert (W4 : ∀ a, a ∈ me :: ws → writers (write_state d6) !! a = writers (write_state d1) !! a).
  { intros a Ha. rewrite H5w. pose proof (un_writers _ _ U4 a) as H4. pose proof (un_writers _ _ U2 a) as H2. cbn [fst snd] in H4, H2. rewrite S3w in H4.
    rewrite H4, H2; [done|by rewrite H1q|rewrite Q2; apply elem_of_app; by left]. }
  split; [by eapply committed_ext|]. split.
  { change (last_sequence_ (versions_ d6)) with (u64 (last + Count updates)). pose proof (zlen_nonneg os).
    assert (Count updates = zlen os) as -> by (rewrite Hu; apply Count_header; lia). assert (kMaxSequenceNumber = 2 ^ 56 - 1) by done. apply wrap_small. unfold in_w. lia. }
  split.
  { rewrite H5t. destruct g; [|apply Clear_Batch]. pose proof (un_tmp _ _ U4) as T4. pose proof (un_tmp _ _ U2) as T2. cbn [fst snd] in T4, T2.
    by rewrite T4, S3w, T2, H1t. }
  split; [exists (more2 ++ more4); by rewrite H5q, Q4, <- app_assoc|]. split; [|split; [|done]].
  - intros a Ha. rewrite W4 by by right. by apply H1w.
  - rewrite W4 by by left. done.
Qed.

(** C37: group commit. The writer at the front of the queue, whatever the other
    threads do while it does not have the mutex, appends one record to the log
    and inserts the same batch into the memtable: the operations of the writers
    of a prefix of the queue, in this order, numbered from the last sequence
    number on. The last sequence number moves behind them, the prefix leaves the
    queue and its writers are told that they are done; nobody else is. A writer
    that wants its data synced is only answered by one that syncs. *)
Theorem commit_front_correct ops s me ws b0 sync last records hist :
  commit_ready ops s me ws b0 sync last → committed s records hist → Forall (λ w, w.1 ≤ last) hist →
  ∃ n updates s', commit_front others me sync (Some b0) Status_OK s = Some (Status_OK, s') ∧ (n ≤ length ws)%nat ∧
    let os := concat (ops <$> me :: take n ws) in
    Batch_of updates (last + 1) os ∧ committed s' (records ++ [updates]) (hist ++ number (last + 1) os) ∧
    last_sequence_ (versions_ s'.1) = last + zlen os ∧
    (∃ more, writers_ (write_state s'.1) = drop n ws ++ more) ∧
    (∀ a, a ∈ take n ws → ∃ w, writers (write_state s.1) !! a = Some w ∧ writers (write_state s'.1) !! a = Some (set_done w Status_OK) ∧
       (w_sync w = true → sync = true)) ∧
    (∀ a, a ∈ drop n ws → writers (write_state s'.1) !! a = writers (write_state s.1) !! a).
Proof.
  intros R Hc Hh. destruct (write_group_spec ops s me ws b0 sync last records hist R Hc Hh)
    as (n & updates & [d w] & Eg & Hn & Hu & Hc' & Hl & Htmp & [more Hq] & Hw & [wme Hme] & Hsync). cbn [fst snd] in *.
  pose proof (cr_nodup _ _ _ _ _ _ _ R) as Hnd. pose proof (cr_ops _ _ _ _ _ _ _ R) as Hops.
  assert (Hmn : me ∉ ws) by by apply list.NoDup_cons in Hnd as [? _].
  assert (Hnd' : NoDup (me :: take n ws)).
  { rewrite <- (take_drop n ws), app_comm_cons in Hnd. by apply list.NoDup_app in Hnd as [? _]. }
  assert (Hin : ∀ a, a ∈ take n ws → a ∈ ws) by (intros a Ha; rewrite <- (take_drop n ws); apply elem_of_app; by left).
  assert (Hstore : ∀ a, a ∈ ws → is_Some (writers (write_state s.1) !! a)).
  { intros a Ha. rewrite list.Forall_forall in Hops. destruct (Hops a Ha) as (x & -> & _). by eexists. }
  pose proof (pop_writers_spec me Status_OK (me :: take n ws) me (drop n ws ++ more) (writers (write_state d))) as Hpop.
  assert (Eq : (me :: take n ws) ++ drop n ws ++ more = writers_ (write_state d)) by (rewrite Hq, app_assoc; cbn; by rewrite take_drop).
  rewrite Eq, last_behind in Hpop. specialize (Hpop ltac:(done) Hnd').
  set (ws' := done_all me Status_OK (me :: take n ws) (writers (write_state d))) in Hpop.
  exists n, updates, (with_write_state (λ q, set_queue (drop n ws ++ more) (set_writers ws' q)) d, w).
  split.
  { unfold commit_front. db_step. rewrite (cr_last _ _ _ _ _ _ _ R). rewrite (M_bind_Some _ _ _ _ _ Eg). db_step.
    rewrite (lift_bind (drop n ws ++ more, ws')); [done|]. apply Hpop. intros a [->|Ha]%elem_of_cons Hne; [done|].
    rewrite Hw by by apply Hin. apply Hstore. by apply Hin. }
  split; [done|]. cbn zeta. split; [done|]. split; [by eapply (committed_ext d)|]. split; [done|]. split; [by exists more|]. cbn [fst write_state with_write_state writers set_queue set_writers].
  assert (Hlook := λ a, done_all_lookup me Status_OK (me :: take n ws) (writers (write_state d)) a Hnd'). fold ws' in Hlook. split.
  - intros a Ha. destruct (Hstore a (Hin a Ha)) as [x Hx]. exists x. split; [done|]. split.
    + rewrite Hlook, decide_True; [rewrite Hw by (by apply Hin); by rewrite Hx|]. split; [by right|]. intros ->. by apply Hmn, Hin.
    + rewrite list.Forall_forall in Hsync. by apply (Hsync a Ha x).
  - intros a Ha. assert (a ∈ ws) by (rewrite <- (take_drop n ws); apply elem_of_app; by right). rewrite Hlook, decide_False; [by apply Hw|].
    intros [[->|Ha']%elem_of_cons Hne]; [done|]. rewrite <- (take_drop n ws) in Hnd.
    apply list.NoDup_cons in Hnd as [_ (_ & Hx & _)%list.NoDup_app]. by apply (Hx a).
Qed.

Lemma undisturbed_refl s : inv s.2 → undisturbed s s.
Proof. intros Hi. split; try done; [by eauto|]. exists []. by rewrite app_nil_r. Qed.
End Commit.

Module Example.
Import WriteQueue.Example.
(** A new database with the queue of [WriteQueue.Example]. *)
Definition d (h : nat) : DBImpl (E := InMemoryEnv) (D := DbFiles.Example.OneProcess) :=
  with_log (E := InMemoryEnv) (D := DbFiles.Example.OneProcess) (Some (h, new_Writer (P := UnalignedPlacement))) 3
    (with_write_state (λ _, {| writers := store; writers_ := [0; 1; 2; 3]%nat; tmp_batch_ := WriteBatch.Clear |})
      (init_DBImpl (A := BumpAllocator) false false (str "db"))).

Definition nobody : DB (E := InMemoryEnv) (D := DbFiles.Example.OneProcess) () := mret ().
End Example.

Lemma example_ops_short a :
  Forall (λ op, zlen (op_key op) + 8 + zlen (op_value op) + 10 < 2 ^ 32) (WriteQueue.Example.ops a).
Proof. destruct a as [|[|[|[|]]]]; repeat constructor. Qed.

Lemma commit_front_correct_witness :
  ∃ h w s', NewWritableFile (Env := InMemoryEnv) (str "db/000003.log") NewMemEnv = Some (inr h, w) ∧
    commit_front (P := UnalignedPlacement) (A := BumpAllocator) (C := BytewiseComparator) Example.nobody 0 false
      (Some (WriteQueue.Example.batch 0)) Status_OK (Example.d h, w) = Some (Status_OK, s') ∧
    ∃ n records, (n ≤ 3)%nat ∧ last_sequence_ (versions_ s'.1) = zlen (concat (WriteQueue.Example.ops <$> take (S n) [0; 1; 2; 3]%nat)) ∧
      Mem.mem_files s'.2 !! str "db/000003.log" = Some (log_bytes records).
Proof.
  destruct (re_NewWritable (ReliableEnv := Mem.InMemoryEnv_reliable) (str "db/000003.log") NewMemEnv Mem.mem_inv_init)
    as (h & w & Ew & Hi & HF & _ & Hw). exists h, w.
  assert (Hok : ∀ a, zlen (WriteQueue.Example.ops a) < 2 ^ 31) by (intros [|[|[|[|]]]]; by vm_compute).
  destruct (commit_front_correct (CL := BytewiseComparator_laws) (PL := UnalignedPlacement_laws) (RE := Mem.InMemoryEnv_reliable)
    (A := BumpAllocator) (str "db/000003.log") Example.nobody
    ltac:(intros s Hs; exists s; split; [done|by apply undisturbed_refl])
    WriteQueue.Example.ops (Example.d h, w) 0%nat [1; 2; 3]%nat (WriteQueue.Example.batch 0) false 0 [] [])
    as (n & updates & s' & Ec & Hn & _ & Hc & Hl & _).
  - split.
    + done.
    + decide_now.
    + by eexists.
    + exists 0. by apply ops_batch.
    + by vm_compute.
    + apply Clear_Batch.
    + repeat (apply List.Forall_cons || apply List.Forall_nil).
      * eexists. split; [reflexivity|]. split; [|by vm_compute]. exists 0. by apply ops_batch.
      * eexists. by split.
      * eexists. split; [reflexivity|]. split; [|by vm_compute]. exists 0. by apply ops_batch.
    + by vm_compute.
    + done.
    + by vm_compute.
    + intros a op _ Hop. split; [done|]. intros q Hq. split; [done|].
      pose proof (example_ops_short a) as Hs. rewrite list.Forall_forall in Hs. exact (Hs op Hop).
  - split; [done| |].
    + exists h, (new_Writer (P := UnalignedPlacement)). split; [done|]. split; [done|]. split; [cbn [snd]; by rewrite HF, lookup_insert_eq|].
      apply (new_Writer_ok (PL := UnalignedPlacement_laws)).
    + exists (MemTable.Ref (new_MemTable (A := BumpAllocator))). split; [done|]. eapply Mem_hist_table; [|apply (new_MemTable_hist (A := BumpAllocator))]. done.
  - constructor.
  - exists s'. split; [exact Ew|]. split; [exact Ec|]. exists n, ([] ++ [updates]). split; [done|]. split; [exact Hl|].
    destruct Hc as [Hi' (h' & wr' & _ & _ & Hf & _) _]. exact Hf.
Defined.
