(* ===== verification/DbRoom.v ===== *)
(** [DBImpl::MakeRoomForWrite] of [db/db_impl.cc]: what it promises when it
    returns, and that it returns if the background work gets on. *)
From stdpp Require Import gmap.
From S2P Require Import Prelude Coding Status Comparator Crc32c Env MemEnv EnvFiles FileName LogFile DbFormat Arena MemTable Version VersionSet Manifest Builder DbState DbFiles DbWrite.

(** The rest of the environment does not fail, either, and touches no file. *)
Class DbEnvLaws {W} {E : Env W} (D : DbEnv W) (inv : W → Prop) (files : W → gmap bytes bytes)
    (writing : W → WritableHandle → bytes → Prop) (reading : W → SequentialHandle → bytes → bytes → Prop) : Prop := {
  schedule_law w : inv w → ∃ w', Schedule w = Some ((), w') ∧ inv w' ∧ files w' = files w ∧ frame writing reading (λ _, False) w w';
  sleep_law n w : inv w → ∃ w', SleepForMicroseconds n w = Some ((), w') ∧ inv w' ∧ files w' = files w ∧
    frame writing reading (λ _, False) w w';
}.

Section Room.
Context {W : Type} {E : Env W} {D : DbEnv W} {T : TableCache W} {P : Placement} {A : BlockAllocator} {C : Comparator}.
Context (capacity : list region → Z) (write_buffer_size : Z) (dbname_ : bytes) (others : DB ()).

Abbreviation MakeRoomForWrite := (MakeRoomForWrite capacity write_buffer_size dbname_ others).
Abbreviation MakeRoom_loop := (MakeRoom_loop capacity write_buffer_size dbname_ others).

(** The status is that of an attempt to create a log. *)
Definition no_log (st : Status) : Prop := ∃ n w w', NewWritableFile (LogFileName dbname_ n) w = Some (inl st, w').

Definition made_room (st : Status) (s : DBImpl * W) : Prop :=
  (st = Status_OK ∧ ok (bg_error_ (background s.1)) = true ∧
     ∃ usage, mem_usage capacity s.1 = Some usage ∧ usage ≤ write_buffer_size) ∨
  (ok st = false ∧ st = bg_error_ (background s.1)) ∨ no_log st.

Lemma lift_inv {X} (r : option X) s x s' : lift r s = Some (x, s') → r = Some x ∧ s' = s.
Proof. unfold lift. destruct r; [|done]. by intros [= -> ->]. Qed.

(** When [MakeRoomForWrite] returns, whatever the other threads did meanwhile,
    either there is no background error and the memtable is within the size of
    the write buffer, or the result is the background error, or that of the log
    file that could not be created. *)
Lemma MakeRoom_made fuel force allow_delay s st s' :
  MakeRoom_loop fuel force allow_delay s = Some (st, s') → made_room st s'.
Proof.
  revert force allow_delay s. induction fuel as [|fuel IH]; intros force allow_delay s; [done|]. cbn [DbWrite.MakeRoom_loop]. db_step.
  intros (v & s0 & Hv & (usage & s0' & Hu & H)%M_bind_inv)%M_bind_inv; revert H.
  apply lift_inv in Hv as [Hv ->]. apply lift_inv in Hu as [Eu ->].
  change (id s.1) with s.1.
  destruct (negb (ok (bg_error_ (background s.1)))) eqn:Eb.
  { intros [= <- <-]. right; left. split; [by apply negb_true_iff in Eb|done]. }
  destruct (allow_delay && _).
  { intros (? & s1 & _ & H)%M_bind_inv. by apply IH in H. }
  destruct (negb force && bool_decide (usage ≤ write_buffer_size)) eqn:Er.
  { intros [= <- <-]. left. apply andb_true_iff in Er as [_ ?%bool_decide_eq_true]. apply negb_false_iff in Eb. split; [done|]. split; [done|]. by exists usage. }
  destruct (bool_decide (is_Some _)).
  { intros (? & s1 & _ & H)%M_bind_inv. by apply IH in H. }
  destruct (bool_decide (kL0_StopWritesTrigger <= NumLevelFiles v 0)).
  { intros (? & s1 & _ & H)%M_bind_inv. by apply IH in H. }
  intros (n & s1 & _ & (r & s2 & Er2 & H)%M_bind_inv)%M_bind_inv. destruct r as [sf|h].
  - apply M_bind_inv in H as (? & s3 & _ & H). injection H as <- <-. right; right.
    unfold env in Er2. destruct (NewWritableFile _ s1.2) as [[r w']|] eqn:En; [|done]. injection Er2 as -> _. by exists n, s1.2, w'.
  - apply M_bind_inv in H as (? & s3 & _ & H). apply M_bind_inv in H as (? & s4 & _ & H). by apply IH in H.
Qed.

(** ** Getting on *)

(** There is still a memtable to be written, or too much in level 0. *)
Definition stalled (d : DBImpl) : bool :=
  bool_decide (is_Some (imm_ (mems d))) ||
  match current (versions_ d) with Some v => bool_decide (kL0_StopWritesTrigger ≤ NumLevelFiles v 0) | None => false end.

Section Liveness.
Context {inv : W → Prop} {files : W → gmap bytes bytes}.
Context {writing : W → WritableHandle → bytes → Prop} {reading : W → SequentialHandle → bytes → bytes → Prop}.
Context {RE : ReliableEnv E inv files writing reading} {DL : DbEnvLaws D inv files writing reading}.

(** The state of a database with a log. *)
Record sound (s : DBImpl * W) : Prop := {
  so_inv : inv s.2;
  so_current : ∃ v, versions_wf (versions_ s.1) v;
  so_mem : is_Some (tables (mems s.1) !! mem_ (mems s.1));
  so_next : in_w 64 (next_file_number_ (versions_ s.1));
  so_log h wr : log_ s.1 = Some (h, wr) →
    ∃ f, writing s.2 h f ∧ f ≠ LogFileName dbname_ (next_file_number_ (versions_ s.1));
}.

(** What the other threads do is measured by [μ]: it does not grow, and gets
    less while a writer waits for them. They leave the size of [mem_] alone. *)
Context (μ : DBImpl * W → nat).
Hypothesis others_progress : ∀ s, sound s → ∃ s', others s = Some ((), s') ∧ sound s' ∧ mem_usage capacity s'.1 = mem_usage capacity s.1 ∧
  (μ s' ≤ μ s)%nat ∧ (stalled s.1 = true → (μ s' < μ s)%nat).
Hypothesis sleep_measure : ∀ n s w', SleepForMicroseconds n s.2 = Some ((), w') → (μ (s.1, w') ≤ μ s)%nat.
Hypothesis new_small : ApproximateMemoryUsage capacity (MemTable.Ref new_MemTable) ≤ write_buffer_size.

Lemma LogFileName_inj n m : in_w 64 n → in_w 64 m → LogFileName dbname_ n = LogFileName dbname_ m → n = m.
Proof.
  intros Hn Hm Heq. destruct (made_name_parses dbname_ n kLogFile _ Hn eq_refl) as (b1 & E1 & P1).
  destruct (made_name_parses dbname_ m kLogFile _ Hm eq_refl) as (b2 & E2 & P2).
  rewrite Heq, E2 in E1. apply app_inv_head, app_inv_head in E1 as ->. rewrite P1 in P2. by injection P2.
Qed.

Lemma next_differs n : in_w 64 n → LogFileName dbname_ n ≠ LogFileName dbname_ (u64 (n + 1)).
Proof.
  intros Hn Heq. apply LogFileName_inj in Heq; [|done|by apply wrap_range]. unfold in_w, wrap in *.
  destruct (decide (n = 2 ^ 64 - 1)) as [->|]; [by vm_compute in Heq|]. rewrite Z.mod_small in Heq; lia.
Qed.

Lemma mem_usage_some s : sound s → ∃ u, mem_usage capacity s.1 = Some u.
Proof. intros [_ _ [m Hm] _ _]. exists (ApproximateMemoryUsage capacity m). unfold mem_usage. by rewrite Hm. Qed.

(** The new log and memtable. *)
Lemma switch_sound h n d w w1 s1 :
  sound (d, w) → n = next_file_number_ (versions_ d) → NewWritableFile (LogFileName dbname_ n) w = Some (inr h, w1) → inv w1 →
  frame writing reading (λ g, g = LogFileName dbname_ n) w w1 → writing w1 h (LogFileName dbname_ n) →
  s1 = (with_versions (NewFileNumber (versions_ d)).2 d, w1) →
  ∃ s2, switch_memtable h n s1 = Some ((), s2) ∧ sound s2 ∧
    mem_usage capacity s2.1 = Some (ApproximateMemoryUsage capacity (MemTable.Ref new_MemTable)) ∧
    background s2.1 = background d.
Proof.
  intros [Hi Hcur Hmem Hnx Hlog] Hn Enew Hi1 Hfr Hwr ->. cbn [fst snd] in *.
  set (d1 := with_versions (NewFileNumber (versions_ d)).2 d).
  assert (Hclose : ∃ w2, when_some (log_ d1) (λ f, env (wf_delete f.1)) (d1, w1) = Some ((), (d1, w2)) ∧ inv w2 ∧ writing w2 h (LogFileName dbname_ n)).
  { change (log_ d1) with (log_ d). destruct (log_ d) as [[h0 wr]|] eqn:El; cbn [when_some fst].
    - destruct (Hlog h0 wr eq_refl) as (g & Hg & Hne). rewrite <- Hn in Hne.
      destruct (Hfr g Hne) as [Hg1 _]. specialize (Hg1 h0 Hg).
      destruct (re_wf_delete h0 g w1 Hi1 Hg1) as (w2 & E2 & Hi2 & _ & Hf2). exists w2. split; [by apply env_Some|]. split; [done|].
      apply (Hf2 (LogFileName dbname_ n)); [|done]. by apply not_eq_sym.
    - by exists w1. }
  destruct Hclose as (w2 & E2 & Hi2 & Hw2). eexists. split.
  { unfold switch_memtable. db_step. rewrite (M_bind_Some _ _ _ _ _ E2). unfold new_mem. db_step.
    unfold mbind at 1, M_bind at 1. db_step. reflexivity. }
  split; [|split].
  - split; cbn [fst snd mems with_mems set_mem tables set_tables mem_ versions_ log_ with_log with_versions d1].
    + done.
    + done.
    + rewrite lookup_insert_eq. by eexists.
    + cbn. by apply wrap_range.
    + intros h' wr [= <- <-]. exists (LogFileName dbname_ n). split; [done|]. cbn. rewrite <- Hn. apply next_differs. by rewrite Hn.
  - unfold mem_usage. cbn. by rewrite lookup_insert_eq.
  - done.
Qed.

(** The environment has changed, but not the files. *)
Lemma sound_env d w w' d' : sound (d, w) → inv w' → frame writing reading (λ _, False) w w' →
  mems d' = mems d → versions_ d' = versions_ d → log_ d' = log_ d → sound (d', w').
Proof.
  intros [Hi Hc Hm Hn Hl] Hi' Hf Em Ev El. cbn [fst snd] in *. split; cbn [fst snd]; rewrite ?Em, ?Ev, ?El; try done.
  intros h wr H. destruct (Hl h wr H) as (f & Hw & Hne). exists f. split; [|done]. by apply (Hf f (λ x, x)).
Qed.

Lemma schedule_sound s : sound s → ∃ s', MaybeScheduleCompaction s = Some ((), s') ∧ sound s' ∧
  mem_usage capacity s'.1 = mem_usage capacity s.1.
Proof.
  destruct s as [d w]. intros Hs. unfold MaybeScheduleCompaction. db_step. change (id d) with d.
  destruct (bg_compaction_scheduled_ _); [by exists (d, w)|]. destruct (shutting_down_ _); [by exists (d, w)|].
  destruct (negb _); [by exists (d, w)|]. destruct (so_current _ Hs) as (v & _ & _ & Hv). cbn [fst] in Hv. rewrite (lift_bind v) by done.
  destruct (negb _); [by exists (d, w)|]. db_step. destruct (schedule_law w (so_inv _ Hs)) as (w' & Ew & Hi & _ & Hf).
  rewrite (env_Some _ _ _ _ _ Ew). eexists. split; [done|]. split; [|done]. by eapply sound_env.
Qed.

Lemma sleep_progress n s : sound s → ∃ s', unlocked others (env (SleepForMicroseconds n)) s = Some ((), s') ∧ sound s' ∧
  mem_usage capacity s'.1 = mem_usage capacity s.1 ∧ (μ s' ≤ μ s)%nat.
Proof.
  intros Hs. destruct (others_progress s Hs) as ([d1 w1] & E1 & S1 & U1 & M1 & _).
  destruct (sleep_law n w1 (so_inv _ S1)) as (w2 & E2 & Hi & _ & Hf). cbn [fst snd] in *.
  assert (S2 : sound (d1, w2)) by by eapply sound_env. pose proof (sleep_measure n (d1, w1) w2 E2) as M2. cbn [fst snd] in M2.
  destruct (others_progress _ S2) as (s3 & E3 & S3 & U3 & M3 & _). exists s3. split.
  { unfold unlocked. rewrite (M_bind_Some _ _ _ _ _ E1), (env_bind _ _ _ _ _ _ E2), (M_bind_Some _ _ _ _ _ E3). done. }
  split; [done|]. split; [by rewrite U3|lia].
Qed.

(** How many rounds the loop takes. *)
Definition rounds (force allow_delay : bool) (s : DBImpl * W) : nat :=
  (if allow_delay then 1 else 0) +
  (if negb force && bool_decide (default 0 (mem_usage capacity s.1) ≤ write_buffer_size) then 1 else μ s + 2).

Lemma new_log_sound s : sound s → ∃ n h s1 s2 s3,
  on_versions (λ vs, mret (NewFileNumber vs)) s = Some (n, s1) ∧ env (NewWritableFile (LogFileName dbname_ n)) s1 = Some (inr h, s2) ∧
  (_ ← switch_memtable h n; MaybeScheduleCompaction) s2 = Some ((), s3) ∧ sound s3 ∧
  mem_usage capacity s3.1 = Some (ApproximateMemoryUsage capacity (MemTable.Ref new_MemTable)).
Proof.
  destruct s as [d w]. intros Hs. set (n := next_file_number_ (versions_ d)).
  destruct (re_NewWritable (LogFileName dbname_ n) w (so_inv _ Hs)) as (h & w1 & E1 & Hi1 & _ & Hf1 & Hw1).
  destruct (switch_sound h n d w w1 _ Hs eq_refl E1 Hi1 Hf1 Hw1 eq_refl) as (s2 & E2 & S2 & U2 & _).
  destruct (schedule_sound s2 S2) as (s3 & E3 & S3 & U3).
  exists n, h, (with_versions (NewFileNumber (versions_ d)).2 d, w), (with_versions (NewFileNumber (versions_ d)).2 d, w1), s3.
  split; [done|]. split; [by apply env_Some|]. split; [by rewrite (M_bind_Some _ _ _ _ _ E2)|]. split; [done|]. by rewrite U3.
Qed.

Lemma loop_returns fuel force allow_delay s : sound s → (rounds force allow_delay s ≤ fuel)%nat →
  ∃ st s', MakeRoom_loop fuel force allow_delay s = Some (st, s') ∧ sound s'.
Proof.
  revert force allow_delay s. induction fuel as [|fuel IH]; intros force allow_delay s Hs Hf.
  { unfold rounds in Hf. destruct (_ && _) in Hf; lia. }
  destruct (so_current _ Hs) as (v & _ & _ & Hv). destruct (mem_usage_some _ Hs) as [u Hu].
  cbn [DbWrite.MakeRoom_loop]. db_step. rewrite (lift_bind v) by done. rewrite (lift_bind u) by done. change (id s.1) with s.1.
  unfold rounds in Hf. rewrite Hu in Hf. cbn [default from_option id] in Hf.
  destruct (negb (ok _)); [by eexists _, _|].
  destruct (allow_delay && _) eqn:Ea.
  { apply andb_true_iff in Ea as [-> _]. destruct (sleep_progress 1000 s Hs) as (s' & Es & Hs' & Eu & Hm).
    rewrite (M_bind_Some _ _ _ _ _ Es). apply IH; [done|]. unfold rounds. rewrite Eu, Hu. cbn [default from_option id].
    destruct (negb force && _); lia. }
  destruct (negb force && _); [by eexists _, _|].
  assert (Hwait : stalled s.1 = true → ∃ st s', (_ ← others; MakeRoom_loop fuel force allow_delay) s = Some (st, s') ∧ sound s').
  { intros Hst. destruct (others_progress s Hs) as (s' & Es & Hs' & Eu & _ & Hm). specialize (Hm Hst).
    rewrite (M_bind_Some _ _ _ _ _ Es). apply IH; [done|]. unfold rounds. destruct (negb force && _); destruct allow_delay; lia. }
  unfold stalled in Hwait. rewrite Hv in Hwait. destruct (bool_decide (is_Some _)); [by apply Hwait|].
  destruct (bool_decide (kL0_StopWritesTrigger ≤ _)); [by apply Hwait|]. clear Hwait.
  destruct (new_log_sound s Hs) as (n & h & s1 & s2 & s3 & E1 & E2 & E3 & S3 & U3).
  rewrite (M_bind_Some _ _ _ _ _ E1), (M_bind_Some _ _ _ _ _ E2). cbn iota. apply M_bind_inv in E3 as ([] & s2' & E3 & E4).
  rewrite (M_bind_Some _ _ _ _ _ E3), (M_bind_Some _ _ _ _ _ E4). apply IH; [done|].
  unfold rounds. rewrite U3. cbn [default from_option id negb andb]. rewrite bool_decide_true by done. destruct allow_delay; lia.
Qed.

(** C38: a write gets on. If the other threads get on while a writer waits for
    them (every time they run, what they have left to do gets less), then
    [MakeRoomForWrite] returns, after as many rounds of its loop as they have
    left to do and three, and then there is room or an error. *)
Theorem MakeRoomForWrite_returns force s :
  sound s → ∃ st s', MakeRoomForWrite (μ s + 3) force s = Some (st, s') ∧ sound s' ∧ made_room st s'.
Proof.
  intros Hs. destruct (loop_returns (μ s + 3) force (negb force) s Hs) as (st & s' & E1 & Hs').
  { unfold rounds. destruct (negb force && bool_decide _), (negb force); lia. }
  exists st, s'. split; [done|]. split; [done|]. by eapply MakeRoom_made.
Qed.
End Liveness.
End Room.

Module Example.
(** The other threads write the memtable [imm_] and compact level 0. *)
Definition compact (d : DBImpl (E := InMemoryEnv) (D := DbFiles.Example.OneProcess)) : DBImpl :=
  with_versions (AppendVersion (versions_ d) DbFiles.Example.v) (with_mems (set_imm None) d).

Definition others : DB (E := InMemoryEnv) (D := DbFiles.Example.OneProcess) () := modify compact.

Definition left_to_do (s : DBImpl (E := InMemoryEnv) (D := DbFiles.Example.OneProcess) * MemWorld) : nat :=
  if stalled s.1 then 1 else 0.

(** A database without a log whose memtable is still to be written. *)
Definition d : DBImpl (E := InMemoryEnv) (D := DbFiles.Example.OneProcess) :=
  with_mems (λ m, set_tables (<[1%nat := MemTable.Ref (new_MemTable (A := BumpAllocator))]> (tables m)) (set_imm (Some 1%nat) m)) (init_DBImpl (A := BumpAllocator) false false (str "db")).
End Example.

#[export] Instance OneProcess_laws :
  DbEnvLaws DbFiles.Example.OneProcess Mem.mem_inv Mem.mem_files Mem.mem_writing Mem.mem_reading.
Proof. split; intros; eexists; by repeat split. Qed.

Lemma compact_stalled (d : DBImpl (E := InMemoryEnv) (D := DbFiles.Example.OneProcess)) v :
  versions_wf (versions_ d) v → stalled (Example.compact d) = false.
Proof.
  intros Hv. destruct (AppendVersion_wf _ _ DbFiles.Example.v Hv) as (_ & _ & Hc). unfold stalled. cbn [versions_ Example.compact with_versions].
  rewrite Hc. by vm_compute.
Qed.

(** Under any environment the room is looked for in the same way. *)
Lemma MakeRoomForWrite_returns_witness :
  ∃ st s', MakeRoomForWrite (P := UnalignedPlacement) (A := BumpAllocator) (λ _, 0) 4096 (str "db") Example.others
      4 true (Example.d, NewMemEnv) = Some (st, s') ∧
    made_room (λ _, 0) 4096 (str "db") st s'.
Proof.
  edestruct (MakeRoomForWrite_returns (P := UnalignedPlacement) (A := BumpAllocator)
    (RE := Mem.InMemoryEnv_reliable) (λ _, 0) 4096 (str "db") Example.others Example.left_to_do) with (force := true) (s := (Example.d, NewMemEnv)) as (st & s' & E1 & _ & H).
  - intros [d w] [Hi [v Hv] Hm Hn Hl]. cbn [fst snd] in *. exists (Example.compact d, w). split; [done|].
    assert (Hs : Example.left_to_do (Example.compact d, w) = 0%nat) by (unfold Example.left_to_do; cbn [fst]; by rewrite (compact_stalled d v)).
    split; [|split; [done|]].
    + assert (En : next_file_number_ (versions_ (Example.compact d)) = next_file_number_ (versions_ d))
        by (cbn [versions_ Example.compact with_versions]; unfold AppendVersion; by destruct (current_ _)).
      split; cbn [fst snd]; rewrite ?En; try done. exists DbFiles.Example.v. by apply (AppendVersion_wf _ v).
    + rewrite Hs. split; [lia|]. unfold Example.left_to_do. cbn [fst]. intros ->. lia.
  - intros n [d w] w' [= <-]. done.
  - by vm_compute.
  - split; [apply Mem.mem_inv_init| | | |done].
    + exists new_Version. split; [decide_now|]. split; [decide_now|done].
    + by eexists.
    + unfold in_w. cbn. lia.
  - exists st, s'. split; [exact E1|exact H].
Defined.
