(* ===== verification/DbRead.v ===== *)
(** Reading from the database: lookups, iterators, snapshots and properties of
    [db/db_impl.cc].

    An iterator over a memtable is over the list as it is when the iterator is
    made; what is inserted later has larger sequence numbers. The files of a
    version stay as they are while it is referenced, so that an iterator over
    them is one in the state of the environment in which it is made. *)
From stdpp Require Import gmap.
From S2P Require Import Prelude Coding Status Comparator Logging Env DbFormat Random Arena Iterator TwoLevelIterator MemTable Merger DbIter VersionEdit Version VersionSet Snapshot Builder DbState.

Section Read.
Context {W : Type} {E : Env W} {D : DbEnv W} {T : TableCache W} {A : BlockAllocator} {C : Comparator}.
Context (others : DB ()).

(** The state of the environment. *)
Definition world : DB W := λ s, Some (s.2, s).

Definition ref_version (p : nat) : DB () := modify (λ d, with_versions (VersionSet.Ref (versions_ d) p) d).
Definition unref_version (p : nat) : DB () := modify (λ d, with_versions (VersionSet.Unref (versions_ d) p) d).

(** The references that a reader has. *)
Definition take_refs (mem : nat) (imm : option nat) (p : nat) : DB () :=
  _ ← mem_Ref mem; _ ← when_some imm mem_Ref; ref_version p.
Definition drop_refs (mem : nat) (imm : option nat) (p : nat) : DB () :=
  _ ← mem_Unref mem; _ ← when_some imm mem_Unref; unref_version p.

(** The sequence number a read is done at. *)
Definition read_sequence (options : ReadOptions) (d : DBImpl) : option Z :=
  match read_snapshot options with
  | Some s => snapshot_number s (snapshots_ d)
  | None => Some (last_sequence_ (versions_ d))
  end.

(** ** Lookups *)

Definition memtable (a : nat) : DB MemTable := m ← gets (λ d, tables (mems d) !! a); lift m.

(** What is done without the mutex: the memtables, then the files. *)
Definition read_files (options : ReadOptions) (p : nat) (lkey : LookupKey) (value : bytes) :
    DB (Status * bytes * option GetStats) :=
  v ← gets (λ d, find_version (versions_ d) p);
  v ← lift v;
  w ← world;
  '(s, value, stats) ← lift (Version.Get (user_comparator := C) (cache_Get w options) v lkey value);
  mret (s, value, Some stats).

Definition read_imm (options : ReadOptions) (imm : option nat) (p : nat) (lkey : LookupKey) (value : bytes) :
    DB (Status * bytes * option GetStats) :=
  match imm with
  | Some a =>
      m ← memtable a;
      '(found, value, s) ← lift (MemTable.Get (C := C) m lkey value Status_OK);
      if (found : bool) then mret (s, value, None) else read_files options p lkey value
  | None => read_files options p lkey value
  end.

Definition read (options : ReadOptions) (mem : nat) (imm : option nat) (p : nat) (lkey : LookupKey) (value : bytes) :
    DB (Status * bytes * option GetStats) :=
  m ← memtable mem;
  '(found, value, s) ← lift (MemTable.Get (C := C) m lkey value Status_OK);
  if (found : bool) then mret (s, value, None) else read_imm options imm p lkey value.

(** The file [number] of a level is one object in all versions. *)
Definition set_allowed (level : nat) (n allowed : Z) (v : Version) : Version :=
  {| files_ := alter (fmap (λ f, if decide (number f = n) then
                                   {| refs := refs f; allowed_seeks := allowed; number := number f; file_size := file_size f;
                                      smallest := smallest f; largest := largest f |}
                                 else f)) level (files_ v);
     file_to_compact_ := file_to_compact_ v; compaction_level_ := compaction_level_ v; compaction_score_ := compaction_score_ v |}.

Definition charge_versions (level : nat) (n allowed : Z) (vs : VersionSet) : VersionSet :=
  set_versions vs
    ((λ v, {| address := address v; refs_ := VersionSet.refs_ v; version := set_allowed level n allowed (version v) |}) <$>
      VersionSet.versions_ vs)
    (current_ vs) (next_address vs).

(** [version->UpdateStats(stats)] *)
Definition update_stats (p : nat) (stats : GetStats) : DB bool :=
  match stats with
  | None => mret false
  | Some (f, level) =>
      v ← gets (λ d, find_version (versions_ d) p);
      v ← lift v;
      f' ← lift (snd <$> list_find (λ g, number g = number f) (level_files v level));
      let '(allowed, v, result) := UpdateStats (allowed_seeks f') v stats in
      _ ← modify (λ d, with_versions (charge_versions level (number f) allowed (update_version p (λ _, v) (versions_ d))) d);
      mret result
  end.

Definition schedule_if (b : bool) : DB () := if b then MaybeScheduleCompaction else mret ().

Definition db_Get (options : ReadOptions) (key value : bytes) : DB (Status * bytes) :=
  d ← gets id;
  snapshot ← lift (read_sequence options d);
  let mem := mem_ (mems d) in
  let imm := imm_ (mems d) in
  p ← lift (current_ (versions_ d));
  _ ← take_refs mem imm p;
  '(s, value, stats) ← unlocked others (read options mem imm p (mkLookupKey key snapshot) value);
  update ← (match stats with Some stats => update_stats p stats | None => mret false end);
  _ ← schedule_if update;
  _ ← drop_refs mem imm p;
  mret (s, value).

(** ** Iterators *)

(** [fuel] bounds the number of files in a level. *)
Context (fuel : nat).

Abbreviation Tables := (TableIterator + ConcatIterator (I := TableIterator))%type.

Definition tables_Iterator (options : ReadOptions) (w : W) : Iterator Tables :=
  sum_Iterator (IJ := ConcatIterator_Iterator (user_comparator := C) (cache_NewIterator w options) fuel).

Abbreviation Child := (MemTableIterator + Tables)%type.

Definition Child_Iterator (options : ReadOptions) (w : W) : Iterator Child := sum_Iterator (IJ := tables_Iterator options w).

Definition InternalIterator : Type := EmptyIterator + Child + MergingIterator Child.

(** What [CleanupIteratorState] releases. *)
Record IterState := { is_version : nat; is_mem : nat; is_imm : option nat }.

Definition CleanupIteratorState (state : IterState) : DB () :=
  drop_refs (is_mem state) (is_imm state) (is_version state).

Definition memtable_iterator (a : nat) : DB Child := m ← memtable a; mret (inl (NewIterator m)).

(** The iterator, what to release, the last sequence number and a seed. *)
Definition NewInternalIterator (options : ReadOptions) : DB (InternalIterator * IterState * Z * Z) :=
  d ← gets id;
  let mem := mem_ (mems d) in
  let imm := imm_ (mems d) in
  it ← memtable_iterator mem;
  _ ← mem_Ref mem;
  list ← (match imm with
          | Some a => it' ← memtable_iterator a; _ ← mem_Ref a; mret [it; it']
          | None => mret [it]
          end);
  p ← lift (current_ (versions_ d));
  v ← lift (current (versions_ d));
  w ← world;
  files ← lift (AddIterators (user_comparator := C) (cache_NewIterator w options) v []);
  internal_iter ← lift (NewMergingIterator (II := Child_Iterator options w) (list ++ (inr <$> files)));
  _ ← ref_version p;
  _ ← modify (λ d, with_seed (u32 (seed_ d + 1)) d);
  seed ← gets seed_;
  mret (internal_iter, {| is_version := p; is_mem := mem; is_imm := imm |}, last_sequence_ (versions_ d), seed).

Definition TEST_NewInternalIterator : DB (InternalIterator * IterState) :=
  '(it, state, _, _) ← NewInternalIterator default_ReadOptions; mret (it, state).

(** A snapshot that is read at is live, also later. *)
Definition db_NewIterator (options : ReadOptions) : DB (DBIter InternalIterator * IterState) :=
  '(iter, state, latest_snapshot, seed) ← NewInternalIterator options;
  snapshot ← (match read_snapshot options with
              | Some s => n ← gets (λ d, snapshot_number s (snapshots_ d)); lift n
              | None => mret latest_snapshot
              end);
  mret (NewDBIterator iter snapshot seed, state).

Definition db_RecordReadSample (key : bytes) : DB () :=
  d ← gets id;
  p ← lift (current_ (versions_ d));
  v ← lift (current (versions_ d));
  update ← update_stats p (sampled_file (user_comparator := C) v key);
  schedule_if update.

(** ** Snapshots *)

Definition GetSnapshot : DB nat :=
  d ← gets id;
  '(s, l) ← lift (Snapshot.New (last_sequence_ (versions_ d)) (snapshots_ d));
  _ ← modify (with_snapshots l);
  mret s.

Definition ReleaseSnapshot (s : nat) : DB () :=
  d ← gets id;
  l ← lift (Snapshot.Delete s (snapshots_ d));
  modify (with_snapshots l).

(** ** Properties *)

(** ["%*d"] for a string of digits. *)
Definition pad (n : nat) (s : bytes) : bytes := replicate (n - length s) (b8 32) ++ s.

(** ["%d"] of an [int] *)
Definition format_d (n : Z) : bytes := if decide (n < 0) then str "-" ++ dec (- n) else dec n.

(** ["%.0f"] of [num / den]: to the nearest integer, a tie to the even one. The
    numerators are below 2^53, for which the rounding of the quotient to a
    [double] does not change the result. *)
Definition round_even (num den : Z) : Z :=
  let q := num / den in
  let r := 2 * (num mod den) in
  if decide (r < den) then q else if decide (den < r) then q + 1 else if Z.even q then q else q + 1.

Definition format_f0 (num den : Z) : bytes :=
  if decide (num < 0) then str "-" ++ dec (round_even (- num) den) else dec (round_even num den).

Definition stats_row (v : Version) (level : nat) (st : CompactionStats) : bytes :=
  let files := NumLevelFiles v level in
  if bool_decide (0 < micros st) || bool_decide (0 < files) then
    snprintf 200 (pad 3 (format_d (Z.of_nat level)) ++ str " " ++ pad 8 (format_d files) ++ str " " ++
      pad 8 (format_f0 (NumLevelBytes v level) 1048576) ++ str " " ++ pad 9 (format_f0 (micros st) 1000000) ++ str " " ++
      pad 8 (format_f0 (bytes_read st) 1048576) ++ str " " ++ pad 9 (format_f0 (bytes_written st) 1048576) ++ [b8 10])
  else [].

Definition stats_header : bytes :=
  str "                               Compactions" ++ [b8 10] ++
  str "Level  Files Size(MB) Time(sec) Read(MB) Write(MB)" ++ [b8 10] ++
  str "--------------------------------------------------" ++ [b8 10].

Definition drop_prefix (prefix in_ : bytes) : bytes := zdrop (zlen prefix) in_.

Definition GetProperty (property : bytes) : DB (bool * bytes) :=
  d ← gets id;
  v ← lift (current (versions_ d));
  let prefix := str "leveldb." in
  let in_ := drop_prefix prefix property in
  let files_prefix := str "num-files-at-level" in
  mret
    (if negb (Slice_starts_with property prefix) then (false, [])
     else if Slice_starts_with in_ files_prefix then
       match ConsumeDecimalNumber (drop_prefix files_prefix in_) with
       | (true, Some level, []) =>
           if decide (kNumLevels ≤ level) then (false, [])
           else (true, snprintf 100 (format_d (NumLevelFiles v (Z.to_nat level))))
       | _ => (false, [])
       end
     else if Slice_eq in_ (str "stats") then
       (true, snprintf 200 stats_header ++ mjoin (imap (stats_row v) (stats_ (background d))))
     else if Slice_eq in_ (str "sstables") then (true, Version_DebugString v)
     else (false, [])).

Definition TEST_MaxNextLevelOverlappingBytes : DB Z :=
  d ← gets id;
  v ← lift (current (versions_ d));
  lift (MaxNextLevelOverlappingBytes (user_comparator := C) v).

Definition approximate_size (w : W) (v : Version) (range : bytes * bytes) : option Z :=
  let k1 := InternalKey range.1 kMaxSequenceNumber kValueTypeForSeek in
  let k2 := InternalKey range.2 kMaxSequenceNumber kValueTypeForSeek in
  start ← ApproximateOffsetOf (user_comparator := C) (cache_ApproximateOffsetOf w) v k1;
  limit ← ApproximateOffsetOf (user_comparator := C) (cache_ApproximateOffsetOf w) v k2;
  Some (if decide (start ≤ limit) then limit - start else 0).

Definition GetApproximateSizes (ranges : list (bytes * bytes)) : DB (list Z) :=
  d ← gets id;
  p ← lift (current_ (versions_ d));
  _ ← ref_version p;
  sizes ← unlocked others (v ← gets (λ d, find_version (versions_ d) p); v ← lift v; w ← world;
                           lift (mapM (approximate_size w v) ranges));
  _ ← unref_version p;
  mret sizes.
End Read.
