(* ===== verification/DbView.v ===== *)
(** Reads and the user's view: what [DBImpl::Get] and [DBImpl::NewIterator] of
    [db/db_impl.cc] answer is the view that the writes in the memtables and the
    entries of the files give at the sequence number of the read. *)
From Stdlib Require Import Sorting.Sorted.
From stdpp Require Import gmap.
From S2P Require Import Prelude SortedLists Coding Status Comparator Env MemEnv DbFormat Random Arena Iterator TwoLevelIterator WriteBatch MemTable Merger DbIter VersionEdit Version VersionRead VersionSet Snapshot Builder DbState DbFiles DbRead.

(** ** Layers *)

Section Layers.
Context {C : Comparator} {V : bytes → Prop} {CL : ComparatorLaws C V}.

(** The sequence number of an entry. *)
Definition seqno (e : entry) : Z := Z.shiftr (tag e) 8.

Lemma seqno_lt a b : seqno a < seqno b → tag a < tag b.
Proof. unfold seqno. rewrite !shiftr_div by lia. change (2 ^ 8) with 256. intros H. Z.div_mod_to_equations. lia. Qed.

Lemma write_entry_facts w : write_valid (V := V) w →
  let e := write_entry_of w in
  uk e = op_key w.2 ∧ seqno e = w.1 ∧ ty e = op_type w.2 ∧ e.2 = op_value w.2 ∧ tag e = w.1 * 256 + op_type w.2.
Proof.
  intros [Hw _] e. destruct (write_ikey_parts w Hw) as (U & Tg & _).
  assert (tag e = w.1 * 256 + op_type w.2) as He by exact Tg.
  assert (0 ≤ op_type w.2 < 256) as Ht by (destruct (op_type_ok w.2) as [-> | ->]; by vm_compute).
  splits; [exact U| | |done|exact He].
  - unfold seqno. rewrite He, shiftr_div by lia. change (2 ^ 8) with 256. Z.div_mod_to_equations. lia.
  - unfold ty, ExtractValueType. change (ExtractTag e.1) with (tag e). rewrite He, land_255. Z.div_mod_to_equations. lia.
Qed.

(** The entries of the writes [h]. *)
Definition entries_of (h : list MemTable.Write) : list entry := write_entry_of <$> h.

Definition layer_newer (es1 es2 : list entry) : Prop := ∀ a b, a ∈ es1 → b ∈ es2 → seqno b < seqno a.

(** Entries that the snapshot does not see do not count. *)
Lemma view_skip s es1 es2 u val :
  (∀ x, x ∈ es1 → uk x = u → ¬ seen s x) → (u, val) ∈ user_view s (es1 ++ es2) ↔ (u, val) ∈ user_view s es2.
Proof.
  intros Hn. rewrite !view_elem. split.
  - intros (e & [He|He]%elem_of_app & (Hs & Ht & Hm) & Hu & Hv); [by destruct (Hn e He Hu)|].
    exists e. splits; [done| |done|done]. apply list.Forall_app in Hm as [_ Hm]. by split.
  - intros (e & He & (Hs & Ht & Hm) & Hu & Hv). exists e. splits; [apply elem_of_app; by right| |done|done].
    split; [done|]. split; [done|]. apply list.Forall_app. split; [|done]. apply list.Forall_forall. intros x Hx Hxu Hxs.
    destruct (Hn x Hx); [by rewrite Hxu|done].
Qed.

Lemma last_write_spec h u s :
  StronglySorted (λ a b : MemTable.Write, a.1 < b.1) h →
  match last_write h u s with
  | Some w => w ∈ h ∧ op_key w.2 = u ∧ w.1 ≤ s ∧ ∀ w', w' ∈ h → op_key w'.2 = u → w'.1 ≤ s → w' = w ∨ w'.1 < w.1
  | None => ∀ w, w ∈ h → op_key w.2 = u → ¬ w.1 ≤ s
  end.
Proof.
  intros Hs. unfold last_write. set (fl := filter _ h).
  assert (Hfl : ∀ w, w ∈ fl ↔ (op_key w.2 = u ∧ w.1 ≤ s) ∧ w ∈ h) by (intros w; unfold fl; by rewrite list_elem_of_filter).
  assert (Hsf : StronglySorted (λ a b : MemTable.Write, a.1 < b.1) fl) by (eapply sorted_sublist; [exact Hs|apply sublist_filter]).
  destruct (list.last fl) as [w|] eqn:El.
  - apply last_Some in El as [l El].
    assert (Hw : w ∈ fl) by (rewrite El; apply elem_of_app; right; by left).
    apply Hfl in Hw as [[Hk Hle] Hin]. splits; [done..|]. intros w' Hw' Hk' Hle'.
    assert (Hf : w' ∈ fl) by by apply Hfl.
    rewrite El in Hf, Hsf. apply elem_of_app in Hf as [Hf|Hf%list_elem_of_singleton]; [|by left]. right.
    apply sorted_app in Hsf as (_ & _ & Hc). by apply Hc; [|left].
  - apply last_None in El. intros w Hw Hk Hle. assert (w ∈ fl) as Hf by by apply Hfl.
    rewrite El in Hf. by apply elem_of_nil in Hf.
Qed.

(** A layer of writes above older entries. *)
Lemma layer_view h es u s :
  StronglySorted (λ a b : MemTable.Write, a.1 < b.1) h → Forall (write_valid (V := V)) h → layer_newer (entries_of h) es →
  match last_write h u s with
  | Some w => ∀ val, (u, val) ∈ user_view s (entries_of h ++ es) ↔ op_type w.2 = kTypeValue ∧ val = op_value w.2
  | None => ∀ val, (u, val) ∈ user_view s (entries_of h ++ es) ↔ (u, val) ∈ user_view s es
  end.
Proof.
  intros Hs Hv Hn. pose proof (last_write_spec h u s Hs) as Hl. rewrite list.Forall_forall in Hv.
  destruct (last_write h u s) as [w|].
  - destruct Hl as (Hin & Hk & Hle & Hmax). destruct (write_entry_facts w (Hv w Hin)) as (F1 & F2 & F3 & F4 & _).
    rewrite <- F3, <- F4, <- Hk, <- F1. apply view_newest.
    + apply elem_of_app. left. by apply list_elem_of_fmap_2.
    + unfold seen. fold (seqno (write_entry_of w)). by rewrite F2.
    + intros x [Hx|Hx]%elem_of_app Hxu Hxs; [|right; apply seqno_lt, Hn; [by apply list_elem_of_fmap_2|done]].
      apply list_elem_of_fmap in Hx as (w' & -> & Hw'). destruct (write_entry_facts w' (Hv w' Hw')) as (G1 & G2 & _).
      unfold seen in Hxs. fold (seqno (write_entry_of w')) in Hxs. rewrite G2 in Hxs.
      destruct (Hmax w' Hw') as [->|Hlt]; [congruence|done|by left|]. right. apply seqno_lt. by rewrite F2, G2.
  - intros val. apply view_skip. intros x (w & -> & Hw)%list_elem_of_fmap Hxu Hxs.
    destruct (write_entry_facts w (Hv w Hw)) as (F1 & F2 & _). apply (Hl w Hw); [congruence|].
    unfold seen in Hxs. fold (seqno (write_entry_of w)) in Hxs. by rewrite F2 in Hxs.
Qed.

Lemma view_perm s es es' u val : es ≡ₚ es' → (u, val) ∈ user_view s es ↔ (u, val) ∈ user_view s es'.
Proof.
  intros Hp. rewrite !view_elem. unfold visible. setoid_rewrite Hp. done.
Qed.

(** Writes above the sequence number of a read do not change what it sees. *)
Lemma new_writes_unseen h h' rest s u val :
  Forall (write_valid (V := V)) h' → Forall (λ w, s < w.1) h' →
  (u, val) ∈ user_view s (entries_of (h ++ h') ++ rest) ↔ (u, val) ∈ user_view s (entries_of h ++ rest).
Proof.
  intros Hv Hn. rewrite (view_perm s _ (entries_of h' ++ entries_of h ++ rest)).
  - apply view_skip. intros x (w & -> & Hw)%list_elem_of_fmap _ Hs. rewrite list.Forall_forall in Hv, Hn.
    destruct (write_entry_facts w (Hv w Hw)) as (_ & F & _). specialize (Hn w Hw). cbn beta in Hn.
    unfold seen in Hs. fold (seqno (write_entry_of w)) in Hs. rewrite F in Hs. lia.
  - unfold entries_of. rewrite fmap_app, <- app_assoc. solve_Permutation.
Qed.

(** What a lookup in the memtable answers, and what that says of the view. *)
Definition view_answer (view : list entry) (u value : bytes) (r : Status) (value' : bytes) : Prop :=
  r = Status_OK ∧ (∀ val, (u, val) ∈ view ↔ val = value') ∨
  r = NotFound [] [] ∧ value' = value ∧ ∀ val, (u, val) ∉ view.

Lemma memtable_view {A : BlockAllocator} (m : MemTable) h es u s value :
  Mem_hist (V := V) m h → V u → seq_ok s → zlen u + 8 < 2 ^ 32 → layer_newer (entries_of h) es →
  ∃ found value' r, MemTable.Get (C := C) m (mkLookupKey u s) value Status_OK = Some (found, value', r) ∧
    if (found : bool) then view_answer (user_view s (entries_of h ++ es)) u value r value'
    else value' = value ∧ ∀ val, (u, val) ∈ user_view s (entries_of h ++ es) ↔ (u, val) ∈ user_view s es.
Proof.
  intros (Hs & ws & Hm & Hp) Vu Hseq Hl Hn. destruct (Get_Holds m ws u s value Status_OK Hm Vu Hseq Hl) as (r & Hr & ->).
  rewrite (newest_last ws h u s r Hs Hp Hr). assert (Hv : Forall (write_valid (V := V)) h).
  { destruct Hm as [Hv _]. by rewrite <- Hp. }
  pose proof (layer_view h es u s Hs Hv Hn) as Hview. destruct (last_write h u s) as [[q [k v|k]]|]; cbn [answer op_type op_value snd] in *.
  - eexists _, _, _. split; [done|]. left. split; [done|]. intros val. rewrite Hview. tauto.
  - eexists _, _, _. split; [done|]. right. splits; [done|done|]. intros val. rewrite Hview. by intros [? _].
  - eexists _, _, _. by split.
Qed.
End Layers.

(** ** Lookups *)

Section Get.
Context {C : Comparator} {V : bytes → Prop} {CL : ComparatorLaws C V}.
Context {W : Type} {E : Env W} {D : DbEnv W} {T : TableCache W} {A : BlockAllocator}.
(** The entries of a table file. *)
Context (content : FileMetaData → list entry).
Context (others : DB ()) (options : ReadOptions).

(** The entries of the memtables and of the version, newest layer first. *)
Definition db_entries (hm hi : list MemTable.Write) (es : list entry) : list entry := entries_of hm ++ entries_of hi ++ es.

(** The memtables at [mem] and [imm] and the version at [p] have the writes [hm]
    and [hi] and the entries [es], and can be read; [levels] are the numbers of
    the files. *)
Record readable (mem : nat) (imm : option nat) (p : nat) (levels : list (list Z)) (s : DBImpl * W)
    (hm hi : list MemTable.Write) (es : list entry) : Prop := {
  rd_mem : ∃ m, tables (mems s.1) !! mem = Some m ∧ Mem_hist (V := V) m hm;
  rd_imm : match imm with Some a => a ≠ mem ∧ ∃ m, tables (mems s.1) !! a = Some m ∧ Mem_hist (V := V) m hi | None => hi = [] end;
  rd_version : ∃ v, find_version (versions_ s.1) p = Some v ∧ version_ok (C := C) (V := V) content v ∧
    all_entries content v ≡ₚ es ∧ map number <$> files_ v = levels;
  rd_mem_newer : layer_newer (entries_of hm) (entries_of hi ++ es);
  rd_imm_newer : layer_newer (entries_of hi) es;
  rd_cache : TableReads (C := C) (V := V) content (cache_Get s.2 options);
  rd_current : is_Some (current (versions_ s.1));
  rd_schedule : is_Some (Schedule s.2);
}.

(** Other threads leave what a reader has references on alone, except that
    there may be new writes in the memtable, above the sequence number [snap]. *)
Definition steady (pinned : DBImpl * W → Prop) (snap : Z) (mem : nat) (imm : option nat) (p : nat) (levels : list (list Z)) : Prop :=
  ∀ s hm hi es, pinned s → readable mem imm p levels s hm hi es →
    ∃ s' h', others s = Some ((), s') ∧ pinned s' ∧ readable mem imm p levels s' (hm ++ h') hi es ∧ Forall (λ w, snap < w.1) h'.

(** The files that are charged are files that were searched. *)
Lemma Get_loop_stats (tc : Z → Z → bytes → option (Status * option entry)) user_key ikey value last stats l r value' f :
  Get_loop (user_comparator := C) tc user_key ikey value last stats l = Some (r, value', Some f) →
  f ∈ l ∨ last = Some f ∨ stats = Some f.
Proof.
  revert value last stats. induction l as [|[g level] l IH]; intros value last stats; cbn [Get_loop].
  { intros [= _ _ ->]. by right; right. }
  destruct (tc _ _ _) as [[s saved]|]; [|done]. cbn [mbind option_bind].
  set (stats' := match last, stats with Some _, None => _ | _, _ => _ end).
  assert (Hs : stats' = Some f → last = Some f ∨ stats = Some f) by (unfold stats'; destruct last, stats; auto).
  destruct (match saved with Some _ => _ | None => _ end) as [state value1].
  destruct (negb _); [intros [= _ _ H]; by right; auto|].
  destruct state; [|intros [= _ _ H]; by right; auto..].
  intros [?|[[= <-]|?]]%IH; [by left; right|by left; left|by right; auto].
Qed.

(** *** Versions and references *)

Lemma find_version_map (g : LiveVersion → LiveVersion) l p :
  (∀ v, address (g v) = address v) →
  (version ∘ snd <$> list_find (λ v, address v = p) (g <$> l)) =
  (λ v, version (g v)) ∘ snd <$> list_find (λ v, address v = p) l.
Proof.
  intros Hg. rewrite list_find_fmap. cbn.
  rewrite (list_find_ext ((λ v, address v = p) ∘ g) (λ v, address v = p)) by (intros v; cbn; by rewrite Hg).
  by destruct (list_find _ l) as [[i v]|].
Qed.

Lemma find_version_ref (vs : VersionSet (E := E)) q p : find_version (VersionSet.Ref vs q) p = find_version vs p.
Proof.
  unfold find_version, VersionSet.Ref, change_refs. cbn [VersionSet.versions_ set_versions].
  rewrite find_version_map by (intros v; by case_decide). destruct (list_find _ _) as [[i v]|]; cbn; [|done]. by case_decide.
Qed.

Lemma find_version_charge (vs : VersionSet (E := E)) level n a p :
  find_version (charge_versions level n a vs) p = set_allowed level n a <$> find_version vs p.
Proof.
  unfold find_version, charge_versions. cbn [VersionSet.versions_ set_versions].
  rewrite find_version_map by done. by destruct (list_find _ _) as [[i v]|].
Qed.

Lemma find_version_update (vs : VersionSet (E := E)) q f p :
  is_Some (find_version vs p) → is_Some (find_version (update_version q f vs) p).
Proof.
  unfold find_version, update_version. cbn [VersionSet.versions_ set_versions]. intros [v Hv].
  rewrite find_version_map by (intros u; by case_decide). destruct (list_find _ _) as [[i u]|]; [|done]. by eexists.
Qed.

Lemma current_charge (vs : VersionSet (E := E)) level n a q f :
  is_Some (current vs) → is_Some (current (charge_versions level n a (update_version q f vs))).
Proof.
  unfold current. change (current_ (charge_versions level n a (update_version q f vs))) with (current_ vs).
  destruct (current_ vs) as [p|]; cbn [mbind option_bind]; [|done]. intros H. rewrite find_version_charge. apply fmap_is_Some.
  by apply find_version_update.
Qed.

Lemma readable_same mem imm p levels s s' hm hi es :
  tables (mems s'.1) = tables (mems s.1) → (∀ q, find_version (versions_ s'.1) q = find_version (versions_ s.1) q) →
  current_ (versions_ s'.1) = current_ (versions_ s.1) → s'.2 = s.2 →
  readable mem imm p levels s hm hi es → readable mem imm p levels s' hm hi es.
Proof.
  intros Et Ef Ec Ew [H1 H2 H3 H4 H5 H6 H7 H8]. split; rewrite ?Et, ?Ef, ?Ew; try done.
  unfold current in *. rewrite Ec. destruct (current_ (versions_ s.1)) as [q|]; cbn in *; [by rewrite Ef|done].
Qed.

(** A memtable that only got a reference. *)
Lemma mem_Ref_ok a (d : DBImpl) w m : tables (mems d) !! a = Some m →
  ∃ d', mem_Ref a (d, w) = Some ((), (d', w)) ∧ tables (mems d') = <[a := MemTable.Ref m]> (tables (mems d)) ∧
    versions_ d' = versions_ d ∧ snapshots_ d' = snapshots_ d.
Proof. intros Hm. unfold mem_Ref. db_step. rewrite Hm. rewrite (lift_bind m) by done. eexists. by split. Qed.

Lemma mem_Unref_ok a (d : DBImpl) w m : tables (mems d) !! a = Some m →
  ∃ d', mem_Unref a (d, w) = Some ((), (d', w)) ∧ (∀ b, b ≠ a → tables (mems d') !! b = tables (mems d) !! b) ∧ versions_ d' = versions_ d.
Proof.
  intros Hm. unfold mem_Unref. db_step. rewrite Hm. rewrite (lift_bind m) by done. eexists. split; [done|]. split; [|done].
  intros b Hb. cbn. destruct (MemTable.Unref m); [by rewrite lookup_insert_ne by by apply not_eq_sym|].
  by rewrite lookup_delete_ne by by apply not_eq_sym.
Qed.

Lemma readable_Ref a mem imm p levels (d d' : DBImpl) w hm hi es m :
  tables (mems d) !! a = Some m → tables (mems d') = <[a := MemTable.Ref m]> (tables (mems d)) → versions_ d' = versions_ d →
  readable mem imm p levels (d, w) hm hi es → readable mem imm p levels (d', w) hm hi es.
Proof.
  intros Ha Et Ev [(m1 & H1 & H1h) H2 H3 H4 H5 H6 H7 H8]. cbn [fst snd] in *.
  assert (Hold : ∀ b x h, tables (mems d) !! b = Some x → Mem_hist (V := V) x h →
    ∃ y, tables (mems d') !! b = Some y ∧ Mem_hist (V := V) y h).
  { intros b x h Hb Hh. rewrite Et. destruct (decide (b = a)) as [->|Hne].
    - rewrite lookup_insert_eq. eexists. split; [done|]. rewrite Ha in Hb. injection Hb as <-. by eapply Mem_hist_table; [|exact Hh].
    - rewrite lookup_insert_ne by by apply not_eq_sym. by exists x. }
  split; cbn [fst snd]; rewrite ?Ev; try done.
  - by eapply Hold.
  - destruct imm as [b|]; [|done]. destruct H2 as (Hne & x & Hx & Hh). split; [done|]. by eapply Hold.
Qed.

Lemma take_refs_ok mem imm p levels s hm hi es : readable mem imm p levels s hm hi es →
  ∃ s1, take_refs mem imm p s = Some ((), s1) ∧ readable mem imm p levels s1 hm hi es.
Proof.
  destruct s as [d w]. intros R. destruct (rd_mem _ _ _ _ _ _ _ _ R) as (m & Hm & _). cbn [fst] in Hm.
  destruct (mem_Ref_ok mem d w m Hm) as (d1 & E1 & Et1 & Ev1 & _). pose proof (readable_Ref mem mem imm p levels d d1 w hm hi es m Hm Et1 Ev1 R) as R1.
  assert (∃ d2, when_some imm mem_Ref (d1, w) = Some ((), (d2, w)) ∧ readable mem imm p levels (d2, w) hm hi es) as (d2 & E2 & R2).
  { destruct imm as [a|]; [|by exists d1]. destruct (rd_imm _ _ _ _ _ _ _ _ R1) as (_ & x & Hx & _). cbn [fst] in Hx.
    destruct (mem_Ref_ok a d1 w x Hx) as (d2 & E2 & Et2 & Ev2 & _). exists d2. split; [done|]. by eapply readable_Ref. }
  eexists. split.
  { unfold take_refs. rewrite (M_bind_Some _ _ _ _ _ E1), (M_bind_Some _ _ _ _ _ E2). reflexivity. }
  eapply readable_same; [..|exact R2]; [done| |done|done]. intros q. apply find_version_ref.
Qed.

Lemma drop_refs_ok mem imm p s :
  is_Some (tables (mems s.1) !! mem) → match imm with Some a => a ≠ mem ∧ is_Some (tables (mems s.1) !! a) | None => True end →
  ∃ s1, drop_refs mem imm p s = Some ((), s1).
Proof.
  destruct s as [d w]. intros [m Hm] Hi. cbn [fst] in *. destruct (mem_Unref_ok mem d w m Hm) as (d1 & E1 & Et1 & _).
  unfold drop_refs. rewrite (M_bind_Some _ _ _ _ _ E1). destruct imm as [a|]; cbn [when_some]; [|by eexists].
  destruct Hi as [Hne [x Hx]]. rewrite <- Et1 in Hx by done. destruct (mem_Unref_ok a d1 w x Hx) as (d2 & E2 & _).
  rewrite (M_bind_Some _ _ _ _ _ E2). by eexists.
Qed.

(** *** Reading *)

(** The file is one of the version. *)
Definition known_file (levels : list (list Z)) (f : FileMetaData * nat) : Prop :=
  ∃ ns, levels !! f.2 = Some ns ∧ number f.1 ∈ ns.

Definition charged_ok (levels : list (list Z)) (stats : option GetStats) : Prop := ∀ f, stats = Some (Some f) → known_file levels f.

Lemma read_files_ok mem imm p levels s hm hi es u snap value :
  readable mem imm p levels s hm hi es → V u → seq_ok snap → zlen u + 8 < 2 ^ 32 →
  ∃ r value' stats, read_files options p (mkLookupKey u snap) value s = Some ((r, value', stats), s) ∧
    view_answer (user_view snap es) u value r value' ∧ charged_ok levels stats.
Proof.
  intros R Vu Hs Hl. destruct (rd_version _ _ _ _ _ _ _ _ R) as (v & Hv & Hok & Hes & Hlev).
  destruct (Get_view content v u snap value es (cache_Get s.2 options) Hok (rd_cache _ _ _ _ _ _ _ _ R) Vu Hs Hl) as (r & value' & stats & Eg & Hr); [by symmetry|].
  exists r, value', (Some stats). split.
  { unfold read_files. db_step. rewrite Hv. rewrite (lift_bind v) by done. change (world s) with (Some (s.2, s)).
    unfold mbind at 1, M_bind at 1, world. rewrite (lift_bind (r, value', stats)) by done. done. }
  split; [done|]. intros [f level] [= ->]. unfold Version.Get in Eg. apply Get_loop_stats in Eg as [Hf|[?|?]]; [|done..].
  destruct (mkLookupKey_parts u snap Hl) as (_ & Eu & Ek). rewrite Eu, Ek in Hf.
  apply (search_order_elem u snap v) in Hf as [Hl' Hf%search_files_elem]. cbn [fst snd] in *.
  exists (map number (level_files v level)). cbn [fst snd]. split; [|by apply list_elem_of_fmap_2].
  rewrite <- Hlev, list_lookup_fmap. unfold level_files. rewrite <- (vo_levels _ _ Hok) in Hl'.
  destruct (lookup_lt_is_Some_2 _ _ Hl') as [fs Hfs]. rewrite Hfs. cbn. by rewrite nth_lookup, Hfs.
Qed.

Lemma view_answer_ext view view' u value r value' :
  (∀ val, (u, val) ∈ view ↔ (u, val) ∈ view') → view_answer view u value r value' → view_answer view' u value r value'.
Proof. intros Hv [[-> H]|(-> & -> & H)]; [left|right]; splits; try done; intros val; rewrite <- Hv; apply H. Qed.

Lemma memtable_bind {B} a m (k : MemTable → DB B) (s : DBImpl * W) : tables (mems s.1) !! a = Some m → (memtable a ≫= k) s = k m s.
Proof. intros Hm. unfold memtable, mbind, M_bind, gets, lift. cbn [fst snd]. by rewrite Hm. Qed.

(** A layer, and what is read below it. *)
Lemma layer_ok m h es levels u snap value (next : bytes → DB (Status * bytes * option GetStats)) (s : DBImpl * W) :
  Mem_hist (V := V) m h → layer_newer (entries_of h) es → V u → seq_ok snap → zlen u + 8 < 2 ^ 32 →
  (∃ r value' stats, next value s = Some ((r, value', stats), s) ∧ view_answer (user_view snap es) u value r value' ∧ charged_ok levels stats) →
  ∃ r value' stats,
    ('(found, value', st) ← lift (MemTable.Get (C := C) m (mkLookupKey u snap) value Status_OK);
     if (found : bool) then mret (st, value', None) else next value') s = Some ((r, value', stats), s) ∧
    view_answer (user_view snap (entries_of h ++ es)) u value r value' ∧ charged_ok levels stats.
Proof.
  intros Hm Hn Vu Hs Hl Hnext. destruct (memtable_view m h es u snap value Hm Vu Hs Hl Hn) as (found & value' & r & Eg & Hr).
  rewrite (lift_bind _ _ _ _ Eg). destruct found.
  - exists r, value', None. split; [done|]. split; [done|]. by intros f.
  - destruct Hr as [-> Hview]. destruct Hnext as (r' & v' & stats & En & Hans & Hc). exists r', v', stats. split; [done|].
    split; [|done]. eapply view_answer_ext; [|exact Hans]. intros val. by rewrite Hview.
Qed.

Lemma read_ok mem imm p levels s hm hi es u snap value :
  readable mem imm p levels s hm hi es → V u → seq_ok snap → zlen u + 8 < 2 ^ 32 →
  ∃ r value' stats, read options mem imm p (mkLookupKey u snap) value s = Some ((r, value', stats), s) ∧
    view_answer (user_view snap (db_entries hm hi es)) u value r value' ∧ charged_ok levels stats.
Proof.
  intros R Vu Hs Hl. destruct (rd_mem _ _ _ _ _ _ _ _ R) as (m & Hm & Hh). unfold read. rewrite (memtable_bind _ m) by done. unfold db_entries.
  eapply (layer_ok _ _ _ _ _ _ _ (λ value, read_imm options imm p (mkLookupKey u snap) value)); [exact Hh|exact (rd_mem_newer _ _ _ _ _ _ _ _ R)|exact Vu|exact Hs|exact Hl|].
  unfold read_imm. pose proof (rd_imm _ _ _ _ _ _ _ _ R) as Ri. destruct imm as [a|].
  - destruct Ri as (_ & x & Hx & Hxh). rewrite (memtable_bind _ x) by done.
    eapply (layer_ok _ _ _ _ _ _ _ (λ value, read_files options p (mkLookupKey u snap) value)); [exact Hxh|exact (rd_imm_newer _ _ _ _ _ _ _ _ R)|exact Vu|exact Hs|exact Hl|]. by eapply read_files_ok.
  - rewrite Ri. cbn [entries_of fmap list_fmap app]. by eapply read_files_ok.
Qed.

(** *** What is charged *)

Lemma update_stats_ok mem imm p levels s hm hi es stats :
  readable mem imm p levels s hm hi es → charged_ok levels (Some stats) →
  ∃ b s', update_stats p stats s = Some (b, s') ∧ mems s'.1 = mems s.1 ∧ s'.2 = s.2 ∧ is_Some (current (versions_ s'.1)).
Proof.
  intros R Hc. destruct stats as [[f level]|]; [|exists false, s; splits; try done; apply R].
  destruct (Hc _ eq_refl) as (ns & Hns & Hn). cbn [fst snd] in *.
  destruct (rd_version _ _ _ _ _ _ _ _ R) as (v & Hv & Hok & _ & Hlev). rewrite <- Hlev, list_lookup_fmap in Hns.
  destruct (files_ v !! level) as [fs|] eqn:Efs; [|done]. cbn in Hns. injection Hns as <-.
  assert (∃ f', snd <$> list_find (λ g, number g = number f) (level_files v level) = Some f') as [f' Ef'].
  { unfold level_files. rewrite nth_lookup, Efs. cbn [default from_option id].
    apply list_elem_of_fmap in Hn as (g & Eg & Hg). destruct (list_find_elem_of (λ g, number g = number f) fs g Hg (eq_sym Eg)) as [[i g'] Hx].
    exists g'. by rewrite Hx. }
  unfold update_stats. db_step. rewrite Hv. rewrite (lift_bind v) by done. rewrite (lift_bind f') by done.
  destruct (UpdateStats _ _ _) as [[allowed v'] b]. eexists b, _. split; [db_step; reflexivity|]. split; [done|]. split; [done|].
  apply current_charge, R.
Qed.

Lemma schedule_ok (s : DBImpl * W) : is_Some (current (versions_ s.1)) → is_Some (Schedule s.2) →
  ∃ s', MaybeScheduleCompaction s = Some ((), s') ∧ mems s'.1 = mems s.1.
Proof.
  destruct s as [d w]. intros [v Hv] [[[] w'] Hs]. cbn [fst snd] in *. unfold MaybeScheduleCompaction. db_step. change (id d) with d.
  destruct (bg_compaction_scheduled_ _); [by eexists|]. destruct (shutting_down_ _); [by eexists|]. destruct (negb _); [by eexists|].
  rewrite (lift_bind v) by done. destruct (negb _); [by eexists|]. db_step. rewrite (env_Some _ _ _ _ _ Hs). by eexists.
Qed.

(** C39: a read is linearizable. [DBImpl::Get] at a snapshot or at the last
    sequence number, while other threads write, compact, charge seeks and
    schedule at every point where the mutex is free, ends and answers what the
    memtables, and the version that was current when the read began, had for
    the key at that sequence number: the one value of the view with OK, and
    NotFound, with the caller's value untouched, if the view does not have the
    key. *)
Theorem Get_answers_view pinned mem imm p levels s hm hi es u snap value :
  readable mem imm p levels s hm hi es → mem_ (mems s.1) = mem → imm_ (mems s.1) = imm → current_ (versions_ s.1) = Some p →
  read_sequence options s.1 = Some snap → V u → seq_ok snap → zlen u + 8 < 2 ^ 32 →
  (∀ s1, take_refs mem imm p s = Some ((), s1) → pinned s1) → steady pinned snap mem imm p levels →
  ∃ r value' s', db_Get (C := C) others options u value s = Some ((r, value'), s') ∧
    view_answer (user_view snap (db_entries hm hi es)) u value r value'.
Proof.
  intros R Hm Hi Hp Hq Vu Hs Hl Hpin Hst. destruct (take_refs_ok mem imm p levels s hm hi es R) as (s1 & E1 & R1).
  destruct (Hst s1 hm hi es (Hpin s1 E1) R1) as (s2 & h2 & E2 & P2 & R2 & Hn2).
  destruct (read_ok mem imm p levels s2 _ hi es u snap value R2 Vu Hs Hl) as (r & value' & stats & E3 & Hans & Hc).
  destruct (Hst s2 _ hi es P2 R2) as (s4 & h4 & E4 & P4 & R4 & _).
  assert (∃ b s5, (match stats with Some stats => update_stats p stats | None => mret false end) s4 = Some (b, s5) ∧
    mems s5.1 = mems s4.1 ∧ s5.2 = s4.2 ∧ is_Some (current (versions_ s5.1))) as (b & s5 & E5 & Em5 & Ew5 & Ec5).
  { destruct stats as [stats|]; [by eapply update_stats_ok|]. exists false, s4. splits; try done. apply R4. }
  assert (∃ s6, schedule_if b s5 = Some ((), s6) ∧ mems s6.1 = mems s4.1) as (s6 & E6 & Em6).
  { destruct b; [|by exists s5]. destruct (schedule_ok s5 Ec5) as (s6 & E6 & Em6); [rewrite Ew5; apply R4|]. exists s6. by rewrite <- Em5. }
  destruct (drop_refs_ok mem imm p s6) as (s7 & E7).
  { rewrite Em6. destruct (rd_mem _ _ _ _ _ _ _ _ R4) as (m & -> & _). done. }
  { rewrite Em6. pose proof (rd_imm _ _ _ _ _ _ _ _ R4) as Ri. destruct imm; [|done]. destruct Ri as (? & m & -> & _). done. }
  exists r, value', s7. split.
  - unfold db_Get. db_step. change (id s.1) with s.1. rewrite (lift_bind snap) by done. rewrite (lift_bind p) by done.
    rewrite Hm, Hi. rewrite (M_bind_Some _ _ _ _ _ E1). unfold unlocked.
    assert (Eu : (_ ← others; x ← read options mem imm p (mkLookupKey u snap) value; _ ← others; mret x) s1 = Some ((r, value', stats), s4)).
    { by rewrite (M_bind_Some _ _ _ _ _ E2), (M_bind_Some _ _ _ _ _ E3), (M_bind_Some _ _ _ _ _ E4). }
    rewrite (M_bind_Some _ _ _ _ _ Eu), (M_bind_Some _ _ _ _ _ E5), (M_bind_Some _ _ _ _ _ E6), (M_bind_Some _ _ _ _ _ E7). done.
  - eapply view_answer_ext; [|exact Hans]. intros val. destruct (rd_mem _ _ _ _ _ _ _ _ R2) as (m2 & _ & _ & ws & [Hv2 _] & Hp2).
    rewrite Hp2 in Hv2. apply list.Forall_app in Hv2 as [_ Hv2]. by apply (new_writes_unseen (V := V)).
Qed.
End Get.

Module Example.
(** The files of [VersionRead.Example]. *)
Definition Cache : TableCache MemWorld := {|
  TableIterator := EmptyIterator;
  cache_NewIterator _ _ _ _ := None;
  cache_ApproximateOffsetOf _ _ _ _ := None;
  cache_Get _ _ n size k := VersionRead.Example.table_cache_Get n size k;
  cache_Evict _ := mret ();
|}.

Definition d (m : MemTable) : DBImpl (E := InMemoryEnv) (D := DbFiles.Example.OneProcess) :=
  with_mems (λ _, {| tables := {[ 0%nat := m ]}; mem_ := 0; imm_ := None; has_imm_ := false |})
    (with_versions (VersionSet.SetLastSequence (AppendVersion (new_VersionSet (str "db")) VersionRead.Example.v) 9)
      (init_DBImpl (A := BumpAllocator) false false (str "db"))).

(** A write behind the last sequence number. *)
Definition h : list MemTable.Write := [(10, OpPut (str "b") (str "b10"))].
Definition es : list entry := all_entries VersionRead.Example.content VersionRead.Example.v.
End Example.

Lemma example_memtable : ∃ m, Mem_hist (C := BytewiseComparator) (V := any_key) m Example.h.
Proof.
  destruct (Mem_hist_Add (C := BytewiseComparator) (V := any_key) (A := BumpAllocator) (new_MemTable (A := BumpAllocator)) [] (10, OpPut (str "b") (str "b10")))
    as (m & _ & Hm); [apply (new_MemTable_hist (A := BumpAllocator))| |constructor|by exists m].
  split; [split|exact I]; by vm_compute.
Qed.

Lemma example_newer : layer_newer (entries_of Example.h) Example.es.
Proof.
  unfold layer_newer. intros a b Ha Hb.
  assert (Forall (λ a, Forall (λ b, seqno b < seqno a) Example.es) (entries_of Example.h)) as H by decide_now.
  rewrite list.Forall_forall in H. specialize (H a Ha). rewrite list.Forall_forall in H. by apply H.
Qed.

Lemma Get_answers_view_witness :
  ∃ m s', db_Get (T := Example.Cache) (C := BytewiseComparator) (mret ()) default_ReadOptions (str "b") []
      (Example.d m, NewMemEnv) = Some ((Status_OK, str "b7"), s').
Proof.
  destruct example_memtable as [m Hm].
  destruct (Get_answers_view (C := BytewiseComparator) (V := any_key) (A := BumpAllocator) (T := Example.Cache) VersionRead.Example.content (mret ())
    default_ReadOptions (λ _, True) 0 None 1 [[8; 9]; [3]; []; []; []; []; []] (Example.d m, NewMemEnv) Example.h [] Example.es (str "b") 9 [])
    as (r & value' & s' & Eg & Hans); try done.
  - split; [by exists m|done| |apply example_newer| |apply VersionRead.Example.reads|done|done].
    + exists VersionRead.Example.v. split; [done|]. split; [apply VersionRead.Example.v_ok|]. done.
    + by intros a b ?%elem_of_nil.
  - intros s1 hm hi es _ R. exists s1, []. split; [done|]. split; [done|]. split; [|constructor]. by rewrite app_nil_r.
  - assert (Hin : (str "b", str "b7") ∈ user_view 9 (db_entries Example.h [] Example.es)) by decide_now.
    destruct Hans as [[-> H]|(_ & _ & H)]; [|by destruct (H (str "b7"))].
    apply H in Hin as <-. exists m, s'. exact Eg.
Defined.
