(* ===== verification/DbIterView.v ===== *)
(** [DBImpl::NewIterator] of [db/db_impl.cc] gives an iterator over the user's
    view of the memtables and the current version. *)
From Stdlib Require Import Sorting.Sorted.
From stdpp Require Import gmap.
From S2P Require Import Prelude SortedLists Coding Status Comparator Env MemEnv DbFormat Random Arena Iterator TwoLevelIterator WriteBatch MemTable BlockBuilder Block Merger DbIter VersionEdit Version VersionRead VersionSet Snapshot Builder DbState DbFiles DbRead DbView.

(** Laws for other, equivalent, conditions on the keys. *)
Lemma laws_ext {I} {II : Iterator I} {C : Comparator} {V V' : bytes → Prop} {rel} :
  (∀ k, V k ↔ V' k) → IteratorLaws I V rel → IteratorLaws I V' rel.
Proof.
  intros HV L. split; intros; [|try by eapply L..].
  - destruct (rel_sorted it es p H) as [Hs Hf]. split; [done|]. eapply Forall_impl; [|exact Hf]. intros e. apply HV.
  - eapply L; [done|]. by apply HV.
Qed.

Section IterView.
Context {C : Comparator} {V : bytes → Prop} {CL : ComparatorLaws C V}.
(** The user's keys are short enough for a memtable. *)
Hypothesis V_short : ∀ u, V u → zlen u + 8 < 2 ^ 32.
Context {W : Type} {E : Env W} {D : DbEnv W} {T : TableCache W} {A : BlockAllocator}.
Context (content : FileMetaData → list entry) (options : ReadOptions) (fuel : nat).

Abbreviation IKC := (InternalKeyComparator (user_comparator_ := C)).
Abbreviation IV := (ikey_valid (V := V)).

Context {rel : TableIterator → list entry → option nat → Prop} {IL : IteratorLaws (C := IKC) TableIterator IV rel}.

Lemma seek_key_valid_iff k : seek_key_valid (V := V) k ↔ IV k.
Proof.
  split; [by intros [? _]|]. intros Hk. split; [done|]. destruct Hk as [H8 HV%V_short]. revert HV. unfold ExtractUserKey.
  rewrite zlen_ztake; lia.
Qed.

Lemma memtable_laws : IteratorLaws (C := IKC) MemTableIterator IV (mi_rel (V := V) (C := C)).
Proof. eapply laws_ext; [apply seek_key_valid_iff|]. apply _. Qed.

Section World.
Context (w : W).
Context {TI : TableIterators (C := C) (V := V) content (cache_NewIterator w options) (rel := rel)}.

Definition tables_rel := sum_rel rel (concat_rel (C := C) (V := V) (rel := rel) (cache_NewIterator w options) fuel).
Definition child_rel := sum_rel (mi_rel (V := V) (C := C)) tables_rel.

Lemma child_laws : IteratorLaws (II := Child_Iterator fuel options w) (C := IKC) (MemTableIterator + (TableIterator + ConcatIterator (I := TableIterator))) IV child_rel.
Proof.
  apply (sum_laws (IL := memtable_laws)).
Qed.

Abbreviation child_gives := (λ it l, ∃ q, child_rel it l q).

Lemma memtable_gives m h : Mem_hist (V := V) (C := C) m h → ∃ l, child_gives (inl (NewIterator m)) l ∧ l ≡ₚ entries_of h.
Proof.
  intros (Hs & ws & (Hws & ids & HH) & Hp). exists (write_entry_of <$> ws). split; [|unfold entries_of; by rewrite Hp].
  exists None. by exists ids, ws.
Qed.

Lemma files_give v : version_ok (C := C) (V := V) content v → (∀ l, (length (level_files v l) < fuel)%nat) →
  ∃ its ls, AddIterators (user_comparator := C) (cache_NewIterator w options) v [] = Some its ∧
    Forall2 child_gives (inr <$> its) ls ∧ concat ls = all_entries content v.
Proof.
  intros Hok Hf. destruct (AddIterators_rel content (cache_NewIterator w options) fuel v [] [] Hok Hf) as (its & ls & E1 & Hg & Hc); [constructor|].
  exists its, ls. split; [done|]. split; [|done]. clear E1 Hc. cbn [app] in Hg. induction Hg as [|it l its ls (q & Hq) _ IH]; constructor; [by exists q|done].
Qed.

(** The iterator over the memtable [a]. *)
Lemma memtable_iterator_ok a (s : DBImpl * W) m : tables (mems s.1) !! a = Some m → memtable_iterator a s = Some (inl (NewIterator m), s).
Proof. intros Hm. unfold memtable_iterator. by rewrite (memtable_bind _ m). Qed.

Abbreviation internal_rel := (sum_rel (sum_rel empty_rel child_rel) (merge_rel (C := IKC) (II := Child_Iterator fuel options w) (rel := child_rel))).

Lemma NewInternalIterator_rel mem imm p levels d hm hi es all :
  readable (C := C) (V := V) content options mem imm p levels (d, w) hm hi es →
  mem_ (mems d) = mem → imm_ (mems d) = imm → current_ (versions_ d) = Some p →
  (∀ v l, find_version (versions_ d) p = Some v → (length (level_files v l) < fuel)%nat) →
  StronglySorted (entry_lt (C := IKC)) all → all ≡ₚ db_entries hm hi es →
  ∃ it q st seed d', NewInternalIterator (C := C) fuel options (d, w) = Some ((it, st, last_sequence_ (versions_ d), seed), (d', w)) ∧
    snapshots_ d' = snapshots_ d ∧ internal_rel it all q.
Proof.
  intros R Hmem Himm Hp Hfuel Hs Hall. destruct (rd_mem _ _ _ _ _ _ _ _ _ _ R) as (m & Hm & Hh). cbn [fst] in Hm.
  destruct (memtable_gives m hm Hh) as (lm & Gm & Pm).
  destruct (rd_version _ _ _ _ _ _ _ _ _ _ R) as (v & Hv & Hok & Hes & _). cbn [fst] in Hv.
  destruct (files_give v Hok (λ l, Hfuel v l Hv)) as (its & ls & Eits & Gf & Hcat).
  destruct (mem_Ref_ok mem d w m Hm) as (d1 & E1 & Et1 & Ev1 & Es1).
  pose proof (readable_Ref content options mem mem imm p levels d d1 w hm hi es m Hm Et1 Ev1 R) as R1.
  assert (∃ d2 it2 l2, (match imm with
      | Some a => it' ← memtable_iterator a; _ ← mem_Ref a; mret [inl (NewIterator m); it']
      | None => mret [inl (NewIterator m)] end) (d1, w) = Some (inl (NewIterator m) :: it2, (d2, w)) ∧
    Forall2 child_gives it2 l2 ∧ concat l2 ≡ₚ entries_of hi ∧ versions_ d2 = versions_ d ∧ snapshots_ d2 = snapshots_ d)
    as (d2 & it2 & l2 & E2 & G2 & P2 & Ev2 & Es2).
  { pose proof (rd_imm _ _ _ _ _ _ _ _ _ _ R1) as Ri. destruct imm as [a|].
    - destruct Ri as (_ & x & Hx & Hxh). cbn [fst] in Hx. destruct (memtable_gives x hi Hxh) as (l & Gl & Pl).
      destruct (mem_Ref_ok a d1 w x Hx) as (d2 & E2 & _ & Ev2 & Es2).
      exists d2, [inl (NewIterator x)], [l]. rewrite (M_bind_Some _ _ _ _ _ (memtable_iterator_ok a (d1, w) x Hx)), (M_bind_Some _ _ _ _ _ E2).
      splits; [done|by repeat constructor| |by rewrite Ev2|by rewrite Es2]. cbn. by rewrite app_nil_r.
    - exists d1, [], []. rewrite Ri. by splits. }
  destruct (NewMergingIterator_rel (IL := child_laws) ((inl (NewIterator m) :: it2) ++ (inr <$> its)) ((lm :: l2) ++ ls) all) as (it & q & Em & HR & _).
  { apply List.Forall2_app; [by constructor|done]. }
  { split; [done|]. rewrite Hall. unfold db_entries. cbn [app concat]. rewrite concat_app, Hcat, Pm, P2, Hes. done. }
  exists it, q. eexists _, _, _. split; [|split; [|exact HR]].
  - unfold NewInternalIterator. db_step. change (id d) with d. rewrite Hmem, Himm.
    rewrite (M_bind_Some _ _ _ _ _ (memtable_iterator_ok mem (d, w) m Hm)), (M_bind_Some _ _ _ _ _ E1), (M_bind_Some _ _ _ _ _ E2).
    rewrite (lift_bind p) by done. rewrite (lift_bind v) by (unfold current; by rewrite Hp).
    unfold mbind at 1, M_bind at 1, world. cbn [snd]. rewrite (lift_bind its) by done. rewrite (lift_bind it) by exact Em.
    reflexivity.
  - done.
Qed.

#[export] Instance InternalIterator_Iterator : Iterator InternalIterator :=
  sum_Iterator (II := sum_Iterator (IJ := Child_Iterator (C := C) fuel options w))
    (IJ := MergingIterator_Iterator (C := IKC) (II := Child_Iterator (C := C) fuel options w)).

(** C40: an iterator of the database shows the user's view. [NewIterator], at a
    snapshot or at the last sequence number, makes an iterator out of those over
    the memtables and over the files of the current version; what it visits, in
    both directions, from every key and through any sequence of calls, is for
    every user key the newest value at that sequence number in all of them
    together, unless it is a deletion. *)
Theorem NewIterator_shows_view mem imm p levels d hm hi es all snap fuel' :
  readable (C := C) (V := V) content options mem imm p levels (d, w) hm hi es →
  mem_ (mems d) = mem → imm_ (mems d) = imm → current_ (versions_ d) = Some p →
  (∀ v l, find_version (versions_ d) p = Some v → (length (level_files v l) < fuel)%nat) →
  StronglySorted (entry_lt (C := IKC)) all → all ≡ₚ db_entries hm hi es → Forall entry_fits all → (length all < fuel')%nat →
  read_sequence options d = Some snap → seq_ok snap →
  ∃ it st d', db_NewIterator (C := C) fuel options (d, w) = Some ((it, st), (d', w)) ∧
    iterates (II := DBIter_Iterator (C := C) fuel') it V (user_view snap all) ∧
    ∀ ms os, Forall (move_ok V) ms → cursor_run (user_view snap all) ms None = Some os →
      it_run (II := DBIter_Iterator (C := C) fuel') ms it = Some os.
Proof.
  intros R Hmem Himm Hp Hfuel Hs Hall Hfit Hlen Hseq Hsnap.
  destruct (NewInternalIterator_rel mem imm p levels d hm hi es all R Hmem Himm Hp Hfuel Hs Hall) as (it & q & st & seed & d' & E1 & Es & HR).
  assert (IL' : IteratorLaws (C := IKC) (II := InternalIterator_Iterator) InternalIterator IV internal_rel) by apply (any_laws (IL := child_laws)).
  destruct (rel_sorted (IteratorLaws := IL') it all q HR) as [_ HV].
  pose proof (DBIter_laws (IL := IL') fuel' snap all Hs HV Hfit Hlen Hsnap) as L.
  pose proof (NewDBIterator_rel (I := InternalIterator) (rel := internal_rel) snap all it q seed HR) as HD.
  exists (NewDBIterator it snap seed), st, d'. split.
  - unfold db_NewIterator. rewrite (M_bind_Some _ _ _ _ _ E1). unfold read_sequence in Hseq.
    destruct (read_snapshot options) as [sn|].
    + assert (En : (n ← gets (λ d, snapshot_number sn (snapshots_ d)); lift n) (d', w) = Some (snap, (d', w)))
        by (db_step; rewrite Es, Hseq; done).
      by rewrite (M_bind_Some _ _ _ _ _ En).
    + injection Hseq as <-. done.
  - split; [by eapply rel_iterates|]. intros ms os Hms Hos. by eapply (rel_run (IL := L)).
Qed.
End World.
End IterView.

(** ** An example *)

Section Short.
Context {C : Comparator} {V : bytes → Prop} {CL : ComparatorLaws C V} {SS : ShortSeparators C}.

Definition short (n : Z) (u : bytes) : Prop := V u ∧ zlen u < n.

Lemma short_laws n : ComparatorLaws C (short n).
Proof.
  split; unfold short.
  - intros a b [? _] [? _]. by apply Compare_eq.
  - intros a b [? _] [? _]. by apply Compare_flip.
  - intros a b c [? _] [? _] [? _]. by apply Compare_trans.
  - intros a b [? ?] [? _]. split; [by apply Separator_valid|]. pose proof (Separator_short a b). lia.
  - intros a b [? _] [? _]. by apply Separator_ge.
  - intros a b [? _] [? _]. by apply Separator_lt.
  - intros a [? _]. by apply Separator_refl.
  - intros a [? ?]. split; [by apply Successor_valid|]. pose proof (Successor_short a). lia.
  - intros a [? _]. by apply Successor_ge.
Qed.
End Short.

Module Example.
Abbreviation BIKC := (InternalKeyComparator (user_comparator_ := BytewiseComparator)).
Abbreviation SV := (short (V := any_key) 1000).

Definition block (es : list entry) : Block.Block := new_Block (fst (Finish (Adds 2 new_BlockBuilder es))).

(** Every file is one block. *)
Definition Cache : TableCache MemWorld := {|
  TableIterator := Iter;
  TableIterator_Iterator := Block_Iter (C := BIKC);
  cache_NewIterator _ _ n _ :=
    match block_NewIterator (block (default [] (VersionRead.Example.files !! n))) with inr it => Some it | inl _ => None end;
  cache_ApproximateOffsetOf _ _ _ _ := None;
  cache_Get _ _ n size k := VersionRead.Example.table_cache_Get n size k;
  cache_Evict _ := mret ();
|}.
End Example.

#[local] Instance SV_laws : ComparatorLaws BytewiseComparator Example.SV := short_laws 1000.

Lemma example_content f : VersionRead.Example.content f ≠ [] →
  ∃ n es, VersionRead.Example.files !! n = Some es ∧ VersionRead.Example.content f = es ∧ number f = n.
Proof. unfold VersionRead.Example.content. destruct (_ !! _) as [es|] eqn:Ef; [|done]. by exists (number f), es. Qed.

(** The files are the three of the example. *)
Lemma example_files : map_Forall (λ _ es, block_need es < 2 ^ 32 ∧ Forall (λ e, zlen (uk e) < 1000) es) VersionRead.Example.files.
Proof. decide_now. Qed.

Lemma example_iterators : TableIterators (C := BytewiseComparator) (V := Example.SV) (I := Iter) VersionRead.Example.content
  (cache_NewIterator (TableCache := Example.Cache) NewMemEnv default_ReadOptions) (rel := block_rel (C := Example.BIKC) (ikey_valid (V := Example.SV))).
Proof.
  split. intros f [Hs Hk Hsm _ _ _].
  destruct (example_content f) as (n & es & Hf & He & Hn); [intros H; by rewrite H in Hsm|].
  destruct (example_files n es Hf) as [Hneed _]. rewrite He in *.
  destruct (built_block_open (C := Example.BIKC) (V := ikey_valid (V := Example.SV)) 2 es) as (it & Eit & HR); [lia|done|done| |].
  { eapply Forall_impl; [|exact Hk]. by intros e [? _]. }
  exists it, None. split; [|done]. cbn [cache_NewIterator Example.Cache]. rewrite Hn, Hf. cbn [default from_option id].
  unfold Example.block. by rewrite Eit.
Qed.

Lemma example_version : version_ok (C := BytewiseComparator) (V := Example.SV) VersionRead.Example.content VersionRead.Example.v.
Proof.
  destruct VersionRead.Example.v_ok as [H1 H2 H3 H4 H5 H6]. split; try done. intros l. eapply Forall_impl; [|exact (H2 l)].
  intros f [F1 F2 F3 F4 F5 F6]. split; try done.
  destruct (example_content f) as (n & es & Hf & He & Hn); [intros H; by rewrite H in F3|].
  destruct (example_files n es Hf) as [_ Hl]. rewrite He in *. rewrite list.Forall_forall in F2, Hl |- *.
  intros e Hin. destruct (F2 e Hin) as [[G1 _] G2]. split; [|done]. split; [done|]. split; [done|]. by apply Hl.
Qed.

Lemma short_memtable : ∃ m, Mem_hist (C := BytewiseComparator) (V := Example.SV) m DbView.Example.h.
Proof.
  destruct (Mem_hist_Add (C := BytewiseComparator) (V := Example.SV) (A := BumpAllocator) (new_MemTable (A := BumpAllocator)) [] (10, OpPut (str "b") (str "b10")))
    as (m & _ & Hm); [apply (new_MemTable_hist (A := BumpAllocator))| |constructor|by exists m].
  split; [split; by vm_compute|]. split; [exact I|by vm_compute].
Qed.

Definition example_all : list entry :=
  [(InternalKey (str "a") 5 1, str "a5"); (InternalKey (str "b") 10 1, str "b10"); (InternalKey (str "b") 7 1, str "b7");
   (InternalKey (str "b") 4 0, []); (InternalKey (str "b") 2 1, str "b2"); (InternalKey (str "c") 1 1, str "c1")].

Lemma example_readable m : Mem_hist (C := BytewiseComparator) (V := Example.SV) m DbView.Example.h →
  readable (T := Example.Cache) (C := BytewiseComparator) (V := Example.SV) VersionRead.Example.content default_ReadOptions 0 None 1
    [[8; 9]; [3]; []; []; []; []; []] (DbView.Example.d m, NewMemEnv) DbView.Example.h [] DbView.Example.es.
Proof.
  intros Hm. split; [by exists m|done| |apply example_newer| | |done|done].
  - exists VersionRead.Example.v. split; [done|]. split; [apply example_version|done].
  - by intros a b ?%elem_of_nil.
  - split. intros f k _ _. eexists. split; [done|]. split; [by intros e ?|by intros e ? _].
Qed.

Lemma NewIterator_shows_view_witness :
  ∃ m it st d', db_NewIterator (T := Example.Cache) (C := BytewiseComparator) 3 default_ReadOptions (DbView.Example.d m, NewMemEnv) =
      Some ((it, st), (d', NewMemEnv)) ∧
    iterates (C := BytewiseComparator)
      (II := DBIter_Iterator (C := BytewiseComparator)
        (II := InternalIterator_Iterator (T := Example.Cache) (C := BytewiseComparator) default_ReadOptions 3 NewMemEnv) 7)
      it Example.SV [(str "a", str "a5"); (str "b", str "b7"); (str "c", str "c1")].
Proof.
  destruct short_memtable as [m Hm].
  destruct (NewIterator_shows_view (T := Example.Cache) (C := BytewiseComparator) (V := Example.SV)
    ltac:(intros u [_ Hu]; lia) VersionRead.Example.content default_ReadOptions 3 (IL := Block_laws (C := Example.BIKC)) NewMemEnv
    (TI := example_iterators) 0 None 1 [[8; 9]; [3]; []; []; []; []; []] (DbView.Example.d m) DbView.Example.h [] DbView.Example.es
    example_all 9 7) as (it & st & d' & E1 & Hit & _).
  - by apply example_readable.
  - reflexivity.
  - reflexivity.
  - reflexivity.
  - intros v l [= <-]. destruct l as [|[|l]]; [by vm_compute; lia..|]. rewrite VersionRead.Example.level_above. cbn. lia.
  - repeat constructor; by vm_compute.
  - decide_now.
  - decide_now.
  - cbn. lia.
  - reflexivity.
  - unfold seq_ok. by vm_compute.
  - exists m, it, st, d'. split; [exact E1|]. exact Hit.
Defined.
