(* ===== verification/DbCompact.v ===== *)
(** The background work of the database: writing the memtable to a table of
    level 0, and compactions ([db/db_impl.cc]).

    [DoCompactionWork] runs without the mutex; the other threads run wherever it
    takes the mutex. The iterator over the inputs is one in the state of the
    environment in which it is made, since the files of the inputs stay as they
    are while the compaction has a reference to their version. *)
From stdpp Require Import gmap.
From S2P Require Import Prelude Coding Status Comparator Crc32c Env FileName LogFile DbFormat Arena Iterator TwoLevelIterator MemTable Merger Format TableBuilder VersionEdit Builder Version VersionSet Compaction CompactionDrop CompactionInstall Snapshot DbState DbRead DbWrite.

(** [DBImpl::CompactionState]; [outfile] and [builder] are set together. *)
Record CompactionState {W : Type} {E : Env W} := {
  compaction : Compaction;
  smallest_snapshot : Z;
  outputs : list Output;
  outfile_builder : option (WritableHandle * TableBuilder);
  total_bytes : Z;
}.
Arguments CompactionState W {E}.

Section CompactionState.
Context {W : Type} {E : Env W}.

Definition new_CompactionState (c : Compaction) : CompactionState W :=
  {| compaction := c; smallest_snapshot := 0; outputs := []; outfile_builder := None; total_bytes := 0 |}.

Definition cs_compaction (c : Compaction) (cs : CompactionState W) : CompactionState W :=
  {| compaction := c; smallest_snapshot := smallest_snapshot cs; outputs := outputs cs; outfile_builder := outfile_builder cs;
     total_bytes := total_bytes cs |}.
Definition cs_snapshot (s : Z) (cs : CompactionState W) : CompactionState W :=
  {| compaction := compaction cs; smallest_snapshot := s; outputs := outputs cs; outfile_builder := outfile_builder cs;
     total_bytes := total_bytes cs |}.
Definition cs_outputs (outs : list Output) (cs : CompactionState W) : CompactionState W :=
  {| compaction := compaction cs; smallest_snapshot := smallest_snapshot cs; outputs := outs; outfile_builder := outfile_builder cs;
     total_bytes := total_bytes cs |}.
Definition cs_builder (b : option (WritableHandle * TableBuilder)) (cs : CompactionState W) : CompactionState W :=
  {| compaction := compaction cs; smallest_snapshot := smallest_snapshot cs; outputs := outputs cs; outfile_builder := b;
     total_bytes := total_bytes cs |}.
Definition cs_bytes (n : Z) (cs : CompactionState W) : CompactionState W :=
  {| compaction := compaction cs; smallest_snapshot := smallest_snapshot cs; outputs := outputs cs; outfile_builder := outfile_builder cs;
     total_bytes := n |}.

(** A change of [current_output()]. *)
Definition on_current_output (f : Output → Output) (cs : CompactionState W) : CompactionState W :=
  cs_outputs (alter f (length (outputs cs) - 1)%nat (outputs cs)) cs.

Definition out_set_size (n : Z) (o : Output) : Output :=
  {| out_number := out_number o; out_file_size := n; out_smallest := out_smallest o; out_largest := out_largest o |}.
Definition out_set_smallest (k : bytes) (o : Output) : Output :=
  {| out_number := out_number o; out_file_size := out_file_size o; out_smallest := k; out_largest := out_largest o |}.
Definition out_set_largest (k : bytes) (o : Output) : Output :=
  {| out_number := out_number o; out_file_size := out_file_size o; out_smallest := out_smallest o; out_largest := k |}.
End CompactionState.

Section Compact.
Context {W : Type} {E : Env W} {D : DbEnv W} {T : TableCache W} {P : Placement} {A : BlockAllocator} {C : Comparator}.
Context (capacity : list region → Z) (write_buffer_size : Z) (options_ : Options) (dbname_ : bytes) (others : DB ()).
(** Bounds the entries of tables, the files of a level and the rounds of loops. *)
Context (fuel : nat).

Abbreviation IKC := (InternalKeyComparator (user_comparator_ := C)).

Definition insert_pending (n : Z) : DB () := modify (with_background (λ b, set_pending_outputs ({[ n ]} ∪ pending_outputs_ b) b)).
Definition erase_pending (n : Z) : DB () := modify (with_background (λ b, set_pending_outputs (pending_outputs_ b ∖ {[ n ]}) b)).
Definition add_stats (level : nat) (s : CompactionStats) : DB () :=
  modify (with_background (λ b, set_stats (alter (λ x, stats_Add x s) level (stats_ b)) b)).
Definition new_file_number : DB Z := on_versions (λ vs, mret (NewFileNumber vs)).

(** ** The memtable *)

(** The level for the new table, if it is kept. *)
Definition level0_edit (s : Status) (meta : FileMetaData) (edit : VersionEdit) (base : option nat) : DB (nat * VersionEdit) :=
  if ok s && bool_decide (0 < file_size meta) then
    level ← (match base with
             | Some p =>
                 v ← gets (λ d, find_version (versions_ d) p);
                 v ← lift v;
                 lift (PickLevelForMemTableOutput (user_comparator := C) v (ExtractUserKey (smallest meta)) (ExtractUserKey (largest meta)))
             | None => mret 0%nat
             end);
    mret (level, AddFile (Z.of_nat level) (number meta) (file_size meta) (smallest meta) (largest meta) edit)
  else mret (0%nat, edit).

Definition WriteLevel0Table (mem : nat) (edit : VersionEdit) (base : option nat) : DB (Status * VersionEdit) :=
  start_micros ← env NowMicros;
  n ← new_file_number;
  _ ← insert_pending n;
  m ← memtable mem;
  let iter := NewIterator m in
  '(s, meta) ← unlocked others (env (BuildTable (C := IKC) fuel dbname_ options_ iter (new_FileMetaData n 0 [] [])));
  _ ← erase_pending n;
  '(level, edit) ← level0_edit s meta edit base;
  now ← env NowMicros;
  _ ← add_stats level {| micros := swrap 64 (now - start_micros); bytes_read := 0; bytes_written := swrap 64 (file_size meta) |};
  mret (s, edit).

Definition CompactMemTable : DB () :=
  imm ← gets (λ d, imm_ (mems d));
  imm ← lift imm;
  base ← gets (λ d, current_ (versions_ d));
  base ← lift base;
  _ ← ref_version base;
  '(s, edit) ← WriteLevel0Table imm new_VersionEdit (Some base);
  _ ← unref_version base;
  shutting_down ← gets (λ d, shutting_down_ (background d));
  let s := if ok s && (shutting_down : bool) then IOError (str "Deleting DB during memtable compaction") [] else s in
  s ← (if ok s then
         n ← gets logfile_number_;
         db_LogAndApply (C := C) others (SetLogNumber n (SetPrevLogNumber 0 edit))
       else mret s);
  if ok s then
    _ ← mem_Unref imm;
    _ ← modify (with_mems (set_imm None));
    DeleteObsoleteFiles
  else RecordBackgroundError s.

(** ** The outputs of a compaction *)

Definition CleanupCompaction (cs : CompactionState W) : DB () :=
  _ ← when_some (outfile_builder cs) (λ o, env (wf_delete o.1));
  foldr (λ o m, _ ← erase_pending (out_number o); m) (mret ()) (outputs cs).

Definition OpenCompactionOutputFile (cs : CompactionState W) : DB (Status * CompactionState W) :=
  _ ← others;
  n ← new_file_number;
  _ ← insert_pending n;
  let cs := cs_outputs (outputs cs ++ [{| out_number := n; out_file_size := 0; out_smallest := []; out_largest := [] |}]) cs in
  r ← env (NewWritableFile (TableFileName dbname_ n));
  mret (match r with
        | inl s => (s, cs)
        | inr file => (Status_OK, cs_builder (Some (file, new_TableBuilder options_)) cs)
        end).

(** [input_status] is [input->status()]. *)
Definition FinishCompactionOutputFile (cs : CompactionState W) (input_status : Status) : DB (Status * CompactionState W) :=
  '(file, builder) ← lift (outfile_builder cs);
  out ← lift (list.last (outputs cs));
  let current_entries := NumEntries builder in
  '(s, builder) ← (if ok input_status then
                     builder ← env (TableBuilder.Finish (C := IKC) (file := writable file) builder);
                     mret (tb_status builder, builder)
                   else mret (input_status, Abandon builder));
  let current_bytes := FileSize builder in
  let cs := cs_bytes (u64 (total_bytes cs + current_bytes)) (on_current_output (out_set_size current_bytes) cs) in
  s ← (if ok s then env (wf_Sync (WritableFile := writable file)) else mret s);
  s ← (if ok s then env (wf_Close (WritableFile := writable file)) else mret s);
  _ ← env (wf_delete file);
  let cs := cs_builder None cs in
  s ← (if ok s && bool_decide (0 < current_entries) then
         w ← world;
         iter ← lift (cache_NewIterator w default_ReadOptions (out_number out) current_bytes);
         mret (it_status iter)
       else mret s);
  mret (s, cs).

Definition InstallCompactionResults (cs : CompactionState W) : DB Status :=
  db_LogAndApply (C := C) others (results_edit (compaction cs) (outputs cs)).

(** ** The loop over the inputs *)

(** Writing the memtable first; the time it takes. *)
Definition compact_imm_first : DB Z :=
  has_imm ← gets (λ d, has_imm_ (mems d));
  if (has_imm : bool) then
    imm_start ← env NowMicros;
    _ ← others;
    imm ← gets (λ d, imm_ (mems d));
    _ ← (if bool_decide (is_Some imm) then CompactMemTable else mret ());
    now ← env NowMicros;
    mret (swrap 64 (now - imm_start))
  else mret 0.

Definition is_open (cs : CompactionState W) : bool := bool_decide (is_Some (outfile_builder cs)).

(** An entry for the current output. *)
Definition add_output (key value : bytes) (cs : CompactionState W) : DB (CompactionState W) :=
  '(file, builder) ← lift (outfile_builder cs);
  let cs := if decide (NumEntries builder = 0) then on_current_output (out_set_smallest key) cs else cs in
  let cs := on_current_output (out_set_largest key) cs in
  builder ← env (TableBuilder.Add (C := IKC) (file := writable file) key value builder);
  mret (cs_builder (Some (file, builder)) cs).

Section Loop.
Context {I : Type} {II : Iterator I}.

(** An entry that is not dropped. *)
Definition keep_entry (input : I) (key : bytes) (cs : CompactionState W) : DB (Status * CompactionState W) :=
  '(status, cs) ← (if is_open cs then mret (Status_OK, cs) else OpenCompactionOutputFile cs);
  if ok status then
    value ← lift (it_value input);
    cs ← add_output key value cs;
    '(_, builder) ← lift (outfile_builder cs);
    if decide (MaxOutputFileSize (compaction cs) ≤ FileSize builder) then FinishCompactionOutputFile cs (it_status input)
    else mret (Status_OK, cs)
  else mret (status, cs).

(** One turn of the loop after the memtable; the iterator is only moved when
    the status is OK. *)
Definition compact_entry (input : I) (cs : CompactionState W) (drop_state : DropState) :
    DB (Status * CompactionState W * DropState) :=
  key ← lift (it_key input);
  let '(stop, c) := ShouldStopBefore (user_comparator := C) (compaction cs) key in
  let cs := cs_compaction c cs in
  '(status, cs) ← (if stop && is_open cs then FinishCompactionOutputFile cs (it_status input) else mret (Status_OK, cs));
  if ok status then
    vs ← gets versions_;
    '(drop, c, drop_state) ← lift (drop_entry (user_comparator := C) vs (smallest_snapshot cs) (compaction cs) drop_state key);
    let cs := cs_compaction c cs in
    '(status, cs) ← (if (drop : bool) then mret (Status_OK, cs) else keep_entry input key cs);
    mret (status, cs, drop_state)
  else mret (status, cs, drop_state).

Fixpoint compaction_loop (fuel : nat) (input : I) (cs : CompactionState W) (drop_state : DropState) (imm_micros : Z) :
    DB (Status * I * CompactionState W * Z) :=
  shutting_down ← gets (λ d, shutting_down_ (background d));
  if it_Valid input && negb shutting_down then
    match fuel with
    | O => undefined
    | S fuel =>
        m ← compact_imm_first;
        let imm_micros := swrap 64 (imm_micros + m) in
        '(status, cs, drop_state) ← compact_entry input cs drop_state;
        if ok status then
          input ← lift (it_Next input);
          compaction_loop fuel input cs drop_state imm_micros
        else mret (status, input, cs, imm_micros)
    end
  else mret (Status_OK, input, cs, imm_micros).

(** What is done without the mutex. *)
Definition compact_inputs (input : I) (cs : CompactionState W) : DB (Status * CompactionState W * Z) :=
  input ← lift (it_SeekToFirst input);
  '(status, input, cs, imm_micros) ← compaction_loop fuel input cs new_DropState 0;
  shutting_down ← gets (λ d, shutting_down_ (background d));
  let status := if ok status && (shutting_down : bool) then IOError (str "Deleting DB during compaction") [] else status in
  '(status, cs) ← (if ok status && is_open cs then FinishCompactionOutputFile cs (it_status input) else mret (status, cs));
  mret (if ok status then it_status input else status, cs, imm_micros).
End Loop.

(** The options of the iterator over the inputs. *)
Definition input_options : ReadOptions := {| verify_checksums := paranoid_checks options_; fill_cache := false; read_snapshot := None |}.

Definition input_iterator (c : Compaction) (w : W) :=
  MakeInputIterator (user_comparator := C) (cache_NewIterator w input_options) fuel c.

Definition compaction_stats (micros : Z) (cs : CompactionState W) : CompactionStats :=
  {| micros := micros;
     bytes_read := foldl (λ n f, swrap 64 (n + file_size f)) 0 (inputs (compaction cs) 0 ++ inputs (compaction cs) 1);
     bytes_written := foldl (λ n o, swrap 64 (n + out_file_size o)) 0 (outputs cs) |}.

Definition oldest_snapshot (d : DBImpl) : option Z :=
  if Snapshot.empty (snapshots_ d) then Some (last_sequence_ (versions_ d))
  else s ← Snapshot.oldest (snapshots_ d); snapshot_number s (snapshots_ d).

Definition DoCompactionWork (cs : CompactionState W) : DB (Status * CompactionState W) :=
  start_micros ← env NowMicros;
  d ← gets id;
  smallest ← lift (oldest_snapshot d);
  let cs := cs_snapshot smallest cs in
  _ ← others;
  w ← world;
  input ← lift (input_iterator (compaction cs) w);
  '(status, cs, imm_micros) ←
    compact_inputs (II := sum_Iterator (II := sum_Iterator (IJ := tables_Iterator (C := C) fuel input_options w))
                            (IJ := MergingIterator_Iterator (C := IKC) (II := tables_Iterator (C := C) fuel input_options w)))
      input cs;
  now ← env NowMicros;
  let stats := compaction_stats (swrap 64 (now - start_micros - imm_micros)) cs in
  _ ← others;
  _ ← add_stats (S (level_ (compaction cs))) stats;
  status ← (if ok status then InstallCompactionResults cs else mret status);
  _ ← (if ok status then mret () else RecordBackgroundError status);
  mret (status, cs).

(** ** The background thread *)

Definition trivial_move_edit (c : Compaction) (f : FileMetaData) : VersionEdit :=
  AddFile (Z.of_nat (level_ c) + 1) (number f) (file_size f) (smallest f) (largest f)
    (VersionEdit.DeleteFile (Z.of_nat (level_ c)) (number f) (edit_ c)).

Definition trivial_move (c : Compaction) : DB Status :=
  f ← lift (head (inputs c 0));
  status ← db_LogAndApply (C := C) others (trivial_move_edit c f);
  _ ← (if ok status then mret () else RecordBackgroundError status);
  mret status.

Definition do_compaction (c : Compaction) : DB (Status * Compaction) :=
  '(status, cs) ← DoCompactionWork (new_CompactionState c);
  _ ← (if ok status then mret () else RecordBackgroundError status);
  _ ← CleanupCompaction cs;
  c ← on_versions (λ vs, let '(vs, c) := ReleaseInputs vs (compaction cs) in mret (c, vs));
  _ ← DeleteObsoleteFiles;
  mret (status, c).

(** [*manual_compaction_]; there is no result if it is NULL. *)
Definition manual : DB (nat * ManualCompaction) :=
  b ← gets background;
  a ← lift (manual_compaction_ b);
  m ← lift (manuals b !! a);
  mret (a, m).

Definition set_manual (a : nat) (m : ManualCompaction) : DB () :=
  modify (with_background (λ b, set_manuals (<[a := m]> (manuals b)) (manual_compaction_ b) b)).

Definition mc_set_done (v : bool) (m : ManualCompaction) : ManualCompaction :=
  {| mc_level := mc_level m; mc_done := v; mc_begin := mc_begin m; mc_end := mc_end m |}.
Definition mc_set_begin (k : bytes) (m : ManualCompaction) : ManualCompaction :=
  {| mc_level := mc_level m; mc_done := mc_done m; mc_begin := Some k; mc_end := mc_end m |}.

(** The compaction, and the end of a manual one. *)
Definition pick (is_manual : bool) : DB (option Compaction * bytes) :=
  if is_manual then
    '(a, m) ← manual;
    vs ← gets versions_;
    '(c, vs) ← lift (Compaction.CompactRange (user_comparator := C) vs (mc_level m) (mc_begin m) (mc_end m));
    _ ← modify (with_versions vs);
    _ ← set_manual a (mc_set_done (bool_decide (c = None)) m);
    match c with
    | Some c => f ← lift (list.last (inputs c 0)); mret (Some c, largest f)
    | None => mret (None, [])
    end
  else
    vs ← gets versions_;
    '(c, vs) ← lift (PickCompaction (user_comparator := C) vs);
    _ ← modify (with_versions vs);
    mret (c, []).

(** What is left of a manual compaction. *)
Definition finish_manual (status : Status) (manual_end : bytes) : DB () :=
  '(a, m) ← manual;
  let m := if ok status then m else mc_set_done true m in
  let m := if mc_done m then m else mc_set_begin manual_end m in
  _ ← set_manual a m;
  modify (with_background (λ b, set_manuals (manuals b) None b)).

Definition BackgroundCompaction : DB () :=
  d ← gets id;
  if bool_decide (is_Some (imm_ (mems d))) then CompactMemTable
  else
    let is_manual := bool_decide (is_Some (manual_compaction_ (background d))) in
    '(c, manual_end) ← pick is_manual;
    status ← (match c with
              | None => mret Status_OK
              | Some c =>
                  '(status, c) ← (if negb is_manual && IsTrivialMove c then s ← trivial_move c; mret (s, c) else do_compaction c);
                  _ ← modify (λ d, with_versions (delete_Compaction (versions_ d) c) d);
                  mret status
              end);
    if is_manual then finish_manual status manual_end else mret ().

Definition BackgroundCall : DB () :=
  d ← gets id;
  _ ← (if bg_compaction_scheduled_ (background d) then mret () else undefined);
  _ ← (if shutting_down_ (background d) then mret ()
       else if ok (bg_error_ (background d)) then BackgroundCompaction else mret ());
  _ ← modify (with_background (set_scheduled false));
  MaybeScheduleCompaction.

(** ** Manual compactions *)

Fixpoint manual_loop (fuel : nat) (a : nat) : DB () :=
  b ← gets background;
  m ← lift (manuals b !! a);
  if negb (mc_done m) && negb (shutting_down_ b) && ok (bg_error_ b) then
    match fuel with
    | O => undefined
    | S fuel =>
        _ ← (if bool_decide (manual_compaction_ b = None) then
               _ ← modify (with_background (λ b, set_manuals (manuals b) (Some a) b));
               MaybeScheduleCompaction
             else others);
        manual_loop fuel a
    end
  else mret ().

Definition TEST_CompactRange (level : nat) (begin end_ : option bytes) : DB () :=
  let m := {| mc_level := level; mc_done := false;
              mc_begin := (λ k, InternalKey k kMaxSequenceNumber kValueTypeForSeek) <$> begin;
              mc_end := (λ k, InternalKey k 0 0) <$> end_ |} in
  a ← gets (λ d, fresh (dom (manuals (background d))));
  _ ← set_manual a m;
  _ ← manual_loop fuel a;
  modify (with_background (λ b,
    set_manuals (delete a (manuals b)) (if decide (manual_compaction_ b = Some a) then None else manual_compaction_ b) b)).

Definition max_level_with_files (v : Version) (begin end_ : option bytes) : nat :=
  foldl (λ max level, if OverlapInLevel (user_comparator := C) v level begin end_ then level else max) 1%nat
    (seq 1 (Z.to_nat kNumLevels - 1)).

Definition CompactRange (begin end_ : option bytes) : DB () :=
  d ← gets id;
  base ← lift (current (versions_ d));
  _ ← others;
  _ ← TEST_CompactMemTable capacity write_buffer_size dbname_ others fuel;
  foldl (λ m level, _ ← m; _ ← others; TEST_CompactRange level begin end_) (mret ())
    (seq 0 (max_level_with_files base begin end_)).
End Compact.
