(* ===== verification/DbRecover.v ===== *)
(** Opening and destroying a database: [DBImpl::Recover], [DBImpl::RecoverLogFile],
    [DB::Open] and [DestroyDB] of [db/db_impl.cc]. *)
From stdpp Require Import gmap sorting.
From S2P Require Import Prelude Coding Status Comparator Crc32c Logging Env FileName LogFile DbFormat Arena WriteBatch MemTable Format VersionEdit Builder Version VersionSet DbState DbRead DbWrite DbCompact.

Section Recover.
Context {W : Type} {E : Env W} {D : DbEnv W} {T : TableCache W} {P : Placement} {A : BlockAllocator} {C : Comparator}.
Context (capacity : list region → Z) (write_buffer_size : Z) (options_ : Options) (dbname_ : bytes) (others : DB ()).
(** The signedness of [char]; [fuel] bounds the entries of tables, the physical
    records of a log or MANIFEST and the rounds of loops, [records] the records
    of a file. *)
Context (is_signed : bool) (fuel records : nat).

Abbreviation WriteLevel0Table := (WriteLevel0Table (C := C) options_ dbname_ others fuel).

(** ** Logs *)

(** The status after a record has been read: [LogReporter] only sets it if
    [paranoid_checks] is set. *)
Definition log_status (status : Status) (rd : Reader) : Status := if paranoid_checks options_ then reported status rd else status.

(** The memtable that is filled. *)
Definition recovery_mem (mem : option nat) : DB nat := match mem with Some a => mret a | None => new_mem end.

Definition set_table (a : nat) (m : MemTable) : DB () := modify (with_mems (λ ms, set_tables (<[a := m]> (tables ms)) ms)).

(** A record of the log; the last result is whether the loop goes on. *)
Definition recover_batch (batch : WriteBatch) (mem : option nat) (edit : VersionEdit) (max_sequence : Z) :
    DB (Status * option nat * VersionEdit * Z) :=
  a ← recovery_mem mem;
  m ← memtable a;
  '(status, m) ← lift (InsertInto (C := C) batch m);
  _ ← set_table a m;
  let status := MaybeIgnoreError options_ status in
  if ok status then
    let last_seq := u64 (Sequence batch + Count batch - 1) in
    let max_sequence := if decide (max_sequence < last_seq) then last_seq else max_sequence in
    if decide (write_buffer_size < ApproximateMemoryUsage capacity m) then
      '(status, edit) ← WriteLevel0Table a edit None;
      if ok status then _ ← mem_Unref a; mret (status, None, edit, max_sequence)
      else mret (status, Some a, edit, max_sequence)
    else mret (status, Some a, edit, max_sequence)
  else mret (status, Some a, edit, max_sequence).

Fixpoint recover_loop (n : nat) (file : SequentialHandle) (rd : Reader) (status : Status) (mem : option nat)
    (edit : VersionEdit) (max_sequence : Z) : DB (Status * option nat * VersionEdit * Z) :=
  match n with
  | O => undefined
  | S n =>
      res ← env (ReadRecord (file_ := sequential file) is_signed true true 0 fuel rd);
      match res with
      | None => undefined
      | Some (record, rd) =>
          let status := log_status status rd in
          match record with
          | None => mret (status, mem, edit, max_sequence)
          | Some record =>
              if negb (ok status) then mret (status, mem, edit, max_sequence)
              else if decide (zlen record < 12) then
                let status := if paranoid_checks options_ then Corruption (str "log record too small") [] else status in
                recover_loop n file rd status mem edit max_sequence
              else
                '(status, mem, edit, max_sequence) ← recover_batch record mem edit max_sequence;
                if ok status then recover_loop n file rd status mem edit max_sequence
                else mret (status, mem, edit, max_sequence)
          end
      end
  end.

Definition RecoverLogFile (log_number : Z) (edit : VersionEdit) (max_sequence : Z) : DB (Status * VersionEdit * Z) :=
  r ← env (NewSequentialFile (LogFileName dbname_ log_number));
  match r with
  | inl status => mret (MaybeIgnoreError options_ status, edit, max_sequence)
  | inr file =>
      '(status, mem, edit, max_sequence) ← recover_loop records file new_Reader Status_OK None edit max_sequence;
      '(status, edit) ← (match mem with
                         | Some a => if ok status then WriteLevel0Table a edit None else mret (status, edit)
                         | None => mret (status, edit)
                         end);
      _ ← when_some mem mem_Unref;
      _ ← env (sf_delete file);
      mret (status, edit, max_sequence)
  end.

(** ** Recovery *)

(** The files of the directory: the numbers that are not there, and the logs
    that are newer than the MANIFEST. *)
Definition scan_file (min_log prev_log : Z) (acc : gset Z * list Z) (filename : bytes) : gset Z * list Z :=
  let '(expected, logs) := acc in
  match ParseFileName filename with
  | Some (number, type) =>
      (expected ∖ {[ number ]},
       if bool_decide (type = kLogFile) && (bool_decide (min_log ≤ number) || bool_decide (number = prev_log))
       then logs ++ [number] else logs)
  | None => (expected, logs)
  end.

Definition scan_files (min_log prev_log : Z) (live : gset Z) (filenames : list bytes) : gset Z * list Z :=
  foldl (scan_file min_log prev_log) (live, []) filenames.

(** [*expected.begin()] *)
Definition set_begin (s : gset Z) : option Z := head (merge_sort Z.le (elements s)).

Definition missing_files (dbname : bytes) (expected : gset Z) : option Status :=
  n ← set_begin expected;
  Some (Corruption (snprintf 50 (dec (Z.of_nat (size expected)) ++ str " missing files; e.g.")) (TableFileName dbname n)).

(** The status is that of the last log. *)
Fixpoint recover_logs (logs : list Z) (s : Status) (edit : VersionEdit) (max_sequence : Z) : DB (Status * VersionEdit * Z) :=
  match logs with
  | [] => mret (s, edit, max_sequence)
  | n :: logs =>
      '(s, edit, max_sequence) ← RecoverLogFile n edit max_sequence;
      _ ← modify (λ d, with_versions (MarkFileNumberUsed (versions_ d) n) d);
      recover_logs logs s edit max_sequence
  end.

Definition recover_files (edit : VersionEdit) : DB (Status * VersionEdit) :=
  d ← gets id;
  let vs := versions_ d in
  '(s, filenames) ← env (GetChildren dbname_);
  if negb (ok s) then mret (s, edit)
  else
    let '(expected, logs) := scan_files (log_number_ vs) (prev_log_number_ vs) (list_to_set (AddLiveFiles vs)) filenames in
    match missing_files dbname_ expected with
    | Some s => mret (s, edit)
    | None =>
        '(s, edit, max_sequence) ← recover_logs (merge_sort Z.le logs) s edit 0;
        _ ← (if ok s then
               modify (λ d, if decide (last_sequence_ (versions_ d) < max_sequence)
                            then with_versions (VersionSet.SetLastSequence (versions_ d) max_sequence) d else d)
             else mret ());
        mret (s, edit)
    end.

(** Whether there is a database, or a new one. *)
Definition find_or_create (create_if_missing error_if_exists : bool) : DB Status :=
  exists_ ← env (FileExists (CurrentFileName dbname_));
  if (exists_ : bool) then
    mret (if error_if_exists then InvalidArgument dbname_ (str "exists (error_if_exists is true)") else Status_OK)
  else if create_if_missing then env (NewDB (C := C) dbname_)
  else mret (InvalidArgument dbname_ (str "does not exist (create_if_missing is false)")).

Definition Recover (create_if_missing error_if_exists : bool) (edit : VersionEdit) : DB (Status * VersionEdit) :=
  _ ← env (CreateDir dbname_);
  r ← env (LockFile (LockFileName dbname_));
  match r with
  | inl s => mret (s, edit)
  | inr lock =>
      _ ← modify (with_lock (Some lock));
      s ← find_or_create create_if_missing error_if_exists;
      if ok s then
        s ← on_versions (VersionSet.Recover (user_comparator := C) is_signed fuel records);
        if ok s then recover_files edit else mret (s, edit)
      else mret (s, edit)
  end.

(** ** Opening *)

Definition open_log (edit : VersionEdit) : DB Status :=
  n ← new_file_number;
  r ← env (NewWritableFile (LogFileName dbname_ n));
  match r with
  | inl s => mret s
  | inr lfile =>
      _ ← modify (with_log (Some (lfile, new_Writer)) n);
      db_LogAndApply (C := C) others (SetLogNumber n edit)
  end.

Definition open_db (create_if_missing error_if_exists : bool) : DB Status :=
  '(s, edit) ← Recover create_if_missing error_if_exists new_VersionEdit;
  s ← (if ok s then open_log edit else mret s);
  _ ← (if ok s then _ ← DeleteObsoleteFiles; MaybeScheduleCompaction else mret ());
  mret s.
End Recover.

Section Open.
Context {W : Type} {E : Env W} {D : DbEnv W} {T : TableCache W} {P : Placement} {A : BlockAllocator} {C : Comparator}.
Context (capacity : list region → Z) (others : DB ()) (is_signed : bool) (fuel records : nat).
Context {B : Type} (NewLRUCache : Z → B).

(** The new object is deleted again if it could not be opened. *)
Definition open_new (raw_options : DbOptions Logger B) (dbname : bytes) (options : DbOptions Logger B) (d : DBImpl) :
    M W (Status * option (DbOptions Logger B * DBImpl)) := λ w,
  '(s, (d, w)) ← open_db (C := C) capacity (write_buffer_size options) (table_options options) dbname others is_signed fuel records
                   (create_if_missing raw_options) (error_if_exists raw_options) (d, w);
  if ok s then Some (s, Some (options, d), w)
  else
    '(_, (_, w)) ← delete_DBImpl others fuel (info_log options) (d, w);
    Some (s, None, w).

(** The database and its options, if it could be opened. *)
Definition Open (raw_options : DbOptions Logger B) (dbname : bytes) : M W (Status * option (DbOptions Logger B * DBImpl)) :=
  '(options, d) ← new_DBImpl NewLRUCache raw_options dbname;
  open_new raw_options dbname options d.

(** ** Destroying *)

Fixpoint destroy_files (dbname : bytes) (filenames : list bytes) (result : Status) : M W Status :=
  match filenames with
  | [] => mret result
  | f :: fs =>
      match ParseFileName f with
      | Some (_, type) =>
          if decide (type = kDBLockFile) then destroy_files dbname fs result
          else
            del ← Env.DeleteFile (dbname ++ str "/" ++ f);
            destroy_files dbname fs (if ok result && negb (ok del) then del else result)
      | None => destroy_files dbname fs result
      end
  end.

Definition DestroyDB (dbname : bytes) : M W Status :=
  '(_, filenames) ← GetChildren dbname;
  if decide (filenames = []) then mret Status_OK
  else
    let lockname := LockFileName dbname in
    r ← LockFile lockname;
    match r with
    | inl s => mret s
    | inr lock =>
        result ← destroy_files dbname filenames Status_OK;
        _ ← UnlockFile lock;
        _ ← Env.DeleteFile lockname;
        _ ← DeleteDir dbname;
        mret result
    end.
End Open.
