(* ===== verification/Cache.v ===== *)
(** The cache: [util/cache.cc] and [include/leveldb/cache.h].

    An [LRUHandle] is a node of the list of a shard; the head [lru_] of that
    list is a node without data.  [malloc] never gives an address twice, so that
    a use of freed memory is [None].  The calls of the deleters are kept in
    their order. *)
From stdpp Require Import gmap.
From S2P Require Import Prelude SortedLists Env Bloom DList.

Section Cache.
(** The values and the deleters, which are pointers of the client. *)
Context {V D : Type}.

(** [key_data] with [key_length]; [next] and [prev] are those of the node. *)
Record LRUHandle := {
  value : V;
  deleter : D;
  next_hash : option nat;
  charge : Z;
  key_data : bytes;
  refs : Z;
  hash : Z;
}.

Record Heap := {
  mem : gmap nat (Node (option LRUHandle));
  next_address : nat;
  deleted : list (D * bytes * V);
}.

Definition set_mem (m : gmap nat (Node (option LRUHandle))) (s : Heap) : Heap :=
  {| mem := m; next_address := next_address s; deleted := deleted s |}.

(** An operation on the memory. *)
Definition on_mem (f : gmap nat (Node (option LRUHandle)) → option (gmap nat (Node (option LRUHandle)))) : M Heap () :=
  λ s, m ← f (mem s); Some ((), set_mem m s).
Definition read {A} (f : gmap nat (Node (option LRUHandle)) → option A) : M Heap A := λ s, a ← f (mem s); Some (a, s).
Definition undefined {A} : M Heap A := λ _, None.

Definition handle (a : nat) : M Heap LRUHandle := read (λ m, n ← m !! a; data_ n).

Definition set_handle (a : nat) (e : LRUHandle) : M Heap () :=
  on_mem (λ m, n ← m !! a; Some (<[a := {| prev_ := prev_ n; next_ := next_ n; data_ := Some e |}]> m)).

Definition set_next_hash (a : nat) (p : option nat) : M Heap () :=
  e ← handle a;
  set_handle a {| value := value e; deleter := deleter e; next_hash := p; charge := charge e; key_data := key_data e;
                  refs := refs e; hash := hash e |}.
Definition set_refs (a : nat) (n : Z) : M Heap () :=
  e ← handle a;
  set_handle a {| value := value e; deleter := deleter e; next_hash := next_hash e; charge := charge e; key_data := key_data e;
                  refs := n; hash := hash e |}.

(** [key()]: no handle is made whose [next] is itself, for which [value] would
    be a pointer to a [Slice]. *)
Definition handle_key (a : nat) : M Heap bytes :=
  next ← read (load_next a);
  if decide (next = a) then undefined else e ← handle a; mret (key_data e).

(** ** [HandleTable] *)

Record HandleTable := { length_ : Z; elems_ : Z; list_ : list (option nat) }.

(** An [LRUHandle **]: an element of [list_] or the member [next_hash] of an
    entry. *)
Inductive Slot := Bucket (i : nat) | NextHash (a : nat).

Definition load_slot (t : HandleTable) (ptr : Slot) : M Heap (option nat) :=
  match ptr with
  | Bucket i => λ s, p ← list_ t !! i; Some (p, s)
  | NextHash a => e ← handle a; mret (next_hash e)
  end.

Definition store_slot (t : HandleTable) (ptr : Slot) (p : option nat) : M Heap HandleTable :=
  match ptr with
  | Bucket i => mret {| length_ := length_ t; elems_ := elems_ t; list_ := <[i := p]> (list_ t) |}
  | NextHash a => _ ← set_next_hash a p; mret t
  end.

Definition bucket_of (length hash : Z) : nat := Z.to_nat (Z.land hash (u32 (length - 1))).

(** The loop of [FindPointer]; a chain has at most [elems_] entries. *)
Fixpoint FindPointer_loop (fuel : nat) (t : HandleTable) (key : bytes) (h : Z) (ptr : Slot) : M Heap Slot :=
  match fuel with
  | O => undefined
  | S fuel =>
      p ← load_slot t ptr;
      match p with
      | None => mret ptr
      | Some a =>
          e ← handle a;
          if decide (hash e ≠ h) then FindPointer_loop fuel t key h (NextHash a)
          else
            k ← handle_key a;
            if decide (key ≠ k) then FindPointer_loop fuel t key h (NextHash a) else mret ptr
      end
  end.

Definition FindPointer (t : HandleTable) (key : bytes) (h : Z) : M Heap Slot :=
  FindPointer_loop (S (Z.to_nat (elems_ t))) t key h (Bucket (bucket_of (length_ t) h)).

(** [while (new_length < elems_) new_length *= 2] *)
Fixpoint grow_length (fuel : nat) (elems new_length : Z) : option Z :=
  if decide (new_length < elems) then
    match fuel with O => None | S fuel => grow_length fuel elems (u32 (new_length * 2)) end
  else Some new_length.

(** The entries of one chain, from [h] on, into the new list. *)
Fixpoint rehash_chain (fuel : nat) (new_length : Z) (h : option nat) (new_list : list (option nat)) : M Heap (list (option nat)) :=
  match h with
  | None => mret new_list
  | Some a =>
      match fuel with
      | O => undefined
      | S fuel =>
          e ← handle a;
          let i := bucket_of new_length (hash e) in
          match new_list !! i with
          | None => undefined
          | Some p =>
              _ ← set_next_hash a p;
              rehash_chain fuel new_length (next_hash e) (<[i := Some a]> new_list)
          end
      end
  end.

Fixpoint rehash (fuel : nat) (new_length : Z) (old_list new_list : list (option nat)) : M Heap (list (option nat)) :=
  match old_list with
  | [] => mret new_list
  | h :: old_list =>
      new_list ← rehash_chain fuel new_length h new_list;
      rehash fuel new_length old_list new_list
  end.

Definition Resize (t : HandleTable) : M Heap HandleTable :=
  match grow_length 32 (elems_ t) 4 with
  | None => undefined
  | Some new_length =>
      l ← rehash (Z.to_nat (elems_ t)) new_length (list_ t) (replicate (Z.to_nat new_length) None);
      mret {| length_ := new_length; elems_ := elems_ t; list_ := l |}
  end.

(** The constructor; [Resize] finds nothing to move. *)
Definition new_HandleTable : HandleTable := {| length_ := 4; elems_ := 0; list_ := replicate 4 None |}.

Definition table_Lookup (t : HandleTable) (key : bytes) (h : Z) : M Heap (option nat) :=
  ptr ← FindPointer t key h;
  load_slot t ptr.

Definition table_Insert (t : HandleTable) (a : nat) : M Heap (option nat * HandleTable) :=
  k ← handle_key a;
  e ← handle a;
  ptr ← FindPointer t k (hash e);
  old ← load_slot t ptr;
  p ← (match old with None => mret None | Some o => eo ← handle o; mret (next_hash eo) end);
  _ ← set_next_hash a p;
  t ← store_slot t ptr (Some a);
  match old with
  | None =>
      let t := {| length_ := length_ t; elems_ := u32 (elems_ t + 1); list_ := list_ t |} in
      if decide (length_ t < elems_ t) then t ← Resize t; mret (None, t) else mret (None, t)
  | Some o => mret (Some o, t)
  end.

Definition table_Remove (t : HandleTable) (key : bytes) (h : Z) : M Heap (option nat * HandleTable) :=
  ptr ← FindPointer t key h;
  result ← load_slot t ptr;
  match result with
  | Some a =>
      e ← handle a;
      t ← store_slot t ptr (next_hash e);
      mret (Some a, {| length_ := length_ t; elems_ := u32 (elems_ t - 1); list_ := list_ t |})
  | None => mret (None, t)
  end.

(** ** [LRUCache] *)

(** [lru_] is the address of the head of the list. *)
Record LRUCache := { capacity_ : Z; usage_ : Z; lru_ : nat; table_ : HandleTable }.

Definition with_usage (c : LRUCache) (usage : Z) : LRUCache :=
  {| capacity_ := capacity_ c; usage_ := usage; lru_ := lru_ c; table_ := table_ c |}.
Definition with_table (c : LRUCache) (t : HandleTable) : LRUCache :=
  {| capacity_ := capacity_ c; usage_ := usage_ c; lru_ := lru_ c; table_ := t |}.

Definition free_entry (a : nat) (e : LRUHandle) (k : bytes) : M Heap () := λ s,
  Some ((), {| mem := delete a (mem s); next_address := next_address s; deleted := deleted s ++ [(deleter e, k, value e)] |}).

Definition Unref (c : LRUCache) (a : nat) : M Heap LRUCache :=
  e ← handle a;
  let n := u32 (refs e - 1) in
  _ ← set_refs a n;
  if decide (n ≤ 0) then
    k ← handle_key a;
    _ ← free_entry a e k;
    mret (with_usage c (usize (usage_ c - charge e)))
  else mret c.

Definition LRU_Remove (a : nat) : M Heap () := on_mem (unlink a).
Definition LRU_Append (c : LRUCache) (a : nat) : M Heap () := on_mem (insert_before (lru_ c) a).

Definition lru_Lookup (c : LRUCache) (key : bytes) (h : Z) : M Heap (option nat) :=
  r ← table_Lookup (table_ c) key h;
  match r with
  | Some a =>
      e ← handle a;
      _ ← set_refs a (u32 (refs e + 1));
      _ ← LRU_Remove a;
      _ ← LRU_Append c a;
      mret (Some a)
  | None => mret None
  end.

Definition lru_Release (c : LRUCache) (a : nat) : M Heap LRUCache := Unref c a.

(** [malloc] and the members that are set before the entry is linked; the
    pointers are not set. *)
Definition new_entry (key : bytes) (h : Z) (v : V) (ch : Z) (d : D) : M Heap nat := λ s,
  let a := next_address s in
  let e := {| value := v; deleter := d; next_hash := None; charge := ch; key_data := key; refs := 2; hash := h |} in
  Some (a, {| mem := <[a := {| prev_ := a; next_ := a; data_ := Some e |}]> (mem s); next_address := S a; deleted := deleted s |}).

(** [while (usage_ > capacity_ && lru_.next != &lru_)] *)
Fixpoint evict_loop (fuel : nat) (c : LRUCache) : M Heap LRUCache :=
  next ← read (load_next (lru_ c));
  if bool_decide (capacity_ c < usage_ c) && bool_decide (next ≠ lru_ c) then
    match fuel with
    | O => undefined
    | S fuel =>
        _ ← LRU_Remove next;
        k ← handle_key next;
        e ← handle next;
        '(_, t) ← table_Remove (table_ c) k (hash e);
        c ← Unref (with_table c t) next;
        evict_loop fuel c
    end
  else mret c.

Definition lru_Insert (c : LRUCache) (key : bytes) (h : Z) (v : V) (ch : Z) (d : D) : M Heap (nat * LRUCache) :=
  a ← new_entry key h v ch d;
  _ ← LRU_Append c a;
  let c := with_usage c (usize (usage_ c + ch)) in
  '(old, t) ← table_Insert (table_ c) a;
  let c := with_table c t in
  c ← (match old with
       | Some o => _ ← LRU_Remove o; Unref c o
       | None => mret c
       end);
  c ← evict_loop (Z.to_nat (elems_ (table_ c))) c;
  mret (a, c).

Definition lru_Erase (c : LRUCache) (key : bytes) (h : Z) : M Heap LRUCache :=
  '(r, t) ← table_Remove (table_ c) key h;
  let c := with_table c t in
  match r with
  | Some a => _ ← LRU_Remove a; Unref c a
  | None => mret c
  end.

(** The destructor: every entry is released by the cache. *)
Fixpoint destroy_loop (fuel : nat) (c : LRUCache) (a : nat) : M Heap LRUCache :=
  if decide (a = lru_ c) then mret c
  else
    match fuel with
    | O => undefined
    | S fuel =>
        next ← read (load_next a);
        c ← Unref c a;
        destroy_loop fuel c next
    end.

Definition destroy_LRUCache (c : LRUCache) : M Heap LRUCache :=
  next ← read (load_next (lru_ c));
  destroy_loop (Z.to_nat (elems_ (table_ c))) c next.

(** ** [ShardedLRUCache] *)

Definition kNumShardBits : Z := 4.
Definition kNumShards : Z := 2 ^ kNumShardBits.

(** The memory that a shard has allocated is kept with it, so that an address
    is the number of the shard that allocated it and a number there. *)
Record ShardedLRUCache := { shard_ : list (LRUCache * Heap); last_id_ : Z }.

Definition Handle : Type := nat * nat.

Definition HashSlice (s : bytes) : Z := Hash s 0.
Definition Shard (hash : Z) : nat := Z.to_nat (Z.shiftr hash (32 - kNumShardBits)).

(** An operation of the shard [i] on the memory of the region [r]. *)
Definition on_shard {A} (i r : nat) (f : LRUCache → M Heap (A * LRUCache)) (c : ShardedLRUCache) : option (A * ShardedLRUCache) :=
  '(s, h) ← shard_ c !! i;
  '(_, h) ← shard_ c !! r;
  '((a, s), h) ← f s h;
  c1 ← shard_ c !! i;
  let l := <[i := (s, c1.2)]> (shard_ c) in
  c2 ← l !! r;
  Some (a, {| shard_ := <[r := (c2.1, h)]> l; last_id_ := last_id_ c |}).

(** A shard, empty, with its head at address 0. *)
Definition new_shard (capacity : Z) : LRUCache * Heap :=
  ({| capacity_ := capacity; usage_ := 0; lru_ := 0; table_ := new_HandleTable |},
   {| mem := {[ 0%nat := {| prev_ := 0%nat; next_ := 0%nat; data_ := None |} ]}; next_address := 1; deleted := [] |}).

Definition NewLRUCache (capacity : Z) : ShardedLRUCache :=
  let per_shard := usize (capacity + (kNumShards - 1)) / kNumShards in
  {| shard_ := replicate (Z.to_nat kNumShards) (new_shard per_shard); last_id_ := 0 |}.

Definition Insert (c : ShardedLRUCache) (key : bytes) (v : V) (ch : Z) (d : D) : option (Handle * ShardedLRUCache) :=
  let hash := HashSlice key in
  let i := Shard hash in
  '(a, c) ← on_shard i i (λ s, lru_Insert s key hash v ch d) c;
  Some ((i, a), c).

Definition Lookup (c : ShardedLRUCache) (key : bytes) : option (option Handle * ShardedLRUCache) :=
  let hash := HashSlice key in
  let i := Shard hash in
  '(r, c) ← on_shard (A := option nat) i i (λ s, (r ← lru_Lookup s key hash; mret (r, s))) c;
  Some (match r with Some a => Some (i, a) | None => None end, c).

(** The entry at a handle. *)
Definition at_handle (c : ShardedLRUCache) (h : Handle) : option LRUHandle :=
  '(_, m) ← shard_ c !! h.1;
  n ← mem m !! h.2;
  data_ n.

Definition Release (c : ShardedLRUCache) (h : Handle) : option ShardedLRUCache :=
  e ← at_handle c h;
  snd <$> on_shard (A := ()) (Shard (hash e)) h.1 (λ s, (s ← lru_Release s h.2; mret ((), s))) c.

Definition Erase (c : ShardedLRUCache) (key : bytes) : option ShardedLRUCache :=
  let hash := HashSlice key in
  let i := Shard hash in
  snd <$> on_shard (A := ()) i i (λ s, (s ← lru_Erase s key hash; mret ((), s))) c.

Definition Value (c : ShardedLRUCache) (h : Handle) : option V := value <$> at_handle c h.

(** The destructor; the memory of a shard is its own. *)
Definition delete_ShardedLRUCache (c : ShardedLRUCache) : option ShardedLRUCache :=
  l ← mapM (λ sh : LRUCache * Heap, destroy_LRUCache sh.1 sh.2) (shard_ c);
  Some {| shard_ := l; last_id_ := last_id_ c |}.

(** What the deleters were called with. *)
Definition deletions (c : ShardedLRUCache) : list (D * bytes * V) := concat (deleted ∘ snd <$> shard_ c).

Definition NewId (c : ShardedLRUCache) : Z * ShardedLRUCache :=
  (u64 (last_id_ c + 1), {| shard_ := shard_ c; last_id_ := u64 (last_id_ c + 1) |}).
End Cache.
