(* ===== verification/CacheTable.v ===== *)
(** The hash table of the cache ([HandleTable] of [util/cache.cc]): the chains
    of the buckets are the entries of the table, each in the bucket of its hash,
    under insertion, removal and growth. *)
From stdpp Require Import gmap.
From S2P Require Import Prelude SortedLists Env DList Cache.

(** ** Views of the memory *)

(** An entry without the pointers and the references. *)
Record Entry {V D : Type} := { e_key : bytes; e_hash : Z; e_value : V; e_charge : Z; e_deleter : D }.
Arguments Entry : clear implicits.

Section Memory.
Context {V D : Type}.
Abbreviation LRUHandle := (LRUHandle (V := V) (D := D)).
Abbreviation Heap := (Heap (V := V) (D := D)).
Abbreviation memory := (gmap nat (Node (option LRUHandle))).
Implicit Types (m : memory) (s : Heap) (a x : nat) (e : LRUHandle).

Definition get m a : option LRUHandle := n ← m !! a; data_ n.

(** What is left of an entry without the pointers and the references. *)
Definition entry_of (e : LRUHandle) : Entry V D :=
  {| e_key := key_data e; e_hash := hash e; e_value := value e; e_charge := charge e; e_deleter := deleter e |}.

Definition ent m a : option (Entry V D) := entry_of <$> get m a.
Definition nh m a : option (option nat) := next_hash <$> get m a.
Definition rc m a : option Z := refs <$> get m a.

(** The links are the same. *)
Definition same_links m m' : Prop := ∀ x, load_prev x m' = load_prev x m ∧ load_next x m' = load_next x m.

Lemma same_links_dlist m m' d l : same_links m m' → dlist m d l → dlist m' d l.
Proof. intros H. apply dlist_frame. intros x _. apply H. Qed.

Record stored m m' a e : Prop := {
  st_links : same_links m m';
  st_get : get m' a = Some e;
  st_other x : x ≠ a → get m' x = get m x;
}.

Lemma set_handle_spec s a e e0 :
  get (mem s) a = Some e0 →
  ∃ m', set_handle a e s = Some ((), set_mem m' s) ∧ stored (mem s) m' a e.
Proof.
  intros Hg. unfold set_handle, on_mem, get in *. destruct (mem s !! a) as [n|] eqn:En; [|done]. cbn in *.
  eexists. split; [done|]. split.
  - intros x. unfold load_prev, load_next. destruct (decide (x = a)) as [->|]; simplify_map_eq; by rewrite ?En.
  - unfold get. by simplify_map_eq.
  - intros x Hx. unfold get. by simplify_map_eq.
Qed.

Lemma handle_spec s a e : get (mem s) a = Some e → handle a s = Some (e, s).
Proof. intros Hg. unfold handle, read. unfold get in Hg. by rewrite Hg. Qed.

Lemma read_spec {A} (f : memory → option A) s r : f (mem s) = Some r → read f s = Some (r, s).
Proof. intros E. unfold read. by rewrite E. Qed.

Lemma set_next_hash_spec s a p e :
  get (mem s) a = Some e →
  ∃ m', set_next_hash a p s = Some ((), set_mem m' s) ∧ same_links (mem s) m' ∧
    (∀ x, ent m' x = ent (mem s) x) ∧ (∀ x, rc m' x = rc (mem s) x) ∧
    nh m' a = Some p ∧ ∀ x, x ≠ a → nh m' x = nh (mem s) x.
Proof.
  intros Hg. unfold set_next_hash. rewrite (M_bind_Some _ _ _ _ _ (handle_spec _ _ _ Hg)).
  match goal with |- context [set_handle a ?e' s] => destruct (set_handle_spec s a e' e Hg) as (m' & -> & [Hl Ha Ho]) end.
  exists m'. unfold ent, rc, nh. splits; [done|done|..].
  - intros x. destruct (decide (x = a)) as [->|Hx]; [by rewrite Ha, Hg|by rewrite Ho].
  - intros x. destruct (decide (x = a)) as [->|Hx]; [by rewrite Ha, Hg|by rewrite Ho].
  - by rewrite Ha.
  - intros x Hx. by rewrite Ho.
Qed.

Lemma set_refs_spec s a n e :
  get (mem s) a = Some e →
  ∃ m', set_refs a n s = Some ((), set_mem m' s) ∧ same_links (mem s) m' ∧
    (∀ x, ent m' x = ent (mem s) x) ∧ (∀ x, nh m' x = nh (mem s) x) ∧
    rc m' a = Some n ∧ ∀ x, x ≠ a → rc m' x = rc (mem s) x.
Proof.
  intros Hg. unfold set_refs. rewrite (M_bind_Some _ _ _ _ _ (handle_spec _ _ _ Hg)).
  match goal with |- context [set_handle a ?e' s] => destruct (set_handle_spec s a e' e Hg) as (m' & -> & [Hl Ha Ho]) end.
  exists m'. unfold ent, rc, nh. splits; [done|done|..].
  - intros x. destruct (decide (x = a)) as [->|Hx]; [by rewrite Ha, Hg|by rewrite Ho].
  - intros x. destruct (decide (x = a)) as [->|Hx]; [by rewrite Ha, Hg|by rewrite Ho].
  - by rewrite Ha.
  - intros x Hx. by rewrite Ho.
Qed.

(** Changes of the links leave the entries alone. *)
Lemma relinked_get l m m' x : relinked l m m' → get m' x = get m x.
Proof.
  intros [Hd _]. specialize (Hd x). unfold get. destruct (m' !! x), (m !! x); cbn in *; congruence.
Qed.

Lemma handle_key_spec s a e q :
  get (mem s) a = Some e → load_next a (mem s) = Some q → q ≠ a → handle_key a s = Some (key_data e, s).
Proof.
  intros Hg Hq Hne. unfold handle_key. rewrite (M_bind_Some _ _ _ _ _ (read_spec _ _ _ Hq)), decide_False by done.
  by rewrite (M_bind_Some _ _ _ _ _ (handle_spec _ _ _ Hg)).
Qed.

Lemma ent_Some m a E : ent m a = Some E → ∃ e, get m a = Some e ∧ entry_of e = E.
Proof. unfold ent. destruct (get m a) as [e|]; [|done]. cbn. intros [= <-]. by exists e. Qed.

(** ** The table *)

Fixpoint chain m (p : option nat) (l : list nat) : Prop :=
  match l with
  | [] => p = None
  | a :: l => p = Some a ∧ ∃ q, nh m a = Some q ∧ chain m q l
  end.

Lemma chain_frame m m' p l : (∀ x, x ∈ l → nh m' x = nh m x) → chain m p l → chain m' p l.
Proof.
  revert p. induction l as [|a l IH]; intros p Hf; cbn; [done|]. intros [-> (q & Hq & Hc)]. split; [done|].
  exists q. rewrite Hf by left. split; [done|]. apply IH; [|done]. intros x Hx. apply Hf. by right.
Qed.

Lemma chain_head m p l : chain m p l → p = head l.
Proof. destruct l; [done|]. by intros []. Qed.

(** The entries of a bucket belong there. *)
Definition buckets_ok m (length : Z) (bs : list (list nat)) : Prop := ∀ i b a,
  bs !! i = Some b → a ∈ b → ∃ E, ent m a = Some E ∧ 0 ≤ e_hash E ∧ bucket_of length (e_hash E) = i.

(** [key()] is defined. *)
Definition next_ok m a : Prop := ∃ q, load_next a m = Some q ∧ q ≠ a.

Record table_rep (t : HandleTable) m (bs : list (list nat)) : Prop := {
  tr_pow : ∃ k, 2 ≤ k ≤ 31 ∧ length_ t = 2 ^ k;
  tr_list : length (list_ t) = Z.to_nat (length_ t);
  tr_chains : Forall2 (chain m) (list_ t) bs;
  tr_buckets : buckets_ok m (length_ t) bs;
  tr_next a : a ∈ concat bs → next_ok m a;
  tr_nodup : NoDup (concat bs);
  tr_elems : elems_ t = zlen (concat bs);
}.

(** The slot behind the entries [l1] of bucket [i]. *)
Definition slot_at (i : nat) (l1 : list nat) : Slot :=
  match list.last l1 with None => Bucket i | Some a => NextHash a end.

Lemma load_slot_spec (t : HandleTable) s i p l1 l2 :
  list_ t !! i = Some p → chain (mem s) p (l1 ++ l2) → load_slot t (slot_at i l1) s = Some (head l2, s).
Proof.
  intros Hi Hc. unfold slot_at. destruct l1 as [|a l1 _] using rev_ind.
  - cbn. rewrite Hi. cbn. by rewrite (chain_head _ _ _ Hc).
  - rewrite last_snoc. cbn. rewrite <- app_assoc in Hc. revert p Hi Hc.
    enough (∀ p, chain (mem s) p (l1 ++ [a] ++ l2) → (e ← handle a; mret (next_hash e)) s = Some (head l2, s)) by eauto.
    induction l1 as [|b l1 IH]; intros p; cbn [app chain].
    + intros [-> (q & Hq & Hc)]. unfold nh in Hq. destruct (get (mem s) a) as [e|] eqn:Eg; [|done].
      rewrite (M_bind_Some _ _ _ _ _ (handle_spec _ _ _ Eg)). injection Hq as ->. by rewrite (chain_head _ _ _ Hc).
    + intros [-> (q & Hq & Hc)]. by apply (IH q).
Qed.

(** All but [next_hash] is the same. *)
Record same_core m m' : Prop := {
  sc_links : same_links m m';
  sc_ent x : ent m' x = ent m x;
  sc_rc x : rc m' x = rc m x;
}.

Lemma same_core_refl m : same_core m m.
Proof. by split. Qed.

Lemma same_core_trans m1 m2 m3 : same_core m1 m2 → same_core m2 m3 → same_core m1 m3.
Proof.
  intros [L1 E1 R1] [L2 E2 R2]. split; [|by intros; rewrite E2|by intros; rewrite R2].
  intros x. destruct (L1 x) as [<- <-]. apply L2.
Qed.

Lemma set_next_hash_core s a p :
  is_Some (get (mem s) a) →
  ∃ m', set_next_hash a p s = Some ((), set_mem m' s) ∧ same_core (mem s) m' ∧
    nh m' a = Some p ∧ ∀ x, x ≠ a → nh m' x = nh (mem s) x.
Proof.
  intros [e He]. destruct (set_next_hash_spec s a p e He) as (m' & E & Hl & He' & Hr & Ha & Ho). by exists m'.
Qed.

Lemma nh_get m a q : nh m a = Some q → is_Some (get m a).
Proof. unfold nh. by destruct (get m a). Qed.

Lemma ent_get m a E : ent m a = Some E → is_Some (get m a).
Proof. unfold ent. by destruct (get m a). Qed.

Lemma chain_get m p l a : chain m p l → a ∈ l → is_Some (get m a).
Proof.
  revert p. induction l as [|b l IH]; intros p; [by intros _ ?%elem_of_nil|]. intros (_ & q & Hq & Hc) [->|Ha]%elem_of_cons.
  - by eapply nh_get.
  - by eapply IH.
Qed.

(** The last pointer of a part of a chain is redirected. *)
Lemma chain_redirect m m' p l1 l2 b q l3 :
  chain m p ((l1 ++ [b]) ++ l2) → b ∉ l1 → nh m' b = Some q → (∀ x, x ≠ b → nh m' x = nh m x) → chain m' q l3 →
  chain m' p ((l1 ++ [b]) ++ l3).
Proof.
  intros Hc Hb Hnb Hno H3. revert p Hc. induction l1 as [|y l1 IH]; intros p; cbn [app chain].
  - intros [-> _]. split; [done|]. by exists q.
  - intros [-> (r & Hr & Hc)]. split; [done|]. exists r. apply not_elem_of_cons in Hb as [Hby Hb].
    rewrite Hno by done. split; [done|]. by apply IH.
Qed.

Lemma concat_insert {A} (bs : list (list A)) i b b' :
  bs !! i = Some b → ∃ pre post, concat bs = pre ++ b ++ post ∧ concat (<[i := b']> bs) = pre ++ b' ++ post.
Proof.
  intros Hi. exists (concat (take i bs)), (concat (drop (S i) bs)).
  pose proof (lookup_lt_Some _ _ _ Hi) as Hlt. split.
  - rewrite <- (take_drop_middle bs i b Hi) at 1. by rewrite concat_app.
  - rewrite insert_take_drop by done. by rewrite concat_app.
Qed.

Lemma bucket_disjoint {A} (bs : list (list A)) i j b c (a : A) :
  NoDup (concat bs) → bs !! i = Some b → bs !! j = Some c → a ∈ b → a ∈ c → i = j.
Proof.
  revert i j. induction bs as [|d bs IH]; intros i j Hnd Hi Hj Ha Hc; [done|].
  cbn in Hnd. apply list.NoDup_app in Hnd as (_ & Hdis & Hnd).
  destruct i as [|i], j as [|j]; cbn in Hi, Hj; [done|..|f_equal; by eapply IH].
  - injection Hi as ->. destruct (Hdis a Ha). apply elem_of_concat. exists c. split; [done|]. by eapply list_elem_of_lookup_2.
  - injection Hj as ->. destruct (Hdis a Hc). apply elem_of_concat. exists b. split; [done|]. by eapply list_elem_of_lookup_2.
Qed.

Lemma bucket_nodup {A} (bs : list (list A)) i b : NoDup (concat bs) → bs !! i = Some b → NoDup b.
Proof.
  intros Hnd Hi. destruct (concat_insert bs i b [] Hi) as (pre & post & E & _). rewrite E in Hnd.
  apply list.NoDup_app in Hnd as (_ & _ & Hnd). by apply list.NoDup_app in Hnd as [? _].
Qed.

Lemma store_slot_spec (t : HandleTable) s bs i l1 l2 p l3 :
  Forall2 (chain (mem s)) (list_ t) bs → NoDup (concat bs) → bs !! i = Some (l1 ++ l2) →
  chain (mem s) p l3 → (∀ x, x ∈ l3 → x ∉ l1) →
  ∃ t' m', store_slot t (slot_at i l1) p s = Some (t', set_mem m' s) ∧ same_core (mem s) m' ∧
    length_ t' = length_ t ∧ elems_ t' = elems_ t ∧ length (list_ t') = length (list_ t) ∧
    Forall2 (chain m') (list_ t') (<[i := l1 ++ l3]> bs).
Proof.
  intros Hch Hnd Hi H3 Hdis. unfold slot_at. destruct l1 as [|b l1 _] using rev_ind; cbn [list.last].
  - exists {| length_ := length_ t; elems_ := elems_ t; list_ := <[i := p]> (list_ t) |}, (mem s).
    split; [by destruct s|]. split; [by split|]. cbn. rewrite length_insert. splits; [done..|].
    by apply Forall2_insert.
  - rewrite last_snoc. cbn [store_slot]. destruct (Forall2_lookup_r _ _ _ _ _ Hch Hi) as (p0 & Hp0 & Hc0).
    pose proof (bucket_nodup _ _ _ Hnd Hi) as Hndb.
    assert (Hb : b ∉ l1).
    { rewrite <- app_assoc in Hndb. apply list.NoDup_app in Hndb as (_ & Hd & _). intros Hin. apply (Hd b Hin). by left. }
    destruct (set_next_hash_core s b p) as (m' & E & Hcore & Hnb & Hno).
    { eapply chain_get; [exact Hc0|]. set_solver. }
    exists t, m'. rewrite (M_bind_Some _ _ _ _ _ E). split; [done|]. split; [done|]. splits; [done..|].
    apply Forall2_same_length_lookup. split; [rewrite length_insert; by eapply Forall2_length|].
    intros j q c Hq Hc. destruct (decide (j = i)) as [->|Hji].
    + rewrite list_lookup_insert_eq in Hc by by eapply lookup_lt_Some. injection Hc as <-.
      assert (q = p0) as -> by congruence. eapply chain_redirect; [exact Hc0|done..|].
      eapply chain_frame; [|exact H3]. intros x Hx. apply Hno. intros ->. apply (Hdis b Hx). set_solver.
    + rewrite list_lookup_insert_ne in Hc by done. eapply chain_frame; [|by eapply Forall2_lookup_lr].
      intros x Hx. apply Hno. intros ->. apply Hji. eapply (bucket_disjoint bs j i); [done..|]. set_solver.
Qed.

(** ** Searching *)

Definition is_key m (key : bytes) (h : Z) a : Prop := ∃ E, ent m a = Some E ∧ e_hash E = h ∧ e_key E = key.

Lemma bucket_of_lt k h : 2 ≤ k ≤ 31 → 0 ≤ h → (bucket_of (2 ^ k) h < Z.to_nat (2 ^ k))%nat.
Proof.
  intros Hk Hh. assert (2 ^ k ≤ 2 ^ 31) by (apply Z.pow_le_mono_r; lia). assert (0 < 2 ^ k) by (apply Z.pow_pos_nonneg; lia).
  unfold bucket_of. rewrite wrap_small by (unfold in_w; lia).
  replace (2 ^ k - 1) with (Z.ones k) by (rewrite Z.ones_equiv; lia). rewrite Z.land_ones by lia.
  pose proof (Z.mod_pos_bound h (2 ^ k)). lia.
Qed.

Lemma FindPointer_loop_spec (t : HandleTable) s i p key h fuel l1 l2 :
  list_ t !! i = Some p → chain (mem s) p (l1 ++ l2) →
  (∀ a, a ∈ l2 → ∃ E, ent (mem s) a = Some E ∧ next_ok (mem s) a) →
  (length l2 < fuel)%nat →
  ∃ l3 l4, l2 = l3 ++ l4 ∧ FindPointer_loop fuel t key h (slot_at i l1) s = Some (slot_at i (l1 ++ l3), s) ∧
    (∀ a, a ∈ l3 → ¬ is_key (mem s) key h a) ∧ ∀ a, head l4 = Some a → is_key (mem s) key h a.
Proof.
  intros Hi. revert l1 l2. induction fuel as [|fuel IH]; intros l1 l2 Hc Hent Hf; [lia|].
  cbn [FindPointer_loop]. rewrite (M_bind_Some _ _ _ _ _ (load_slot_spec _ _ _ _ _ _ Hi Hc)).
  destruct l2 as [|a l2]; cbn [head].
  - exists [], []. rewrite (app_nil_r l1). splits; [done..| |done]. by intros a ?%elem_of_nil.
  - destruct (Hent a) as (E & HE & q & Hq & Hqa); [by left|].
    destruct (ent_Some _ _ _ HE) as (e & He & <-). rewrite (M_bind_Some _ _ _ _ _ (handle_spec _ _ _ He)).
    assert (Hrec : ¬ is_key (mem s) key h a →
      ∃ l3 l4, a :: l2 = l3 ++ l4 ∧
      FindPointer_loop fuel t key h (NextHash a) s = Some (slot_at i (l1 ++ l3), s) ∧
      (∀ a, a ∈ l3 → ¬ is_key (mem s) key h a) ∧ ∀ a, head l4 = Some a → is_key (mem s) key h a).
    { intros Hno. destruct (IH (l1 ++ [a]) l2) as (l3 & l4 & -> & E & H3 & H4).
      - by rewrite <- app_assoc.
      - intros x Hx. apply Hent. by right.
      - cbn in Hf. lia.
      - exists (a :: l3), l4. split; [done|]. split; [|split; [|done]].
        + rewrite <- app_assoc in E. cbn in E. rewrite <- E. f_equal. unfold slot_at. by rewrite last_snoc.
        + by intros x [->|Hx]%elem_of_cons; [|apply H3]. }
    destruct (decide (hash e ≠ h)) as [Hh|Hh].
    + apply Hrec. intros (E & HE' & Hh' & _). rewrite HE' in HE. injection HE as ->. by apply Hh.
    + rewrite (M_bind_Some _ _ _ _ _ (handle_key_spec _ _ _ _ He Hq Hqa)). destruct (decide (key ≠ key_data e)) as [Hk|Hk].
      * apply Hrec. intros (E & HE' & _ & Hk'). rewrite HE' in HE. injection HE as ->. by apply Hk.
      * exists [], (a :: l2). rewrite (app_nil_r l1). splits; [done..|by intros x ?%elem_of_nil|].
        intros x [= <-]. exists (entry_of e). split; [done|]. cbn. split; [|symmetry]; by apply dec_stable.
Qed.

(** Where the table has, or would have, the key. *)
Lemma FindPointer_spec (t : HandleTable) s bs key h :
  table_rep t (mem s) bs → 0 ≤ h →
  let i := bucket_of (length_ t) h in
  ∃ l1 l2, bs !! i = Some (l1 ++ l2) ∧ FindPointer t key h s = Some (slot_at i l1, s) ∧
    load_slot t (slot_at i l1) s = Some (head l2, s) ∧
    (∀ a, head l2 = Some a → is_key (mem s) key h a) ∧
    (l2 = [] → ∀ a, a ∈ concat bs → ¬ is_key (mem s) key h a).
Proof.
  intros HT Hh i. destruct HT as [(k & Hk & Hpow) Hlen Hch Hb Hn Hnd Hel].
  assert (Hi : (i < length (list_ t))%nat) by (unfold i; rewrite Hlen, Hpow; by apply bucket_of_lt).
  apply lookup_lt_is_Some in Hi as [p Hp]. destruct (Forall2_lookup_l _ _ _ _ _ Hch Hp) as (b & Hbi & Hc).
  destruct (FindPointer_loop_spec t s i p key h (S (Z.to_nat (elems_ t))) [] b Hp Hc) as (l1 & l2 & -> & E & H1 & H2).
  - intros a Ha. destruct (Hb i b a Hbi Ha) as (E & HE & _). exists E. split; [done|]. apply Hn, elem_of_concat.
    exists b. split; [done|]. by eapply list_elem_of_lookup_2.
  - destruct (concat_insert bs i b [] Hbi) as (pre & post & Econ & _). rewrite Hel, Econ, !zlen_app. unfold zlen. lia.
  - exists l1, l2. split; [done|]. split; [exact E|]. split; [by eapply load_slot_spec|]. split; [done|].
    intros -> a Ha. apply elem_of_concat in Ha as (c & Ha & Hc'). apply list_elem_of_lookup in Hc' as [j Hj].
    rewrite app_nil_r in *. intros Hkey. destruct (Hkey) as (E' & HE' & Hh' & _).
    destruct (Hb j c a Hj Ha) as (E'' & HE'' & _ & Hj'). assert (j = i) as ->; [|].
    + rewrite <- Hj'. unfold i. congruence.
    + assert (c = l1) as -> by congruence. by apply (H1 a).
Qed.

Lemma table_Lookup_spec (t : HandleTable) s bs key h :
  table_rep t (mem s) bs → 0 ≤ h →
  ∃ r, table_Lookup t key h s = Some (r, s) ∧
    match r with
    | Some a => a ∈ concat bs ∧ is_key (mem s) key h a
    | None => ∀ a, a ∈ concat bs → ¬ is_key (mem s) key h a
    end.
Proof.
  intros HT Hh. destruct (FindPointer_spec t s bs key h HT Hh) as (l1 & l2 & Hi & E & El & H1 & H2).
  exists (head l2). unfold table_Lookup. rewrite (M_bind_Some _ _ _ _ _ E). split; [done|].
  destruct l2 as [|a l2]; cbn; [by apply H2|]. split; [|by apply H1].
  apply elem_of_concat. eexists. split; [|by eapply list_elem_of_lookup_2]. set_solver.
Qed.

Lemma buckets_core m m' L bs : same_core m m' → buckets_ok m L bs → buckets_ok m' L bs.
Proof. intros [_ He _] Hb i b a Hi Ha. rewrite He. by apply (Hb i b a). Qed.

Lemma next_core m m' a : same_links m m' → next_ok m a → next_ok m' a.
Proof. intros Hl (q & Hq & Hqa). exists q. destruct (Hl a) as [_ ->]. done. Qed.

Lemma is_key_core m m' key h a : same_core m m' → is_key m' key h a ↔ is_key m key h a.
Proof. intros [_ He _]. unfold is_key. by rewrite He. Qed.

Lemma around_Permutation {A} (pre l1 x post : list A) : pre ++ (l1 ++ x) ++ post ≡ₚ x ++ (pre ++ l1 ++ post).
Proof. solve_Permutation. Qed.

Lemma nodup_replace {A} (pre l1 l2 l3 post : list A) :
  NoDup (pre ++ (l1 ++ l2) ++ post) → NoDup l3 → (∀ y : A, y ∈ l3 → y ∉ pre ++ l1 ++ post) → NoDup (pre ++ (l1 ++ l3) ++ post).
Proof.
  rewrite !around_Permutation. intros (_ & _ & Hnd)%list.NoDup_app H3 Hd. by apply list.NoDup_app.
Qed.

Lemma nodup_apart {A} (pre l1 l2 post : list A) (x : A) : NoDup (pre ++ (l1 ++ l2) ++ post) → x ∈ l2 → x ∉ pre ++ l1 ++ post.
Proof. rewrite around_Permutation. intros (_ & Hd & _)%list.NoDup_app. apply Hd. Qed.

(** A part of a bucket is replaced. *)
Lemma table_rep_replace (t t' : HandleTable) m m' bs i l1 l2 l3 :
  table_rep t m bs → bs !! i = Some (l1 ++ l2) → same_core m m' →
  length_ t' = length_ t → length (list_ t') = length (list_ t) →
  Forall2 (chain m') (list_ t') (<[i := l1 ++ l3]> bs) →
  (∀ a, a ∈ l3 → a ∈ l2 ∨ (a ∉ concat bs ∧ next_ok m a ∧ ∃ E, ent m a = Some E ∧ 0 ≤ e_hash E ∧ bucket_of (length_ t) (e_hash E) = i)) →
  NoDup l3 → elems_ t' = zlen (concat bs) - zlen l2 + zlen l3 →
  table_rep t' m' (<[i := l1 ++ l3]> bs).
Proof.
  intros [(k & Hk & Hpow) Hlen Hch Hb Hn Hnd Hel] Hi Hcore HL Hll Hch' H3 Hnd3 Hel'.
  destruct (concat_insert bs i _ (l1 ++ l3) Hi) as (pre & post & E1 & E2).
  assert (Hsub : ∀ a, a ∈ l2 → a ∈ concat bs) by (intros a Ha; rewrite E1; set_solver).
  assert (Hother : ∀ a, a ∈ pre ∨ a ∈ l1 ∨ a ∈ post → a ∈ concat bs) by (intros a Ha; rewrite E1; set_solver).
  assert (Hd3 : ∀ a, a ∈ l3 → a ∉ pre ∧ a ∉ l1 ∧ a ∉ post).
  { intros a Ha. destruct (H3 a Ha) as [H|(H & _)]; [|naive_solver].
    rewrite E1 in Hnd. pose proof (nodup_apart _ _ _ _ a Hnd H). set_solver. }
  split.
  - exists k. by rewrite HL.
  - by rewrite Hll, HL.
  - done.
  - apply (buckets_core m); [done|]. rewrite HL. intros j c a Hj Ha. destruct (decide (j = i)) as [->|Hne].
    + rewrite list_lookup_insert_eq in Hj by by eapply lookup_lt_Some. injection Hj as <-.
      apply elem_of_app in Ha as [Ha|Ha]; [apply (Hb i _ a Hi); set_solver|].
      destruct (H3 a Ha) as [Ha'|(_ & _ & He)]; [apply (Hb i _ a Hi); set_solver|done].
    + rewrite list_lookup_insert_ne in Hj by done. by apply (Hb j c a).
  - intros a Ha. apply (next_core m); [apply Hcore|]. rewrite E2 in Ha.
    assert (a ∈ l3 ∨ (a ∈ pre ∨ a ∈ l1 ∨ a ∈ post)) as [Ha'|Ha'] by set_solver; [|by apply Hn, Hother].
    destruct (H3 a Ha') as [H|(_ & H & _)]; [|done]. by apply Hn, Hsub.
  - rewrite E1 in Hnd. rewrite E2. apply (nodup_replace pre l1 l2); [done..|]. intros a Ha. set_solver.
  - rewrite Hel', E1, E2, !zlen_app. lia.
Qed.

(** ** Removing and inserting *)

Lemma elems_wrap n : 0 ≤ n < 2 ^ 32 → u32 n = n.
Proof. intros. by rewrite wrap_small. Qed.

Lemma chain_cons_next m p l1 a l2 : chain m p (l1 ++ a :: l2) → ∃ q, nh m a = Some q ∧ chain m q l2.
Proof.
  revert p. induction l1 as [|b l1 IH]; intros p; cbn [app chain].
  - by intros [_ ?].
  - intros (_ & q & _ & Hc). by apply (IH q).
Qed.

Lemma nh_entry m a e q : get m a = Some e → nh m a = Some q → next_hash e = q.
Proof. unfold nh. intros ->. by intros [= ->]. Qed.

Lemma table_Remove_spec (t : HandleTable) s bs key h :
  table_rep t (mem s) bs → 0 ≤ h → zlen (concat bs) < 2 ^ 32 →
  ∃ r t' m' bs', table_Remove t key h s = Some ((r, t'), set_mem m' s) ∧ same_core (mem s) m' ∧ table_rep t' m' bs' ∧
    match r with
    | Some a => is_key (mem s) key h a ∧ concat bs ≡ₚ a :: concat bs'
    | None => (∀ a, a ∈ concat bs → ¬ is_key (mem s) key h a) ∧ bs' = bs
    end.
Proof.
  intros HT Hh Hsize. destruct (FindPointer_spec t s bs key h HT Hh) as (l1 & l2 & Hi & E & El & H1 & H2).
  set (i := bucket_of (length_ t) h) in *. unfold table_Remove.
  rewrite (M_bind_Some _ _ _ _ _ E), (M_bind_Some _ _ _ _ _ El).
  destruct l2 as [|a l2]; cbn [head].
  { exists None, t, (mem s), bs. split; [by destruct s|]. split; [by split|]. split; [done|]. split; [by apply H2|done]. }
  destruct (concat_insert bs i _ (l1 ++ l2) Hi) as (pre & post & E1 & E2).
  assert (Hp : concat bs ≡ₚ a :: concat (<[i := l1 ++ l2]> bs)).
  { rewrite E1, E2. solve_Permutation. }
  destruct (Forall2_lookup_r _ _ _ _ _ (tr_chains _ _ _ HT) Hi) as (p & _ & Hc).
  destruct (chain_cons_next _ _ _ _ _ Hc) as (q & Hq & Hc2).
  destruct (nh_get _ _ _ Hq) as [e He]. rewrite (M_bind_Some _ _ _ _ _ (handle_spec _ _ _ He)).
  rewrite (nh_entry _ _ _ _ He Hq).
  pose proof (bucket_nodup _ _ _ (tr_nodup _ _ _ HT) Hi) as Hndb.
  apply list.NoDup_app in Hndb as (_ & Hdis & [_ Hnd2]%list.NoDup_cons).
  destruct (store_slot_spec t s bs i l1 (a :: l2) q l2) as (t' & m' & Es & Hcore & HL & Hel & Hll & Hch).
  - apply HT.
  - apply HT.
  - done.
  - done.
  - intros x Hx Hx1. apply (Hdis x Hx1). by right.
  - rewrite (M_bind_Some _ _ _ _ _ Es).
    eexists (Some a), _, m', (<[i := l1 ++ l2]> bs). split; [done|]. split; [done|]. split; [|split; [by apply H1|done]].
    pose proof (Permutation_length Hp) as Hlp. cbn [length] in Hlp.
    eapply (table_rep_replace t _ (mem s) m' bs i l1 (a :: l2) l2); cbn; [done..| |done|].
    + intros x Hx. left. by right.
    + rewrite Hel, (tr_elems _ _ _ HT), elems_wrap by (unfold zlen in *; lia). rewrite zlen_cons. lia.
Qed.

Lemma table_link_spec (t : HandleTable) s bs a E :
  table_rep t (mem s) bs → ent (mem s) a = Some E → 0 ≤ e_hash E → next_ok (mem s) a → a ∉ concat bs →
  ∃ ptr old p s1 t' m' bs',
    FindPointer t (e_key E) (e_hash E) s = Some (ptr, s) ∧ load_slot t ptr s = Some (old, s) ∧
    (match old with None => mret None | Some o => eo ← handle o; mret (next_hash eo) end) s = Some (p, s) ∧
    set_next_hash a p s = Some ((), s1) ∧ store_slot t ptr (Some a) s1 = Some (t', set_mem m' s) ∧
    same_core (mem s) m' ∧ length_ t' = length_ t ∧ elems_ t' = elems_ t ∧
    (∀ n, n = zlen (concat bs') → table_rep {| length_ := length_ t'; elems_ := n; list_ := list_ t' |} m' bs') ∧
    match old with
    | Some o => o ∈ concat bs ∧ is_key (mem s) (e_key E) (e_hash E) o ∧ a :: concat bs ≡ₚ o :: concat bs'
    | None => (∀ x, x ∈ concat bs → ¬ is_key (mem s) (e_key E) (e_hash E) x) ∧ concat bs' ≡ₚ a :: concat bs
    end.
Proof.
  intros HT HE Hh Hna Hfresh. destruct (FindPointer_spec t s bs (e_key E) (e_hash E) HT Hh) as (l1 & l2 & Hi & EF & El & H1 & H2).
  set (i := bucket_of (length_ t) (e_hash E)) in *.
  destruct (Forall2_lookup_r _ _ _ _ _ (tr_chains _ _ _ HT) Hi) as (p0 & _ & Hc).
  assert (Hp : ∃ p, (match head l2 with None => mret None | Some o => eo ← handle o; mret (next_hash eo) end) s = Some (p, s) ∧
    chain (mem s) p (tail l2)).
  { destruct l2 as [|o l2]; cbn; [by exists None|]. destruct (chain_cons_next _ _ _ _ _ Hc) as (q & Hq & Hc2). exists q.
    destruct (nh_get _ _ _ Hq) as [e He]. rewrite (M_bind_Some _ _ _ _ _ (handle_spec _ _ _ He)), (nh_entry _ _ _ _ He Hq). done. }
  destruct Hp as (p & Ep & Hct).
  destruct (set_next_hash_core s a p (ent_get _ _ _ HE)) as (m1 & E1 & Hcore1 & Hnb & Hno).
  assert (Hch1 : Forall2 (chain m1) (list_ t) bs).
  { apply Forall2_same_length_lookup. split; [by eapply Forall2_length, (tr_chains _ _ _ HT)|]. intros j q c Hq Hc'.
    eapply chain_frame; [|eapply Forall2_lookup_lr; [apply (tr_chains _ _ _ HT)|done|done]].
    intros x Hx. apply Hno. intros ->. apply Hfresh, elem_of_concat. exists c. split; [done|]. by eapply list_elem_of_lookup_2. }
  assert (Hsub : ∀ x, x ∈ l1 ++ l2 → x ∈ concat bs).
  { intros x Hx. apply elem_of_concat. eexists. split; [exact Hx|]. by eapply list_elem_of_lookup_2. }
  assert (Htail : ∀ x, x ∈ tail l2 → x ∈ l2) by (intros x Hx; destruct l2; [done|by right]).
  pose proof (bucket_nodup _ _ _ (tr_nodup _ _ _ HT) Hi) as (_ & Hdis & Hnd2)%list.NoDup_app.
  assert (Hnd3 : NoDup (a :: tail l2)).
  { constructor; [intros Ha; apply Hfresh, Hsub; set_solver|]. destruct l2; [constructor|]. by apply list.NoDup_cons in Hnd2 as []. }
  destruct (store_slot_spec t (set_mem m1 s) bs i l1 l2 (Some a) (a :: tail l2)) as (t' & m' & Es & Hcore & HL & Hel & Hll & Hch).
  - done.
  - apply HT.
  - done.
  - cbn. split; [done|]. exists p. split; [done|]. eapply chain_frame; [|done]. intros x Hx. apply Hno. intros ->.
    apply list.NoDup_cons in Hnd3 as [Hnd3 _]. done.
  - intros x [->|Hx]%elem_of_cons Hx1; [apply Hfresh, Hsub; set_solver|]. apply (Hdis x Hx1). by apply Htail.
  - exists (slot_at i l1), (head l2), p, (set_mem m1 s), t', m', (<[i := l1 ++ a :: tail l2]> bs).
    split; [done|]. split; [done|]. split; [done|]. split; [done|]. split; [exact Es|].
    pose proof (same_core_trans _ _ _ Hcore1 Hcore) as HC. split; [done|]. split; [done|]. split; [done|].
    destruct (concat_insert bs i _ (l1 ++ a :: tail l2) Hi) as (pre & post & Eb1 & Eb2). split.
    + intros n ->. eapply (table_rep_replace t _ (mem s) m' bs i l1 l2 (a :: tail l2)); cbn; [done..| |done|].
      * intros x [->|Hx]%elem_of_cons; [right; split; [done|]; split; [done|]; by exists E|left; by apply Htail].
      * rewrite Eb2, Eb1, !zlen_app. lia.
    + destruct l2 as [|o l2]; cbn [head tail] in *.
      * split; [by apply H2|]. rewrite Eb2, Eb1. solve_Permutation.
      * split; [apply Hsub; set_solver|]. split; [by apply H1|]. rewrite Eb2, Eb1. solve_Permutation.
Qed.

(** ** Growing the table *)

Lemma grow_length_spec fuel elems k :
  2 ≤ k ≤ 31 → elems < 2 ^ 31 → 31 - k ≤ Z.of_nat fuel →
  ∃ k', 2 ≤ k' ≤ 31 ∧ grow_length fuel elems (2 ^ k) = Some (2 ^ k').
Proof.
  revert k. induction fuel as [|fuel IH]; intros k Hk He Hf; cbn [grow_length].
  - assert (k = 31) as -> by lia. exists 31. split; [lia|]. by rewrite decide_False by lia.
  - destruct (decide (2 ^ k < elems)) as [Hlt|Hge]; [|by exists k].
    assert (k < 31) by (destruct (decide (k = 31)) as [->|]; lia).
    assert (2 ^ k * 2 = 2 ^ (k + 1)) as -> by (rewrite Z.pow_add_r; lia).
    assert (2 ^ (k + 1) ≤ 2 ^ 31) by (apply Z.pow_le_mono_r; lia). assert (0 < 2 ^ (k + 1)) by (apply Z.pow_pos_nonneg; lia).
    rewrite elems_wrap by lia. apply IH; lia.
Qed.

(** The new list while the entries [c] are still to be moved. *)
Record moved m (L : Z) (nl : list (option nat)) (nbs : list (list nat)) : Prop := {
  mv_len : length nl = Z.to_nat L;
  mv_chains : Forall2 (chain m) nl nbs;
  mv_buckets : buckets_ok m L nbs;
}.

Definition hashed m a : Prop := ∃ E, ent m a = Some E ∧ 0 ≤ e_hash E.

Lemma rehash_chain_spec k fuel h nl nbs c s :
  2 ≤ k ≤ 31 → chain (mem s) h c → moved (mem s) (2 ^ k) nl nbs → NoDup (c ++ concat nbs) →
  (∀ a, a ∈ c → hashed (mem s) a) → (length c ≤ fuel)%nat →
  ∃ nl' m' nbs', rehash_chain fuel (2 ^ k) h nl s = Some (nl', set_mem m' s) ∧ same_core (mem s) m' ∧
    (∀ x, x ∉ c → nh m' x = nh (mem s) x) ∧ moved m' (2 ^ k) nl' nbs' ∧ concat nbs' ≡ₚ c ++ concat nbs.
Proof.
  intros Hk. revert h nl nbs c s. induction fuel as [|fuel IH]; intros h nl nbs c s Hc Hm Hnd Hh Hf.
  { destruct c; [|cbn in Hf; lia]. cbn in Hc. subst h. exists nl, (mem s), nbs. split; [by destruct s|]. split; [by split|done]. }
  destruct c as [|a c]; cbn [chain] in Hc.
  { subst h. exists nl, (mem s), nbs. split; [by destruct s|]. split; [by split|done]. }
  destruct Hc as (-> & q & Hq & Hc). cbn [rehash_chain]. destruct (nh_get _ _ _ Hq) as [e He].
  rewrite (M_bind_Some _ _ _ _ _ (handle_spec _ _ _ He)), (nh_entry _ _ _ _ He Hq).
  destruct (Hh a) as (E & HE & HE0); [by left|].
  assert (HEe : e_hash E = hash e) by (unfold ent in HE; rewrite He in HE; by injection HE as <-).
  rewrite <- HEe. set (i := bucket_of (2 ^ k) (e_hash E)). destruct Hm as [Hlen Hch Hb].
  assert (Hi : (i < length nl)%nat) by (unfold i; rewrite Hlen; by apply bucket_of_lt).
  apply lookup_lt_is_Some in Hi as [p Hp]. rewrite Hp. destruct (Forall2_lookup_l _ _ _ _ _ Hch Hp) as (b & Hbi & Hcb).
  destruct (set_next_hash_core s a p) as (m1 & E1 & Hcore1 & Hna & Hno); [by eexists|].
  rewrite (M_bind_Some _ _ _ _ _ E1).
  assert (length nl = length nbs) as Hll by by eapply Forall2_length.
  destruct (concat_insert nbs i b (a :: b) Hbi) as (pre & post & Eb1 & Eb2).
  assert (Hac : a ∉ c ∧ a ∉ concat nbs).
  { cbn in Hnd. apply list.NoDup_cons in Hnd as [Hnd _]. by split; intros ?; apply Hnd; apply elem_of_app; [left|right]. }
  assert (Hm1 : moved m1 (2 ^ k) (<[i := Some a]> nl) (<[i := a :: b]> nbs)).
  { split.
    - by rewrite length_insert.
    - apply Forall2_insert.
      + apply Forall2_same_length_lookup. split; [done|]. intros j r d Hr Hd. eapply chain_frame; [|by eapply Forall2_lookup_lr].
        intros x Hx. apply Hno. intros ->. apply (proj2 Hac), elem_of_concat. exists d. split; [done|]. by eapply list_elem_of_lookup_2.
      + cbn. split; [done|]. exists p. split; [done|]. eapply chain_frame; [|exact Hcb].
        intros x Hx. apply Hno. intros ->. apply (proj2 Hac), elem_of_concat. exists b. split; [done|]. by eapply list_elem_of_lookup_2.
    - apply (buckets_core (mem s)); [done|]. intros j d x Hj Hx. destruct (decide (j = i)) as [->|Hne].
      + rewrite list_lookup_insert_eq in Hj by (eapply lookup_lt_Some; exact Hbi). injection Hj as <-.
        apply elem_of_cons in Hx as [->|Hx]; [by exists E|by apply (Hb i b x)].
      + rewrite list_lookup_insert_ne in Hj by done. by apply (Hb j d x). }
  destruct (IH q (<[i := Some a]> nl) (<[i := a :: b]> nbs) c (set_mem m1 s)) as (nl' & m' & nbs' & E2 & Hcore & Hfr & Hm' & Hperm).
  - eapply chain_frame; [|exact Hc]. intros x Hx. apply Hno. intros ->. by apply (proj1 Hac).
  - done.
  - rewrite Eb2. rewrite Eb1 in Hnd. assert (c ++ pre ++ (a :: b) ++ post ≡ₚ (a :: c) ++ pre ++ b ++ post) as -> by solve_Permutation. done.
  - intros x Hx. destruct (Hh x) as (E' & HE' & ?); [by right|]. exists E'. split; [|done]. cbn. rewrite <- HE'. apply Hcore1.
  - cbn in Hf. lia.
  - exists nl', m', nbs'. split; [exact E2|]. split; [by eapply same_core_trans|]. split; [|split; [done|]].
    + intros x Hx. apply not_elem_of_cons in Hx as [Hxa Hx]. rewrite Hfr by done. cbn. by apply Hno.
    + rewrite Hperm, Eb2, Eb1. solve_Permutation.
Qed.

Lemma rehash_spec k fuel ol nl bs nbs s :
  2 ≤ k ≤ 31 → Forall2 (chain (mem s)) ol bs → moved (mem s) (2 ^ k) nl nbs → NoDup (concat bs ++ concat nbs) →
  (∀ a, a ∈ concat bs → hashed (mem s) a) → (length (concat bs) ≤ fuel)%nat →
  ∃ nl' m' nbs', rehash fuel (2 ^ k) ol nl s = Some (nl', set_mem m' s) ∧ same_core (mem s) m' ∧
    moved m' (2 ^ k) nl' nbs' ∧ concat nbs' ≡ₚ concat bs ++ concat nbs.
Proof.
  intros Hk Hch. revert nl nbs s Hch. induction bs as [|b bs IH] in ol |- *; intros nl nbs s Hch Hm Hnd Hh Hf.
  { apply Forall2_nil_inv_r in Hch as ->. exists nl, (mem s), nbs. split; [by destruct s|]. split; [by split|done]. }
  apply Forall2_cons_inv_r in Hch as (h & ol' & Hc & Hch & ->). cbn [rehash concat] in *. rewrite length_app in Hf.
  assert (Hnd' : NoDup (concat bs ++ (b ++ concat nbs))).
  { assert (concat bs ++ b ++ concat nbs ≡ₚ (b ++ concat bs) ++ concat nbs) as -> by solve_Permutation. done. }
  destruct (rehash_chain_spec k fuel h nl nbs b s) as (nl1 & m1 & nbs1 & E1 & Hcore1 & Hfr & Hm1 & Hperm1); [done..| | |lia|].
  - by apply list.NoDup_app in Hnd' as (_ & _ & Hnd').
  - intros a Ha. apply Hh. set_solver.
  - rewrite (M_bind_Some _ _ _ _ _ E1).
    destruct (IH ol' nl1 nbs1 (set_mem m1 s)) as (nl' & m' & nbs' & E2 & Hcore & Hm' & Hperm).
    + apply Forall2_same_length_lookup. split; [by eapply Forall2_length|]. intros j r d Hr Hd.
      eapply chain_frame; [|by eapply Forall2_lookup_lr]. intros x Hx. apply Hfr. intros Hxb.
      apply list.NoDup_app in Hnd as ((_ & Hdis & _)%list.NoDup_app & _ & _). apply (Hdis x Hxb), elem_of_concat.
      exists d. split; [done|]. by eapply list_elem_of_lookup_2.
    + done.
    + by rewrite Hperm1.
    + intros a Ha. destruct (Hh a) as (E' & HE' & ?); [set_solver|]. exists E'. split; [|done]. cbn. rewrite <- HE'. apply Hcore1.
    + lia.
    + exists nl', m', nbs'. split; [exact E2|]. split; [by eapply same_core_trans|]. split; [done|].
      rewrite Hperm, Hperm1. solve_Permutation.
Qed.

Lemma Resize_spec (t : HandleTable) s bs :
  table_rep t (mem s) bs → zlen (concat bs) < 2 ^ 31 →
  ∃ t' m' bs', Resize t s = Some (t', set_mem m' s) ∧ same_core (mem s) m' ∧ table_rep t' m' bs' ∧ concat bs' ≡ₚ concat bs.
Proof.
  intros HT Hsize. destruct (grow_length_spec 32 (elems_ t) 2) as (k & Hk & Eg); [lia|rewrite (tr_elems _ _ _ HT); lia|lia|].
  unfold Resize. change 4 with (2 ^ 2). rewrite Eg.
  destruct HT as [_ Hlen Hch Hb Hn Hnd Hel].
  assert (Hcat : concat (replicate (Z.to_nat (2 ^ k)) ([] : list nat)) = []) by (induction (Z.to_nat (2 ^ k)); done).
  destruct (rehash_spec k (Z.to_nat (elems_ t)) (list_ t) (replicate (Z.to_nat (2 ^ k)) None) bs (replicate (Z.to_nat (2 ^ k)) []) s)
    as (nl & m' & bs' & E & Hcore & [Hl' Hch' Hb'] & Hperm).
  - done.
  - done.
  - split; [by rewrite length_replicate| |].
    + apply Forall2_same_length_lookup. split; [by rewrite !length_replicate|]. intros i p b [-> _]%lookup_replicate [-> _]%lookup_replicate. done.
    + intros i b a [-> _]%lookup_replicate ?%elem_of_nil. done.
  - by rewrite Hcat, app_nil_r.
  - intros a (b & Ha & Hi)%elem_of_concat. apply list_elem_of_lookup in Hi as [i Hi].
    destruct (Hb i b a Hi Ha) as (E & ? & ? & _). by exists E.
  - rewrite Hel. unfold zlen. lia.
  - rewrite (M_bind_Some _ _ _ _ _ E). rewrite Hcat, app_nil_r in Hperm.
    exists {| length_ := 2 ^ k; elems_ := elems_ t; list_ := nl |}, m', bs'. split; [done|]. split; [done|]. split; [|done].
    split; cbn; [by exists k|done..| | |].
    + intros a Ha. rewrite Hperm in Ha. apply (next_core (mem s)); [apply Hcore|]. by apply Hn.
    + by rewrite Hperm.
    + rewrite Hel. unfold zlen. by rewrite Hperm.
Qed.

Lemma table_Insert_spec (t : HandleTable) s bs a E :
  table_rep t (mem s) bs → ent (mem s) a = Some E → 0 ≤ e_hash E → next_ok (mem s) a → a ∉ concat bs →
  zlen (concat bs) + 1 < 2 ^ 31 →
  ∃ r t' m' bs', table_Insert t a s = Some ((r, t'), set_mem m' s) ∧ same_core (mem s) m' ∧ table_rep t' m' bs' ∧
    match r with
    | Some o => o ∈ concat bs ∧ is_key (mem s) (e_key E) (e_hash E) o ∧ a :: concat bs ≡ₚ o :: concat bs'
    | None => (∀ x, x ∈ concat bs → ¬ is_key (mem s) (e_key E) (e_hash E) x) ∧ concat bs' ≡ₚ a :: concat bs
    end.
Proof.
  intros HT HE Hh Hna Hfresh Hsize.
  destruct (table_link_spec t s bs a E HT HE Hh Hna Hfresh) as
    (ptr & old & p & s1 & t1 & m1 & bs1 & EF & El & Ep & Es & Et & Hcore & HL & Hel & HT1 & Hold).
  destruct (ent_Some _ _ _ HE) as (e & He & <-). destruct Hna as (q & Hq & Hqa). unfold table_Insert.
  rewrite (M_bind_Some _ _ _ _ _ (handle_key_spec _ _ _ _ He Hq Hqa)), (M_bind_Some _ _ _ _ _ (handle_spec _ _ _ He)).
  cbn [e_hash e_key entry_of] in *.
  rewrite (M_bind_Some _ _ _ _ _ EF), (M_bind_Some _ _ _ _ _ El), (M_bind_Some _ _ _ _ _ Ep), (M_bind_Some _ _ _ _ _ Es),
    (M_bind_Some _ _ _ _ _ Et).
  rewrite (tr_elems _ _ _ HT) in Hel. pose proof (zlen_nonneg (concat bs)).
  destruct old as [o|].
  - exists (Some o), t1, m1, bs1. split; [done|]. split; [done|]. split; [|done].
    destruct Hold as (_ & _ & Hp). apply Permutation_length in Hp. cbn in Hp.
    specialize (HT1 (elems_ t1)). destruct t1. apply HT1. cbn in *. unfold zlen in *. lia.
  - destruct Hold as [Hno Hp]. pose proof (Permutation_length Hp) as Hlp. cbn in Hlp.
    rewrite Hel, elems_wrap by lia. specialize (HT1 (zlen (concat bs) + 1)). case_decide as Hd.
    + destruct (Resize_spec {| length_ := length_ t1; elems_ := zlen (concat bs) + 1; list_ := list_ t1 |} (set_mem m1 s) bs1)
        as (t2 & m2 & bs2 & Er & Hcore2 & HT2 & Hp2); [apply HT1; unfold zlen in *; lia|unfold zlen in *; lia|].
      rewrite (M_bind_Some _ _ _ _ _ Er). exists None, t2, m2, bs2. split; [done|]. split; [by eapply same_core_trans|].
      split; [done|]. split; [done|]. by rewrite Hp2.
    + exists None, {| length_ := length_ t1; elems_ := zlen (concat bs) + 1; list_ := list_ t1 |}, m1, bs1.
      split; [done|]. split; [done|]. split; [|done]. apply HT1. unfold zlen in *. lia.
Qed.
End Memory.
