(* ===== verification/CacheRefines.v ===== *)
(** What the cache promises, and that the shards of [util/cache.cc] keep the
    promise. *)
From stdpp Require Import gmap.
From S2P Require Import Prelude SortedLists Env DList Cache CacheTable.

(** ** What the cache promises *)

Section Spec.
Context {V D : Type}.
Abbreviation Entry := (Entry V D).

(** [order]: the entries that can be found, the one used last at the end;
    [detached]: those that cannot be found any more, but are held by clients;
    [held]: the handles of the clients, one for each that is to be released;
    [gone]: the entries given to their deleters. Entries have a number. *)
Record Spec := {
  limit : Z;
  order : list (nat * Entry);
  detached : list (nat * Entry);
  held : list nat;
  gone : list (D * bytes * V);
}.

Definition gone_entry (e : Entry) : D * bytes * V := (e_deleter e, e_key e, e_value e).

Definition total (es : list (nat * Entry)) : Z := foldr (λ x n, e_charge x.2 + n) 0 es.
Definition usage (a : Spec) : Z := total (order a ++ detached a).

(** The entry leaves the cache: it is deleted unless a client holds it. *)
Definition expel (x : nat * Entry) (a : Spec) : Spec :=
  if decide (x.1 ∈ held a) then
    {| limit := limit a; order := order a; detached := detached a ++ [x]; held := held a; gone := gone a |}
  else
    {| limit := limit a; order := order a; detached := detached a; held := held a; gone := gone a ++ [gone_entry x.2] |}.

Definition set_order (o : list (nat * Entry)) (a : Spec) : Spec :=
  {| limit := limit a; order := o; detached := detached a; held := held a; gone := gone a |}.
Definition hold (x : nat) (a : Spec) : Spec :=
  {| limit := limit a; order := order a; detached := detached a; held := x :: held a; gone := gone a |}.

Definition matches (key : bytes) (h : Z) (x : nat * Entry) : Prop := e_hash x.2 = h ∧ e_key x.2 = key.
#[export] Instance matches_dec key h x : Decision (matches key h x).
Proof. unfold matches. apply _. Defined.

Definition find_entry (key : bytes) (h : Z) (a : Spec) : option (nat * Entry) := head (filter (matches key h) (order a)).

(** All entries of the key leave [order]. *)
Definition take_out (key : bytes) (h : Z) (a : Spec) : Spec :=
  match find_entry key h a with
  | Some x => expel x (set_order (filter (λ y, ¬ matches key h y) (order a)) a)
  | None => a
  end.

(** The entries that were not used for the longest time are removed until the
    rest fits. *)
Fixpoint shrink (o : list (nat * Entry)) (a : Spec) : Spec :=
  match o with
  | [] => a
  | x :: o => if decide (limit a < usage a) then shrink o (expel x (set_order o a)) else a
  end.

Definition spec_Lookup (key : bytes) (h : Z) (a : Spec) : option (nat * Entry) * Spec :=
  match find_entry key h a with
  | Some x => (Some x, hold x.1 (set_order (filter (λ y, ¬ matches key h y) (order a) ++ [x]) a))
  | None => (None, a)
  end.

Definition spec_Insert (x : nat) (e : Entry) (a : Spec) : Spec :=
  let a := take_out (e_key e) (e_hash e) a in
  let a := hold x (set_order (order a ++ [(x, e)]) a) in
  shrink (order a) a.

Definition spec_Erase (key : bytes) (h : Z) (a : Spec) : Spec := take_out key h a.

(** The client gives the [i]-th handle back. *)
Definition spec_Release (i : nat) (a : Spec) : Spec :=
  match held a !! i with
  | None => a
  | Some x =>
      let held' := delete i (held a) in
      if decide (x ∈ (order a).*1 ∨ x ∈ held') then
        {| limit := limit a; order := order a; detached := detached a; held := held'; gone := gone a |}
      else
        {| limit := limit a; order := order a; detached := filter (λ y, y.1 ≠ x) (detached a); held := held';
           gone := gone a ++ (gone_entry ∘ snd <$> filter (λ y, y.1 = x) (detached a)) |}
  end.
End Spec.
Arguments Spec : clear implicits.

(** ** A shard *)

Section Shard.
Context {V D : Type}.
Abbreviation Heap := (Heap (V := V) (D := D)).
Abbreviation Entry := (Entry V D).
Abbreviation Spec := (Spec V D).
Implicit Types (s : Heap) (a : Spec) (x y : nat) (E : Entry) (c : LRUCache) (o : list (nat * Entry)).

Abbreviation ids := (λ o : list (nat * Entry), o.*1).

(** One reference of the cache and one for each handle of a client. *)
Definition refcount a x : Z :=
  (if decide (x ∈ ids (order a)) then 1 else 0) + zlen (filter (λ y, y = x) (held a)).

(** The entries, whatever the list and the table hold. *)
Record entries_rep (s : Heap) (lru : nat) (a : Spec) : Prop := {
  er_entries x E : (x, E) ∈ order a ++ detached a →
    ent (mem s) x = Some E ∧ next_ok (mem s) x ∧ 0 ≤ e_hash E ∧ 0 ≤ e_charge E ∧ rc (mem s) x = Some (refcount a x);
  er_nodup : NoDup (lru :: ids (order a ++ detached a));
  er_held x : x ∈ held a → x ∈ ids (order a ++ detached a);
  er_detached x : x ∈ ids (detached a) → x ∈ held a;
  er_next x : x ∈ lru :: ids (order a ++ detached a) → (x < next_address s)%nat;
  er_gone : deleted s = gone a;
  er_fits : usage a < 2 ^ 32 ∧ zlen (order a) < 2 ^ 31 ∧ zlen (held a) < 2 ^ 31;
}.

(** The list holds the entries [l], the table those of [T]. *)
Record rep_with (c : LRUCache) (s : Heap) (l T : list nat) (a : Spec) : Prop := {
  rw_capacity : capacity_ c = limit a;
  rw_usage : usage_ c = usage a;
  rw_list : dlist (mem s) (lru_ c) l;
  rw_table : ∃ bs, table_rep (table_ c) (mem s) bs ∧ concat bs ≡ₚ T;
  rw_entries : entries_rep s (lru_ c) a;
}.

Definition key_of (x : nat * Entry) : Z * bytes := (e_hash x.2, e_key x.2).

(** The shard [c] with the memory [s] is in the state [a]. *)
Definition rep c s a : Prop := rep_with c s (ids (order a)) (ids (order a)) a ∧ NoDup (key_of <$> order a).

(** *** Keys *)

Lemma is_key_matches s lru a x E key h :
  entries_rep s lru a → (x, E) ∈ order a → is_key (mem s) key h x ↔ matches key h (x, E).
Proof.
  intros HR Hx. destruct (er_entries _ _ _ HR x E) as (HE & _); [set_solver|]. unfold is_key, matches. rewrite HE. cbn.
  split; [by intros (E' & [= <-] & ?)|]. intros. by exists E.
Qed.

Lemma key_unique o (x y : nat * Entry) : NoDup (key_of <$> o) → x ∈ o → y ∈ o → key_of x = key_of y → x = y.
Proof.
  intros Hnd Hx Hy E. apply list_elem_of_split in Hx as (o1 & o2 & ->). rewrite fmap_app in Hnd. cbn in Hnd.
  rewrite <- Permutation_middle in Hnd. apply list.NoDup_cons in Hnd as [Hnd _]. rewrite E, <- fmap_app in Hnd.
  assert (y = x ∨ y ∈ o1 ++ o2) as [->|Hy'] by set_solver; [done|]. destruct Hnd. by apply (list_elem_of_fmap_2 key_of).
Qed.

Lemma matches_split o (x : nat * Entry) key h :
  NoDup (key_of <$> o) → x ∈ o → matches key h x →
  ∃ o1 o2, o = o1 ++ x :: o2 ∧ filter (λ y : nat * Entry, ¬ matches key h y) o = o1 ++ o2 ∧ head (filter (matches key h) o) = Some x.
Proof.
  intros Hnd Hx [Hh Hk]. apply list_elem_of_split in Hx as (o1 & o2 & ->). exists o1, o2. split; [done|].
  assert (Hno : ∀ y : nat * Entry, y ∈ o1 ++ o2 → ¬ matches key h y).
  { intros y Hy [Hh' Hk']. rewrite fmap_app in Hnd. cbn in Hnd. rewrite <- Permutation_middle in Hnd.
    apply list.NoDup_cons in Hnd as [Hnd _]. apply Hnd. rewrite <- fmap_app.
    replace (key_of x) with (key_of y) by (unfold key_of; congruence). by apply (list_elem_of_fmap_2 key_of). }
  assert (H1 : Forall (λ y : nat * Entry, ¬ matches key h y) o1) by (apply list.Forall_forall; intros y Hy; apply Hno; set_solver).
  assert (H2 : Forall (λ y : nat * Entry, ¬ matches key h y) o2) by (apply list.Forall_forall; intros y Hy; apply Hno; set_solver).
  rewrite !list.filter_app, !filter_cons. rewrite (decide_True (P := matches key h x)) by done.
  rewrite (decide_False (P := ¬ matches key h x)) by (intros Hn; by apply Hn).
  rewrite (filter_all _ o1 H1), (filter_all _ o2 H2). split; [done|].
  rewrite (filter_none (matches key h) o1); [done|]. done.
Qed.

(** *** Framing *)

Lemma next_of_dlist m d l x : dlist m d l → x ∈ l → next_ok (V := V) (D := D) m x.
Proof.
  intros Hd Hx. apply list_elem_of_split in Hx as (l1 & l2 & ->).
  destruct (dlist_neighbours _ _ _ _ _ Hd) as (p & q & _ & _ & _ & Hq & _ & Hne & _). by exists q.
Qed.

Lemma relinked_next l m m' x : relinked l m m' → x ∉ l → next_ok (V := V) (D := D) m x → next_ok m' x.
Proof. intros [_ Hf] Hx (q & Hq & Hne). exists q. unfold load_next in *. by rewrite Hf. Qed.

Lemma table_rep_relink (t : HandleTable) m m' bs :
  (∀ x, get (V := V) (D := D) m' x = get m x) → (∀ x, x ∈ concat bs → next_ok m' x) → table_rep t m bs → table_rep t m' bs.
Proof.
  intros Hg Hn [Hp Hl Hc Hb _ Hnd He]. split; [done|done| | |done..].
  - eapply List.Forall2_impl; [|exact Hc]. intros p l. apply chain_frame. intros x _. unfold nh. by rewrite Hg.
  - intros i b x Hi Hx. unfold ent. rewrite Hg. by apply (Hb i b x).
Qed.

Lemma table_rep_core (t : HandleTable) m m' bs :
  same_links (V := V) (D := D) m m' → (∀ x, ent m' x = ent m x) → (∀ x, nh m' x = nh m x) → table_rep t m bs → table_rep t m' bs.
Proof.
  intros Hl He Hnh [Hp Hl' Hc Hb Hn Hnd Hel]. split; [done|done| | | |done..].
  - eapply List.Forall2_impl; [|exact Hc]. intros p l. apply chain_frame. intros x _. by rewrite Hnh.
  - intros i b x Hi Hx. rewrite He. by apply (Hb i b x).
  - intros x Hx. apply (next_core m); [done|]. by apply Hn.
Qed.

(** The list changes from [l] to [l']. *)
Lemma rep_relink c s m' l l' ns T a :
  rep_with c s l T a → relinked ns (mem s) m' → dlist m' (lru_ c) l' →
  (∀ x, x ∈ ns → x ∈ lru_ c :: l') → (∀ x, x ∈ T → x ∈ ids (order a ++ detached a)) →
  rep_with c (set_mem m' s) l' T a.
Proof.
  intros [Hcap Hu Hl (bs & HT & Hp) [He Hnd Hh Hd Hn Hg Hf]] R Hl' Hns HTin.
  assert (Hno : ∀ x, x ∈ ids (order a ++ detached a) → next_ok m' x).
  { intros x Hx. destruct (decide (x ∈ l')) as [Hin|Hout]; [by eapply next_of_dlist|].
    eapply relinked_next; [exact R| |].
    - intros Hxn. apply Hns in Hxn as [->|?]%elem_of_cons; [|done]. by apply list.NoDup_cons in Hnd as [Hnd _].
    - apply list_elem_of_fmap in Hx as ([x' E] & -> & Hx). by destruct (He _ _ Hx) as (_ & ? & _). }
  assert (Hget : ∀ x, get m' x = get (mem s) x) by (intros x; by eapply relinked_get).
  split; [done|done|done| |].
  - exists bs. split; [|done]. eapply table_rep_relink; [exact Hget| |exact HT]. intros x Hx. apply Hno, HTin. by rewrite <- Hp.
  - split; cbn; [|done..]. intros x E Hx. destruct (He x E Hx) as (H1 & _ & H3 & H4 & H5).
    unfold ent, rc. rewrite Hget. splits; [done| |done..]. apply Hno. by apply (list_elem_of_fmap_2 fst _ (x, E)).
Qed.

Lemma LRU_Remove_rep c s l1 x l2 T a :
  rep_with c s (l1 ++ x :: l2) T a → (∀ y, y ∈ T → y ∈ ids (order a ++ detached a)) →
  ∃ m', LRU_Remove x s = Some ((), set_mem m' s) ∧ rep_with c (set_mem m' s) (l1 ++ l2) T a ∧
    (∀ y, get m' y = get (mem s) y) ∧ load_next x m' = load_next x (mem s).
Proof.
  intros HR HT. destruct (unlink_spec _ _ _ _ _ (rw_list _ _ _ _ _ HR)) as (m' & E & Hl' & R).
  exists m'. unfold LRU_Remove, on_mem. rewrite E. split; [done|]. split.
  - eapply rep_relink; [exact HR|exact R|done|done|done].
  - split; [intros y; by eapply relinked_get|]. unfold load_next. f_equal. apply R. intros Hx.
    destruct (rw_list _ _ _ _ _ HR) as [Hnd _ _].
    assert (Hperm : lru_ c :: l1 ++ x :: l2 ≡ₚ x :: lru_ c :: l1 ++ l2) by solve_Permutation.
    rewrite Hperm in Hnd. by apply list.NoDup_cons in Hnd as [].
Qed.

Lemma LRU_Append_rep c s l x T a :
  rep_with c s l T a → x ∈ ids (order a ++ detached a) → x ∉ l → (∀ y, y ∈ T → y ∈ ids (order a ++ detached a)) →
  ∃ m', LRU_Append c x s = Some ((), set_mem m' s) ∧ rep_with c (set_mem m' s) (l ++ [x]) T a.
Proof.
  intros HR Hx Hxl HT. destruct (HR) as [_ _ Hl _ [He Hnd _ _ _ _ _]].
  destruct (insert_before_spec (mem s) (lru_ c) x l) as (m' & E & Hl' & R); [done| | |].
  - intros [->|?]%elem_of_cons; [|done]. by apply list.NoDup_cons in Hnd as [].
  - apply list_elem_of_fmap in Hx as ([y E] & -> & Hx). destruct (He _ _ Hx) as (HE & _).
    destruct (ent_get _ _ _ HE) as [e He']. unfold get in He'. cbn. by destruct (mem s !! y).
  - exists m'. unfold LRU_Append, on_mem. rewrite E. split; [done|].
    eapply rep_relink; [exact HR|exact R|done|set_solver|done].
Qed.

(** *** References *)

(** The memory is the same for the entry [y] but for its count. *)
Record same_at (m m' : gmap nat (Node (option (LRUHandle (V := V) (D := D))))) y : Prop := {
  sa_ent : ent m' y = ent m y;
  sa_nh : nh m' y = nh m y;
  sa_prev : load_prev y m' = load_prev y m;
  sa_next : load_next y m' = load_next y m;
}.

Lemma table_rep_at (t : HandleTable) m m' bs :
  (∀ y, y ∈ concat bs → same_at m m' y) → table_rep t m bs → table_rep t m' bs.
Proof.
  intros Hs [Hp Hl Hc Hb Hn Hnd He].
  assert (Hs' : ∀ i b y, bs !! i = Some b → y ∈ b → same_at m m' y).
  { intros i b y Hi Hy. apply Hs, elem_of_concat. exists b. split; [done|]. by eapply list_elem_of_lookup_2. }
  split; [done|done| | | |done..].
  - apply Forall2_same_length_lookup. split; [by eapply Forall2_length|]. intros i p b Hpi Hbi.
    eapply chain_frame; [|by eapply Forall2_lookup_lr]. intros y Hy. by destruct (Hs' i b y Hbi Hy).
  - intros i b y Hi Hy. destruct (Hs' i b y Hi Hy) as [-> _ _ _]. by apply (Hb i b y).
  - intros y Hy. destruct (Hn y Hy) as (q & Hq & Hne). exists q. by destruct (Hs y Hy) as [_ _ _ ->].
Qed.

Lemma dlist_at m m' d l : (∀ y, y ∈ d :: l → same_at m m' y) → dlist m d l → dlist m' d l.
Proof. intros Hs. apply dlist_frame. intros y Hy. by destruct (Hs y Hy). Qed.

(** The memory in which the entry is freed. *)
Definition freed s m x E : Heap := {| mem := delete x m; next_address := next_address s; deleted := deleted s ++ [gone_entry E] |}.

Lemma Unref_spec c s x E n :
  ent (mem s) x = Some E → next_ok (mem s) x → rc (mem s) x = Some n → 1 ≤ n < 2 ^ 32 →
  ∃ m', (∀ y, same_at (mem s) m' y) ∧ rc m' x = Some (n - 1) ∧ (∀ y, y ≠ x → rc m' y = rc (mem s) y) ∧
    Unref c x s = if decide (n = 1) then Some (with_usage c (usize (usage_ c - e_charge E)), freed s m' x E)
                  else Some (c, set_mem m' s).
Proof.
  intros HE (q & Hq & Hne) Hrc Hn. destruct (ent_Some _ _ _ HE) as (e & He & <-).
  assert (refs e = n) as Hr by (unfold rc in Hrc; rewrite He in Hrc; by injection Hrc).
  destruct (set_refs_spec s x (n - 1) e He) as (m' & E1 & Hl & Hent & Hnh & Hx & Ho).
  exists m'. split; [intros y; destruct (Hl y); by split|]. split; [done|]. split; [done|].
  unfold Unref. rewrite (M_bind_Some _ _ _ _ _ (handle_spec _ _ _ He)), Hr.
  assert (u32 (n - 1) = n - 1) as -> by (apply wrap_small; unfold in_w; lia).
  rewrite (M_bind_Some _ _ _ _ _ E1).
  destruct (decide (n = 1)) as [H1|H1]; [|by rewrite decide_False by lia]. rewrite decide_True by lia.
  destruct (ent_Some m' x (entry_of e)) as (e' & He' & Hee); [by rewrite Hent|].
  assert (handle_key x (set_mem m' s) = Some (key_data e, set_mem m' s)) as Ek.
  { rewrite (handle_key_spec (set_mem m' s) x e' q He'); [by injection Hee as ->| |done]. cbn. by rewrite (proj2 (Hl x)). }
  by rewrite (M_bind_Some _ _ _ _ _ Ek).
Qed.

Lemma same_at_delete m m' x y : y ≠ x → same_at m m' y → same_at m (delete x m') y.
Proof.
  intros Hne [H1 H2 H3 H4]. unfold ent, nh, get, load_prev, load_next in *.
  split; unfold ent, nh, get, load_prev, load_next; by rewrite lookup_delete_ne.
Qed.

Lemma rc_delete (m : gmap nat (Node (option (LRUHandle (V := V) (D := D))))) x y : y ≠ x → rc (delete x m) y = rc m y.
Proof. intros Hne. unfold rc, get. by rewrite lookup_delete_ne. Qed.

Lemma total_cons (x : nat * Entry) o : total (x :: o) = e_charge x.2 + total o.
Proof. done. Qed.

Lemma total_app o1 o2 : total (o1 ++ o2) = total o1 + total o2.
Proof. induction o1 as [|x o1 IH]; [done|]. cbn [app]. rewrite !total_cons. lia. Qed.

#[export] Instance total_Permutation : Proper ((≡ₚ) ==> (=)) (total (V := V) (D := D)).
Proof. intros o o'. induction 1; rewrite ?total_cons; lia. Qed.

Lemma total_nonneg o : (∀ x E, (x, E) ∈ o → 0 ≤ e_charge E) → 0 ≤ total o.
Proof.
  induction o as [|[x E] o IH]; intros Hp; [done|]. rewrite total_cons. cbn. assert (0 ≤ e_charge E) by (apply (Hp x E); by left).
  assert (0 ≤ total o) by (apply IH; intros y E' Hy; apply (Hp y E'); by right). lia.
Qed.

Lemma filter_held_nil x (l : list nat) : x ∉ l → zlen (filter (λ y, y = x) l) = 0.
Proof. intros Hx. rewrite filter_none; [done|]. apply list.Forall_forall. by intros y Hy ->. Qed.

Lemma filter_held_pos x (l : list nat) : x ∈ l → 1 ≤ zlen (filter (λ y, y = x) l).
Proof.
  intros Hx. assert (x ∈ filter (λ y, y = x) l) as Hin by by apply list_elem_of_filter.
  destruct (filter _ l); [by apply elem_of_nil in Hin|]. rewrite zlen_cons. pose proof (zlen_nonneg l0). lia.
Qed.

Lemma filter_held_le x (l : list nat) : zlen (filter (λ y, y = x) l) ≤ zlen l.
Proof. unfold zlen. pose proof (length_filter (λ y, y = x) l). lia. Qed.

(** *** An entry leaves the cache *)

Lemma refcount_ext a a' y :
  (y ∈ ids (order a') ↔ y ∈ ids (order a)) → filter (λ z, z = y) (held a') = filter (λ z, z = y) (held a) → refcount a' y = refcount a y.
Proof. intros Ho Hh. unfold refcount. rewrite Hh. f_equal. by apply decide_ext. Qed.

Lemma without_Permutation (o1 o2 d : list (nat * Entry)) x E : (o1 ++ (x, E) :: o2) ++ d ≡ₚ (x, E) :: (o1 ++ o2) ++ d.
Proof. solve_Permutation. Qed.

Section Leave.
Context (s : Heap) (lru : nat) (a : Spec) (x : nat) (E : Entry) (o1 o2 : list (nat * Entry)).
Context (HR : entries_rep s lru a) (Ho : order a = o1 ++ (x, E) :: o2).

Abbreviation rest := ((o1 ++ o2) ++ detached a).

Lemma leave_apart : x ∉ lru :: ids rest.
Proof.
  pose proof (er_nodup _ _ _ HR) as Hnd. rewrite Ho, without_Permutation in Hnd. cbn in Hnd.
  rewrite Permutation_swap in Hnd. by apply list.NoDup_cons in Hnd as [].
Qed.

Lemma leave_elem (y : nat * Entry) : y ∈ order a ++ detached a ↔ y = (x, E) ∨ y ∈ rest.
Proof. rewrite Ho, without_Permutation. by rewrite elem_of_cons. Qed.

Lemma leave_ids y : y ∈ ids (order a ++ detached a) ↔ y = x ∨ y ∈ ids rest.
Proof. rewrite Ho, without_Permutation. cbn. by rewrite elem_of_cons. Qed.

Lemma leave_refcount y hd : y ≠ x → hd = held a →
  refcount {| limit := limit a; order := o1 ++ o2; detached := detached a; held := hd; gone := gone a |} y = refcount a y.
Proof.
  intros Hne ->. apply refcount_ext; [|done]. cbn. rewrite Ho, !fmap_app. cbn. set_solver.
Qed.

Lemma leave_usage : usage a = e_charge E + total rest.
Proof. unfold usage. rewrite Ho, !total_app, total_cons. cbn. lia. Qed.

Lemma leave_entry : ent (mem s) x = Some E ∧ next_ok (mem s) x ∧ 0 ≤ e_charge E ∧
  rc (mem s) x = Some (1 + zlen (filter (λ y, y = x) (held a))).
Proof.
  destruct (er_entries _ _ _ HR x E) as (H1 & H2 & _ & H4 & H5); [apply leave_elem; by left|].
  splits; [done..|]. rewrite H5. unfold refcount. rewrite decide_True; [done|]. rewrite Ho, fmap_app. cbn. set_solver.
Qed.

Lemma leave_held m' : x ∈ held a → (∀ y, same_at (mem s) m' y) →
  rc m' x = Some (zlen (filter (λ y, y = x) (held a))) → (∀ y, y ≠ x → rc m' y = rc (mem s) y) →
  entries_rep (set_mem m' s) lru (expel (x, E) (set_order (o1 ++ o2) a)).
Proof.
  intros Hx Hs Hrx Hro. unfold expel. cbn. rewrite decide_True by done. cbn.
  assert (Hperm : (o1 ++ o2) ++ detached a ++ [(x, E)] ≡ₚ order a ++ detached a) by (rewrite Ho; solve_Permutation).
  pose proof (er_fits _ _ _ HR) as (Hf1 & Hf2 & Hf3). split; cbn [order detached held gone mem deleted next_address set_mem freed].
  - intros y E' Hy. rewrite Hperm in Hy. destruct (er_entries _ _ _ HR y E' Hy) as (H1 & (q & Hq & Hne) & H3 & H4 & H5).
    destruct (Hs y) as [He _ _ Hn]. splits; [by rewrite He|exists q; by rewrite Hn|done|done|].
    destruct (decide (y = x)) as [->|Hyx].
    + rewrite Hrx. unfold refcount. cbn. rewrite decide_False; [done|]. intros Hin. apply leave_apart. set_solver.
    + rewrite Hro, H5 by done. f_equal. symmetry. apply refcount_ext; [|done]. cbn. rewrite Ho, !fmap_app. cbn. set_solver.
  - rewrite Hperm. apply HR.
  - intros y Hy. rewrite Hperm. by apply HR.
  - intros y Hy. rewrite fmap_app in Hy. apply elem_of_app in Hy as [Hy|Hy]; [by apply HR|].
    cbn in Hy. by apply list_elem_of_singleton in Hy as ->.
  - intros y Hy. rewrite Hperm in Hy. by apply HR.
  - apply HR.
  - unfold usage in *. cbn [order detached]. splits; [|rewrite Ho in Hf2; rewrite zlen_app, zlen_cons in Hf2; rewrite zlen_app; lia|done].
    by rewrite Hperm.
Qed.

Lemma leave_freed m' : x ∉ held a → (∀ y, same_at (mem s) m' y) → (∀ y, y ≠ x → rc m' y = rc (mem s) y) →
  entries_rep (freed s m' x E) lru (expel (x, E) (set_order (o1 ++ o2) a)).
Proof.
  intros Hx Hs Hro. unfold expel. cbn. rewrite decide_False by done. cbn.
  pose proof (er_fits _ _ _ HR) as (Hf1 & Hf2 & Hf3). destruct leave_entry as (_ & _ & Hch & _). split; cbn [order detached held gone mem deleted next_address set_mem freed].
  - intros y E' Hy. destruct (er_entries _ _ _ HR y E') as (H1 & (q & Hq & Hne) & H3 & H4 & H5); [apply leave_elem; by right|].
    assert (Hyx : y ≠ x).
    { intros ->. apply leave_apart. right. by apply (list_elem_of_fmap_2 fst _ (x, E')). }
    destruct (same_at_delete _ _ x y Hyx (Hs y)) as [He _ _ Hn].
    splits; [by rewrite He|exists q; by rewrite Hn|done|done|]. rewrite rc_delete, Hro, H5 by done. f_equal. symmetry.
    apply refcount_ext; [|done]. cbn. rewrite Ho, !fmap_app. cbn. set_solver.
  - pose proof (er_nodup _ _ _ HR) as Hnd. rewrite Ho, without_Permutation in Hnd. cbn in Hnd.
    rewrite Permutation_swap in Hnd. by apply list.NoDup_cons in Hnd as [].
  - intros y Hy. pose proof (er_held _ _ _ HR y Hy) as Hin. apply leave_ids in Hin as [->|Hin]; done.
  - apply HR.
  - intros y Hy. apply (er_next _ _ _ HR). apply elem_of_cons in Hy as [->|Hy]; [by left|]. right. apply leave_ids. by right.
  - by rewrite (er_gone _ _ _ HR).
  - rewrite leave_usage in Hf1. unfold usage. cbn [order detached]. splits; [lia| |done]. rewrite Ho in Hf2. rewrite zlen_app, zlen_cons in Hf2. rewrite zlen_app. lia.
Qed.
End Leave.

Lemma limit_expel (x : nat * Entry) a : limit (expel x a) = limit a.
Proof. unfold expel. by destruct (decide _). Qed.

Lemma Unref_expel c s l T a x E o1 o2 :
  rep_with c s l T a → order a = o1 ++ (x, E) :: o2 → x ∉ l → x ∉ T →
  ∃ c' s', Unref c x s = Some (c', s') ∧ rep_with c' s' l T (expel (x, E) (set_order (o1 ++ o2) a)) ∧ table_ c' = table_ c.
Proof.
  intros [Hcap Hu Hl (bs & HT & Hp) HR] Ho Hxl HxT.
  destruct (leave_entry _ _ _ _ _ _ _ HR Ho) as (HE & Hn & Hch & Hrc).
  pose proof (leave_usage _ _ _ _ _ Ho) as Hus. pose proof (er_fits _ _ _ HR) as (Hf1 & Hf2 & Hf3).
  pose proof (filter_held_le x (held a)). pose proof (zlen_nonneg (filter (λ y, y = x) (held a))).
  destruct (Unref_spec c s x E _ HE Hn Hrc) as (m' & Hs & Hrx & Hro & Eu); [lia|]. rewrite Eu.
  assert (Hlru : x ∉ lru_ c :: l).
  { intros [->|?]%elem_of_cons; [|done]. eapply leave_apart; [exact HR|exact Ho|by left]. }
  destruct (decide (x ∈ held a)) as [Hx|Hx].
  - pose proof (filter_held_pos x (held a) Hx). rewrite decide_False by lia.
    exists c, (set_mem m' s). split; [done|]. split; [|done]. split.
    + by rewrite limit_expel.
    + rewrite Hu, Hus. unfold usage, expel. cbn [fst held set_order]. rewrite decide_True by done. cbn [order detached set_order].
      rewrite !total_app, total_cons. change (total []) with 0. cbn [snd]. lia.
    + by eapply dlist_at.
    + exists bs. split; [|done]. by eapply table_rep_at.
    + eapply leave_held; [done..| |done]. rewrite Hrx. f_equal. lia.
  - pose proof (filter_held_nil x (held a) Hx). rewrite decide_True by lia.
    eexists _, _. split; [done|]. split; [|done]. split.
    + by rewrite limit_expel.
    + cbn [usage_ with_usage]. rewrite Hu, Hus. unfold usage, expel. cbn [fst held set_order]. rewrite decide_False by done.
      cbn [order detached set_order].
      assert (0 ≤ total ((o1 ++ o2) ++ detached a)).
      { apply total_nonneg. intros y E' Hy. destruct (er_entries _ _ _ HR y E') as (_ & _ & _ & ? & _); [|done].
        eapply leave_elem; [exact Ho|]. by right. }
      rewrite wrap_small; [lia|]. unfold in_w. lia.
    + cbn. eapply dlist_at; [|exact Hl]. intros y Hy. apply same_at_delete; [|done]. by intros ->.
    + exists bs. split; [|done]. cbn. eapply table_rep_at; [|exact HT]. intros y Hy. apply same_at_delete; [|done].
      intros ->. apply HxT. by rewrite <- Hp.
    + by eapply leave_freed.
Qed.

(** *** The table and the list of a shard *)

Lemma rep_table c s l T a t' m' bs' T' :
  rep_with c s l T a → same_core (mem s) m' → table_rep t' m' bs' → concat bs' ≡ₚ T' →
  rep_with (with_table c t') (set_mem m' s) l T' a.
Proof.
  intros [Hcap Hu Hl _ [He Hnd Hh Hd Hn Hg Hf]] [Hlinks Hent Hrc] HT Hp. split; [done|done| | |].
  - eapply dlist_frame; [|exact Hl]. intros y _. apply Hlinks.
  - by exists bs'.
  - split; cbn; [|done..]. intros y E Hy. destruct (He y E Hy) as (H1 & H2 & H3 & H4 & H5).
    rewrite Hent, Hrc. splits; [done| |done..]. by eapply next_core.
Qed.

(** The entries of the table can be told by their keys. *)
Lemma key_of_entry c s l T a y E key h :
  rep_with c s l T a → NoDup (key_of <$> order a) → (∀ z, z ∈ T → z ∈ ids (order a)) →
  (y, E) ∈ order a → e_key E = key → e_hash E = h → ∀ z, z ∈ T → is_key (mem s) key h z → z = y.
Proof.
  intros HR Hk HT Hy <- <- z Hz Hkey. apply HT in Hz. apply list_elem_of_fmap in Hz as ([z' E'] & -> & Hz).
  apply (is_key_matches _ _ _ _ _ _ _ (rw_entries _ _ _ _ _ HR) Hz) in Hkey as [Hh Hkey]. cbn in *.
  assert ((z', E') = (y, E)) as [= -> ->]; [|done]. eapply key_unique; [exact Hk|done..|]. unfold key_of. cbn. congruence.
Qed.

Lemma table_Remove_rep c s l T a x E :
  rep_with c s l T a → NoDup (key_of <$> order a) → (∀ z, z ∈ T → z ∈ ids (order a)) → (x, E) ∈ order a → x ∈ T →
  ∃ t' m' T', table_Remove (table_ c) (e_key E) (e_hash E) s = Some ((Some x, t'), set_mem m' s) ∧ T ≡ₚ x :: T' ∧
    rep_with (with_table c t') (set_mem m' s) l T' a ∧ same_core (mem s) m'.
Proof.
  intros HR Hk HT Hx HxT. destruct (HR) as [_ _ _ (bs & HTr & Hp) He].
  destruct (er_entries _ _ _ He x E) as (HE & _ & HE0 & _); [set_solver|].
  pose proof (er_fits _ _ _ He) as (_ & Hfit & _).
  assert (Hsize : zlen (concat bs) < 2 ^ 32).
  { enough (length (concat bs) ≤ length (order a))%nat by (unfold zlen in *; lia). rewrite Hp, <- (length_fmap fst (order a)).
    apply submseteq_length, NoDup_submseteq; [rewrite <- Hp; apply HTr|done]. }
  destruct (table_Remove_spec _ s bs (e_key E) (e_hash E) HTr HE0 Hsize) as (r & t' & m' & bs' & Er & Hcore & HT' & Hr).
  destruct r as [y|].
  - destruct Hr as [Hkey Hperm].
    assert (y = x) as ->.
    { eapply (key_of_entry c s l T a x E); [done..| |exact Hkey]. rewrite <- Hp, Hperm. by left. }
    exists t', m', (concat bs'). split; [done|]. split; [by rewrite <- Hp|]. split; [|done]. by eapply rep_table.
  - destruct Hr as [Hno _]. destruct (Hno x); [by rewrite Hp|]. by exists E.
Qed.

Lemma sublist_keys o1 o2 (x : nat * Entry) : NoDup (key_of <$> o1 ++ x :: o2) → NoDup (key_of <$> o1 ++ o2).
Proof. rewrite !fmap_app, fmap_cons, <- Permutation_middle. by intros [_ ?]%list.NoDup_cons. Qed.

(** The first entry of the list, or any other, is taken out. *)
Lemma rep_expelled c s o1 x E o2 a :
  rep_with c s (ids (o1 ++ o2)) (ids (o1 ++ o2)) a → order a = o1 ++ (x, E) :: o2 → NoDup (key_of <$> order a) →
  ∃ c' s', Unref c x s = Some (c', s') ∧ rep c' s' (expel (x, E) (set_order (o1 ++ o2) a)) ∧ table_ c' = table_ c.
Proof.
  intros HR Ho Hk. pose proof (leave_apart _ _ _ _ _ _ _ (rw_entries _ _ _ _ _ HR) Ho) as Hx.
  assert (x ∉ ids (o1 ++ o2)) as Hx' by (rewrite fmap_app in Hx; set_solver).
  destruct (Unref_expel c s _ _ a x E o1 o2 HR Ho Hx' Hx') as (c' & s' & E1 & HR' & Ht).
  exists c', s'. split; [done|]. split; [|done].
  assert (order (expel (x, E) (set_order (o1 ++ o2) a)) = o1 ++ o2) as Eo by (unfold expel; by destruct (decide _)).
  split; rewrite Eo; [done|]. rewrite Ho in Hk. by eapply sublist_keys.
Qed.

Lemma order_expel (x : nat * Entry) a : order (expel x a) = order a.
Proof. unfold expel. by destruct (decide _). Qed.

Lemma evict_loop_rep fuel c s a :
  rep c s a → (length (order a) ≤ fuel)%nat →
  ∃ c' s', evict_loop fuel c s = Some (c', s') ∧ rep c' s' (shrink (order a) a).
Proof.
  revert c s a. induction fuel as [|fuel IH]; intros c s a [HR Hk] Hf.
  - destruct (order a) as [|x o] eqn:Ho; [|cbn in Hf; lia]. exists c, s. cbn [evict_loop].
    pose proof (nexts_head _ _ _ _ (dl_nexts _ _ _ (rw_list _ _ _ _ _ HR))) as Hn. cbn in Hn.
    rewrite (M_bind_Some _ _ _ _ _ (read_spec _ _ _ Hn)), (bool_decide_false (lru_ c ≠ lru_ c)) by naive_solver.
    rewrite andb_false_r. split; [done|]. cbn. split; by rewrite Ho.
  - destruct (order a) as [|[x E] o] eqn:Ho.
    { exists c, s. cbn [evict_loop]. pose proof (nexts_head _ _ _ _ (dl_nexts _ _ _ (rw_list _ _ _ _ _ HR))) as Hn. cbn in Hn.
      rewrite (M_bind_Some _ _ _ _ _ (read_spec _ _ _ Hn)), (bool_decide_false (lru_ c ≠ lru_ c)) by naive_solver.
      rewrite andb_false_r. split; [done|]. cbn. split; by rewrite Ho. }
    cbn [evict_loop shrink]. pose proof (nexts_head _ _ _ _ (dl_nexts _ _ _ (rw_list _ _ _ _ _ HR))) as Hn. cbn in Hn.
    rewrite (M_bind_Some _ _ _ _ _ (read_spec _ _ _ Hn)).
    assert (Hxl : x ≠ lru_ c).
    { intros ->. pose proof (er_nodup _ _ _ (rw_entries _ _ _ _ _ HR)) as Hnd. rewrite Ho in Hnd. cbn in Hnd.
      apply list.NoDup_cons in Hnd as [Hnd _]. apply Hnd. by left. }
    rewrite (bool_decide_true (x ≠ lru_ c)), andb_true_r by done.
    rewrite (rw_capacity _ _ _ _ _ HR), (rw_usage _ _ _ _ _ HR). case_bool_decide as Hu.
    2: { rewrite decide_False by done. exists c, s. split; [done|]. split; by rewrite Ho. }
    rewrite decide_True by done.
    assert (Hsub : ∀ z, z ∈ x :: ids o → z ∈ ids (order a ++ detached a)) by (intros z Hz; rewrite Ho, fmap_app; cbn; set_solver).
    destruct (LRU_Remove_rep c s [] x (ids o) (x :: ids o) a HR Hsub) as (m1 & E1 & HR1 & Hg1 & Hl1).
    rewrite (M_bind_Some _ _ _ _ _ E1). cbn [app] in HR1.
    destruct (er_entries _ _ _ (rw_entries _ _ _ _ _ HR1) x E) as (HE & (q & Hq & Hne) & _); [rewrite Ho; by left|].
    destruct (ent_Some _ _ _ HE) as (e & He & Hee).
    rewrite (M_bind_Some _ _ _ _ _ (handle_key_spec _ _ _ _ He Hq Hne)), (M_bind_Some _ _ _ _ _ (handle_spec _ _ _ He)).
    replace (key_data e) with (e_key E) by by rewrite <- Hee. replace (hash e) with (e_hash E) by by rewrite <- Hee.
    destruct (table_Remove_rep c (set_mem m1 s) (ids o) (x :: ids o) a x E) as (t' & m2 & T' & E2 & Hp & HR2 & Hcore);
      [exact HR1|by rewrite Ho|by rewrite Ho|rewrite Ho; by left|by left|].
    rewrite (M_bind_Some _ _ _ _ _ E2). apply Permutation.Permutation_cons_inv in Hp.
    destruct (rep_expelled (with_table c t') (set_mem m2 (set_mem m1 s)) [] x E o a) as (c' & s' & E3 & HR3 & _).
    + destruct HR2 as [? ? ? (bs & ? & Hp2) ?]. split; [done..| |done]. exists bs. by rewrite Hp2, Hp.
    + done.
    + by rewrite Ho.
    + rewrite (M_bind_Some _ _ _ _ _ E3). cbn [app] in HR3.
      destruct (IH c' s' _ HR3) as (c'' & s'' & E4 & HR4); [rewrite order_expel; cbn in *; lia|].
      rewrite order_expel in HR4. by exists c'', s''.
Qed.

(** *** [Erase] *)

Lemma find_entry_cases key h a :
  (∃ x : nat * Entry, find_entry key h a = Some x ∧ x ∈ order a ∧ matches key h x) ∨
  (find_entry key h a = None ∧ ∀ x : nat * Entry, x ∈ order a → ¬ matches key h x).
Proof.
  unfold find_entry. destruct (filter (matches key h) (order a)) as [|x l] eqn:E; [right|left].
  - split; [done|]. intros x Hx Hm. assert (x ∈ filter (matches key h) (order a)) as Hin by by apply list_elem_of_filter.
    rewrite E in Hin. by apply elem_of_nil in Hin.
  - exists x. split; [done|]. assert (x ∈ filter (matches key h) (order a)) as Hin by (rewrite E; by left).
    by apply list_elem_of_filter in Hin as [? ?].
Qed.

Lemma fst_elem o x : x ∈ ids o → ∃ E, (x, E) ∈ o.
Proof. intros ([y E] & -> & Hx)%list_elem_of_fmap. by exists E. Qed.

Lemma no_key c s l T a key h :
  rep_with c s l T a → (∀ z, z ∈ T → z ∈ ids (order a)) → (∀ x : nat * Entry, x ∈ order a → ¬ matches key h x) →
  ∀ z, z ∈ T → ¬ is_key (mem s) key h z.
Proof.
  intros HR HT Hno z Hz Hkey. apply HT, fst_elem in Hz as [E Hz].
  apply (is_key_matches _ _ _ _ _ _ _ (rw_entries _ _ _ _ _ HR) Hz) in Hkey. by apply (Hno (z, E)).
Qed.

Lemma rep_size c s l T a bs : rep_with c s l T a → concat bs ≡ₚ T → T ≡ₚ ids (order a) → zlen (concat bs) = zlen (order a).
Proof. intros _ Hp HT. unfold zlen. by rewrite Hp, HT, length_fmap. Qed.

Lemma Erase_rep c s a key h :
  rep c s a → 0 ≤ h → ∃ c' s', lru_Erase c key h s = Some (c', s') ∧ rep c' s' (spec_Erase key h a).
Proof.
  intros [HR Hk] Hh. unfold lru_Erase, spec_Erase, take_out.
  destruct (find_entry_cases key h a) as [([x E] & -> & Hx & Hm)|[-> Hno]].
  - destruct (matches_split _ _ _ _ Hk Hx Hm) as (o1 & o2 & Ho & -> & _). destruct Hm as [<- <-]. cbn [snd].
    destruct (table_Remove_rep c s _ _ a x E HR Hk) as (t' & m1 & T' & E1 & Hp & HR1 & Hcore);
      [done|done|by apply (list_elem_of_fmap_2 fst _ (x, E))|].
    rewrite (M_bind_Some _ _ _ _ _ E1).
    assert (ids (order a) = ids o1 ++ x :: ids o2) as Hids by by rewrite Ho, fmap_app.
    rewrite Hids in HR1. destruct (LRU_Remove_rep _ _ _ _ _ _ _ HR1) as (m2 & E2 & HR2 & _).
    { intros y Hy. rewrite fmap_app. apply elem_of_app. left. rewrite Hp. by right. }
    rewrite (M_bind_Some _ _ _ _ _ E2). rewrite Hids, <- Permutation_middle in Hp. apply Permutation.Permutation_cons_inv in Hp.
    destruct (rep_expelled (with_table c t') (set_mem m2 (set_mem m1 s)) o1 x E o2 a) as (c' & s' & E3 & HR3 & _); [|done|done|by exists c', s'].
    rewrite fmap_app. destruct HR2 as [? ? ? (bs & ? & Hp2) ?]. split; [done..| |done]. exists bs. by rewrite Hp2, Hp.
  - destruct (HR) as [_ _ _ (bs & HTr & Hp) He]. pose proof (er_fits _ _ _ He) as (_ & Hfit & _).
    destruct (table_Remove_spec _ s bs key h HTr Hh) as (r & t' & m' & bs' & Er & Hcore & HT' & Hr).
    { rewrite (rep_size _ _ _ _ _ _ HR Hp); [lia|done]. }
    rewrite (M_bind_Some _ _ _ _ _ Er). destruct r as [y|].
    + destruct Hr as [Hkey Hperm]. exfalso. eapply (no_key c s _ _ a key h HR); [done..| |exact Hkey]. rewrite <- Hp, Hperm. by left.
    + destruct Hr as [_ ->]. eexists _, _. split; [done|]. split; [|done]. by eapply rep_table.
Qed.

(** *** [Lookup] *)

Lemma rep_reorder c s l T a o' : rep_with c s l T a → order a ≡ₚ o' → rep_with c s l T (set_order o' a).
Proof.
  intros [Hcap Hu Hl HT [He Hnd Hh Hd Hn Hg Hf]] Hp.
  assert (Hall : o' ++ detached a ≡ₚ order a ++ detached a) by by rewrite Hp.
  assert (Hus : usage (set_order o' a) = usage a) by (unfold usage; cbn [order detached set_order]; by rewrite Hall).
  split; [done|by rewrite Hus|done|done|]. split; cbn [order detached held gone set_order].
  - intros x E Hx. rewrite Hall in Hx. destruct (He x E Hx) as (H1 & H2 & H3 & H4 & H5). splits; [done..|].
    rewrite H5. f_equal. symmetry. apply refcount_ext; [|done]. cbn. by rewrite Hp.
  - by rewrite Hall.
  - intros x Hx. rewrite Hall. by apply Hh.
  - done.
  - intros x Hx. rewrite Hall in Hx. by apply Hn.
  - done.
  - rewrite Hus. unfold zlen in *. by rewrite <- Hp.
Qed.

Lemma hold_rep c s l T a x E e :
  rep_with c s l T a → (x, E) ∈ order a ++ detached a → get (mem s) x = Some e → zlen (held a) + 1 < 2 ^ 31 →
  ∃ m', set_refs x (u32 (refs e + 1)) s = Some ((), set_mem m' s) ∧ rep_with c (set_mem m' s) l T (hold x a).
Proof.
  intros [Hcap Hu Hl (bs & HT & Hp) [He Hnd Hh Hd Hn Hg Hf]] Hx Hgx Hfit.
  destruct (He x E Hx) as (_ & _ & _ & _ & Hrc). assert (refs e = refcount a x) as -> by (unfold rc in Hrc; rewrite Hgx in Hrc; by injection Hrc).
  assert (u32 (refcount a x + 1) = refcount a x + 1) as ->.
  { unfold refcount. pose proof (filter_held_le x (held a)). pose proof (zlen_nonneg (filter (λ y, y = x) (held a))).
    apply wrap_small. unfold in_w. destruct (decide _); lia. }
  destruct (set_refs_spec s x (refcount a x + 1) e Hgx) as (m' & E1 & Hlinks & Hent & Hnh & Hrx & Hro).
  exists m'. split; [done|]. split; [done|done| | |].
  - eapply dlist_frame; [|exact Hl]. intros y _. apply Hlinks.
  - exists bs. split; [|done]. by eapply table_rep_core.
  - split; cbn [order detached held gone hold set_mem mem deleted next_address].
    + intros y E' Hy. destruct (He y E' Hy) as (H1 & H2 & H3 & H4 & H5). rewrite Hent. splits; [done|by eapply next_core|done|done|].
      unfold refcount. cbn [order held hold]. rewrite filter_cons. destruct (decide (y = x)) as [->|Hne].
      * rewrite Hrx, (decide_True (P := x = x)), zlen_cons by done. unfold refcount. f_equal. lia.
      * rewrite Hro, H5, (decide_False (P := x = y)) by (done || by apply not_eq_sym). done.
    + done.
    + intros y [->|Hy]%elem_of_cons; [|by apply Hh]. by apply (list_elem_of_fmap_2 fst _ (x, E)).
    + intros y Hy. right. by apply Hd.
    + done.
    + done.
    + rewrite zlen_cons. destruct Hf as (? & ? & ?). splits; [done|done|lia].
Qed.

Lemma Lookup_rep c s a key h :
  rep c s a → 0 ≤ h → zlen (held a) + 1 < 2 ^ 31 →
  ∃ s', lru_Lookup c key h s = Some (fst <$> (spec_Lookup key h a).1, s') ∧ rep c s' (spec_Lookup key h a).2.
Proof.
  intros [HR Hk] Hh Hfit. unfold lru_Lookup, spec_Lookup. destruct (HR) as [_ _ _ (bs & HTr & Hp) He].
  destruct (table_Lookup_spec _ s bs key h HTr Hh) as (r & Er & Hr). rewrite (M_bind_Some _ _ _ _ _ Er).
  destruct (find_entry_cases key h a) as [([x E] & -> & Hx & Hm)|[-> Hno]]; cbn [fst snd fmap option_fmap option_map].
  - assert (Hkx : is_key (mem s) key h x) by by apply (is_key_matches _ _ _ _ _ _ _ He Hx).
    assert (Hxb : x ∈ concat bs) by (rewrite Hp; by apply (list_elem_of_fmap_2 fst _ (x, E))).
    destruct r as [y|]; [|by destruct (Hr x Hxb)]. destruct Hr as [Hy Hky].
    assert (y = x) as ->.
    { destruct (Hm) as [? ?]. eapply (key_of_entry c s _ _ a x E key h HR Hk); [done..| |exact Hky]. by rewrite <- Hp. }
    destruct (er_entries _ _ _ He x E) as (HE & _); [set_solver|]. destruct (ent_Some _ _ _ HE) as (e & Hge & _).
    rewrite (M_bind_Some _ _ _ _ _ (handle_spec _ _ _ Hge)).
    destruct (hold_rep c s _ _ a x E e HR) as (m1 & E1 & HR1); [set_solver|done|done|]. rewrite (M_bind_Some _ _ _ _ _ E1).
    destruct (matches_split _ _ _ _ Hk Hx Hm) as (o1 & o2 & Ho & -> & _).
    assert (Hids : ids (order a) = ids o1 ++ x :: ids o2) by by rewrite Ho, fmap_app.
    assert (Hsub : ∀ z, z ∈ ids (order a) → z ∈ ids (order (hold x a) ++ detached (hold x a))) by (intros z Hz; rewrite fmap_app; set_solver).
    rewrite Hids in HR1 at 1. destruct (LRU_Remove_rep _ _ _ _ _ _ _ HR1 Hsub) as (m2 & E2 & HR2 & _).
    rewrite (M_bind_Some _ _ _ _ _ E2).
    pose proof (leave_apart _ _ _ _ _ _ _ He Ho) as Hxo.
    destruct (LRU_Append_rep _ _ _ x _ _ HR2) as (m3 & E3 & HR3).
    { apply Hsub. rewrite Hids. set_solver. }
    { rewrite fmap_app, fmap_app in Hxo. set_solver. }
    { done. }
    rewrite (M_bind_Some _ _ _ _ _ E3). eexists. split; [done|].
    assert (Hperm : order a ≡ₚ (o1 ++ o2) ++ [(x, E)]) by (rewrite Ho; solve_Permutation).
    pose proof (rep_reorder _ _ _ _ _ ((o1 ++ o2) ++ [(x, E)]) HR3 Hperm) as HR4.
    split; [|cbn; by rewrite <- Hperm].
    destruct HR4 as [? ? ? (bs' & ? & Hp') ?]. split; [done|done| | |done].
    + cbn. by rewrite !fmap_app.
    + exists bs'. split; [done|]. rewrite Hp'. cbn. by rewrite Hperm.
  - destruct r as [y|].
    + destruct Hr as [Hy Hky]. exfalso. eapply (no_key c s _ _ a key h HR); [done..| |exact Hky]. by rewrite <- Hp.
    + exists s. split; [done|]. by split.
Qed.

(** *** [Insert] *)

(** Room for one more entry of the charge and its handle. *)
Definition fits (a : Spec) (ch : Z) : Prop :=
  0 ≤ ch ∧ usage a + ch < 2 ^ 32 ∧ zlen (order a) + 1 < 2 ^ 31 ∧ zlen (held a) + 1 < 2 ^ 31.

(** The state after the entry was appended and before the table has it. *)
Definition appended x E a : Spec := hold x (set_order (order a ++ [(x, E)]) a).

Lemma appended_rep c s a key h v ch d :
  rep c s a → 0 ≤ h → fits a ch →
  let x := next_address s in
  let E := {| e_key := key; e_hash := h; e_value := v; e_charge := ch; e_deleter := d |} in
  ∃ s1 s', new_entry key h v ch d s = Some (x, s1) ∧ LRU_Append c x s1 = Some ((), s') ∧
    rep_with (with_usage c (usize (usage_ c + ch))) s' (ids (order a) ++ [x]) (ids (order a)) (appended x E a).
Proof.
  intros [[Hcap Hu Hl (bs & HT & Hp) [He Hnd Hh Hd Hn Hg Hf]] Hk] Hh0 (Hch & Hf1 & Hf2 & Hf3) x E.
  assert (Hfresh : x ∉ lru_ c :: ids (order a ++ detached a)) by (intros Hx; specialize (Hn x Hx); unfold x in Hn; lia).
  assert (Hne : ∀ y, y ∈ lru_ c :: ids (order a ++ detached a) → y ≠ x) by (intros y Hy ->; by apply Hfresh).
  assert (Hl1 : ∀ y, y ∈ lru_ c :: ids (order a) → y ∈ lru_ c :: ids (order a ++ detached a)).
  { intros y [->|Hy]%elem_of_cons; [by left|]. right. rewrite fmap_app. set_solver. }
  set (e := {| value := v; deleter := d; next_hash := None; charge := ch; key_data := key; refs := 2; hash := h |}).
  set (m1 := <[x := {| prev_ := x; next_ := x; data_ := Some e |}]> (mem s)).
  assert (Hsame : ∀ y, y ≠ x → same_at (mem s) m1 y ∧ rc m1 y = rc (mem s) y).
  { intros y Hy. unfold m1. split; [split|]; unfold ent, nh, rc, get, load_prev, load_next; by rewrite lookup_insert_ne. }
  destruct (insert_before_spec m1 (lru_ c) x (ids (order a))) as (m' & E1 & Hl' & R).
  { eapply dlist_at; [|exact Hl]. intros y Hy. by apply Hsame, Hne, Hl1. }
  { intros Hx. by apply Hfresh, Hl1. }
  { unfold m1. rewrite lookup_insert_eq. by eexists. }
  assert (Hget : ∀ y, get m' y = get m1 y) by (intros y; by eapply relinked_get).
  assert (Hgx : get m' x = Some e) by (rewrite Hget; unfold m1, get; by rewrite lookup_insert_eq).
  assert (Hnext : ∀ y, y ∈ ids (order a ++ detached a) → next_ok m' y).
  { intros y Hy. destruct (decide (y ∈ ids (order a))) as [Hin|Hout]; [eapply next_of_dlist; [exact Hl'|set_solver]|].
    assert (Hyx : y ≠ x) by by apply Hne; right.
    eapply relinked_next; [exact R| |].
    - intros [->|[->|?]%elem_of_cons]%elem_of_cons; [by apply list.NoDup_cons in Hnd as []|done|done].
    - apply fst_elem in Hy as [E' Hy]. destruct (He y E' Hy) as (_ & (q & Hq & Hqy) & _). exists q.
      destruct (Hsame y Hyx) as [[_ _ _ ->] _]. done. }
  assert (Hall : (order a ++ [(x, E)]) ++ detached a ≡ₚ (x, E) :: order a ++ detached a) by solve_Permutation.
  assert (Hxh : x ∉ held a) by (intros Hx; apply Hfresh; right; by apply Hh).
  exists {| mem := m1; next_address := S x; deleted := deleted s |}, {| mem := m'; next_address := S x; deleted := deleted s |}.
  split; [done|]. split; [unfold LRU_Append, on_mem; cbn; by rewrite E1|].
  assert (0 ≤ usage a).
  { apply total_nonneg. intros y E' Hy. by destruct (He y E' Hy) as (_ & _ & _ & ? & _). }
  assert (Hus : usage (appended x E a) = usage a + ch).
  { unfold usage, appended. cbn [order detached hold set_order]. rewrite Hall, total_cons. cbn [snd e_charge E]. lia. }
  split; [done| |done| |].
  - rewrite Hus. cbn. rewrite Hu. apply wrap_small. unfold in_w. lia.
  - exists bs. split; [|done]. cbn. eapply table_rep_relink; [exact Hget| |].
    + intros y Hy. apply Hnext. rewrite fmap_app. apply elem_of_app. left. by rewrite <- Hp.
    + eapply table_rep_at; [|exact HT]. intros y Hy. apply Hsame, Hne, Hl1. right. by rewrite <- Hp.
  - unfold appended. split; cbn [order detached held gone hold set_order mem next_address deleted].
    + intros y E' Hy. rewrite Hall in Hy. apply elem_of_cons in Hy as [[= -> ->]|Hy].
      * unfold ent, rc. rewrite Hgx. splits; [done|eapply next_of_dlist; [exact Hl'|set_solver]|done|done|].
        unfold refcount. cbn [order held hold set_order]. rewrite decide_True by (rewrite fmap_app; cbn; set_solver).
        rewrite filter_cons, decide_True, zlen_cons by done. by rewrite (filter_held_nil x (held a)).
      * assert (Hyx : y ≠ x) by (apply Hne; right; by apply (list_elem_of_fmap_2 fst _ (y, E'))).
        destruct (Hsame y Hyx) as [[Hse _ _ _] Hsr]. destruct (He y E' Hy) as (H1 & H2 & H3 & H4 & H5).
        unfold ent, rc in *. rewrite Hget, Hse, Hsr, H5.
        splits; [done|apply Hnext; by apply (list_elem_of_fmap_2 fst _ (y, E'))|done|done|].
        f_equal. symmetry. apply refcount_ext; cbn [order held hold set_order].
        -- rewrite fmap_app. cbn. set_solver.
        -- rewrite filter_cons, decide_False; [done|]. by apply not_eq_sym.
    + rewrite Hall. cbn. rewrite Permutation_swap. constructor; [done|exact Hnd].
    + intros y [->|Hy]%elem_of_cons; rewrite Hall; cbn; [by left|right; by apply Hh].
    + intros y Hy. right. by apply Hd.
    + intros y Hy. rewrite Hall in Hy. cbn in Hy. apply elem_of_cons in Hy as [->|[->|Hy]%elem_of_cons].
      * specialize (Hn (lru_ c)). assert (lru_ c < next_address s)%nat by (apply Hn; by left). unfold x. lia.
      * lia.
      * assert (y < next_address s)%nat by (apply Hn; by right). unfold x. lia.
    + done.
    + fold (appended x E a). rewrite Hus, zlen_app, zlen_cons. change (zlen []) with 0. rewrite zlen_cons. lia.
Qed.

(** *** [Release] *)

Lemma held_delete (l : list nat) i x : l !! i = Some x →
  zlen (filter (λ y, y = x) l) = zlen (filter (λ y, y = x) (delete i l)) + 1 ∧
  (∀ y, y ≠ x → filter (λ z, z = y) (delete i l) = filter (λ z, z = y) l) ∧
  zlen (delete i l) = zlen l - 1 ∧ ∀ y, y ∈ delete i l → y ∈ l.
Proof.
  intros Hi. apply list_elem_of_split_length in Hi as (l1 & l2 & -> & ->). rewrite delete_middle. splits.
  - rewrite !list.filter_app, filter_cons, decide_True, !zlen_app, zlen_cons by done. lia.
  - intros y Hy. rewrite !list.filter_app, filter_cons, decide_False; [done|]. by apply not_eq_sym.
  - rewrite !zlen_app, zlen_cons. lia.
  - set_solver.
Qed.

Lemma Release_rep c s a i x :
  rep c s a → held a !! i = Some x → ∃ c' s', lru_Release c x s = Some (c', s') ∧ rep c' s' (spec_Release i a).
Proof.
  intros [[Hcap Hu Hl (bs & HT & Hp) HR] Hk] Hi. destruct (HR) as [He Hnd Hh Hd Hn Hg (Hf1 & Hf2 & Hf3)].
  destruct (held_delete _ _ _ Hi) as (Hcount & Hother & Hlen & Hsub).
  assert (Hx : x ∈ held a) by by eapply list_elem_of_lookup_2.
  destruct (fst_elem _ _ (Hh x Hx)) as [E HxE]. destruct (He x E HxE) as (HE & Hnx & _ & Hch & Hrc).
  pose proof (filter_held_le x (held a)). pose proof (zlen_nonneg (filter (λ y, y = x) (delete i (held a)))).
  assert (Hn1 : 1 ≤ refcount a x < 2 ^ 32) by (unfold refcount; destruct (decide _); lia).
  destruct (Unref_spec c s x E _ HE Hnx Hrc Hn1) as (m' & Hs & Hrx & Hro & Eu).
  unfold lru_Release. rewrite Eu. unfold spec_Release. rewrite Hi. cbn beta iota zeta.
  assert (Hiff : refcount a x = 1 ↔ ¬ (x ∈ ids (order a) ∨ x ∈ delete i (held a))).
  { unfold refcount. rewrite Hcount. split.
    - intros H1 [Hin|Hin]; [rewrite decide_True in H1 by done; lia|].
      pose proof (filter_held_pos x _ Hin). case_decide; lia.
    - intros Hno. rewrite decide_False by tauto. rewrite filter_held_nil by tauto. lia. }
  assert (Hrefs : ∀ a' y, order a' = order a → held a' = delete i (held a) →
    refcount a' y = if decide (y = x) then refcount a x - 1 else refcount a y).
  { intros a' y Eo Eh. unfold refcount. rewrite Eo, Eh. destruct (decide (y = x)) as [->|Hyx]; [lia|by rewrite Hother]. }
  destruct (decide (x ∈ (order a).*1 ∨ x ∈ delete i (held a))) as [Hin|Hout].
  - rewrite decide_False by tauto. exists c, (set_mem m' s). split; [done|]. split; [|done]. split; [done|exact Hu| | |].
    + by eapply dlist_at.
    + exists bs. split; [|done]. by eapply table_rep_at.
    + split; cbn [order detached held gone set_mem mem deleted next_address]; [|done| | |done|done|].
      * intros y E' Hy. destruct (He y E' Hy) as (H1 & (q & Hq & Hqy) & H3 & H4 & H5). destruct (Hs y) as [He' _ _ Hn'].
        splits; [by rewrite He'|exists q; by rewrite Hn'|done|done|]. rewrite Hrefs by done.
        destruct (decide (y = x)) as [->|Hyx]; [done|by rewrite Hro].
      * intros y Hy. by apply Hh, Hsub.
      * intros y Hy. specialize (Hd y Hy). destruct (decide (y = x)) as [->|Hyx].
        -- destruct Hin as [Hin|?]; [|done]. exfalso. apply list.NoDup_cons in Hnd as [_ Hnd]. rewrite fmap_app in Hnd.
           apply list.NoDup_app in Hnd as (_ & Hdis & _). by apply (Hdis x).
        -- assert (y ∈ filter (λ z, z = y) (held a)) as Hf by by apply list_elem_of_filter.
           rewrite <- Hother in Hf by done. by apply list_elem_of_filter in Hf as [_ ?].
      * splits; [done|done|lia].
  - rewrite decide_True by tauto.
    assert (HxD : (x, E) ∈ detached a).
    { apply elem_of_app in HxE as [Hin|?]; [|done]. destruct Hout. left. by apply (list_elem_of_fmap_2 fst _ (x, E)). }
    apply list_elem_of_split in HxD as (d1 & d2 & Ed).
    assert (Hperm : order a ++ detached a ≡ₚ (x, E) :: order a ++ d1 ++ d2) by (rewrite Ed; solve_Permutation).
    assert (Hx' : x ∉ lru_ c :: ids (order a ++ d1 ++ d2)).
    { rewrite Hperm in Hnd. cbn in Hnd. rewrite Permutation_swap in Hnd. by apply list.NoDup_cons in Hnd as []. }
    assert (Hd12 : ∀ y : nat * Entry, y ∈ d1 ++ d2 → y.1 ≠ x).
    { intros y Hy <-. apply Hx'. right. apply (list_elem_of_fmap_2 fst). set_solver. }
    assert (filter (λ y : nat * Entry, y.1 ≠ x) (detached a) = d1 ++ d2 ∧ filter (λ y : nat * Entry, y.1 = x) (detached a) = [(x, E)]) as [-> ->].
    { rewrite Ed, !list.filter_app, !filter_cons, (decide_False (P := (x, E).1 ≠ x)), (decide_True (P := (x, E).1 = x)) by naive_solver.
      rewrite !(filter_all (λ y : nat * Entry, y.1 ≠ x)), !(filter_none (λ y : nat * Entry, y.1 = x)); [done|..];
        apply list.Forall_forall; intros y Hy; apply Hd12; set_solver. }
    assert (Hus : usage a = e_charge E + total (order a ++ d1 ++ d2)) by (unfold usage; by rewrite Hperm, total_cons).
    assert (0 ≤ total (order a ++ d1 ++ d2)).
    { apply total_nonneg. intros y E' Hy. destruct (He y E') as (_ & _ & _ & ? & _); [|done]. rewrite Hperm. by right. }
    eexists _, _. split; [done|]. split; [|done]. split; cbn [capacity_ usage_ table_ lru_ with_usage limit order detached].
    + done.
    + rewrite Hu, Hus. unfold usage. cbn [order detached]. rewrite wrap_small; [lia|]. unfold in_w. lia.
    + eapply dlist_at; [|exact Hl]. intros y Hy. apply same_at_delete; [|done]. intros ->. apply Hx'.
      apply elem_of_cons in Hy as [->|Hy]; [by left|]. right. rewrite fmap_app. set_solver.
    + exists bs. split; [|done]. eapply table_rep_at; [|exact HT]. intros y Hy. apply same_at_delete; [|done]. intros ->.
      apply Hx'. right. rewrite fmap_app. apply elem_of_app. left. by rewrite <- Hp.
    + split; cbn [order detached held gone freed mem deleted next_address].
      * intros y E' Hy. assert (Hyx : y ≠ x) by (intros ->; apply Hx'; right; by apply (list_elem_of_fmap_2 fst _ (x, E'))).
        destruct (He y E') as (G1 & (q & Hq & Hqy) & G3 & G4 & G5); [rewrite Hperm; by right|].
        destruct (same_at_delete _ _ x y Hyx (Hs y)) as [He' _ _ Hn'].
        splits; [by rewrite He'|exists q; by rewrite Hn'|done|done|]. rewrite rc_delete, Hro, G5 by done. f_equal.
        symmetry. etrans; [by apply Hrefs|]. by rewrite decide_False.
      * rewrite Hperm in Hnd. cbn in Hnd. rewrite Permutation_swap in Hnd. by apply list.NoDup_cons in Hnd as [].
      * intros y Hy. assert (Hin := Hh y (Hsub y Hy)). rewrite Hperm in Hin. cbn in Hin.
        apply elem_of_cons in Hin as [->|?]; [|done]. destruct Hout. by right.
      * intros y Hy. apply fst_elem in Hy as [E' Hy]. pose proof (Hd12 _ Hy) as Hyx. cbn in Hyx.
        assert (y ∈ held a) as Hyh by (apply Hd; rewrite Ed; apply (list_elem_of_fmap_2 fst _ (y, E')); set_solver).
        assert (y ∈ filter (λ z, z = y) (held a)) as Hf by by apply list_elem_of_filter.
        rewrite <- Hother in Hf by done. by apply list_elem_of_filter in Hf as [_ ?].
      * intros y Hy. apply Hn. rewrite Hperm. set_solver.
      * by rewrite Hg.
      * unfold usage. cbn [order detached]. splits; [lia|done|lia].
Qed.

(** *** [Insert] *)

Lemma keys_snoc o1 o2 x E :
  NoDup (key_of <$> o1 ++ o2) → (∀ y : nat * Entry, y ∈ o1 ++ o2 → key_of y ≠ key_of (x, E)) → NoDup (key_of <$> o1 ++ o2 ++ [(x, E)]).
Proof.
  intros Hnd Hno. rewrite app_assoc, fmap_app. apply list.NoDup_app. split; [done|]. split; [|apply NoDup_singleton].
  intros k Hk ->%list_elem_of_singleton. apply list_elem_of_fmap in Hk as (y & Ey & Hy). by apply (Hno y Hy).
Qed.

(** What [Insert] makes of the old entry of the key. *)
Lemma appended_expel x E y E0 o1 o2 a :
  order a = o1 ++ (y, E0) :: o2 → y ≠ x →
  expel (y, E0) (set_order (o1 ++ o2 ++ [(x, E)]) (appended x E a)) =
  hold x (set_order (order (expel (y, E0) (set_order (o1 ++ o2) a)) ++ [(x, E)]) (expel (y, E0) (set_order (o1 ++ o2) a))).
Proof.
  intros Ho Hne. rewrite order_expel. unfold expel, appended, hold, set_order. cbn [fst held order detached gone limit].
  rewrite <- app_assoc. destruct (decide (y ∈ held a)) as [Hy|Hy].
  - rewrite decide_True by by right. done.
  - rewrite decide_False by (intros [?|?]%elem_of_cons; done). done.
Qed.

Lemma Insert_rep c s a key h v ch d :
  rep c s a → 0 ≤ h → fits a ch →
  let x := next_address s in
  let E := {| e_key := key; e_hash := h; e_value := v; e_charge := ch; e_deleter := d |} in
  ∃ c' s', lru_Insert c key h v ch d s = Some ((x, c'), s') ∧ rep c' s' (spec_Insert x E a).
Proof.
  intros HR0 Hh Hfits x E. pose proof HR0 as [HRa Hk].
  destruct (appended_rep c s a key h v ch d HR0 Hh Hfits) as (s1 & s2 & E1 & E2 & HR2). fold x E in E1, E2, HR2.
  unfold lru_Insert. rewrite (M_bind_Some _ _ _ _ _ E1), (M_bind_Some _ _ _ _ _ E2).
  set (c1 := with_usage c (usize (usage_ c + ch))) in *. destruct (HR2) as [_ _ _ (bs & HTr & Hp) He].
  assert (Hox : order (appended x E a) = order a ++ [(x, E)]) by done.
  destruct (er_entries _ _ _ He x E) as (HE & Hnx & _); [rewrite Hox; set_solver|].
  assert (Hxo : x ∉ ids (order a)).
  { intros Hx. pose proof (er_nodup _ _ _ He) as [_ Hnd]%list.NoDup_cons. rewrite Hox, !fmap_app in Hnd. cbn in Hnd.
    apply list.NoDup_app in Hnd as ((_ & Hdis & _)%list.NoDup_app & _ & _). apply (Hdis x Hx). by left. }
  destruct Hfits as (Hch & Hf1 & Hf2 & Hf3).
  destruct (table_Insert_spec _ s2 bs x E HTr HE) as (old & t & m3 & bs' & E3 & Hcore & HT' & Hold); [done|done|by rewrite Hp| |].
  { unfold zlen in *. rewrite Hp, length_fmap. lia. }
  rewrite (M_bind_Some _ _ _ _ _ E3). unfold spec_Insert, take_out. cbn [e_key e_hash E] in *.
  destruct (find_entry_cases key h a) as [([y E0] & -> & Hy & Hm)|[-> Hno]].
  - destruct (matches_split _ _ _ _ Hk Hy Hm) as (o1 & o2 & Ho & -> & _).
    assert (Hyx : y ≠ x) by (intros ->; apply Hxo; by apply (list_elem_of_fmap_2 fst _ (x, E0))).
    assert (Hky : is_key (mem s2) key h y).
    { apply (is_key_matches _ _ _ _ E0 _ _ He); [|done]. rewrite Hox. set_solver. }
    destruct old as [o|]; [|exfalso; eapply (proj1 Hold y); [|exact Hky]; rewrite Hp; by apply (list_elem_of_fmap_2 fst _ (y, E0))].
    destruct Hold as (Hin & Hko & Hperm).
    assert (o = y) as ->.
    { rewrite Hp in Hin. apply fst_elem in Hin as [E' Hin].
      apply (is_key_matches _ _ _ _ E' _ _ He) in Hko as [Hh' Hk']; [|rewrite Hox; set_solver]. cbn in *.
      assert ((o, E') = (y, E0)) as [= -> _]; [|done]. eapply key_unique; [exact Hk|done..|].
      destruct Hm as [? ?]. unfold key_of. cbn in *. congruence. }
    assert (HT3 : concat bs' ≡ₚ ids (o1 ++ o2 ++ [(x, E)])).
    { rewrite Hp, Ho in Hperm. apply (Permutation.Permutation_cons_inv (a := y)) . rewrite <- Hperm, !fmap_app. cbn. solve_Permutation. }
    pose proof (rep_table _ _ _ _ _ t m3 bs' _ HR2 Hcore HT' HT3) as HR3.
    assert (Hl3 : ids (order a) ++ [x] = ids o1 ++ y :: ids (o2 ++ [(x, E)])).
    { rewrite Ho, !fmap_app. cbn. by rewrite <- app_assoc. }
    rewrite Hl3 in HR3. destruct (LRU_Remove_rep _ _ _ _ _ _ _ HR3) as (m4 & E4 & HR4 & _).
    { intros z Hz. rewrite Hox, Ho. rewrite !fmap_app in *. cbn. set_solver. }
    rewrite <- fmap_app in HR4.
    assert (Hoa : order (appended x E a) = o1 ++ (y, E0) :: (o2 ++ [(x, E)])) by by rewrite Hox, Ho, <- app_assoc.
    pose proof (leave_apart _ _ _ _ _ _ _ (rw_entries _ _ _ _ _ HR4) Hoa) as Hya.
    assert (Hyo : y ∉ ids (o1 ++ o2 ++ [(x, E)])) by (rewrite fmap_app in Hya; set_solver).
    destruct (Unref_expel _ _ _ _ _ y E0 o1 (o2 ++ [(x, E)]) HR4 Hoa Hyo Hyo) as (c5 & s5 & E5 & HR5 & Ht5).
    rewrite (appended_expel x E y E0 o1 o2 a Ho Hyx) in HR5.
    set (a5 := hold x _) in *.
    assert (Ho5 : order a5 = o1 ++ o2 ++ [(x, E)]) by (unfold a5; cbn; by rewrite order_expel, app_assoc).
    assert (Hrep5 : rep c5 s5 a5).
    { split; rewrite Ho5; [done|]. apply keys_snoc.
      - rewrite Ho in Hk. by eapply sublist_keys.
      - intros z Hz [= Hzh Hzk]. assert (z = (y, E0)) as ->.
        { destruct Hm as [Hm1 Hm2]. eapply key_unique; [exact Hk|rewrite Ho; set_solver|done|]. unfold key_of. cbn in *. congruence. }
        apply Hyo. apply (list_elem_of_fmap_2 fst _ (y, E0)). set_solver. }
    rewrite (M_bind_Some _ _ (set_mem m3 s2) c5 s5) by (rewrite (M_bind_Some _ _ _ _ _ E4); exact E5).
    destruct (evict_loop_rep (Z.to_nat (elems_ (table_ c5))) c5 s5 a5 Hrep5) as (c6 & s6 & E6 & HR6).
    { destruct HR5 as [_ _ _ (b5 & Hb5 & Hp5) _]. rewrite (tr_elems _ _ _ Hb5). unfold zlen. rewrite Hp5, Ho5, length_fmap. lia. }
    rewrite (M_bind_Some _ _ _ _ _ E6). by exists c6, s6.
  - assert (old = None) as ->.
    { destruct old as [o|]; [|done]. destruct Hold as (Hin & Hko & _). exfalso. rewrite Hp in Hin. apply fst_elem in Hin as [E' Hin].
      apply (is_key_matches _ _ _ _ E' _ _ He) in Hko; [|rewrite Hox; set_solver]. by apply (Hno (o, E')). }
    destruct Hold as [_ Hperm].
    assert (HT3 : concat bs' ≡ₚ ids (order (appended x E a))).
    { rewrite Hperm, Hp, Hox, fmap_app. cbn. solve_Permutation. }
    pose proof (rep_table _ _ _ _ _ t m3 bs' _ HR2 Hcore HT' HT3) as HR3.
    assert (Hrep3 : rep (with_table c1 t) (set_mem m3 s2) (appended x E a)).
    { split; [|rewrite Hox, <- (app_nil_l (order a ++ _)); apply (keys_snoc []); [done|]].
      - replace (ids (order a) ++ [x]) with (ids (order (appended x E a))) in HR3 by (by rewrite Hox, fmap_app). done.
      - intros z Hz [= Hzh Hzk]. by apply (Hno z). }
    rewrite (M_bind_Some _ _ (set_mem m3 s2) (with_table c1 t) (set_mem m3 s2)) by done.
    destruct (evict_loop_rep (Z.to_nat (elems_ (table_ (with_table c1 t)))) _ _ _ Hrep3) as (c6 & s6 & E6 & HR6).
    { change (table_ (with_table c1 t)) with t. rewrite (tr_elems _ _ _ HT'). unfold zlen. rewrite HT3, length_fmap. lia. }
    rewrite (M_bind_Some _ _ _ _ _ E6). by exists c6, s6.
Qed.
End Shard.
