(* ===== verification/CacheShards.v ===== *)
(** The sharded cache of [util/cache.cc] under any series of calls of a client:
    it answers as the specification of its shards does. *)
From stdpp Require Import gmap.
From S2P Require Import Prelude SortedLists Env Bloom DList Cache CacheTable CacheRefines.

(** ** Hashes *)

Lemma lxor_range a b : in_w 32 a → in_w 32 b → in_w 32 (Z.lxor a b).
Proof.
  unfold in_w. intros Ha Hb. assert (0 ≤ Z.lxor a b) by (apply Z.lxor_nonneg; lia). split; [done|].
  destruct (decide (Z.lxor a b = 0)) as [->|]; [lia|]. apply Z.log2_lt_pow2; [lia|].
  pose proof (Z.log2_lxor a b). assert (∀ z, 0 ≤ z < 2 ^ 32 → Z.log2 z < 32) as Hlog.
  { intros z Hz. destruct (decide (z = 0)) as [->|]; [done|]. apply Z.log2_lt_pow2; lia. }
  pose proof (Hlog a Ha). pose proof (Hlog b Hb). lia.
Qed.

Lemma shiftr_range a n : 0 ≤ n → in_w 32 a → in_w 32 (Z.shiftr a n).
Proof.
  unfold in_w. intros Hn Ha. rewrite Z.shiftr_div_pow2 by done. assert (0 < 2 ^ n) by (apply Z.pow_pos_nonneg; lia).
  pose proof (Z.div_le_upper_bound a (2 ^ n) a). assert (0 ≤ a / 2 ^ n) by (apply Z.div_pos; lia). nia.
Qed.

Lemma u32_range z : in_w 32 (u32 z).
Proof. by apply wrap_range. Qed.

Lemma Hash_loop_range fuel h data : in_w 32 h → in_w 32 (Hash_loop fuel h data).1.
Proof.
  revert h data. induction fuel as [|fuel IH]; intros h data Hh; cbn [Hash_loop]; [done|].
  case_decide; [|done]. apply IH, lxor_range; [apply u32_range|]. apply shiftr_range; [lia|apply u32_range].
Qed.

Lemma Hash_range data seed : in_w 32 seed → in_w 32 (Hash data seed).
Proof.
  intros Hs. unfold Hash.
  pose proof (Hash_loop_range (length data) (Z.lxor seed (usize (zlen data * 0xc6a4a793))) data) as H.
  destruct (Hash_loop _ _ _) as [h rest]. cbn [fst] in H. specialize (H (lxor_range _ _ Hs (u32_range _))).
  assert (∀ z, in_w 32 (Z.lxor (u32 z) (Z.shiftr (u32 z) 24))) as Hf.
  { intros z. apply lxor_range; [apply u32_range|]. apply shiftr_range; [lia|apply u32_range]. }
  destruct rest as [|? [|? [|? [|]]]]; try exact H; apply Hf.
Qed.

Lemma HashSlice_range key : in_w 32 (HashSlice key).
Proof. apply Hash_range. unfold in_w. lia. Qed.

Lemma Shard_lt h : in_w 32 h → (Shard h < Z.to_nat kNumShards)%nat.
Proof.
  unfold in_w, Shard. intros Hh. change kNumShardBits with 4. change (Z.to_nat kNumShards) with 16%nat.
  rewrite Z.shiftr_div_pow2 by lia. assert (0 ≤ h / 2 ^ (32 - 4)) by (apply Z.div_pos; lia).
  assert (h / 2 ^ (32 - 4) < 16) by (apply Z.div_lt_upper_bound; lia). lia.
Qed.

(** ** Addresses *)

Section Shards.
Context {V D : Type}.
Abbreviation Heap := (Heap (V := V) (D := D)).
Abbreviation Spec := (Spec V D).

(** The operation allocates nothing. *)
Definition keeps {A} (f : M Heap A) : Prop := ∀ s r s', f s = Some (r, s') → next_address s' = next_address s.

Lemma keeps_bind {A B} (f : M Heap A) (g : A → M Heap B) : keeps f → (∀ a, keeps (g a)) → keeps (f ≫= g).
Proof.
  intros Hf Hg s r s'. unfold mbind, M_bind. destruct (f s) as [[a s1]|] eqn:E; [|done]. intros E'.
  rewrite (Hg a _ _ _ E'). by apply Hf in E.
Qed.

Lemma keeps_ret {A} (a : A) : keeps (mret a).
Proof. by intros s r s' [= _ ->]. Qed.

Lemma keeps_undefined {A} : keeps (A := A) undefined.
Proof. by intros s r s'. Qed.

Lemma keeps_read {A} (f : gmap nat (Node (option (LRUHandle (V := V) (D := D)))) → option A) : keeps (read f).
Proof. intros s r s'. unfold read. destruct (f (mem s)); [|done]. by intros [= _ ->]. Qed.

Lemma keeps_on_mem f : keeps (on_mem f).
Proof. intros s r s'. unfold on_mem. cbn. destruct (f (mem s)); [|done]. by intros [= _ <-]. Qed.

Lemma keeps_free a e k : keeps (free_entry a e k).
Proof. by intros s r s' [= _ <-]. Qed.

Create HintDb keeps discriminated.

Ltac keeps := repeat first
  [ solve [auto 2 with keeps nocore] | apply keeps_ret | apply keeps_undefined | apply keeps_read | apply keeps_on_mem | apply keeps_free
  | apply keeps_bind; [|intros ?] | done
  | match goal with |- keeps (match ?x with _ => _ end) => destruct x end
  | match goal with |- keeps (let _ := _ in _) => cbv zeta end
  | progress unfold handle, set_handle, set_next_hash, set_refs, handle_key, LRU_Remove, LRU_Append ].

Lemma keeps_load_slot t ptr : keeps (load_slot t ptr).
Proof. destruct ptr; cbn; [|keeps]. intros s r s'. destruct (list_ t !! i); [|done]. by intros [= _ ->]. Qed.

Lemma keeps_store_slot t ptr p : keeps (store_slot t ptr p).
Proof. destruct ptr; cbn; keeps. Qed.

Lemma keeps_FindPointer t key h : keeps (FindPointer t key h).
Proof.
  unfold FindPointer. generalize (Bucket (bucket_of (length_ t) h)). induction (S _) as [|fuel IH]; intros ptr; cbn [FindPointer_loop]; keeps.
  all: try apply keeps_load_slot; try apply IH.
Qed.

#[local] Hint Resolve keeps_load_slot keeps_store_slot keeps_FindPointer : keeps.

Lemma keeps_rehash_chain fuel n h l : keeps (rehash_chain fuel n h l).
Proof.
  revert h l. induction fuel as [|fuel IH]; intros [a|] l; cbn [rehash_chain]; keeps; apply IH.
Qed.
#[local] Hint Resolve keeps_rehash_chain : keeps.

Lemma keeps_rehash fuel n ol l : keeps (rehash fuel n ol l).
Proof. revert l. induction ol as [|h ol IH]; intros l; cbn [rehash]; keeps; apply IH. Qed.
#[local] Hint Resolve keeps_rehash : keeps.

Lemma keeps_table_Insert t a : keeps (table_Insert t a).
Proof. unfold table_Insert, Resize. keeps. Qed.

Lemma keeps_table_Remove t key h : keeps (table_Remove t key h).
Proof. unfold table_Remove. keeps. Qed.

Lemma keeps_Unref c a : keeps (Unref c a).
Proof. unfold Unref. keeps. Qed.
#[local] Hint Resolve keeps_table_Insert keeps_table_Remove keeps_Unref : keeps.

Lemma keeps_evict fuel c : keeps (evict_loop fuel c).
Proof. revert c. induction fuel as [|fuel IH]; intros c; cbn [evict_loop]; keeps; apply IH. Qed.
#[local] Hint Resolve keeps_evict : keeps.

Lemma keeps_Lookup c key h : keeps (lru_Lookup c key h).
Proof. unfold lru_Lookup, table_Lookup. keeps. Qed.

Lemma keeps_Release c a : keeps (lru_Release c a).
Proof. apply keeps_Unref. Qed.

Lemma keeps_Erase c key h : keeps (lru_Erase c key h).
Proof. unfold lru_Erase. keeps. Qed.

Lemma next_Insert c key h v ch d (s : Heap) r s' : lru_Insert c key h v ch d s = Some (r, s') → next_address s' = S (next_address s).
Proof.
  unfold lru_Insert. set (g := λ a : nat, _ ← LRU_Append c a; _). unfold mbind at 1, M_bind at 1. cbn.
  intros E. enough (keeps (g (next_address s))) as Hk by by apply Hk in E.
  unfold g. keeps.
Qed.

(** ** Clients *)

(** [CallRelease i j] gives back the [j]-th handle that is held of shard [i]. *)
Inductive CacheCall :=
  | CallInsert (key : bytes) (v : V) (ch : Z) (d : D)
  | CallLookup (key : bytes)
  | CallErase (key : bytes)
  | CallRelease (i j : nat).

(** The cache with the handles that the client holds, by shard; a call shows
    the value at the handle that it returns. *)
Definition cache_call (cl : CacheCall) (st : ShardedLRUCache (V := V) (D := D) * list (list nat)) :
    option (option V * (ShardedLRUCache (V := V) (D := D) * list (list nat))) :=
  let '(c, hs) := st in
  match cl with
  | CallInsert key v ch d =>
      '(h, c) ← Insert c key v ch d;
      r ← Value c h;
      Some (Some r, (c, alter (cons h.2) h.1 hs))
  | CallLookup key =>
      '(o, c) ← Lookup c key;
      match o with
      | Some h => r ← Value c h; Some (Some r, (c, alter (cons h.2) h.1 hs))
      | None => Some (None, (c, hs))
      end
  | CallErase key => c ← Erase c key; Some (None, (c, hs))
  | CallRelease i j =>
      match hs !! i ≫= lookup j with
      | Some x => c ← Release c (i, x); Some (None, (c, alter (delete j) i hs))
      | None => Some (None, (c, hs))
      end
  end.

#[export] Instance fits_dec (a : Spec) ch : Decision (fits a ch).
Proof. unfold fits. apply _. Defined.

(** The specifications of the shards, each with the number of its next entry;
    no result if the client has more than the counters of the code can take. *)
Definition spec_call (cl : CacheCall) (l : list (Spec * nat)) : option (option V * list (Spec * nat)) :=
  match cl with
  | CallInsert key v ch d =>
      let h := HashSlice key in
      '(a, n) ← l !! Shard h;
      if decide (fits a ch) then
        let e := {| e_key := key; e_hash := h; e_value := v; e_charge := ch; e_deleter := d |} in
        Some (Some v, <[Shard h := (spec_Insert n e a, S n)]> l)
      else None
  | CallLookup key =>
      let h := HashSlice key in
      '(a, n) ← l !! Shard h;
      if decide (zlen (held a) + 1 < 2 ^ 31) then
        let '(r, a) := spec_Lookup key h a in
        Some (match r with Some x => Some (e_value x.2) | None => None end, <[Shard h := (a, n)]> l)
      else None
  | CallErase key =>
      let h := HashSlice key in
      '(a, n) ← l !! Shard h;
      Some (None, <[Shard h := (spec_Erase key h a, n)]> l)
  | CallRelease i j =>
      match l !! i with
      | Some (a, n) => Some (None, <[i := (spec_Release j a, n)]> l)
      | None => Some (None, l)
      end
  end.

Fixpoint cache_calls (cs : list CacheCall) (st : ShardedLRUCache (V := V) (D := D) * list (list nat)) :
    option (list (option V) * (ShardedLRUCache (V := V) (D := D) * list (list nat))) :=
  match cs with
  | [] => Some ([], st)
  | cl :: cs => '(r, st) ← cache_call cl st; '(rs, st) ← cache_calls cs st; Some (r :: rs, st)
  end.

Fixpoint spec_calls (cs : list CacheCall) (l : list (Spec * nat)) : option (list (option V) * list (Spec * nat)) :=
  match cs with
  | [] => Some ([], l)
  | cl :: cs => '(r, l) ← spec_call cl l; '(rs, l) ← spec_calls cs l; Some (r :: rs, l)
  end.

Definition new_spec (capacity : Z) : Spec := {| limit := capacity; order := []; detached := []; held := []; gone := [] |}.

Definition new_specs (capacity : Z) : list (Spec * nat) :=
  replicate (Z.to_nat kNumShards) (new_spec (usize (capacity + (kNumShards - 1)) / kNumShards), 1%nat).

(** ** Entries stay in their shard *)

Definition all_entries (P : Entry V D → Prop) (a : Spec) : Prop := ∀ x, x ∈ order a ++ detached a → P x.2.

Lemma all_expel P x a : P x.2 → all_entries P a → all_entries P (expel x a).
Proof.
  unfold all_entries, expel. intros Hx Ha. destruct (decide _); cbn; [|done]. intros y Hy.
  assert (y ∈ order a ++ detached a ∨ y = x) as [?| ->] by set_solver; [by apply Ha|done].
Qed.

Lemma all_order P o a : (∀ x, x ∈ o → P x.2) → all_entries P a → all_entries P (set_order o a).
Proof. unfold all_entries. cbn. intros Ho Ha x [Hx|Hx]%elem_of_app; [by apply Ho|]. apply Ha. set_solver. Qed.

Lemma all_hold P x a : all_entries P a → all_entries P (hold x a).
Proof. done. Qed.

Lemma all_take_out P key h a : all_entries P a → all_entries P (take_out key h a).
Proof.
  intros Ha. unfold take_out. destruct (find_entry_cases key h a) as [(x & -> & Hx & _)|[-> _]]; [|done].
  apply all_expel; [apply Ha; set_solver|]. apply all_order; [|done]. intros y [_ Hy]%list_elem_of_filter. apply Ha. set_solver.
Qed.

Lemma all_shrink P o a : (∀ x, x ∈ o → P x.2) → all_entries P a → all_entries P (shrink o a).
Proof.
  revert a. induction o as [|x o IH]; intros a Ho Ha; cbn [shrink]; [done|]. destruct (decide _); [|done].
  apply IH; [intros y Hy; apply Ho; by right|]. apply all_expel; [apply Ho; by left|]. apply all_order; [|done].
  intros y Hy. apply Ho. by right.
Qed.

Lemma all_Insert P n e a : P e → all_entries P a → all_entries P (spec_Insert n e a).
Proof.
  intros He Ha. unfold spec_Insert. pose proof (all_take_out P (e_key e) (e_hash e) a Ha) as Ht.
  assert (Ho : ∀ x, x ∈ order (take_out (e_key e) (e_hash e) a) ++ [(n, e)] → P x.2).
  { intros x [Hx| ->%list_elem_of_singleton]%elem_of_app; [|done]. apply Ht. set_solver. }
  apply all_shrink; [exact Ho|]. apply all_hold, all_order; done.
Qed.

Lemma all_Lookup P key h a : all_entries P a → all_entries P (spec_Lookup key h a).2.
Proof.
  intros Ha. unfold spec_Lookup. destruct (find_entry_cases key h a) as [(x & -> & Hx & _)|[-> _]]; [|done]. cbn.
  apply all_hold, all_order; [|done]. intros y [[_ Hy]%list_elem_of_filter| ->%list_elem_of_singleton]%elem_of_app; apply Ha; set_solver.
Qed.

Lemma all_Release P i a : all_entries P a → all_entries P (spec_Release i a).
Proof.
  intros Ha. unfold spec_Release. destruct (held a !! i); [|done]. destruct (decide _); [done|].
  intros x Hx. apply Ha. cbn in Hx. apply elem_of_app in Hx as [?|[_ ?]%list_elem_of_filter]; set_solver.
Qed.

(** ** Handles *)

Lemma held_expel (x : nat * Entry V D) (a : Spec) : held (expel x a) = held a.
Proof. unfold expel. by destruct (decide _). Qed.

Lemma held_shrink o (a : Spec) : held (shrink o a) = held a.
Proof.
  revert a. induction o as [|x o IH]; intros a; cbn [shrink]; [done|]. destruct (decide _); [|done]. by rewrite IH, held_expel.
Qed.

Lemma held_take_out key h (a : Spec) : held (take_out key h a) = held a.
Proof. unfold take_out. destruct (find_entry key h a); [|done]. by rewrite held_expel. Qed.

Lemma held_Insert n e (a : Spec) : held (spec_Insert n e a) = n :: held a.
Proof. unfold spec_Insert. rewrite held_shrink. cbn. by rewrite held_take_out. Qed.

Lemma held_Release j (a : Spec) : held (spec_Release j a) = match held a !! j with Some _ => delete j (held a) | None => held a end.
Proof. unfold spec_Release. destruct (held a !! j); [|done]. by destruct (decide _). Qed.

(** An entry that is held stays in memory. *)
Lemma shrink_keeps x (e : Entry V D) o (a : Spec) :
  x ∈ held a → (x, e) ∈ o ++ detached a → order a = o → (x, e) ∈ order (shrink o a) ++ detached (shrink o a).
Proof.
  revert a. induction o as [|y o IH]; intros a Hx Hin Ho; cbn [shrink]; [by rewrite Ho|].
  destruct (decide _); [|by rewrite Ho]. apply IH; [by rewrite held_expel| |by rewrite order_expel].
  unfold expel. destruct (decide (y.1 ∈ held (set_order o a))) as [Hy|Hy]; cbn in *.
  - set_solver.
  - apply elem_of_cons in Hin as [<-|?]; done.
Qed.

Lemma Insert_keeps n e (a : Spec) : (n, e) ∈ order (spec_Insert n e a) ++ detached (spec_Insert n e a).
Proof.
  unfold spec_Insert. apply shrink_keeps; [by left| |done]. cbn. set_solver.
Qed.

(** ** The simulation *)

Definition shard_rel (i : nat) (sh : LRUCache * Heap) (an : Spec * nat) (hd : list nat) : Prop :=
  rep sh.1 sh.2 an.1 ∧ next_address sh.2 = an.2 ∧ hd = held an.1 ∧ all_entries (λ e, Shard (e_hash e) = i) an.1.

Record client_rel (st : ShardedLRUCache (V := V) (D := D) * list (list nat)) (l : list (Spec * nat)) : Prop := {
  cr_shards : length (shard_ st.1) = Z.to_nat kNumShards;
  cr_held : length st.2 = Z.to_nat kNumShards;
  cr_specs : length l = Z.to_nat kNumShards;
  cr_rel i sh an hd : shard_ st.1 !! i = Some sh → l !! i = Some an → st.2 !! i = Some hd → shard_rel i sh an hd;
}.

Lemma client_lookup st l i : client_rel st l → (i < Z.to_nat kNumShards)%nat →
  ∃ sh an hd, shard_ st.1 !! i = Some sh ∧ l !! i = Some an ∧ st.2 !! i = Some hd ∧ shard_rel i sh an hd.
Proof.
  intros [H1 H2 H3 Hr] Hi. destruct (lookup_lt_is_Some_2 (shard_ st.1) i) as [sh E1]; [lia|].
  destruct (lookup_lt_is_Some_2 l i) as [an E2]; [lia|]. destruct (lookup_lt_is_Some_2 st.2 i) as [hd E3]; [lia|].
  exists sh, an, hd. splits; [done..|]. by apply Hr.
Qed.

(** One shard and its handles change. *)
Lemma client_update c hs l i sh an f id :
  client_rel (c, hs) l → (∀ hd, hs !! i = Some hd → shard_rel i sh an (f hd)) →
  client_rel ({| shard_ := <[i := sh]> (shard_ c); last_id_ := id |}, alter f i hs) (<[i := an]> l).
Proof.
  intros [H1 H2 H3 Hr] Hrel. cbn in *. split; cbn; [by rewrite length_insert|by rewrite length_alter|by rewrite length_insert|].
  intros j sh' an' hd' E1 E2 E3. destruct (decide (j = i)) as [->|Hne].
  - pose proof (lookup_lt_Some _ _ _ E1) as L1. pose proof (lookup_lt_Some _ _ _ E2) as L2. rewrite length_insert in L1. rewrite length_insert in L2.
    rewrite list_lookup_insert_eq in E1 by done. rewrite list_lookup_insert_eq in E2 by done. injection E1 as <-. injection E2 as <-. rewrite list_lookup_alter_eq in E3.
    destruct (hs !! i) as [hd|] eqn:Eh; [|done]. injection E3 as <-. by apply Hrel.
  - rewrite list_lookup_insert_ne in E1 by done. rewrite list_lookup_insert_ne in E2 by done. rewrite list_lookup_alter_ne in E3 by done. by apply Hr.
Qed.

Lemma on_shard_spec {A} i (f : LRUCache → M Heap (A * LRUCache)) (c : ShardedLRUCache (V := V) (D := D)) s h a s' h' :
  shard_ c !! i = Some (s, h) → f s h = Some ((a, s'), h') →
  on_shard i i f c = Some (a, {| shard_ := <[i := (s', h')]> (shard_ c); last_id_ := last_id_ c |}).
Proof.
  intros Ei Ef. unfold on_shard. rewrite Ei. cbn. rewrite Ef. cbn.
  rewrite list_lookup_insert_eq by by eapply lookup_lt_Some. cbn. by rewrite list_insert_insert_eq.
Qed.

Lemma at_handle_spec (c : ShardedLRUCache (V := V) (D := D)) i s h x E :
  shard_ c !! i = Some (s, h) → ent (mem h) x = Some E →
  ∃ e, at_handle c (i, x) = Some e ∧ entry_of e = E.
Proof.
  intros Ei HE. unfold at_handle. cbn. rewrite Ei. cbn. destruct (ent_Some _ _ _ HE) as (e & He & Hee).
  exists e. split; [exact He|done].
Qed.

Lemma Value_spec (c : ShardedLRUCache (V := V) (D := D)) i s h x E :
  shard_ c !! i = Some (s, h) → ent (mem h) x = Some E → Value c (i, x) = Some (e_value E).
Proof. intros Ei HE. destruct (at_handle_spec c i s h x E Ei HE) as (e & He & <-). unfold Value. by rewrite He. Qed.

Lemma client_call_Insert c hs l key v ch d r l' :
  client_rel (c, hs) l → spec_call (CallInsert key v ch d) l = Some (r, l') →
  ∃ st', cache_call (CallInsert key v ch d) (c, hs) = Some (r, st') ∧ client_rel st' l'.
Proof.
  intros HR. cbn [spec_call cache_call]. pose proof (HashSlice_range key) as Hh. set (i := Shard (HashSlice key)).
  destruct (client_lookup _ _ i HR (Shard_lt _ Hh)) as ([s h] & [a n] & hd & E1 & E2 & E3 & (Hrep & Hn & -> & Hall)).
  cbn [fst snd] in *. rewrite E2. cbn [mbind option_bind]. destruct (decide (fits a ch)) as [Hfits|]; [|done].
  destruct (Insert_rep s h a key (HashSlice key) v ch d Hrep) as (s' & h' & Er & Hrep'); [by destruct Hh|done|].
  pose proof (next_Insert _ _ _ _ _ _ _ _ _ Er) as Hnext. rewrite Hn in Er, Hrep', Hnext.
  set (e := {| e_key := key; e_hash := HashSlice key; e_value := v; e_charge := ch; e_deleter := d |}) in *.
  intros Heq. apply (inj Some) in Heq. apply pair_eq in Heq as [<- <-]. unfold Insert. fold i.
  rewrite (on_shard_spec i _ c s h n s' h' E1 Er). cbn [mbind option_bind fst snd].
  rewrite (Value_spec _ i s' h' n e).
  - cbn [mbind option_bind]. eexists. split; [done|]. apply client_update; [done|]. intros hd E. cbn in E3, E.
    assert (hd = held a) as -> by congruence. split; [done|]. split; [done|]. split; [cbn [fst snd]; by rewrite held_Insert|].
    by apply all_Insert.
  - cbn. by rewrite list_lookup_insert_eq by by eapply lookup_lt_Some.
  - destruct Hrep' as [[_ _ _ _ He] _]. by apply (er_entries _ _ _ He), Insert_keeps.
Qed.

Lemma client_call_Lookup c hs l key r l' :
  client_rel (c, hs) l → spec_call (CallLookup key) l = Some (r, l') →
  ∃ st', cache_call (CallLookup key) (c, hs) = Some (r, st') ∧ client_rel st' l'.
Proof.
  intros HR. cbn [spec_call cache_call]. pose proof (HashSlice_range key) as Hh. set (i := Shard (HashSlice key)).
  destruct (client_lookup _ _ i HR (Shard_lt _ Hh)) as ([s h] & [a n] & hd & E1 & E2 & E3 & (Hrep & Hn & -> & Hall)).
  cbn [fst snd] in *. rewrite E2. cbn [mbind option_bind]. destruct (decide (zlen (held a) + 1 < 2 ^ 31)) as [Hfit|]; [|done].
  destruct (Lookup_rep s h a key (HashSlice key) Hrep) as (h' & Er & Hrep'); [by destruct Hh|done|].
  pose proof (keeps_Lookup _ _ _ _ _ _ Er) as Hnext.
  pose proof (all_Lookup _ key (HashSlice key) a Hall) as Hall'.
  assert (Hheld : held (spec_Lookup key (HashSlice key) a).2 =
    match (spec_Lookup key (HashSlice key) a).1 with Some x => x.1 :: held a | None => held a end).
  { unfold spec_Lookup. by destruct (find_entry key (HashSlice key) a). }
  assert (Hin : ∀ x, (spec_Lookup key (HashSlice key) a).1 = Some x → x ∈ order (spec_Lookup key (HashSlice key) a).2).
  { unfold spec_Lookup. destruct (find_entry key (HashSlice key) a) as [x|]; [|done]. cbn. intros y Hy.
    apply (inj Some) in Hy as <-. apply elem_of_app; right; by left. }
  destruct (spec_Lookup key (HashSlice key) a) as [o a']. cbn [fst snd] in *.
  intros Heq. apply (inj Some) in Heq. apply pair_eq in Heq as [<- <-]. unfold Lookup. fold i.
  rewrite (on_shard_spec i _ c s h (fst <$> o) s h' E1) by by rewrite (M_bind_Some _ _ _ _ _ Er).
  assert (Hnew : shard_ {| shard_ := <[i := (s, h')]> (shard_ c); last_id_ := last_id_ c |} !! i = Some (s, h'))
    by (cbn; by rewrite list_lookup_insert_eq by by eapply lookup_lt_Some).
  assert (Hrel : ∀ f, f (held a) = held a' → ∀ hd, hs !! i = Some hd → shard_rel i (s, h') (a', n) (f hd)).
  { intros f Hf hd E. assert (hd = held a) as -> by (rewrite E3 in E; by injection E). split; [done|]. split; [cbn [fst snd]; by rewrite Hnext|]. by split. }
  destruct o as [[x e]|]; cbn [mbind option_bind fst snd fmap option_fmap option_map].
  - destruct Hrep' as [[_ _ _ _ He] _].
    rewrite (Value_spec _ i s h' x e Hnew) by (apply (er_entries _ _ _ He); apply elem_of_app; left; by apply Hin).
    cbn [mbind option_bind]. eexists. split; [done|]. apply client_update; [done|]. by apply Hrel.
  - eexists. split; [done|]. rewrite <- (list_alter_id (λ x, x) hs i) by done. apply client_update; [done|]. by apply Hrel.
Qed.

Lemma client_call_Erase c hs l key r l' :
  client_rel (c, hs) l → spec_call (CallErase key) l = Some (r, l') →
  ∃ st', cache_call (CallErase key) (c, hs) = Some (r, st') ∧ client_rel st' l'.
Proof.
  intros HR. cbn [spec_call cache_call]. pose proof (HashSlice_range key) as Hh. set (i := Shard (HashSlice key)).
  destruct (client_lookup _ _ i HR (Shard_lt _ Hh)) as ([s h] & [a n] & hd & E1 & E2 & E3 & (Hrep & Hn & -> & Hall)).
  cbn [fst snd] in *. rewrite E2. cbn [mbind option_bind].
  destruct (Erase_rep s h a key (HashSlice key) Hrep) as (s' & h' & Er & Hrep'); [by destruct Hh|].
  pose proof (keeps_Erase _ _ _ _ _ _ Er) as Hnext.
  intros Heq. apply (inj Some) in Heq. apply pair_eq in Heq as [<- <-]. unfold Erase. fold i.
  rewrite (on_shard_spec i _ c s h () s' h' E1) by by rewrite (M_bind_Some _ _ _ _ _ Er).
  eexists. split; [done|]. rewrite <- (list_alter_id (λ x, x) hs i) by done. apply client_update; [done|].
  intros hd E. assert (hd = held a) as -> by (rewrite E3 in E; by injection E). split; [done|]. split; [cbn [fst snd]; by rewrite Hnext|]. split.
  - cbn. unfold spec_Erase. by rewrite held_take_out.
  - by apply all_take_out.
Qed.

Lemma client_call_Release c hs l i j r l' :
  client_rel (c, hs) l → spec_call (CallRelease i j) l = Some (r, l') →
  ∃ st', cache_call (CallRelease i j) (c, hs) = Some (r, st') ∧ client_rel st' l'.
Proof.
  intros HR. cbn [spec_call cache_call]. destruct (decide (i < Z.to_nat kNumShards)%nat) as [Hi|Hi].
  2: { destruct HR as [H1 H2 H3 Hr]. rewrite (lookup_ge_None_2 l) by lia. cbn in H2. rewrite (lookup_ge_None_2 hs) by lia. cbn.
       intros Heq. apply (inj Some) in Heq. apply pair_eq in Heq as [<- <-]. eexists. split; [done|]. by split. }
  destruct (client_lookup _ _ i HR Hi) as ([s h] & [a n] & hd & E1 & E2 & E3 & (Hrep & Hn & -> & Hall)).
  cbn [fst snd] in *. rewrite E2, E3. cbn [mbind option_bind].
  intros Heq. apply (inj Some) in Heq. apply pair_eq in Heq as [<- <-].
  assert (Hrel' : ∀ f s' h', rep s' h' (spec_Release j a) → next_address h' = next_address h → f (held a) = held (spec_Release j a) →
    ∀ hd, hs !! i = Some hd → shard_rel i (s', h') (spec_Release j a, n) (f hd)).
  { intros f s' h' Hr Hn' Hf hd E. assert (hd = held a) as -> by (rewrite E3 in E; by injection E). split; [done|]. split; [cbn [fst snd]; by rewrite Hn'|].
    split; [done|]. by apply all_Release. }
  destruct (held a !! j) as [x|] eqn:Ej.
  - destruct (Release_rep s h a j x Hrep Ej) as (s' & h' & Er & Hrep').
    pose proof (keeps_Release _ _ _ _ _ Er) as Hnext.
    destruct (Hrep) as [[_ _ _ _ He] _]. pose proof (er_held _ _ _ He x) as Hx.
    destruct (fst_elem _ _ (Hx ltac:(by eapply list_elem_of_lookup_2))) as [E HxE].
    destruct (er_entries _ _ _ He x E HxE) as (HE & _).
    destruct (at_handle_spec c i s h x E E1 HE) as (e & Hat & Hee).
    unfold Release. rewrite Hat. cbn [mbind option_bind fst snd].
    assert (hash e = e_hash E) as Hhe by by rewrite <- Hee.
    assert (Shard (hash e) = i) as -> by (rewrite Hhe; exact (Hall (x, E) HxE)).
    rewrite (on_shard_spec i _ c s h () s' h' E1) by by rewrite (M_bind_Some _ _ _ _ _ Er).
    eexists. split; [done|]. apply client_update; [done|]. apply Hrel'; [done|done|]. by rewrite held_Release, Ej.
  - assert (spec_Release j a = a) as Hid by (unfold spec_Release; by rewrite Ej).
    eexists. split; [done|]. rewrite <- (list_alter_id (λ x, x) hs i) by done. destruct c as [sl id].
    assert (sl = <[i := (s, h)]> sl) as Hsl by (symmetry; by apply list_insert_id).
    rewrite Hsl. apply (client_update {| shard_ := sl; last_id_ := id |}); [done|]. apply Hrel'; [by rewrite Hid|done|by rewrite Hid].
Qed.

Lemma client_call_rel cl st l r l' :
  client_rel st l → spec_call cl l = Some (r, l') → ∃ st', cache_call cl st = Some (r, st') ∧ client_rel st' l'.
Proof.
  destruct st as [c hs], cl.
  - apply client_call_Insert.
  - apply client_call_Lookup.
  - apply client_call_Erase.
  - apply client_call_Release.
Qed.

Lemma client_calls_rel cs st l rs l' :
  client_rel st l → spec_calls cs l = Some (rs, l') → ∃ st', cache_calls cs st = Some (rs, st') ∧ client_rel st' l'.
Proof.
  revert st l rs l'. induction cs as [|cl cs IH]; intros st l rs l' HR; cbn [spec_calls cache_calls].
  - intros Heq. apply (inj Some) in Heq. apply pair_eq in Heq as [<- <-]. by exists st.
  - destruct (spec_call cl l) as [[r l1]|] eqn:E1; [|done]. cbn [mbind option_bind].
    destruct (spec_calls cs l1) as [[rs1 l2]|] eqn:E2; [|done]. cbn [mbind option_bind].
    intros Heq. apply (inj Some) in Heq. apply pair_eq in Heq as [<- <-].
    destruct (client_call_rel _ _ _ _ _ HR E1) as (st1 & -> & HR1). cbn [mbind option_bind].
    destruct (IH _ _ _ _ HR1 E2) as (st2 & -> & HR2). by exists st2.
Qed.

Lemma new_shard_rel i cap : shard_rel i (new_shard cap) (new_spec cap, 1%nat) [].
Proof.
  split; [|split; [done|split; [done|by intros x ?%elem_of_nil]]]. split; [|constructor]. split; cbn.
  - done.
  - done.
  - eapply dlist_new; [| |by rewrite lookup_singleton_eq]; done.
  - exists (replicate 4 []). split; [|done]. split; cbn.
    + exists 2. lia.
    + done.
    + by repeat constructor.
    + intros j b x Hj Hx. change [[]; []; []; []] with (replicate 4 ([] : list nat)) in Hj. apply lookup_replicate in Hj as [-> _].
      by apply elem_of_nil in Hx.
    + by intros x ?%elem_of_nil.
    + constructor.
    + done.
  - split; cbn; [by intros x E ?%elem_of_nil|apply NoDup_singleton|by intros x ?%elem_of_nil..| |done|].
    + intros x ->%list_elem_of_singleton. lia.
    + unfold usage. cbn. unfold zlen. cbn. lia.
Qed.

Lemma new_client_rel capacity : client_rel (NewLRUCache capacity, replicate (Z.to_nat kNumShards) []) (new_specs capacity).
Proof.
  split; cbn [fst snd shard_ NewLRUCache]; unfold new_specs; rewrite ?length_replicate; try done.
  intros i sh an hd [-> _]%lookup_replicate [-> _]%lookup_replicate [-> _]%lookup_replicate. apply new_shard_rel.
Qed.
End Shards.
Arguments CacheCall : clear implicits.

(** C32: the sharded LRU cache. For any capacity and any series of insertions,
    lookups, erasures and releases of handles by a client whose handles and
    charges fit the counters, the hash tables with their growth and the linked
    lists of the shards answer as the specification does, which keeps a list of entries
    in the order of their last use: the same lookups hit, the value at every
    returned handle is the one inserted, the same entries are evicted, and the
    deleters have been called for the same entries in the same order. No access
    is to freed memory and all loops end. *)
Theorem ShardedLRUCache_refines {V D : Type} capacity (cs : list (CacheCall V D)) rs l :
  spec_calls cs (new_specs capacity) = Some (rs, l) →
  ∃ c hs, cache_calls cs (NewLRUCache capacity, replicate (Z.to_nat kNumShards) []) = Some (rs, (c, hs)) ∧
    hs = held ∘ fst <$> l ∧
    Forall2 (λ sh an, usage_ sh.1 = usage an.1 ∧ elems_ (table_ sh.1) = zlen (order an.1) ∧ deleted sh.2 = gone an.1) (shard_ c) l.
Proof.
  intros E. destruct (client_calls_rel _ _ _ _ _ (new_client_rel capacity) E) as ([c hs] & E' & HR).
  exists c, hs. split; [done|]. destruct (HR) as [H1 H2 H3 _]. cbn in *. split.
  - apply list_eq. intros i. rewrite list_lookup_fmap. destruct (decide (i < Z.to_nat kNumShards)%nat) as [Hi|Hi].
    + destruct (client_lookup _ _ i HR Hi) as (sh & an & hd & E1 & E2 & E3 & (_ & _ & -> & _)). cbn in *. by rewrite E2, E3.
    + rewrite !lookup_ge_None_2 by lia. done.
  - apply Forall2_same_length_lookup. split; [lia|]. intros i sh an E1 E2.
    destruct (lookup_lt_is_Some_2 hs i) as [hd E3]; [apply lookup_lt_Some in E2; lia|].
    destruct (cr_rel _ _ HR i sh an hd E1 E2 E3) as ([Hrep _] & _). destruct Hrep as [_ Hu _ (bs & HT & Hp) He].
    split; [done|]. split; [|apply He]. rewrite (tr_elems _ _ _ HT). unfold zlen. by rewrite Hp, length_fmap.
Qed.

Lemma ShardedLRUCache_refines_witness :
  ∃ rs st, cache_calls [CallInsert (str "a") 1 1 tt; CallInsert (str "a") 2 1 tt; CallLookup (str "a"); CallErase (str "a");
      CallLookup (str "a"); CallInsert (str "b") 3 1 tt; CallLookup (str "c")]
    (NewLRUCache 100, replicate (Z.to_nat kNumShards) []) = Some (rs, st) ∧
  rs = [Some 1; Some 2; Some 2; None; None; Some 3; None].
Proof.
  match goal with |- context [cache_calls ?cs _] =>
    destruct (ShardedLRUCache_refines 100 cs [Some 1; Some 2; Some 2; None; None; Some 3; None]
      (match spec_calls cs (new_specs 100) with Some (_, l) => l | None => [] end)) as (c & hs & E & _)
  end.
  - by vm_compute.
  - eexists _, (c, hs). split; [exact E|reflexivity].
Defined.
