(* ===== verification/CacheLedger.v ===== *)
(** The books of the cache: nothing that is inserted is lost, and nothing is
    given to its deleter twice, while a client holds it, or while it can still be
    found. The destructors of [util/cache.cc] close the books. *)
From stdpp Require Import gmap.
From S2P Require Import Prelude SortedLists Env Bloom DList Cache CacheTable CacheRefines CacheShards.

(** ** The entries of a shard *)

Section Ledger.
Context {V D : Type}.
Abbreviation Entry := (Entry V D).
Abbreviation Spec := (Spec V D).
Implicit Types (a : Spec) (x : nat * Entry).

Definition entries (a : Spec) : list (nat * Entry) := order a ++ detached a.

Definition gone_entries (out : list (nat * Entry)) : list (D * bytes * V) := gone_entry ∘ snd <$> out.

(** From [a] to [a'] the entries [new] came in, and [out] were given to their
    deleters. *)
Record books (new : list (nat * Entry)) (a a' : Spec) (out : list (nat * Entry)) : Prop := {
  bk_entries : new ++ entries a ≡ₚ entries a' ++ out;
  bk_gone : gone a' = gone a ++ gone_entries out;
  bk_free x : x ∈ out → x.1 ∉ held a';
}.

Lemma books_refl a a' : entries a ≡ₚ entries a' → gone a' = gone a → books [] a a' [].
Proof. intros He Hg. split; [by rewrite app_nil_r|by rewrite Hg, app_nil_r|by intros x ?%elem_of_nil]. Qed.

Lemma books_trans n1 n2 a1 a2 a3 o1 o2 :
  books n1 a1 a2 o1 → books n2 a2 a3 o2 → (∀ x, x ∈ o1 → x.1 ∉ held a3) → books (n2 ++ n1) a1 a3 (o1 ++ o2).
Proof.
  intros [P1 G1 F1] [P2 G2 F2] HF. split.
  - rewrite <- app_assoc, P1, app_assoc, P2, <- app_assoc. by rewrite (Permutation_app_comm o2 o1).
  - unfold gone_entries in *. by rewrite G2, G1, fmap_app, app_assoc.
  - intros x [Hx|Hx]%elem_of_app; [by apply HF|by apply F2].
Qed.

(** An entry that is held stays. *)
Lemma books_held new a a' out x : books new a a' out → x ∈ entries a → x.1 ∈ held a' → x ∈ entries a'.
Proof.
  intros [P _ F] Hx Hh. assert (Hin : x ∈ entries a' ++ out) by (rewrite <- P; apply elem_of_app; by right).
  apply elem_of_app in Hin as [?|Ho]; [done|]. by destruct (F x Ho).
Qed.

Lemma books_expel x o a : order a ≡ₚ x :: o → ∃ out, books [] a (expel x (set_order o a)) out.
Proof.
  intros Ho. unfold expel. destruct (decide (x.1 ∈ held _)) as [Hx|Hx]; [exists []|exists [x]]; (split; [|by rewrite ?app_nil_r|]).
  - unfold entries. cbn. rewrite Ho, app_nil_r. solve_Permutation.
  - by intros y ?%elem_of_nil.
  - unfold entries. cbn. rewrite Ho. solve_Permutation.
  - by intros y ->%list_elem_of_singleton.
Qed.

Lemma books_take_out key h a : NoDup (key_of <$> order a) → ∃ out, books [] a (take_out key h a) out.
Proof.
  intros Hnd. unfold take_out. destruct (find_entry_cases key h a) as [(x & -> & Hx & Hm)|[-> _]].
  - destruct (matches_split (order a) x key h Hnd Hx Hm) as (o1 & o2 & Ho & -> & _).
    apply books_expel. rewrite Ho. solve_Permutation.
  - exists []. by apply books_refl.
Qed.

Lemma books_shrink o a : order a = o → ∃ out, books [] a (shrink o a) out.
Proof.
  revert a. induction o as [|x o IH]; intros a Ho; cbn [shrink]; [by exists []; apply books_refl|].
  destruct (decide _); [|by exists []; apply books_refl].
  destruct (books_expel x o a) as [o1 H1]; [by rewrite Ho|].
  destruct (IH (expel x (set_order o a))) as [o2 H2]; [by rewrite order_expel|].
  exists (o1 ++ o2). apply (books_trans [] [] _ _ _ _ _ H1 H2). intros y Hy.
  rewrite held_shrink. by apply (bk_free _ _ _ _ H1).
Qed.

Lemma books_Insert n e a :
  NoDup (key_of <$> order a) → (∀ x, x ∈ entries a → x.1 ≠ n) → ∃ out, books [(n, e)] a (spec_Insert n e a) out.
Proof.
  intros Hnd Hn. unfold spec_Insert. destruct (books_take_out (e_key e) (e_hash e) a Hnd) as [o1 H1].
  set (a1 := take_out (e_key e) (e_hash e) a) in *. set (a2 := hold n (set_order (order a1 ++ [(n, e)]) a1)).
  destruct (books_shrink (order a2) a2 eq_refl) as [o2 H2].
  assert (Hfree : ∀ x, x ∈ o1 → x.1 ∉ held a2).
  { intros x Hx. cbn. intros [Heq|Hh]%elem_of_cons; [|by apply (bk_free _ _ _ _ H1 x Hx)].
    apply (Hn x); [|done]. destruct H1 as [P _ _]. cbn in P. rewrite P. apply elem_of_app. by right. }
  assert (H12 : books [(n, e)] a1 a2 []).
  { split; [|by rewrite app_nil_r|by intros x ?%elem_of_nil]. unfold entries. cbn. rewrite app_nil_r. solve_Permutation. }
  exists (o1 ++ o2). change (books [(n, e)] a (shrink (order a2) a2) (o1 ++ o2)).
  pose proof (books_trans _ _ _ _ _ _ _ H1 H12 Hfree) as H3. rewrite !app_nil_r in H3.
  apply (books_trans _ _ _ _ _ _ _ H3 H2). intros x Hx. rewrite held_shrink. by apply Hfree.
Qed.

Lemma books_Lookup key h a : NoDup (key_of <$> order a) → books [] a (spec_Lookup key h a).2 [].
Proof.
  intros Hnd. unfold spec_Lookup. destruct (find_entry_cases key h a) as [(x & -> & Hx & Hm)|[-> _]].
  - destruct (matches_split (order a) x key h Hnd Hx Hm) as (o1 & o2 & Ho & -> & _).
    apply books_refl; [|done]. unfold entries. cbn. rewrite Ho. solve_Permutation.
  - by apply books_refl.
Qed.

Lemma books_Release i a : NoDup ((entries a).*1) → ∃ out, books [] a (spec_Release i a) out.
Proof.
  intros Hnd. unfold spec_Release. destruct (held a !! i) as [x|] eqn:Ei; [|by exists []; apply books_refl].
  cbn zeta. destruct (decide _) as [Hx|Hx]; [by exists []; apply books_refl|].
  exists (filter (λ y, y.1 = x) (detached a)). split; [|done|].
  - unfold entries. cbn. rewrite <- app_assoc. apply Permutation_app_head. clear.
    induction (detached a) as [|y l IH]; [done|]. rewrite !filter_cons. destruct (decide (y.1 = x)) as [Hy|Hy].
    + rewrite decide_False by (intros Hn; by apply Hn). rewrite IH at 1. solve_Permutation.
    + rewrite decide_True by done. cbn. by rewrite <- IH.
  - intros y [Hy _]%list_elem_of_filter. cbn. rewrite Hy. tauto.
Qed.

(** *** Sizes *)

Lemma total_Permutation (o o' : list (nat * Entry)) : o ≡ₚ o' → total o = total o'.
Proof. induction 1 as [|x o o' _ IH|x y o|o1 o2 o3 _ IH1 _ IH2]; rewrite ?total_cons; lia. Qed.

Lemma limit_take_out key h a : limit (take_out key h a) = limit a.
Proof. unfold take_out. destruct (find_entry key h a); [|done]. by rewrite limit_expel. Qed.

Lemma limit_shrink o a : limit (shrink o a) = limit a.
Proof. revert a. induction o as [|x o IH]; intros a; cbn [shrink]; [done|]. destruct (decide _); [|done]. by rewrite IH, limit_expel. Qed.

Lemma limit_Insert n e a : limit (spec_Insert n e a) = limit a.
Proof. unfold spec_Insert. rewrite limit_shrink. cbn. apply limit_take_out. Qed.

Lemma limit_Lookup key h a : limit (spec_Lookup key h a).2 = limit a.
Proof. unfold spec_Lookup. by destruct (find_entry key h a). Qed.

Lemma limit_Release i a : limit (spec_Release i a) = limit a.
Proof. unfold spec_Release. destruct (held a !! i); [|done]. by destruct (decide _). Qed.

(** Entries are only kept beyond the capacity for their clients. *)
Definition within a : Prop := order a = [] ∨ usage a ≤ limit a.

Lemma within_shrink o a : order a = o → within (shrink o a).
Proof.
  revert a. induction o as [|x o IH]; intros a Ho; cbn [shrink]; [by left|].
  destruct (decide _) as [Hd|Hd]; [apply IH; by rewrite order_expel|right; lia].
Qed.

Lemma within_Insert n e a : within (spec_Insert n e a).
Proof. unfold spec_Insert. by apply within_shrink. Qed.

Lemma within_books a a' out :
  books [] a a' out → limit a' = limit a → (order a = [] → order a' = []) → (∀ x, x ∈ entries a → 0 ≤ e_charge x.2) →
  within a → within a'.
Proof.
  intros [P _ _] Hl Ho Hc [Hn|Hu]; [left; by apply Ho|right]. rewrite Hl. unfold usage in *. cbn in P.
  change (order a ++ detached a) with (entries a) in Hu. change (order a' ++ detached a') with (entries a').
  rewrite (total_Permutation _ _ P), total_app in Hu.
  assert (0 ≤ total out); [|lia]. apply total_nonneg. intros x e Hx. apply (Hc (x, e)). rewrite P. apply elem_of_app. by right.
Qed.

Lemma order_Lookup_nil key h a : order a = [] → order (spec_Lookup key h a).2 = [].
Proof. unfold spec_Lookup, find_entry. intros Ho. rewrite Ho. done. Qed.

Lemma order_take_out_nil key h a : order a = [] → order (take_out key h a) = [].
Proof. unfold take_out, find_entry. intros Ho. by rewrite Ho. Qed.

Lemma order_Release i a : order (spec_Release i a) = order a.
Proof. unfold spec_Release. destruct (held a !! i); [|done]. by destruct (decide _). Qed.
End Ledger.

(** ** The destructor of a shard *)

Section Destroy.
Context {V D : Type}.
Abbreviation Entry := (Entry V D).
Abbreviation Spec := (Spec V D).
Abbreviation Heap := (Heap (V := V) (D := D)).
Implicit Types (a : Spec) (s : Heap) (o : list (nat * Entry)).

(** What is left of the list from [p] on while it is taken down. *)
Definition chain (m : gmap nat (Node (option LRUHandle))) (lru : nat) (o : list (nat * Entry)) : Prop :=
  NoDup (lru :: o.*1) ∧ (∀ x E, (x, E) ∈ o → ent m x = Some E ∧ next_ok m x ∧ rc m x = Some 1) ∧
  match o with [] => True | x :: o' => nexts m x.1 o'.*1 lru end.

Lemma destroy_loop_spec fuel c s o :
  chain (mem s) (lru_ c) o → (length o ≤ fuel)%nat →
  ∃ c' s', destroy_loop fuel c (default (lru_ c) (head o.*1)) s = Some (c', s') ∧
    deleted s' = deleted s ++ gone_entries o.
Proof.
  revert c s o. induction fuel as [|fuel IH]; intros c s o (Hnd & He & Hn) Hf.
  { destruct o; [|cbn in Hf; lia]. cbn. rewrite decide_True by done. exists c, s. split; [done|]. by rewrite app_nil_r. }
  destruct o as [|[x E] o]; cbn [fmap list_fmap head default destroy_loop fst].
  { rewrite decide_True by done. exists c, s. split; [done|]. by rewrite app_nil_r. }
  cbn in Hnd, Hn. rewrite Permutation_swap in Hnd. apply list.NoDup_cons in Hnd as [Hx Hnd].
  change (id x) with x. rewrite decide_False by (intros Hxl; apply Hx; rewrite Hxl; by left).
  destruct (He x E) as (HE & Hok & Hrc); [by left|].
  rewrite (M_bind_Some _ _ _ _ _ (read_spec (load_next x) s (default (lru_ c) (head o.*1)) ltac:(rewrite (nexts_head _ _ _ _ Hn); by destruct o))).
  destruct (Unref_spec c s x E 1 HE Hok Hrc) as (m' & Hs & _ & Hro & Eu); [done|]. rewrite decide_True in Eu by done.
  rewrite (M_bind_Some _ _ _ _ _ Eu).
  assert (Hsame : ∀ y, y ∈ o.*1 → same_at (mem s) (delete x m') y ∧ rc (delete x m') y = rc (mem s) y).
  { intros y Hy. assert (y ≠ x) by (intros ->; apply Hx; by right). split; [by apply same_at_delete|]. by rewrite rc_delete, Hro. }
  edestruct (IH (with_usage c (usize (usage_ c - e_charge E))) (freed s m' x E) o) as (c' & s' & Ed & Hd); [|cbn in Hf; lia|].
  - split; [done|]. cbn [mem freed lru_ with_usage]. split.
    + intros y Ey Hy. pose proof (list_elem_of_fmap_2 fst _ _ Hy) as Hy1. cbn in Hy1. destruct (Hsame y Hy1) as [S1 S2].
      destruct (He y Ey) as (H1 & (q & H2 & Hq) & H3); [by right|]. split; [|split].
      * by rewrite (sa_ent _ _ _ S1).
      * exists q. by rewrite (sa_next _ _ _ S1).
      * by rewrite S2.
    + destruct o as [|y o]; [done|]. cbn in Hn. destruct Hn as [_ Hn]. eapply nexts_frame; [|exact Hn].
      intros z Hz. by destruct (Hsame z Hz) as [[] _].
  - exists c', s'. cbn [lru_ with_usage] in Ed. split; [exact Ed|]. rewrite Hd. cbn. by rewrite <- app_assoc.
Qed.

(** Once all handles are released, the destructor gives every entry to its
    deleter. *)
Lemma destroy_LRUCache_spec c s a :
  rep c s a → held a = [] → ∃ c' s', destroy_LRUCache c s = Some (c', s') ∧ deleted s' = gone a ++ gone_entries (order a).
Proof.
  intros [HR Hk] Hh. pose proof (rw_list _ _ _ _ _ HR) as [Hnd Hn _].
  pose proof (rw_entries _ _ _ _ _ HR) as [He _ _ Hdet _ Hgone _].
  assert (Hd : detached a = []).
  { destruct (detached a) as [|x l] eqn:Ed; [done|]. specialize (Hdet x.1). rewrite Hh in Hdet.
    destruct (proj1 (elem_of_nil x.1) (Hdet ltac:(by left))). }
  unfold destroy_LRUCache.
  rewrite (M_bind_Some _ _ _ _ _ (read_spec (load_next (lru_ c)) s (default (lru_ c) (head (order a).*1)) ltac:(rewrite (nexts_head _ _ _ _ Hn); by destruct (order a)))).
  rewrite <- Hgone. apply destroy_loop_spec.
  - split; [done|]. split.
    + intros x E Hx. destruct (He x E) as (H1 & H2 & _ & _ & H3); [apply elem_of_app; by left|]. splits; [done..|].
      rewrite H3. unfold refcount. rewrite decide_True by by apply (list_elem_of_fmap_2 fst _ (x, E)). by rewrite Hh.
    + destruct (order a) as [|x o]; [done|]. by destruct Hn.
  - destruct (rw_table _ _ _ _ _ HR) as (bs & HT & Hp). rewrite (tr_elems _ _ _ HT). unfold zlen. rewrite Hp, length_fmap. lia.
Qed.
End Destroy.

(** ** The whole cache *)

Section Books.
Context {V D : Type}.
Abbreviation Spec := (Spec V D).

(** What has been given to deleters, and what has not. *)
Definition ledger (a : Spec) : list (D * bytes * V) := gone a ++ gone_entries (entries a).
Definition ledgers (l : list (Spec * nat)) : list (D * bytes * V) := concat (ledger ∘ fst <$> l).

Definition inserted_by (cl : CacheCall V D) : list (D * bytes * V) :=
  match cl with CallInsert key v _ d => [(d, key, v)] | _ => [] end.
Definition inserted (cs : list (CacheCall V D)) : list (D * bytes * V) := concat (inserted_by <$> cs).

#[export] Instance gone_entries_Permutation : Proper (Permutation ==> Permutation) (gone_entries (V := V) (D := D)).
Proof. intros o o' E. unfold gone_entries. by rewrite E. Qed.

Lemma gone_entries_app o1 o2 : gone_entries (V := V) (D := D) (o1 ++ o2) = gone_entries o1 ++ gone_entries o2.
Proof. apply fmap_app. Qed.

Lemma books_ledger new (a a' : Spec) out : books new a a' out → gone_entries new ++ ledger a ≡ₚ ledger a'.
Proof.
  intros [P G _]. unfold ledger. rewrite G, <- app_assoc, <- gone_entries_app, (Permutation_app_comm out (entries a')).
  rewrite <- P, gone_entries_app. solve_Permutation.
Qed.

Lemma ledgers_update (l : list (Spec * nat)) i a n a' n' z :
  l !! i = Some (a, n) → z ++ ledger a ≡ₚ ledger a' → z ++ ledgers l ≡ₚ ledgers (<[i := (a', n')]> l).
Proof.
  intros Ei Hz. unfold ledgers. rewrite insert_take_drop by by eapply lookup_lt_Some.
  rewrite <- (take_drop_middle l i _ Ei) at 1. rewrite !fmap_app, !concat_app. cbn. rewrite <- Hz. solve_Permutation.
Qed.

(** The entries of a shard under the rules of the cache. *)
Lemma shard_entries i sh an hd :
  shard_rel (V := V) (D := D) i sh an hd →
  NoDup (key_of <$> order an.1) ∧ NoDup ((entries an.1).*1) ∧ (∀ x, x ∈ entries an.1 → x.1 ≠ an.2) ∧
  (∀ y, y ∈ held an.1 → y ∈ (entries an.1).*1) ∧ deleted sh.2 = gone an.1.
Proof.
  intros ([HR Hk] & Hn & _ & _). destruct (rw_entries _ _ _ _ _ HR) as [_ Hnd Hheld _ Hnext Hg _].
  apply list.NoDup_cons in Hnd as [_ Hnd]. splits; try done.
  intros x Hx Heq. specialize (Hnext x.1). rewrite Hn, Heq in Hnext.
  enough (an.2 < an.2)%nat by lia. apply Hnext. right. rewrite <- Heq. by apply (list_elem_of_fmap_2 fst).
Qed.

(** The books of one call. *)
Lemma spec_call_books st l cl r l' :
  client_rel (V := V) (D := D) st l → spec_call cl l = Some (r, l') →
  ∃ i a n a' n' new out, l !! i = Some (a, n) ∧ l' = <[i := (a', n')]> l ∧ books new a a' out ∧ gone_entries new = inserted_by cl ∨
    l' = l ∧ inserted_by cl = [].
Proof.
  intros HR. assert (Hsh : ∀ i a n, l !! i = Some (a, n) → ∃ sh hd, shard_rel i sh (a, n) hd).
  { intros i a n Ei. destruct (client_lookup st l i HR) as (sh & an & hd & _ & E2 & _ & H).
    - rewrite <- (cr_specs _ _ HR). by eapply lookup_lt_Some.
    - exists sh, hd. by rewrite Ei in E2; injection E2 as <-. }
  assert (Hdone : ∀ i a n a' n' new out, l !! i = Some (a, n) → books new a a' out → gone_entries new = inserted_by cl →
    l' = <[i := (a', n')]> l → ∃ i a n a' n' new out, l !! i = Some (a, n) ∧ l' = <[i := (a', n')]> l ∧ books new a a' out ∧
      gone_entries new = inserted_by cl ∨ l' = l ∧ inserted_by cl = []).
  { intros i a n a' n' new out ????. exists i, a, n, a', n', new, out. by left. }
  destruct cl as [key v ch d|key|key|i j]; cbn [spec_call].
  1, 2, 3: destruct (l !! Shard (HashSlice key)) as [[a n]|] eqn:Ei; [|done]; cbn [mbind option_bind];
    destruct (Hsh _ _ _ Ei) as (sh & hd & (Hk & Hnd & Hn & _)%shard_entries); cbn [fst snd] in *.
  - destruct (decide (fits a ch)); [|done]. set (e := {| e_key := key |}). intros Heq; apply (inj Some) in Heq; apply pair_eq in Heq as [_ <-].
    destruct (books_Insert n e a Hk Hn) as [out Hb]. exact (Hdone _ _ _ _ _ _ _ Ei Hb eq_refl eq_refl).
  - destruct (decide _); [|done]. pose proof (books_Lookup key (HashSlice key) a Hk) as Hb.
    destruct (spec_Lookup key (HashSlice key) a) as [o a']. intros Heq; apply (inj Some) in Heq; apply pair_eq in Heq as [_ <-]. exact (Hdone _ _ _ _ _ _ _ Ei Hb eq_refl eq_refl).
  - intros Heq; apply (inj Some) in Heq; apply pair_eq in Heq as [_ <-]. destruct (books_take_out key (HashSlice key) a Hk) as [out Hb]. exact (Hdone _ _ _ _ _ _ _ Ei Hb eq_refl eq_refl).
  - destruct (l !! i) as [[a n]|] eqn:Ei.
    + intros Heq; apply (inj Some) in Heq; apply pair_eq in Heq as [_ <-]. destruct (Hsh _ _ _ Ei) as (sh & hd & (_ & Hnd & _)%shard_entries). cbn [fst] in *.
      destruct (books_Release j a Hnd) as [out Hb]. exact (Hdone _ _ _ _ _ _ _ Ei Hb eq_refl eq_refl).
    + intros Heq; apply (inj Some) in Heq; apply pair_eq in Heq as [_ <-]. exists 0%nat, (new_spec 0), 0%nat, (new_spec 0), 0%nat, [], []. by right.
Qed.

Lemma spec_calls_ledgers cs st l rs l' :
  client_rel (V := V) (D := D) st l → spec_calls cs l = Some (rs, l') → inserted cs ++ ledgers l ≡ₚ ledgers l'.
Proof.
  revert st l rs l'. induction cs as [|cl cs IH]; intros st l rs l' HR; cbn [spec_calls].
  - intros Heq. apply (inj Some) in Heq. by apply pair_eq in Heq as [_ <-].
  - destruct (spec_call cl l) as [[r l1]|] eqn:E1; [|done]. cbn [mbind option_bind].
    destruct (spec_calls cs l1) as [[rs1 l2]|] eqn:E2; [|done]. cbn [mbind option_bind]. intros Heq; apply (inj Some) in Heq; apply pair_eq in Heq as [_ <-].
    destruct (client_call_rel _ _ _ _ _ HR E1) as (st1 & _ & HR1). rewrite <- (IH _ _ _ _ HR1 E2).
    destruct (spec_call_books _ _ _ _ _ HR E1) as (i & a & n & a' & n' & new & out & [(Ei & -> & Hb & Hnew)|[-> Hnew]]).
    + apply books_ledger in Hb. rewrite Hnew in Hb. rewrite <- (ledgers_update l i a n a' n' (inserted_by cl) Ei Hb).
      unfold inserted. cbn. solve_Permutation.
    + unfold inserted. cbn. by rewrite Hnew.
Qed.

Lemma client_deletions c hs l :
  client_rel (V := V) (D := D) (c, hs) l → deletions c = concat (gone ∘ fst <$> l).
Proof.
  intros HR. unfold deletions. f_equal. apply list_eq. intros i. rewrite !list_lookup_fmap.
  destruct (decide (i < Z.to_nat kNumShards)%nat) as [Hi|Hi].
  - destruct (client_lookup _ _ i HR Hi) as (sh & an & hd & E1 & E2 & _ & (_ & _ & _ & _ & Hd)%shard_entries). cbn in E1.
    rewrite E1, E2. cbn. by rewrite Hd.
  - destruct HR as [H1 _ H3 _]. cbn in H1. rewrite !lookup_ge_None_2 by lia. done.
Qed.

Lemma delete_shards_spec c hs l :
  client_rel (V := V) (D := D) (c, hs) l → Forall (λ an, held an.1 = []) l →
  ∃ c', delete_ShardedLRUCache c = Some c' ∧
    Forall2 (λ (sh : LRUCache * Heap) (an : Spec * nat), deleted sh.2 = gone an.1 ++ gone_entries (order an.1)) (shard_ c') l.
Proof.
  intros HR Hheld.
  assert (Hall : Forall2 (λ (sh : LRUCache * Heap) (an : Spec * nat), ∃ sh', destroy_LRUCache sh.1 sh.2 = Some sh' ∧
    deleted sh'.2 = gone an.1 ++ gone_entries (order an.1)) (shard_ c) l).
  { apply Forall2_same_length_lookup. split; [by rewrite (cr_specs _ _ HR), <- (cr_shards _ _ HR)|].
    intros i sh an E1 E2. rewrite list.Forall_lookup in Hheld.
    destruct (client_lookup _ _ i HR) as (sh' & an' & hd & E1' & E2' & _ & Hrel); [rewrite <- (cr_specs _ _ HR); by eapply lookup_lt_Some|].
    cbn in E1'. assert (sh' = sh) as -> by congruence. assert (an' = an) as -> by congruence. destruct Hrel as (Hrep & _).
    destruct (destroy_LRUCache_spec _ _ _ Hrep (Hheld i an E2)) as (c' & s' & Ed & Hd). by exists (c', s'). }
  unfold delete_ShardedLRUCache. clear HR Hheld.
  induction Hall as [|sh an ss l (sh' & Ed & Hd) _ IH]; [by eexists|].
  destruct IH as (c' & Ec & Hc). cbn [mapM]. rewrite Ed. cbn [mbind option_bind].
  destruct (mapM _ ss) as [ss'|]; [|done]. cbn in Ec. injection Ec as <-. eexists. split; [done|]. by constructor.
Qed.

Lemma delete_ShardedLRUCache_spec c hs l :
  client_rel (V := V) (D := D) (c, hs) l → Forall (λ an, held an.1 = []) l →
  ∃ c', delete_ShardedLRUCache c = Some c' ∧ deletions c' = concat ((λ an, gone an.1 ++ gone_entries (order an.1)) <$> l).
Proof.
  intros HR Hheld. destruct (delete_shards_spec c hs l HR Hheld) as (c' & Ec & Hall). exists c'. split; [done|].
  unfold deletions. f_equal. clear - Hall. induction Hall as [|sh an ss l Hd _ IH]; [done|]. cbn. by rewrite Hd, IH.
Qed.

(** Nothing is left that cannot be found once no client has a handle. *)
Lemma unheld_detached i sh an hd : shard_rel (V := V) (D := D) i sh an hd → held an.1 = [] → detached an.1 = [].
Proof.
  intros ([[_ _ _ _ [_ _ _ Hdet _ _ _]] _] & _) Hh. destruct (detached an.1) as [|y o]; [done|].
  specialize (Hdet y.1 ltac:(by left)). rewrite Hh in Hdet. by apply elem_of_nil in Hdet.
Qed.
End Books.

(** ** Single operations *)

Section Operations.
Context {V D : Type}.
Abbreviation Spec := (Spec V D).
Implicit Types (l : list (Spec * nat)) (c : ShardedLRUCache (V := V) (D := D)).

Lemma client_held c hs l : client_rel (c, hs) l → hs = held ∘ fst <$> l.
Proof.
  intros HR. apply list_eq. intros i. rewrite list_lookup_fmap. destruct (decide (i < Z.to_nat kNumShards)%nat) as [Hi|Hi].
  - destruct (client_lookup _ _ i HR Hi) as (sh & an & hd & _ & E2 & E3 & (_ & _ & -> & _)). cbn in E3. by rewrite E2, E3.
  - destruct HR as [_ H2 H3 _]. cbn in H2. rewrite !lookup_ge_None_2 by lia. done.
Qed.

Lemma Lookup_shard c key h c' : Lookup c key = Some (Some h, c') → h.1 = Shard (HashSlice key).
Proof.
  unfold Lookup. destruct (on_shard _ _ _ _) as [[[x|] c1]|]; cbn [mbind option_bind]; [|done|done].
  intros Heq. apply (inj Some) in Heq. apply pair_eq in Heq as [Heq _]. by apply (inj Some) in Heq as <-.
Qed.

Lemma Insert_shard c key v ch d h c' : Insert c key v ch d = Some (h, c') → h.1 = Shard (HashSlice key).
Proof.
  unfold Insert. destruct (on_shard _ _ _ _) as [[x c1]|]; cbn [mbind option_bind]; [|done].
  intros Heq. apply (inj Some) in Heq. by apply pair_eq in Heq as [<- _].
Qed.

Lemma alter_held (x : nat) i a n a' n' l :
  l !! i = Some (a, n) → alter (cons x) i (held ∘ fst <$> l) = held ∘ fst <$> <[i := (a', n')]> l → held a' = x :: held a.
Proof.
  intros Ei Heq. apply (f_equal (lookup i)) in Heq. rewrite list_lookup_alter_eq, !list_lookup_fmap, Ei in Heq.
  rewrite list_lookup_insert_eq in Heq by by eapply lookup_lt_Some. cbn in Heq. by injection Heq as ->.
Qed.

Lemma Lookup_ok c l key a n o a' :
  client_rel (c, held ∘ fst <$> l) l → l !! Shard (HashSlice key) = Some (a, n) → zlen (held a) + 1 < 2 ^ 31 →
  spec_Lookup key (HashSlice key) a = (o, a') →
  ∃ c', Lookup c key = Some ((λ x, (Shard (HashSlice key), x.1)) <$> o, c') ∧
    client_rel (c', held ∘ fst <$> <[Shard (HashSlice key) := (a', n)]> l) (<[Shard (HashSlice key) := (a', n)]> l).
Proof.
  intros HR Ei Hfit Ho.
  destruct (client_call_Lookup c _ l key (match o with Some x => Some (e_value x.2) | None => None end)
    (<[Shard (HashSlice key) := (a', n)]> l) HR) as ([c' hs'] & Ec & HR').
  { cbn [spec_call]. cbn zeta. rewrite Ei. cbn [mbind option_bind]. by rewrite decide_True, Ho by done. }
  pose proof (client_held _ _ _ HR') as Hh. subst hs'. cbn [cache_call] in Ec.
  destruct (Lookup c key) as [[[h|] c1]|] eqn:EL; [| |done]; cbn [mbind option_bind] in Ec.
  - destruct (Value c1 h) as [v|]; [|done]. cbn [mbind option_bind] in Ec. apply (inj Some) in Ec.
    apply pair_eq in Ec as [Er Ec]. apply pair_eq in Ec as [-> Eh]. destruct o as [x|]; [|done].
    pose proof (Lookup_shard _ _ _ _ EL) as Hh1. rewrite Hh1 in Eh. apply (alter_held _ _ _ _ _ _ _ Ei) in Eh.
    assert (held a' = x.1 :: held a) as Hx.
    { unfold spec_Lookup in Ho. destruct (find_entry key (HashSlice key) a) as [y|]; [|done].
      apply pair_eq in Ho as [Hy <-]. by apply (inj Some) in Hy as ->. }
    rewrite Hx in Eh. exists c'. split; [|done]. cbn. rewrite <- Hh1. apply (inj2 cons) in Eh as [-> _]. by destruct h.
  - apply (inj Some) in Ec. apply pair_eq in Ec as [Er Ec]. apply pair_eq in Ec as [-> _].
    destruct o as [x|]; [done|]. by exists c'.
Qed.

Lemma Insert_ok c l key v ch d a n :
  client_rel (c, held ∘ fst <$> l) l → l !! Shard (HashSlice key) = Some (a, n) → fits a ch →
  let e := {| e_key := key; e_hash := HashSlice key; e_value := v; e_charge := ch; e_deleter := d |} in
  let l' := <[Shard (HashSlice key) := (spec_Insert n e a, S n)]> l in
  ∃ c', Insert c key v ch d = Some ((Shard (HashSlice key), n), c') ∧ client_rel (c', held ∘ fst <$> l') l'.
Proof.
  intros HR Ei Hfit e l'. destruct (client_call_Insert c _ l key v ch d (Some v) l' HR) as ([c' hs'] & Ec & HR').
  { cbn [spec_call]. cbn zeta. rewrite Ei. cbn [mbind option_bind]. by rewrite decide_True by done. }
  pose proof (client_held _ _ _ HR') as Hh. subst hs'. cbn [cache_call] in Ec.
  destruct (Insert c key v ch d) as [[h c1]|] eqn:EL; [|done]; cbn [mbind option_bind] in Ec.
  destruct (Value c1 h); [|done]. cbn [mbind option_bind] in Ec. apply (inj Some) in Ec.
  apply pair_eq in Ec as [_ Ec]. apply pair_eq in Ec as [-> Eh].
  pose proof (Insert_shard _ _ _ _ _ _ _ EL) as Hh1. rewrite Hh1 in Eh. apply (alter_held _ _ _ _ _ _ _ Ei) in Eh.
  rewrite held_Insert in Eh. exists c'. split; [|done]. rewrite <- Hh1. apply (inj2 cons) in Eh as [-> _]. by destruct h.
Qed.

Lemma Erase_ok c l key a n :
  client_rel (c, held ∘ fst <$> l) l → l !! Shard (HashSlice key) = Some (a, n) →
  let l' := <[Shard (HashSlice key) := (take_out key (HashSlice key) a, n)]> l in
  ∃ c', Erase c key = Some c' ∧ client_rel (c', held ∘ fst <$> l') l'.
Proof.
  intros HR Ei l'. destruct (client_call_Erase c _ l key None l' HR) as ([c' hs'] & Ec & HR').
  { cbn [spec_call]. cbn zeta. rewrite Ei. done. }
  pose proof (client_held _ _ _ HR') as Hh. subst hs'. cbn [cache_call] in Ec.
  destruct (Erase c key) as [c1|]; [|done]; cbn [mbind option_bind] in Ec. apply (inj Some) in Ec.
  apply pair_eq in Ec as [_ Ec]. apply pair_eq in Ec as [-> _]. by exists c'.
Qed.

Lemma Release_ok c l i j x a n :
  client_rel (c, held ∘ fst <$> l) l → l !! i = Some (a, n) → held a !! j = Some x →
  let l' := <[i := (spec_Release j a, n)]> l in
  ∃ c', Release c (i, x) = Some c' ∧ client_rel (c', held ∘ fst <$> l') l'.
Proof.
  intros HR Ei Ej l'. destruct (client_call_Release c _ l i j None l' HR) as ([c' hs'] & Ec & HR').
  { cbn [spec_call]. by rewrite Ei. }
  pose proof (client_held _ _ _ HR') as Hh. subst hs'. cbn [cache_call] in Ec.
  rewrite list_lookup_fmap, Ei in Ec. cbn [fmap option_fmap option_map compose fst mbind option_bind] in Ec. rewrite Ej in Ec.
  destruct (Release c (i, x)) as [c1|]; [|done]; cbn [mbind option_bind] in Ec. apply (inj Some) in Ec.
  apply pair_eq in Ec as [_ Ec]. apply pair_eq in Ec as [-> _]. by exists c'.
Qed.
End Operations.

(** Every value that is inserted into the cache is given to its deleter
    exactly once. After any series of calls, what the deleters were called with
    and the entries in memory together are what was inserted, each as often as it
    was; an entry whose handle a client has is among those in memory; and once all
    handles are released, the destructor of the cache is defined and has then
    given the rest to their deleters, with their keys. *)
Theorem Cache_deletes_once {V D : Type} capacity (cs : list (CacheCall V D)) rs l :
  spec_calls cs (new_specs capacity) = Some (rs, l) →
  ∃ c hs, cache_calls cs (NewLRUCache capacity, replicate (Z.to_nat kNumShards) []) = Some (rs, (c, hs)) ∧
    deletions c ++ concat (gone_entries ∘ entries ∘ fst <$> l) ≡ₚ inserted cs ∧
    (∀ i hd an x, hs !! i = Some hd → l !! i = Some an → x ∈ hd → x ∈ (entries an.1).*1) ∧
    (Forall (λ hd, hd = []) hs → ∃ c', delete_ShardedLRUCache c = Some c' ∧ deletions c' ≡ₚ inserted cs).
Proof.
  intros E. pose proof (new_client_rel (V := V) (D := D) capacity) as HR0.
  destruct (client_calls_rel _ _ _ _ _ HR0 E) as ([c hs] & E' & HR). exists c, hs. split; [done|].
  pose proof (spec_calls_ledgers _ _ _ _ _ HR0 E) as HL.
  assert (ledgers (V := V) (D := D) (new_specs capacity) = []) as H0 by done. rewrite H0, app_nil_r in HL.
  pose proof (client_deletions _ _ _ HR) as Hd. split; [|split].
  - rewrite Hd, HL. clear. unfold ledgers. induction l as [|an l IH]; [done|]. cbn. rewrite <- IH. unfold ledger. solve_Permutation.
  - intros i hd an x E1 E2 Hx. destruct (client_lookup _ _ i HR) as (sh & an' & hd' & _ & E2' & E3 & Hrel).
    { rewrite <- (cr_specs _ _ HR). by eapply lookup_lt_Some. }
    cbn in E3. assert (an' = an) as -> by congruence. assert (hd' = hd) as -> by congruence.
    pose proof Hrel as (_ & _ & Hh & _). rewrite Hh in Hx. apply shard_entries in Hrel as (_ & _ & _ & Hin & _). by apply Hin.
  - intros Hall.
    assert (Hnone : Forall (λ an, held an.1 = [] ∧ detached an.1 = []) l).
    { apply list.Forall_lookup. intros i an E2. destruct (client_lookup _ _ i HR) as (sh & an' & hd & _ & E2' & E3 & Hrel).
      { rewrite <- (cr_specs _ _ HR). by eapply lookup_lt_Some. }
      cbn in E3. assert (an' = an) as -> by congruence. rewrite list.Forall_lookup in Hall. pose proof (Hall i hd E3) as ->.
      pose proof Hrel as (_ & _ & Hh & _). split; [done|]. by eapply unheld_detached. }
    destruct (delete_ShardedLRUCache_spec c hs l HR) as (c' & Ec & Hc); [by eapply list.Forall_impl; [exact Hnone|intros an []]|].
    exists c'. split; [done|]. rewrite Hc, HL. unfold ledgers, ledger, entries. clear - Hnone.
    induction Hnone as [|an l [_ Hdet] _ IH]; [done|]. cbn. by rewrite Hdet, app_nil_r, IH.
Qed.

Lemma Cache_deletes_once_witness :
  let cs := [CallInsert (str "a") 1 1 tt; CallInsert (str "a") 2 1 tt; CallLookup (str "a"); CallErase (str "a");
    CallRelease 12 0; CallRelease 12 0; CallRelease 12 0] in
  ∃ rs c hs c', cache_calls cs (NewLRUCache 100, replicate (Z.to_nat kNumShards) []) = Some (rs, (c, hs)) ∧
    delete_ShardedLRUCache c = Some c' ∧ deletions c' ≡ₚ [(tt, str "a", 1); (tt, str "a", 2)].
Proof.
  intros cs. destruct (spec_calls cs (new_specs 100)) as [[rs l]|] eqn:E; [|by vm_compute in E].
  destruct (Cache_deletes_once 100 cs rs l E) as (c & hs & Ec & _ & _ & H). exists rs, c, hs.
  destruct H as (c' & Hc & Hd).
  - assert (hs = match cache_calls cs (NewLRUCache 100, replicate (Z.to_nat kNumShards) []) with Some (_, (_, hs)) => hs | None => [[0%nat]] end) as ->
      by (by rewrite Ec).
    apply (bool_decide_eq_true_1 (Forall (λ hd : list nat, hd = []) _)). vm_compute. reflexivity.
  - exists c'. split; [done|]. split; [exact Hc|exact Hd].
Defined.
