(* ===== verification/TableCache.v ===== *)
(** The table cache: [db/table_cache.cc] and [db/table_cache.h].

    The tables that are open are entries of an LRU cache; their deleters close
    the files. The cache calls a deleter in the middle of an operation; as it
    only touches the environment, here it runs at the end of the operation. *)
From Stdlib Require Import Sorting.Sorted.
From stdpp Require Import gmap.
From S2P Require Import Prelude SortedLists Coding Status Comparator Bloom Crc32c Env MemEnv EnvFiles FileName Iterator BlockBuilder Block Format FilterBlock TwoLevelIterator TableBuilder Table Builder DList Cache CacheTable CacheRefines CacheShards CacheLedger.

(** ** Files opened for random access *)

(** What the reads of an open file give. *)
Class RandomFiles {W} (E : Env W) := { opened : W → RandomHandle → option TableFile }.

Record TableAndFile {W} {E : Env W} := { file : RandomHandle; table : Table }.

Section Operations.
Context {W : Type} {E : Env W} {RF : RandomFiles E} {C : Comparator} {P : Placement}.

(** A pointer to a function that takes the key and the value. *)
Abbreviation Deleter := (bytes → TableAndFile → M W ()).
Abbreviation LRU := (ShardedLRUCache (V := TableAndFile) (D := Deleter)).

(** [block_cache_id] is the last id that the block cache of the options gave;
    there may be no block cache. *)
Record TableCacheState := { env_ : W; cache_ : LRU; block_cache_id : option Z }.
Abbreviation State := TableCacheState.

Context (char_signed : bool) (dbname_ : bytes) (options_ : Options).

(** The destructor of a table touches memory only. *)
Definition DeleteEntry : Deleter := λ key tf, rf_delete (file tf).

Definition in_env {A} (f : M W A) : M State A := λ st,
  '(a, w) ← f (env_ st); Some (a, {| env_ := w; cache_ := cache_ st; block_cache_id := block_cache_id st |}).

(** The deleters that were called between two states of the cache. *)
Definition calls (c c' : LRU) : list (Deleter * bytes * TableAndFile) :=
  concat (zip_with (λ s s', drop (length (deleted s.2)) (deleted s'.2)) (shard_ c) (shard_ c')).

Fixpoint run_deleters (l : list (Deleter * bytes * TableAndFile)) : M W () :=
  match l with
  | [] => mret ()
  | (d, k, v) :: l => _ ← d k v; run_deleters l
  end.

Definition on_cache {A} (f : LRU → option (A * LRU)) : M State A := λ st,
  '(a, c) ← f (cache_ st);
  '(_, w) ← run_deleters (calls (cache_ st) c) (env_ st);
  Some (a, {| env_ := w; cache_ := c; block_cache_id := block_cache_id st |}).

(** The constructor; [entries] is the capacity. *)
Definition new_TableCache (entries : Z) (ids : option Z) (w : W) : State :=
  {| env_ := w; cache_ := NewLRUCache entries; block_cache_id := ids |}.

(** The destructor. *)
Definition delete_TableCache : M State () :=
  on_cache (λ c, c ← delete_ShardedLRUCache c; Some ((), c)).

Definition UnrefEntry (h : Handle) : M State () := on_cache (λ c, c ← Release c h; Some ((), c)).

(** The id that [Table::Open] asks the block cache for when it succeeds. *)
Definition next_id (st : State) : Z := match block_cache_id st with Some n => u64 (n + 1) | None => 0 end.

Definition Open (f : RandomHandle) (size : Z) : M State (Status + Table) := λ st,
  F ← opened (env_ st) f;
  r ← Table_Open (F := F) char_signed (next_id st) options_ size;
  Some (r, match r with
           | inl _ => st
           | inr _ => {| env_ := env_ st; cache_ := cache_ st; block_cache_id := (λ _, next_id st) <$> block_cache_id st |}
           end).

Definition FindTable (file_number file_size : Z) : M State (Status * option Handle) :=
  let key := EncodeFixed64 file_number in
  handle ← on_cache (λ c, Lookup c key);
  match handle with
  | Some h => mret (Status_OK, Some h)
  | None =>
      let fname := TableFileName dbname_ file_number in
      r ← in_env (NewRandomAccessFile fname);
      r ← (match r with
           | inr f => mret (inr f)
           | inl s =>
               let old_fname := SSTTableFileName dbname_ file_number in
               r ← in_env (NewRandomAccessFile old_fname);
               mret (match r with inr f => inr f | inl _ => inl s end)
           end);
      match r with
      | inl s => mret (s, None)
      | inr f =>
          t ← Open f file_size;
          match t with
          | inl s => _ ← in_env (rf_delete f); mret (s, None)
          | inr t =>
              h ← on_cache (λ c, Insert c key {| file := f; table := t |} 1 DeleteEntry);
              mret (Status_OK, Some h)
          end
      end
  end.

(** The table of a handle, with what its file reads. *)
Definition table_at (h : Handle) : M State (TableFile * Table) := λ st,
  tf ← Value (cache_ st) h; F ← opened (env_ st) (file tf); Some (F, table tf, st).

(** What the block cache of the options answers is an argument; [block_cache] is
    [None] if there is none. *)
Context (block_cache : option (bytes → option Block)).

(** An iterator over an open table: what its file reads, the table and the
    options, the two-level iterator, and the handles that its cleanup functions
    release. *)
Record TableIter := {
  ti_file : TableFile;
  ti_table : Table;
  ti_verify : bool;
  ti_iter : TwoLevelIterator BlockIterator BlockIterator;
  ti_cleanups : list Handle;
}.

Definition ti_set (it : TableIter) (i : TwoLevelIterator BlockIterator BlockIterator) : TableIter :=
  {| ti_file := ti_file it; ti_table := ti_table it; ti_verify := ti_verify it; ti_iter := i; ti_cleanups := ti_cleanups it |}.

Definition ti_ops (it : TableIter) : Iterator (TwoLevelIterator BlockIterator BlockIterator) :=
  Table_Iterator (F := ti_file it) block_cache (ti_verify it) (ti_table it).

#[export] Instance TableIter_Iterator : Iterator TableIter := {
  it_Valid it := it_Valid (Iterator := ti_ops it) (ti_iter it);
  it_SeekToFirst it := ti_set it <$> it_SeekToFirst (Iterator := ti_ops it) (ti_iter it);
  it_SeekToLast it := ti_set it <$> it_SeekToLast (Iterator := ti_ops it) (ti_iter it);
  it_Seek k it := ti_set it <$> it_Seek (Iterator := ti_ops it) k (ti_iter it);
  it_Next it := ti_set it <$> it_Next (Iterator := ti_ops it) (ti_iter it);
  it_Prev it := ti_set it <$> it_Prev (Iterator := ti_ops it) (ti_iter it);
  it_key it := it_key (Iterator := ti_ops it) (ti_iter it);
  it_value it := it_value (Iterator := ti_ops it) (ti_iter it);
  it_status it := it_status (Iterator := ti_ops it) (ti_iter it);
}.

(** The table goes to [*tableptr]. *)
Definition NewIterator (options : ReadOptions) (file_number file_size : Z)
    : M State ((EmptyIterator + TableIter) * option Table) :=
  '(s, handle) ← FindTable file_number file_size;
  match handle with
  | None => mret (inl (NewErrorIterator s), None)
  | Some h =>
      '(F, t) ← table_at h;
      result ← M_lift (λ _, Table_NewIterator t);
      mret (inr {| ti_file := F; ti_table := t; ti_verify := verify_checksums options; ti_iter := result;
                   ti_cleanups := RegisterCleanup [] h |}, Some t)
  end.

(** Deleting an iterator calls its cleanup functions. *)
Definition delete_TableIter (it : TableIter) : M State () :=
  run_cleanups (λ h (m : M State ()), _ ← m; UnrefEntry h) (ti_cleanups it) (mret ()).

(** The status, and what the saver is called with. *)
Definition Get (options : ReadOptions) (file_number file_size : Z) (k : bytes) : M State (Status * option entry) :=
  '(s, handle) ← FindTable file_number file_size;
  match handle with
  | None => mret (s, None)
  | Some h =>
      '(F, t) ← table_at h;
      r ← M_lift (λ _, InternalGet (F := F) block_cache (verify_checksums options) t k);
      _ ← UnrefEntry h;
      mret r
  end.

Definition Evict (file_number : Z) : M State () := on_cache (λ c, c ← Erase c (EncodeFixed64 file_number); Some ((), c)).
End Operations.
Arguments TableCacheState W {E}.

(** ** What the cache relies on *)

(** Opening files for random access and closing them, when nothing fails; reads
    change nothing. *)
Class RandomLaws {W} {E : Env W} (RF : RandomFiles E) (inv : W → Prop) (files : W → gmap bytes bytes) : Prop := {
  rl_Read h F off n w : inv w → opened w h = Some F → 0 ≤ off → 0 ≤ n →
    rf_Read (RandomAccessFile := random h) off n w = Some (Format.Read (TableFile := F) off n, w);
  rl_New f w : inv w →
    match files w !! f with
    | Some T => ∃ h F w', NewRandomAccessFile f w = Some (inr h, w') ∧ inv w' ∧ files w' = files w ∧
        opened w h = None ∧ TableFileLaws F T ∧
        ∀ h' F', opened w' h' = Some F' ↔ opened w h' = Some F' ∨ (h' = h ∧ F' = F)
    | None => ∃ s, NewRandomAccessFile f w = Some (inl s, w) ∧ ok s = false
    end;
  rl_delete h F w : inv w → opened w h = Some F →
    ∃ w', rf_delete h w = Some ((), w') ∧ inv w' ∧ files w' = files w ∧
      ∀ h' F', opened w' h' = Some F' ↔ opened w h' = Some F' ∧ h' ≠ h;
}.

Section Correct.
Context {W : Type} {E : Env W} {RF : RandomFiles E} {inv : W → Prop} {files : W → gmap bytes bytes}.
Context {RL : RandomLaws RF inv files}.
Context {C : Comparator} {V : bytes → Prop} {CL : ComparatorLaws C V} {P : Placement}.
Context (char_signed : bool) (dbname : bytes) (options : Options).

Abbreviation Deleter := (bytes → TableAndFile → M W ()).
Abbreviation Entry := (Entry TableAndFile Deleter).
Abbreviation Spec := (Spec TableAndFile Deleter).
Abbreviation State := (TableCacheState W).
Implicit Types (st : State) (w : W) (l : list (Spec * nat)) (a : Spec) (x : nat * Entry).

(** What the table files hold: bytes that are read as entries. *)
Context (stored : Z → option (bytes * list entry)).
Hypothesis stored_reads : ∀ n T es, stored n = Some (T, es) → in_w 64 n ∧ reads_as V options (zlen T) T es.

(** A file of a number, under either name, is the table of that number. *)
Definition files_right w : Prop :=
  ∀ n T es f T', stored n = Some (T, es) → f = TableFileName dbname n ∨ f = SSTTableFileName dbname n →
    files w !! f = Some T' → T' = T.

Definition file_of_entry (x : nat * Entry) : RandomHandle := file (e_value x.2).
Definition files_of (l : list (Spec * nat)) : list RandomHandle := concat ((λ an, file_of_entry <$> entries an.1) <$> l).

(** The entry of a table: its file is open, and the table is what [Open] gave
    for it. *)
Definition entry_ok w (e : Entry) : Prop :=
  e_deleter e = DeleteEntry ∧ e_charge e = 1 ∧ e_hash e = HashSlice (e_key e) ∧
  ∃ n T es F id, stored n = Some (T, es) ∧ e_key e = EncodeFixed64 n ∧ opened w (file (e_value e)) = Some F ∧
    TableFileLaws F T ∧ Table_Open (F := F) char_signed id options (zlen T) = Some (inr (table (e_value e))).

(** [pending]: the files that are open and not yet in the cache. *)
Record tc_rel (st : State) l (pending : list RandomHandle) : Prop := {
  tr_inv : inv (env_ st);
  tr_files : files_right (env_ st);
  tr_cache : client_rel (cache_ st, held ∘ fst <$> l) l;
  tr_entries i a n x : l !! i = Some (a, n) → x ∈ entries a → entry_ok (env_ st) x.2;
  tr_nodup : NoDup (pending ++ files_of l);
  tr_opened h : is_Some (opened (env_ st) h) ↔ h ∈ pending ++ files_of l;
}.

(** *** Deleters *)

Lemma run_deleters_spec (out : list (nat * Entry)) w :
  inv w → NoDup (file_of_entry <$> out) → (∀ x, x ∈ out → entry_ok w x.2) →
  ∃ w', run_deleters (gone_entries out) w = Some ((), w') ∧ inv w' ∧ files w' = files w ∧
    ∀ h F, opened w' h = Some F ↔ opened w h = Some F ∧ h ∉ file_of_entry <$> out.
Proof.
  revert w. induction out as [|x out IH]; intros w Hi Hnd He.
  { exists w. splits; [done..|]. intros h F. split; [intros ?; split; [done|by intros ?%elem_of_nil]|by intros []]. }
  cbn [gone_entries fmap list_fmap compose] in *. apply list.NoDup_cons in Hnd as [Hx Hnd].
  destruct (He x) as (Hd & _ & _ & n & T & es & F & id & _ & _ & HF & _); [by left|].
  destruct (rl_delete _ F w Hi HF) as (w1 & Ed & Hi1 & Hf1 & Ho1).
  destruct (IH w1 Hi1 Hnd) as (w' & Er & Hi' & Hf' & Ho').
  { intros y Hy. destruct (He y) as (? & ? & ? & n' & T' & es' & F' & id' & ? & ? & HF' & ? & ?); [by right|].
    split; [done|]. split; [done|]. split; [done|]. exists n', T', es', F', id'. splits; try done. apply Ho1. split; [done|].
    intros Heq. apply Hx. assert (file_of_entry x = file_of_entry y) as -> by done. by apply (list_elem_of_fmap_2 file_of_entry). }
  exists w'. split; [|split; [done|split; [by rewrite Hf'|]]].
  - unfold gone_entry at 1. cbn [run_deleters]. rewrite Hd. unfold DeleteEntry at 1. by rewrite (M_bind_Some _ _ _ _ _ Ed).
  - intros h F'. rewrite Ho', Ho1, not_elem_of_cons. change (file (e_value x.2)) with (file_of_entry x). tauto.
Qed.

(** *** Operations on the cache *)

Lemma concat_replaced {A} (f : Spec → list A) l i a n a' n' (z y : list A) :
  l !! i = Some (a, n) → z ++ f a ≡ₚ f a' ++ y →
  z ++ concat (f ∘ fst <$> l) ≡ₚ concat (f ∘ fst <$> <[i := (a', n')]> l) ++ y.
Proof.
  intros Ei Hz. rewrite insert_take_drop by by eapply lookup_lt_Some.
  rewrite <- (take_drop_middle l i _ Ei) at 1. rewrite !fmap_app, !concat_app. cbn.
  rewrite (Permutation_app_comm (concat _) (f a ++ _)), <- !app_assoc, app_assoc, Hz. solve_Permutation.
Qed.

Lemma concat_single {A} (ls : list (list A)) i g :
  ls !! i = Some g → (∀ j d, j ≠ i → ls !! j = Some d → d = []) → concat ls = g.
Proof.
  intros Ei Hz. rewrite <- (take_drop_middle ls i g Ei), concat_app. cbn.
  assert (Hnil : ∀ ls' : list (list A), Forall (λ d, d = []) ls' → concat ls' = []) by (induction 1 as [|d ls' -> _ IH]; done).
  rewrite !Hnil; [by rewrite app_nil_r|apply list.Forall_forall; intros d..].
  - intros [j Hj]%list_elem_of_lookup. rewrite lookup_drop in Hj. eapply Hz; [|done]. lia.
  - intros (j & Hj & Hlt)%elem_of_take. eapply Hz; [|done]. lia.
Qed.

Lemma calls_spec (c c' : ShardedLRUCache) hs hs' l i a n a' n' new out :
  client_rel (V := TableAndFile) (D := Deleter) (c, hs) l → client_rel (c', hs') (<[i := (a', n')]> l) →
  l !! i = Some (a, n) → books new a a' out → calls c c' = gone_entries out.
Proof.
  intros H1 H2 Ei [_ Hg _].
  unfold calls. rewrite (concat_single _ i (gone_entries out)).
  - done.
  - destruct (client_lookup _ _ i H1) as (sh & an & hd & E1 & E2 & _ & (_ & _ & _ & _ & Hd)%shard_entries).
    { rewrite <- (cr_specs _ _ H1). by eapply lookup_lt_Some. }
    destruct (client_lookup _ _ i H2) as (sh' & an' & hd' & E1' & E2' & _ & (_ & _ & _ & _ & Hd')%shard_entries).
    { rewrite <- (cr_specs _ _ H1). by eapply lookup_lt_Some. }
    cbn [fst] in *. rewrite lookup_zip_with, E1, E1'. cbn. rewrite Ei in E2. injection E2 as <-.
    rewrite list_lookup_insert_eq in E2' by by eapply lookup_lt_Some. injection E2' as <-.
    cbn [fst] in *. by rewrite Hd, Hd', Hg, drop_app_length.
  - intros j d Hj. rewrite lookup_zip_with. destruct (shard_ c !! j) as [sh|] eqn:E1; [|done]. cbn.
    destruct (shard_ c' !! j) as [sh'|] eqn:E1'; [|done]. cbn. intros [= <-].
    destruct (client_lookup _ _ j H1) as (sh2 & an & hd & E12 & E2 & _ & (_ & _ & _ & _ & Hd)%shard_entries).
    { rewrite <- (cr_shards _ _ H1). by eapply lookup_lt_Some. }
    destruct (client_lookup _ _ j H2) as (sh3 & an' & hd' & E13 & E2' & _ & (_ & _ & _ & _ & Hd')%shard_entries).
    { rewrite <- (cr_shards _ _ H1). by eapply lookup_lt_Some. }
    cbn [fst] in *. rewrite list_lookup_insert_ne in E2' by done. assert (an' = an) as -> by congruence.
    assert (sh2 = sh) as -> by congruence. assert (sh3 = sh') as -> by congruence. by rewrite Hd, Hd', drop_all.
Qed.

Lemma elem_files_of l i a n x : l !! i = Some (a, n) → x ∈ entries a → file_of_entry x ∈ files_of l.
Proof.
  intros Ei Hx. apply elem_of_concat. exists (file_of_entry <$> entries a). split; [by apply list_elem_of_fmap_2|].
  apply (list_elem_of_fmap_2 (λ an : Spec * nat, file_of_entry <$> entries an.1) l (a, n)). by eapply list_elem_of_lookup_2.
Qed.

Lemma entry_ok_mono w w' (e : Entry) :
  entry_ok w e → (∀ F, opened w (file (e_value e)) = Some F → opened w' (file (e_value e)) = Some F) → entry_ok w' e.
Proof.
  intros (? & ? & ? & n & T & es & F & id & ? & ? & HF & ? & ?) Hmono. split; [done|]. split; [done|]. split; [done|].
  exists n, T, es, F, id. splits; [done|done|by apply Hmono|done|done].
Qed.

(** A call of the cache that changes one shard: its deleters close the files of
    the entries that go. *)
Lemma on_cache_rel {A} (f : ShardedLRUCache → option (A * ShardedLRUCache)) st l i a n a' n' new out pending r c' :
  tc_rel st l ((file_of_entry <$> new) ++ pending) → l !! i = Some (a, n) → f (cache_ st) = Some (r, c') →
  client_rel (c', held ∘ fst <$> <[i := (a', n')]> l) (<[i := (a', n')]> l) → books new a a' out →
  (∀ x, x ∈ new → entry_ok (env_ st) x.2) →
  ∃ st', on_cache f st = Some (r, st') ∧ cache_ st' = c' ∧ block_cache_id st' = block_cache_id st ∧
    tc_rel st' (<[i := (a', n')]> l) pending ∧ files (env_ st') = files (env_ st) ∧
    ∀ h F, opened (env_ st') h = Some F ↔ opened (env_ st) h = Some F ∧ h ∉ file_of_entry <$> out.
Proof.
  intros HR Ei Hf Hc Hb Hnew. pose proof (calls_spec _ _ _ _ _ _ _ _ _ _ _ _ (tr_cache _ _ _ HR) Hc Ei Hb) as Hcalls.
  assert (Hfs : (file_of_entry <$> new) ++ files_of l ≡ₚ files_of (<[i := (a', n')]> l) ++ (file_of_entry <$> out)).
  { apply (concat_replaced (λ a, file_of_entry <$> entries a) l i a n); [done|]. rewrite <- !fmap_app. by rewrite (bk_entries _ _ _ _ Hb). }
  assert (Hall : pending ++ files_of (<[i := (a', n')]> l) ++ (file_of_entry <$> out) ≡ₚ ((file_of_entry <$> new) ++ pending) ++ files_of l).
  { rewrite <- Hfs. solve_Permutation. }
  pose proof (tr_nodup _ _ _ HR) as Hnd. rewrite <- Hall, app_assoc in Hnd. apply list.NoDup_app in Hnd as (Hnd1 & Hdisj & Hnd2).
  assert (Hok : ∀ x, x ∈ entries a' ++ out → entry_ok (env_ st) x.2).
  { intros x Hx. rewrite <- (bk_entries _ _ _ _ Hb) in Hx. apply elem_of_app in Hx as [Hx|Hx]; [by apply Hnew|]. by eapply (tr_entries _ _ _ HR). }
  destruct (run_deleters_spec out (env_ st) (tr_inv _ _ _ HR) Hnd2) as (w' & Er & Hi & Hfl & Ho).
  { intros x Hx. apply Hok. apply elem_of_app. by right. }
  eexists. split; [unfold on_cache; rewrite Hf; cbn [mbind option_bind]; rewrite Hcalls, Er; done|].
  cbn. splits; try done. split; cbn; [done| |done| |done|].
  - intros n0 T es g T' Hst Hg HT. rewrite Hfl in HT. by eapply (tr_files _ _ _ HR).
  - intros j aj nj x Ej Hx. assert (Hin : file_of_entry x ∈ files_of (<[i := (a', n')]> l)) by by eapply elem_files_of.
    apply (entry_ok_mono (env_ st)).
    + destruct (decide (j = i)) as [->|Hne].
      * rewrite list_lookup_insert_eq in Ej by by eapply lookup_lt_Some. injection Ej as <- <-. apply Hok. apply elem_of_app. by left.
      * rewrite list_lookup_insert_ne in Ej by done. by eapply (tr_entries _ _ _ HR).
    + intros F HF. apply Ho. split; [done|]. apply Hdisj. apply elem_of_app. by right.
  - intros h. split.
    + intros [F [HF Hout]%Ho]. assert (Hh : h ∈ ((file_of_entry <$> new) ++ pending) ++ files_of l) by by apply (tr_opened _ _ _ HR).
      rewrite <- Hall, app_assoc in Hh. apply elem_of_app in Hh as [?|?]; done.
    + intros Hh. assert (Hh' : h ∈ ((file_of_entry <$> new) ++ pending) ++ files_of l).
      { rewrite <- Hall, app_assoc. apply elem_of_app. by left. }
      apply (tr_opened _ _ _ HR) in Hh' as [F HF]. exists F. apply Ho. split; [done|]. by apply Hdisj.
Qed.

(** *** Handles *)

(** The capacity of the cache. *)
Context (capacity : Z) (Hcapacity : 0 ≤ capacity < 2 ^ 30).

(** The handles of a shard. *)
Definition handles_of (i : nat) (hs : list Handle) : list nat := snd <$> filter (λ h, h.1 = i) hs.

(** [hs] are the handles that clients have, and [l] the states of the shards. *)
Record tc_ok (st : State) l (hs : list Handle) (pending : list RandomHandle) : Prop := {
  to_rel : tc_rel st l pending;
  to_shard i a n : l !! i = Some (a, n) →
    limit a = usize (capacity + (kNumShards - 1)) / kNumShards ∧ within a ∧ held a ≡ₚ handles_of i hs;
  to_few : zlen hs < 2 ^ 30;
  to_range h : h ∈ hs → (h.1 < Z.to_nat kNumShards)%nat;
}.

(** The entry at a handle. *)
Definition at_spec l (h : Handle) (e : Entry) : Prop := ∃ a n, l !! h.1 = Some (a, n) ∧ (h.2, e) ∈ entries a.

Lemma handles_of_cons i h hs : handles_of i (h :: hs) = if decide (h.1 = i) then h.2 :: handles_of i hs else handles_of i hs.
Proof. unfold handles_of. rewrite filter_cons. by destruct (decide _). Qed.

Lemma elem_handles_of i (x : nat) hs : x ∈ handles_of i hs ↔ (i, x) ∈ hs.
Proof.
  unfold handles_of. rewrite list_elem_of_fmap. split.
  - intros ([j y] & -> & [Hj Hin]%list_elem_of_filter). cbn in *. by subst.
  - intros Hin. exists (i, x). split; [done|]. by apply list_elem_of_filter.
Qed.

Lemma at_spec_Value st l hs pending h e : tc_ok st l hs pending → at_spec l h e → Value (cache_ st) h = Some (e_value e).
Proof.
  intros HO (a & n & Ei & Hx). pose proof (tr_cache _ _ _ (to_rel _ _ _ _ HO)) as Hc.
  destruct (client_lookup _ _ h.1 Hc) as ([s hp] & an & hd & E1 & E2 & _ & ((Hrep & _) & _)).
  { rewrite <- (cr_specs _ _ Hc). by eapply lookup_lt_Some. }
  rewrite Ei in E2. injection E2 as <-. destruct h as [i x]. cbn in *. eapply Value_spec; [exact E1|].
  by apply (er_entries _ _ _ (rw_entries _ _ _ _ _ Hrep)).
Qed.

Lemma held_shard st l hs pending h : tc_ok st l hs pending → h ∈ hs → ∃ a n, l !! h.1 = Some (a, n).
Proof.
  intros HO Hh. pose proof (to_range _ _ _ _ HO h Hh) as Hr. rewrite <- (cr_specs _ _ (tr_cache _ _ _ (to_rel _ _ _ _ HO))) in Hr.
  destruct (lookup_lt_is_Some_2 _ _ Hr) as [[a n] E1]. by exists a, n.
Qed.

Lemma held_at_spec st l hs pending h : tc_ok st l hs pending → h ∈ hs → ∃ e, at_spec l h e.
Proof.
  intros HO Hh. destruct (held_shard _ _ _ _ _ HO Hh) as (a & n & Ei). pose proof (tr_cache _ _ _ (to_rel _ _ _ _ HO)) as Hc.
  destruct (client_lookup _ _ h.1 Hc) as (sh & an & hd & E1 & E2 & _ & (_ & _ & _ & Hin & _)%shard_entries).
  { rewrite <- (cr_specs _ _ Hc). by eapply lookup_lt_Some. }
  rewrite Ei in E2. injection E2 as <-. cbn [fst] in *. destruct (to_shard _ _ _ _ HO _ _ _ Ei) as (_ & _ & Hp).
  destruct (fst_elem (entries a) h.2) as [e He].
  - apply Hin. rewrite Hp. apply elem_handles_of. by destruct h.
  - by exists e, a, n.
Qed.

(** Entries of handles that are still held stay. *)
Definition keeps_held l l' (hs' : list Handle) : Prop := ∀ h e, at_spec l h e → h ∈ hs' → at_spec l' h e.

(** One call of the cache, and what it means for the handles. *)
Lemma on_cache_ok {A} (f : ShardedLRUCache → option (A * ShardedLRUCache)) st l hs i a n a' n' new out pending r c' hs' :
  tc_ok st l hs ((file_of_entry <$> new) ++ pending) → l !! i = Some (a, n) → f (cache_ st) = Some (r, c') →
  client_rel (c', held ∘ fst <$> <[i := (a', n')]> l) (<[i := (a', n')]> l) → books new a a' out →
  (∀ x, x ∈ new → entry_ok (env_ st) x.2) → limit a' = limit a → within a' →
  held a' ≡ₚ handles_of i hs' → (∀ j, j ≠ i → handles_of j hs' ≡ₚ handles_of j hs) → zlen hs' < 2 ^ 30 →
  (∀ h, h ∈ hs' → h ∈ hs ∨ h.1 = i) →
  ∃ st', on_cache f st = Some (r, st') ∧ block_cache_id st' = block_cache_id st ∧
    tc_ok st' (<[i := (a', n')]> l) hs' pending ∧ files (env_ st') = files (env_ st) ∧
    (∀ h F, opened (env_ st') h = Some F ↔ opened (env_ st) h = Some F ∧ h ∉ file_of_entry <$> out) ∧
    keeps_held l (<[i := (a', n')]> l) hs'.
Proof.
  intros HO Ei Hf Hc Hb Hnew Hlim Hwi Hheld Hother Hfew Hrange.
  destruct (on_cache_rel f st l i a n a' n' new out pending r c' (to_rel _ _ _ _ HO) Ei Hf Hc Hb Hnew)
    as (st' & Es & _ & Hid & HR & Hfl & Ho).
  exists st'. splits; try done.
  - split; [done| |done|].
    2: { intros h [Hh| ->]%Hrange; [by eapply to_range|].
         rewrite <- (cr_specs _ _ (tr_cache _ _ _ (to_rel _ _ _ _ HO))). by eapply lookup_lt_Some. }
    intros j aj nj Ej. destruct (decide (j = i)) as [->|Hne].
    + rewrite list_lookup_insert_eq in Ej by by eapply lookup_lt_Some. injection Ej as <- <-. rewrite Hlim.
      splits; [by apply (to_shard _ _ _ _ HO _ _ _ Ei)|done|done].
    + rewrite list_lookup_insert_ne in Ej by done. destruct (to_shard _ _ _ _ HO _ _ _ Ej) as (? & ? & Hp).
      splits; [done|done|]. by rewrite Hother.
  - intros h e (a0 & n0 & E0 & Hx) Hh. destruct (decide (h.1 = i)) as [Hi|Hne].
    + rewrite Hi, Ei in E0. injection E0 as <- <-. exists a', n'. rewrite Hi, list_lookup_insert_eq by by eapply lookup_lt_Some.
      split; [done|]. eapply books_held; [done|done|]. cbn. rewrite Hheld. apply elem_handles_of. rewrite <- Hi. by destruct h.
    + exists a0, n0. by rewrite list_lookup_insert_ne.
Qed.

(** The table of the number can be found in the cache. *)
Definition cached l (n : Z) : Prop := ∃ i a m x, l !! i = Some (a, m) ∧ x ∈ order a ∧ e_key x.2 = EncodeFixed64 n.

Lemma tc_usage st l hs pending i a n : tc_ok st l hs pending → l !! i = Some (a, n) → usage a = zlen (entries a).
Proof.
  intros HO Ei. assert (Hc : ∀ x, x ∈ entries a → e_charge x.2 = 1).
  { intros x Hx. by destruct (tr_entries _ _ _ (to_rel _ _ _ _ HO) i a n x Ei Hx) as (_ & -> & _). }
  unfold usage. change (order a ++ detached a) with (entries a). revert Hc. generalize (entries a).
  induction l0 as [|x o IH]; intros Hc; [done|]. rewrite total_cons, zlen_cons, (Hc x) by by left.
  rewrite IH; [lia|]. intros y Hy. apply Hc. by right.
Qed.

Lemma tc_held st l hs pending i a n :
  tc_ok st l hs pending → l !! i = Some (a, n) → zlen (held a) ≤ zlen hs ∧ zlen (detached a) ≤ zlen (held a).
Proof.
  intros HO Ei. destruct (to_shard _ _ _ _ HO _ _ _ Ei) as (_ & _ & Hp). split.
  - unfold zlen. rewrite Hp. unfold handles_of. rewrite length_fmap. apply inj_le, length_filter.
  - pose proof (tr_cache _ _ _ (to_rel _ _ _ _ HO)) as Hc.
    destruct (client_lookup _ _ i Hc) as (sh & an & hd & E1 & E2 & _ & ([[_ _ _ _ He] _] & _)).
    { rewrite <- (cr_specs _ _ Hc). by eapply lookup_lt_Some. }
    rewrite Ei in E2. injection E2 as <-. cbn [fst] in *. destruct He as [_ Hnd _ Hdet _ _ _].
    apply list.NoDup_cons in Hnd as [_ Hnd]. rewrite fmap_app in Hnd. apply list.NoDup_app in Hnd as (_ & _ & Hnd).
    apply NoDup_ListNoDup in Hnd. pose proof (NoDup_incl_length Hnd (l' := held a)) as Hlen. unfold zlen. rewrite length_fmap in Hlen.
    apply inj_le, Hlen. intros x Hx. apply list_elem_of_In. by apply Hdet, list_elem_of_In.
Qed.

Lemma tc_fits st l hs pending i a n : tc_ok st l hs pending → l !! i = Some (a, n) → zlen hs + 1 < 2 ^ 30 → fits a 1.
Proof.
  intros HO Ei Hfew. pose proof (tc_usage _ _ _ _ _ _ _ HO Ei) as Hu. destruct (tc_held _ _ _ _ _ _ _ HO Ei) as [H1 H2].
  destruct (to_shard _ _ _ _ HO _ _ _ Ei) as (Hl & Hw & _). unfold entries in Hu. rewrite zlen_app in Hu.
  pose proof (zlen_nonneg (order a)). pose proof (zlen_nonneg (detached a)).
  assert (limit a < 2 ^ 30 + 1).
  { rewrite Hl. unfold kNumShards, kNumShardBits. change (2 ^ 4) with 16. rewrite wrap_small by word_solve.
    apply Z.div_lt_upper_bound; lia. }
  unfold fits. destruct Hw as [Ho|Hw]; [rewrite Ho in *; change (zlen []) with 0 in *|]; lia.
Qed.

(** *** [Lookup] *)

Lemma cached_shard st l hs pending n a m :
  tc_ok st l hs pending → l !! Shard (HashSlice (EncodeFixed64 n)) = Some (a, m) →
  cached l n ↔ ∃ x, x ∈ order a ∧ matches (EncodeFixed64 n) (HashSlice (EncodeFixed64 n)) x.
Proof.
  intros HO Ei. split.
  - intros (i & a' & m' & x & E' & Hx & Hk).
    assert (Hin : x ∈ entries a') by (apply elem_of_app; by left).
    destruct (tr_entries _ _ _ (to_rel _ _ _ _ HO) _ _ _ _ E' Hin) as (_ & _ & Hh & _). rewrite Hk in Hh.
    pose proof (tr_cache _ _ _ (to_rel _ _ _ _ HO)) as Hc.
    destruct (client_lookup _ _ i Hc) as (sh & an & hd & _ & E2 & _ & (_ & _ & _ & Hall)).
    { rewrite <- (cr_specs _ _ Hc). by eapply lookup_lt_Some. }
    rewrite E' in E2. injection E2 as <-. specialize (Hall x Hin). cbn beta in Hall. rewrite Hh in Hall. subst i.
    rewrite Ei in E'. injection E' as <- <-. by exists x.
  - intros (x & Hx & _ & Hk). by exists (Shard (HashSlice (EncodeFixed64 n))), a, m, x.
Qed.

Lemma shard_of st l hs pending key : tc_ok st l hs pending → ∃ a n, l !! Shard (HashSlice key) = Some (a, n).
Proof.
  intros HO. pose proof (tr_cache _ _ _ (to_rel _ _ _ _ HO)) as Hc.
  destruct (lookup_lt_is_Some_2 l (Shard (HashSlice key))) as [[a n] E1]; [|by exists a, n].
  rewrite (cr_specs _ _ Hc). apply Shard_lt, HashSlice_range.
Qed.

Lemma tc_keys st l hs pending i a n : tc_ok st l hs pending → l !! i = Some (a, n) →
  NoDup (key_of <$> order a) ∧ NoDup ((entries a).*1) ∧ ∀ x, x ∈ entries a → x.1 ≠ n.
Proof.
  intros HO Ei. pose proof (tr_cache _ _ _ (to_rel _ _ _ _ HO)) as Hc.
  destruct (client_lookup _ _ i Hc) as (sh & an & hd & _ & E2 & _ & (H1 & H2 & H3 & _)%shard_entries).
  { rewrite <- (cr_specs _ _ Hc). by eapply lookup_lt_Some. }
  rewrite Ei in E2. by injection E2 as <-.
Qed.

Lemma tc_charges st l hs pending i a n x : tc_ok st l hs pending → l !! i = Some (a, n) → x ∈ entries a → 0 ≤ e_charge x.2.
Proof. intros HO Ei Hx. by destruct (tr_entries _ _ _ (to_rel _ _ _ _ HO) i a n x Ei Hx) as (_ & -> & _). Qed.

Lemma handles_of_other i h hs j : h.1 = i → j ≠ i → handles_of j (h :: hs) ≡ₚ handles_of j hs.
Proof. intros Hi Hne. rewrite handles_of_cons, decide_False; [done|]. by rewrite Hi; apply not_eq_sym. Qed.

Lemma tc_Lookup st l hs n :
  tc_ok st l hs [] → zlen hs + 1 < 2 ^ 30 →
  ∃ o st' l', on_cache (λ c, Lookup c (EncodeFixed64 n)) st = Some (o, st') ∧ block_cache_id st' = block_cache_id st ∧
    files (env_ st') = files (env_ st) ∧ (∀ h F, opened (env_ st') h = Some F ↔ opened (env_ st) h = Some F) ∧
    match o with
    | Some h => tc_ok st' l' (h :: hs) [] ∧ keeps_held l l' (h :: hs) ∧ cached l n ∧ ∃ e, at_spec l' h e ∧ e_key e = EncodeFixed64 n
    | None => tc_ok st' l' hs [] ∧ keeps_held l l' hs ∧ ¬ cached l n
    end.
Proof.
  intros HO Hfew. set (key := EncodeFixed64 n). destruct (shard_of st l hs [] key HO) as (a & m & Ei).
  pose proof (to_shard _ _ _ _ HO _ _ _ Ei) as (_ & Hw & Hh). destruct (tc_keys _ _ _ _ _ _ _ HO Ei) as (Hk & _ & _).
  pose proof (cached_shard st l hs [] n a m HO Ei) as Hcached. fold key in Hcached.
  destruct (tc_fits _ _ _ _ _ _ _ HO Ei Hfew) as (_ & _ & _ & Hf).
  pose proof (books_Lookup key (HashSlice key) a Hk) as Hb. pose proof (limit_Lookup key (HashSlice key) a) as Hlim.
  pose proof (order_Lookup_nil key (HashSlice key) a) as Hnil.
  assert (Hx : match (spec_Lookup key (HashSlice key) a).1 with
    | Some x => held (spec_Lookup key (HashSlice key) a).2 = x.1 :: held a ∧ x ∈ order a ∧ matches key (HashSlice key) x
    | None => held (spec_Lookup key (HashSlice key) a).2 = held a ∧ ∀ x, x ∈ order a → ¬ matches key (HashSlice key) x end).
  { unfold spec_Lookup. destruct (find_entry_cases key (HashSlice key) a) as [(x & -> & Hx & Hm)|[-> Hm]]; done. }
  destruct (spec_Lookup key (HashSlice key) a) as [o a'] eqn:Ho. cbn [fst snd] in *.
  destruct (Lookup_ok (cache_ st) l key a m o a' (tr_cache _ _ _ (to_rel _ _ _ _ HO)) Ei Hf Ho) as (c' & EL & HR').
  set (hs' := match o with Some x => (Shard (HashSlice key), x.1) :: hs | None => hs end).
  destruct (on_cache_ok (λ c, Lookup c key) st l hs _ a m a' m [] [] [] _ c' hs' HO Ei EL HR' Hb) as (st' & Es & Hid & HO' & Hfl & Hop & Hkeep);
    [by intros x ?%elem_of_nil|done| | | | | |].
  - eapply within_books; [exact Hb|done|done| |done]. intros x. by eapply tc_charges.
  - unfold hs'. destruct o as [x|]; destruct Hx as [-> _]; [|done]. rewrite handles_of_cons, decide_True by done. by rewrite Hh.
  - intros j Hj. unfold hs'. destruct o; [|done]. by eapply handles_of_other.
  - unfold hs'. destruct o; rewrite ?zlen_cons; [lia|apply HO].
  - unfold hs'. intros h0 Hh0. destruct o; [|by left]. apply elem_of_cons in Hh0 as [->|?]; [by right|by left].
  - exists ((λ x, (Shard (HashSlice key), x.1)) <$> o), st', (<[Shard (HashSlice key) := (a', m)]> l). splits; try done.
    { intros h F. rewrite Hop. split; [by intros []|]. intros; split; [done|by intros ?%elem_of_nil]. }
    destruct o as [x|]; cbn; destruct Hx as [Hx1 Hx2].
    + splits; [done|done|by apply Hcached; exists x|]. destruct Hx2 as [Hx2 [_ Hm]]. exists x.2. split; [|done].
      apply Hkeep; [|by left]. exists a, m. split; [done|]. apply elem_of_app. left. by destruct x.
    + splits; [done|done|]. rewrite Hcached. intros (x & Hin & Hm). by eapply Hx2.
Qed.

(** *** [Insert], [Release] and [Erase] *)

Lemma tc_Insert st l hs n f t (e : Entry) :
  e = {| e_key := EncodeFixed64 n; e_hash := HashSlice (EncodeFixed64 n); e_value := {| file := f; table := t |};
         e_charge := 1; e_deleter := DeleteEntry |} →
  tc_ok st l hs [f] → zlen hs + 1 < 2 ^ 30 → entry_ok (env_ st) e →
  ∃ h st' l', on_cache (λ c, Insert c (EncodeFixed64 n) {| file := f; table := t |} 1 DeleteEntry) st = Some (h, st') ∧
    block_cache_id st' = block_cache_id st ∧ files (env_ st') = files (env_ st) ∧
    (∀ h F, opened (env_ st') h = Some F → opened (env_ st) h = Some F) ∧
    tc_ok st' l' (h :: hs) [] ∧ keeps_held l l' (h :: hs) ∧ at_spec l' h e.
Proof.
  intros He HO Hfew Hok. set (key := EncodeFixed64 n) in *. destruct (shard_of st l hs [f] key HO) as (a & m & Ei).
  pose proof (to_shard _ _ _ _ HO _ _ _ Ei) as (_ & Hw & Hh). destruct (tc_keys _ _ _ _ _ _ _ HO Ei) as (Hk & _ & Hm).
  pose proof (tc_fits _ _ _ _ _ _ _ HO Ei Hfew) as Hf.
  destruct (Insert_ok (cache_ st) l key {| file := f; table := t |} 1 DeleteEntry a m (tr_cache _ _ _ (to_rel _ _ _ _ HO)) Ei Hf) as (c' & EI & HR').
  rewrite <- He in HR'.
  destruct (books_Insert m e a Hk Hm) as [out Hb].
  set (h := (Shard (HashSlice key), m)) in *. assert (Hold : tc_ok st l hs ((file_of_entry <$> [(m, e)]) ++ [])) by by rewrite He.
  destruct (on_cache_ok (λ c, Insert c key {| file := f; table := t |} 1 DeleteEntry) st l hs _ a m _ (S m) [(m, e)] out [] _ c' (h :: hs) Hold Ei EI HR' Hb)
    as (st' & Es & Hid & HO' & Hfl & Hop & Hkeep); [|by apply limit_Insert|by apply within_Insert|..].
  - by intros x ->%list_elem_of_singleton.
  - rewrite held_Insert, handles_of_cons, decide_True by done. by rewrite Hh.
  - intros j Hj. by eapply handles_of_other.
  - rewrite zlen_cons. lia.
  - intros h' [->|?]%elem_of_cons; [by right|by left].
  - exists h, st', (<[Shard (HashSlice key) := (spec_Insert m e a, S m)]> l). splits; try done.
    + intros h' F. rewrite Hop. by intros [].
    + exists (spec_Insert m e a), (S m). rewrite list_lookup_insert_eq by by eapply lookup_lt_Some. split; [done|]. apply Insert_keeps.
Qed.

Lemma tc_Release st l hs h hs' :
  tc_ok st l hs [] → hs ≡ₚ h :: hs' →
  ∃ st' l', UnrefEntry h st = Some ((), st') ∧ block_cache_id st' = block_cache_id st ∧ files (env_ st') = files (env_ st) ∧
    (∀ h F, opened (env_ st') h = Some F → opened (env_ st) h = Some F) ∧ tc_ok st' l' hs' [] ∧ keeps_held l l' hs'.
Proof.
  intros HO Hhs. assert (Hh : h ∈ hs) by (rewrite Hhs; by left).
  destruct (held_shard _ _ _ _ _ HO Hh) as (a & m & Ei). pose proof (to_shard _ _ _ _ HO _ _ _ Ei) as (_ & Hw & Hp).
  destruct (tc_keys _ _ _ _ _ _ _ HO Ei) as (_ & Hnd & _).
  assert (Hp' : held a ≡ₚ h.2 :: handles_of h.1 hs').
  { rewrite Hp. transitivity (handles_of h.1 (h :: hs')); [unfold handles_of; by rewrite Hhs|]. by rewrite handles_of_cons, decide_True. }
  assert (Hin : h.2 ∈ held a) by (rewrite Hp'; by left). apply list_elem_of_lookup in Hin as [j Ej].
  destruct (Release_ok (cache_ st) l h.1 j h.2 a m (tr_cache _ _ _ (to_rel _ _ _ _ HO)) Ei Ej) as (c' & ER & HR').
  destruct (books_Release j a Hnd) as [out Hb]. replace (h.1, h.2) with h in ER by by destruct h.
  destruct (on_cache_ok (λ c, c ← Release c h; Some ((), c)) st l hs _ a m _ m [] out [] () c' hs' HO Ei ltac:(cbv beta; by rewrite ER) HR' Hb)
    as (st' & Es & Hid & HO' & Hfl & Hop & Hkeep); [by intros x ?%elem_of_nil|by apply limit_Release|..].
  - eapply within_books; [exact Hb|by apply limit_Release| | |done]; [by rewrite order_Release|]. intros x. by eapply tc_charges.
  - rewrite held_Release, Ej. rewrite (delete_Permutation _ _ _ Ej) in Hp'. by apply Permutation.Permutation_cons_inv in Hp'.
  - intros j' Hj. transitivity (handles_of j' (h :: hs')); [by rewrite (handles_of_other h.1 h hs' j' eq_refl Hj)|].
    unfold handles_of. by rewrite Hhs.
  - pose proof (to_few _ _ _ _ HO) as Hfew. unfold zlen in *. rewrite Hhs in Hfew. cbn in Hfew. lia.
  - intros h' Hh'. left. rewrite Hhs. by right.
  - eexists st', _. splits; [exact Es|done|done| |exact HO'|exact Hkeep]. intros h' F. rewrite Hop. by intros [].
Qed.

Lemma tc_Erase st l hs n :
  tc_ok st l hs [] →
  ∃ st' l', Evict n st = Some ((), st') ∧ block_cache_id st' = block_cache_id st ∧ files (env_ st') = files (env_ st) ∧
    (∀ h F, opened (env_ st') h = Some F → opened (env_ st) h = Some F) ∧ tc_ok st' l' hs [] ∧ keeps_held l l' hs ∧ ¬ cached l' n.
Proof.
  intros HO. set (key := EncodeFixed64 n). destruct (shard_of st l hs [] key HO) as (a & m & Ei).
  pose proof (to_shard _ _ _ _ HO _ _ _ Ei) as (_ & Hw & Hh). destruct (tc_keys _ _ _ _ _ _ _ HO Ei) as (Hk & _ & _).
  destruct (Erase_ok (cache_ st) l key a m (tr_cache _ _ _ (to_rel _ _ _ _ HO)) Ei) as (c' & EE & HR').
  destruct (books_take_out key (HashSlice key) a Hk) as [out Hb].
  destruct (on_cache_ok (λ c, c ← Erase c key; Some ((), c)) st l hs _ a m _ m [] out [] () c' hs HO Ei ltac:(cbv beta; by rewrite EE) HR' Hb)
    as (st' & Es & Hid & HO' & Hfl & Hop & Hkeep); [by intros x ?%elem_of_nil|by apply limit_take_out|..].
  - eapply within_books; [exact Hb|by apply limit_take_out|by apply order_take_out_nil| |done]. intros x. by eapply tc_charges.
  - by rewrite held_take_out.
  - done.
  - apply HO.
  - by left.
  - eexists st', _. splits; [exact Es|done|done| |exact HO'|exact Hkeep|]; [intros h' F; rewrite Hop; by intros []|].
    rewrite (cached_shard _ _ _ _ n _ m HO') by by rewrite list_lookup_insert_eq by by eapply lookup_lt_Some.
    fold key. intros (x & Hx & Hm). unfold take_out in Hx.
    destruct (find_entry_cases key (HashSlice key) a) as [(y & Ef & Hy & _)|[Ef Hno]]; rewrite Ef in Hx; [|by eapply Hno].
    rewrite order_expel in Hx. cbn in Hx. apply list_elem_of_filter in Hx as [Hx _]. done.
Qed.

(** *** [FindTable] *)

(** The handle leads to a table, whose file reads as [F]. *)
Definition table_of (st : State) l (h : Handle) (F : TableFile) (t : Table) : Prop :=
  ∃ e, at_spec l h e ∧ opened (env_ st) (file (e_value e)) = Some F ∧ table (e_value e) = t.

Lemma table_of_at st l hs pending h F t : tc_ok st l hs pending → table_of st l h F t → table_at h st = Some ((F, t), st).
Proof.
  intros HO (e & He & HF & <-). unfold table_at. rewrite (at_spec_Value _ _ _ _ _ _ HO He). cbn [mbind option_bind]. by rewrite HF.
Qed.

(** The tables of handles that are held stay open, and read the same. *)
Definition stays (st : State) l (st' : State) l' (hs : list Handle) : Prop :=
  ∀ h F t, h ∈ hs → table_of st l h F t → table_of st' l' h F t.

Lemma stays_trans st1 l1 st2 l2 st3 l3 hs : stays st1 l1 st2 l2 hs → stays st2 l2 st3 l3 hs → stays st1 l1 st3 l3 hs.
Proof. intros H1 H2 h F t Hh Ht. apply H2, H1; done. Qed.

Lemma stays_sub st l st' l' hs hs' : stays st l st' l' hs → (∀ h, h ∈ hs' → h ∈ hs) → stays st l st' l' hs'.
Proof. intros H Hs h F t Hh. apply H. by apply Hs. Qed.

Lemma keeps_stays st l st' l' hs pending :
  tc_ok st' l' hs pending → keeps_held l l' hs → (∀ h F, opened (env_ st') h = Some F → opened (env_ st) h = Some F) →
  stays st l st' l' hs.
Proof.
  intros HO Hk Hop h F t Hh (e & He & HF & <-). pose proof (Hk h e He Hh) as He'. exists e. split; [done|]. split; [|done].
  destruct He' as (a & n & Ei & Hx). destruct (tr_entries _ _ _ (to_rel _ _ _ _ HO) _ _ _ _ Ei Hx) as (_ & _ & _ & n' & T & es & F' & id & _ & _ & HF' & _).
  cbn in HF'. pose proof (Hop _ _ HF') as E1. rewrite HF in E1. by injection E1 as ->.
Qed.

Lemma tc_ok_env st l hs pending w pending' ids :
  tc_ok st l hs pending → inv w → files w = files (env_ st) → NoDup (pending' ++ files_of l) →
  (∀ h, is_Some (opened w h) ↔ h ∈ pending' ++ files_of l) →
  (∀ h F, h ∈ files_of l → opened (env_ st) h = Some F → opened w h = Some F) →
  tc_ok {| env_ := w; cache_ := cache_ st; block_cache_id := ids |} l hs pending'.
Proof.
  intros HO Hi Hfl Hnd Hop Hsame. pose proof (to_rel _ _ _ _ HO) as HR. split; try by destruct HO. split; cbn.
  - done.
  - intros n T es f T' Hst Hf HT. rewrite Hfl in HT. by eapply (tr_files _ _ _ HR).
  - by destruct HR.
  - intros i a n x Ei Hx. apply (entry_ok_mono (env_ st)); [by eapply (tr_entries _ _ _ HR)|]. intros F. apply Hsame. by eapply elem_files_of.
  - done.
  - done.
Qed.

Lemma tc_New st l hs f T :
  tc_ok st l hs [] → files (env_ st) !! f = Some T →
  ∃ h F st', in_env (NewRandomAccessFile f) st = Some (inr h, st') ∧ block_cache_id st' = block_cache_id st ∧
    tc_ok st' l hs [h] ∧ files (env_ st') = files (env_ st) ∧ opened (env_ st') h = Some F ∧ TableFileLaws F T ∧ stays st l st' l hs.
Proof.
  intros HO HT. pose proof (to_rel _ _ _ _ HO) as HR. pose proof (rl_New f (env_ st) (tr_inv _ _ _ HR)) as H. rewrite HT in H.
  destruct H as (h & F & w & En & Hi & Hfl & Hnone & HF & Hop).
  assert (Hnot : h ∉ files_of l).
  { intros Hin. assert (is_Some (opened (env_ st) h)) as [F' HF'] by by apply (tr_opened _ _ _ HR). by rewrite Hnone in HF'. }
  exists h, F. eexists. split; [unfold in_env; rewrite En; done|]. cbn. splits; [done| |done|by apply Hop; right|done|].
  - eapply tc_ok_env; [exact HO|done|done| | |].
    + cbn. apply list.NoDup_cons. split; [done|]. apply (tr_nodup _ _ _ HR).
    + intros h'. cbn. rewrite elem_of_cons, <- (tr_opened _ _ _ HR h'). unfold is_Some. setoid_rewrite Hop. split.
      * intros [F' [?|[-> _]]]; [right; by exists F'|by left].
      * intros [->|[F' ?]]; [exists F; by right|exists F'; by left].
    + intros h' F' _ HF'. apply Hop. by left.
  - intros h' F' t _ (e & He & HF' & Ht). exists e. split; [done|]. split; [|done]. apply Hop. by left.
Qed.

Lemma tc_New_missing st l hs f :
  tc_ok st l hs [] → files (env_ st) !! f = None → ∃ s, in_env (NewRandomAccessFile f) st = Some (inl s, st) ∧ ok s = false.
Proof.
  intros HO HT. pose proof (to_rel _ _ _ _ HO) as HR. pose proof (rl_New f (env_ st) (tr_inv _ _ _ HR)) as H. rewrite HT in H.
  destruct H as (s & En & Hs). exists s. split; [|done]. unfold in_env. rewrite En. cbn. by destruct st.
Qed.

Lemma tc_Open st l hs n T es h F :
  tc_ok st l hs [h] → stored n = Some (T, es) → opened (env_ st) h = Some F → TableFileLaws F T →
  ∃ t st', Open char_signed options h (zlen T) st = Some (inr t, st') ∧ env_ st' = env_ st ∧ tc_ok st' l hs [h] ∧
    Table_Open (F := F) char_signed (next_id st) options (zlen T) = Some (inr t) ∧ stays st l st' l hs.
Proof.
  intros HO Hst HF HL. destruct (stored_reads n T es Hst) as [_ Hr].
  destruct (Hr F HL char_signed (next_id st)) as (t & Ht & _). exists t. eexists. unfold Open. rewrite HF. cbn [mbind option_bind].
  rewrite Ht. cbn [mbind option_bind]. split; [done|]. cbn. pose proof (to_rel _ _ _ _ HO) as HR. splits; [done| |done|by intros h' F' t' _ Ht'].
  eapply tc_ok_env; [exact HO|by destruct HR..|done].
Qed.

(** The file is there, under one of the two names. *)
Definition on_disk (w : W) (n : Z) : Prop :=
  is_Some (files w !! TableFileName dbname n) ∨ is_Some (files w !! SSTTableFileName dbname n).

Abbreviation FindTable := (FindTable char_signed dbname options).

(** Opening the file of a number. *)
Lemma tc_open_file st l hs n T es :
  tc_ok st l hs [] → stored n = Some (T, es) → on_disk (env_ st) n →
  ∃ h F st', (r ← in_env (NewRandomAccessFile (TableFileName dbname n));
      match r with
      | inr f => mret (inr f)
      | inl s => r ← in_env (NewRandomAccessFile (SSTTableFileName dbname n)); mret (match r with inr f => inr f | inl _ => inl s end)
      end) st = Some (inr h, st') ∧ block_cache_id st' = block_cache_id st ∧
    tc_ok st' l hs [h] ∧ files (env_ st') = files (env_ st) ∧ opened (env_ st') h = Some F ∧ TableFileLaws F T ∧ stays st l st' l hs.
Proof.
  intros HO Hst Hd. pose proof (tr_files _ _ _ (to_rel _ _ _ _ HO)) as Hfr.
  destruct (files (env_ st) !! TableFileName dbname n) as [T1|] eqn:E1.
  - rewrite (Hfr n T es _ T1 Hst (or_introl eq_refl) E1) in E1. destruct (tc_New st l hs _ T HO E1) as (h & F & st' & En & H).
    exists h, F, st'. split; [|done]. by rewrite (M_bind_Some _ _ _ _ _ En).
  - destruct Hd as [[? Hd]|[T2 E2]]; [by rewrite E1 in Hd|]. rewrite (Hfr n T es _ T2 Hst (or_intror eq_refl) E2) in E2.
    destruct (tc_New_missing st l hs _ HO E1) as (s & Es & _). destruct (tc_New st l hs _ T HO E2) as (h & F & st' & En & H).
    exists h, F, st'. split; [|done]. by rewrite (M_bind_Some _ _ _ _ _ Es), (M_bind_Some _ _ _ _ _ En).
Qed.

Lemma bind_assoc {A B X} (m : M State A) (f : A → M State B) (g : B → M State X) st r st' b :
  (m ≫= f) st = Some (b, st') → g b st' = r → (m ≫= λ v, f v ≫= g) st = r.
Proof. unfold mbind, M_bind. destruct (m st) as [[a s1]|]; [|done]. by intros -> <-. Qed.

Lemma EncodeFixed64_inj n m : in_w 64 n → in_w 64 m → EncodeFixed64 n = EncodeFixed64 m → n = m.
Proof.
  intros Hn Hm Heq. rewrite <- (DecodeFixed64_EncodeFixed64 n []), <- (DecodeFixed64_EncodeFixed64 m []) by done. by rewrite Heq.
Qed.

(** A table that is cached, or whose file is there, is found; the handle is one
    more for the client to release. *)
Lemma tc_FindTable st l hs n T es :
  tc_ok st l hs [] → zlen hs + 1 < 2 ^ 30 → stored n = Some (T, es) → cached l n ∨ on_disk (env_ st) n →
  ∃ h F t id st' l', FindTable n (zlen T) st = Some ((Status_OK, Some h), st') ∧ tc_ok st' l' (h :: hs) [] ∧
    files (env_ st') = files (env_ st) ∧ stays st l st' l' hs ∧ table_of st' l' h F t ∧ TableFileLaws F T ∧
    Table_Open (F := F) char_signed id options (zlen T) = Some (inr t).
Proof.
  intros HO Hfew Hst Havail. destruct (stored_reads n T es Hst) as [Hn _].
  destruct (tc_Lookup st l hs n HO Hfew) as (o & st1 & l1 & EL & _ & Hfl1 & Hop1 & H). unfold TableCache.FindTable. cbn zeta.
  rewrite (M_bind_Some _ _ _ _ _ EL). destruct o as [h|].
  - destruct H as (HO1 & Hk & _ & e & He & Hkey). destruct He as (a & m & Ei & Hx).
    destruct (tr_entries _ _ _ (to_rel _ _ _ _ HO1) _ _ _ _ Ei Hx) as (_ & _ & _ & n' & T' & es' & F & id & Hst' & Hkey' & HF & HL & Ht).
    cbn in Hkey', HF, Ht. destruct (stored_reads n' T' es' Hst') as [Hn' _].
    assert (n' = n) as -> by (apply EncodeFixed64_inj; congruence). rewrite Hst in Hst'. injection Hst' as <- <-.
    exists h, F, (table (e_value e)), id, st1, l1. splits; try done; [|by exists e; split; [exists a, m|]].
    apply (stays_sub _ _ _ _ (h :: hs)); [|by right]. eapply keeps_stays; [done|done|]. intros h' F'. by apply Hop1.
  - destruct H as (HO1 & Hk & Hnc). destruct Havail as [?|Hd]; [done|].
    assert (Hd1 : on_disk (env_ st1) n) by (unfold on_disk; by rewrite Hfl1).
    destruct (tc_open_file st1 l1 hs n T es HO1 Hst Hd1) as (f & F & st2 & Eo & _ & HO2 & Hfl2 & HF & HL & Hs2).
    destruct (tc_Open st2 l1 hs n T es f F HO2 Hst HF HL) as (t & st3 & Et & Henv & HO3 & Ht & Hs3).
    set (e := {| e_key := EncodeFixed64 n; e_hash := HashSlice (EncodeFixed64 n); e_value := {| file := f; table := t |};
                 e_charge := 1; e_deleter := DeleteEntry |}).
    destruct (tc_Insert st3 l1 hs n f t e eq_refl HO3 Hfew) as (h & st4 & l4 & EI & _ & Hfl4 & Hop4 & HO4 & Hk4 & He).
    { split; [done|]. split; [done|]. split; [done|]. exists n, T, es, F, (next_id st2). rewrite Henv. splits; done. }
    exists h, F, t, (next_id st2), st4, l4. splits; try done.
    + eapply bind_assoc; [exact Eo|]. cbv beta iota. rewrite (M_bind_Some _ _ _ _ _ Et). cbv beta iota. by rewrite (M_bind_Some _ _ _ _ _ EI).
    + by rewrite Hfl4, Henv, Hfl2, Hfl1.
    + apply (stays_trans _ _ st1 l1); [eapply keeps_stays; [done|done|]; intros h' F'; by apply Hop1|].
      apply (stays_trans _ _ st2 l1); [done|]. apply (stays_trans _ _ st3 l1); [done|].
      apply (stays_sub _ _ _ _ (h :: hs)); [|by right]. by eapply keeps_stays.
    + exists e. split; [done|]. split; [|done]. cbn. destruct He as (a & m & Ei & Hx).
      destruct (tr_entries _ _ _ (to_rel _ _ _ _ HO4) _ _ _ _ Ei Hx) as (_ & _ & _ & _ & _ & _ & F' & _ & _ & _ & HF' & _).
      cbn in HF'. pose proof (Hop4 _ _ HF') as E4. rewrite Henv, HF in E4. by injection E4 as ->.
Qed.

(** Otherwise the error is that of the first name; nothing is cached and no file
    is left open. *)
Lemma tc_FindTable_missing st l hs n size :
  tc_ok st l hs [] → zlen hs + 1 < 2 ^ 30 → ¬ cached l n → ¬ on_disk (env_ st) n →
  ∃ s st' l', FindTable n size st = Some ((s, None), st') ∧ ok s = false ∧ tc_ok st' l' hs [] ∧
    files (env_ st') = files (env_ st) ∧ stays st l st' l' hs ∧ (∀ h F, opened (env_ st') h = Some F ↔ opened (env_ st) h = Some F).
Proof.
  intros HO Hfew Hnc Hd. destruct (tc_Lookup st l hs n HO Hfew) as (o & st1 & l1 & EL & _ & Hfl1 & Hop1 & H).
  unfold TableCache.FindTable. cbn zeta. rewrite (M_bind_Some _ _ _ _ _ EL). destruct o as [h|]; [by destruct H as (_ & _ & ? & _)|].
  destruct H as (HO1 & Hk & _).
  destruct (tc_New_missing st1 l1 hs (TableFileName dbname n) HO1) as (s & Es & Hs).
  { rewrite Hfl1. destruct (files (env_ st) !! TableFileName dbname n) eqn:E1; [|done]. destruct Hd. left. by rewrite E1. }
  destruct (tc_New_missing st1 l1 hs (SSTTableFileName dbname n) HO1) as (s2 & Es2 & _).
  { rewrite Hfl1. destruct (files (env_ st) !! SSTTableFileName dbname n) eqn:E1; [|done]. destruct Hd. right. by rewrite E1. }
  exists s, st1, l1. splits; try done.
  - rewrite (M_bind_Some _ _ _ _ _ Es). cbv beta iota. erewrite M_bind_Some; [|by rewrite (M_bind_Some _ _ _ _ _ Es2)]. done.
  - eapply keeps_stays; [done|done|]. intros h F. by apply Hop1.
Qed.

(** *** Iterators *)

Definition ti_shows (block_cache : option (bytes → option Block)) (it : TableIter) (es : list entry) (p : option nat) : Prop :=
  shows (II := ti_ops block_cache it) V (ti_iter it) es p.

#[export] Instance TableIter_laws block_cache :
  IteratorLaws (II := TableIter_Iterator block_cache) TableIter V (ti_shows block_cache).
Proof.
  assert (L : ∀ it, IteratorLaws (II := ti_ops block_cache it) _ V (shows (II := ti_ops block_cache it) V)) by (intros it; apply shows_laws).
  assert (Hset : ∀ it o es q, (∃ i, o = Some i ∧ shows (II := ti_ops block_cache it) V i es q) →
    ∃ it', ti_set it <$> o = Some it' ∧ ti_shows block_cache it' es q).
  { intros it o es q (i & -> & Hi). exists (ti_set it i). split; [done|exact Hi]. }
  split; intros it es.
  - intros p HR. exact (rel_sorted (IteratorLaws := L it) _ es p HR).
  - intros i HR. exact (rel_in (IteratorLaws := L it) _ es i HR).
  - intros p HR. exact (rel_Valid (IteratorLaws := L it) _ es p HR).
  - intros i e HR. exact (rel_key (IteratorLaws := L it) _ es i e HR).
  - intros i e HR. exact (rel_value (IteratorLaws := L it) _ es i e HR).
  - intros p HR. exact (rel_status (IteratorLaws := L it) _ es p HR).
  - intros p HR. apply Hset. exact (rel_SeekToFirst (IteratorLaws := L it) _ es p HR).
  - intros p HR. apply Hset. exact (rel_SeekToLast (IteratorLaws := L it) _ es p HR).
  - intros p k HR Vk. apply Hset. exact (rel_Seek (IteratorLaws := L it) _ es p k HR Vk).
  - intros i HR. apply Hset. exact (rel_Next (IteratorLaws := L it) _ es i HR).
  - intros i HR. apply Hset. exact (rel_Prev (IteratorLaws := L it) _ es i HR).
Qed.

Abbreviation NewIterator := (NewIterator char_signed dbname options).
Abbreviation Get := (Get char_signed dbname options).

(** What is in the block cache is right for the table that a call finds. *)
Definition blocks_right (block_cache : option (bytes → option Block)) st n (T : bytes) : Prop :=
  ∀ h st' F t, FindTable n (zlen T) st = Some ((Status_OK, Some h), st') → table_at h st' = Some ((F, t), st') →
    cache_ok (F := F) (cache_id t) block_cache.

Lemma blocks_right_None st n T : blocks_right None st n T.
Proof. by intros h st' F t _ _ Lookup off block. Qed.

(** The id in a table is the one that it was opened with. *)
Lemma Table_Open_id {F : TableFile} id size t : Table_Open (F := F) char_signed id options size = Some (inr t) → cache_id t = id.
Proof.
  unfold Table_Open. destruct (decide _); [done|]. destruct (Format.Read _ _) as [s fi]. destruct (negb (ok s)); [done|].
  destruct (footer_DecodeFrom fi) as [[?|[footer ?]]|]; cbn [mbind option_bind]; [done| |done].
  destruct (ReadBlock _ _) as [[?|c]|]; cbn [mbind option_bind]; [done| |done].
  destruct (ReadMeta _ _ _) as [filter|]; cbn [mbind option_bind]; [|done]. intros Heq. apply (inj Some) in Heq. by apply (inj inr) in Heq as <-.
Qed.

Lemma tc_Get block_cache ro st l hs n T es k :
  tc_ok st l hs [] → zlen hs + 1 < 2 ^ 30 → stored n = Some (T, es) → cached l n ∨ on_disk (env_ st) n →
  blocks_right block_cache st n T → V k →
  ∃ saved st' l', Get block_cache ro n (zlen T) k st = Some ((Status_OK, saved), st') ∧ tc_ok st' l' hs [] ∧
    files (env_ st') = files (env_ st) ∧ stays st l st' l' hs ∧
    (∀ e, head (entries_from es k) = Some e → found_as (V := V) options k e.1 → saved = Some e) ∧
    (∀ e, saved = Some e → head (entries_from es k) = Some e).
Proof.
  intros HO Hfew Hst Ha Hbr Vk.
  destruct (tc_FindTable st l hs n T es HO Hfew Hst Ha) as (h & F & t & id & st1 & l1 & EF & HO1 & Hfl1 & Hs1 & Ht & HL & Hopen).
  pose proof (table_of_at _ _ _ _ _ _ _ HO1 Ht) as Hat. destruct (stored_reads n T es Hst) as [_ Hr].
  destruct (Hr F HL char_signed id) as (t' & Ht' & Hread). assert (t' = t) as -> by congruence.
  assert (Hbc : cache_ok (F := F) id block_cache) by (rewrite <- (Table_Open_id _ _ _ Hopen); by eapply Hbr).
  destruct (Hread block_cache (verify_checksums ro) Hbc) as [_ Hget].
  destruct (Hget k Vk) as (saved & Eg & Hsaved). destruct (tc_Release st1 l1 (h :: hs) h hs HO1 (reflexivity _)) as (st2 & l2 & ER & _ & Hfl2 & Hop2 & HO2 & Hk2).
  exists saved, st2, l2. splits; [|done|by rewrite Hfl2| |by apply Hsaved..].
  - unfold TableCache.Get. rewrite (M_bind_Some _ _ _ _ _ EF). cbv beta iota. rewrite (M_bind_Some _ _ _ _ _ Hat). cbv beta iota.
    unfold M_lift. rewrite (M_bind_Some _ _ _ (Status_OK, saved) st1) by by rewrite Eg. by rewrite (M_bind_Some _ _ _ _ _ ER).
  - apply (stays_trans _ _ st1 l1); [done|]. by eapply keeps_stays.
Qed.

(** The iterators of clients: each has one handle, whose table is its own. *)
Definition iter_ok st l (it : TableIter) : Prop := ∃ h, ti_cleanups it = [h] ∧ table_of st l h (ti_file it) (ti_table it).

Lemma tc_NewIterator block_cache ro st l hs n T es :
  tc_ok st l hs [] → zlen hs + 1 < 2 ^ 30 → stored n = Some (T, es) → cached l n ∨ on_disk (env_ st) n →
  blocks_right block_cache st n T →
  ∃ it p st' l', NewIterator ro n (zlen T) st = Some ((inr it, Some (ti_table it)), st') ∧ tc_ok st' l' (ti_cleanups it ++ hs) [] ∧
    files (env_ st') = files (env_ st) ∧ stays st l st' l' hs ∧ iter_ok st' l' it ∧ ti_shows block_cache it es p.
Proof.
  intros HO Hfew Hst Ha Hbr.
  destruct (tc_FindTable st l hs n T es HO Hfew Hst Ha) as (h & F & t & id & st1 & l1 & EF & HO1 & Hfl1 & Hs1 & Ht & HL & Hopen).
  pose proof (table_of_at _ _ _ _ _ _ _ HO1 Ht) as Hat. destruct (stored_reads n T es Hst) as [_ Hr].
  destruct (Hr F HL char_signed id) as (t' & Ht' & Hread). assert (t' = t) as -> by congruence.
  assert (Hbc : cache_ok (F := F) id block_cache) by (rewrite <- (Table_Open_id _ _ _ Hopen); by eapply Hbr).
  destruct (Hread block_cache (verify_checksums ro) Hbc) as [(tl & Htl & p & Hsh) _].
  exists {| ti_file := F; ti_table := t; ti_verify := verify_checksums ro; ti_iter := tl; ti_cleanups := [h] |}, p, st1, l1.
  splits; [|done|done|done|by exists h|exact Hsh].
  unfold TableCache.NewIterator. rewrite (M_bind_Some _ _ _ _ _ EF). cbv beta iota. rewrite (M_bind_Some _ _ _ _ _ Hat). cbv beta iota.
  unfold M_lift. by rewrite (M_bind_Some _ _ _ tl st1) by by rewrite Htl.
Qed.

Lemma tc_delete_iter st l hs hs' it :
  tc_ok st l hs [] → iter_ok st l it → hs ≡ₚ ti_cleanups it ++ hs' →
  ∃ st' l', delete_TableIter it st = Some ((), st') ∧ files (env_ st') = files (env_ st) ∧ tc_ok st' l' hs' [] ∧ stays st l st' l' hs'.
Proof.
  intros HO (h & Hc & _) Hhs. rewrite Hc in Hhs.
  destruct (tc_Release st l hs h hs' HO Hhs) as (st' & l' & ER & _ & Hfl & Hop & HO' & Hk). exists st', l'. splits; [|done|done|by eapply keeps_stays].
  unfold delete_TableIter. rewrite Hc. cbn. exact ER.
Qed.

(** *** Clients *)

(** A client with its iterators. It asks for tables by their numbers and sizes,
    moves and deletes its iterators, and evicts tables; between its calls the
    files change as they may, but for those that are open for random access. *)
Inductive tc_step : State * list TableIter → State * list TableIter → Prop :=
  | step_Get block_cache ro n T es k r st st' its :
      stored n = Some (T, es) → zlen its + 1 < 2 ^ 30 → blocks_right block_cache st n T → V k →
      Get block_cache ro n (zlen T) k st = Some (r, st') → tc_step (st, its) (st', its)
  | step_NewIterator ro n T es r t st st' its :
      stored n = Some (T, es) → zlen its + 1 < 2 ^ 30 →
      NewIterator ro n (zlen T) st = Some ((r, t), st') →
      tc_step (st, its) (st', match r with inr it => it :: its | inl _ => its end)
  | step_move j it i st its : its !! j = Some it → tc_step (st, its) (st, <[j := ti_set it i]> its)
  | step_delete j it st st' its : its !! j = Some it → delete_TableIter it st = Some ((), st') → tc_step (st, its) (st', delete j its)
  | step_Evict n st st' its : Evict n st = Some ((), st') → tc_step (st, its) (st', its)
  | step_files w st its :
      inv w → files_right w → (∀ h F, opened w h = Some F ↔ opened (env_ st) h = Some F) →
      tc_step (st, its) ({| env_ := w; cache_ := cache_ st; block_cache_id := block_cache_id st |}, its).

Definition client_ok (s : State * list TableIter) : Prop :=
  ∃ l, tc_ok s.1 l (concat (ti_cleanups <$> s.2)) [] ∧ ∀ it, it ∈ s.2 → iter_ok s.1 l it.

Lemma few_handles st l its : (∀ it, it ∈ its → iter_ok st l it) → zlen (concat (ti_cleanups <$> its)) = zlen its.
Proof.
  induction its as [|it its IH]; intros Hi; [done|]. cbn. rewrite zlen_app, zlen_cons, IH by (intros; apply Hi; by right).
  destruct (Hi it) as (h & -> & _); [by left|]. done.
Qed.

Lemma iters_stay st l st' l' its :
  stays st l st' l' (concat (ti_cleanups <$> its)) → (∀ it, it ∈ its → iter_ok st l it) → ∀ it, it ∈ its → iter_ok st' l' it.
Proof.
  intros Hs Hi it Hit. destruct (Hi it Hit) as (h & Hc & Ht). exists h. split; [done|]. apply Hs; [|done].
  apply elem_of_concat. exists (ti_cleanups it). split; [rewrite Hc; by left|]. by apply list_elem_of_fmap_2.
Qed.

Lemma cached_dec st l hs n : tc_ok st l hs [] → zlen hs + 1 < 2 ^ 30 →
  (cached l n ∨ on_disk (env_ st) n) ∨ (¬ cached l n ∧ ¬ on_disk (env_ st) n).
Proof.
  intros HO Hfew. destruct (tc_Lookup st l hs n HO Hfew) as ([h|] & st1 & l1 & _ & _ & _ & _ & H).
  - left; left. by destruct H as (_ & _ & ? & _).
  - destruct H as (_ & _ & Hnc). destruct (files (env_ st) !! TableFileName dbname n) as [T1|] eqn:E1.
    { left; right; left. by exists T1. }
    destruct (files (env_ st) !! SSTTableFileName dbname n) as [T2|] eqn:E2; [left; right; right; by exists T2|].
    right. split; [done|]. intros [[? ?]|[? ?]]; congruence.
Qed.

Lemma tc_step_ok s s' : client_ok s → tc_step s s' → client_ok s'.
Proof.
  intros (l & HO & Hi) Hstep. destruct Hstep as [bc ro n T es k r st st' its Hst Hfew Hbr Vk EG|ro n T es r t st st' its Hst Hfew EN|
    j it i st its Hj|j it st st' its Hj ED|n st st' its EE|w st its Hw Hfr Hop]; unfold client_ok; cbn [fst snd] in *.
  - assert (Hfew' : zlen (concat (ti_cleanups <$> its)) + 1 < 2 ^ 30) by by rewrite (few_handles _ _ _ Hi).
    destruct (cached_dec _ _ _ n HO Hfew') as [Ha|[Hnc Hd]].
    + destruct (tc_Get bc ro st l _ n T es k HO Hfew' Hst Ha Hbr Vk) as (saved & st1 & l1 & E1 & HO1 & _ & Hs & _).
      rewrite E1 in EG. injection EG as <- <-. exists l1. split; [done|]. by eapply iters_stay.
    + destruct (tc_FindTable_missing st l _ n (zlen T) HO Hfew' Hnc Hd) as (s & st1 & l1 & E1 & _ & HO1 & _ & Hs & _).
      unfold TableCache.Get in EG. rewrite (M_bind_Some _ _ _ _ _ E1) in EG. injection EG as <- <-.
      exists l1. split; [done|]. by eapply iters_stay.
  - assert (Hfew' : zlen (concat (ti_cleanups <$> its)) + 1 < 2 ^ 30) by by rewrite (few_handles _ _ _ Hi).
    destruct (cached_dec _ _ _ n HO Hfew') as [Ha|[Hnc Hd]].
    + destruct (tc_NewIterator None ro st l _ n T es HO Hfew' Hst Ha (blocks_right_None _ _ _)) as (it & p & st1 & l1 & E1 & HO1 & _ & Hs & Hit & _).
      rewrite E1 in EN. injection EN as <- <- <-. exists l1. split; [done|]. intros it' [->|Hin]%elem_of_cons; [done|]. by eapply iters_stay.
    + destruct (tc_FindTable_missing st l _ n (zlen T) HO Hfew' Hnc Hd) as (s & st1 & l1 & E1 & _ & HO1 & _ & Hs & _).
      unfold TableCache.NewIterator in EN. rewrite (M_bind_Some _ _ _ _ _ E1) in EN. injection EN as <- <- <-.
      exists l1. split; [done|]. by eapply iters_stay.
  - assert (Hcl : ti_cleanups <$> <[j := ti_set it i]> its = ti_cleanups <$> its).
    { rewrite list_fmap_insert. apply list_insert_id. by rewrite list_lookup_fmap, Hj. }
    exists l. rewrite Hcl. split; [done|]. intros it' Hin. apply list_elem_of_lookup in Hin as [j' Hj'].
    destruct (decide (j' = j)) as [->|Hne].
    + rewrite list_lookup_insert_eq in Hj' by by eapply lookup_lt_Some. injection Hj' as <-. apply (Hi it). by eapply list_elem_of_lookup_2.
    + rewrite list_lookup_insert_ne in Hj' by done. apply Hi. by eapply list_elem_of_lookup_2.
  - assert (Hp : its ≡ₚ it :: delete j its) by by apply delete_Permutation.
    assert (Hcl : concat (ti_cleanups <$> its) ≡ₚ ti_cleanups it ++ concat (ti_cleanups <$> delete j its)) by by rewrite Hp at 1.
    destruct (tc_delete_iter st l _ _ it HO (Hi it ltac:(by eapply list_elem_of_lookup_2)) Hcl) as (st1 & l1 & E1 & _ & HO1 & Hs).
    rewrite E1 in ED. injection ED as <-. exists l1. split; [done|]. eapply iters_stay; [done|]. intros it' Hin. apply Hi. rewrite Hp. by right.
  - destruct (tc_Erase st l _ n HO) as (st1 & l1 & E1 & _ & _ & Hop & HO1 & Hk & _). rewrite E1 in EE. injection EE as <-.
    exists l1. split; [done|]. eapply iters_stay; [by eapply keeps_stays|done].
  - exists l. pose proof (to_rel _ _ _ _ HO) as HR. split.
    + split; try by destruct HO. split; cbn; try by destruct HR.
      * intros i a n x Ei Hx. apply (entry_ok_mono (env_ st)); [by eapply (tr_entries _ _ _ HR)|]. intros F. apply Hop.
      * intros h. rewrite <- (tr_opened _ _ _ HR). unfold is_Some. by setoid_rewrite Hop.
    + intros it Hit. destruct (Hi it Hit) as (h & Hc & e & He & HF & Ht). exists h. split; [done|]. exists e. split; [done|]. split; [|done]. by apply Hop.
Qed.

Lemma new_client_ok w ids : inv w → files_right w → (∀ h, opened w h = None) → client_ok (new_TableCache capacity ids w, []).
Proof.
  intros Hi Hfr Hno. exists (new_specs capacity).
  assert (Hl : ∀ i a n, new_specs (V := TableAndFile) (D := Deleter) capacity !! i = Some (a, n) →
    a = new_spec (usize (capacity + (kNumShards - 1)) / kNumShards)).
  { intros i a n [Heq _]%lookup_replicate. by injection Heq as -> _. }
  split; [|by intros it ?%elem_of_nil]. split.
  - split; cbn; [done|done|apply new_client_rel| |constructor|].
    + intros i a n x Ei Hx. rewrite (Hl _ _ _ Ei) in Hx. by apply elem_of_nil in Hx.
    + intros h. rewrite Hno. split; [by intros []|by intros ?%elem_of_nil].
  - intros i a n Ei. rewrite (Hl _ _ _ Ei). splits; [done|by left|done].
  - done.
  - by intros h ?%elem_of_nil.
Qed.

(** *** How many files are open *)

Lemma handles_of_seq_other (h : Handle) hs start len :
  (∀ i, i ∈ seq start len → i ≠ h.1) →
  (λ i, handles_of i (h :: hs)) <$> seq start len = (λ i, handles_of i hs) <$> seq start len.
Proof.
  intros Hne. apply list_fmap_ext. intros k i Hi. rewrite handles_of_cons, decide_False; [done|].
  intros Heq. by apply (Hne i (list_elem_of_lookup_2 _ _ _ Hi)).
Qed.

(** Every handle is one of its shard. *)
Lemma length_handles N (hs : list Handle) :
  (∀ h, h ∈ hs → (h.1 < N)%nat) → length (concat ((λ i, handles_of i hs) <$> seq 0 N)) = length hs.
Proof.
  induction hs as [|h hs IH]; intros HN.
  - clear. generalize 0%nat. induction N as [|N IHN]; intros start; [done|]. cbn. by rewrite IHN.
  - change (length (h :: hs)) with (S (length hs)). rewrite <- IH by (intros; apply HN; by right). pose proof (HN h ltac:(by left)) as Hh.
    replace N with (h.1 + S (N - S h.1))%nat by lia. rewrite seq_app. cbn [seq Nat.add]. rewrite !fmap_app, !fmap_cons, !concat_app. cbn [concat].
    rewrite !length_app.
    rewrite !handles_of_seq_other by (intros i Hi%elem_of_seq; lia). rewrite handles_of_cons, decide_True by done.
    cbn [length]. lia.
Qed.

Lemma tc_open_files st l hs pending : tc_ok st l hs pending → zlen (files_of l) ≤ capacity + 15 + zlen hs.
Proof.
  intros HO. pose proof (tr_cache _ _ _ (to_rel _ _ _ _ HO)) as Hc. pose proof (cr_specs _ _ Hc) as Hlen.
  set (cap := usize (capacity + (kNumShards - 1)) / kNumShards).
  assert (Hcap : 0 ≤ cap ∧ 16 * cap ≤ capacity + 15).
  { unfold cap, kNumShards, kNumShardBits. change (2 ^ 4) with 16. rewrite wrap_small by word_solve. split; [apply Z.div_pos; lia|].
    rewrite Z.mul_comm. transitivity (capacity + (16 - 1)); [|lia]. rewrite Z.mul_comm. apply Z.mul_div_le. lia. }
  assert (Hheld : zlen (concat (held ∘ fst <$> l)) = zlen hs).
  { unfold zlen. f_equal. rewrite <- (length_handles (length l) hs) by (rewrite Hlen; apply HO).
    assert (Hp : ∀ k (l' : list (Spec * nat)), (∀ i a n, l' !! i = Some (a, n) → held a ≡ₚ handles_of (k + i) hs) →
      concat (held ∘ fst <$> l') ≡ₚ concat ((λ i, handles_of i hs) <$> seq k (length l'))).
    { intros k l'. revert k. induction l' as [|[a n] l' IH]; intros k Hl; [done|]. cbn.
      rewrite (Hl 0%nat a n eq_refl), Nat.add_0_r. rewrite (IH (S k)); [done|]. intros i a' n' Hi.
      rewrite (Hl (S i) a' n' Hi). by replace (k + S i)%nat with (S k + i)%nat by lia. }
    apply Permutation_length, Hp. intros i a n Ei. apply (to_shard _ _ _ _ HO _ _ _ Ei). }
  assert (Hsum : ∀ l' : list (Spec * nat), (∀ a n, (a, n) ∈ l' → zlen (entries a) ≤ cap + zlen (held a)) →
    zlen (files_of l') ≤ zlen l' * cap + zlen (concat (held ∘ fst <$> l'))).
  { induction l' as [|[a n] l' IH]; intros Hl; [done|]. unfold files_of in *. cbn. rewrite !zlen_app, zlen_cons.
    assert (zlen (file_of_entry <$> entries a) = zlen (entries a)) as -> by (unfold zlen; by rewrite length_fmap).
    pose proof (Hl a n ltac:(by left)). specialize (IH ltac:(intros; eapply Hl; by right)). lia. }
  specialize (Hsum l). rewrite Hheld in Hsum.
  assert (zlen l = 16) as Hl16 by (unfold zlen; by rewrite Hlen). rewrite Hl16 in Hsum.
  enough (Hall : ∀ a n, (a, n) ∈ l → zlen (entries a) ≤ cap + zlen (held a)) by (specialize (Hsum Hall); lia).
  intros a n [i Ei]%list_elem_of_lookup. destruct (to_shard _ _ _ _ HO _ _ _ Ei) as (Hl & Hw & _).
  pose proof (tc_usage _ _ _ _ _ _ _ HO Ei) as Hu. destruct (tc_held _ _ _ _ _ _ _ HO Ei) as [_ Hd]. pose proof (zlen_nonneg (held a)).
  destruct Hw as [Ho|Hw]; [|fold cap in Hl; lia]. unfold entries. rewrite Ho. cbn. lia.
Qed.

(** The destructor closes what is left. *)
Lemma tc_delete st l :
  tc_ok st l [] [] → ∃ st', delete_TableCache st = Some ((), st') ∧ files (env_ st') = files (env_ st) ∧ ∀ h, opened (env_ st') h = None.
Proof.
  intros HO. pose proof (to_rel _ _ _ _ HO) as HR. pose proof (tr_cache _ _ _ HR) as Hc.
  assert (Hheld : Forall (λ an : Spec * nat, held an.1 = []) l).
  { apply list.Forall_lookup. intros i [a n] Ei. destruct (to_shard _ _ _ _ HO _ _ _ Ei) as (_ & _ & Hp). by apply Permutation_nil_r in Hp. }
  destruct (delete_shards_spec _ _ _ Hc Hheld) as (c' & Ec & Hall).
  assert (Hcalls : calls (cache_ st) c' = gone_entries (concat (order ∘ fst <$> l))).
  { unfold calls.
    assert (Hold : Forall2 (λ (sh : LRUCache * Heap) (an : Spec * nat), deleted sh.2 = gone an.1) (shard_ (cache_ st)) l).
    { apply Forall2_same_length_lookup. split; [by rewrite (cr_specs _ _ Hc), <- (cr_shards _ _ Hc)|]. intros i sh an E1 E2.
      destruct (client_lookup _ _ i Hc) as (sh' & an' & hd & E1' & E2' & _ & (_ & _ & _ & _ & Hd)%shard_entries).
      { rewrite <- (cr_specs _ _ Hc). by eapply lookup_lt_Some. }
      cbn in E1'. congruence. }
    revert Hall. generalize (shard_ c'). clear - Hold. induction Hold as [|sh an ss l Hd _ IH]; intros ss' Hall; [by inversion Hall|].
    inversion Hall as [|sh' ? ss'' ? Hd' Hall']; subst. cbn. rewrite (IH _ Hall'), Hd, Hd', drop_app_length. symmetry. apply gone_entries_app. }
  assert (Hfs : files_of l = file_of_entry <$> concat (order ∘ fst <$> l)).
  { unfold files_of. assert (Hdet : Forall (λ an : Spec * nat, detached an.1 = []) l).
    { apply list.Forall_lookup. intros i an Ei. destruct (client_lookup _ _ i Hc) as (sh & an' & hd & _ & E2 & _ & Hrel).
      { rewrite <- (cr_specs _ _ Hc). by eapply lookup_lt_Some. }
      assert (an' = an) as -> by congruence. eapply unheld_detached; [exact Hrel|]. rewrite list.Forall_lookup in Hheld. by eapply Hheld. }
    clear - Hdet. induction Hdet as [|an l Hd _ IH]; [done|]. cbn. rewrite IH, fmap_app. unfold entries. by rewrite Hd, app_nil_r. }
  destruct (run_deleters_spec (concat (order ∘ fst <$> l)) (env_ st) (tr_inv _ _ _ HR)) as (w' & Er & _ & Hfl & Hop).
  { rewrite <- Hfs. by apply (tr_nodup _ _ _ HR). }
  { intros x (o & Hx & ([a n] & -> & Hin)%list_elem_of_fmap)%elem_of_concat. apply list_elem_of_lookup in Hin as [i Ei].
    eapply (tr_entries _ _ _ HR); [exact Ei|]. apply elem_of_app. by left. }
  eexists. split; [unfold delete_TableCache, on_cache; rewrite Ec; cbn [mbind option_bind]; rewrite Hcalls, Er; done|]. cbn.
  split; [done|]. intros h. destruct (opened w' h) as [F|] eqn:EF; [|done]. apply Hop in EF as [EF Hnot]. destruct Hnot. rewrite <- Hfs.
  apply (tr_opened _ _ _ HR). by exists F.
Qed.

(** What clients can reach from an empty cache. *)
Lemma reachable_ok w0 ids s :
  inv w0 → files_right w0 → (∀ h, opened w0 h = None) → rtc tc_step (new_TableCache capacity ids w0, []) s → client_ok s.
Proof.
  intros Hi Hfr Hno Hr. pose proof (new_client_ok w0 ids Hi Hfr Hno) as H0. revert H0. induction Hr as [s|s1 s2 s3 Hstep _ IH]; [done|].
  intros H0. by apply IH; eapply tc_step_ok.
Qed.

(** C8: what a client of the table cache reads, after any series of its calls.
    From an empty cache of any capacity, let a client ask for tables, hold, move
    and delete iterators and evict tables, while files are written, renamed and
    removed by others, but for the contents of a table file of a number, which
    stay what they are. Then for a file that is there, under its new name or its
    old one, [Get] and [NewIterator] succeed and give what is in the file:
    neither the tables that are cached, nor those that were evicted or replaced,
    nor what the block cache holds is visible. For a file that is gone and whose
    table was evicted, the status is an error. *)
Theorem TableCache_reads w0 ids st its n T es :
  inv w0 → files_right w0 → (∀ h, opened w0 h = None) → rtc tc_step (new_TableCache capacity ids w0, []) (st, its) →
  stored n = Some (T, es) → zlen its + 1 < 2 ^ 30 →
  (on_disk (env_ st) n →
    (∀ block_cache ro k, blocks_right block_cache st n T → V k →
      ∃ saved st', Get block_cache ro n (zlen T) k st = Some ((Status_OK, saved), st') ∧ files (env_ st') = files (env_ st) ∧
        (∀ e, head (entries_from es k) = Some e → found_as (V := V) options k e.1 → saved = Some e) ∧
        (∀ e, saved = Some e → head (entries_from es k) = Some e)) ∧
    (∀ block_cache ro, blocks_right block_cache st n T →
      ∃ it st', NewIterator ro n (zlen T) st = Some ((inr it, Some (ti_table it)), st') ∧ files (env_ st') = files (env_ st) ∧
        iterates (II := TableIter_Iterator block_cache) it V es)) ∧
  ∃ st', Evict n st = Some ((), st') ∧ files (env_ st') = files (env_ st) ∧
    (¬ on_disk (env_ st) n → ∀ block_cache ro k,
      ∃ s st'', Get block_cache ro n (zlen T) k st' = Some ((s, None), st'') ∧ ok s = false).
Proof.
  intros Hi Hfr Hno Hr Hst Hfew. destruct (reachable_ok _ _ _ Hi Hfr Hno Hr) as (l & HO & Hit). cbn [fst snd] in *.
  assert (Hfew' : zlen (concat (ti_cleanups <$> its)) + 1 < 2 ^ 30) by by rewrite (few_handles _ _ _ Hit).
  split; [intros Hd; split|].
  - intros bc ro k Hbr Vk. destruct (tc_Get bc ro st l _ n T es k HO Hfew' Hst (or_intror Hd) Hbr Vk) as (saved & st' & l' & EG & _ & Hfl & _ & H1 & H2).
    by exists saved, st'.
  - intros bc ro Hbr. destruct (tc_NewIterator bc ro st l _ n T es HO Hfew' Hst (or_intror Hd) Hbr) as (it & p & st' & l' & EN & _ & Hfl & _ & _ & Hsh).
    exists it, st'. split; [done|]. split; [done|]. exact (rel_iterates (IL := TableIter_laws bc) it es p Hsh).
  - destruct (tc_Erase st l _ n HO) as (st1 & l1 & EE & _ & Hfl & _ & HO1 & _ & Hnc). exists st1. split; [done|]. split; [done|].
    intros Hd bc ro k. destruct (tc_FindTable_missing st1 l1 _ n (zlen T) HO1 Hfew' Hnc) as (s & st2 & l2 & EF & Hs & _).
    { unfold on_disk. by rewrite Hfl. }
    exists s, st2. split; [|done]. unfold TableCache.Get. by rewrite (M_bind_Some _ _ _ _ _ EF).
Qed.

(** The files that the table cache has open. In every state that a client
    can reach, each of its iterators holds a handle to its table, whose file is open;
    there are never more files open than the capacity, rounded up to the number
    of shards, and one for each iterator; and when all iterators are deleted the
    destructor of the cache closes all files. *)
Theorem TableCache_files w0 ids st its :
  inv w0 → files_right w0 → (∀ h, opened w0 h = None) → rtc tc_step (new_TableCache capacity ids w0, []) (st, its) →
  (∀ it, it ∈ its → ∃ h f, ti_cleanups it = [h] ∧ Value (cache_ st) h = Some {| file := f; table := ti_table it |} ∧
    opened (env_ st) f = Some (ti_file it)) ∧
  (∀ fs, NoDup fs → (∀ f, f ∈ fs → is_Some (opened (env_ st) f)) → zlen fs ≤ capacity + 15 + zlen its) ∧
  (its = [] → ∃ st', delete_TableCache st = Some ((), st') ∧ files (env_ st') = files (env_ st) ∧ ∀ f, opened (env_ st') f = None).
Proof.
  intros Hi Hfr Hno Hr. destruct (reachable_ok _ _ _ Hi Hfr Hno Hr) as (l & HO & Hit). cbn [fst snd] in *. split; [|split].
  - intros it Hin. destruct (Hit it Hin) as (h & Hc & e & He & HF & Ht). exists h, (file (e_value e)). split; [done|]. split; [|done].
    rewrite (at_spec_Value _ _ _ _ _ _ HO He), <- Ht. by destruct (e_value e).
  - intros fs Hnd Hop. rewrite <- (few_handles st l its Hit). etransitivity; [|by apply (tc_open_files _ _ _ _ HO)].
    apply NoDup_ListNoDup in Hnd. apply inj_le, (NoDup_incl_length Hnd). intros f Hf. apply list_elem_of_In.
    by apply (tr_opened _ _ _ (to_rel _ _ _ _ HO)), Hop, list_elem_of_In.
  - intros ->. by apply (tc_delete st l).
Qed.
End Correct.

(** ** The in-memory environment *)

Module MemFiles.
(** [FileState::Read]; the result is a pointer into a block if it is in one
    block. *)
Definition mem_file (data : bytes) : TableFile := {|
  Format.Read off n :=
    if decide (off > zlen data) then (IOError (str "Offset greater than file size.") [], [])
    else (Status_OK, ztake n (zdrop off data));
  mapped off n := let n := Z.min n (zlen data - off) in
    bool_decide (n = 0) || bool_decide (n ≤ MemEnv.kBlockSize - off mod MemEnv.kBlockSize) |}.

#[export] Instance MemRandomFiles : RandomFiles InMemoryEnv := {|
  opened w h := match objs w !! (h : nat) with Some (RandomAccessFileImpl p) => Some (mem_file (mem_bytes w p)) | _ => None end |}.

Lemma opened_a w a (h : nat) : refines w a →
  opened (E := InMemoryEnv) w h = match a_objs a !! h with Some (RandomAccessFileImpl p) => Some (mem_file (a_data a p)) | _ => None end.
Proof.
  intros H. pose proof H as (_ & Ho & _). cbn. rewrite Ho. destruct (a_objs a !! h) as [[?|p|?]|] eqn:Eh; try done.
  rewrite (mem_bytes_spec w a p H); [done|]. rewrite <- Ho in Eh. apply (refs_object _ _ _ Eh).
Qed.

Lemma mem_file_laws data : TableFileLaws (mem_file data) data.
Proof. split. intros off n H0 Hn Hle. exists Status_OK. cbn. by rewrite decide_False by lia. Qed.

Lemma mem_rl_Read (h : nat) F off n w : Mem.mem_inv w → opened (E := InMemoryEnv) w h = Some F → 0 ≤ off → 0 ≤ n →
  Mem_rf_Read h off n w = Some (Format.Read (TableFile := F) off n, w).
Proof.
  intros (a & H & _) HF H0 Hn. rewrite (opened_a w a h H) in HF. destruct (a_objs a !! h) as [[?|p|?]|] eqn:Eh; try done.
  injection HF as <-. pose proof (wp_ReadAt w a h p off n H Eh H0 Hn) as Hw. unfold wp, Mem_rf_Read in *.
  pose proof H as (_ & Ho & _). rewrite Ho, Eh in *. destruct (heap w !! p) as [f|]; [|done]. cbn [mbind option_bind] in *.
  destruct (FileState_Read f off n) as [r|]; [|done]. cbn [mbind option_bind] in *. destruct Hw as [_ ->]. done.
Qed.

Lemma mem_rl_New f w : Mem.mem_inv w →
  match Mem.mem_files w !! f with
  | Some T => ∃ (h : nat) F w', Mem_NewRandomAccessFile f w = Some (inr h, w') ∧ Mem.mem_inv w' ∧ Mem.mem_files w' = Mem.mem_files w ∧
      opened (E := InMemoryEnv) w h = None ∧ TableFileLaws F T ∧
      ∀ (h' : nat) F', opened (E := InMemoryEnv) w' h' = Some F' ↔ opened (E := InMemoryEnv) w h' = Some F' ∨ (h' = h ∧ F' = F)
  | None => ∃ s, Mem_NewRandomAccessFile f w = Some (inl s, w) ∧ ok s = false
  end.
Proof.
  intros (a & H & Hi & H1). rewrite (Mem.files_a w a H). unfold Mem.a_files. rewrite lookup_fmap.
  pose proof (wp_new_random w a f H) as Hw. apply wp_Some in Hw as (r & w' & E' & a' & Hs & H').
  pose proof (in_file_spec (OpNewRandomAccessFile f) a (RHandle r) a' Hi I Hs) as Hi'. unfold spec_NewFileObject in Hs.
  destruct (a_names a !! f) as [p|] eqn:Ef; cbn [fmap option_fmap option_map].
  - destruct r as [|h]; [done|]. destruct Hs as [Hh ->]. exists h, (mem_file (a_data a p)), w'. splits; [done| | | |apply mem_file_laws|].
    + by exists (a_set_objs a (<[h := RandomAccessFileImpl p]> (a_objs a))).
    + rewrite (Mem.files_a _ _ H'). done.
    + by rewrite (opened_a w a h H), Hh.
    + intros h' F'. rewrite (opened_a w a h' H), (opened_a w' _ h' H'). cbn. destruct (decide (h' = h)) as [->|Hne].
      * rewrite lookup_insert_eq, Hh. split; [intros [= <-]; by right|by intros [?|[_ ->]]].
      * rewrite lookup_insert_ne by by apply not_eq_sym. split; [by left|by intros [?|[? _]]].
  - destruct r as [s|]; [|done]. destruct Hs as [-> ->].
    assert (w' = w) as ->; [|by exists (file_not_found f)].
    pose proof H as (Hn & _). unfold Mem_NewRandomAccessFile in E'. rewrite <- Hn in Ef.
    rewrite (M_bind_Some _ (find f) w None w) in E' by (unfold find; by rewrite Ef). by injection E' as ->.
Qed.

Lemma mem_rl_delete (h : nat) F w : Mem.mem_inv w → opened (E := InMemoryEnv) w h = Some F →
  ∃ w', delete_object h w = Some ((), w') ∧ Mem.mem_inv w' ∧ Mem.mem_files w' = Mem.mem_files w ∧
    ∀ (h' : nat) F', opened (E := InMemoryEnv) w' h' = Some F' ↔ opened (E := InMemoryEnv) w h' = Some F' ∧ h' ≠ h.
Proof.
  intros (a & H & Hi & H1) HF. rewrite (opened_a w a h H) in HF. destruct (a_objs a !! h) as [o|] eqn:Eh; [|done].
  pose proof (wp_delete_object _ w a h o H Eh ltac:(done)) as Hw. apply wp_Some in Hw as ([] & w' & E' & H'). exists w'. split; [done|].
  split; [|split].
  - exists (a_set_objs a (delete h (a_objs a))). split; [done|]. split; [|done]. by apply (in_file_spec (OpDelete h) a RUnit _ Hi); [exists o|].
  - by rewrite (Mem.files_a _ _ H'), (Mem.files_a _ _ H).
  - intros h' F'. rewrite (opened_a w a h' H), (opened_a w' _ h' H'). cbn. destruct (decide (h' = h)) as [->|Hne].
    + rewrite lookup_delete_eq. split; [done|by intros []].
    + rewrite lookup_delete_ne by by apply not_eq_sym. split; [done|by intros []].
Qed.

#[export] Instance MemRandomFiles_laws : RandomLaws MemRandomFiles Mem.mem_inv Mem.mem_files.
Proof. split; [exact mem_rl_Read|exact mem_rl_New|exact mem_rl_delete]. Qed.

(** A world with one file. *)
Lemma one_file name T : ∃ w, Mem.mem_inv w ∧ objs w = ∅ ∧ Mem.mem_files w = {[name := T]}.
Proof.
  destruct (FileState_Append_spec (Ref new_FileState) [] T fs_rep_new) as (f & _ & Hrep & Hrefs).
  set (w := {| heap := {[0%nat := f]}; objs := ∅; file_map_ := {[name := 0%nat]} |}).
  set (a := {| a_names := {[name := 0%nat]}; a_objs := ∅; a_data := λ _, T |}).
  assert (H : refines w a).
  { split; [done|]. split; [done|]. intros p. unfold file_ok, MemEnv.refs. change (heap w) with ({[0%nat := f]} : gmap nat FileState).
    change (objs w) with (∅ : gmap nat FileObject). change (file_map_ w) with ({[name := 0%nat]} : gmap bytes nat). rewrite count_empty.
    unfold count. rewrite map_filter_singleton. destruct (decide (p = 0%nat)) as [->|Hp].
    - rewrite lookup_singleton_eq. rewrite Hrefs. case_decide; [|done]. rewrite map_size_singleton. splits; done.
    - rewrite lookup_singleton_ne by done. case_decide as Hd; [by destruct Hp; cbn in Hd|]. by rewrite map_size_empty. }
  exists w. split; [|split; [done|]].
  - exists a. split; [done|]. split; [by intros h p pos Hh|]. intros g g' p Hg Hg'. cbn in Hg, Hg'.
    apply lookup_singleton_Some in Hg as [<- _]. by apply lookup_singleton_Some in Hg' as [<- _].
  - rewrite (Mem.files_a w a H). unfold Mem.a_files. cbn. by rewrite map_fmap_singleton.
Qed.
End MemFiles.

(** ** Example *)

Import MemFiles.

Module Example.
(** The table 5. *)
Definition stored (T : bytes) (es : list entry) (n : Z) : option (bytes * list entry) := if decide (n = 5) then Some (T, es) else None.
Abbreviation reads T := (reads_as (C := BytewiseComparator) (P := UnalignedPlacement) any_key Builder.Example.options (zlen T) T Builder.Example.es).
End Example.

Lemma example_reads : ∃ T, Example.reads T.
Proof.
  destruct (built_reads (C := BytewiseComparator) (V := any_key) (CL := BytewiseComparator_laws) (P := UnalignedPlacement) (PL := UnalignedPlacement_laws) (RF := BytesWritable_reliable)
    Builder.Example.options Builder.Example.es []) as (r & T & _ & _ & _ & _ & HR); [..|by exists T].
  - split; [by right|by cbn].
  - repeat constructor; by vm_compute.
  - repeat constructor.
  - by vm_compute.
  - exact I.
  - exact I.
  - exact I.
  - reflexivity.
Qed.

Lemma example_stored {C : Comparator} {P : Placement} V options T es : reads_as V options (zlen T) T es →
  ∀ n T' es', Example.stored T es n = Some (T', es') → in_w 64 n ∧ reads_as V options (zlen T') T' es'.
Proof. intros HT n T' es'. unfold Example.stored. destruct (decide (n = 5)) as [->|]; [|done]. by intros [= <- <-]. Qed.

(** A world with its file. *)
Lemma example_world T es : ∃ w, Mem.mem_inv w ∧
  files_right (files := Mem.mem_files) (str "db") (Example.stored T es) w ∧ (∀ h, opened (E := InMemoryEnv) w h = None) ∧
  on_disk (files := Mem.mem_files) (str "db") w 5.
Proof.
  destruct (MemFiles.one_file (TableFileName (str "db") 5) T) as (w & Hi & Ho & HF). exists w. split; [done|]. split; [|split].
  - intros n T1 es1 f T' Hst Hf HT. unfold Example.stored in Hst. destruct (decide (n = 5)) as [->|]; [|done]. injection Hst as <- <-.
    rewrite HF in HT. by apply lookup_singleton_Some in HT as [_ ?].
  - intros h. cbn. by rewrite Ho.
  - left. rewrite HF. by rewrite lookup_singleton_eq.
Qed.

Lemma TableCache_reads_witness :
  ∃ (T : bytes) w st', Get (E := InMemoryEnv) (C := BytewiseComparator) (P := UnalignedPlacement) true (str "db") Builder.Example.options None
    default_ReadOptions 5 (zlen T) (str "apply") (new_TableCache 100 None w) = Some ((Status_OK, Some (str "apply", str "2")), st').
Proof.
  destruct example_reads as [T HT]. destruct (example_world T Builder.Example.es) as (w & Hi & Hfr & Hno & Hd).
  destruct (TableCache_reads (V := any_key) (CL := BytewiseComparator_laws) (RL := MemFiles.MemRandomFiles_laws) true (str "db")
    Builder.Example.options (Example.stored T Builder.Example.es) (example_stored _ _ T _ HT) 100 ltac:(by split) w None (new_TableCache 100 None w) [] 5 T Builder.Example.es
    Hi Hfr Hno (rtc_refl _ _) eq_refl eq_refl) as [H _].
  destruct (H Hd) as [Hget _]. destruct (Hget None default_ReadOptions (str "apply") (blocks_right_None _ _ _ _ _ _) I) as (saved & st' & EG & _ & Hs & _).
  exists T, w, st'. rewrite (Hs (str "apply", str "2")) in EG; [exact EG|by vm_compute|].
  by apply (found_as_refl (CL := BytewiseComparator_laws)).
Defined.

Lemma TableCache_files_witness :
  ∃ (T : bytes) st (it : TableIter) h f, ti_cleanups it = [h] ∧
    Value (cache_ st) h = Some {| file := f; table := ti_table it |} ∧ opened (E := InMemoryEnv) (env_ st) f = Some (ti_file it).
Proof.
  destruct example_reads as [T HT]. destruct (example_world T Builder.Example.es) as (w & Hi & Hfr & Hno & Hd).
  destruct (new_client_ok (files := Mem.mem_files) (P := UnalignedPlacement) true (str "db") Builder.Example.options (Example.stored T Builder.Example.es) 100 w None Hi Hfr Hno) as (l & HO & Hit).
  destruct (tc_NewIterator (C := BytewiseComparator) (V := any_key) (RL := MemFiles.MemRandomFiles_laws) true (str "db")
    Builder.Example.options (Example.stored T Builder.Example.es) (example_stored _ _ T _ HT) 100 ltac:(by split) None default_ReadOptions _ l [] 5 T Builder.Example.es
    HO eq_refl eq_refl (or_intror Hd) (blocks_right_None _ _ _ _ _ _)) as (it & _ & st & _ & EN & _).
  destruct (TableCache_files (C := BytewiseComparator) (V := any_key) (RL := MemFiles.MemRandomFiles_laws) true (str "db")
    Builder.Example.options (Example.stored T Builder.Example.es) (example_stored _ _ T _ HT) 100 ltac:(by split) w None st [it] Hi Hfr Hno) as (H & _ & _).
  - eapply rtc_once. exact (step_NewIterator _ _ _ _ default_ReadOptions 5 T Builder.Example.es (inr it) _ _ _ [] eq_refl eq_refl EN).
  - destruct (H it ltac:(by left)) as (h & f & H1 & H2 & H3). by exists T, st, it, h, f.
Defined.
