(* ===== verification/TableCacheView.v ===== *)
(** Reading a version through the table cache: what [db/version_set.cc] is
    promised of [table_cache_->Get] and [table_cache_->NewIterator], and of
    [Table::ApproximateOffsetOf], is what [db/table_cache.cc] gives. *)
From Stdlib Require Import Sorting.Sorted.
From stdpp Require Import gmap.
From S2P Require Import Prelude SortedLists Coding Status Comparator Bloom Crc32c Env MemEnv EnvFiles FileName DbFormat Iterator Block Format TwoLevelIterator Table Merger DbIter VersionEdit Builder Version VersionRead TableCache.

(** ** Keys of one user key *)

Section UserKeys.
Context {C : Comparator} {V : bytes → Prop} {CL : ComparatorLaws C V}.
Abbreviation IKC := (InternalKeyComparator (user_comparator_ := C)).
Abbreviation IV := (ikey_valid (V := V)).

(** A separator of two internal keys is before all keys of the user key of the
    second, unless it is the first. *)
Lemma separator_user_key a k k' :
  IV a → IV k → IV k' → ExtractUserKey k = ExtractUserKey k' → Compare (Comparator := IKC) a k < 0 →
  Compare (Comparator := IKC) (FindShortestSeparator (Comparator := IKC) a k') k < 0.
Proof.
  intros [Ha Va] [Hk Vk] [Hk' Vk'] Hu Hlt. cbn [FindShortestSeparator InternalKeyComparator]. unfold Internal_FindShortestSeparator.
  case_decide as Hc; [|done]. destruct Hc as [_ Hc]. rewrite <- Hu in *. apply Internal_Compare_lt. unfold PutFixed64.
  destruct (Extract_app (FindShortestSeparator (ExtractUserKey a) (ExtractUserKey k)) max_tag max_tag_ok) as [E1 _].
  unfold max_tag in E1. rewrite E1. left. apply Internal_Compare_lt in Hlt as [Hlt|[Heq _]]; [by apply Separator_lt|].
  apply Compare_eq in Heq; [|done..]. rewrite <- Heq in *. pose proof (Separator_refl (ExtractUserKey a) Va) as Hr.
  apply Compare_flip in Hc; [lia|done|by apply Separator_valid].
Qed.

(** The index and the filter of a table do not tell keys of one user key apart. *)
Lemma found_as_user_key options user_policy k k' :
  filter_policy options = InternalFilterPolicy <$> user_policy → IV k → IV k' → ExtractUserKey k = ExtractUserKey k' →
  found_as (C := IKC) (V := IV) options k k'.
Proof.
  intros Hp Vk Vk' Hu. split.
  - intros a Va Hlt _. by apply separator_user_key.
  - rewrite Hp. destruct user_policy as [FP|]; [|done]. intros f. cbn. by rewrite Hu.
Qed.
End UserKeys.

(** ** The interface *)

Section Instance_.
Context {W : Type} {E : Env W} {RF : RandomFiles E} {C : Comparator} {P : Placement}.
Context (char_signed : bool) (dbname : bytes) (options : Options) (block_cache : option (bytes → option Block)).

(** The results of the operations that read. *)
Definition CachedTables : TableCache (TableCacheState W) := {|
  TableIterator := EmptyIterator + TableIter;
  TableIterator_Iterator := sum_Iterator (IJ := TableIter_Iterator block_cache);
  cache_NewIterator st ro n size := '(r, _, _) ← TableCache.NewIterator char_signed dbname options ro n size st; Some r;
  cache_ApproximateOffsetOf st n size k :=
    '(_, t, _) ← TableCache.NewIterator char_signed dbname options default_ReadOptions n size st;
    match t with Some t => Some <$> ApproximateOffsetOf t k | None => Some None end;
  cache_Get st ro n size k := fst <$> TableCache.Get char_signed dbname options block_cache ro n size k st;
  cache_Evict n := TableCache.Evict n;
|}.
End Instance_.

Section Reads.
Context {W : Type} {E : Env W} {RF : RandomFiles E} {inv : W → Prop} {files : W → gmap bytes bytes}.
Context {RL : RandomLaws RF inv files}.
Context {C : Comparator} {V : bytes → Prop} {CL : ComparatorLaws C V} {P : Placement}.
Abbreviation IKC := (InternalKeyComparator (user_comparator_ := C)).
Abbreviation IV := (ikey_valid (V := V)).
Context (char_signed : bool) (dbname : bytes) (options : Options) (block_cache : option (bytes → option Block)).
Context (user_policy : option FilterPolicy) (Hpolicy : filter_policy options = InternalFilterPolicy <$> user_policy).
Context (stored : Z → option (bytes * list entry)).
Hypothesis stored_reads : ∀ n T es, stored n = Some (T, es) →
  in_w 64 n ∧ reads_as (C := IKC) IV options (zlen T) T es.
Context (capacity : Z) (Hcapacity : 0 ≤ capacity < 2 ^ 30).
Context (content : FileMetaData → list entry).

Abbreviation cached_tables := (CachedTables (C := IKC) char_signed dbname options block_cache).
Abbreviation file_ok := (VersionRead.file_ok (C := C) (V := V) content).

(** The files that a version may name are on disk. *)
Definition tables_there (st : TableCacheState W) : Prop :=
  ∀ f, file_ok f → ∃ T, stored (number f) = Some (T, content f) ∧ file_size f = zlen T ∧
    on_disk (files := files) dbname (env_ st) (number f) ∧ blocks_right char_signed dbname options block_cache st (number f) T.

Context (st : TableCacheState W) (its : list TableIter) (ro : ReadOptions).
Context (Hclient : client_ok (inv := inv) (files := files) char_signed dbname options stored capacity (st, its)).
Context (Hfew : zlen its + 1 < 2 ^ 30) (Hthere : tables_there st).

#[export] Instance cached_reads : TableReads (C := C) (V := V) content (cache_Get (TableCache := cached_tables) st ro).
Proof.
  split. intros f k Hf Vk. destruct Hclient as (l & HO & Hi). cbn [fst snd] in *.
  destruct (Hthere f Hf) as (T & Hst & -> & Hd & Hbr).
  assert (Hfew' : zlen (concat (ti_cleanups <$> its)) + 1 < 2 ^ 30) by by rewrite (few_handles _ _ _ Hi).
  destruct (tc_Get char_signed dbname options stored stored_reads capacity Hcapacity block_cache ro st l _ (number f) T (content f) k
    HO Hfew' Hst (or_intror Hd) Hbr Vk) as (saved & st' & l' & EG & _ & _ & _ & H1 & H2).
  exists saved. split; [cbn [cache_Get CachedTables]; by rewrite EG|]. split; [exact H2|].
  intros e He Hu. apply H1; [done|]. apply (found_as_user_key options user_policy); [done|done| |done].
  assert (Hin : e ∈ content f).
  { rewrite head_lookup in He. apply list_elem_of_lookup_2 in He. by apply list_elem_of_filter in He as [_ ?]. }
  pose proof (fo_keys _ _ Hf) as Hk. rewrite list.Forall_forall in Hk. by destruct (Hk e Hin).
Qed.

(** What the iterators are at. *)
Definition cached_rel : EmptyIterator + TableIter → list entry → option nat → Prop :=
  sum_rel (λ it es p, it = NewEmptyIterator ∧ es = [] ∧ p = None) (ti_shows (C := IKC) (V := IV) block_cache).

#[export] Instance cached_iterators :
  TableIterators (C := C) (V := V) content (rel := cached_rel) (cache_NewIterator (TableCache := cached_tables) st ro).
Proof.
  split. intros f Hf. destruct Hclient as (l & HO & Hi). cbn [fst snd] in *.
  destruct (Hthere f Hf) as (T & Hst & -> & Hd & Hbr).
  assert (Hfew' : zlen (concat (ti_cleanups <$> its)) + 1 < 2 ^ 30) by by rewrite (few_handles _ _ _ Hi).
  destruct (tc_NewIterator char_signed dbname options stored stored_reads capacity Hcapacity block_cache ro st l _ (number f) T (content f)
    HO Hfew' Hst (or_intror Hd) Hbr) as (it & p & st' & l' & EN & _ & _ & _ & _ & Hsh).
  exists (inr it), p. split; [cbn [cache_NewIterator CachedTables]; by rewrite EN|exact Hsh].
Qed.
End Reads.

(** Reading a key from a version reads the table files. From an empty table
    cache and after any series of calls of its clients, let the files that a
    version names be on disk, each a table that was built of entries in the
    order of the internal keys with any block size, compression and filter of
    user keys, and let the levels satisfy their invariant. Then [Version::Get]
    with the lookups of [TableCache::Get], which open the files, search the index
    block, ask the filter and search one block, ends, and finds exactly what the
    view of the snapshot over all entries of all files has for the user key. *)
Theorem Version_Get_reads_tables {W : Type} {E : Env W} {RF : RandomFiles E} {inv files} {RL : RandomLaws RF inv files}
    {C : Comparator} {V : bytes → Prop} {CL : ComparatorLaws C V} {P : Placement}
    char_signed dbname options block_cache user_policy stored capacity content ro w0 ids st its v u s value es :
  let tables := CachedTables (C := InternalKeyComparator (user_comparator_ := C)) char_signed dbname options block_cache in
  filter_policy options = InternalFilterPolicy <$> user_policy →
  (∀ n T es, stored n = Some (T, es) → in_w 64 n ∧
    reads_as (C := InternalKeyComparator (user_comparator_ := C)) (ikey_valid (V := V)) options (zlen T) T es) →
  0 ≤ capacity < 2 ^ 30 → inv w0 → files_right (files := files) dbname stored w0 → (∀ h, opened w0 h = None) →
  rtc (tc_step (inv := inv) (files := files) (C := InternalKeyComparator (user_comparator_ := C)) (V := ikey_valid (V := V))
    char_signed dbname options stored) (new_TableCache capacity ids w0, []) (st, its) →
  zlen its + 1 < 2 ^ 30 →
  tables_there (files := files) (C := C) (V := V) char_signed dbname options block_cache stored content st →
  version_ok (C := C) (V := V) content v → V u → seq_ok s → zlen u + 8 < 2 ^ 32 → es ≡ₚ all_entries content v →
  ∃ r value' stats, Version.Get (user_comparator := C) (cache_Get (TableCache := tables) st ro) v (mkLookupKey u s) value = Some (r, value', stats) ∧
    (r = Status_OK ∧ (∀ val, (u, val) ∈ user_view s es ↔ val = value') ∨
     r = NotFound [] [] ∧ value' = value ∧ ∀ val, (u, val) ∉ user_view s es).
Proof.
  intros tables Hpol Hread Hcap Hi Hfr Hno Hr Hfew Hthere Hv Vu Hs Hu Hes.
  pose proof (reachable_ok _ _ _ _ Hread capacity Hcap w0 ids _ Hi Hfr Hno Hr) as Hc.
  apply (Get_view (V := V) content); try done. by eapply cached_reads.
Qed.

(** ** Example *)

Module Example.
Abbreviation IKC := (InternalKeyComparator (user_comparator_ := BytewiseComparator)).
Abbreviation IV := (ikey_valid (V := any_key)).

(** A table with two versions of a key, in blocks of one entry, with a filter. *)
Definition es : list entry :=
  [(InternalKey (str "a") 5 1, str "a5"); (InternalKey (str "b") 7 1, str "b7"); (InternalKey (str "b") 4 1, str "b4")].
Definition policy : FilterPolicy := NewBloomFilterPolicy true 10.
Definition options : Options :=
  {| paranoid_checks := true; block_size := 10; block_restart_interval := 2; compression := kSnappyCompression;
     filter_policy := InternalFilterPolicy <$> Some policy |}.
Definition file (T : bytes) : FileMetaData := new_FileMetaData 5 (zlen T) (InternalKey (str "a") 5 1) (InternalKey (str "b") 4 1).
Definition content (T : bytes) (f : FileMetaData) : list entry := if decide (number f = 5 ∧ file_size f = zlen T) then es else [].
Definition v (T : bytes) : Version :=
  {| files_ := [[]; [file T]; []; []; []; []; []]; file_to_compact_ := None; compaction_level_ := -1; compaction_score_ := (-1, 1) |}.
End Example.

Lemma example_table : ∃ T, zlen T < 2 ^ 34 ∧
  reads_as (C := Example.IKC) (P := UnalignedPlacement) Example.IV Example.options (zlen T) T Example.es.
Proof.
  destruct (built_reads (C := Example.IKC) (V := Example.IV) (CL := InternalKeyComparator_laws) (P := UnalignedPlacement)
    (PL := UnalignedPlacement_laws) (RF := BytesWritable_reliable) Example.options Example.es []) as (r & T & _ & _ & _ & Hlen & HR); [..|by exists T].
  - split; [by right|by cbn].
  - repeat constructor; by vm_compute.
  - repeat constructor; by vm_compute.
  - by vm_compute.
  - split; [by vm_compute|]. split; [eexists; apply InternalFilterPolicy_laws, NewBloomFilterPolicy_laws|]. exists 20. split; [|by vm_compute].
    intros keys Hne. unfold zlen at 2. rewrite <- (length_fmap ExtractUserKey keys). apply zlen_Bloom_CreateFilter; [lia|]. by destruct keys.
  - eexists. split; [apply InternalFilterPolicy_laws, NewBloomFilterPolicy_laws|].
    intros ks Hks%sublist_length. cbn in Hks. cbn beta. unfold bloom_dom, zlen. rewrite length_fmap. change (bits_per_key_ _) with 10.
    rewrite wrap_small by word_solve. word_solve.
  - exact I.
  - reflexivity.
Qed.

(** The version that has the table in level 1. *)
Section ExampleVersion.
Context (T : bytes) (Hlen : zlen T < 2 ^ 34).
Abbreviation file := (Example.file T).
Abbreviation content := (Example.content T).

Lemma example_file_content : content file = Example.es.
Proof. unfold Example.content. by rewrite decide_True. Qed.

Lemma example_level l f : f ∈ level_files (Example.v T) l → l = 1%nat ∧ f = file.
Proof.
  destruct l as [|[|[|[|[|[|[|[|l]]]]]]]]; try by intros ?%elem_of_nil. by intros ->%list_elem_of_singleton.
Qed.

Lemma example_file_ok : file_ok (C := BytewiseComparator) (V := any_key) content file.
Proof.
  split; rewrite ?example_file_content.
  - repeat constructor; by vm_compute.
  - repeat constructor; by vm_compute.
  - by vm_compute.
  - by vm_compute.
  - cbn. pose proof (zlen_nonneg T). unfold in_w. lia.
  - by vm_compute.
Qed.

Lemma example_version_ok : version_ok (C := BytewiseComparator) (V := any_key) content (Example.v T).
Proof.
  split.
  - done.
  - intros l. apply list.Forall_forall. intros f [_ ->]%example_level. apply example_file_ok.
  - intros l _. destruct l as [|[|[|[|[|[|[|[|l]]]]]]]]; repeat constructor.
  - intros f g [? _]%example_level. lia.
  - cbn. repeat constructor. by intros ?%elem_of_nil.
  - intros l l' f g Hl [-> _]%example_level [-> _]%example_level. lia.
Qed.

(** No other file is like it. *)
Lemma example_there w st : on_disk (files := Mem.mem_files) (str "db") w 5 → env_ st = w →
  tables_there (E := InMemoryEnv) (RF := MemFiles.MemRandomFiles) (files := Mem.mem_files) (C := BytewiseComparator) (V := any_key) (P := UnalignedPlacement)
    true (str "db") Example.options None (TableCache.Example.stored T Example.es) content st.
Proof.
  intros Hd Hw f Hf. pose proof (fo_smallest _ _ Hf) as Hs. unfold Example.content in *. case_decide as Hn; [|done].
  destruct Hn as [Hn Hsz]. exists T. rewrite Hn. splits; [done|done|by rewrite Hw|apply blocks_right_None].
Qed.
End ExampleVersion.

Lemma Version_Get_reads_tables_witness :
  ∃ T w stats, Version.Get (user_comparator := BytewiseComparator)
      (cache_Get (TableCache := CachedTables (E := InMemoryEnv) (RF := MemFiles.MemRandomFiles) (C := Example.IKC) (P := UnalignedPlacement)
        true (str "db") Example.options None) (new_TableCache 100 None w) default_ReadOptions)
      (Example.v T) (mkLookupKey (str "b") 9) [] = Some (Status_OK, str "b7", stats).
Proof.
  destruct example_table as (T & Hlen & HT). destruct (example_world T Example.es) as (w & Hi & Hfr & Hno & Hd).
  destruct (Version_Get_reads_tables (V := any_key) (CL := BytewiseComparator_laws) (RL := MemFiles.MemRandomFiles_laws) (P := UnalignedPlacement)
    true (str "db") Example.options None (Some Example.policy) (TableCache.Example.stored T Example.es) 100 (Example.content T) default_ReadOptions
    w None (new_TableCache 100 None w) [] (Example.v T) (str "b") 9 [] Example.es) as (r & value' & stats & EG & H); [..|exists T, w, stats].
  - reflexivity.
  - by apply example_stored.
  - by split.
  - exact Hi.
  - exact Hfr.
  - exact Hno.
  - apply rtc_refl.
  - reflexivity.
  - by apply (example_there T w).
  - by apply example_version_ok.
  - exact I.
  - by vm_compute.
  - by vm_compute.
  - unfold all_entries. cbn [Example.v files_ concat app fmap list_fmap]. by rewrite example_file_content, app_nil_r.
  - assert (Hv : (str "b", str "b7") ∈ user_view 9 Example.es) by (apply (bool_decide_unpack _); by vm_compute).
    destruct H as [[-> H]|(_ & _ & H)]; [|by destruct (H _ Hv)]. apply H in Hv as <-. exact EG.
Defined.
